(* ===== verification/_CoqProject ===== *)
-Q . S2P
Prelude.v
Order.v
Program.v
RustString.v
Json.v
RustFloat.v
Diagnostics.v
Yaml.v
YamlFacts.v
Expression.v
Lexer.v
Parser.v
Budget.v
Decimal.v
Provenance.v
Scalars.v
JsonText.v
Evaluator.v
JsonPointer.v
Fit.v
Filters.v
Domain.v
Template.v
Decision.v
Check.v
Access.v
AccessFacts.v
Compiler.v
CompilerFacts.v
Triggers.v
TriggerFacts.v
Compile.v
CompileFacts.v
Inventories.v
Lifecycle.v
Discovery.v
DiscoveryFacts.v
Preparation.v
Context.v
Selection.v
SelectionFacts.v
SelectionHistory.v
BoundedJson.v
Serde.v
Prepared.v
Messages.v
Source.v
Results.v
ResultFacts.v
ResultDecode.v
ResultDecodeFacts.v
Actions.v
ActionFacts.v
Progress.v
Checkpoint.v
CheckpointFacts.v
ProgressFacts.v
CapacityFacts.v
PreparedFacts.v
SourceFacts.v
Scheduler.v
Engine.v
Pages.v
PageFacts.v
Recovery.v
EngineFacts.v
RecoveryFacts.v
SchedulerFacts.v
SchedulerRuns.v
EngineRuns.v
RecoveryRuns.v
EngineScheduler.v
EngineSystemRuns.v
Replay.v
ReplayFacts.v
Database.v
RuntimeStore.v
RuntimeStoreFacts.v
RuntimeStoreRuns.v
StoreRecovery.v
