(* ===== verification/Prelude.v ===== *)
(** * Verification of the Burn Check runtime of antiburn: prelude

    A Burn Check is a user-defined check of coding sessions.  Its definition is
    compiled; published session evidence is turned into observations; a selection
    state decides which observations become candidates; a scheduler runs the
    candidates one by one; an engine prepares the inputs of a model, sends the
    requests, settles the answers and plans a status.  This library models that
    runtime, the crate [crates/antiburn-checks], and proves the properties that it
    rests on, together with the store of the desktop application that keeps its
    state in SQLite.  The file names below are those under
    [crates/antiburn-checks/src], and for the store those under
    [apps/desktop/src-tauri/src/store].

    ** Parts and files

    Shared:
    - [Prelude]: results, the state and error monad [SE] with its notations,
      saturating arithmetic, list lemmas, tactics.
    - [Order]: the laws of comparisons, sorting, and maps in key order ([BTreeMap]).
    - [Program]: programs with calls to the outside as trees ([prog]), their runs,
      and a logic of runs with a ghost state ([hoare]).
    - [RustString], [Json]: UTF-8 strings as byte strings with the operations of
      the Rust library, and [serde_json::Value].  [RustFloat]: [f64] on the
      floats of the Standard Library.
    - [Serde]: what serde derives, as readers of the events of a
      deserializer, and the laws of reading back what was written.
    - [Diagnostics] (diagnostics.rs), [Domain] (domain.rs).

    Expressions:
    - [Expression], [Lexer], [Parser] (expression.rs): the grammar with its depth
      limits; parsing is total and what it accepts is well formed.
    - [Budget] (expression_eval/budget.rs), [Provenance] (value.rs), [Decimal],
      [Scalars], [Evaluator] (expression_eval.rs, functions.rs, json.rs) and
      [JsonText]: evaluation under a shared budget of steps, items and bytes.

    Definitions:
    - [Yaml], [YamlFacts] (config/yaml.rs): the tree of a definition file from the
      events of the YAML parser, against a grammar of scalars and documents.
    - [Access], [AccessFacts] (compiler/access.rs): the static resolution of
      references against the shapes of the evidence.
    - [Compiler], [CompilerFacts], [Triggers], [TriggerFacts]
      (compiler/triggers.rs), [Compile], [CompileFacts]
      (compiler.rs): the validator as state, every clause of a definition, and the
      compiled check.
    - [Discovery], [DiscoveryFacts] (discovery.rs): check files become effective
      definitions; [std::path] on Unix.

    Checks and their inputs:
    - [Template], [Decision] (decision.rs), [Check] (compiler.rs,
      compiler/requirements.rs), [Inventories] (compiler/inventories.rs).
    - [Preparation] (preparation.rs), [Fit], [JsonPointer] (fit.rs, fit_limits.rs):
      the inputs of a request and the reductions that make them fit.
    - [Filters] (filters.rs, context.rs), [Context] (context.rs).

    Evidence, activation and selection:
    - [Messages] (source/messages.rs, source/message_validation.rs), [Source]
      (source/mod.rs, source/observations.rs) with [SourceFacts]:
      published evidence, its validation and normalization, and the reading of a
      page of events.
    - [Lifecycle] (definition_lifecycle.rs): generations of a definition.
    - [Selection], [SelectionFacts], [SelectionHistory] (selection.rs): windows,
      corrections, removals, and the candidates that they freeze.

    Results:
    - [BoundedJson] (bounded_json.rs), [Results] with [ResultFacts] and
      [CapacityFacts] (results.rs, results/capacity.rs), [Actions] with
      [ActionFacts] (actions.rs), [Prepared] with [PreparedFacts]
      (prepared_assessment.rs), [Progress] with [ProgressFacts] (check_store.rs).
    - What a restart reads: [ResultDecode], [ResultDecodeFacts]
      (results/decode.rs), [Prepared] with [PreparedFacts]
      (prepared_assessment.rs, fit.rs, budget.rs, preparation.rs).

    The engine:
    - [Scheduler], [SchedulerFacts], [SchedulerRuns] (engine.rs): each section of
      the code under the scheduler's lock is one definition, and the facts hold
      for every interleaving of the sections.
    - [Engine] (engine.rs, engine/model.rs, engine_local.rs): the life of one
      reservation as a program of [Program], with every call to the store and to
      the evaluator; [EngineFacts] and [EngineRuns]: what holds of every run.
    - [Checkpoint], [CheckpointFacts] (check_store.rs): the
      durable progress of an activation and its round trip.
    - [Pages], [PageFacts] (engine.rs): a page of source events becomes
      one transaction of the store and candidates of the scheduler.
    - [Recovery], [RecoveryFacts], [RecoveryRuns] (engine.rs): what a restart does
      with unfinished and answered work.
    - [EngineScheduler], [EngineSystemRuns]: many evaluations at once, interleaved
      at every call and every section; they implement the abstract scheduler.
    - [Replay], [ReplayFacts] (replay.rs): a finite source through an
      engine of its own, with a tally of the calls as ghost state.

    The store of the desktop application:
    - [Database] (schema.rs): the tables of the runtime, statements that can fail,
      and transactions whose commit may report an error although it happened.
    - [RuntimeStore] (burn_checks/runtime.rs, runtime_attempts.rs,
      runtime_progress.rs, runtime_local.rs, runtime_recovery.rs, candidates.rs,
      assessments.rs): every call of the engine as a transaction on the tables.
    - [RuntimeStoreFacts]: each transaction keeps the contract of its call;
      [RuntimeStoreRuns]: the programs of [Engine] with their calls performed on a
      database, over restarts.
    - [StoreRecovery] (burn_checks/runtime_recovery.rs): the pages of unfinished
      work, the rows that they reject, and the recovery of the engine on them.

    ** Correspondence

    Records and enums keep their fields and constructors (with a prefix where
    Rocq needs one).  [u64] and [usize] counters are [N] with the saturating or
    checked operation of the source written out; strings are byte strings; a
    [BTreeMap] is an association list in key order where its order is observable
    and a [gmap] where it is not.  [&mut] arguments are state that is passed on;
    [Result] is [result]; a panic is a value of the model ([Panicked], [panic],
    [Halt Panics]) and is proved unreachable, not left out.

    A loop that is not structural takes fuel, and running out of it is a value of
    the model too: [parse_expression_total], [fit_input_total], [compile_ends],
    [evaluation_never_stuck], [recovery_complete], [database_recovery] and
    [replay_bounded] show that the fuel chosen is enough: the length of the text for
    the lexer and the parser, the size of a document for the compiler, two turns for
    each decision of an evaluation, the number of candidates for the pages of a
    recovery, one turn for each event of a replay.  A program of calls is a tree, so
    its loops over arguments need none.

    A table is the list of its rows, a statement a function on the tables, and a
    transaction works on a copy that its commit puts back.  The host decides which
    statements and commits fail, and the theorems hold for every such choice.

    ** What the theorems show

    - One request per attempt: [requests_sent_once], [intent_precedes_send],
      [dropped_request_keeps_branch].  They hold for any number of evaluations of a
      candidate, each cut short anywhere, under the contract of the store that
      [EngineFacts.durable_step] states: a write that reports success has
      committed, one that reports an error may have, and an intent without an
      outcome is read back as an unresolved one after a restart.
    - The store: [store_keeps_contract] proves that contract of the transactions
      themselves, so that [store_sends_once] holds on the database;
      [one_candidate_of_a_branch] (one claimed candidate for each branch),
      [outdated_claim_changes_nothing] (the fence), [acceptance_outcome], and
      [provider_dispatch_recorded] (what the gate before a request has seen).
    - Single flight and bounds: [engine_refines_scheduler], [requests_in_flight],
      [scheduler_invariant] (at most 132 candidates wait), and [due_branch_served],
      a bounded wait as long as no other activation takes the fourth dispatches;
      [shared_counter_starves] shows why the condition is there.
    - Definitions: [compile_ends] (a compilation ends with a check or diagnostics),
      [compiled_check_ok] (what it gives is well formed),
      [compiled_decisions_accepted] (the runtime's own validation accepts it),
      [yaml_exact], [record_fields_exact] and [resolved_roots];
      [discovery_effective] is the specification of the discovery,
      [discovery_order_irrelevant] says that the order of the files does not
      matter, and [discovery_accounts] that no file is dropped silently.
    - Source delivery: [read_batch_correct], [normalize_correct] and
      [cycle_exact_bindings] say what a page of events holds; [read_page_applies]
      that the engine takes it; [page_commits_current] what a transaction commits;
      [pages_applied_once] and [progress_cached] that each publication is applied
      once and in order, under the compare-and-swap that [PageFacts.stored_step]
      states, whatever transactions fail or lose their answers.
    - Restart: [recovery_grounded], and [recovery_complete] under the contract on
      pages that [RecoveryRuns.work_step] states; [database_recovery] proves the
      contract of the pages of [StoreRecovery] and with it that the recovery ends
      and misses nothing, [recovered_work_saved] that a record is what was saved.
    - Saved records: [preparation_round_trip], [checkpoint_round_trip],
      [saved_results_round_trip], [budget_save_restore], and
      [decoded_results_valid]: what decodes and binds is valid.
    - Replay: [replay_bounded] (its limits hold over all evaluations together and
      the report counts exactly) and [replay_sequential] (one event is settled
      before the next is read).
    - Complete answers: [submitted_assessment_complete], [progress_advances],
      [capacity_suffices], [assessment_revalidates].
    - Selection: its invariant, one candidate per identity, removals, content.
    - Expressions and inputs: soundness of the parser, exhaustion of the budget,
      exact decimal order, text of toJSON, fitting that only changes authorised
      positions.

    ** Parameters

    Code outside the crate is a parameter with its documented laws: the YAML
    parser ([YamlParser], its events or its first error), the numbers of
    serde_json ([SerdeNumber] with [SerdeNumberLaws]), its deserializer ([JsonDeserializer]) and writer
    ([RecordWriter], with [RecordWriterLaws] for compact text), JSON pointers, the
    Unicode tables ([UnicodeData]), SHA-256, the host's capture of inventories, the
    JSON functions of SQLite ([Sqlite]), what the ingestion says of its own tables
    ([Ingestion]), the equality of JSON values ([ValueEq]), and the answers of the
    evaluator, which are arbitrary; in the theorems on the engine alone those of the
    store are arbitrary too, or keep the contract named.  Each property with such a
    hypothesis is applied to concrete instances.

    ** Not modelled

    Of the crate: the texts of errors that serde makes, the [Debug] and [Display]
    implementations that nothing reads, accessors, and
    [start_one_due_for_branches_with_evaluator], which differs from its neighbour
    only in the evaluator that answers the calls.  A future is dropped where it
    waits in [EngineSystemRuns]; the future of a replay is run to its end.  Of the
    store: the application of a source page, the rows of lifecycle and startup,
    usage reports, retention and tracing; the engine's side of the pages is
    [Pages].  The crates around the runtime are left out: the session parsers
    follow formats of other vendors and do not touch the runtime, and the command
    line and the desktop application are I/O and threads around it. *)

From stdpp Require Export base tactics list strings pretty option sets.
From Stdlib Require Export NArith ZArith Lia ZifyBool ZifyN.

#[global] Set Default Goal Selector "!".
#[global] Unset Program Cases.

(** Closed computations: both sides are compared by the virtual machine without
    reading the results back, which matters when their types mention a whole
    instance of a class. *)
Ltac vm_refl := match goal with |- ?a = ?b => exact (@eq_refl _ b <: a = b) end.

Declare Scope burn_scope.
Delimit Scope burn_scope with burn.

(** ** Results *)

(** Rust's [Result<A, E>]. *)
Inductive result (A E : Type) : Type :=
| Ok (a : A)
| Err (e : E).
Arguments Ok {_ _} _.
Arguments Err {_ _} _.

Definition is_ok {A E} (r : result A E) : bool :=
  match r with Ok _ => true | Err _ => false end.

Definition is_some {A} (x : option A) : bool := match x with Some _ => true | None => false end.

Definition result_map {A B E} (f : A → B) (r : result A E) : result B E :=
  match r with Ok a => Ok (f a) | Err e => Err e end.

Definition map_err {A E F} (f : E → F) (r : result A E) : result A F :=
  match r with Ok a => Ok a | Err e => Err (f e) end.

Definition result_bind {A B E} (r : result A E) (f : A → result B E) : result B E :=
  match r with Ok a => f a | Err e => Err e end.

#[export] Instance result_eq_dec {A E} `{EqDecision A, EqDecision E} :
  EqDecision (result A E).
Proof. solve_decision. Defined.

Lemma result_bind_ok {A B E} (r : result A E) (f : A → result B E) b :
  result_bind r f = Ok b ↔ ∃ a, r = Ok a ∧ f a = Ok b.
Proof. destruct r as [a|e]; simpl; [naive_solver|naive_solver]. Qed.

Lemma map_err_ok {A E F} (f : E → F) (r : result A E) a : map_err f r = Ok a ↔ r = Ok a.
Proof. destruct r; simpl; split; congruence. Qed.

(** [r?]: the early return of Rust's question mark. *)
Notation "'let?' x := r 'in' k" := (result_bind r (λ x, k))
  (at level 10, x binder, k at level 200) : burn_scope.

(** ** Computations on a mutable state that can fail

    A Rust function that takes [&mut S] and returns [Result<A, E>]: the state
    after the call is kept on the error path too. *)
Definition SE (S E A : Type) : Type := S → result A E * S.

Section state_error.
Context {S E : Type}.

Definition ret {A} (a : A) : SE S E A := λ s, (Ok a, s).
Definition fail {A} (e : E) : SE S E A := λ s, (Err e, s).
Definition bind {A B} (m : SE S E A) (f : A → SE S E B) : SE S E B :=
  λ s, match m s with
       | (Ok a, s') => f a s'
       | (Err e, s') => (Err e, s')
       end.
Definition get_state : SE S E S := λ s, (Ok s, s).
Definition lift {A} (r : result A E) : SE S E A := λ s, (r, s).

(** [for x in xs { acc = f(acc, x)?; }] *)
Definition foldM {A X} (f : A → X → SE S E A) : list X → A → SE S E A :=
  fix go xs acc :=
    match xs with
    | [] => ret acc
    | x :: xs => bind (f acc x) (go xs)
    end.
End state_error.

Notation "'let*' x := m 'in' k" := (bind m (λ x, k))
  (at level 10, x binder, k at level 200) : burn_scope.
Notation "'do*' m ; k" := (bind m (λ _, k))
  (at level 10, k at level 200) : burn_scope.

#[global] Open Scope burn_scope.

(** [collect::<Result<Vec<_>, _>>()]: the first error ends it.  The function is
    outside of the recursion, so that it may be a recursive call itself. *)
Definition results_of {A B E} (f : A → result B E) : list A → result (list B) E :=
  fix go l :=
    match l with
    | [] => Ok []
    | x :: l => let? y := f x in let? ys := go l in Ok (y :: ys)
    end.

(** [for x in l { f(x)?; }] *)
Definition results_each {A B E} (f : A → result B E) : list A → result unit E :=
  fix go l :=
    match l with
    | [] => Ok tt
    | x :: l => let? _ := f x in go l
    end.

Lemma results_of_spec {A B E} (f : A → result B E) l ws :
  results_of f l = Ok ws → Forall2 (λ x w, f x = Ok w) l ws.
Proof.
  revert ws. induction l as [|x l IH]; intros ws; simpl; [by intros [= <-]|].
  rewrite result_bind_ok. intros (w & Ew & Hr). apply result_bind_ok in Hr as (ws' & Ews & Hr).
  injection Hr as <-. auto.
Qed.

Lemma results_of_intro {A B E} (f : A → result B E) l ws :
  Forall2 (λ x w, f x = Ok w) l ws → results_of f l = Ok ws.
Proof. induction 1 as [|x w l ws Hx _ IH]; simpl; [done|]. by rewrite Hx, IH. Qed.

(** ** Lists *)

Lemma NoDup_fmap_inj {A B} (f : A → B) l x y : NoDup (f <$> l) → x ∈ l → y ∈ l → f x = f y → x = y.
Proof.
  intros Hn [i Hi]%list_elem_of_lookup [j Hj]%list_elem_of_lookup Hf.
  assert (i = j) as -> by (eapply (NoDup_lookup (f <$> l)); [done|by rewrite list_lookup_fmap, Hi|
    by rewrite list_lookup_fmap, Hj, Hf]).
  congruence.
Qed.

(** Lists with the same elements and the same distinct keys in the same order. *)
Lemma keys_determine {A B} (f : A → B) l k : NoDup (f <$> l) → l ≡ₚ k → f <$> l = f <$> k → l = k.
Proof.
  intros Hn Hp Hf. apply list_eq. intros i.
  pose proof (f_equal (.!! i) Hf) as Hi. simpl in Hi. rewrite !list_lookup_fmap in Hi.
  destruct (l !! i) as [x|] eqn:Ex, (k !! i) as [y|] eqn:Ey; try done. injection Hi as Hi. f_equal.
  eapply NoDup_fmap_inj; [exact Hn|by eapply list_elem_of_lookup_2| |exact Hi].
  rewrite Hp. by eapply list_elem_of_lookup_2.
Qed.

(** ** Reasoning about computations

    [safe I R F Q m]: started in a state of [I], the computation [m] only moves
    along the preorder [R]; when it succeeds it ends in [I] again with a result
    in [Q], and when it fails with [e] the pair of the error and the final state
    is in [F].  The rules below follow the shape of the code, so that the proof
    for a function is the text of the function. *)
Definition any {A : Type} (_ : A) : Prop := True.

Section safe.
Context {S E : Type}.
Context (I : S → Prop) (R : relation S) (F : E → S → Prop).

Definition safe {A} (Q : A → Prop) (m : SE S E A) : Prop :=
  ∀ s, I s →
    R s (m s).2 ∧
    match (m s).1 with Ok a => I (m s).2 ∧ Q a | Err e => F e (m s).2 end.

Context `{!PreOrder R}.

Lemma safe_ret {A} (Q : A → Prop) (a : A) : Q a → safe Q (ret a).
Proof. intros Ha s Hs. simpl. split; [reflexivity|done]. Qed.

Lemma safe_get : safe I get_state.
Proof. intros s Hs. simpl. split; [reflexivity|done]. Qed.

Lemma safe_fail {A} (Q : A → Prop) (e : E) :
  (∀ s, I s → F e s) → safe Q (fail e : SE S E A).
Proof. intros HF s Hs. simpl. split; [reflexivity|auto]. Qed.

Lemma safe_bind {A B} (P : A → Prop) (Q : B → Prop) (m : SE S E A) (f : A → SE S E B) :
  safe P m → (∀ a, P a → safe Q (f a)) → safe Q (bind m f).
Proof.
  intros Hm Hf s Hs. unfold bind.
  destruct (Hm s Hs) as [HR HQ].
  destruct (m s) as [[a|e] s']; simpl in *; [|done].
  destruct HQ as [HI HP].
  destruct (Hf a HP s' HI) as [HR' HQ']. split; [by etrans|done].
Qed.

Lemma safe_mono {A} (P Q : A → Prop) (m : SE S E A) :
  safe P m → (∀ a, P a → Q a) → safe Q m.
Proof.
  intros Hm HPQ s Hs. destruct (Hm s Hs) as [HR HQ]. split; [done|].
  destruct (m s).1; [|done]. destruct HQ. auto.
Qed.

Lemma safe_foldM {A X} (P : A → Prop) (f : A → X → SE S E A) xs acc :
  (∀ a x, In x xs → P a → safe P (f a x)) → P acc → safe P (foldM f xs acc).
Proof.
  revert acc. induction xs as [|x xs IH]; intros acc Hf Hacc.
  - by apply safe_ret.
  - cbn [foldM]. eapply safe_bind; [apply Hf; simpl; auto|].
    intros a Ha. apply IH; [|done]. intros a' x' Hx. apply Hf. simpl; auto.
Qed.
End safe.

(** ** Results of computations

    [returns Q m]: whenever [m] succeeds, its result is in [Q]. *)
Section returns.
Context {S E : Type}.

Definition returns {A} (Q : A → Prop) (m : SE S E A) : Prop :=
  ∀ s a s', m s = (Ok a, s') → Q a.

Lemma returns_ret {A} (Q : A → Prop) (a : A) : Q a → returns Q (ret a).
Proof. intros Ha s a' s' [= <- <-]. done. Qed.

Lemma returns_fail {A} (Q : A → Prop) (e : E) : returns Q (fail e : SE S E A).
Proof. by intros s a s' [=]. Qed.

Lemma returns_bind {A B} (P : A → Prop) (Q : B → Prop) (m : SE S E A) (f : A → SE S E B) :
  returns P m → (∀ a, P a → returns Q (f a)) → returns Q (bind m f).
Proof.
  intros Hm Hf s b s'. unfold bind. destruct (m s) as [[a|e] s1] eqn:Em; [|by intros [=]].
  apply Hf. by eapply Hm.
Qed.

Lemma returns_any {A} (m : SE S E A) : returns any m.
Proof. done. Qed.

Lemma returns_seq {A B} (Q : B → Prop) (m : SE S E A) (k : SE S E B) :
  returns Q k → returns Q (bind m (λ _, k)).
Proof. intros Hk. by apply (returns_bind any). Qed.

(** The invariant of a fold speaks of the elements already consumed. *)
Lemma returns_foldM {A X} (P : list X → A → Prop) (f : A → X → SE S E A) xs acc :
  (∀ pre x a, In x xs → P pre a → returns (P (pre ++ [x])) (f a x)) →
  P [] acc → returns (P xs) (foldM f xs acc).
Proof.
  intros Hf. assert (∀ ys pre a, (∀ x, In x ys → In x xs) → P pre a →
    returns (P (pre ++ ys)) (foldM f ys a)) as Hgen; [|intros Hacc; by apply (Hgen xs [])].
  induction ys as [|y ys IH]; intros pre a Hin Ha.
  { apply returns_ret. by rewrite app_nil_r. }
  cbn [foldM]. eapply returns_bind; [apply Hf; [apply Hin; simpl; auto|done]|].
  intros a' Ha'. specialize (IH (pre ++ [y]) a'). rewrite <- app_assoc in IH.
  apply IH; [|done]. intros x Hx. apply Hin. simpl; auto.
Qed.
End returns.

(** Inversion of a successful sequence. *)
Lemma bind_ok {S E A B} (m : SE S E A) (f : A → SE S E B) s b s' :
  bind m f s = (Ok b, s') ↔ ∃ a s1, m s = (Ok a, s1) ∧ f a s1 = (Ok b, s').
Proof.
  unfold bind. split.
  - destruct (m s) as [[a|e] s1]; [eauto|done].
  - by intros (a & s1 & -> & ->).
Qed.

Lemma lift_ok {S E A} (r : result A E) (s s' : S) a :
  lift r s = (Ok a, s') ↔ r = Ok a ∧ s' = s.
Proof. unfold lift. split; [by intros [= -> ->]|by intros [-> ->]]. Qed.

Lemma ret_ok {S E A} (a b : A) (s s' : S) : ret (E:=E) a s = (Ok b, s') ↔ b = a ∧ s' = s.
Proof. unfold ret. split; [by intros [= -> ->]|by intros [-> ->]]. Qed.

(** ** Errors of computations

    [raises F m]: whenever [m] fails, its error is in [F]. *)
Section raises.
Context {S E : Type}.

Definition raises {A} (F : E → Prop) (m : SE S E A) : Prop :=
  ∀ s e s', m s = (Err e, s') → F e.

Lemma raises_ret {A} (F : E → Prop) (a : A) : raises F (ret a : SE S E A).
Proof. by intros s e s' [=]. Qed.

Lemma raises_fail {A} (F : E → Prop) (e : E) : F e → raises F (fail e : SE S E A).
Proof. by intros He s e' s' [= <- <-]. Qed.

Lemma raises_lift {A} (F : E → Prop) (r : result A E) :
  (∀ e, r = Err e → F e) → raises F (lift r : SE S E A).
Proof. intros Hr s e s' [= -> <-]. by apply Hr. Qed.

Lemma raises_bind {A B} (P : A → Prop) (F : E → Prop) (m : SE S E A) (f : A → SE S E B) :
  raises F m → returns P m → (∀ a, P a → raises F (f a)) → raises F (bind m f).
Proof.
  intros Hm HP Hf s e s'. unfold bind. destruct (m s) as [[a|e1] s1] eqn:Em.
  - apply Hf. by eapply HP.
  - intros [= <- <-]. by eapply Hm.
Qed.

Lemma raises_seq {A B} (F : E → Prop) (m : SE S E A) (f : A → SE S E B) :
  raises F m → (∀ a, raises F (f a)) → raises F (bind m f).
Proof. intros Hm Hf. apply (raises_bind any); [done|done|auto]. Qed.
End raises.
