(* ===== verification/Order.v ===== *)
(** * Comparisons, stable sorting and ordered maps

    The orders that derived [Ord] implementations build, [sort_by], which is
    stable, and the entry interface of a [BTreeMap] as an association list in
    ascending key order. *)

From stdpp Require Import sorting.
From Stdlib Require Import OrdersEx.
From S2P Require Import Prelude.

#[local] Open Scope N_scope.

(** ** Comparisons *)

(** [a.cmp(..).then(b.cmp(..))] *)
Definition cmp_then (a b : comparison) : comparison := match a with Eq => b | _ => a end.

(** The order of sequences: elements from the left, then the lengths. *)
Fixpoint list_cmp {A} (cmp : A → A → comparison) (l l' : list A) : comparison :=
  match l, l' with
  | [], [] => Eq
  | [], _ :: _ => Lt
  | _ :: _, [] => Gt
  | x :: l, y :: l' => cmp_then (cmp x y) (list_cmp cmp l l')
  end.

(** A comparison that is a total preorder. *)
Class CmpLaws {A} (cmp : A → A → comparison) : Prop := {
  cmp_antisym x y : cmp y x = CompOpp (cmp x y);
  cmp_trans x y z : cmp x y ≠ Gt → cmp y z ≠ Gt → cmp x z ≠ Gt
}.

(** A comparison that tells any two values apart. *)
Class CmpEq {A} (cmp : A → A → comparison) : Prop := cmp_eq x y : cmp x y = Eq → x = y.

#[export] Instance N_cmp_laws : CmpLaws N.compare.
Proof. split; [intros; apply N.compare_antisym|intros x y z; rewrite !N.compare_le_iff; lia]. Qed.

#[export] Instance string_cmp_laws : CmpLaws String.compare.
Proof.
  split; [intros; apply String.compare_antisym|]. intros x y z Hxy Hyz Hxz.
  assert (String.compare z x = Lt) as Hzx by (rewrite String.compare_antisym, Hxz; done).
  destruct (String.compare x y) eqn:Exy; [|clear Hxy|done].
  { apply String.compare_eq_iff in Exy as ->. congruence. }
  destruct (String.compare y z) eqn:Eyz; [|clear Hyz|done].
  { apply String.compare_eq_iff in Eyz as ->. congruence. }
  pose proof (StrictOrder_Transitive (R:=String_as_OT.lt) _ _ _ Hzx Exy) as H1.
  pose proof (StrictOrder_Transitive (R:=String_as_OT.lt) _ _ _ H1 Eyz) as H2.
  by apply (StrictOrder_Irreflexive (R:=String_as_OT.lt)) in H2.
Qed.

#[export] Instance string_cmp_eq : CmpEq String.compare.
Proof. intros x y. apply String.compare_eq_iff. Qed.

Lemma pullback_laws {A B} (f : A → B) cmp : CmpLaws cmp → CmpLaws (λ x y, cmp (f x) (f y)).
Proof. split; [intros; apply cmp_antisym|intros x y z; apply cmp_trans]. Qed.

Lemma lexicographic_laws {A} (c d : A → A → comparison) :
  CmpLaws c → CmpLaws d → CmpLaws (λ x y, cmp_then (c x y) (d x y)).
Proof.
  split.
  - intros x y. rewrite (cmp_antisym (cmp:=c) x), (cmp_antisym (cmp:=d) x). by destruct (c _ _).
  - intros x y z. unfold cmp_then.
    pose proof (cmp_trans (cmp:=c) x y z) as T1. pose proof (cmp_trans (cmp:=c) y z x) as T2.
    pose proof (cmp_trans (cmp:=c) z x y) as T3. pose proof (cmp_trans (cmp:=d) x y z) as T4.
    rewrite (cmp_antisym (cmp:=c) x z) in T2, T3. rewrite (cmp_antisym (cmp:=c) x y) in T2.
    rewrite (cmp_antisym (cmp:=c) y z) in T3.
    destruct (c x y), (c y z), (c x z); simpl in *; try done;
      intros; first [by apply T4|by destruct T1|by destruct T2|by destruct T3].
Qed.

#[export] Instance list_cmp_laws {A} (cmp : A → A → comparison) `{!CmpLaws cmp} : CmpLaws (list_cmp cmp).
Proof.
  split.
  - intros l. induction l as [|x l IH]; intros [|y l']; simpl; [done..|].
    rewrite (cmp_antisym (cmp:=cmp) x y), IH. by destruct (cmp x y).
  - intros l. induction l as [|x l IH]; intros [|y l'] [|z l'']; simpl; try done.
    pose proof (cmp_trans (cmp:=cmp) x y z) as T1. pose proof (cmp_trans (cmp:=cmp) y z x) as T2. pose proof (cmp_trans (cmp:=cmp) z x y) as T3.
    rewrite (cmp_antisym (cmp:=cmp) x z) in T2, T3. rewrite (cmp_antisym (cmp:=cmp) x y) in T2. rewrite (cmp_antisym (cmp:=cmp) y z) in T3.
    specialize (IH l' l''). unfold cmp_then.
    destruct (cmp x y), (cmp y z), (cmp x z); simpl in *; try done;
      intros; first [by apply IH|by destruct T1|by destruct T2|by destruct T3].
Qed.

#[export] Instance list_cmp_eq {A} (cmp : A → A → comparison) `{!CmpEq cmp} : CmpEq (list_cmp cmp).
Proof.
  intros l. induction l as [|x l IH]; intros [|y l']; simpl; try done. unfold cmp_then.
  destruct (cmp x y) eqn:E; try done. intros ?%IH. apply cmp_eq in E. congruence.
Qed.

(** ** Derived facts *)
Section laws.
Context {A : Type} (cmp : A → A → comparison) `{!CmpLaws cmp}.

Definition cmp_le (x y : A) : Prop := cmp x y ≠ Gt.
Definition cmp_lt (x y : A) : Prop := cmp x y = Lt.

Lemma cmp_refl x : cmp x x = Eq.
Proof. pose proof (cmp_antisym (cmp:=cmp) x x). by destruct (cmp x x). Qed.

#[export] Instance cmp_le_trans : Transitive cmp_le.
Proof. intros x y z. apply cmp_trans. Qed.

Lemma cmp_lt_le x y : cmp_lt x y → cmp_le x y.
Proof. unfold cmp_lt, cmp_le. by intros ->. Qed.

Lemma cmp_lt_flip x y : cmp x y = Gt → cmp_lt y x.
Proof. unfold cmp_lt. rewrite (cmp_antisym (cmp:=cmp) x y). by intros ->. Qed.

#[export] Instance cmp_lt_trans : Transitive cmp_lt.
Proof.
  intros x y z Hxy Hyz. unfold cmp_lt in *. pose proof (cmp_trans (cmp:=cmp) x y z) as T1.
  pose proof (cmp_trans (cmp:=cmp) z x y) as T2. rewrite (cmp_antisym (cmp:=cmp) x z), (cmp_antisym (cmp:=cmp) y z) in T2.
  destruct (cmp x z); simpl in *; [|done|].
  - rewrite Hxy, Hyz in T2. by destruct T2.
  - rewrite Hxy, Hyz in T1. by destruct T1.
Qed.

Lemma cmp_lt_irrefl x : ¬ cmp_lt x x.
Proof. unfold cmp_lt. by rewrite cmp_refl. Qed.
End laws.

(** ** [sort_by] *)
Section sort.
Context {A : Type} (cmp : A → A → comparison).

Fixpoint insert_sorted (x : A) (l : list A) : list A :=
  match l with
  | [] => [x]
  | y :: l' => match cmp x y with Gt => y :: insert_sorted x l' | _ => x :: l end
  end.

Definition sort_by (l : list A) : list A := foldr insert_sorted [] l.

Lemma insert_sorted_perm x l : insert_sorted x l ≡ₚ x :: l.
Proof.
  induction l as [|y l IH]; simpl; [done|]. destruct (cmp x y); [done..|].
  rewrite IH. apply Permutation_swap.
Qed.

Lemma sort_by_perm l : sort_by l ≡ₚ l.
Proof. induction l as [|x l IH]; simpl; [done|]. by rewrite insert_sorted_perm, IH. Qed.

Context `{!CmpLaws cmp}.

Lemma insert_sorted_ordered x l :
  StronglySorted (cmp_le cmp) l → StronglySorted (cmp_le cmp) (insert_sorted x l).
Proof.
  induction l as [|y l IH]; simpl; intros Hs; [by repeat constructor|].
  apply StronglySorted_inv in Hs as [Hs Hy]. destruct (cmp x y) eqn:E.
  3: { constructor; [by apply IH|]. rewrite insert_sorted_perm. constructor; [|done].
       apply cmp_lt_le. by apply (cmp_lt_flip cmp). }
  all: constructor; [by constructor|]; (assert (cmp_le cmp x y) as Hxy by (unfold cmp_le; by rewrite E));
    (constructor; [done|]); (eapply Forall_impl; [exact Hy|]); intros z Hz; by eapply (cmp_le_trans cmp).
Qed.

Lemma sort_by_ordered l : StronglySorted (cmp_le cmp) (sort_by l).
Proof. induction l; simpl; [constructor|by apply insert_sorted_ordered]. Qed.

(** An ordered list of elements that differ under the comparison is determined by
    its elements. *)
Lemma ordered_unique l l' :
  StronglySorted (cmp_le cmp) l → StronglySorted (cmp_le cmp) l' → l ≡ₚ l' →
  (∀ x y, x ∈ l → y ∈ l → cmp x y = Eq → x = y) → l = l'.
Proof.
  revert l'. induction l as [|x l IH]; intros l' Hs Hs' Hp Hd.
  { by apply Permutation_nil_l in Hp. }
  destruct l' as [|y l']; [by apply symmetry, Permutation_nil_l in Hp|].
  apply StronglySorted_inv in Hs as [Hs Hx]. apply StronglySorted_inv in Hs' as [Hs' Hy].
  assert (x = y) as ->.
  { assert (x ∈ y :: l') as Hxl by (rewrite <- Hp; left).
    assert (y ∈ x :: l) as Hyl by (rewrite Hp; left).
    apply Hd; [left|done|].
    assert (cmp_le cmp x y) as H1.
    { apply elem_of_cons in Hyl as [->|Hyl]; [unfold cmp_le; by rewrite cmp_refl|].
      by apply (proj1 (Forall_forall _ _) Hx). }
    assert (cmp_le cmp y x) as H2.
    { apply elem_of_cons in Hxl as [->|Hxl]; [unfold cmp_le; by rewrite cmp_refl|].
      by apply (proj1 (Forall_forall _ _) Hy). }
    unfold cmp_le in *. rewrite (cmp_antisym (cmp:=cmp) x y) in H2. by destruct (cmp x y). }
  f_equal. apply IH; [done|done|by apply (inj (cons y))|].
  intros a b Ha Hb. apply Hd; by right.
Qed.

Lemma sort_by_permuted l l' :
  l ≡ₚ l' → (∀ x y, x ∈ l → y ∈ l → cmp x y = Eq → x = y) → sort_by l = sort_by l'.
Proof.
  intros Hp Hd. apply ordered_unique; [apply sort_by_ordered..| |].
  - by rewrite !sort_by_perm.
  - intros x y. rewrite sort_by_perm. apply Hd.
Qed.
End sort.

(** ** [BTreeMap] *)
Section btree.
Context {K V : Type} (cmp : K → K → comparison).

(** [map.entry(k)]: the new value for the key from the old one. *)
Fixpoint entry (k : K) (f : option V → V) (m : list (K * V)) : list (K * V) :=
  match m with
  | [] => [(k, f None)]
  | (k', v) :: m' =>
      match cmp k k' with
      | Eq => (k', f (Some v)) :: m'
      | Lt => (k, f None) :: m
      | Gt => (k', v) :: entry k f m'
      end
  end.

Definition btree_insert (k : K) (v : V) : list (K * V) → list (K * V) := entry k (λ _, v).

Fixpoint btree_get (k : K) (m : list (K * V)) : option V :=
  match m with
  | [] => None
  | (k', v) :: m => match cmp k k' with Eq => Some v | _ => btree_get k m end
  end.

Definition ascending (m : list (K * V)) : Prop := StronglySorted (cmp_lt cmp) m.*1.

Context `{!CmpLaws cmp, !CmpEq cmp}.

Lemma btree_get_below k m : Forall (cmp_lt cmp k) m.*1 → btree_get k m = None.
Proof.
  induction m as [|[k' v] m IH]; simpl; [done|]. intros [Hk Hm]%Forall_cons.
  unfold cmp_lt in Hk. rewrite Hk. by apply IH.
Qed.

Lemma above_head k k' l : cmp_lt cmp k k' → Forall (cmp_lt cmp k') l → Forall (cmp_lt cmp k) (k' :: l).
Proof.
  intros Hk Hl. constructor; [done|]. eapply Forall_impl; [exact Hl|].
  intros z Hz. by eapply (cmp_lt_trans cmp).
Qed.

Lemma ascending_cons k v m : ascending ((k, v) :: m) → ascending m ∧ Forall (cmp_lt cmp k) m.*1.
Proof. apply StronglySorted_inv. Qed.

Lemma btree_get_entry_eq k f m : ascending m → btree_get k (entry k f m) = Some (f (btree_get k m)).
Proof.
  unfold ascending. induction m as [|[k' v] m IH]; simpl; intros Hs; [by rewrite cmp_refl|].
  apply StronglySorted_inv in Hs as [Hs Hk]. destruct (cmp k k') eqn:E; simpl.
  - by rewrite E.
  - rewrite cmp_refl by done. by rewrite btree_get_below by (by eapply Forall_inv_tail, above_head).
  - rewrite E. by apply IH.
Qed.

Lemma btree_get_entry_ne k k' f m : k ≠ k' → btree_get k' (entry k f m) = btree_get k' m.
Proof.
  intros Hne. induction m as [|[k2 v] m IH]; simpl.
  { destruct (cmp k' k) eqn:E; [by apply cmp_eq in E|done..]. }
  destruct (cmp k k2) eqn:E; simpl.
  - apply cmp_eq in E as ->. destruct (cmp k' k2) eqn:E; [by apply cmp_eq in E|done..].
  - destruct (cmp k' k) eqn:E'; [by apply cmp_eq in E'|done..].
  - by rewrite IH.
Qed.

Lemma entry_keys k f m : (entry k f m).*1 ⊆ k :: m.*1.
Proof.
  induction m as [|[k' v] m IH]; simpl; [done|]. destruct (cmp k k') eqn:E; simpl.
  - apply cmp_eq in E as ->. set_solver.
  - done.
  - set_solver.
Qed.

Lemma entry_ascending k f m : ascending m → ascending (entry k f m).
Proof.
  unfold ascending. induction m as [|[k' v] m IH]; simpl; intros Hs; [by repeat constructor|].
  pose proof Hs as [Hs' Hk]%StronglySorted_inv. destruct (cmp k k') eqn:E; simpl.
  - by constructor.
  - constructor; [done|]. by apply above_head.
  - constructor; [by apply IH|]. apply Forall_forall. intros z Hz%entry_keys.
    apply elem_of_cons in Hz as [->|Hz]; [by apply (cmp_lt_flip cmp)|].
    by apply (proj1 (Forall_forall _ _) Hk).
Qed.

Lemma btree_get_elem k v m : ascending m → (k, v) ∈ m ↔ btree_get k m = Some v.
Proof.
  unfold ascending. induction m as [|[k' v'] m IH]; simpl; intros Hs.
  { split; [by intros ?%elem_of_nil|done]. }
  apply StronglySorted_inv in Hs as [Hs Hk]. rewrite elem_of_cons, IH by done.
  destruct (cmp k k') eqn:E.
  - pose proof E as ->%cmp_eq. split; [|intros [= ->]; by left].
    intros [[= ->]|Hg]; [done|]. apply IH in Hg; [|done].
    apply (list_elem_of_fmap_2 fst) in Hg. apply (proj1 (Forall_forall _ _) Hk) in Hg.
    by apply (cmp_lt_irrefl cmp) in Hg.
  - split; [intros [[= -> ->]|?]; [by rewrite cmp_refl in E|done]|by right].
  - split; [intros [[= -> ->]|?]; [by rewrite cmp_refl in E|done]|by right].
Qed.

(** Ascending maps with the same content are equal. *)
Lemma btree_ext m m' :
  ascending m → ascending m' → (∀ k, btree_get k m = btree_get k m') → m = m'.
Proof.
  unfold ascending. revert m'. induction m as [|[k v] m IH]; intros [|[k' v'] m'] Hs Hs' Hg; simpl in *.
  - done.
  - specialize (Hg k'). by rewrite cmp_refl in Hg.
  - specialize (Hg k). by rewrite cmp_refl in Hg.
  - apply StronglySorted_inv in Hs as [Hs Hk]. apply StronglySorted_inv in Hs' as [Hs' Hk'].
    destruct (cmp k k') eqn:E.
    + apply cmp_eq in E as ->. pose proof (Hg k') as Hv. rewrite cmp_refl in Hv by done. injection Hv as ->.
      f_equal. apply IH; [done..|]. intros k. specialize (Hg k).
      destruct (cmp k k') eqn:E; [|done|done]. apply cmp_eq in E as ->. by rewrite !btree_get_below.
    + specialize (Hg k). rewrite cmp_refl, E in Hg by done.
      rewrite (btree_get_below k m') in Hg; [done|].
      by eapply Forall_inv_tail, above_head.
    + specialize (Hg k'). rewrite cmp_refl in Hg by done. rewrite (cmp_antisym (cmp:=cmp) k k'), E in Hg. simpl in Hg.
      rewrite (btree_get_below k' m) in Hg; [done|].
      eapply Forall_inv_tail, above_head; [by apply (cmp_lt_flip cmp)|done].
Qed.
End btree.
