(* ===== verification/Program.v ===== *)
(** * Programs with effects

    A program is a tree: it returns, it changes the state of its process in one
    step, it calls the outside and continues with the answer, or it stops where
    the code would panic or a loop would run out of fuel.  What the outside
    answers is left open, so a property of every run of a program holds for
    every store, every evaluator and every interleaving with other threads. *)

From S2P Require Import Prelude.

Inductive stop := Panics | OutOfFuel.

Section program.
Context {call : Type → Type} {L : Type}.

Inductive prog (A : Type) : Type :=
| Ret (a : A)
| Atomic {X : Type} (f : L → X * L) (k : X → prog A)
| Call {X : Type} (c : call X) (k : X → prog A)
| Halt (why : stop).

Fixpoint pbind {A B} (p : prog A) (f : A → prog B) : prog B :=
  match p with
  | Ret _ a => f a
  | Atomic _ g k => Atomic _ g (λ x, pbind (k x) f)
  | Call _ c k => Call _ c (λ x, pbind (k x) f)
  | Halt _ why => Halt _ why
  end.

(** [p?]: the early return of an error. *)
Definition ptry {A B E} (p : prog (result A E)) (f : A → prog (result B E)) : prog (result B E) :=
  pbind p (λ r, match r with Ok a => f a | Err e => Ret _ (Err e) end).

(** A call, and a change of the state. *)
Definition pcall {X} (c : call X) : prog X := Call _ c (Ret _).
Definition atomically {X} (f : L → X * L) : prog X := Atomic _ f (Ret _).
Definition pupdate (f : L → L) : prog unit := atomically (λ l, (tt, f l)).

(** What an observer of the outside sees. *)
Inductive event :=
| Ev {X : Type} (c : call X) (x : X).

(** [runs p tr p']: from [p] the calls [tr] are made and answered, and [p'] is
    left to run.  The state that a step finds is open, since other threads
    change it too. *)
Fixpoint runs {A} (p : prog A) : list event → prog A → Prop := λ tr p',
  (tr = [] ∧ p' = p) ∨
  match p with
  | Ret _ _ | Halt _ _ => False
  | Atomic _ f k => ∃ l, runs (k (f l).1) tr p'
  | Call _ c k => ∃ x tr', tr = Ev c x :: tr' ∧ runs (k x) tr' p'
  end.

(** A program with an answer to every call: the calls and the result. *)
Fixpoint interpret {A} (answer : ∀ X, call X → X) (p : prog A) (l : L) : list event * (A + stop) * L :=
  match p with
  | Ret _ a => ([], inl a, l)
  | Halt _ why => ([], inr why, l)
  | Atomic _ f k => let '(x, l) := f l in interpret answer (k x) l
  | Call _ c k =>
      let x := answer _ c in
      let '(tr, r, l) := interpret answer (k x) l in (Ev c x :: tr, r, l)
  end.
End program.

Arguments prog : clear implicits.
Arguments Ret {_ _ _} _.
Arguments Atomic {_ _ _ _} _ _.
Arguments Call {_ _ _ _} _ _.
Arguments Halt {_ _ _} _.
Arguments event : clear implicits.

Notation "'let!' x := p 'in' k" := (ptry p (λ x, k))
  (at level 10, x binder, k at level 200) : burn_scope.
Notation "'call!' x := p 'in' k" := (pbind p (λ x, k))
  (at level 10, x binder, k at level 200) : burn_scope.
Notation "'run!' p ; k" := (pbind p (λ _, k))
  (at level 10, k at level 200) : burn_scope.

(** ** Reasoning about every run

    [hoare step require I Q g p]: with the ghost state [g], which a call moves
    along the relation [step], the invariant [I] holds before every call and
    every call is one that is required; the program only stops where it may, and
    [Q] holds of its result. *)
Notation never := (λ _ : stop, False).

Section hoare.
Context {call : Type → Type} {L G : Type}.
Variable step : ∀ X, call X → X → G → G → Prop.
Variable require : ∀ X, call X → G → Prop.
Variable I : G → Prop.
Variable stops : stop → Prop.

Fixpoint hoare {A} (Q : A → G → Prop) (p : prog call L A) (g : G) : Prop :=
  match p with
  | Ret a => I g ∧ Q a g
  | Atomic f k => I g ∧ ∀ l, hoare Q (k (f l).1) g
  | Call c k => I g ∧ require _ c g ∧ ∀ x g', step _ c x g g' → hoare Q (k x) g'
  | Halt why => I g ∧ stops why
  end.

Lemma hoare_bind {A B} (P : A → G → Prop) (Q : B → G → Prop) (p : prog call L A) (f : A → prog call L B) g :
  hoare P p g → (∀ a g', I g' → P a g' → hoare Q (f a) g') → hoare Q (pbind p f) g.
Proof.
  intros Hp Hf. revert g Hp. induction p as [a|X u k IH|X c k IH|why]; intros g; simpl.
  - intros [Hi Ha]. by apply Hf.
  - intros [Hi Hk]. split; [done|]. intros l. by apply IH.
  - intros (Hi & Hr & Hk). split_and!; [done|done|]. intros x g' Hs. by apply IH, Hk.
  - done.
Qed.

Lemma hoare_mono {A} (P Q : A → G → Prop) (p : prog call L A) g :
  hoare P p g → (∀ a g', I g' → P a g' → Q a g') → hoare Q p g.
Proof.
  intros Hp HPQ. revert g Hp. induction p as [a|X u k IH|X c k IH|why]; intros g; simpl.
  - intros [Hi Ha]. auto.
  - intros [Hi Hk]. split; [done|]. intros l. by apply IH.
  - intros (Hi & Hr & Hk). split_and!; [done|done|]. intros x g' Hs. by apply IH, Hk.
  - done.
Qed.

Lemma hoare_call {A X} (Q : A → G → Prop) (c : call X) (f : X → prog call L A) g :
  I g → require X c g → (∀ x g', step X c x g g' → hoare Q (f x) g') → hoare Q (pbind (pcall c) f) g.
Proof. done. Qed.

(** The ghost states of a trace. *)
Fixpoint ghost_steps (g : G) (tr : list (event call)) (g' : G) : Prop :=
  match tr with
  | [] => g' = g
  | Ev c x :: tr => ∃ g1, step _ c x g g1 ∧ ghost_steps g1 tr g'
  end.

Lemma ghost_steps_app g tr tr' g' :
  ghost_steps g (tr ++ tr') g' ↔ ∃ g1, ghost_steps g tr g1 ∧ ghost_steps g1 tr' g'.
Proof.
  revert g. induction tr as [|[X c x] tr IH]; intros g; simpl.
  - split; [by exists g|by intros (? & -> & ?)].
  - setoid_rewrite IH. split; [|naive_solver]. intros (g1 & Hs & g2 & ? & ?). exists g2. by split; [exists g1|].
Qed.

Lemma hoare_runs {A} (Q : A → G → Prop) (p : prog call L A) : ∀ tr p' g g',
  runs p tr p' → ghost_steps g tr g' → hoare Q p g → hoare Q p' g'.
Proof.
  induction p as [a|X u k IH|X c k IH|why]; intros tr p' g g' Hrun Hs Hp; simpl in Hrun;
    destruct Hrun as [[-> ->]|Hrun]; try (simpl in Hs; subst; exact Hp); try done.
  - destruct Hrun as [l Hrun]. destruct Hp as [_ Hp]. by eapply IH.
  - destruct Hrun as (x & tr' & -> & Hrun). destruct Hs as (g1 & Hstep & Hs').
    destruct Hp as (_ & _ & Hp). by eapply IH, Hp.
Qed.

(** Every run: the invariant holds after it, it has not stopped where it must not,
    a result is in the post-condition, and the next call is a required one. *)
Lemma hoare_sound {A} (Q : A → G → Prop) (p : prog call L A) tr p' g g' :
  hoare Q p g → runs p tr p' → ghost_steps g tr g' →
  I g' ∧
  match p' with
  | Ret a => Q a g'
  | Call c _ => require _ c g'
  | Atomic _ _ => True
  | Halt why => stops why
  end.
Proof.
  intros Hp Hrun Hs. pose proof (hoare_runs Q p tr p' g g' Hrun Hs Hp) as Hp'.
  destruct p'; simpl in *; tauto.
Qed.

(** Every call of a run was a required one when it was made. *)
Definition required (e : event call) (g : G) : Prop := match e with Ev c _ => require _ c g end.

Lemma hoare_calls {A} (Q : A → G → Prop) (p : prog call L A) : ∀ tr p' g e tr1 tr2 g1,
  hoare Q p g → runs p tr p' → tr = (tr1 ++ e :: tr2)%list → ghost_steps g tr1 g1 → I g1 ∧ required e g1.
Proof.
  induction p as [a|X u k IH|X c k IH|why]; intros tr p' g e tr1 tr2 g1 Hp Hrun Htr Hs; simpl in Hrun;
    destruct Hrun as [[-> ->]|Hrun]; try (by destruct tr1); try done.
  - destruct Hrun as [l Hrun]. destruct Hp as [_ Hp]. by eapply IH.
  - destruct Hrun as (x & tr' & -> & Hrun). destruct Hp as (Hi & Hr & Hp). destruct tr1 as [|e1 tr1].
    + simpl in Hs. subst g1. apply (f_equal head) in Htr. simpl in Htr.
      assert (e = Ev c x) as -> by (by apply (inj Some)). done.
    + pose proof (f_equal head Htr) as He. pose proof (f_equal tail Htr) as Ht. simpl in He, Ht.
      assert (e1 = Ev c x) as -> by (by apply (inj Some)). subst tr'.
      destruct Hs as (g2 & Hstep & Hs). eapply IH; [by apply Hp, Hstep|exact Hrun|done|done].
Qed.
End hoare.

(** ** Programs that only make certain calls, and stop only in certain ways *)
Section calls_within.
Context {call : Type → Type} {L : Type}.
Variable ok : ∀ X, call X → Prop.
Variable may : stop → Prop.

Fixpoint calls_within {A} (p : prog call L A) : Prop :=
  match p with
  | Ret _ => True
  | Atomic f k => ∀ x, calls_within (k x)
  | Call c k => ok _ c ∧ ∀ x, calls_within (k x)
  | Halt why => may why
  end.

Lemma calls_in_bind {A B} (p : prog call L A) (f : A → prog call L B) :
  calls_within p → (∀ x, calls_within (f x)) → calls_within (pbind p f).
Proof.
  intros Hp Hf. induction p as [x|X u k IH|X c k IH|why]; simpl in *; [auto|auto| |done].
  destruct Hp as [Hc Hp]. auto.
Qed.

Lemma calls_in_try {A B E} (p : prog call L (result A E)) (f : A → prog call L (result B E)) :
  calls_within p → (∀ x, calls_within (f x)) → calls_within (ptry p f).
Proof. intros Hp Hf. apply calls_in_bind; [done|]. intros [x|e]; [apply Hf|done]. Qed.

(** Such a program keeps what its calls keep. *)
Lemma calls_within_hoare {A G} step require (I J : G → Prop) (stops : stop → Prop) (p : prog call L A) g :
  (∀ why, may why → stops why) →
  (∀ g, J g → I g) → (∀ X c g, ok X c → J g → require X c g) →
  (∀ X c x g g', ok X c → J g → step X c x g g' → J g') →
  calls_within p → J g → hoare step require I stops (λ _, J) p g.
Proof.
  intros Hstops HI Hreq Hstep. revert g. induction p as [x|X u k IH|X c k IH|why]; intros g; simpl; [auto| | |auto].
  - intros Hk Hj. split; [auto|]. intros l. by apply IH.
  - intros [Hc Hk] Hj. split_and!; [auto|auto|]. intros x g' Hs. apply IH; [done|]. by eapply Hstep.
Qed.
End calls_within.

(** They never stop. *)
Notation calls_in ok := (calls_within ok never).

Lemma calls_in_hoare {call L A G} (ok : ∀ X, call X → Prop) step require (I J : G → Prop) stops
    (p : prog call L A) g :
  (∀ g, J g → I g) → (∀ X c g, ok X c → J g → require X c g) →
  (∀ X c x g g', ok X c → J g → step X c x g g' → J g') →
  calls_in ok p → J g → hoare step require I stops (λ _, J) p g.
Proof. by apply calls_within_hoare. Qed.

Lemma calls_in_mono {call L A} (ok ok' : ∀ X, call X → Prop) may (p : prog call L A) :
  (∀ X c, ok X c → ok' X c) → calls_within ok may p → calls_within ok' may p.
Proof.
  intros Hok. induction p as [x|X u k IH|X c k IH|why]; simpl; [done|auto| |done].
  intros [Hc Hk]. auto.
Qed.

(** The trace of an interpretation is one of the runs. *)
Lemma interpret_runs {call : Type → Type} {L A} (answer : ∀ X, call X → X) (p : prog call L A) l :
  let '(tr, r, _) := interpret answer p l in
  runs p tr match r with inl a => Ret a | inr why => Halt why end.
Proof.
  revert l. induction p as [a|X u k IH|X c k IH|why]; intros l; simpl; [by left| | |by left].
  - destruct (u l) as [x l'] eqn:E. specialize (IH x l'). destruct (interpret answer (k x) l') as [[tr r] l''].
    right. exists l. by rewrite E.
  - specialize (IH (answer X c) l). destruct (interpret answer (k (answer X c)) l) as [[tr r] l'].
    right. by exists (answer X c), tr.
Qed.

(** ** Programs as parts of larger programs

    The calls of the part become calls of the whole, and its state is kept as a
    value [w] beside the state [L'] of the whole. *)
Section embed.
Context {call call' : Type → Type} {L L' W : Type}.
Variable lift : ∀ X, call X → call' X.
Variable split_state : W → L' → L.
Variable join_state : L → W * L'.

Fixpoint embed {A} (w : W) (p : prog call L A) : prog call' L' (A * W) :=
  match p with
  | Ret a => Ret (a, w)
  | Atomic f k =>
      Atomic (λ l', let '(x, l) := f (split_state w l') in let '(w, l') := join_state l in ((x, w), l'))
        (λ xw, embed xw.2 (k xw.1))
  | Call c k => Call (lift _ c) (λ x, embed w (k x))
  | Halt why => Halt why
  end.

(** What holds of every run of the part holds of it in the whole. *)
Lemma embed_hoare {A G} (step : ∀ X, call X → X → G → G → Prop) step' (require : ∀ X, call X → G → Prop) require'
    (I : G → Prop) (stops : stop → Prop) (Q : A → G → Prop) (p : prog call L A) g :
  (∀ X c x g g', step' X (lift X c) x g g' → step X c x g g') →
  (∀ X c g, require X c g → require' X (lift X c) g) →
  hoare step require I stops Q p g →
  ∀ w, hoare step' require' I stops (λ r, Q r.1) (embed w p) g.
Proof.
  intros Hstep Hreq. revert g. induction p as [a|X f k IH|X c k IH|why]; intros g Hp w; simpl in *.
  - done.
  - destruct Hp as [Hi Hp]. split; [done|]. intros l'. destruct (f (split_state w l')) as [x l] eqn:Ef.
    destruct (join_state l) as [w' l2]. simpl. apply IH. specialize (Hp (split_state w l')). by rewrite Ef in Hp.
  - destruct Hp as (Hi & Hr & Hp). split_and!; [done|by apply Hreq|]. intros x g' Hs. by apply IH, Hp, Hstep.
  - done.
Qed.
End embed.
