(* ===== verification/RustString.v ===== *)
(** * Rust strings

    A Rust [str] is its UTF-8 bytes, so strings are [string] (a sequence of
    8-bit characters) throughout, and lengths and offsets are byte counts in
    [N], as [usize] is.  This file gives the operations of the standard library
    that the sources use: ASCII classes, decoding to scalar values ([chars]),
    [trim], splitting, and [to_lowercase] over the Unicode tables. *)

From S2P Require Import Prelude.
From Stdlib Require Export Ascii String.
From stdpp Require Export strings.

#[global] Open Scope string_scope.
#[global] Open Scope N_scope.

(** ** Bytes *)

Definition byte_of (a : ascii) : N := N_of_ascii a.

Definition in_range (lo hi x : N) : bool := (lo <=? x) && (x <=? hi).

Definition is_ascii_digit (a : ascii) : bool := in_range 48 57 (byte_of a).
Definition is_ascii_lowercase (a : ascii) : bool := in_range 97 122 (byte_of a).
Definition is_ascii_uppercase (a : ascii) : bool := in_range 65 90 (byte_of a).
Definition is_ascii_alphabetic (a : ascii) : bool :=
  is_ascii_lowercase a || is_ascii_uppercase a.
Definition is_ascii_alphanumeric (a : ascii) : bool :=
  is_ascii_alphabetic a || is_ascii_digit a.

(** Space, tab, line feed, form feed and carriage return; not vertical tab. *)
Definition is_ascii_whitespace (a : ascii) : bool :=
  let b := byte_of a in (b =? 32) || (b =? 9) || (b =? 10) || (b =? 12) || (b =? 13).

Definition ascii_to_lower (a : ascii) : ascii :=
  if is_ascii_uppercase a then ascii_of_N (byte_of a + 32) else a.

(** A continuation byte of a multi-byte UTF-8 sequence. *)
Definition is_continuation (a : ascii) : bool := in_range 128 191 (byte_of a).

(** ** Strings as byte sequences *)

Definition str_len (s : string) : N := N.of_nat (String.length s).

Fixpoint str_all (p : ascii → bool) (s : string) : bool :=
  match s with "" => true | String a s => p a && str_all p s end.

Fixpoint str_map (f : ascii → ascii) (s : string) : string :=
  match s with "" => "" | String a s => String (f a) (str_map f s) end.

Definition to_ascii_lowercase : string → string := str_map ascii_to_lower.

(** The longest prefix whose bytes satisfy [p], and the rest. *)
Fixpoint str_span (p : ascii → bool) (s : string) : string * string :=
  match s with
  | "" => ("", "")
  | String a t =>
      if p a then let '(u, v) := str_span p t in (String a u, v) else ("", s)
  end.

Definition starts_with (s prefix : string) : bool := String.prefix prefix s.

Fixpoint str_drop (n : nat) (s : string) : string :=
  match n, s with
  | O, _ => s
  | S n, String _ s => str_drop n s
  | S _, "" => ""
  end.

Fixpoint str_take (n : nat) (s : string) : string :=
  match n, s with
  | S n, String a s => String a (str_take n s)
  | _, _ => ""
  end.

Definition ends_with (s suffix : string) : bool :=
  (String.length suffix <=? String.length s)%nat &&
  String.eqb (str_drop (String.length s - String.length suffix) s) suffix.

Fixpoint str_contains (s needle : string) : bool :=
  starts_with s needle ||
  match s with "" => false | String _ s => str_contains s needle end.

Definition str_contains_char (s : string) (c : ascii) : bool :=
  negb (str_all (λ a, negb (Ascii.eqb a c)) s).

(** [s.split(c)]: always at least one segment. *)
Fixpoint str_split (c : ascii) (s : string) : list string :=
  match s with
  | "" => [""]
  | String a t =>
      if Ascii.eqb a c then "" :: str_split c t
      else match str_split c t with
           | seg :: segs => String a seg :: segs
           | [] => [String a ""]
           end
  end.

(** [s.replace(c, by)] for a one-byte pattern. *)
Fixpoint str_replace (c : ascii) (by_ : string) (s : string) : string :=
  match s with
  | "" => ""
  | String a t =>
      if Ascii.eqb a c then by_ +:+ str_replace c by_ t else String a (str_replace c by_ t)
  end.

(** [s.is_char_boundary(i)]. *)
Definition is_char_boundary (s : string) (i : N) : bool :=
  (i =? 0) || (i =? str_len s) ||
  match String.get (N.to_nat i) s with
  | Some a => negb (is_continuation a)
  | None => false
  end.

(** ** Scalar values *)

(** [char]: a Unicode scalar value. *)
Definition is_scalar (c : N) : bool := (c <? 0xD800) || in_range 0xE000 0x10FFFF c.

Definition len_utf8 (c : N) : N :=
  if c <? 0x80 then 1 else if c <? 0x800 then 2 else if c <? 0x10000 then 3 else 4.

Definition continuation (x : N) : ascii := ascii_of_N (0x80 + x mod 64).

Definition encode_utf8 (c : N) : string :=
  if c <? 0x80 then String (ascii_of_N c) ""
  else if c <? 0x800 then
    String (ascii_of_N (0xC0 + c / 64)) (String (continuation c) "")
  else if c <? 0x10000 then
    String (ascii_of_N (0xE0 + c / 4096))
      (String (continuation (c / 64)) (String (continuation c) ""))
  else
    String (ascii_of_N (0xF0 + c / 262144))
      (String (continuation (c / 4096))
        (String (continuation (c / 64)) (String (continuation c) ""))).

Definition encode (cs : list N) : string :=
  foldr (λ c s, encode_utf8 c +:+ s) "" cs.

(** [s.chars()]: the decoder of the standard library, which trusts that its
    input is well formed; a truncated sequence cannot occur in a [str]. *)
Fixpoint chars (s : string) : list N :=
  match s with
  | "" => []
  | String a0 s1 =>
      let b0 := byte_of a0 in
      if b0 <? 0x80 then b0 :: chars s1
      else match s1 with
      | "" => []
      | String a1 s2 =>
          let b1 := byte_of a1 mod 64 in
          if b0 <? 0xE0 then (b0 mod 32 * 64 + b1) :: chars s2
          else match s2 with
          | "" => []
          | String a2 s3 =>
              let b2 := byte_of a2 mod 64 in
              if b0 <? 0xF0 then (b0 mod 16 * 4096 + b1 * 64 + b2) :: chars s3
              else match s3 with
              | "" => []
              | String a3 s4 =>
                  let b3 := byte_of a3 mod 64 in
                  (b0 mod 8 * 262144 + b1 * 4096 + b2 * 64 + b3) :: chars s4
              end
          end
      end
  end.

(** [char::is_whitespace]: the White_Space property of Unicode. *)
Definition char_is_whitespace (c : N) : bool :=
  in_range 9 13 c || (c =? 32) || (c =? 0x85) || (c =? 0xA0) || (c =? 0x1680) ||
  in_range 0x2000 0x200A c || (c =? 0x2028) || (c =? 0x2029) || (c =? 0x202F) ||
  (c =? 0x205F) || (c =? 0x3000).

(** [s.trim().is_empty()] *)
Definition is_blank (s : string) : bool := forallb char_is_whitespace (chars s).

(** ** Lowercase

    [str::to_lowercase] maps every scalar value on its own except the capital
    sigma, whose image depends on its neighbours.  The Unicode tables it reads
    are data of the standard library and stay abstract. *)
Class UnicodeData := {
  (** [char::to_lowercase] *)
  char_lower : N → list N;
  cased : N → bool;
  case_ignorable : N → bool;
  char_lower_ascii : ∀ c, c < 128 →
    char_lower c = [if in_range 65 90 c then c + 32 else c];
  char_lower_sigma : char_lower 0x3A3 = [0x3C3];
  char_lower_scalar : ∀ c, is_scalar c = true → forallb is_scalar (char_lower c) = true
}.

Section lowercase.
Context `{UnicodeData}.

(** Skips case-ignorable characters and tests whether a cased one follows. *)
Fixpoint case_ignorable_then_cased (cs : list N) : bool :=
  match cs with
  | [] => false
  | c :: cs => if case_ignorable c then case_ignorable_then_cased cs else cased c
  end.

(** [before] holds the characters already read, the last one first. *)
Fixpoint lower_chars (before cs : list N) : list N :=
  match cs with
  | [] => []
  | c :: cs' =>
      (if c =? 0x3A3 then
         [if case_ignorable_then_cased before && negb (case_ignorable_then_cased cs')
          then 0x3C2 else 0x3C3]
       else char_lower c) ++ lower_chars (c :: before) cs'
  end.

Definition to_lowercase (s : string) : string := encode (lower_chars [] (chars s)).

(** [value.chars().flat_map(char::to_lowercase).map(char::len_utf8).sum()] *)
Definition lowercase_bytes (s : string) : N :=
  foldr (λ c n, len_utf8 c + n) 0 (mjoin (char_lower <$> chars s)).
End lowercase.

(** ** Facts about strings *)

Create HintDb str discriminated.

Lemma str_app_cons a (s t : string) : String a s +:+ t = String a (s +:+ t).
Proof. done. Qed.

Lemma str_app_nil (t : string) : "" +:+ t = t.
Proof. done. Qed.

Lemma str_len_app s t : str_len (s +:+ t) = str_len s + str_len t.
Proof.
  unfold str_len. induction s as [|a s IH]; [done|].
  rewrite str_app_cons. cbn [String.length]. lia.
Qed.

Lemma str_len_cons a s : str_len (String a s) = 1 + str_len s.
Proof. unfold str_len. simpl. lia. Qed.

Lemma str_len_nil : str_len "" = 0.
Proof. done. Qed.

Lemma str_app_assoc (s t u : string) : (s +:+ t) +:+ u = s +:+ (t +:+ u).
Proof. induction s as [|a s IH]; [done|]. rewrite !str_app_cons. by f_equal. Qed.

Lemma str_app_nil_r (s : string) : s +:+ "" = s.
Proof. induction s as [|a s IH]; [done|]. rewrite !str_app_cons. by f_equal. Qed.

Lemma str_span_app p s u v : str_span p s = (u, v) → s = u +:+ v.
Proof.
  revert u v. induction s as [|a s IH]; intros u v; simpl.
  - intros [= <- <-]. done.
  - destruct (p a); [|by intros [= <- <-]].
    destruct (str_span p s) as [u' v'] eqn:E. intros [= <- <-].
    rewrite str_app_cons. f_equal. by apply IH.
Qed.

Lemma str_all_app p s t : str_all p (s +:+ t) = str_all p s && str_all p t.
Proof.
  induction s as [|a s IH]; [done|]. rewrite str_app_cons. simpl. by rewrite IH, andb_assoc.
Qed.

Lemma str_all_mono (p q : ascii → bool) s :
  (∀ a, p a = true → q a = true) → str_all p s = true → str_all q s = true.
Proof.
  intros Hpq. induction s as [|a s IH]; [done|]. simpl. rewrite !andb_true_iff. naive_solver.
Qed.

(** A span stops at the first byte that fails the test. *)
Lemma str_span_stop p u v :
  str_all p u = true → match v with String a _ => p a = false | EmptyString => True end →
  str_span p (u +:+ v) = (u, v).
Proof.
  intros Hu Hv. induction u as [|a u IH].
  - rewrite str_app_nil. destruct v as [|b v]; [done|]. simpl. by rewrite Hv.
  - rewrite str_app_cons. simpl in *. apply andb_true_iff in Hu as [-> Hu]. by rewrite IH.
Qed.

Lemma str_app_inj s t s' t' :
  String.length s = String.length s' → s +:+ t = s' +:+ t' → s = s' ∧ t = t'.
Proof.
  revert s'. induction s as [|a s IH]; intros [|b s'] Hlen Heq; try done.
  rewrite !str_app_cons in Heq. injection Heq as -> Heq. injection Hlen as Hlen.
  destruct (IH s' Hlen Heq) as [-> ->]. done.
Qed.

Lemma str_app_inj_l s t t' : s +:+ t = s +:+ t' → t = t'.
Proof. intros Heq. by apply (str_app_inj s t s t'). Qed.

(** The decimal text of a number. *)
Lemma pretty_digits (n : N) : str_all is_ascii_digit (pretty n) = true.
Proof.
  assert (∀ x s, str_all is_ascii_digit s = true →
    str_all is_ascii_digit (pretty_N_go x s) = true) as Hgo.
  { intros x. induction (N.lt_wf_0 x) as [x _ IH]. intros s Hs.
    destruct (decide (x = 0)) as [->|Hx]; [by rewrite pretty_N_go_0|].
    rewrite pretty_N_go_step by lia. apply IH; [apply N.div_lt; lia|].
    simpl. rewrite Hs, andb_true_r. unfold pretty_N_char. repeat case_match; reflexivity. }
  unfold pretty, pretty_N. destruct (decide (n = 0)); [done|]. by apply Hgo.
Qed.

(** A number followed by a byte that is not a digit is read back. *)
Lemma pretty_app_inj (n m : N) a s t :
  is_ascii_digit a = false →
  pretty n +:+ String a s = pretty m +:+ String a t → n = m ∧ s = t.
Proof.
  intros Ha Heq.
  pose proof (str_span_stop is_ascii_digit (pretty n) (String a s) (pretty_digits n) Ha) as H1.
  pose proof (str_span_stop is_ascii_digit (pretty m) (String a t) (pretty_digits m) Ha) as H2.
  rewrite Heq, H2 in H1. injection H1 as Hn ->. apply (inj pretty) in Hn. done.
Qed.

Lemma byte_of_bound a : byte_of a < 256.
Proof. apply N_ascii_bounded. Qed.

Lemma byte_of_ascii_of_N n : n < 256 → byte_of (ascii_of_N n) = n.
Proof. apply N_ascii_embedding. Qed.

Lemma str_take_drop n s : str_take n s +:+ str_drop n s = s.
Proof.
  revert s. induction n as [|n IH]; intros [|a s]; try done.
  cbn [str_take str_drop]. rewrite str_app_cons. by rewrite IH.
Qed.

Lemma str_len_drop n s :
  str_len (str_drop n s) = str_len s - N.of_nat n.
Proof.
  unfold str_len. revert s. induction n as [|n IH]; intros [|a s]; simpl; try lia.
  rewrite IH. lia.
Qed.

Lemma str_len_take n s :
  str_len (str_take n s) = N.min (N.of_nat n) (str_len s).
Proof.
  unfold str_len. revert s. induction n as [|n IH]; intros [|a s]; simpl; try lia.
  specialize (IH s). lia.
Qed.

#[export] Hint Rewrite str_app_cons str_app_nil str_len_app str_len_cons str_len_nil str_app_assoc
  str_app_nil_r str_len_drop str_len_take : str.

(** ** UTF-8 *)

Lemma byte_of_continuation x : byte_of (continuation x) mod 64 = x mod 64.
Proof.
  unfold continuation. rewrite byte_of_ascii_of_N.
  - replace 0x80 with (2 * 64) by done.
    by rewrite N.add_comm, N.Div0.mod_add, N.Div0.mod_mod.
  - pose proof (N.mod_lt x 64 ltac:(done)). lia.
Qed.

Lemma str_len_encode_utf8 c : str_len (encode_utf8 c) = len_utf8 c.
Proof. unfold encode_utf8, len_utf8. repeat case_match; done. Qed.

Lemma scalar_bound c : is_scalar c = true → c < 0x110000.
Proof. unfold is_scalar, in_range. intros H. lia. Qed.

Lemma chars_encode_utf8 c s :
  is_scalar c = true → chars (encode_utf8 c +:+ s) = c :: chars s.
Proof.
  intros Hc. apply scalar_bound in Hc. unfold encode_utf8.
  destruct (N.ltb_spec c 0x80) as [H1|H1].
  { rewrite ?str_app_cons, ?str_app_nil. cbn [chars]. rewrite byte_of_ascii_of_N by lia.
    destruct (N.ltb_spec c 128); [done|lia]. }
  destruct (N.ltb_spec c 0x800) as [H2|H2].
  { assert (c / 64 < 32) by (apply N.div_lt_upper_bound; lia).
    rewrite ?str_app_cons, ?str_app_nil. cbn [chars]. rewrite byte_of_ascii_of_N by lia.
    rewrite byte_of_continuation.
    destruct (N.ltb_spec (0xC0 + c / 64) 128); [lia|].
    destruct (N.ltb_spec (0xC0 + c / 64) 224); [|lia].
    f_equal. pose proof (N.Div0.div_mod c 64).
    replace (0xC0 + c / 64) with (c / 64 + 6 * 32) by lia.
    rewrite N.Div0.mod_add, N.mod_small by lia. lia. }
  destruct (N.ltb_spec c 0x10000) as [H3|H3].
  { assert (c / 4096 < 16) by (apply N.div_lt_upper_bound; lia).
    rewrite ?str_app_cons, ?str_app_nil. cbn [chars]. rewrite byte_of_ascii_of_N by lia.
    rewrite !byte_of_continuation.
    destruct (N.ltb_spec (0xE0 + c / 4096) 128); [lia|].
    destruct (N.ltb_spec (0xE0 + c / 4096) 224); [lia|].
    destruct (N.ltb_spec (0xE0 + c / 4096) 240); [|lia].
    f_equal. pose proof (N.Div0.div_mod c 64).
    pose proof (N.Div0.div_mod (c / 64) 64).
    assert (c / 64 / 64 = c / 4096) by (rewrite N.Div0.div_div; done).
    replace (0xE0 + c / 4096) with (c / 4096 + 14 * 16) by lia.
    rewrite N.Div0.mod_add, N.mod_small by lia. lia. }
  assert (c / 262144 < 5) by (apply N.div_lt_upper_bound; lia).
  rewrite ?str_app_cons, ?str_app_nil. cbn [chars]. rewrite byte_of_ascii_of_N by lia.
  rewrite !byte_of_continuation.
  destruct (N.ltb_spec (0xF0 + c / 262144) 128); [lia|].
  destruct (N.ltb_spec (0xF0 + c / 262144) 224); [lia|].
  destruct (N.ltb_spec (0xF0 + c / 262144) 240); [lia|].
  f_equal. pose proof (N.Div0.div_mod c 64).
  pose proof (N.Div0.div_mod (c / 64) 64).
  pose proof (N.Div0.div_mod (c / 4096) 64).
  assert (c / 64 / 64 = c / 4096) by (rewrite N.Div0.div_div; done).
  assert (c / 4096 / 64 = c / 262144) by (rewrite N.Div0.div_div; done).
  replace (0xF0 + c / 262144) with (c / 262144 + 30 * 8) by lia.
  rewrite N.Div0.mod_add, N.mod_small by lia. lia.
Qed.

Lemma encode_cons c cs : encode (c :: cs) = encode_utf8 c +:+ encode cs.
Proof. done. Qed.

(** Decoding recovers the scalar values that were encoded. *)
Lemma chars_encode cs : forallb is_scalar cs = true → chars (encode cs) = cs.
Proof.
  induction cs as [|c cs IH]; [done|]. cbn [forallb].
  intros [Hc Hcs]%andb_true_iff. rewrite encode_cons, chars_encode_utf8 by done.
  by rewrite IH.
Qed.

Lemma str_len_encode cs :
  str_len (encode cs) = foldr (λ c n, len_utf8 c + n) 0 cs.
Proof.
  induction cs as [|c cs IH]; [done|].
  rewrite encode_cons, str_len_app, str_len_encode_utf8. by rewrite IH.
Qed.

Section lowercase_facts.
Context `{UnicodeData}.

(** The contextual final sigma changes the character, not its byte count. *)
Lemma str_len_to_lowercase s : str_len (to_lowercase s) = lowercase_bytes s.
Proof.
  unfold to_lowercase, lowercase_bytes. rewrite str_len_encode.
  generalize (@nil N). generalize (chars s) as cs.
  induction cs as [|c cs IH]; intros before; [done|].
  cbn [lower_chars fmap list_fmap mjoin list_join].
  rewrite !foldr_app, IH. destruct (N.eqb_spec c 0x3A3) as [->|Hc].
  - rewrite char_lower_sigma. by destruct (_ && _).
  - done.
Qed.
End lowercase_facts.

(** An instance of the tables for the ASCII range and the two small sigmas. *)
Definition ascii_lower (c : N) : list N :=
  if c =? 0x3A3 then [0x3C3] else [if in_range 65 90 c then c + 32 else c].

#[program] Definition ascii_unicode : UnicodeData := {|
  char_lower := ascii_lower;
  cased c := in_range 65 90 c || in_range 97 122 c || in_range 0x3A3 0x3C3 c;
  case_ignorable c := (c =? 39) || (c =? 46)
|}.
Next Obligation.
  intros c Hc. unfold ascii_lower. destruct (N.eqb_spec c 0x3A3); [lia|done].
Qed.
Next Obligation. done. Qed.
Next Obligation.
  intros c Hc. unfold ascii_lower. destruct (N.eqb_spec c 0x3A3); [done|].
  cbn [forallb]. rewrite andb_true_r. unfold is_scalar, in_range in *.
  destruct ((65 <=? c) && (c <=? 90)) eqn:E; lia.
Qed.
