(* ===== verification/Json.v ===== *)
(** * JSON values

    The data of [serde_json] as the sources use it: [Value], its object map,
    and the operations on them.  [serde_json::Map] is a [BTreeMap] here, so an
    object is an association list in ascending key order.  Numbers are a type
    of the library with the operations the sources call, and stay abstract. *)

From S2P Require Import Prelude RustString.
From Stdlib Require Export SpecFloat.

(** ** Machine integers and floats *)

Definition USIZE_MAX : N := 2 ^ 64 - 1.
Definition U64_MAX : N := 2 ^ 64 - 1.
Definition I64_MAX : Z := 2 ^ 63 - 1.
Definition I64_MIN : Z := - 2 ^ 63.

(** [usize::saturating_add]; [saturating_sub] is subtraction of [N]. *)
Definition sat_add (x y : N) : N := N.min USIZE_MAX (x + y).

(** [i64::saturating_sub] *)
Definition sat_sub_i64 (x y : Z) : Z := Z.max I64_MIN (Z.min I64_MAX (x - y)).

(** [i64::try_from(n).unwrap_or(i64::MAX)] *)
Definition i64_of_usize (n : N) : Z := Z.min I64_MAX (Z.of_N n).

(** [f64]: binary64, with round to nearest even. *)
Definition f64 : Type := spec_float.

(** ** Numbers *)

(** [serde_json::Number]. *)
Class SerdeNumber := {
  Number : Type;
  (** [Display] *)
  number_to_string : Number → string;
  (** [as_u64] *)
  number_as_u64 : Number → option N;
  (** [as_i64] *)
  number_as_i64 : Number → option Z;
  (** [as_f64] *)
  number_as_f64 : Number → option f64;
  (** [From<u64>], [From<usize>] *)
  number_of_u64 : N → Number;
  (** [From<i64>] *)
  number_of_i64 : Z → Number;
  (** [from_f64]: [None] unless the value is finite *)
  number_of_f64 : f64 → option Number;
  (** [serde_json::from_str::<Number>] *)
  number_from_str : string → option Number
}.

(** ** Values *)

Section value.
Context `{SerdeNumber}.

Inductive Value : Type :=
| JNull
| JBool (b : bool)
| JNumber (n : Number)
| JString (s : string)
| JArray (items : list Value)
| JObject (fields : list (string * Value)).

Lemma Value_ind_nested (P : Value → Prop) :
  P JNull → (∀ b, P (JBool b)) → (∀ n, P (JNumber n)) → (∀ s, P (JString s)) →
  (∀ items, Forall P items → P (JArray items)) →
  (∀ fields, Forall (λ kv, P kv.2) fields → P (JObject fields)) →
  ∀ v, P v.
Proof.
  intros Hn Hb Hnum Hs Ha Ho. fix IH 1. intros [|b|n|s|items|fields].
  1-4: clear IH; auto.
  - apply Ha. induction items; constructor; [apply IH|assumption].
  - apply Ho. induction fields as [|[k v] fields]; constructor; [apply IH|assumption].
Qed.

(** Nesting height, the measure of recursion over values. *)
Fixpoint value_height (v : Value) : nat :=
  match v with
  | JArray items => S (foldr (λ v n, Nat.max (value_height v) n) O items)
  | JObject fields => S (foldr (λ kv n, Nat.max (value_height kv.2) n) O fields)
  | _ => O
  end.
End value.

(** ** Object maps *)

Section map.
Context {V : Type}.

Definition Map : Type := list (string * V).

Definition str_lt (a b : string) : bool :=
  match String.compare a b with Lt => true | _ => false end.

Fixpoint map_get (k : string) (m : Map) : option V :=
  match m with
  | [] => None
  | (k', v) :: m => if String.eqb k k' then Some v else map_get k m
  end.

Definition map_contains (k : string) (m : Map) : bool :=
  match map_get k m with Some _ => true | None => false end.

Fixpoint map_insert (k : string) (v : V) (m : Map) : Map :=
  match m with
  | [] => [(k, v)]
  | (k', v') :: m' =>
      if String.eqb k k' then (k, v) :: m'
      else if str_lt k k' then (k, v) :: m
      else (k', v') :: map_insert k v m'
  end.

Fixpoint map_remove (k : string) (m : Map) : Map :=
  match m with
  | [] => []
  | (k', v) :: m => if String.eqb k k' then map_remove k m else (k', v) :: map_remove k m
  end.

Definition map_keys (m : Map) : list string := m.*1.

(** Ascending distinct keys. *)
Fixpoint map_sorted (m : Map) : bool :=
  match m with
  | (k, _) :: ((k', _) :: _) as m' => str_lt k k' && map_sorted m'
  | _ => true
  end.

Lemma map_contains_elem k (m : Map) : map_contains k m = true ↔ k ∈ m.*1.
Proof.
  unfold map_contains. induction m as [|[k' v] m IH]; simpl; [split; [done|by intros ?%elem_of_nil]|].
  rewrite elem_of_cons, <- IH. destruct (String.eqb_spec k k') as [->|Hne]; [naive_solver|]. naive_solver.
Qed.

Lemma map_get_insert_eq k v (m : Map) : map_get k (map_insert k v m) = Some v.
Proof.
  induction m as [|[k' v'] m IH]; simpl; [by rewrite String.eqb_refl|].
  destruct (String.eqb_spec k k'); simpl; [by rewrite String.eqb_refl|].
  destruct (str_lt k k'); simpl; [by rewrite String.eqb_refl|].
  by destruct (String.eqb_spec k k').
Qed.

Lemma map_get_insert_ne k k' v (m : Map) :
  k ≠ k' → map_get k' (map_insert k v m) = map_get k' m.
Proof.
  intros Hne. induction m as [|[k2 v2] m IH]; simpl.
  { by destruct (String.eqb_spec k' k). }
  destruct (String.eqb_spec k k2) as [->|]; simpl.
  { by destruct (String.eqb_spec k' k2). }
  destruct (str_lt k k2); simpl.
  - by destruct (String.eqb_spec k' k).
  - by rewrite IH.
Qed.

Lemma map_get_remove_eq k (m : Map) : map_get k (map_remove k m) = None.
Proof.
  induction m as [|[k' v'] m IH]; [done|]. simpl.
  destruct (String.eqb_spec k k'); [done|]. simpl.
  by destruct (String.eqb_spec k k').
Qed.

Lemma map_get_remove_ne k k' (m : Map) :
  k ≠ k' → map_get k' (map_remove k m) = map_get k' m.
Proof.
  intros Hne. induction m as [|[k2 v2] m IH]; [done|]. simpl.
  destruct (String.eqb_spec k k2) as [->|]; simpl.
  - rewrite IH. by destruct (String.eqb_spec k' k2).
  - by rewrite IH.
Qed.
End map.
Arguments Map : clear implicits.

#[export] Hint Rewrite @map_get_insert_eq @map_get_remove_eq : str.

Section accessors.
Context `{SerdeNumber}.

Definition as_object (v : Value) : option (Map Value) :=
  match v with JObject m => Some m | _ => None end.
Definition as_array (v : Value) : option (list Value) :=
  match v with JArray l => Some l | _ => None end.
Definition as_str (v : Value) : option string :=
  match v with JString s => Some s | _ => None end.
Definition as_bool (v : Value) : option bool :=
  match v with JBool b => Some b | _ => None end.

(** [value.get(key)] *)
Definition value_get (v : Value) (k : string) : option Value :=
  m ← as_object v; map_get k m.

(** [items.get(index)] for a [usize] index. *)
Definition items_get {A} (items : list A) (i : N) : option A :=
  if i <? N.of_nat (length items) then items !! N.to_nat i else None.
End accessors.

(** ** A concrete number type

    Numbers as their exact decimal text.  It instantiates [SerdeNumber] in the
    examples; the theorems hold for every instance. *)
Fixpoint decimal_value_of (s : string) (acc : N) : option N :=
  match s with
  | "" => Some acc
  | String a t =>
      if is_ascii_digit a then decimal_value_of t (10 * acc + (byte_of a - 48)) else None
  end.

Definition text_of_f64 (x : f64) : option string :=
  match x with
  | S754_zero _ => Some "0"
  | S754_finite neg m e =>
      let sign := if neg then "-" else "" in
      Some (if (0 <=? e)%Z
            then sign +:+ pretty (N.pos m * 2 ^ Z.to_N e)
            else sign +:+ (pretty (N.pos m * 5 ^ Z.to_N (- e)) +:+ ("e-" +:+ pretty (Z.to_N (- e)))))
  | _ => None
  end.

Definition text_as_i64 (s : string) : option Z :=
  match s with
  | "" => None
  | String "-" t =>
      if String.eqb t "" then None
      else n ← decimal_value_of t 0; if (n <=? 2 ^ 63)%N then Some (- Z.of_N n)%Z else None
  | _ => n ← decimal_value_of s 0; if (n <? 2 ^ 63)%N then Some (Z.of_N n) else None
  end.

Definition text_numbers : SerdeNumber := {|
  Number := string;
  number_to_string := id;
  number_as_u64 s := if String.eqb s "" then None else decimal_value_of s 0;
  number_as_i64 := text_as_i64;
  number_as_f64 _ := None;
  number_of_u64 := pretty;
  number_of_i64 := pretty;
  number_of_f64 := text_of_f64;
  number_from_str s := if String.eqb s "" then None else Some s
|}.
