(* ===== verification/RustFloat.v ===== *)
(** * Decimal texts as binary64 values

    [f64::from_str] of the Rust library on decimal texts: the value of the text
    is a rational number, which is rounded once, to nearest even. *)

From S2P Require Import Prelude RustString Json.

#[local] Open Scope N_scope.

(** [n as f64] *)
Definition f64_of_N (n : N) : f64 := binary_normalize 53 1024 (Z.of_N n) 0 false.

(** [is_finite] *)
Definition f64_finite (x : f64) : bool :=
  match x with S754_zero _ | S754_finite _ _ _ => true | _ => false end.

Definition f64_neg : f64 → f64 := SFopp.

(** [fract() == 0.0]: the fraction of an infinity is not a number. *)
Definition f64_is_whole (x : f64) : bool :=
  match x with
  | S754_zero _ => true
  | S754_finite _ m e => (0 <=? e)%Z || (Z.pos m mod 2 ^ (- e) =? 0)%Z
  | _ => false
  end.

Definition digit_of (a : ascii) : N := byte_of a - 48.

(** The value of a text of decimal digits, after [acc]. *)
Fixpoint digits_value (acc : N) (s : string) : N :=
  match s with
  | EmptyString => acc
  | String a s => digits_value (acc * 10 + digit_of a) s
  end.

(** [m * 10 ^ e], rounded once.  A value of at least 10 ^ 400 rounds to infinity
    and one below 10 ^ -400 to zero, so the powers stay small. *)
Definition f64_scaled (negative : bool) (m : N) (digits : N) (e : Z) : f64 :=
  match m with
  | 0 => S754_zero negative
  | Npos p =>
      if (400 <? e)%Z then S754_infinity negative
      else if (0 <=? e)%Z then
        binary_normalize 53 1024 ((if negative then Z.neg p else Z.pos p) * 10 ^ e) 0 negative
      else if (Z.of_N digits + e <? -400)%Z then S754_zero negative
      else
        let '(q, e', l) := SFdiv_core_binary 53 1024 (Z.pos p) 0 (10 ^ (- e)) 0 in
        binary_round_aux 53 1024 negative q e' l
  end.

(** A sign, which may be missing. *)
Definition take_sign (s : string) : bool * string :=
  match s with
  | String "-"%char s => (true, s)
  | String "+"%char s => (false, s)
  | _ => (false, s)
  end.

(** The exponent of a decimal text: nothing, or [e], a sign and digits. *)
Definition decimal_exponent (s : string) : option Z :=
  match s with
  | EmptyString => Some 0%Z
  | String a s =>
      if (Ascii.eqb a "e" || Ascii.eqb a "E")%char then
        let '(negative, s) := take_sign s in
        let '(digits, rest) := str_span is_ascii_digit s in
        match digits, rest with
        | String _ _, EmptyString =>
            Some ((if negative then Z.opp else id) (Z.of_N (digits_value 0 digits)))
        | _, _ => None
        end
      else None
  end.

(** A sign, digits with at most one point among or next to them, an exponent.  The
    names of infinity and of NaN, which the library also accepts, do not reach it
    in the sources. *)
Definition f64_from_str (s : string) : option f64 :=
  let '(negative, s) := take_sign s in
  let '(whole, s) := str_span is_ascii_digit s in
  let '(fraction, s) :=
    match s with
    | String "."%char s => str_span is_ascii_digit s
    | _ => (EmptyString, s)
    end in
  let digits := (whole +:+ fraction) in
  match digits with
  | EmptyString => None
  | _ =>
      e ← decimal_exponent s;
      Some (f64_scaled negative (digits_value 0 digits) (str_len digits)
              (e - Z.of_N (str_len fraction)))
  end.

Example parses_exactly :
  f64_from_str "-12.5e1" = Some (S754_finite true 8796093022208000 (-46)) ∧
  f64_from_str "0.1" = Some (S754_finite false 7205759403792794 (-56)) ∧
  f64_from_str "1e400" = Some (S754_infinity false) ∧
  f64_from_str "1e-400" = Some (S754_zero false) ∧
  f64_from_str "4.9e-324" = Some (S754_finite false 1 (-1074)) ∧
  f64_from_str "." = None.
Proof. by vm_compute. Qed.

(** ** Order *)

Lemma SFcompare_flip x y : SFcompare y x = CompOpp <$> SFcompare x y.
Proof.
  destruct x as [s|s| |s m e], y as [s'|s'| |s' m' e']; simpl; try (by destruct s, s'); try (by destruct s);
    try (by destruct s'); try done.
  destruct s, s'; simpl; try done.
  - rewrite (Z.compare_antisym e e'). destruct (e ?= e')%Z; simpl; try done.
    f_equal. f_equal. symmetry; apply (Pos.compare_cont_antisym m m' Eq).
  - rewrite (Z.compare_antisym e e'). destruct (e ?= e')%Z; simpl; try done.
    f_equal. symmetry; apply (Pos.compare_cont_antisym m m' Eq).
Qed.

Lemma SFleb_not_gt x y : SFleb x y = true → SFltb y x = false.
Proof. unfold SFleb, SFltb. rewrite (SFcompare_flip x y). by destruct (SFcompare x y) as [[]|]. Qed.
