(* ===== verification/Diagnostics.v ===== *)
(** * Diagnostics (crates/antiburn-checks/src/diagnostics.rs)

    The closed set of diagnostic codes with their stable names, source spans,
    and the diagnostic record with its builders. *)

From S2P Require Import Prelude RustString.

Record SourceSpan := {
  start : N;
  end_ : N;
  line : N;
  column : N;
  end_line : N;
  end_column : N
}.

Definition SourceSpan_point (offset l c : N) : SourceSpan :=
  {| start := offset; end_ := offset; line := l; column := c;
     end_line := l; end_column := c |}.

Inductive DiagnosticCode :=
| YamlSyntax | YamlDirective | YamlDocumentCount | YamlRootType
| YamlNestingLimit | YamlAnchor | YamlAlias | YamlUnsupportedTag
| YamlNonStringKey | YamlDuplicateKey | YamlMergeKey | YamlNonFiniteNumber
| YamlInvalidScalar | ConfigMissingField | ConfigUnknownField
| ConfigInvalidType | ConfigInvalidValue | CompileUnsupportedFeature
| CompileInvalidExpression | CompileUnknownReference | CompileInvalidWindow
| CompileInvalidCooldown | CompileInvalidDecision | CompileInvalidAction
| RuntimeInvalidDecision | RuntimeInvalidContext | EvaluationLimitExceeded
| DiscoveryInvalidId | DiscoveryDuplicateId | DiscoveryReadFailed
| DiscoveryPaused | DiscoveryShadowed.

#[export] Instance DiagnosticCode_eq_dec : EqDecision DiagnosticCode.
Proof. solve_decision. Defined.

Definition as_str (code : DiagnosticCode) : string :=
  match code with
  | YamlSyntax => "yaml-syntax"
  | YamlDirective => "yaml-directive"
  | YamlDocumentCount => "yaml-document-count"
  | YamlRootType => "yaml-root-type"
  | YamlNestingLimit => "yaml-nesting-limit"
  | YamlAnchor => "yaml-anchor"
  | YamlAlias => "yaml-alias"
  | YamlUnsupportedTag => "yaml-unsupported-tag"
  | YamlNonStringKey => "yaml-non-string-key"
  | YamlDuplicateKey => "yaml-duplicate-key"
  | YamlMergeKey => "yaml-merge-key"
  | YamlNonFiniteNumber => "yaml-non-finite-number"
  | YamlInvalidScalar => "yaml-invalid-scalar"
  | ConfigMissingField => "config-missing-field"
  | ConfigUnknownField => "config-unknown-field"
  | ConfigInvalidType => "config-invalid-type"
  | ConfigInvalidValue => "config-invalid-value"
  | CompileUnsupportedFeature => "compile-unsupported-feature"
  | CompileInvalidExpression => "compile-invalid-expression"
  | CompileUnknownReference => "compile-unknown-reference"
  | CompileInvalidWindow => "compile-invalid-window"
  | CompileInvalidCooldown => "compile-invalid-cooldown"
  | CompileInvalidDecision => "compile-invalid-decision"
  | CompileInvalidAction => "compile-invalid-action"
  | RuntimeInvalidDecision => "runtime-invalid-decision"
  | RuntimeInvalidContext => "runtime-invalid-context"
  | EvaluationLimitExceeded => "evaluation-limit-exceeded"
  | DiscoveryInvalidId => "discovery-invalid-id"
  | DiscoveryDuplicateId => "discovery-duplicate-id"
  | DiscoveryReadFailed => "discovery-read-failed"
  | DiscoveryPaused => "discovery-paused"
  | DiscoveryShadowed => "discovery-shadowed"
  end.

Record Diagnostic := {
  code : DiagnosticCode;
  message : string;
  span : option SourceSpan;
  config_path : option string;
  source_path : option string
}.

Definition Diagnostic_at (c : DiagnosticCode) (msg : string) (sp : SourceSpan) : Diagnostic :=
  {| code := c; message := msg; span := Some sp; config_path := None; source_path := None |}.

Definition Diagnostic_new (c : DiagnosticCode) (msg : string) : Diagnostic :=
  {| code := c; message := msg; span := None; config_path := None; source_path := None |}.

Definition with_config_path (d : Diagnostic) (path : string) : Diagnostic :=
  {| code := code d; message := message d; span := span d;
     config_path := Some path; source_path := source_path d |}.

Definition with_source_path (d : Diagnostic) (path : string) : Diagnostic :=
  {| code := code d; message := message d; span := span d;
     config_path := config_path d; source_path := Some path |}.

(** Distinct codes have distinct stable names. *)
Lemma as_str_inj c c' : as_str c = as_str c' → c = c'.
Proof. destruct c, c'; intros [=]; reflexivity. Qed.
