(* ===== verification/Yaml.v ===== *)
(** * Configuration files (crates/antiburn-checks/src/config/yaml.rs)

    The tree of a definition file with its source spans, and its construction
    from the events of the YAML parser.  The parser, the crate [saphyr_parser], is
    a parameter: it gives the events of a text, or its first error. *)

From stdpp Require Export gmap.
From S2P Require Import Prelude RustString Json RustFloat Diagnostics.

#[local] Open Scope N_scope.

Definition MAX_YAML_DEPTH : N := 128.

(** ** Configuration values *)

(** [ConfigEntry] and [ConfigValueKind], over the values they hold. *)
Record Entry (V : Type) := {
  ce_key : string;
  ce_key_span : SourceSpan;
  ce_value : V
}.
Arguments ce_key {_} _.
Arguments ce_key_span {_} _.
Arguments ce_value {_} _.
Arguments Build_Entry {_} _ _ _.

Inductive Kind `{SerdeNumber} (V : Type) :=
| CfgNull
| CfgBoolean (b : bool)
| CfgNumber (n : Number)
| CfgString (s : string)
| CfgSequence (items : list V)
| CfgMapping (entries : list (Entry V)).
Arguments CfgNull {_ _}.
Arguments CfgBoolean {_ _} _.
Arguments CfgNumber {_ _} _.
Arguments CfgString {_ _} _.
Arguments CfgSequence {_ _} _.
Arguments CfgMapping {_ _} _.

Inductive ConfigValue `{SerdeNumber} := CfgValue (kind : Kind ConfigValue) (span : SourceSpan).

Section values.
Context `{SerdeNumber}.

Definition ConfigEntry : Type := Entry ConfigValue.
Definition ConfigValueKind : Type := Kind ConfigValue.

Definition cv_kind (v : ConfigValue) : ConfigValueKind := match v with CfgValue k _ => k end.
Definition cv_span (v : ConfigValue) : SourceSpan := match v with CfgValue _ s => s end.

Lemma ConfigValue_ind_nested (P : ConfigValue → Prop) :
  (∀ s, P (CfgValue CfgNull s)) → (∀ b s, P (CfgValue (CfgBoolean b) s)) →
  (∀ n s, P (CfgValue (CfgNumber n) s)) → (∀ t s, P (CfgValue (CfgString t) s)) →
  (∀ items s, Forall P items → P (CfgValue (CfgSequence items) s)) →
  (∀ entries s, Forall (λ e, P (ce_value e)) entries → P (CfgValue (CfgMapping entries) s)) →
  ∀ v, P v.
Proof.
  intros Hn Hb Hnum Hs Hseq Hmap. fix IH 1. intros [[|b|n|t|items|entries] s].
  1-4: clear IH; auto.
  - apply Hseq. induction items; constructor; [apply IH|assumption].
  - apply Hmap. induction entries as [|[k ks v] entries]; constructor; [apply IH|assumption].
Qed.

(** [to_json_value]; the map keeps the last value of a key. *)
Fixpoint to_json_value (v : ConfigValue) : Value :=
  match v with
  | CfgValue k _ =>
      match k with
      | CfgNull => JNull
      | CfgBoolean b => JBool b
      | CfgNumber n => JNumber n
      | CfgString s => JString s
      | CfgSequence items => JArray (to_json_value <$> items)
      | CfgMapping entries =>
          JObject (fold_left (λ m kv, Json.map_insert kv.1 kv.2 m)
                     ((λ e, (ce_key e, to_json_value (ce_value e))) <$> entries) [])
      end
  end.

Definition as_mapping (v : ConfigValue) : option (list ConfigEntry) :=
  match cv_kind v with CfgMapping entries => Some entries | _ => None end.
Definition as_sequence (v : ConfigValue) : option (list ConfigValue) :=
  match cv_kind v with CfgSequence items => Some items | _ => None end.
Definition cv_as_str (v : ConfigValue) : option string :=
  match cv_kind v with CfgString s => Some s | _ => None end.
End values.

(** ** Events of the parser *)

Record Tag := { t_handle : string; t_suffix : string }.

Inductive ScalarStyle := Plain | SingleQuoted | DoubleQuoted | Literal | Folded.

(** The events that the sources tell apart; an anchor of zero is no anchor. *)
Inductive Event :=
| StreamStart | StreamEnd | DocumentStart | DocumentEnd
| EvAlias
| EvScalar (value : string) (style : ScalarStyle) (anchor : N) (tag : option Tag)
| SequenceStart (anchor : N) (tag : option Tag) | SequenceEnd
| MappingStart (anchor : N) (tag : option Tag) | MappingEnd
| EvOther.

Record Marker := { mk_index : N; mk_line : N; mk_col : N }.

Record ParserSpan := { ps_start : Marker; ps_end : Marker }.

Record ScanError := { se_info : string; se_marker : Marker }.

(** The external parser: the events of a text up to its end, or the first error;
    and the [Display] of a tag. *)
Class YamlParser := {
  yaml_events : string → result (list (Event * ParserSpan)) ScanError;
  tag_to_string : Tag → string
}.

Record EventItem := { ei_event : Event; ei_span : SourceSpan }.

Definition source_span (s : ParserSpan) : SourceSpan :=
  {| start := mk_index (ps_start s); end_ := mk_index (ps_end s);
     line := mk_line (ps_start s); column := sat_add (mk_col (ps_start s)) 1;
     end_line := mk_line (ps_end s); end_column := sat_add (mk_col (ps_end s)) 1 |}.

Definition joined_span (s e : SourceSpan) : SourceSpan :=
  {| start := start s; end_ := end_ e; line := line s; column := column s;
     end_line := end_line e; end_column := end_column e |}.

Inductive ExplicitTag := TNonSpecific | TString | TNull | TBoolean | TInteger | TFloat | TMapping | TSequence.

#[export] Instance ExplicitTag_eq_dec : EqDecision ExplicitTag.
Proof. solve_decision. Defined.
#[export] Instance ScalarStyle_eq_dec : EqDecision ScalarStyle.
Proof. solve_decision. Defined.

(** ** Numbers *)

Definition signed_digits (raw : string) : bool * string := take_sign raw.

Definition digit_value (a : ascii) : option N :=
  let b := byte_of a in
  if in_range 48 57 b then Some (b - 48)
  else if in_range 97 102 b then Some (b - 97 + 10)
  else if in_range 65 70 b then Some (b - 65 + 10)
  else None.

Definition clean_digit_groups (raw : string) (radix : N) : option string :=
  if negb (String.eqb raw "") &&
     str_all (λ a, match digit_value a with Some d => d <? radix | None => false end) raw
  then Some raw else None.

(** [strip_prefix] of either of two prefixes of two bytes *)
Definition strip_radix (digits p q : string) : option string :=
  if starts_with digits p || starts_with digits q then Some (str_drop 2 digits) else None.

Definition integer_parts (raw : string) : option (bool * N * string) :=
  let '(negative, digits) := signed_digits raw in
  let '(radix, digits) :=
    match strip_radix digits "0b" "0B" with
    | Some rest => (2, rest)
    | None =>
        match strip_radix digits "0o" "0O" with
        | Some rest => (8, rest)
        | None =>
            match strip_radix digits "0x" "0X" with Some rest => (16, rest) | None => (10, digits) end
        end
    end in
  clean ← clean_digit_groups digits radix;
  Some (negative, radix, clean).

(** The value of clean digits. *)
Fixpoint radix_value (radix acc : N) (s : string) : N :=
  match s with
  | EmptyString => acc
  | String a s => radix_value radix (acc * radix + default 0 (digit_value a)) s
  end.

(** [u128::from_str_radix] of clean digits *)
Definition u128_from_str_radix (digits : string) (radix : N) : option N :=
  let n := radix_value radix 0 digits in
  if n <? 2 ^ 128 then Some n else None.

Fixpoint large_value (radix : N) (value : f64) (s : string) : option f64 :=
  match s with
  | EmptyString => Some value
  | String a s =>
      d ← digit_value a;
      let value := SFadd 53 1024 (SFmul 53 1024 value (f64_of_N radix)) (f64_of_N d) in
      if f64_finite value then large_value radix value s else None
  end.

Definition parse_large_integer (digits : string) (radix : N) : option f64 :=
  if radix =? 10 then
    value ← f64_from_str digits;
    if f64_finite value then Some value else None
  else large_value radix (f64_of_N 0) digits.

Section scalars.
Context `{SerdeNumber, YamlParser}.

Definition parse_integer (raw : string) : option Number :=
  '(negative, radix, digits) ← integer_parts raw;
  match u128_from_str_radix digits radix with
  | Some magnitude =>
      if negative : bool then
        if magnitude <=? 2 ^ 63 then Some (number_of_i64 (- Z.of_N magnitude))
        else number_of_f64 (f64_neg (f64_of_N magnitude))
      else if magnitude <=? U64_MAX then Some (number_of_u64 magnitude)
      else number_of_f64 (f64_of_N magnitude)
  | None =>
      magnitude ← parse_large_integer digits radix;
      number_of_f64 (if negative then f64_neg magnitude else magnitude)
  end.

Definition is_nonfinite_float (raw : string) : bool :=
  existsb (String.eqb (to_ascii_lowercase raw)) [".inf"; "+.inf"; "-.inf"; ".nan"; "+.nan"; "-.nan"].

(** [consume_digit_group]: the text after a group of digits. *)
Definition consume_digit_group (s : string) : option string :=
  match s with
  | String a _ => if is_ascii_digit a then Some (str_span is_ascii_digit s).2 else None
  | EmptyString => None
  end.

Definition is_exponent_mark (a : ascii) : bool := (Ascii.eqb a "e" || Ascii.eqb a "E")%char.

Definition skip_sign (s : string) : string :=
  match s with
  | String a rest => if (Ascii.eqb a "+" || Ascii.eqb a "-")%char then rest else s
  | EmptyString => s
  end.

(** The exponent of a lexeme: whether there is one and the text after it, [None]
    if it has no digits. *)
Definition lexeme_exponent (s : string) : option (bool * string) :=
  match s with
  | String a rest =>
      if is_exponent_mark a then rest ← consume_digit_group (skip_sign rest); Some (true, rest)
      else Some (false, s)
  | EmptyString => Some (false, s)
  end.

Definition is_float_lexeme (raw : string) : bool :=
  let unsigned := (signed_digits raw).2 in
  let whole_end := consume_digit_group unsigned in
  let rest := default unsigned whole_end in
  let pointed :=
    match rest with
    | String "."%char rest =>
        match consume_digit_group rest, whole_end with
        | Some rest, _ => Some (true, rest)
        | None, Some _ => Some (true, rest)
        | None, None => None
        end
    | _ => if is_some whole_end then Some (false, rest) else None
    end in
  match pointed with
  | None => false
  | Some (point, rest) =>
      match lexeme_exponent rest with
      | None => false
      | Some (exponent, rest) => (point || exponent) && String.eqb rest ""
      end
  end.

Fixpoint has_nonzero_significand (raw : string) : bool :=
  match raw with
  | EmptyString => false
  | String a raw =>
      if is_exponent_mark a then false
      else (is_ascii_digit a && negb (Ascii.eqb a "0")) || has_nonzero_significand raw
  end.

Definition is_f64_zero (x : f64) : bool := match x with S754_zero _ => true | _ => false end.

Definition normalized_float (raw : string) : string :=
  if starts_with raw "." then "0" +:+ raw
  else if starts_with raw "+." then "+0" +:+ str_drop 1 raw
  else if starts_with raw "-." then "-0" +:+ str_drop 1 raw
  else if ends_with raw "." then raw +:+ "0"
  else raw.

Definition parse_core_float (raw : string) : option Number :=
  let normalized := normalized_float raw in
  value ← f64_from_str normalized;
  if is_f64_zero value && has_nonzero_significand normalized then None else number_of_f64 value.

Inductive NumberParseError := NumberInvalid | NumberNonFinite.

(** The lexical part of [parse_explicit_float]. *)
Definition explicit_float_lexeme (raw : string) : bool :=
  let '(whole, rest) := str_span is_ascii_digit (skip_sign raw) in
  let '(fraction, rest) :=
    match rest with
    | String "."%char rest => str_span is_ascii_digit rest
    | _ => (EmptyString, rest)
    end in
  if String.eqb whole "" && String.eqb fraction "" then false
  else match lexeme_exponent rest with
       | None => false
       | Some (_, rest) => String.eqb rest ""
       end.

Definition parse_explicit_float (raw : string) : result Number NumberParseError :=
  if negb (explicit_float_lexeme raw) then Err NumberInvalid
  else
    let normalized := if starts_with raw "+" then str_drop 1 raw else raw in
    match f64_from_str normalized with
    | None => Err NumberInvalid
    | Some value =>
        if is_f64_zero value && has_nonzero_significand normalized then Err NumberInvalid
        else match number_of_f64 value with Some n => Ok n | None => Err NumberNonFinite end
    end.

(** ** Scalars *)

Definition yaml_error {A} (c : DiagnosticCode) (message : string) (sp : SourceSpan) :
    result A (list Diagnostic) := Err [Diagnostic_at c message sp].

Definition nonfinite_number {A} (sp : SourceSpan) : result A (list Diagnostic) :=
  yaml_error YamlNonFiniteNumber "Non-finite YAML numbers are not allowed." sp.

Definition invalid_scalar {A} (expected raw : string) (sp : SourceSpan) : result A (list Diagnostic) :=
  yaml_error YamlInvalidScalar
    ("Expected a valid " +:+ (expected +:+ (" scalar, found `" +:+ (raw +:+ "`.")))) sp.

Definition parse_null (raw : string) : bool :=
  existsb (String.eqb raw) [""; "~"; "null"; "Null"; "NULL"].

Definition parse_boolean (raw : string) : option bool :=
  if existsb (String.eqb raw) ["true"; "True"; "TRUE"] then Some true
  else if existsb (String.eqb raw) ["false"; "False"; "FALSE"] then Some false
  else None.

Definition resolve_plain_scalar (raw : string) (sp : SourceSpan) :
    result ConfigValueKind (list Diagnostic) :=
  if parse_null raw then Ok CfgNull
  else
    match parse_boolean raw with
    | Some b => Ok (CfgBoolean b)
    | None =>
        match parse_integer raw with
        | Some n => Ok (CfgNumber n)
        | None =>
            if is_some (integer_parts raw) then nonfinite_number sp
            else if is_nonfinite_float raw then nonfinite_number sp
            else if is_float_lexeme raw then
              match parse_core_float raw with
              | Some n => Ok (CfgNumber n)
              | None =>
                  yaml_error YamlNonFiniteNumber
                    "The YAML number is outside the finite JSON number range." sp
              end
            else Ok (CfgString raw)
        end
    end.

Definition resolve_scalar (raw : string) (style : ScalarStyle) (tag : option ExplicitTag)
    (sp : SourceSpan) : result ConfigValueKind (list Diagnostic) :=
  match tag with
  | Some TNonSpecific | Some TString => Ok (CfgString raw)
  | Some TNull => if parse_null raw then Ok CfgNull else invalid_scalar "null" raw sp
  | Some TBoolean =>
      match parse_boolean raw with
      | Some b => Ok (CfgBoolean b)
      | None => invalid_scalar "Boolean" raw sp
      end
  | Some TInteger =>
      match parse_integer raw with
      | Some n => Ok (CfgNumber n)
      | None =>
          if is_some (integer_parts raw) then nonfinite_number sp
          else invalid_scalar "integer" raw sp
      end
  | Some TFloat =>
      match parse_explicit_float raw with
      | Ok n => Ok (CfgNumber n)
      | Err NumberInvalid => invalid_scalar "finite decimal float" raw sp
      | Err NumberNonFinite => nonfinite_number sp
      end
  | Some TMapping | Some TSequence => invalid_scalar "scalar" raw sp
  | None => if bool_decide (style = Plain) then resolve_plain_scalar raw sp else Ok (CfgString raw)
  end.

(** ** Nodes *)

Definition reject_anchor (anchor : N) (sp : SourceSpan) : result unit (list Diagnostic) :=
  if anchor =? 0 then Ok tt else yaml_error YamlAnchor "YAML anchors are not allowed." sp.

Definition explicit_tag (tag : option Tag) (sp : SourceSpan) :
    result (option ExplicitTag) (list Diagnostic) :=
  match tag with
  | None => Ok None
  | Some t =>
      let unsupported :=
        yaml_error YamlUnsupportedTag
          ("YAML tag `" +:+ (tag_to_string t +:+ "` is not allowed.")) sp in
      if String.eqb (t_handle t) "" && String.eqb (t_suffix t) "!" then Ok (Some TNonSpecific)
      else if String.eqb (t_handle t) "tag:yaml.org,2002:" then
        if String.eqb (t_suffix t) "str" then Ok (Some TString)
        else if String.eqb (t_suffix t) "null" then Ok (Some TNull)
        else if String.eqb (t_suffix t) "bool" then Ok (Some TBoolean)
        else if String.eqb (t_suffix t) "int" then Ok (Some TInteger)
        else if String.eqb (t_suffix t) "float" then Ok (Some TFloat)
        else if String.eqb (t_suffix t) "map" then Ok (Some TMapping)
        else if String.eqb (t_suffix t) "seq" then Ok (Some TSequence)
        else unsupported
      else unsupported
  end.

(** A collection may carry its own tag or the non-specific one. *)
Definition check_collection_tag (allowed : ExplicitTag) (tag : option ExplicitTag) (name : string)
    (sp : SourceSpan) : result unit (list Diagnostic) :=
  match tag with
  | None | Some TNonSpecific => Ok tt
  | Some t =>
      if decide (t = allowed) then Ok tt
      else yaml_error YamlInvalidScalar
             ("The explicit YAML tag does not match a " +:+ (name +:+ " value.")) sp
  end.

Definition diagnostic_for_event (item : option EventItem) (c : DiagnosticCode) (message : string) :
    Diagnostic :=
  match item with
  | None => Diagnostic_new c message
  | Some e => Diagnostic_at c message (ei_span e)
  end.
End scalars.

Inductive YamlStop := YamlFailed (diagnostics : list Diagnostic) | YamlOutOfFuel.

Section nodes.
Context `{SerdeNumber, YamlParser}.

(** The cursor is the list of the events that are left. *)
Definition yaml (A : Type) : Type := result (A * list EventItem) YamlStop.

Definition yaml_try {A B} (r : result A (list Diagnostic)) (f : A → yaml B) : yaml B :=
  result_bind (map_err YamlFailed r) f.

Definition syntax_error {A} (events : list EventItem) (c : DiagnosticCode) (message : string) : yaml A :=
  Err (YamlFailed [diagnostic_for_event (head events) c message]).

(** The checks of a key, before its value is read. *)
Definition check_key (keys : gset string) (key : ConfigValue) : result string (list Diagnostic) :=
  match cv_kind key with
  | CfgString text =>
      if String.eqb text "<<" then
        yaml_error YamlMergeKey "YAML merge keys are not allowed." (cv_span key)
      else if bool_decide (text ∈ keys) then
        yaml_error YamlDuplicateKey ("Duplicate mapping key `" +:+ (text +:+ "`.")) (cv_span key)
      else Ok text
  | _ => yaml_error YamlNonStringKey "Mapping keys must resolve to strings." (cv_span key)
  end.

(** [parse_node], and the loops of the two collections. *)
Fixpoint parse_node (fuel : nat) (depth : N) (events : list EventItem) : yaml ConfigValue :=
  match fuel with
  | O => Err YamlOutOfFuel
  | S fuel =>
      if MAX_YAML_DEPTH <? depth then
        syntax_error events YamlNestingLimit "YAML nesting exceeds the maximum depth of 128."
      else
        match events with
        | [] => syntax_error [] YamlSyntax "Unexpected end of YAML input."
        | item :: events =>
            let sp := ei_span item in
            match ei_event item with
            | EvAlias => Err (YamlFailed [Diagnostic_at YamlAlias "YAML aliases are not allowed." sp])
            | EvScalar value style anchor tag =>
                yaml_try (reject_anchor anchor sp) (λ _,
                yaml_try (explicit_tag tag sp) (λ tag,
                yaml_try (resolve_scalar value style tag sp) (λ k, Ok (CfgValue k sp, events))))
            | SequenceStart anchor tag =>
                yaml_try (reject_anchor anchor sp) (λ _,
                yaml_try (explicit_tag tag sp) (λ tag,
                yaml_try (check_collection_tag TSequence tag "sequence" sp) (λ _,
                parse_items fuel (depth + 1) sp [] events)))
            | MappingStart anchor tag =>
                yaml_try (reject_anchor anchor sp) (λ _,
                yaml_try (explicit_tag tag sp) (λ tag,
                yaml_try (check_collection_tag TMapping tag "mapping" sp) (λ _,
                parse_entries fuel (depth + 1) sp ∅ [] events)))
            | _ =>
                Err (YamlFailed [Diagnostic_at YamlSyntax
                       "Unexpected YAML parser event while reading a value." sp])
            end
        end
  end
with parse_items (fuel : nat) (depth : N) (sp : SourceSpan) (values : list ConfigValue)
    (events : list EventItem) : yaml ConfigValue :=
  match fuel with
  | O => Err YamlOutOfFuel
  | S fuel =>
      match events with
      | {| ei_event := SequenceEnd; ei_span := e |} :: events =>
          Ok (CfgValue (CfgSequence values) (joined_span sp e), events)
      | _ =>
          let? '(v, events) := parse_node fuel depth events in
          parse_items fuel depth sp (values ++ [v])%list events
      end
  end
with parse_entries (fuel : nat) (depth : N) (sp : SourceSpan) (keys : gset string)
    (entries : list ConfigEntry) (events : list EventItem) : yaml ConfigValue :=
  match fuel with
  | O => Err YamlOutOfFuel
  | S fuel =>
      match events with
      | {| ei_event := MappingEnd; ei_span := e |} :: events =>
          Ok (CfgValue (CfgMapping entries) (joined_span sp e), events)
      | _ =>
          let? '(key, events) := parse_node fuel depth events in
          yaml_try (check_key keys key) (λ text,
          let? '(v, events) := parse_node fuel depth events in
          parse_entries fuel depth sp ({[ text ]} ∪ keys)
            (entries ++ [{| ce_key := text; ce_key_span := cv_span key; ce_value := v |}])%list events)
      end
  end.

(** Every node takes an event, and every turn of a loop takes a node. *)
Definition node_fuel (events : list EventItem) : nat := 2 * length events + 3.

(** ** Documents *)

(** [find_directive]: the offset and the number of the first line that starts
    with a percent sign. *)
Fixpoint directive_line (offset number : N) (lines : list string) : option (N * N) :=
  match lines with
  | [] => None
  | l :: lines =>
      if starts_with l "%" then Some (offset, number)
      else directive_line (offset + str_len l + 1) (number + 1) lines
  end.

Definition find_directive (source : string) : option (N * N) :=
  directive_line 0 1 (str_split "010" source).

Fixpoint skip_stream_starts (events : list EventItem) : list EventItem :=
  match events with
  | {| ei_event := StreamStart |} :: rest => skip_stream_starts rest
  | _ => events
  end.

Definition yaml_root_type (sp : SourceSpan) : Diagnostic :=
  Diagnostic_at YamlRootType "The YAML document root must be a mapping." sp.

(** The events after the start of the document: the root, then nothing else. *)
Definition parse_root (events : list EventItem) : yaml ConfigValue :=
  match events with
  | [] => syntax_error [] YamlSyntax "Unexpected end of YAML input."
  | {| ei_event := DocumentEnd; ei_span := sp |} :: _ => Ok (CfgValue CfgNull sp, events)
  | _ => parse_node (node_fuel events) 0 events
  end.

Definition check_end (events : list EventItem) : result unit (list Diagnostic) :=
  match events with
  | {| ei_event := DocumentEnd |} :: events =>
      match events with
      | [] | {| ei_event := StreamEnd |} :: _ => Ok tt
      | {| ei_event := DocumentStart; ei_span := sp |} :: _ =>
          yaml_error YamlDocumentCount "Expected exactly one YAML document." sp
      | {| ei_span := sp |} :: _ =>
          yaml_error YamlSyntax "Unexpected content after the YAML document." sp
      end
  | _ => Err [diagnostic_for_event (head events) YamlSyntax "Expected the end of the YAML document."]
  end.

(** The events of a document. *)
Definition parse_events (events : list EventItem) : result ConfigValue YamlStop :=
  match skip_stream_starts events with
  | [] => Err (YamlFailed [Diagnostic_new YamlDocumentCount "Expected exactly one YAML document."])
  | {| ei_event := StreamEnd; ei_span := sp |} :: _ => Err (YamlFailed [yaml_root_type sp])
  | {| ei_event := DocumentStart |} :: events =>
      let? '(root, events) := parse_root events in
      let? _ := map_err YamlFailed (check_end events) in
      match cv_kind root with
      | CfgMapping _ => Ok root
      | _ => Err (YamlFailed [yaml_root_type (cv_span root)])
      end
  | {| ei_span := sp |} :: _ =>
      Err (YamlFailed [Diagnostic_at YamlSyntax "Expected a YAML document start." sp])
  end.

Definition scan_diagnostic (e : ScanError) : Diagnostic :=
  let m := se_marker e in
  Diagnostic_at (if str_contains (se_info e) "unknown anchor" then YamlAlias else YamlSyntax) (se_info e)
    (SourceSpan_point (mk_index m) (mk_line m) (sat_add (mk_col m) 1)).

Definition parse_yaml (source : string) : result ConfigValue YamlStop :=
  match find_directive source with
  | Some (offset, number) =>
      Err (YamlFailed [Diagnostic_at YamlDirective "YAML directives are not allowed in check files."
             (SourceSpan_point offset number 1)])
  | None =>
      match yaml_events source with
      | Err e => Err (YamlFailed [scan_diagnostic e])
      | Ok events =>
          parse_events ((λ es, {| ei_event := es.1; ei_span := source_span es.2 |}) <$> events)
      end
  end.
End nodes.
