(* ===== verification/YamlFacts.v ===== *)
(** * Facts about configuration files (crates/antiburn-checks/src/config/yaml.rs)

    The texts of scalars, put together from their parts, and what they mean by tag
    and style; the grammar of the documents that are accepted, as a relation between
    a value and the events it is read from.  Neither refers to the operations of the
    parser; both are proved equivalent to it. *)

From S2P Require Import Prelude RustString RustFloat Json Diagnostics Yaml.

#[local] Open Scope N_scope.

(** ** Texts

    The texts of YAML 1.2 core scalars, put together from their parts. *)

Inductive sign_text : string → bool → Prop :=
| no_sign : sign_text "" false
| plus_sign : sign_text "+" false
| minus_sign : sign_text "-" true.

Inductive radix_prefix : string → N → Prop :=
| decimal_prefix : radix_prefix "" 10
| binary_prefix p : p ∈ ["0b"; "0B"] → radix_prefix p 2
| octal_prefix p : p ∈ ["0o"; "0O"] → radix_prefix p 8
| hexadecimal_prefix p : p ∈ ["0x"; "0X"] → radix_prefix p 16.

(** A digit, by its place among the digits. *)
Definition digit_is (a : ascii) (d : N) : Prop :=
  String.get (N.to_nat d) "0123456789abcdef" = Some a ∨ String.get (N.to_nat d) "0123456789ABCDEF" = Some a.

(** Digits of a radix with their value *)
Inductive denotes (radix : N) : string → N → Prop :=
| denotes_nil : denotes radix "" 0
| denotes_snoc s n a d :
    denotes radix s n → digit_is a d → d < radix →
    denotes radix (s +:+ String a "") (n * radix + d).

Inductive integer_text : string → bool → N → string → N → Prop :=
| integer_parts_of sign negative prefix radix digits n :
    sign_text sign negative → radix_prefix prefix radix → digits ≠ "" → denotes radix digits n →
    integer_text (sign +:+ (prefix +:+ digits)) negative radix digits n.

(** Digits of a large integer, rounded after each of them *)
Inductive rounds (radix : N) : string → f64 → Prop :=
| rounds_nil : rounds radix "" (f64_of_N 0)
| rounds_snoc s x a d y :
    rounds radix s x → digit_is a d →
    y = SFadd 53 1024 (SFmul 53 1024 x (f64_of_N radix)) (f64_of_N d) → f64_finite y = true →
    rounds radix (s +:+ String a "") y.

Definition digits_text (s : string) : Prop := str_all is_ascii_digit s = true.

(** The digits on both sides of a point, which may be missing when there are digits
    before it *)
Inductive mantissa_text : string → string → string → bool → Prop :=
| whole_mantissa w : digits_text w → w ≠ "" → mantissa_text w w "" false
| pointed_mantissa w f :
    digits_text w → digits_text f → w ≠ "" ∨ f ≠ "" → mantissa_text (w +:+ String "." f) w f true.

Inductive exponent_text : string → bool → Prop :=
| no_exponent : exponent_text "" false
| an_exponent mark sign negative digits :
    mark ∈ ["e"; "E"] → sign_text sign negative → digits_text digits → digits ≠ "" →
    exponent_text (mark +:+ (sign +:+ digits)) true.

(** A decimal text: its sign, its digits, its exponent, and whether it has a point
    or an exponent *)
Inductive decimal_text : string → string → string → string → string → bool → bool → Prop :=
| decimal_parts sign negative m w f point e exponent :
    sign_text sign negative → mantissa_text m w f point → exponent_text e exponent →
    decimal_text (sign +:+ (m +:+ e)) sign w f e point exponent.

(** The text that is read for a plain decimal: a side of the point without digits
    gets a zero, the right one only when the point ends the text. *)
Inductive padded : string → string → string → string → bool → string → Prop :=
| padded_front sign f e : padded sign "" f e true (sign +:+ ("0." +:+ (f +:+ e)))
| padded_back sign w : w ≠ "" → padded sign w "" "" true (sign +:+ (w +:+ ".0"))
| padded_none sign w f e :
    w ≠ "" → f ≠ "" ∨ e ≠ "" → padded sign w f e true (sign +:+ (w +:+ (String "." f +:+ e)))
| padded_whole sign w e : padded sign w "" e false (sign +:+ (w +:+ e)).

(** A value that is zero without a digit other than zero in its text has
    underflowed. *)
Definition underflows (w f : string) (x : f64) : Prop :=
  is_f64_zero x = true ∧ ¬ str_all (Ascii.eqb "0") (w +:+ f) = true.

Definition nonfinite_text (raw : string) : Prop :=
  ∃ sign negative word, sign_text sign negative ∧ raw = sign +:+ ("." +:+ word) ∧
    to_ascii_lowercase word ∈ ["inf"; "nan"].

(** ** The texts are what the lexical functions accept *)

Ltac each_of H :=
  repeat (apply elem_of_cons in H as [H|H]); try (by apply elem_of_nil in H); try discriminate H;
  try match type of H with ?x = _ => is_var x; subst x end.

Definition unsigned (s : string) : Prop :=
  match s with String a _ => a ≠ "+"%char ∧ a ≠ "-"%char | EmptyString => True end.

Lemma take_sign_text sign negative s : sign_text sign negative → unsigned s → take_sign (sign +:+ s) = (negative, s).
Proof.
  destruct 1; [|done..]. rewrite str_app_nil. destruct s as [|a s]; [done|]. simpl. intros [Hp Hm].
  destruct a as [[] [] [] [] [] [] [] []]; try done.
Qed.

Lemma take_sign_spec s : ∃ sign, s = sign +:+ (take_sign s).2 ∧ sign_text sign (take_sign s).1.
Proof.
  destruct s as [|a s]; [exists ""; split; [done|constructor]|].
  destruct (Ascii.eqb_spec a "+") as [->|Hp]; [exists "+"; split; [done|constructor]|].
  destruct (Ascii.eqb_spec a "-") as [->|Hm]; [exists "-"; split; [done|constructor]|].
  pose proof (take_sign_text "" false (String a s) ltac:(constructor) (conj Hp Hm)) as Ht.
  rewrite str_app_nil in Ht. exists "". rewrite Ht. split; [done|constructor].
Qed.

Lemma skip_sign_take s : skip_sign s = (take_sign s).2.
Proof.
  destruct s as [|a s]; [done|]. unfold skip_sign.
  destruct (Ascii.eqb_spec a "+") as [->|Hp]; [done|]. destruct (Ascii.eqb_spec a "-") as [->|Hm]; [done|].
  pose proof (take_sign_text "" false (String a s) ltac:(constructor) (conj Hp Hm)) as Ht.
  rewrite str_app_nil in Ht. by rewrite Ht.
Qed.

(** *** Digits *)

Lemma digit_value_is a d : digit_value a = Some d ↔ digit_is a d.
Proof.
  split.
  - destruct a as [[] [] [] [] [] [] [] []]; vm_compute; intros Hd; first [discriminate Hd|injection Hd as <-];
      unfold digit_is; vm_compute; auto.
  - assert (∀ n s, String.get n s = Some a → (n < String.length s)%nat) as Hlt.
    { intros n s. revert n. induction s as [|b s IH]; intros [|n]; simpl; try done; [lia|].
      intros ?%IH. lia. }
    unfold digit_is. intros Hd.
    assert (N.to_nat d < 16)%nat as Hb by (destruct Hd as [Hd|Hd]; apply Hlt in Hd; exact Hd).
    rewrite <- (N2Nat.id d). revert Hd Hb. generalize (N.to_nat d). clear. intros n Hd Hb.
    do 16 (destruct n as [|n]; [destruct Hd as [Hd|Hd]; injection Hd as <-; reflexivity|]). lia.
Qed.

Definition digit_below (radix : N) (a : ascii) : bool :=
  match digit_value a with Some d => d <? radix | None => false end.

Lemma radix_value_app radix s : ∀ t acc, radix_value radix acc (s +:+ t) = radix_value radix (radix_value radix acc s) t.
Proof. induction s as [|a s IH]; intros t acc; [done|]. rewrite str_app_cons. apply IH. Qed.

Lemma denotes_app radix s : ∀ s1 n,
  denotes radix s1 n → str_all (digit_below radix) s = true → denotes radix (s1 +:+ s) (radix_value radix n s).
Proof.
  induction s as [|a s IH]; intros s1 n Hs1; simpl; [by rewrite str_app_nil_r|].
  intros [Ha Hs]%andb_true_iff. unfold digit_below in Ha. destruct (digit_value a) as [d|] eqn:Ed; [|done].
  rewrite <- (str_app_nil s), <- str_app_cons, <- str_app_assoc. apply IH; [|done].
  constructor; [done|by apply digit_value_is|by apply N.ltb_lt].
Qed.

Lemma denotes_clean radix s n :
  denotes radix s n ↔ str_all (digit_below radix) s = true ∧ radix_value radix 0 s = n.
Proof.
  split.
  - induction 1 as [|s n a d _ [IHa IHv] Hd Hlt]; [done|]. rewrite str_all_app, radix_value_app, IHa, IHv. simpl.
    unfold digit_below. rewrite (proj2 (digit_value_is a d) Hd). simpl. by rewrite (proj2 (N.ltb_lt _ _) Hlt).
  - intros [Ha <-]. rewrite <- (str_app_nil s) at 1. apply denotes_app; [constructor|done].
Qed.

Lemma rounds_large radix s : ∀ s1 x y,
  rounds radix s1 x → str_all (λ a, is_some (digit_value a)) s = true →
  large_value radix x s = Some y → rounds radix (s1 +:+ s) y.
Proof.
  induction s as [|a s IH]; intros s1 x y Hs1; cbn [str_all large_value].
  - intros _ [= <-]. by rewrite str_app_nil_r.
  - destruct (digit_value a) as [d|] eqn:Ed; [|done]. cbn. intros Hs.
    destruct (f64_finite _) eqn:Ef; [|done]. intros Hy.
    rewrite <- (str_app_nil s), <- str_app_cons, <- str_app_assoc. eapply IH; [|done|exact Hy].
    econstructor; [done|by apply digit_value_is|done|done].
Qed.

Lemma large_value_app radix s : ∀ x y t,
  large_value radix x s = Some y → large_value radix x (s +:+ t) = large_value radix y t.
Proof.
  induction s as [|a s IH]; intros x y t; [by intros [= ->]|]. rewrite str_app_cons. cbn [large_value].
  destruct (digit_value a) as [d|]; [|done]. cbn. destruct (f64_finite _); [|done]. apply IH.
Qed.

Lemma large_rounds radix s x : rounds radix s x → large_value radix (f64_of_N 0) s = Some x.
Proof.
  induction 1 as [|s x a d y _ IH Hd -> Hf]; [done|]. rewrite (large_value_app _ _ _ _ _ IH). simpl.
  rewrite (proj2 (digit_value_is a d) Hd). cbn. by rewrite Hf.
Qed.

(** *** Integers *)

Lemma starts_with_app s p : starts_with s p = true → s = p +:+ str_drop (String.length p) s.
Proof.
  unfold starts_with. revert s. induction p as [|a p IH]; intros [|b s]; simpl; try done.
  destruct (ascii_dec a b) as [<-|]; [|done]. intros Hs%IH. rewrite str_app_cons. by f_equal.
Qed.

Lemma starts_with_all q s p : starts_with s p = true → str_all q s = true → str_all q p = true.
Proof. intros ->%starts_with_app. rewrite str_all_app. by intros [? _]%andb_true_iff. Qed.

Lemma strip_radix_decimal s p q :
  str_all (digit_below 10) s = true → str_all (digit_below 10) p = false → str_all (digit_below 10) q = false →
  strip_radix s p q = None.
Proof.
  intros Hs Hp Hq. unfold strip_radix.
  destruct (starts_with s p) eqn:Ep; [apply (starts_with_all (digit_below 10)) in Ep; congruence|].
  destruct (starts_with s q) eqn:Eq; [apply (starts_with_all (digit_below 10)) in Eq; congruence|done].
Qed.

Lemma digit_below_unsigned radix s : str_all (digit_below radix) s = true → unsigned s.
Proof. destruct s as [|a s]; [done|]. simpl. intros [Ha _]%andb_true_iff. by split; intros ->. Qed.

Lemma starts_with_two a b s p q :
  starts_with (String a (String b s)) (String p (String q "")) = Ascii.eqb p a && Ascii.eqb q b.
Proof.
  unfold starts_with. simpl. destruct (ascii_dec p a) as [<-|Hp]; [rewrite Ascii.eqb_refl|by rewrite (proj2 (Ascii.eqb_neq _ _) Hp)].
  destruct (ascii_dec q b) as [<-|Hq]; [rewrite Ascii.eqb_refl|by rewrite (proj2 (Ascii.eqb_neq _ _) Hq)].
  by destruct s.
Qed.

Lemma integer_parts_text raw negative radix digits :
  integer_parts raw = Some (negative, radix, digits) ↔
  ∃ n, integer_text raw negative radix digits n.
Proof.
  unfold integer_parts, signed_digits. split.
  - destruct (take_sign_spec raw) as (sign & Hraw & Hsign). destruct (take_sign raw) as [neg s]. simpl in *.
    assert (∀ p q r, strip_radix s p q = Some r → String.length p = 2%nat → String.length q = 2%nat →
      ∃ x, x ∈ [p; q] ∧ s = x +:+ r) as Hstrip.
    { intros p q r Hr Hp Hq. unfold strip_radix in Hr.
      destruct (starts_with s p) eqn:Ep; [|destruct (starts_with s q) eqn:Eq; [|done]]; injection Hr as <-.
      - exists p. split; [by left|]. apply starts_with_app in Ep. by rewrite Hp in Ep.
      - exists q. split; [by right; left|]. apply starts_with_app in Eq. by rewrite Hq in Eq. }
    set (found := match strip_radix s "0b" "0B" with Some rest => (2, rest) | None => _ end).
    assert (∃ prefix, radix_prefix prefix found.1 ∧ s = prefix +:+ found.2) as (prefix & Hprefix & Hs).
    { unfold found. destruct (strip_radix s "0b" "0B") eqn:E2.
      { apply Hstrip in E2 as (x & Hx & ->); [|done..]. exists x. split; [by constructor|done]. }
      destruct (strip_radix s "0o" "0O") eqn:E8.
      { apply Hstrip in E8 as (x & Hx & ->); [|done..]. exists x. split; [by constructor|done]. }
      destruct (strip_radix s "0x" "0X") eqn:E16.
      { apply Hstrip in E16 as (x & Hx & ->); [|done..]. exists x. split; [by constructor|done]. }
      exists "". split; [constructor|done]. }
    destruct found as [radix' rest]. simpl in *. intros (clean & Hc & [= <- <- <-])%bind_Some.
    unfold clean_digit_groups in Hc. destruct (negb _ && _) eqn:E; [|done]. injection Hc as <-.
    apply andb_true_iff in E as [Hne%negb_true_iff%String.eqb_neq Hall].
    eexists. rewrite Hraw, Hs. econstructor; [done..|]. by apply denotes_clean.
  - intros (n & [sign neg prefix radix' digits' n' Hsign Hprefix Hne [Hd _]%denotes_clean]).
    assert (clean_digit_groups digits' radix' = Some digits') as Hc.
    { unfold clean_digit_groups. rewrite (proj2 (String.eqb_neq _ _) Hne). simpl.
      unfold digit_below in Hd. by rewrite Hd. }
    assert (unsigned (prefix +:+ digits')) as Hu.
    { destruct Hprefix as [|p Hp|p Hp|p Hp]; [by eapply digit_below_unsigned|each_of Hp; by rewrite str_app_cons..]. }
    rewrite (take_sign_text _ _ _ Hsign Hu).
    destruct Hprefix as [|p Hp|p Hp|p Hp].
    + rewrite str_app_nil, !strip_radix_decimal by done. by rewrite Hc.
    + each_of Hp; rewrite !str_app_cons, str_app_nil; unfold strip_radix; rewrite !starts_with_two; cbn -[clean_digit_groups]; by rewrite Hc.
    + each_of Hp; rewrite !str_app_cons, str_app_nil; unfold strip_radix; rewrite !starts_with_two; cbn -[clean_digit_groups]; by rewrite Hc.
    + each_of Hp; rewrite !str_app_cons, str_app_nil; unfold strip_radix; rewrite !starts_with_two; cbn -[clean_digit_groups]; by rewrite Hc.
Qed.

(** *** Decimals *)

Definition heads (p : ascii → bool) (s : string) : bool :=
  match s with String a _ => p a | EmptyString => false end.

(** What both readers of decimals take after the sign: digits, a point, digits. *)
Definition mantissa_split (s : string) : string * string * bool * string :=
  let '(w, rest) := str_span is_ascii_digit s in
  match rest with
  | String "."%char rest => let '(f, rest) := str_span is_ascii_digit rest in (w, f, true, rest)
  | _ => (w, "", false, rest)
  end.

Lemma digits_unsigned s t : digits_text s → s ≠ "" → unsigned (s +:+ t).
Proof.
  unfold digits_text. destruct s as [|a s]; [done|]. rewrite str_app_cons. simpl.
  intros [Ha _]%andb_true_iff _. by split; intros ->.
Qed.

Lemma span_digits s t : digits_text s → heads is_ascii_digit t = false → str_span is_ascii_digit (s +:+ t) = (s, t).
Proof. intros Hs Ht. apply str_span_stop; [done|]. by destruct t. Qed.

Lemma span_text s w t : str_span is_ascii_digit s = (w, t) → s = w +:+ t ∧ digits_text w ∧ heads is_ascii_digit t = false.
Proof.
  unfold digits_text. revert w t. induction s as [|a s IH]; intros w t; simpl; [by intros [= <- <-]|].
  destruct (is_ascii_digit a) eqn:Ea.
  - destruct (str_span is_ascii_digit s) as [w' t']. destruct (IH _ _ eq_refl) as (-> & Hw & Ht).
    intros [= <- <-]. simpl. by rewrite Ea.
  - intros [= <- <-]. done.
Qed.

Lemma point_or_not s :
  (∃ t, s = String "." t) ∨ heads (Ascii.eqb ".") s = false.
Proof.
  destruct s as [|a s]; [by right|]. destruct (Ascii.eqb_spec "." a) as [<-|Hne]; [left; eauto|right].
  by apply (proj2 (Ascii.eqb_neq "." a)).
Qed.

Lemma mantissa_split_whole s w t :
  str_span is_ascii_digit s = (w, t) → heads (Ascii.eqb ".") t = false → mantissa_split s = (w, "", false, t).
Proof.
  intros Hs Ht. unfold mantissa_split. rewrite Hs. destruct t as [|a t]; [done|].
  destruct a as [[] [] [] [] [] [] [] []]; first [discriminate Ht|reflexivity].
Qed.

Lemma mantissa_split_spec s :
  let '(w, f, point, t) := mantissa_split s in
  w ≠ "" ∨ f ≠ "" → ∃ m, mantissa_text m w f point ∧ s = m +:+ t.
Proof.
  destruct (str_span is_ascii_digit s) as [w t] eqn:Es. destruct (span_text _ _ _ Es) as (-> & Hw & Ht).
  destruct (point_or_not t) as [[t' ->]|Hp].
  - unfold mantissa_split. rewrite Es. destruct (str_span is_ascii_digit t') as [f t''] eqn:Ef.
    destruct (span_text _ _ _ Ef) as (-> & Hf & _). intros Hne. eexists. split; [by constructor|].
    by rewrite str_app_assoc, str_app_cons.
  - rewrite (mantissa_split_whole _ _ _ Es Hp). intros [Hne|Hne]; [|done].
    exists w. split; [by constructor|done].
Qed.

Lemma mantissa_split_text m w f point t :
  mantissa_text m w f point → heads is_ascii_digit t = false → heads (Ascii.eqb ".") t = false →
  mantissa_split (m +:+ t) = (w, f, point, t).
Proof.
  intros [w' Hw Hne|w' f' Hw Hf Hne] Ht Hp.
  - apply mantissa_split_whole; [by apply span_digits|done].
  - unfold mantissa_split. rewrite str_app_assoc, str_app_cons, (span_digits _ _ Hw) by done.
    by rewrite (span_digits _ _ Hf Ht).
Qed.

Lemma consume_span s :
  consume_digit_group s =
  let '(w, t) := str_span is_ascii_digit s in if String.eqb w "" then None else Some t.
Proof.
  unfold consume_digit_group. destruct s as [|a s]; [done|]. simpl. destruct (is_ascii_digit a); [|done].
  by destruct (str_span is_ascii_digit s).
Qed.

Lemma is_exponent_mark_in a : is_exponent_mark a = true ↔ String a "" ∈ ["e"; "E"].
Proof.
  unfold is_exponent_mark. rewrite orb_true_iff, !Ascii.eqb_eq, !elem_of_cons, elem_of_nil.
  split; [intros [->| ->]; auto|intros [[= ->]|[[= ->]|[]]]; auto].
Qed.

Lemma lexeme_exponent_text s x : lexeme_exponent s = Some (x, "") ↔ exponent_text s x.
Proof.
  split.
  - destruct s as [|a s]; simpl; [intros [= <-]; constructor|].
    destruct (is_exponent_mark a) eqn:Ea; [|by intros [=]]. apply is_exponent_mark_in in Ea.
    intros (rest & Hr & [= <- ->])%bind_Some. rewrite skip_sign_take, consume_span in Hr.
    destruct (take_sign_spec s) as (sign & Hs & Hsign). destruct (take_sign s) as [negative u]. simpl in *.
    destruct (str_span is_ascii_digit u) as [w t] eqn:Ew. apply span_text in Ew as (-> & Hw & _).
    destruct (String.eqb_spec w "") as [|Hne]; [done|]. injection Hr as ->. rewrite str_app_nil_r in Hs.
    rewrite Hs, <- (str_app_nil (sign +:+ w)), <- str_app_cons. by econstructor.
  - intros [|mark sign negative digits Hm Hs Hd Hne]; [done|].
    assert (∃ a, mark = String a "" ∧ is_exponent_mark a = true) as (a & -> & Ha).
    { each_of Hm; eexists; split; done. }
    rewrite str_app_cons, str_app_nil. simpl. rewrite Ha, skip_sign_take.
    rewrite (take_sign_text _ _ _ Hs) by (rewrite <- (str_app_nil_r digits); by apply digits_unsigned).
    cbn [snd]. rewrite consume_span, <- (str_app_nil_r digits), span_digits by done.
    by rewrite (proj2 (String.eqb_neq _ _) Hne).
Qed.

Lemma exponent_heads e x : exponent_text e x → heads is_ascii_digit e = false ∧ heads (Ascii.eqb ".") e = false.
Proof. intros [|mark sign negative digits Hm _ _ _]; [done|]. by each_of Hm; rewrite str_app_cons. Qed.

(** The reading of a decimal that both readers share *)
Definition decimal_read (raw : string) (ok : bool → bool → bool) : bool :=
  let '(w, f, point, t) := mantissa_split (take_sign raw).2 in
  negb (String.eqb w "" && String.eqb f "") &&
  match lexeme_exponent t with Some (exponent, rest) => ok point exponent && String.eqb rest "" | None => false end.

Lemma decimal_read_text raw ok :
  decimal_read raw ok = true ↔
  ∃ sign w f e point exponent, decimal_text raw sign w f e point exponent ∧ ok point exponent = true.
Proof.
  unfold decimal_read. split.
  - destruct (take_sign_spec raw) as (sign & Hraw & Hsign). destruct (take_sign raw) as [negative s]. simpl in *.
    pose proof (mantissa_split_spec s) as Hm. destruct (mantissa_split s) as [[[w f] point] t].
    intros [Hne Hl]%andb_true_iff. destruct (lexeme_exponent t) as [[exponent rest]|] eqn:El; [|done].
    apply andb_true_iff in Hl as [Hok ->%String.eqb_eq]. apply lexeme_exponent_text in El.
    destruct Hm as (m & Hm & ->).
    { destruct (String.eqb_spec w ""), (String.eqb_spec f ""); auto; done. }
    rewrite Hraw. exists sign, w, f, t, point, exponent. split; [by econstructor|done].
  - intros (sign & w & f & e & point & exponent & [? negative m ? ? ? ? ? Hs Hm He] & Hok).
    destruct (exponent_heads _ _ He) as [Hd Hp].
    rewrite (take_sign_text _ _ _ Hs).
    + cbn [snd]. rewrite (mantissa_split_text _ _ _ _ _ Hm Hd Hp), (proj2 (lexeme_exponent_text _ _) He), Hok.
      destruct Hm as [? _ Hne|? ? _ _ [Hne|Hne]]; rewrite (proj2 (String.eqb_neq _ _) Hne), ?andb_false_r; done.
    + destruct Hm as [? Hw Hne|w' f' Hw Hf Hne]; [by apply digits_unsigned|].
      destruct (decide (w' = "")) as [->|Hw']; [done|]. rewrite str_app_assoc. by apply digits_unsigned.
Qed.

Lemma is_float_lexeme_read raw : is_float_lexeme raw = decimal_read raw orb.
Proof.
  unfold is_float_lexeme, decimal_read, signed_digits. destruct (take_sign raw) as [negative s]. cbn [snd].
  rewrite consume_span. destruct (str_span is_ascii_digit s) as [w t] eqn:Es.
  assert (default s (if String.eqb w "" then None else Some t) = t) as Hdef.
  { destruct (String.eqb_spec w "") as [->|]; [|done]. by apply span_text in Es as (-> & _ & _). }
  rewrite Hdef. destruct (point_or_not t) as [[t' ->]|Hp].
  - unfold mantissa_split. rewrite Es, consume_span.
    destruct (str_span is_ascii_digit t') as [f t''] eqn:Ef. apply span_text in Ef as (Ht' & _ & _).
    destruct (String.eqb_spec w "") as [->|Hw], (String.eqb_spec f "") as [->|Hf]; simpl; try done.
    all: rewrite ?str_app_nil in Ht'; subst; by destruct (lexeme_exponent _) as [[]|].
  - rewrite (mantissa_split_whole _ _ _ Es Hp).
    assert (∀ (x : option (bool * string)) (y : string → option (bool * string)),
      match t with String "."%char r => y r | _ => x end = x) as Hm.
    { intros x y. destruct t as [|a t]; [done|]. destruct a as [[] [] [] [] [] [] [] []]; first [discriminate Hp|reflexivity]. }
    rewrite Hm. destruct (String.eqb_spec w "") as [->|Hw]; simpl; [done|].
    by destruct (lexeme_exponent _) as [[]|].
Qed.

Lemma explicit_float_read raw : explicit_float_lexeme raw = decimal_read raw (λ _ _, true).
Proof.
  unfold explicit_float_lexeme, decimal_read. rewrite skip_sign_take. unfold mantissa_split.
  destruct (str_span is_ascii_digit (take_sign raw).2) as [w t].
  assert (∀ f t', (if String.eqb w "" && String.eqb f "" then false
      else match lexeme_exponent t' with None => false | Some (_, rest) => String.eqb rest "" end) =
    negb (String.eqb w "" && String.eqb f "") &&
    match lexeme_exponent t' with Some (_, rest) => true && String.eqb rest "" | None => false end) as Hif.
  { intros f t'. by destruct (String.eqb w "" && String.eqb f ""). }
  destruct t as [|a t]; [apply Hif|].
  destruct a as [[] [] [] [] [] [] [] []]; try apply Hif. destruct (str_span is_ascii_digit t). apply Hif.
Qed.

(** *** The value of a decimal *)

Lemma ends_with_last s a c : ends_with (s +:+ String a "") (String c "") = Ascii.eqb a c.
Proof.
  assert (∀ s : string, str_drop (String.length s) (s +:+ String a "") = String a "") as Hdrop.
  { intros s1. induction s1 as [|b s1 IH]; [done|]. rewrite str_app_cons. exact IH. }
  assert (∀ s : string, String.length (s +:+ String a "") = S (String.length s)) as Hlen.
  { intros s1. induction s1 as [|b s1 IH]; [done|]. rewrite str_app_cons. cbn [String.length]. by rewrite IH. }
  unfold ends_with. rewrite Hlen. cbn [String.length]. rewrite Nat.sub_succ, Nat.sub_0_r, Hdrop.
  simpl. by destruct (Ascii.eqb a c).
Qed.

Lemma string_last s : s ≠ "" → ∃ t a, s = t +:+ String a "".
Proof.
  induction s as [|a s IH]; [done|]. intros _. destruct (decide (s = "")) as [->|Hs]; [by exists "", a|].
  destruct (IH Hs) as (t & b & ->). exists (String a t), b. by rewrite str_app_cons.
Qed.

Lemma digits_end s d : digits_text d → d ≠ "" → ends_with (s +:+ d) "." = false.
Proof.
  intros Hd (t & a & ->)%string_last. rewrite <- str_app_assoc, ends_with_last. unfold digits_text in Hd.
  rewrite str_all_app in Hd. apply andb_true_iff in Hd as [_ Ha]. destruct (Ascii.eqb_spec a ".") as [->|]; done.
Qed.

Lemma exponent_end s e x : exponent_text e x → e ≠ "" → ends_with (s +:+ e) "." = false.
Proof.
  intros [|mark sign negative digits _ _ Hd Hne] He; [done|]. rewrite <- !str_app_assoc. by apply digits_end.
Qed.

Lemma starts_with_cons a s b p : starts_with (String a s) (String b p) = Ascii.eqb b a && starts_with s p.
Proof.
  unfold starts_with. simpl. destruct (ascii_dec b a) as [<-|Hne]; [by rewrite Ascii.eqb_refl|].
  by rewrite (proj2 (Ascii.eqb_neq _ _) Hne).
Qed.

Lemma starts_with_nil s : starts_with s "" = true.
Proof. by destruct s. Qed.

Lemma starts_with_one s b : starts_with s (String b "") = heads (Ascii.eqb b) s.
Proof. destruct s as [|a s]; [done|]. by rewrite starts_with_cons, starts_with_nil, andb_true_r. Qed.

Lemma heads_digit s t : digits_text s → s ≠ "" → heads is_ascii_digit (s +:+ t) = true.
Proof. unfold digits_text. destruct s as [|a s]; [done|]. rewrite str_app_cons. simpl. by intros [-> _]%andb_true_iff. Qed.

(** A sign before a text: does a point follow it? *)
Lemma normalized_signed sign negative s :
  sign_text sign negative → unsigned s →
  normalized_float (sign +:+ s) =
  if heads (Ascii.eqb ".") s then sign +:+ ("0" +:+ s)
  else if ends_with (sign +:+ s) "." then sign +:+ (s +:+ "0") else sign +:+ s.
Proof.
  intros Hs Hu. unfold normalized_float. rewrite starts_with_one. destruct Hs.
  - rewrite str_app_nil. destruct s as [|a s]; [done|]. destruct Hu as [Hp Hm]. rewrite !starts_with_cons.
    rewrite (proj2 (Ascii.eqb_neq "+" a)), (proj2 (Ascii.eqb_neq "-" a)) by done. done.
  - rewrite str_app_cons, str_app_nil, !starts_with_cons, starts_with_one. cbn [heads Ascii.eqb Bool.eqb andb].
    by destruct (heads _ s).
  - rewrite str_app_cons, str_app_nil, !starts_with_cons, starts_with_one. cbn [heads Ascii.eqb Bool.eqb andb].
    by destruct (heads _ s).
Qed.

Lemma mantissa_unsigned m w f point e : mantissa_text m w f point → unsigned (m +:+ e).
Proof.
  intros [? Hw Hne|w' f' Hw Hf Hne]; [by apply digits_unsigned|].
  destruct (decide (w' = "")) as [->|Hw']; [done|]. rewrite str_app_assoc. by apply digits_unsigned.
Qed.

Lemma digit_no_point s t : digits_text s → s ≠ "" → heads (Ascii.eqb ".") (s +:+ t) = false.
Proof.
  intros Hs Hne. pose proof (heads_digit s t Hs Hne) as Hd. destruct (s +:+ t) as [|a u]; [done|]. simpl in *.
  destruct (Ascii.eqb_spec "." a) as [<-|Hna]; [done|by apply (proj2 (Ascii.eqb_neq "." a))].
Qed.

Lemma normalized_padded raw sign w f e point exponent :
  decimal_text raw sign w f e point exponent → point || exponent = true →
  padded sign w f e point (normalized_float raw).
Proof.
  intros [sign0 negative m w0 f0 point0 e0 exponent0 Hs Hm He] Hmark. rewrite (normalized_signed _ negative) by (try done; by eapply mantissa_unsigned).
  destruct Hm as [w1 Hw Hne|w1 f1 Hw Hf Hne].
  - rewrite digit_no_point by done. destruct He as [|mark sign' negative' digits Hmk Hsg Hd Hdn]; [done|].
    assert (exponent_text (mark +:+ (sign' +:+ digits)) true) as He by (by econstructor).
    assert (mark +:+ (sign' +:+ digits) ≠ "") as Hen by (each_of Hmk; by rewrite str_app_cons).
    pose proof (exponent_end (sign0 +:+ w1) _ _ He Hen) as Hend. rewrite str_app_assoc in Hend.  rewrite Hend. constructor.
  - destruct (decide (w1 = "")) as [->|Hw'].
    + rewrite !str_app_nil, str_app_cons. cbn [heads]. rewrite Ascii.eqb_refl. apply padded_front.
    + rewrite str_app_assoc, str_app_cons, digit_no_point by done.
      destruct (decide (e0 = "")) as [->|Hen]; [destruct (decide (f1 = "")) as [->|Hfn]|].
      * pose proof (ends_with_last (sign0 +:+ w1) "." ".") as Hend. rewrite str_app_assoc in Hend.
        rewrite str_app_nil, Hend, Ascii.eqb_refl, str_app_assoc. by apply padded_back.
      * pose proof (digits_end (sign0 +:+ (w1 +:+ ".")) f1 Hf Hfn) as Hend.
        rewrite !str_app_assoc, (str_app_cons "." "" f1), str_app_nil in Hend.
        rewrite str_app_nil_r, Hend, <- (str_app_nil_r (String "." f1)). apply padded_none; [done|by left].
      * pose proof (exponent_end (sign0 +:+ (w1 +:+ String "." f1)) _ _ He Hen) as Hend.
        rewrite !str_app_assoc, str_app_cons in Hend. rewrite Hend, <- str_app_cons.
        apply padded_none; [done|by right].
Qed.

Lemma padded_unique sign w f e point t t' : padded sign w f e point t → padded sign w f e point t' → t = t'.
Proof. intros [] Ht; inversion Ht; simplify_eq; try done; naive_solver. Qed.

Lemma significand_digits s t :
  digits_text s →
  has_nonzero_significand (s +:+ t) = negb (str_all (Ascii.eqb "0") s) || has_nonzero_significand t.
Proof.
  unfold digits_text. induction s as [|a s IH]; [done|]. rewrite str_app_cons. cbn [str_all has_nonzero_significand].
  intros [Ha Hs]%andb_true_iff. assert (is_exponent_mark a = false) as ->.
  { unfold is_exponent_mark. destruct (Ascii.eqb_spec a "e") as [->|]; [done|].
    by destruct (Ascii.eqb_spec a "E") as [->|]. }
  rewrite (IH Hs), Ha. cbn [andb]. rewrite (Ascii.eqb_sym a "0"). by destruct (Ascii.eqb "0" a).
Qed.

Lemma significand_sign sign negative t : sign_text sign negative → has_nonzero_significand (sign +:+ t) = has_nonzero_significand t.
Proof. by intros []; rewrite ?str_app_cons, str_app_nil. Qed.

Lemma significand_point t : has_nonzero_significand (String "." t) = has_nonzero_significand t.
Proof. done. Qed.

Lemma significand_exponent e x : exponent_text e x → has_nonzero_significand e = false.
Proof. intros [|mark sign negative digits Hm _ _ _]; [done|]. by each_of Hm; rewrite str_app_cons. Qed.

(** Both forms of the text have the significant digits of the decimal. *)
Lemma significand_decimal raw sign w f e point exponent :
  decimal_text raw sign w f e point exponent →
  has_nonzero_significand raw = negb (str_all (Ascii.eqb "0") (w +:+ f)) ∧
  ∀ t, padded sign w f e point t → has_nonzero_significand t = negb (str_all (Ascii.eqb "0") (w +:+ f)).
Proof.
  intros [sign0 negative m w0 f0 point0 e0 exponent0 Hs Hm He].
  pose proof (significand_exponent _ _ He) as Hx. rewrite str_all_app, negb_andb. split.
  - rewrite (significand_sign _ _ _ Hs).
    revert Hx. destruct Hm as [w1 Hw _|w1 f1 Hw Hf _]; intros Hx; [by rewrite significand_digits, Hx|].
    by rewrite str_app_assoc, str_app_cons, significand_digits, significand_point, significand_digits, Hx, orb_false_r.
  - intros t Ht. assert (digits_text w0 ∧ digits_text f0) as [Hw Hf] by (by destruct Hm).
    revert Hs Hx Hw Hf. destruct Ht; intros Hs Hx Hw Hf; rewrite (significand_sign _ _ _ Hs).
    + assert (digits_text "0") as H0 by (unfold digits_text; done).
      change ("0." +:+ (f0 +:+ e0)) with ("0" +:+ String "." (f0 +:+ e0)).
      rewrite (significand_digits "0" _ H0), significand_point. rewrite significand_digits, Hx, orb_false_r by done. done.
    + rewrite significand_digits by done. done.
    + rewrite significand_digits, str_app_cons, significand_point, significand_digits, Hx, orb_false_r by done. done.
    + rewrite significand_digits, Hx by done. done.
Qed.

(** A leading plus makes no difference to the value. *)
Lemma unsigned_decimal raw sign w f e point exponent :
  decimal_text raw sign w f e point exponent →
  f64_from_str (if starts_with raw "+" then str_drop 1 raw else raw) = f64_from_str raw ∧
  has_nonzero_significand (if starts_with raw "+" then str_drop 1 raw else raw) = has_nonzero_significand raw.
Proof.
  intros [sign0 negative m w0 f0 point0 e0 exponent0 Hs Hm He]. rewrite starts_with_one.
  pose proof (mantissa_unsigned _ _ _ _ e0 Hm) as Hu. destruct Hs; rewrite ?str_app_cons, str_app_nil.
  - destruct (m +:+ e0) as [|a s]; [done|]. destruct Hu as [Hp _]. cbn [heads].
    by rewrite (proj2 (Ascii.eqb_neq "+" a)).
  - cbn [heads]. rewrite Ascii.eqb_refl. cbn [str_drop]. split; [|done].
    pose proof (take_sign_text "" false _ no_sign Hu) as Ht. rewrite str_app_nil in Ht.
    unfold f64_from_str. by rewrite Ht.
  - done.
Qed.

(** *** The kinds of plain texts exclude each other *)

Definition null_texts : list string := [""; "~"; "null"; "Null"; "NULL"].

Definition boolean_texts (b : bool) : list string :=
  if b then ["true"; "True"; "TRUE"] else ["false"; "False"; "FALSE"].

Lemma existsb_string raw l : existsb (String.eqb raw) l = true ↔ raw ∈ l.
Proof.
  induction l as [|x l IH]; simpl; [by rewrite elem_of_nil|].
  by rewrite orb_true_iff, String.eqb_eq, IH, elem_of_cons.
Qed.

Lemma parse_null_text raw : parse_null raw = true ↔ raw ∈ null_texts.
Proof. apply existsb_string. Qed.

Lemma parse_boolean_text raw b : parse_boolean raw = Some b ↔ raw ∈ boolean_texts b.
Proof.
  unfold parse_boolean, boolean_texts. destruct (existsb _ _) eqn:Et.
  { apply existsb_string in Et. split; [by intros [= <-]|]. destruct b; [done|]. intros Hf. by each_of Et; each_of Hf. }
  destruct (existsb (String.eqb raw) ["false"; "False"; "FALSE"]) eqn:Ef.
  { apply existsb_string in Ef. split; [by intros [= <-]|]. destruct b; [|done]. intros Ht. by each_of Ef; each_of Ht. }
  split; [done|]. intros Hb%existsb_string. destruct b; simpl in *; congruence.
Qed.

(** The words of the other kinds are no numbers. *)
Definition no_number (raw : string) : Prop := integer_parts raw = None ∧ is_float_lexeme raw = false.

Lemma words_no_number raw : raw ∈ null_texts ∨ (∃ b, raw ∈ boolean_texts b) → no_number raw.
Proof. unfold null_texts, boolean_texts. intros [Hr|[[] Hr]]; each_of Hr; vm_compute; done. Qed.

Lemma words_apart raw b : raw ∈ boolean_texts b → parse_null raw = false.
Proof. unfold boolean_texts. destruct b; intros Hr; each_of Hr; vm_compute; done. Qed.

Lemma lower_other a c : is_ascii_lowercase c = false → ascii_to_lower a = c → a = c.
Proof.
  unfold ascii_to_lower. destruct (is_ascii_uppercase a) eqn:Ea; [|done]. intros Hc <-. exfalso.
  unfold is_ascii_uppercase, is_ascii_lowercase, in_range in *. apply andb_true_iff in Ea as [Hl%N.leb_le Hu%N.leb_le].
  rewrite byte_of_ascii_of_N in Hc by lia. apply andb_false_iff in Hc as [Hc%N.leb_gt|Hc%N.leb_gt]; lia.
Qed.

Lemma is_nonfinite_text raw : is_nonfinite_float raw = true ↔ nonfinite_text raw.
Proof.
  unfold is_nonfinite_float, nonfinite_text. rewrite existsb_string. split.
  - intros Hr.
    assert (∃ sign negative word, sign_text sign negative ∧ word ∈ ["inf"; "nan"] ∧
              to_ascii_lowercase raw = sign +:+ ("." +:+ word)) as (sign & negative & word & Hs & Hw & Heq).
    { each_of Hr.
      - exists "", false, "inf". split_and!; [constructor|by left|exact Hr].
      - exists "+", false, "inf". split_and!; [constructor|by left|exact Hr].
      - exists "-", true, "inf". split_and!; [constructor|by left|exact Hr].
      - exists "", false, "nan". split_and!; [constructor|by right; left|exact Hr].
      - exists "+", false, "nan". split_and!; [constructor|by right; left|exact Hr].
      - exists "-", true, "nan". split_and!; [constructor|by right; left|exact Hr]. }
    assert (∀ s word', to_ascii_lowercase s = "." +:+ word' → ∃ u, s = "." +:+ u ∧ to_ascii_lowercase u = word') as Hpoint.
    { intros [|a s] word'; [done|]. rewrite str_app_cons, str_app_nil. intros [= Ha Hu]. exists s.
      apply lower_other in Ha as ->; [|done]. by rewrite str_app_cons, str_app_nil. }
    exists sign, negative. destruct Hs; rewrite ?str_app_cons, str_app_nil in Heq.
    + apply Hpoint in Heq as (u & -> & Hu). exists u. rewrite Hu. split_and!; [constructor|by rewrite str_app_nil|done].
    + destruct raw as [|a raw]; [done|]. injection Heq as Ha Heq. apply lower_other in Ha as ->; [|done].
      apply Hpoint in Heq as (u & -> & Hu). exists u. rewrite Hu. split_and!; [constructor|done|done].
    + destruct raw as [|a raw]; [done|]. injection Heq as Ha Heq. apply lower_other in Ha as ->; [|done].
      apply Hpoint in Heq as (u & -> & Hu). exists u. rewrite Hu. split_and!; [constructor|done|done].
  - intros (sign & negative & word & Hs & -> & Hw).
    assert (to_ascii_lowercase (sign +:+ ("." +:+ word)) = sign +:+ ("." +:+ to_ascii_lowercase word)) as ->
      by (by destruct Hs; rewrite ?str_app_cons, ?str_app_nil).
    revert Hw. generalize (to_ascii_lowercase word). intros w Hw.
    destruct Hs; each_of Hw; rewrite <- existsb_string; vm_compute; done.
Qed.

Lemma nonfinite_no_number raw : nonfinite_text raw → no_number raw.
Proof.
  intros (sign & negative & word & Hs & -> & Hw).
  assert (∃ a s, word = String a s ∧ is_ascii_digit a = false) as (a & s & -> & Ha).
  { destruct word as [|a s]; [by each_of Hw|]. exists a, s. split; [done|].
    destruct (is_ascii_digit a) eqn:Ea; [|done]. exfalso.
    assert (ascii_to_lower a = a) as Hl.
    { unfold ascii_to_lower, is_ascii_uppercase. unfold is_ascii_digit, in_range in Ea.
      apply andb_true_iff in Ea as [_ Ea%N.leb_le]. unfold in_range. destruct (N.leb_spec 65 (byte_of a)); [lia|done]. }
    unfold to_ascii_lowercase in Hw. cbn [str_map] in Hw. rewrite Hl in Hw.
    by each_of Hw; injection Hw as -> _. }
  assert (unsigned ("." +:+ String a s)) as Hu by done. split.
  - destruct (integer_parts _) as [[[neg radix] digits]|] eqn:E; [|done]. exfalso.
    apply integer_parts_text in E as (n & Hi). inversion Hi as [sign' neg' prefix radix' digits' n' Hs' Hp Hne Hd Heq]; subst.
    apply denotes_clean in Hd as [Hd _]. pose proof (f_equal take_sign Heq) as Ht.
    rewrite (take_sign_text _ _ _ Hs Hu) in Ht. rewrite (take_sign_text _ _ _ Hs') in Ht.
    + injection Ht as _ Ht. destruct Hp as [|p Hp|p Hp|p Hp]; [|by each_of Hp..].
      rewrite str_app_nil in Ht. by rewrite Ht in Hd.
    + destruct Hp as [|p Hp|p Hp|p Hp]; [by eapply digit_below_unsigned|each_of Hp; by rewrite str_app_cons..].
  - rewrite is_float_lexeme_read. unfold decimal_read. rewrite (take_sign_text _ _ _ Hs Hu). cbn [snd].
    assert (mantissa_split ("." +:+ String a s) = ("", "", true, String a s)) as ->; [|done].
    rewrite str_app_cons, str_app_nil. unfold mantissa_split. simpl. by rewrite Ha.
Qed.

(** A decimal with a point or an exponent is no integer. *)
Lemma float_no_integer raw : is_float_lexeme raw = true → integer_parts raw = None.
Proof.
  rewrite is_float_lexeme_read, decimal_read_text. intros (sign & w & f & e & point & exponent & Hdec & Hmark).
  destruct (integer_parts raw) as [[[neg radix] digits]|] eqn:E; [|done]. exfalso.
  apply integer_parts_text in E as (n & Hi). destruct Hdec as [sign negative m w f point e exponent Hs Hm He].
  inversion Hi as [sign' neg' prefix radix' digits' n' Hs' Hp Hne Hd Heq]; subst.
  apply denotes_clean in Hd as [Hd _].
  assert (m +:+ e = prefix +:+ digits) as Hbody.
  { pose proof (f_equal take_sign Heq) as Ht.
    rewrite (take_sign_text _ _ _ Hs (mantissa_unsigned _ _ _ _ e Hm)) in Ht. rewrite (take_sign_text _ _ _ Hs') in Ht.
    - by injection Ht.
    - destruct Hp as [|p Hp|p Hp|p Hp]; [by eapply digit_below_unsigned|each_of Hp; by rewrite str_app_cons..]. }
  set (mark := λ a, is_ascii_digit a || existsb (Ascii.eqb a) ["."; "e"; "E"; "+"; "-"]%char).
  assert (∀ s, digits_text s → str_all mark s = true) as Hdigits.
  { intros s. apply str_all_mono. intros a Ha. unfold mark. by rewrite Ha. }
  assert (str_all mark (m +:+ e) = true) as Hall.
  { rewrite str_all_app. apply andb_true_iff. split.
    - destruct Hm; [by apply Hdigits|]. rewrite str_all_app, Hdigits by done. cbn [str_all]. by rewrite Hdigits.
    - destruct He as [|mk sg ng ds Hmk Hsg Hds _]; [done|]. rewrite !str_all_app, (Hdigits ds Hds).
      by destruct Hsg; each_of Hmk. }
  destruct Hp as [|p Hp|p Hp|p Hp].
  - rewrite str_app_nil in Hbody. rewrite <- Hbody, str_all_app in Hd. apply andb_true_iff in Hd as [Hdm Hde].
    destruct Hm; [|rewrite str_all_app in Hdm; apply andb_true_iff in Hdm as [_ Hdm]; done].
    destruct He as [|mk sg ng ds Hmk _ _ _]; [done|]. rewrite str_all_app in Hde. apply andb_true_iff in Hde as [Hde _].
    by each_of Hmk.
  - rewrite Hbody, str_all_app in Hall. by each_of Hp.
  - rewrite Hbody, str_all_app in Hall. by each_of Hp.
  - rewrite Hbody, str_all_app in Hall. by each_of Hp.
Qed.

Section scalar_meaning.
Context `{SerdeNumber, YamlParser}.

(** ** Scalars

    The value of a scalar by its tag and style.  A number that JSON cannot hold has
    none. *)

Definition signed_value (negative : bool) (x : f64) : f64 := if negative then f64_neg x else x.

(** An integer is exact in 64 bits; beyond it is the nearest double up to 128 bits,
    and then what its digits give. *)
Inductive integer_number (negative : bool) (radix : N) (digits : string) (n : N) : Number → Prop :=
| exact_negative : negative = true → n ≤ 2 ^ 63 → integer_number negative radix digits n (number_of_i64 (- Z.of_N n))
| exact_natural : negative = false → n < 2 ^ 64 → integer_number negative radix digits n (number_of_u64 n)
| nearest_double k :
    (if negative then 2 ^ 63 < n else 2 ^ 64 ≤ n) → n < 2 ^ 128 →
    number_of_f64 (signed_value negative (f64_of_N n)) = Some k → integer_number negative radix digits n k
| large_decimal x k :
    2 ^ 128 ≤ n → radix = 10 → f64_from_str digits = Some x → f64_finite x = true →
    number_of_f64 (signed_value negative x) = Some k → integer_number negative radix digits n k
| large_radix x k :
    2 ^ 128 ≤ n → radix ≠ 10 → rounds radix digits x →
    number_of_f64 (signed_value negative x) = Some k → integer_number negative radix digits n k.

Definition is_integer (raw : string) : Prop :=
  ∃ negative radix digits n, integer_text raw negative radix digits n.

Definition is_float (raw : string) : Prop :=
  ∃ sign w f e point exponent, decimal_text raw sign w f e point exponent ∧ point || exponent = true.

(** A plain scalar: the core schema of YAML 1.2. *)
Inductive plain_means (raw : string) : ConfigValueKind → Prop :=
| plain_null : raw ∈ null_texts → plain_means raw CfgNull
| plain_boolean b : raw ∈ boolean_texts b → plain_means raw (CfgBoolean b)
| plain_integer negative radix digits n k :
    integer_text raw negative radix digits n → integer_number negative radix digits n k →
    plain_means raw (CfgNumber k)
| plain_float sign w f e point exponent text x k :
    decimal_text raw sign w f e point exponent → point || exponent = true →
    padded sign w f e point text → f64_from_str text = Some x → ¬ underflows w f x →
    number_of_f64 x = Some k → plain_means raw (CfgNumber k)
| plain_string :
    raw ∉ null_texts → (∀ b, raw ∉ boolean_texts b) → ¬ is_integer raw → ¬ is_float raw →
    ¬ nonfinite_text raw → plain_means raw (CfgString raw).

Inductive scalar_means (raw : string) (style : ScalarStyle) : option ExplicitTag → ConfigValueKind → Prop :=
| scalar_string t : t = TNonSpecific ∨ t = TString → scalar_means raw style (Some t) (CfgString raw)
| scalar_null : raw ∈ null_texts → scalar_means raw style (Some TNull) CfgNull
| scalar_boolean b : raw ∈ boolean_texts b → scalar_means raw style (Some TBoolean) (CfgBoolean b)
| scalar_integer negative radix digits n k :
    integer_text raw negative radix digits n → integer_number negative radix digits n k →
    scalar_means raw style (Some TInteger) (CfgNumber k)
| scalar_float sign w f e point exponent x k :
    decimal_text raw sign w f e point exponent → f64_from_str raw = Some x → ¬ underflows w f x →
    number_of_f64 x = Some k → scalar_means raw style (Some TFloat) (CfgNumber k)
| scalar_quoted : style ≠ Plain → scalar_means raw style None (CfgString raw)
| scalar_plain k : style = Plain → plain_means raw k → scalar_means raw style None k.

Definition core_tags : list (string * ExplicitTag) :=
  [("str", TString); ("null", TNull); ("bool", TBoolean); ("int", TInteger); ("float", TFloat);
   ("map", TMapping); ("seq", TSequence)].

Inductive tag_means : option Tag → option ExplicitTag → Prop :=
| tag_none : tag_means None None
| tag_non_specific : tag_means (Some {| t_handle := ""; t_suffix := "!" |}) (Some TNonSpecific)
| tag_core suffix t :
    (suffix, t) ∈ core_tags →
    tag_means (Some {| t_handle := "tag:yaml.org,2002:"; t_suffix := suffix |}) (Some t).

(** The tag of a collection *)
Definition collection_tag (own : ExplicitTag) (tag : option ExplicitTag) : Prop :=
  tag = None ∨ tag = Some TNonSpecific ∨ tag = Some own.

(** *** The reader of scalars *)

Lemma explicit_tag_means tag sp t : explicit_tag tag sp = Ok t ↔ tag_means tag t.
Proof.
  split.
  - destruct tag as [[handle suffix]|]; simpl; [|intros [= <-]; constructor]. unfold yaml_error.
    repeat case_match; try done; intros Ht; injection Ht as <-.
    all: repeat match goal with
      | E : _ && _ = true |- _ => apply andb_true_iff in E as [? ?]
      | E : String.eqb _ _ = true |- _ => apply String.eqb_eq in E
      end; subst; constructor; unfold core_tags; set_solver.
  - intros [| |suffix t' Ht]; [done..|]. unfold core_tags in Ht.
    repeat (apply elem_of_cons in Ht as [Ht|Ht]; [injection Ht as -> ->; reflexivity|]). by apply elem_of_nil in Ht.
Qed.

Lemma check_collection_means own t name sp : check_collection_tag own t name sp = Ok tt ↔ collection_tag own t.
Proof.
  unfold check_collection_tag, collection_tag, yaml_error.
  destruct t as [t|]; [|naive_solver]. destruct t; try naive_solver; case_decide; naive_solver.
Qed.

Lemma large_integer_means radix digits x :
  str_all (digit_below radix) digits = true →
  parse_large_integer digits radix = Some x ↔
  (radix = 10 ∧ f64_from_str digits = Some x ∧ f64_finite x = true) ∨ (radix ≠ 10 ∧ rounds radix digits x).
Proof.
  intros Hd. unfold parse_large_integer. destruct (N.eqb_spec radix 10) as [->|Hr].
  - split.
    + intros (y & Hy & Hf)%bind_Some. destruct (f64_finite y) eqn:Ef; [|done]. injection Hf as <-. by left.
    + intros [(_ & -> & Hf)|[? _]]; [|done]. cbn. by rewrite Hf.
  - split.
    + intros Hx. right. split; [done|]. rewrite <- (str_app_nil digits).
      eapply rounds_large; [constructor| |exact Hx]. eapply str_all_mono; [|exact Hd].
      intros a. unfold digit_below. by destruct (digit_value a).
    + intros [[? _]|[_ Hx]]; [done|]. by apply large_rounds.
Qed.

Lemma parse_integer_means raw k :
  parse_integer raw = Some k ↔
  ∃ negative radix digits n, integer_text raw negative radix digits n ∧ integer_number negative radix digits n k.
Proof.
  assert (∀ negative radix digits n, integer_text raw negative radix digits n →
    (parse_integer raw = Some k ↔ integer_number negative radix digits n k)) as Hint.
  { intros negative radix digits n Hi. unfold parse_integer.
    assert (integer_parts raw = Some (negative, radix, digits)) as -> by (apply integer_parts_text; eauto).
    inversion Hi as [sign neg prefix radix' digits' n' Hsign Hprefix Hne Hden Heq]; subst.
    apply denotes_clean in Hden as [Hd Hv]. cbn [mbind option_bind]. unfold u128_from_str_radix. rewrite Hv.
    clear Hi. destruct (N.ltb_spec n (2 ^ 128)) as [Hlt|Hge].
    - destruct negative.
      + destruct (N.leb_spec n (2 ^ 63)) as [Hn|Hn].
        * split; [intros [= <-]; by constructor|]. intros Hk. inversion Hk; subst; try done; lia.
        * split; [intros Hk; by apply nearest_double|]. intros Hk. inversion Hk; subst; try done; lia.
      + unfold U64_MAX. destruct (N.leb_spec n (2 ^ 64 - 1)) as [Hn|Hn].
        * split; [intros [= <-]; constructor; [done|lia]|]. intros Hk. inversion Hk; subst; try done; lia.
        * split; [intros Hk; apply nearest_double; [lia|done|done]|]. intros Hk. inversion Hk; subst; try done; lia.
    - assert (∀ x, (if negative then f64_neg x else x) = signed_value negative x) as Hsigned by done.
      split.
      + intros (x & Hx & Hk)%bind_Some. apply large_integer_means in Hx as [(-> & Hx & Hf)|[Hr Hx]]; [|by eapply large_radix|done].
        by eapply large_decimal.
      + intros Hk. inversion Hk as [Hng Hn|Hng Hn|k' Hn Hn'|x k' _ Hr Hx Hf Hk'|x k' _ Hr Hx Hk']; subst; try lia.
        * rewrite (proj2 (large_integer_means 10 digits x Hd)) by auto. exact Hk'.
        * rewrite (proj2 (large_integer_means radix digits x Hd)) by auto. exact Hk'. }
  split.
  - intros Hk. assert (is_Some (integer_parts raw)) as [[[negative radix] digits] Hp].
    { unfold parse_integer in Hk. destruct (integer_parts raw); [eauto|done]. }
    apply integer_parts_text in Hp as [n Hi]. exists negative, radix, digits, n. split; [done|]. by apply Hint.
  - intros (negative & radix & digits & n & Hi & Hk). by apply (Hint _ _ _ _ Hi).
Qed.

Lemma is_integer_parts raw : is_some (integer_parts raw) = true ↔ is_integer raw.
Proof.
  unfold is_integer. split.
  - destruct (integer_parts raw) as [[[negative radix] digits]|] eqn:E; [|done]. intros _.
    apply integer_parts_text in E as [n Hi]. eauto.
  - intros (negative & radix & digits & n & Hi).
    assert (integer_parts raw = Some (negative, radix, digits)) as -> by (apply integer_parts_text; eauto). done.
Qed.

Lemma is_float_read raw : is_float_lexeme raw = true ↔ is_float raw.
Proof. by rewrite is_float_lexeme_read, decimal_read_text. Qed.

(** A double that has not underflowed, as a JSON number *)
Lemma underflow_check w f text x :
  has_nonzero_significand text = negb (str_all (Ascii.eqb "0") (w +:+ f)) →
  is_f64_zero x && has_nonzero_significand text = true ↔ underflows w f x.
Proof.
  intros ->. unfold underflows. rewrite andb_true_iff, negb_true_iff.
  by destruct (str_all _ _), (is_f64_zero x); intuition.
Qed.

Lemma parse_core_float_means raw sign w f e point exponent k :
  decimal_text raw sign w f e point exponent → point || exponent = true →
  parse_core_float raw = Some k ↔
  ∃ text x, padded sign w f e point text ∧ f64_from_str text = Some x ∧ ¬ underflows w f x ∧ number_of_f64 x = Some k.
Proof.
  intros Hdec Hmark. pose proof (normalized_padded _ _ _ _ _ _ _ Hdec Hmark) as Hpad.
  pose proof (proj2 (significand_decimal _ _ _ _ _ _ _ Hdec) _ Hpad) as Hsig.
  unfold parse_core_float. split.
  - intros (x & Hx & Hk)%bind_Some. exists (normalized_float raw), x. pose proof (underflow_check w f _ x Hsig) as Hu.
    destruct (is_f64_zero x && _); [done|]. split_and!; [done|done|by intros ?%Hu|done].
  - intros (text & x & Ht & Hx & Hn & Hk). rewrite (padded_unique _ _ _ _ _ _ _ Ht Hpad) in Hx. rewrite Hx. cbn.
    pose proof (underflow_check w f _ x Hsig) as Hu. destruct (is_f64_zero x && _); [by destruct Hn; apply Hu|done].
Qed.

Lemma parse_explicit_float_means raw k :
  parse_explicit_float raw = Ok k ↔
  ∃ sign w f e point exponent x, decimal_text raw sign w f e point exponent ∧ f64_from_str raw = Some x ∧
    ¬ underflows w f x ∧ number_of_f64 x = Some k.
Proof.
  assert (∀ sign w f e point exponent, decimal_text raw sign w f e point exponent →
    (parse_explicit_float raw = Ok k ↔
     ∃ x, f64_from_str raw = Some x ∧ ¬ underflows w f x ∧ number_of_f64 x = Some k)) as Hdec.
  { intros sign w f e point exponent Hd. unfold parse_explicit_float.
    assert (explicit_float_lexeme raw = true) as ->.
    { rewrite explicit_float_read, decimal_read_text. by exists sign, w, f, e, point, exponent. }
    cbn [negb]. destruct (unsigned_decimal _ _ _ _ _ _ _ Hd) as [-> ->].
    pose proof (proj1 (significand_decimal _ _ _ _ _ _ _ Hd)) as Hsig.
    destruct (f64_from_str raw) as [x|]; [|naive_solver]. pose proof (underflow_check w f _ x Hsig) as Hu.
    destruct (is_f64_zero x && _).
    - split; [done|]. intros (? & [= <-] & Hn & _). by destruct Hn; apply Hu.
    - assert (¬ underflows w f x) as Hn by (by intros ?%Hu). destruct (number_of_f64 x) eqn:Ek; naive_solver. }
  split.
  - intros Hk. assert (explicit_float_lexeme raw = true) as Hl.
    { unfold parse_explicit_float in Hk. by destruct (explicit_float_lexeme raw). }
    rewrite explicit_float_read, decimal_read_text in Hl.
    destruct Hl as (sign & w & f & e & point & exponent & Hd & _). apply (Hdec _ _ _ _ _ _ Hd) in Hk as (x & ?).
    by exists sign, w, f, e, point, exponent, x.
  - intros (sign & w & f & e & point & exponent & x & Hd & Hx). apply (Hdec _ _ _ _ _ _ Hd). eauto.
Qed.

Lemma resolve_plain_means raw sp k : resolve_plain_scalar raw sp = Ok k ↔ plain_means raw k.
Proof.
  unfold resolve_plain_scalar, nonfinite_number, yaml_error. split.
  - destruct (parse_null raw) eqn:En; [intros [= <-]; by constructor; apply parse_null_text|].
    destruct (parse_boolean raw) as [b|] eqn:Eb; [intros [= <-]; by constructor; apply parse_boolean_text|].
    destruct (parse_integer raw) as [n|] eqn:Ei.
    { intros [= <-]. apply parse_integer_means in Ei as (negative & radix & digits & m & Hi & Hn). by econstructor. }
    destruct (is_some (integer_parts raw)) eqn:Ep; [done|]. destruct (is_nonfinite_float raw) eqn:Ef; [done|].
    destruct (is_float_lexeme raw) eqn:El.
    + destruct (parse_core_float raw) as [n|] eqn:Ec; [|done]. intros [= <-].
      apply is_float_read in El as (sign & w & f & e & point & exponent & Hd & Hmark).
      apply (parse_core_float_means _ _ _ _ _ _ _ _ Hd Hmark) in Ec as (text & x & ? & ? & ? & ?). by econstructor.
    + intros [= <-]. constructor.
      * intros ?%parse_null_text. congruence.
      * intros b ?%parse_boolean_text. congruence.
      * intros ?%is_integer_parts. congruence.
      * intros ?%is_float_read. congruence.
      * intros ?%is_nonfinite_text. congruence.
  - assert (∀ P : Prop, (no_number raw → P) → raw ∈ null_texts ∨ (∃ b, raw ∈ boolean_texts b) → P) as Hword
      by (intros P HP Hr; by apply HP, words_no_number).
    intros [Hn|b Hb|negative radix digits n v Hi Hv|sign w f e point exponent text x v Hd Hmark Ht Hx Hu Hv
      |Hn Hb Hi Hf Hnf].
    + by rewrite (proj2 (parse_null_text _) Hn).
    + by rewrite (words_apart _ _ Hb), (proj2 (parse_boolean_text _ _) Hb).
    + assert (integer_parts raw = Some (negative, radix, digits)) as Hp by (apply integer_parts_text; eauto).
      destruct (parse_null raw) eqn:En; [apply parse_null_text in En; apply Hword; [intros [Hw _]; congruence|by left]|].
      destruct (parse_boolean raw) as [b|] eqn:Eb.
      { apply parse_boolean_text in Eb. apply Hword; [intros [Hw _]; congruence|eauto]. }
      rewrite (proj2 (parse_integer_means raw v)); [done|]. by exists negative, radix, digits, n.
    + assert (is_float_lexeme raw = true) as Hl by (apply is_float_read; by exists sign, w, f, e, point, exponent).
      destruct (parse_null raw) eqn:En; [apply parse_null_text in En; apply Hword; [intros [_ Hw]; congruence|by left]|].
      destruct (parse_boolean raw) as [b|] eqn:Eb.
      { apply parse_boolean_text in Eb. apply Hword; [intros [_ Hw]; congruence|eauto]. }
      assert (integer_parts raw = None) as Hp by (by apply float_no_integer).
      assert (parse_integer raw = None) as -> by (unfold parse_integer; by rewrite Hp). rewrite Hp. cbn [is_some].
      destruct (is_nonfinite_float raw) eqn:Enf.
      { apply is_nonfinite_text, nonfinite_no_number in Enf as [_ Hw]. congruence. }
      rewrite Hl. assert (parse_core_float raw = Some v) as ->; [|done].
      apply (parse_core_float_means _ _ _ _ _ _ _ _ Hd Hmark). by exists text, x.
    + destruct (parse_null raw) eqn:En; [by apply parse_null_text in En|].
      destruct (parse_boolean raw) as [b|] eqn:Eb; [by apply parse_boolean_text, Hb in Eb|].
      destruct (is_some (integer_parts raw)) eqn:Ep; [by apply is_integer_parts in Ep|].
      assert (parse_integer raw = None) as ->.
      { unfold parse_integer. by destruct (integer_parts raw). }
      destruct (is_nonfinite_float raw) eqn:Enf; [by apply is_nonfinite_text in Enf|].
      destruct (is_float_lexeme raw) eqn:El; [by apply is_float_read in El|done].
Qed.

Lemma resolve_scalar_means raw style t sp k :
  resolve_scalar raw style t sp = Ok k ↔ scalar_means raw style t k.
Proof.
  unfold resolve_scalar, invalid_scalar, nonfinite_number, yaml_error. split.
  - destruct t as [[]|].
    + intros [= <-]. constructor. by left.
    + intros [= <-]. constructor. by right.
    + destruct (parse_null raw) eqn:En; [|done]. intros [= <-]. by constructor; apply parse_null_text.
    + destruct (parse_boolean raw) eqn:En; [|done]. intros [= <-]. by constructor; apply parse_boolean_text.
    + destruct (parse_integer raw) eqn:Ei; [|by destruct (is_some _)]. intros [= <-].
      apply parse_integer_means in Ei as (negative & radix & digits & m & ? & ?). by econstructor.
    + destruct (parse_explicit_float raw) as [n|[]] eqn:Ef; [|done..]. intros [= <-].
      apply parse_explicit_float_means in Ef as (sign & w & f & e & point & exponent & x & ? & ? & ? & ?). by econstructor.
    + done.
    + done.
    + case_bool_decide; [intros ?%resolve_plain_means|intros [= <-]]; by constructor.
  - intros [t' [-> | ->]|Hn|b Hb|negative radix digits n v Hi Hv|sign w f e point exponent x v Hd Hx Hu Hv|Hs|v Hs Hp].
    + done.
    + done.
    + by rewrite (proj2 (parse_null_text _) Hn).
    + by rewrite (proj2 (parse_boolean_text _ _) Hb).
    + rewrite (proj2 (parse_integer_means raw v)); [done|]. by exists negative, radix, digits, n.
    + rewrite (proj2 (parse_explicit_float_means raw v)); [done|]. by exists sign, w, f, e, point, exponent, x.
    + by rewrite bool_decide_false.
    + rewrite bool_decide_true by done. by apply resolve_plain_means.
Qed.

Lemma check_key_ok keys key text :
  check_key keys key = Ok text ↔ cv_kind key = CfgString text ∧ text ≠ "<<" ∧ text ∉ keys.
Proof.
  unfold check_key. destruct (cv_kind key) as [|?|?|t|?|?]; try naive_solver.
  destruct (String.eqb_spec t "<<"); [naive_solver|].
  case_bool_decide; naive_solver.
Qed.
End scalar_meaning.

Section grammar.
Context `{SerdeNumber, YamlParser}.

(** ** The grammar *)

(** A node at a depth of at most 128, with its own events; it has no anchor. *)
Inductive reads_node : N → list EventItem → ConfigValue → Prop :=
| reads_scalar depth raw style tag t k sp :
    depth ≤ 128 → tag_means tag t → scalar_means raw style t k →
    reads_node depth [{| ei_event := EvScalar raw style 0 tag; ei_span := sp |}] (CfgValue k sp)
| reads_sequence depth tag t sp evs items e :
    depth ≤ 128 → tag_means tag t → collection_tag TSequence t →
    reads_items (depth + 1) evs items →
    reads_node depth
      ({| ei_event := SequenceStart 0 tag; ei_span := sp |} ::
       evs ++ [{| ei_event := SequenceEnd; ei_span := e |}])
      (CfgValue (CfgSequence items) (joined_span sp e))
| reads_mapping depth tag t sp evs entries e :
    depth ≤ 128 → tag_means tag t → collection_tag TMapping t →
    reads_entries (depth + 1) ∅ evs entries →
    reads_node depth
      ({| ei_event := MappingStart 0 tag; ei_span := sp |} ::
       evs ++ [{| ei_event := MappingEnd; ei_span := e |}])
      (CfgValue (CfgMapping entries) (joined_span sp e))
with reads_items : N → list EventItem → list ConfigValue → Prop :=
| reads_no_items depth : reads_items depth [] []
| reads_item depth evs evs' v items :
    reads_node depth evs v → reads_items depth evs' items →
    reads_items depth (evs ++ evs') (v :: items)
with reads_entries : N → gset string → list EventItem → list ConfigEntry → Prop :=
| reads_no_entries depth keys : reads_entries depth keys [] []
| reads_entry depth keys evs_k evs_v evs key text v entries :
    reads_node depth evs_k key → cv_kind key = CfgString text → text ≠ "<<" → text ∉ keys →
    reads_node depth evs_v v → reads_entries depth ({[ text ]} ∪ keys) evs entries →
    reads_entries depth keys (evs_k ++ evs_v ++ evs)
      ({| ce_key := text; ce_key_span := cv_span key; ce_value := v |} :: entries).

Scheme reads_node_mut := Induction for reads_node Sort Prop
with reads_items_mut := Induction for reads_items Sort Prop
with reads_entries_mut := Induction for reads_entries Sort Prop.

Combined Scheme reads_mut from reads_node_mut, reads_items_mut, reads_entries_mut.

(** ** The parser finds what the grammar has *)

Lemma yaml_try_ok {A B} (r : result A (list Diagnostic)) (f : A → yaml B) b :
  yaml_try r f = Ok b ↔ ∃ a, r = Ok a ∧ f a = Ok b.
Proof. unfold yaml_try. destruct r; simpl; naive_solver. Qed.

Lemma reject_anchor_ok anchor sp : reject_anchor anchor sp = Ok tt ↔ anchor = 0.
Proof. unfold reject_anchor. destruct (N.eqb_spec anchor 0); naive_solver. Qed.

Definition sound_at (fuel : nat) : Prop :=
  (∀ depth evs v rest, parse_node fuel depth evs = Ok (v, rest) →
     ∃ pre, evs = (pre ++ rest)%list ∧ reads_node depth pre v) ∧
  (∀ depth sp values evs v rest, parse_items fuel depth sp values evs = Ok (v, rest) →
     ∃ pre items e,
       evs = (pre ++ {| ei_event := SequenceEnd; ei_span := e |} :: rest)%list ∧
       v = CfgValue (CfgSequence (values ++ items)) (joined_span sp e) ∧ reads_items depth pre items) ∧
  (∀ depth sp keys entries evs v rest, parse_entries fuel depth sp keys entries evs = Ok (v, rest) →
     ∃ pre entries' e,
       evs = (pre ++ {| ei_event := MappingEnd; ei_span := e |} :: rest)%list ∧
       v = CfgValue (CfgMapping (entries ++ entries')) (joined_span sp e) ∧
       reads_entries depth keys pre entries').

Lemma node_sound fuel depth evs v rest :
  sound_at fuel → parse_node (S fuel) depth evs = Ok (v, rest) →
  ∃ pre, evs = (pre ++ rest)%list ∧ reads_node depth pre v.
Proof.
  intros (_ & Hitems & Hentries). cbn [parse_node].
  destruct (N.ltb_spec MAX_YAML_DEPTH depth) as [|Hd]; [done|].
  destruct evs as [|[ev sp] evs]; [done|]. cbn [ei_event ei_span].
  destruct ev as [| | | | |raw style anchor tag|anchor tag| |anchor tag| |]; try done.
  all: rewrite yaml_try_ok; intros ([] & ->%reject_anchor_ok & Hr);
    apply yaml_try_ok in Hr as (t & Ht & Hr); apply yaml_try_ok in Hr as (k & Hk & Hr).
  all: apply explicit_tag_means in Ht.
  - injection Hr as <- <-. apply resolve_scalar_means in Hk. eexists [_]. split; [done|]. by econstructor.
  - destruct k. apply check_collection_means in Hk. apply Hitems in Hr as (pre & items & e & -> & -> & Hr).
    eexists (_ :: pre ++ [_])%list. split; [simpl; by rewrite <- app_assoc|]. by econstructor.
  - destruct k. apply check_collection_means in Hk. apply Hentries in Hr as (pre & entries & e & -> & -> & Hr).
    eexists (_ :: pre ++ [_])%list. split; [simpl; by rewrite <- app_assoc|]. by econstructor.
Qed.

(** The end of a collection, at the head of the events. *)
Definition at_end (evs : list EventItem) (close : Event) : option (SourceSpan * list EventItem) :=
  match evs, close with
  | {| ei_event := SequenceEnd; ei_span := e |} :: evs, SequenceEnd => Some (e, evs)
  | {| ei_event := MappingEnd; ei_span := e |} :: evs, MappingEnd => Some (e, evs)
  | _, _ => None
  end.

Lemma at_end_some evs close e rest :
  at_end evs close = Some (e, rest) → evs = {| ei_event := close; ei_span := e |} :: rest.
Proof. destruct evs as [|[[] sp] evs], close; simpl; try done; intros [= -> ->]; done. Qed.

Lemma parse_items_step fuel depth sp values evs :
  parse_items (S fuel) depth sp values evs =
  match at_end evs SequenceEnd with
  | Some (e, rest) => Ok (CfgValue (CfgSequence values) (joined_span sp e), rest)
  | None =>
      let? '(v, rest) := parse_node fuel depth evs in
      parse_items fuel depth sp (values ++ [v])%list rest
  end.
Proof. destruct evs as [|[[] sp'] evs]; reflexivity. Qed.

Lemma parse_entries_step fuel depth sp keys entries evs :
  parse_entries (S fuel) depth sp keys entries evs =
  match at_end evs MappingEnd with
  | Some (e, rest) => Ok (CfgValue (CfgMapping entries) (joined_span sp e), rest)
  | None =>
      let? '(key, rest) := parse_node fuel depth evs in
      yaml_try (check_key keys key) (λ text,
      let? '(v, rest) := parse_node fuel depth rest in
      parse_entries fuel depth sp ({[ text ]} ∪ keys)
        (entries ++ [{| ce_key := text; ce_key_span := cv_span key; ce_value := v |}])%list rest)
  end.
Proof. destruct evs as [|[[] sp'] evs]; reflexivity. Qed.

Lemma items_sound fuel depth sp values evs v rest :
  sound_at fuel → parse_items (S fuel) depth sp values evs = Ok (v, rest) →
  ∃ pre items e,
    evs = (pre ++ {| ei_event := SequenceEnd; ei_span := e |} :: rest)%list ∧
    v = CfgValue (CfgSequence (values ++ items)) (joined_span sp e) ∧ reads_items depth pre items.
Proof.
  intros (Hnode & Hitems & _). rewrite parse_items_step.
  destruct (at_end evs SequenceEnd) as [[e rest']|] eqn:Ee.
  - intros [= <- <-]. apply at_end_some in Ee as ->. exists [], [], e.
    rewrite app_nil_r. split_and!; [done|done|constructor].
  - intros Hr. apply result_bind_ok in Hr as ([w evs'] & Hw & Hr).
    apply Hnode in Hw as (pre & -> & Hw). apply Hitems in Hr as (pre' & items & e & -> & -> & Hr).
    exists (pre ++ pre')%list, (w :: items), e. rewrite <- !app_assoc. split_and!; [done|done|].
    by constructor.
Qed.

Lemma entries_sound fuel depth sp keys entries evs v rest :
  sound_at fuel → parse_entries (S fuel) depth sp keys entries evs = Ok (v, rest) →
  ∃ pre entries' e,
    evs = (pre ++ {| ei_event := MappingEnd; ei_span := e |} :: rest)%list ∧
    v = CfgValue (CfgMapping (entries ++ entries')) (joined_span sp e) ∧
    reads_entries depth keys pre entries'.
Proof.
  intros (Hnode & _ & Hentries). rewrite parse_entries_step.
  destruct (at_end evs MappingEnd) as [[e rest']|] eqn:Ee.
  - intros [= <- <-]. apply at_end_some in Ee as ->. exists [], [], e.
    rewrite app_nil_r. split_and!; [done|done|constructor].
  - intros Hr. apply result_bind_ok in Hr as ([key evs1] & Hk & Hr).
    apply yaml_try_ok in Hr as (text & Ht & Hr). apply result_bind_ok in Hr as ([w evs2] & Hw & Hr).
    apply check_key_ok in Ht as (Hs & Hm & Hn).
    apply Hnode in Hk as (pre1 & -> & Hk). apply Hnode in Hw as (pre2 & -> & Hw).
    apply Hentries in Hr as (pre3 & entries' & e & -> & -> & Hr).
    exists (pre1 ++ pre2 ++ pre3)%list, ({| ce_key := text; ce_key_span := cv_span key; ce_value := w |} :: entries'), e.
    rewrite <- !app_assoc. split_and!; [done|done|]. by econstructor.
Qed.

Lemma parse_sound fuel : sound_at fuel.
Proof.
  induction fuel as [|fuel IH]; [by split_and!|].
  split_and!; intros; [eapply node_sound|eapply items_sound|eapply entries_sound]; eauto.
Qed.

(** ** The grammar is found by the parser *)

Lemma reads_node_head depth pre v close rest :
  reads_node depth pre v → at_end (pre ++ rest) close = None.
Proof. intros Hr. destruct Hr, close; done. Qed.

Lemma reads_node_length depth pre v : reads_node depth pre v → (1 ≤ length pre)%nat.
Proof. intros Hr. destruct Hr; simpl; lia. Qed.

Lemma parse_complete :
  (∀ depth pre v, reads_node depth pre v → ∀ fuel rest,
     (2 * length pre ≤ fuel)%nat → parse_node fuel depth (pre ++ rest) = Ok (v, rest)) ∧
  (∀ depth pre items, reads_items depth pre items → ∀ fuel sp values e rest,
     (2 * length pre + 1 ≤ fuel)%nat →
     parse_items fuel depth sp values (pre ++ {| ei_event := SequenceEnd; ei_span := e |} :: rest) =
     Ok (CfgValue (CfgSequence (values ++ items)) (joined_span sp e), rest)) ∧
  (∀ depth keys pre entries', reads_entries depth keys pre entries' → ∀ fuel sp entries e rest,
     (2 * length pre + 1 ≤ fuel)%nat →
     parse_entries fuel depth sp keys entries (pre ++ {| ei_event := MappingEnd; ei_span := e |} :: rest) =
     Ok (CfgValue (CfgMapping (entries ++ entries')) (joined_span sp e), rest)).
Proof.
  apply reads_mut.
  - intros depth raw style tag t k sp Hd Ht Hk fuel rest Hf. destruct fuel as [|fuel]; [simpl in Hf; lia|].
    apply (explicit_tag_means _ sp) in Ht. apply (resolve_scalar_means _ _ _ sp) in Hk.
    cbn -[N.ltb]. rewrite (proj2 (N.ltb_ge MAX_YAML_DEPTH _) Hd), Ht. cbn. by rewrite Hk.
  - intros depth tag t sp evs items e Hd Ht Hk Hi IH fuel rest Hf.
    destruct fuel as [|fuel]; [simpl in Hf; lia|]. apply (explicit_tag_means _ sp) in Ht.
    apply (check_collection_means _ _ "sequence" sp) in Hk.
    cbn -[N.ltb]. rewrite (proj2 (N.ltb_ge MAX_YAML_DEPTH _) Hd), Ht. cbn. rewrite Hk. cbn.
    rewrite <- app_assoc. simpl in *. rewrite length_app in Hf. simpl in Hf. apply IH. lia.
  - intros depth tag t sp evs items e Hd Ht Hk Hi IH fuel rest Hf.
    destruct fuel as [|fuel]; [simpl in Hf; lia|]. apply (explicit_tag_means _ sp) in Ht.
    apply (check_collection_means _ _ "mapping" sp) in Hk.
    cbn -[N.ltb]. rewrite (proj2 (N.ltb_ge MAX_YAML_DEPTH _) Hd), Ht. cbn. rewrite Hk. cbn.
    rewrite <- app_assoc. simpl in *. rewrite length_app in Hf. simpl in Hf. apply IH. lia.
  - intros depth fuel sp values e rest Hf. destruct fuel; [lia|]. cbn. by rewrite app_nil_r.
  - intros depth evs evs' v items Hv IHv Hi IHi fuel sp values e rest Hf.
    destruct fuel as [|fuel]; [lia|]. rewrite length_app in Hf. apply reads_node_length in Hv as Hl.
    rewrite parse_items_step, <- app_assoc, (reads_node_head _ _ _ _ _ Hv), IHv by lia. cbn.
    rewrite IHi by lia. by rewrite <- app_assoc.
  - intros depth keys fuel sp entries e rest Hf. destruct fuel; [lia|]. cbn. by rewrite app_nil_r.
  - intros depth keys evs_k evs_v evs key text v entries Hk IHk Hs Hm Hn Hv IHv Hi IHi fuel sp acc e rest Hf.
    destruct fuel as [|fuel]; [lia|]. rewrite !length_app in Hf. apply reads_node_length in Hk as Hl.
    rewrite parse_entries_step, <- !app_assoc, (reads_node_head _ _ _ _ _ Hk), IHk by lia. cbn.
    rewrite (proj2 (check_key_ok _ _ _)) by done. cbn. rewrite IHv by lia. cbn. rewrite IHi by lia. by rewrite <- app_assoc.
Qed.
(** ** The fuel is enough *)

Lemma parse_node_rest fuel depth evs v rest :
  parse_node fuel depth evs = Ok (v, rest) → (length rest < length evs)%nat.
Proof.
  intros Hp. apply parse_sound in Hp as (pre & -> & Hr). apply reads_node_length in Hr.
  rewrite length_app. lia.
Qed.

(** A refusal with a diagnostic, and not the end of the fuel. *)
Definition reported (why : YamlStop) : Prop :=
  match why with YamlFailed (_ :: _) => True | _ => False end.

Definition reports {A} (r : result A (list Diagnostic)) : Prop :=
  match r with Err [] => False | _ => True end.

Lemma reports_anchor anchor sp : reports (reject_anchor anchor sp).
Proof. unfold reject_anchor. by case_match. Qed.

Lemma reports_tag tag sp : reports (explicit_tag tag sp).
Proof. unfold explicit_tag, yaml_error. by repeat case_match. Qed.

Lemma reports_collection allowed tag name sp : reports (check_collection_tag allowed tag name sp).
Proof. unfold check_collection_tag, yaml_error. by repeat case_match. Qed.

Lemma reports_scalar raw style tag sp : reports (resolve_scalar raw style tag sp).
Proof.
  unfold resolve_scalar, resolve_plain_scalar, invalid_scalar, nonfinite_number, yaml_error.
  by repeat case_match.
Qed.

Lemma reports_key keys key : reports (check_key keys key).
Proof. unfold check_key, yaml_error. by repeat case_match. Qed.

#[local] Hint Resolve reports_anchor reports_tag reports_collection reports_scalar reports_key : core.

Lemma yaml_try_fails {A B} (r : result A (list Diagnostic)) (f : A → yaml B) why :
  reports r → (∀ a, f a = Err why → reported why) → yaml_try r f = Err why → reported why.
Proof.
  unfold yaml_try. destruct r as [a|[|d l]]; simpl; intros Hr Hf; [apply Hf|done|]. by intros [= <-].
Qed.

Lemma bind_fails {A B} (r : result A YamlStop) (f : A → result B YamlStop) why :
  (∀ why, r = Err why → reported why) → (∀ a, r = Ok a → f a = Err why → reported why) →
  result_bind r f = Err why → reported why.
Proof. destruct r as [a|e]; simpl; intros Hr Hf; [by apply Hf|]. intros [= ->]. by apply Hr. Qed.

(** With fuel for its events, the parser fails only with a diagnostic. *)
Lemma parse_fuel_enough fuel :
  (∀ depth evs why, (2 * length evs + 1 ≤ fuel)%nat →
     parse_node fuel depth evs = Err why → reported why) ∧
  (∀ depth sp values evs why, (2 * length evs + 2 ≤ fuel)%nat →
     parse_items fuel depth sp values evs = Err why → reported why) ∧
  (∀ depth sp keys entries evs why, (2 * length evs + 2 ≤ fuel)%nat →
     parse_entries fuel depth sp keys entries evs = Err why → reported why).
Proof.
  induction fuel as [|fuel (IHn & IHi & IHe)]; [split_and!; lia|]. split_and!.
  - intros depth evs why Hf. cbn [parse_node]. destruct (MAX_YAML_DEPTH <? depth); [by intros [= <-]|].
    destruct evs as [|[ev sp] evs]; [by intros [= <-]|]. simpl in Hf. cbn [ei_event ei_span].
    destruct ev; try (by intros [= <-]);
      (apply yaml_try_fails; [done|]; intros []; apply yaml_try_fails; [done|]; intros t;
       apply yaml_try_fails; [done|]; intros k); [done| |].
    + apply IHi. lia.
    + apply IHe. lia.
  - intros depth sp values evs why Hf. rewrite parse_items_step.
    destruct (at_end evs SequenceEnd) as [[]|]; [done|].
    apply bind_fails; [intros why'; apply IHn; lia|]. intros [v rest] Hv. apply IHi.
    apply parse_node_rest in Hv. lia.
  - intros depth sp keys entries evs why Hf. rewrite parse_entries_step.
    destruct (at_end evs MappingEnd) as [[]|]; [done|].
    apply bind_fails; [intros why'; apply IHn; lia|]. intros [key rest] Hk.
    apply parse_node_rest in Hk. apply yaml_try_fails; [done|]. intros text.
    apply bind_fails; [intros why'; apply IHn; lia|]. intros [v rest'] Hv.
    apply parse_node_rest in Hv. apply IHe. lia.
Qed.

(** ** Values *)

(** No mapping repeats a key or merges another, at any level. *)
Fixpoint unique_keys (v : ConfigValue) : Prop :=
  match v with
  | CfgValue k _ =>
      match k with
      | CfgSequence items => foldr (λ v p, unique_keys v ∧ p) True items
      | CfgMapping entries =>
          NoDup (ce_key <$> entries) ∧ "<<" ∉ ce_key <$> entries ∧
          foldr (λ e p, unique_keys (ce_value e) ∧ p) True entries
      | _ => True
      end
  end.

(** The number of collections around the deepest value. *)
Fixpoint nesting (v : ConfigValue) : N :=
  match v with
  | CfgValue k _ =>
      match k with
      | CfgSequence items => foldr (λ v n, N.max (1 + nesting v) n) 0 items
      | CfgMapping entries => foldr (λ e n, N.max (1 + nesting (ce_value e)) n) 0 entries
      | _ => 0
      end
  end.

Lemma scalar_flat raw style t k span :
  scalar_means raw style t k → unique_keys (CfgValue k span) ∧ nesting (CfgValue k span) = 0.
Proof. by intros [| | | | | |k' _ []]. Qed.

(** What the grammar gives of a value. *)
Lemma reads_well_formed :
  (∀ depth pre v, reads_node depth pre v → unique_keys v ∧ depth + nesting v ≤ MAX_YAML_DEPTH) ∧
  (∀ depth pre items, reads_items depth pre items →
     foldr (λ v p, unique_keys v ∧ p) True items ∧
     (items ≠ [] → depth + foldr (λ v n, N.max (1 + nesting v) n) 0 items ≤ 1 + MAX_YAML_DEPTH)) ∧
  (∀ depth keys pre entries, reads_entries depth keys pre entries →
     (NoDup (ce_key <$> entries) ∧ "<<" ∉ ce_key <$> entries ∧
      foldr (λ e p, unique_keys (ce_value e) ∧ p) True entries) ∧
     (∀ k, k ∈ ce_key <$> entries → k ∉ keys) ∧
     (entries ≠ [] →
      depth + foldr (λ e n, N.max (1 + nesting (ce_value e)) n) 0 entries ≤ 1 + MAX_YAML_DEPTH)).
Proof.
  change MAX_YAML_DEPTH with 128. apply reads_mut.
  - intros depth raw style tag t k sp Hd _ Hk. destruct (scalar_flat _ _ _ _ sp Hk) as [Hu ->].
    split; [done|lia].
  - intros depth tag t sp evs items e Hd _ _ _ [Hu Hn]. split; [done|].
    destruct items as [|v items]; [simpl; lia|]. specialize (Hn ltac:(done)). cbn [nesting]. lia.
  - intros depth tag t sp evs entries e Hd _ _ _ (Hu & _ & Hn). split; [done|].
    destruct entries as [|v entries]; [simpl; lia|]. specialize (Hn ltac:(done)). cbn [nesting]. lia.
  - done.
  - intros depth evs evs' v items _ [Hu Hd] _ [Hus Hds]. split; [done|]. intros _. simpl.
    destruct items as [|w items]; [simpl; lia|]. specialize (Hds ltac:(done)). lia.
  - intros depth keys. split_and!; [constructor|set_solver|done|set_solver|done].
  - intros depth keys evs_k evs_v evs key text v entries _ _ _ Ht Hkeys
      _ [Hu Hd] _ ((Hnd & Hm & Hus) & Hout & Hds).
    rewrite fmap_cons. cbn [ce_key]. split_and!.
    + constructor; [set_solver|done].
    + set_solver.
    + done.
    + set_solver.
    + intros _. simpl. destruct entries as [|w entries]; [simpl; lia|]. specialize (Hds ltac:(done)). lia.
Qed.

(** ** Documents *)

Definition is_mapping (v : ConfigValue) : bool :=
  match cv_kind v with CfgMapping _ => true | _ => false end.

(** The events of a file with one document, which is the mapping [root]. *)
Definition reads_document (events : list EventItem) (root : ConfigValue) : Prop :=
  ∃ starts s pre e rest,
    events = (starts ++ {| ei_event := DocumentStart; ei_span := s |} :: pre ++
              {| ei_event := DocumentEnd; ei_span := e |} :: rest)%list ∧
    Forall (λ it, ei_event it = StreamStart) starts ∧
    reads_node 0 pre root ∧ is_mapping root = true ∧
    match rest with [] => True | it :: _ => ei_event it = StreamEnd end.

Lemma skip_stream_starts_spec events :
  ∃ starts, events = (starts ++ skip_stream_starts events)%list ∧
            Forall (λ it, ei_event it = StreamStart) starts.
Proof.
  induction events as [|[ev sp] events (starts & Heq & Hs)]; [by exists []|].
  destruct ev; try by exists []. exists ({| ei_event := StreamStart; ei_span := sp |} :: starts).
  simpl. split; [by f_equal|by constructor].
Qed.

Lemma skip_stream_starts_app starts it events :
  Forall (λ it, ei_event it = StreamStart) starts → ei_event it ≠ StreamStart →
  skip_stream_starts (starts ++ it :: events) = it :: events.
Proof.
  intros Hs Hit. induction Hs as [|[ev sp] starts Hev _ IH]; simpl in *.
  - destruct it as [[] sp]; done.
  - by rewrite Hev.
Qed.

Lemma check_end_ok events :
  check_end events = Ok tt ↔
  ∃ e rest, events = {| ei_event := DocumentEnd; ei_span := e |} :: rest ∧
            match rest with [] => True | it :: _ => ei_event it = StreamEnd end.
Proof.
  destruct events as [|[ev sp] events].
  { split; [done|]. by intros (? & ? & ? & _). }
  unfold check_end. destruct ev;
    try (split; [done|intros (? & ? & ? & _); done]).
  destruct events as [|[ev' sp'] events]; [split; [intros _; by eexists sp, []|done]|].
  destruct ev'; (split; [try done; intros _; by eexists sp, _|intros (? & ? & [= <- <-] & Hr); done]).
Qed.

Lemma parse_root_ok events root rest :
  is_mapping root = true → parse_root events = Ok (root, rest) ↔
  parse_node (node_fuel events) 0 events = Ok (root, rest).
Proof.
  intros Hm. destruct events as [|[ev sp] events]; [by unfold parse_root|].
  destruct ev; try done. split; [|done]. intros [= <- _]. done.
Qed.

Lemma parse_events_document events root :
  parse_events events = Ok root ↔ reads_document events root.
Proof.
  split.
  - unfold parse_events. destruct (skip_stream_starts_spec events) as (starts & Heq & Hs).
    destruct (skip_stream_starts events) as [|[ev s] evs] eqn:Esk; [done|].
    destruct ev; try done. rewrite result_bind_ok. intros ([v rest] & Hv & Hr).
    apply result_bind_ok in Hr as ([] & He & Hr).
    assert (v = root ∧ is_mapping root = true) as [-> Hm].
    { unfold is_mapping. destruct (cv_kind v) eqn:Ek; try done. injection Hr as ->. by rewrite Ek. }
    apply (parse_root_ok _ _ _ Hm), parse_sound in Hv as (pre & -> & Hv).
    assert (check_end rest = Ok tt) as (e & rest' & -> & Hrest)%check_end_ok
      by (destruct (check_end rest) as [[]|]; done).
    exists starts, s, pre, e, rest'. done.
  - intros (starts & s & pre & e & rest & -> & Hs & Hv & Hm & Hrest). unfold parse_events.
    rewrite skip_stream_starts_app by done.
    assert (parse_root (pre ++ {| ei_event := DocumentEnd; ei_span := e |} :: rest) =
            Ok (root, {| ei_event := DocumentEnd; ei_span := e |} :: rest)) as Hroot.
    { apply parse_root_ok; [done|]. apply parse_complete; [done|].
      unfold node_fuel. rewrite length_app. lia. }
    rewrite Hroot. cbn [result_bind].
    rewrite (proj2 (check_end_ok _)) by eauto. cbn.
    unfold is_mapping in Hm. by destruct (cv_kind root).
Qed.


Lemma parse_events_reported events why : parse_events events = Err why → reported why.
Proof.
  unfold parse_events. destruct (skip_stream_starts events) as [|[ev s] evs]; [by intros [= <-]|].
  destruct ev; try (by intros [= <-]).
  apply bind_fails.
  - intros why'. destruct evs as [|[ev' s'] evs]; [by intros [= <-]|].
    destruct ev'; try done; (apply parse_fuel_enough; unfold node_fuel; simpl; lia).
  - intros [v rest] _.
    assert (reports (check_end rest)) as Hc.
    { unfold check_end, yaml_error. by repeat case_match. }
    destruct (check_end rest) as [[]|[|d l]]; simpl; [|done|by intros [= <-]].
    destruct (cv_kind v); by intros [= <-].
Qed.

Lemma parse_yaml_reported source why : parse_yaml source = Err why → reported why.
Proof.
  unfold parse_yaml. destruct (find_directive source) as [[]|]; [by intros [= <-]|].
  destruct (yaml_events source); [apply parse_events_reported|by intros [= <-]].
Qed.

Lemma parse_yaml_keys source root : parse_yaml source = Ok root → unique_keys root.
Proof.
  unfold parse_yaml. destruct (find_directive source) as [[]|]; [done|].
  destruct (yaml_events source) as [evs|]; [|done].
  intros (starts & s & pre & e & rest & _ & _ & Hv & _)%parse_events_document.
  by apply reads_well_formed in Hv as [??].
Qed.
End grammar.
