(* ===== verification/Expression.v ===== *)
(** * Expressions (crates/antiburn-checks/src/expression.rs, first part)

    The syntax tree of Burn Check expressions, the table of pure functions with
    their arities, and the two visitors.  The visitors take a callback in the
    source; here they return what they would call it with, in order. *)

From S2P Require Import Prelude RustString Json.

Definition DEFAULT_MAX_EVALUATION_DEPTH : N := 32.
Definition MAX_EXPRESSION_PARSE_DEPTH : N := 128.
Definition MAX_EXPRESSION_DEPTH : N := DEFAULT_MAX_EVALUATION_DEPTH.

Inductive PathSegment :=
| PProperty (name : string)
| PIndex (index : N).

#[export] Instance PathSegment_eq_dec : EqDecision PathSegment.
Proof. solve_decision. Defined.

Inductive ExpressionFunction :=
| StrictEquals | Contains | StartsWith | EndsWith | Join | Format | ToJSON | FromJSON.

#[export] Instance ExpressionFunction_eq_dec : EqDecision ExpressionFunction.
Proof. solve_decision. Defined.

Definition ExpressionFunction_parse (name : string) : option ExpressionFunction :=
  let n := to_ascii_lowercase name in
  if String.eqb n "strictequals" then Some StrictEquals
  else if String.eqb n "contains" then Some Contains
  else if String.eqb n "startswith" then Some StartsWith
  else if String.eqb n "endswith" then Some EndsWith
  else if String.eqb n "join" then Some Join
  else if String.eqb n "format" then Some Format
  else if String.eqb n "tojson" then Some ToJSON
  else if String.eqb n "fromjson" then Some FromJSON
  else None.

Definition accepts_arity (f : ExpressionFunction) (count : N) : bool :=
  match f with
  | StrictEquals | Contains | StartsWith | EndsWith => count =? 2
  | Join => (1 <=? count) && (count <=? 2)
  | Format => 2 <=? count
  | ToJSON | FromJSON => count =? 1
  end.

Inductive BinaryOperator :=
| Less | LessOrEqual | Greater | GreaterOrEqual | Equal | NotEqual | And | Or.

#[export] Instance BinaryOperator_eq_dec : EqDecision BinaryOperator.
Proof. solve_decision. Defined.

Section syntax.
Context `{SerdeNumber}.

Inductive ExpressionLiteral :=
| LString (s : string)
| LNumber (n : Number)
| LBoolean (b : bool)
| LNull.

Inductive Expression : Type :=
| ELiteral (l : ExpressionLiteral)
| EPath (path : list PathSegment)
| EAccess (base : Expression) (segments : list AccessSegment)
| ECall (function : ExpressionFunction) (arguments : list Expression)
| ENot (value : Expression)
| EBinary (operator : BinaryOperator) (left right : Expression)
with AccessSegment : Type :=
| AProperty (name : string)
| AIndex (index : N)
| ADynamic (selector : Expression)
| AProjection.

(** Induction over expressions, with the hypothesis for every dynamic
    selector and every argument. *)
Section induction.
Context (P : Expression → Prop).

Definition on_segment (seg : AccessSegment) : Prop :=
  match seg with ADynamic e => P e | _ => True end.

Lemma Expression_ind_nested :
  (∀ l, P (ELiteral l)) →
  (∀ path, P (EPath path)) →
  (∀ base segs, P base → Forall on_segment segs → P (EAccess base segs)) →
  (∀ f args, Forall P args → P (ECall f args)) →
  (∀ e, P e → P (ENot e)) →
  (∀ op l r, P l → P r → P (EBinary op l r)) →
  ∀ e, P e.
Proof.
  intros Hl Hp Ha Hc Hn Hb. fix IH 1.
  intros [l|path|base segs|f args|e|op l r].
  - apply Hl.
  - apply Hp.
  - apply Ha; [apply IH|]. induction segs as [|seg segs]; constructor;
      [|assumption]. destruct seg; simpl; [exact I|exact I|apply IH|exact I].
  - apply Hc. induction args; constructor; [apply IH|assumption].
  - apply Hn, IH.
  - apply Hb; apply IH.
Qed.
End induction.

(** [visit_paths] *)
Fixpoint visit_paths (e : Expression) : list (list PathSegment) :=
  match e with
  | ELiteral _ => []
  | EPath path => [path]
  | EAccess base segments =>
      visit_paths base ++
      mjoin ((λ seg, match seg with ADynamic e => visit_paths e | _ => [] end) <$> segments)
  | ECall _ arguments => mjoin (visit_paths <$> arguments)
  | ENot value => visit_paths value
  | EBinary _ l r => visit_paths l ++ visit_paths r
  end.

(** [visit_accesses] *)
Fixpoint visit_accesses (e : Expression) : list (Expression * list AccessSegment) :=
  match e with
  | EAccess base segments =>
      (base, segments) :: visit_accesses base ++
      mjoin ((λ seg, match seg with ADynamic e => visit_accesses e | _ => [] end) <$> segments)
  | ECall _ arguments => mjoin (visit_accesses <$> arguments)
  | ENot value => visit_accesses value
  | EBinary _ l r => visit_accesses l ++ visit_accesses r
  | ELiteral _ | EPath _ => []
  end.

(** Specification: every call in the tree has an arity its function accepts. *)
Fixpoint well_formed (e : Expression) : bool :=
  match e with
  | ELiteral _ | EPath _ => true
  | EAccess base segments =>
      well_formed base &&
      forallb (λ seg, match seg with ADynamic e => well_formed e | _ => true end) segments
  | ECall f arguments =>
      accepts_arity f (N.of_nat (length arguments)) && forallb well_formed arguments
  | ENot value => well_formed value
  | EBinary _ l r => well_formed l && well_formed r
  end.

(** Specification: the nesting the parser accounts for.  An access adds
    nothing for its base; a bracket selector counts one level. *)
Fixpoint parsed_depth (e : Expression) : N :=
  match e with
  | ELiteral _ | EPath _ => 1
  | EAccess base segments =>
      foldr (λ seg n, match seg with ADynamic e => N.max (parsed_depth e + 1) n | _ => n end)
        (parsed_depth base) segments
  | ECall _ arguments => foldr (λ e n, N.max (parsed_depth e + 1) n) 1 arguments
  | ENot value => parsed_depth value + 1
  | EBinary _ l r => N.max (parsed_depth l) (parsed_depth r) + 1
  end.
End syntax.
