(* ===== verification/Lexer.v ===== *)
(** * Lexer (crates/antiburn-checks/src/expression.rs, [lex])

    The lexer walks a byte index through the source.  Here the index goes with
    the unread suffix of the source; a loop that advances by more than one byte
    takes fuel, and [lex_loop_enough] shows that the length of the source is enough. *)

From S2P Require Import Prelude RustString Json Diagnostics Expression.

Record ExpressionError := {
  code : DiagnosticCode;
  message : string
}.

Section lexer.
Context `{SerdeNumber}.

Inductive TokenKind :=
| TIdentifier (s : string)
| TString (s : string)
| TNumber (n : Number)
| TAnd | TOr | TEqual | TNotEqual | TLess | TLessOrEqual | TGreater
| TGreaterOrEqual | TNot | TLeftParen | TRightParen | TLeftBracket
| TRightBracket | TDot | TStar | TComma | TEnd.

Record Token := {
  kind : TokenKind;
  offset : N
}.

Definition number_error (start : N) : ExpressionError :=
  {| code := CompileInvalidExpression;
     message := "Invalid finite JSON number at expression byte " +:+ pretty start +:+ "." |}.

(** The body of [lex_string] after the opening quote: the value, the unread
    suffix after the closing quote and its index. *)
Fixpoint lex_string_body (s : string) (index : N) : option (string * string * N) :=
  match s with
  | "" => None
  | String a t =>
      if Ascii.eqb a "'" then
        match t with
        | String b u =>
            if Ascii.eqb b "'" then
              match lex_string_body u (index + 2) with
              | Some (value, rest, end_) => Some (String "'" value, rest, end_)
              | None => None
              end
            else Some ("", t, index + 1)
        | "" => Some ("", "", index + 1)
        end
      else
        match lex_string_body t (index + 1) with
        | Some (value, rest, end_) => Some (String a value, rest, end_)
        | None => None
        end
  end.

Definition lex_string (s : string) (start : N) :
    result (string * string * N) ExpressionError :=
  match lex_string_body s (start + 1) with
  | Some r => Ok r
  | None =>
      Err {| code := CompileInvalidExpression;
             message := "Unterminated string literal at expression byte "
                        +:+ pretty start +:+ "." |}
  end.

Definition digits (s : string) : string * string := str_span is_ascii_digit s.

(** One optional byte of [set] at the front. *)
Definition take_one (set : list ascii) (s : string) : string * string :=
  match s with
  | String a t => if existsb (Ascii.eqb a) set then (String a "", t) else ("", s)
  | "" => ("", "")
  end.

Definition lex_fraction (s : string) : option (string * string) :=
  let '(dot, s1) := take_one ["."%char] s in
  if String.eqb dot "" then Some ("", s)
  else let '(f, s2) := digits s1 in
       if String.eqb f "" then None else Some (dot +:+ f, s2).

Definition lex_exponent (s : string) : option (string * string) :=
  let '(e, s1) := take_one ["e"; "E"]%char s in
  if String.eqb e "" then Some ("", s)
  else let '(sign, s2) := take_one ["+"; "-"]%char s1 in
       let '(f, s3) := digits s2 in
       if String.eqb f "" then None else Some (e +:+ (sign +:+ f), s3).

(** The text of the number and the unread suffix. *)
Definition number_text (s : string) : option (string * string) :=
  let '(sign, s1) := take_one ["-"%char] s in
  let '(int, s2) :=
    match take_one ["0"%char] s1 with
    | ("", _) => digits s1
    | zero => zero
    end in
  '(frac, s3) ← lex_fraction s2;
  '(exp, s4) ← lex_exponent s3;
  Some (sign +:+ (int +:+ (frac +:+ exp)), s4).

Definition lex_number (s : string) (start : N) :
    result (Number * string * N) ExpressionError :=
  match number_text s with
  | None => Err (number_error start)
  | Some (text, rest) =>
      match number_from_str text with
      | Some n => Ok (n, rest, start + str_len text)
      | None => Err (number_error start)
      end
  end.

(** The one- and two-byte tokens: [a] is the current byte and [t] what
    follows it.  The result is the token and the number of bytes it takes. *)
Definition lex_symbol (a : ascii) (t : string) : option (TokenKind * nat) :=
  let next c := match t with String b _ => Ascii.eqb b c | "" => false end in
  let at_ c := Ascii.eqb a c in
  if at_ "&"%char && next "&"%char then Some (TAnd, 2%nat)
  else if at_ "|"%char && next "|"%char then Some (TOr, 2%nat)
  else if at_ "="%char && next "="%char then Some (TEqual, 2%nat)
  else if at_ "!"%char && next "="%char then Some (TNotEqual, 2%nat)
  else if at_ "!"%char then Some (TNot, 1%nat)
  else if at_ "<"%char && next "="%char then Some (TLessOrEqual, 2%nat)
  else if at_ "<"%char then Some (TLess, 1%nat)
  else if at_ ">"%char && next "="%char then Some (TGreaterOrEqual, 2%nat)
  else if at_ ">"%char then Some (TGreater, 1%nat)
  else if at_ "("%char then Some (TLeftParen, 1%nat)
  else if at_ ")"%char then Some (TRightParen, 1%nat)
  else if at_ "["%char then Some (TLeftBracket, 1%nat)
  else if at_ "]"%char then Some (TRightBracket, 1%nat)
  else if at_ "."%char then Some (TDot, 1%nat)
  else if at_ "*"%char then Some (TStar, 1%nat)
  else if at_ ","%char then Some (TComma, 1%nat)
  else None.

Definition is_identifier_start (a : ascii) : bool :=
  is_ascii_alphabetic a || Ascii.eqb a "_".
Definition is_identifier_byte (a : ascii) : bool :=
  is_ascii_alphanumeric a || Ascii.eqb a "_".

(** One token at a byte that is not whitespace: the token, the unread suffix
    and its index. *)
Definition lex_token (s : string) (a : ascii) (t : string) (index : N) :
    result (TokenKind * string * N) ExpressionError :=
  match lex_symbol a t with
  | Some (k, n) => Ok (k, str_drop n s, index + N.of_nat n)
  | None =>
      if Ascii.eqb a "'" then
        let? r := lex_string t index in
        Ok (TString r.1.1, r.1.2, r.2)
      else if (Ascii.eqb a "-" &&
               match t with String b _ => is_ascii_digit b | "" => false end)
           || is_ascii_digit a then
        let? r := lex_number s index in
        Ok (TNumber r.1.1, r.1.2, r.2)
      else if is_identifier_start a then
        let '(name, rest) := str_span is_identifier_byte s in
        Ok (TIdentifier name, rest, index + str_len name)
      else Err {| code := CompileInvalidExpression;
                  message := "Unexpected expression character at byte "
                             +:+ pretty index +:+ "." |}
  end.

(** The loop of [lex]; [None] means that the fuel ran out. *)
Fixpoint lex_loop (fuel : nat) (s : string) (index : N) :
    option (result (list Token) ExpressionError) :=
  match fuel with
  | O => None
  | S fuel =>
      match s with
      | "" => Some (Ok [{| kind := TEnd; offset := index |}])
      | String a t =>
          if is_ascii_whitespace a then lex_loop fuel t (index + 1)
          else match lex_token s a t index with
               | Err e => Some (Err e)
               | Ok (k, rest, index') =>
                   tokens ← lex_loop fuel rest index';
                   Some (result_map (cons {| kind := k; offset := index |}) tokens)
               end
      end
  end.

Definition lex (source : string) : option (result (list Token) ExpressionError) :=
  lex_loop (S (String.length source)) source 0.
End lexer.

(** ** The lexer terminates and its tokens cover the source in order *)

Section lexer_facts.
Context `{SerdeNumber}.

Lemma digits_app s u v : digits s = (u, v) → s = u +:+ v.
Proof. apply str_span_app. Qed.

Lemma take_one_app set s u v : take_one set s = (u, v) → s = u +:+ v.
Proof.
  destruct s as [|a t]; simpl; [by intros [= <- <-]|].
  destruct (existsb _ _); by intros [= <- <-].
Qed.

Lemma lex_fraction_app s u v : lex_fraction s = Some (u, v) → s = u +:+ v.
Proof.
  unfold lex_fraction. destruct (take_one _ s) as [dot s1] eqn:E1.
  apply take_one_app in E1. destruct (String.eqb dot ""); [by intros [= <- <-]|].
  destruct (digits s1) as [f s2] eqn:E2. apply digits_app in E2.
  destruct (String.eqb f ""); [done|]. intros [= <- <-]. subst.
  by rewrite str_app_assoc.
Qed.

Lemma lex_exponent_app s u v : lex_exponent s = Some (u, v) → s = u +:+ v.
Proof.
  unfold lex_exponent. destruct (take_one _ s) as [e s1] eqn:E1.
  apply take_one_app in E1. destruct (String.eqb e ""); [by intros [= <- <-]|].
  destruct (take_one _ s1) as [sign s2] eqn:E2. apply take_one_app in E2.
  destruct (digits s2) as [f s3] eqn:E3. apply digits_app in E3.
  destruct (String.eqb f ""); [done|]. intros [= <- <-]. subst.
  by rewrite !str_app_assoc.
Qed.

(** The number text is a prefix of the source. *)
Lemma number_text_app s text rest :
  number_text s = Some (text, rest) → s = text +:+ rest.
Proof.
  unfold number_text. destruct (take_one _ s) as [sign s1] eqn:E1.
  apply take_one_app in E1.
  destruct (match take_one ["0"%char] s1 with ("", _) => digits s1 | zero => zero end)
    as [int s2] eqn:E2.
  assert (s1 = int +:+ s2) as Hs1.
  { destruct (take_one ["0"%char] s1) as [z s1'] eqn:Ez. apply take_one_app in Ez.
    destruct z; [by apply digits_app|]. by injection E2 as <- <-. }
  destruct (lex_fraction s2) as [[frac s3]|] eqn:E3; simpl; [|done].
  apply lex_fraction_app in E3.
  destruct (lex_exponent s3) as [[exp s4]|] eqn:E4; simpl; [|done].
  apply lex_exponent_app in E4. intros [= <- <-]. subst.
  by rewrite !str_app_assoc.
Qed.

Lemma lex_string_body_index s index value rest end_ :
  lex_string_body s index = Some (value, rest, end_) →
  end_ + str_len rest = index + str_len s ∧ str_len rest < str_len s.
Proof.
  revert index value rest end_.
  induction s as [s IH] using (induction_ltof1 _ String.length). unfold ltof in IH.
  intros index value rest end_. destruct s as [|a t]; [done|].
  cbn [lex_string_body]. destruct (Ascii.eqb a "'").
  - destruct t as [|b u]; [intros [= <- <- <-]; rewrite str_len_cons, str_len_nil; lia|].
    destruct (Ascii.eqb b "'").
    + destruct (lex_string_body u (index + 2)) as [[[v r] e]|] eqn:E; [|done].
      intros [= <- <- <-]. apply IH in E; [|simpl; lia].
      rewrite !str_len_cons. lia.
    + intros [= <- <- <-]. rewrite !str_len_cons. lia.
  - destruct (lex_string_body t (index + 1)) as [[[v r] e]|] eqn:E; [|done].
    intros [= <- <- <-]. apply IH in E; [|simpl; lia]. rewrite str_len_cons. lia.
Qed.

Lemma if_some {A} (b : bool) (x y : option A) r :
  (if b then x else y) = r → (b = true ∧ x = r) ∨ y = r.
Proof. destruct b; auto. Qed.

Lemma lex_symbol_cases a t k n :
  lex_symbol a t = Some (k, n) →
  k ≠ TEnd ∧ (n = 1 ∨ n = 2 ∧ t ≠ "")%nat.
Proof.
  assert (∀ c x, x && match t with String b _ => Ascii.eqb b c | "" => false end = true →
            t ≠ "") as Hnext.
  { intros c x. destruct t; [|done]. by rewrite andb_false_r. }
  unfold lex_symbol. cbv zeta. intros Hs.
  repeat (apply if_some in Hs as [[Hb Hs]|Hs];
    [injection Hs as <- <-; split; [discriminate|]; first [left; reflexivity | right; split; [reflexivity|eapply Hnext; exact Hb]]|]).
  discriminate.
Qed.

Lemma lex_symbol_length a t k n :
  lex_symbol a t = Some (k, n) → (1 ≤ n ≤ S (String.length t))%nat.
Proof.
  intros [_ [->|[-> Ht]]]%lex_symbol_cases; [lia|]. destruct t; simpl; [done|lia].
Qed.

(** A token takes at least one byte, and its end index accounts for them. *)
Lemma lex_token_index a t index k rest index' :
  lex_token (String a t) a t index = Ok (k, rest, index') →
  index' + str_len rest = index + str_len (String a t) ∧
  str_len rest < str_len (String a t).
Proof.
  unfold lex_token. destruct (lex_symbol a t) as [[k0 n]|] eqn:Es.
  { apply lex_symbol_length in Es. intros [= <- <- <-].
    rewrite str_len_drop. unfold str_len in *. simpl String.length. lia. }
  destruct (Ascii.eqb a "'").
  { unfold lex_string. destruct (lex_string_body t (index + 1)) as [[[v r] e]|] eqn:E;
      simpl; [|done]. intros [= <- <- <-]. apply lex_string_body_index in E.
    rewrite str_len_cons. lia. }
  destruct ((Ascii.eqb a "-" && _) || is_ascii_digit a) eqn:En.
  { unfold lex_number. destruct (number_text _) as [[text r]|] eqn:E; simpl; [|done].
    destruct (number_from_str text) eqn:Ep; simpl; [|done]. intros [= <- <- <-].
    pose proof (number_text_app _ _ _ E) as Happ.
    assert (str_len text ≠ 0).
    { intros Hz. destruct text; [|rewrite str_len_cons in Hz; lia].
      clear Hz. revert E. unfold number_text. cbn [take_one existsb].
      rewrite orb_false_r. destruct (Ascii.eqb a "-") eqn:Ea.
      - destruct (match take_one ["0"%char] t with ("", _) => digits t | zero => zero end)
          as [i s2].
        destruct (lex_fraction s2) as [[? s3]|]; simpl; [|done].
        destruct (lex_exponent s3) as [[? ?]|]; simpl; done.
      - simpl in En. cbn [take_one existsb]. rewrite orb_false_r.
        destruct (Ascii.eqb a "0").
        + destruct (lex_fraction t) as [[? s3]|]; simpl; [|done].
          destruct (lex_exponent s3) as [[? ?]|]; simpl; done.
        + unfold digits. simpl. rewrite En.
          destruct (str_span is_ascii_digit t) as [i s2].
          destruct (lex_fraction s2) as [[? s3]|]; simpl; [|done].
          destruct (lex_exponent s3) as [[? ?]|]; simpl; done. }
    rewrite Happ, str_len_app. lia. }
  destruct (is_identifier_start a) eqn:Ei; [|done].
  destruct (str_span is_identifier_byte (String a t)) as [name r] eqn:E.
  intros [= <- <- <-]. pose proof (str_span_app _ _ _ _ E) as Happ.
  assert (str_len name ≠ 0).
  { revert E. simpl. destruct (is_identifier_byte a) eqn:Eb.
    - destruct (str_span is_identifier_byte t). intros [= <- <-].
      rewrite str_len_cons. lia.
    - unfold is_identifier_start, is_identifier_byte, is_ascii_alphanumeric in *.
      destruct (is_ascii_alphabetic a); simpl in *; [done|].
      rewrite Ei, orb_true_r in Eb. done. }
  rewrite Happ, str_len_app. lia.
Qed.

Lemma lex_loop_enough fuel s index :
  (String.length s < fuel)%nat → ∃ r, lex_loop fuel s index = Some r.
Proof.
  revert s index. induction fuel as [|fuel IH]; intros s index Hf; [lia|].
  destruct s as [|a t]; [eexists; reflexivity|]. cbn [lex_loop].
  destruct (is_ascii_whitespace a); [apply IH; simpl in Hf; lia|].
  destruct (lex_token (String a t) a t index) as [[[k rest] index']|e] eqn:E;
    [|eexists; reflexivity].
  apply lex_token_index in E as [_ E]. unfold str_len in E.
  destruct (IH rest index') as [r ->]; [lia|]. eexists; reflexivity.
Qed.

(** Offsets increase strictly from [lo], and the only [TEnd] is the last
    token, at [hi]. *)
Fixpoint tokens_ordered (lo hi : N) (ts : list Token) : Prop :=
  match ts with
  | [] => False
  | [t] => kind t = TEnd ∧ lo ≤ offset t ∧ offset t = hi
  | t :: ts => kind t ≠ TEnd ∧ lo ≤ offset t < hi ∧ tokens_ordered (offset t + 1) hi ts
  end.

Lemma tokens_ordered_weaken lo lo' hi ts :
  lo' ≤ lo → tokens_ordered lo hi ts → tokens_ordered lo' hi ts.
Proof. destruct ts as [|t [|t' ts]]; simpl; [done| |]; intuition lia. Qed.

Lemma lex_token_not_end s a t index k rest index' :
  lex_token s a t index = Ok (k, rest, index') → k ≠ TEnd.
Proof.
  unfold lex_token. destruct (lex_symbol a t) as [[k0 n]|] eqn:Es.
  { intros [= <- <- <-]. by apply lex_symbol_cases in Es as [? _]. }
  destruct (Ascii.eqb a "'").
  { destruct (lex_string t index) as [[[v r] e]|]; simpl; by intros [= <- <- <-]. }
  destruct (_ || _).
  { destruct (lex_number s index) as [[[v r] e]|]; simpl; by intros [= <- <- <-]. }
  destruct (is_identifier_start a); [|done].
  destruct (str_span is_identifier_byte s); by intros [= <- <- <-].
Qed.

Lemma lex_loop_ordered fuel s index ts :
  lex_loop fuel s index = Some (Ok ts) →
  tokens_ordered index (index + str_len s) ts.
Proof.
  revert s index ts. induction fuel as [|fuel IH]; intros s index ts; [done|].
  destruct s as [|a t]; cbn [lex_loop].
  { intros [= <-]. simpl. rewrite str_len_nil. split; [done|]. simpl. lia. }
  destruct (is_ascii_whitespace a).
  { intros E%IH. eapply tokens_ordered_weaken; [|rewrite str_len_cons, N.add_assoc; apply E].
    lia. }
  destruct (lex_token (String a t) a t index) as [[[k rest] index']|e] eqn:E; [|done].
  pose proof (lex_token_not_end _ _ _ _ _ _ _ E) as Hk.
  apply lex_token_index in E as [E1 E2].
  destruct (lex_loop fuel rest index') as [[ts'|]|] eqn:El; simpl; [|done|done].
  intros [= <-]. apply IH in El. rewrite E1 in El.
  assert (tokens_ordered (index + 1) (index + str_len (String a t)) ts') as Hts
    by (eapply tokens_ordered_weaken; [|exact El]; lia).
  destruct ts' as [|t' ts']; [done|]. simpl. rewrite str_len_cons in *.
  split; [done|]. split; [lia|]. exact Hts.
Qed.
End lexer_facts.

(** ** Properties *)

Section lexer_properties.
Context `{SerdeNumber}.

(** The tokens of a source have strictly increasing offsets inside the
    source, and the only end marker is the last token, at the length of the
    source. *)
Theorem lex_tokens_ordered source ts :
  lex source = Some (Ok ts) → tokens_ordered 0 (str_len source) ts.
Proof. apply lex_loop_ordered. Qed.
End lexer_properties.

Definition sample_tokens : list (@Token text_numbers) :=
  match lex (H:=text_numbers) "a == 12" with Some (Ok ts) => ts | _ => [] end.

Lemma lex_tokens_ordered_witness :
  length sample_tokens = 4%nat ∧ tokens_ordered (H:=text_numbers) 0 7 sample_tokens.
Proof.
  split; [vm_refl|].
  apply (lex_tokens_ordered (H:=text_numbers) "a == 12"). vm_refl.
Defined.
