(* ===== verification/Parser.v ===== *)
(** * Parser (crates/antiburn-checks/src/expression.rs, [ExpressionParser])

    The token vector with its cursor is the suffix of the tokens from the
    cursor; the last token is [TEnd] and the cursor never passes it.  The
    recursive descent takes fuel: [None] means that it ran out, and
    [parse_expression_total] shows that four units per token are enough. *)

From S2P Require Import Prelude RustString Json Diagnostics Expression Lexer.

Section parser.
Context `{SerdeNumber}.

Record ParsedExpression := {
  expression : Expression;
  depth : N
}.

Definition current (ts : list Token) : TokenKind :=
  match ts with t :: _ => kind t | [] => TEnd end.

Definition advance (ts : list Token) : TokenKind * list Token :=
  match ts with
  | t :: rest => match kind t with TEnd => (TEnd, ts) | k => (k, rest) end
  | [] => (TEnd, [])
  end.

(** [self.error(code, message)] *)
Definition error_at (ts : list Token) (c : DiagnosticCode) (msg : string) : ExpressionError :=
  let o := match ts with t :: _ => offset t | [] => 0 end in
  {| code := c; message := msg +:+ " (expression byte " +:+ pretty o +:+ ")." |}.

Definition invalid (ts : list Token) (msg : string) : ExpressionError :=
  error_at ts CompileInvalidExpression msg.

Definition expression_depth_error (ts : list Token) : ExpressionError :=
  invalid ts ("Expression AST exceeds the maximum evaluation depth of "
              +:+ pretty MAX_EXPRESSION_DEPTH +:+ ".").

Definition check_parse_depth (ts : list Token) (d : N) : option ExpressionError :=
  if MAX_EXPRESSION_PARSE_DEPTH <? d then
    Some (invalid ts "Expression syntax exceeds the parser nesting limit of 128.")
  else None.

Definition binary_operator (k : TokenKind) : option (BinaryOperator * N) :=
  match k with
  | TOr => Some (Or, 1)
  | TAnd => Some (And, 2)
  | TEqual => Some (Equal, 3)
  | TNotEqual => Some (NotEqual, 3)
  | TLess => Some (Less, 4)
  | TLessOrEqual => Some (LessOrEqual, 4)
  | TGreater => Some (Greater, 4)
  | TGreaterOrEqual => Some (GreaterOrEqual, 4)
  | _ => None
  end.

Definition push_access (e : Expression) (seg : AccessSegment) (grouped : bool) : Expression :=
  match grouped, e with
  | true, EAccess _ _ => EAccess e [seg]
  | _, EPath path =>
      match seg with
      | AProperty name => EPath (path ++ [PProperty name])
      | AIndex i => EPath (path ++ [PIndex i])
      | _ => EAccess e [seg]
      end
  | _, EAccess base segments => EAccess base (segments ++ [seg])
  | _, _ => EAccess e [seg]
  end.

(** The segment a bracket selector stands for. *)
Definition selector_segment (e : Expression) : AccessSegment :=
  match e with
  | ELiteral (LString name) => AProperty name
  | ELiteral (LNumber n) =>
      match number_as_u64 n with
      | Some i => if i <=? USIZE_MAX then AIndex i else ADynamic e
      | None => ADynamic e
      end
  | _ => ADynamic e
  end.

(** A parser: out of fuel, an error, or a result and the unread tokens. *)
Definition parsed (A : Type) : Type := option (result (A * list Token) ExpressionError).

Definition perr {A} (e : ExpressionError) : parsed A := Some (Err e).
Definition pok {A} (a : A) (ts : list Token) : parsed A := Some (Ok (a, ts)).
Definition pbind {A B} (m : parsed A) (f : A → list Token → parsed B) : parsed B :=
  match m with
  | Some (Ok (a, ts)) => f a ts
  | Some (Err e) => Some (Err e)
  | None => None
  end.

Fixpoint parse_binary (fuel : nat) (minimum : N) (d : N) (ts : list Token) {struct fuel} :
    parsed ParsedExpression :=
  match fuel with
  | O => None
  | S fuel =>
      match check_parse_depth ts d with
      | Some e => perr e
      | None => pbind (parse_unary fuel (d + 1) ts) (binary_loop fuel minimum d)
      end
  end
(** The [while let] loop of [parse_binary]. *)
with binary_loop (fuel : nat) (minimum : N) (d : N) (lhs : ParsedExpression)
    (ts : list Token) {struct fuel} : parsed ParsedExpression :=
  match fuel with
  | O => None
  | S fuel =>
      match binary_operator (current ts) with
      | None => pok lhs ts
      | Some (operator, precedence) =>
          if precedence <? minimum then pok lhs ts
          else
            pbind (parse_binary fuel (precedence + 1) (d + 1) (advance ts).2)
              (λ rhs ts,
                let expression_depth := N.max (depth lhs) (depth rhs) + 1 in
                if MAX_EXPRESSION_DEPTH <? expression_depth
                then perr (expression_depth_error ts)
                else binary_loop fuel minimum d
                       {| expression := EBinary operator (expression lhs) (expression rhs);
                          depth := expression_depth |} ts)
      end
  end
with parse_unary (fuel : nat) (d : N) (ts : list Token) {struct fuel} :
    parsed ParsedExpression :=
  match fuel with
  | O => None
  | S fuel =>
      match check_parse_depth ts d with
      | Some e => perr e
      | None =>
          match current ts with
          | TNot =>
              pbind (parse_unary fuel (d + 1) (advance ts).2)
                (λ nested ts,
                  let expression_depth := depth nested + 1 in
                  if MAX_EXPRESSION_DEPTH <? expression_depth
                  then perr (expression_depth_error ts)
                  else pok {| expression := ENot (expression nested);
                              depth := expression_depth |} ts)
          | _ => parse_primary fuel (d + 1) ts
          end
      end
  end
with parse_primary (fuel : nat) (d : N) (ts : list Token) {struct fuel} :
    parsed ParsedExpression :=
  match fuel with
  | O => None
  | S fuel =>
      match check_parse_depth ts d with
      | Some e => perr e
      | None =>
          let grouped := match current ts with TLeftParen => true | _ => false end in
          let '(k, ts) := advance ts in
          let leaf e := postfix_loop fuel d e 1 grouped ts in
          match k with
          | TIdentifier value =>
              if String.eqb value "true" then leaf (ELiteral (LBoolean true))
              else if String.eqb value "false" then leaf (ELiteral (LBoolean false))
              else if String.eqb value "null" then leaf (ELiteral LNull)
              else
                match current ts with
                | TLeftParen =>
                    pbind (parse_call fuel value d ts)
                      (λ call ts,
                        postfix_loop fuel d (expression call) (depth call) grouped ts)
                | _ => leaf (EPath [PProperty value])
                end
          | TString value => leaf (ELiteral (LString value))
          | TNumber value => leaf (ELiteral (LNumber value))
          | TLeftParen =>
              pbind (parse_binary fuel 0 (d + 1) ts)
                (λ nested ts,
                  let '(close, ts) := advance ts in
                  match close with
                  | TRightParen =>
                      postfix_loop fuel d (expression nested) (depth nested) grouped ts
                  | _ => perr (invalid ts "Expected `)` to close the expression group.")
                  end)
          | TEnd => perr (invalid ts "Expected an expression value.")
          | _ => perr (invalid ts "Expected a literal, path, or parenthesized expression.")
          end
      end
  end
(** The access loop at the end of [parse_primary]. *)
with postfix_loop (fuel : nat) (d : N) (e : Expression) (expression_depth : N)
    (grouped : bool) (ts : list Token) {struct fuel} : parsed ParsedExpression :=
  match fuel with
  | O => None
  | S fuel =>
      match current ts with
      | TDot =>
          let '(k, ts) := advance (advance ts).2 in
          match k with
          | TIdentifier name =>
              postfix_loop fuel d (push_access e (AProperty name) grouped)
                expression_depth false ts
          | TStar =>
              postfix_loop fuel d (push_access e AProjection grouped)
                expression_depth false ts
          | _ => perr (invalid ts "Expected a property name after `.`.")
          end
      | TLeftBracket =>
          pbind (parse_binary fuel 0 (d + 1) (advance ts).2)
            (λ selector ts,
              let expression_depth := N.max expression_depth (depth selector + 1) in
              let segment := selector_segment (expression selector) in
              let '(close, ts) := advance ts in
              match close with
              | TRightBracket =>
                  postfix_loop fuel d (push_access e segment grouped)
                    expression_depth false ts
              | _ => perr (invalid ts "Expected `]` after a bracket key or index.")
              end)
      | TLeftParen =>
          perr (error_at ts CompileUnsupportedFeature
                  "Method calls and calls on computed values are not supported.")
      | _ =>
          if MAX_EXPRESSION_DEPTH <? expression_depth
          then perr (expression_depth_error ts)
          else pok {| expression := e; depth := expression_depth |} ts
      end
  end
with parse_call (fuel : nat) (name : string) (d : N) (ts : list Token) {struct fuel} :
    parsed ParsedExpression :=
  match fuel with
  | O => None
  | S fuel =>
      match ExpressionFunction_parse name with
      | None => perr (error_at ts CompileUnsupportedFeature "Unknown expression function.")
      | Some f =>
          let ts := (advance ts).2 in
          pbind
            (match current ts with
             | TRightParen => pok ([], 1) ts
             | _ => arguments_loop fuel d [] 1 ts
             end)
            (λ '(arguments, expression_depth) ts,
              let '(close, ts) := advance ts in
              match close with
              | TRightParen =>
                  if accepts_arity f (N.of_nat (length arguments))
                  then pok {| expression := ECall f arguments;
                              depth := expression_depth |} ts
                  else perr (invalid ts "Wrong number of expression function arguments.")
              | _ => perr (invalid ts "Expected `)` after function arguments.")
              end)
      end
  end
(** The argument loop of [parse_call]. *)
with arguments_loop (fuel : nat) (d : N) (arguments : list Expression)
    (expression_depth : N) (ts : list Token) {struct fuel} :
    parsed (list Expression * N) :=
  match fuel with
  | O => None
  | S fuel =>
      pbind (parse_binary fuel 0 (d + 1) ts)
        (λ argument ts,
          let arguments := (arguments ++ [expression argument])%list in
          let expression_depth := N.max expression_depth (depth argument + 1) in
          match current ts with
          | TComma => arguments_loop fuel d arguments expression_depth (advance ts).2
          | _ => pok (arguments, expression_depth) ts
          end)
  end.

Definition parse_fuel (ts : list Token) : nat := S (4 * S (length ts)).

Definition parse_tokens (ts : list Token) : option (result Expression ExpressionError) :=
  match parse_binary (parse_fuel ts) 0 0 ts with
  | Some (Ok (p, rest)) =>
      Some (match current rest with
            | TEnd => Ok (expression p)
            | _ => Err (invalid rest "Unexpected content after the expression.")
            end)
  | Some (Err e) => Some (Err e)
  | None => None
  end.

Definition parse_expression (source : string) : option (result Expression ExpressionError) :=
  match lex source with
  | Some (Ok tokens) => parse_tokens tokens
  | Some (Err e) => Some (Err e)
  | None => None
  end.
End parser.

(** ** Termination *)

Section parser_terminates.
Context `{SerdeNumber}.

Lemma advance_shorter ts :
  current ts ≠ TEnd → (length (advance ts).2 < length ts)%nat.
Proof.
  destruct ts as [|[k o] ts]; simpl; [done|]. intros Hk. destruct k; simpl; done || lia.
Qed.

Lemma advance_not_longer ts : (length (advance ts).2 ≤ length ts)%nat.
Proof. destruct ts as [|[k o] ts]; simpl; [done|]. destruct k; simpl; lia. Qed.

Lemma advance_kind ts : (advance ts).1 = current ts.
Proof. destruct ts as [|[k o] ts]; simpl; [done|]. by destruct k. Qed.

(** [m] has an outcome, and a success leaves fewer than [n] tokens. *)
Definition ends {A} (m : parsed A) (n : nat) : Prop :=
  match m with
  | Some (Ok (_, ts)) => (length ts < n)%nat
  | Some (Err _) => True
  | None => False
  end.

Lemma ends_perr {A} e n : ends (perr e : parsed A) n.
Proof. exact I. Qed.

Lemma ends_pok {A} (a : A) ts n : (length ts < n)%nat → ends (pok a ts) n.
Proof. done. Qed.

Lemma ends_pbind {A B} (m : parsed A) (f : A → list Token → parsed B) k n :
  ends m k → (∀ a ts, (length ts < k)%nat → ends (f a ts) n) → ends (pbind m f) n.
Proof. destruct m as [[[a ts]|e]|]; simpl; auto. Qed.

Lemma ends_weaken {A} (m : parsed A) k n : ends m k → (k ≤ n)%nat → ends m n.
Proof. destruct m as [[[a ts]|e]|]; simpl; auto. lia. Qed.

Definition enough (fuel : nat) : Prop :=
  ((∀ m d ts, 4 * length ts + 3 ≤ fuel → ends (parse_binary fuel m d ts) (length ts)) ∧
   (∀ m d l ts, 4 * length ts + 1 ≤ fuel → ends (binary_loop fuel m d l ts) (S (length ts))) ∧
   (∀ d ts, 4 * length ts + 2 ≤ fuel → ends (parse_unary fuel d ts) (length ts)) ∧
   (∀ d ts, 4 * length ts + 1 ≤ fuel → ends (parse_primary fuel d ts) (length ts)) ∧
   (∀ d e x g ts, 4 * length ts + 1 ≤ fuel →
      ends (postfix_loop fuel d e x g ts) (S (length ts))) ∧
   (∀ name d ts, current ts = TLeftParen → 4 * length ts + 1 ≤ fuel →
      ends (parse_call fuel name d ts) (length ts)) ∧
   (∀ d args x ts, 4 * length ts + 4 ≤ fuel →
      ends (arguments_loop fuel d args x ts) (length ts)))%nat.

Lemma enough_all fuel : enough fuel.
Proof.
  induction fuel as [|fuel (IHb & IHl & IHu & IHp & IHx & IHc & IHa)].
  { repeat split; intros; lia. }
  repeat split.
  - intros m d ts Hf. simpl. destruct (check_parse_depth ts d); [apply ends_perr|].
    eapply ends_pbind; [apply IHu; lia|]. intros a ts' Hts.
    eapply ends_weaken; [apply IHl; lia|lia].
  - intros m d l ts Hf. simpl. destruct (binary_operator _) as [[op p]|] eqn:Eop;
      [|apply ends_pok; lia].
    assert (current ts ≠ TEnd) as Hne by (intros E; by rewrite E in Eop).
    apply advance_shorter in Hne. destruct (p <? m); [apply ends_pok; lia|].
    eapply ends_pbind; [apply IHb; lia|]. intros rhs ts' Hts. simpl.
    destruct (_ <? _); [apply ends_perr|]. eapply ends_weaken; [apply IHl; lia|lia].
  - intros d ts Hf. simpl. destruct (check_parse_depth ts d); [apply ends_perr|].
    destruct (current ts) eqn:Ec; try (apply IHp; lia).
    assert (length (advance ts).2 < length ts)%nat by (apply advance_shorter; by rewrite Ec).
    eapply ends_pbind; [apply IHu; lia|]. intros a ts' Hts. simpl.
    destruct (_ <? _); [apply ends_perr|apply ends_pok; lia].
  - intros d ts Hf. simpl. destruct (check_parse_depth ts d); [apply ends_perr|].
    destruct (advance ts) as [k ts'] eqn:Ea.
    pose proof (advance_kind ts) as Hk. rewrite Ea in Hk. simpl in Hk.
    assert (k ≠ TEnd → (length ts' < length ts)%nat) as Hlt.
    { intros Hne. pose proof (advance_shorter ts) as Hs. rewrite Ea in Hs. simpl in Hs.
      apply Hs. by rewrite <- Hk. }
    set (g := match current ts with TLeftParen => true | _ => false end). clearbody g.
    destruct k; try apply ends_perr.
    all: assert (length ts' < length ts)%nat by (apply Hlt; discriminate); clear Hlt.
    + repeat (destruct (String.eqb s _); [eapply ends_weaken; [apply IHx; lia|lia]|]).
      destruct (current ts') eqn:Ec'; try (eapply ends_weaken; [apply IHx; lia|lia]).
      eapply ends_pbind; [apply IHc; [done|lia]|]. intros a ts2 Hts.
      eapply ends_weaken; [apply IHx; lia|lia].
    + eapply ends_weaken; [apply IHx; lia|lia].
    + eapply ends_weaken; [apply IHx; lia|lia].
    + eapply ends_pbind; [apply IHb; lia|]. intros a ts2 Hts.
      pose proof (advance_not_longer ts2). destruct (advance ts2) as [[] ts3]; simpl in *;
        try exact I. eapply ends_weaken; [apply IHx; lia|lia].
  - intros d e x g ts Hf. simpl.
    destruct (current ts) eqn:Ec;
      try (destruct (_ <? _); [apply ends_perr|apply ends_pok; lia]);
      try apply ends_perr.
    + assert (length (advance ts).2 < length ts)%nat
        by (apply advance_shorter; by rewrite Ec).
      eapply ends_pbind; [apply IHb; lia|]. intros sel ts' Hts. simpl.
      pose proof (advance_not_longer ts'). destruct (advance ts') as [[] ts3]; simpl in *;
        try exact I. eapply ends_weaken; [apply IHx; lia|lia].
    + assert (length (advance ts).2 < length ts)%nat
        by (apply advance_shorter; by rewrite Ec).
      pose proof (advance_not_longer (advance ts).2).
      destruct (advance (advance ts).2) as [[] ts3]; simpl in *; try exact I;
        (eapply ends_weaken; [apply IHx; lia|lia]).
  - intros name d ts Hc Hf. simpl.
    destruct (ExpressionFunction_parse name); [|apply ends_perr].
    assert (length (advance ts).2 < length ts)%nat
      by (apply advance_shorter; by rewrite Hc).
    eapply (ends_pbind _ _ (S (length (advance ts).2))).
    + destruct (current (advance ts).2); try (eapply ends_weaken; [apply IHa; lia|lia]).
      apply ends_pok. lia.
    + intros [args x] ts' Hts. pose proof (advance_not_longer ts').
      destruct (advance ts') as [[] ts3]; simpl in *; try exact I.
      destruct (accepts_arity _ _); [apply ends_pok; lia|apply ends_perr].
  - intros d args x ts Hf. simpl. eapply ends_pbind; [apply IHb; lia|].
    intros a ts' Hts. simpl. destruct (current ts') eqn:Ec; try (apply ends_pok; lia).
    pose proof (advance_shorter ts' ltac:(by rewrite Ec)).
    eapply ends_weaken; [apply IHa; lia|lia].
Qed.

Lemma parse_tokens_enough ts : ∃ r, parse_tokens ts = Some r.
Proof.
  unfold parse_tokens.
  pose proof (proj1 (enough_all (parse_fuel ts)) 0 0 ts ltac:(unfold parse_fuel; lia)) as Hp.
  destruct (parse_binary _ _ _ _) as [[[p rest]|e]|]; simpl in Hp; eauto; done.
Qed.

(** Parsing ends: every source text gives an expression or an error, since
    the fuel of the lexer and of the recursive descent is enough. *)
Theorem parse_expression_total source : ∃ r, parse_expression source = Some r.
Proof.
  unfold parse_expression, lex.
  destruct (lex_loop_enough (S (String.length source)) source 0) as [[ts|e] ->]; [lia| |eauto].
  apply parse_tokens_enough.
Qed.
End parser_terminates.

(** ** What a parsed expression satisfies *)

Section parser_sound.
Context `{SerdeNumber}.

Definition segment_depth (seg : AccessSegment) : N :=
  match seg with ADynamic e => parsed_depth e + 1 | _ => 1 end.

Definition segment_well_formed (seg : AccessSegment) : bool :=
  match seg with ADynamic e => well_formed e | _ => true end.

Lemma parsed_depth_pos e : 1 ≤ parsed_depth e.
Proof.
  induction e as [l|path|b segs IHb _|f args _|e IH|op l r IHl IHr]
    using Expression_ind_nested; simpl; try lia.
  - induction segs as [|[] segs IHs]; simpl; lia.
  - induction args as [|a args IHa]; simpl; lia.
Qed.

Lemma parsed_depth_access_snoc b segs seg :
  parsed_depth (EAccess b (segs ++ [seg])) ≤
  N.max (parsed_depth (EAccess b segs)) (segment_depth seg).
Proof.
  cbn [parsed_depth]. induction segs as [|s segs IH]; simpl.
  - pose proof (parsed_depth_pos b). destruct seg; simpl; lia.
  - destruct s; simpl; lia.
Qed.

Lemma parsed_depth_push_access e seg g :
  parsed_depth (push_access e seg g) ≤ N.max (parsed_depth e) (segment_depth seg).
Proof.
  assert (∀ e, parsed_depth (EAccess e [seg]) ≤ N.max (parsed_depth e) (segment_depth seg))
    as Hone.
  { intros e'. apply (parsed_depth_access_snoc e' []). }
  destruct g, e; simpl push_access; try apply Hone; try apply parsed_depth_access_snoc;
    destruct seg; try apply Hone; simpl; lia.
Qed.

Lemma well_formed_push_access e seg g :
  well_formed e = true → segment_well_formed seg = true →
  well_formed (push_access e seg g) = true.
Proof.
  intros He Hs.
  assert (∀ e, well_formed e = true → well_formed (EAccess e [seg]) = true) as Hone.
  { intros e' He'. simpl. rewrite He', andb_true_r. simpl. by destruct seg. }
  destruct g, e; simpl push_access; try (apply Hone; exact He);
    try (destruct seg; try (apply Hone; exact He); exact He).
  simpl in He |- *. apply andb_true_iff in He as [H1 H2].
  rewrite H1, forallb_app, H2. simpl. rewrite andb_true_r. by destruct seg.
Qed.

Lemma selector_segment_sound e :
  well_formed e = true →
  segment_well_formed (selector_segment e) = true ∧
  segment_depth (selector_segment e) ≤ parsed_depth e + 1.
Proof.
  intros He. destruct e as [[s|n|b|]|path|b segs|f args|e|op l r]; simpl;
    try (split; [done|simpl; lia]); try (split; [exact He|reflexivity]).
  destruct (number_as_u64 n) as [i|]; [|done].
  destruct (i <=? USIZE_MAX); [|done]. split; [done|]. simpl. lia.
Qed.

(** A subexpression under construction and a finished one. *)
Definition partial_ok (e : Expression) (x : N) : Prop :=
  well_formed e = true ∧ parsed_depth e ≤ x.
Definition parsed_ok (p : ParsedExpression) : Prop :=
  partial_ok (expression p) (depth p) ∧ depth p ≤ MAX_EXPRESSION_DEPTH.
Definition arguments_ok (args : list Expression) (x : N) : Prop :=
  forallb well_formed args = true ∧ parsed_depth (ECall Join args) ≤ x.

Definition yields {A} (m : parsed A) (Q : A → Prop) : Prop :=
  match m with Some (Ok (a, _)) => Q a | _ => True end.

Lemma yields_pbind {A B} (m : parsed A) (f : A → list Token → parsed B) P Q :
  yields m P → (∀ a ts, P a → yields (f a ts) Q) → yields (pbind m f) Q.
Proof. destruct m as [[[a ts]|e]|]; simpl; auto. Qed.

Lemma arguments_ok_snoc args x a :
  arguments_ok args x → parsed_ok a →
  arguments_ok (args ++ [expression a]) (N.max x (depth a + 1)).
Proof.
  intros [H1 H2] [[H3 H4] H5]. split; [by rewrite forallb_app, H1; simpl; rewrite H3|].
  clear H1 H5. cbn [parsed_depth] in *.
  transitivity (N.max (foldr (λ e n, N.max (parsed_depth e + 1) n) 1 args)
                  (parsed_depth (expression a) + 1)); [|lia].
  clear H2. induction args as [|b args IH]; simpl; lia.
Qed.

Definition sound (fuel : nat) : Prop :=
  (∀ m d ts, yields (parse_binary fuel m d ts) parsed_ok) ∧
  (∀ m d l ts, parsed_ok l → yields (binary_loop fuel m d l ts) parsed_ok) ∧
  (∀ d ts, yields (parse_unary fuel d ts) parsed_ok) ∧
  (∀ d ts, yields (parse_primary fuel d ts) parsed_ok) ∧
  (∀ d e x g ts, partial_ok e x → yields (postfix_loop fuel d e x g ts) parsed_ok) ∧
  (∀ name d ts, yields (parse_call fuel name d ts)
     (λ p, partial_ok (expression p) (depth p))) ∧
  (∀ d args x ts, arguments_ok args x →
     yields (arguments_loop fuel d args x ts) (λ r, arguments_ok r.1 r.2)).

Lemma partial_ok_push e x seg g :
  partial_ok e x → segment_well_formed seg = true →
  partial_ok (push_access e seg g) (N.max x (segment_depth seg)).
Proof.
  intros [H1 H2] H3. split; [by apply well_formed_push_access|].
  etrans; [apply parsed_depth_push_access|lia].
Qed.

Lemma partial_ok_weaken e x y : partial_ok e x → x ≤ y → partial_ok e y.
Proof. intros [? ?] ?. split; [done|lia]. Qed.

Lemma sound_all fuel : sound fuel.
Proof.
  induction fuel as [|fuel (IHb & IHl & IHu & IHp & IHx & IHc & IHa)];
    [by repeat split; intros|].
  assert (∀ d e g ts, well_formed e = true → parsed_depth e ≤ 1 →
    yields (postfix_loop fuel d e 1 g ts) parsed_ok) as Hleaf
    by (intros; apply IHx; by split).
  split; [|split; [|split; [|split; [|split; [|split]]]]].
  - intros m d ts. simpl. destruct (check_parse_depth ts d); [done|].
    eapply yields_pbind; [apply IHu|]. intros a ts' Ha. by apply IHl.
  - intros m d l ts Hl. simpl. destruct (binary_operator _) as [[op p]|]; [|done].
    destruct (p <? m); [done|]. eapply yields_pbind; [apply IHb|].
    intros r ts' Hr. simpl. destruct (N.ltb_spec MAX_EXPRESSION_DEPTH
      (N.max (depth l) (depth r) + 1)); [done|].
    apply IHl. destruct Hl as [[Hl1 Hl2] _], Hr as [[Hr1 Hr2] _].
    split; [|done]. split; simpl; [by rewrite Hl1, Hr1|lia].
  - intros d ts. simpl. destruct (check_parse_depth ts d); [done|].
    destruct (current ts); try apply IHp.
    eapply yields_pbind; [apply IHu|]. intros r ts' [[H1 H2] H3]. simpl.
    destruct (N.ltb_spec MAX_EXPRESSION_DEPTH (depth r + 1)); [done|].
    split; [|done]. split; simpl; [done|lia].
  - intros d ts. simpl. destruct (check_parse_depth ts d); [done|].
    destruct (advance ts) as [k ts'].
    destruct k; try done; try (by apply Hleaf).
    + repeat (destruct (String.eqb s _); [by apply Hleaf|]).
      destruct (current ts'); try (by apply Hleaf).
      eapply yields_pbind; [apply IHc|]. intros p ts2 Hp. by apply IHx.
    + eapply yields_pbind; [apply IHb|]. intros p ts2 [Hp _].
      destruct (advance ts2) as [[] ts3]; try done. by apply IHx.
  - intros d e x g ts He. simpl.
    assert (yields (if MAX_EXPRESSION_DEPTH <? x then perr (expression_depth_error ts)
                    else pok {| expression := e; depth := x |} ts) parsed_ok) as Hend.
    { destruct (N.ltb_spec MAX_EXPRESSION_DEPTH x); [done|]. by split. }
    destruct (current ts); try done.
    + eapply yields_pbind; [apply IHb|]. intros sel ts' [[Hs1 Hs2] _]. simpl.
      destruct (selector_segment_sound _ Hs1) as [Hw Hd].
      destruct (advance ts') as [[] ts3]; try done. apply IHx.
      eapply partial_ok_weaken; [by apply (partial_ok_push e x)|]. lia.
    + assert (1 ≤ x) by (pose proof (parsed_depth_pos e); destruct He; lia).
      destruct (advance (advance ts).2) as [[] ts3]; try done; apply IHx;
        (eapply partial_ok_weaken; [by apply (partial_ok_push e x)|simpl; lia]).
  - intros name d ts. simpl. destruct (ExpressionFunction_parse name) as [f|]; [|done].
    eapply (yields_pbind _ _ (λ r, arguments_ok r.1 r.2)).
    + destruct (current (advance ts).2); try (apply IHa; by split). by split.
    + intros [args x] ts' [H1 H2]. simpl in H1, H2. destruct (advance ts') as [[] ts3]; try done.
      destruct (accepts_arity _ _) eqn:Ear; [|done]. split; simpl; [by rewrite Ear|done].
  - intros d args x ts Ha. simpl. eapply yields_pbind; [apply IHb|].
    intros a ts' Hok. simpl. pose proof (arguments_ok_snoc _ _ _ Ha Hok) as Hsnoc.
    destruct (current ts'); try done. by apply IHa.
Qed.

Lemma parse_expression_ok source e :
  parse_expression source = Some (Ok e) →
  well_formed e = true ∧ parsed_depth e ≤ MAX_EXPRESSION_DEPTH.
Proof.
  unfold parse_expression. destruct (lex source) as [[ts|]|]; try done.
  unfold parse_tokens. pose proof (proj1 (sound_all (parse_fuel ts)) 0 0 ts) as Hs.
  destruct (parse_binary _ _ _ _) as [[[p rest]|]|]; try done. simpl in Hs.
  destruct Hs as [[H1 H2] H3]. destruct (current rest); try done.
  intros [= <-]. split; [done|lia].
Qed.
End parser_sound.

(** ** Properties *)

Section parser_properties.
Context `{SerdeNumber}.

(** C30: a parsed expression only has calls with an arity their function
    accepts, and the depth the parser accounts for is within the evaluation
    depth limit of 32. *)
Theorem parse_expression_sound source e :
  parse_expression source = Some (Ok e) →
  well_formed e = true ∧ parsed_depth e ≤ DEFAULT_MAX_EVALUATION_DEPTH.
Proof. apply parse_expression_ok. Qed.
End parser_properties.

(** The expression a text parses to, for the examples. *)
Definition parsed_text (source : string) : @Expression text_numbers :=
  match parse_expression (H:=text_numbers) source with
  | Some (Ok e) => e
  | _ => @ELiteral text_numbers LNull
  end.

Lemma parse_expression_sound_witness :
  let e := parsed_text "contains(a.b[0], 'x') && !c" in
  well_formed (H:=text_numbers) e = true ∧
  parsed_depth (H:=text_numbers) e ≤ DEFAULT_MAX_EVALUATION_DEPTH.
Proof.
  apply (parse_expression_sound (H:=text_numbers) "contains(a.b[0], 'x') && !c").
  vm_refl.
Defined.
