(* ===== verification/Budget.v ===== *)
(** * Evaluation budget (crates/antiburn-checks/src/expression_eval/budget.rs)

    The shared work counters of one assessment.  An operation takes
    [&mut EvaluationBudget] and fails with an [EvaluationError]; the first
    failed charge exhausts the budget for good.  The additions of the source
    cannot wrap: each is guarded by the room that is left, see [budget_ok]. *)

From S2P Require Import Prelude RustString Json Diagnostics Expression.

Definition DEFAULT_MAX_EVALUATION_STEPS : N := 10000.
Definition DEFAULT_MAX_EVALUATION_ITEMS : N := 1000.
Definition DEFAULT_MAX_GENERATED_BYTES : N := 8 * 1024 * 1024.
Definition DEFAULT_MAX_MATERIALIZED_BYTES : N := 8 * 1024 * 1024.

Record EvaluationLimits := {
  max_depth : N;
  max_steps : N
}.

#[export] Instance EvaluationLimits_eq_dec : EqDecision EvaluationLimits.
Proof. solve_decision. Defined.

Definition EvaluationLimits_default : EvaluationLimits :=
  {| max_depth := DEFAULT_MAX_EVALUATION_DEPTH; max_steps := DEFAULT_MAX_EVALUATION_STEPS |}.

Record EvaluationError := {
  code : DiagnosticCode;
  message : string
}.

#[export] Instance EvaluationError_eq_dec : EqDecision EvaluationError.
Proof. solve_decision. Defined.

Definition limit_error (msg : string) : EvaluationError :=
  {| code := EvaluationLimitExceeded; message := msg |}.
Definition invalid_error (msg : string) : EvaluationError :=
  {| code := RuntimeInvalidContext; message := msg |}.

Record EvaluationBudget := {
  limits : EvaluationLimits;
  max_items : N;
  max_generated_bytes : N;
  max_materialized_bytes : N;
  steps : N;
  visited_items : N;
  generated_bytes : N;
  materialized_bytes : N;
  exhausted : bool
}.

#[export] Instance EvaluationBudget_eq_dec : EqDecision EvaluationBudget.
Proof. solve_decision. Defined.

Definition new_with_materialization_limit (l : EvaluationLimits) (items generated materialized : N) :
    EvaluationBudget :=
  {| limits := l; max_items := items; max_generated_bytes := generated;
     max_materialized_bytes := materialized; steps := 0; visited_items := 0;
     generated_bytes := 0; materialized_bytes := 0; exhausted := false |}.

Definition EvaluationBudget_new (l : EvaluationLimits) (items generated : N) : EvaluationBudget :=
  new_with_materialization_limit l items generated DEFAULT_MAX_MATERIALIZED_BYTES.

Definition EvaluationBudget_default : EvaluationBudget :=
  EvaluationBudget_new EvaluationLimits_default DEFAULT_MAX_EVALUATION_ITEMS
    DEFAULT_MAX_GENERATED_BYTES.

(** Field updates. *)
Definition set_steps (n : N) (b : EvaluationBudget) : EvaluationBudget :=
  {| limits := limits b; max_items := max_items b;
     max_generated_bytes := max_generated_bytes b;
     max_materialized_bytes := max_materialized_bytes b; steps := n;
     visited_items := visited_items b; generated_bytes := generated_bytes b;
     materialized_bytes := materialized_bytes b; exhausted := exhausted b |}.
Definition set_visited_items (n : N) (b : EvaluationBudget) : EvaluationBudget :=
  {| limits := limits b; max_items := max_items b;
     max_generated_bytes := max_generated_bytes b;
     max_materialized_bytes := max_materialized_bytes b; steps := steps b;
     visited_items := n; generated_bytes := generated_bytes b;
     materialized_bytes := materialized_bytes b; exhausted := exhausted b |}.
Definition set_generated_bytes (n : N) (b : EvaluationBudget) : EvaluationBudget :=
  {| limits := limits b; max_items := max_items b;
     max_generated_bytes := max_generated_bytes b;
     max_materialized_bytes := max_materialized_bytes b; steps := steps b;
     visited_items := visited_items b; generated_bytes := n;
     materialized_bytes := materialized_bytes b; exhausted := exhausted b |}.
Definition set_materialized_bytes (n : N) (b : EvaluationBudget) : EvaluationBudget :=
  {| limits := limits b; max_items := max_items b;
     max_generated_bytes := max_generated_bytes b;
     max_materialized_bytes := max_materialized_bytes b; steps := steps b;
     visited_items := visited_items b; generated_bytes := generated_bytes b;
     materialized_bytes := n; exhausted := exhausted b |}.
Definition set_exhausted (b : EvaluationBudget) : EvaluationBudget :=
  {| limits := limits b; max_items := max_items b;
     max_generated_bytes := max_generated_bytes b;
     max_materialized_bytes := max_materialized_bytes b; steps := steps b;
     visited_items := visited_items b; generated_bytes := generated_bytes b;
     materialized_bytes := materialized_bytes b; exhausted := true |}.

(** A method with [&mut self]. *)
Definition budgeted (A : Type) : Type := SE EvaluationBudget EvaluationError A.

Definition update (f : EvaluationBudget → EvaluationBudget) : budgeted unit :=
  λ b, (Ok tt, f b).

Definition check_active (b : EvaluationBudget) : result unit EvaluationError :=
  if exhausted b then Err (limit_error "The shared evaluation budget is exhausted.") else Ok tt.

(** [self.fail(message)] *)
Definition budget_fail (msg : string) : budgeted unit :=
  λ b, (Err (limit_error msg), set_exhausted b).

Definition step (depth : N) : budgeted unit :=
  let* b := get_state in
  do* lift (check_active b);
  if max_depth (limits b) <? depth then
    budget_fail "Expression evaluation exceeded the depth limit."
  else if max_steps (limits b) <=? steps b then
    budget_fail "Expression evaluation exceeded the step limit."
  else update (set_steps (steps b + 1)).

Definition visit_items (count : N) : budgeted unit :=
  let* b := get_state in
  do* lift (check_active b);
  if max_items b - visited_items b <? count then
    budget_fail "Expression evaluation exceeded the visited-item limit."
  else update (set_visited_items (visited_items b + count)).

Definition reserve_generated_bytes (count : N) : budgeted unit :=
  let* b := get_state in
  do* lift (check_active b);
  if max_generated_bytes b - generated_bytes b <? count then
    budget_fail "Expression evaluation exceeded the generated-byte limit."
  else update (set_generated_bytes (generated_bytes b + count)).

Definition reserve_materialized_bytes (count : N) : budgeted unit :=
  let* b := get_state in
  do* lift (check_active b);
  if max_materialized_bytes b - materialized_bytes b <? count then
    budget_fail "Expression evaluation exceeded the materialized-byte limit."
  else update (set_materialized_bytes (materialized_bytes b + count)).

Definition validate_for_resume (b : EvaluationBudget) : result unit EvaluationError :=
  let? _ := check_active b in
  if negb (bool_decide (limits b = EvaluationLimits_default))
     || negb (max_items b =? DEFAULT_MAX_EVALUATION_ITEMS)
     || negb (max_generated_bytes b =? DEFAULT_MAX_GENERATED_BYTES)
     || negb (max_materialized_bytes b =? DEFAULT_MAX_MATERIALIZED_BYTES)
  then Err (limit_error "Saved evaluation limits are incompatible.")
  else Ok tt.

(** ** The saved form

    [SavedBudget] has the fields of the budget, which the derived [Serialize]
    writes and the derived inner [Deserialize] reads; [restore] is the rest of
    the hand-written [deserialize]. *)
Record SavedBudget := {
  saved_limits : EvaluationLimits;
  saved_max_items : N;
  saved_max_generated_bytes : N;
  saved_max_materialized_bytes : N;
  saved_steps : N;
  saved_visited_items : N;
  saved_generated_bytes : N;
  saved_materialized_bytes : N;
  saved_exhausted : bool
}.

Definition save (b : EvaluationBudget) : SavedBudget :=
  {| saved_limits := limits b; saved_max_items := max_items b;
     saved_max_generated_bytes := max_generated_bytes b;
     saved_max_materialized_bytes := max_materialized_bytes b;
     saved_steps := steps b; saved_visited_items := visited_items b;
     saved_generated_bytes := generated_bytes b;
     saved_materialized_bytes := materialized_bytes b;
     saved_exhausted := exhausted b |}.

Definition restore (s : SavedBudget) : result EvaluationBudget string :=
  if (DEFAULT_MAX_EVALUATION_DEPTH <? max_depth (saved_limits s))
     || (DEFAULT_MAX_EVALUATION_STEPS <? max_steps (saved_limits s))
     || (DEFAULT_MAX_EVALUATION_ITEMS <? saved_max_items s)
     || (DEFAULT_MAX_GENERATED_BYTES <? saved_max_generated_bytes s)
     || (DEFAULT_MAX_MATERIALIZED_BYTES <? saved_max_materialized_bytes s)
     || (max_steps (saved_limits s) <? saved_steps s)
     || (saved_max_items s <? saved_visited_items s)
     || (saved_max_generated_bytes s <? saved_generated_bytes s)
     || (saved_max_materialized_bytes s <? saved_materialized_bytes s)
  then Err "Invalid saved evaluation counters."
  else Ok {| limits := saved_limits s; max_items := saved_max_items s;
             max_generated_bytes := saved_max_generated_bytes s;
             max_materialized_bytes := saved_max_materialized_bytes s;
             steps := saved_steps s; visited_items := saved_visited_items s;
             generated_bytes := saved_generated_bytes s;
             materialized_bytes := saved_materialized_bytes s;
             exhausted := saved_exhausted s |}.

(** ** Charges, as data

    One charge of each method; a run of charges stops at the first failure. *)
Inductive Charge :=
| CStep (depth : N)
| CItems (count : N)
| CGenerated (count : N)
| CMaterialized (count : N).

Definition charge (c : Charge) : budgeted unit :=
  match c with
  | CStep depth => step depth
  | CItems count => visit_items count
  | CGenerated count => reserve_generated_bytes count
  | CMaterialized count => reserve_materialized_bytes count
  end.

Definition charge_all (cs : list Charge) : budgeted unit :=
  foldM (λ _ c, charge c) cs tt.

(** ** Specification *)

(** Every counter is within its bound. *)
Definition budget_ok (b : EvaluationBudget) : bool :=
  (steps b <=? max_steps (limits b)) && (visited_items b <=? max_items b) &&
  (generated_bytes b <=? max_generated_bytes b) &&
  (materialized_bytes b <=? max_materialized_bytes b).

(** The bounds of production. *)
Definition within_defaults (b : EvaluationBudget) : bool :=
  (max_depth (limits b) <=? DEFAULT_MAX_EVALUATION_DEPTH) &&
  (max_steps (limits b) <=? DEFAULT_MAX_EVALUATION_STEPS) &&
  (max_items b <=? DEFAULT_MAX_EVALUATION_ITEMS) &&
  (max_generated_bytes b <=? DEFAULT_MAX_GENERATED_BYTES) &&
  (max_materialized_bytes b <=? DEFAULT_MAX_MATERIALIZED_BYTES).

(** [b'] is a later state of [b]: the bounds are the same, no counter went
    back, and an exhausted budget is unchanged. *)
Record budget_le (b b' : EvaluationBudget) : Prop := {
  le_limits : limits b' = limits b;
  le_max_items : max_items b' = max_items b;
  le_max_generated : max_generated_bytes b' = max_generated_bytes b;
  le_max_materialized : max_materialized_bytes b' = max_materialized_bytes b;
  le_steps : steps b ≤ steps b';
  le_visited : visited_items b ≤ visited_items b';
  le_generated : generated_bytes b ≤ generated_bytes b';
  le_materialized : materialized_bytes b ≤ materialized_bytes b';
  le_exhausted : exhausted b = true → b' = b
}.

(** What a run of charges takes from each counter, and the deepest step. *)
Definition total_steps (cs : list Charge) : N :=
  foldr (λ c n, match c with CStep _ => n + 1 | _ => n end) 0 cs.
Definition deepest (cs : list Charge) : N :=
  foldr (λ c n, match c with CStep d => N.max d n | _ => n end) 0 cs.
Definition total_items (cs : list Charge) : N :=
  foldr (λ c n, match c with CItems k => n + k | _ => n end) 0 cs.
Definition total_generated (cs : list Charge) : N :=
  foldr (λ c n, match c with CGenerated k => n + k | _ => n end) 0 cs.
Definition total_materialized (cs : list Charge) : N :=
  foldr (λ c n, match c with CMaterialized k => n + k | _ => n end) 0 cs.

(** The run fits in what the budget has left. *)
Definition affordable (b : EvaluationBudget) (cs : list Charge) : bool :=
  (deepest cs <=? max_depth (limits b)) &&
  (steps b + total_steps cs <=? max_steps (limits b)) &&
  (visited_items b + total_items cs <=? max_items b) &&
  (generated_bytes b + total_generated cs <=? max_generated_bytes b) &&
  (materialized_bytes b + total_materialized cs <=? max_materialized_bytes b).

Definition spend (cs : list Charge) (b : EvaluationBudget) : EvaluationBudget :=
  {| limits := limits b; max_items := max_items b;
     max_generated_bytes := max_generated_bytes b;
     max_materialized_bytes := max_materialized_bytes b;
     steps := steps b + total_steps cs;
     visited_items := visited_items b + total_items cs;
     generated_bytes := generated_bytes b + total_generated cs;
     materialized_bytes := materialized_bytes b + total_materialized cs;
     exhausted := exhausted b |}.

(** ** The rules the other components use *)

#[export] Instance budget_le_preorder : PreOrder budget_le.
Proof.
  split.
  - intros b. by split.
  - intros a b c [] []. split; try congruence; try lia.
    intros Ha. specialize (le_exhausted0 Ha). subst b. auto.
Qed.

(** An active budget with counters in bounds; and how a failing operation
    leaves it: a limit error and an exhausted budget, or an error of the context
    and a budget that is still active. *)
Definition budget_live (b : EvaluationBudget) : Prop :=
  budget_ok b = true ∧ exhausted b = false.
Definition budget_stop (e : EvaluationError) (b : EvaluationBudget) : Prop :=
  budget_ok b = true ∧
  ((code e = EvaluationLimitExceeded ∧ exhausted b = true) ∨
   (code e = RuntimeInvalidContext ∧ exhausted b = false)).

Definition budget_safe {A} (Q : A → Prop) (m : budgeted A) : Prop :=
  safe budget_live budget_le budget_stop Q m.

Create HintDb budget discriminated.

Lemma set_exhausted_le b : exhausted b = false → budget_le b (set_exhausted b).
Proof. intros Hb. split; simpl; first [done|lia|congruence]. Qed.

(** One charge: the failing branches exhaust the budget, the last one moves a
    counter within its bound. *)
Ltac charge_safe f :=
  intros b [Hok Hact]; unfold f, bind, get_state, lift, check_active; simpl;
  rewrite Hact; simpl; unfold budget_ok in Hok;
  repeat (case_match; simpl; [split; [by apply set_exhausted_le|split; auto]|]);
  split; [split; simpl; first [done|lia|congruence]|];
  split; [split; [unfold budget_ok; simpl; lia|done]|exact I].

Lemma step_safe depth : budget_safe any (step depth).
Proof. charge_safe step. Qed.
Lemma visit_items_safe count : budget_safe any (visit_items count).
Proof. charge_safe visit_items. Qed.
Lemma reserve_generated_bytes_safe count : budget_safe any (reserve_generated_bytes count).
Proof. charge_safe reserve_generated_bytes. Qed.
Lemma reserve_materialized_bytes_safe count : budget_safe any (reserve_materialized_bytes count).
Proof. charge_safe reserve_materialized_bytes. Qed.

#[export] Hint Resolve step_safe visit_items_safe reserve_generated_bytes_safe
  reserve_materialized_bytes_safe : budget.

(** ** Runs of charges *)

Lemma charge_safe c : budget_safe any (charge c).
Proof. destruct c; simpl; auto with budget. Qed.

Lemma charge_all_safe cs : budget_safe any (charge_all cs).
Proof. apply safe_foldM; [apply _| |exact I]. intros [] c _ _. apply charge_safe. Qed.

(** One charge succeeds exactly when it is affordable, and takes what it says. *)
Lemma charge_spec b c :
  budget_live b →
  ((charge c b).1 = Ok tt ∧ (charge c b).2 = spend [c] b ∧ affordable b [c] = true)
  ∨ (is_ok (charge c b).1 = false ∧ affordable b [c] = false).
Proof.
  intros [Hok Hact]. unfold budget_ok in Hok.
  destruct c as [d|k|k|k]; simpl;
    unfold step, visit_items, reserve_generated_bytes, reserve_materialized_bytes,
      bind, get_state, lift, check_active, affordable; simpl; rewrite Hact; simpl;
    repeat case_match; simpl;
    try (right; split; [done|lia]).
  all: left; split_and!; [done| |lia].
  all: unfold spend, set_steps, set_visited_items, set_generated_bytes, set_materialized_bytes;
    simpl; f_equal; lia.
Qed.

Lemma spend_live b c : budget_live b → affordable b [c] = true → budget_live (spend [c] b).
Proof.
  intros [Hok Hact] Ha. unfold affordable in Ha. split; [|exact Hact].
  unfold budget_ok. destruct c; simpl in *; lia.
Qed.

Lemma charges_affordable_cons b c cs :
  affordable b (c :: cs) = affordable b [c] && affordable (spend [c] b) cs.
Proof. unfold affordable. destruct c; simpl; lia. Qed.

Lemma spend_cons b c cs : spend cs (spend [c] b) = spend (c :: cs) b.
Proof. unfold spend. destruct c; simpl; f_equal; lia. Qed.

(** The refinement of a run by its totals. *)
Lemma charge_all_spec cs b :
  budget_live b →
  if affordable b cs
  then charge_all cs b = (Ok tt, spend cs b)
  else is_ok (charge_all cs b).1 = false.
Proof.
  revert b. induction cs as [|c cs IH]; intros b Hb.
  { destruct Hb as [Hok _]. unfold budget_ok in Hok. unfold affordable. simpl.
    match goal with |- if ?c then _ else _ => destruct c eqn:E; [clear E|lia] end.
    unfold charge_all, spend. simpl. unfold ret. f_equal. destruct b; simpl; f_equal; lia. }
  rewrite charges_affordable_cons. unfold charge_all. cbn [foldM]. unfold bind at 1 2.
  destruct (charge_spec b c Hb) as [(H1 & H2 & H3)|(H1 & H2)].
  - specialize (IH (spend [c] b) (spend_live b c Hb H3)).
    rewrite H3. destruct (charge c b) as [r b']. simpl in *. subst. simpl.
    rewrite <- (spend_cons b c cs). exact IH.
  - rewrite H2. destruct (charge c b) as [[|e] b']; [done|]. done.
Qed.

Lemma charges_affordable_perm b cs cs' : cs ≡ₚ cs' → affordable b cs = affordable b cs'.
Proof.
  intros Hp. unfold affordable.
  assert (deepest cs = deepest cs' ∧ total_steps cs = total_steps cs' ∧
          total_items cs = total_items cs' ∧ total_generated cs = total_generated cs' ∧
          total_materialized cs = total_materialized cs') as (-> & -> & -> & -> & ->).
  { induction Hp as [|x l l' _ IH|x y l|l1 l2 l3 _ IH1 _ IH2]; [done| | |];
      destruct_and?; split_and!; try congruence.
    all: destruct x; try destruct y; simpl in *; lia. }
  done.
Qed.

(** ** Automation: a computation made of charges is safe *)

Lemma budget_ret_safe {A} (a : A) : budget_safe any (ret a).
Proof. apply safe_ret; [apply _|exact I]. Qed.

Lemma budget_invalid_safe {A} (Q : A → Prop) msg : budget_safe Q (fail (invalid_error msg)).
Proof.
  apply safe_fail; [apply _|]. intros b [Hok Hact]. split; [exact Hok|]. right. by split.
Qed.

Lemma budget_bind_safe {A B} (Q : B → Prop) (m : budgeted A) (f : A → budgeted B) :
  budget_safe any m → (∀ a, budget_safe Q (f a)) → budget_safe Q (bind m f).
Proof. intros Hm Hf. apply (safe_bind _ _ _ any Q _ _ Hm). intros a _. apply Hf. Qed.

Lemma budget_foldM_safe {A X} (f : A → X → budgeted A) xs acc :
  (∀ a x, In x xs → budget_safe any (f a x)) → budget_safe any (foldM f xs acc).
Proof. intros Hf. apply safe_foldM; [apply _| |exact I]. intros a x Hx _. by apply Hf. Qed.

#[export] Hint Resolve budget_ret_safe budget_invalid_safe : budget.

(** Walks a computation: binds, folds, case distinctions, and calls known to be
    safe. *)
Ltac budget_walk :=
  repeat first
    [ assumption
    | solve [auto with budget nocore]
    | apply budget_bind_safe; [|intro]
    | apply budget_foldM_safe; intros
    | case_match ].

(** ** Properties *)

(** A run of charges on an active budget succeeds exactly when its totals
    fit in what is left of every limit and no step is too deep; it then moves
    each counter by its total, and nothing else. *)
Theorem charge_all_affordable b cs :
  budget_live b →
  if affordable b cs
  then charge_all cs b = (Ok tt, spend cs b)
  else is_ok (charge_all cs b).1 = false.
Proof. apply charge_all_spec. Qed.

Lemma charge_all_affordable_witness :
  budget_live EvaluationBudget_default ∧
  (charge_all [CStep 32; CItems 1000; CGenerated 5] EvaluationBudget_default).1 = Ok tt.
Proof.
  assert (budget_live EvaluationBudget_default) as Hb by done.
  split; [done|].
  pose proof (charge_all_affordable EvaluationBudget_default
                [CStep 32; CItems 1000; CGenerated 5] Hb) as Hc.
  replace (affordable _ _) with true in Hc by reflexivity. by rewrite Hc.
Defined.

(** Whether a run of charges succeeds does not depend on the order of the
    charges, and neither do the counters it ends with. *)
Theorem charge_order_irrelevant b cs cs' :
  budget_live b → cs ≡ₚ cs' → is_ok (charge_all cs b).1 = is_ok (charge_all cs' b).1.
Proof.
  intros Hb Hp. pose proof (charge_all_spec cs b Hb) as H1.
  pose proof (charge_all_spec cs' b Hb) as H2. rewrite (charges_affordable_perm b cs cs' Hp) in H1.
  destruct (affordable b cs'); [by rewrite H1, H2|congruence].
Qed.

Lemma charge_order_irrelevant_witness :
  is_ok (charge_all [CItems 600; CItems 300] EvaluationBudget_default).1 =
  is_ok (charge_all [CItems 300; CItems 600] EvaluationBudget_default).1.
Proof.
  apply (charge_order_irrelevant EvaluationBudget_default [CItems 600; CItems 300]
           [CItems 300; CItems 600]); [done|apply perm_swap].
Defined.

(** Exhaustion is final: a run of charges that fails leaves the budget
    exhausted with its counters in bounds, and every later charge fails with a
    limit error and changes nothing. *)
Theorem exhaustion_is_final b cs e b' c :
  budget_live b → charge_all cs b = (Err e, b') →
  code e = EvaluationLimitExceeded ∧ exhausted b' = true ∧ budget_ok b' = true ∧
  ∃ e', charge c b' = (Err e', b') ∧ code e' = EvaluationLimitExceeded.
Proof.
  intros Hb Hrun.
  assert (∀ c b0, budget_live b0 → ∀ e0 b1, charge c b0 = (Err e0, b1) →
    code e0 = EvaluationLimitExceeded ∧ exhausted b1 = true ∧ budget_ok b1 = true) as Hone.
  { clear. intros c b [Hok Hact] e0 b1.
    destruct c; simpl; unfold step, visit_items, reserve_generated_bytes,
      reserve_materialized_bytes, bind, get_state, lift, check_active; simpl;
      rewrite Hact; simpl; repeat case_match; intros [= <- <-]; by split. }
  assert (code e = EvaluationLimitExceeded ∧ exhausted b' = true ∧ budget_ok b' = true)
    as (H1 & H2 & H3).
  { revert b Hb Hrun. induction cs as [|c0 cs IH]; intros b Hb; [by intros [=]|].
    unfold charge_all. cbn [foldM]. unfold bind.
    destruct (charge_safe c0 b Hb) as [_ Hs].
    destruct (charge c0 b) as [[[]|e0] b0] eqn:Ec; simpl in Hs.
    - apply IH. apply Hs.
    - intros [= -> ->]. by apply (Hone c0 b). }
  split_and!; try done.
  assert (check_active b' = Err (limit_error "The shared evaluation budget is exhausted."))
    as Hca by (unfold check_active; by rewrite H2).
  exists (limit_error "The shared evaluation budget is exhausted."). split; [|done].
  destruct c; simpl; unfold step, visit_items, reserve_generated_bytes,
    reserve_materialized_bytes, bind, get_state, lift; simpl; by rewrite Hca.
Qed.

Lemma exhaustion_is_final_witness :
  ∃ e b', charge_all [CStep 33] EvaluationBudget_default = (Err e, b') ∧
          ∃ e', charge (CItems 0) b' = (Err e', b').
Proof.
  eexists _, _. split; [reflexivity|].
  destruct (exhaustion_is_final EvaluationBudget_default [CStep 33] _ _ (CItems 0)
              ltac:(done) eq_refl) as (_ & _ & _ & e' & He & _).
  by exists e'.
Defined.

(** A budget survives saving and restoring exactly when its counters are in
    bounds and its limits do not exceed those of production; whatever restores
    from a saved record is such a budget. *)
Theorem budget_save_restore :
  (∀ b, budget_ok b && within_defaults b = true ↔ restore (save b) = Ok b) ∧
  (∀ s b, restore s = Ok b → save b = s ∧ budget_ok b && within_defaults b = true).
Proof.
  split.
  - intros b. unfold restore, budget_ok, within_defaults. destruct b. simpl. split.
    + intros Hb. match goal with |- (if ?c then _ else _) = _ => destruct c eqn:E end; [lia|done].
    + match goal with |- (if ?c then _ else _) = _ → _ => destruct c eqn:E end; [done|]. lia.
  - intros s b. unfold restore. match goal with |- (if ?c then _ else _) = _ → _ => destruct c eqn:E end;
      [done|]. intros [= <-]. unfold save, budget_ok, within_defaults. simpl.
    split; [by destruct s|lia].
Qed.
