(* ===== verification/Decimal.v ===== *)
(** * Decimal numbers (crates/antiburn-checks/src/expression_eval.rs, [DecimalNumber])

    Numbers of expressions are compared on their exact decimal text: a sign,
    digits without leading or trailing zeros, and a power of ten.  [i64]
    arithmetic saturates, as in the source.  The facts below relate [cmp] and
    [integral_index] to the rational value of a number. *)

From S2P Require Import Prelude RustString Json.

#[local] Open Scope Z_scope.

Record DecimalNumber := {
  negative : bool;
  digits : list N;
  scale : Z
}.

#[export] Instance DecimalNumber_eq_dec : EqDecision DecimalNumber.
Proof. solve_decision. Defined.

(** [number.checked_mul(10)?.checked_add(digit)?] over a digit string, for a
    type with the given largest value. *)
Fixpoint checked_digits (max : Z) (ds : list N) (acc : Z) : option Z :=
  match ds with
  | [] => Some acc
  | d :: ds =>
      let next := acc * 10 + Z.of_N d in
      if (acc * 10 <=? max) && (next <=? max) then checked_digits max ds next else None
  end.

Definition digit_bytes (s : string) : list N :=
  (λ a, byte_of a - 48)%N <$> list_ascii_of_string s.

Definition is_sign (a : ascii) : bool := Ascii.eqb a "-" || Ascii.eqb a "+".

(** [s.strip_prefix(['-', '+']).unwrap_or(s)] *)
Definition strip_sign (s : string) : string :=
  match s with String a t => if is_sign a then t else s | "" => s end.

Definition starts_with_minus (s : string) : bool :=
  match s with String a _ => Ascii.eqb a "-" | "" => false end.

Definition all_digits (s : string) : bool := str_all is_ascii_digit s.

(** [s.parse::<i64>().ok()] *)
Definition parse_i64 (s : string) : option Z :=
  let t := strip_sign s in
  if String.eqb t "" || negb (all_digits t) then None
  else if starts_with_minus s
  then Z.opp <$> checked_digits (- I64_MIN) (digit_bytes t) 0
  else checked_digits I64_MAX (digit_bytes t) 0.

Definition parse_exponent (source : string) : option Z :=
  if String.eqb source "" then None
  else match parse_i64 source with
       | Some e => Some e
       | None =>
           let ds := strip_sign source in
           if String.eqb ds "" || negb (all_digits ds) then None
           else if starts_with_minus source then Some I64_MIN
           else Some I64_MAX
       end.

(** The text before the first byte of [set] and, if there is one, the text
    after it. *)
Definition split_once (set : list ascii) (s : string) : string * option string :=
  match str_span (λ a, negb (existsb (Ascii.eqb a) set)) s with
  | (before, "") => (before, None)
  | (before, String _ after) => (before, Some after)
  end.

Fixpoint skip_zeros (ds : list N) : list N :=
  match ds with
  | 0%N :: ds => skip_zeros ds
  | _ => ds
  end.

(** [while digits.len() > 1 && digits.last() == Some(&0)], on the reversed
    digits. *)
Fixpoint trim_zeros (rev_digits : list N) (scale : Z) : list N * Z :=
  match rev_digits with
  | 0%N :: ((_ :: _) as ds) => trim_zeros ds (sat_sub_i64 scale 1)
  | _ => (rev_digits, scale)
  end.

Definition zero_number : DecimalNumber := {| negative := false; digits := [0%N]; scale := 0 |}.

(** From the digits of the integer and the fraction on. *)
Definition normalize (neg : bool) (integer fraction : list N) (exponent : Z) : DecimalNumber :=
  match skip_zeros (integer ++ fraction) with
  | [] => zero_number
  | ds =>
      let scale := sat_sub_i64 (i64_of_usize (N.of_nat (length fraction))) exponent in
      let '(rev_digits, scale) := trim_zeros (rev ds) scale in
      {| negative := neg; digits := rev rev_digits; scale := scale |}
  end.

(** [DecimalNumber::parse] *)
Definition DecimalNumber_parse (source : string) : option DecimalNumber :=
  let '(mantissa, exponent_text) := split_once ["e"; "E"]%char source in
  exponent ← match exponent_text with Some t => parse_exponent t | None => Some 0 end;
  let '(integer, fraction) := split_once ["."%char] (strip_sign mantissa) in
  let fraction := default "" fraction in
  if String.eqb integer "" || negb (all_digits integer) || negb (all_digits fraction)
  then None
  else Some (normalize (starts_with_minus mantissa) (digit_bytes integer)
               (digit_bytes fraction) exponent).

Definition is_zero (d : DecimalNumber) : bool := bool_decide (digits d = [0%N]).

Definition order (d : DecimalNumber) : Z :=
  sat_sub_i64 (i64_of_usize (N.of_nat (length (digits d)))) (scale d).

(** Lexicographic comparison with missing digits read as zero. *)
Fixpoint compare_digits (n : nat) (a b : list N) : comparison :=
  match n with
  | O => Eq
  | S n =>
      match (hd 0 a ?= hd 0 b)%N with
      | Eq => compare_digits n (tl a) (tl b)
      | c => c
      end
  end.

Definition then_with (c d : comparison) : comparison :=
  match c with Eq => d | _ => c end.

(** [Ord::cmp] *)
Definition decimal_cmp (a b : DecimalNumber) : comparison :=
  match is_zero a, is_zero b with
  | true, true => Eq
  | true, false => if negative b then Gt else Lt
  | false, true => if negative a then Lt else Gt
  | false, false =>
      if negb (Bool.eqb (negative a) (negative b)) then
        if negative a then Lt else Gt
      else
        let magnitude :=
          then_with (order a ?= order b)
            (compare_digits (Nat.max (length (digits a)) (length (digits b)))
               (digits a) (digits b)) in
        if negative a then CompOpp magnitude else magnitude
  end.

Section numbers.
Context `{SerdeNumber}.

Definition decimal_value (n : Number) : option DecimalNumber :=
  DecimalNumber_parse (number_to_string n).

(** [usize::MAX.to_string().len()] *)
Definition USIZE_MAX_DIGITS : Z := 20.

(** The body of [integral_index] after the conversion. *)
Definition decimal_index (d : DecimalNumber) : option N :=
  if negative d || (0 <? scale d) then None
  else if scale d =? I64_MIN then None
  else
    let zeros := - scale d in
    if USIZE_MAX_DIGITS <? Z.of_nat (length (digits d)) + zeros then None
    else Z.to_N <$> checked_digits (Z.of_N USIZE_MAX)
                      (digits d ++ repeat 0%N (Z.to_nat zeros)) 0.

Definition integral_index (n : Number) : option N :=
  d ← decimal_value n; decimal_index d.
End numbers.

(** ** Specification: the rational value *)

Definition digits_value (ds : list N) : Z :=
  fold_left (λ acc d, acc * 10 + Z.of_N d) ds 0.

(** The number is [signed_digits d * 10 ^ (- scale d)]. *)
Definition signed_digits (d : DecimalNumber) : Z :=
  if negative d then - digits_value (digits d) else digits_value (digits d).

Definition compare_values (a b : DecimalNumber) : comparison :=
  let m := Z.max (scale a) (scale b) in
  (signed_digits a * 10 ^ (m - scale a) ?= signed_digits b * 10 ^ (m - scale b)).

Definition digit_ok (d : N) : Prop := (d < 10)%N.

(** Normal forms: zero, or digits that neither start nor end with a zero. *)
Definition normal (d : DecimalNumber) : Prop :=
  d = zero_number ∨
  (Forall digit_ok (digits d) ∧ digits d ≠ [] ∧
   hd 0%N (digits d) ≠ 0%N ∧ List.last (digits d) 0%N ≠ 0%N).

(** Far from the saturation of [i64]. *)
Definition unsaturated (d : DecimalNumber) : Prop :=
  Z.abs (scale d) ≤ 2 ^ 62 ∧ Z.of_nat (length (digits d)) < 2 ^ 62.

(** ** Digit strings *)

Lemma fold_digits ds acc :
  fold_left (λ acc d, acc * 10 + Z.of_N d) ds acc =
  acc * 10 ^ Z.of_nat (length ds) + digits_value ds.
Proof.
  unfold digits_value. revert acc. induction ds as [|d ds IH]; intros acc; [simpl; lia|].
  cbn [fold_left length]. rewrite (IH (acc * 10 + Z.of_N d)), (IH (0 * 10 + Z.of_N d)).
  replace (Z.of_nat (S (length ds))) with (Z.of_nat (length ds) + 1) by lia.
  rewrite Z.pow_add_r by lia. ring.
Qed.

Lemma digits_value_cons d ds :
  digits_value (d :: ds) = Z.of_N d * 10 ^ Z.of_nat (length ds) + digits_value ds.
Proof. unfold digits_value at 1. simpl. by rewrite fold_digits. Qed.

Lemma digits_value_app a b :
  digits_value (a ++ b) = digits_value a * 10 ^ Z.of_nat (length b) + digits_value b.
Proof. unfold digits_value at 1. by rewrite fold_left_app, fold_digits. Qed.

Lemma digits_value_bounds ds :
  Forall digit_ok ds → 0 ≤ digits_value ds < 10 ^ Z.of_nat (length ds).
Proof.
  induction 1 as [|d ds Hd _ IH]; [done|].
  rewrite digits_value_cons. cbn [length]. unfold digit_ok in Hd.
  replace (Z.of_nat (S (length ds))) with (Z.of_nat (length ds) + 1) by lia.
  rewrite Z.pow_add_r by lia. nia.
Qed.

Lemma digits_value_head ds :
  Forall digit_ok ds → ds ≠ [] → hd 0%N ds ≠ 0%N →
  10 ^ (Z.of_nat (length ds) - 1) ≤ digits_value ds.
Proof.
  destruct 1 as [|d ds Hd Hds]; [done|]. simpl. intros _ Hnz.
  rewrite digits_value_cons. pose proof (digits_value_bounds _ Hds).
  replace (Z.of_nat (S (length ds)) - 1) with (Z.of_nat (length ds)) by lia. nia.
Qed.

Lemma digits_value_zeros n : digits_value (repeat 0%N n) = 0.
Proof. induction n as [|n IH]; [done|]. simpl. rewrite digits_value_cons, IH. lia. Qed.

Lemma checked_digits_spec max ds acc :
  0 ≤ acc ≤ max →
  let v := acc * 10 ^ Z.of_nat (length ds) + digits_value ds in
  checked_digits max ds acc = if v <=? max then Some v else None.
Proof.
  cbv zeta. revert acc. induction ds as [|d ds IH]; intros acc Hacc.
  { unfold digits_value. simpl. replace (acc * 10 ^ Z.of_nat 0 + 0) with acc by lia.
    destruct (Z.leb_spec acc max); [done|lia]. }
  cbn [checked_digits length]. rewrite digits_value_cons.
  assert (0 < 10 ^ Z.of_nat (length ds)) by lia.
  assert (0 ≤ digits_value ds).
  { unfold digits_value. clear. assert (∀ a, 0 ≤ a →
      0 ≤ fold_left (λ acc d, acc * 10 + Z.of_N d) ds a) as Hx; [|by apply Hx].
    induction ds as [|x ds IH]; intros a Ha; [done|]. apply IH. lia. }
  replace (Z.of_nat (S (length ds))) with (Z.of_nat (length ds) + 1) by lia.
  rewrite Z.pow_add_r by lia. rewrite Z.pow_1_r.
  replace (acc * (10 ^ Z.of_nat (length ds) * 10) +
           (Z.of_N d * 10 ^ Z.of_nat (length ds) + digits_value ds))
    with ((acc * 10 + Z.of_N d) * 10 ^ Z.of_nat (length ds) + digits_value ds) by ring.
  destruct ((acc * 10 <=? max) && (acc * 10 + Z.of_N d <=? max)) eqn:E.
  - apply IH. lia.
  - destruct (Z.leb_spec ((acc * 10 + Z.of_N d) * 10 ^ Z.of_nat (length ds) + digits_value ds) max);
      [|done]. nia.
Qed.

(** ** Comparison *)

(** The value of the first [n] digits, missing ones read as zero. *)
Definition padded (n : nat) (ds : list N) : Z :=
  digits_value ds * 10 ^ (Z.of_nat n - Z.of_nat (length ds)).

Lemma padded_bounds n ds :
  Forall digit_ok ds → (length ds ≤ n)%nat → 0 ≤ padded n ds < 10 ^ Z.of_nat n.
Proof.
  intros H%digits_value_bounds Hlen. unfold padded.
  replace (10 ^ Z.of_nat n) with
    (10 ^ Z.of_nat (length ds) * 10 ^ (Z.of_nat n - Z.of_nat (length ds)))
    by (rewrite <- Z.pow_add_r by lia; f_equal; lia).
  assert (0 < 10 ^ (Z.of_nat n - Z.of_nat (length ds))) by (apply Z.pow_pos_nonneg; lia).
  nia.
Qed.

Lemma padded_S n ds :
  (length ds ≤ S n)%nat →
  padded (S n) ds = Z.of_N (hd 0%N ds) * 10 ^ Z.of_nat n + padded n (tl ds).
Proof.
  intros Hlen. unfold padded. destruct ds as [|d ds]; simpl hd; simpl tl.
  { unfold digits_value. simpl. lia. }
  rewrite digits_value_cons. cbn [length] in *.
  replace (Z.of_nat (S n) - Z.of_nat (S (length ds)))
    with (Z.of_nat n - Z.of_nat (length ds)) by lia.
  replace (10 ^ Z.of_nat n) with
    (10 ^ Z.of_nat (length ds) * 10 ^ (Z.of_nat n - Z.of_nat (length ds)))
    by (rewrite <- Z.pow_add_r by lia; f_equal; lia).
  ring.
Qed.

Lemma compare_digits_padded n a b :
  Forall digit_ok a → Forall digit_ok b → (length a ≤ n)%nat → (length b ≤ n)%nat →
  compare_digits n a b = (padded n a ?= padded n b).
Proof.
  revert a b. induction n as [|n IH]; intros a b Ha Hb Hla Hlb.
  { destruct a, b; simpl in *; try lia. done. }
  rewrite !padded_S by done. cbn [compare_digits].
  assert (Forall digit_ok (tl a)) as Hta by (destruct Ha; [constructor|done]).
  assert (Forall digit_ok (tl b)) as Htb by (destruct Hb; [constructor|done]).
  assert (length (tl a) ≤ n)%nat as Hlta by (destruct a; simpl in *; lia).
  assert (length (tl b) ≤ n)%nat as Hltb by (destruct b; simpl in *; lia).
  pose proof (padded_bounds n _ Hta Hlta). pose proof (padded_bounds n _ Htb Hltb).
  destruct (N.compare_spec (hd 0%N a) (hd 0%N b)) as [->|Hlt|Hgt].
  - rewrite IH by done. rewrite Z.add_compare_mono_l. done.
  - symmetry. apply Z.compare_lt_iff. nia.
  - symmetry. apply Z.compare_gt_iff. nia.
Qed.

Lemma compare_scale a b k : 0 < k → (a * k ?= b * k) = (a ?= b).
Proof.
  intros Hk. destruct (Z.compare_spec a b) as [->|Hl|Hg].
  - apply Z.compare_refl.
  - apply Z.compare_lt_iff. nia.
  - apply Z.compare_gt_iff. nia.
Qed.

Lemma order_unsaturated d :
  unsaturated d → order d = Z.of_nat (length (digits d)) - scale d.
Proof.
  intros [H1 H2]. unfold order, sat_sub_i64, i64_of_usize, I64_MAX, I64_MIN. lia.
Qed.

(** Magnitudes: [D * 10 ^ (m - s)] for digits with the given order. *)
Lemma magnitude_compare da sa db sb m :
  Forall digit_ok da → Forall digit_ok db → da ≠ [] → db ≠ [] →
  hd 0%N da ≠ 0%N → hd 0%N db ≠ 0%N → sa ≤ m → sb ≤ m →
  then_with (Z.of_nat (length da) - sa ?= Z.of_nat (length db) - sb)
    (compare_digits (Nat.max (length da) (length db)) da db) =
  (digits_value da * 10 ^ (m - sa) ?= digits_value db * 10 ^ (m - sb)).
Proof.
  intros Ha Hb Hna Hnb Hha Hhb Hsa Hsb.
  pose proof (digits_value_bounds da Ha) as [_ Hua].
  pose proof (digits_value_bounds db Hb) as [_ Hub].
  pose proof (digits_value_head da Ha Hna Hha) as Hla.
  pose proof (digits_value_head db Hb Hnb Hhb) as Hlb.
  assert (0 < Z.of_nat (length da) ∧ 0 < Z.of_nat (length db)) as [Hpa Hpb]
    by (destruct da, db; cbn [length]; first [congruence|lia]).
  assert (0 < 10 ^ (m - sa)) by (apply Z.pow_pos_nonneg; lia).
  assert (0 < 10 ^ (m - sb)) by (apply Z.pow_pos_nonneg; lia).
  assert (∀ x y, 0 ≤ x → 0 ≤ y → 10 ^ x * 10 ^ y = 10 ^ (x + y)) as Hpow
    by (intros; by rewrite Z.pow_add_r).
  destruct (Z.compare_spec (Z.of_nat (length da) - sa) (Z.of_nat (length db) - sb))
    as [Heq|Hlt|Hgt]; simpl.
  - rewrite compare_digits_padded by first [done|lia]. unfold padded.
    set (n := Z.of_nat (Nat.max (length da) (length db))).
    set (p := Z.of_nat (length da) - sa) in *.
    rewrite <- (compare_scale (digits_value da * 10 ^ (m - sa))
                 (digits_value db * 10 ^ (m - sb)) (10 ^ n)) by lia.
    rewrite <- (compare_scale (digits_value da * 10 ^ (n - _))
                 (digits_value db * 10 ^ (n - _)) (10 ^ (m + p))) by (apply Z.pow_pos_nonneg; lia).
    rewrite <- !Z.mul_assoc, !Hpow by lia.
    f_equal; f_equal; f_equal; lia.
  - symmetry. apply Z.compare_lt_iff.
    assert (10 ^ Z.of_nat (length da) * 10 ^ (m - sa)
            ≤ 10 ^ (Z.of_nat (length db) - 1) * 10 ^ (m - sb)).
    { rewrite !Hpow by lia. apply Z.pow_le_mono_r; lia. }
    nia.
  - symmetry. apply Z.compare_gt_iff.
    assert (10 ^ Z.of_nat (length db) * 10 ^ (m - sb)
            ≤ 10 ^ (Z.of_nat (length da) - 1) * 10 ^ (m - sa)).
    { rewrite !Hpow by lia. apply Z.pow_le_mono_r; lia. }
    nia.
Qed.

Lemma is_zero_normal d : normal d → is_zero d = true → d = zero_number.
Proof.
  unfold is_zero. intros [->|(_ & _ & Hh & _)] Hz%bool_decide_eq_true; [done|].
  by rewrite Hz in Hh.
Qed.

Lemma not_zero_normal d :
  normal d → is_zero d = false →
  Forall digit_ok (digits d) ∧ digits d ≠ [] ∧ hd 0%N (digits d) ≠ 0%N ∧
  List.last (digits d) 0%N ≠ 0%N ∧ 0 < digits_value (digits d).
Proof.
  intros [->|(H1 & H2 & H3 & H4)] Hz; [done|]. split_and!; try done.
  pose proof (digits_value_head _ H1 H2 H3).
  assert (0 < 10 ^ (Z.of_nat (length (digits d)) - 1)); [|lia].
  apply Z.pow_pos_nonneg; [done|]. destruct (digits d); cbn [length]; [congruence|lia].
Qed.

(** [cmp] compares the rational values. *)
Lemma decimal_cmp_values a b :
  normal a → normal b → unsaturated a → unsaturated b →
  decimal_cmp a b = compare_values a b.
Proof.
  intros Ha Hb Hua Hub. unfold decimal_cmp, compare_values, signed_digits.
  set (m := Z.max (scale a) (scale b)).
  assert (0 < 10 ^ (m - scale a)) by (apply Z.pow_pos_nonneg; lia).
  assert (0 < 10 ^ (m - scale b)) by (apply Z.pow_pos_nonneg; lia).
  destruct (is_zero a) eqn:Eza; destruct (is_zero b) eqn:Ezb.
  - apply is_zero_normal in Eza as ->; [|done]. apply is_zero_normal in Ezb as ->; [|done].
    done.
  - apply is_zero_normal in Eza as ->; [|done].
    destruct (not_zero_normal b Hb Ezb) as (_ & _ & _ & _ & Hp).
    change (digits_value (digits zero_number)) with 0. change (negative zero_number) with false.
    cbv iota. rewrite Z.mul_0_l.
    destruct (negative b); symmetry; [apply Z.compare_gt_iff|apply Z.compare_lt_iff]; nia.
  - apply is_zero_normal in Ezb as ->; [|done].
    destruct (not_zero_normal a Ha Eza) as (_ & _ & _ & _ & Hp).
    change (digits_value (digits zero_number)) with 0. change (negative zero_number) with false.
    cbv iota. rewrite Z.mul_0_l.
    destruct (negative a); symmetry; [apply Z.compare_lt_iff|apply Z.compare_gt_iff]; nia.
  - destruct (not_zero_normal a Ha Eza) as (Ha1 & Ha2 & Ha3 & _ & Hpa).
    destruct (not_zero_normal b Hb Ezb) as (Hb1 & Hb2 & Hb3 & _ & Hpb).
    rewrite !order_unsaturated by done.
    rewrite (magnitude_compare _ _ _ _ m) by first [done|lia].
    destruct (negative a), (negative b); simpl.
    + rewrite !Z.mul_opp_l, Z.compare_opp. symmetry. apply Z.compare_antisym.
    + symmetry. apply Z.compare_lt_iff. nia.
    + symmetry. apply Z.compare_gt_iff. nia.
    + done.
Qed.

(** The derived equality and [cmp] agree on normal forms. *)
Lemma compare_digits_eq n a b :
  compare_digits n a b = Eq → (length a ≤ n)%nat → (length b ≤ n)%nat →
  List.last a 0%N ≠ 0%N → List.last b 0%N ≠ 0%N → a = b.
Proof.
  assert (∀ n l, compare_digits n l [] = Eq → (length l ≤ n)%nat → List.last l 0%N = 0%N) as Hnil.
  { clear. intros n. induction n as [|n IH]; intros [|x l] Hc Hl; simpl in *; try done; try lia.
    destruct (N.compare_spec x 0) as [->|?|?]; try done.
    apply IH in Hc; [|lia]. by destruct l. }
  assert (∀ n l, compare_digits n [] l = Eq → (length l ≤ n)%nat → List.last l 0%N = 0%N) as Hnil'.
  { clear. intros n. induction n as [|n IH]; intros [|x l] Hc Hl;
      cbn [compare_digits length hd tl] in *; try done; try lia.
    destruct (N.compare_spec 0 x) as [<-|?|?]; try done.
    apply IH in Hc; [|lia]. by destruct l. }
  revert a b. induction n as [|n IH]; intros [|x a] [|y b] Hc Hla Hlb Hea Heb; try done;
    cbn [length] in *; try lia.
  cbn [compare_digits hd tl] in Hc. destruct (N.compare_spec x y) as [->|?|?]; try done.
  f_equal. destruct a as [|x' a], b as [|y' b]; [done| | |].
  - apply Hnil' in Hc; [|cbn [length] in *; lia]. done.
  - apply Hnil in Hc; [|cbn [length] in *; lia]. done.
  - apply IH; try done; cbn [length] in *; lia.
Qed.

Lemma decimal_cmp_eq a b :
  normal a → normal b → unsaturated a → unsaturated b →
  decimal_cmp a b = Eq ↔ a = b.
Proof.
  intros Ha Hb Hua Hub. split; [|intros ->].
  2: { rewrite decimal_cmp_values by done. apply Z.compare_refl. }
  unfold decimal_cmp. destruct (is_zero a) eqn:Eza; destruct (is_zero b) eqn:Ezb.
  - intros _. by rewrite (is_zero_normal a), (is_zero_normal b).
  - by destruct (negative b).
  - by destruct (negative a).
  - destruct (not_zero_normal a Ha Eza) as (_ & Hna & _ & Hla & _).
    destruct (not_zero_normal b Hb Ezb) as (_ & Hnb & _ & Hlb & _).
    destruct (Bool.eqb (negative a) (negative b)) eqn:Es; [|by destruct (negative a)].
    apply eqb_prop in Es. simpl. rewrite !order_unsaturated by done.
    destruct (Z.compare_spec (Z.of_nat (length (digits a)) - scale a)
                (Z.of_nat (length (digits b)) - scale b)) as [Heq|?|?]; simpl;
      [|by destruct (negative a)..].
    intros Hc. assert (compare_digits (Nat.max (length (digits a)) (length (digits b)))
      (digits a) (digits b) = Eq) as Hd
      by (destruct (negative a); [destruct (compare_digits _ _ _)|]; done).
    apply compare_digits_eq in Hd; try done; try lia.
    rewrite Hd in Heq. destruct a as [na da sa], b as [nb db sb]. simpl in *. subst.
    f_equal. lia.
Qed.

(** ** Normalisation keeps the value *)

Lemma skip_zeros_spec (ds : list N) :
  ∃ n, ds = (repeat 0%N n ++ skip_zeros ds)%list ∧
       (skip_zeros ds = [] ∨ hd 0%N (skip_zeros ds) ≠ 0%N).
Proof.
  induction ds as [|d ds (n & Hn & Hd)]; [exists O; auto|].
  destruct d as [|p].
  - exists (S n). simpl. split; [by f_equal|done].
  - exists O. simpl. auto.
Qed.

Lemma trim_zeros_spec (rds : list N) s :
  rds ≠ [] → Z.abs s + Z.of_nat (length rds) ≤ 2 ^ 62 →
  ∃ n, rds = (repeat 0%N n ++ (trim_zeros rds s).1)%list ∧ (trim_zeros rds s).2 = s - Z.of_nat n ∧
       (trim_zeros rds s).1 ≠ [] ∧
       (hd 0%N (trim_zeros rds s).1 ≠ 0%N ∨ (trim_zeros rds s).1 = [0%N]).
Proof.
  revert s. induction rds as [|d rds IH]; intros s Hne Hs; [done|].
  destruct d as [|p].
  2: { exists O. simpl. split_and!; [done|lia|done|by left]. }
  destruct rds as [|d' rds].
  { exists O. simpl. split_and!; [done|lia|done|by right]. }
  cbn [length] in Hs.
  assert (sat_sub_i64 s 1 = s - 1) as Hsat
    by (unfold sat_sub_i64, I64_MAX, I64_MIN; lia).
  destruct (IH (s - 1)) as (n & H1 & H2 & H3 & H4); [done|cbn [length]; lia|].
  exists (S n). change (trim_zeros (0%N :: d' :: rds) s) with (trim_zeros (d' :: rds) (sat_sub_i64 s 1)).
  rewrite Hsat. split_and!; try done.
  - simpl. by f_equal.
  - rewrite H2. lia.
Qed.

Lemma last_app_singleton (l : list N) x : List.last (l ++ [x])%list 0%N = x.
Proof. induction l as [|y l IH]; [done|]. simpl. rewrite IH. by destruct l. Qed.

Lemma length_skip_zeros (ds : list N) : (length (skip_zeros ds) ≤ length ds)%nat.
Proof.
  destruct (skip_zeros_spec ds) as (n & Hn & _). rewrite Hn at 2. rewrite length_app. lia.
Qed.

(** What [normalize] does to the digits: the value of the digit string is the
    value of the normal form scaled by the dropped trailing zeros. *)
Lemma normalize_digits neg (ds : list N) s :
  Forall digit_ok ds → skip_zeros ds = ds → ds ≠ [] → hd 0%N ds ≠ 0%N →
  Z.abs s + Z.of_nat (length ds) ≤ 2 ^ 62 - 1 →
  let '(rev_digits, scale') := trim_zeros (rev ds) s in
  let d := {| negative := neg; digits := rev rev_digits; scale := scale' |} in
  normal d ∧ unsaturated d ∧
  ∃ n : nat, scale' = s - Z.of_nat n ∧
    digits_value ds = digits_value (rev rev_digits) * 10 ^ Z.of_nat n.
Proof.
  intros Hok _ Hne Hh Hs.
  destruct (trim_zeros_spec (rev ds) s) as (n & H1 & H2 & H3 & H4).
  { intros Hr. apply (f_equal (@length N)) in Hr. rewrite length_rev in Hr. by destruct ds. }
  { rewrite length_rev. lia. }
  destruct (trim_zeros (rev ds) s) as [rds s']. cbn [fst snd] in *.
  assert (ds = (rev rds ++ repeat 0%N n)%list) as Hds.
  { rewrite <- (rev_involutive ds), H1, rev_app_distr. f_equal.
    clear. induction n as [|n IH]; [done|]. simpl. rewrite IH. by rewrite <- repeat_cons. }
  assert (length ds = length rds + n)%nat as Hlen
    by (rewrite Hds, length_app, length_rev, repeat_length; done).
  assert (hd 0%N (rev rds) = hd 0%N ds) as Hhd.
  { rewrite Hds. destruct (rev rds) eqn:E; [|done].
    apply (f_equal (@length N)) in E. rewrite length_rev in E. by destruct rds. }
  split; [|split].
  - right. simpl. split_and!.
    + rewrite Hds in Hok. by apply Forall_app in Hok as [? _].
    + intros E. apply (f_equal (@length N)) in E. rewrite length_rev in E. by destruct rds.
    + by rewrite Hhd.
    + destruct rds as [|x rds]; [done|]. simpl. rewrite last_app_singleton.
      destruct H4 as [H4|[= -> ->]]; [done|]. simpl in Hhd. congruence.
  - unfold unsaturated. simpl. rewrite length_rev. lia.
  - exists n. split; [done|]. rewrite Hds at 1. rewrite digits_value_app, digits_value_zeros.
    rewrite repeat_length. lia.
Qed.

Lemma skip_zeros_idem (ds : list N) :
  hd 0%N ds ≠ 0%N → skip_zeros ds = ds.
Proof. by destruct ds as [|[|p] ds]. Qed.

Lemma normalize_spec neg integer fraction e :
  Forall digit_ok (integer ++ fraction)%list →
  Z.abs e ≤ 2 ^ 60 → Z.of_nat (length (integer ++ fraction)%list) ≤ 2 ^ 60 →
  let d := normalize neg integer fraction e in
  let s := Z.of_nat (length fraction) - e in
  let v := digits_value (integer ++ fraction)%list in
  let m := Z.max s (scale d) in
  normal d ∧ unsaturated d ∧
  (if neg then - v else v) * 10 ^ (m - s) = signed_digits d * 10 ^ (m - scale d).
Proof.
  intros Hok He Hlen. cbv zeta. unfold normalize.
  destruct (skip_zeros_spec (integer ++ fraction)%list) as (n & Hn & Hz).
  assert (digits_value (integer ++ fraction)%list =
          digits_value (skip_zeros (integer ++ fraction)%list)) as Hv
    by (rewrite Hn at 1; rewrite digits_value_app, digits_value_zeros; lia).
  pose proof (length_skip_zeros (integer ++ fraction)%list) as Hls.
  rewrite Hn in Hok. apply Forall_app in Hok as [_ Hok].
  rewrite length_app in Hlen, Hls. rewrite Hv. clear Hv Hn.
  destruct (skip_zeros (integer ++ fraction)%list) as [|d ds] eqn:Eds.
  { split; [by left|]. split; [done|]. unfold digits_value. simpl. by destruct neg. }
  destruct Hz as [|Hz]; [done|].
  assert (sat_sub_i64 (i64_of_usize (N.of_nat (length fraction))) e =
          Z.of_nat (length fraction) - e) as ->
    by (unfold sat_sub_i64, i64_of_usize, I64_MAX, I64_MIN; lia).
  pose proof (normalize_digits neg (d :: ds) (Z.of_nat (length fraction) - e) Hok
                (skip_zeros_idem _ Hz) ltac:(done) Hz ltac:(lia)) as Hnd.
  destruct (trim_zeros _ _) as [rds s']. destruct Hnd as (H1 & H2 & k & -> & H4).
  split_and!; [done..|]. cbn [scale negative digits]. unfold signed_digits.
  cbn [negative digits]. rewrite H4.
  rewrite (Z.max_l (Z.of_nat (length fraction) - e)) by lia.
  rewrite Z.sub_diag. replace (Z.of_nat (length fraction) - e -
    (Z.of_nat (length fraction) - e - Z.of_nat k)) with (Z.of_nat k) by lia.
  destruct neg; lia.
Qed.

(** ** Integral indices *)

Lemma digits_value_last (ds : list N) :
  Forall digit_ok ds → ds ≠ [] → digits_value ds mod 10 = Z.of_N (List.last ds 0%N).
Proof.
  intros Hok Hne. destruct (exists_last Hne) as (l & x & ->).
  rewrite digits_value_app, last_app_singleton. unfold digits_value at 2. simpl.
  apply Forall_app in Hok as [_ Hx]. inversion Hx; subst. unfold digit_ok in *.
  rewrite Z.pow_1_r, Z.add_comm, Z_mod_plus_full. by apply Z.mod_small; lia.
Qed.

Lemma decimal_index_value d i :
  normal d → unsaturated d →
  decimal_index d = Some i ↔
  (i ≤ USIZE_MAX)%N ∧
  signed_digits d * 10 ^ (Z.max 0 (scale d) - scale d) = Z.of_N i * 10 ^ Z.max 0 (scale d).
Proof.
  intros Hn [Hus Hul]. unfold decimal_index, signed_digits.
  assert (Forall digit_ok (digits d)) as Hok
    by (destruct Hn as [->|(? & _)]; [by repeat constructor|done]).
  pose proof (digits_value_bounds _ Hok) as [Hlo Hhi].
  assert (is_zero d = false → 10 ^ (Z.of_nat (length (digits d)) - 1) ≤ digits_value (digits d) ∧
    0 < digits_value (digits d)) as Hpos.
  { intros Hz. destruct (not_zero_normal d Hn Hz) as (? & ? & ? & _ & ?).
    split; [by apply digits_value_head|done]. }
  destruct (is_zero d) eqn:Ez.
  { apply is_zero_normal in Ez as ->; [|done]. simpl. unfold digits_value. simpl.
    split; [intros [= <-]; done|]. intros [_ Hi]. f_equal. lia. }
  specialize (Hpos eq_refl) as [Hlow Hpos].
  assert (1 ≤ Z.of_nat (length (digits d))) as Hlen1
    by (destruct (digits d); cbn [length]; [discriminate Hpos|lia]).
  destruct (negative d) eqn:En; cbn [orb].
  { split; [done|]. intros [_ Hi]. exfalso.
    assert (0 < 10 ^ (Z.max 0 (scale d) - scale d)) by (apply Z.pow_pos_nonneg; lia).
    assert (0 < 10 ^ (Z.max 0 (scale d))) by (apply Z.pow_pos_nonneg; lia). nia. }
  destruct (Z.ltb_spec 0 (scale d)) as [Hsc|Hsc].
  { split; [done|]. intros [_ Hi]. exfalso. rewrite Z.max_r in Hi by lia.
    rewrite Z.sub_diag, Z.mul_1_r in Hi.
    destruct (not_zero_normal d Hn Ez) as (_ & Hne & _ & Hlast & _).
    pose proof (digits_value_last _ Hok Hne) as Hm. rewrite Hi in Hm.
    replace (scale d) with (scale d - 1 + 1) in Hm by lia.
    rewrite Z.pow_add_r, Z.pow_1_r, Z.mul_assoc, Z_mod_mult in Hm by lia. lia. }
  destruct (Z.eqb_spec (scale d) I64_MIN) as [E|_]; [unfold I64_MIN in E; lia|].
  rewrite Z.max_l by lia. replace (0 - scale d) with (- scale d) by lia. rewrite Z.pow_0_r, Z.mul_1_r.
  assert (USIZE_MAX < 10 ^ 20)%N as Hmax by done.
  destruct (Z.ltb_spec USIZE_MAX_DIGITS (Z.of_nat (length (digits d)) + - scale d)) as [Hl|Hl].
  { split; [done|]. intros [Hi Heq]. exfalso. unfold USIZE_MAX_DIGITS in Hl.
    assert (10 ^ 20 ≤ 10 ^ (Z.of_nat (length (digits d)) - 1) * 10 ^ (- scale d)).
    { rewrite <- Z.pow_add_r by lia. apply Z.pow_le_mono_r; lia. }
    assert (0 < 10 ^ (- scale d)) by (apply Z.pow_pos_nonneg; lia). nia. }
  rewrite checked_digits_spec by (unfold USIZE_MAX; lia). cbv zeta.
  rewrite digits_value_app, digits_value_zeros, repeat_length, Z2Nat.id by lia.
  rewrite Z.mul_0_l, Z.add_0_l, Z.add_0_r.
  assert (0 < 10 ^ (- scale d)) by (apply Z.pow_pos_nonneg; lia).
  destruct (Z.leb_spec (digits_value (digits d) * 10 ^ (- scale d)) (Z.of_N USIZE_MAX)) as [Hle|Hgt];
    simpl.
  - split; [intros [= <-]; split; nia|]. intros [_ Hi]. f_equal. nia.
  - split; [done|]. intros [Hi Heq]. nia.
Qed.

(** ** Properties *)

(** [DecimalNumber::cmp] orders normal forms by their rational value, and
    the derived equality agrees with it. *)
Theorem decimal_order_correct a b :
  normal a → normal b → unsaturated a → unsaturated b →
  decimal_cmp a b = compare_values a b ∧ (decimal_cmp a b = Eq ↔ a = b).
Proof. intros. split; [by apply decimal_cmp_values|by apply decimal_cmp_eq]. Qed.

Definition decimal_sample (neg : bool) (ds : list N) (s : Z) : DecimalNumber :=
  {| negative := neg; digits := ds; scale := s |}.

Lemma decimal_sample_normal neg d ds s :
  forallb (λ x, x <? 10)%N (d :: ds) = true → d ≠ 0%N → List.last (d :: ds) 0%N ≠ 0%N →
  normal (decimal_sample neg (d :: ds) s).
Proof.
  intros Hok Hd Hl. right. split_and!; [|done|done|done].
  rewrite Forall_forall. intros x Hx%list_elem_of_In.
  rewrite forallb_forall in Hok. apply Hok in Hx. unfold digit_ok. lia.
Qed.

Lemma decimal_order_correct_witness :
  decimal_cmp (decimal_sample false [1; 2; 5]%N 2) (decimal_sample false [1; 3]%N 1) = Lt ∧
  compare_values (decimal_sample false [1; 2; 5]%N 2) (decimal_sample false [1; 3]%N 1) = Lt.
Proof.
  destruct (decimal_order_correct (decimal_sample false [1; 2; 5]%N 2)
              (decimal_sample false [1; 3]%N 1)) as [H _];
    [apply decimal_sample_normal; done|apply decimal_sample_normal; done|done|done|].
  split; [reflexivity|]. rewrite <- H. reflexivity.
Defined.

(** The normal form built by [DecimalNumber::parse] has the value of the
    parsed digits: integer and fraction digits read as one integer, divided by
    ten to the number of fraction digits, times ten to the exponent. *)
Theorem normalize_value neg integer fraction e :
  Forall digit_ok (integer ++ fraction)%list →
  Z.abs e ≤ 2 ^ 60 → Z.of_nat (length (integer ++ fraction)%list) ≤ 2 ^ 60 →
  let d := normalize neg integer fraction e in
  let s := Z.of_nat (length fraction) - e in
  let v := digits_value (integer ++ fraction)%list in
  let m := Z.max s (scale d) in
  normal d ∧ unsaturated d ∧
  (if neg then - v else v) * 10 ^ (m - s) = signed_digits d * 10 ^ (m - scale d).
Proof. apply normalize_spec. Qed.

Lemma normalize_value_witness :
  normalize true [0; 1; 2]%N [5; 0]%N 3 = decimal_sample true [1; 2; 5]%N (-2) ∧
  normal (normalize true [0; 1; 2]%N [5; 0]%N 3).
Proof.
  split; [reflexivity|].
  apply (normalize_value true [0; 1; 2]%N [5; 0]%N 3); [by repeat constructor|done|done].
Defined.

(** A number selects an array element exactly when its value is a
    nonnegative integer that fits in [usize], and then it selects that index. *)
Theorem decimal_index_exact d i :
  normal d → unsaturated d →
  decimal_index d = Some i ↔
  (i ≤ USIZE_MAX)%N ∧
  signed_digits d * 10 ^ (Z.max 0 (scale d) - scale d) = Z.of_N i * 10 ^ Z.max 0 (scale d).
Proof. apply decimal_index_value. Qed.

Lemma decimal_index_exact_witness :
  decimal_index (decimal_sample false [1; 2]%N (-3)) = Some 12000%N.
Proof.
  apply (decimal_index_exact (decimal_sample false [1; 2]%N (-3)) 12000%N);
    [apply decimal_sample_normal; done|done|]. split; [done|reflexivity].
Defined.
