(* ===== verification/Provenance.v ===== *)
(** * Values with their source evidence (crates/antiburn-checks/src/expression_eval/value.rs)

    Evaluation traces, value identity, provenance, and the values an evaluation
    works on.  [Arc::new(())] is the next number of a counter in the state of
    the evaluation, and [Arc::ptr_eq] is equality of those numbers. *)

From S2P Require Import Prelude RustString Json Diagnostics Expression Budget.

(** ** Traces *)

Inductive EvaluationDependencyKind := KValue | KMembership.

#[export] Instance EvaluationDependencyKind_eq_dec : EqDecision EvaluationDependencyKind.
Proof. solve_decision. Defined.

Record EvaluationDependency := {
  dep_path : list PathSegment;
  dep_kind : EvaluationDependencyKind
}.

#[export] Instance EvaluationDependency_eq_dec : EqDecision EvaluationDependency.
Proof. solve_decision. Defined.

Record EvaluationTrace := { dependencies : list EvaluationDependency }.

Definition EvaluationTrace_default : EvaluationTrace := {| dependencies := [] |}.

(** [if !self.dependencies.contains(dependency) { self.dependencies.push(..) }] *)
Definition push_new (ds : list EvaluationDependency) (d : EvaluationDependency) :
    list EvaluationDependency :=
  if bool_decide (d ∈ ds) then ds else (ds ++ [d])%list.

Definition merge (self other : EvaluationTrace) : EvaluationTrace :=
  {| dependencies := fold_left push_new (dependencies other) (dependencies self) |}.

Definition trace_add (self : EvaluationTrace) (path : list PathSegment)
    (kind : EvaluationDependencyKind) : EvaluationTrace :=
  merge self {| dependencies := [{| dep_path := path; dep_kind := kind |}] |}.

(** ** Identity *)

Definition append_segment (path : list PathSegment) (segment : PathSegment) : list PathSegment :=
  (path ++ [segment])%list.

Inductive ValueIdentity :=
| Frozen (path : list PathSegment)
| Generated (root : N) (path : list PathSegment).

Definition identity_child (id : ValueIdentity) (segment : PathSegment) : ValueIdentity :=
  match id with
  | Frozen path => Frozen (append_segment path segment)
  | Generated root path => Generated root (append_segment path segment)
  end.

Definition same (a b : ValueIdentity) : bool :=
  match a, b with
  | Frozen p, Frozen q => bool_decide (p = q)
  | Generated r p, Generated r' q => (r =? r') && bool_decide (p = q)
  | _, _ => false
  end.

Definition same_identity (a b : option ValueIdentity) : bool :=
  match a, b with Some a, Some b => same a b | _, _ => false end.

(** ** Provenance *)

Inductive ValueProvenance := Build_ValueProvenance {
  p_origin : option (list PathSegment);
  p_items : list ValueProvenance;
  p_text_sources : EvaluationTrace;
  p_membership_sources : EvaluationTrace;
  p_encoded : option ValueProvenance
}.

Definition ValueProvenance_default : ValueProvenance :=
  Build_ValueProvenance None [] EvaluationTrace_default EvaluationTrace_default None.

Definition index_item {A} (items : list A) (segment : PathSegment) : option A :=
  match segment with PIndex i => items_get items i | PProperty _ => None end.

Definition provenance_child (p : ValueProvenance) (segment : PathSegment) : ValueProvenance :=
  match index_item (p_items p) segment with
  | Some item =>
      Build_ValueProvenance (p_origin item) (p_items item) (p_text_sources item)
        (merge (p_membership_sources item) (p_membership_sources p)) (p_encoded item)
  | None =>
      Build_ValueProvenance
        ((λ path, append_segment path segment) <$> p_origin p)
        [] EvaluationTrace_default (p_membership_sources p) None
  end.

Section values.
Context `{SerdeNumber}.

Definition is_collection (v : Value) : bool :=
  match v with JArray _ | JObject _ => true | _ => false end.

Definition collect_sources (p : ValueProvenance) (v : Value) (sources : EvaluationTrace) :
    EvaluationTrace :=
  let sources := merge (merge sources (p_text_sources p)) (p_membership_sources p) in
  match is_collection v, p_origin p with
  | true, Some origin => trace_add sources origin KMembership
  | _, _ => sources
  end.
End values.

(** ** Metadata *)

Inductive ValueMetadata := Build_ValueMetadata {
  identity : option ValueIdentity;
  origin : option (list PathSegment);
  m_dependencies : EvaluationTrace;
  items : list ValueMetadata;
  provenance : option ValueProvenance;
  encoded_provenance : option ValueProvenance;
  text_sources : EvaluationTrace;
  membership_sources : EvaluationTrace
}.

Definition ValueMetadata_default : ValueMetadata :=
  Build_ValueMetadata None None EvaluationTrace_default [] None None
    EvaluationTrace_default EvaluationTrace_default.

(** Field updates. *)
Definition with_dependencies (t : EvaluationTrace) (m : ValueMetadata) : ValueMetadata :=
  Build_ValueMetadata (identity m) (origin m) t (items m) (provenance m)
    (encoded_provenance m) (text_sources m) (membership_sources m).
Definition with_items (l : list ValueMetadata) (m : ValueMetadata) : ValueMetadata :=
  Build_ValueMetadata (identity m) (origin m) (m_dependencies m) l (provenance m)
    (encoded_provenance m) (text_sources m) (membership_sources m).
Definition with_encoded (p : option ValueProvenance) (m : ValueMetadata) : ValueMetadata :=
  Build_ValueMetadata (identity m) (origin m) (m_dependencies m) (items m) (provenance m)
    p (text_sources m) (membership_sources m).
Definition with_text_sources (t : EvaluationTrace) (m : ValueMetadata) : ValueMetadata :=
  Build_ValueMetadata (identity m) (origin m) (m_dependencies m) (items m) (provenance m)
    (encoded_provenance m) t (membership_sources m).
Definition with_membership (t : EvaluationTrace) (m : ValueMetadata) : ValueMetadata :=
  Build_ValueMetadata (identity m) (origin m) (m_dependencies m) (items m) (provenance m)
    (encoded_provenance m) (text_sources m) t.

(** [metadata.dependencies.merge(..)] *)
Definition merge_dependencies (t : EvaluationTrace) (m : ValueMetadata) : ValueMetadata :=
  with_dependencies (merge (m_dependencies m) t) m.
Definition merge_membership (t : EvaluationTrace) (m : ValueMetadata) : ValueMetadata :=
  with_membership (merge (membership_sources m) t) m.

Definition frozen (path : list PathSegment) : ValueMetadata :=
  Build_ValueMetadata (Some (Frozen path)) (Some path) EvaluationTrace_default [] None None
    EvaluationTrace_default EvaluationTrace_default.

Definition derived (deps : EvaluationTrace) : ValueMetadata :=
  with_dependencies deps ValueMetadata_default.

Definition restore_provenance (p : ValueProvenance) (m : ValueMetadata) : ValueMetadata :=
  Build_ValueMetadata (identity m) (origin m) (m_dependencies m) (items m) (Some p)
    (p_encoded p) (p_text_sources p) (p_membership_sources p).

(** [ValueMetadata::child] *)
Definition child (m : ValueMetadata) (segment : PathSegment) : ValueMetadata :=
  match index_item (items m) segment with
  | Some item =>
      merge_membership (membership_sources m) (merge_dependencies (m_dependencies m) item)
  | None =>
      let metadata :=
        Build_ValueMetadata
          ((λ id, identity_child id segment) <$> identity m)
          ((λ path, append_segment path segment) <$> origin m)
          (m_dependencies m) [] None None EvaluationTrace_default (membership_sources m) in
      match provenance m with
      | Some p =>
          merge_membership (membership_sources m)
            (restore_provenance (provenance_child p segment) metadata)
      | None => metadata
      end
  end.

(** [ValueMetadata::trace] *)
Fixpoint trace (m : ValueMetadata) : EvaluationTrace :=
  fold_left (λ t item, merge t (trace item)) (items m)
    (match origin m with
     | Some origin => trace_add (m_dependencies m) origin KValue
     | None => m_dependencies m
     end).

Definition membership_trace (m : ValueMetadata) : EvaluationTrace :=
  let t := merge (m_dependencies m) (membership_sources m) in
  match (match origin m with Some o => Some o | None => provenance m ≫= p_origin end) with
  | Some origin => trace_add t origin KMembership
  | None => t
  end.

Fixpoint source_provenance (m : ValueMetadata) : ValueProvenance :=
  let base :=
    match provenance m with
    | Some p => p
    | None =>
        Build_ValueProvenance (origin m) (map source_provenance (items m))
          EvaluationTrace_default EvaluationTrace_default None
    end in
  Build_ValueProvenance (p_origin base) (p_items base) (text_sources m)
    (membership_sources m) (encoded_provenance m).

Definition text_source_trace (m : ValueMetadata) : EvaluationTrace :=
  merge (text_sources m) (membership_sources m).

(** ** Evaluation state

    The budget, and the number the next generated identity takes. *)
Record EvalState := {
  budget : EvaluationBudget;
  next_root : N
}.

Definition evaluation (A : Type) : Type := SE EvalState EvaluationError A.

Definition on_budget {A} (m : budgeted A) : evaluation A := λ s,
  let '(r, b) := m (budget s) in (r, {| budget := b; next_root := next_root s |}).

(** [Arc::new(())] *)
Definition new_root : evaluation N := λ s,
  (Ok (next_root s), {| budget := budget s; next_root := next_root s + 1 |}).

Section runtime.
Context `{SerdeNumber}.

Inductive EvaluationValue :=
| Available (v : Value)
| Unavailable.

(** [Cow<'a, Value>] *)
Inductive Cow := Borrowed (v : Value) | Owned (v : Value).

Definition as_ref (c : Cow) : Value := match c with Borrowed v | Owned v => v end.

Record EvaluatedValue := {
  ev_value : EvaluationValue;
  ev_trace : EvaluationTrace;
  ev_metadata : ValueMetadata
}.

Record RuntimeValue := {
  value : option Cow;
  metadata : ValueMetadata
}.

Definition generated (v : Value) : evaluation ValueMetadata :=
  if is_collection v then
    let* root := new_root in
    ret (Build_ValueMetadata (Some (Generated root [])) None EvaluationTrace_default []
           None None EvaluationTrace_default EvaluationTrace_default)
  else ret ValueMetadata_default.

(** [RuntimeValue::owned] *)
Definition owned (v : Value) (deps : EvaluationTrace) : evaluation RuntimeValue :=
  let* m := generated v in
  ret {| value := Some (Owned v); metadata := with_dependencies deps m |}.

(** [RuntimeValue::unavailable] *)
Definition unavailable (m : ValueMetadata) : RuntimeValue := {| value := None; metadata := m |}.

Definition rv_trace (v : RuntimeValue) : EvaluationTrace := trace (metadata v).

(** [check_copy] and [copy_value] of expression_eval.rs. *)
Fixpoint check_copy (v : Value) (depth : N) : budgeted unit :=
  do* step depth;
  match v with
  | JArray l =>
      do* visit_items (N.of_nat (length l));
      do* reserve_materialized_bytes (sat_add (N.of_nat (length l)) 2);
      foldM (λ _ item, check_copy item (depth + 1)) l tt
  | JObject m =>
      do* visit_items (N.of_nat (length m));
      do* reserve_materialized_bytes (sat_add (N.of_nat (length m)) 2);
      foldM (λ _ kv,
        do* reserve_materialized_bytes (sat_add (str_len kv.1) 3);
        check_copy kv.2 (depth + 1)) m tt
  | JString s => reserve_materialized_bytes (str_len s)
  | _ => reserve_materialized_bytes 32
  end.

Definition copy_value (v : Value) (depth : N) : budgeted Value :=
  do* check_copy v depth; ret v.

(** [RuntimeValue::finish] *)
Definition finish (v : RuntimeValue) (depth : N) : evaluation EvaluatedValue :=
  let* x :=
    match value v with
    | Some (Borrowed j) => let* c := on_budget (copy_value j depth) in ret (Available c)
    | Some (Owned j) => ret (Available j)
    | None => ret Unavailable
    end in
  ret {| ev_value := x; ev_trace := rv_trace v; ev_metadata := metadata v |}.

(** [EvaluatedValue::available] *)
Definition available (v : Value) : evaluation EvaluatedValue :=
  let* m := generated v in
  ret {| ev_value := Available v; ev_trace := EvaluationTrace_default; ev_metadata := m |}.

(** [EvaluatedValue::unavailable] *)
Definition ev_unavailable (t : EvaluationTrace) : EvaluatedValue :=
  {| ev_value := Unavailable; ev_trace := t; ev_metadata := derived t |}.

Definition ev_membership_trace (v : EvaluatedValue) : EvaluationTrace :=
  membership_trace (ev_metadata v).

Definition array_item (v : EvaluatedValue) (index : N) : evaluation EvaluatedValue :=
  do* on_budget (visit_items 1);
  match ev_value v with
  | Available (JArray l) =>
      match items_get l index with
      | None => ret (ev_unavailable (ev_membership_trace v))
      | Some item =>
          let m := merge_dependencies (ev_membership_trace v) (child (ev_metadata v) (PIndex index)) in
          let* c := on_budget (copy_value item 1) in
          ret {| ev_value := Available c; ev_trace := trace m; ev_metadata := m |}
      end
  | _ => ret (ev_unavailable (ev_membership_trace v))
  end.

Definition merge_text_provenance (self source : EvaluatedValue) : EvaluatedValue :=
  let m := ev_metadata self in
  {| ev_value := ev_value self;
     ev_trace := merge (ev_trace self) (ev_trace source);
     ev_metadata :=
       with_encoded None
         (with_text_sources (merge (text_sources m) (text_source_trace (ev_metadata source)))
            (merge_dependencies (ev_trace source) m)) |}.
End runtime.

(** ** Traces keep first-read order *)

Lemma push_new_prefix ds d : ∃ l, push_new ds d = (ds ++ l)%list.
Proof.
  unfold push_new. case_bool_decide; [exists []; by rewrite app_nil_r|by exists [d]].
Qed.

Lemma push_new_NoDup ds d : NoDup ds → NoDup (push_new ds d).
Proof.
  intros Hn. unfold push_new. case_bool_decide as Hin; [done|].
  apply NoDup_app. split_and!; [done|set_solver|apply NoDup_singleton].
Qed.

Lemma elem_of_push_new ds d x : x ∈ push_new ds d ↔ x ∈ ds ∨ x = d.
Proof.
  unfold push_new. case_bool_decide as Hin; [|set_solver]. split; [auto|]. by intros [?| ->].
Qed.

Lemma fold_push_prefix l ds : ∃ l', fold_left push_new l ds = (ds ++ l')%list.
Proof.
  revert ds. induction l as [|d l IH]; intros ds; [exists []; by rewrite app_nil_r|].
  simpl. destruct (push_new_prefix ds d) as [l1 ->]. destruct (IH (ds ++ l1)%list) as [l2 ->].
  exists (l1 ++ l2)%list. by rewrite app_assoc.
Qed.

Lemma fold_push_NoDup l ds : NoDup ds → NoDup (fold_left push_new l ds).
Proof.
  revert ds. induction l as [|d l IH]; intros ds Hn; [done|].
  simpl. by apply IH, push_new_NoDup.
Qed.

Lemma elem_of_fold_push l ds x : x ∈ fold_left push_new l ds ↔ x ∈ ds ∨ x ∈ l.
Proof.
  revert ds. induction l as [|d l IH]; intros ds; simpl; [set_solver|].
  rewrite IH, elem_of_push_new. set_solver.
Qed.

Lemma fold_push_subset l ds : (∀ x, x ∈ l → x ∈ ds) → fold_left push_new l ds = ds.
Proof.
  revert ds. induction l as [|d l IH]; intros ds Hs; [done|]. simpl.
  assert (push_new ds d = ds) as ->.
  { unfold push_new. rewrite bool_decide_true; [done|]. apply Hs. set_solver. }
  apply IH. set_solver.
Qed.

Lemma elem_of_merge t u x : x ∈ dependencies (merge t u) ↔ x ∈ dependencies t ∨ x ∈ dependencies u.
Proof. apply elem_of_fold_push. Qed.

Lemma merge_prefix t u : ∃ l, dependencies (merge t u) = (dependencies t ++ l)%list.
Proof. apply fold_push_prefix. Qed.

Lemma merge_NoDup t u : NoDup (dependencies t) → NoDup (dependencies (merge t u)).
Proof. apply fold_push_NoDup. Qed.

Lemma merge_subset t u :
  (∀ x, x ∈ dependencies u → x ∈ dependencies t) → merge t u = t.
Proof. intros Hs. destruct t as [t]. unfold merge. simpl. by rewrite fold_push_subset. Qed.

(** ** Properties *)

(** Merging traces keeps the dependencies already recorded as a prefix in
    their first-read order, adds exactly the others without repetition, and a
    second merge of the same trace changes nothing. *)
Theorem merge_first_read_order t u :
  (∃ l, dependencies (merge t u) = (dependencies t ++ l)%list) ∧
  (∀ x, x ∈ dependencies (merge t u) ↔ x ∈ dependencies t ∨ x ∈ dependencies u) ∧
  (NoDup (dependencies t) → NoDup (dependencies (merge t u))) ∧
  merge (merge t u) u = merge t u.
Proof.
  split_and!; [apply merge_prefix|apply elem_of_merge|apply merge_NoDup|].
  apply merge_subset. intros x Hx. apply elem_of_merge. by right.
Qed.
