(* ===== verification/Scalars.v ===== *)
(** * Scalars and text (crates/antiburn-checks/src/expression_eval.rs, functions.rs, json.rs)

    Truthiness, equality and ordering of JSON values, conversion to text,
    [format], and the JSON writer and reader of [toJSON] and [fromJSON].  All of
    them charge the evaluation budget before they allocate. *)

From S2P Require Import Prelude RustString Json Diagnostics Expression Budget Decimal Provenance.

(** Text of one character that a literal cannot hold. *)
Definition quote : ascii := ascii_of_N 34.
Definition backslash : ascii := ascii_of_N 92.
Definition str1 (a : ascii) : string := String a "".

(** ** Equality and ordering *)

Section scalars.
Context `{SerdeNumber, UnicodeData}.

Definition literal_value (l : ExpressionLiteral) : Value :=
  match l with
  | LString s => JString s
  | LNumber n => JNumber n
  | LBoolean b => JBool b
  | LNull => JNull
  end.

Definition is_truthy (v : Value) : bool :=
  match v with
  | JNull => false
  | JBool b => b
  | JNumber n =>
      match DecimalNumber_parse (number_to_string n) with
      | Some d => negb (is_zero d)
      | None => false
      end
  | JString s => negb (String.eqb s "")
  | JArray _ | JObject _ => true
  end.

Definition lowercase (s : string) : budgeted string :=
  do* reserve_generated_bytes (lowercase_bytes s);
  ret (to_lowercase s).

Definition coerce_number (v : Value) : option DecimalNumber :=
  match v with
  | JNull | JBool false => DecimalNumber_parse "0"
  | JBool true => DecimalNumber_parse "1"
  | JNumber n => decimal_value n
  | JString s =>
      if String.eqb s "" then DecimalNumber_parse "0"
      else n ← number_from_str s; decimal_value n
  | JArray _ | JObject _ => None
  end.

Definition equal (left right : Value) (same_origin : bool) : budgeted bool :=
  match left, right with
  | JNull, JNull => ret true
  | JBool l, JBool r => ret (Bool.eqb l r)
  | JNumber l, JNumber r => ret (bool_decide (decimal_value l = decimal_value r))
  | JString l, JString r =>
      let* l := lowercase l in
      let* r := lowercase r in
      ret (String.eqb l r)
  | (JArray _ | JObject _), (JArray _ | JObject _) => ret same_origin
  | _, _ =>
      match coerce_number left, coerce_number right with
      | Some l, Some r => ret (bool_decide (l = r))
      | _, _ => ret false
      end
  end.

(** [std::mem::discriminant] *)
Definition discriminant (v : Value) : N :=
  match v with
  | JNull => 0 | JBool _ => 1 | JNumber _ => 2 | JString _ => 3 | JArray _ => 4 | JObject _ => 5
  end.

Definition compare_options (l r : option DecimalNumber) : option comparison :=
  match l, r with Some l, Some r => Some (decimal_cmp l r) | _, _ => None end.

Definition ordered (left right : Value) : budgeted (option comparison) :=
  match left, right with
  | JString l, JString r =>
      let* l := lowercase l in
      let* r := lowercase r in
      ret (Some (String.compare l r))
  | JNumber l, JNumber r => ret (compare_options (decimal_value l) (decimal_value r))
  | JBool l, JBool r => ret (Some (Bool.compare l r))
  | _, _ =>
      if discriminant left =? discriminant right then ret None
      else ret (compare_options (coerce_number left) (coerce_number right))
  end.

(** [Option<Ordering>::is_some_and] *)
Definition is_lt (o : option comparison) : bool :=
  match o with Some Lt => true | _ => false end.
Definition is_gt (o : option comparison) : bool :=
  match o with Some Gt => true | _ => false end.
Definition is_some_not (bad : comparison) (o : option comparison) : bool :=
  match o with
  | Some c => match c, bad with Gt, Gt | Lt, Lt | Eq, Eq => false | _, _ => true end
  | None => false
  end.

(** The comparison operators on available operands. *)
Definition compare_values_with (op : BinaryOperator) (l r : Value) (same_id : bool) :
    budgeted bool :=
  match op with
  | Equal => equal l r same_id
  | NotEqual => let* b := equal l r same_id in ret (negb b)
  | Less => let* o := ordered l r in ret (is_lt o)
  | LessOrEqual => let* o := ordered l r in ret (is_some_not Gt o)
  | Greater => let* o := ordered l r in ret (is_gt o)
  | GreaterOrEqual => let* o := ordered l r in ret (is_some_not Lt o)
  | And | Or => ret false
  end.

(** ** Text *)

Definition scalar_text (v : Value) : budgeted string :=
  match v with
  | JNull => ret ""
  | JBool b =>
      let text := if b then "true" else "false" in
      do* reserve_generated_bytes (str_len text); ret text
  | JNumber n =>
      do* reserve_generated_bytes (str_len (number_to_string n)); ret (number_to_string n)
  | JString s => do* reserve_generated_bytes (str_len s); ret s
  | JArray _ | JObject _ =>
      fail (invalid_error "Arrays and objects require explicit toJSON conversion.")
  end.

Definition append (output text : string) : budgeted string :=
  do* reserve_generated_bytes (str_len text);
  ret (output +:+ text).

(** The loop of [render_format].  [skip] is how far the cursor is ahead of the
    position [s]; [values] pairs each argument text with its metadata. *)
Fixpoint render_loop (depth : N) (values : list (string * ValueMetadata)) (s : string)
    (skip : nat) (output : string) (sources : EvaluationTrace) :
    budgeted (string * EvaluationTrace) :=
  match s with
  | "" => ret (output, sources)
  | String a t =>
      match skip with
      | S k => render_loop depth values t k output sources
      | O =>
          do* step depth;
          if starts_with s "{{" || starts_with s "}}" then
            let* output := append output (str1 a) in
            render_loop depth values t 1 output sources
          else if Ascii.eqb a "{" then
            match str_span (λ c, negb (Ascii.eqb c "}")) t with
            | (_, "") => fail (invalid_error "format has an unmatched opening brace.")
            | (index, _) =>
                if String.eqb index "" || negb (str_all is_ascii_digit index) then
                  fail (invalid_error "format placeholders require a nonnegative integer.")
                else
                  match (i ← decimal_value_of index 0;
                         if i <=? USIZE_MAX then items_get values i else None) with
                  | None => fail (invalid_error "format references an unavailable argument.")
                  | Some (text, m) =>
                      let sources := merge sources (text_source_trace m) in
                      let* output := append output text in
                      render_loop depth values t (S (String.length index)) output sources
                  end
            end
          else if Ascii.eqb a "}" then
            fail (invalid_error "format has an unmatched closing brace.")
          else
            let '(run, _) := str_span (λ c, negb (Ascii.eqb c "{" || Ascii.eqb c "}")) s in
            let* output := append output run in
            render_loop depth values t (String.length run - 1) output sources
      end
  end.

Definition render_format (template : string) (values : list (string * ValueMetadata))
    (sources : EvaluationTrace) (depth : N) : budgeted (string * EvaluationTrace) :=
  render_loop depth values template 0 "" sources.

(** ** The JSON writer *)

Definition hex_digit (n : N) : ascii :=
  if n <? 10 then ascii_of_N (48 + n) else ascii_of_N (87 + n).

(** The escape of a character, if it has one.  Only ASCII characters do, and
    no byte of a longer UTF-8 sequence is ASCII. *)
Definition escape (a : ascii) : option string :=
  let b := byte_of a in
  let short c := Some (String backslash (str1 c)) in
  if Ascii.eqb a quote then short quote
  else if Ascii.eqb a backslash then short backslash
  else if b =? 10 then short "n"%char
  else if b =? 13 then short "r"%char
  else if b =? 9 then short "t"%char
  else if b =? 8 then short "b"%char
  else if b =? 12 then short "f"%char
  else if b <=? 31 then
    Some (String backslash ("u00" +:+ String (hex_digit (b / 16)) (str1 (hex_digit (b mod 16)))))
  else None.

(** The loop of [write_string]; [run] is [value[start..index]]. *)
Fixpoint write_string_loop (s run output : string) : budgeted string :=
  match s with
  | "" => append output run
  | String a t =>
      match escape a with
      | None => write_string_loop t (run +:+ str1 a) output
      | Some e =>
          let* output := append output run in
          let* output := append output e in
          write_string_loop t "" output
      end
  end.

Definition write_string (s output : string) : budgeted string :=
  let* output := append output (str1 quote) in
  let* output := write_string_loop s "" output in
  append output (str1 quote).

Definition comma_unless_first (index : N) (output : string) : budgeted string :=
  if 0 <? index then append output "," else ret output.

(** [write_json]; the output and the sources are threaded. *)
Fixpoint write_json (v : Value) (p : ValueProvenance) (output : string)
    (sources : EvaluationTrace) (depth : N) : budgeted (string * EvaluationTrace) :=
  do* step depth;
  let sources := collect_sources p v sources in
  match v with
  | JNull => let* o := append output "null" in ret (o, sources)
  | JBool b => let* o := append output (if b then "true" else "false") in ret (o, sources)
  | JNumber n =>
      let* text := scalar_text (JNumber n) in
      let* o := append output text in ret (o, sources)
  | JString s => let* o := write_string s output in ret (o, sources)
  | JArray l =>
      do* visit_items (N.of_nat (length l));
      let* o := append output "[" in
      let* r := foldM (λ acc item,
          let '(index, o, srcs) := acc in
          let* o := comma_unless_first index o in
          let* r := write_json item (provenance_child p (PIndex index)) o srcs (depth + 1) in
          ret (index + 1, r.1, r.2)) l (0, o, sources) in
      let* o := append r.1.2 "]" in
      ret (o, r.2)
  | JObject m =>
      do* visit_items (N.of_nat (length m));
      let* o := append output "{" in
      let* r := foldM (λ acc kv,
          let '(index, o, srcs) := acc in
          let* o := comma_unless_first index o in
          let* o := write_string kv.1 o in
          let* o := append o ":" in
          let* r := write_json kv.2 (provenance_child p (PProperty kv.1)) o srcs (depth + 1) in
          ret (index + 1, r.1, r.2)) m (0, o, sources) in
      let* o := append r.1.2 "}" in
      ret (o, r.2)
  end.

(** [json::serialize] *)
Definition serialize (v : Value) (p : ValueProvenance) (depth : N) :
    budgeted (string * EvaluationTrace) :=
  write_json v p "" EvaluationTrace_default depth.
End scalars.

(** ** The JSON reader

    [ValueSeed] is a visitor driven by the deserializer of [serde_json]. What
    the deserializer delivers for a text is a parameter: the calls it would
    make on a visitor that never fails, with the point where it reports a syntax
    error, and whether [end] accepts what follows the value. *)
Inductive JsonEvent :=
| EvUnit
| EvBool (b : bool)
| EvI64 (z : Z)
| EvU64 (n : N)
| EvF64 (x : f64)
| EvStr (s : string)
| EvSeq (items : list JsonEvent) (complete : bool)
| EvMap (entries : list (string * JsonEvent)) (complete : bool)
| EvError.

Class JsonDeserializer := {
  json_events : string → JsonEvent;
  json_end : string → bool
}.

Section reader.
Context `{SerdeNumber, JsonDeserializer}.

(** A visitor call; every error becomes the deserializer's error. *)
Definition seeded (A : Type) : Type := SE EvaluationBudget unit A.
Definition charge_seed (m : budgeted unit) : seeded unit := λ b,
  let '(r, b) := m b in (map_err (λ _, tt) r, b).

(** [ValueSeed::deserialize] with the [Visitor] methods. *)
Fixpoint value_seed (ev : JsonEvent) (depth : N) (item : bool) : seeded Value :=
  do* charge_seed (step depth);
  do* (if item then charge_seed (visit_items 1) else ret tt);
  match ev with
  | EvUnit => ret JNull
  | EvBool b => ret (JBool b)
  | EvI64 z => ret (JNumber (number_of_i64 z))
  | EvU64 n => ret (JNumber (number_of_u64 n))
  | EvF64 x => match number_of_f64 x with Some n => ret (JNumber n) | None => fail tt end
  | EvStr s => ret (JString s)
  | EvSeq l complete =>
      let* values := foldM (λ values ev,
          let* v := value_seed ev (depth + 1) true in ret (values ++ [v])%list) l [] in
      if complete then ret (JArray values) else fail tt
  | EvMap l complete =>
      let* values := foldM (λ values kv,
          let* v := value_seed kv.2 (depth + 1) true in ret (map_insert kv.1 v values)) l [] in
      if complete then ret (JObject values) else fail tt
  | EvError => fail tt
  end.

Definition json_parse (text : string) (depth : N) : budgeted Value :=
  do* reserve_generated_bytes (str_len text);
  λ b,
    let '(r, b) := value_seed (json_events text) depth false b in
    let r := match r with
             | Ok v => if json_end text then Ok v else Err tt
             | Err _ => Err tt
             end in
    match r with
    | Ok v => (Ok v, b)
    | Err _ =>
        if exhausted b
        then (Err (limit_error "JSON parsing exhausted the shared evaluation budget."), b)
        else (Err (invalid_error "fromJSON requires valid finite JSON."), b)
    end.
End reader.

(** ** Every operation respects the budget *)

Section scalar_facts.
Context `{SerdeNumber, UnicodeData}.

Lemma lowercase_safe s : budget_safe any (lowercase s).
Proof. unfold lowercase. budget_walk. Qed.

Lemma append_safe o t : budget_safe any (append o t).
Proof. unfold append. budget_walk. Qed.

Hint Resolve lowercase_safe append_safe : budget.

Lemma equal_safe l r b : budget_safe any (equal l r b).
Proof. unfold equal. budget_walk. Qed.

Lemma ordered_safe l r : budget_safe any (ordered l r).
Proof. unfold ordered. budget_walk. Qed.

Hint Resolve equal_safe ordered_safe : budget.

Lemma compare_values_with_safe op l r b : budget_safe any (compare_values_with op l r b).
Proof. unfold compare_values_with. budget_walk. Qed.

Lemma scalar_text_safe v : budget_safe any (scalar_text v).
Proof. unfold scalar_text. budget_walk. Qed.

Hint Resolve compare_values_with_safe scalar_text_safe : budget.

Lemma render_loop_safe depth values s : ∀ skip o srcs,
  budget_safe any (render_loop depth values s skip o srcs).
Proof.
  induction s as [|a t IH]; intros skip o srcs; [apply budget_ret_safe|].
  cbn [render_loop]. destruct skip as [|k]; [|apply IH]. budget_walk; apply IH.
Qed.

Lemma render_format_safe template values srcs depth :
  budget_safe any (render_format template values srcs depth).
Proof. apply render_loop_safe. Qed.

Lemma write_string_loop_safe s : ∀ run o, budget_safe any (write_string_loop s run o).
Proof.
  induction s as [|a t IH]; intros run o; cbn [write_string_loop]; budget_walk; apply IH.
Qed.

Lemma write_string_safe s o : budget_safe any (write_string s o).
Proof. unfold write_string. budget_walk. apply write_string_loop_safe. Qed.

Lemma comma_safe i o : budget_safe any (comma_unless_first i o).
Proof. unfold comma_unless_first. budget_walk. Qed.

Hint Resolve write_string_safe comma_safe : budget.

Lemma write_json_safe v : ∀ p o srcs depth, budget_safe any (write_json v p o srcs depth).
Proof.
  induction v as [|b|n|s|l IH|m IH] using Value_ind_nested; intros p o srcs depth;
    cbn [write_json]; budget_walk.
  - rewrite Forall_forall in IH. apply IH. by apply list_elem_of_In.
  - rewrite Forall_forall in IH. apply IH. by apply list_elem_of_In.
Qed.

Lemma serialize_safe v p depth : budget_safe any (serialize v p depth).
Proof. apply write_json_safe. Qed.

Lemma check_copy_safe v : ∀ depth, budget_safe any (check_copy v depth).
Proof.
  induction v as [|b|n|s|l IH|m IH] using Value_ind_nested; intros depth;
    cbn [check_copy]; budget_walk.
  - rewrite Forall_forall in IH. apply IH. by apply list_elem_of_In.
  - rewrite Forall_forall in IH. apply IH. by apply list_elem_of_In.
Qed.

Lemma copy_value_safe v depth : budget_safe any (copy_value v depth).
Proof. unfold copy_value. budget_walk. apply check_copy_safe. Qed.
End scalar_facts.

#[export] Hint Resolve lowercase_safe append_safe equal_safe ordered_safe
  compare_values_with_safe scalar_text_safe render_format_safe write_string_safe
  write_json_safe serialize_safe check_copy_safe copy_value_safe : budget.

Section JsonEvent_induction.
Context (P : JsonEvent → Prop).

Lemma JsonEvent_ind_nested :
  P EvUnit → (∀ b, P (EvBool b)) → (∀ z, P (EvI64 z)) → (∀ n, P (EvU64 n)) →
  (∀ x, P (EvF64 x)) → (∀ s, P (EvStr s)) →
  (∀ l c, Forall P l → P (EvSeq l c)) →
  (∀ l c, Forall (λ kv, P kv.2) l → P (EvMap l c)) →
  P EvError → ∀ ev, P ev.
Proof.
  intros H1 H2 H3 H4 H5 H6 Hs Hm H9. fix IH 1.
  intros [|b|z|n|x|s|l c|l c|]; [clear IH; auto..| | |exact H9].
  - apply Hs. induction l; constructor; [apply IH|assumption].
  - apply Hm. induction l as [|[k v] l]; constructor; [apply IH|assumption].
Qed.
End JsonEvent_induction.

Section reader_facts.
Context `{SerdeNumber, JsonDeserializer}.

Definition seed_safe {A} (m : seeded A) : Prop :=
  safe budget_live budget_le (λ _ b, budget_ok b = true) any m.

Lemma charge_seed_safe m : budget_safe any m → seed_safe (charge_seed m).
Proof.
  intros Hm b Hb. destruct (Hm b Hb) as [Hle HQ]. unfold charge_seed.
  destruct (m b) as [[a|e] b']; simpl in *; [done|]. split; [done|]. apply HQ.
Qed.

Lemma seed_bind_safe {A B} (m : seeded A) (f : A → seeded B) :
  seed_safe m → (∀ a, seed_safe (f a)) → seed_safe (bind m f).
Proof. intros Hm Hf. apply (safe_bind _ _ _ any any _ _ Hm). intros a _. apply Hf. Qed.

Lemma seed_ret_safe {A} (a : A) : seed_safe (ret a).
Proof. apply safe_ret; [apply _|exact I]. Qed.

Lemma seed_fail_safe {A} : seed_safe (fail tt : seeded A).
Proof. apply safe_fail; [apply _|]. by intros b []. Qed.

Lemma seed_foldM_safe {A X} (f : A → X → seeded A) xs acc :
  (∀ a x, In x xs → seed_safe (f a x)) → seed_safe (foldM f xs acc).
Proof. intros Hf. apply safe_foldM; [apply _| |exact I]. intros a x Hx _. by apply Hf. Qed.

Lemma value_seed_safe ev : ∀ depth item, seed_safe (value_seed ev depth item).
Proof.
  assert (∀ depth item (k : seeded Value), seed_safe k →
    seed_safe (do* charge_seed (step depth);
               do* (if item : bool then charge_seed (visit_items 1) else ret tt); k)) as Hpre.
  { intros depth item k Hk. apply seed_bind_safe; [apply charge_seed_safe, step_safe|].
    intros _. apply seed_bind_safe; [|by intros _].
    destruct item; [apply charge_seed_safe, visit_items_safe|apply seed_ret_safe]. }
  assert (∀ (c : bool) v, seed_safe (if c then ret v else fail tt : seeded Value)) as Hend
    by (intros [] v; [apply seed_ret_safe|apply seed_fail_safe]).
  induction ev as [|b|z|n|x|s|l c IH|l c IH|] using JsonEvent_ind_nested;
    intros depth item; cbn [value_seed]; apply Hpre;
    try apply seed_ret_safe; try apply seed_fail_safe.
  - destruct (number_of_f64 x); [apply seed_ret_safe|apply seed_fail_safe].
  - apply seed_bind_safe; [|intros; apply Hend]. apply seed_foldM_safe. intros a ev Hev.
    apply seed_bind_safe; [|intros; apply seed_ret_safe].
    rewrite Forall_forall in IH. by apply IH, list_elem_of_In.
  - apply seed_bind_safe; [|intros; apply Hend]. apply seed_foldM_safe. intros a ev Hev.
    apply seed_bind_safe; [|intros; apply seed_ret_safe].
    rewrite Forall_forall in IH. by apply IH, list_elem_of_In.
Qed.

Lemma json_parse_safe text depth : budget_safe any (json_parse text depth).
Proof.
  apply budget_bind_safe; [auto with budget|]. intros _ b Hb.
  destruct (value_seed_safe (json_events text) depth false b Hb) as [Hle HQ].
  destruct (value_seed _ _ _ b) as [[v|e] b']; simpl in *.
  - destruct (json_end text); simpl; [by split|]. destruct HQ as [[Hok Hact] _].
    rewrite Hact. simpl. split; [done|]. split; [done|]. right. by split.
  - destruct (exhausted b') eqn:Hx; simpl; (split; [done|]); (split; [done|]); auto.
Qed.
End reader_facts.

#[export] Hint Resolve json_parse_safe : budget.
