(* ===== verification/JsonText.v ===== *)
(** * The text of toJSON, and the charges of copies

    A pure reference serializer with its decoder for string bodies, and proofs
    that the budgeted writer of [json.rs] produces exactly its text; the copies
    of [check_copy] as a flat list of charges. *)

From S2P Require Import Prelude RustString Json Diagnostics Expression Budget Decimal Provenance Scalars.

Section text.
Context `{SerdeNumber}.

Definition escape_char (a : ascii) : string :=
  match escape a with Some e => e | None => str1 a end.

Fixpoint escape_all (s : string) : string :=
  match s with "" => "" | String a t => escape_char a +:+ escape_all t end.

Definition json_string (s : string) : string :=
  str1 quote +:+ (escape_all s +:+ str1 quote).

Fixpoint commas (l : list string) : string :=
  match l with
  | [] => ""
  | [x] => x
  | x :: l => x +:+ ("," +:+ commas l)
  end.

Fixpoint json_text (v : Value) : string :=
  match v with
  | JNull => "null"
  | JBool b => if b then "true" else "false"
  | JNumber n => number_to_string n
  | JString s => json_string s
  | JArray l => "[" +:+ (commas (json_text <$> l) +:+ "]")
  | JObject m =>
      "{" +:+ (commas ((λ kv, json_string kv.1 +:+ (":" +:+ json_text kv.2)) <$> m) +:+ "}")
  end.

(** A decoder for the body of a JSON string. *)
Definition hex_value (a : ascii) : option N :=
  let b := byte_of a in
  if in_range 48 57 b then Some (b - 48)
  else if in_range 97 102 b then Some (b - 87)
  else None.

Definition short_escape (a : ascii) : option ascii :=
  if Ascii.eqb a quote then Some quote
  else if Ascii.eqb a backslash then Some backslash
  else if Ascii.eqb a "n" then Some (ascii_of_N 10)
  else if Ascii.eqb a "r" then Some (ascii_of_N 13)
  else if Ascii.eqb a "t" then Some (ascii_of_N 9)
  else if Ascii.eqb a "b" then Some (ascii_of_N 8)
  else if Ascii.eqb a "f" then Some (ascii_of_N 12)
  else None.

Fixpoint unescape (s : string) : option string :=
  match s with
  | "" => Some ""
  | String a t =>
      if Ascii.eqb a backslash then
        match t with
        | String u t1 =>
            if Ascii.eqb u "u" then
              match t1 with
              | String z1 (String z2 (String h (String l t2))) =>
                  if Ascii.eqb z1 "0" && Ascii.eqb z2 "0" then
                    h ← hex_value h; l ← hex_value l;
                    String (ascii_of_N (h * 16 + l)) <$> unescape t2
                  else None
              | _ => None
              end
            else c ← short_escape u; String c <$> unescape t1
        | "" => None
        end
      else if Ascii.eqb a quote || (byte_of a <=? 31) then None
      else String a <$> unescape t
  end.

(** Unescaping one escaped character. *)
Lemma unescape_char a t : unescape (escape_char a +:+ t) = String a <$> unescape t.
Proof.
  destruct a as [[] [] [] [] [] [] [] []];
    cbv [escape_char escape str1 quote backslash];
    cbn -[unescape]; rewrite ?str_app_cons, ?str_app_nil;
    reflexivity.
Qed.

Lemma unescape_escape s : unescape (escape_all s) = Some s.
Proof.
  induction s as [|a t IH]; [done|]. cbn [escape_all]. by rewrite unescape_char, IH.
Qed.

Lemma commas_snoc l x :
  commas (l ++ [x]) = match l with [] => x | _ => commas l +:+ ("," +:+ x) end.
Proof.
  induction l as [|y l IH]; [done|].
  change ((y :: l) ++ [x])%list with (y :: (l ++ [x]))%list.
  destruct l as [|z l]; [done|]. change (commas (y :: ((z :: l) ++ [x]))) with
    (y +:+ ("," +:+ commas ((z :: l) ++ [x]))). rewrite IH. cbn [commas].
  by rewrite !str_app_assoc.
Qed.
End text.

(** ** The writer writes the reference text *)

Section writer.
Context `{SerdeNumber}.

Lemma append_returns o t : returns (λ o', o' = o +:+ t) (append o t).
Proof. unfold append. apply returns_seq, returns_ret. done. Qed.

Lemma scalar_text_number n :
  returns (λ s, s = number_to_string n) (scalar_text (JNumber n)).
Proof. unfold scalar_text. by apply returns_seq, returns_ret. Qed.

Lemma write_string_loop_returns s : ∀ run o,
  returns (λ o', o' = o +:+ (run +:+ escape_all s)) (write_string_loop s run o).
Proof.
  induction s as [|a t IH]; intros run o; cbn [write_string_loop escape_all].
  - rewrite str_app_nil_r. apply append_returns.
  - unfold escape_char. destruct (escape a) as [e|].
    + eapply returns_bind; [apply append_returns|]. intros o1 ->.
      eapply returns_bind; [apply append_returns|]. intros o2 ->.
      intros b o' b' Ho%IH. by rewrite Ho, str_app_nil, !str_app_assoc.
    + intros b o' b' Ho%IH. by rewrite Ho, !str_app_assoc.
Qed.

Lemma write_string_returns s o : returns (λ o', o' = o +:+ json_string s) (write_string s o).
Proof.
  unfold write_string. eapply returns_bind; [apply append_returns|]. intros o1 ->.
  eapply returns_bind; [apply write_string_loop_returns|]. intros o2 ->.
  intros b o' b' Ho%append_returns. rewrite Ho. unfold json_string.
  by rewrite str_app_nil, !str_app_assoc.
Qed.

(** One element of a comma-separated list. *)
Lemma comma_returns (l : list string) o open :
  o = open +:+ commas l →
  returns (λ o', ∀ x, o' +:+ x = open +:+ commas (l ++ [x]))
    (comma_unless_first (N.of_nat (length l)) o).
Proof.
  intros ->. unfold comma_unless_first. destruct (N.ltb_spec 0 (N.of_nat (length l))) as [Hl|Hl].
  - intros b o' b' Ho%append_returns x. rewrite Ho, commas_snoc.
    destruct l; [simpl in Hl; lia|]. by rewrite !str_app_assoc.
  - apply returns_ret. intros x. rewrite commas_snoc. destruct l; [|simpl in Hl; lia].
    simpl. by rewrite str_app_nil_r.
Qed.

(** The accumulator of the array and object loops. *)
Definition written {X} (f : X → string) (open : string) (pre : list X)
    (acc : N * string * EvaluationTrace) : Prop :=
  acc.1.1 = N.of_nat (length pre) ∧ acc.1.2 = open +:+ commas (f <$> pre).

Lemma written_start {X} (f : X → string) open srcs : written f open [] (0, open, srcs).
Proof. split; [done|]. simpl. by rewrite str_app_nil_r. Qed.

Lemma written_next {X} (f : X → string) open pre x acc o (srcs : EvaluationTrace) :
  written f open pre acc → o = open +:+ commas ((f <$> pre) ++ [f x]) →
  written f open (pre ++ [x]) (acc.1.1 + 1, o, srcs).
Proof.
  intros [H1 H2] ->. split; simpl; [rewrite length_app, H1; simpl; lia|].
  by rewrite fmap_app.
Qed.

Lemma write_json_returns v : ∀ p o srcs depth,
  returns (λ r, r.1 = o +:+ json_text v) (write_json v p o srcs depth).
Proof.
  induction v as [|b|n|s|l IH|m IH] using Value_ind_nested; intros p o srcs depth;
    cbn [write_json json_text]; apply returns_seq.
  - eapply returns_bind; [apply append_returns|]. intros o' ->. by apply returns_ret.
  - eapply returns_bind; [apply append_returns|]. intros o' ->. by apply returns_ret.
  - eapply returns_bind; [apply scalar_text_number|]. intros t ->.
    eapply returns_bind; [apply append_returns|]. intros o' ->. by apply returns_ret.
  - eapply returns_bind; [apply write_string_returns|]. intros o' ->. by apply returns_ret.
  - apply returns_seq. eapply returns_bind; [apply append_returns|]. intros o' ->.
    eapply returns_bind.
    { apply (returns_foldM (written json_text (o +:+ "["))); [|apply written_start].
      intros pre x [[i o1] srcs1] Hx Hw. pose proof Hw as [Hi Ho]. simpl in Hi, Ho. subst i.
      eapply returns_bind; [rewrite <- (length_fmap json_text); by apply comma_returns|].
      intros o2 Ho2. rewrite Forall_forall in IH.
      eapply returns_bind; [apply IH; by apply list_elem_of_In|]. intros r Hr.
      apply returns_ret. eapply (written_next _ _ _ _ (_, _, srcs1)); [exact Hw|].
      by rewrite Hr, Ho2. }
    intros [[i o1] srcs1] [_ Ho]. simpl in Ho. eapply returns_bind; [apply append_returns|].
    intros o2 ->. apply returns_ret. simpl. by rewrite Ho, !str_app_assoc.
  - apply returns_seq. eapply returns_bind; [apply append_returns|]. intros o' ->.
    eapply returns_bind.
    { apply (returns_foldM (written (λ kv, json_string kv.1 +:+ (":" +:+ json_text kv.2))
               (o +:+ "{"))); [|apply written_start].
      intros pre x [[i o1] srcs1] Hx Hw. pose proof Hw as [Hi Ho]. simpl in Hi, Ho. subst i.
      eapply returns_bind.
      { rewrite <- (length_fmap (λ kv, json_string kv.1 +:+ (":" +:+ json_text kv.2))).
        by apply comma_returns. }
      intros o2 Ho2. eapply returns_bind; [apply write_string_returns|]. intros o3 ->.
      eapply returns_bind; [apply append_returns|]. intros o4 ->. rewrite Forall_forall in IH.
      eapply returns_bind; [apply IH; by apply list_elem_of_In|]. intros r Hr.
      apply returns_ret. eapply (written_next _ _ _ _ (_, _, srcs1)); [exact Hw|].
      rewrite Hr. by rewrite <- Ho2, !str_app_assoc. }
    intros [[i o1] srcs1] [_ Ho]. simpl in Ho. eapply returns_bind; [apply append_returns|].
    intros o2 ->. apply returns_ret. simpl. by rewrite Ho, !str_app_assoc.
Qed.
End writer.

(** ** Copies as charges *)

Section copies.
Context `{SerdeNumber}.

Fixpoint copy_charges (v : Value) (depth : N) : list Charge :=
  CStep depth ::
  match v with
  | JArray l =>
      CItems (N.of_nat (length l)) :: CMaterialized (sat_add (N.of_nat (length l)) 2) ::
      mjoin ((λ x, copy_charges x (depth + 1)) <$> l)
  | JObject m =>
      CItems (N.of_nat (length m)) :: CMaterialized (sat_add (N.of_nat (length m)) 2) ::
      mjoin ((λ kv, CMaterialized (sat_add (str_len kv.1) 3) :: copy_charges kv.2 (depth + 1))
               <$> m)
  | JString s => [CMaterialized (str_len s)]
  | _ => [CMaterialized 32]
  end.

Lemma charge_all_app cs cs' b :
  charge_all (cs ++ cs') b = bind (charge_all cs) (λ _, charge_all cs') b.
Proof.
  revert b. induction cs as [|c cs IH]; intros b; [done|].
  unfold charge_all. cbn [foldM app]. unfold bind. simpl.
  destruct (charge c b) as [[[]|e] b']; [|done]. apply IH.
Qed.

Lemma bind_ext {S E A B} (m : SE S E A) (f g : A → SE S E B) s :
  (∀ a s', f a s' = g a s') → bind m f s = bind m g s.
Proof. intros Hfg. unfold bind. destruct (m s) as [[a|e] s']; [apply Hfg|done]. Qed.

Lemma charge_all_cons c cs b :
  charge_all (c :: cs) b = bind (charge c) (λ _, charge_all cs) b.
Proof.
  unfold charge_all. cbn [foldM]. apply bind_ext. by intros [] b'.
Qed.

Lemma charge_all_one c b : charge_all [c] b = charge c b.
Proof.
  rewrite charge_all_cons. unfold bind, charge_all. simpl.
  by destruct (charge c b) as [[[]|e] b'].
Qed.

(** A loop whose body is a run of charges is one run of charges. *)
Lemma foldM_charges {X} (f : unit → X → budgeted unit) (g : X → list Charge) xs b :
  (∀ x b, In x xs → f tt x b = charge_all (g x) b) →
  foldM f xs tt b = charge_all (mjoin (g <$> xs)) b.
Proof.
  revert b. induction xs as [|x xs IH]; intros b Hf; [done|].
  cbn [foldM fmap list_fmap mjoin list_join]. rewrite charge_all_app.
  unfold bind. rewrite Hf by (simpl; auto).
  destruct (charge_all (g x) b) as [[[]|e] b']; [|done].
  apply IH. intros y b'' Hy. apply Hf. simpl; auto.
Qed.

Lemma check_copy_charges v : ∀ depth b, check_copy v depth b = charge_all (copy_charges v depth) b.
Proof.
  induction v as [|x|n|s|l IH|m IH] using Value_ind_nested; intros depth b;
    cbn [check_copy copy_charges]; rewrite charge_all_cons; apply bind_ext;
    intros _ b1; try (by rewrite charge_all_one).
  - rewrite charge_all_cons. apply bind_ext. intros _ b2.
    rewrite charge_all_cons. apply bind_ext. intros _ b3.
    apply foldM_charges. intros x b' Hx. rewrite Forall_forall in IH.
    apply IH. by apply list_elem_of_In.
  - rewrite charge_all_cons. apply bind_ext. intros _ b2.
    rewrite charge_all_cons. apply bind_ext. intros _ b3.
    apply foldM_charges. intros x b' Hx. rewrite charge_all_cons. apply bind_ext.
    intros _ b4. rewrite Forall_forall in IH. apply IH. by apply list_elem_of_In.
Qed.
End copies.

(** ** Properties *)

Section json_properties.
Context `{SerdeNumber}.

(** When [toJSON] succeeds its text is the compact JSON text of the value
    with object keys in ascending order, whatever the provenance and the
    budget. *)
Theorem serialize_text v p depth b text sources b' :
  serialize v p depth b = (Ok (text, sources), b') → text = json_text v.
Proof. intros Hs. by apply write_json_returns in Hs. Qed.

(** Escaping a string for JSON loses nothing: the decoder of string bodies
    gives the string back, control characters included. *)
Theorem escape_round_trip s : unescape (escape_all s) = Some s.
Proof. apply unescape_escape. Qed.

(** Copying a value charges a fixed list of charges in a fixed order, so on
    an active budget it succeeds exactly when the whole list is affordable,
    and the copy is the value. *)
Theorem copy_value_cost v depth b :
  budget_live b →
  copy_value v depth b =
  if affordable b (copy_charges v depth)
  then (Ok v, spend (copy_charges v depth) b)
  else (map_err id (result_map (λ _, v) (check_copy v depth b).1), (check_copy v depth b).2).
Proof.
  intros Hb. pose proof (charge_all_spec (copy_charges v depth) b Hb) as Hc.
  unfold copy_value, bind. rewrite check_copy_charges.
  destruct (affordable b _); [by rewrite Hc|].
  destruct (charge_all _ b) as [[[]|e] b']; [done|reflexivity].
Qed.
End json_properties.

Definition sample_value : @Value text_numbers :=
  @JObject text_numbers
    [("a", @JArray text_numbers [@JNumber text_numbers "1"; @JNull text_numbers]);
     ("b", @JString text_numbers (String quote "x"))].

Lemma serialize_text_witness :
  ∃ sources b', serialize (H:=text_numbers) sample_value ValueProvenance_default 1
                  EvaluationBudget_default = (Ok (json_text sample_value, sources), b').
Proof.
  destruct (serialize (H:=text_numbers) sample_value ValueProvenance_default 1
              EvaluationBudget_default) as [[[text sources]|e] b'] eqn:E.
  - exists sources, b'. by rewrite (serialize_text _ _ _ _ _ _ _ E).
  - exfalso. revert E. vm_compute. discriminate.
Defined.

Lemma copy_value_cost_witness :
  (copy_value (H:=text_numbers) sample_value 1 EvaluationBudget_default).1 = Ok sample_value.
Proof.
  rewrite (copy_value_cost (H:=text_numbers) sample_value 1 EvaluationBudget_default); [|done].
  vm_refl.
Defined.
