(* ===== verification/Evaluator.v ===== *)
(** * Expression evaluation (crates/antiburn-checks/src/expression_eval.rs, [Evaluator])

    The evaluator over a frozen context, alias bindings, and the shared budget.
    [evaluate], [access], [project] and [call] are mutually recursive in the
    source; here the last three take [evaluate] as an argument.  A place where
    the source would panic is [panic]; the facts show that it is never
    reached. *)

From S2P Require Import Prelude RustString Json Diagnostics Expression Lexer Parser Budget Decimal Provenance Scalars.

(** [unreachable!] and [expect].  No error of the evaluator has this code. *)
Definition panic_error : EvaluationError :=
  {| code := DiscoveryPaused; message := "panic" |}.

Section evaluator.
Context `{SerdeNumber, UnicodeData, JsonDeserializer}.

(** [EvaluationBindings]: a [BTreeMap] from alias to value. *)
Record Scope := {
  context : Value;
  bindings : list (string * EvaluatedValue)
}.

Definition panic {A} : evaluation A := fail panic_error.

(** [Evaluator::select] *)
Definition select (v : RuntimeValue) (segment : PathSegment) : evaluation RuntimeValue :=
  match value v with
  | None => ret (unavailable (metadata v))
  | Some json =>
      let is_length :=
        match segment, as_ref json with
        | PProperty p, JArray l => if String.eqb p "length" then Some l else None
        | _, _ => None
        end in
      match is_length with
      | Some l =>
          owned (JNumber (number_of_u64 (N.of_nat (length l)))) (membership_trace (metadata v))
      | None =>
          let m := child (metadata v) segment in
          let m := match as_ref json with
                   | JArray _ => merge_dependencies (membership_trace (metadata v)) m
                   | _ => m
                   end in
          let found :=
            match segment, as_ref json with
            | PProperty p, JObject o => map_get p o
            | PIndex i, JArray l => items_get l i
            | _, _ => None
            end in
          let same_ownership x :=
            match json with Borrowed _ => Borrowed x | Owned _ => Owned x end in
          ret {| value := same_ownership <$> found; metadata := m |}
      end
  end.

(** The loop of [Evaluator::path]. *)
Fixpoint select_path (v : RuntimeValue) (remaining : list PathSegment) (depth position : N) :
    evaluation RuntimeValue :=
  match remaining with
  | [] => ret v
  | segment :: remaining =>
      do* on_budget (step (sat_add depth position));
      let* v := select v segment in
      select_path v remaining depth (position + 1)
  end.

Definition path_root (sc : Scope) (root : string) : RuntimeValue :=
  match map_get root (bindings sc) with
  | Some b =>
      {| value := match ev_value b with Available v => Some (Borrowed v) | Unavailable => None end;
         metadata := ev_metadata b |}
  | None =>
      {| value := Borrowed <$> value_get (context sc) root;
         metadata := frozen [PProperty root] |}
  end.

(** [Evaluator::path] *)
Definition eval_path (sc : Scope) (path : list PathSegment) (depth : N) :
    evaluation RuntimeValue :=
  match path with
  | PProperty root :: remaining => select_path (path_root sc root) remaining depth 0
  | _ => ret (unavailable ValueMetadata_default)
  end.

(** The free function [compare]. *)
Definition compare_runtime (op : BinaryOperator) (l r : RuntimeValue) :
    evaluation RuntimeValue :=
  let t := merge (rv_trace l) (rv_trace r) in
  match value l, value r with
  | Some lv, Some rv =>
      let same_id := same_identity (identity (metadata l)) (identity (metadata r)) in
      match op with
      | And | Or => panic
      | _ =>
          let* result := on_budget (compare_values_with op (as_ref lv) (as_ref rv) same_id) in
          owned (JBool result) t
      end
  | _, _ => ret (unavailable (derived t))
  end.

(** The segment a dynamic selector evaluates to. *)
Definition dynamic_segment (selector : Value) : budgeted (option PathSegment) :=
  match selector with
  | JString key => do* reserve_generated_bytes (str_len key); ret (Some (PProperty key))
  | JNumber n => ret (PIndex <$> integral_index n)
  | _ => ret None
  end.

(** ** Projection *)

Fixpoint enumerate_from {A} (i : N) (l : list A) : list (N * A) :=
  match l with [] => [] | x :: l => (i, x) :: enumerate_from (i + 1) l end.

(** The entries of a collection with their segments; [BTreeMap] iterates in
    key order, so the sort keeps the order. *)
Definition collection_entries (json : Cow) : list (PathSegment * Cow) :=
  let own x := match json with Borrowed _ => Borrowed x | Owned _ => Owned x end in
  match as_ref json with
  | JArray l => (λ ix, (PIndex ix.1, own ix.2)) <$> enumerate_from 0 l
  | JObject m => (λ kv, (PProperty kv.1, own kv.2)) <$> m
  | _ => []
  end.

Definition collection_count (v : Value) : option N :=
  match v with
  | JArray l => Some (N.of_nat (length l))
  | JObject m => Some (N.of_nat (length m))
  | _ => None
  end.

Definition reserve_keys (json : Cow) : budgeted unit :=
  match json with
  | Borrowed (JObject m) => foldM (λ _ kv, reserve_generated_bytes (str_len kv.1)) m tt
  | _ => ret tt
  end.

Section project.
(** [self.access(item, remaining, depth)] for the segments after [*]. *)
Variable access_rest : RuntimeValue → N → evaluation RuntimeValue.

Fixpoint project_loop (source : ValueMetadata) (entries : list (PathSegment * Cow))
    (depth : N) (deps : EvaluationTrace) (item_metadata : list ValueMetadata)
    (output : list Value) : evaluation RuntimeValue :=
  match entries with
  | [] =>
      let* r := owned (JArray output) deps in
      ret {| value := value r; metadata := with_items item_metadata (metadata r) |}
  | (segment, item) :: entries =>
      let* selected := access_rest {| value := Some item; metadata := child source segment |}
                         depth in
      match value selected with
      | None =>
          let deps := merge deps (rv_trace selected) in
          let deps := fold_left (λ t m, merge t (trace m)) item_metadata deps in
          ret (unavailable (derived deps))
      | Some _ =>
          let* selected := finish selected depth in
          match ev_value selected with
          | Available json =>
              project_loop source entries depth deps
                (item_metadata ++ [ev_metadata selected])%list (output ++ [json])%list
          | Unavailable => panic
          end
      end
  end.

Definition project (v : RuntimeValue) (depth : N) : evaluation RuntimeValue :=
  do* on_budget (step depth);
  let deps := membership_trace (metadata v) in
  match value v with
  | None => ret (unavailable (derived deps))
  | Some json =>
      match collection_count (as_ref json) with
      | None => ret (unavailable (derived (trace (metadata v))))
      | Some count =>
          do* on_budget (visit_items count);
          do* on_budget (reserve_generated_bytes (sat_add count 2));
          do* on_budget (reserve_keys json);
          project_loop (metadata v) (collection_entries json) depth deps [] []
      end
  end.
End project.

(** ** Access *)

Section access.
Variable evaluate : Expression → N → evaluation RuntimeValue.

Fixpoint access (segments : list AccessSegment) (v : RuntimeValue) (depth position : N) :
    evaluation RuntimeValue :=
  match segments with
  | [] => ret v
  | segment :: rest =>
      do* on_budget (step (sat_add depth position));
      match value v with
      | None => ret v
      | Some _ =>
          match segment with
          | AProperty p =>
              let* v := select v (PProperty p) in access rest v depth (position + 1)
          | AIndex i =>
              let* v := select v (PIndex i) in access rest v depth (position + 1)
          | ADynamic e =>
              let* selector := evaluate e (depth + 1) in
              let v := {| value := value v;
                          metadata := merge_dependencies (rv_trace selector) (metadata v) |} in
              match value selector with
              | None => ret (unavailable (derived (rv_trace v)))
              | Some s =>
                  let* segment := on_budget (dynamic_segment (as_ref s)) in
                  match segment with
                  | None => ret (unavailable (derived (rv_trace v)))
                  | Some segment =>
                      let* v := select v segment in access rest v depth (position + 1)
                  end
              end
          | AProjection => project (λ item depth, access rest item depth 0) v (depth + 1)
          end
      end
  end.

(** The argument loop of [call]: the unavailable result of an early return,
    or all values with the merged trace. *)
Fixpoint call_arguments (arguments : list Expression) (depth : N)
    (values : list RuntimeValue) (t : EvaluationTrace) :
    evaluation (RuntimeValue + list RuntimeValue * EvaluationTrace) :=
  match arguments with
  | [] => ret (inr (values, t))
  | argument :: arguments =>
      let* v := evaluate argument (depth + 1) in
      let t := merge t (rv_trace v) in
      match value v with
      | None => ret (inl (unavailable (derived t)))
      | Some _ => call_arguments arguments depth (values ++ [v])%list t
      end
  end.
End access.

(** ** Functions *)

(** [available(value)] *)
Definition with_available {A} (v : RuntimeValue) (k : Value → evaluation A) : evaluation A :=
  match value v with Some c => k (as_ref c) | None => panic end.

Definition owned_text (text : string) (t sources : EvaluationTrace) : evaluation RuntimeValue :=
  let* r := owned (JString text) t in
  ret {| value := value r; metadata := with_text_sources sources (metadata r) |}.

Definition strict_equals (l r : Value) : bool :=
  match l, r with
  | JNumber l, JNumber r => bool_decide (decimal_value l = decimal_value r)
  | JNull, JNull => true
  | JBool l, JBool r => Bool.eqb l r
  | JString l, JString r => String.eqb l r
  | _, _ => false
  end.

(** The search loop of [contains] on an array. *)
Fixpoint contains_item (m : ValueMetadata) (right_id : option ValueIdentity) (right : Value)
    (l : list Value) (index depth : N) (t : EvaluationTrace) :
    budgeted (bool * EvaluationTrace) :=
  match l with
  | [] => ret (false, t)
  | item :: l =>
      do* visit_items 1;
      do* step (depth + 1);
      let im := child m (PIndex index) in
      let t := merge t (trace im) in
      let* eq := equal item right (same_identity (identity im) right_id) in
      if eq : bool then ret (true, t)
      else contains_item m right_id right l (index + 1) depth t
  end.

(** The loop of [join]; [separator_sources] is there when the separator is an
    argument. *)
Fixpoint join_items (m : ValueMetadata) (separator : string)
    (separator_sources : option EvaluationTrace) (l : list Value) (index depth : N)
    (text : string) (sources : EvaluationTrace) : budgeted (string * EvaluationTrace) :=
  match l with
  | [] => ret (text, sources)
  | item :: l =>
      do* step (depth + 1);
      let sources := merge sources (text_source_trace (child m (PIndex index))) in
      let* r :=
        if 0 <? index then
          let* text := append text separator in
          ret (text, match separator_sources with
                     | Some s => merge sources s
                     | None => sources
                     end)
        else ret (text, sources) in
      let* item := scalar_text item in
      let* text := append r.1 item in
      join_items m separator separator_sources l (index + 1) depth text r.2
  end.

Definition call_join (values : list RuntimeValue) (depth : N) (t : EvaluationTrace) :
    evaluation RuntimeValue :=
  match values with
  | [] => panic
  | v :: others =>
      let* separator :=
        match others with
        | s :: _ => with_available s (λ s, on_budget (scalar_text s))
        | [] => ret ","
        end in
      let m := metadata v in
      with_available v (λ left,
        match left with
        | JString _ => ret {| value := value v; metadata := merge_dependencies t m |}
        | JArray l =>
            let t := merge t (membership_trace m) in
            do* on_budget (visit_items (N.of_nat (length l)));
            let* r := on_budget (join_items m separator
                        (match others with
                         | s :: _ => Some (text_source_trace (metadata s))
                         | [] => None
                         end) l 0 depth "" (text_source_trace m)) in
            owned_text r.1 t r.2
        | _ => fail (invalid_error "join requires an array or a string.")
        end)
  end.

(** The text of every argument of [format], in order. *)
Fixpoint replacement_texts (values : list RuntimeValue) :
    evaluation (list (string * ValueMetadata)) :=
  match values with
  | [] => ret []
  | v :: values =>
      let* text := with_available v (λ x, on_budget (scalar_text x)) in
      let* rest := replacement_texts values in
      ret ((text, metadata v) :: rest)
  end.

Definition call_format (values : list RuntimeValue) (depth : N) (t : EvaluationTrace) :
    evaluation RuntimeValue :=
  match values with
  | [] => panic
  | v :: others =>
      let* template := with_available v (λ x, on_budget (scalar_text x)) in
      let* replacements := replacement_texts others in
      let* r := on_budget (render_format template replacements
                             (text_source_trace (metadata v)) depth) in
      owned_text r.1 t r.2
  end.

Definition call_contains (v needle : RuntimeValue) (depth : N) (t : EvaluationTrace) :
    evaluation RuntimeValue :=
  with_available v (λ left, with_available needle (λ right,
    match left with
    | JArray l =>
        let t := merge (membership_trace (metadata v)) (rv_trace needle) in
        let* r := on_budget (contains_item (metadata v) (identity (metadata needle)) right l
                               0 depth t) in
        owned (JBool r.1) r.2
    | _ =>
        let* text := on_budget (scalar_text left) in
        let* part := on_budget (scalar_text right) in
        let* text := on_budget (lowercase text) in
        let* part := on_budget (lowercase part) in
        owned (JBool (str_contains text part)) t
    end)).

Definition call_affix (test : string → string → bool) (v part : RuntimeValue)
    (t : EvaluationTrace) : evaluation RuntimeValue :=
  with_available v (λ left, with_available part (λ right,
    let* text := on_budget (scalar_text left) in
    let* part := on_budget (scalar_text right) in
    let* text := on_budget (lowercase text) in
    let* part := on_budget (lowercase part) in
    owned (JBool (test text part)) t)).

Definition call_to_json (v : RuntimeValue) (depth : N) (t : EvaluationTrace) :
    evaluation RuntimeValue :=
  with_available v (λ x,
    let p := source_provenance (metadata v) in
    let* r := on_budget (serialize x p (depth + 1)) in
    let* result := owned_text r.1 t r.2 in
    ret {| value := value result; metadata := with_encoded (Some p) (metadata result) |}).

Definition call_from_json (v : RuntimeValue) (depth : N) (t : EvaluationTrace) :
    evaluation RuntimeValue :=
  with_available v (λ x,
    match x with
    | JString text =>
        let* parsed := on_budget (json_parse text (depth + 1)) in
        let* result := owned parsed t in
        let m := metadata result in
        ret {| value := value result;
               metadata :=
                 match encoded_provenance (metadata v) with
                 | Some p => restore_provenance p m
                 | None => with_membership (text_source_trace (metadata v)) m
                 end |}
    | _ => fail (invalid_error "fromJSON requires a string.")
    end).

Definition call_strict_equals (l r : RuntimeValue) (t : EvaluationTrace) :
    evaluation RuntimeValue :=
  with_available l (λ lv, with_available r (λ rv,
    if is_collection lv || is_collection rv then
      fail (invalid_error "strictEquals requires primitive arguments.")
    else owned (JBool (strict_equals lv rv)) t)).

(** The [match function] of [call]. *)
Definition call_function (f : ExpressionFunction) (values : list RuntimeValue) (depth : N)
    (t : EvaluationTrace) : evaluation RuntimeValue :=
  match f, values with
  | StrictEquals, [l; r] => call_strict_equals l r t
  | Contains, [v; needle] => call_contains v needle depth t
  | StartsWith, [v; part] => call_affix starts_with v part t
  | EndsWith, [v; part] => call_affix ends_with v part t
  | Join, values => call_join values depth t
  | Format, values => call_format values depth t
  | ToJSON, [v] => call_to_json v depth t
  | FromJSON, [v] => call_from_json v depth t
  | _, _ => panic
  end.

(** ** The evaluator *)

Fixpoint evaluate (sc : Scope) (e : Expression) (depth : N) : evaluation RuntimeValue :=
  do* on_budget (step depth);
  match e with
  | ELiteral l =>
      do* match l with
          | LString text => on_budget (reserve_generated_bytes (str_len text))
          | _ => ret tt
          end;
      owned (literal_value l) EvaluationTrace_default
  | EPath path => eval_path sc path depth
  | EAccess base segments =>
      let* v := evaluate sc base (depth + 1) in
      access (evaluate sc) segments v depth 0
  | ECall f arguments =>
      if negb (accepts_arity f (N.of_nat (length arguments))) then
        fail (invalid_error "Wrong number of expression function arguments.")
      else
        let* r := call_arguments (evaluate sc) arguments depth [] EvaluationTrace_default in
        match r with
        | inl v => ret v
        | inr (values, t) => call_function f values depth t
        end
  | ENot e =>
      let* v := evaluate sc e (depth + 1) in
      match value v with
      | Some c => owned (JBool (negb (is_truthy (as_ref c)))) (rv_trace v)
      | None => ret (unavailable (derived (rv_trace v)))
      end
  | EBinary op e1 e2 =>
      let* l := evaluate sc e1 (depth + 1) in
      match value l with
      | None => ret l
      | Some c =>
          let t := is_truthy (as_ref c) in
          if (bool_decide (op = And) && negb t) || (bool_decide (op = Or) && t) then ret l
          else
            let* r := evaluate sc e2 (depth + 1) in
            if bool_decide (op = And) || bool_decide (op = Or) then
              ret {| value := value r; metadata := merge_dependencies (rv_trace l) (metadata r) |}
            else compare_runtime op l r
      end
  end.

(** ** Entry points *)

Definition evaluate_expression_with_budget (e : Expression) (ctx : Value)
    (bs : list (string * EvaluatedValue)) (depth : N) : evaluation EvaluatedValue :=
  let* v := evaluate {| context := ctx; bindings := bs |} e depth in
  finish v depth.

Definition evaluate_expression_with_limits (e : Expression) (ctx : Value)
    (l : EvaluationLimits) : result EvaluationValue EvaluationError :=
  let s := {| budget := EvaluationBudget_new l DEFAULT_MAX_EVALUATION_ITEMS
                          DEFAULT_MAX_GENERATED_BYTES;
              next_root := 0 |} in
  result_map ev_value (evaluate_expression_with_budget e ctx [] 1 s).1.

Definition evaluate_expression (e : Expression) (ctx : Value) :
    result EvaluationValue EvaluationError :=
  evaluate_expression_with_limits e ctx EvaluationLimits_default.
End evaluator.

(** ** Every evaluation respects the budget and never panics *)

Record eval_le (s s' : EvalState) : Prop := {
  le_budget : budget_le (budget s) (budget s');
  le_root : next_root s ≤ next_root s'
}.

#[export] Instance eval_le_preorder : PreOrder eval_le.
Proof.
  split.
  - intros s. split; [reflexivity|lia].
  - intros a b c [] []. split; [by etrans|lia].
Qed.

Definition eval_safe {A} (Q : A → Prop) (m : evaluation A) : Prop :=
  safe (λ s, budget_live (budget s)) eval_le (λ e s, budget_stop e (budget s)) Q m.

Create HintDb evaluation discriminated.

Lemma on_budget_safe {A} (Q : A → Prop) (m : budgeted A) :
  budget_safe Q m → eval_safe Q (on_budget m).
Proof.
  intros Hm s Hs. destruct (Hm (budget s) Hs) as [Hle HQ]. unfold on_budget.
  destruct (m (budget s)) as [r b]. simpl in *. split; [by split|]. by destruct r.
Qed.

Lemma eval_ret_safe {A} (Q : A → Prop) (a : A) : Q a → eval_safe Q (ret a).
Proof. apply safe_ret. apply _. Qed.

Lemma eval_invalid_safe {A} (Q : A → Prop) msg : eval_safe Q (fail (invalid_error msg)).
Proof.
  apply safe_fail; [apply _|]. intros s [Hok Hact]. split; [exact Hok|]. right. by split.
Qed.

Lemma eval_bind_safe {A B} (P : A → Prop) (Q : B → Prop) (m : evaluation A)
    (f : A → evaluation B) :
  eval_safe P m → (∀ a, P a → eval_safe Q (f a)) → eval_safe Q (bind m f).
Proof. intros Hm Hf. apply (safe_bind _ _ _ P Q _ _ Hm Hf). Qed.

Lemma eval_bind_any {A B} (Q : B → Prop) (m : evaluation A) (f : A → evaluation B) :
  eval_safe any m → (∀ a, eval_safe Q (f a)) → eval_safe Q (bind m f).
Proof. intros Hm Hf. apply (eval_bind_safe any); auto. Qed.

Lemma eval_ret_any {A} (a : A) : eval_safe any (ret a).
Proof. by apply eval_ret_safe. Qed.

Lemma on_budget_any {A} (m : budgeted A) : budget_safe any m → eval_safe any (on_budget m).
Proof. apply on_budget_safe. Qed.

Lemma new_root_safe : eval_safe any new_root.
Proof. intros s Hs. simpl. split; [split; simpl; [reflexivity|lia]|by split]. Qed.

#[export] Hint Resolve eval_ret_any eval_invalid_safe on_budget_any new_root_safe : evaluation.

Ltac eval_walk :=
  repeat first
    [ assumption
    | solve [auto with evaluation budget nocore]
    | apply eval_bind_any; [|intro]
    | case_match ].

Section evaluator_facts.
Context `{SerdeNumber, UnicodeData, JsonDeserializer}.

Lemma generated_safe v : eval_safe any (generated v).
Proof. unfold generated. eval_walk. Qed.
Hint Resolve generated_safe : evaluation.

Lemma owned_safe v t : eval_safe (λ r, is_Some (value r)) (owned v t).
Proof.
  unfold owned. apply eval_bind_any; [eval_walk|]. intros m. by apply eval_ret_safe.
Qed.

Lemma owned_any v t : eval_safe any (owned v t).
Proof. unfold owned. eval_walk. Qed.
Hint Resolve owned_any : evaluation.

Lemma finish_safe v depth :
  eval_safe (λ x, value v ≠ None → ∃ j, ev_value x = Available j) (finish v depth).
Proof.
  unfold finish. eapply (eval_bind_safe (λ x, value v ≠ None → ∃ j, x = Available j)).
  - destruct (value v) as [[j|j]|].
    + apply eval_bind_any; [eval_walk|]. intros c. apply eval_ret_safe. eauto.
    + apply eval_ret_safe. eauto.
    + by apply eval_ret_safe.
  - intros x Hx. apply eval_ret_safe. exact Hx.
Qed.

Lemma select_safe v segment : eval_safe any (select v segment).
Proof. unfold select. eval_walk. Qed.
Hint Resolve select_safe : evaluation.

Lemma select_path_safe remaining : ∀ v depth position,
  eval_safe any (select_path v remaining depth position).
Proof.
  induction remaining as [|seg rest IH]; intros v depth position; cbn [select_path]; eval_walk.
Qed.

Lemma eval_path_safe sc path depth : eval_safe any (eval_path sc path depth).
Proof. unfold eval_path. eval_walk. all: apply select_path_safe. Qed.

Lemma compare_runtime_safe op l r :
  op ≠ And → op ≠ Or → eval_safe any (compare_runtime op l r).
Proof. intros ??. unfold compare_runtime. eval_walk. all: done. Qed.

Lemma dynamic_segment_safe v : budget_safe any (dynamic_segment v).
Proof. unfold dynamic_segment. budget_walk. Qed.

Lemma reserve_keys_safe j : budget_safe any (reserve_keys j).
Proof. unfold reserve_keys. budget_walk. Qed.
Hint Resolve dynamic_segment_safe reserve_keys_safe : budget.

Lemma project_loop_safe f source entries :
  (∀ v depth, eval_safe any (f v depth)) →
  ∀ depth deps im out, eval_safe any (project_loop f source entries depth deps im out).
Proof.
  intros Hf. induction entries as [|[seg item] entries IH]; intros depth deps im out;
    cbn [project_loop]; [eval_walk|].
  apply eval_bind_any; [apply Hf|]. intros sel.
  destruct (value sel) as [c|] eqn:Hv; [|eval_walk].
  eapply eval_bind_safe; [apply finish_safe|]. intros x Hx.
  destruct Hx as [j ->]; [by rewrite Hv|]. apply IH.
Qed.

Lemma project_safe f v depth :
  (∀ v depth, eval_safe any (f v depth)) → eval_safe any (project f v depth).
Proof. intros Hf. unfold project. eval_walk. by apply project_loop_safe. Qed.

Lemma access_safe ev segments :
  Forall (on_segment (λ e, ∀ depth, eval_safe any (ev e depth))) segments →
  ∀ v depth position, eval_safe any (access ev segments v depth position).
Proof.
  induction 1 as [|seg rest Hseg _ IH]; intros v depth position; cbn [access]; [eval_walk|].
  apply eval_bind_any; [eval_walk|]. intros _. destruct (value v); [|eval_walk].
  destruct seg as [p|i|e|]; cbn [on_segment] in Hseg.
  - eval_walk.
  - eval_walk.
  - apply eval_bind_any; [apply Hseg|]. intros sel. eval_walk.
  - apply project_safe. intros v' d'. apply IH.
Qed.

Definition is_available (v : RuntimeValue) : Prop := is_Some (value v).

Lemma call_arguments_safe ev arguments :
  Forall (λ e, ∀ depth, eval_safe any (ev e depth)) arguments →
  ∀ depth values t, Forall is_available values →
    eval_safe (λ r, match r with
                    | inl _ => True
                    | inr (values', _) =>
                        Forall is_available values' ∧
                        length values' = (length values + length arguments)%nat
                    end) (call_arguments ev arguments depth values t).
Proof.
  induction 1 as [|e es He _ IH]; intros depth values t Hvs; cbn [call_arguments].
  { apply eval_ret_safe. simpl. split; [done|lia]. }
  apply eval_bind_any; [apply He|]. intros v.
  destruct (value v) as [c|] eqn:Hv; [|by apply eval_ret_safe].
  eapply safe_mono; [apply IH|].
  { apply Forall_app. split; [done|]. repeat constructor. by exists c. }
  intros [?|[values' t']]; [done|]. intros [H1' H2']. split; [done|].
  rewrite H2', length_app. simpl. lia.
Qed.

Lemma with_available_safe {A} v (k : Value → evaluation A) Q :
  is_available v → (∀ x, eval_safe Q (k x)) → eval_safe Q (with_available v k).
Proof. intros [c Hc] Hk. unfold with_available. rewrite Hc. apply Hk. Qed.

Lemma contains_item_safe m id r l : ∀ index depth t,
  budget_safe any (contains_item m id r l index depth t).
Proof.
  induction l as [|x l IH]; intros index depth t; cbn [contains_item]; budget_walk.
Qed.

Lemma join_items_safe m sep ss l : ∀ index depth text srcs,
  budget_safe any (join_items m sep ss l index depth text srcs).
Proof.
  induction l as [|x l IH]; intros index depth text srcs; cbn [join_items]; budget_walk.
Qed.
Hint Resolve contains_item_safe join_items_safe : budget.

Lemma owned_text_safe text t srcs : eval_safe any (owned_text text t srcs).
Proof. unfold owned_text. eval_walk. Qed.
Hint Resolve owned_text_safe : evaluation.

Lemma replacement_texts_safe values :
  Forall is_available values → eval_safe any (replacement_texts values).
Proof.
  induction 1 as [|v values Hv _ IH]; cbn [replacement_texts]; [eval_walk|].
  apply eval_bind_any; [apply with_available_safe; [done|]; intros x; eval_walk|].
  intros text. eval_walk.
Qed.

(** A function of two available arguments. *)
Ltac binary_call values Har Hin :=
  destruct values as [|v [|w [|]]]; cbn [length] in Har; try lia; cbn [call_function];
  apply with_available_safe; [apply Hin; simpl; auto|intros lv];
  apply with_available_safe; [apply Hin; simpl; auto|intros rv]; eval_walk.

Lemma call_function_safe f values depth t :
  Forall is_available values → accepts_arity f (N.of_nat (length values)) = true →
  eval_safe any (call_function f values depth t).
Proof.
  intros Hvs Har.
  assert (∀ v, In v values → is_available v) as Hin
    by (intros v Hv; rewrite Forall_forall in Hvs; by apply Hvs, list_elem_of_In).
  destruct f; cbn [accepts_arity] in Har.
  1-4: binary_call values Har Hin.
  - destruct values as [|v others]; cbn [length] in Har; try lia.
    cbn [call_function call_join]. apply eval_bind_any.
    { destruct others as [|s others]; [eval_walk|].
      apply with_available_safe; [apply Hin; simpl; auto|]. intros x. eval_walk. }
    intros sep. apply with_available_safe; [apply Hin; simpl; auto|]. intros x. eval_walk.
  - destruct values as [|v others]; cbn [length] in Har; try lia.
    cbn [call_function call_format]. inversion Hvs; subst. apply eval_bind_any.
    { apply with_available_safe; [done|]. intros x. eval_walk. }
    intros template. apply eval_bind_any; [by apply replacement_texts_safe|]. intros rs.
    eval_walk.
  - destruct values as [|v [|w]]; cbn [length] in Har; try lia. cbn [call_function].
    apply with_available_safe; [apply Hin; simpl; auto|]. intros lv. eval_walk.
  - destruct values as [|v [|w]]; cbn [length] in Har; try lia. cbn [call_function].
    apply with_available_safe; [apply Hin; simpl; auto|]. intros lv. eval_walk.
Qed.

Lemma evaluate_safe sc e : ∀ depth, eval_safe any (evaluate sc e depth).
Proof.
  induction e as [l|path|base segs IHb IHs|f args IH|e IH|op l r IHl IHr]
    using Expression_ind_nested; intros depth; cbn [evaluate];
    (apply eval_bind_any; [eval_walk|]; intros _).
  - eval_walk.
  - apply eval_path_safe.
  - apply eval_bind_any; [apply IHb|]. intros v. by apply access_safe.
  - destruct (accepts_arity f _) eqn:Har; cbn [negb]; [|eval_walk].
    eapply eval_bind_safe; [apply (call_arguments_safe _ _ IH); constructor|].
    intros [v|[values t]]; [intros _; eval_walk|]. intros [Hvs Hlen]. simpl in Hlen.
    apply call_function_safe; [done|]. by rewrite Hlen.
  - apply eval_bind_any; [apply IH|]. intros v. eval_walk.
  - apply eval_bind_any; [apply IHl|]. intros lv. destruct (value lv); [|eval_walk].
    destruct (_ || _); [eval_walk|]. apply eval_bind_any; [apply IHr|]. intros rv.
    destruct (bool_decide (op = And) || bool_decide (op = Or)) eqn:Hop; [eval_walk|].
    apply orb_false_iff in Hop as [?%bool_decide_eq_false ?%bool_decide_eq_false].
    by apply compare_runtime_safe.
Qed.
End evaluator_facts.

(** ** Properties *)

Section evaluator_properties.
Context `{SerdeNumber, UnicodeData, JsonDeserializer}.

(** C29: evaluating any expression on an active budget keeps the limits, never
    takes a counter back, and ends with every counter in bounds; it fails only
    with a limit error and an exhausted budget, or with an invalid-context
    error and an active budget, so no panic of the source is reached. *)
Theorem evaluate_respects_budget sc e depth s :
  budget_live (budget s) →
  let '(r, s') := evaluate sc e depth s in
  budget_le (budget s) (budget s') ∧ budget_ok (budget s') = true ∧
  match r with
  | Ok _ => exhausted (budget s') = false
  | Err err =>
      (code err = EvaluationLimitExceeded ∧ exhausted (budget s') = true) ∨
      (code err = RuntimeInvalidContext ∧ exhausted (budget s') = false)
  end.
Proof.
  intros Hs. destruct (evaluate_safe sc e depth s Hs) as [[Hle _] HQ].
  destruct (evaluate sc e depth s) as [[v|err] s']; simpl in *.
  - destruct HQ as [[Hok Hact] _]. done.
  - destruct HQ as [Hok Herr]. done.
Qed.

(** The left operand decides: it is unavailable, or [&&] has a false one, or
    [||] a true one. *)
Definition decides (op : BinaryOperator) (l : RuntimeValue) : bool :=
  match value l with
  | None => true
  | Some c =>
      match op with
      | And => negb (is_truthy (as_ref c))
      | Or => is_truthy (as_ref c)
      | _ => false
      end
  end.

(** Short-circuit evaluation: when the left operand decides, the result and
    the final state are those of the left operand, whatever the right operand
    is. *)
Theorem binary_short_circuit sc op l r depth s b lv s1 :
  step depth (budget s) = (Ok tt, b) →
  evaluate sc l (depth + 1) {| budget := b; next_root := next_root s |} = (Ok lv, s1) →
  decides op lv = true →
  evaluate sc (EBinary op l r) depth s = (Ok lv, s1).
Proof.
  intros Hstep Hl Hd. cbn [evaluate]. unfold bind at 1. unfold on_budget. rewrite Hstep.
  unfold bind at 1. rewrite Hl. unfold decides in Hd. destruct (value lv) as [c|]; [|done].
  destruct op; try discriminate; cbn [bool_decide decide_rel BinaryOperator_eq_dec];
    [rewrite Hd|rewrite Hd]; done.
Qed.

(** A missing value is not null: a property that the frozen context does
    not have evaluates to an unavailable value whose evidence names the
    property, and negating it stays unavailable with the same evidence. *)
Theorem missing_property_unavailable ctx name depth s :
  budget_live (budget s) → depth + 1 ≤ max_depth (limits (budget s)) →
  steps (budget s) + 2 ≤ max_steps (limits (budget s)) →
  value_get ctx name = None →
  ∃ v s', evaluate {| context := ctx; bindings := [] |} (ENot (EPath [PProperty name])) depth s
          = (Ok v, s') ∧
    value v = None ∧
    dependencies (rv_trace v) = [{| dep_path := [PProperty name]; dep_kind := KValue |}].
Proof.
  intros [Hok Hact] Hd Hst Hnone.
  assert (∀ d b, exhausted b = false → d ≤ max_depth (limits b) →
    steps b < max_steps (limits b) → step d b = (Ok tt, set_steps (steps b + 1) b)) as Hstep.
  { intros d b Ha Hdb Hsb. unfold step, bind, get_state, lift, check_active. rewrite Ha. simpl.
    destruct (N.ltb_spec (max_depth (limits b)) d); [lia|].
    destruct (N.leb_spec (max_steps (limits b)) (steps b)); [lia|done]. }
  cbn [evaluate]. unfold bind at 1. unfold on_budget.
  rewrite Hstep by (done || lia). unfold bind at 1. unfold bind at 1. cbn [budget next_root].
  rewrite Hstep by (simpl; done || lia). cbn [eval_path select_path]. unfold path_root.
  cbn [bindings map_get context]. rewrite Hnone. cbn [fmap option_fmap option_map value].
  eexists _, _. split; [reflexivity|]. done.
Qed.
End evaluator_properties.

(** A deserializer for the examples, which accepts nothing. *)
Definition no_json : JsonDeserializer :=
  {| json_events _ := EvError; json_end _ := false |}.

Definition sample_state : EvalState :=
  {| budget := EvaluationBudget_default; next_root := 0 |}.

Definition sample_scope : Scope (H:=text_numbers) :=
  {| context := @JObject text_numbers [("flag", @JBool text_numbers false)]; bindings := [] |}.

Definition sample_evaluate (source : string) (s : EvalState) :
    result (RuntimeValue (H:=text_numbers)) EvaluationError * EvalState :=
  evaluate (H:=text_numbers) (H0:=ascii_unicode) (H1:=no_json) sample_scope
    (parsed_text source) 1 s.

Lemma evaluate_respects_budget_witness :
  is_ok (sample_evaluate "flag || format('{0}', 'x') == 'X'" sample_state).1 = true ∧
  budget_ok (budget (sample_evaluate "flag || format('{0}', 'x') == 'X'" sample_state).2) = true.
Proof.
  split; [vm_refl|].
  pose proof (evaluate_respects_budget (H:=text_numbers) (H0:=ascii_unicode) (H1:=no_json)
    sample_scope (parsed_text "flag || format('{0}', 'x') == 'X'") 1 sample_state
    (conj eq_refl eq_refl)) as Hr.
  unfold sample_evaluate. revert Hr. generalize (evaluate (H:=text_numbers) (H0:=ascii_unicode)
    (H1:=no_json) sample_scope (parsed_text "flag || format('{0}', 'x') == 'X'") 1 sample_state).
  intros [r s'] (_ & Hok & _). exact Hok.
Defined.

Lemma binary_short_circuit_witness :
  ∃ s', sample_evaluate "flag && fromJSON('{')" sample_state =
        (Ok (path_root (H:=text_numbers) sample_scope "flag"), s').
Proof.
  exists {| budget := set_steps 2 EvaluationBudget_default; next_root := 0 |}.
  apply (binary_short_circuit (H:=text_numbers) (H0:=ascii_unicode) (H1:=no_json) sample_scope And
           (parsed_text "flag") (parsed_text "fromJSON('{')") 1 sample_state
           (set_steps 1 EvaluationBudget_default)); vm_refl.
Defined.

Lemma missing_property_unavailable_witness :
  ∃ v s', evaluate (H:=text_numbers) (H0:=ascii_unicode) (H1:=no_json) sample_scope
            (ENot (EPath [PProperty "absent"])) 1 sample_state = (Ok v, s') ∧ value v = None.
Proof.
  destruct (missing_property_unavailable (H:=text_numbers) (H0:=ascii_unicode) (H1:=no_json)
    (context sample_scope) "absent" 1 sample_state) as (v & s' & Hv & Hn & _);
    [done|done|done|done|].
  exists v, s'. by split.
Defined.

(** ** The depth check of the parser *)

Section deep_access.
Context `{SerdeNumber, UnicodeData, JsonDeserializer}.

(** A parenthesised access around another one, [n] times. *)
Fixpoint nest_access (n : nat) (source : string) : string :=
  match n with
  | O => source
  | S n => nest_access n ("(" +:+ (source +:+ ".a)"))
  end.

Definition deep_source : string := nest_access 33 "fromJSON(x)".

(** The parser's depth check does not count the base of an access: a text
    with 33 nested groups parses, although the check is meant to reject what
    the evaluator cannot evaluate; its evaluation fails with the depth limit
    in every context. *)
Theorem deep_access_parses_but_never_evaluates :
  ∃ e, parse_expression deep_source = Some (Ok e) ∧
    ∀ ctx, evaluate_expression e ctx =
           Err (limit_error "Expression evaluation exceeded the depth limit.").
Proof.
  eexists. split; [vm_compute; reflexivity|]. intros ctx. vm_compute. reflexivity.
Qed.
End deep_access.
