(* ===== verification/JsonPointer.v ===== *)
(** * Positions in JSON values

    [serde_json::Value::pointer_mut] finds the position a JSON pointer names.
    It is library code, so the sources' use of it is a class: on a pointer
    rendered from the steps to a present value, it gives that value, and writing
    through it replaces that value only.  Steps, lookup and replacement are
    defined here, with the facts on positions that diverge. *)

From S2P Require Import Prelude RustString Json.

Inductive Step :=
| StepField (key : string)
| StepIndex (index : N).

#[export] Instance Step_eq_dec : EqDecision Step.
Proof. solve_decision. Defined.

(** [field.replace('~', "~0").replace('/', "~1")] *)
Definition escape_field (field : string) : string :=
  str_replace "/" "~1" (str_replace "~" "~0" field).

Definition render_step (s : Step) : string :=
  "/" +:+ match s with StepField k => escape_field k | StepIndex i => pretty i end.

Definition render_pointer (steps : list Step) : string :=
  foldr (λ s t, render_step s +:+ t) "" steps.

Lemma render_pointer_snoc steps s :
  render_pointer (steps ++ [s]) = render_pointer steps +:+ render_step s.
Proof.
  induction steps as [|x steps IH]; cbn [render_pointer foldr app].
  - by rewrite str_app_nil_r.
  - change (foldr (λ s t, render_step s +:+ t) "" (steps ++ [s])) with
      (render_pointer (steps ++ [s])). by rewrite IH, str_app_assoc.
Qed.

(** Neither position is at or below the other. *)
Fixpoint diverge (p q : list Step) : bool :=
  match p, q with
  | a :: p, b :: q => if bool_decide (a = b) then diverge p q else true
  | _, _ => false
  end.

Section positions.
Context `{SerdeNumber}.

Definition step_get (s : Step) (v : Value) : option Value :=
  match s, v with
  | StepField k, JObject m => map_get k m
  | StepIndex i, JArray l => items_get l i
  | _, _ => None
  end.

Definition step_set (s : Step) (x v : Value) : Value :=
  match s, v with
  | StepField k, JObject m => JObject (map_insert k x m)
  | StepIndex i, JArray l => JArray (<[N.to_nat i := x]> l)
  | _, _ => v
  end.

Fixpoint lookup_steps (p : list Step) (v : Value) : option Value :=
  match p with
  | [] => Some v
  | s :: p => w ← step_get s v; lookup_steps p w
  end.

Fixpoint update_steps (p : list Step) (x v : Value) : Value :=
  match p with
  | [] => x
  | s :: p =>
      match step_get s v with
      | Some w => step_set s (update_steps p x w) v
      | None => v
      end
  end.

Lemma step_get_set_eq s x v w : step_get s v = Some w → step_get s (step_set s x v) = Some x.
Proof.
  destruct s as [k|i], v; try done; simpl.
  - by rewrite map_get_insert_eq.
  - unfold items_get. rewrite length_insert. destruct (i <? _) eqn:E; [|done]. intros _.
    rewrite list_lookup_insert_eq; [done|lia].
Qed.

Lemma step_get_set_ne s s' x v : s ≠ s' → step_get s' (step_set s x v) = step_get s' v.
Proof.
  intros Hne. destruct s as [k|i], s' as [k'|i'], v; try done; simpl.
  - rewrite map_get_insert_ne; [done|congruence].
  - unfold items_get. rewrite length_insert. destruct (i' <? _); [|done].
    rewrite list_lookup_insert_ne; [done|]. intros E. apply Hne. f_equal. lia.
Qed.

Lemma lookup_update_eq p x v w :
  lookup_steps p v = Some w → lookup_steps p (update_steps p x v) = Some x.
Proof.
  revert v. induction p as [|s p IH]; intros v; [done|]. simpl.
  destruct (step_get s v) as [u|] eqn:E; simpl; [|done]. intros Hp.
  rewrite (step_get_set_eq _ _ _ _ E). simpl. by apply IH.
Qed.

(** Writing at one position leaves every diverging position alone. *)
Lemma lookup_update_diverge p q x v :
  diverge p q = true → lookup_steps q (update_steps p x v) = lookup_steps q v.
Proof.
  revert q v. induction p as [|a p IH]; intros [|b q] v; try done. simpl.
  case_bool_decide as Hab; simpl.
  - subst b. intros Hd. destruct (step_get a v) as [w|] eqn:E; simpl; [|by rewrite E].
    rewrite (step_get_set_eq _ _ _ _ E). simpl. by apply IH.
  - intros _. destruct (step_get a v) as [w|] eqn:E; [|done].
    by rewrite step_get_set_ne.
Qed.

Lemma diverge_sym p q : diverge p q = diverge q p.
Proof.
  revert q. induction p as [|a p IH]; intros [|b q]; try done. simpl.
  do 2 case_bool_decide; congruence || auto.
Qed.

Lemma diverge_app p q r s : diverge p q = true → diverge (p ++ r) (q ++ s) = true.
Proof.
  revert q. induction p as [|a p IH]; intros [|b q]; try done. simpl.
  case_bool_decide; auto.
Qed.

Lemma diverge_common c p q : diverge (c ++ p) (c ++ q) = diverge p q.
Proof. induction c as [|a c IH]; [done|]. simpl. by rewrite bool_decide_true. Qed.

(** [pointer_mut]: reading and writing through the reference. *)
Class JsonPointer := {
  pointer_get : string → Value → option Value;
  pointer_set : string → Value → Value → Value;
  pointer_get_spec : ∀ p v x, lookup_steps p v = Some x →
    pointer_get (render_pointer p) v = Some x;
  pointer_set_spec : ∀ p v x y, lookup_steps p v = Some x →
    pointer_set (render_pointer p) y v = update_steps p y v
}.
End positions.

(** ** A concrete pointer

    The lookup of RFC 6901: the text after each [/] is a key with its escapes
    undone, or the decimal text of an index.  It shows that the class can be
    met. *)

Fixpoint unescape_field (s : string) : string :=
  match s with
  | "" => ""
  | String a t =>
      match t with
      | String b u =>
          if Ascii.eqb a "~" && Ascii.eqb b "1" then String "/" (unescape_field u)
          else if Ascii.eqb a "~" && Ascii.eqb b "0" then String "~" (unescape_field u)
          else String a (unescape_field t)
      | "" => String a ""
      end
  end.

Lemma str_replace_app c b s t : str_replace c b (s +:+ t) = str_replace c b s +:+ str_replace c b t.
Proof.
  induction s as [|a s IH]; [done|]. rewrite str_app_cons. cbn [str_replace].
  destruct (Ascii.eqb a c); [by rewrite IH, str_app_assoc|]. by rewrite IH, str_app_cons.
Qed.

Lemma unescape_cons a t : a ≠ "~"%char → unescape_field (String a t) = String a (unescape_field t).
Proof.
  intros Ha. destruct t as [|b u]; [done|]. cbn [unescape_field].
  by destruct (Ascii.eqb_spec a "~").
Qed.

Lemma unescape_escape_field s : unescape_field (escape_field s) = s.
Proof.
  unfold escape_field. induction s as [|a s IH]; [done|]. cbn [str_replace].
  destruct (Ascii.eqb_spec a "~") as [->|Ha].
  - rewrite str_replace_app.
    change (String "~" (String "0" (str_replace "/" "~1" (str_replace "~" "~0" s)))) with
      (str_replace "/" "~1" "~0" +:+ str_replace "/" "~1" (str_replace "~" "~0" s)).
    rewrite <- IH at 2. reflexivity.
  - cbn [str_replace]. destruct (Ascii.eqb_spec a "/") as [->|Hb].
    + rewrite <- IH at 2. reflexivity.
    + by rewrite unescape_cons, IH.
Qed.

Definition no_slash (s : string) : bool := str_all (λ a, negb (Ascii.eqb a "/")) s.

Lemma escape_field_no_slash s : no_slash (escape_field s) = true.
Proof.
  unfold escape_field. generalize (str_replace "~" "~0" s). intros t.
  induction t as [|a t IH]; [done|]. cbn [str_replace].
  destruct (Ascii.eqb a "/") eqn:E; [exact IH|]. unfold no_slash. cbn [str_all]. by rewrite E.
Qed.

Lemma pretty_N_no_slash (i : N) : no_slash (pretty i) = true.
Proof.
  apply (str_all_mono is_ascii_digit); [|apply pretty_digits]. intros a Ha.
  destruct (Ascii.eqb_spec a "/") as [->|]; done.
Qed.

Lemma str_split_token u t : no_slash u = true →
  str_split "/" (u +:+ String "/" t) = u :: str_split "/" t.
Proof.
  induction u as [|a u IH]; [done|]. unfold no_slash. cbn [str_all]. intros [Ha Hu]%andb_true_iff.
  rewrite str_app_cons. cbn [str_split]. destruct (Ascii.eqb a "/"); [done|].
  by rewrite IH.
Qed.

Lemma str_split_last u : no_slash u = true → str_split "/" u = [u].
Proof.
  induction u as [|a u IH]; [done|]. unfold no_slash. cbn [str_all]. intros [Ha Hu]%andb_true_iff.
  cbn [str_split]. destruct (Ascii.eqb a "/"); [done|]. by rewrite IH.
Qed.

Definition step_token (s : Step) : string :=
  match s with StepField k => escape_field k | StepIndex i => pretty i end.

Lemma step_token_no_slash s : no_slash (step_token s) = true.
Proof. destruct s; [apply escape_field_no_slash|apply pretty_N_no_slash]. Qed.

Lemma str_split_pointer steps : steps ≠ [] →
  str_split "/" (render_pointer steps) = "" :: (step_token <$> steps).
Proof.
  intros Hne. destruct steps as [|s steps]; [done|]. clear Hne.
  assert (∀ s steps, str_split "/" (step_token s +:+ render_pointer steps) =
            step_token s :: (step_token <$> steps)) as Hgo.
  { clear. intros s steps. revert s. induction steps as [|s' steps IH]; intros s.
    - cbn [render_pointer foldr]. rewrite str_app_nil_r. apply str_split_last, step_token_no_slash.
    - change (render_pointer (s' :: steps)) with
        (String "/" (step_token s' +:+ render_pointer steps)).
      rewrite str_split_token by apply step_token_no_slash. by rewrite IH. }
  change (render_pointer (s :: steps)) with (String "/" (step_token s +:+ render_pointer steps)).
  cbn [str_split]. simpl. by rewrite Hgo.
Qed.

Section concrete_pointer.
Context `{SerdeNumber}.

Fixpoint index_of (token : string) (l : list Value) (i : N) : option N :=
  match l with
  | [] => None
  | _ :: l => if String.eqb (pretty i) token then Some i else index_of token l (i + 1)
  end.

Lemma index_of_pretty l : ∀ i j, j < N.of_nat (length l) →
  index_of (pretty (i + j)) l i = Some (i + j).
Proof.
  induction l as [|x l IH]; intros i j Hj; cbn [length] in Hj; [lia|]. cbn [index_of].
  destruct (String.eqb_spec (pretty i) (pretty (i + j))) as [E|E].
  - apply (inj pretty) in E. by rewrite <- E.
  - assert (j ≠ 0) by (intros ->; rewrite N.add_0_r in E; done).
    replace (i + j) with (i + 1 + (j - 1)) by lia. apply IH. lia.
Qed.

(** The step a token means in a value. *)
Definition token_step (token : string) (v : Value) : Step :=
  match v with
  | JArray l => StepIndex (default (N.of_nat (length l)) (index_of token l 0))
  | _ => StepField (unescape_field token)
  end.

Fixpoint resolve (tokens : list string) (v : Value) : list Step :=
  match tokens with
  | [] => []
  | token :: tokens =>
      let s := token_step token v in
      s :: match step_get s v with Some w => resolve tokens w | None => [] end
  end.

Definition pointer_steps (pointer : string) (v : Value) : list Step :=
  resolve (tl (str_split "/" pointer)) v.

Lemma resolve_tokens p : ∀ v x, lookup_steps p v = Some x → resolve (step_token <$> p) v = p.
Proof.
  induction p as [|s p IH]; intros v x; [done|]. cbn [lookup_steps].
  destruct (step_get s v) as [w|] eqn:E; simpl; [|done]. intros Hp.
  assert (token_step (step_token s) v = s) as Hs.
  { destruct s as [k|i], v; try done; simpl.
    - by rewrite unescape_escape_field.
    - simpl in E. unfold items_get in E. destruct (i <? _) eqn:Ei; [|done].
      pose proof (index_of_pretty items 0 i ltac:(lia)) as Hi.
      rewrite N.add_0_l in Hi. by rewrite Hi. }
  rewrite Hs, E. f_equal. by eapply IH.
Qed.

Lemma pointer_steps_render p v x :
  lookup_steps p v = Some x → pointer_steps (render_pointer p) v = p.
Proof.
  intros Hp. unfold pointer_steps. destruct p as [|s p]; [done|].
  rewrite str_split_pointer by done. by eapply resolve_tokens.
Qed.

#[program] Definition rfc_pointer : JsonPointer := {|
  pointer_get p v := lookup_steps (pointer_steps p v) v;
  pointer_set p x v := update_steps (pointer_steps p v) x v
|}.
Next Obligation. intros p v x Hp. simpl. by rewrite (pointer_steps_render p v x Hp). Qed.
Next Obligation. intros p v x y Hp. simpl. by rewrite (pointer_steps_render p v x Hp). Qed.
End concrete_pointer.
