(* ===== verification/Fit.v ===== *)
(** * Input fitting (crates/antiburn-checks/src/fit.rs, fit_limits.rs)

    The reductions that make a decision input fit a provider's budget, and the
    limits on the work they may take.  The serializer that measures values, the
    JSON pointer, and the validator callback are parameters; the validator has a
    state of its own.  The rounds of [fit_input] take fuel, and [fit_input_total]
    shows that the limit on turns is enough of it. *)

From S2P Require Import Prelude RustString Json Diagnostics Expression Budget Provenance Scalars JsonText JsonPointer.

Definition MAX_FIT_INPUT_BYTES : N := 8 * 1024 * 1024.
Definition MAX_FIT_INPUT_NODES : N := 16384.
Definition MAX_FIT_INPUT_DEPTH : N := 64.
Definition MAX_FIT_RULES : N := 128.
Definition MAX_FIT_PATH_SEGMENTS : N := 64.
Definition MAX_FIT_PATH_BYTES : N := 2048.
Definition MAX_FIT_TARGETS : N := 4096.
Definition MAX_FIT_TRAVERSAL_NODES : N := 32768.
Definition MAX_FIT_TURNS : N := 4096.
Definition TRUNCATE_CHUNK_BYTES : N := 1024.
Definition MINIMUM_TEXT_BYTES : N := 256.
Definition newline : string := String (ascii_of_N 10) "".
Definition OMISSION_MARKER : string := newline +:+ ("[... omitted ...]" +:+ newline).

(** ** Data *)

Inductive FitStrategy := Recent | Truncate.

#[export] Instance FitStrategy_eq_dec : EqDecision FitStrategy.
Proof. solve_decision. Defined.

Inductive FitPathSegment :=
| Field (name : string)
| Each.

#[export] Instance FitPathSegment_eq_dec : EqDecision FitPathSegment.
Proof. solve_decision. Defined.

Record FitRule := {
  rule_path : string;
  segments : list FitPathSegment;
  rule_strategy : FitStrategy
}.

Record FitOmission := {
  om_path : string;
  om_strategy : FitStrategy;
  om_original_count : N;
  om_retained_count : N
}.

Record FitReport := { omissions : list FitOmission }.

Inductive PreparationFailureCode :=
| ConditionFalse | InputUnavailable | InvalidInput | InvalidRequest | NoFit
| PreparationResourceLimit | InvalidFit | ProviderUnavailable | IncompatibleProfile.

Inductive NoFitReason := NoRules | NoMatchingTargets | TargetsAtMinimum | ReductionsExhausted.

Inductive PreparationBudgetKind :=
| InputBytes | InputNodes | InputDepth | FitRules | PathDepth | PathBytes | ExpandedTargets
| TraversalNodes | Turns | WorkBytes | RequestBytes | EstimatedTokens | ResidentBytes | Criteria.

Record PreparationBudget := {
  pb_kind : PreparationBudgetKind;
  observed : N;
  maximum : N
}.

Record PreparationFailureContext := {
  c_decision : option string;
  c_field : option string;
  c_input_path : option string;
  c_no_fit_reason : option NoFitReason;
  c_budget : option PreparationBudget
}.

Definition context_default : PreparationFailureContext :=
  {| c_decision := None; c_field := None; c_input_path := None; c_no_fit_reason := None;
     c_budget := None |}.

Record PreparationFailure := {
  pf_code : PreparationFailureCode;
  pf_detail : string;
  pf_report : option FitReport;
  pf_context : PreparationFailureContext
}.

Inductive FitValidationError :=
| OverBudget (estimate : PreparationBudget)
| ResourceLimit (budget : PreparationBudget)
| ValidatorUnavailable (detail : string)
| InvalidFitRequest (detail : string) (context : PreparationFailureContext).

(** Field updates on failures. *)
Definition with_report (r : FitReport) (f : PreparationFailure) : PreparationFailure :=
  {| pf_code := pf_code f; pf_detail := pf_detail f; pf_report := Some r;
     pf_context := pf_context f |}.
Definition with_input_path (p : string) (f : PreparationFailure) : PreparationFailure :=
  let c := pf_context f in
  {| pf_code := pf_code f; pf_detail := pf_detail f; pf_report := pf_report f;
     pf_context := {| c_decision := c_decision c; c_field := c_field c; c_input_path := Some p;
                      c_no_fit_reason := c_no_fit_reason c; c_budget := c_budget c |} |}.
Definition with_budget (b : PreparationBudget) (f : PreparationFailure) : PreparationFailure :=
  let c := pf_context f in
  {| pf_code := pf_code f; pf_detail := pf_detail f; pf_report := pf_report f;
     pf_context := {| c_decision := c_decision c; c_field := c_field c;
                      c_input_path := c_input_path c; c_no_fit_reason := c_no_fit_reason c;
                      c_budget := Some b |} |}.

(** ** Local preparation state *)

Record LocalPreparation := {
  version : N;
  started_at_unix_ms : N;
  evaluation_budget : EvaluationBudget
}.

Definition LocalPreparation_new (now : N) : LocalPreparation :=
  {| version := 1; started_at_unix_ms := now; evaluation_budget := EvaluationBudget_default |}.

Definition incompatible (detail : string) : PreparationFailure :=
  {| pf_code := IncompatibleProfile; pf_detail := detail; pf_report := None;
     pf_context := context_default |}.

Definition LocalPreparation_validate_for_resume (p : LocalPreparation) :
    result unit PreparationFailure :=
  if negb (version p =? 1) then
    Err (incompatible "The saved local preparation version is unsupported.")
  else map_err (λ e, incompatible (message e)) (validate_for_resume (evaluation_budget p)).

(** ** Limits (fit_limits.rs) *)

Definition budget_field (k : PreparationBudgetKind) : option string :=
  match k with
  | InputBytes | InputNodes | InputDepth => Some "input"
  | FitRules | PathDepth | PathBytes | ExpandedTargets | TraversalNodes | Turns => Some "fit"
  | WorkBytes | RequestBytes | EstimatedTokens | ResidentBytes | Criteria => None
  end.

Definition resource_limit (b : PreparationBudget) : PreparationFailure :=
  {| pf_code := PreparationResourceLimit;
     pf_detail := "Input preparation reached a local resource limit. Select less input or fewer fitting targets. The model request was not sent.";
     pf_report := None;
     pf_context := {| c_decision := None; c_field := budget_field (pb_kind b);
                      c_input_path := None; c_no_fit_reason := None; c_budget := Some b |} |}.

Definition check_count (k : PreparationBudgetKind) (n max : N) : result unit PreparationFailure :=
  if max <? n then Err (resource_limit {| pb_kind := k; observed := n; maximum := max |})
  else Ok tt.

Record FittingWorkBudget := { consumed : N }.

Definition FittingWorkBudget_MAXIMUM : N := 64 * 1024 * 1024.

Definition work_charge (bytes : N) : SE FittingWorkBudget PreparationFailure unit := λ w,
  let n := sat_add (consumed w) bytes in
  (if FittingWorkBudget_MAXIMUM <? n then
     Err (resource_limit {| pb_kind := WorkBytes; observed := n;
                            maximum := FittingWorkBudget_MAXIMUM |})
   else Ok tt, {| consumed := n |}).

(** The counters of [admit_value]: nodes and text bytes. *)
Definition counters : Type := N * N.

Definition add_text_bytes (count : N) : SE counters PreparationFailure unit := λ c,
  let total := sat_add c.2 count in
  (if MAX_FIT_INPUT_BYTES <? total then
     Err (resource_limit {| pb_kind := InputBytes; observed := total;
                            maximum := MAX_FIT_INPUT_BYTES |})
   else Ok tt, (c.1, total)).

Definition count_node : SE counters PreparationFailure unit := λ c,
  (check_count InputNodes (c.1 + 1) MAX_FIT_INPUT_NODES, (c.1 + 1, c.2)).

(** ** Paths *)

Definition is_path_start (a : ascii) : bool := is_ascii_alphabetic a || Ascii.eqb a "_".
Definition is_path_byte (a : ascii) : bool := is_ascii_alphanumeric a || Ascii.eqb a "_".

(** [while path[cursor..].starts_with("[*]")] *)
Fixpoint take_each (s : string) : list FitPathSegment * string :=
  match s with
  | String a (String b (String c t)) =>
      if Ascii.eqb a "[" && Ascii.eqb b "*" && Ascii.eqb c "]" then
        let '(l, rest) := take_each t in (Each :: l, rest)
      else ([], s)
  | _ => ([], s)
  end.

(** The loop of [parse_fit_path]; [first] is [segments.is_empty()]. *)
Fixpoint parse_fit_loop (fuel : nat) (first : bool) (s : string) : option (list FitPathSegment) :=
  match fuel, s with
  | S fuel, String a t =>
      if negb (is_path_start a) then None
      else
        let '(tail, rest) := str_span is_path_byte t in
        let name := String a tail in
        if first && (negb (is_ascii_lowercase a)
                     || negb (str_all (λ c, negb (is_ascii_uppercase c)) name)) then None
        else
          let '(eachs, rest) := take_each rest in
          match rest with
          | "" => Some (Field name :: eachs)
          | String c rest =>
              if negb (Ascii.eqb c ".") then None
              else l ← parse_fit_loop fuel false rest; Some (Field name :: eachs ++ l)%list
          end
  | _, _ => None
  end.

Definition parse_fit_path (path : string) : option (list FitPathSegment) :=
  if MAX_FIT_PATH_BYTES <? str_len path then None
  else parse_fit_loop (S (String.length path)) true path.

Fixpoint paths_overlap (l r : list FitPathSegment) : bool :=
  match l, r with
  | a :: l, b :: r => bool_decide (a = b) && paths_overlap l r
  | _, _ => true
  end.

Definition segment_bytes (s : FitPathSegment) : N :=
  match s with Field f => sat_add (str_len f) 1 | Each => 3 end.

Definition path_bytes (segs : list FitPathSegment) : N :=
  fold_left (λ n s, sat_add n (segment_bytes s)) segs 0 - 1.

(** ** Targets *)

Record Target := {
  pointer : string;
  t_path : string;
  strategy : FitStrategy;
  original_count : N;
  retained_count : N;
  original_text : option string;
  t_exhausted : bool
}.

Record Expansion := {
  targets : list Target;
  visited : N;
  matched : N
}.

Definition Expansion_default : Expansion := {| targets := []; visited := 0; matched := 0 |}.

Definition visit (e : Expansion) : Expansion :=
  {| targets := targets e; visited := visited e + 1; matched := matched e |}.
Definition match_one (e : Expansion) : Expansion :=
  {| targets := targets e; visited := visited e; matched := matched e + 1 |}.
Definition push_target (t : Target) (e : Expansion) : Expansion :=
  {| targets := (targets e ++ [t])%list; visited := visited e; matched := matched e |}.

Definition modify {S E} (f : S → S) : SE S E unit := λ s, (Ok tt, f s).

Definition invalid_fit (detail path : string) : PreparationFailure :=
  {| pf_code := InvalidFit; pf_detail := detail; pf_report := None;
     pf_context := {| c_decision := None; c_field := Some "fit"; c_input_path := Some path;
                      c_no_fit_reason := None; c_budget := None |} |}.

(** The least retention of a strategy. *)
Definition minimum_count (s : FitStrategy) : N :=
  match s with Recent => 1 | Truncate => MINIMUM_TEXT_BYTES end.

(** [while !original.is_char_boundary(i) { i += 1 }] and its mirror image. *)
Fixpoint align_up (fuel : nat) (s : string) (i : N) : N :=
  match fuel with
  | O => i
  | S fuel => if is_char_boundary s i then i else align_up fuel s (i + 1)
  end.
Fixpoint align_down (fuel : nat) (s : string) (i : N) : N :=
  match fuel with
  | O => i
  | S fuel => if is_char_boundary s i then i else align_down fuel s (i - 1)
  end.

(** [n.div_ceil(2)] *)
Definition half_up (n : N) : N := (n + 1) / 2.

(** The head and tail offsets of a truncation that keeps about [keep] bytes. *)
Definition truncation (original : string) (keep : N) : N * N :=
  (align_up (String.length original) original (half_up keep),
   align_down (String.length original) original (str_len original - keep / 2)).

Definition str_slice (s : string) (from to : N) : string :=
  str_drop (N.to_nat from) (str_take (N.to_nat to) s).

(** What [expect] would raise; no failure of this file has this detail. *)
Definition fit_panic : PreparationFailure :=
  {| pf_code := ConditionFalse; pf_detail := "panic"; pf_report := None;
     pf_context := context_default |}.

Section fit.
Context `{SerdeNumber}.

(** [serde_json::to_writer]: the writes it makes for a value, and whether it
    completes; and the text of [to_string] for a string. *)
Class SerdeWriter := {
  json_writes : Value → list string * bool;
  json_str_len : string → N
}.

Context `{!SerdeWriter, !JsonPointer}.

(** The [ByteCounter] under [to_writer]: the bytes counted, and whether a write
    was refused. *)
Fixpoint count_writes (writes : list string) (max n : N) : N * bool :=
  match writes with
  | [] => (n, false)
  | w :: writes =>
      let n := sat_add n (str_len w) in
      if max <? n then (n, true) else count_writes writes max n
  end.

Definition measure_preparation_bytes (v : Value) (max : N) (k : PreparationBudgetKind) :
    result N PreparationFailure :=
  let '(writes, complete) := json_writes v in
  let '(n, refused) := count_writes writes max 0 in
  if refused || negb complete then
    if max <? n then Err (resource_limit {| pb_kind := k; observed := n; maximum := max |})
    else Err {| pf_code := InvalidInput; pf_detail := "The decision input cannot be serialized.";
                pf_report := None; pf_context := context_default |}
  else Ok n.

(** [FittingWorkBudget::measure] *)
Definition work_measure (v : Value) : SE FittingWorkBudget PreparationFailure N :=
  do* work_charge 0;
  λ w,
    match measure_preparation_bytes v (FittingWorkBudget_MAXIMUM - consumed w) WorkBytes with
    | Ok bytes => (do* work_charge bytes; ret bytes) w
    | Err e =>
        match c_budget (pf_context e) with
        | Some b =>
            let n := sat_add (consumed w) (observed b) in
            (Err (with_budget {| pb_kind := pb_kind b; observed := n;
                                 maximum := FittingWorkBudget_MAXIMUM |} e),
             {| consumed := n |})
        | None => (Err e, w)
        end
    end.

Fixpoint admit_value (v : Value) (depth : N) : SE counters PreparationFailure unit :=
  do* lift (check_count InputDepth depth MAX_FIT_INPUT_DEPTH);
  do* count_node;
  match v with
  | JString text => add_text_bytes (str_len text)
  | JObject m =>
      foldM (λ _ kv, do* add_text_bytes (str_len kv.1); admit_value kv.2 (depth + 1)) m tt
  | JArray l => foldM (λ _ x, admit_value x (depth + 1)) l tt
  | _ => ret tt
  end.

Definition admit_input (v : Value) : result unit PreparationFailure :=
  let? _ := (admit_value v 0 (0, 0)).1 in
  result_map (λ _, tt) (measure_preparation_bytes v MAX_FIT_INPUT_BYTES InputBytes).

(** ** Expansion of a rule *)

Fixpoint enumerate (i : N) (l : list Value) : list (N * Value) :=
  match l with [] => [] | x :: l => (i, x) :: enumerate (i + 1) l end.

Definition field_path (path field : string) : string :=
  if String.eqb path "" then field else path +:+ ("." +:+ field).
Definition index_path (path : string) (i : N) : string := path +:+ ("[" +:+ (pretty i +:+ "]")).

(** The end of [expand], at a target. *)
Definition expand_target (v : Value) (ptr path : string) (s : FitStrategy) :
    SE Expansion PreparationFailure unit :=
  match (match s, v with
         | Recent, JArray l => Some (N.of_nat (length l))
         | Truncate, JString t => Some (str_len t)
         | _, _ => None
         end) with
  | None =>
      fail (invalid_fit ("Fit target `" +:+ (path +:+ "` has an incompatible value type.")) path)
  | Some count =>
      do* modify match_one;
      let* e := get_state in
      do* lift (check_count ExpandedTargets (matched e) MAX_FIT_TARGETS);
      if count <=? minimum_count s then ret tt
      else modify (push_target {| pointer := ptr; t_path := path; strategy := s;
                                  original_count := count; retained_count := count;
                                  original_text := None; t_exhausted := false |})
  end.

Fixpoint expand (segs : list FitPathSegment) (v : Value) (ptr path : string) (s : FitStrategy) :
    SE Expansion PreparationFailure unit :=
  do* modify visit;
  let* e := get_state in
  do* lift (check_count TraversalNodes (visited e) MAX_FIT_TRAVERSAL_NODES);
  match segs with
  | [] => expand_target v ptr path s
  | segment :: rest =>
      match segment, v with
      | Field f, JObject m =>
          match map_get f m with
          | Some w =>
              expand rest w (ptr +:+ ("/" +:+ escape_field f)) (field_path path f) s
          | None => ret tt
          end
      | Each, JArray l =>
          foldM (λ _ ix, expand rest ix.2 (ptr +:+ ("/" +:+ pretty ix.1))
                           (index_path path ix.1) s) (enumerate 0 l) tt
      | _, _ =>
          fail (invalid_fit ("Fit path `" +:+ (path +:+ "` traverses an incompatible value type."))
                  path)
      end
  end.

(** ** Reduction of a target *)

Definition retained (t : Target) (n : N) (text : option string) (done : bool) : Target :=
  {| pointer := pointer t; t_path := t_path t; strategy := strategy t;
     original_count := original_count t; retained_count := n;
     original_text := text; t_exhausted := done |}.

(** [reduce]: whether the input changed, the input and the target.  [None] is a
    panic. *)
Definition reduce (input : Value) (t : Target) : option (bool * Value * Target) :=
  v ← pointer_get (pointer t) input;
  match strategy t with
  | Recent =>
      l ← as_array v;
      match l with
      | _ :: ((_ :: rest) as l') =>
          Some (true, pointer_set (pointer t) (JArray l') input,
                retained t (retained_count t - 1) (original_text t)
                  (match rest with [] => true | _ => false end))
      | _ => Some (false, input, retained t (retained_count t) (original_text t) true)
      end
  | Truncate =>
      if retained_count t <=? MINIMUM_TEXT_BYTES then
        Some (false, input, retained t (retained_count t) (original_text t) true)
      else
        original ← (match original_text t with Some o => Some o | None => Json.as_str v end);
        let keep := N.max (retained_count t - TRUNCATE_CHUNK_BYTES) MINIMUM_TEXT_BYTES in
        let '(head, tail) := truncation original keep in
        let kept := head + str_len original - tail in
        if retained_count t <=? kept then
          Some (false, input, retained t (retained_count t) (Some original) true)
        else if (retained_count t =? original_count t) &&
                (json_str_len (str_slice original head tail) <=? json_str_len OMISSION_MARKER) then
          Some (false, input, retained t (retained_count t) (Some original) true)
        else
          Some (true,
                pointer_set (pointer t)
                  (JString (str_take (N.to_nat head) original +:+
                            (OMISSION_MARKER +:+ str_drop (N.to_nat tail) original))) input,
                retained t kept (Some original) (keep =? MINIMUM_TEXT_BYTES))
  end.

(** ** The rounds *)

(** The work allowance and the state of the validator. *)
Context {V : Type}.
Record World := { work : FittingWorkBudget; validator : V }.

Variable validate : Value → FitReport → SE World FitValidationError unit.

Definition on_work {A} (m : SE FittingWorkBudget PreparationFailure A) :
    SE World PreparationFailure A := λ w,
  let '(r, b) := m (work w) in (r, {| work := b; validator := validator w |}).

(** The local variables of [fit_input_with_work_budget] that the loop changes. *)
Record Progress := {
  input : Value;
  report : FitReport;
  estimate : option PreparationBudget;
  turns : N
}.

(** [validate_request]: whether the request is accepted, and the estimate. *)
Definition validate_request (v : Value) (r : FitReport) (b : option PreparationBudget) :
    SE World PreparationFailure (bool * option PreparationBudget) := λ w,
  let '(res, w) := validate v r w in
  (match res with
   | Ok _ => Ok (true, b)
   | Err (OverBudget e) => Ok (false, Some e)
   | Err (ResourceLimit b) => Err (with_report r (resource_limit b))
   | Err (ValidatorUnavailable detail) =>
       Err {| pf_code := ProviderUnavailable; pf_detail := detail; pf_report := Some r;
              pf_context := context_default |}
   | Err (InvalidFitRequest detail c) =>
       Err {| pf_code := InvalidRequest; pf_detail := detail; pf_report := Some r;
              pf_context := c |}
   end, w).

(** Updates the omission of the path, or appends it. *)
Fixpoint record_omission (o : FitOmission) (l : list FitOmission) : list FitOmission :=
  match l with
  | [] => [o]
  | saved :: l =>
      if String.eqb (om_path saved) (om_path o) then o :: l else saved :: record_omission o l
  end.

Definition omission_of (t : Target) : FitOmission :=
  {| om_path := t_path t; om_strategy := strategy t; om_original_count := original_count t;
     om_retained_count := retained_count t |}.

(** One target's turn: the accepted result, or whether it changed the input, the
    target and the progress. *)
Definition fit_turn (t : Target) (p : Progress) :
    SE World PreparationFailure ((Value * FitReport) + (bool * Target * Progress)) :=
  if t_exhausted t then ret (inr (false, t, p))
  else
    let turns := turns p + 1 in
    do* lift (map_err (λ e, with_report (report p) (with_input_path (t_path t) e))
                (check_count Turns turns MAX_FIT_TURNS));
    match reduce (input p) t with
    | None => fail fit_panic
    | Some (false, v, t) =>
        ret (inr (false, t, {| input := v; report := report p; estimate := estimate p;
                               turns := turns |}))
    | Some (true, v, t) =>
        do* on_work (work_measure v);
        let r := {| omissions := record_omission (omission_of t) (omissions (report p)) |} in
        let* ok := validate_request v r (estimate p) in
        if ok.1 : bool then ret (inl (v, r))
        else ret (inr (true, t, {| input := v; report := r; estimate := ok.2;
                                   turns := turns |}))
    end.

(** One round over the targets. *)
Fixpoint fit_round (ts : list Target) (p : Progress) :
    SE World PreparationFailure ((Value * FitReport) + (bool * list Target * Progress)) :=
  match ts with
  | [] => ret (inr (false, [], p))
  | t :: ts =>
      let* r := fit_turn t p in
      match r with
      | inl done => ret (inl done)
      | inr (changed, t, p) =>
          let* r := fit_round ts p in
          match r with
          | inl done => ret (inl done)
          | inr (changed', ts, p) => ret (inr (changed || changed', t :: ts, p))
          end
      end
  end.

(** The failure when nothing can be reduced further. *)
Definition no_fit (rules : list FitRule) (matched : N) (p : Progress) : PreparationFailure :=
  let '(reason, detail) :=
    if (match rules with [] => true | _ => false end) then
      (NoRules, "The complete request exceeds the local model budget. No input fitting rules permit reductions.")
    else if matched =? 0 then
      (NoMatchingTargets, "The complete request exceeds the local model budget. The selected fit paths do not match present values.")
    else if (match omissions (report p) with [] => true | _ => false end) then
      (TargetsAtMinimum, "The complete request exceeds the local model budget. Selected targets are at their retention limits or cannot become smaller after marking omissions.")
    else
      (ReductionsExhausted, "The complete request still exceeds the local model budget after all permitted reductions.") in
  {| pf_code := NoFit; pf_detail := detail; pf_report := Some (report p);
     pf_context := {| c_decision := None;
                      c_field := Some (match rules with [] => "input" | _ => "fit" end);
                      c_input_path := match rules with [r] => Some (rule_path r) | _ => None end;
                      c_no_fit_reason := Some reason;
                      c_budget := estimate p |} |}.

(** The rounds; [None] means that the fuel ran out. *)
Fixpoint fit_loop (fuel : nat) (rules : list FitRule) (matched : N) (ts : list Target)
    (p : Progress) : SE World PreparationFailure (option (Value * FitReport)) :=
  match fuel with
  | O => ret None
  | S fuel =>
      let* r := fit_round ts p in
      match r with
      | inl done => ret (Some done)
      | inr (true, ts, p) => fit_loop fuel rules matched ts p
      | inr (false, _, p) => fail (no_fit rules matched p)
      end
  end.

(** The loop over the rules before the rounds. *)
Fixpoint expand_rules (v : Value) (previous rules : list FitRule) :
    SE Expansion PreparationFailure unit :=
  match rules with
  | [] => ret tt
  | rule :: rules =>
      do* lift (check_count PathDepth (N.of_nat (length (segments rule))) MAX_FIT_PATH_SEGMENTS);
      do* lift (check_count PathBytes (path_bytes (segments rule)) MAX_FIT_PATH_BYTES);
      if existsb (λ q, paths_overlap (segments q) (segments rule)) previous then
        fail (invalid_fit "Fit targets must not overlap." (rule_path rule))
      else
        do* (λ e, let '(r, e) := expand (segments rule) v "" "" (rule_strategy rule) e in
                  (map_err (λ f, match c_input_path (pf_context f) with
                                 | Some _ => f
                                 | None => with_input_path (rule_path rule) f
                                 end) r, e));
        expand_rules v (previous ++ [rule])%list rules
  end.

Definition fit_fuel : nat := S (S (N.to_nat MAX_FIT_TURNS)).

(** [fit_input_with_work_budget] *)
Definition fit_input_with_work_budget (v : Value) (rules : list FitRule) :
    SE World PreparationFailure (option (Value * FitReport)) :=
  do* lift (admit_input v);
  do* on_work (work_measure v);
  do* lift (check_count FitRules (N.of_nat (length rules)) MAX_FIT_RULES);
  match expand_rules v [] rules Expansion_default with
  | (Err e, _) => fail e
  | (Ok _, expansion) =>
      let r := {| omissions := [] |} in
      let* ok := validate_request v r None in
      if ok.1 : bool then ret (Some (v, r))
      else fit_loop fit_fuel rules (matched expansion) (targets expansion)
             {| input := v; report := r; estimate := ok.2; turns := 0 |}
  end.
End fit.

(** [fit_input]: a fresh work budget, which the validator does not see. *)
Definition fit_input `{SerdeNumber} `{!SerdeWriter, !JsonPointer} {V : Type}
    (validate : Value → FitReport → SE V FitValidationError unit) (v : Value)
    (rules : list FitRule) : SE V PreparationFailure (option (Value * FitReport)) := λ s,
  let on_validator v r : SE World FitValidationError unit := λ w,
    let '(x, s) := validate v r (validator w) in (x, {| work := work w; validator := s |}) in
  let '(x, w) := fit_input_with_work_budget on_validator v rules
                   {| work := {| consumed := 0 |}; validator := s |} in
  (x, validator w).

(** ** Termination

    A round that changes the input takes a turn, and turns are limited. *)

Section fit_terminates.
Context `{SerdeNumber}.
Context `{!SerdeWriter, !JsonPointer} {V : Type}.
Variable validate : Value → FitReport → SE (World (V:=V)) FitValidationError unit.

Lemma fit_turn_turns t p :
  returns (λ r, match r with
                | inl _ => True
                | inr (c, _, p') =>
                    (c = false ∧ turns p' = turns p) ∨
                    (turns p' = turns p + 1 ∧ turns p' ≤ MAX_FIT_TURNS)
                end) (fit_turn validate t p).
Proof.
  unfold fit_turn. destruct (t_exhausted t); [apply returns_ret; auto|].
  intros w r w' (a & w1 & [Hc _]%lift_ok & Hr)%bind_ok.
  assert (turns p + 1 ≤ MAX_FIT_TURNS) as Hmax.
  { unfold check_count in Hc. destruct (N.ltb_spec MAX_FIT_TURNS (turns p + 1)); done. }
  destruct (reduce (input p) t) as [[[[] v] t']|]; [| |done].
  - apply bind_ok in Hr as (bytes & w2 & _ & ([ok est] & w3 & _ & Hr)%bind_ok). simpl in Hr.
    destruct ok; apply ret_ok in Hr as [-> _]; [done|]. simpl. auto.
  - apply ret_ok in Hr as [-> _]. simpl. auto.
Qed.

Lemma fit_round_turns ts : ∀ p,
  returns (λ r, match r with
                | inl _ => True
                | inr (c, _, p') =>
                    turns p ≤ turns p' ∧ turns p' ≤ N.max (turns p) MAX_FIT_TURNS ∧
                    (c = true → turns p < turns p' ≤ MAX_FIT_TURNS)
                end) (fit_round validate ts p).
Proof.
  induction ts as [|t ts IH]; intros p; cbn [fit_round].
  { apply returns_ret. split_and!; [done|lia|done]. }
  eapply returns_bind; [apply fit_turn_turns|]. intros [done|[[c t'] p1]] Ht.
  { by apply returns_ret. }
  eapply returns_bind; [apply IH|]. intros [done|[[c' ts'] p2]] Hts.
  { by apply returns_ret. }
  apply returns_ret. destruct c, c'; simpl; split_and!; intuition (lia || discriminate).
Qed.

Lemma fit_loop_enough fuel rules matched ts p :
  (N.to_nat (MAX_FIT_TURNS - turns p) < fuel)%nat →
  returns (λ r, r ≠ None) (fit_loop validate fuel rules matched ts p).
Proof.
  revert ts p. induction fuel as [|fuel IH]; intros ts p Hf; [lia|]. cbn [fit_loop].
  eapply returns_bind; [apply fit_round_turns|]. intros [done|[[[] ts'] p']] Hr.
  - by apply returns_ret.
  - apply IH. lia.
  - apply returns_fail.
Qed.
End fit_terminates.

(** ** Positions of targets *)

(** The concrete positions a segment path stands for. *)
Definition segment_step (s : FitPathSegment) (x : Step) : Prop :=
  match s, x with
  | Field f, StepField k => f = k
  | Each, StepIndex _ => True
  | _, _ => False
  end.

Definition concrete (segs : list FitPathSegment) (p : list Step) : Prop :=
  Forall2 segment_step segs p.

(** Pairwise diverging positions. *)
Fixpoint apart (ps : list (list Step)) : Prop :=
  match ps with
  | [] => True
  | p :: ps => Forall (λ q, diverge p q = true) ps ∧ apart ps
  end.

Lemma apart_app ps qs :
  apart (ps ++ qs) ↔
  apart ps ∧ apart qs ∧ Forall (λ p, Forall (λ q, diverge p q = true) qs) ps.
Proof.
  induction ps as [|p ps IH]; simpl; [split; [auto|tauto]|].
  rewrite IH, Forall_app, Forall_cons. tauto.
Qed.

(** Paths that do not overlap have diverging concrete positions. *)
Lemma concrete_diverge segs segs' p q :
  concrete segs p → concrete segs' q → paths_overlap segs segs' = false → diverge p q = true.
Proof.
  intros Hp. revert segs' q. induction Hp as [|s x segs p Hs _ IH]; intros segs' q Hq; [done|].
  destruct Hq as [|s' y segs' q Hs' Hq]; [done|]. cbn [paths_overlap diverge].
  destruct (bool_decide (s = s')) eqn:E; simpl.
  - apply bool_decide_eq_true in E as <-. intros Hov. case_bool_decide; [|done].
    by eapply IH.
  - apply bool_decide_eq_false in E. intros _. rewrite bool_decide_false; [done|].
    intros <-. destruct s, s', x; simpl in *; congruence.
Qed.

Section positions.
Context `{SerdeNumber}.

(** The text of a shortened string: a head and a tail of the original on
    character boundaries, with the marker between them. *)
Definition shortened (s0 s : string) (n : N) : Prop :=
  ∃ h k, h < k ∧ k ≤ str_len s0 ∧ is_char_boundary s0 h = true ∧
    is_char_boundary s0 k = true ∧ n = h + (str_len s0 - k) ∧
    s = str_take (N.to_nat h) s0 +:+ (OMISSION_MARKER +:+ str_drop (N.to_nat k) s0).

(** What the reductions of a target have kept, between the original input [v0]
    and the current one [v]. *)
Definition value_ok (v0 v : Value) (p : list Step) (t : Target) : Prop :=
  match strategy t with
  | Recent =>
      ∃ dropped l, lookup_steps p v0 = Some (JArray (dropped ++ l)%list) ∧
        lookup_steps p v = Some (JArray l) ∧
        N.of_nat (length l) = retained_count t ∧
        N.of_nat (length (dropped ++ l)%list) = original_count t
  | Truncate =>
      ∃ s0 s, lookup_steps p v0 = Some (JString s0) ∧ lookup_steps p v = Some (JString s) ∧
        str_len s0 = original_count t ∧
        (original_text t = Some s0 ∨ (original_text t = None ∧ s = s0)) ∧
        ((retained_count t = original_count t ∧ s = s0) ∨ shortened s0 s (retained_count t))
  end.

Record target_ok (v0 v : Value) (p : list Step) (t : Target) : Prop := {
  ok_pointer : pointer t = render_pointer p;
  ok_counts : minimum_count (strategy t) ≤ retained_count t ≤ original_count t;
  ok_value : value_ok v0 v p t
}.

Lemma target_ok_frame v0 v v' p t :
  lookup_steps p v' = lookup_steps p v → target_ok v0 v p t → target_ok v0 v' p t.
Proof.
  intros Hl [Hp Hc Hv]. split; [done|done|]. unfold value_ok in *.
  destruct (strategy t); by rewrite Hl.
Qed.

(** ** Alignment to character boundaries *)

Lemma boundary_len s : is_char_boundary s (str_len s) = true.
Proof. unfold is_char_boundary. by rewrite N.eqb_refl, orb_true_r. Qed.

Lemma align_up_spec fuel s i :
  i ≤ str_len s → str_len s ≤ i + N.of_nat fuel →
  i ≤ align_up fuel s i ≤ str_len s ∧ is_char_boundary s (align_up fuel s i) = true.
Proof.
  revert i. induction fuel as [|fuel IH]; intros i H1 H2; cbn [align_up].
  - replace i with (str_len s) by lia. split; [lia|apply boundary_len].
  - destruct (is_char_boundary s i) eqn:E; [split; [lia|done]|].
    assert (i ≠ str_len s) by (intros ->; by rewrite boundary_len in E).
    destruct (IH (i + 1)) as [? ?]; [lia|lia|]. split; [lia|done].
Qed.

Lemma align_down_spec fuel s i :
  i ≤ N.of_nat fuel →
  align_down fuel s i ≤ i ∧ is_char_boundary s (align_down fuel s i) = true.
Proof.
  revert i. induction fuel as [|fuel IH]; intros i H1; cbn [align_down].
  - replace i with 0 by lia. split; [lia|done].
  - destruct (is_char_boundary s i) eqn:E; [split; [lia|done]|].
    assert (i ≠ 0) by (intros ->; done).
    destruct (IH (i - 1)) as [? ?]; [lia|]. split; [lia|done].
Qed.

(** A truncation keeps at least what it is asked to keep. *)
Lemma truncation_spec s keep :
  keep ≤ str_len s →
  let '(h, k) := truncation s keep in
  is_char_boundary s h = true ∧ is_char_boundary s k = true ∧
  k ≤ str_len s ∧ keep ≤ h + str_len s - k.
Proof.
  intros Hk. unfold truncation, half_up.
  assert ((keep + 1) / 2 + keep / 2 = keep) as Hhalf by lia.
  assert (N.of_nat (String.length s) = str_len s) as Hlen by done.
  destruct (align_up_spec (String.length s) s ((keep + 1) / 2)) as [[Hh1 Hh2] Hh3]; [lia|lia|].
  destruct (align_down_spec (String.length s) s (str_len s - keep / 2)) as [Hk1 Hk2]; [lia|].
  split_and!; try done; lia.
Qed.
End positions.

(** ** Expansion finds the positions of its path *)

Section expansion.
Context `{SerdeNumber}.

(** The targets an expansion added, with their positions below [pre]. *)
Definition expansion_adds (v : Value) (pre : list Step) (segs : list FitPathSegment)
    (e e' : Expansion) : Prop :=
  ∃ new ps, targets e' = (targets e ++ new)%list ∧ Forall2 (target_ok v v) ps new ∧ apart ps ∧
    Forall (λ p, ∃ q, p = (pre ++ q)%list ∧ concrete segs q) ps.

Lemma expansion_adds_none v pre segs e e' :
  targets e' = targets e → expansion_adds v pre segs e e'.
Proof. intros He. exists [], []. rewrite He, app_nil_r. by split_and!; constructor. Qed.

Lemma expand_target_adds v pre w path s e e' :
  lookup_steps pre v = Some w →
  expand_target w (render_pointer pre) path s e = (Ok tt, e') → expansion_adds v pre [] e e'.
Proof.
  intros Hw. unfold expand_target.
  destruct (match s, w with
            | Recent, JArray l => Some (N.of_nat (length l))
            | Truncate, JString t => Some (str_len t)
            | _, _ => None
            end) as [count|] eqn:Ec; [|done].
  intros ([] & e1 & Hm & (e2 & e3 & He & ([] & e4 & [_ ->]%lift_ok & Hr)%bind_ok)%bind_ok)%bind_ok.
  injection Hm as <-. injection He as <- <-. destruct (count <=? minimum_count s) eqn:Emin.
  { injection Hr as <-. by apply expansion_adds_none. }
  injection Hr as <-.
  eexists [_], [pre]. split; [reflexivity|]. split_and!.
  - constructor; [|constructor]. split; simpl; [done|lia|]. unfold value_ok. simpl.
    destruct s, w; try discriminate Ec; injection Ec as <-.
    + exists [], items. by split_and!.
    + eexists s, s. split_and!; auto.
  - by split.
  - constructor; [|constructor]. exists []. split; [by rewrite app_nil_r|constructor].
Qed.

Lemma lookup_steps_app p q v w :
  lookup_steps p v = Some w → lookup_steps (p ++ q)%list v = lookup_steps q w.
Proof.
  revert v. induction p as [|s p IH]; intros v; simpl; [by intros [= ->]|].
  destruct (step_get s v); simpl; [apply IH|done].
Qed.

Lemma expansion_adds_step v pre s seg segs e e' :
  segment_step seg s → expansion_adds v (pre ++ [s])%list segs e e' →
  expansion_adds v pre (seg :: segs) e e'.
Proof.
  intros Hs (new & ps & H1 & H2 & H3 & H4). exists new, ps. split_and!; try done.
  eapply Forall_impl; [exact H4|]. intros p (q & -> & Hq). exists (s :: q).
  rewrite <- app_assoc. split; [done|]. by constructor.
Qed.

Lemma expansion_adds_start v pre segs e e1 e' :
  targets e1 = targets e → expansion_adds v pre segs e1 e' → expansion_adds v pre segs e e'.
Proof. intros He (new & ps & H1 & ?). exists new, ps. by rewrite <- He. Qed.

(** Items of an array from index [i] on. *)
Lemma expand_items_adds segs v pre path s
    (Hrec : ∀ w pre path e e', lookup_steps pre v = Some w →
       expand segs w (render_pointer pre) path s e = (Ok tt, e') → expansion_adds v pre segs e e')
    all rest i e e' :
  lookup_steps pre v = Some (JArray all) →
  (∀ j x, (j < length rest)%nat → rest !! j = Some x →
     items_get all (i + N.of_nat j) = Some x) →
  foldM (λ _ ix, expand segs ix.2 (render_pointer pre +:+ ("/" +:+ pretty ix.1))
                   (index_path path ix.1) s) (enumerate i rest) tt e = (Ok tt, e') →
  ∃ new ps, targets e' = (targets e ++ new)%list ∧ Forall2 (target_ok v v) ps new ∧ apart ps ∧
    Forall (λ p, ∃ j q, i ≤ j ∧ p = (pre ++ StepIndex j :: q)%list ∧ concrete segs q) ps.
Proof.
  intros Hpre. revert i e. induction rest as [|x rest IH]; intros i e Hget.
  { intros [= <-]. exists [], []. rewrite app_nil_r. by split_and!; constructor. }
  cbn [enumerate foldM]. intros ([] & e1 & Hx & Hrest)%bind_ok. cbn [fst snd] in Hx.
  assert (render_pointer pre +:+ ("/" +:+ pretty i) = render_pointer (pre ++ [StepIndex i]))
    as Hptr by (by rewrite render_pointer_snoc).
  rewrite Hptr in Hx. apply Hrec in Hx as (n1 & ps1 & A1 & A2 & A3 & A4).
  2: { rewrite (lookup_steps_app _ _ _ _ Hpre). simpl.
       pose proof (Hget 0%nat x ltac:(simpl; lia) eq_refl) as Hg.
       rewrite N.add_0_r in Hg. by rewrite Hg. }
  apply (IH (i + 1)) in Hrest as (n2 & ps2 & B1 & B2 & B3 & B4).
  2: { intros j y Hj Hy. rewrite <- N.add_assoc. replace (1 + N.of_nat j) with (N.of_nat (S j)) by lia.
       apply Hget; [simpl; lia|done]. }
  exists (n1 ++ n2)%list, (ps1 ++ ps2)%list. split_and!.
  - by rewrite B1, A1, app_assoc.
  - by apply Forall2_app.
  - apply apart_app. split_and!; [done|done|]. rewrite Forall_forall in A4, B4.
    apply Forall_forall. intros p Hp. apply Forall_forall. intros q Hq.
    destruct (A4 p Hp) as (p' & -> & _). destruct (B4 q Hq) as (j & q' & Hj & -> & _).
    rewrite <- app_assoc. rewrite diverge_common. simpl.
    rewrite bool_decide_false; [done|]. intros [= ->]. lia.
  - apply Forall_app. split.
    + eapply Forall_impl; [exact A4|]. intros p (q & -> & Hq). exists i, q.
      rewrite <- app_assoc. split; [lia|done].
    + eapply Forall_impl; [exact B4|]. intros p (j & q & Hj & ? & ?). exists j, q.
      split; [lia|done].
Qed.

Lemma expand_adds segs : ∀ v w pre path s e e',
  lookup_steps pre v = Some w →
  expand segs w (render_pointer pre) path s e = (Ok tt, e') → expansion_adds v pre segs e e'.
Proof.
  induction segs as [|seg segs IH]; intros v w pre path s e e' Hw; cbn [expand];
    intros ([] & e1 & Hm & (e2 & e3 & He & ([] & e4 & [_ ->]%lift_ok & Hr)%bind_ok)%bind_ok)%bind_ok;
    injection Hm as <-; injection He as <- <-.
  - apply (expansion_adds_start _ _ _ _ (visit e)); [done|]. by eapply expand_target_adds.
  - destruct seg as [f|], w as [|b|n|t|l|m]; try discriminate Hr.
    + destruct (map_get f m) as [w'|] eqn:Ef; [|injection Hr as <-; by apply expansion_adds_none].
      apply (expansion_adds_step _ _ (StepField f)); [done|].
      apply (expansion_adds_start _ _ _ _ (visit e)); [done|].
      change ("/" +:+ escape_field f) with (render_step (StepField f)) in Hr.
      rewrite <- render_pointer_snoc in Hr. eapply IH; [|exact Hr].
      rewrite (lookup_steps_app _ _ _ _ Hw). simpl. by rewrite Ef.
    + destruct (expand_items_adds segs v pre path s (λ w pre path e e', IH v w pre path s e e')
                  l l 0 (visit e) e' Hw) as (new & ps & A1 & A2 & A3 & A4); [|exact Hr|].
      { intros j x Hj Hx. unfold items_get. destruct (N.ltb_spec (0 + N.of_nat j)
          (N.of_nat (length l))); [|lia]. by replace (N.to_nat (0 + N.of_nat j)) with j by lia. }
      exists new, ps. split_and!; try done. eapply Forall_impl; [exact A4|].
      intros p (j & q & _ & -> & Hq). exists (StepIndex j :: q). split; [done|]. by constructor.
Qed.

Lemma expand_rules_adds v previous rules : ∀ e e' ps0,
  expand_rules v previous rules e = (Ok tt, e') →
  Forall2 (target_ok v v) ps0 (targets e) → apart ps0 →
  Forall (λ p, ∃ r, r ∈ previous ∧ concrete (segments r) p) ps0 →
  ∃ ps, Forall2 (target_ok v v) ps (targets e') ∧ apart ps ∧
    Forall (λ p, ∃ r, r ∈ (previous ++ rules)%list ∧ concrete (segments r) p) ps.
Proof.
  revert previous. induction rules as [|r rules IH]; intros previous e e' ps0 Hx Hok Hap Hps.
  { injection Hx as <-. exists ps0. by rewrite app_nil_r. }
  cbn [expand_rules] in Hx.
  apply bind_ok in Hx as ([] & e1 & [_ ->]%lift_ok & Hx).
  apply bind_ok in Hx as ([] & e1 & [_ ->]%lift_ok & Hx).
  destruct (existsb _ previous) eqn:Eov; [discriminate Hx|].
  apply bind_ok in Hx as ([] & e1 & Hex & Hx).
  destruct (expand (segments r) v "" "" (rule_strategy r) e) as [[[]|f] e2] eqn:Ee;
    [|discriminate Hex]. injection Hex as <-.
  destruct (expand_adds (segments r) v v [] "" (rule_strategy r) e e2 eq_refl Ee)
    as (new & ps & A1 & A2 & A3 & A4).
  rewrite (cons_middle r previous rules), app_assoc.
  apply (IH (previous ++ [r])%list e2 e' (ps0 ++ ps)%list Hx).
  - rewrite A1. by apply Forall2_app.
  - apply apart_app. split_and!; [done|done|]. rewrite Forall_forall in Hps, A4.
    apply Forall_forall. intros p Hp. apply Forall_forall. intros q Hq.
    destruct (Hps p Hp) as (r0 & Hr0 & Hc0). destruct (A4 q Hq) as (q' & Hq' & Hc).
    simpl in Hq'. subst q'. eapply concrete_diverge; [exact Hc0|exact Hc|].
    destruct (paths_overlap (segments r0) (segments r)) eqn:E; [|done].
    assert (existsb (λ q, paths_overlap (segments q) (segments r)) previous = true); [|congruence].
    apply existsb_exists. exists r0. split; [by apply list_elem_of_In|done].
  - apply Forall_app. split.
    + eapply Forall_impl; [exact Hps|]. intros p (r0 & ? & ?). exists r0. set_solver.
    + eapply Forall_impl; [exact A4|]. intros p (q & -> & Hq). exists r. split; [set_solver|done].
Qed.
End expansion.

(** ** A reduction keeps the bounds of its target and touches nothing else *)

Section reduction.
Context `{SerdeNumber}.
Context `{!SerdeWriter, !JsonPointer}.

Lemma target_ok_done v0 v p t text :
  target_ok v0 v p t →
  (text = original_text t ∨ (strategy t = Truncate ∧ ∃ s0, text = Some s0 ∧
     lookup_steps p v0 = Some (JString s0))) →
  target_ok v0 v p (retained t (retained_count t) text true).
Proof.
  intros [Hptr Hc Hv] Ht. split; [done|done|]. unfold value_ok in *. simpl.
  destruct (strategy t) eqn:Es; [done|].
  destruct Hv as (s0 & s & A1 & A2 & A3 & A4 & A5). exists s0, s. split_and!; try done.
  destruct Ht as [->|(_ & s1 & -> & Hs1)]; [done|]. left. congruence.
Qed.

Lemma reduce_recent v0 v p t :
  target_ok v0 v p t → strategy t = Recent →
  ∃ c v' t', reduce v t = Some (c, v', t') ∧ target_ok v0 v' p t' ∧
    ∀ q, diverge p q = true → lookup_steps q v' = lookup_steps q v.
Proof.
  intros Hok Hs. pose proof Hok as [Hptr Hc Hv]. unfold value_ok in Hv.
  rewrite Hs in Hv. destruct Hv as (dropped & l & A1 & A2 & A3 & A4).
  unfold reduce. rewrite Hptr, (pointer_get_spec _ _ _ A2). simpl. rewrite Hs.
  destruct l as [|x [|y rest]].
  1-2: eexists _, _, _; split; [reflexivity|]; split; [|done]; apply target_ok_done; auto.
  eexists _, _, _. split; [reflexivity|].
  rewrite (pointer_set_spec _ _ _ _ A2). split.
  - split; simpl; [done|rewrite Hs; cbn [minimum_count]; cbn [length] in A3; lia|].
    unfold value_ok. simpl. rewrite Hs. exists (dropped ++ [x])%list, (y :: rest).
    rewrite <- app_assoc. split_and!; [done|by eapply lookup_update_eq| |done].
    cbn [length] in *. lia.
  - intros q Hq. by apply lookup_update_diverge.
Qed.

Lemma reduce_truncate v0 v p t :
  target_ok v0 v p t → strategy t = Truncate →
  ∃ c v' t', reduce v t = Some (c, v', t') ∧ target_ok v0 v' p t' ∧
    ∀ q, diverge p q = true → lookup_steps q v' = lookup_steps q v.
Proof.
  intros Hok Hs. pose proof Hok as [Hptr Hc Hv]. unfold value_ok in Hv.
  rewrite Hs in Hv. destruct Hv as (s0 & s & A1 & A2 & A3 & A4 & A5).
  unfold reduce. rewrite Hptr, (pointer_get_spec _ _ _ A2). cbn [mbind option_bind]. rewrite Hs.
  destruct (retained_count t <=? MINIMUM_TEXT_BYTES) eqn:Emin.
  { eexists _, _, _. split; [reflexivity|]. split; [apply target_ok_done; auto|done]. }
  assert ((match original_text t with Some o => Some o | None => Json.as_str (JString s) end)
          = Some s0) as -> by (destruct A4 as [->|[-> ->]]; done).
  cbn [mbind option_bind].
  set (keep := N.max (retained_count t - TRUNCATE_CHUNK_BYTES) MINIMUM_TEXT_BYTES).
  assert (keep ≤ str_len s0) as Hkeep by (unfold keep; lia).
  pose proof (truncation_spec s0 keep Hkeep) as Htr.
  destruct (truncation s0 keep) as [h k]. destruct Htr as (B1 & B2 & B3 & B4).
  assert (target_ok v0 v p (retained t (retained_count t) (Some s0) true)) as Hdone.
  { apply target_ok_done; [done|]. right. split; [done|]. by exists s0. }
  destruct (N.leb_spec (retained_count t) (h + str_len s0 - k)) as [|Hlt].
  { eexists _, _, _. by split. }
  destruct (_ && _); [eexists _, _, _; by split|].
  eexists _, _, _. split; [reflexivity|]. rewrite (pointer_set_spec _ _ _ _ A2). split.
  - split; simpl; [done|rewrite Hs; cbn [minimum_count]; unfold keep in *; lia|].
    unfold value_ok. simpl. rewrite Hs. exists s0. eexists.
    split_and!; [done|by eapply lookup_update_eq|done|by left|]. right.
    exists h, k. split_and!; try done; lia.
  - intros q Hq. by apply lookup_update_diverge.
Qed.

Lemma reduce_ok v0 v p t :
  target_ok v0 v p t →
  ∃ c v' t', reduce v t = Some (c, v', t') ∧ target_ok v0 v' p t' ∧
    ∀ q, diverge p q = true → lookup_steps q v' = lookup_steps q v.
Proof.
  intros Hok. destruct (strategy t) eqn:Hs; [by apply reduce_recent|by apply reduce_truncate].
Qed.

(** ** The rounds keep every target in bounds *)

Context {V : Type}.
Variable validate : Value → FitReport → SE (World (V:=V)) FitValidationError unit.

(** From [v] to [v']: the targets at [ps] are in bounds, and positions that
    diverge from all of them are the same. *)
Definition fits (v0 v v' : Value) (ps : list (list Step)) (ts : list Target) : Prop :=
  Forall2 (target_ok v0 v') ps ts ∧
  ∀ q, Forall (λ p, diverge p q = true) ps → lookup_steps q v' = lookup_steps q v.

(** The validator accepted the request in its last call. *)
Definition accepted (v : Value) (r : FitReport) (w' : World) : Prop :=
  ∃ w, validate v r w = (Ok tt, w').

Lemma validate_request_ok v r b w x w' :
  validate_request validate v r b w = (Ok x, w') → x.1 = true → accepted v r w'.
Proof.
  unfold validate_request. destruct (validate v r w) as [[[]|[]] w1] eqn:E; intros [= <- <-];
    try done. intros _. by exists w.
Qed.

Lemma fit_turn_ok v0 p t pr w r w' :
  target_ok v0 (input pr) p t → fit_turn validate t pr w = (Ok r, w') →
  match r with
  | inl (v', rep) => (∃ t', fits v0 (input pr) v' [p] [t']) ∧ accepted v' rep w'
  | inr (_, t', pr') => fits v0 (input pr) (input pr') [p] [t']
  end.
Proof.
  intros Hok. unfold fit_turn. destruct (t_exhausted t).
  { intros [-> ->]%ret_ok. split; [constructor; [done|constructor]|done]. }
  intros ([] & w1 & [_ ->]%lift_ok & Hr)%bind_ok.
  destruct (reduce_ok v0 (input pr) p t Hok) as (c & v' & t' & Hred & Hok' & Hframe).
  rewrite Hred in Hr.
  assert (fits v0 (input pr) v' [p] [t']) as Hfits.
  { split; [constructor; [done|constructor]|].
    intros q Hq. inversion Hq; subst. by apply Hframe. }
  destruct c.
  - apply bind_ok in Hr as (bytes & w2 & _ & ([ok est] & w3 & Hval & Hr)%bind_ok). simpl in Hr.
    destruct ok; apply ret_ok in Hr as [-> ->]; [|done].
    split; [by exists t'|]. by eapply validate_request_ok.
  - apply ret_ok in Hr as [-> ->]. done.
Qed.

Lemma fits_frame v0 v v' ps ts qs us :
  fits v0 v v' ps ts → Forall (λ p, Forall (λ q, diverge p q = true) qs) ps →
  Forall2 (target_ok v0 v) qs us → Forall2 (target_ok v0 v') qs us.
Proof.
  intros [_ Hf] Hd Hus. apply Forall2_same_length_lookup_2; [by eapply Forall2_length|].
  intros i q u Hq Hu. eapply target_ok_frame; [|by eapply Forall2_lookup_lr].
  apply Hf. eapply Forall_impl; [exact Hd|]. intros p Hp. simpl in Hp.
  exact (Forall_lookup_1 _ _ _ _ Hp Hq).
Qed.

Lemma fit_round_ok v0 ps ts : ∀ pr w r w',
  apart ps → Forall2 (target_ok v0 (input pr)) ps ts →
  fit_round validate ts pr w = (Ok r, w') →
  match r with
  | inl (v', rep) => (∃ ts', fits v0 (input pr) v' ps ts') ∧ accepted v' rep w'
  | inr (_, ts', pr') => fits v0 (input pr) (input pr') ps ts'
  end.
Proof.
  revert ps. induction ts as [|t ts IH]; intros ps pr w r w' Hap Hok; cbn [fit_round].
  { intros [-> ->]%ret_ok. by split. }
  inversion Hok as [|p ? ps' ? Hp Hps]; subst. destruct Hap as [Hd Hap].
  intros (r1 & w1 & Ht & Hr)%bind_ok. pose proof (fit_turn_ok v0 p t pr w r1 w1 Hp Ht) as H1'.
  assert (Forall (λ p, Forall (λ q, diverge p q = true) ps') [p]) as Hd1 by by repeat constructor.
  assert (Forall (λ q, diverge q p = true) ps') as Hd2
    by (eapply Forall_impl; [exact Hd|]; intros q Hq; by rewrite diverge_sym).
  destruct r1 as [[v1 rep]|[[c t'] pr1]].
  - apply ret_ok in Hr as [-> ->]. destruct H1' as [[t' Hf] Hacc]. split; [|done].
    exists (t' :: ts). pose proof (fits_frame _ _ _ _ _ _ _ Hf Hd1 Hps).
    destruct Hf as [Hf1 Hf2]. inversion Hf1; subst. split; [by constructor|].
    intros q Hq. inversion Hq; subst. apply Hf2. by repeat constructor.
  - pose proof (fits_frame _ _ _ _ _ _ _ H1' Hd1 Hps) as Hps1.
    apply bind_ok in Hr as (r2 & w2 & Hts & Hr).
    pose proof (IH ps' pr1 w1 r2 w2 Hap Hps1 Hts) as H2'.
    destruct H1' as [Hf1 Hf2]. inversion Hf1 as [|? ? ? ? Ht' _]; subst.
    assert (∀ v2 ts2, fits v0 (input pr1) v2 ps' ts2 → fits v0 (input pr) v2 (p :: ps') (t' :: ts2))
      as Hjoin.
    { intros v2 ts2 [G1 G2]. split.
      - constructor; [|done]. eapply target_ok_frame; [|exact Ht']. by apply G2.
      - intros q Hq. inversion Hq; subst. rewrite G2 by done. apply Hf2. by repeat constructor. }
    destruct r2 as [[v2 rep]|[[c' ts2] pr2]].
    + apply ret_ok in Hr as [-> ->]. destruct H2' as [[ts2 Hf] Hacc]. split; [|done].
      exists (t' :: ts2). by apply Hjoin.
    + apply ret_ok in Hr as [-> ->]. by apply Hjoin.
Qed.

Lemma fit_loop_ok v0 ps fuel rules matched : ∀ ts pr w v' rep w',
  apart ps → Forall2 (target_ok v0 (input pr)) ps ts →
  fit_loop validate fuel rules matched ts pr w = (Ok (Some (v', rep)), w') →
  (∃ ts', fits v0 (input pr) v' ps ts') ∧ accepted v' rep w'.
Proof.
  induction fuel as [|fuel IH]; intros ts pr w v' rep w' Hap Hok; cbn [fit_loop].
  { by intros [? _]%ret_ok. }
  intros (r & w1 & Hround & Hr)%bind_ok. pose proof (fit_round_ok _ _ _ _ _ _ _ Hap Hok Hround) as Hf.
  destruct r as [[v1 rep1]|[[[] ts1] pr1]]; [| |done].
  - apply ret_ok in Hr as [[= <- <-] ->]. done.
  - destruct Hf as [Hf1 Hf2]. destruct (IH _ _ _ _ _ _ Hap Hf1 Hr) as [[ts' [G1 G2]] Hacc].
    split; [|done]. exists ts'. split; [done|]. intros q Hq. rewrite G2 by done. by apply Hf2.
Qed.

(** ** No panic is reached *)

Definition no_panic (e : PreparationFailure) : Prop := pf_code e ≠ ConditionFalse.

Lemma check_count_no_panic k n max e : check_count k n max = Err e → no_panic e.
Proof. unfold check_count. destruct (max <? n); [by intros [= <-]|done]. Qed.

Lemma work_charge_no_panic n : raises no_panic (work_charge n).
Proof. intros s e s'. unfold work_charge. destruct (_ <? _); [by intros [= <- <-]|done]. Qed.

Lemma measure_no_panic v max k e : measure_preparation_bytes v max k = Err e → no_panic e.
Proof.
  unfold measure_preparation_bytes. destruct (json_writes v) as [writes complete].
  destruct (count_writes writes max 0) as [n refused].
  destruct (refused || negb complete); [|done]. destruct (max <? n); by intros [= <-].
Qed.

Lemma work_measure_no_panic v : raises no_panic (work_measure v).
Proof.
  apply raises_seq; [apply work_charge_no_panic|]. intros _ w e w'.
  destruct (measure_preparation_bytes _ _ _) as [n|e1] eqn:Em.
  - apply (raises_seq no_panic (work_charge n) (λ _, ret n));
      [apply work_charge_no_panic|intros; apply raises_ret].
  - apply measure_no_panic in Em. destruct (c_budget (pf_context e1)); by intros [= <- <-].
Qed.

Lemma on_work_raises {A} F (m : SE FittingWorkBudget PreparationFailure A) :
  raises F m → raises F (on_work (V:=V) m).
Proof.
  intros Hm w e w'. unfold on_work. destruct (m (work w)) as [r b] eqn:E. intros [= -> <-].
  by eapply Hm.
Qed.

Lemma validate_request_no_panic v r b : raises no_panic (validate_request validate v r b).
Proof.
  intros w e w'. unfold validate_request.
  destruct (validate v r w) as [[[]|[]] w1]; intros [= <- <-]; done.
Qed.

Lemma add_text_no_panic n : raises no_panic (add_text_bytes n).
Proof. intros s e s'. unfold add_text_bytes. destruct (_ <? _); [by intros [= <- <-]|done]. Qed.

Lemma foldM_raises {S E A X} (F : E → Prop) (f : A → X → SE S E A) xs acc :
  (∀ a x, In x xs → raises F (f a x)) → raises F (foldM f xs acc).
Proof.
  revert acc. induction xs as [|x xs IH]; intros acc Hf; [apply raises_ret|].
  cbn [foldM]. apply raises_seq; [apply Hf; simpl; auto|].
  intros a. apply IH. intros a' x' Hx. apply Hf. simpl; auto.
Qed.

Lemma admit_value_raises v : ∀ depth, raises no_panic (admit_value v depth).
Proof.
  induction v as [|b|n|s|l IH|m IH] using Value_ind_nested; intros depth; cbn [admit_value];
    (apply raises_seq; [apply raises_lift, check_count_no_panic|intros _]);
    (apply raises_seq; [intros c e c' [= Hc _]; by apply check_count_no_panic in Hc|intros _]);
    try apply raises_ret; try apply add_text_no_panic.
  - apply foldM_raises. intros _ x Hx. rewrite Forall_forall in IH.
    by apply IH, list_elem_of_In.
  - apply foldM_raises. intros _ x Hx. apply raises_seq; [apply add_text_no_panic|]. intros _.
    rewrite Forall_forall in IH. by apply IH, list_elem_of_In.
Qed.

Lemma admit_value_no_panic v depth c e : (admit_value v depth c).1 = Err e → no_panic e.
Proof.
  intros He. destruct (admit_value v depth c) as [r c'] eqn:E. simpl in He. subst r.
  by eapply admit_value_raises.
Qed.

Lemma modify_raises {S E} (F : E → Prop) (f : S → S) : raises F (modify f : SE S E unit).
Proof. by intros s e s' [=]. Qed.

Lemma get_raises {S E} (F : E → Prop) : raises F (get_state : SE S E S).
Proof. by intros s e s' [=]. Qed.

Lemma expand_raises segs : ∀ v ptr path s, raises no_panic (expand segs v ptr path s).
Proof.
  induction segs as [|seg segs IH]; intros v ptr path s; cbn [expand];
    (apply raises_seq; [apply modify_raises|intros _]);
    (apply raises_seq; [apply get_raises|intros e]);
    (apply raises_seq; [apply raises_lift, check_count_no_panic|intros _]).
  - unfold expand_target.
    destruct s, v; try (by apply raises_fail);
      (apply raises_seq; [apply modify_raises|intros _]);
      (apply raises_seq; [apply get_raises|intros e']);
      (apply raises_seq; [apply raises_lift, check_count_no_panic|intros _]);
      (destruct (_ <=? _); [apply raises_ret|apply modify_raises]).
  - destruct seg as [f|], v; try by apply raises_fail.
    + case_match; [apply IH|apply raises_ret].
    + apply foldM_raises. intros _ x _. apply IH.
Qed.

Lemma expand_rules_no_panic v previous rules e0 e e1 :
  expand_rules v previous rules e0 = (Err e, e1) → no_panic e.
Proof.
  revert e0 e e1. fold (raises no_panic (expand_rules v previous rules)).
  revert previous. induction rules as [|r rules IH]; intros previous; cbn [expand_rules];
    [apply raises_ret|].
  do 2 (apply raises_seq; [apply raises_lift, check_count_no_panic|intros _]).
  destruct (existsb _ previous); [by apply raises_fail|].
  apply raises_seq; [|intros _; apply IH]. intros x e x'.
  destruct (expand (segments r) v "" "" (rule_strategy r) x) as [[[]|e1] x1] eqn:Ee; [done|].
  apply expand_raises in Ee. intros [= <- <-]. by destruct (c_input_path (pf_context e1)).
Qed.

Lemma fit_turn_no_panic v0 p t pr :
  target_ok v0 (input pr) p t → raises no_panic (fit_turn validate t pr).
Proof.
  intros Hok. unfold fit_turn. destruct (t_exhausted t); [apply raises_ret|].
  destruct (reduce_ok v0 (input pr) p t Hok) as (c & v' & t' & -> & _ & _).
  apply raises_seq.
  { apply raises_lift. intros e He. destruct (check_count _ _ _) eqn:Ec; [done|].
    injection He as <-. by apply check_count_no_panic in Ec. }
  intros _. destruct c; [|apply raises_ret].
  apply raises_seq; [apply on_work_raises, work_measure_no_panic|]. intros _.
  apply raises_seq; [apply validate_request_no_panic|]. intros [[] est]; apply raises_ret.
Qed.

Lemma fit_round_no_panic v0 ps ts : ∀ pr,
  apart ps → Forall2 (target_ok v0 (input pr)) ps ts → raises no_panic (fit_round validate ts pr).
Proof.
  revert ps. induction ts as [|t ts IH]; intros ps pr Hap Hok; cbn [fit_round];
    [apply raises_ret|].
  inversion Hok as [|p ? ps' ? Hp Hps]; subst. destruct Hap as [Hd Hap].
  apply (raises_bind (λ r, match r with inl _ => True
                           | inr (_, t', pr') => fits v0 (input pr) (input pr') [p] [t'] end)).
  - by eapply fit_turn_no_panic.
  - intros w r w' Hr. pose proof (fit_turn_ok _ _ _ _ _ _ _ Hp Hr) as Hf.
    by destruct r as [[]|[[] ?]].
  - intros [done|[[c t'] pr1]] Hf; [apply raises_ret|].
    assert (Forall (λ p, Forall (λ q, diverge p q = true) ps') [p]) as Hd1
      by (constructor; [done|constructor]).
    apply raises_seq; [|intros [?|[[? ?] ?]]; apply raises_ret].
    apply (IH ps'); [done|]. by eapply fits_frame.
Qed.

Lemma fit_loop_no_panic v0 ps fuel rules matched : ∀ ts pr,
  apart ps → Forall2 (target_ok v0 (input pr)) ps ts →
  raises no_panic (fit_loop validate fuel rules matched ts pr).
Proof.
  induction fuel as [|fuel IH]; intros ts pr Hap Hok; cbn [fit_loop]; [apply raises_ret|].
  apply (raises_bind (λ r, match r with inl _ => True
                           | inr (_, ts', pr') => fits v0 (input pr) (input pr') ps ts' end)).
  - by eapply fit_round_no_panic.
  - intros w r w' Hr. pose proof (fit_round_ok _ _ _ _ _ _ _ Hap Hok Hr) as Hf.
    by destruct r as [[]|[[] ?]].
  - intros [done|[[[] ts'] pr']] Hf; [apply raises_ret| |].
    + apply IH; [done|]. apply Hf.
    + apply raises_fail. unfold no_fit. by repeat case_match.
Qed.
End reduction.

(** ** Paths and their text *)

(** The text of a segment path after its first field. *)
Fixpoint tail_text (segs : list FitPathSegment) : string :=
  match segs with
  | [] => ""
  | Field f :: segs => "." +:+ (f +:+ tail_text segs)
  | Each :: segs => "[*]" +:+ tail_text segs
  end.

Definition path_text (segs : list FitPathSegment) : string := str_drop 1 (tail_text segs).

Lemma tail_text_app a b : tail_text (a ++ b) = tail_text a +:+ tail_text b.
Proof.
  induction a as [|[f|] a IH]; [done| |]; cbn [tail_text app]; by rewrite IH, !str_app_assoc.
Qed.

Lemma take_each_text s : ∀ l rest, take_each s = (l, rest) → s = tail_text l +:+ rest.
Proof.
  induction s as [s IH] using (induction_ltof1 _ String.length). unfold ltof in IH.
  intros l rest. destruct s as [|a [|b [|c t]]]; try by intros [= <- <-].
  cbn [take_each].
  destruct (Ascii.eqb_spec a "["); [|by intros [= <- <-]].
  destruct (Ascii.eqb_spec b "*"); [|by intros [= <- <-]].
  destruct (Ascii.eqb_spec c "]"); [|by intros [= <- <-]]. subst. simpl.
  destruct (take_each t) as [l' rest'] eqn:E. intros [= <- <-].
  apply IH in E; [|simpl; lia]. subst t. cbn [tail_text]. by rewrite !str_app_cons, str_app_nil.
Qed.

Lemma parse_fit_loop_text fuel : ∀ first s segs,
  parse_fit_loop fuel first s = Some segs → tail_text segs = "." +:+ s.
Proof.
  induction fuel as [|fuel IH]; intros first s segs; [done|].
  destruct s as [|a t]; [done|]. cbn [parse_fit_loop]. destruct (negb _); [done|].
  destruct (str_span is_path_byte t) as [tail rest] eqn:Esp.
  apply str_span_app in Esp. destruct (first && _); [done|].
  destruct (take_each rest) as [eachs rest'] eqn:Ee. apply take_each_text in Ee.
  destruct rest' as [|c rest'].
  - intros [= <-]. cbn [tail_text]. subst. by rewrite str_app_nil_r, str_app_cons.
  - destruct (Ascii.eqb_spec c "."); [|done]. subst c. simpl.
    destruct (parse_fit_loop fuel false rest') as [l|] eqn:El; simpl; [|done].
    intros [= <-]. apply IH in El. cbn [tail_text]. rewrite tail_text_app, El. subst.
    by rewrite !str_app_cons, str_app_nil.
Qed.

Lemma segment_bytes_fold segs : ∀ n, n ≤ USIZE_MAX →
  fold_left (λ n s, sat_add n (segment_bytes s)) segs n =
  N.min USIZE_MAX (n + str_len (tail_text segs)).
Proof.
  induction segs as [|s segs IH]; intros n Hn; cbn [fold_left tail_text].
  { rewrite str_len_nil. lia. }
  rewrite IH by (unfold sat_add; lia). unfold sat_add, segment_bytes.
  destruct s; autorewrite with str; unfold sat_add; lia.
Qed.

(** ** Properties *)

Section fit_properties.
Context `{SerdeNumber}.
Context `{!SerdeWriter, !JsonPointer} {V : Type}.
Variable validate : Value → FitReport → SE (World (V:=V)) FitValidationError unit.

(** What the expansion of the rules hands to the rounds. *)
Lemma expansion_ok v rules e :
  expand_rules v [] rules Expansion_default = (Ok tt, e) →
  ∃ ps, Forall2 (target_ok v v) ps (targets e) ∧ apart ps ∧
    Forall (λ p, ∃ r, r ∈ rules ∧ concrete (segments r) p) ps.
Proof.
  intros He. destruct (expand_rules_adds v [] rules _ _ [] He) as (ps & A1 & A2 & A3);
    [constructor|done|constructor|]. by exists ps.
Qed.

(** Fitting an input always ends in a result or a failure, whatever the
    validator does, and no failure is a panic: every target that was expanded
    is still there, with its type, in each of its turns. *)
Theorem fit_input_total v rules w :
  match (fit_input_with_work_budget validate v rules w).1 with
  | Ok r => r ≠ None
  | Err e => e ≠ fit_panic
  end.
Proof.
  assert (returns (λ r, r ≠ None) (fit_input_with_work_budget validate v rules)) as Hret.
  { unfold fit_input_with_work_budget. do 3 apply returns_seq.
    destruct (expand_rules v [] rules Expansion_default) as [[[]|e] ex]; [|apply returns_fail].
    apply (returns_bind any); [done|]. intros [[] est] _; [by apply returns_ret|].
    apply fit_loop_enough. unfold fit_fuel. cbn [turns]. lia. }
  assert (raises (λ e, e ≠ fit_panic) (fit_input_with_work_budget validate v rules)) as Herr.
  { intros w1 e w2 He Hp. assert (no_panic e) as Hn; [|by subst e]. revert He. clear Hret Hp.
    revert w1 e w2. fold (raises no_panic (fit_input_with_work_budget validate v rules)).
    unfold fit_input_with_work_budget. apply raises_seq; [|intros _; apply raises_seq;
      [apply on_work_raises, work_measure_no_panic|intros _; apply raises_seq;
        [apply raises_lift, check_count_no_panic|intros _]]].
    - apply raises_lift. intros e. unfold admit_input.
      destruct ((admit_value v 0 (0, 0)).1) as [[]|e1] eqn:Ea; simpl.
      + destruct (measure_preparation_bytes _ _ _) eqn:Em; [done|]. intros [= <-].
        by apply measure_no_panic in Em.
      + intros [= <-]. by apply admit_value_no_panic in Ea.
    - destruct (expand_rules v [] rules Expansion_default) as [[[]|e] ex] eqn:Ee.
      + destruct (expansion_ok _ _ _ Ee) as (ps & A1 & A2 & _).
        apply raises_seq; [apply validate_request_no_panic|].
        intros [[] est]; [apply raises_ret|]. by eapply fit_loop_no_panic.
      + apply raises_fail. by eapply expand_rules_no_panic. }
  destruct (fit_input_with_work_budget validate v rules w) as [[r|e] w'] eqn:E; simpl.
  - by eapply Hret.
  - by eapply Herr.
Qed.

(** C31: an accepted input is authorised: the validator accepted exactly this
    input and report; every change is at a position of an authored rule, where an
    array is a nonempty suffix of the original array and a string is the original
    or its head and tail on character boundaries around the omission marker, with
    the counts of its target and never fewer bytes than the minimum; every
    position that diverges from the targets is unchanged. *)
Theorem fit_input_authorised v rules w v' rep w' :
  fit_input_with_work_budget validate v rules w = (Ok (Some (v', rep)), w') →
  accepted validate v' rep w' ∧
  ∃ ps ts, apart ps ∧ Forall (λ p, ∃ r, r ∈ rules ∧ concrete (segments r) p) ps ∧
    fits v v v' ps ts.
Proof.
  unfold fit_input_with_work_budget.
  intros (a & w1 & _ & (b & w2 & _ & (c & w3 & _ & Hr)%bind_ok)%bind_ok)%bind_ok.
  destruct (expand_rules v [] rules Expansion_default) as [[[]|e] ex] eqn:Ee; [|discriminate Hr].
  destruct (expansion_ok _ _ _ Ee) as (ps & A1 & A2 & A3).
  apply bind_ok in Hr as ([ok est] & w4 & Hval & Hr). destruct ok; cbn [fst snd] in Hr.
  - apply ret_ok in Hr as [[= -> ->] ->]. split; [by eapply validate_request_ok|].
    exists ps, (targets ex). by split_and!.
  - revert Hr. generalize fit_fuel. intros fuel Hr.
    destruct (fit_loop_ok validate v ps fuel rules (matched ex) (targets ex)
      {| input := v; report := {| omissions := [] |}; estimate := est; turns := 0 |} w4 v' rep w'
      A2 A1 Hr) as [[ts Hf] Hacc].
    split; [exact Hacc|]. exists ps, ts. split; [exact A2|]. split; [exact A3|exact Hf].
Qed.
End fit_properties.

(** A parsed fit path prints back to the text it was parsed from, and the
    path bytes that [fit_input] charges for it are the length of that text. *)
Theorem fit_path_round_trip path segs :
  parse_fit_path path = Some segs →
  path_text segs = path ∧ path_bytes segs = str_len path ∧ str_len path ≤ MAX_FIT_PATH_BYTES.
Proof.
  unfold parse_fit_path. destruct (N.ltb_spec MAX_FIT_PATH_BYTES (str_len path)) as [|Hle]; [done|].
  intros Ht%parse_fit_loop_text. unfold path_text, path_bytes.
  rewrite segment_bytes_fold by (unfold USIZE_MAX; lia). rewrite Ht. split; [done|].
  autorewrite with str. change (str_len ".") with 1. unfold USIZE_MAX, MAX_FIT_PATH_BYTES in *. lia.
Qed.

Lemma fit_path_round_trip_witness :
  path_text [Field "items"; Each; Each; Field "Text_1"] = "items[*][*].Text_1".
Proof.
  apply (fit_path_round_trip "items[*][*].Text_1" [Field "items"; Each; Each; Field "Text_1"]).
  reflexivity.
Defined.

(** A serializer that writes the compact text in one piece, and a validator that
    accepts inputs of at most 40 bytes, for the examples. *)
Definition text_writer : @SerdeWriter text_numbers := {|
  json_writes v := ([json_text (H:=text_numbers) v], true);
  json_str_len s := str_len (json_string s)
|}.

Definition sample_validate (v : @Value text_numbers) (_ : FitReport) :
    SE (World (V:=unit)) FitValidationError unit :=
  if str_len (json_text (H:=text_numbers) v) <=? 40 then ret tt
  else fail (OverBudget {| pb_kind := RequestBytes;
                           observed := str_len (json_text (H:=text_numbers) v); maximum := 40 |}).

Definition sample_input : @Value text_numbers :=
  @JObject text_numbers
    [("items", @JArray text_numbers
       ((λ n, @JString text_numbers ("record " +:+ pretty n)) <$> [1; 2; 3; 4; 5]))].

Definition sample_rules : list FitRule :=
  [{| rule_path := "items"; segments := [Field "items"]; rule_strategy := Recent |}].

Definition sample_world : World (V:=unit) :=
  {| work := {| consumed := 0 |}; validator := tt |}.

Definition sample_fitted : @Value text_numbers :=
  @JObject text_numbers
    [("items", @JArray text_numbers
       [@JString text_numbers "record 4"; @JString text_numbers "record 5"])].

Definition sample_report : FitReport :=
  {| omissions := [{| om_path := "items"; om_strategy := Recent; om_original_count := 5;
                      om_retained_count := 2 |}] |}.

Lemma fit_input_authorised_witness :
  ∃ w', fit_input_with_work_budget (H0:=text_writer) (H1:=rfc_pointer (H:=text_numbers))
          sample_validate sample_input sample_rules sample_world =
          (Ok (Some (sample_fitted, sample_report)), w') ∧
        accepted (H:=text_numbers) sample_validate sample_fitted sample_report w'.
Proof.
  exists {| work := {| consumed := 198 |}; validator := tt |}. split; [vm_refl|].
  eapply (fit_input_authorised (H0:=text_writer) (H1:=rfc_pointer (H:=text_numbers))
            sample_validate sample_input sample_rules sample_world). vm_refl.
Defined.
