(* ===== verification/Filters.v ===== *)
(** * Event filters (crates/antiburn-checks/src/filters.rs, context.rs)

    Repository globs with their two reachability tables, the path filters with
    their work limit, and the attribution filters.  The tables are proved to
    decide the declarative meaning of [*], [?] and [**]. *)

From S2P Require Import Prelude RustString Json.

Definition MAX_PATH_FILTER_WORK : N := 1000000.

Inductive AttributionScope := ScopeMessage | ScopeTurn | ScopeSession.
Inductive FilterField := FieldModel | FieldFastMode | FieldPaths | FieldPathsIgnore.

#[export] Instance FilterField_eq_dec : EqDecision FilterField.
Proof. solve_decision. Defined.

Inductive FilterReason :=
| Unavailable | Incomplete | Invalid | KnownEmpty | NoMatch | IgnoredPath | LimitExceeded.

#[export] Instance FilterReason_eq_dec : EqDecision FilterReason.
Proof. solve_decision. Defined.

Record FilterDiagnostic := {
  fd_field : FilterField;
  fd_reason : FilterReason;
  fd_scope : AttributionScope;
  fd_limits : list string
}.

(** ** Identifiers and paths *)

Definition str_any_char (p : N → bool) (s : string) : bool := existsb p (chars s).

Definition is_model_identifier (value : string) : bool :=
  str_contains_char value "/" &&
  forallb (λ segment, negb (String.eqb segment "")) (str_split "/" value) &&
  negb (str_any_char char_is_whitespace value).

Definition is_repository_path (value : string) : bool :=
  negb (String.eqb value "") &&
  negb (str_contains_char value (ascii_of_N 92)) &&
  negb (str_contains_char value (ascii_of_N 0)) &&
  negb (match value with String _ (String b _) => Ascii.eqb b ":" | _ => false end) &&
  forallb (λ segment, negb (String.eqb segment "" || String.eqb segment "." ||
                            String.eqb segment "..")) (str_split "/" value).

(** ** Globs *)

(** [RepositoryGlob(String)], an authored pattern. *)
Record RepositoryGlob := { pattern : string }.

Definition RepositoryGlob_parse (p : string) : result RepositoryGlob string :=
  if negb (is_repository_path p)
     || existsb (str_contains_char p) ["["; "]"; "{"; "}"]%char
     || existsb (str_contains p) ["@("; "!("; "?("; "*("; "+("]
     || existsb (λ segment, str_contains segment "**" && negb (String.eqb segment "**"))
          (str_split "/" p)
  then Err "Use a repository-relative pattern with / separators, *, ?, and whole ** segments."
  else Ok {| pattern := p |}.

(** [for index in 1..len { reachable[index] |= reachable[index - 1] }] *)
Fixpoint spread (before : bool) (reachable : list bool) : list bool :=
  match reachable with
  | [] => []
  | b :: reachable => (b || before) :: spread (b || before) reachable
  end.

(** [for index in (1..len).rev() { reachable[index] = reachable[index - 1] && .. }]
    and [reachable[0] = false]: the loop runs downwards, so it reads the old
    entries. *)
Definition shift {A} (test : A → bool) (xs : list A) (reachable : list bool) : list bool :=
  false :: zip_with (λ before x, before && test x) reachable xs.

(** The table of [n] items with only the first entry set. *)
Definition initial (n : nat) : list bool := true :: repeat false n.

Definition segment_matches (p value : string) : bool :=
  let value := chars value in
  let reachable :=
    fold_left (λ reachable token,
      if token =? 42 then spread false reachable
      else shift (λ c, (token =? 63) || (token =? c)) value reachable)
      (chars p) (initial (length value)) in
  default false (reachable !! length value).

(** [RepositoryGlob::matches] *)
Definition matches (glob : RepositoryGlob) (path : string) : bool :=
  if negb (is_repository_path path) then false
  else
    let path := str_split "/" path in
    let reachable :=
      fold_left (λ reachable p,
        if String.eqb p "**" then spread false reachable
        else shift (segment_matches p) path reachable)
        (str_split "/" (pattern glob)) (initial (length path)) in
    default false (reachable !! length path).

(** ** Filters *)

(** [work_left] threaded; [None] is a missing product or an exhausted
    allowance. *)
Fixpoint path_matches_any (globs : list RepositoryGlob) (path : string) (work_left : N) :
    option (bool * N) :=
  match globs with
  | [] => Some (false, work_left)
  | glob :: globs =>
      let cost := str_len (pattern glob) * str_len path in
      if (USIZE_MAX <? cost) || (work_left <? cost) then None
      else if matches glob path then Some (true, work_left - cost)
      else path_matches_any globs path (work_left - cost)
  end.

Fixpoint any_path_matches (globs : list RepositoryGlob) (paths : list string) (work_left : N) :
    option (bool * N) :=
  match paths with
  | [] => Some (false, work_left)
  | path :: paths =>
      '(found, work_left) ← path_matches_any globs path work_left;
      if found : bool then Some (true, work_left) else any_path_matches globs paths work_left
  end.

Section filters.
Context `{SerdeNumber}.

Definition recorded_limit (v : Value) (field : string) : list string :=
  match (quality ← value_get v "quality"; x ← value_get quality field; as_str x) with
  | Some s => [s]
  | None => []
  end.

Definition model_reason (models : list string) (v : Value) : option FilterReason :=
  match (x ← value_get v "model"; as_str x) with
  | None => Some Unavailable
  | Some model =>
      if negb (is_model_identifier model) then Some Invalid
      else if negb (existsb (String.eqb model) models) then Some NoMatch
      else None
  end.

Definition fast_mode_reason (expected : bool) (v : Value) : option FilterReason :=
  match (x ← value_get v "fast_mode"; as_bool x) with
  | None => Some Unavailable
  | Some mode => if negb (Bool.eqb mode expected) then Some NoMatch else None
  end.

Definition diagnose (field : FilterField) (scope : AttributionScope) (limits : list string)
    (reason : option FilterReason) : result unit FilterDiagnostic :=
  match reason with
  | Some r => Err {| fd_field := field; fd_reason := r; fd_scope := scope; fd_limits := limits |}
  | None => Ok tt
  end.

Definition evaluate_attribution_filters (models : option (list string)) (fast_mode : option bool)
    (scope : AttributionScope) (v : Value) : result unit FilterDiagnostic :=
  let? _ := match models with
            | Some models =>
                diagnose FieldModel scope (recorded_limit v "model_limit") (model_reason models v)
            | None => Ok tt
            end in
  match fast_mode with
  | Some expected =>
      diagnose FieldFastMode scope (recorded_limit v "fast_mode_limit")
        (fast_mode_reason expected v)
  | None => Ok tt
  end.

(** [message.pointer("/a/b")] for two fixed keys that are not indexes. *)
Definition pointer2 (v : Value) (a b : string) : option Value :=
  x ← value_get v a; value_get x b.

Definition paths_limits (message : Value) : list string :=
  match (x ← pointer2 message "quality" "paths_limits"; as_array x) with
  | Some l => omap as_str l
  | None => []
  end.

(** The recorded paths, if each is a repository path. *)
Fixpoint recorded_paths (l : list Value) : option (list string) :=
  match l with
  | [] => Some []
  | x :: l =>
      s ← as_str x;
      if is_repository_path s then rest ← recorded_paths l; Some (s :: rest) else None
  end.

Definition paths_complete (message : Value) : bool :=
  match (x ← pointer2 message "quality" "paths_complete"; as_bool x) with
  | Some true => true
  | _ => false
  end.

Definition evaluate_path_filters (includes ignores : option (list RepositoryGlob))
    (message : Value) : result unit FilterDiagnostic :=
  let fail {A} field reason : result A FilterDiagnostic :=
    Err {| fd_field := field; fd_reason := reason; fd_scope := ScopeMessage;
           fd_limits := paths_limits message |} in
  match includes, ignores with
  | None, None => Ok tt
  | _, _ =>
      let field := match ignores with Some _ => FieldPathsIgnore | None => FieldPaths end in
      match (x ← pointer2 message "tool" "paths"; as_array x) with
      | None => fail field Unavailable
      | Some l =>
          match recorded_paths l with
          | None => fail field Invalid
          | Some paths =>
              let complete := paths_complete message in
              let? work_left :=
                match ignores with
                | None => Ok MAX_PATH_FILTER_WORK
                | Some ignores =>
                    match any_path_matches ignores paths MAX_PATH_FILTER_WORK with
                    | None => fail FieldPathsIgnore LimitExceeded
                    | Some (true, _) => fail FieldPathsIgnore IgnoredPath
                    | Some (false, work_left) =>
                        if complete then Ok work_left else fail FieldPathsIgnore Incomplete
                    end
                end in
              match includes with
              | None => Ok tt
              | Some includes =>
                  match any_path_matches includes paths work_left with
                  | None => fail FieldPaths LimitExceeded
                  | Some (true, _) => Ok tt
                  | Some (false, _) =>
                      fail FieldPaths
                        (if negb complete then Incomplete
                         else match paths with [] => KnownEmpty | _ => NoMatch end)
                  end
              end
          end
      end
  end.
End filters.

(** ** Attribution (context.rs) *)

Record ObservedAttribution := {
  oa_model : option string;
  oa_fast_mode : option bool
}.

#[export] Instance ObservedAttribution_eq_dec : EqDecision ObservedAttribution.
Proof. solve_decision. Defined.

Definition uniform_attribution (requests : list ObservedAttribution) (complete : bool) :
    ObservedAttribution :=
  match requests with
  | first :: _ =>
      if complete then
        {| oa_model :=
             match oa_model first with
             | Some model =>
                 if is_model_identifier model &&
                    forallb (λ r, bool_decide (oa_model r = Some model)) requests
                 then Some model else None
             | None => None
             end;
           oa_fast_mode :=
             match oa_fast_mode first with
             | Some mode =>
                 if forallb (λ r, bool_decide (oa_fast_mode r = Some mode)) requests
                 then Some mode else None
             | None => None
             end |}
      else {| oa_model := None; oa_fast_mode := None |}
  | [] => {| oa_model := None; oa_fast_mode := None |}
  end.

(** ** What a glob means *)

(** A token: any sequence of items, or one item that passes a test. *)
Inductive Token (A : Type) :=
| Star
| One (test : A → bool).
Arguments Star {_}.
Arguments One {_} _.

Inductive glob_match {A} : list (Token A) → list A → Prop :=
| match_nil : glob_match [] []
| match_star_skip ts xs : glob_match ts xs → glob_match (Star :: ts) xs
| match_star_take ts x xs : glob_match (Star :: ts) xs → glob_match (Star :: ts) (x :: xs)
| match_one test ts x xs : test x = true → glob_match ts xs → glob_match (One test :: ts) (x :: xs).

Section tables.
Context {A : Type}.
Implicit Types (xs : list A) (r : list bool) (ts : list (Token A)).

Definition advance (xs : list A) (r : list bool) (t : Token A) : list bool :=
  match t with Star => spread false r | One test => shift test xs r end.

(** Some reachable position from which the rest matches. *)
Definition accepts (r : list bool) (ts : list (Token A)) (xs : list A) : Prop :=
  ∃ i, r !! i = Some true ∧ glob_match ts (drop i xs).

Lemma spread_lookup r before j :
  spread before r !! j = Some true ↔
  (j < length r)%nat ∧ (before = true ∨ ∃ i, (i ≤ j)%nat ∧ r !! i = Some true).
Proof.
  revert before j. induction r as [|b r IH]; intros before j; simpl.
  { rewrite lookup_nil. split; [done|]. intros [? _]. lia. }
  destruct j as [|j]; simpl.
  - split.
    + intros [= Hb]. split; [lia|]. destruct before; [by left|]. right. exists O.
      destruct b; [done|discriminate].
    + intros [_ [->|(i & Hi & Hl)]]; [by rewrite orb_true_r|].
      destruct i; [|lia]. injection Hl as ->. done.
  - rewrite IH. split.
    + intros [Hj Hor]. split; [lia|]. destruct Hor as [Hb|(i & Hi & Hl)].
      * destruct before; [by left|]. right. exists O. split; [lia|]. destruct b; done.
      * right. exists (S i). split; [lia|done].
    + intros [Hj Hor]. split; [lia|]. destruct Hor as [->|(i & Hi & Hl)].
      * left. by rewrite orb_true_r.
      * destruct i as [|i]; [injection Hl as ->; by left|]. right. exists i. split; [lia|done].
Qed.

Lemma star_match ts xs :
  glob_match (Star :: ts) xs ↔ ∃ k, (k ≤ length xs)%nat ∧ glob_match ts (drop k xs).
Proof.
  split.
  - remember (Star :: ts) as us eqn:E. induction 1 as [|us xs Hm IH|us x xs Hm IH|]; try done.
    + injection E as ->. exists O. split; [lia|done].
    + destruct (IH E) as (k & Hk & Hd). exists (S k). simpl. split; [lia|done].
  - intros (k & Hk & Hm). revert xs Hk Hm. induction k as [|k IH]; intros xs Hk Hm.
    + apply match_star_skip. by rewrite drop_0 in Hm.
    + destruct xs as [|x xs]; simpl in *; [lia|]. apply match_star_take. apply IH; [lia|done].
Qed.

Lemma one_match test ts xs :
  glob_match (One test :: ts) xs ↔ ∃ x xs', xs = x :: xs' ∧ test x = true ∧ glob_match ts xs'.
Proof.
  split; [inversion 1; subst; eauto|]. intros (x & xs' & -> & ? & ?). by constructor.
Qed.

Lemma length_spread r before : length (spread before r) = length r.
Proof. revert before. induction r; intros before; simpl; auto. Qed.

Lemma length_advance xs r t :
  length r = S (length xs) → length (advance xs r t) = S (length xs).
Proof.
  intros Hr. destruct t; simpl; [by rewrite length_spread|].
  rewrite length_zip_with. lia.
Qed.

Lemma shift_lookup test xs r i :
  shift test xs r !! S i = b ← r !! i; x ← xs !! i; Some (b && test x).
Proof.
  change (shift test xs r !! S i) with (zip_with (λ before x, before && test x) r xs !! i).
  by rewrite lookup_zip_with.
Qed.

(** One step of a table keeps what the remaining tokens accept. *)
Lemma advance_accepts xs r t ts :
  length r = S (length xs) → accepts r (t :: ts) xs ↔ accepts (advance xs r t) ts xs.
Proof.
  intros Hr. unfold accepts. destruct t as [|test]; cbn [advance].
  - split.
    + intros (i & Hi & Hm). apply star_match in Hm as (k & Hk & Hm). rewrite length_drop in Hk.
      exists (i + k)%nat. rewrite drop_drop in Hm. split; [|done]. apply spread_lookup.
      pose proof (lookup_lt_Some _ _ _ Hi). split; [lia|]. right. exists i. split; [lia|done].
    + intros (j & Hj & Hm). apply spread_lookup in Hj as [Hj [|(i & Hi & Hl)]]; [done|].
      exists i. split; [done|]. apply star_match. exists (j - i)%nat.
      rewrite length_drop, drop_drop. split; [lia|]. by replace (i + (j - i))%nat with j by lia.
  - split.
    + intros (i & Hi & Hm). apply one_match in Hm as (x & xs' & Hd & Ht & Hm).
      exists (S i). assert (xs !! i = Some x) as Hx
        by (rewrite <- (Nat.add_0_r i), <- lookup_drop, Hd; done).
      split.
      * rewrite shift_lookup, Hi. simpl. rewrite Hx. simpl. by rewrite Ht.
      * replace (S i) with (i + 1)%nat by lia. by rewrite <- drop_drop, Hd.
    + intros (j & Hj & Hm). destruct j as [|i]; [done|]. rewrite shift_lookup in Hj.
      destruct (r !! i) as [b|] eqn:Hi; simpl in Hj; [|done].
      destruct (xs !! i) as [x|] eqn:Hx; simpl in Hj; [|done].
      injection Hj as Hb. apply andb_true_iff in Hb as [-> Ht].
      exists i. split; [done|]. apply one_match. exists x, (drop (S i) xs).
      split; [by apply drop_S|done].
Qed.

Lemma accepts_initial ts xs : accepts (initial (length xs)) ts xs ↔ glob_match ts xs.
Proof.
  unfold accepts, initial. split.
  - intros ([|i] & Hi & Hm); [by rewrite drop_0 in Hm|]. simpl in Hi.
    apply list_elem_of_lookup_2, list_elem_of_In, repeat_spec in Hi. done.
  - intros Hm. exists O. by rewrite drop_0.
Qed.

Lemma accepts_end r xs :
  length r = S (length xs) → accepts r [] xs ↔ default false (r !! length xs) = true.
Proof.
  intros Hr. unfold accepts. split.
  - intros (i & Hi & Hm). remember (drop i xs) as d eqn:Hd. inversion Hm; subst d. pose proof (lookup_lt_Some _ _ _ Hi).
    match goal with E : [] = drop i xs |- _ =>
      apply (f_equal (@List.length A)) in E; rewrite length_drop in E; simpl in E end.
    replace (length xs) with i by lia. by rewrite Hi.
  - intros Hl. exists (length xs). rewrite drop_all. split; [|constructor].
    destruct (r !! length xs) eqn:E; simpl in Hl; [by subst|done].
Qed.

(** The table decides the declarative meaning. *)
Lemma table_correct ts xs :
  default false (fold_left (advance xs) ts (initial (length xs)) !! length xs) = true ↔
  glob_match ts xs.
Proof.
  rewrite <- accepts_initial.
  assert (length (initial (length xs)) = S (length xs)) as Hr
    by (unfold initial; simpl; by rewrite repeat_length).
  revert Hr. generalize (initial (length xs)). induction ts as [|t ts IH]; intros r Hr; simpl.
  - by rewrite <- accepts_end.
  - rewrite IH by (by apply length_advance). symmetry. by apply advance_accepts.
Qed.
End tables.

(** The tokens of a segment pattern and of a whole pattern. *)
Definition char_token (c : N) : Token N :=
  if c =? 42 then Star else One (λ x, (c =? 63) || (c =? x)).
Definition segment_token (p : string) : Token string :=
  if String.eqb p "**" then Star else One (segment_matches p).

Lemma fold_left_map {A B C} (f : A → B → A) (g : C → B) l a :
  fold_left f (map g l) a = fold_left (λ a c, f a (g c)) l a.
Proof. revert a. induction l as [|c l IH]; intros a; simpl; [done|apply IH]. Qed.

Lemma fold_left_ext {A B} (f g : A → B → A) l a :
  (∀ a b, f a b = g a b) → fold_left f l a = fold_left g l a.
Proof.
  intros Hfg. revert a. induction l as [|b l IH]; intros a; simpl; [done|]. by rewrite Hfg.
Qed.

Lemma segment_matches_correct p value :
  segment_matches p value = true ↔ glob_match (map char_token (chars p)) (chars value).
Proof.
  rewrite <- table_correct, fold_left_map. unfold segment_matches.
  rewrite (fold_left_ext _ (λ r c, advance (chars value) r (char_token c))); [done|].
  intros r c. unfold char_token. by destruct (c =? 42).
Qed.

Lemma matches_correct g path :
  is_repository_path path = true →
  matches g path = true ↔
  glob_match (map segment_token (str_split "/" (pattern g))) (str_split "/" path).
Proof.
  intros Hp. rewrite <- table_correct, fold_left_map. unfold matches. rewrite Hp. cbn [negb].
  rewrite (fold_left_ext _ (λ r c, advance (str_split "/" path) r (segment_token c))); [done|].
  intros r c. unfold segment_token. by destruct (String.eqb c "**").
Qed.

(** ** The work limit *)

(** The byte products of all pairs. *)
Definition filter_cost (globs : list RepositoryGlob) (paths : list string) : N :=
  foldr (λ path n, foldr (λ g n, str_len (pattern g) * str_len path + n) n globs) 0 paths.

Definition some_match (globs : list RepositoryGlob) (paths : list string) : bool :=
  existsb (λ path, existsb (λ g, matches g path) globs) paths.

Lemma path_matches_any_sound globs path w b w' :
  path_matches_any globs path w = Some (b, w') →
  b = existsb (λ g, matches g path) globs ∧ w' ≤ w.
Proof.
  revert w. induction globs as [|g globs IH]; intros w; simpl; [by intros [= <- <-]|].
  destruct (_ || _); [done|]. destruct (matches g path); simpl.
  - intros [= <- <-]. split; [done|lia].
  - intros Hr%IH. destruct Hr as [-> ?]. split; [done|lia].
Qed.

Lemma any_path_matches_sound globs paths w b w' :
  any_path_matches globs paths w = Some (b, w') → b = some_match globs paths ∧ w' ≤ w.
Proof.
  revert w. induction paths as [|path paths IH]; intros w; simpl; [by intros [= <- <-]|].
  destruct (path_matches_any globs path w) as [[found w1]|] eqn:E; simpl; [|done].
  apply path_matches_any_sound in E as [-> ?]. destruct (existsb _ globs); simpl.
  - intros [= <- <-]. done.
  - intros Hr%IH. destruct Hr as [-> ?]. split; [done|lia].
Qed.

Lemma path_matches_any_enough globs path w n :
  foldr (λ g n, str_len (pattern g) * str_len path + n) n globs ≤ w → w ≤ USIZE_MAX →
  ∃ b w', path_matches_any globs path w = Some (b, w') ∧ n ≤ w'.
Proof.
  revert w. induction globs as [|g globs IH]; intros w Hc Hw; simpl in *; [eauto|].
  set (cost := str_len (pattern g) * str_len path) in *.
  set (rest := foldr _ n globs) in *.
  assert (n ≤ rest) as Hn by (unfold rest; clear; induction globs; simpl; lia).
  destruct ((USIZE_MAX <? cost) || (w <? cost)) eqn:E; [lia|].
  destruct (matches g path); [eexists _, _; split; [done|lia]|]. apply IH; lia.
Qed.

Lemma path_cost_add globs path m n :
  foldr (λ g n, str_len (pattern g) * str_len path + n) m globs + n =
  foldr (λ g n, str_len (pattern g) * str_len path + n) (m + n) globs.
Proof. induction globs as [|g globs IH]; simpl; [done|]. rewrite <- IH. lia. Qed.

Lemma any_path_matches_enough globs paths w n :
  filter_cost globs paths + n ≤ w → w ≤ USIZE_MAX →
  ∃ b w', any_path_matches globs paths w = Some (b, w') ∧ n ≤ w'.
Proof.
  revert w. induction paths as [|path paths IH]; intros w Hc Hw; simpl in *.
  { exists false, w. split; [done|lia]. }
  rewrite path_cost_add in Hc.
  destruct (path_matches_any_enough globs path w (filter_cost globs paths + n) Hc Hw)
    as (b & w' & E & Hle). rewrite E. simpl. apply path_matches_any_sound in E as [_ ?].
  destruct b; [eexists _, _; split; [done|lia]|]. apply IH; lia.
Qed.

Lemma any_path_matches_exact globs paths w n :
  filter_cost globs paths + n ≤ w → w ≤ USIZE_MAX →
  ∃ w', any_path_matches globs paths w = Some (some_match globs paths, w') ∧ n ≤ w' ≤ w.
Proof.
  intros Hc Hw. destruct (any_path_matches_enough globs paths w n Hc Hw) as (b & w' & E & ?).
  pose proof (any_path_matches_sound _ _ _ _ _ E) as [-> ?]. eauto.
Qed.

(** ** Properties *)

(** C32: the two reachability tables decide the meaning of a glob: [**] is any
    sequence of segments, a segment pattern matches one whole segment, and in it
    [*] is any sequence of characters and [?] any one character. *)
Theorem glob_decides g path :
  is_repository_path path = true →
  (matches g path = true ↔
   glob_match (map segment_token (str_split "/" (pattern g))) (str_split "/" path)) ∧
  ∀ p segment, segment_matches p segment = true ↔
    glob_match (map char_token (chars p)) (chars segment).
Proof.
  intros Hp. split; [by apply matches_correct|]. intros p segment. apply segment_matches_correct.
Qed.

Lemma glob_decides_witness :
  glob_match (map segment_token ["src"; "**"; "*.r?"]) ["src"; "a"; "b"; "main.rs"].
Proof.
  apply (glob_decides {| pattern := "src/**/*.r?" |} "src/a/b/main.rs" eq_refl). reflexivity.
Defined.

Section filter_properties.
Context `{SerdeNumber}.

(** An event that passes the path filters has recorded paths; with a veto
    list the recorded set is complete and no path matches any veto pattern, and
    with an include list some recorded path matches one of its patterns. *)
Theorem path_filters_sound includes ignores message :
  evaluate_path_filters includes ignores message = Ok tt →
  includes = None ∧ ignores = None ∨
  ∃ paths l, (x ← pointer2 message "tool" "paths"; as_array x) = Some l ∧
    recorded_paths l = Some paths ∧
    (∀ globs, ignores = Some globs →
       paths_complete message = true ∧ some_match globs paths = false) ∧
    (∀ globs, includes = Some globs → some_match globs paths = true).
Proof.
  unfold evaluate_path_filters.
  destruct (x ← pointer2 message "tool" "paths"; as_array x) as [l|] eqn:El;
    [|by destruct includes, ignores; auto].
  destruct (recorded_paths l) as [paths|] eqn:Ep; [|by destruct includes, ignores; auto].
  intros Hev. destruct includes as [incs|], ignores as [igns|]; [| | |by left]; right;
    exists paths, l; (split; [done|]); (split; [done|]).
  - destruct (any_path_matches igns paths _) as [[[] w]|] eqn:E1; try discriminate Hev.
    apply any_path_matches_sound in E1 as [Hi _].
    destruct (paths_complete message) eqn:Ec; try discriminate Hev. simpl in Hev.
    destruct (any_path_matches incs paths w) as [[[] w2]|] eqn:E2; try discriminate Hev.
    apply any_path_matches_sound in E2 as [Hn _].
    split; intros globs [= <-]; auto.
  - simpl in Hev. destruct (any_path_matches incs paths _) as [[[] w2]|] eqn:E2;
      try discriminate Hev. apply any_path_matches_sound in E2 as [Hn _].
    split; intros globs; [done|]. intros [= <-]. auto.
  - destruct (any_path_matches igns paths _) as [[[] w]|] eqn:E1; try discriminate Hev.
    apply any_path_matches_sound in E1 as [Hi _].
    destruct (paths_complete message) eqn:Ec; try discriminate Hev.
    split; intros globs; [|done]. intros [= <-]. auto.
Qed.

(** The verdict on complete work: a veto is decided before an include, and an
    incomplete set can prove a match but not its absence. *)
Definition path_verdict (includes ignores : option (list RepositoryGlob)) (paths : list string)
    (complete : bool) : option (FilterField * FilterReason) :=
  match ignores with
  | Some globs =>
      if some_match globs paths then Some (FieldPathsIgnore, IgnoredPath)
      else if negb complete then Some (FieldPathsIgnore, Incomplete)
      else match includes with
           | Some globs =>
               if some_match globs paths then None
               else Some (FieldPaths, match paths with [] => KnownEmpty | _ => NoMatch end)
           | None => None
           end
  | None =>
      match includes with
      | Some globs =>
          if some_match globs paths then None
          else Some (FieldPaths, if negb complete then Incomplete
                                 else match paths with [] => KnownEmpty | _ => NoMatch end)
      | None => None
      end
  end.

(** When the byte products of the patterns and paths fit in the work limit,
    the path filters give exactly the verdict of the specification. *)
Theorem path_filters_verdict includes ignores message l paths :
  (x ← pointer2 message "tool" "paths"; as_array x) = Some l →
  recorded_paths l = Some paths →
  filter_cost (default [] ignores) paths + filter_cost (default [] includes) paths
    ≤ MAX_PATH_FILTER_WORK →
  evaluate_path_filters includes ignores message =
  match path_verdict includes ignores paths (paths_complete message) with
  | None => Ok tt
  | Some (field, reason) =>
      Err {| fd_field := field; fd_reason := reason; fd_scope := ScopeMessage;
             fd_limits := paths_limits message |}
  end.
Proof.
  intros El Ep Hcost. unfold evaluate_path_filters. rewrite El, Ep.
  destruct (any_path_matches_exact (default [] ignores) paths MAX_PATH_FILTER_WORK
    (filter_cost (default [] includes) paths) Hcost ltac:(vm_compute; discriminate))
    as (w & E1 & Hlo & Hhi).
  destruct (any_path_matches_exact (default [] includes) paths w 0) as (w2 & E2 & _).
  { lia. } { etransitivity; [exact Hhi|vm_compute; discriminate]. }
  destruct (any_path_matches_exact (default [] includes) paths MAX_PATH_FILTER_WORK 0)
    as (w3 & E3 & _). { lia. } { vm_compute. discriminate. }
  destruct includes as [incs|], ignores as [igns|]; cbn [default from_option id] in *;
    unfold path_verdict; rewrite ?E1; cbn [result_bind];
    repeat (case_match; simplify_eq/=; try done); done.
Qed.

End filter_properties.

Definition sample_message : Value (H:=text_numbers) :=
  @JObject text_numbers
    [("tool", @JObject text_numbers [("paths", @JArray text_numbers
        [@JString text_numbers "docs/guide.md"; @JString text_numbers "src/main.rs"])]);
     ("quality", @JObject text_numbers [("paths_complete", @JBool text_numbers true)])].

Definition sample_includes : option (list RepositoryGlob) := Some [{| pattern := "src/**" |}].
Definition sample_ignores : option (list RepositoryGlob) := Some [{| pattern := "**/*.lock" |}].

Lemma path_filters_sound_witness :
  paths_complete (H:=text_numbers) sample_message = true.
Proof.
  destruct (path_filters_sound (H:=text_numbers) sample_includes sample_ignores sample_message)
    as [[Hn _]|(paths & l & _ & _ & Hveto & _)]; [vm_refl|discriminate Hn|].
  destruct (Hveto _ eq_refl) as [Hc _]. exact Hc.
Defined.

Lemma path_filters_verdict_witness :
  evaluate_path_filters (H:=text_numbers) sample_includes sample_ignores sample_message = Ok tt.
Proof.
  rewrite (path_filters_verdict (H:=text_numbers) sample_includes sample_ignores sample_message
    [@JString text_numbers "docs/guide.md"; @JString text_numbers "src/main.rs"]
    ["docs/guide.md"; "src/main.rs"]); [vm_refl..|].
  apply N.leb_le. vm_refl.
Defined.
