(* ===== verification/Domain.v ===== *)
(** * Runtime identities and observations (crates/antiburn-checks/src/domain.rs)

    Positions, generations, activation scopes, evidence, observations and
    frozen candidates.  Newtypes over [u64] are [N]; newtypes over [String] are
    records, so that different identities cannot be confused. *)

From S2P Require Import Prelude RustString Json.

(** [ObservationPosition], [Generation] and [PublicationCursor] are numbers of
    64 bits. *)
Notation ObservationPosition := N.
Notation Generation := N.
Notation PublicationCursor := N.

Record NativeOrderKey := { order_key : string }.
Record BranchId := { branch_id : string }.
Record EvidenceVersion := { evidence_version : string }.

#[export] Instance NativeOrderKey_eq_dec : EqDecision NativeOrderKey.
Proof. solve_decision. Defined.
#[export] Instance BranchId_eq_dec : EqDecision BranchId.
Proof. solve_decision. Defined.
#[export] Instance EvidenceVersion_eq_dec : EqDecision EvidenceVersion.
Proof. solve_decision. Defined.

Inductive RunScope := Live | Replay (id : string).

#[export] Instance RunScope_eq_dec : EqDecision RunScope.
Proof. solve_decision. Defined.

Record ActivationScope := {
  environment : string;
  session_cwd : string;
  run : RunScope
}.

#[export] Instance ActivationScope_eq_dec : EqDecision ActivationScope.
Proof. solve_decision. Defined.

Definition ActivationScope_default : ActivationScope :=
  {| environment := ""; session_cwd := ""; run := Live |}.

Record ActivationId := {
  a_scope : ActivationScope;
  a_definition_id : string;
  a_generation : Generation
}.

#[export] Instance ActivationId_eq_dec : EqDecision ActivationId.
Proof. solve_decision. Defined.

Inductive EvidenceDependency :=
| DepMessage (id : string) (version : EvidenceVersion)
| MembershipThrough (position : ObservationPosition)
| DepContext (id : string) (version : EvidenceVersion)
| SourceEvidence (id : string) (version : EvidenceVersion)
| SessionActivity (attachment_epoch : string) (activity_revision : N).

#[export] Instance EvidenceDependency_eq_dec : EqDecision EvidenceDependency.
Proof. solve_decision. Defined.

Inductive SessionStartReason := StartNew | StartResumed | StartAttached.
Inductive ResponseCycleStatus := CycleCompleted | CycleCancelled | CycleError.

#[export] Instance SessionStartReason_eq_dec : EqDecision SessionStartReason.
Proof. solve_decision. Defined.
#[export] Instance ResponseCycleStatus_eq_dec : EqDecision ResponseCycleStatus.
Proof. solve_decision. Defined.

Section domain.
Context `{SerdeNumber}.

Record Message := { m_id : string; m_value : Value }.

Record FrozenContext := { fc_value : Value; fc_dependencies : list EvidenceDependency }.

Inductive ObservationKind :=
| UserMessage (message : Message)
| AssistantMessage (message : Message)
| ToolCall (message : Message)
| ToolResult (message : Message) (category status : string)
| TurnEnd (turn : Value)
| SessionStart (reason : SessionStartReason)
| SessionIdle (attachment_epoch : string) (activity_revision idle_seconds : N)
    (last_activity_at_ms : option Z)
| OtherObservation.

Record ObservationDraft := {
  dr_branch : BranchId;
  dr_native_order : NativeOrderKey;
  dr_first_terminal : option PublicationCursor;
  dr_first_eligible : option PublicationCursor;
  dr_version : EvidenceVersion;
  dr_kind : ObservationKind;
  dr_context : FrozenContext;
  dr_complete : bool
}.

Record Observation := {
  ob_position : ObservationPosition;
  ob_branch : BranchId;
  ob_native_order : NativeOrderKey;
  ob_first_terminal : option PublicationCursor;
  ob_first_eligible : option PublicationCursor;
  ob_version : EvidenceVersion;
  ob_kind : ObservationKind;
  ob_context : FrozenContext;
  ob_complete : bool
}.

(** [ObservationDraft::commit] *)
Definition commit (d : ObservationDraft) (position : ObservationPosition) : Observation :=
  {| ob_position := position; ob_branch := dr_branch d; ob_native_order := dr_native_order d;
     ob_first_terminal := dr_first_terminal d; ob_first_eligible := dr_first_eligible d;
     ob_version := dr_version d; ob_kind := dr_kind d; ob_context := dr_context d;
     ob_complete := dr_complete d |}.

Record FrozenCandidate := {
  fr_activation : ActivationId;
  fr_branch : BranchId;
  fr_trigger_position : ObservationPosition;
  fr_messages : list Message;
  fr_context : FrozenContext;
  fr_dependencies : list EvidenceDependency;
  fr_fingerprint : list N
}.
End domain.
