(* ===== verification/Template.v ===== *)
(** * Conditions and input templates (crates/antiburn-checks/src/compiler.rs)

    The authored conditions and the recursive input templates of a compiled
    check, and the visitor of their expressions. *)

From S2P Require Import Prelude RustString Json Expression.

Section template.
Context `{SerdeNumber}.

(** A Boolean condition or parsed expression. *)
Inductive Condition :=
| CondBoolean (b : bool)
| CondExpression (e : Expression).

Inductive InputLiteral :=
| LitNull
| LitBoolean (b : bool)
| LitNumber (n : Number)
| LitString (s : string).

Inductive TemplatePart :=
| PartLiteral (s : string)
| PartExpression (e : Expression).

Inductive InputTemplate :=
| TLiteral (l : InputLiteral)
| TExpression (e : Expression)
| TText (parts : list TemplatePart)
| TSequence (items : list InputTemplate)
| TObject (items : list (string * InputTemplate))
| TMap (collection : Expression) (alias : string) (condition : option Condition)
    (value : InputTemplate).

(** Induction with the hypothesis for every item and every field. *)
Lemma InputTemplate_ind_nested (P : InputTemplate → Prop) :
  (∀ l, P (TLiteral l)) →
  (∀ e, P (TExpression e)) →
  (∀ parts, P (TText parts)) →
  (∀ items, Forall P items → P (TSequence items)) →
  (∀ items, Forall (λ kv, P kv.2) items → P (TObject items)) →
  (∀ c a cond v, P v → P (TMap c a cond v)) →
  ∀ t, P t.
Proof.
  intros Hl He Ht Hs Ho Hm. fix IH 1. intros [l|e|parts|items|items|c a cond v].
  - apply Hl.
  - apply He.
  - apply Ht.
  - apply Hs. induction items; constructor; [apply IH|assumption].
  - apply Ho. induction items; constructor; [apply IH|assumption].
  - apply Hm, IH.
Qed.

(** The expression of a condition, if it is one. *)
Definition condition_expressions (c : option Condition) : list Expression :=
  match c with Some (CondExpression e) => [e] | _ => [] end.

Definition part_expressions (p : TemplatePart) : list Expression :=
  match p with PartExpression e => [e] | PartLiteral _ => [] end.

(** [InputTemplate::visit_expressions]: what the visitor is called with, in
    order. *)
Fixpoint visit_expressions (t : InputTemplate) : list Expression :=
  match t with
  | TLiteral _ => []
  | TExpression e => [e]
  | TText parts => mjoin (part_expressions <$> parts)
  | TSequence items => mjoin (visit_expressions <$> items)
  | TObject items => mjoin ((λ kv, visit_expressions kv.2) <$> items)
  | TMap collection _ condition value =>
      (collection :: condition_expressions condition ++ visit_expressions value)%list
  end.
End template.
