(* ===== verification/Decision.v ===== *)
(** * Decision declarations (crates/antiburn-checks/src/decision.rs)

    Questions, decision blocks, the requirements a provider must meet, and the
    identity of one attempt.  The checks are proved to decide their declarative
    meaning, and the identity to determine the attempt. *)

From stdpp Require Export gmap.
From S2P Require Import Prelude RustString Json Expression Template Fit.

Definition MAX_QUESTIONS_PER_DECISION : N := 8.

(** ** Data *)

Inductive QuestionKind := KChoice | KScore | KNoul.

#[export] Instance QuestionKind_eq_dec : EqDecision QuestionKind.
Proof. solve_decision. Defined.

Inductive Question :=
| Choice (question : string) (criteria : list (string * string))
| Score (question : string) (criteria : list string)
| Noul (question : string).

#[export] Instance Question_eq_dec : EqDecision Question.
Proof. solve_decision. Defined.

Record NamedQuestion := { q_name : string; q_question : Question }.

Record DecisionBlock `{SerdeNumber} := {
  d_name : string;
  d_input : InputTemplate;
  d_fit : list FitRule;
  d_outputs : list NamedQuestion
}.

Record QuestionRequirements := {
  r_decision : string;
  r_question : string;
  r_kind : QuestionKind;
  r_criteria_count : N;
  r_probabilities : bool;
  r_confidence : bool
}.

Record DecisionContractError := { contract_message : string }.

Definition contract_error {A} (message : string) : result A DecisionContractError :=
  Err {| contract_message := message |}.

(** ** Text *)

Definition is_identifier_byte (a : ascii) : bool :=
  is_ascii_lowercase a || is_ascii_digit a || Ascii.eqb a "_".

Definition is_identifier (value : string) : bool :=
  match value with
  | String a rest => is_ascii_lowercase a && str_all is_identifier_byte rest
  | EmptyString => false
  end.

(** [!value.trim().is_empty() && !value.contains("${{")] *)
Definition is_fixed_text (value : string) : bool :=
  negb (is_blank value) && negb (str_contains value "${{").

(** ** Questions *)

Definition kind (q : Question) : QuestionKind :=
  match q with Choice _ _ => KChoice | Score _ _ => KScore | Noul _ => KNoul end.

Definition criteria_count (q : Question) : N :=
  match q with
  | Choice _ criteria => N.of_nat (length criteria)
  | Score _ criteria => N.of_nat (length criteria)
  | Noul _ => 0
  end.

(** The loop of [any] over the choice criteria, with the set of labels seen. *)
Fixpoint bad_choice (labels : gset string) (criteria : list (string * string)) : bool :=
  match criteria with
  | [] => false
  | (label, description) :: criteria =>
      negb (is_identifier label) || negb (is_fixed_text description) ||
      bool_decide (label ∈ labels) || bad_choice ({[ label ]} ∪ labels) criteria
  end.

Definition question_validate (q : Question) : result unit DecisionContractError :=
  let? text :=
    match q with
    | Choice question criteria =>
        if (N.of_nat (length criteria) <? 2) || bad_choice ∅ criteria then
          contract_error "Choice requires at least two unique labels with fixed descriptions."
        else Ok question
    | Score question criteria =>
        if (N.of_nat (length criteria) <? 2) || existsb (λ text, negb (is_fixed_text text)) criteria
        then contract_error "Score requires at least two fixed criterion descriptions."
        else Ok question
    | Noul question => Ok question
    end in
  if negb (is_fixed_text text) then contract_error "Question text must be nonblank and fixed."
  else Ok tt.

(** The loop over the questions of a block, with the names seen. *)
Fixpoint outputs_validate (names : gset string) (outputs : list NamedQuestion) :
    result unit DecisionContractError :=
  match outputs with
  | [] => Ok tt
  | output :: outputs =>
      if negb (is_identifier (q_name output)) || bool_decide (q_name output ∈ names) then
        contract_error "Question names must be valid and unique."
      else
        let? _ := question_validate (q_question output) in
        outputs_validate ({[ q_name output ]} ∪ names) outputs
  end.

Section blocks.
Context `{SerdeNumber}.

Definition block_validate (d : DecisionBlock) : result unit DecisionContractError :=
  if negb (is_identifier (d_name d)) then
    contract_error "Decision name must be a valid identifier."
  else if (match d_outputs d with [] => true | _ => false end) ||
          (MAX_QUESTIONS_PER_DECISION <? N.of_nat (length (d_outputs d))) then
    contract_error "Each decision requires one to eight questions."
  else outputs_validate ∅ (d_outputs d).

Fixpoint declarations_validate (names : gset string) (declarations : list DecisionBlock) :
    result unit DecisionContractError :=
  match declarations with
  | [] => Ok tt
  | d :: declarations =>
      let? _ := block_validate d in
      if bool_decide (d_name d ∈ names) then contract_error "Decision names must be unique."
      else declarations_validate ({[ d_name d ]} ∪ names) declarations
  end.

Definition validate_declarations (declarations : list DecisionBlock) :
    result unit DecisionContractError :=
  declarations_validate ∅ declarations.

(** ** Requirements *)

Definition validate_for_question (r : QuestionRequirements) (decision : string)
    (question : NamedQuestion) : result unit DecisionContractError :=
  let? _ := question_validate (q_question question) in
  if negb (is_identifier decision) || negb (is_identifier (q_name question)) ||
     negb (String.eqb (r_decision r) decision) ||
     negb (String.eqb (r_question r) (q_name question)) ||
     negb (bool_decide (r_kind r = kind (q_question question))) ||
     negb (r_criteria_count r =? criteria_count (q_question question)) then
    contract_error "Question requirements do not match the declaration."
  else if bool_decide (r_kind r = KNoul) && (r_probabilities r || r_confidence r) then
    contract_error "Noul has no probability distribution or confidence detail."
  else Ok tt.

Definition QuestionRequirements_new (decision : string) (question : NamedQuestion)
    (probabilities confidence : bool) : result QuestionRequirements DecisionContractError :=
  let requirements :=
    {| r_decision := decision; r_question := q_name question;
       r_kind := kind (q_question question);
       r_criteria_count := criteria_count (q_question question);
       r_probabilities := probabilities; r_confidence := confidence |} in
  let? _ := validate_for_question requirements (r_decision requirements) question in
  Ok requirements.

(** The declared questions with their keys, in order. *)
Definition declared (declarations : list DecisionBlock) : list ((string * string) * NamedQuestion) :=
  mjoin ((λ d, (λ q, ((d_name d, q_name q), q)) <$> d_outputs d) <$> declarations).

(** [collect::<BTreeMap<_, _>>()]: a later pair replaces an earlier one. *)
Definition expected_map (l : list ((string * string) * NamedQuestion)) :
    gmap (string * string) NamedQuestion :=
  fold_left (λ m kq, <[kq.1 := kq.2]> m) l ∅.

Definition r_key (r : QuestionRequirements) : string * string := (r_decision r, r_question r).

Fixpoint requirements_validate (expected : gmap (string * string) NamedQuestion)
    (names : gset (string * string)) (requirements : list QuestionRequirements) :
    result unit DecisionContractError :=
  match requirements with
  | [] => Ok tt
  | r :: requirements =>
      if bool_decide (r_key r ∈ names) then
        contract_error "Question requirements must be unique."
      else
        match expected !! r_key r with
        | None => contract_error "Requirements contain an undeclared question."
        | Some question =>
            let? _ := validate_for_question r (r_decision r) question in
            requirements_validate expected ({[ r_key r ]} ∪ names) requirements
        end
  end.

Definition validate_requirements (declarations : list DecisionBlock)
    (requirements : list QuestionRequirements) : result unit DecisionContractError :=
  let? _ := validate_declarations declarations in
  let expected := expected_map (declared declarations) in
  if negb (N.of_nat (size expected) =? N.of_nat (length requirements)) then
    contract_error "Requirements must match the exact declared question set."
  else requirements_validate expected ∅ requirements.
End blocks.

(** ** Attempts *)

Record DecisionAttempt := { da_decision : string; da_number : N }.

#[export] Instance DecisionAttempt_eq_dec : EqDecision DecisionAttempt.
Proof. solve_decision. Defined.

Definition attempt_validate (a : DecisionAttempt) : result unit DecisionContractError :=
  if negb (is_identifier (da_decision a)) || negb ((1 <=? da_number a) && (da_number a <=? 2))
  then contract_error "A decision attempt requires a valid name and number one or two."
  else Ok tt.

Definition DecisionAttempt_new (decision : string) (number : N) :
    result DecisionAttempt DecisionContractError :=
  let attempt := {| da_decision := decision; da_number := number |} in
  let? _ := attempt_validate attempt in Ok attempt.

(** [{byte:02x}] *)
Definition hex_digit (n : N) : ascii :=
  ascii_of_N (if n <? 10 then 48 + n else 87 + n).
Definition hex_byte (b : N) : string :=
  String (hex_digit (b / 16)) (String (hex_digit (b mod 16)) "").

Definition attempt_id (candidate : list N) (attempt : DecisionAttempt) : string :=
  "burn-check-decision-v1:32:" +:+
  (foldr (λ b s, hex_byte b +:+ s) "" candidate +:+
   (":" +:+ (pretty (str_len (da_decision attempt)) +:+
    (":" +:+ (da_decision attempt +:+ (":1:" +:+ pretty (da_number attempt))))))).

(** ** What the checks decide *)

Definition valid_question (q : Question) : Prop :=
  match q with
  | Choice text criteria =>
      (2 ≤ length criteria)%nat ∧ NoDup criteria.*1 ∧
      Forall (λ c, is_identifier c.1 = true ∧ is_fixed_text c.2 = true) criteria ∧
      is_fixed_text text = true
  | Score text criteria =>
      (2 ≤ length criteria)%nat ∧ Forall (λ c, is_fixed_text c = true) criteria ∧
      is_fixed_text text = true
  | Noul text => is_fixed_text text = true
  end.

Definition valid_output (o : NamedQuestion) : Prop :=
  is_identifier (q_name o) = true ∧ valid_question (q_question o).

Lemma bad_choice_false labels criteria :
  bad_choice labels criteria = false ↔
  NoDup criteria.*1 ∧ (∀ l, l ∈ criteria.*1 → l ∉ labels) ∧
  Forall (λ c, is_identifier c.1 = true ∧ is_fixed_text c.2 = true) criteria.
Proof.
  revert labels. induction criteria as [|[l d] cs IH]; intros labels; simpl.
  { split; [|done]. intros _. split_and!; [constructor| |constructor]. by intros l ?%elem_of_nil. }
  rewrite !orb_false_iff, !negb_false_iff, bool_decide_eq_false, IH, NoDup_cons, Forall_cons.
  setoid_rewrite elem_of_cons. simpl. split.
  - intros ([[??]?] & ? & Hd & ?). split_and!; try done.
    + intros Hin. apply (Hd l Hin). set_solver.
    + intros x [->|Hx]; [done|]. specialize (Hd x Hx). set_solver.
  - intros ([Hn ?] & Hd & [??] & ?). split_and!; try done; [by apply Hd; left|].
    intros x Hx [->%elem_of_singleton|Hin]%elem_of_union; [done|]. by apply (Hd x); [right|].
Qed.

Lemma existsb_not_forall {A} (f : A → bool) (l : list A) :
  existsb (λ x, negb (f x)) l = false ↔ Forall (λ x, f x = true) l.
Proof.
  induction l as [|x l IH]; simpl; [by split|].
  rewrite orb_false_iff, negb_false_iff, IH, Forall_cons. done.
Qed.

(** A guarded check succeeds exactly when its guards do. *)
Lemma guard_ok {E} (b : bool) (e : E) (r : result unit E) :
  (if b then Err e else r) = Ok tt ↔ b = false ∧ r = Ok tt.
Proof. destruct b; split; [done|by intros []|done|by intros [_ ?]]. Qed.

Lemma two_items {A} (l : list A) : (N.of_nat (length l) <? 2) = false ↔ (2 ≤ length l)%nat.
Proof. rewrite N.ltb_ge. lia. Qed.

Lemma question_validate_correct q : question_validate q = Ok tt ↔ valid_question q.
Proof.
  assert (∀ text, (if negb (is_fixed_text text)
    then contract_error "Question text must be nonblank and fixed." else Ok tt) = Ok tt ↔
    is_fixed_text text = true) as Ht.
  { intros text. unfold contract_error. rewrite guard_ok, negb_false_iff. tauto. }
  unfold question_validate. destruct q as [text cs|text cs|text]; simpl; [| |apply Ht].
  - destruct (_ || _) eqn:E; simpl; [split; [done|]|rewrite Ht; apply orb_false_iff in E].
    + intros (Hlen & Hnd & Hall & _). apply not_false_iff_true in E. destruct E.
      rewrite orb_false_iff, two_items, bad_choice_false. split_and!; [done|done|set_solver|done].
    + rewrite two_items, bad_choice_false in E. destruct E as (? & ? & _ & ?). tauto.
  - destruct (_ || _) eqn:E; simpl; [split; [done|]|rewrite Ht; apply orb_false_iff in E].
    + intros (Hlen & Hall & _). apply not_false_iff_true in E. destruct E.
      rewrite orb_false_iff, two_items, existsb_not_forall. done.
    + rewrite two_items, existsb_not_forall in E. destruct E. tauto.
Qed.

Lemma outputs_validate_correct names outputs :
  outputs_validate names outputs = Ok tt ↔
  NoDup (q_name <$> outputs) ∧ (∀ x, x ∈ q_name <$> outputs → x ∉ names) ∧
  Forall valid_output outputs.
Proof.
  revert names. induction outputs as [|o os IH]; intros names; simpl.
  { split; [|done]. intros _. split_and!; [constructor| |constructor]. by intros x ?%elem_of_nil. }
  rewrite NoDup_cons, Forall_cons. setoid_rewrite elem_of_cons. unfold valid_output at 1.
  destruct (is_identifier (q_name o)); simpl; [|split; [done|intros (_ & _ & [[=] _] & _)]].
  case_bool_decide as Hin.
  { split; [done|]. intros (_ & Hd & _). destruct (Hd (q_name o)); auto. }
  destruct (question_validate (q_question o)) as [[]|e] eqn:Eq; simpl.
  - apply question_validate_correct in Eq. rewrite IH. split.
    + intros (? & Hd & ?). split_and!; try done.
      * intros Hx. apply (Hd _ Hx). set_solver.
      * intros x [->|Hx]; [done|]. specialize (Hd x Hx). set_solver.
    + intros ([Hn ?] & Hd & _ & ?). split_and!; try done.
      intros x Hx [->%elem_of_singleton|?]%elem_of_union; [done|]. by apply (Hd x); [right|].
  - split; [done|]. intros (_ & _ & [_ Hq] & _). apply question_validate_correct in Hq. congruence.
Qed.

Section valid_declarations.
Context `{SerdeNumber}.

Definition valid_block (d : DecisionBlock) : Prop :=
  is_identifier (d_name d) = true ∧
  (1 ≤ length (d_outputs d) ≤ N.to_nat MAX_QUESTIONS_PER_DECISION)%nat ∧
  NoDup (q_name <$> d_outputs d) ∧ Forall valid_output (d_outputs d).

Definition valid_declarations (ds : list DecisionBlock) : Prop :=
  NoDup (d_name <$> ds) ∧ Forall valid_block ds.

Lemma block_validate_correct d : block_validate d = Ok tt ↔ valid_block d.
Proof.
  unfold block_validate, valid_block.
  destruct (is_identifier (d_name d)); simpl; [|split; [done|by intros [[=] _]]].
  destruct (MAX_QUESTIONS_PER_DECISION <? _) eqn:El.
  - rewrite orb_true_r. apply N.ltb_lt in El. split; [done|]. lia.
  - rewrite orb_false_r. apply N.ltb_ge in El. destruct (d_outputs d) as [|o os] eqn:Eo.
    { simpl. split; [done|]. lia. }
    rewrite outputs_validate_correct. simpl in *. split.
    + intros (? & _ & ?). split_and!; try done; lia.
    + intros (_ & _ & ? & ?). by split_and!.
Qed.

Lemma declarations_validate_correct names ds :
  declarations_validate names ds = Ok tt ↔
  NoDup (d_name <$> ds) ∧ (∀ x, x ∈ d_name <$> ds → x ∉ names) ∧ Forall valid_block ds.
Proof.
  revert names. induction ds as [|d ds IH]; intros names; simpl.
  { split; [|done]. intros _. split_and!; [constructor| |constructor]. by intros x ?%elem_of_nil. }
  rewrite NoDup_cons, Forall_cons. setoid_rewrite elem_of_cons.
  destruct (block_validate d) as [[]|e] eqn:Eb; simpl.
  - apply block_validate_correct in Eb. case_bool_decide as Hin.
    { split; [done|]. intros (_ & Hd & _). destruct (Hd (d_name d)); auto. }
    rewrite IH. split.
    + intros (? & Hd & ?). split_and!; try done.
      * intros Hx. apply (Hd _ Hx). set_solver.
      * intros x [->|Hx]; [done|]. specialize (Hd x Hx). set_solver.
    + intros ([Hn ?] & Hd & _ & ?). split_and!; try done.
      intros x Hx [->%elem_of_singleton|?]%elem_of_union; [done|]. by apply (Hd x); [right|].
  - split; [done|]. intros (_ & _ & Hb & _). apply block_validate_correct in Hb. congruence.
Qed.

Lemma validate_declarations_correct ds : validate_declarations ds = Ok tt ↔ valid_declarations ds.
Proof.
  unfold validate_declarations, valid_declarations. rewrite declarations_validate_correct.
  set_solver.
Qed.
End valid_declarations.

(** ** Requirements against declarations *)

Section requirements_correct.
Context `{SerdeNumber}.

Definition keys (ds : list DecisionBlock) : list (string * string) := (declared ds).*1.

(** The facts of one record that the declaration fixes. *)
Definition meets (r : QuestionRequirements) (q : NamedQuestion) : Prop :=
  r_kind r = kind (q_question q) ∧ r_criteria_count r = criteria_count (q_question q) ∧
  (kind (q_question q) = KNoul → r_probabilities r = false ∧ r_confidence r = false).

Lemma elem_of_declared k q ds :
  (k, q) ∈ declared ds ↔ ∃ d, d ∈ ds ∧ q ∈ d_outputs d ∧ k = (d_name d, q_name q).
Proof.
  unfold declared. rewrite list_elem_of_join. setoid_rewrite list_elem_of_fmap. split.
  - intros (l & Hin & d & -> & Hd). apply list_elem_of_fmap in Hin as (q' & [= -> ->] & Hq). eauto.
  - intros (d & Hd & Hq & ->). eexists. split; [|by exists d].
    apply list_elem_of_fmap. eauto.
Qed.

Lemma keys_nodup ds : valid_declarations ds → NoDup (keys ds).
Proof.
  unfold valid_declarations, keys. intros [Hn Hb].
  induction ds as [|d ds IH]; [constructor|].
  unfold declared in *. simpl in *. rewrite fmap_app.
  apply NoDup_cons in Hn as [Hd Hn]. apply Forall_cons in Hb as [(_ & _ & Hq & _) Hb].
  apply NoDup_app. split_and!; [| |by apply IH].
  - rewrite <- list_fmap_compose.
    apply (NoDup_fmap_1 snd). by rewrite <- list_fmap_compose.
  - intros k Hk Hk2. apply list_elem_of_fmap in Hk as ([k1 q1] & -> & Hk).
    apply list_elem_of_fmap in Hk as (q & Hkq & _).
    apply list_elem_of_fmap in Hk2 as ([k2 q2] & He & Hk2).
    apply elem_of_declared in Hk2 as (d2 & Hd2 & _ & ->). simplify_eq/=.
    apply Hd, list_elem_of_fmap. eauto.
Qed.

Lemma expected_map_reverse l : expected_map l = list_to_map (reverse l).
Proof.
  unfold expected_map, reverse. rewrite <- rev_alt, <- fold_left_rev_right.
  induction (rev l) as [|[k q] l' IH]; [done|]. simpl. by rewrite IH.
Qed.

Lemma expected_map_lookup l k q :
  NoDup l.*1 → expected_map l !! k = Some q ↔ (k, q) ∈ l.
Proof.
  intros Hn. rewrite expected_map_reverse, <- elem_of_list_to_map; [by rewrite elem_of_reverse|].
  by rewrite fmap_reverse, reverse_Permutation.
Qed.

Lemma expected_map_size l : NoDup l.*1 → size (expected_map l) = length l.
Proof.
  intros Hn. rewrite expected_map_reverse, map_size_list_to_map, length_reverse; [done|].
  by rewrite fmap_reverse, reverse_Permutation.
Qed.

Lemma validate_for_question_correct r ds q :
  valid_declarations ds → (r_key r, q) ∈ declared ds →
  validate_for_question r (r_decision r) q = Ok tt ↔ meets r q.
Proof.
  intros [_ Hb] (d & Hd & Hq & [= Hk1 Hk2])%elem_of_declared.
  rewrite Forall_forall in Hb. destruct (Hb d Hd) as (Hid & _ & _ & Ho).
  rewrite Forall_forall in Ho. destruct (Ho q Hq) as [Hiq Hvq].
  unfold validate_for_question, meets. rewrite (proj2 (question_validate_correct _) Hvq). simpl.
  rewrite Hk1, Hk2, Hid, Hiq, !String.eqb_refl. unfold contract_error. simpl.
  rewrite !guard_ok, orb_false_iff, !negb_false_iff, N.eqb_eq, bool_decide_eq_true,
    andb_false_iff, bool_decide_eq_false, orb_false_iff.
  split.
  - intros ([Hk Hc] & Hno & _). split_and!; [done|done|]. intros Hn.
    destruct Hno; [congruence|done].
  - intros (Hk & Hc & Hno). split_and!; [done..| |done].
    destruct (decide (r_kind r = KNoul)) as [Hn|Hn]; [right; apply Hno; congruence|by left].
Qed.

Lemma requirements_validate_correct expected names rs :
  requirements_validate expected names rs = Ok tt ↔
  NoDup (r_key <$> rs) ∧ (∀ k, k ∈ r_key <$> rs → k ∉ names) ∧
  Forall (λ r, ∃ q, expected !! r_key r = Some q ∧
                    validate_for_question r (r_decision r) q = Ok tt) rs.
Proof.
  revert names. induction rs as [|r rs IH]; intros names; simpl.
  { split; [|done]. intros _. split_and!; [constructor| |constructor]. by intros x ?%elem_of_nil. }
  rewrite NoDup_cons, Forall_cons. setoid_rewrite elem_of_cons.
  case_bool_decide as Hin.
  { split; [done|]. intros (_ & Hd & _). destruct (Hd (r_key r)); auto. }
  destruct (expected !! r_key r) as [q|] eqn:Eq;
    [|split; [done|intros (_ & _ & (? & [=] & _) & _)]].
  destruct (validate_for_question r (r_decision r) q) as [[]|e] eqn:Ev; simpl.
  - rewrite IH. split.
    + intros (? & Hd & ?). split_and!; eauto.
      * intros Hx. apply (Hd _ Hx). set_solver.
      * intros x [->|Hx]; [done|]. specialize (Hd x Hx). set_solver.
    + intros ([Hn ?] & Hd & _ & ?). split_and!; try done.
      intros x Hx [->%elem_of_singleton|?]%elem_of_union; [done|]. by apply (Hd x); [right|].
  - split; [done|]. intros (_ & _ & (q' & [= <-] & Hq) & _). congruence.
Qed.

Lemma requirements_decided ds rs :
  validate_requirements ds rs = Ok tt ↔
  valid_declarations ds ∧ (r_key <$> rs) ≡ₚ keys ds ∧
  ∀ r q, r ∈ rs → (r_key r, q) ∈ declared ds → meets r q.
Proof.
  unfold validate_requirements. destruct (validate_declarations ds) as [[]|e] eqn:Ed; simpl.
  2: { split; [done|]. intros [Hv _]. apply validate_declarations_correct in Hv. congruence. }
  apply validate_declarations_correct in Ed. pose proof (keys_nodup ds Ed) as Hk.
  unfold contract_error. rewrite guard_ok, negb_false_iff, N.eqb_eq, Nat2N.inj_iff.
  rewrite expected_map_size by done. rewrite requirements_validate_correct, Forall_forall.
  assert (length (keys ds) = length (declared ds)) as Hlen by apply length_fmap.
  split.
  - intros (Hl & Hn & _ & Hall). split; [done|].
    assert (∀ r, r ∈ rs → ∃ q, (r_key r, q) ∈ declared ds ∧ meets r q) as Hmeet.
    { intros r Hr. destruct (Hall r Hr) as (q & Hq%expected_map_lookup & Hv); [|done].
      exists q. split; [done|]. by apply (validate_for_question_correct r ds q). }
    split.
    + apply submseteq_length_Permutation; [|rewrite length_fmap; lia].
      apply NoDup_submseteq; [done|]. intros k (r & -> & Hr)%list_elem_of_fmap.
      destruct (Hmeet r Hr) as (q & Hq & _). apply list_elem_of_fmap. by exists (r_key r, q).
    + intros r q Hr Hq. destruct (Hmeet r Hr) as (q' & Hq' & Hm).
      assert (Some q = Some q') as [= ->]; [|done].
      by rewrite <- (proj2 (expected_map_lookup _ _ q Hk) Hq), (proj2 (expected_map_lookup _ _ q' Hk) Hq').
  - intros (_ & Hp & Hall). pose proof (Permutation_length Hp) as Hl.
    rewrite length_fmap, Hlen in Hl. split_and!; [done|by rewrite Hp|set_solver|].
    intros r Hr. assert (r_key r ∈ keys ds) as (kq & He & Hq)%list_elem_of_fmap.
    { rewrite <- Hp. apply list_elem_of_fmap. eauto. }
    destruct kq as [k q]. simpl in He. subst k. exists q. split; [by apply expected_map_lookup|].
    apply (validate_for_question_correct r ds q); auto.
Qed.
End requirements_correct.

(** ** The identity of an attempt *)

Lemma hex_digit_inj x y : x < 16 → y < 16 → hex_digit x = hex_digit y → x = y.
Proof.
  intros Hx Hy He. apply (f_equal N_of_ascii) in He. unfold hex_digit in He.
  destruct (N.ltb_spec x 10), (N.ltb_spec y 10); rewrite !N_ascii_embedding in He; lia.
Qed.

Lemma hex_byte_inj b b' : b < 256 → b' < 256 → hex_byte b = hex_byte b' → b = b'.
Proof.
  intros Hb Hb' [= H1 H2].
  apply hex_digit_inj in H1; [|apply N.Div0.div_lt_upper_bound; lia..].
  apply hex_digit_inj in H2; [|apply N.mod_lt; lia..].
  rewrite (N.div_mod b 16), (N.div_mod b' 16) by lia. congruence.
Qed.

Lemma hex_bytes_inj c c' s s' :
  length c = length c' → Forall (λ b, b < 256) c → Forall (λ b, b < 256) c' →
  foldr (λ b s, hex_byte b +:+ s) "" c +:+ s = foldr (λ b s, hex_byte b +:+ s) "" c' +:+ s' →
  c = c' ∧ s = s'.
Proof.
  revert c'. induction c as [|b c IH]; intros [|b' c'] Hl Hc Hc' He; try done.
  apply Forall_cons in Hc as [Hb Hc]. apply Forall_cons in Hc' as [Hb' Hc'].
  cbn [foldr] in He. rewrite !str_app_assoc in He. apply str_app_inj in He as [Hh He]; [|done].
  apply hex_byte_inj in Hh as ->; [|done..]. injection Hl as Hl.
  by destruct (IH c' Hl Hc Hc' He) as [-> ->].
Qed.

Lemma attempt_id_parts c c' a a' :
  length c = length c' → Forall (λ b, b < 256) c → Forall (λ b, b < 256) c' →
  attempt_id c a = attempt_id c' a' → c = c' ∧ a = a'.
Proof.
  intros Hl Hc Hc' He. unfold attempt_id in He. apply str_app_inj_l in He.
  apply hex_bytes_inj in He as [-> He]; [|done..]. split; [done|].
  apply str_app_inj_l in He. rewrite !(str_app_cons ":" "") in He.
  apply pretty_app_inj in He as [Hlen He]; [|done]. rewrite !str_app_nil in He.
  apply str_app_inj in He as [Hd He]; [|unfold str_len in Hlen; lia].
  apply str_app_inj_l in He. apply (inj pretty) in He.
  destruct a, a'. simpl in *. congruence.
Qed.

(** ** Properties *)

(** A saved set of question requirements is accepted exactly when the
    declarations are valid, the records name the declared questions once each,
    and every record has its question's kind and criteria count and asks for no
    optional detail of a noul question. *)
Theorem validate_requirements_correct `{SerdeNumber} ds rs :
  validate_requirements ds rs = Ok tt ↔
  valid_declarations ds ∧ (r_key <$> rs) ≡ₚ keys ds ∧
  ∀ r q, r ∈ rs → (r_key r, q) ∈ declared ds → meets r q.
Proof. apply requirements_decided. Qed.

(** The text that identifies an attempt determines the candidate
    fingerprint, the decision and the attempt number: the name is length
    prefixed, so no name can imitate the fields after it. *)
Theorem attempt_id_injective c c' a a' :
  length c = 32%nat → length c' = 32%nat →
  Forall (λ b, b < 256) c → Forall (λ b, b < 256) c' →
  attempt_id c a = attempt_id c' a' → c = c' ∧ a = a'.
Proof. intros Hc Hc'. apply attempt_id_parts. congruence. Qed.

Lemma attempt_id_injective_witness :
  attempt_id (repeat 7 32) {| da_decision := "a:1:1"; da_number := 1 |} ≠
  attempt_id (repeat 7 32) {| da_decision := "a"; da_number := 1 |} ∧
  repeat 7 32 = repeat 7 32.
Proof.
  split; [intros [=]|].
  assert (Forall (λ b, b < 256) (repeat 7 32)) as Hb by (repeat constructor).
  apply (attempt_id_injective (repeat 7 32) (repeat 7 32)
    {| da_decision := "a"; da_number := 1 |} {| da_decision := "a"; da_number := 1 |});
    first [exact Hb|reflexivity].
Defined.
