(* ===== verification/Check.v ===== *)
(** * Compiled checks (crates/antiburn-checks/src/compiler.rs, compiler/requirements.rs)

    The data of a compiled check, and the analysis that finds which optional
    details of a question its actions read. *)

From S2P Require Import Prelude RustString Json Expression Filters Fit Domain Template Decision.

(** ** Triggers *)

Inductive ToolCategory :=
| CatShell | CatRead | CatSearch | CatEdit | CatWrite | CatDelegate | CatSkill | CatMcp | CatOther.

Definition ToolCategory_as_str (c : ToolCategory) : string :=
  match c with
  | CatShell => "shell" | CatRead => "read" | CatSearch => "search" | CatEdit => "edit"
  | CatWrite => "write" | CatDelegate => "delegate" | CatSkill => "skill" | CatMcp => "mcp"
  | CatOther => "other"
  end.

Inductive ToolResultStatus := StatusCompleted | StatusError | StatusCancelled | StatusUnknown.

Record RollingWindow := { w_size : N; w_minimum : N }.

Record EventFilters := {
  ef_tools : option (list ToolCategory);
  ef_statuses : option (list ToolResultStatus);
  ef_models : option (list string);
  ef_fast_mode : option bool;
  ef_paths : option (list RepositoryGlob);
  ef_paths_ignore : option (list RepositoryGlob);
  ef_reasons : option (list SessionStartReason)
}.

Inductive TriggerFamily :=
| Messages (tool_result : bool) (user_message assistant_message tool_call : option EventFilters)
| ResponseCycle (filters : EventFilters)
| Session (session_start session_idle : option EventFilters).

(** The cooldown is in milliseconds. *)
Record ToolResultTrigger := {
  tr_family : TriggerFamily;
  tr_tools : option (list ToolCategory);
  tr_statuses : option (list ToolResultStatus);
  tr_models : option (list string);
  tr_fast_mode : option bool;
  tr_paths : option (list RepositoryGlob);
  tr_paths_ignore : option (list RepositoryGlob);
  tr_window : option RollingWindow;
  tr_cooldown : N
}.

Inductive StatusResult := Failure | Success.

#[export] Instance ToolCategory_eq_dec : EqDecision ToolCategory.
Proof. solve_decision. Defined.
#[export] Instance ToolResultStatus_eq_dec : EqDecision ToolResultStatus.
Proof. solve_decision. Defined.
#[export] Instance RollingWindow_eq_dec : EqDecision RollingWindow.
Proof. solve_decision. Defined.
#[export] Instance StatusResult_eq_dec : EqDecision StatusResult.
Proof. solve_decision. Defined.

(** ** Details read (compiler/requirements.rs) *)

Record DetailsRead := { read_probabilities : bool; read_confidence : bool }.

Definition no_details : DetailsRead := {| read_probabilities := false; read_confidence := false |}.

(** [DetailsRead::merge] *)
Definition merge_reads (a b : DetailsRead) : DetailsRead :=
  {| read_probabilities := read_probabilities a || read_probabilities b;
     read_confidence := read_confidence a || read_confidence b |}.

Inductive DecisionRecord :=
| RDecisions | RDecision | ROutputs | RDetails | RQuestionDetails | RProbabilities.

Inductive SelectedValue :=
| SOther
| SScalar (reads : DetailsRead)
| SRecord (record : DecisionRecord)
| SArray (item : SelectedValue)
| SAlternatives (items : list SelectedValue).

Record Analysis := { an_value : SelectedValue; an_reads : DetailsRead }.

Definition only_probabilities : DetailsRead :=
  {| read_probabilities := true; read_confidence := false |}.
Definition only_confidence : DetailsRead :=
  {| read_probabilities := false; read_confidence := true |}.

Section requirements.
Context `{SerdeNumber}.

(** The declared decision and question that the analysis looks for. *)
Record Target := { t_decision : DecisionBlock; t_question : NamedQuestion }.

Section target.
Variable target : Target.

Definition categorical : bool :=
  negb (bool_decide (kind (q_question (t_question target)) = KNoul)).

Definition target_details : DetailsRead :=
  {| read_probabilities := categorical; read_confidence := categorical |}.

Fixpoint details_read (v : SelectedValue) : DetailsRead :=
  match v with
  | SOther | SRecord ROutputs => no_details
  | SScalar reads => reads
  | SRecord RProbabilities => only_probabilities
  | SRecord _ => target_details
  | SArray item => details_read item
  | SAlternatives items => fold_left (λ reads item, merge_reads reads (details_read item)) items no_details
  end.

(** The keys of the probability record that are numbers. *)
Definition probability_key (label : string) : bool :=
  match q_question (t_question target) with
  | Choice _ criteria => existsb (λ c, String.eqb c.1 label) criteria
  | Score _ _ => String.eqb label "length"
  | Noul _ => false
  end.

Definition record_property (record : DecisionRecord) (key : string) : SelectedValue :=
  match record with
  | RDecisions => if String.eqb key (d_name (t_decision target)) then SRecord RDecision else SOther
  | RDecision =>
      if String.eqb key "outputs" then SRecord ROutputs
      else if String.eqb key "details" then SRecord RDetails
      else SOther
  | ROutputs => SOther
  | RDetails =>
      if String.eqb key (q_name (t_question target)) then SRecord RQuestionDetails else SOther
  | RQuestionDetails =>
      if String.eqb key "probabilities" && categorical then SRecord RProbabilities
      else if String.eqb key "confidence" && categorical then SScalar only_confidence
      else SOther
  | RProbabilities => if probability_key key then SScalar only_probabilities else SOther
  end.

Fixpoint property (key : string) (v : SelectedValue) : SelectedValue :=
  match v with
  | SRecord record => record_property record key
  | SAlternatives items => SAlternatives (property key <$> items)
  | SArray item => if String.eqb key "length" then SScalar (details_read item) else SOther
  | _ => SOther
  end.

Fixpoint index (v : SelectedValue) : SelectedValue :=
  match v with
  | SArray item => item
  | SAlternatives items => SAlternatives (index <$> items)
  | SRecord RProbabilities =>
      if bool_decide (kind (q_question (t_question target)) = KScore)
      then SScalar (details_read v) else SOther
  | _ => SOther
  end.

Fixpoint dynamic (v : SelectedValue) : SelectedValue :=
  match v with
  | SRecord RProbabilities => SScalar (details_read v)
  | SAlternatives items => SAlternatives (dynamic <$> items)
  | _ => index v
  end.

Fixpoint projection (v : SelectedValue) : SelectedValue :=
  match v with
  | SArray item => item
  | SRecord RDecisions => SRecord RDecision
  | SRecord RDecision => SAlternatives [SRecord ROutputs; SRecord RDetails]
  | SRecord ROutputs => SOther
  | SRecord RDetails => SRecord RQuestionDetails
  | SRecord RQuestionDetails =>
      if categorical then SAlternatives [SRecord RProbabilities; SScalar only_confidence]
      else SOther
  | SRecord RProbabilities => SScalar (details_read v)
  | SAlternatives items => SAlternatives (projection <$> items)
  | _ => SOther
  end.

(** The value of a path: its root decides where it starts. *)
Definition analyze_path (path : list PathSegment) : SelectedValue :=
  let start :=
    match path with
    | PProperty root :: _ => if String.eqb root "decisions" then SRecord RDecisions else SOther
    | _ => SOther
    end in
  fold_left (λ v segment,
    match segment with PProperty key => property key v | PIndex _ => index v end)
    (List.tl path) start.

(** The loop of [select], given the analysis of dynamic selectors. *)
Definition select_with (analyze : Expression → Analysis) :
    list AccessSegment → SelectedValue → DetailsRead → SelectedValue * DetailsRead :=
  fix go segments v reads :=
    match segments with
    | [] => (v, reads)
    | AProperty key :: segments => go segments (property key v) reads
    | AIndex _ :: segments => go segments (index v) reads
    | ADynamic selector :: segments =>
        let analyzed := analyze selector in
        let reads := merge_reads reads (an_reads analyzed) in
        let reads := merge_reads reads (details_read (an_value analyzed)) in
        go segments
          (match selector with
           | ELiteral (LString key) => property key v
           | _ => dynamic v
           end) reads
    | AProjection :: segments =>
        let '(selected, reads) := go segments (projection v) reads in
        (SArray selected, reads)
    end.

Fixpoint analyze (e : Expression) : Analysis :=
  match e with
  | ELiteral _ => {| an_value := SOther; an_reads := no_details |}
  | EPath path => {| an_value := analyze_path path; an_reads := no_details |}
  | EAccess base segments =>
      let base := analyze base in
      let '(v, reads) := select_with analyze segments (an_value base)
                           (merge_reads no_details (an_reads base)) in
      {| an_value := v; an_reads := reads |}
  | ECall _ arguments =>
      {| an_value := SOther;
         an_reads :=
           fold_left (λ reads argument,
             let argument := analyze argument in
             merge_reads (merge_reads reads (an_reads argument))
               (details_read (an_value argument)))
             arguments no_details |}
  | ENot value =>
      let value := analyze value in
      {| an_value := SOther;
         an_reads := merge_reads (merge_reads no_details (an_reads value))
                       (details_read (an_value value)) |}
  | EBinary operator l r =>
      let l := analyze l in
      let r := analyze r in
      let reads := merge_reads (merge_reads no_details (an_reads l)) (an_reads r) in
      let reads := merge_reads reads (details_read (an_value l)) in
      match operator with
      | And | Or => {| an_value := SAlternatives [an_value l; an_value r]; an_reads := reads |}
      | _ => {| an_value := SOther;
                an_reads := merge_reads reads (details_read (an_value r)) |}
      end
  end.

(** [requirements::inspect] *)
Definition inspect_requirements (e : Expression) (r : QuestionRequirements) : QuestionRequirements :=
  let analysis := analyze e in
  let reads := merge_reads (an_reads analysis) (details_read (an_value analysis)) in
  {| r_decision := r_decision r; r_question := r_question r; r_kind := r_kind r;
     r_criteria_count := r_criteria_count r;
     r_probabilities := r_probabilities r || read_probabilities reads;
     r_confidence := r_confidence r || read_confidence reads |}.
End target.

(** ** The check *)

Inductive StatusResultTemplate :=
| ResultLiteral (r : StatusResult)
| ResultExpression (e : Expression).

Record StatusAction := {
  sa_condition : option Condition;
  sa_result : StatusResultTemplate;
  sa_message : option InputTemplate
}.

Record CompiledCheck := {
  cc_name : string;
  cc_description : option string;
  cc_condition : option Condition;
  cc_trigger : ToolResultTrigger;
  cc_decisions : list DecisionBlock;
  cc_actions : list StatusAction
}.

Definition is_local (c : CompiledCheck) : bool :=
  match cc_decisions c with [] => true | _ => false end.

(** The expressions of an action, in the order [question_requirements] visits
    them. *)
Definition action_expressions (a : StatusAction) : list Expression :=
  (condition_expressions (sa_condition a) ++
   match sa_result a with ResultExpression e => [e] | ResultLiteral _ => [] end ++
   match sa_message a with Some t => visit_expressions t | None => [] end)%list.

Definition question_requirement (c : CompiledCheck) (d : DecisionBlock) (q : NamedQuestion) :
    QuestionRequirements :=
  fold_left (λ r a,
    fold_left (λ r e, inspect_requirements {| t_decision := d; t_question := q |} e r)
      (action_expressions a) r)
    (cc_actions c)
    {| r_decision := d_name d; r_question := q_name q; r_kind := kind (q_question q);
       r_criteria_count := criteria_count (q_question q);
       r_probabilities := false; r_confidence := false |}.

Definition question_requirements (c : CompiledCheck) : list QuestionRequirements :=
  mjoin ((λ d, question_requirement c d <$> d_outputs d) <$> cc_decisions c).
End requirements.

(** ** The analysis asks nothing optional of a noul question *)

Lemma SelectedValue_ind_nested (P : SelectedValue → Prop) :
  P SOther → (∀ r, P (SScalar r)) → (∀ r, P (SRecord r)) →
  (∀ v, P v → P (SArray v)) → (∀ l, Forall P l → P (SAlternatives l)) → ∀ v, P v.
Proof.
  intros Ho Hs Hr Ha Hl. fix IH 1. intros [|r|r|v|l].
  - apply Ho.
  - apply Hs.
  - apply Hr.
  - apply Ha, IH.
  - apply Hl. induction l; constructor; [apply IH|assumption].
Qed.

(** A value in which no optional detail is selected. *)
Fixpoint quiet (v : SelectedValue) : Prop :=
  match v with
  | SOther => True
  | SScalar reads => reads = no_details
  | SRecord r => r ≠ RProbabilities
  | SArray v => quiet v
  | SAlternatives l => foldr (λ v p, quiet v ∧ p) True l
  end.

Lemma quiet_alternatives l : quiet (SAlternatives l) ↔ Forall quiet l.
Proof. induction l as [|v l IH]; simpl in *; [by split|]. rewrite Forall_cons. tauto. Qed.

Lemma merge_none : merge_reads no_details no_details = no_details.
Proof. done. Qed.

Section noul.
Context `{SerdeNumber}.
Context (target : Target) (Hnoul : kind (q_question (t_question target)) = KNoul).

Lemma not_categorical : categorical target = false.
Proof. unfold categorical. by rewrite bool_decide_true. Qed.

Lemma quiet_reads v : quiet v → details_read target v = no_details.
Proof.
  induction v as [|r|r|v IH|l IH] using SelectedValue_ind_nested; cbn [details_read]; intros Hq.
  - done.
  - done.
  - unfold target_details. rewrite not_categorical. by destruct r.
  - by apply IH.
  - apply quiet_alternatives in Hq.
    induction IH as [|v l Hv IH IH2]; [done|]. apply Forall_cons in Hq as [Hq Hql].
    cbn [fold_left]. rewrite Hv by done. by apply IH2.
Qed.

(** A step that treats alternatives one by one keeps a value quiet. *)
Lemma quiet_map (f : SelectedValue → SelectedValue) l :
  Forall (λ v, quiet v → quiet (f v)) l → Forall quiet l → quiet (SAlternatives (f <$> l)).
Proof.
  intros Hf Hq. apply quiet_alternatives, Forall_fmap.
  induction Hf; [constructor|]. apply Forall_cons in Hq as [??]. constructor; simpl; auto.
Qed.

Lemma quiet_property key v : quiet v → quiet (property target key v).
Proof.
  induction v as [|r|r|v IH|l IH] using SelectedValue_ind_nested; cbn [property]; intros Hq; try done.
  - destruct r; cbn [record_property]; rewrite ?not_categorical, ?andb_false_r;
      repeat case_match; done.
  - destruct (String.eqb key "length"); [|done]. by apply quiet_reads.
  - apply quiet_map; [done|by apply quiet_alternatives].
Qed.

Lemma quiet_index v : quiet v → quiet (index target v).
Proof.
  induction v as [|r|r|v IH|l IH] using SelectedValue_ind_nested; cbn [index]; intros Hq; try done.
  - by destruct r.
  - apply quiet_map; [done|by apply quiet_alternatives].
Qed.

Lemma quiet_dynamic v : quiet v → quiet (dynamic target v).
Proof.
  induction v as [|r|r|v IH|l IH] using SelectedValue_ind_nested; cbn [dynamic]; intros Hq; try done.
  - by destruct r.
  - apply quiet_map; [done|by apply quiet_alternatives].
Qed.

Lemma quiet_projection v : quiet v → quiet (projection target v).
Proof.
  induction v as [|r|r|v IH|l IH] using SelectedValue_ind_nested; cbn [projection]; intros Hq; try done.
  - destruct r; rewrite ?not_categorical; done.
  - apply quiet_map; [done|by apply quiet_alternatives].
Qed.

Definition quiet_analysis (a : Analysis) : Prop := quiet (an_value a) ∧ an_reads a = no_details.

Lemma quiet_path path : quiet (analyze_path target path).
Proof.
  unfold analyze_path. match goal with |- quiet (fold_left ?f _ ?v) => set (step := f); set (start := v) end.
  assert (quiet start) as Hs by (unfold start; repeat case_match; done).
  revert Hs. generalize start. induction (List.tl path) as [|seg segs IH]; intros v Hv; [done|].
  apply IH. unfold step. destruct seg; [by apply quiet_property|by apply quiet_index].
Qed.

Lemma quiet_select segs v :
  Forall (on_segment (λ e, quiet_analysis (analyze target e))) segs → quiet v →
  quiet (select_with target (analyze target) segs v no_details).1 ∧
  (select_with target (analyze target) segs v no_details).2 = no_details.
Proof.
  intros Hs. revert v. induction Hs as [|seg segs Hseg Hs IH]; intros v Hv; [done|].
  destruct seg as [k|i|e|]; cbn [select_with].
  - apply IH. by apply quiet_property.
  - apply IH. by apply quiet_index.
  - destruct Hseg as [Hq Hr]. rewrite Hr, (quiet_reads _ Hq). apply IH.
    destruct e as [[]| | | | |]; (apply quiet_property || apply quiet_dynamic); done.
  - destruct (select_with _ _ segs _ _) as [w r] eqn:E.
    specialize (IH _ (quiet_projection _ Hv)). by rewrite E in IH.
Qed.

Lemma analyze_quiet e : quiet_analysis (analyze target e).
Proof.
  induction e as [l|path|base segs [IHv IHr] IHs|f args IHa|e [IHv IHr]|op l r [IHlv IHlr] [IHrv IHrr]]
    using Expression_ind_nested; cbn [analyze].
  - done.
  - split; [apply quiet_path|done].
  - rewrite IHr. pose proof (quiet_select segs (an_value (analyze target base)) IHs IHv) as Hq.
    rewrite merge_none. by destruct (select_with _ _ _ _ _).
  - split; [done|]. cbn [an_reads]. induction IHa as [|e args [Hv Hr] IHa IH]; [done|].
    cbn [fold_left]. by rewrite Hr, (quiet_reads _ Hv).
  - split; [done|]. simpl. by rewrite IHr, (quiet_reads _ IHv).
  - rewrite IHlr, IHrr, (quiet_reads _ IHlv), (quiet_reads _ IHrv).
    destruct op; done.
Qed.

Lemma inspect_noul e r : r_probabilities r = false → r_confidence r = false →
  inspect_requirements target e r = r.
Proof.
  intros Hp Hc. destruct (analyze_quiet e) as [Hv Hr]. unfold inspect_requirements.
  rewrite Hr, (quiet_reads _ Hv), Hp, Hc. destruct r. simpl in *. by subst.
Qed.
End noul.

(** ** Requirements of a check *)

Section accepted.
Context `{SerdeNumber}.

Definition same_question (r1 r2 : QuestionRequirements) : Prop :=
  r_decision r1 = r_decision r2 ∧ r_question r1 = r_question r2 ∧ r_kind r1 = r_kind r2 ∧
  r_criteria_count r1 = r_criteria_count r2.

(** A property that one inspection keeps holds at the end. *)
Lemma requirement_ind (P : QuestionRequirements → Prop) c d q :
  P {| r_decision := d_name d; r_question := q_name q; r_kind := kind (q_question q);
       r_criteria_count := criteria_count (q_question q);
       r_probabilities := false; r_confidence := false |} →
  (∀ e r, P r → P (inspect_requirements {| t_decision := d; t_question := q |} e r)) →
  P (question_requirement c d q).
Proof.
  unfold question_requirement. intros H0 Hstep. revert H0.
  generalize (Build_QuestionRequirements (d_name d) (q_name q) (kind (q_question q))
    (criteria_count (q_question q)) false false).
  induction (cc_actions c) as [|a actions IH]; intros r Hr; [done|]. cbn [fold_left]. apply IH.
  revert r Hr. induction (action_expressions a) as [|e es IHe]; intros r Hr; [done|].
  apply IHe. by apply Hstep.
Qed.

Lemma question_requirement_question c d q :
  same_question (question_requirement c d q)
    {| r_decision := d_name d; r_question := q_name q; r_kind := kind (q_question q);
       r_criteria_count := criteria_count (q_question q);
       r_probabilities := false; r_confidence := false |}.
Proof. apply requirement_ind; [done|]. intros e r Hr. exact Hr. Qed.

Lemma question_requirement_meets c d q : meets (question_requirement c d q) q.
Proof.
  destruct (question_requirement_question c d q) as (_ & _ & Hk & Hc).
  split_and!; [done|done|]. intros Hn.
  apply requirement_ind; [done|]. intros e r [Hp Hf]. by rewrite inspect_noul.
Qed.

Lemma question_requirements_keys c : r_key <$> question_requirements c = keys (cc_decisions c).
Proof.
  unfold question_requirements, keys, declared.
  induction (cc_decisions c) as [|d ds IH]; [done|]. simpl. rewrite !fmap_app. f_equal; [|exact IH].
  rewrite <- !list_fmap_compose. apply list_fmap_ext. intros i q _. unfold compose, r_key. simpl.
  by destruct (question_requirement_question c d q) as (-> & -> & _).
Qed.

Lemma elem_of_question_requirements c r :
  r ∈ question_requirements c →
  ∃ d q, d ∈ cc_decisions c ∧ q ∈ d_outputs d ∧ r = question_requirement c d q.
Proof.
  unfold question_requirements. rewrite list_elem_of_join.
  intros (l & Hr & (d & -> & Hd)%list_elem_of_fmap).
  apply list_elem_of_fmap in Hr as (q & -> & Hq). eauto.
Qed.

(** The requirements that the compiler derives from a check's actions are
    always accepted against its own declarations: one record per declared
    question, in order, and none that asks a noul question for probabilities or
    confidence. *)
Theorem question_requirements_accepted c :
  validate_declarations (cc_decisions c) = Ok tt →
  validate_requirements (cc_decisions c) (question_requirements c) = Ok tt.
Proof.
  intros Hv%validate_declarations_correct. apply requirements_decided. split_and!; [done| |].
  - by rewrite question_requirements_keys.
  - intros r q (d & q' & Hd & Hq' & ->)%elem_of_question_requirements Hq.
    assert (((d_name d, q_name q'), q') ∈ declared (cc_decisions c)) as Hq2
      by (apply elem_of_declared; eauto).
    assert (r_key (question_requirement c d q') = (d_name d, q_name q')) as Hkey.
    { unfold r_key. by destruct (question_requirement_question c d q') as (-> & -> & _). }
    rewrite Hkey in Hq.
    pose proof (keys_nodup _ Hv) as Hn. apply (expected_map_lookup _ _ _ Hn) in Hq.
    apply (expected_map_lookup _ _ _ Hn) in Hq2. rewrite Hq in Hq2. injection Hq2 as ->.
    apply question_requirement_meets.
Qed.
End accepted.

Definition sample_decision : DecisionBlock (H:=text_numbers) :=
  {| d_name := "review"; d_input := TLiteral LitNull; d_fit := [];
     d_outputs := [{| q_name := "risk"; q_question := Noul "Is it safe?" |};
                   {| q_name := "level";
                      q_question := Choice "How risky?" [("low", "No risk."); ("high", "Some risk.")] |}] |}.

Definition sample_check : CompiledCheck (H:=text_numbers) :=
  {| cc_name := "sample"; cc_description := None; cc_condition := None;
     cc_trigger :=
       {| tr_family := Messages true None None None; tr_tools := None; tr_statuses := None;
          tr_models := None; tr_fast_mode := None; tr_paths := None; tr_paths_ignore := None;
          tr_window := None; tr_cooldown := 60000 |};
     cc_decisions := [sample_decision];
     cc_actions :=
       [{| sa_condition := Some (CondExpression
             (EPath [PProperty "decisions"; PProperty "review"; PProperty "details";
                     PProperty "level"; PProperty "probabilities"; PProperty "high"]));
           sa_result := ResultLiteral Failure; sa_message := None |}] |}.

Lemma question_requirements_accepted_witness :
  validate_requirements [sample_decision] (question_requirements sample_check) = Ok tt ∧
  r_probabilities <$> question_requirements sample_check = [false; true].
Proof.
  split; [|vm_refl]. apply (question_requirements_accepted sample_check). vm_refl.
Defined.
