(* ===== verification/Access.v ===== *)
(** * Static references (crates/antiburn-checks/src/compiler/access.rs)

    The shape of the value that an expression selects.  Records are closed: an
    expression that selects a field which is not declared is refused when the
    check is compiled. *)

From S2P Require Import Prelude RustString Json RustFloat Diagnostics Expression Decision Check.

#[local] Open Scope N_scope.

(** ** Shapes *)

Inductive ShapeRecord :=
| RecSession | RecTurn | RecRequest | RecWindow | RecMessage | RecQuality | RecTool | RecResult
| RecOutcome | RecAgent | RecGlobal | RecRepo | RecInstruction | RecInstructionScope | RecSkill
| RecDecisions
| RecDecision (i : nat) | RecOutputs (i : nat) | RecDetails (i : nat)
| RecQuestionDetails (i question : nat) | RecProbabilities (i question : nat).

#[export] Instance ShapeRecord_eq_dec : EqDecision ShapeRecord.
Proof. solve_decision. Defined.

Inductive ValueShape :=
| ShScalar
| ShOpen
| ShArray (item : ValueShape)
| ShFixedArray (item : ValueShape) (count : N)
| ShRecord (record : ShapeRecord)
| ShAlternatives (items : list ValueShape).

Lemma ValueShape_ind_nested (P : ValueShape → Prop) :
  P ShScalar → P ShOpen → (∀ v, P v → P (ShArray v)) → (∀ v n, P v → P (ShFixedArray v n)) →
  (∀ r, P (ShRecord r)) → (∀ l, Forall P l → P (ShAlternatives l)) → ∀ v, P v.
Proof.
  intros Hs Ho Ha Hf Hr Hl. fix IH 1. intros [| |v|v n|r|l].
  - apply Hs.
  - apply Ho.
  - apply Ha, IH.
  - apply Hf, IH.
  - apply Hr.
  - apply Hl. induction l; constructor; [apply IH|assumption].
Qed.

(** The derived [PartialEq] *)
Fixpoint shape_eqb (x y : ValueShape) : bool :=
  match x, y with
  | ShScalar, ShScalar | ShOpen, ShOpen => true
  | ShArray x, ShArray y => shape_eqb x y
  | ShFixedArray x n, ShFixedArray y m => shape_eqb x y && (n =? m)
  | ShRecord x, ShRecord y => bool_decide (x = y)
  | ShAlternatives xs, ShAlternatives ys =>
      (fix go xs ys :=
         match xs, ys with
         | [], [] => true
         | x :: xs, y :: ys => shape_eqb x y && go xs ys
         | _, _ => false
         end) xs ys
  | _, _ => false
  end.

(** [map_item] *)
Fixpoint map_item (v : ValueShape) : option ValueShape :=
  match v with
  | ShArray item | ShFixedArray item _ => Some item
  | ShOpen => Some ShOpen
  | ShAlternatives items =>
      match omap map_item items with
      | [] => None
      | [item] => Some item
      | items => Some (ShAlternatives items)
      end
  | _ => None
  end.

(** ** What the compiler knows *)

(** The labels are a set in the sources; its order is not observable. *)
Record QuestionSymbols := {
  qs_name : string;
  qs_kind : QuestionKind;
  qs_labels : list string;
  qs_criteria_count : N
}.

Record DecisionSymbols := { ds_name : string; ds_outputs : list QuestionSymbols }.

Record Validator := {
  v_diagnostics : list Diagnostic;
  v_has_window : bool;
  v_decisions : list DecisionSymbols;
  v_aliases : list (string * ValueShape);
  v_trigger_family : option TriggerFamily
}.

Inductive ExpressionContext := TopLevel | InDecisionInput | ActionCondition.

#[export] Instance ExpressionContext_eq_dec : EqDecision ExpressionContext.
Proof. solve_decision. Defined.

(** A refusal with its code, or the panic of an index. *)
Inductive AccessStop := Refused (code : DiagnosticCode) (message : string) | AccessPanicked.

Definition AccessResult (A : Type) : Type := result A AccessStop.

Definition reference_error {A} (message : string) : AccessResult A :=
  Err (Refused CompileUnknownReference message).
Definition unsupported_reference {A} (message : string) : AccessResult A :=
  Err (Refused CompileUnsupportedFeature message).

Section access.
Context `{SerdeNumber}.
Variable self : Validator.

(** [self.decisions[i]] and [self.decisions[i].outputs[question]] *)
Definition decision_at (i : nat) : AccessResult DecisionSymbols :=
  match v_decisions self !! i with Some d => Ok d | None => Err AccessPanicked end.

Definition question_at (i question : nat) : AccessResult QuestionSymbols :=
  let? d := decision_at i in
  match ds_outputs d !! question with Some q => Ok q | None => Err AccessPanicked end.

Definition session_start_trigger : bool :=
  match v_trigger_family self with Some (Session start _) => is_some start | _ => false end.
Definition session_idle_trigger : bool :=
  match v_trigger_family self with Some (Session _ idle) => is_some idle | _ => false end.

Definition one_of (key : string) (names : list string) : bool := existsb (String.eqb key) names.

Definition list_of (record : ShapeRecord) : AccessResult ValueShape := Ok (ShArray (ShRecord record)).
Definition scalar_if (b : bool) (otherwise : AccessResult ValueShape) : AccessResult ValueShape :=
  if b then Ok ShScalar else otherwise.

(** The position of a name, as [iter().position(..)] gives it. *)
Fixpoint name_position (names : list string) (n : string) : option nat :=
  match names with
  | [] => None
  | x :: names => if String.eqb x n then Some O else S <$> name_position names n
  end.

Definition unknown_field (key : string) : AccessResult ValueShape :=
  reference_error ("Unknown normalized field `" +:+ (key +:+ "`.")).
Definition unsupported_field : AccessResult ValueShape :=
  unsupported_reference "The selected context field or provider detail is not supported yet.".

Definition inventory_field (key : string) (otherwise : AccessResult ValueShape) : AccessResult ValueShape :=
  if String.eqb key "instructions" then list_of RecInstruction
  else if String.eqb key "skills" then list_of RecSkill
  else if one_of key ["instructions_complete"; "skills_complete"; "snapshot_revision"] then Ok ShScalar
  else if one_of key ["instructions_limits"; "skills_limits"] then Ok (ShArray ShScalar)
  else otherwise.

Definition session_field (key : string) : AccessResult ValueShape :=
  if one_of key ["id"; "requests_complete"; "source_coverage"; "model"; "fast_mode"] then Ok ShScalar
  else if String.eqb key "start_reason" then scalar_if session_start_trigger unsupported_field
  else if one_of key ["idle_seconds"; "last_activity_at"] then
    scalar_if session_idle_trigger unsupported_field
  else if String.eqb key "requests" then list_of RecRequest
  else unknown_field key.

Definition message_field (key : string) : AccessResult ValueShape :=
  if one_of key ["id"; "source"; "occurred_at"; "kind"; "role"; "model"; "fast_mode"; "content"] then
    Ok ShScalar
  else if String.eqb key "tool" then Ok (ShRecord RecTool)
  else if String.eqb key "quality" then Ok (ShRecord RecQuality)
  else unknown_field key.

Definition quality_field (key : string) : AccessResult ValueShape :=
  if one_of key ["source_complete"; "tool_name_available"; "category_available"; "arguments_available";
                 "result_content_available"; "request_history_complete"; "main_session";
                 "paths_available"; "paths_complete"; "model_limit"; "fast_mode_limit";
                 "fast_mode_evidence"; "category_limit"] then Ok ShScalar
  else if String.eqb key "paths_limits" then Ok (ShArray ShScalar)
  else unknown_field key.

Definition tool_field (key : string) : AccessResult ValueShape :=
  if one_of key ["name"; "category"; "call_id"; "provider_executed"] then Ok ShScalar
  else if String.eqb key "paths" then Ok (ShArray ShScalar)
  else if String.eqb key "arguments" then Ok ShOpen
  else if String.eqb key "result" then Ok (ShRecord RecResult)
  else unknown_field key.

Definition result_field (key : string) : AccessResult ValueShape :=
  if one_of key ["status"; "output_bytes"] then Ok ShScalar
  else if String.eqb key "content" then Ok ShOpen
  else if String.eqb key "outcome" then Ok (ShRecord RecOutcome)
  else unknown_field key.

(** The fields of a question's details. *)
Definition details_field (i question : nat) (key : string) : AccessResult ValueShape :=
  if String.eqb key "probabilities" then
    let? q := question_at i question in
    match qs_kind q with
    | KChoice => Ok (ShRecord (RecProbabilities i question))
    | KScore => Ok (ShFixedArray ShScalar (qs_criteria_count q))
    | KNoul => reference_error "Noul has no probability distribution detail."
    end
  else if String.eqb key "confidence" then
    let? q := question_at i question in
    scalar_if (negb (bool_decide (qs_kind q = KNoul))) (unknown_field key)
  else unknown_field key.

Definition record_field (record : ShapeRecord) (key : string) : AccessResult ValueShape :=
  match record with
  | RecSession => session_field key
  | RecTurn =>
      if one_of key ["id"; "source"; "status"; "model"; "fast_mode"; "started_at"; "ended_at"] then Ok ShScalar
      else if String.eqb key "messages" then list_of RecMessage
      else unknown_field key
  | RecWindow => if String.eqb key "messages" then list_of RecMessage else unknown_field key
  | RecRequest => scalar_if (one_of key ["id"; "source"; "kind"; "text"; "in_reply_to"]) (unknown_field key)
  | RecMessage => message_field key
  | RecQuality => quality_field key
  | RecTool => tool_field key
  | RecResult => result_field key
  | RecOutcome =>
      scalar_if (one_of key ["kind"; "state"; "exit"; "signal"; "timed_out"; "shell_id"; "error"; "session_id"])
        (unknown_field key)
  | RecAgent =>
      if String.eqb key "name" then Ok ShScalar
      else if String.eqb key "skills" then unsupported_field
      else unknown_field key
  | RecGlobal => inventory_field key (unknown_field key)
  | RecRepo =>
      if String.eqb key "root" then Ok ShScalar
      else inventory_field key (if String.eqb key "branch" then unsupported_field else unknown_field key)
  | RecInstruction =>
      if one_of key ["path"; "content"; "observed_at"] then Ok ShScalar
      else if String.eqb key "scope" then Ok (ShRecord RecInstructionScope)
      else unknown_field key
  | RecInstructionScope =>
      if String.eqb key "root" then Ok ShScalar
      else if String.eqb key "globs" then Ok (ShArray ShScalar)
      else unknown_field key
  | RecSkill => scalar_if (one_of key ["name"; "description"; "path"]) (unknown_field key)
  | RecDecisions =>
      match name_position (ds_name <$> v_decisions self) key with
      | Some i => Ok (ShRecord (RecDecision i))
      | None => reference_error "Unknown decision name."
      end
  | RecDecision i =>
      if String.eqb key "outputs" then Ok (ShRecord (RecOutputs i))
      else if String.eqb key "details" then Ok (ShRecord (RecDetails i))
      else unknown_field key
  | RecOutputs i =>
      let? d := decision_at i in
      scalar_if (existsb (λ q, String.eqb (qs_name q) key) (ds_outputs d)) (unknown_field key)
  | RecDetails i =>
      let? d := decision_at i in
      match name_position (qs_name <$> ds_outputs d) key with
      | Some question => Ok (ShRecord (RecQuestionDetails i question))
      | None => reference_error "Unknown question name."
      end
  | RecQuestionDetails i question => details_field i question key
  | RecProbabilities i question =>
      let? q := question_at i question in
      scalar_if (one_of key (qs_labels q)) (unknown_field key)
  end.

(** [record_fields] *)
Definition record_fields (record : ShapeRecord) : AccessResult (list string) :=
  match record with
  | RecSession =>
      Ok (["id"; "requests_complete"; "source_coverage"; "requests"; "model"; "fast_mode"] ++
          (if session_start_trigger then ["start_reason"] else []) ++
          (if session_idle_trigger then ["idle_seconds"; "last_activity_at"] else []))
  | RecTurn => Ok ["id"; "source"; "status"; "messages"; "model"; "fast_mode"; "started_at"; "ended_at"]
  | RecRequest => Ok ["id"; "source"; "kind"; "text"; "in_reply_to"]
  | RecWindow => Ok ["messages"]
  | RecMessage =>
      Ok ["id"; "source"; "occurred_at"; "kind"; "role"; "model"; "fast_mode"; "content"; "tool"; "quality"]
  | RecQuality =>
      Ok ["source_complete"; "tool_name_available"; "category_available"; "arguments_available";
          "result_content_available"; "request_history_complete"; "main_session"; "paths_available";
          "paths_complete"; "paths_limits"; "model_limit"; "fast_mode_limit"; "fast_mode_evidence";
          "category_limit"]
  | RecTool => Ok ["name"; "category"; "call_id"; "provider_executed"; "paths"; "arguments"; "result"]
  | RecResult => Ok ["status"; "output_bytes"; "content"; "outcome"]
  | RecOutcome => Ok ["kind"; "state"; "exit"; "signal"; "timed_out"; "shell_id"; "error"; "session_id"]
  | RecAgent => Ok ["name"]
  | RecGlobal | RecRepo =>
      Ok (["instructions"; "instructions_complete"; "instructions_limits"; "skills"; "skills_complete";
           "skills_limits"; "snapshot_revision"] ++
          (if bool_decide (record = RecRepo) then ["root"] else []))
  | RecInstruction => Ok ["path"; "content"; "observed_at"; "scope"]
  | RecInstructionScope => Ok ["root"; "globs"]
  | RecSkill => Ok ["name"; "description"; "path"]
  | RecDecisions => Ok (ds_name <$> v_decisions self)
  | RecDecision _ => Ok ["outputs"; "details"]
  | RecOutputs i | RecDetails i => let? d := decision_at i in Ok (qs_name <$> ds_outputs d)
  | RecQuestionDetails i question =>
      let? q := question_at i question in
      Ok (if bool_decide (qs_kind q = KNoul) then [] else ["probabilities"; "confidence"])
  | RecProbabilities i question => let? q := question_at i question in Ok (qs_labels q)
  end.

(** ** Selections *)

Definition index_error {A} : AccessResult A :=
  reference_error "Score probability index is outside the declared criteria.".

Fixpoint property_shape (shape : ValueShape) (key : string) : AccessResult ValueShape :=
  match shape with
  | ShOpen => Ok ShOpen
  | ShArray _ | ShFixedArray _ _ =>
      scalar_if (String.eqb key "length") (reference_error "The selected value has no such child field.")
  | ShAlternatives [] => reference_error "The selected record has no declared child fields."
  | ShAlternatives items =>
      let? shapes := results_of (λ item, property_shape item key) items in Ok (ShAlternatives shapes)
  | ShRecord record => record_field record key
  | ShScalar => reference_error "The selected value has no such child field."
  end.

Fixpoint index_shape (shape : ValueShape) (index : option N) : AccessResult ValueShape :=
  match shape with
  | ShOpen => Ok ShOpen
  | ShArray item => Ok item
  | ShFixedArray item count =>
      if match index with None => true | Some index => index <? count end then Ok item else index_error
  | ShAlternatives items =>
      let? shapes := results_of (λ item, index_shape item index) items in Ok (ShAlternatives shapes)
  | ShRecord _ | ShScalar =>
      reference_error "A normalized object or scalar cannot use an array index."
  end.

Fixpoint dynamic_shape (shape : ValueShape) : AccessResult ValueShape :=
  match shape with
  | ShOpen => Ok ShOpen
  | ShArray item | ShFixedArray item _ => Ok item
  | ShRecord (RecProbabilities _ _) => Ok ShScalar
  | ShAlternatives items =>
      let? shapes := results_of dynamic_shape items in Ok (ShAlternatives shapes)
  | ShRecord _ | ShScalar =>
      reference_error "Dynamic keys cannot select unknown fields on closed normalized records."
  end.

(** [index >= 0.0 && index.fract() == 0.0 && index < count as f64] *)
Definition whole_index (count : N) (index : f64) : bool :=
  SFleb (S754_zero false) index && f64_is_whole index && SFltb index (f64_of_N count).

Fixpoint numeric_index_shape (shape : ValueShape) (number : Number) : AccessResult ValueShape :=
  match shape with
  | ShFixedArray item count =>
      if match number_as_f64 number with Some index => whole_index count index | None => false end then Ok item else index_error
  | ShAlternatives items =>
      let? shapes := results_of (λ item, numeric_index_shape item number) items in
      Ok (ShAlternatives shapes)
  | _ => index_shape shape None
  end.

Fixpoint projection_shape (shape : ValueShape) : AccessResult ValueShape :=
  match shape with
  | ShOpen => Ok ShOpen
  | ShArray item | ShFixedArray item _ => Ok item
  | ShRecord record =>
      let? fields := record_fields record in
      let? shapes := results_of (record_field record) fields in
      Ok (ShAlternatives shapes)
  | ShAlternatives items =>
      let? shapes := results_of projection_shape items in Ok (ShAlternatives shapes)
  | ShScalar => reference_error "Projection requires an array or object."
  end.

(** [self.aliases.iter().rev().find(..)]: the last alias of the name. *)
Definition find_alias (root : string) : option ValueShape :=
  snd <$> List.find (λ a, String.eqb (fst a) root) (rev (v_aliases self)).

Definition context_root (root : string) (context : ExpressionContext) : AccessResult ShapeRecord :=
  if String.eqb root "session" then Ok RecSession
  else if String.eqb root "message" then
    match v_trigger_family self with
    | Some (Messages _ _ _ _) => Ok RecMessage
    | _ => unsupported_reference "The `message` root requires a message-family trigger."
    end
  else if String.eqb root "agent" then Ok RecAgent
  else if String.eqb root "global" then Ok RecGlobal
  else if String.eqb root "repo" then Ok RecRepo
  else if String.eqb root "window" then
    if bool_decide (context = TopLevel) then
      unsupported_reference "The `window` root is unavailable to top-level conditions."
    else if negb (v_has_window self) then reference_error "The `window` root requires `on.window`."
    else Ok RecWindow
  else if String.eqb root "decisions" then
    if negb (bool_decide (context = ActionCondition)) then
      unsupported_reference "The `decisions` root is available only to actions."
    else if bool_decide (v_decisions self = []) then
      reference_error "Decision results require a compiled decision."
    else Ok RecDecisions
  else if String.eqb root "turn" then
    match v_trigger_family self with
    | Some (ResponseCycle _) => Ok RecTurn
    | _ => unsupported_reference "The `turn` root requires `on.turn_end`."
    end
  else reference_error ("Unknown context root `" +:+ (root +:+ "`.")).

Definition root_shape (root : string) (context : ExpressionContext) : AccessResult ValueShape :=
  match (if bool_decide (context = InDecisionInput) then find_alias root else None) with
  | Some shape => Ok shape
  | None => result_map ShRecord (context_root root context)
  end.

(** The segments of a path after its root. *)
Fixpoint path_shape (shape : ValueShape) (rest : list PathSegment) : AccessResult ValueShape :=
  match rest with
  | [] => Ok shape
  | PProperty key :: rest => let? shape := property_shape shape key in path_shape shape rest
  | PIndex index :: rest => let? shape := index_shape shape (Some index) in path_shape shape rest
  end.

(** [access_shape], with the resolution of a selector as an argument. *)
Definition access_with (resolve : Expression → AccessResult ValueShape) :
    list AccessSegment → ValueShape → AccessResult ValueShape :=
  fix go segments shape :=
    match segments with
    | [] => Ok shape
    | AProperty key :: segments => let? shape := property_shape shape key in go segments shape
    | AIndex index :: segments => let? shape := index_shape shape (Some index) in go segments shape
    | ADynamic selector :: segments =>
        let? _ := resolve selector in
        let? shape :=
          match selector with
          | ELiteral (LString key) => property_shape shape key
          | ELiteral (LNumber number) => numeric_index_shape shape number
          | _ => dynamic_shape shape
          end in
        go segments shape
    | AProjection :: segments =>
        let? item := projection_shape shape in
        let? selected := go segments item in
        Ok (ShArray selected)
    end.

(** The truth of a literal, which the compiler knows. *)
Definition known_truth (e : Expression) : option bool :=
  match e with
  | ELiteral LNull => Some false
  | ELiteral (LBoolean b) => Some b
  | ELiteral (LString s) => Some (negb (String.eqb s ""))
  | ELiteral (LNumber n) => (λ x, negb (SFeqb x (S754_zero false))) <$> number_as_f64 n
  | _ => None
  end.

Definition is_container (shape : ValueShape) : bool :=
  match shape with ShArray _ | ShFixedArray _ _ | ShRecord _ => true | _ => false end.

(** The shape of [left && right], or of [left || right] where [or] holds. *)
Definition logical_shape (or : bool) (truth : option bool) (l r : ValueShape) : ValueShape :=
  match truth with
  | Some truth => if eqb or truth then l else r
  | None =>
      if is_container l then (if or then l else r)
      else if shape_eqb l r then l
      else ShAlternatives [l; r]
  end.

Fixpoint resolve_expression (context : ExpressionContext) (e : Expression) : AccessResult ValueShape :=
  match e with
  | ELiteral _ => Ok ShScalar
  | EPath (PProperty root :: rest) => let? shape := root_shape root context in path_shape shape rest
  | EPath _ => reference_error "Expression paths must start with a context root."
  | EAccess base segments =>
      let? shape := resolve_expression context base in
      access_with (resolve_expression context) segments shape
  | ECall function arguments =>
      let? _ := results_each (resolve_expression context) arguments in
      Ok match function with FromJSON => ShOpen | _ => ShScalar end
  | ENot value => let? _ := resolve_expression context value in Ok ShScalar
  | EBinary operator x y =>
      let? l := resolve_expression context x in
      let? r := resolve_expression context y in
      Ok match operator with
         | And => logical_shape false (known_truth x) l r
         | Or => logical_shape true (known_truth x) l r
         | _ => ShScalar
         end
  end.
End access.
