(* ===== verification/AccessFacts.v ===== *)
(** * Facts about static references (crates/antiburn-checks/src/compiler/access.rs)

    The two tables of the fields of a record agree, a shape that comes from the
    compiler's own state never makes an index fail, and a reference that resolves
    reads only what its place in the definition may read. *)

From S2P Require Import Prelude RustString Json Expression Decision Check Access.

#[local] Open Scope N_scope.

(** ** Shapes over a list of decisions *)

Definition known_record (ds : list DecisionSymbols) (r : ShapeRecord) : Prop :=
  match r with
  | RecDecisions => ds ≠ []
  | RecDecision i | RecOutputs i | RecDetails i => is_Some (ds !! i)
  | RecQuestionDetails i q =>
      ∃ d, ds !! i = Some d ∧ is_Some (ds_outputs d !! q)
  | RecProbabilities i q =>
      ∃ d s, ds !! i = Some d ∧ ds_outputs d !! q = Some s ∧ qs_kind s = KChoice
  | _ => True
  end.

(** Every record of the shape is about one of the decisions. *)
Fixpoint known_shape (ds : list DecisionSymbols) (v : ValueShape) : Prop :=
  match v with
  | ShScalar | ShOpen => True
  | ShArray v | ShFixedArray v _ => known_shape ds v
  | ShRecord r => known_record ds r
  | ShAlternatives l => foldr (λ v p, known_shape ds v ∧ p) True l
  end.

Lemma known_alternatives ds l : known_shape ds (ShAlternatives l) ↔ Forall (known_shape ds) l.
Proof. induction l as [|v l IH]; simpl in *; [by split|]. rewrite Forall_cons. tauto. Qed.

(** A result that is in [P] or a refusal, and not a panic. *)
Definition answers {A} (P : A → Prop) (r : AccessResult A) : Prop :=
  match r with Ok a => P a | Err (Refused _ _) => True | Err AccessPanicked => False end.

Lemma answers_bind {A B} (P : A → Prop) (Q : B → Prop) r (f : A → AccessResult B) :
  answers P r → (∀ a, P a → answers Q (f a)) → answers Q (result_bind r f).
Proof. destruct r as [a|[]]; simpl; auto. Qed.

Lemma answers_mono {A} (P Q : A → Prop) r : (∀ a, P a → Q a) → answers P r → answers Q r.
Proof. destruct r as [a|[]]; simpl; auto. Qed.

Lemma answers_each {A B} (P : A → Prop) (Q : B → Prop) (f : A → AccessResult B) l :
  Forall P l → Forall (λ x, P x → answers Q (f x)) l → answers (Forall Q) (results_of f l).
Proof.
  intros Hl Hf. induction Hl as [|x l Hx Hl IH]; [by constructor|].
  apply Forall_cons in Hf as [Hx' Hf]. simpl. eapply answers_bind; [by apply Hx'|].
  intros y Hy. eapply answers_bind; [by apply IH|]. intros ys Hys. by constructor.
Qed.

(** The alternatives of a step that treats them one by one. *)
Lemma answers_alternatives ds (f : ValueShape → AccessResult ValueShape) l :
  Forall (λ v, known_shape ds v → answers (known_shape ds) (f v)) l →
  known_shape ds (ShAlternatives l) →
  answers (known_shape ds) (let? shapes := results_of f l in Ok (ShAlternatives shapes)).
Proof.
  intros Hf Hl%known_alternatives. eapply answers_bind; [by eapply answers_each|].
  intros shapes Hs. by apply known_alternatives.
Qed.

Lemma known_map_item ds v item : known_shape ds v → map_item v = Some item → known_shape ds item.
Proof.
  revert item. induction v as [| |v IH|v n IH|r|l IH] using ValueShape_ind_nested; intros item Hk; try done.
  - by intros [= <-].
  - by intros [= <-].
  - by intros [= <-].
  - apply known_alternatives in Hk. assert (Forall (known_shape ds) (omap map_item l)) as Hall.
    { induction IH as [|v l Hv IH IH2]; [constructor|]. apply Forall_cons in Hk as [Hk Hks]. simpl.
      destruct (map_item v) as [w|] eqn:Ew; [|by apply IH2]. constructor; [by apply Hv|by apply IH2]. }
    cbn [map_item]. destruct (omap map_item l) as [|w [|w' ws]]; [done| |].
    + intros [= <-]. by apply Forall_cons in Hall as [].
    + intros [= <-]. by apply known_alternatives.
Qed.

Lemma name_position_some names n i : name_position names n = Some i → names !! i = Some n.
Proof.
  revert i. induction names as [|x names IH]; intros i; simpl; [done|].
  destruct (String.eqb_spec x n) as [->|]; [by intros [= <-]|].
  destruct (name_position names n) as [j|]; [|done]. intros [= <-]. by apply IH.
Qed.

Lemma name_position_elem names n : is_some (name_position names n) = true ↔ n ∈ names.
Proof.
  induction names as [|x names IH]; simpl; [set_solver|].
  destruct (String.eqb_spec x n) as [->|Hne]; [set_solver|].
  rewrite elem_of_cons, <- IH. destruct (name_position names n); simpl; naive_solver.
Qed.

Lemma one_of_spec key names : one_of key names = true ↔ key ∈ names.
Proof.
  unfold one_of. rewrite existsb_exists. setoid_rewrite String.eqb_eq.
  rewrite list_elem_of_In. naive_solver.
Qed.

Section facts.
Context `{SerdeNumber}.
Variable self : Validator.

(** The decisions that a context may name. *)
Definition visible (context : ExpressionContext) : list DecisionSymbols :=
  match context with ActionCondition => v_decisions self | _ => [] end.

Section decisions.
Variable ds : list DecisionSymbols.
Hypothesis Hds : ds = [] ∨ ds = v_decisions self.

Lemma known_decision i d : ds !! i = Some d → decision_at self i = Ok d.
Proof. unfold decision_at. destruct Hds as [->| ->]; [done|]. by intros ->. Qed.

Lemma known_question i q d s :
  ds !! i = Some d → ds_outputs d !! q = Some s → question_at self i q = Ok s.
Proof. intros Hi Hq. unfold question_at. rewrite (known_decision _ _ Hi). simpl. by rewrite Hq. Qed.

Lemma scalar_if_answers b r :
  answers (known_shape ds) r → answers (known_shape ds) (scalar_if b r).
Proof. by destruct b. Qed.

Lemma record_field_answers r key :
  known_record ds r → answers (known_shape ds) (record_field self r key).
Proof.
  intros Hr. destruct r as [| | | | | | | | | | | | | | | |i|i|i|i q|i q].
  1-15: unfold record_field, session_field, message_field, quality_field, tool_field, result_field,
          inventory_field, scalar_if, list_of, unknown_field; repeat case_match; done.
  - cbn [record_field]. destruct (name_position _ key) as [i|] eqn:Ei; [|done].
    apply name_position_some in Ei. rewrite list_lookup_fmap in Ei. cbn in Hr |- *.
    destruct Hds as [->| ->]; [done|]. by destruct (v_decisions self !! i).
  - cbn [record_field]. repeat case_match; done.
  - cbn [record_field]. destruct Hr as [d Hd]. rewrite (known_decision _ _ Hd). simpl.
    by apply scalar_if_answers.
  - cbn [record_field]. destruct Hr as [d Hd]. rewrite (known_decision _ _ Hd). simpl.
    destruct (name_position _ key) as [q|] eqn:Eq; [|done].
    apply name_position_some in Eq. rewrite list_lookup_fmap in Eq. simpl. exists d.
    split; [done|]. by destruct (ds_outputs d !! q).
  - destruct Hr as (d & Hd & [s Hs]). cbn [record_field]. unfold details_field.
    rewrite (known_question _ _ _ _ Hd Hs). cbn [result_bind].
    destruct (String.eqb key "probabilities").
    + destruct (qs_kind s) eqn:Ek; [|done|done]. simpl. eauto.
    + destruct (String.eqb key "confidence"); [by apply scalar_if_answers|done].
  - destruct Hr as (d & s & Hd & Hs & Hk). cbn [record_field].
    rewrite (known_question _ _ _ _ Hd Hs). simpl. by apply scalar_if_answers.
Qed.

Lemma record_fields_answers r : known_record ds r → answers any (record_fields self r).
Proof.
  intros Hr. destruct r as [| | | | | | | | | | | | | | | |i|i|i|i q|i q]; try exact I.
  - destruct Hr as [d Hd]. simpl. by rewrite (known_decision _ _ Hd).
  - destruct Hr as [d Hd]. simpl. by rewrite (known_decision _ _ Hd).
  - destruct Hr as (d & Hd & [s Hs]). simpl. by rewrite (known_question _ _ _ _ Hd Hs).
  - destruct Hr as (d & s & Hd & Hs & Hk). simpl. by rewrite (known_question _ _ _ _ Hd Hs).
Qed.

Lemma property_answers v key :
  known_shape ds v → answers (known_shape ds) (property_shape self v key).
Proof.
  induction v as [| |v IH|v n IH|r|l IH] using ValueShape_ind_nested; intros Hv;
    cbn [property_shape]; try done.
  - by apply scalar_if_answers.
  - by apply scalar_if_answers.
  - by apply record_field_answers.
  - destruct l as [|w l]; [done|]. by apply answers_alternatives.
Qed.

Lemma index_answers v i : known_shape ds v → answers (known_shape ds) (index_shape v i).
Proof.
  induction v as [| |v IH|v n IH|r|l IH] using ValueShape_ind_nested; intros Hv;
    cbn [index_shape]; try done.
  - by repeat case_match.
  - by apply answers_alternatives.
Qed.

Lemma dynamic_answers v : known_shape ds v → answers (known_shape ds) (dynamic_shape v).
Proof.
  induction v as [| |v IH|v n IH|r|l IH] using ValueShape_ind_nested; intros Hv;
    cbn [dynamic_shape]; try done.
  - by destruct r.
  - by apply answers_alternatives.
Qed.

Lemma numeric_answers v n : known_shape ds v → answers (known_shape ds) (numeric_index_shape v n).
Proof.
  induction v as [| |v IH|v m IH|r|l IH] using ValueShape_ind_nested; intros Hv;
    cbn [numeric_index_shape]; try (by apply index_answers).
  - by repeat case_match.
  - by apply answers_alternatives.
Qed.

Lemma projection_answers v : known_shape ds v → answers (known_shape ds) (projection_shape self v).
Proof.
  induction v as [| |v IH|v n IH|r|l IH] using ValueShape_ind_nested; intros Hv;
    cbn [projection_shape]; try done.
  - eapply answers_bind; [by apply record_fields_answers|]. intros fields _.
    eapply answers_bind.
    + eapply (answers_each any (known_shape ds)); [by apply Forall_true|].
      apply Forall_true. intros key _. by apply record_field_answers.
    + intros shapes Hs. by apply known_alternatives.
  - by apply answers_alternatives.
Qed.

Lemma path_answers rest v : known_shape ds v → answers (known_shape ds) (path_shape self v rest).
Proof.
  revert v. induction rest as [|[key|i] rest IH]; intros v Hv; simpl; [done| |].
  - eapply answers_bind; [by apply property_answers|]. auto.
  - eapply answers_bind; [by apply index_answers|]. auto.
Qed.

Lemma access_answers (resolve : Expression → AccessResult ValueShape) segs v :
  Forall (on_segment (λ e, answers any (resolve e))) segs → known_shape ds v →
  answers (known_shape ds) (access_with self resolve segs v).
Proof.
  intros Hs. revert v. induction Hs as [|seg segs Hseg Hs IH]; intros v Hv; [done|].
  destruct seg as [key|i|e|]; cbn [access_with].
  - eapply answers_bind; [by apply property_answers|]. auto.
  - eapply answers_bind; [by apply index_answers|]. auto.
  - eapply answers_bind; [exact Hseg|]. intros w _. eapply answers_bind; [|intros u Hu; by apply IH].
    destruct e as [[]| | | | |]; (apply property_answers || apply numeric_answers || apply dynamic_answers); done.
  - eapply answers_bind; [by apply projection_answers|]. intros item Hitem.
    eapply answers_bind; [by apply IH|]. intros sel Hsel. exact Hsel.
Qed.
End decisions.

(** ** Expressions *)

(** The aliases hold no decision: they are bound in inputs only. *)
Definition aliases_known : Prop := Forall (λ a, known_shape [] a.2) (v_aliases self).

Lemma visible_cases context : visible context = [] ∨ visible context = v_decisions self.
Proof. destruct context; simpl; auto. Qed.

Lemma root_answers root context :
  aliases_known → answers (known_shape (visible context)) (root_shape self root context).
Proof.
  intros Ha. unfold root_shape.
  destruct (if bool_decide (context = InDecisionInput) then find_alias self root else None)
    as [v|] eqn:Ev.
  - case_bool_decide; [|done]. subst. unfold find_alias in Ev.
    destruct (List.find _ _) as [[n w]|] eqn:Ef; [|done]. injection Ev as <-.
    apply find_some in Ef as [Hin _]. apply in_rev, list_elem_of_In in Hin.
    unfold aliases_known in Ha. rewrite Forall_forall in Ha. by apply Ha in Hin.
  - unfold context_root. repeat case_match; try done; simpl.
    all: repeat match goal with H : context [bool_decide _] |- _ => case_bool_decide; try done end.
    all: by subst.
Qed.

(** Resolution never panics, and its shapes are about the decisions that the
    context may name. *)
Lemma resolve_answers context e :
  aliases_known → answers (known_shape (visible context)) (resolve_expression self context e).
Proof.
  intros Ha. pose proof (visible_cases context) as Hds.
  induction e as [l|path|base segs IHb IHs|f args IHa|e IH|op l r IHl IHr]
    using Expression_ind_nested; cbn [resolve_expression].
  - done.
  - destruct path as [|[root|] rest]; try done.
    eapply answers_bind; [by apply root_answers|]. intros v Hv. by apply path_answers.
  - eapply answers_bind; [exact IHb|]. intros v Hv. apply access_answers; [done| |done].
    eapply Forall_impl; [exact IHs|]. intros [| |e|]; simpl; try done.
    by apply answers_mono.
  - eapply (answers_bind any).
    + induction IHa as [|e args He IHa IH]; [done|]. simpl. eapply answers_bind; [exact He|]. auto.
    + by destruct f.
  - eapply answers_bind; [exact IH|]. done.
  - eapply answers_bind; [exact IHl|]. intros x Hx. eapply answers_bind; [exact IHr|]. intros y Hy.
    unfold logical_shape. destruct op; simpl; try done; repeat case_match; simpl; auto.
Qed.
(** ** The two tables of a record *)

Lemma scalar_if_ok b key : is_ok (scalar_if b (unknown_field key)) = b.
Proof. by destruct b. Qed.

Lemma one_of_false key names : one_of key names = false ↔ key ∉ names.
Proof. rewrite <- one_of_spec. by destruct (one_of key names). Qed.

Lemma existsb_name key l : existsb (λ q, String.eqb (qs_name q) key) l = true ↔ key ∈ qs_name <$> l.
Proof.
  rewrite existsb_exists, list_elem_of_fmap. setoid_rewrite String.eqb_eq.
  setoid_rewrite <- list_elem_of_In. naive_solver.
Qed.

(** Decides [key] against the names of a fixed table, one by one. *)
Ltac fixed_table :=
  rewrite <- one_of_spec;
  unfold record_field, session_field, message_field, quality_field, tool_field, result_field,
    inventory_field, scalar_if, list_of, one_of;
  rewrite ?(bool_decide_true (RecRepo = RecRepo)) by done;
  cbn [existsb app];
  repeat match goal with
    | |- context [session_start_trigger ?s] => destruct (session_start_trigger s)
    | |- context [session_idle_trigger ?s] => destruct (session_idle_trigger s)
    end; cbn [existsb app];
  repeat match goal with
    | |- context [String.eqb ?k ?l] => is_var k; destruct (String.eqb_spec k l) as [->|_]; [done|]
    end; done.

Lemma record_tables ds r key :
  ds = v_decisions self → known_record ds r →
  ∃ fields, record_fields self r = Ok fields ∧ (key ∈ fields ↔ is_ok (record_field self r key) = true).
Proof.
  intros Hds Hr. assert (ds = [] ∨ ds = v_decisions self) as Hor by auto.
  destruct r as [| | | | | | | | | | | | | | | |i|i|i|i q|i q].
  1-15: eexists; split; [reflexivity|]; fixed_table.
  - eexists; split; [reflexivity|]. cbn [record_field]. rewrite <- name_position_elem.
    by destruct (name_position _ key).
  - eexists; split; [reflexivity|]. fixed_table.
  - destruct Hr as [d Hd]. simpl. rewrite (known_decision ds Hor _ _ Hd). simpl.
    eexists; split; [reflexivity|]. rewrite scalar_if_ok. by rewrite existsb_name.
  - destruct Hr as [d Hd]. simpl. rewrite (known_decision ds Hor _ _ Hd). simpl.
    eexists; split; [reflexivity|]. rewrite <- name_position_elem. by destruct (name_position _ key).
  - destruct Hr as (d & Hd & [s Hs]). simpl. unfold details_field.
    rewrite (known_question ds Hor _ _ _ _ Hd Hs). simpl.
    eexists; split; [reflexivity|]. unfold scalar_if.
    destruct (String.eqb_spec key "probabilities") as [->|Hp].
    + destruct (qs_kind s); simpl; set_solver.
    + destruct (String.eqb_spec key "confidence") as [->|Hc]; destruct (qs_kind s); simpl; set_solver.
  - destruct Hr as (d & s & Hd & Hs & Hk). simpl. rewrite (known_question ds Hor _ _ _ _ Hd Hs). simpl.
    eexists; split; [reflexivity|]. rewrite scalar_if_ok. by rewrite one_of_spec.
Qed.
(** ** Roots *)

(** What an expression may start from, by its place in the definition. *)
Definition root_allowed (context : ExpressionContext) (root : string) : Prop :=
  root ∈ ["session"; "agent"; "global"; "repo"] ∨
  (root = "message" ∧ match v_trigger_family self with Some (Messages _ _ _ _) => True | _ => False end) ∨
  (root = "turn" ∧ match v_trigger_family self with Some (ResponseCycle _) => True | _ => False end) ∨
  (root = "window" ∧ v_has_window self = true ∧ context ≠ TopLevel) ∨
  (root = "decisions" ∧ context = ActionCondition ∧ v_decisions self ≠ []) ∨
  (context = InDecisionInput ∧ root ∈ (v_aliases self).*1).

Definition path_allowed (context : ExpressionContext) (path : list PathSegment) : Prop :=
  match path with PProperty root :: _ => root_allowed context root | _ => False end.

Lemma root_shape_allowed root context v : root_shape self root context = Ok v → root_allowed context root.
Proof.
  unfold root_shape, root_allowed.
  destruct (if bool_decide (context = InDecisionInput) then find_alias self root else None)
    as [w|] eqn:Ev.
  - intros _. case_bool_decide; [|done]. unfold find_alias in Ev.
    destruct (List.find _ _) as [[n u]|] eqn:Ef; [|done].
    apply find_some in Ef as [Hin Hn]. apply String.eqb_eq in Hn. simpl in Hn. subst n.
    apply in_rev, list_elem_of_In in Hin.
    do 5 right. split; [done|]. apply list_elem_of_fmap. by exists (root, u).
  - unfold context_root. intros Hr.
    destruct (String.eqb_spec root "session") as [->|]; [left; by apply one_of_spec|].
    destruct (String.eqb_spec root "message") as [->|].
    { right; left. split; [done|]. by destruct (v_trigger_family self) as [[]|]. }
    destruct (String.eqb_spec root "agent") as [->|]; [left; by apply one_of_spec|].
    destruct (String.eqb_spec root "global") as [->|]; [left; by apply one_of_spec|].
    destruct (String.eqb_spec root "repo") as [->|]; [left; by apply one_of_spec|].
    destruct (String.eqb_spec root "window") as [->|].
    { do 3 right; left. case_bool_decide; [done|]. by destruct (v_has_window self). }
    destruct (String.eqb_spec root "decisions") as [->|].
    { do 4 right; left. destruct context; try done. by destruct (v_decisions self). }
    destruct (String.eqb_spec root "turn") as [->|]; [|done].
    right; right; left. split; [done|]. by destruct (v_trigger_family self) as [[]|].
Qed.

Lemma mjoin_forall {A B} (P : B → Prop) (f : A → list B) l :
  Forall (λ x, Forall P (f x)) l → Forall P (mjoin (f <$> l)).
Proof. intros Hl. induction Hl as [|x l Hx Hl IH]; simpl; [constructor|]. by apply Forall_app. Qed.

Lemma access_roots context segs v w :
  Forall (on_segment (λ e, ∀ v, resolve_expression self context e = Ok v →
                             Forall (path_allowed context) (visit_paths e))) segs →
  access_with self (resolve_expression self context) segs v = Ok w →
  Forall (path_allowed context)
    (mjoin ((λ seg, match seg with ADynamic e => visit_paths e | _ => [] end) <$> segs)).
Proof.
  intros Hs. revert v w. induction Hs as [|seg segs Hseg Hs IH]; intros v w; [constructor|].
  destruct seg as [key|i|e|]; cbn [access_with]; intros Hr;
    apply result_bind_ok in Hr as (x & Hx & Hr); simpl.
  - by eapply IH.
  - by eapply IH.
  - apply result_bind_ok in Hr as (y & Hy & Hr). apply Forall_app. split; [by eapply Hseg|by eapply IH].
  - apply result_bind_ok in Hr as (y & Hy & _). by eapply IH.
Qed.

(** Every path of an expression that resolves starts at a root that its place
    in the definition allows: [decisions] in actions only and with a decision,
    [window] below the top level and with [on.window], [message] and [turn] with
    their trigger families, an alias inside of its map only. *)
Theorem resolved_roots context e v :
  resolve_expression self context e = Ok v → Forall (path_allowed context) (visit_paths e).
Proof.
  revert v. induction e as [l|path|base segs IHb IHs|f args IHa|e IH|op l r IHl IHr]
    using Expression_ind_nested; intros v; cbn [resolve_expression visit_paths].
  - constructor.
  - destruct path as [|[root|] rest]; try done. intros Hv. apply result_bind_ok in Hv as (w & Hw & _).
    apply root_shape_allowed in Hw. by constructor.
  - intros Hv. apply result_bind_ok in Hv as (w & Hw & Hr). apply Forall_app.
    split; [by eapply IHb|by eapply access_roots].
  - intros Hv. apply result_bind_ok in Hv as (w & Hw & _). apply mjoin_forall. destruct w.
    clear f. induction IHa as [|e args He IHa IH]; [constructor|].
    apply result_bind_ok in Hw as (x & Hx & Hr). constructor; [by eapply He|by apply IH].
  - intros Hv. apply result_bind_ok in Hv as (w & Hw & _). by eapply IH.
  - intros Hv. apply result_bind_ok in Hv as (x & Hx & Hr). apply result_bind_ok in Hr as (y & Hy & _).
    apply Forall_app. split; [by eapply IHl|by eapply IHr].
Qed.

(** A projection over a record of the check resolves, and it covers exactly the
    fields that a single access accepts: the list of a record's fields and the
    table of their shapes name the same keys. *)
Theorem record_fields_exact r :
  known_record (v_decisions self) r →
  ∃ fields, record_fields self r = Ok fields ∧
    (∀ key, key ∈ fields ↔ is_ok (record_field self r key) = true) ∧
    is_ok (projection_shape self (ShRecord r)) = true.
Proof.
  intros Hr. destruct (record_tables _ _ "" eq_refl Hr) as (fields & Hf & _).
  exists fields. split; [done|].
  assert (∀ key, key ∈ fields ↔ is_ok (record_field self r key) = true) as Hiff.
  { intros key. destruct (record_tables _ _ key eq_refl Hr) as (fields' & Hf' & Hk).
    rewrite Hf in Hf'. by injection Hf' as <-. }
  split; [done|]. cbn [projection_shape]. rewrite Hf. cbn [result_bind].
  assert (∀ l, l ⊆ fields → is_ok (results_of (record_field self r) l) = true) as Hall.
  { induction l as [|key l IH]; [done|]. intros Hl. simpl.
    assert (is_ok (record_field self r key) = true) as Hkey by (apply Hiff; set_solver).
    destruct (record_field self r key); [|done]. simpl.
    assert (is_ok (results_of (record_field self r) l) = true) as Hrest by (apply IH; set_solver).
    by destruct (results_of _ l). }
  specialize (Hall fields ltac:(done)). by destruct (results_of _ fields).
Qed.
End facts.

Definition sample_symbols : Validator :=
  {| v_diagnostics := []; v_has_window := true;
     v_decisions := [{| ds_name := "review";
                        ds_outputs := [{| qs_name := "level"; qs_kind := KChoice;
                                          qs_labels := ["low"; "high"]; qs_criteria_count := 2 |}] |}];
     v_aliases := []; v_trigger_family := Some (Messages true None None None) |}.

Definition sample_reference : Expression (H:=text_numbers) :=
  EAccess (EPath [PProperty "decisions"; PProperty "review"; PProperty "details"; PProperty "level"])
    [AProjection].

Lemma record_fields_exact_witness :
  record_fields sample_symbols (RecQuestionDetails 0 0) = Ok ["probabilities"; "confidence"] ∧
  is_ok (projection_shape sample_symbols (ShRecord (RecQuestionDetails 0 0))) = true.
Proof.
  split; [vm_refl|].
  destruct (record_fields_exact sample_symbols (RecQuestionDetails 0 0)) as (fields & _ & _ & Hp);
    [eexists; split; [reflexivity|by eexists]|exact Hp].
Defined.

Lemma resolved_roots_witness :
  Forall (path_allowed sample_symbols ActionCondition) (visit_paths sample_reference) ∧
  is_ok (resolve_expression sample_symbols TopLevel sample_reference) = false.
Proof.
  split; [|vm_refl].
  apply (resolved_roots sample_symbols ActionCondition sample_reference
           (ShArray (ShAlternatives [ShRecord (RecProbabilities 0 0); ShScalar]))). vm_refl.
Defined.
