(* ===== verification/Compiler.v ===== *)
(** * The compiler's helpers (crates/antiburn-checks/src/compiler.rs)

    The compiler keeps its diagnostics and what it knows of the check in a
    [Validator], and goes on after an error wherever it can.  A function that
    returns an [Option] is a computation on the [Validator] that may stop with
    [Absent]; [attempt] gives the option itself.  A panic stops everything. *)

From S2P Require Import Prelude RustString Json Diagnostics Yaml Expression Lexer Parser Fit Template Decision Check Access.

#[local] Open Scope N_scope.

(** ** Computations *)

Inductive CompileStop := Absent | CompilePanicked | CompileOutOfFuel.

#[export] Instance CompileStop_eq_dec : EqDecision CompileStop.
Proof. solve_decision. Defined.

Definition C (A : Type) : Type := SE Validator CompileStop A.

Definition absent {A} : C A := fail Absent.
Definition need {A} (o : option A) : C A := match o with Some a => ret a | None => absent end.

(** The option that a computation returns. *)
Definition attempt {A} (m : C A) : C (option A) := λ s,
  match m s with
  | (Ok a, s) => (Ok (Some a), s)
  | (Err Absent, s) => (Ok None, s)
  | (Err why, s) => (Err why, s)
  end.

(** [for x in l { .. }] *)
Definition each {A} (f : A → C unit) : list A → C unit :=
  fix go l := match l with [] => ret tt | x :: l => do* f x; go l end.

(** [filter_map(f).collect()]; [index] is the position of the first item. *)
Definition collect_present {A B} (f : N → A → C B) : N → list A → C (list B) :=
  fix go index l :=
    match l with
    | [] => ret []
    | x :: l =>
        let* y := attempt (f index x) in
        let* ys := go (index + 1) l in
        ret (match y with Some y => y :: ys | None => ys end)
    end.

(** [map(f).collect::<Option<Vec<_>>>()]: the first absence ends it. *)
Definition collect_all {A B} (f : N → A → C B) : N → list A → C (list B) :=
  fix go index l :=
    match l with
    | [] => ret []
    | x :: l => let* y := f index x in let* ys := go (index + 1) l in ret (y :: ys)
    end.

(** ** Updates of the validator *)

Definition push_diagnostic (d : Diagnostic) (s : Validator) : Validator :=
  {| v_diagnostics := v_diagnostics s ++ [d]; v_has_window := v_has_window s;
     v_decisions := v_decisions s; v_aliases := v_aliases s; v_trigger_family := v_trigger_family s |}.

Definition with_aliases (aliases : list (string * ValueShape)) (s : Validator) : Validator :=
  {| v_diagnostics := v_diagnostics s; v_has_window := v_has_window s;
     v_decisions := v_decisions s; v_aliases := aliases; v_trigger_family := v_trigger_family s |}.

Definition push_alias (alias : string) (item : ValueShape) (s : Validator) : Validator :=
  with_aliases (v_aliases s ++ [(alias, item)]) s.

Definition pop_alias (s : Validator) : Validator := with_aliases (removelast (v_aliases s)) s.

Definition with_decisions (decisions : list DecisionSymbols) (s : Validator) : Validator :=
  {| v_diagnostics := v_diagnostics s; v_has_window := v_has_window s;
     v_decisions := decisions; v_aliases := v_aliases s; v_trigger_family := v_trigger_family s |}.

Definition with_trigger (trigger : option ToolResultTrigger) (s : Validator) : Validator :=
  {| v_diagnostics := v_diagnostics s;
     v_has_window := match trigger with Some t => is_some (tr_window t) | None => false end;
     v_decisions := v_decisions s; v_aliases := v_aliases s;
     v_trigger_family := tr_family <$> trigger |}.

Definition update (f : Validator → Validator) : C unit := λ s, (Ok tt, f s).

(** ** Paths and texts *)

Definition opening : string := "${{".

Definition dotted (prefix field : string) : string := prefix +:+ ("." +:+ field).

Definition indexed (path : string) (index : N) : string :=
  path +:+ ("[" +:+ (pretty index +:+ "]")).

Definition join_path (prefix field : string) : string :=
  match prefix with EmptyString => field | _ => dotted prefix field end.

Definition before_cons (a : ascii) (r : option (string * string)) : option (string * string) :=
  (λ r, (String a r.1, r.2)) <$> r.

(** [expression_end], as the text before the end and the text after its two
    braces.  Inside of quotes, a doubled quote is a quote. *)
Fixpoint expression_end (quoted : bool) (body : string) : option (string * string) :=
  match body with
  | EmptyString => None
  | String a rest =>
      let doubled c := match rest with String b _ => Ascii.eqb b c | EmptyString => false end in
      if Ascii.eqb a "'"%char then
        if quoted && doubled "'"%char then
          match rest with
          | String b rest => before_cons a (before_cons b (expression_end quoted rest))
          | EmptyString => None
          end
        else before_cons a (expression_end (negb quoted) rest)
      else if negb quoted && Ascii.eqb a "}"%char && doubled "}"%char then
        Some (EmptyString, str_drop 1 rest)
      else before_cons a (expression_end quoted rest)
  end.

Definition whole_expression (value : string) : option string :=
  if starts_with value opening then
    match expression_end false (str_drop 3 value) with
    | Some (body, EmptyString) => Some body
    | _ => None
    end
  else None.

(** [remaining.find("${{")], as the texts before and after it. *)
Fixpoint find_opening (s : string) : option (string * string) :=
  if starts_with s opening then Some (EmptyString, str_drop 3 s)
  else match s with EmptyString => None | String a s => before_cons a (find_opening s) end.

Definition PUBLIC_ROOTS : list string :=
  ["session"; "turn"; "message"; "window"; "global"; "repo"; "agent"; "decisions"].

Section compiler.
Context `{SerdeNumber}.

(** ** Diagnostics *)

Definition diagnose (code : DiagnosticCode) (msg : string) (sp : SourceSpan) (path : string) : C unit :=
  update (push_diagnostic (with_config_path (Diagnostic_at code msg sp) path)).

(** [push] *)
Definition push (code : DiagnosticCode) (msg : string) (value : ConfigValue) (path : string) : C unit :=
  diagnose code msg (cv_span value) path.

Definition invalid_type (value : ConfigValue) (path expected : string) : C unit :=
  push ConfigInvalidType
    ("Expected " +:+ (expected +:+ (" at `" +:+ (path +:+ "`.")))) value path.
Definition invalid_value (value : ConfigValue) (path msg : string) : C unit :=
  push ConfigInvalidValue msg value path.
Definition unsupported (value : ConfigValue) (msg path : string) : C unit :=
  push CompileUnsupportedFeature msg value path.
Definition missing_field (parent : ConfigValue) (path : string) : C unit :=
  push ConfigMissingField ("Required field `" +:+ (path +:+ "` is missing.")) parent path.
Definition invalid_window (value : ConfigValue) (msg : string) : C unit :=
  push CompileInvalidWindow msg value "on.window".
Definition invalid_cooldown (value : ConfigValue) (path msg : string) : C unit :=
  push CompileInvalidCooldown msg value path.
Definition invalid_expression (value : ConfigValue) (path msg : string) : C unit :=
  push CompileInvalidExpression msg value path.
Definition invalid_action (value : ConfigValue) (path msg : string) : C unit :=
  push CompileInvalidAction msg value path.

(** ** Fields *)

Definition mapping (value : ConfigValue) (path : string) : C (list ConfigEntry) :=
  match cv_kind value with
  | CfgMapping entries => ret entries
  | _ => do* invalid_type value path "an object"; absent
  end.

Definition sequence (value : ConfigValue) (path : string) : C (list ConfigValue) :=
  match cv_kind value with
  | CfgSequence items => ret items
  | _ => do* invalid_type value path "an array"; absent
  end.

Definition string_ (value : ConfigValue) (path : string) : C string :=
  match cv_kind value with
  | CfgString text => ret text
  | _ => do* invalid_type value path "a string"; absent
  end.

Definition fixed_text (value : ConfigValue) (path : string) : C string :=
  let* text := string_ value path in
  if is_blank text || str_contains text opening then
    do* invalid_value value path "Fixed text must be nonblank and cannot contain `${{`."; absent
  else ret text.

Definition has_field (fields : list ConfigEntry) (name : string) : bool :=
  existsb (λ e, String.eqb (ce_key e) name) fields.

(** [fields.iter().find(|entry| entry.key == name)] *)
Definition find_field (fields : list ConfigEntry) (name : string) : option ConfigEntry :=
  List.find (λ e, String.eqb (ce_key e) name) fields.

(** [fields.iter().find(|entry| entry.key == name).and_then(|entry| f(&entry.value))] *)
Definition on_field {A} (f : ConfigValue → C A) (name : string) : list ConfigEntry → C (option A) :=
  fix go fields :=
    match fields with
    | [] => ret None
    | e :: fields => if String.eqb (ce_key e) name then attempt (f (ce_value e)) else go fields
    end.

Definition allowed_fields (fields : list ConfigEntry) (allowed : list string) (prefix : string) : C unit :=
  each (λ field,
    if existsb (String.eqb (ce_key field)) allowed then ret tt
    else diagnose ConfigUnknownField ("Unknown field `" +:+ (ce_key field +:+ "`."))
           (ce_key_span field) (join_path prefix (ce_key field))) fields.

Definition require_fields (fields : list ConfigEntry) (required : list string) (parent : ConfigValue)
    (prefix : string) : C unit :=
  each (λ field,
    if has_field fields field then ret tt else missing_field parent (join_path prefix field)) required.

(** ** Expressions *)

(** [resolve_expression] in the present state. *)
Definition resolve (context : ExpressionContext) (e : Expression) :
    C (result ValueShape (DiagnosticCode * string)) := λ s,
  match resolve_expression s context e with
  | Ok shape => (Ok (Ok shape), s)
  | Err (Refused code msg) => (Ok (Err (code, msg)), s)
  | Err AccessPanicked => (Err CompilePanicked, s)
  end.

Definition expression (text : string) (value : ConfigValue) (path : string)
    (context : ExpressionContext) : C Expression :=
  match parse_expression text with
  | None => fail CompileOutOfFuel
  | Some (Err error) =>
      do* push (Lexer.code error) (Lexer.message error) value path; absent
  | Some (Ok e) =>
      let* r := resolve context e in
      match r with
      | Err (code, msg) => do* push code msg value path; ret e
      | Ok _ => ret e
      end
  end.

Definition condition (value : ConfigValue) (path : string) (context : ExpressionContext) : C Condition :=
  match cv_kind value with
  | CfgBoolean b => ret (CondBoolean b)
  | CfgString text =>
      let* body :=
        match whole_expression text with
        | Some body => ret body
        | None =>
            if str_contains text opening then
              do* unsupported value "Embedded text templates are not supported yet." path; absent
            else if starts_with text opening then
              do* invalid_expression value path "Expression wrapper must end with `}}`."; absent
            else ret text
        end in
      let* e := expression body value path context in
      ret (CondExpression e)
  | _ => do* invalid_type value path "a Boolean or expression string"; absent
  end.

(** ** Templates *)

Definition literal_part (text : string) : list TemplatePart :=
  match text with EmptyString => [] | _ => [PartLiteral text] end.

(** The loop of [string_template], whose text shrinks with every expression. *)
Fixpoint text_parts (fuel : nat) (remaining : string) (value : ConfigValue) (path : string)
    (context : ExpressionContext) : C (list TemplatePart) :=
  match fuel with
  | O => fail CompileOutOfFuel
  | S fuel =>
      match find_opening remaining with
      | None => ret (literal_part remaining)
      | Some (before, body) =>
          match expression_end false body with
          | None =>
              do* invalid_expression value path "Expression wrapper must end with `}}`."; absent
          | Some (text, remaining) =>
              let* e := expression text value path context in
              let* parts := text_parts fuel remaining value path context in
              ret (literal_part before ++ PartExpression e :: parts)
          end
      end
  end.

Definition string_template (text : string) (value : ConfigValue) (path : string)
    (context : ExpressionContext) : C InputTemplate :=
  if negb (str_contains text opening) then ret (TLiteral (LitString text))
  else
    match whole_expression text with
    | Some body => let* e := expression body value path context in ret (TExpression e)
    | None =>
        let* parts := text_parts (S (String.length text)) text value path context in
        ret (TText parts)
    end.

(** The expression of a map's collection and the name and shape of its items. *)
Definition map_collection (entries : list ConfigEntry) (path : string) : C (Expression * ConfigEntry) :=
  let* field := need (find_field entries "map") in
  let path := dotted path "map" in
  let* text := string_ (ce_value field) path in
  match whole_expression text with
  | None =>
      do* invalid_expression (ce_value field) path "Map collection must be a whole `${{ expression }}`.";
      absent
  | Some body =>
      let* e := expression body (ce_value field) path InDecisionInput in
      ret (e, field)
  end.

Definition map_alias (entries : list ConfigEntry) (path : string) : C string :=
  let* field := need (find_field entries "as") in
  let path := dotted path "as" in
  let* alias := string_ (ce_value field) path in
  let* s := get_state in
  if negb (is_identifier alias) || existsb (String.eqb alias) PUBLIC_ROOTS
     || existsb (λ a, String.eqb (fst a) alias) (v_aliases s) then
    do* invalid_value (ce_value field) path
      "Map aliases must be identifiers and must not shadow roots or enclosing aliases.";
    absent
  else ret alias.

Definition map_item_shape (collection : Expression) (field : ConfigEntry) (path : string) :
    C ValueShape :=
  let* r := resolve InDecisionInput collection in
  match r with
  | Err _ => absent
  | Ok shape =>
      match map_item shape with
      | Some item => ret item
      | None =>
          do* invalid_value (ce_value field) (dotted path "map") "Map collection must resolve to an array.";
          absent
      end
  end.

(** The condition and the value of a map, under its alias. *)
Definition map_body (template : ConfigValue → string → C InputTemplate) (entries : list ConfigEntry)
    (path : string) : C (option Condition * option InputTemplate) :=
  let* cond := on_field (λ v, condition v (dotted path "if") InDecisionInput) "if" entries in
  let* t := on_field (λ v, template v (dotted path "value")) "value" entries in
  ret (cond, t).

(** [map_template], given the template of its value. *)
Definition map_template (template : ConfigValue → string → C InputTemplate)
    (entries : list ConfigEntry) (value : ConfigValue) (path : string) : C InputTemplate :=
  do* allowed_fields entries ["map"; "as"; "if"; "value"] path;
  do* require_fields entries ["map"; "as"; "value"] value path;
  let* '(collection, field) := map_collection entries path in
  let* alias := map_alias entries path in
  let* item := map_item_shape collection field path in
  do* update (push_alias alias item);
  let* '(cond, t) := map_body template entries path in
  do* update pop_alias;
  let* t := need t in
  ret (TMap collection alias cond t).

Fixpoint input_template (value : ConfigValue) (path : string) : C InputTemplate :=
  match value with
  | CfgValue k _ =>
      match k with
      | CfgNull => ret (TLiteral LitNull)
      | CfgBoolean b => ret (TLiteral (LitBoolean b))
      | CfgNumber n => ret (TLiteral (LitNumber n))
      | CfgString text => string_template text value path InDecisionInput
      | CfgSequence items =>
          let* templates := collect_all (λ i item, input_template item (indexed path i)) 0 items in
          ret (TSequence templates)
      | CfgMapping entries =>
          if has_field entries "map" then map_template input_template entries value path
          else
            let* fields :=
              collect_all (λ _ entry,
                do* (if str_contains (ce_key entry) opening then
                       invalid_value value path
                         "Input object keys must be fixed strings without interpolation."
                     else ret tt);
                let* t := input_template (ce_value entry) (dotted path (ce_key entry)) in
                ret (ce_key entry, t)) 0 entries in
            ret (TObject fields)
      end
  end.
End compiler.
