(* ===== verification/CompilerFacts.v ===== *)
(** * Facts about the compiler's helpers (crates/antiburn-checks/src/compiler.rs)

    The compiler reports an error and goes on, so what it returns means something
    only when it has reported nothing.  [runs v P m Q] says, of a computation that
    starts with what [v] knows: it only adds diagnostics, it leaves what it knows
    as it was, it neither panics nor runs out of fuel, and if in the end there is
    no diagnostic and [P] holds, it returns a value in [Q]. *)

From S2P Require Import Prelude RustString Json Diagnostics Yaml Expression Lexer Parser Fit Template Decision Check Access AccessFacts Compiler.

#[local] Open Scope N_scope.

(** ** The judgement *)

(** The states that know the same, whatever they have reported. *)
Definition same_env (v s : Validator) : Prop :=
  s = {| v_diagnostics := v_diagnostics s; v_has_window := v_has_window v;
         v_decisions := v_decisions v; v_aliases := v_aliases v;
         v_trigger_family := v_trigger_family v |}.

Definition fatal {A} (r : result A CompileStop) : Prop :=
  match r with Err CompilePanicked | Err CompileOutOfFuel => True | _ => False end.

Definition runs {A} (v : Validator) (P : Prop) (m : C A) (Q : A → Prop) : Prop :=
  ∀ s, same_env v s →
    v_diagnostics s `prefix_of` v_diagnostics (m s).2 ∧ same_env v (m s).2 ∧ ¬ fatal (m s).1 ∧
    (v_diagnostics (m s).2 = [] → P → ∃ a, (m s).1 = Ok a ∧ Q a).

Lemma same_env_refl v : same_env v v.
Proof. by destruct v. Qed.

Lemma prefix_quiet {A} (l l' : list A) : l `prefix_of` l' → l' = [] → l = [].
Proof. intros [k ->] [-> _]%app_eq_nil. done. Qed.

Section rules.
Context (v : Validator).

Lemma runs_weaken {A} (P P' : Prop) (m : C A) (Q Q' : A → Prop) :
  runs v P' m Q' → (P → P') → (∀ a, P → Q' a → Q a) → runs v P m Q.
Proof.
  intros Hm HP HQ s Hs. destruct (Hm s Hs) as (? & ? & ? & Hq). split_and!; [done..|].
  intros Hd Hp. destruct (Hq Hd (HP Hp)) as (a & Ha & ?). eauto.
Qed.

Lemma runs_ext {A} P (m m' : C A) (Q : A → Prop) :
  (∀ s, m s = m' s) → runs v P m Q → runs v P m' Q.
Proof. intros Heq Hm s Hs. rewrite <- Heq. by apply Hm. Qed.

Lemma runs_pre {A} (P : Prop) (m : C A) (Q : A → Prop) : runs v True m Q → runs v P m Q.
Proof. intros Hm. by eapply runs_weaken. Qed.

Lemma runs_ret {A} P (a : A) (Q : A → Prop) : (P → Q a) → runs v P (ret a) Q.
Proof. intros HQ s Hs. split_and!; [done|done|by intros []|]. intros _ Hp. simpl. eauto. Qed.

Lemma runs_absent {A} P (Q : A → Prop) : (P → False) → runs v P absent Q.
Proof. intros HP s Hs. split_and!; [done|done|by intros []|]. intros _ Hp. by destruct (HP Hp). Qed.

Lemma runs_need {A} P (o : option A) (Q : A → Prop) :
  (P → ∃ a, o = Some a ∧ Q a) → runs v P (need o) Q.
Proof.
  intros HP. destruct o as [a|]; [apply runs_ret|apply runs_absent]; intros Hp;
    destruct (HP Hp) as (b & [=] & ?). by subst.
Qed.

(** The values that a computation returns from a state like [v]. *)
Definition returns {A} (m : C A) (a : A) : Prop := ∃ s, same_env v s ∧ (m s).1 = Ok a.

Lemma runs_bind {A B} P (m : C A) (f : A → C B) (Q1 : A → Prop) (Q : B → Prop) :
  runs v P m Q1 → (∀ a, returns m a → runs v (P ∧ Q1 a) (f a) Q) → runs v P (bind m f) Q.
Proof.
  intros Hm Hf s Hs. destruct (Hm s Hs) as (Hp & He & Hn & Hq). unfold bind.
  destruct (m s) as [[a|why] s1] eqn:Em; simpl in *.
  - assert (returns m a) as Ha by (exists s; by rewrite Em).
    destruct (Hf a Ha s1 He) as (Hp' & He' & Hn' & Hq'). split_and!; [by etrans|done|done|].
    intros Hd HP. apply Hq'; [done|]. split; [done|].
    destruct (Hq (prefix_quiet _ _ Hp' Hd) HP) as (a' & [= <-] & ?). done.
  - split_and!; [done|done|done|]. intros Hd HP. by destruct (Hq Hd HP) as (a' & [=] & _).
Qed.

Lemma runs_attempt {A} P (m : C A) (Q : A → Prop) :
  runs v P m Q → runs v P (attempt m) (λ o, ∃ a, o = Some a ∧ Q a).
Proof.
  intros Hm s Hs. destruct (Hm s Hs) as (Hp & He & Hn & Hq). unfold attempt.
  destruct (m s) as [[a|[]] s1]; simpl in *; [| |by destruct (Hn I)..].
  - split_and!; [done|done|by intros []|]. intros Hd HP. destruct (Hq Hd HP) as (a' & [= <-] & ?). eauto.
  - split_and!; [done|done|by intros []|]. intros Hd HP. by destruct (Hq Hd HP) as (a' & [=] & _).
Qed.

(** A report ends what is claimed of the result. *)
Lemma runs_diagnose P code msg sp path (Q : unit → Prop) : runs v P (diagnose code msg sp path) Q.
Proof.
  intros s Hs. unfold diagnose, update, push_diagnostic. simpl.
  split_and!; [by eexists|by rewrite Hs|by intros []|]. by intros [_ ?]%app_eq_nil.
Qed.

(** A computation after a report only has to be safe. *)
Lemma runs_reported {A} P code msg sp path (m : C A) (Q : A → Prop) :
  runs v False m Q → runs v P (do* diagnose code msg sp path; m) Q.
Proof.
  intros Hm. eapply (runs_bind _ _ _ (λ _, False)); [apply runs_diagnose|].
  intros a _. eapply runs_weaken; [exact Hm|tauto|done].
Qed.

Lemma runs_refused {A} P code msg sp path (Q : A → Prop) :
  runs v P (do* diagnose code msg sp path; absent) Q.
Proof. apply runs_reported, runs_absent. done. Qed.

(** [if b then report else ()] shows that [b] is false. *)
Lemma runs_unless P (b : bool) code msg sp path :
  runs v P (if b then diagnose code msg sp path else ret tt) (λ _, b = false).
Proof. destruct b; [apply runs_diagnose|by apply runs_ret]. Qed.

Lemma runs_when P (b : bool) code msg sp path :
  runs v P (if b then ret tt else diagnose code msg sp path) (λ _, b = true).
Proof. destruct b; [by apply runs_ret|apply runs_diagnose]. Qed.

(** ** Loops *)

Lemma runs_each {A} P (f : A → C unit) (Q : A → Prop) l :
  (∀ x, x ∈ l → runs v P (f x) (λ _, Q x)) → runs v P (each f l) (λ _, Forall Q l).
Proof.
  induction l as [|x l IH]; intros Hf; [by apply runs_ret|]. cbn [each].
  eapply runs_bind; [apply Hf; set_solver|]. intros a _.
  eapply runs_weaken; [apply IH; intros; apply Hf; set_solver|tauto|]. intros _ [_ Hx] Hl. by constructor.
Qed.

Lemma runs_collect_present {A B} P (f : N → A → C B) (Q : A → B → Prop) l i :
  (∀ j x, x ∈ l → runs v P (f j x) (Q x)) → runs v P (collect_present f i l) (λ ys, Forall2 Q l ys).
Proof.
  revert i. induction l as [|x l IH]; intros i Hf; [by apply runs_ret|]. cbn [collect_present].
  eapply runs_bind; [apply runs_attempt, Hf; set_solver|]. intros y _.
  eapply (runs_bind _ _ _ (λ ys, Forall2 Q l ys)).
  { eapply runs_weaken; [apply (IH (i + 1)); intros; apply Hf; set_solver|by intros []|done]. }
  intros ys _. apply runs_ret. intros [[_ (b & -> & Hb)] Hys]. by constructor.
Qed.

Lemma runs_collect_all {A B} P (f : N → A → C B) (Q : A → B → Prop) l i :
  Forall (λ x, ∀ j, runs v P (f j x) (Q x)) l → runs v P (collect_all f i l) (λ ys, Forall2 Q l ys).
Proof.
  intros Hf. revert i. induction Hf as [|x l Hx Hf IH]; intros i; [by apply runs_ret|]. cbn [collect_all].
  eapply runs_bind; [apply Hx|]. intros y _.
  eapply (runs_bind _ _ _ (λ ys, Forall2 Q l ys)).
  { eapply runs_weaken; [apply (IH (i + 1))|by intros []|done]. }
  intros ys _. apply runs_ret. intros [[_ Hb] Hys]. by constructor.
Qed.

Lemma runs_foldM {A X} P (f : A → X → C A) (I : list X → A → Prop) l acc :
  (P → I [] acc) →
  (∀ done x acc, runs v (P ∧ I done acc) (f acc x) (I (done ++ [x]))) →
  runs v P (foldM f l acc) (I l).
Proof.
  intros H0 Hf.
  assert (∀ l done acc, runs v (P ∧ I done acc) (foldM f l acc) (I (done ++ l))) as Hall.
  { clear H0 acc l. induction l as [|x l IH]; intros done acc.
    - apply runs_ret. intros [_ ?]. by rewrite app_nil_r.
    - cbn [foldM]. eapply runs_bind; [apply Hf|]. intros a _.
      replace (done ++ x :: l)%list with ((done ++ [x]) ++ l)%list by (by rewrite <- app_assoc).
      eapply runs_weaken; [apply (IH (done ++ [x])%list a)|by intros [[? ?] ?]|by trivial]. }
  eapply runs_weaken; [apply (Hall l [] acc)|auto|done].
Qed.

(** ** Fields *)

Section fields.
Context `{SerdeNumber}.

Lemma runs_on_field {A} P (f : ConfigValue → C A) (Q : ConfigValue → A → Prop) name fields :
  (∀ e, e ∈ fields → runs v P (f (ce_value e)) (Q (ce_value e))) →
  runs v P (on_field f name fields) (λ o,
    match find_field fields name with
    | Some e => ∃ a, o = Some a ∧ Q (ce_value e) a
    | None => o = None
    end).
Proof.
  induction fields as [|e fields IH]; intros Hf; [by apply runs_ret|].
  cbn [on_field]. unfold find_field. cbn [List.find]. destruct (String.eqb (ce_key e) name).
  - apply runs_attempt, Hf. set_solver.
  - apply IH. set_solver.
Qed.

Lemma find_field_some fields name e :
  find_field fields name = Some e → e ∈ fields ∧ ce_key e = name.
Proof. unfold find_field. intros [Hin Hk]%find_some. split; [by apply list_elem_of_In|by apply String.eqb_eq]. Qed.

Lemma has_find_field fields name :
  has_field fields name = true → ∃ e, find_field fields name = Some e.
Proof.
  unfold has_field, find_field. induction fields as [|e fields IH]; [done|]. simpl.
  destruct (String.eqb (ce_key e) name); [eauto|done].
Qed.

Lemma runs_mapping P value path :
  runs v P (mapping value path) (λ entries, cv_kind value = CfgMapping entries).
Proof. unfold mapping. destruct (cv_kind value); try apply runs_refused. by apply runs_ret. Qed.

Lemma runs_sequence P value path :
  runs v P (sequence value path) (λ items, cv_kind value = CfgSequence items).
Proof. unfold sequence. destruct (cv_kind value); try apply runs_refused. by apply runs_ret. Qed.

Lemma runs_string P value path : runs v P (string_ value path) (λ text, cv_kind value = CfgString text).
Proof. unfold string_. destruct (cv_kind value); try apply runs_refused. by apply runs_ret. Qed.

Lemma runs_fixed_text P value path :
  runs v P (fixed_text value path) (λ text, cv_kind value = CfgString text ∧ is_fixed_text text = true).
Proof.
  unfold fixed_text. eapply runs_bind; [apply runs_string|]. intros text _. unfold is_fixed_text.
  change "${{" with opening. destruct (is_blank text || str_contains text opening) eqn:Eb;
    [apply runs_refused|].
  apply runs_ret. intros [_ Ht]. split; [done|]. apply orb_false_iff in Eb as [-> ->]. done.
Qed.

Lemma runs_allowed_fields P fields allowed prefix :
  runs v P (allowed_fields fields allowed prefix) (λ _, Forall (λ e, ce_key e ∈ allowed) fields).
Proof.
  apply runs_each. intros e _. eapply runs_weaken; [apply (runs_when True)|done|]. intros [] _ He.
  apply existsb_exists in He as (k & Hk & Heq). apply String.eqb_eq in Heq as ->. by apply list_elem_of_In.
Qed.

Lemma runs_require_fields P fields required parent prefix :
  runs v P (require_fields fields required parent prefix)
    (λ _, Forall (λ name, has_field fields name = true) required).
Proof. apply runs_each. intros name _. apply runs_when. Qed.

(** ** Expressions *)

Hypothesis Haliases : aliases_known v.

Definition resolves (context : ExpressionContext) (e : Expression) : Prop :=
  ∃ shape, resolve_expression v context e = Ok shape.

Lemma runs_resolve P context e :
  runs v P (resolve context e) (λ r,
    match r with
    | Ok shape => resolve_expression v context e = Ok shape
    | Err (code, msg) => resolve_expression v context e = Err (Refused code msg)
    end).
Proof.
  intros s Hs. pose proof (resolve_answers v context e Haliases) as Ha.
  assert (resolve_expression s context e = resolve_expression v context e) as Heq.
  { rewrite Hs. reflexivity. }
  unfold resolve. rewrite Heq. destruct (resolve_expression v context e) as [sh|[code msg|]]; [| |done];
    simpl; (split_and!; [done|done|by intros []|]); intros _ _; by eexists.
Qed.

Lemma returns_resolve context e r :
  returns (resolve context e) r →
  match r with
  | Ok shape => resolve_expression v context e = Ok shape
  | Err (code, msg) => resolve_expression v context e = Err (Refused code msg)
  end.
Proof.
  intros (s & Hs & Hr). assert (resolve_expression s context e = resolve_expression v context e) as <-.
  { rewrite Hs. reflexivity. }
  unfold resolve in Hr. destruct (resolve_expression s context e) as [sh|[code msg|]];
    simpl in Hr; by simplify_eq.
Qed.

Lemma runs_expression P text value path context :
  runs v P (expression text value path context) (λ e,
    parse_expression text = Some (Ok e) ∧ resolves context e).
Proof.
  unfold expression. destruct (parse_expression_total text) as [[e|err] ->]; [|apply runs_refused].
  eapply runs_bind; [apply runs_resolve|]. intros [sh|[code msg]] _; [|apply runs_reported].
  - apply runs_ret. intros [_ He]. split; [done|]. by exists sh.
  - by apply runs_ret.
Qed.

Definition condition_resolves (context : ExpressionContext) (c : Condition) : Prop :=
  match c with CondBoolean _ => True | CondExpression e => resolves context e end.

Lemma runs_condition P value path context :
  runs v P (condition value path context) (condition_resolves context).
Proof.
  unfold condition. destruct (cv_kind value) as [|b|n|text|items|entries]; try apply runs_refused.
  - by apply runs_ret.
  - eapply (runs_bind _ _ _ any).
    + destruct (whole_expression text); [by apply runs_ret|].
      destruct (str_contains text opening); [apply runs_refused|].
      destruct (starts_with text opening); [apply runs_refused|by apply runs_ret].
    + intros body _. eapply runs_bind; [apply runs_expression|]. intros e _. apply runs_ret. tauto.
Qed.

(** ** Texts *)

Lemma before_cons_some a r u w : before_cons a r = Some (u, w) → ∃ u', r = Some (u', w) ∧ u = String a u'.
Proof. destruct r as [[u' w']|]; [|done]. intros [= <- <-]. eauto. Qed.

(** Two bytes at the least are gone. *)
Lemma expression_end_length quoted body u w :
  expression_end quoted body = Some (u, w) → (String.length w < String.length body)%nat.
Proof.
  assert (∀ n quoted body u w, (String.length body ≤ n)%nat →
    expression_end quoted body = Some (u, w) → (String.length w < String.length body)%nat) as Hn.
  { induction n as [|n IH]; intros q [|a rest] u' w' Hl; try done; simpl in Hl; [lia|].
    cbn [expression_end String.length]. intros He.
    repeat match type of He with
    | (if ?b then _ else _) = _ => destruct b
    | before_cons _ _ = Some _ => apply before_cons_some in He as (? & He & ->)
    end; try (apply IH in He; lia).
    - destruct rest as [|b rest]; [done|]. simpl in Hl.
      apply before_cons_some in He as (? & He & ->). apply before_cons_some in He as (? & He & ->).
      apply IH in He; simpl; lia.
    - injection He as _ <-. destruct rest; simpl; lia. }
  by apply (Hn (String.length body)).
Qed.

Lemma find_opening_length s before body :
  find_opening s = Some (before, body) → (String.length body < String.length s)%nat.
Proof.
  revert before. induction s as [|a s IH]; intros before; [done|]. cbn [find_opening].
  destruct (starts_with (String a s) opening) eqn:Es.
  - intros He. assert (body = str_drop 3 (String a s)) as -> by congruence. clear He.
    pose proof (str_len_drop 3 (String a s)) as Hd.
    unfold str_len in Hd. cbn [String.length] in *. lia.
  - intros (u & Hf & _)%before_cons_some. apply IH in Hf. simpl. lia.
Qed.

Lemma runs_text_parts P fuel remaining value path context :
  (String.length remaining < fuel)%nat →
  runs v P (text_parts fuel remaining value path context)
    (λ parts, Forall (resolves context) (mjoin (part_expressions <$> parts))).
Proof.
  revert P remaining. induction fuel as [|fuel IH]; intros P remaining Hf; [lia|]. cbn [text_parts].
  destruct (find_opening remaining) as [[before body]|] eqn:Eo.
  - destruct (expression_end false body) as [[text rest]|] eqn:Ee; [|apply runs_refused].
    apply find_opening_length in Eo. apply expression_end_length in Ee.
    eapply runs_bind; [apply runs_expression|]. intros e _.
    eapply runs_bind; [apply (IH _ rest); lia|]. intros parts _. apply runs_ret. intros [[_ [_ He]] Hparts].
    rewrite fmap_app. destruct before; simpl; by constructor.
  - apply runs_ret. intros _. destruct remaining; constructor.
Qed.

(** A template without structure. *)
Definition text_template (context : ExpressionContext) (t : InputTemplate) : Prop :=
  match t with
  | TLiteral _ | TExpression _ | TText _ => Forall (resolves context) (visit_expressions t)
  | _ => False
  end.

Lemma runs_string_template P text value path context :
  runs v P (string_template text value path context) (text_template context).
Proof.
  unfold string_template. destruct (str_contains text opening); cbn [negb]; [|apply runs_ret; by constructor].
  destruct (whole_expression text) as [body|].
  - eapply runs_bind; [apply runs_expression|]. intros e _. apply runs_ret. intros [_ [_ He]].
    by repeat constructor.
  - eapply runs_bind; [apply runs_text_parts; lia|]. intros parts _. apply runs_ret. tauto.
Qed.
End fields.
End rules.

Arguments resolves v {_} context e.
Arguments condition_resolves v {_} context c.
Arguments text_template v {_} context t.

(** ** Maps *)

Section templates.
Context `{SerdeNumber}.

(** What an alias of a map may be called where [v] holds. *)
Definition alias_allowed (v : Validator) (alias : string) : Prop :=
  is_identifier alias = true ∧ alias ∉ PUBLIC_ROOTS ∧ alias ∉ (v_aliases v).*1.

(** An input template whose expressions resolve, those of a map's condition and
    value with its alias. *)
Fixpoint input_resolves (v : Validator) (t : InputTemplate) : Prop :=
  match t with
  | TLiteral _ => True
  | TExpression e => resolves v InDecisionInput e
  | TText parts => Forall (resolves v InDecisionInput) (mjoin (part_expressions <$> parts))
  | TSequence items => foldr (λ t p, input_resolves v t ∧ p) True items
  | TObject items => foldr (λ kt p, input_resolves v kt.2 ∧ p) True items
  | TMap collection alias cond value =>
      ∃ shape item,
        resolve_expression v InDecisionInput collection = Ok shape ∧ map_item shape = Some item ∧
        alias_allowed v alias ∧
        match cond with
        | Some c => condition_resolves (push_alias alias item v) InDecisionInput c
        | None => True
        end ∧
        input_resolves (push_alias alias item v) value
  end.

Lemma text_template_resolves v t : text_template v InDecisionInput t → input_resolves v t.
Proof. destruct t as [l|e|parts|items|items|c a cond t]; simpl; try done. by intros [? _]%Forall_cons. Qed.

Lemma attempt_present {A} (m : C A) s : (attempt m s).1 ≠ Err Absent.
Proof. unfold attempt. by destruct (m s) as [[|[]] ?]. Qed.

Lemma on_field_present {A} (f : ConfigValue → C A) name fields s :
  (on_field f name fields s).1 ≠ Err Absent.
Proof.
  induction fields as [|e fields IH]; [done|]. cbn [on_field].
  destruct (String.eqb (ce_key e) name); [apply attempt_present|done].
Qed.

Lemma bind_present {A B} (m : C A) (f : A → C B) s :
  (m s).1 ≠ Err Absent → (∀ a s, (f a s).1 ≠ Err Absent) → (bind m f s).1 ≠ Err Absent.
Proof. intros Hm Hf. unfold bind. destruct (m s) as [[a|why] s1]; simpl in *; [apply Hf|]. congruence. Qed.

Lemma same_env_push v s alias item :
  same_env v s → same_env (push_alias alias item v) (push_alias alias item s).
Proof. intros Hs. unfold same_env, push_alias, with_aliases in *. rewrite Hs. done. Qed.

Lemma same_env_pop v s alias item :
  same_env (push_alias alias item v) s → same_env v (pop_alias s).
Proof.
  intros Hs. unfold same_env in *. rewrite Hs. unfold pop_alias, push_alias, with_aliases. simpl.
  by rewrite removelast_last.
Qed.

(** A computation under one more alias. *)
Lemma runs_scoped {A B} v P alias item (m : C A) (k : A → C B) (Q1 : A → Prop) (Q : B → Prop) :
  (∀ s, (m s).1 ≠ Err Absent) →
  runs (push_alias alias item v) P m Q1 →
  (∀ a, runs v (P ∧ Q1 a) (k a) Q) →
  runs v P (do* update (push_alias alias item);
            let* a := m in
            do* update pop_alias;
            k a) Q.
Proof.
  intros Hpres Hm Hk s Hs. unfold bind, update.
  destruct (Hm _ (same_env_push v s alias item Hs)) as (Hp & He & Hn & Hq).
  specialize (Hpres (push_alias alias item s)).
  destruct (m (push_alias alias item s)) as [[a|[]] s1]; simpl in *;
    [|by destruct Hpres|by destruct (Hn I)..].
  apply same_env_pop in He. destruct (Hk a _ He) as (Hp' & He' & Hn' & Hq').
  split_and!; [by etrans|done|done|]. intros Hd HP. apply Hq'; [done|]. split; [done|].
  destruct (Hq (prefix_quiet _ _ Hp' Hd) HP) as (a' & [= <-] & ?). done.
Qed.

Lemma aliases_known_push v alias item :
  aliases_known v → known_shape [] item → aliases_known (push_alias alias item v).
Proof. intros Ha Hi. unfold aliases_known. simpl. apply Forall_app. split; [done|]. by repeat constructor. Qed.

Lemma runs_map_collection v P entries path :
  aliases_known v → (P → has_field entries "map" = true) →
  runs v P (map_collection entries path) (λ r, resolves v InDecisionInput r.1).
Proof.
  intros Ha Hmap. unfold map_collection. eapply (runs_bind _ _ _ _ any).
  { apply runs_need. intros [e He]%Hmap%has_find_field. by exists e. }
  intros field _. eapply (runs_bind _ _ _ _ any).
  { eapply runs_weaken; [apply (runs_string v True)|done|done]. }
  intros text _. destruct (whole_expression text); [|apply runs_refused].
  eapply runs_bind; [by apply runs_expression|]. intros e _. apply runs_ret. tauto.
Qed.

Lemma runs_get_state v P : runs v P get_state (λ s, v_aliases s = v_aliases v).
Proof. intros s Hs. split_and!; [done|done|by intros []|]. intros _ _. exists s. by rewrite Hs. Qed.

Lemma runs_map_alias v P entries path :
  (P → has_field entries "as" = true) → runs v P (map_alias entries path) (alias_allowed v).
Proof.
  intros Has. unfold map_alias. eapply (runs_bind _ _ _ _ any).
  { apply runs_need. intros [e He]%Has%has_find_field. by exists e. }
  intros field _. eapply (runs_bind _ _ _ _ any).
  { eapply runs_weaken; [apply (runs_string v True)|done|done]. }
  intros alias _. eapply runs_bind; [apply runs_get_state|]. intros s _.
  match goal with |- runs _ _ (if ?b then _ else _) _ => destruct b eqn:Eb end; [apply runs_refused|].
  apply runs_ret. intros [_ Hs]. rewrite Hs in Eb.
  apply orb_false_iff in Eb as [[Hi%negb_false_iff Hr]%orb_false_iff Hx].
  split_and!; [done| |].
  - intros Hin%list_elem_of_In. eassert (existsb (String.eqb alias) PUBLIC_ROOTS = true) as Ht; [|congruence].
    apply existsb_exists. exists alias. by rewrite String.eqb_refl.
  - intros ([a sh] & -> & Hin%list_elem_of_In)%list_elem_of_fmap.
    eassert (existsb _ (v_aliases v) = true) as Ht; [|rewrite Hx in Ht; done].
    apply existsb_exists. exists (a, sh). split; [done|]. apply String.eqb_refl.
Qed.

Lemma returns_map_item_shape v e field path item :
  aliases_known v → returns v (map_item_shape e field path) item → known_shape [] item.
Proof.
  intros Ha (s & Hs & Hr). unfold map_item_shape, bind in Hr.
  destruct (resolve InDecisionInput e s) as [[r|why] s1] eqn:Er; [|done].
  assert (returns v (resolve InDecisionInput e) r) as Hret by (exists s; by rewrite Er).
  apply returns_resolve in Hret. destruct r as [sh|[]]; [|done].
  pose proof (resolve_answers v InDecisionInput e Ha) as Hk. rewrite Hret in Hk.
  destruct (map_item sh) as [it|] eqn:Ei; [|done]. injection Hr as ->. by eapply known_map_item.
Qed.

Lemma runs_map_item_shape v P e field path :
  aliases_known v → (P → resolves v InDecisionInput e) →
  runs v P (map_item_shape e field path)
    (λ item, ∃ shape, resolve_expression v InDecisionInput e = Ok shape ∧ map_item shape = Some item).
Proof.
  intros Ha Hres. unfold map_item_shape. eapply runs_bind; [by apply runs_resolve|].
  intros [sh|[code msg]] _.
  - destruct (map_item sh) as [item|] eqn:Ei; [|apply runs_refused]. apply runs_ret. intros [_ Hsh]. eauto.
  - apply runs_absent. intros [[sh Hsh]%Hres Hr]. congruence.
Qed.
Lemma map_body_present template entries path s :
  (map_body template entries path s).1 ≠ Err Absent.
Proof.
  unfold map_body. apply bind_present; [apply on_field_present|]. intros cond s1.
  apply bind_present; [apply on_field_present|done].
Qed.

Lemma runs_map_body v P template entries path :
  aliases_known v →
  (∀ e path, e ∈ entries → runs v True (template (ce_value e) path) (input_resolves v)) →
  runs v P (map_body template entries path) (λ r,
    match r.1 with Some c => condition_resolves v InDecisionInput c | None => True end ∧
    (has_field entries "value" = true → ∃ t, r.2 = Some t ∧ input_resolves v t)).
Proof.
  intros Ha Ht. unfold map_body.
  eapply runs_bind.
  { apply (runs_on_field _ _ _ (λ _, condition_resolves v InDecisionInput)). intros e _.
    by apply runs_condition. }
  intros cond _. eapply runs_bind.
  { apply (runs_on_field _ _ _ (λ _, input_resolves v)). intros e He. by apply runs_pre, Ht. }
  intros t _. apply runs_ret. intros [[_ Hc] Hv]. simpl. split.
  - destruct (find_field entries "if"); [|by subst]. by destruct Hc as (c0 & -> & Hc).
  - intros [e He]%has_find_field. by rewrite He in Hv.
Qed.

Lemma runs_map_template v template entries value path :
  aliases_known v →
  (∀ v e path, e ∈ entries → aliases_known v →
     runs v True (template (ce_value e) path) (input_resolves v)) →
  runs v True (map_template template entries value path) (input_resolves v).
Proof.
  intros Ha Ht. unfold map_template.
  eapply runs_bind; [apply runs_allowed_fields|]. intros [] _.
  eapply runs_bind; [apply runs_require_fields|]. intros [] _.
  eapply runs_bind.
  { apply runs_map_collection; [done|]. by intros [_ (? & ?)%Forall_cons]. }
  intros [e field] _. eapply runs_bind.
  { apply runs_map_alias. intros [[_ (_ & (? & ?)%Forall_cons)%Forall_cons] _]. done. }
  intros alias _. eapply runs_bind.
  { apply runs_map_item_shape; [done|]. by intros [[_ ?] _]. }
  intros item Hitem. apply returns_map_item_shape in Hitem; [|done].
  pose proof (aliases_known_push v alias item Ha Hitem) as Ha'.
  eapply runs_ext; [|eapply (runs_scoped v _ alias item (map_body template entries path)
                           (λ ct, let* t := need ct.2 in ret (TMap e alias ct.1 t)))].
  - intros s. unfold bind, update. by destruct (map_body _ _ _ _) as [[[]|] ?].
  - intros s. apply map_body_present.
  - apply runs_map_body; [done|]. intros e' path' He'. by apply Ht.
  - intros [cond t]. eapply runs_bind.
    { apply runs_need. intros [[[[[_ Hreq] _] _] _] [_ Hv]]. apply Hv.
      by repeat (apply Forall_cons in Hreq as [? Hreq]). }
    intros t' _. apply runs_ret. cbn [fst snd]. intros [[[[_ Halias] (sh & Hsh & Hi)] [Hc _]] Ht'].
    exists sh, item. split_and!; try done.
Qed.

Lemma runs_input_template v value path :
  aliases_known v → runs v True (input_template value path) (input_resolves v).
Proof.
  revert v path.
  induction value as [s|b s|n s|text s|items s IH|entries s IH] using ConfigValue_ind_nested;
    intros v path Ha; cbn [input_template].
  - by apply runs_ret.
  - by apply runs_ret.
  - by apply runs_ret.
  - eapply runs_weaken; [by apply runs_string_template|done|].
    intros t _. apply text_template_resolves.
  - eapply runs_bind.
    { apply (runs_collect_all _ _ _ (λ _, input_resolves v)). eapply Forall_impl; [exact IH|].
      intros item Hitem j. by apply Hitem. }
    intros ts _. apply runs_ret. intros [_ Hts]. simpl.
    induction Hts as [|x t items ts Ht Hts IHts]; [done|]. apply Forall_cons in IH as [_ IH]. by split; [|apply IHts].
  - destruct (has_field entries "map") eqn:Emap.
    + apply runs_map_template; [done|]. intros v' e path' He Ha'. rewrite Forall_forall in IH. by apply IH.
    + eapply runs_bind.
      { apply (runs_collect_all _ _ _ (λ _ kt, input_resolves v kt.2)). eapply Forall_impl; [exact IH|].
        intros e He j. eapply (runs_bind _ _ _ _ any).
        - destruct (str_contains _ _); [apply runs_diagnose|by apply runs_ret].
        - intros [] _. eapply runs_bind; [by apply runs_pre, He|]. intros t _. apply runs_ret. tauto. }
      intros ts _. apply runs_ret. intros [_ Hts]. simpl. clear IH Emap.
      induction Hts as [|x t items ts Ht Hts IHts]; [done|]. by split.
Qed.
End templates.
