(* ===== verification/Triggers.v ===== *)
(** * Compilation of triggers (crates/antiburn-checks/src/compiler/triggers.rs, compiler.rs)

    The [on] block of a definition: its event alternatives with their filters,
    the rolling window and the cooldown. *)

From S2P Require Import Prelude RustString Json Diagnostics Yaml Expression Filters Domain Template Decision Check Access Compiler.

#[local] Open Scope N_scope.

Definition MAX_WINDOW_SIZE : N := 40.

(** [text.parse::<u64>()] *)
Definition u64_from_str (text : string) : option N :=
  let digits := match text with String "+"%char rest => rest | _ => text end in
  if negb (String.eqb digits "") && str_all is_ascii_digit digits then
    let n := RustFloat.digits_value 0 digits in
    if n <=? U64_MAX then Some n else None
  else None.

Definition checked_mul_u64 (x y : N) : option N :=
  let p := x * y in if p <=? U64_MAX then Some p else None.

Definition filters_default : EventFilters :=
  {| ef_tools := None; ef_statuses := None; ef_models := None; ef_fast_mode := None;
     ef_paths := None; ef_paths_ignore := None; ef_reasons := None |}.

Definition with_tools (x : option (list ToolCategory)) (f : EventFilters) : EventFilters :=
  {| ef_tools := x; ef_statuses := ef_statuses f; ef_models := ef_models f;
     ef_fast_mode := ef_fast_mode f; ef_paths := ef_paths f; ef_paths_ignore := ef_paths_ignore f;
     ef_reasons := ef_reasons f |}.
Definition with_statuses (x : option (list ToolResultStatus)) (f : EventFilters) : EventFilters :=
  {| ef_tools := ef_tools f; ef_statuses := x; ef_models := ef_models f;
     ef_fast_mode := ef_fast_mode f; ef_paths := ef_paths f; ef_paths_ignore := ef_paths_ignore f;
     ef_reasons := ef_reasons f |}.
Definition with_models (x : option (list string)) (f : EventFilters) : EventFilters :=
  {| ef_tools := ef_tools f; ef_statuses := ef_statuses f; ef_models := x;
     ef_fast_mode := ef_fast_mode f; ef_paths := ef_paths f; ef_paths_ignore := ef_paths_ignore f;
     ef_reasons := ef_reasons f |}.
Definition with_fast_mode (x : option bool) (f : EventFilters) : EventFilters :=
  {| ef_tools := ef_tools f; ef_statuses := ef_statuses f; ef_models := ef_models f;
     ef_fast_mode := x; ef_paths := ef_paths f; ef_paths_ignore := ef_paths_ignore f;
     ef_reasons := ef_reasons f |}.
Definition with_paths (x : option (list RepositoryGlob)) (f : EventFilters) : EventFilters :=
  {| ef_tools := ef_tools f; ef_statuses := ef_statuses f; ef_models := ef_models f;
     ef_fast_mode := ef_fast_mode f; ef_paths := x; ef_paths_ignore := ef_paths_ignore f;
     ef_reasons := ef_reasons f |}.
Definition with_paths_ignore (x : option (list RepositoryGlob)) (f : EventFilters) : EventFilters :=
  {| ef_tools := ef_tools f; ef_statuses := ef_statuses f; ef_models := ef_models f;
     ef_fast_mode := ef_fast_mode f; ef_paths := ef_paths f; ef_paths_ignore := x;
     ef_reasons := ef_reasons f |}.
Definition with_reasons (x : option (list SessionStartReason)) (f : EventFilters) : EventFilters :=
  {| ef_tools := ef_tools f; ef_statuses := ef_statuses f; ef_models := ef_models f;
     ef_fast_mode := ef_fast_mode f; ef_paths := ef_paths f; ef_paths_ignore := ef_paths_ignore f;
     ef_reasons := x |}.

(** ** Names *)

Definition tool_category (text : string) : option ToolCategory :=
  if String.eqb text "shell" then Some CatShell
  else if String.eqb text "read" then Some CatRead
  else if String.eqb text "search" then Some CatSearch
  else if String.eqb text "edit" then Some CatEdit
  else if String.eqb text "write" then Some CatWrite
  else if String.eqb text "delegate" then Some CatDelegate
  else if String.eqb text "skill" then Some CatSkill
  else if String.eqb text "mcp" then Some CatMcp
  else if String.eqb text "other" then Some CatOther
  else None.

Definition result_status (text : string) : option ToolResultStatus :=
  if String.eqb text "completed" then Some StatusCompleted
  else if String.eqb text "error" then Some StatusError
  else if String.eqb text "cancelled" then Some StatusCancelled
  else if String.eqb text "unknown" then Some StatusUnknown
  else None.

Definition start_reason (text : string) : option SessionStartReason :=
  if String.eqb text "new" then Some StartNew
  else if String.eqb text "resumed" then Some StartResumed
  else if String.eqb text "attached" then Some StartAttached
  else None.

Section triggers.
Context `{SerdeNumber}.

(** ** Lists *)

(** The loop that the filters share: the texts of the items that are strings and
    that do not repeat an earlier one. *)
Fixpoint distinct_texts (duplicate path : string) (seen : gset string) (items : list ConfigValue) :
    C (list (ConfigValue * string)) :=
  match items with
  | [] => ret []
  | item :: items =>
      let* text := attempt (string_ item path) in
      match text with
      | None => distinct_texts duplicate path seen items
      | Some text =>
          if bool_decide (text ∈ seen) then
            do* invalid_value item path duplicate;
            distinct_texts duplicate path seen items
          else
            let* rest := distinct_texts duplicate path ({[text]} ∪ seen) items in
            ret ((item, text) :: rest)
      end
  end.

(** The loop of [parse_tools] and [parse_statuses]: an unknown name is reported at
    its place among the other errors. *)
Fixpoint named_items {A} (parse : string → option A) (duplicate unknown path : string)
    (seen : gset string) (items : list ConfigValue) : C (list A) :=
  match items with
  | [] => ret []
  | item :: items =>
      let* text := attempt (string_ item path) in
      match text with
      | None => named_items parse duplicate unknown path seen items
      | Some text =>
          if bool_decide (text ∈ seen) then
            do* invalid_value item path duplicate;
            named_items parse duplicate unknown path seen items
          else
            match parse text with
            | None =>
                do* invalid_value item path unknown;
                named_items parse duplicate unknown path ({[text]} ∪ seen) items
            | Some a =>
                let* rest := named_items parse duplicate unknown path ({[text]} ∪ seen) items in
                ret (a :: rest)
            end
      end
  end.

Definition parse_tools (value : ConfigValue) (path : string) : C (list ToolCategory) :=
  let* items := sequence value path in
  match items with
  | [] => do* invalid_value value path "The tool category list must not be empty."; absent
  | _ => named_items tool_category "Tool categories must be unique."
           "Unknown normalized tool category." path ∅ items
  end.

Definition parse_statuses (value : ConfigValue) (path : string) : C (list ToolResultStatus) :=
  let* items := sequence value path in
  match items with
  | [] => do* invalid_value value path "The result status list must not be empty."; absent
  | _ => named_items result_status "Result statuses must be unique."
           "Unknown tool-result status." path ∅ items
  end.

Definition unique_strings (value : ConfigValue) (path : string) : C (list (ConfigValue * string)) :=
  let* items := sequence value path in
  do* (match items with
       | [] => invalid_value value path "The filter list must not be empty."
       | _ => ret tt
       end);
  distinct_texts "Filter values must be unique." path ∅ items.

Definition parse_models (value : ConfigValue) (path : string) : C (list string) :=
  let* items := unique_strings value path in
  do* each (λ it,
    if str_contains (snd it) opening then
      invalid_value (fst it) path "Model filters must be fixed text without `${{`."
    else if negb (is_model_identifier (snd it)) then
      invalid_value (fst it) path
        "Use an exact provider/model identifier with nonempty segments and no whitespace."
    else ret tt) items;
  ret (snd <$> items).

Definition parse_path_globs (value : ConfigValue) (path : string) : C (list RepositoryGlob) :=
  let* items := unique_strings value path in
  collect_present (λ _ it,
    match RepositoryGlob_parse (snd it) with
    | Ok glob => ret glob
    | Err msg => do* invalid_value (fst it) path msg; absent
    end) 0 items.

Definition parse_reasons (value : ConfigValue) (path : string) : C (list SessionStartReason) :=
  let* items := unique_strings value path in
  collect_present (λ _ it,
    match start_reason (snd it) with
    | Some reason => ret reason
    | None => do* invalid_value (fst it) path "Unknown session-start reason."; absent
    end) 0 items.

(** ** The rolling window *)

(** A field of the window's mapping that must be a number. *)
Definition window_number (path : string) (v : ConfigValue) : C (ConfigValue * Number) :=
  match cv_kind v with
  | CfgNumber n => ret (v, n)
  | _ => do* invalid_type v path "a positive integer"; absent
  end.

(** The authored size and minimum with their places. *)
Definition window_numbers (value : ConfigValue) :
    C (option (ConfigValue * Number) * option (ConfigValue * Number)) :=
  match cv_kind value with
  | CfgNumber n => ret (Some (value, n), None)
  | CfgMapping fields =>
      do* allowed_fields fields ["size"; "min"] "on.window";
      do* (if has_field fields "size" then ret tt else missing_field value "on.window.size");
      let* size := on_field (window_number "on.window.size") "size" fields in
      let* min := on_field (window_number "on.window.min") "min" fields in
      ret (size, min)
  | _ =>
      do* invalid_type value "on.window" "a positive integer or an object with size and min"; absent
  end.

(** The minimum, one when it is absent or not an integer. *)
Definition window_minimum (minimum : option (ConfigValue * Number)) : C N :=
  match minimum with
  | None => ret 1
  | Some (sp, n) =>
      match number_as_u64 n with
      | Some n => ret n
      | None => do* invalid_window sp "Window minimum must be a positive integer."; ret 1
      end
  end.

Definition parse_window (value : ConfigValue) : C RollingWindow :=
  let* '(size_value, minimum_value) := window_numbers value in
  let* '(size_span, size_number) := need size_value in
  match number_as_u64 size_number with
  | None => do* invalid_window size_span "Window size must be a positive integer."; absent
  | Some size =>
      let* minimum := window_minimum minimum_value in
      let bad_size := (size =? 0) || (MAX_WINDOW_SIZE <? size) in
      let bad_minimum := (minimum =? 0) || (size <? minimum) in
      do* (if bad_size then
             invalid_window size_span "Window size must be between 1 and 40 messages."
           else ret tt);
      do* (if bad_minimum then
             invalid_window (match minimum_value with Some m => fst m | None => value end)
               "Window minimum must be positive and must not exceed size."
           else ret tt);
      if bad_size || bad_minimum then absent
      else ret {| w_size := size mod 256; w_minimum := minimum mod 256 |}
  end.

(** ** The cooldown *)

(** The text without its last byte and the multiplier of that byte. *)
Definition cooldown_unit (text : string) : option (string * N) :=
  let digits := str_take (String.length text - 1) text in
  match String.get (String.length text - 1) text with
  | Some "s"%char => Some (digits, 1)
  | Some "m"%char => Some (digits, 60)
  | Some "h"%char => Some (digits, 3600)
  | _ => None
  end.

Definition canonical_digits (digits : string) : bool :=
  String.eqb digits "0"
  || (negb (String.eqb digits "") && negb (starts_with digits "0") && str_all is_ascii_digit digits).

(** In milliseconds. *)
Definition parse_cooldown (value : ConfigValue) (path : string) : C N :=
  let* text := string_ value path in
  match cooldown_unit text with
  | None => do* invalid_cooldown value path "Cooldown must end in s, m, or h."; absent
  | Some (digits, multiplier) =>
      let seconds := n ← u64_from_str digits; checked_mul_u64 n multiplier in
      if negb (canonical_digits digits) || negb (is_some seconds) then
        do* invalid_cooldown value path "Cooldown must be a bounded integer duration such as 60s or 5m.";
        absent
      else
        match seconds with
        | Some seconds => ret (seconds * 1000)
        | None => fail CompilePanicked
        end
  end.

(** ** Event alternatives *)

Definition events : list string :=
  ["tool_result"; "user_message"; "assistant_message"; "tool_call"; "turn_end"; "session_start";
   "session_idle"].

Definition is_event (key : string) : bool := existsb (String.eqb key) events.

(** [family]: 0 for messages, 1 for response cycles, 2 for sessions. *)
Definition event_family (name : string) : N :=
  if String.eqb name "turn_end" then 1
  else if String.eqb name "session_start" || String.eqb name "session_idle" then 2
  else 0.

Definition event_allowed (event : string) : list string :=
  (["models"; "fast_mode"] ++
   (if String.eqb event "tool_call" || String.eqb event "tool_result"
    then ["tools"; "paths"; "paths-ignore"] else []) ++
   (if String.eqb event "tool_result" || String.eqb event "turn_end" then ["status"] else []) ++
   (if String.eqb event "session_start" then ["reason"] else []))%list.

(** One field of an event: the update of the filters. *)
Definition event_field (event path : string) (field : ConfigEntry) (f : EventFilters) : C EventFilters :=
  let value := ce_value field in
  let path := dotted path (ce_key field) in
  if String.eqb (ce_key field) "tools" then
    let* x := attempt (parse_tools value path) in ret (with_tools x f)
  else if String.eqb (ce_key field) "status" then
    let* x := attempt (parse_statuses value path) in
    do* (if String.eqb event "turn_end"
            && match x with Some l => bool_decide (StatusUnknown ∈ l) | None => false end then
           invalid_value value path "A response-cycle status must be completed, cancelled, or error."
         else ret tt);
    ret (with_statuses x f)
  else if String.eqb (ce_key field) "models" then
    let* x := attempt (parse_models value path) in ret (with_models x f)
  else if String.eqb (ce_key field) "fast_mode" then
    match cv_kind value with
    | CfgBoolean mode => ret (with_fast_mode (Some mode) f)
    | _ => do* invalid_type value path "a literal Boolean"; ret f
    end
  else if String.eqb (ce_key field) "paths" then
    let* x := attempt (parse_path_globs value path) in ret (with_paths x f)
  else if String.eqb (ce_key field) "paths-ignore" then
    let* x := attempt (parse_path_globs value path) in ret (with_paths_ignore x f)
  else if String.eqb (ce_key field) "reason" then
    let* x := attempt (parse_reasons value path) in ret (with_reasons x f)
  else ret f.

Definition event_filters (value : ConfigValue) (event : string) : C EventFilters :=
  let path := dotted "on" event in
  match cv_kind value with
  | CfgNull => ret filters_default
  | _ =>
      let* fields := mapping value path in
      do* allowed_fields fields (event_allowed event) path;
      foldM (λ f field, event_field event path field f) fields filters_default
  end.

(** The filters of the selected events, the last of a name. *)
Definition alternatives (selected : list ConfigEntry) : C (gmap string (option EventFilters)) :=
  foldM (λ m entry,
    let* filters := attempt (event_filters (ce_value entry) (ce_key entry)) in
    ret (<[ce_key entry := filters]> m)) selected ∅.

Definition alternative (m : gmap string (option EventFilters)) (name : string) : option EventFilters :=
  default None (m !! name).

Definition trigger_family (scope : N) (m : gmap string (option EventFilters))
    (selected : list ConfigEntry) : TriggerFamily :=
  if scope =? 0 then
    Messages (has_field selected "tool_result") (alternative m "user_message")
      (alternative m "assistant_message") (alternative m "tool_call")
  else if scope =? 1 then ResponseCycle (default filters_default (alternative m "turn_end"))
  else Session (alternative m "session_start") (alternative m "session_idle").

(** The cooldown of a block, [default_cooldown] where there is no field. *)
Definition trigger_cooldown (fields : list ConfigEntry) (default_cooldown : N) : C N :=
  match find_field fields "cooldown" with
  | None => ret default_cooldown
  | Some entry => parse_cooldown (ce_value entry) "on.cooldown"
  end.

Definition compile_trigger (default_cooldown : N) (value : ConfigValue) : C ToolResultTrigger :=
  let* fields := mapping value "on" in
  do* allowed_fields fields ("window" :: "cooldown" :: events) "on";
  let selected := List.filter (λ e, is_event (ce_key e)) fields in
  match selected with
  | [] => do* missing_field value "on event"; absent
  | first :: _ =>
      let scope := event_family (ce_key first) in
      do* (if existsb (λ e, negb (event_family (ce_key e) =? scope)) selected then
             invalid_value value "on" "Select events from exactly one family."
           else ret tt);
      do* (match find_field fields "window" with
           | Some window =>
               if negb (scope =? 0) then
                 invalid_value (ce_value window) "on.window"
                   "Only message-family checks can configure a window."
               else ret tt
           | None => ret tt
           end);
      let* m := alternatives selected in
      let result := default filters_default (alternative m "tool_result") in
      let family := trigger_family scope m selected in
      let* window := on_field parse_window "window" fields in
      let* cooldown := trigger_cooldown fields default_cooldown in
      ret {| tr_family := family; tr_tools := ef_tools result; tr_statuses := ef_statuses result;
             tr_models := ef_models result; tr_fast_mode := ef_fast_mode result;
             tr_paths := ef_paths result; tr_paths_ignore := ef_paths_ignore result;
             tr_window := window; tr_cooldown := cooldown |}
  end.
End triggers.
