(* ===== verification/TriggerFacts.v ===== *)
(** * Facts about the compilation of triggers (crates/antiburn-checks/src/compiler/triggers.rs)

    The filters, the window and the cooldown of a trigger that is compiled without
    a diagnostic. *)

From S2P Require Import Prelude RustString Json Diagnostics Yaml Expression Filters Domain Template Decision Check Access AccessFacts Compiler CompilerFacts Triggers.

#[local] Open Scope N_scope.

(** ** What a trigger is *)

(** An authored filter list has items, none twice, all of which are valid. *)
Definition filter_list {A} (P : A → Prop) (o : option (list A)) : Prop :=
  match o with Some l => l ≠ [] ∧ NoDup l ∧ Forall P l | None => True end.

Definition model_ok (m : string) : Prop :=
  is_model_identifier m = true ∧ str_contains m opening = false.

Definition glob_ok (g : RepositoryGlob) : Prop := RepositoryGlob_parse (pattern g) = Ok g.

Definition filters_ok (f : EventFilters) : Prop :=
  filter_list any (ef_tools f) ∧ filter_list any (ef_statuses f) ∧ filter_list model_ok (ef_models f) ∧
  filter_list glob_ok (ef_paths f) ∧ filter_list glob_ok (ef_paths_ignore f) ∧
  filter_list any (ef_reasons f).

Definition optional_filters_ok (o : option EventFilters) : Prop :=
  match o with Some f => filters_ok f | None => True end.

Definition window_ok (w : RollingWindow) : Prop :=
  1 ≤ w_minimum w ≤ w_size w ∧ w_size w ≤ MAX_WINDOW_SIZE.

(** A response cycle is never selected by an unknown status. *)
Definition family_ok (f : TriggerFamily) : Prop :=
  match f with
  | Messages _ user assistant call =>
      optional_filters_ok user ∧ optional_filters_ok assistant ∧ optional_filters_ok call
  | ResponseCycle f => filters_ok f ∧ StatusUnknown ∉ default [] (ef_statuses f)
  | Session start idle => optional_filters_ok start ∧ optional_filters_ok idle
  end.

Definition trigger_ok (t : ToolResultTrigger) : Prop :=
  family_ok (tr_family t) ∧
  filters_ok {| ef_tools := tr_tools t; ef_statuses := tr_statuses t; ef_models := tr_models t;
                ef_fast_mode := tr_fast_mode t; ef_paths := tr_paths t;
                ef_paths_ignore := tr_paths_ignore t; ef_reasons := None |} ∧
  match tr_window t with
  | Some w => window_ok w ∧ match tr_family t with Messages _ _ _ _ => True | _ => False end
  | None => True
  end ∧
  tr_cooldown t mod 1000 = 0 ∧ tr_cooldown t ≤ 1000 * U64_MAX.

(** ** Lists *)

Lemma NoDup_of_texts {A} (f : A → string) (l : list A) texts :
  NoDup texts → Forall2 (λ t a, t = f a) texts l → NoDup l.
Proof.
  intros Hn Ht. apply (NoDup_fmap_1 f). replace (f <$> l) with texts; [done|].
  induction Ht as [|t a texts l -> Ht IH]; [done|]. apply NoDup_cons in Hn as [_ Hn].
  rewrite fmap_cons. f_equal. by apply IH.
Qed.

Definition status_text (s : ToolResultStatus) : string :=
  match s with
  | StatusCompleted => "completed" | StatusError => "error" | StatusCancelled => "cancelled"
  | StatusUnknown => "unknown"
  end.

Definition reason_text (r : SessionStartReason) : string :=
  match r with StartNew => "new" | StartResumed => "resumed" | StartAttached => "attached" end.

(** The names read back. *)
Ltac names := repeat match goal with
  | |- context [String.eqb ?t ?n] => destruct (String.eqb_spec t n) as [->|_]; [by intros [= <-]|]
  end; done.

Lemma tool_category_text t c : tool_category t = Some c → t = ToolCategory_as_str c.
Proof. unfold tool_category. names. Qed.

Lemma result_status_text t s : result_status t = Some s → t = status_text s.
Proof. unfold result_status. names. Qed.

Lemma start_reason_text t r : start_reason t = Some r → t = reason_text r.
Proof. unfold start_reason. names. Qed.

Section facts.
Context `{SerdeNumber}.
Variable v : Validator.

Lemma runs_distinct_texts P duplicate path seen items :
  runs v P (distinct_texts duplicate path seen items) (λ l,
    length l = length items ∧ NoDup l.*2 ∧ (∀ t, t ∈ l.*2 → t ∉ seen)).
Proof.
  revert P seen. induction items as [|item items IH]; intros P seen.
  - apply runs_ret. intros _. split_and!; [done|constructor|set_solver].
  - cbn [distinct_texts]. eapply (runs_bind _ _ _ _ (λ o, is_Some o)).
    { eapply runs_weaken; [apply runs_attempt, (runs_string v True)|done|].
      intros o _ (t & -> & _). by eexists. }
    intros [text|] _; [|eapply runs_weaken; [apply (IH False seen)|by intros [_ [? [=]]]|by intros ? [_ [? [=]]]]].
    case_bool_decide as Hin.
    + apply runs_reported. eapply runs_weaken; [apply (IH False seen)|done|by intros ? []].
    + eapply runs_bind; [apply (IH _ ({[text]} ∪ seen))|]. intros rest _. apply runs_ret.
      intros (_ & Hl & Hn & Hd). simpl. split_and!; [by f_equal| |].
      * constructor; [|done]. intros Hx. apply (Hd _ Hx). set_solver.
      * intros t [->|Ht]%elem_of_cons; [done|]. specialize (Hd _ Ht). set_solver.
Qed.

Lemma runs_named_items {A} (parse : string → option A) (f : A → string) P duplicate unknown path seen items :
  (∀ t a, parse t = Some a → t = f a) →
  runs v P (named_items parse duplicate unknown path seen items) (λ l,
    length l = length items ∧
    ∃ texts, NoDup texts ∧ Forall2 (λ t a, t = f a) texts l ∧ (∀ t, t ∈ texts → t ∉ seen)).
Proof.
  intros Hparse. revert P seen. induction items as [|item items IH]; intros P seen.
  - apply runs_ret. intros _. split; [done|]. exists []. split_and!; [constructor|constructor|set_solver].
  - cbn [named_items]. eapply (runs_bind _ _ _ _ (λ o, is_Some o)).
    { eapply runs_weaken; [apply runs_attempt, (runs_string v True)|done|].
      intros o _ (t & -> & _). by eexists. }
    intros [text|] _; [|eapply runs_weaken; [apply (IH False seen)|by intros [_ [? [=]]]|by intros ? [_ [? [=]]]]].
    case_bool_decide as Hin.
    + apply runs_reported. eapply runs_weaken; [apply (IH False seen)|done|by intros ? []].
    + destruct (parse text) as [a|] eqn:Ea.
      * eapply runs_bind; [apply (IH _ ({[text]} ∪ seen))|]. intros rest _. apply runs_ret.
        intros (_ & Hl & texts & Hn & Ht & Hd). simpl. split; [by f_equal|].
        exists (text :: texts). split_and!.
        -- constructor; [|done]. intros Hx. apply (Hd _ Hx). set_solver.
        -- constructor; [by apply Hparse|done].
        -- intros t [->|Hx]%elem_of_cons; [done|]. specialize (Hd _ Hx). set_solver.
      * apply runs_reported. eapply runs_weaken; [apply (IH False)|done|by intros ? []].
Qed.

(** A list of names: what [parse_tools] and [parse_statuses] share. *)
Lemma runs_names {A} (parse : string → option A) (f : A → string) P duplicate unknown path item items :
  (∀ t a, parse t = Some a → t = f a) →
  runs v P (named_items parse duplicate unknown path ∅ (item :: items))
    (λ l, filter_list any (Some l)).
Proof.
  intros Hparse. eapply runs_weaken; [by eapply runs_named_items|done|].
  intros l _ (Hl & texts & Hn & Ht & _). simpl in Hl. split_and!.
  - by destruct l.
  - by eapply NoDup_of_texts.
  - by apply Forall_true.
Qed.

Lemma runs_parse_tools P value path :
  runs v P (parse_tools value path) (λ l, filter_list any (Some l)).
Proof.
  unfold parse_tools. eapply runs_bind; [apply runs_sequence|]. intros [|item items] _; [apply runs_refused|].
  eapply runs_names, tool_category_text.
Qed.

Lemma runs_parse_statuses P value path :
  runs v P (parse_statuses value path) (λ l, filter_list any (Some l)).
Proof.
  unfold parse_statuses. eapply runs_bind; [apply runs_sequence|].
  intros [|item items] _; [apply runs_refused|]. eapply runs_names, result_status_text.
Qed.

Lemma runs_unique_strings P value path :
  runs v P (unique_strings value path) (λ l, l ≠ [] ∧ NoDup l.*2).
Proof.
  unfold unique_strings. eapply runs_bind; [apply runs_sequence|]. intros items _.
  eapply (runs_bind _ _ _ _ (λ _, items ≠ [])).
  { destruct items; [apply runs_diagnose|by apply runs_ret]. }
  intros [] _. eapply runs_weaken; [apply (runs_distinct_texts True)|done|].
  intros l [_ Hne] (Hl & Hn & _). split; [|done]. by destruct l, items.
Qed.

Lemma runs_parse_models P value path :
  runs v P (parse_models value path) (λ l, filter_list model_ok (Some l)).
Proof.
  unfold parse_models. eapply runs_bind; [apply runs_unique_strings|]. intros items _.
  eapply (runs_bind _ _ _ _ (λ _, Forall (λ it, model_ok it.2) items)).
  { apply runs_each. intros it _. unfold model_ok. destruct (str_contains it.2 opening); [apply runs_diagnose|].
    destruct (is_model_identifier it.2); [by apply runs_ret|apply runs_diagnose]. }
  intros [] _. apply runs_ret. intros [[_ [Hne Hn]] Hall]. split_and!; [by destruct items|done|].
  by apply Forall_fmap.
Qed.

(** A filter list whose items are parsed one by one. *)
Lemma runs_parsed {A} (f : A → string) (Q : A → Prop) P value path
    (g : ConfigValue * string → C A) :
  (∀ it, runs v True (g it) (λ a, it.2 = f a ∧ Q a)) →
  runs v P (let* items := unique_strings value path in collect_present (λ _ it, g it) 0 items)
    (λ l, filter_list Q (Some l)).
Proof.
  intros Hg. eapply runs_bind; [apply runs_unique_strings|]. intros items _.
  eapply runs_weaken.
  { apply (runs_collect_present _ True _ (λ it a, it.2 = f a ∧ Q a)). intros j it _. apply Hg. }
  { done. }
  intros l [_ [Hne Hn]] Hl. split_and!.
  - by destruct Hl.
  - eapply (NoDup_of_texts f); [exact Hn|]. clear -Hl. induction Hl as [|it a items l [? _] Hl IH]; [constructor|].
    rewrite fmap_cons. by constructor.
  - clear -Hl. induction Hl as [|it a items l [_ ?] Hl IH]; by constructor.
Qed.

Lemma runs_parse_path_globs P value path :
  runs v P (parse_path_globs value path) (λ l, filter_list glob_ok (Some l)).
Proof.
  unfold parse_path_globs. eapply (runs_parsed pattern). intros it.
  destruct (RepositoryGlob_parse it.2) as [g|msg] eqn:Eg; [|apply runs_refused]. apply runs_ret. intros _.
  assert (it.2 = pattern g) as Hp.
  { unfold RepositoryGlob_parse in Eg. destruct (_ || _); [done|]. by injection Eg as <-. }
  split; [done|]. unfold glob_ok. by rewrite <- Hp.
Qed.

Lemma runs_parse_reasons P value path :
  runs v P (parse_reasons value path) (λ l, filter_list any (Some l)).
Proof.
  unfold parse_reasons. eapply (runs_parsed reason_text). intros it.
  destruct (start_reason it.2) as [r|] eqn:Er; [|apply runs_refused]. apply runs_ret. intros _.
  split; [by apply start_reason_text|done].
Qed.

(** ** The window *)

Lemma runs_window_numbers P value :
  runs v P (window_numbers value) (λ r, r.1 ≠ None).
Proof.
  unfold window_numbers. destruct (cv_kind value) as [|b|n|text|items|fields]; try apply runs_refused.
  - by apply runs_ret.
  - eapply runs_bind; [apply runs_allowed_fields|]. intros [] _.
    eapply (runs_bind _ _ _ _ (λ _, has_field fields "size" = true)).
    { destruct (has_field fields "size"); [by apply runs_ret|apply runs_diagnose]. }
    intros [] _. eapply runs_bind.
    { apply (runs_on_field _ _ _ (λ _, any)). intros e _. unfold window_number.
      destruct (cv_kind (ce_value e)); try apply runs_refused. by apply runs_ret. }
    intros size _. eapply (runs_bind _ _ _ _ any).
    { eapply runs_weaken; [apply (runs_on_field v True _ (λ _, any))|done|done]. intros e _. unfold window_number.
      destruct (cv_kind (ce_value e)); try apply runs_refused. by apply runs_ret. }
    intros min _. apply runs_ret. intros [[[_ Hsize] Hs] _].
    apply has_find_field in Hsize as [e He]. rewrite He in Hs. by destruct Hs as (? & -> & _).
Qed.

Lemma runs_parse_window P value : runs v P (parse_window value) window_ok.
Proof.
  unfold parse_window. eapply runs_bind; [apply runs_window_numbers|].
  intros [size_value minimum_value] _. eapply (runs_bind _ _ _ _ any).
  { apply runs_need. intros [_ Hs]. destruct size_value as [r|]; [by exists r|done]. }
  intros [sp n] _. destruct (number_as_u64 n) as [size|]; [|apply runs_refused].
  eapply (runs_bind _ _ _ _ any).
  { unfold window_minimum. destruct minimum_value as [[sp' n']|]; [|by apply runs_ret].
    destruct (number_as_u64 n'); [by apply runs_ret|]. apply runs_reported. by apply runs_ret. }
  intros minimum _. eapply runs_bind; [apply runs_unless|]. intros [] _.
  eapply runs_bind; [apply runs_unless|]. intros [] _.
  match goal with |- runs _ _ (if ?b then absent else _) _ => destruct b eqn:Eb end.
  - apply runs_absent. intros [[_ Hs] Hm]. by rewrite Hs, Hm in Eb.
  - apply runs_ret. intros _. apply orb_false_iff in Eb as [[Hs0 Hs]%orb_false_iff [Hm0 Hm]%orb_false_iff].
    apply N.eqb_neq in Hs0, Hm0. apply N.ltb_ge in Hs, Hm. unfold MAX_WINDOW_SIZE in *.
    unfold window_ok. simpl. rewrite !N.mod_small by lia. unfold MAX_WINDOW_SIZE. lia.
Qed.

(** ** The cooldown *)

Lemma runs_parse_cooldown P value path :
  runs v P (parse_cooldown value path) (λ n, n mod 1000 = 0 ∧ n ≤ 1000 * U64_MAX).
Proof.
  unfold parse_cooldown. eapply runs_bind; [apply runs_string|]. intros text _.
  destruct (cooldown_unit text) as [[digits multiplier]|]; [|apply runs_refused].
  destruct (u64_from_str digits ≫= _) as [seconds|] eqn:Es; [|rewrite orb_true_r; apply runs_refused].
  destruct (_ || _); [apply runs_refused|]. apply runs_ret. intros _.
  apply bind_Some in Es as (n & _ & Hm). unfold checked_mul_u64 in Hm.
  destruct (N.leb_spec (n * multiplier) U64_MAX); [|done]. injection Hm as <-.
  split; [apply N.Div0.mod_mul|lia].
Qed.
(** ** Event alternatives *)

(** The filters of an event: those of a response cycle do not name [unknown]. *)
Definition event_ok (event : string) (f : EventFilters) : Prop :=
  filters_ok f ∧ (event = "turn_end" → StatusUnknown ∉ default [] (ef_statuses f)).

Lemma default_ok event : event_ok event filters_default.
Proof. split; [done|]. intros _. set_solver. Qed.

(** The field of a list becomes that list. *)
Lemma runs_list_field {A} P (m : C (list A)) (R : A → Prop) (up : option (list A) → EventFilters)
    (Q : EventFilters → Prop) :
  runs v P m (λ l, filter_list R (Some l)) →
  (∀ l, P → filter_list R (Some l) → Q (up (Some l))) →
  runs v P (let* x := attempt m in ret (up x)) Q.
Proof.
  intros Hm Hup. eapply runs_bind; [by apply runs_attempt|]. intros x _. apply runs_ret.
  intros (HP & l & -> & Hl). auto.
Qed.

Lemma runs_event_field P event path field f :
  runs v (P ∧ event_ok event f) (event_field event path field f) (event_ok event).
Proof.
  unfold event_field.
  destruct (String.eqb _ "tools").
  { eapply runs_list_field; [apply runs_parse_tools|]. unfold event_ok, filters_ok. simpl. tauto. }
  destruct (String.eqb _ "status").
  { eapply runs_bind; [apply runs_attempt, runs_parse_statuses|]. intros x _.
    eapply runs_bind; [apply runs_unless|]. intros [] _. apply runs_ret.
    intros [[[_ Hf] (l & -> & Hl)] Hu]. unfold event_ok, filters_ok in *. simpl in *. split; [tauto|].
    intros ->. by apply bool_decide_eq_false in Hu. }
  destruct (String.eqb _ "models").
  { eapply runs_list_field; [apply runs_parse_models|]. unfold event_ok, filters_ok. simpl. tauto. }
  destruct (String.eqb _ "fast_mode").
  { destruct (cv_kind _) as [|b| | | |]; try (apply runs_reported; by apply runs_ret).
    apply runs_ret. unfold event_ok, filters_ok. simpl. tauto. }
  destruct (String.eqb _ "paths").
  { eapply runs_list_field; [apply runs_parse_path_globs|]. unfold event_ok, filters_ok. simpl. tauto. }
  destruct (String.eqb _ "paths-ignore").
  { eapply runs_list_field; [apply runs_parse_path_globs|]. unfold event_ok, filters_ok. simpl. tauto. }
  destruct (String.eqb _ "reason"); [|apply runs_ret; tauto].
  eapply runs_list_field; [apply runs_parse_reasons|]. unfold event_ok, filters_ok. simpl. tauto.
Qed.

Lemma runs_event_filters P value event : runs v P (event_filters value event) (event_ok event).
Proof.
  unfold event_filters.
  assert (∀ P, runs v P
    (let* fields := mapping value (dotted "on" event) in
     do* allowed_fields fields (event_allowed event) (dotted "on" event);
     foldM (λ f field, event_field event (dotted "on" event) field f) fields filters_default)
    (event_ok event)) as Hfields.
  { clear P. intros P. eapply runs_bind; [apply runs_mapping|]. intros fields _.
    eapply runs_bind; [apply runs_allowed_fields|]. intros [] _.
    eapply runs_weaken; [apply (runs_foldM _ True _ (λ _, event_ok event))|done|done].
    - intros _. apply default_ok.
    - intros seen field f. apply runs_event_field. }
  destruct (cv_kind value); try apply Hfields. apply runs_ret. intros _. apply default_ok.
Qed.

Definition alternatives_ok (m : gmap string (option EventFilters)) : Prop :=
  ∀ name f, alternative m name = Some f → event_ok name f.

Lemma runs_alternatives P selected : runs v P (alternatives selected) alternatives_ok.
Proof.
  eapply runs_weaken; [apply (runs_foldM _ True _ (λ _, alternatives_ok))|done|done].
  - intros _ name f. unfold alternative. by rewrite lookup_empty.
  - intros seen entry m. eapply runs_bind; [apply runs_attempt, runs_event_filters|].
    intros o _. apply runs_ret. intros [[_ Hm] (f & -> & Hf)] name f'. unfold alternative.
    destruct (decide (name = ce_key entry)) as [->|Hne].
    + rewrite lookup_insert_eq. by intros [= <-].
    + rewrite lookup_insert_ne by done. apply Hm.
Qed.

Lemma alternative_optional m name :
  alternatives_ok m → optional_filters_ok (alternative m name).
Proof. intros Hm. destruct (alternative m name) eqn:Ea; [|done]. by apply Hm in Ea as [? _]. Qed.

Lemma alternative_default m name :
  alternatives_ok m → event_ok name (default filters_default (alternative m name)).
Proof. intros Hm. destruct (alternative m name) eqn:Ea; [by apply Hm|apply default_ok]. Qed.

Lemma trigger_family_ok scope m selected : alternatives_ok m → family_ok (trigger_family scope m selected).
Proof.
  intros Hm. unfold trigger_family. destruct (scope =? 0); [|destruct (scope =? 1)]; simpl.
  - split_and!; by apply alternative_optional.
  - destruct (alternative_default m "turn_end" Hm) as [? Hu]. split; [done|by apply Hu].
  - split; by apply alternative_optional.
Qed.

Lemma runs_trigger_cooldown P fields n :
  n mod 1000 = 0 ∧ n ≤ 1000 * U64_MAX →
  runs v P (trigger_cooldown fields n) (λ n, n mod 1000 = 0 ∧ n ≤ 1000 * U64_MAX).
Proof. intros Hn. unfold trigger_cooldown. destruct (find_field _ _); [apply runs_parse_cooldown|by apply runs_ret]. Qed.

Lemma runs_compile_trigger P n value :
  n mod 1000 = 0 ∧ n ≤ 1000 * U64_MAX → runs v P (compile_trigger n value) trigger_ok.
Proof.
  intros Hn. unfold compile_trigger. eapply runs_bind; [apply runs_mapping|]. intros fields _.
  eapply runs_bind; [apply runs_allowed_fields|]. intros [] _.
  destruct (List.filter (λ e, is_event (ce_key e)) fields) as [|first rest]; [apply runs_refused|].
  set (scope := event_family (ce_key first)).
  eapply runs_bind; [apply runs_unless|]. intros [] _.
  eapply (runs_bind _ _ _ _ (λ _, is_Some (find_field fields "window") → scope =? 0 = true)).
  { destruct (find_field fields "window"); [|by apply runs_ret; intros _ []].
    destruct (scope =? 0); [by apply runs_ret|apply runs_diagnose]. }
  intros [] _. eapply runs_bind; [apply runs_alternatives|]. intros m _.
  eapply runs_bind; [apply (runs_on_field _ _ _ (λ _, window_ok)); intros; apply runs_parse_window|].
  intros window _. eapply runs_bind; [by apply runs_trigger_cooldown|]. intros cooldown _.
  apply runs_ret. intros [[[[_ Hscope] Hm] Hw] [Hc Hc']].
  split; [by apply trigger_family_ok|]. split; [|split; [|done]].
  - destruct (alternative_default m "tool_result" Hm) as [(Ht & Hs & Hmo & Hp & Hpi & _) _].
    by split_and!.
  - cbn [tr_window tr_family]. destruct (find_field fields "window") as [e|]; [|by subst].
    destruct Hw as (w & -> & Hw). split; [done|]. unfold trigger_family. by rewrite Hscope.
Qed.
End facts.
