(* ===== verification/Compile.v ===== *)
(** * Compilation of checks (crates/antiburn-checks/src/compiler.rs)

    The decision blocks, the actions and the root of a definition, and the
    compilation of a definition file.  Every path and every message is the one
    that the diagnostics carry. *)

From S2P Require Import Prelude RustString Json Diagnostics Yaml Expression Fit Template Decision Check Access Compiler Triggers.

#[local] Open Scope N_scope.

Section compile.
Context `{SerdeNumber}.

(** ** Fit rules *)

Definition starts_at_input (segs : list FitPathSegment) (input : list (string * InputTemplate)) : bool :=
  match segs with
  | Field key :: _ => existsb (λ kv, String.eqb (fst kv) key) input
  | _ => false
  end.

(** One round of the loop of [compile_fit]; [continue] is an absence. *)
Definition fit_rule (path : string) (input : list (string * InputTemplate)) (rules : list FitRule)
    (entry : ConfigEntry) : C FitRule :=
  let field_path := dotted path (ce_key entry) in
  if MAX_FIT_PATH_BYTES <? str_len (ce_key entry) then
    do* invalid_value (ce_value entry) path
      ("Fit paths support at most " +:+ (pretty MAX_FIT_PATH_BYTES +:+ " bytes.")); absent
  else
    match parse_fit_path (ce_key entry) with
    | None =>
        do* invalid_value (ce_value entry) field_path
          "Fit paths require dot fields and optional [*] array traversals."; absent
    | Some segs =>
        if MAX_FIT_PATH_SEGMENTS <? N.of_nat (length segs) then
          do* invalid_value (ce_value entry) field_path
            ("Fit paths support at most " +:+ (pretty MAX_FIT_PATH_SEGMENTS +:+ " segments.")); absent
        else if negb (starts_at_input segs input) then
          do* invalid_value (ce_value entry) field_path
            "Fit paths must start at a declared decision input."; absent
        else
          let* text := string_ (ce_value entry) field_path in
          let* strategy :=
            if String.eqb text "recent" then ret Recent
            else if String.eqb text "truncate" then ret Truncate
            else
              do* invalid_value (ce_value entry) field_path "Fit strategy must be recent or truncate.";
              absent in
          if existsb (λ rule, paths_overlap (segments rule) segs) rules then
            do* invalid_value (ce_value entry) field_path "Fit targets must not overlap."; absent
          else ret {| rule_path := ce_key entry; segments := segs; rule_strategy := strategy |}
    end.

Definition compile_fit (value : ConfigValue) (path : string) (input : list (string * InputTemplate)) :
    C (list FitRule) :=
  let* entries := attempt (mapping value path) in
  match entries with
  | None => ret []
  | Some entries =>
      if MAX_FIT_RULES <? N.of_nat (length entries) then
        do* invalid_value value path ("Fit supports at most " +:+ (pretty MAX_FIT_RULES +:+ " rules."));
        ret []
      else
        foldM (λ rules entry,
          let* rule := attempt (fit_rule path input rules entry) in
          ret (rules ++ option_list rule)) entries []
  end.

(** ** Questions *)

Definition compile_choice_criteria (value : ConfigValue) (path : string) : C (list (string * string)) :=
  let* fields := mapping value path in
  do* (if N.of_nat (length fields) <? 2 then
         invalid_value value path "Choice criteria must contain at least two labels."
       else ret tt);
  collect_present (λ _ criterion,
    do* (if is_identifier (ce_key criterion) then ret tt
         else invalid_value (ce_value criterion) (dotted path (ce_key criterion))
                "Choice labels must match [a-z][a-z0-9_]*.");
    let* description := fixed_text (ce_value criterion) (dotted path (ce_key criterion)) in
    ret (ce_key criterion, description)) 0 fields.

Definition compile_score_criteria (value : ConfigValue) (path : string) : C (list string) :=
  let* items := sequence value path in
  do* (if N.of_nat (length items) <? 2 then
         invalid_value value path "Score criteria must contain at least two descriptions."
       else ret tt);
  collect_present (λ index item, fixed_text item (indexed path index)) 0 items.

(** The question of a kind; [kind_field] is the entry of the kind. *)
Definition question_of_kind (kind_field : option ConfigEntry) (kind question question_path : string)
    (criteria_value : option ConfigValue) : C Question :=
  let criteria_path := dotted question_path "criteria" in
  if String.eqb kind "choice" then
    let* value := need criteria_value in
    let* criteria := compile_choice_criteria value criteria_path in
    ret (Choice question criteria)
  else if String.eqb kind "score" then
    let* value := need criteria_value in
    let* criteria := compile_score_criteria value criteria_path in
    ret (Score question criteria)
  else if String.eqb kind "noul" then ret (Noul question)
  else
    match kind_field with
    | None => fail CompilePanicked
    | Some field =>
        do* unsupported (ce_value field) "Question type must be choice, score, or noul."
          (dotted question_path "type"); absent
    end.

Definition needs_criteria (kind : string) : bool := String.eqb kind "choice" || String.eqb kind "score".

Definition compile_question (path : string) (output : ConfigEntry) : C NamedQuestion :=
  do* (if is_identifier (ce_key output) then ret tt
       else invalid_value (ce_value output) path "Question names must match [a-z][a-z0-9_]*.");
  let question_path := dotted path (ce_key output) in
  let* fields := mapping (ce_value output) question_path in
  do* require_fields fields ["type"; "question"] (ce_value output) question_path;
  let kind_field := find_field fields "type" in
  let* kind := on_field (λ v, string_ v (dotted question_path "type")) "type" fields in
  let* kind := need kind in
  do* allowed_fields fields
    (if String.eqb kind "noul" then ["type"; "question"] else ["type"; "question"; "criteria"])
    question_path;
  let* question := on_field (λ v, fixed_text v (dotted question_path "question")) "question" fields in
  let criteria_value := ce_value <$> find_field fields "criteria" in
  do* (if needs_criteria kind && negb (is_some criteria_value) then
         missing_field (ce_value output) (dotted question_path "criteria")
       else ret tt);
  let* question := need question in
  let* q := question_of_kind kind_field kind question question_path criteria_value in
  ret {| q_name := ce_key output; q_question := q |}.

Definition compile_outputs (value : ConfigValue) (decision_path : string) : C (list NamedQuestion) :=
  let path := dotted decision_path "output" in
  let* fields := mapping value path in
  do* (if (N.of_nat (length fields) =? 0) || (MAX_QUESTIONS_PER_DECISION <? N.of_nat (length fields)) then
         invalid_value value path "Each decision requires one to eight questions."
       else ret tt);
  collect_present (λ _ output, compile_question path output) 0 fields.

(** ** Decisions *)

(** The [input] of a decision: the templates that compile. *)
Definition compile_input (path : string) (value : ConfigValue) : C (list (string * InputTemplate)) :=
  let* fields := mapping value path in
  do* (match fields with
       | [] => invalid_value value path "Decision input must not be empty."
       | _ => ret tt
       end);
  collect_present (λ _ field,
    do* (if is_identifier (ce_key field) then ret tt
         else invalid_value value path "Decision input names must match [a-z][a-z0-9_]*.");
    let* template := input_template (ce_value field) (dotted path (ce_key field)) in
    ret (ce_key field, template)) 0 fields.

Definition compile_decision (entry : ConfigEntry) : C DecisionBlock :=
  do* (if is_identifier (ce_key entry) then ret tt
       else invalid_value (ce_value entry) "decisions" "Decision names must match [a-z][a-z0-9_]*.");
  let block_path := dotted "decisions" (ce_key entry) in
  let* fields := mapping (ce_value entry) block_path in
  do* allowed_fields fields ["input"; "fit"; "output"] block_path;
  do* require_fields fields ["input"; "output"] (ce_value entry) block_path;
  let* input := on_field (compile_input (dotted block_path "input")) "input" fields in
  let* fit :=
    match find_field fields "fit" with
    | None => ret []
    | Some field => compile_fit (ce_value field) (dotted block_path "fit") (default [] input)
    end in
  let* outputs := on_field (λ v, compile_outputs v block_path) "output" fields in
  let* input := need input in
  let* outputs := need outputs in
  ret {| d_name := ce_key entry; d_input := TObject input; d_fit := fit; d_outputs := outputs |}.

Definition question_symbols (q : NamedQuestion) : QuestionSymbols :=
  {| qs_name := q_name q; qs_kind := kind (q_question q);
     qs_labels := match q_question q with Choice _ criteria => remove_dups criteria.*1 | _ => [] end;
     qs_criteria_count := criteria_count (q_question q) |}.

Definition decision_symbols (d : DecisionBlock) : DecisionSymbols :=
  {| ds_name := d_name d; ds_outputs := question_symbols <$> d_outputs d |}.

Definition compile_decisions (value : ConfigValue) : C (list DecisionBlock) :=
  let* entries := mapping value "decisions" in
  match entries with
  | [] => do* invalid_value value "decisions" "Decisions must contain at least one block."; absent
  | _ =>
      let* decisions := collect_present (λ _ entry, compile_decision entry) 0 entries in
      do* update (with_decisions (decision_symbols <$> decisions));
      ret decisions
  end.

(** ** Actions *)

Definition status_result (path : string) (value : ConfigValue) : C StatusResultTemplate :=
  let* text := string_ value path in
  if String.eqb text "failure" then ret (ResultLiteral Failure)
  else if String.eqb text "success" then ret (ResultLiteral Success)
  else if str_contains text opening then
    match whole_expression text with
    | Some body => let* e := expression body value path ActionCondition in ret (ResultExpression e)
    | None =>
        do* invalid_action value path "Status result must be a fixed result or a whole expression.";
        absent
    end
  else do* invalid_action value path "Status result must be exactly `success` or `failure`."; absent.

Definition status_message (path : string) (value : ConfigValue) : C InputTemplate :=
  let* text := string_ value path in
  if is_blank text then
    do* invalid_action value path "Status message must be a nonblank string."; absent
  else string_template text value path ActionCondition.

(** The [input] of a status action: its result and its message. *)
Definition status_input (path : string) (input : ConfigValue) :
    C (option StatusResultTemplate * option InputTemplate) :=
  let* fields := mapping input path in
  do* allowed_fields fields ["result"; "message"] path;
  do* require_fields fields ["result"] input path;
  match find_field fields "result" with
  | None => do* missing_field input (dotted path "result"); absent
  | Some field =>
      let* result := attempt (status_result (dotted path "result") (ce_value field)) in
      let* msg := on_field (status_message (dotted path "message")) "message" fields in
      ret (result, msg)
  end.

(** One round of the loop of [compile_actions]; [continue] is an absence. *)
Definition compile_action (index : N) (item : ConfigValue) : C StatusAction :=
  let path := indexed "actions" index in
  let* fields := mapping item path in
  do* require_fields fields ["type"; "input"] item path;
  let* kind := on_field (λ v, string_ v (dotted path "type")) "type" fields in
  if bool_decide (kind = Some "message") then
    do* unsupported item "Message actions are not supported yet." path; absent
  else if negb (bool_decide (kind = Some "status")) then
    do* invalid_action item path "Action type must be `status` or a supported v1 action."; absent
  else
    do* allowed_fields fields ["type"; "if"; "input"] path;
    let* cond := on_field (λ v, condition v (dotted path "if") ActionCondition) "if" fields in
    match find_field fields "input" with
    | None => do* missing_field item (dotted path "input"); absent
    | Some field =>
        let* '(result, msg) := status_input (dotted path "input") (ce_value field) in
        let* result := need result in
        ret {| sa_condition := cond; sa_result := result; sa_message := msg |}
    end.

Definition compile_actions (value : ConfigValue) : C (list StatusAction) :=
  let* items := sequence value "actions" in
  do* (match items with
       | [] => invalid_value value "actions" "At least one action is required."
       | _ => ret tt
       end);
  collect_present compile_action 0 items.

(** ** The root *)

Definition default_cooldown (fields : list ConfigEntry) : N :=
  if has_field fields "decisions" then 60000 else 0.

Definition compile_root (root : ConfigValue) : C CompiledCheck :=
  let* fields := mapping root "" in
  do* allowed_fields fields ["name"; "description"; "on"; "if"; "decisions"; "actions"] "";
  do* each (λ name, if has_field fields name then ret tt else missing_field root name)
    ["name"; "on"; "actions"];
  let* name := on_field (λ v, fixed_text v "name") "name" fields in
  let* description := on_field (λ v, fixed_text v "description") "description" fields in
  let* trigger := on_field (compile_trigger (default_cooldown fields)) "on" fields in
  do* update (with_trigger trigger);
  let* cond := on_field (λ v, condition v "if" TopLevel) "if" fields in
  let* decisions :=
    match find_field fields "decisions" with
    | Some entry => compile_decisions (ce_value entry)
    | None => ret []
    end in
  let* actions := on_field compile_actions "actions" fields in
  let* name := need name in
  let* trigger := need trigger in
  let* actions := need actions in
  ret {| cc_name := name; cc_description := description; cc_condition := cond;
         cc_trigger := trigger; cc_decisions := decisions; cc_actions := actions |}.

(** What the compilation of a file ends with, other than a check. *)
Inductive CompileFailure :=
| Diagnosed (diagnostics : list Diagnostic)
| CompileStopped (why : CompileStop)
| FileOutOfFuel.

Definition validator_new : Validator :=
  {| v_diagnostics := []; v_has_window := false; v_decisions := []; v_aliases := [];
     v_trigger_family := None |}.

(** The [expect] of a compiled check without diagnostics is the last stop. *)
Definition compile_document (root : ConfigValue) : result CompiledCheck CompileFailure :=
  match compile_root root validator_new with
  | (Err CompilePanicked, _) => Err (CompileStopped CompilePanicked)
  | (Err CompileOutOfFuel, _) => Err (CompileStopped CompileOutOfFuel)
  | (compiled, s) =>
      match v_diagnostics s with
      | [] =>
          match compiled with
          | Ok c => Ok c
          | Err _ => Err (CompileStopped CompilePanicked)
          end
      | diagnostics => Err (Diagnosed diagnostics)
      end
  end.

Definition compile `{YamlParser} (source : string) : result CompiledCheck CompileFailure :=
  match parse_yaml source with
  | Err (YamlFailed diagnostics) => Err (Diagnosed diagnostics)
  | Err YamlOutOfFuel => Err FileOutOfFuel
  | Ok root => compile_document root
  end.
End compile.
