(* ===== verification/CompileFacts.v ===== *)
(** * Facts about the compilation of checks (crates/antiburn-checks/src/compiler.rs)

    Compilation always ends in a check or in diagnostics, and a check that is
    compiled keeps every promise that the later stages rely on.  The last part
    states this of any source, with a sample definition file. *)

From S2P Require Import Prelude RustString Json Diagnostics Yaml YamlFacts Expression Filters Fit Domain Template Decision Check Access AccessFacts Compiler CompilerFacts Triggers TriggerFacts Compile.

#[local] Open Scope N_scope.

(** ** Keys *)

Section keys.
Context `{SerdeNumber}.

Lemma foldr_forall {A} (P : A → Prop) l : foldr (λ x p, P x ∧ p) True l ↔ Forall P l.
Proof. induction l as [|x l IH]; simpl; [by split|]. by rewrite Forall_cons, IH. Qed.

Lemma unique_entries value entries :
  unique_keys value → cv_kind value = CfgMapping entries →
  NoDup (ce_key <$> entries) ∧ Forall (λ e, unique_keys (ce_value e)) entries.
Proof.
  destruct value as [k sp]. simpl. intros Hu ->. destruct Hu as (Hn & _ & Hu).
  split; [done|]. by apply foldr_forall.
Qed.

Lemma unique_entry value entries e :
  unique_keys value → cv_kind value = CfgMapping entries → e ∈ entries → unique_keys (ce_value e).
Proof. intros Hu He. apply (unique_entries _ _ Hu) in He as [_ He]. rewrite Forall_forall in He. auto. Qed.

Lemma unique_found value entries name e :
  unique_keys value → cv_kind value = CfgMapping entries → find_field entries name = Some e →
  unique_keys (ce_value e).
Proof. intros Hu He Hf. apply find_field_some in Hf as [Hin _]. by eapply unique_entry. Qed.

(** The keys of items made from entries one by one. *)
Lemma names_of_entries {B} (Q : ConfigEntry → B → Prop) (name : B → string) entries l :
  (∀ e b, Q e b → name b = ce_key e) → Forall2 Q entries l → name <$> l = ce_key <$> entries.
Proof.
  intros Hq Hl. induction Hl as [|e b entries l Hb Hl IH]; [done|].
  rewrite !fmap_cons, (Hq _ _ Hb). by f_equal.
Qed.
End keys.

Lemma Forall2_right {A B} (Q : A → B → Prop) (P : B → Prop) l k :
  (∀ x y, x ∈ l → Q x y → P y) → Forall2 Q l k → Forall P k.
Proof.
  intros Hq Hl. induction Hl as [|x y l k Hxy Hl IH]; [constructor|].
  constructor; [apply (Hq x); [set_solver|done]|]. apply IH. intros; eapply Hq; [|done]. set_solver.
Qed.

(** ** Questions *)

Section questions.
Context `{SerdeNumber}.
Variable v : Validator.

Lemma runs_choice_criteria P value path :
  runs v P (compile_choice_criteria value path) (λ criteria,
    (2 ≤ length criteria)%nat ∧
    Forall (λ c, is_identifier c.1 = true ∧ is_fixed_text c.2 = true) criteria ∧
    (unique_keys value → NoDup criteria.*1)).
Proof.
  unfold compile_choice_criteria. eapply runs_bind; [apply runs_mapping|]. intros fields _.
  eapply runs_bind; [apply runs_unless|]. intros [] _.
  eapply runs_weaken.
  { apply (runs_collect_present _ True _ (λ e c,
      c.1 = ce_key e ∧ is_identifier c.1 = true ∧ is_fixed_text c.2 = true)).
    intros j e _. eapply runs_bind; [apply runs_when|]. intros [] _.
    eapply runs_bind; [apply runs_fixed_text|]. intros text _. apply runs_ret. simpl. naive_solver. }
  { done. }
  intros criteria [[_ Hk] Hlen%two_items] Hc. split_and!.
  - by rewrite <- (Forall2_length _ _ _ Hc).
  - eapply Forall2_right; [|exact Hc]. simpl. naive_solver.
  - intros Hu. apply (unique_entries _ _ Hu) in Hk as [Hn _].
    erewrite (names_of_entries _ fst); [exact Hn| |exact Hc]. naive_solver.
Qed.

Lemma runs_score_criteria P value path :
  runs v P (compile_score_criteria value path) (λ criteria,
    (2 ≤ length criteria)%nat ∧ Forall (λ c, is_fixed_text c = true) criteria).
Proof.
  unfold compile_score_criteria. eapply runs_bind; [apply runs_sequence|]. intros items _.
  eapply runs_bind; [apply runs_unless|]. intros [] _.
  eapply runs_weaken.
  { apply (runs_collect_present _ True _ (λ _ c, is_fixed_text c = true)). intros j e _.
    eapply runs_weaken; [apply (runs_fixed_text v True)|done|]. naive_solver. }
  { done. }
  intros criteria [_ Hlen%two_items] Hc. split.
  - by rewrite <- (Forall2_length _ _ _ Hc).
  - eapply Forall2_right; [|exact Hc]. auto.
Qed.

Lemma runs_need_value P (o : option ConfigValue) :
  (P → is_Some o) → runs v P (need o) (λ value, o = Some value).
Proof. intros Ho. apply runs_need. intros [x ->]%Ho. eauto. Qed.

Lemma runs_question_of_kind P kind_field kind question path o :
  is_Some kind_field → (P → is_fixed_text question = true) →
  (P → needs_criteria kind = true → is_Some o) →
  runs v P (question_of_kind kind_field kind question path o) (λ q,
    (∀ value, o = Some value → unique_keys value) → valid_question q).
Proof.
  intros [field ->] Hq Ho. unfold question_of_kind, needs_criteria in *.
  destruct (String.eqb kind "choice"); [|destruct (String.eqb kind "score");
    [|destruct (String.eqb kind "noul"); [|apply runs_refused]]].
  - eapply runs_bind; [by apply runs_need_value; intros ?%Ho|]. intros value _.
    eapply runs_bind; [apply runs_choice_criteria|]. intros criteria _. apply runs_ret.
    intros [[HP ->] (Hlen & Hc & Hn)] Hu. split_and!; auto.
  - eapply runs_bind; [by apply runs_need_value; intros ?%Ho|]. intros value _.
    eapply runs_bind; [apply runs_score_criteria|]. intros criteria _. apply runs_ret.
    intros [[HP ->] (Hlen & Hc)] Hu. split_and!; auto.
  - apply runs_ret. intros HP _. by apply Hq.
Qed.

(** What is bound to a required field is there. *)
Lemma runs_required {A} P (f : ConfigValue → C A) (Q : ConfigValue → A → Prop) name fields :
  (P → has_field fields name = true) →
  (∀ e, e ∈ fields → runs v True (f (ce_value e)) (Q (ce_value e))) →
  runs v P (on_field f name fields) (λ o,
    ∃ e a, find_field fields name = Some e ∧ o = Some a ∧ Q (ce_value e) a).
Proof.
  intros Hreq Hf. eapply runs_weaken; [by apply (runs_on_field v True)|done|].
  intros o HP Ho. apply Hreq, has_find_field in HP as [e He]. rewrite He in Ho.
  destruct Ho as (a & -> & Ha). eauto.
Qed.

Lemma returns_on_field {A} (f : ConfigValue → C A) name fields a :
  returns v (on_field f name fields) (Some a) → is_Some (find_field fields name).
Proof.
  intros (s & _ & Hr). unfold find_field. induction fields as [|e fields IH]; [done|].
  cbn [on_field List.find] in *. destruct (String.eqb (ce_key e) name); [by eexists|by apply IH].
Qed.

Lemma runs_compile_question P path output :
  runs v P (compile_question path output) (λ q,
    q_name q = ce_key output ∧ (unique_keys (ce_value output) → valid_output q)).
Proof.
  unfold compile_question. eapply runs_bind; [apply runs_when|]. intros [] _.
  eapply runs_bind; [apply runs_mapping|]. intros fields _.
  eapply runs_bind; [apply runs_require_fields|]. intros [] _.
  eapply runs_bind.
  { apply (runs_required _ _ (λ _, any)).
    - by intros [_ (? & _)%Forall_cons].
    - intros e _. eapply runs_weaken; [apply (runs_string v True)|done|done]. }
  intros [kind|] Hkind; [apply returns_on_field in Hkind|apply runs_absent; naive_solver].
  eapply (runs_bind _ _ _ _ any); [by apply runs_ret|]. intros k (? & _ & [= <-]).
  eapply runs_bind; [apply runs_allowed_fields|]. intros [] _.
  eapply runs_bind.
  { apply (runs_required _ _ (λ _ t, is_fixed_text t = true)).
    - intros [[[[_ Hreq] _] _] _]. by repeat (apply Forall_cons in Hreq as [? Hreq]).
    - intros e _. eapply runs_weaken; [apply (runs_fixed_text v True)|done|]. naive_solver. }
  intros question _. eapply runs_bind; [apply runs_unless|]. intros [] _.
  eapply (runs_bind _ _ _ _ (λ t, is_fixed_text t = true)).
  { apply runs_need. naive_solver. }
  intros text _. eapply runs_bind.
  { apply runs_question_of_kind; [done|by intros [_ ?]|].
    intros [[_ Hc] _] Hn. rewrite Hn in Hc. by destruct (find_field fields "criteria"). }
  intros q _. apply runs_ret. intros [[[[[[[[[[_ Hi] Hk] _] _] _] _] _] _] _] Hq].
  split; [done|]. intros Hu. split; [done|]. apply Hq. intros value.
  destruct (find_field fields "criteria") as [e|] eqn:Ef; [|done]. intros [= <-]. by eapply unique_found.
Qed.

Lemma runs_compile_outputs P value path :
  runs v P (compile_outputs value path) (λ outputs,
    (1 ≤ length outputs ≤ N.to_nat MAX_QUESTIONS_PER_DECISION)%nat ∧
    (unique_keys value → NoDup (q_name <$> outputs) ∧ Forall valid_output outputs)).
Proof.
  unfold compile_outputs. eapply runs_bind; [apply runs_mapping|]. intros fields _.
  eapply runs_bind; [apply runs_unless|]. intros [] _.
  eapply runs_weaken.
  { apply (runs_collect_present _ True _ (λ e q,
      q_name q = ce_key e ∧ (unique_keys (ce_value e) → valid_output q))).
    intros j e _. apply runs_compile_question. }
  { done. }
  intros outputs [[_ Hk] [H0 Hm]%orb_false_iff] Ho. apply N.eqb_neq in H0. apply N.ltb_ge in Hm.
  apply Forall2_length in Ho as Hl. unfold ConfigEntry in *. split; [lia|].
  intros Hu. pose proof (unique_entries _ _ Hu Hk) as [Hn Hus]. split.
  - erewrite (names_of_entries _ q_name); [exact Hn| |exact Ho]. naive_solver.
  - eapply Forall2_right; [|exact Ho]. rewrite Forall_forall in Hus. simpl. naive_solver.
Qed.
End questions.

(** ** Fit rules *)

(** The rules of a decision, for its input: each is an authored path within the
    limits that starts at an input, and no two of them can meet. *)
Definition fit_rule_ok (names : list string) (r : FitRule) : Prop :=
  parse_fit_path (rule_path r) = Some (segments r) ∧ str_len (rule_path r) ≤ MAX_FIT_PATH_BYTES ∧
  N.of_nat (length (segments r)) ≤ MAX_FIT_PATH_SEGMENTS ∧
  ∃ key rest, segments r = Field key :: rest ∧ key ∈ names.

Fixpoint fit_rules_apart (rules : list FitRule) : Prop :=
  match rules with
  | [] => True
  | r :: rules =>
      Forall (λ s, paths_overlap (segments r) (segments s) = false) rules ∧ fit_rules_apart rules
  end.

Definition fit_ok (names : list string) (rules : list FitRule) : Prop :=
  N.of_nat (length rules) ≤ MAX_FIT_RULES ∧ Forall (fit_rule_ok names) rules ∧ fit_rules_apart rules.

Lemma fit_rules_apart_snoc rules r :
  fit_rules_apart rules → Forall (λ s, paths_overlap (segments s) (segments r) = false) rules →
  fit_rules_apart (rules ++ [r]).
Proof.
  induction rules as [|s rules IH]; simpl; [by split|].
  intros [Hs Hr] [Hsr Hrs]%Forall_cons. split; [|by apply IH]. apply Forall_app. by repeat constructor.
Qed.

Section decisions.
Context `{SerdeNumber}.
Variable v : Validator.

Lemma starts_at_input_spec segs (input : list (string * InputTemplate)) :
  starts_at_input segs input = true → ∃ key rest, segs = Field key :: rest ∧ key ∈ input.*1.
Proof.
  destruct segs as [|[key|] rest]; simpl; try done.
  intros ([k t] & Hin & Hk)%existsb_exists. apply String.eqb_eq in Hk. simpl in Hk. subst k.
  exists key, rest. split; [done|]. apply list_elem_of_fmap. exists (key, t).
  split; [done|by apply list_elem_of_In].
Qed.

Lemma runs_fit_rule P path input rules entry :
  runs v P (fit_rule path input rules entry) (λ r,
    fit_rule_ok input.*1 r ∧ Forall (λ s, paths_overlap (segments s) (segments r) = false) rules).
Proof.
  unfold fit_rule. destruct (N.ltb_spec MAX_FIT_PATH_BYTES (str_len (ce_key entry))) as [|Hb];
    [apply runs_refused|].
  destruct (parse_fit_path (ce_key entry)) as [segs|] eqn:Es; [|apply runs_refused].
  destruct (N.ltb_spec MAX_FIT_PATH_SEGMENTS (N.of_nat (length segs))) as [|Hl]; [apply runs_refused|].
  destruct (starts_at_input segs input) eqn:Hi; cbn [negb]; [|apply runs_refused].
  eapply runs_bind; [apply runs_string|]. intros text _.
  eapply (runs_bind _ _ _ _ any).
  { destruct (String.eqb text "recent"); [by apply runs_ret|].
    destruct (String.eqb text "truncate"); [by apply runs_ret|apply runs_refused]. }
  intros strategy _. destruct (existsb _ rules) eqn:Ho; [apply runs_refused|].
  apply runs_ret. intros _. split.
  - split_and!; try done. by apply starts_at_input_spec.
  - simpl. apply Forall_forall. intros s Hs. apply not_true_iff_false. intros Hp.
    apply not_true_iff_false in Ho. apply Ho, existsb_exists. exists s.
    split; [by apply list_elem_of_In|done].
Qed.

Lemma runs_compile_fit P value path input : runs v P (compile_fit value path input) (fit_ok input.*1).
Proof.
  unfold compile_fit. eapply runs_bind; [apply runs_attempt, runs_mapping|].
  intros [entries|] _; [|apply runs_ret; naive_solver].
  destruct (N.ltb_spec MAX_FIT_RULES (N.of_nat (length entries))) as [|Hl];
    [apply runs_reported; by apply runs_ret|].
  eapply runs_weaken.
  { apply (runs_foldM _ True _ (λ seen rules, length rules = length seen ∧
      Forall (fit_rule_ok input.*1) rules ∧ fit_rules_apart rules)).
    - intros _. by split_and!.
    - intros seen entry rules. eapply runs_bind; [apply runs_attempt, runs_fit_rule|].
      intros o _. apply runs_ret. intros [[_ (Hlen & Hall & Hap)] (r & -> & Hr & Hrs)].
      simpl. split_and!.
      + rewrite !length_app. simpl. by f_equal.
      + apply Forall_app. split; [done|]. by constructor.
      + by apply fit_rules_apart_snoc. }
  { done. }
  intros rules _ (Hlen & Hall & Hap). split_and!; [by rewrite Hlen|done|done].
Qed.

(** ** Decisions *)

Definition input_names (t : InputTemplate) : list string :=
  match t with TObject fields => fields.*1 | _ => [] end.

(** A decision block where [v] holds: a nonempty input object with identifiers for
    names and expressions that resolve, and its fit rules. *)
Definition decision_ok (d : DecisionBlock) : Prop :=
  input_names (d_input d) ≠ [] ∧ Forall (λ n, is_identifier n = true) (input_names (d_input d)) ∧
  input_resolves v (d_input d) ∧ fit_ok (input_names (d_input d)) (d_fit d).

Hypothesis Haliases : aliases_known v.

Lemma runs_compile_input P path value :
  runs v P (compile_input path value) (λ input,
    input ≠ [] ∧ Forall (λ kt, is_identifier kt.1 = true ∧ input_resolves v kt.2) input).
Proof.
  unfold compile_input. eapply runs_bind; [apply runs_mapping|]. intros fields _.
  eapply (runs_bind _ _ _ _ (λ _, fields ≠ [])).
  { destruct fields; [apply runs_diagnose|by apply runs_ret]. }
  intros [] _. eapply runs_weaken.
  { apply (runs_collect_present _ True _ (λ _ kt, is_identifier kt.1 = true ∧ input_resolves v kt.2)).
    intros j e _. eapply runs_bind; [apply runs_when|]. intros [] _.
    eapply runs_bind; [by apply runs_pre, runs_input_template|]. intros t _. apply runs_ret. naive_solver. }
  { done. }
  intros input [_ Hne] Hi. split; [by destruct Hi|]. eapply Forall2_right; [|exact Hi]. auto.
Qed.

Lemma runs_compile_decision P entry :
  runs v P (compile_decision entry) (λ d,
    d_name d = ce_key entry ∧ decision_ok d ∧ (unique_keys (ce_value entry) → valid_block d)).
Proof.
  unfold compile_decision. eapply runs_bind; [apply runs_when|]. intros [] _.
  eapply runs_bind; [apply runs_mapping|]. intros fields _.
  eapply runs_bind; [apply runs_allowed_fields|]. intros [] _.
  eapply runs_bind; [apply runs_require_fields|]. intros [] _.
  eapply runs_bind.
  { apply (runs_required _ _ _ (λ _ input, input ≠ [] ∧
      Forall (λ kt, is_identifier kt.1 = true ∧ input_resolves v kt.2) input)).
    - by intros [_ (? & _)%Forall_cons].
    - intros e _. apply runs_compile_input. }
  intros oinput _. eapply (runs_bind _ _ _ _ (fit_ok (default [] oinput).*1)).
  { destruct (find_field fields "fit"); [apply runs_compile_fit|]. apply runs_ret. intros _. by split_and!. }
  intros fit _. eapply runs_bind.
  { apply (runs_required _ _ _ (λ value outputs,
      (1 ≤ length outputs ≤ N.to_nat MAX_QUESTIONS_PER_DECISION)%nat ∧
      (unique_keys value → NoDup (q_name <$> outputs) ∧ Forall valid_output outputs))).
    - intros [[[_ Hreq] _] _]. by repeat (apply Forall_cons in Hreq as [? Hreq]).
    - intros e _. apply runs_compile_outputs. }
  intros ooutputs _. eapply (runs_bind _ _ _ _ (λ input, oinput = Some input)).
  { apply runs_need. naive_solver. }
  intros input _. eapply (runs_bind _ _ _ _ (λ outputs, ooutputs = Some outputs)).
  { apply runs_need. naive_solver. }
  intros outputs _. apply runs_ret.
  intros [[[[[[[[[_ Hid] Hk] _] _] Hin] Hfit] Hout] ->] ->].
  destruct Hin as (ei & ? & Hei & [= <-] & Hne & Hin). destruct Hout as (eo & ? & Heo & [= <-] & Hlen & Hout).
  split_and!; [done|split_and!; simpl|].
  - by destruct input.
  - apply Forall_fmap. eapply Forall_impl; [exact Hin|]. naive_solver.
  - apply foldr_forall. eapply Forall_impl; [exact Hin|]. naive_solver.
  - done.
  - intros Hu. destruct (Hout (unique_found _ _ _ _ Hu Hk Heo)) as [Hn Hv].
    unfold valid_block. simpl. tauto.
Qed.

Lemma runs_decision_list P entries :
  runs v P (collect_present (λ _ entry, compile_decision entry) 0 entries) (λ ds,
    Forall decision_ok ds ∧
    (NoDup (ce_key <$> entries) → Forall (λ e, unique_keys (ce_value e)) entries → valid_declarations ds)).
Proof.
  eapply runs_weaken.
  { apply (runs_collect_present _ True _ (λ e d,
      d_name d = ce_key e ∧ decision_ok d ∧ (unique_keys (ce_value e) → valid_block d))).
    intros j e _. apply runs_compile_decision. }
  { done. }
  intros ds _ Hds. split.
  - eapply Forall2_right; [|exact Hds]. naive_solver.
  - intros Hn Hu. split.
    + erewrite (names_of_entries _ d_name); [exact Hn| |exact Hds]. naive_solver.
    + eapply Forall2_right; [|exact Hds]. rewrite Forall_forall in Hu. naive_solver.
Qed.

(** ** Actions *)

Definition action_ok (a : StatusAction) : Prop :=
  Forall (resolves v ActionCondition) (action_expressions a).

Definition result_ok (r : StatusResultTemplate) : Prop :=
  match r with ResultExpression e => resolves v ActionCondition e | ResultLiteral _ => True end.

Lemma runs_status_result P path value : runs v P (status_result path value) result_ok.
Proof.
  unfold status_result. eapply runs_bind; [apply runs_string|]. intros text _.
  destruct (String.eqb text "failure"); [by apply runs_ret|].
  destruct (String.eqb text "success"); [by apply runs_ret|].
  destruct (str_contains text opening); [|apply runs_refused].
  destruct (whole_expression text); [|apply runs_refused].
  eapply runs_bind; [by apply runs_expression|]. intros e _. apply runs_ret. naive_solver.
Qed.

Lemma runs_status_message P path value :
  runs v P (status_message path value) (text_template v ActionCondition).
Proof.
  unfold status_message. eapply runs_bind; [apply runs_string|]. intros text _.
  destruct (is_blank text); [apply runs_refused|by apply runs_string_template].
Qed.

Definition optional {A} (Q : A → Prop) (o : option A) : Prop :=
  match o with Some a => Q a | None => True end.

(** An optional field, when nothing is reported. *)
Lemma runs_optional {A} P (f : ConfigValue → C A) (Q : A → Prop) name fields :
  (∀ e, e ∈ fields → runs v True (f (ce_value e)) Q) → runs v P (on_field f name fields) (optional Q).
Proof.
  intros Hf. eapply runs_weaken; [by apply (runs_on_field v True _ (λ _, Q))|done|].
  intros o _ Ho. destruct (find_field fields name); [|by subst]. by destruct Ho as (a & -> & Ha).
Qed.

Lemma runs_status_input P path input :
  runs v P (status_input path input) (λ r,
    (∃ t, r.1 = Some t ∧ result_ok t) ∧ optional (text_template v ActionCondition) r.2).
Proof.
  unfold status_input. eapply runs_bind; [apply runs_mapping|]. intros fields _.
  eapply runs_bind; [apply runs_allowed_fields|]. intros [] _.
  eapply runs_bind; [apply runs_require_fields|]. intros [] _.
  destruct (find_field fields "result"); [|apply runs_refused].
  eapply runs_bind; [apply runs_attempt, runs_status_result|]. intros result _.
  eapply runs_bind; [apply runs_optional; intros; apply runs_status_message|]. intros msg _.
  apply runs_ret. naive_solver.
Qed.

Lemma action_ok_parts cond result msg :
  optional (condition_resolves v ActionCondition) cond → result_ok result →
  optional (text_template v ActionCondition) msg →
  action_ok {| sa_condition := cond; sa_result := result; sa_message := msg |}.
Proof.
  intros Hc Hr Hm. unfold action_ok, action_expressions. simpl.
  rewrite !Forall_app. split_and!.
  - destruct cond as [[b|e]|]; simpl; by repeat constructor.
  - destruct result; by repeat constructor.
  - destruct msg as [t|]; [|constructor]. by destruct t.
Qed.

Lemma runs_compile_action P index item : runs v P (compile_action index item) action_ok.
Proof.
  unfold compile_action. eapply runs_bind; [apply runs_mapping|]. intros fields _.
  eapply runs_bind; [apply runs_require_fields|]. intros [] _.
  eapply (runs_bind _ _ _ _ any).
  { eapply runs_weaken; [apply (runs_optional True _ any)|done|done]. intros e _.
    eapply runs_weaken; [apply (runs_string v True)|done|done]. }
  intros kind _. case_bool_decide; [apply runs_refused|].
  case_bool_decide; cbn [negb]; [|apply runs_refused].
  eapply runs_bind; [apply runs_allowed_fields|]. intros [] _.
  eapply runs_bind; [apply runs_optional; intros; by apply runs_condition|]. intros cond _.
  destruct (find_field fields "input"); [|apply runs_refused].
  eapply runs_bind; [apply runs_status_input|]. intros [result msg] _.
  eapply (runs_bind _ _ _ _ result_ok); [apply runs_need; naive_solver|].
  intros r _. apply runs_ret. intros [[[_ Hc] [_ Hm]] Hr]. by apply action_ok_parts.
Qed.

Lemma runs_compile_actions P value :
  runs v P (compile_actions value) (λ actions, actions ≠ [] ∧ Forall action_ok actions).
Proof.
  unfold compile_actions. eapply runs_bind; [apply runs_sequence|]. intros items _.
  eapply (runs_bind _ _ _ _ (λ _, items ≠ [])).
  { destruct items; [apply runs_diagnose|by apply runs_ret]. }
  intros [] _. eapply runs_weaken.
  { apply (runs_collect_present _ True _ (λ _, action_ok)). intros j item _. apply runs_compile_action. }
  { done. }
  intros actions [_ Hne] Ha. split; [by destruct Ha|]. eapply Forall2_right; [|exact Ha]. auto.
Qed.
End decisions.

(** ** The root *)

(** Like [runs], where what is known may have changed in the end. *)
Definition finishes {A} (v : Validator) (P : Prop) (m : C A) (Q : A → Prop) : Prop :=
  ∀ s, same_env v s →
    v_diagnostics s `prefix_of` v_diagnostics (m s).2 ∧ ¬ fatal (m s).1 ∧
    (v_diagnostics (m s).2 = [] → P → ∃ a, (m s).1 = Ok a ∧ Q a).

Lemma runs_finishes {A} v P (m : C A) (Q : A → Prop) : runs v P m Q → finishes v P m Q.
Proof. intros Hm s Hs. destruct (Hm s Hs) as (? & _ & ? & ?). by split_and!. Qed.

Lemma finishes_bind {A B} v P (m : C A) (f : A → C B) (Q1 : A → Prop) (Q : B → Prop) :
  runs v P m Q1 → (∀ a, finishes v (P ∧ Q1 a) (f a) Q) → finishes v P (bind m f) Q.
Proof.
  intros Hm Hf s Hs. destruct (Hm s Hs) as (Hp & He & Hn & Hq). unfold bind.
  destruct (m s) as [[a|why] s1]; simpl in *.
  - destruct (Hf a s1 He) as (Hp' & Hn' & Hq'). split_and!; [by etrans|done|].
    intros Hd HP. apply Hq'; [done|]. split; [done|].
    destruct (Hq (prefix_quiet _ _ Hp' Hd) HP) as (a' & [= <-] & ?). done.
  - split_and!; [done|done|]. intros Hd HP. by destruct (Hq Hd HP) as (a' & [=] & _).
Qed.

Lemma finishes_update {A} v w P (g : Validator → Validator) (m : C A) (Q : A → Prop) :
  (∀ s, same_env v s → same_env w (g s) ∧ v_diagnostics (g s) = v_diagnostics s) →
  finishes w P m Q → finishes v P (do* update g; m) Q.
Proof. intros Hg Hm s Hs. destruct (Hg s Hs) as [Hw <-]. by apply (Hm (g s)). Qed.

Lemma finishes_weaken {A} v (P P' : Prop) (m : C A) (Q : A → Prop) :
  finishes v P' m Q → (P → P') → finishes v P m Q.
Proof. intros Hm HP s Hs. destruct (Hm s Hs) as (? & ? & Hq). split_and!; [done|done|auto]. Qed.

Section root.
Context `{SerdeNumber}.

Lemma finishes_decisions {B} v P value (k : list DecisionBlock → C B) (Q : B → Prop) :
  aliases_known v →
  (∀ ds, finishes (with_decisions (decision_symbols <$> ds) v)
     (P ∧ Forall (decision_ok v) ds ∧ (unique_keys value → valid_declarations ds)) (k ds) Q) →
  finishes v P (bind (compile_decisions value) k) Q.
Proof.
  intros Ha Hk.
  assert (finishes v P
    (let* entries := mapping value "decisions" in
     match entries with
     | [] => do* invalid_value value "decisions" "Decisions must contain at least one block."; absent
     | _ =>
         let* ds := collect_present (λ _ entry, compile_decision entry) 0 entries in
         do* update (with_decisions (decision_symbols <$> ds));
         k ds
     end) Q) as Hall.
  { eapply finishes_bind; [apply runs_mapping|]. intros [|e entries]; [by apply runs_finishes, runs_refused|].
    eapply finishes_bind; [by apply runs_decision_list|]. intros ds.
    eapply (finishes_update _ (with_decisions (decision_symbols <$> ds) v)).
    - intros s Hs. split; [|done]. unfold same_env, with_decisions in *. by rewrite Hs.
    - eapply finishes_weaken; [apply Hk|]. intros [[HP Hkind] [Hok Hv]]. split_and!; [done|done|].
      intros Hu. destruct (unique_entries _ _ Hu Hkind) as [Hn Hus]. by apply Hv. }
  intros s Hs. specialize (Hall s Hs). unfold compile_decisions. unfold bind, update in *.
  destruct (mapping value "decisions" s) as [[[|e entries]|why] s1]; try exact Hall.
  by destruct (collect_present _ _ _ _) as [[ds|why] s2].
Qed.

(** What is known below the trigger, and in the actions. *)
Definition env_trigger (c : CompiledCheck) : Validator := with_trigger (Some (cc_trigger c)) validator_new.
Definition env_actions (c : CompiledCheck) : Validator :=
  with_decisions (decision_symbols <$> cc_decisions c) (env_trigger c).

(** What every compiled check has. *)
Definition check_ok (c : CompiledCheck) : Prop :=
  is_fixed_text (cc_name c) = true ∧
  optional (λ d, is_fixed_text d = true) (cc_description c) ∧
  trigger_ok (cc_trigger c) ∧
  optional (condition_resolves (env_trigger c) TopLevel) (cc_condition c) ∧
  Forall (decision_ok (env_trigger c)) (cc_decisions c) ∧
  cc_actions c ≠ [] ∧ Forall (action_ok (env_actions c)) (cc_actions c).

Lemma default_cooldown_ok fields :
  default_cooldown fields mod 1000 = 0 ∧ default_cooldown fields ≤ 1000 * U64_MAX.
Proof. unfold default_cooldown. destruct (has_field _ _); by split. Qed.

Lemma runs_text_field P name fields :
  runs validator_new P (on_field (λ v, fixed_text v name) name fields) (λ o,
    optional (λ d, is_fixed_text d = true) o ∧ (has_field fields name = true → is_Some o)).
Proof.
  eapply runs_weaken.
  - apply (runs_on_field _ True _ (λ _ d, is_fixed_text d = true)). intros e _.
    eapply runs_weaken; [apply (runs_fixed_text _ True)|done|]. by intros t _ [_ Ht].
  - done.
  - intros o _ Ho. split.
    + destruct (find_field fields name); [|by subst]. by destruct Ho as (t & -> & Ht).
    + intros [e He]%has_find_field. rewrite He in Ho. destruct Ho as (t & -> & _). by eexists.
Qed.

(** A field whose value may be missing only where it was reported. *)
Lemma runs_part {A} v P (f : ConfigValue → C A) (Q : A → Prop) name fields :
  (∀ e, e ∈ fields → runs v True (f (ce_value e)) Q) →
  runs v P (on_field f name fields) (λ o,
    optional Q o ∧ (has_field fields name = true → is_Some o)).
Proof.
  intros Hf. eapply runs_weaken; [by apply (runs_on_field v True _ (λ _, Q))|done|].
  intros o _ Ho. split.
  - destruct (find_field fields name); [|by subst]. by destruct Ho as (t & -> & Ht).
  - intros [e He]%has_find_field. rewrite He in Ho. destruct Ho as (t & -> & _). by eexists.
Qed.

Lemma without_aliases v : v_aliases v = [] → aliases_known v.
Proof. unfold aliases_known. by intros ->. Qed.

(** The end of [compile_root], from the actions on. *)
Definition root_end (fields : list ConfigEntry) (name description : option string)
    (trigger : option ToolResultTrigger) (cond : option Condition) (decisions : list DecisionBlock) :
    C CompiledCheck :=
  let* actions := on_field compile_actions "actions" fields in
  let* name := need name in
  let* trigger := need trigger in
  let* actions := need actions in
  ret {| cc_name := name; cc_description := description; cc_condition := cond;
         cc_trigger := trigger; cc_decisions := decisions; cc_actions := actions |}.

(** What is known of the parts before it. *)
Definition root_parts (fields : list ConfigEntry) (name description : option string)
    (trigger : option ToolResultTrigger) (cond : option Condition) : Prop :=
  Forall (λ name, has_field fields name = true) ["name"; "on"; "actions"] ∧
  (optional (λ d, is_fixed_text d = true) name ∧ (has_field fields "name" = true → is_Some name)) ∧
  optional (λ d, is_fixed_text d = true) description ∧
  (optional trigger_ok trigger ∧ (has_field fields "on" = true → is_Some trigger)) ∧
  optional (condition_resolves (with_trigger trigger validator_new) TopLevel) cond.

Lemma runs_root_end root fields name description trigger cond ds :
  runs (with_decisions (decision_symbols <$> ds) (with_trigger trigger validator_new))
    (root_parts fields name description trigger cond ∧
     Forall (decision_ok (with_trigger trigger validator_new)) ds ∧
     (unique_keys root → valid_declarations ds))
    (root_end fields name description trigger cond ds)
    (λ c, check_ok c ∧ (unique_keys root → valid_declarations (cc_decisions c))).
Proof.
  unfold root_end.
  set (v2 := with_decisions (decision_symbols <$> ds) (with_trigger trigger validator_new)).
  eapply runs_bind.
  { apply (runs_part _ _ _ (λ l, l ≠ [] ∧ Forall (action_ok v2) l)). intros e _.
    by apply runs_compile_actions, without_aliases. }
  intros actions _. eapply (runs_bind _ _ _ _ (λ x, name = Some x)).
  { apply runs_need. intros [[(Hreq & [_ Hn] & _) _] _]. apply Forall_cons in Hreq as [Hreq _].
    destruct (Hn Hreq) as [x ->]. eauto. }
  intros n _. eapply (runs_bind _ _ _ _ (λ x, trigger = Some x)).
  { apply runs_need. intros [[[(Hreq & _ & _ & [_ Ht] & _) _] _] _].
    do 2 apply Forall_cons in Hreq as [? Hreq]. destruct Ht as [x ->]; [done|]. eauto. }
  intros t _. eapply (runs_bind _ _ _ _ (λ x, actions = Some x)).
  { apply runs_need. intros [[[[(Hreq & _) _] [_ Hact]] _] _].
    do 3 apply Forall_cons in Hreq as [? Hreq]. destruct Hact as [x ->]; [done|]. eauto. }
  intros l _. apply runs_ret.
  intros [[[[[(_ & [Hn _] & Hd & [Ht _] & Hc) [Hds Hv]] [Ha _]] ->] ->] ->].
  split; [|done]. destruct Ha as [Hne Ha]. by split_and!.
Qed.

Lemma finishes_root root :
  finishes validator_new True (compile_root root) (λ c,
    check_ok c ∧ (unique_keys root → valid_declarations (cc_decisions c))).
Proof.
  unfold compile_root. eapply finishes_bind; [apply runs_mapping|]. intros fields.
  eapply finishes_bind; [apply runs_allowed_fields|]. intros [].
  eapply finishes_bind.
  { apply (runs_each _ _ _ (λ name, has_field fields name = true)). intros name _. apply runs_when. }
  intros []. eapply finishes_bind; [apply runs_text_field|]. intros name.
  eapply finishes_bind; [apply runs_text_field|]. intros description.
  eapply finishes_bind.
  { apply (runs_part _ _ _ trigger_ok). intros e _. apply runs_compile_trigger, default_cooldown_ok. }
  intros trigger. eapply (finishes_update _ (with_trigger trigger validator_new)).
  { intros s Hs. split; [|done]. unfold same_env, with_trigger in *. by rewrite Hs. }
  set (v1 := with_trigger trigger validator_new).
  eapply finishes_bind.
  { apply runs_optional. intros e _. by apply runs_condition, without_aliases. }
  intros cond.
  assert (∀ ds, finishes (with_decisions (decision_symbols <$> ds) v1)
    (root_parts fields name description trigger cond ∧
     Forall (decision_ok v1) ds ∧ (unique_keys root → valid_declarations ds))
    (root_end fields name description trigger cond ds)
    (λ c, check_ok c ∧ (unique_keys root → valid_declarations (cc_decisions c)))) as Hend.
  { intros ds. apply runs_finishes, runs_root_end. }
  destruct (find_field fields "decisions") as [entry|] eqn:Ed.
  - apply finishes_decisions; [by apply without_aliases|]. intros ds.
    eapply finishes_weaken; [apply Hend|]. intros [HP (Hds & Hv)]. split_and!; [|done|].
    + unfold root_parts. clear -HP. naive_solver.
    + intros Hu. apply Hv. eapply unique_found; [exact Hu|clear -HP; naive_solver|exact Ed].
  - eapply finishes_weaken; [exact (Hend [])|].
    intros HP. split_and!; [unfold root_parts; clear -HP; naive_solver|done|].
    intros _. split; constructor.
Qed.
End root.

(** ** Compilation of definition files: theorems (crates/antiburn-checks/src/compiler.rs)

    What [compile] promises of any source, and a definition file that it compiles. *)

Section theorems.
Context `{SerdeNumber, YamlParser}.

Lemma compile_document_spec root :
  match compile_document root with
  | Ok c => check_ok c ∧ (unique_keys root → valid_declarations (cc_decisions c))
  | Err (Diagnosed (_ :: _)) => True
  | Err _ => False
  end.
Proof.
  unfold compile_document.
  destruct (finishes_root root validator_new (same_env_refl _)) as (_ & Hn & Hq).
  destruct (compile_root root validator_new) as [[c|[]] s]; simpl in *; try (by destruct (Hn I)).
  - destruct (v_diagnostics s) as [|d ds]; [|done]. by destruct Hq as (c' & [= <-] & ?).
  - destruct (v_diagnostics s) as [|d ds]; [|done]. by destruct Hq as (c' & [=] & ?).
Qed.

Lemma compile_spec source :
  match compile source with
  | Ok c => check_ok c ∧ valid_declarations (cc_decisions c)
  | Err (Diagnosed (_ :: _)) => True
  | Err _ => False
  end.
Proof.
  unfold compile. destruct (parse_yaml source) as [root|why] eqn:Ey.
  - pose proof (compile_document_spec root) as Hs. apply parse_yaml_keys in Ey.
    destruct (compile_document root) as [c|]; [|done]. destruct Hs as [? Hv]. auto.
  - apply parse_yaml_reported in Ey. by destruct why as [[]|].
Qed.

(** C24: compilation of any source ends in a check or in at least one diagnostic: it
    never panics (every index and every [expect] of the compiler is safe), its
    loops end, and a definition without a diagnostic always has its check. *)
Theorem compile_ends source :
  (∃ c, compile source = Ok c) ∨ (∃ d ds, compile source = Err (Diagnosed (d :: ds))).
Proof.
  pose proof (compile_spec source) as Hs.
  destruct (compile source) as [c|[[|d ds]|why|]]; [left; eauto|done|right; eauto|done..].
Qed.

(** C25: a compiled check is well formed: its name and description are fixed text;
    its filter lists are nonempty and free of repetitions and its globs and models
    valid; a window holds 1 to 40 messages with a minimum within its size, and only
    message events have one; each expression resolves where it stands, those of a
    map under its alias; fit rules stay within their limits, start at a declared
    input and never overlap; and there is an action. *)
Theorem compiled_check_ok source c : compile source = Ok c → check_ok c.
Proof. intros Hc. pose proof (compile_spec source) as Hs. rewrite Hc in Hs. by destruct Hs. Qed.

(** The decisions of a compiled check pass the validation of declarations, and
    the requirements derived from its actions are accepted against them, so the
    later checks of the host never refuse a definition that compiled. *)
Theorem compiled_decisions_accepted source c :
  compile source = Ok c →
  validate_declarations (cc_decisions c) = Ok tt ∧
  validate_requirements (cc_decisions c) (question_requirements c) = Ok tt.
Proof.
  intros Hc. pose proof (compile_spec source) as Hs. rewrite Hc in Hs. destruct Hs as [_ Hv].
  apply validate_declarations_correct in Hv. split; [done|]. by apply question_requirements_accepted.
Qed.
End theorems.

(** ** A definition file *)

(** The tree of a file, without tags, anchors or places. *)
Inductive Tree := Leaf (text : string) | Items (items : list Tree) | Fields (fields : list (string * Tree)).

Definition nowhere : ParserSpan :=
  {| ps_start := {| mk_index := 0; mk_line := 1; mk_col := 0 |};
     ps_end := {| mk_index := 0; mk_line := 1; mk_col := 0 |} |}.

Fixpoint tree_events (t : Tree) : list Event :=
  match t with
  | Leaf text => [EvScalar text Plain 0 None]
  | Items items => (SequenceStart 0 None :: mjoin (tree_events <$> items) ++ [SequenceEnd])%list
  | Fields fields =>
      (MappingStart 0 None ::
       mjoin ((λ kt, EvScalar (fst kt) Plain 0 None :: tree_events (snd kt)) <$> fields) ++ [MappingEnd])%list
  end.

(** The file
<<
name: Risky window
on:
  tool_result: { tools: [shell, edit] }
  window: { size: 10, min: 2 }
  cooldown: 5m
decisions:
  review:
    input:
      recent: { map: "${{ window.messages }}", as: m, if: "${{ m.role }}", value: "${{ m.content }}" }
    fit: { recent: recent }
    output:
      level: { type: choice, question: How risky?, criteria: { low: None., high: A lot. } }
actions:
  - type: status
    if: ${{ decisions.review.details.level.probabilities.high > 0 }}
    input: { result: failure, message: "Level ${{ decisions.review.outputs.level }}" }
>> *)
Definition sample_tree : Tree :=
  Fields
    [("name", Leaf "Risky window");
     ("on", Fields
        [("tool_result", Fields [("tools", Items [Leaf "shell"; Leaf "edit"])]);
         ("window", Fields [("size", Leaf "10"); ("min", Leaf "2")]);
         ("cooldown", Leaf "5m")]);
     ("decisions", Fields
        [("review", Fields
            [("input", Fields
                [("recent", Fields
                    [("map", Leaf "${{ window.messages }}"); ("as", Leaf "m");
                     ("if", Leaf "${{ m.role }}"); ("value", Leaf "${{ m.content }}")])]);
             ("fit", Fields [("recent", Leaf "recent")]);
             ("output", Fields
                [("level", Fields
                    [("type", Leaf "choice"); ("question", Leaf "How risky?");
                     ("criteria", Fields [("low", Leaf "None."); ("high", Leaf "A lot.")])])])])]);
     ("actions", Items
        [Fields
           [("type", Leaf "status");
            ("if", Leaf "${{ decisions.review.details.level.probabilities.high > 0 }}");
            ("input", Fields
               [("result", Leaf "failure");
                ("message", Leaf "Level ${{ decisions.review.outputs.level }}")])]])].

(** A parser that knows the sample file by its name. *)
Definition sample_parser (t : Tree) : YamlParser := {|
  yaml_events _ :=
    Ok ((λ e, (e, nowhere)) <$>
        ([StreamStart; DocumentStart] ++ tree_events t ++ [DocumentEnd; StreamEnd])%list);
  tag_to_string tag := t_handle tag +:+ t_suffix tag
|}.

Definition sample_compiled : result (CompiledCheck (H:=text_numbers)) CompileFailure :=
  compile (H:=text_numbers) (H0:=sample_parser sample_tree) "sample.yaml".

Definition sample_failures : result (CompiledCheck (H:=text_numbers)) CompileFailure :=
  compile (H:=text_numbers)
    (H0:=sample_parser (Fields [("name", Leaf "x"); ("on", Fields [("turn_end", Leaf "null"); ("window", Leaf "0")])]))
    "sample.yaml".

Lemma sample_is_compiled : is_ok sample_compiled = true.
Proof. vm_refl. Qed.

Lemma sample_compiles :
  match sample_compiled with
  | Ok c =>
      tr_window (cc_trigger c) = Some {| w_size := 10; w_minimum := 2 |} ∧
      tr_cooldown (cc_trigger c) = 300000 ∧ segments <$> mjoin (d_fit <$> cc_decisions c) = [[Field "recent"]] ∧
      r_probabilities <$> question_requirements c = [true]
  | Err _ => False
  end.
Proof. by vm_compute. Qed.

(** A file with errors has all of them reported. *)
Lemma sample_fails :
  match sample_failures with
  | Err (Diagnosed ds) =>
      Diagnostics.code <$> ds =
      [ConfigMissingField; ConfigInvalidValue; CompileInvalidWindow; CompileInvalidWindow]
  | _ => False
  end.
Proof. by vm_compute. Qed.

Lemma compiled_check_ok_witness : ∃ c, sample_compiled = Ok c ∧ check_ok c.
Proof.
  destruct sample_compiled as [c|f] eqn:Ec.
  - exists c. split; [reflexivity|].
    exact (compiled_check_ok (H0:=sample_parser sample_tree) "sample.yaml" c Ec).
  - pose proof sample_is_compiled as Hok. by rewrite Ec in Hok.
Defined.

Lemma compiled_decisions_accepted_witness :
  ∃ c, sample_compiled = Ok c ∧ validate_declarations (cc_decisions c) = Ok tt ∧
       validate_requirements (cc_decisions c) (question_requirements c) = Ok tt.
Proof.
  destruct sample_compiled as [c|f] eqn:Ec.
  - exists c. split; [reflexivity|].
    exact (compiled_decisions_accepted (H0:=sample_parser sample_tree) "sample.yaml" c Ec).
  - pose proof sample_is_compiled as Hok. by rewrite Ec in Hok.
Defined.
