(* ===== verification/Inventories.v ===== *)
(** * Inventory demand (crates/antiburn-checks/src/compiler/inventories.rs)

    Where a check reads the current inventories.  The analysis is proved sound
    against the evaluator: an expression that it clears evaluates identically,
    costs and failures included, in two contexts that differ only in their
    inventories. *)

From S2P Require Import Prelude RustString Json Diagnostics Expression Budget Provenance Scalars Evaluator Template Decision Check.

Record CurrentInventoryDemand := { demand_condition : bool; demand_candidate : bool }.

Inductive ScopeMember := Whole | Named (property : string) | UnknownMember.

#[export] Instance ScopeMember_eq_dec : EqDecision ScopeMember.
Proof. solve_decision. Defined.

Section inventories.
Context `{SerdeNumber}.

Fixpoint scope_path (aliases : list string) (e : Expression) : option (string * ScopeMember) :=
  match e with
  | EPath (PProperty root :: rest) =>
      if existsb (String.eqb root) aliases ||
         negb (String.eqb root "global" || String.eqb root "repo") then None
      else Some (root, match rest with
                       | PProperty property :: _ => Named property
                       | [] => Whole
                       | _ => UnknownMember
                       end)
  | EAccess base segments =>
      '(root, property) ← scope_path aliases base;
      Some (root,
        match property with
        | Whole =>
            match segments with
            | AProperty property :: _ => Named property
            | ADynamic (ELiteral (LString property)) :: _ => Named property
            | _ => UnknownMember
            end
        | _ => property
        end)
  | _ => None
  end.

Fixpoint expression_reads (aliases : list string) (e : Expression) : bool :=
  match scope_path aliases e with
  | Some (root, property) =>
      (match e with
       | EAccess base segments =>
           access_keys_read aliases base ||
           existsb (λ seg, match seg with ADynamic v => expression_reads aliases v | _ => false end)
             segments
       | _ => false
       end) || String.eqb root "global" || negb (bool_decide (property = Named "root"))
  | None =>
      match e with
      | ELiteral _ | EPath _ => false
      | EAccess base segments =>
          expression_reads aliases base ||
          existsb (λ seg, match seg with ADynamic v => expression_reads aliases v | _ => false end)
            segments
      | ECall _ arguments => existsb (expression_reads aliases) arguments
      | ENot value => expression_reads aliases value
      | EBinary _ l r => expression_reads aliases l || expression_reads aliases r
      end
  end
with access_keys_read (aliases : list string) (e : Expression) : bool :=
  match e with
  | EAccess base segments =>
      access_keys_read aliases base ||
      existsb (λ seg, match seg with ADynamic v => expression_reads aliases v | _ => false end)
        segments
  | _ => false
  end.

Definition condition_reads (aliases : list string) (c : option Condition) : bool :=
  match c with Some (CondExpression e) => expression_reads aliases e | _ => false end.

Definition part_reads (aliases : list string) (p : TemplatePart) : bool :=
  match p with PartExpression e => expression_reads aliases e | PartLiteral _ => false end.

(** The stack of aliases is threaded by pushing before the body. *)
Fixpoint template_reads (aliases : list string) (t : InputTemplate) : bool :=
  match t with
  | TLiteral _ => false
  | TExpression e => expression_reads aliases e
  | TText parts => existsb (part_reads aliases) parts
  | TSequence items => existsb (template_reads aliases) items
  | TObject items => existsb (λ kv, template_reads aliases kv.2) items
  | TMap collection alias condition value =>
      let collection_reads := expression_reads aliases collection in
      let aliases := (aliases ++ [alias])%list in
      let body_reads := condition_reads aliases condition || template_reads aliases value in
      collection_reads || body_reads
  end.

Definition action_reads (a : StatusAction) : bool :=
  condition_reads [] (sa_condition a) ||
  (match sa_result a with ResultExpression e => expression_reads [] e | _ => false end) ||
  (match sa_message a with Some t => template_reads [] t | None => false end).

(** [inventories::inspect] *)
Definition current_inventory_demand (c : CompiledCheck) : CurrentInventoryDemand :=
  {| demand_condition := condition_reads [] (cc_condition c);
     demand_candidate :=
       existsb (λ d, template_reads [] (d_input d)) (cc_decisions c) ||
       existsb action_reads (cc_actions c) |}.
End inventories.

(** ** Equal computations *)

Definition same {S E A} (m1 m2 : SE S E A) : Prop := ∀ s, m1 s = m2 s.

#[export] Instance same_equivalence {S E A} : Equivalence (@same S E A).
Proof.
  split; [by intros m s|by intros m1 m2 Hm s|].
  intros m1 m2 m3 H1 H2 s. by rewrite H1, H2.
Qed.

Lemma same_bind {S E A B} (m1 m2 : SE S E A) (f1 f2 : A → SE S E B) :
  same m1 m2 → (∀ a, same (f1 a) (f2 a)) → same (bind m1 f1) (bind m2 f2).
Proof.
  intros Hm Hf s. unfold bind. rewrite Hm. destruct (m2 s) as [[a|e] s']; [apply Hf|done].
Qed.

Lemma same_bind_returns {S E A B} (P : A → Prop) (m1 m2 : SE S E A) (f1 f2 : A → SE S E B) :
  same m1 m2 → returns P m2 → (∀ a, P a → same (f1 a) (f2 a)) → same (bind m1 f1) (bind m2 f2).
Proof.
  intros Hm HP Hf s. unfold bind. rewrite Hm. destruct (m2 s) as [[a|e] s1] eqn:Em; [|done].
  apply Hf. by eapply HP.
Qed.

Ltac same_walk :=
  repeat first
    [ assumption
    | reflexivity
    | apply same_bind; [|intro]
    | case_match ].

Section noninterference.
Context `{SerdeNumber, UnicodeData, JsonDeserializer}.

(** Two contexts that agree but for the inventories: equal at every root other
    than [global] and [repo], and [repo] keeps its [root]. *)
Definition repo_agrees (x1 x2 : option Value) : Prop :=
  match x1, x2 with
  | None, None => True
  | Some (JObject m1), Some (JObject m2) => map_get "root" m1 = map_get "root" m2
  | _, _ => False
  end.

Record same_but_inventories (c1 c2 : Value) : Prop := {
  same_roots : ∀ root, root ≠ "global" → root ≠ "repo" → value_get c1 root = value_get c2 root;
  same_repo : repo_agrees (value_get c1 "repo") (value_get c2 "repo")
}.

Section access.
Context (ev1 ev2 : Expression → N → evaluation RuntimeValue).

Lemma project_same (rest1 rest2 : RuntimeValue → N → evaluation RuntimeValue) v d :
  (∀ v d, same (rest1 v d) (rest2 v d)) → same (project rest1 v d) (project rest2 v d).
Proof.
  intros Hrest. unfold project. same_walk.
  generalize (membership_trace (metadata v)), (@nil ValueMetadata), (@nil Value).
  induction (collection_entries c) as [|[seg item] entries IH]; intros deps items out;
    cbn [project_loop]; [reflexivity|].
  apply same_bind; [apply Hrest|]. intros selected. destruct (value selected); [|reflexivity].
  apply same_bind; [reflexivity|]. intros x. destruct (ev_value x); [|reflexivity]. apply IH.
Qed.

Lemma access_same segs v d p :
  Forall (on_segment (λ e, ∀ d, same (ev1 e d) (ev2 e d))) segs →
  same (access ev1 segs v d p) (access ev2 segs v d p).
Proof.
  intros Hs. revert v d p. induction Hs as [|seg segs Hseg Hs IH]; intros v d p; cbn [access];
    [reflexivity|].
  apply same_bind; [reflexivity|]. intros _. destruct (value v); [|reflexivity].
  destruct seg as [k|i|e|].
  - apply same_bind; [reflexivity|]. intros w. apply IH.
  - apply same_bind; [reflexivity|]. intros w. apply IH.
  - apply same_bind; [apply Hseg|]. intros w. destruct (value w); [|reflexivity].
    apply same_bind; [reflexivity|]. intros [x|]; [|reflexivity].
    apply same_bind; [reflexivity|]. intros y. apply IH.
  - apply project_same. intros w dw. apply IH.
Qed.

Lemma call_arguments_same args d values t :
  Forall (λ e, ∀ d, same (ev1 e d) (ev2 e d)) args →
  same (call_arguments ev1 args d values t) (call_arguments ev2 args d values t).
Proof.
  intros Ha. revert values t. induction Ha as [|e args He Ha IH]; intros values t;
    cbn [call_arguments]; [reflexivity|].
  apply same_bind; [apply He|]. intros v. destruct (value v); [apply IH|reflexivity].
Qed.
End access.

(** Values of the whole [repo] scope in the two contexts. *)
Definition alike (v1 v2 : RuntimeValue) : Prop :=
  metadata v1 = metadata v2 ∧
  match value v1, value v2 with
  | None, None => True
  | Some (Borrowed (JObject m1)), Some (Borrowed (JObject m2)) =>
      map_get "root" m1 = map_get "root" m2
  | _, _ => False
  end.

Lemma select_root_alike v1 v2 :
  alike v1 v2 → same (select v1 (PProperty "root")) (select v2 (PProperty "root")).
Proof.
  intros [Hm Hv]. unfold select. rewrite Hm.
  destruct (value v1) as [[[| | | | |m1]|]|], (value v2) as [[[| | | | |m2]|]|];
    try done. simpl in *. by rewrite Hv.
Qed.

Lemma alike_none v1 v2 : alike v1 v2 → value v1 = None → v1 = v2.
Proof.
  intros [Hm Hv] Hn1. rewrite Hn1 in Hv. destruct v1, v2; simpl in *. subst.
  by destruct value0.
Qed.

Lemma alike_merge t v1 v2 :
  alike v1 v2 →
  alike {| value := value v1; metadata := merge_dependencies t (metadata v1) |}
        {| value := value v2; metadata := merge_dependencies t (metadata v2) |}.
Proof. intros [Hm Hv]. split; [simpl; by rewrite Hm|done]. Qed.

(** The literal selector of a string evaluates to that string. *)
Lemma literal_returns sc k d :
  returns (λ v, value v = Some (Owned (JString k))) (evaluate sc (ELiteral (LString k)) d).
Proof.
  cbn [evaluate]. apply returns_seq, returns_seq. unfold owned.
  eapply returns_bind; [apply returns_any|]. intros m _. by apply returns_ret.
Qed.

Lemma on_budget_returns {A} (P : A → Prop) (m : budgeted A) :
  returns P m → returns P (on_budget m).
Proof.
  intros Hm s a s'. unfold on_budget. destruct (m (budget s)) as [r b] eqn:E.
  intros [= -> <-]. by eapply Hm.
Qed.

Lemma dynamic_segment_returns k :
  returns (λ x, x = Some (PProperty k)) (on_budget (dynamic_segment (JString k))).
Proof. apply on_budget_returns. simpl. by apply returns_seq, returns_ret. Qed.

Section contexts.
Context (sc1 sc2 : Scope) (aliases : list string).
Context (Hbindings : bindings sc1 = bindings sc2)
  (Haliases : ∀ a, In a aliases ↔ is_Some (map_get a (bindings sc1)))
  (Hcontexts : same_but_inventories (context sc1) (context sc2)).

Definition evaluates_same (e : Expression) : Prop :=
  ∀ d, same (evaluate sc1 e d) (evaluate sc2 e d).

Lemma alias_root root :
  existsb (String.eqb root) aliases = true → path_root sc1 root = path_root sc2 root.
Proof.
  intros (a & Ha & ->%String.eqb_eq)%existsb_exists. unfold path_root. rewrite <- Hbindings.
  apply Haliases in Ha as [b ->]. done.
Qed.

Lemma other_root root :
  root ≠ "global" → root ≠ "repo" → path_root sc1 root = path_root sc2 root.
Proof.
  intros Hg Hr. unfold path_root. rewrite Hbindings, (same_roots _ _ Hcontexts); done.
Qed.

Lemma repo_root_alike :
  existsb (String.eqb "repo") aliases = false → alike (path_root sc1 "repo") (path_root sc2 "repo").
Proof.
  intros Hrepo. pose proof (same_repo _ _ Hcontexts) as Hagree. unfold path_root.
  destruct (map_get "repo" (bindings sc1)) as [b|] eqn:Eb.
  { assert (In "repo" aliases) as Hin by (apply Haliases; eauto).
    rewrite (proj2 (existsb_exists _ _)) in Hrepo; [done|]. exists "repo". by split. }
  rewrite <- Hbindings, Eb. split; [done|]. simpl.
  destruct (value_get (context sc1) "repo") as [[]|], (value_get (context sc2) "repo") as [[]|];
    done.
Qed.

Lemma access_alike seg segs v1 v2 d p :
  alike v1 v2 →
  seg = AProperty "root" ∨ seg = ADynamic (ELiteral (LString "root")) →
  Forall (on_segment evaluates_same) (seg :: segs) →
  same (access (evaluate sc1) (seg :: segs) v1 d p) (access (evaluate sc2) (seg :: segs) v2 d p).
Proof.
  intros Ha Hseg [Hs Hsegs]%Forall_cons. cbn [access].
  apply same_bind; [reflexivity|]. intros _. destruct (value v1) as [c1|] eqn:E1.
  2: { pose proof (alike_none _ _ Ha E1) as <-. rewrite E1. reflexivity. }
  destruct (value v2) as [c2|] eqn:E2.
  2: { destruct Ha as [_ Ha]. rewrite E1, E2 in Ha. by destruct c1 as [[]|]. }
  destruct Hseg as [-> | ->].
  - apply same_bind; [by apply select_root_alike|]. intros w. by apply access_same.
  - eapply same_bind_returns; [apply Hs|apply literal_returns|]. intros w Hw. rewrite Hw.
    eapply same_bind_returns; [reflexivity|apply dynamic_segment_returns|]. intros x ->.
    apply same_bind; [|intros y; by apply access_same].
    rewrite <- E1, <- E2. apply select_root_alike. by apply alike_merge.
Qed.

Lemma path_same path :
  expression_reads aliases (EPath path) = false → evaluates_same (EPath path).
Proof.
  intros Hr d. cbn [evaluate]. apply same_bind; [reflexivity|]. intros _.
  destruct path as [|[root|i] rest]; [reflexivity| |reflexivity]. simpl in *.
  destruct (existsb (String.eqb root) aliases) eqn:Ea; simpl in Hr.
  { rewrite (alias_root root Ea). reflexivity. }
  destruct (String.eqb_spec root "global") as [->|Hg]; [done|].
  destruct (String.eqb_spec root "repo") as [->|Hrepo]; simpl in Hr.
  2: { rewrite other_root by done. reflexivity. }
  pose proof (repo_root_alike Ea) as Hal.
  destruct rest as [|[k|i] rest]; [discriminate Hr| |discriminate Hr].
  apply negb_false_iff, bool_decide_eq_true in Hr as [= ->]. cbn [select_path].
  apply same_bind; [reflexivity|]. intros _. apply same_bind; [by apply select_root_alike|].
  reflexivity.
Qed.

(** The base of an access that starts at an inventory root. *)
Lemma scope_path_base e root m :
  scope_path aliases e = Some (root, m) →
  match e with
  | EPath _ | EAccess _ _ => True
  | _ => False
  end ∧ (m = Whole → e = EPath [PProperty root] ∧ existsb (String.eqb root) aliases = false).
Proof.
  destruct e as [l|path|base segs|f args|e|op l r]; try done.
  - destruct path as [|[k|i] rest]; try done. simpl.
    destruct (existsb (String.eqb k) aliases) eqn:Ea; [done|]. simpl. destruct (negb _); [done|].
    intros [= <- <-]. split; [done|]. by destruct rest as [|[]].
  - simpl. destruct (scope_path aliases base) as [[root' m']|]; [|done]. simpl.
    intros [= <- <-]. split; [done|].
    destruct m'; try done. by destruct segs as [|[|i|[[]| | | | |]|] segs].
Qed.

Lemma selectors_clear segs :
  existsb (λ seg, match seg with ADynamic v => expression_reads aliases v | _ => false end) segs
    = false →
  Forall (on_segment (λ e, expression_reads aliases e = false → evaluates_same e)) segs →
  Forall (on_segment evaluates_same) segs.
Proof.
  intros Hr Hs. induction Hs as [|seg segs Hseg Hs IH]; [constructor|].
  simpl in Hr. apply orb_false_iff in Hr as [Hr1 Hr2]. constructor; [|by apply IH].
  destruct seg; simpl in *; auto.
Qed.

(** Clear bases of a named scope are clear expressions. *)
Lemma clear_base e root :
  scope_path aliases e = Some (root, Named "root") → root ≠ "global" →
  access_keys_read aliases e = false → expression_reads aliases e = false.
Proof.
  intros Hs Hg Hk. destruct (scope_path_base e _ _ Hs) as [He _].
  destruct e as [|path|base segs| | |]; try done; cbn [expression_reads]; rewrite Hs;
    cbn [access_keys_read] in Hk; rewrite ?Hk; simpl;
    (destruct (String.eqb_spec root "global"); [done|]); reflexivity.
Qed.

Lemma access_expression_same base segs :
  (expression_reads aliases base = false → evaluates_same base) →
  Forall (on_segment (λ e, expression_reads aliases e = false → evaluates_same e)) segs →
  expression_reads aliases (EAccess base segs) = false → evaluates_same (EAccess base segs).
Proof.
  intros IHb IHs Hr d. cbn [evaluate]. apply same_bind; [reflexivity|]. intros _.
  cbn [expression_reads scope_path] in Hr.
  destruct (scope_path aliases base) as [[root m]|] eqn:Eb; simpl in Hr.
  - apply orb_false_iff in Hr as [[[Hk Hsel]%orb_false_iff Hg]%orb_false_iff Hn].
    apply String.eqb_neq in Hg. apply negb_false_iff, bool_decide_eq_true in Hn.
    apply selectors_clear in IHs; [|done].
    destruct m as [|k|]; [| |done].
    + destruct (scope_path_base base _ _ Eb) as [_ Hw]. destruct (Hw eq_refl) as [-> Ha].
      simpl in Eb. rewrite Ha in Eb. simpl in Eb.
      destruct (String.eqb_spec root "global") as [|_]; [done|].
      destruct (String.eqb_spec root "repo") as [->|]; [|done].
      intros s. cbn [evaluate]. unfold bind at 1 2 3 4.
      destruct (on_budget (step (d + 1)) s) as [[[]|e] s']; [|done]. simpl.
      destruct segs as [|seg segs]; [done|]. apply access_alike; [by apply repo_root_alike| |done].
      destruct seg as [k|i|[[]| | | | |]|]; simplify_eq; auto.
    + injection Hn as ->. apply same_bind; [|intros v; by apply access_same].
      apply IHb. by apply (clear_base base root).
  - apply orb_false_iff in Hr as [Hb Hsel]. apply selectors_clear in IHs; [|done].
    apply same_bind; [by apply IHb|]. intros v. by apply access_same.
Qed.

Lemma clear_expression_same e :
  expression_reads aliases e = false → evaluates_same e.
Proof.
  induction e as [l|path|base segs IHb IHs|f args IHa|e IHe|op l r IHl IHr]
    using Expression_ind_nested; intros Hr.
  - intros d. reflexivity.
  - by apply path_same.
  - by apply access_expression_same.
  - intros d. cbn [evaluate]. apply same_bind; [reflexivity|]. intros _.
    destruct (negb _); [reflexivity|]. apply same_bind; [|reflexivity].
    apply call_arguments_same. simpl in Hr. induction IHa as [|e args He IHa IH]; [constructor|].
    simpl in Hr. apply orb_false_iff in Hr as [Hr1 Hr2]. constructor; [by apply He|by apply IH].
  - intros d. cbn [evaluate]. apply same_bind; [reflexivity|]. intros _.
    apply same_bind; [by apply IHe|]. reflexivity.
  - simpl in Hr. apply orb_false_iff in Hr as [Hl Hr]. intros d. cbn [evaluate].
    apply same_bind; [reflexivity|]. intros _. apply same_bind; [by apply IHl|]. intros v.
    destruct (value v); [|reflexivity]. destruct (_ || _); [reflexivity|].
    apply same_bind; [by apply IHr|]. reflexivity.
Qed.
End contexts.
End noninterference.

(** ** Properties *)

Section properties.
Context `{SerdeNumber, UnicodeData, JsonDeserializer}.

(** An expression that the analysis clears gives the same result, trace,
    error and budget in every two contexts that differ only in their
    inventories, under any bindings the analysis was told of; so a check that
    demands no inventory cannot observe one. *)
Theorem cleared_expression_ignores_inventories (sc1 sc2 : Scope) aliases e :
  bindings sc1 = bindings sc2 →
  (∀ a, In a aliases ↔ is_Some (map_get a (bindings sc1))) →
  same_but_inventories (context sc1) (context sc2) →
  expression_reads aliases e = false →
  ∀ depth s, evaluate sc1 e depth s = evaluate sc2 e depth s.
Proof. intros Hb Ha Hc He depth s. by apply (clear_expression_same sc1 sc2 aliases Hb Ha Hc). Qed.
End properties.
