(* ===== verification/Lifecycle.v ===== *)
(** * Definition lifecycle (crates/antiburn-checks/src/definition_lifecycle.rs, discovery.rs)

    Reconciliation of a discovered definition with the retained state, and the
    step relation it induces.  The generation number is a 64-bit counter that
    saturates. *)

From stdpp Require Import relations.
From S2P Require Import Prelude RustString Json Diagnostics Domain Check.

(** ** Data of discovery.rs *)

Inductive DefinitionScope := GlobalScope | ProjectScope.

#[export] Instance DefinitionScope_eq_dec : EqDecision DefinitionScope.
Proof. solve_decision. Defined.

Inductive InactiveKind := Invalid | Paused.

#[export] Instance InactiveKind_eq_dec : EqDecision InactiveKind.
Proof. solve_decision. Defined.

Section lifecycle.
Context `{SerdeNumber}.

Inductive DefinitionState :=
| Ready (check : CompiledCheck)
| StateInvalid (diagnostics : list Diagnostic)
| StatePaused (diagnostics : list Diagnostic).

Record EffectiveDefinition := {
  ed_id : string;
  ed_scope : DefinitionScope;
  ed_source_paths : list string;
  ed_content_revision : list N;
  ed_state : DefinitionState
}.

(** ** Data of definition_lifecycle.rs *)

Record EffectiveActivation := {
  ea_id : ActivationId;
  ea_revision : list N;
  ea_definition_scope : DefinitionScope;
  ea_source_paths : list string;
  ea_project_root : option string;
  ea_compiled : CompiledCheck;
  ea_bootstrap_position : ObservationPosition;
  ea_bootstrap_publication : PublicationCursor
}.

Inductive LifecycleState :=
| Active (activation : EffectiveActivation)
| Uncompiled (generation : Generation)
| Inactive (revision : list N) (project_root : option string) (generation : Generation)
    (scope : DefinitionScope) (source_paths : list string) (kind : InactiveKind)
| Removed (generation : Generation).

Inductive LifecycleTransition :=
| Unchanged (activation : EffectiveActivation)
| Activated (activation : EffectiveActivation)
| Deactivated (revision : list N) (project_root : option string) (scope : DefinitionScope)
    (source_paths : list string) (kind : InactiveKind) (next_generation : Generation)
| TransitionRemoved (next_generation : Generation)
| UnchangedInactive.

Definition generation_of (s : LifecycleState) : Generation :=
  match s with
  | Active a => a_generation (ea_id a)
  | Inactive _ _ g _ _ _ | Removed g | Uncompiled g => g
  end.

(** [current.saturating_add(1)] on [u64] *)
Definition next_generation (s : LifecycleState) : Generation :=
  N.min U64_MAX (generation_of s + 1).

(** The compiled definition, or why there is none. *)
Definition readiness (s : DefinitionState) : CompiledCheck + InactiveKind :=
  match s with
  | Ready c => inl c
  | StateInvalid _ => inr Invalid
  | StatePaused _ => inr Paused
  end.

Definition reconcile_scoped (previous : LifecycleState) (definition : option EffectiveDefinition)
    (project_root : option string) (scope_binding : ActivationScope)
    (bootstrap_head : ObservationPosition) (bootstrap_publication : PublicationCursor) :
    LifecycleTransition :=
  match definition with
  | None =>
      match previous with
      | Removed g => TransitionRemoved g
      | _ => TransitionRemoved (next_generation previous)
      end
  | Some d =>
      match readiness (ed_state d) with
      | inr kind =>
          let deactivated :=
            Deactivated (ed_content_revision d) project_root (ed_scope d) (ed_source_paths d) kind
              (next_generation previous) in
          match previous with
          | Inactive revision old_project _ scope source_paths old_kind =>
              if bool_decide (revision = ed_content_revision d) &&
                 bool_decide (old_project = project_root) &&
                 bool_decide (scope = ed_scope d) &&
                 bool_decide (source_paths = ed_source_paths d) &&
                 bool_decide (old_kind = kind)
              then UnchangedInactive else deactivated
          | _ => deactivated
          end
      | inl compiled =>
          let activated :=
            Activated {|
              ea_id := {| a_scope := scope_binding; a_definition_id := ed_id d;
                          a_generation := next_generation previous |};
              ea_revision := ed_content_revision d;
              ea_definition_scope := ed_scope d;
              ea_source_paths := ed_source_paths d;
              ea_project_root := project_root;
              ea_compiled := compiled;
              ea_bootstrap_position := bootstrap_head;
              ea_bootstrap_publication := bootstrap_publication |} in
          match previous with
          | Active active =>
              if bool_decide (a_scope (ea_id active) = scope_binding) &&
                 bool_decide (ea_revision active = ed_content_revision d) &&
                 bool_decide (ea_project_root active = project_root) &&
                 bool_decide (ea_definition_scope active = ed_scope d) &&
                 bool_decide (ea_source_paths active = ed_source_paths d)
              then Unchanged active else activated
          | _ => activated
          end
      end
  end.

(** [reconcile]: the default scope and publication boundary. *)
Definition reconcile (previous : LifecycleState) (definition : option EffectiveDefinition)
    (project_root : option string) (bootstrap_head : ObservationPosition) : LifecycleTransition :=
  reconcile_scoped previous definition project_root ActivationScope_default bootstrap_head 0.

(** [LifecycleState::apply] *)
Definition apply (s : LifecycleState) (t : LifecycleTransition) : LifecycleState :=
  match t with
  | Unchanged a | Activated a => Active a
  | UnchangedInactive => s
  | Deactivated revision project_root scope source_paths kind g =>
      Inactive revision project_root g scope source_paths kind
  | TransitionRemoved g => Removed g
  end.

(** ** The step relation

    One reconciliation with any inputs, its transition applied. *)
Inductive step : LifecycleState → LifecycleState → Prop :=
| step_reconcile s definition project_root scope head publication :
    step s (apply s (reconcile_scoped s definition project_root scope head publication)).

(** Every step keeps the state or takes the next generation. *)
Lemma step_generation s s' :
  step s s' →
  s' = s ∨ generation_of s' = next_generation s.
Proof.
  intros [s0 d root scope head pub]. unfold reconcile_scoped.
  destruct d as [d|]; [|destruct s0; simpl; auto].
  destruct (readiness (ed_state d)) as [c|k]; destruct s0; simpl; try (by right);
    case_match; simpl; auto.
Qed.

Lemma steps_monotone s s' :
  generation_of s ≤ U64_MAX → rtc step s s' →
  generation_of s ≤ generation_of s' ≤ U64_MAX.
Proof.
  intros Hs Hr. induction Hr as [s|s s1 s2 Hstep _ IH]; [lia|].
  destruct (step_generation _ _ Hstep) as [->|Hg]; [by apply IH|].
  unfold next_generation in Hg. lia.
Qed.

(** A run that keeps the generation keeps the state. *)
Lemma steps_same_generation s s' :
  generation_of s < U64_MAX → rtc step s s' → generation_of s' = generation_of s → s' = s.
Proof.
  intros Hs Hr. induction Hr as [s|s s1 s2 Hstep Hr IH]; [done|]. intros Hg.
  destruct (step_generation _ _ Hstep) as [->|Hn]; [by apply IH|].
  unfold next_generation in Hn. pose proof (steps_monotone s1 s2 ltac:(lia) Hr). lia.
Qed.

(** ** Properties *)

(** C37: along any run of reconciliations generations never decrease, and two
    states of one generation are the same state: a generation names one
    activation, with one revision, binding and bootstrap boundary. *)
Theorem generation_names_activation s s' :
  generation_of s < U64_MAX → rtc step s s' →
  generation_of s ≤ generation_of s' ∧ (generation_of s' = generation_of s → s' = s).
Proof.
  intros Hs Hr. split; [|by apply steps_same_generation].
  apply (steps_monotone s s'); [lia|done].
Qed.

(** What the retained state must agree on with a discovered definition. *)
Definition bound_to (s : LifecycleState) (d : option EffectiveDefinition)
    (root : option string) (scope : ActivationScope) : Prop :=
  match d with
  | None => ∃ g, s = Removed g
  | Some d =>
      match readiness (ed_state d) with
      | inl _ => ∃ a, s = Active a ∧ a_scope (ea_id a) = scope ∧
                      ea_revision a = ed_content_revision d ∧ ea_project_root a = root ∧
                      ea_definition_scope a = ed_scope d ∧ ea_source_paths a = ed_source_paths d
      | inr k => ∃ g, s = Inactive (ed_content_revision d) root g (ed_scope d) (ed_source_paths d) k
      end
  end.

Lemma reconcile_bound s d root scope head pub :
  bound_to s d root scope → apply s (reconcile_scoped s d root scope head pub) = s.
Proof.
  unfold bound_to, reconcile_scoped. destruct d as [d|]; [|by intros [g ->]].
  destruct (readiness (ed_state d)) as [c|k].
  - intros (a & -> & H1 & H2 & H3 & H4 & H5). by rewrite !bool_decide_true.
  - intros [g ->]. by rewrite !bool_decide_true.
Qed.

Lemma reconcile_establishes s d root scope head pub :
  bound_to (apply s (reconcile_scoped s d root scope head pub)) d root scope.
Proof.
  unfold bound_to, reconcile_scoped. destruct d as [d|]; [|destruct s; simpl; eauto].
  destruct (readiness (ed_state d)) as [c|k].
  - destruct s as [a| | | ]; [|eexists; split_and!; reflexivity..].
    destruct (_ && _) eqn:E; [|eexists; split_and!; reflexivity]. simpl. exists a.
    rewrite !andb_true_iff, !bool_decide_eq_true in E. by destruct E as [[[[]]]].
  - destruct s as [|g|r p g sc paths k'|g]; [eexists; reflexivity..| |eexists; reflexivity].
    destruct (_ && _) eqn:E; [|eexists; reflexivity]. simpl. exists g.
    rewrite !andb_true_iff, !bool_decide_eq_true in E. destruct E as [[[[]]]]. by subst.
Qed.

(** Reconciliation reaches the discovered definition in one step and then
    stays: whatever the retained state, the applied transition binds it to the
    definition, its root and its scope, and reconciling again with the same
    definition changes nothing, whatever the source heads are by then. *)
Theorem reconcile_converges s d root scope head pub head' pub' :
  let s' := apply s (reconcile_scoped s d root scope head pub) in
  bound_to s' d root scope ∧ apply s' (reconcile_scoped s' d root scope head' pub') = s'.
Proof.
  split; [apply reconcile_establishes|]. apply reconcile_bound, reconcile_establishes.
Qed.

(** An active generation loses its rights exactly when its binding changes:
    the next state has a later generation unless the definition is still ready
    with the same scope, revision, root, source scope and paths. *)
Theorem active_revoked_iff_rebound a d root scope head pub :
  a_generation (ea_id a) < U64_MAX →
  a_generation (ea_id a) <
    generation_of (apply (Active a) (reconcile_scoped (Active a) d root scope head pub)) ↔
  ¬ bound_to (Active a) d root scope.
Proof.
  intros Hg. set (s' := apply _ _). split.
  - intros Hlt Hb. unfold s' in Hlt. rewrite (reconcile_bound _ _ _ _ _ _ Hb) in Hlt. simpl in Hlt.
    lia.
  - intros Hb. assert (step (Active a) s') as Hstep by constructor.
    destruct (step_generation _ _ Hstep) as [Hs|Hs].
    + destruct Hb. rewrite <- Hs. apply reconcile_establishes.
    + rewrite Hs. unfold next_generation. simpl. lia.
Qed.
End lifecycle.

Definition sample_definition : EffectiveDefinition (H:=text_numbers) :=
  {| ed_id := "sample"; ed_scope := ProjectScope; ed_source_paths := ["a.yml"];
     ed_content_revision := [1]; ed_state := Ready sample_check |}.

Definition sample_active : LifecycleState (H:=text_numbers) :=
  apply (Removed 4) (reconcile (Removed 4) (Some sample_definition) None 7).

Lemma generation_names_activation_witness :
  generation_of sample_active = 5 ∧
  (5 = generation_of (Removed (H:=text_numbers) 4) → sample_active = Removed 4).
Proof.
  split; [vm_refl|].
  apply (generation_names_activation (H:=text_numbers) (Removed 4) sample_active).
  - apply N.ltb_lt. vm_refl.
  - apply rtc_once. constructor.
Defined.

Definition sample_activation : EffectiveActivation (H:=text_numbers) :=
  {| ea_id := {| a_scope := ActivationScope_default; a_definition_id := "sample"; a_generation := 5 |};
     ea_revision := [1]; ea_definition_scope := ProjectScope; ea_source_paths := ["a.yml"];
     ea_project_root := None; ea_compiled := sample_check; ea_bootstrap_position := 7;
     ea_bootstrap_publication := 0 |}.

Lemma active_revoked_iff_rebound_witness :
  5 < generation_of (apply (Active sample_activation)
        (reconcile (Active sample_activation) None None 9)).
Proof.
  apply (active_revoked_iff_rebound (H:=text_numbers) sample_activation None None
    ActivationScope_default 9 0).
  - apply N.ltb_lt. vm_refl.
  - intros [g Hg]. discriminate Hg.
Defined.
