(* ===== verification/Discovery.v ===== *)
(** * Discovery of definitions (crates/antiburn-checks/src/discovery.rs)

    Check files, which an outer boundary enumerates, become effective definitions:
    the files of a scope that define the same identity are resolved together, and
    a project definition replaces the global one.  SHA-256 is a parameter.
    The first part models [std::path] on Unix. *)

From S2P Require Import Json Diagnostics Yaml Template Decision Check Compile Domain Lifecycle Prelude Order RustString.

#[local] Open Scope N_scope.

(** ** Paths

    [std::path::Path] on Unix, as far as the sources use it.  A path is its byte
    string; two paths are equal, and are ordered, by their components. *)

Inductive Component :=
| RootDir
| CurDir
| ParentDir
| Normal (name : string).

#[export] Instance Component_eq_dec : EqDecision Component.
Proof. solve_decision. Defined.

(** A segment after the first: empty ones and [.] are skipped. *)
Definition path_segment (s : string) : option Component :=
  if String.eqb s "" || String.eqb s "." then None
  else if String.eqb s ".." then Some ParentDir
  else Some (Normal s).

(** [path.components()] *)
Definition components (path : string) : list Component :=
  let segments := str_split "/" path in
  if starts_with path "/" then RootDir :: omap path_segment segments
  else
    match segments with
    | first :: rest =>
        if String.eqb first "." then CurDir :: omap path_segment rest else omap path_segment segments
    | [] => []
    end.

(** [path.parent()], of which only the components matter. *)
Definition parent (path : string) : option (list Component) :=
  match last (components path) with
  | Some (Normal _ | CurDir | ParentDir) => Some (removelast (components path))
  | _ => None
  end.

(** [path.file_name()] *)
Definition file_name (path : string) : option string :=
  match last (components path) with Some (Normal name) => Some name | _ => None end.

(** The text before the last dot and the text after it; nothing before it when
    there is no dot. *)
Fixpoint split_last_dot (s : string) : option string * string :=
  match s with
  | "" => (None, "")
  | String a t =>
      match split_last_dot t with
      | (Some before, after) => (Some (String a before), after)
      | (None, after) => if Ascii.eqb a "." then (Some "", after) else (None, String a after)
      end
  end.

(** A file name in its stem and its extension.  A name whose only dot comes first
    has no extension. *)
Definition split_extension (name : string) : string * option string :=
  match split_last_dot name with
  | (None, _) | (Some "", _) => (name, None)
  | (Some before, after) => (before, Some after)
  end.

(** [path.file_stem()] and [path.extension()] *)
Definition file_stem (path : string) : option string := fst ∘ split_extension <$> file_name path.
Definition extension (path : string) : option string := name ← file_name path; (split_extension name).2.

(** [base.join(path)] *)
Definition path_join (base path : string) : string :=
  if starts_with path "/" then path
  else if String.eqb base "" || ends_with base "/" then base +:+ path
  else base +:+ ("/" +:+ path).

(** The derived order of components: the variants in order, then the names. *)
Definition component_rank (c : Component) : N :=
  match c with RootDir => 0 | CurDir => 1 | ParentDir => 2 | Normal _ => 3 end.
Definition component_name (c : Component) : string := match c with Normal name => name | _ => "" end.
Definition component_cmp (x y : Component) : comparison :=
  cmp_then (N.compare (component_rank x) (component_rank y))
    (String.compare (component_name x) (component_name y)).

(** [Path::cmp] *)
Definition path_cmp (p q : string) : comparison := list_cmp component_cmp (components p) (components q).

#[export] Instance component_cmp_laws : CmpLaws component_cmp.
Proof. apply lexicographic_laws; apply pullback_laws, _. Qed.

#[export] Instance component_cmp_eq : CmpEq component_cmp.
Proof.
  intros x y. unfold component_cmp, cmp_then. destruct x, y; simpl; try done.
  destruct (String.compare _ _) eqn:E; try done. by apply String.compare_eq_iff in E as ->.
Qed.

#[export] Instance path_cmp_laws : CmpLaws path_cmp.
Proof. apply (pullback_laws components), _. Qed.

(** Paths that compare as equal are the same path. *)
Lemma path_cmp_eq p q : path_cmp p q = Eq → components p = components q.
Proof. unfold path_cmp. apply cmp_eq. Qed.

Example components_sample :
  components "/home//user/./.antiburn/checks/" =
  [RootDir; Normal "home"; Normal "user"; Normal ".antiburn"; Normal "checks"].
Proof. reflexivity. Qed.

Example components_relative : components "./a/../b" = [CurDir; Normal "a"; ParentDir; Normal "b"].
Proof. reflexivity. Qed.

Example stem_samples :
  (λ p, (file_stem p, extension p)) <$> ["/c/a.b.yml"; "/c/.yml"; "/c/a."; "/c/a"; "/"] =
  [(Some "a.b", Some "yml"); (Some ".yml", None); (Some "a", Some ""); (Some "a", None); (None, None)].
Proof. reflexivity. Qed.

Section discovery.
Context `{SerdeNumber, YamlParser}.
Variable sha256 : string → list N.

Record DiscoveryConfig := {
  global_checks_directory : option string;
  project_root : option string
}.

Record CheckFile := {
  cf_path : string;
  cf_content : result string Diagnostic;
  cf_enabled : bool
}.

Record DiscoveryResult := {
  definitions : list EffectiveDefinition;
  discovery_diagnostics : list Diagnostic
}.

Record ParsedCandidate := {
  pc_file : CheckFile;
  pc_result : result CompiledCheck (list Diagnostic)
}.

(** A panic, or a compiler that stops without a check and without diagnostics. *)
Inductive DiscoveryStop := NoCandidate | CompilerStopped (why : CompileFailure).

(** ** Files *)

Definition is_immediate_yaml_child (directory path : string) : bool :=
  bool_decide (parent path = Some (components directory)) &&
  match extension path with
  | Some e => String.eqb e "yml" || String.eqb e "yaml"
  | None => false
  end.

(** A name that is not UTF-8 holds a byte that the test of the bytes refuses. *)
Definition check_id (path : string) : option string :=
  match file_stem path with
  | Some (String first rest as stem) =>
      if is_ascii_lowercase first &&
         str_all (λ b, is_ascii_lowercase b || is_ascii_digit b || Ascii.eqb b "-") rest
      then Some stem else None
  | _ => None
  end.

(** What is hashed for one candidate *)
Definition revision_bytes (candidate : ParsedCandidate) : string :=
  match cf_content (pc_file candidate) with
  | Ok content => content
  | Err error => String "255" (as_str (code error) +:+ message error)
  end +:+ String "000" "".

Definition content_revision (candidates : list ParsedCandidate) : list N :=
  sha256 (foldr (λ c s, revision_bytes c +:+ s) "" candidates).

Definition scope_label (scope : DefinitionScope) : string :=
  match scope with GlobalScope => "global" | ProjectScope => "project" end.

(** The result of compiling one file; every diagnostic names the file. *)
Definition parse_candidate (file : CheckFile) : result ParsedCandidate DiscoveryStop :=
  let parsed r := Ok {| pc_file := file; pc_result := r |} in
  match cf_content file with
  | Ok content =>
      match compile content with
      | Ok check => parsed (Ok check)
      | Err (Diagnosed errors) => parsed (Err ((λ e, with_source_path e (cf_path file)) <$> errors))
      | Err why => Err (CompilerStopped why)
      end
  | Err error => parsed (Err [with_source_path error (cf_path file)])
  end.

(** ** Groups of one identity in one scope *)

Definition resolve_scope_group (id : string) (scope : DefinitionScope)
    (candidates : list ParsedCandidate) (diagnostics : list Diagnostic) :
    result (EffectiveDefinition * list Diagnostic) DiscoveryStop :=
  let candidates := sort_by (λ l r, path_cmp (cf_path (pc_file l)) (cf_path (pc_file r))) candidates in
  let source_paths := (λ c, cf_path (pc_file c)) <$> candidates in
  let definition state :=
    {| ed_id := id; ed_scope := scope; ed_source_paths := source_paths;
       ed_content_revision := content_revision candidates; ed_state := state |} in
  match candidates with
  | [] => Err NoCandidate
  | [candidate] =>
      let path := cf_path (pc_file candidate) in
      let '(compiled, errors) :=
        match pc_result candidate with
        | Ok compiled => (Some compiled, [])
        | Err errors => (None, errors)
        end in
      let errors := (λ e, with_source_path e path) <$> errors in
      if negb (cf_enabled (pc_file candidate)) then
        let paused := with_source_path
          (Diagnostic_new DiscoveryPaused ("Selected check `" +:+ (id +:+ "` is paused."))) path in
        Ok (definition (StatePaused errors), (diagnostics ++ errors ++ [paused])%list)
      else
        match compiled with
        | Some compiled => Ok (definition (Ready compiled), diagnostics)
        | None => Ok (definition (StateInvalid errors), (diagnostics ++ errors)%list)
        end
  | _ =>
      let duplicate := Diagnostic_new DiscoveryDuplicateId
        ("Multiple " +:+ (scope_label scope +:+ (" files define check ID `" +:+ (id +:+ "`.")))) in
      Ok (definition (StateInvalid [duplicate]),
          (diagnostics ++ (with_source_path duplicate <$> source_paths))%list)
  end.

(** ** The whole resolution *)

Definition scope_rank (scope : DefinitionScope) : N :=
  match scope with GlobalScope => 0 | ProjectScope => 1 end.

(** The derived order of the keys [(DefinitionScope, String)] *)
Definition group_cmp (x y : DefinitionScope * string) : comparison :=
  cmp_then (N.compare (scope_rank x.1) (scope_rank y.1)) (String.compare x.2 y.2).

Definition Groups : Type := list (DefinitionScope * string * list ParsedCandidate).

Definition file_scope (config : DiscoveryConfig) (path : string) : option DefinitionScope :=
  let project_dir := (λ root, path_join (path_join root ".antiburn") "checks") <$> project_root config in
  let within directory :=
    match directory with Some d => is_immediate_yaml_child d path | None => false end in
  if within (global_checks_directory config) then Some GlobalScope
  else if within project_dir then Some ProjectScope
  else None.

(** The loop over the files. *)
Fixpoint group_files (config : DiscoveryConfig) (files : list CheckFile) (grouped : Groups)
    (diagnostics : list Diagnostic) : result (Groups * list Diagnostic) DiscoveryStop :=
  match files with
  | [] => Ok (grouped, diagnostics)
  | file :: files =>
      match file_scope config (cf_path file) with
      | None => group_files config files grouped diagnostics
      | Some scope =>
          match check_id (cf_path file) with
          | None =>
              let invalid := with_source_path
                (Diagnostic_new DiscoveryInvalidId "Check filename stem must match [a-z][a-z0-9-]*.")
                (cf_path file) in
              group_files config files grouped (diagnostics ++ [invalid])%list
          | Some id =>
              let? candidate := parse_candidate file in
              group_files config files
                (entry group_cmp (scope, id) (λ group, (default [] group ++ [candidate])%list) grouped)
                diagnostics
          end
      end
  end.

Definition Definitions : Type := list (string * EffectiveDefinition).

(** The loop over the groups, in the order of their keys. *)
Fixpoint resolve_groups (grouped : Groups) (global project : Definitions)
    (diagnostics : list Diagnostic) :
    result (Definitions * Definitions * list Diagnostic) DiscoveryStop :=
  match grouped with
  | [] => Ok (global, project, diagnostics)
  | (scope, id, candidates) :: grouped =>
      let? resolved := resolve_scope_group id scope candidates diagnostics in
      let '(definition, diagnostics) := resolved in
      match scope with
      | GlobalScope =>
          resolve_groups grouped (btree_insert String.compare id definition global) project diagnostics
      | ProjectScope =>
          resolve_groups grouped global (btree_insert String.compare id definition project) diagnostics
      end
  end.

Definition shadow_diagnostics (global project : Definitions) : list Diagnostic :=
  mjoin ((λ kv,
    match btree_get String.compare (fst kv) global with
    | Some shadowed =>
        with_source_path
          (Diagnostic_new DiscoveryShadowed
             ("Global check `" +:+ (fst kv +:+ "` is shadowed by a project definition.")))
        <$> ed_source_paths shadowed
    | None => []
    end) <$> project).

(** [map.extend(other)] *)
Definition btree_extend (m other : Definitions) : Definitions :=
  fold_left (λ m kv, btree_insert String.compare (fst kv) (snd kv) m) other m.

Definition discover_definitions (config : DiscoveryConfig) (files : list CheckFile) :
    result DiscoveryResult DiscoveryStop :=
  let? grouped := group_files config files [] [] in
  let? resolved := resolve_groups grouped.1 [] [] grouped.2 in
  let '(global, project, diagnostics) := resolved in
  Ok {| definitions := (btree_extend global project).*2;
        discovery_diagnostics := (diagnostics ++ shadow_diagnostics global project)%list |}.
End discovery.
