(* ===== verification/DiscoveryFacts.v ===== *)
(** * Facts about the discovery of definitions (crates/antiburn-checks/src/discovery.rs)

    Discovery computes the reference [effective]: a project definition, or else
    the global one, of every identity.  The order in which the files are
    enumerated does not matter, and no file of a check directory is lost without
    a diagnostic. *)

From stdpp Require Import sorting.
From S2P Require Import Prelude Order RustString Json Diagnostics Yaml YamlFacts Expression Template Decision Check Compile CompileFacts Domain Lifecycle Discovery.

#[local] Open Scope N_scope.

#[export] Instance group_cmp_laws : CmpLaws group_cmp.
Proof.
  apply lexicographic_laws; [apply (pullback_laws (λ x, scope_rank (fst x))), _|apply (pullback_laws snd), _].
Qed.

#[export] Instance group_cmp_eq : CmpEq group_cmp.
Proof.
  intros [s i] [s' i']. unfold group_cmp, cmp_then. simpl.
  destruct s, s'; simpl; try done; intros ->%String.compare_eq_iff; done.
Qed.

Lemma sort_by_fmap {A B} (f : A → B) (cmp : B → B → comparison) l :
  sort_by cmp (f <$> l) = f <$> sort_by (λ x y, cmp (f x) (f y)) l.
Proof.
  induction l as [|x l IH]; [done|]. cbn [fmap list_fmap]. simpl. rewrite IH. clear IH.
  induction (sort_by _ l) as [|y k IH]; [done|]. cbn [fmap list_fmap]. simpl.
  destruct (cmp (f x) (f y)); simpl; [done..|]. by rewrite IH.
Qed.

Section facts.
Context `{SerdeNumber, YamlParser}.
Variable sha256 : string → list N.

(** ** The reference *)

(** What a file holds: a check, or the diagnostics that name the file. *)
Definition compiled_file (file : CheckFile) : result CompiledCheck (list Diagnostic) :=
  match cf_content file with
  | Ok content =>
      match compile content with
      | Ok check => Ok check
      | Err (Diagnosed errors) => Err ((λ e, with_source_path e (cf_path file)) <$> errors)
      | Err _ => Err []
      end
  | Err error => Err [with_source_path error (cf_path file)]
  end.

Definition candidate_of (file : CheckFile) : ParsedCandidate :=
  {| pc_file := file; pc_result := compiled_file file |}.

Definition file_cmp (l r : CheckFile) : comparison := path_cmp (cf_path l) (cf_path r).

#[export] Instance file_cmp_laws : CmpLaws file_cmp.
Proof. apply (pullback_laws cf_path), _. Qed.

Definition duplicate_id (id : string) (scope : DefinitionScope) : Diagnostic :=
  Diagnostic_new DiscoveryDuplicateId
    ("Multiple " +:+ (scope_label scope +:+ (" files define check ID `" +:+ (id +:+ "`.")))).

(** The state that the files of one identity and one scope define. *)
Definition group_state (id : string) (scope : DefinitionScope) (files : list CheckFile) : DefinitionState :=
  match files with
  | [file] =>
      match compiled_file file with
      | Ok check => if cf_enabled file then Ready check else StatePaused []
      | Err errors => if cf_enabled file then StateInvalid errors else StatePaused errors
      end
  | _ => StateInvalid [duplicate_id id scope]
  end.

Definition group_definition (id : string) (scope : DefinitionScope) (files : list CheckFile) :
    EffectiveDefinition :=
  let files := sort_by file_cmp files in
  {| ed_id := id; ed_scope := scope; ed_source_paths := cf_path <$> files;
     ed_content_revision := content_revision sha256 (candidate_of <$> files);
     ed_state := group_state id scope files |}.

Definition in_group (config : DiscoveryConfig) (scope : DefinitionScope) (id : string) (file : CheckFile) : bool :=
  bool_decide (file_scope config (cf_path file) = Some scope) && bool_decide (check_id (cf_path file) = Some id).

(** The files of a scope that define an identity. *)
Definition group (config : DiscoveryConfig) (files : list CheckFile) (scope : DefinitionScope) (id : string) :
    list CheckFile :=
  List.filter (in_group config scope id) files.

Definition defined (id : string) (scope : DefinitionScope) (files : list CheckFile) :
    option EffectiveDefinition :=
  match files with [] => None | _ => Some (group_definition id scope files) end.

(** The definition of an identity: a project file hides every global one. *)
Definition effective (config : DiscoveryConfig) (files : list CheckFile) (id : string) :
    option EffectiveDefinition :=
  match group config files ProjectScope id with
  | [] => defined id GlobalScope (group config files GlobalScope id)
  | files => defined id ProjectScope files
  end.

(** ** Candidates *)

Lemma parse_candidate_of file : parse_candidate file = Ok (candidate_of file).
Proof.
  unfold parse_candidate, candidate_of, compiled_file. destruct (cf_content file) as [content|]; [|done].
  pose proof (compile_spec content) as Hs. by destruct (compile content) as [|[]].
Qed.

Lemma compiled_file_errors file errors :
  compiled_file file = Err errors →
  errors ≠ [] ∧ (λ e, with_source_path e (cf_path file)) <$> errors = errors.
Proof.
  unfold compiled_file. destruct (cf_content file) as [content|]; [|by intros [= <-]].
  pose proof (compile_spec content) as Hs. destruct (compile content) as [|[ds| |]]; try done.
  intros [= <-]. split; [by destruct ds|]. by rewrite <- list_fmap_compose.
Qed.

(** The diagnostics of a group *)
Definition group_diagnostics (id : string) (scope : DefinitionScope) (files : list CheckFile) : list Diagnostic :=
  match sort_by file_cmp files with
  | [file] =>
      let errors := match compiled_file file with Ok _ => [] | Err errors => errors end in
      if cf_enabled file then errors
      else (errors ++ [with_source_path
        (Diagnostic_new DiscoveryPaused ("Selected check `" +:+ (id +:+ "` is paused."))) (cf_path file)])%list
  | files => with_source_path (duplicate_id id scope) <$> (cf_path <$> files)
  end.

Lemma resolve_scope_group_spec id scope files ds :
  files ≠ [] →
  resolve_scope_group sha256 id scope (candidate_of <$> files) ds =
  Ok (group_definition id scope files, (ds ++ group_diagnostics id scope files)%list).
Proof.
  intros Hne. unfold resolve_scope_group, group_definition, group_diagnostics.
  rewrite sort_by_fmap. change (λ x y, path_cmp _ _) with file_cmp. rewrite <- list_fmap_compose.
  assert (sort_by file_cmp files ≠ []) as Hs.
  { intros Hs. pose proof (sort_by_perm file_cmp files) as Hp. rewrite Hs in Hp.
    by apply Permutation_nil_l in Hp. }
  destruct (sort_by file_cmp files) as [|file [|file' rest]]; [done| |done].
  cbn [fmap list_fmap group_state compose pc_file pc_result candidate_of].
  destruct (compiled_file file) as [check|errors] eqn:E; simpl.
  - destruct (cf_enabled file); simpl; [by rewrite app_nil_r|done].
  - apply compiled_file_errors in E as [_ ->]. by destruct (cf_enabled file).
Qed.

(** ** The loop over the files *)

(** The diagnostic of a file whose name is not an identity. *)
Definition invalid_name (config : DiscoveryConfig) (file : CheckFile) : option Diagnostic :=
  match file_scope config (cf_path file), check_id (cf_path file) with
  | Some _, None =>
      Some (with_source_path
        (Diagnostic_new DiscoveryInvalidId "Check filename stem must match [a-z][a-z0-9-]*.") (cf_path file))
  | _, _ => None
  end.

Definition grouped_with (old : option (list ParsedCandidate)) (files : list CheckFile) :
    option (list ParsedCandidate) :=
  match files with [] => old | _ => Some (default [] old ++ (candidate_of <$> files))%list end.

Lemma grouped_with_cons old file files :
  grouped_with old (file :: files) = grouped_with (Some (default [] old ++ [candidate_of file])%list) files.
Proof. destruct files; simpl; [done|]. by rewrite <- app_assoc. Qed.

Lemma group_files_spec config files : ∀ grouped ds,
  ascending group_cmp grouped →
  ∃ grouped',
    group_files config files grouped ds = Ok (grouped', (ds ++ omap (invalid_name config) files)%list) ∧
    ascending group_cmp grouped' ∧
    ∀ scope id, btree_get group_cmp (scope, id) grouped' =
      grouped_with (btree_get group_cmp (scope, id) grouped) (group config files scope id).
Proof.
  induction files as [|file files IH]; intros grouped ds Ha; simpl.
  { exists grouped. by rewrite app_nil_r. }
  unfold group, in_group. simpl. unfold invalid_name at 1.
  destruct (file_scope config (cf_path file)) as [scope|] eqn:Es.
  2: { destruct (IH grouped ds Ha) as (g & ? & ? & Hg). exists g. split_and!; [done..|]. intros s i.
       rewrite Hg. by rewrite bool_decide_false. }
  destruct (check_id (cf_path file)) as [id|] eqn:Ei.
  2: { edestruct (IH grouped) as (g & Hg1 & ? & Hg); [done|]. exists g. split_and!; [|done|].
       - rewrite Hg1. by rewrite <- app_assoc.
       - intros s i. rewrite Hg. by rewrite (bool_decide_false (None = _)), andb_false_r. }
  rewrite parse_candidate_of. cbn [result_bind].
  edestruct IH as (g & Hg1 & ? & Hg); [by apply entry_ascending; [apply _..|]|].
  exists g. split_and!; [done..|]. intros s i. rewrite Hg.
  destruct (decide ((scope, id) = (s, i))) as [[= -> ->]|Hne].
  - rewrite !bool_decide_true by done. cbn [andb]. rewrite grouped_with_cons.
    by rewrite btree_get_entry_eq by (done || apply _).
  - rewrite btree_get_entry_ne by (done || apply _).
    destruct (bool_decide_reflect (Some scope = Some s)) as [[= ->]|]; [|done].
    rewrite bool_decide_false; [done|]. congruence.
Qed.

(** ** The loop over the groups *)

(** Every group holds the files it is made of. *)
Definition groups_hold (config : DiscoveryConfig) (files : list CheckFile) (grouped : Groups) : Prop :=
  ∀ scope id cs, (scope, id, cs) ∈ grouped →
    cs = candidate_of <$> group config files scope id ∧ group config files scope id ≠ [].

Definition all_group_diagnostics (config : DiscoveryConfig) (files : list CheckFile) (grouped : Groups) :
    list Diagnostic :=
  mjoin ((λ g, group_diagnostics g.1.2 g.1.1 (group config files g.1.1 g.1.2)) <$> grouped).

Definition of_scope (scope : DefinitionScope) (global project : Definitions) : Definitions :=
  match scope with GlobalScope => global | ProjectScope => project end.

(** What the map of a scope holds after the loop. *)
Definition resolved_with (config : DiscoveryConfig) (files : list CheckFile) (grouped : Groups)
    (scope : DefinitionScope) (id : string) (old : Definitions) : option EffectiveDefinition :=
  match btree_get group_cmp (scope, id) grouped with
  | Some _ => Some (group_definition id scope (group config files scope id))
  | None => btree_get String.compare id old
  end.

Lemma resolved_with_cons config files s i cs grouped scope id (old : Definitions) :
  ascending group_cmp ((s, i, cs) :: grouped) → ascending String.compare old →
  resolved_with config files grouped scope id
    (if decide (scope = s) then
       btree_insert String.compare i (group_definition i s (group config files s i)) old
     else old) =
  resolved_with config files ((s, i, cs) :: grouped) scope id old.
Proof.
  intros [Ha Hbelow]%ascending_cons Ho. unfold resolved_with. cbn [btree_get].
  destruct (group_cmp (scope, id) (s, i)) eqn:E.
  { apply cmp_eq in E as [= -> ->]. rewrite btree_get_below by done.
    rewrite decide_True by done. by apply btree_get_entry_eq; [apply _..|]. }
  all: destruct (btree_get group_cmp (scope, id) grouped); [done|];
    case_decide as Hs; [|done]; subst s;
    (apply btree_get_entry_ne; [apply _|]); intros ->; by rewrite cmp_refl in E by apply _.
Qed.

Lemma resolve_groups_spec config files grouped : ∀ global project ds,
  ascending group_cmp grouped → groups_hold config files grouped →
  ascending String.compare global → ascending String.compare project →
  ∃ global' project',
    resolve_groups sha256 grouped global project ds =
      Ok (global', project', (ds ++ all_group_diagnostics config files grouped)%list) ∧
    ascending String.compare global' ∧ ascending String.compare project' ∧
    ∀ scope id, btree_get String.compare id (of_scope scope global' project') =
      resolved_with config files grouped scope id (of_scope scope global project).
Proof.
  induction grouped as [|[[s i] cs] grouped IH]; intros global project ds Ha Hh Hg Hp.
  { exists global, project. unfold all_group_diagnostics. simpl. by rewrite app_nil_r. }
  pose proof Ha as [Ha' Hbelow]%ascending_cons.
  destruct (Hh s i cs) as [-> Hne]; [left|].
  assert (groups_hold config files grouped) as Hh' by (intros ????; apply Hh; by right).
  cbn [resolve_groups]. rewrite resolve_scope_group_spec by done. cbn [result_bind].
  assert (∀ m : Definitions, ascending String.compare m →
    ascending String.compare (btree_insert String.compare i
      (group_definition i s (group config files s i)) m)) as Hi.
  { intros m Hm. apply entry_ascending; [apply _..|done]. }
  unfold all_group_diagnostics. cbn [fmap list_fmap mjoin list_join fst snd]. rewrite app_assoc.
  destruct s;
    [destruct (IH (btree_insert String.compare i (group_definition i GlobalScope
                     (group config files GlobalScope i)) global) project
               (ds ++ group_diagnostics i GlobalScope (group config files GlobalScope i))%list)
       as (g' & p' & Hr & ? & ? & Hget); [by auto..|]
    |destruct (IH global (btree_insert String.compare i (group_definition i ProjectScope
                     (group config files ProjectScope i)) project)
               (ds ++ group_diagnostics i ProjectScope (group config files ProjectScope i))%list)
       as (g' & p' & Hr & ? & ? & Hget); [by auto..|]];
  (exists g', p'; split_and!; [exact Hr|done|done|]); intros scope id; rewrite Hget;
  (rewrite <- (resolved_with_cons _ _ _ _ _ _ scope id) by (exact Ha || by destruct scope)); by destruct scope.
Qed.
(** ** The whole discovery *)

Lemma btree_extend_spec other : ∀ m,
  ascending String.compare m → ascending String.compare other →
  ascending String.compare (btree_extend m other) ∧
  ∀ id, btree_get String.compare id (btree_extend m other) =
    match btree_get String.compare id other with
    | Some d => Some d
    | None => btree_get String.compare id m
    end.
Proof.
  unfold btree_extend. induction other as [|[k d] other IH]; intros m Hm Ho; [done|].
  apply ascending_cons in Ho as [Ho Hk]. cbn [fold_left fst snd btree_get].
  destruct (IH (btree_insert String.compare k d m)) as [Ha Hget]; [|done|].
  { apply entry_ascending; [apply _..|done]. }
  split; [done|]. intros id. rewrite Hget. destruct (String.compare id k) eqn:E.
  - apply cmp_eq in E as ->. rewrite btree_get_below by done. by apply btree_get_entry_eq; [apply _..|].
  - destruct (btree_get _ id other); [done|]. apply btree_get_entry_ne; [apply _|].
    intros ->. by rewrite cmp_refl in E by apply _.
  - destruct (btree_get _ id other); [done|]. apply btree_get_entry_ne; [apply _|].
    intros ->. by rewrite cmp_refl in E by apply _.
Qed.

Lemma group_of config files scope id file :
  file ∈ group config files scope id ↔
  file ∈ files ∧ file_scope config (cf_path file) = Some scope ∧ check_id (cf_path file) = Some id.
Proof.
  unfold group, in_group. rewrite !list_elem_of_In, filter_In, andb_true_iff, !bool_decide_eq_true. done.
Qed.

(** The maps of both scopes and the diagnostics. *)
Lemma discover_spec config files :
  ∃ global project grouped,
    discover_definitions sha256 config files =
      Ok {| definitions := (btree_extend global project).*2;
            discovery_diagnostics :=
              ((omap (invalid_name config) files ++ all_group_diagnostics config files grouped) ++
               shadow_diagnostics global project)%list |} ∧
    ascending String.compare global ∧ ascending String.compare project ∧
    (∀ scope id, btree_get String.compare id (of_scope scope global project) =
       defined id scope (group config files scope id)) ∧
    (∀ scope id, group config files scope id ≠ [] → ∃ cs, (scope, id, cs) ∈ grouped).
Proof.
  destruct (group_files_spec config files [] []) as (grouped & Hg & Ha & Hget); [constructor|].
  assert (∀ scope id, btree_get group_cmp (scope, id) grouped =
    match group config files scope id with [] => None | fs => Some (candidate_of <$> fs) end) as Hget'.
  { intros scope id. rewrite Hget. simpl. by destruct (group config files scope id). }
  destruct (resolve_groups_spec config files grouped [] [] (omap (invalid_name config) files))
    as (global & project & Hr & ? & ? & Hmap); [done| |constructor..|].
  { intros scope id cs Hin. apply (btree_get_elem group_cmp) in Hin; [|done]. rewrite Hget' in Hin.
    destruct (group config files scope id); [done|]. by injection Hin as <-. }
  exists global, project, grouped. split_and!; [|done|done| |].
  - unfold discover_definitions. rewrite Hg. cbn [result_bind fst snd]. rewrite app_nil_l.
    by rewrite Hr.
  - intros scope id. rewrite Hmap. unfold resolved_with, defined. rewrite Hget'.
    by destruct (group config files scope id), scope.
  - intros scope id Hne. specialize (Hget' scope id).
    destruct (group config files scope id) as [|f fs]; [done|].
    eexists. apply (btree_get_elem group_cmp); [done|exact Hget'].
Qed.

Lemma effective_id config files id d : effective config files id = Some d → ed_id d = id.
Proof.
  unfold effective, defined. destruct (group _ _ ProjectScope _); [|by intros [= <-]].
  destruct (group _ _ GlobalScope _); [done|by intros [= <-]].
Qed.

Lemma extended_effective config files global project id :
  ascending String.compare global → ascending String.compare project →
  (∀ scope id, btree_get String.compare id (of_scope scope global project) =
     defined id scope (group config files scope id)) →
  btree_get String.compare id (btree_extend global project) = effective config files id.
Proof.
  intros Hg Hp Hmap. destruct (btree_extend_spec project global Hg Hp) as [_ ->].
  pose proof (Hmap ProjectScope id) as H1. pose proof (Hmap GlobalScope id) as H2. simpl in H1, H2.
  rewrite H1, H2. unfold effective. by destruct (group config files ProjectScope id).
Qed.

(** C27: discovery always ends in a result.  Its definitions come in ascending order
    of their identities, and the definition of an identity is the effective one:
    that of the project files that define it, even when they are invalid or
    paused, and that of the global files otherwise.  It is ready exactly when one
    enabled file of that scope defines it and compiles, paused when the one file
    is disabled, and invalid when it does not compile or has a namesake. *)
Theorem discovery_effective config files :
  ∃ r, discover_definitions sha256 config files = Ok r ∧
    StronglySorted (cmp_lt String.compare) (ed_id <$> definitions r) ∧
    ∀ d, d ∈ definitions r ↔ effective config files (ed_id d) = Some d.
Proof.
  destruct (discover_spec config files) as (global & project & grouped & Hd & Hg & Hp & Hmap & _).
  eexists. split_and!; [exact Hd| |]; simpl;
    destruct (btree_extend_spec project global Hg Hp) as [Ha _].
  - assert (ed_id <$> (btree_extend global project).*2 = (btree_extend global project).*1) as ->; [|done].
    rewrite <- list_fmap_compose. apply list_fmap_ext. intros i [id d] Hi.
    apply list_elem_of_lookup_2 in Hi. apply (btree_get_elem String.compare) in Hi; [|done].
    rewrite (extended_effective config files) in Hi by done. by apply effective_id in Hi.
  - intros d. rewrite list_elem_of_fmap. split.
    + intros ([id d'] & -> & Hin). simpl. apply (btree_get_elem String.compare) in Hin; [|done].
      rewrite (extended_effective config files) in Hin by done. by rewrite (effective_id _ _ _ _ Hin).
    + intros He. exists (ed_id d, d). split; [done|]. apply (btree_get_elem String.compare); [done|].
      by rewrite (extended_effective config files).
Qed.
(** ** The order of the files *)

Lemma group_permuted config files files' scope id :
  files ≡ₚ files' → group config files scope id ≡ₚ group config files' scope id.
Proof.
  unfold group. induction 1 as [|x l l' _ IH|x y l|]; simpl; [done| | |by etrans].
  - case_match; by rewrite IH.
  - repeat case_match; try done. apply Permutation_swap.
Qed.

Lemma defined_permuted id scope files files' :
  files ≡ₚ files' → (∀ x y, x ∈ files → y ∈ files → file_cmp x y = Eq → x = y) →
  defined id scope files = defined id scope files'.
Proof.
  intros Hp Hd. unfold defined. destruct files as [|x l].
  { by apply Permutation_nil_l in Hp as <-. }
  destruct files' as [|x' l']; [by apply Permutation_nil_r in Hp|].
  unfold group_definition. by rewrite (sort_by_permuted file_cmp _ (x' :: l') Hp Hd).
Qed.

(** C28: the definitions do not depend on the order in which the files of distinct
    paths are enumerated. *)
Theorem discovery_order_irrelevant config files files' :
  files ≡ₚ files' → NoDup ((λ file, components (cf_path file)) <$> files) →
  ∃ r r', discover_definitions sha256 config files = Ok r ∧
    discover_definitions sha256 config files' = Ok r' ∧ definitions r = definitions r'.
Proof.
  intros Hp Hn.
  destruct (discover_spec config files) as (global & project & grouped & Hd & Hg & Hpr & Hmap & _).
  destruct (discover_spec config files') as (global' & project' & grouped' & Hd' & Hg' & Hpr' & Hmap' & _).
  eexists _, _. split_and!; [exact Hd|exact Hd'|]. simpl. f_equal.
  apply (btree_ext String.compare); [by apply btree_extend_spec..|]. intros id.
  rewrite (extended_effective config files), (extended_effective config files') by done.
  assert (∀ scope, defined id scope (group config files scope id) =
                   defined id scope (group config files' scope id)) as Hs.
  { intros scope. apply defined_permuted; [by apply group_permuted|].
    intros x y (Hx & _)%group_of (Hy & _)%group_of Hc%path_cmp_eq. by eapply NoDup_fmap_inj. }
  unfold effective. pose proof (Hs ProjectScope) as Hs1. rewrite (Hs GlobalScope).
  pose proof (group_permuted config files files' ProjectScope id Hp) as Hpp.
  destruct (group config files ProjectScope id).
  - apply Permutation_nil_l in Hpp as <-. done.
  - destruct (group config files' ProjectScope id); [by apply Permutation_nil_r in Hpp|done].
Qed.

(** ** Diagnostics *)

Definition is_ready (state : DefinitionState) : bool := match state with Ready _ => true | _ => false end.

Definition reported (path : string) (ds : list Diagnostic) : Prop :=
  ∃ d, d ∈ ds ∧ source_path d = Some path.

Lemma reported_app path ds es : reported path (ds ++ es) ↔ reported path ds ∨ reported path es.
Proof. unfold reported. set_solver. Qed.

Lemma errors_reported file errors :
  compiled_file file = Err errors → reported (cf_path file) errors.
Proof.
  intros [Hne He]%compiled_file_errors. destruct errors as [|e errors]; [done|].
  injection He as He _. exists e. split; [left|]. by rewrite <- He.
Qed.

(** The diagnostics of a group name each of its files, unless it is ready. *)
Lemma group_reported id scope files path :
  path ∈ ed_source_paths (group_definition id scope files) →
  is_ready (ed_state (group_definition id scope files)) = true ∨
  reported path (group_diagnostics id scope files).
Proof.
  unfold group_definition, group_diagnostics. simpl.
  destruct (sort_by file_cmp files) as [|file [|file' rest]]; simpl.
  - by intros ?%elem_of_nil.
  - intros ->%list_elem_of_singleton.
    destruct (compiled_file file) as [check|errors] eqn:E; destruct (cf_enabled file); simpl.
    + by left.
    + right. eexists. split; [left|done].
    + right. by apply errors_reported.
    + right. apply reported_app. left. by apply errors_reported.
  - intros Hp. right. exists (with_source_path (duplicate_id id scope) path). split; [|done].
    apply (list_elem_of_fmap_2 (with_source_path (duplicate_id id scope))) in Hp. exact Hp.
Qed.
Lemma group_source id scope files file :
  file ∈ files → cf_path file ∈ ed_source_paths (group_definition id scope files).
Proof. intros Hf. simpl. apply list_elem_of_fmap_2. by rewrite sort_by_perm. Qed.

Lemma group_diagnostics_in config files grouped scope id cs path :
  (scope, id, cs) ∈ grouped →
  reported path (group_diagnostics id scope (group config files scope id)) →
  reported path (all_group_diagnostics config files grouped).
Proof.
  intros Hin (d & Hd & Hs). exists d. split; [|done]. unfold all_group_diagnostics.
  apply list_elem_of_join. eexists. split; [exact Hd|]. apply list_elem_of_fmap. by exists (scope, id, cs).
Qed.

Lemma shadow_reported global project id shadowed d path :
  (id, d) ∈ project → btree_get String.compare id global = Some shadowed →
  path ∈ ed_source_paths shadowed → reported path (shadow_diagnostics global project).
Proof.
  intros Hin Hg Hp. eexists. unfold shadow_diagnostics. rewrite list_elem_of_join. split.
  - eexists. split; [|apply list_elem_of_fmap; exists (id, d); split; [reflexivity|done]].
    simpl. rewrite Hg. by apply list_elem_of_fmap_2.
  - done.
Qed.

(** No file of a check directory disappears without a diagnostic.  It is a
    source of the effective definition of its identity, or a diagnostic names it
    because its name is not an identity or because a project definition shadows
    it.  The diagnostics also name every source of a definition that is not ready. *)
Theorem discovery_accounts config files r :
  discover_definitions sha256 config files = Ok r →
  (∀ file, file ∈ files → is_Some (file_scope config (cf_path file)) →
     (∃ d, d ∈ definitions r ∧ check_id (cf_path file) = Some (ed_id d) ∧
           cf_path file ∈ ed_source_paths d) ∨
     reported (cf_path file) (discovery_diagnostics r)) ∧
  (∀ d path, d ∈ definitions r → path ∈ ed_source_paths d →
     is_ready (ed_state d) = true ∨ reported path (discovery_diagnostics r)).
Proof.
  destruct (discover_spec config files) as (global & project & grouped & -> & Hg & Hp & Hmap & Hin).
  intros [= <-]. simpl. destruct (btree_extend_spec project global Hg Hp) as [Ha Hget].
  split.
  - intros file Hf [scope Hs]. rewrite !reported_app.
    destruct (check_id (cf_path file)) as [id|] eqn:Hi.
    2: { right. left. left. eexists. split.
         - apply list_elem_of_omap. exists file. split; [done|]. unfold invalid_name. by rewrite Hs, Hi.
         - done. }
    assert (file ∈ group config files scope id) as Hgr by (by apply group_of).
    pose proof (group_source id scope _ _ Hgr) as Hsrc.
    pose proof (Hmap scope id) as Hsc. pose proof (Hmap ProjectScope id) as Hpc.
    assert (defined id scope (group config files scope id) =
            Some (group_definition id scope (group config files scope id))) as Hdef
      by (by destruct (group config files scope id); [apply elem_of_nil in Hgr|]).
    rewrite Hdef in Hsc. destruct (btree_get String.compare id project) as [pd|] eqn:Hpd.
    + destruct scope; simpl in Hsc, Hpc.
      * right. right. apply (btree_get_elem String.compare) in Hpd; [|done].
        by eapply shadow_reported.
      * left. rewrite Hpd in Hsc. injection Hsc as ->.
        exists (group_definition id ProjectScope (group config files ProjectScope id)).
        split_and!; [|done|exact Hsrc].
        apply list_elem_of_fmap. exists (id, group_definition id ProjectScope (group config files ProjectScope id)).
        split; [done|]. apply (btree_get_elem String.compare); [done|]. by rewrite Hget, Hpd.
    + destruct scope; simpl in Hsc; [|congruence].
      left. exists (group_definition id GlobalScope (group config files GlobalScope id)).
      split_and!; [|done|exact Hsrc]. apply list_elem_of_fmap.
      exists (id, group_definition id GlobalScope (group config files GlobalScope id)).
      split; [done|]. apply (btree_get_elem String.compare); [done|]. by rewrite Hget, Hpd.
  - intros d path ([id d'] & -> & Hd)%list_elem_of_fmap Hpath. simpl in *.
    apply (btree_get_elem String.compare) in Hd; [|done].
    assert (∃ scope, btree_get String.compare id (of_scope scope global project) = Some d') as [scope Hs].
    { rewrite Hget in Hd. destruct (btree_get _ id project) eqn:E; [exists ProjectScope|exists GlobalScope];
        simpl; congruence. }
    rewrite Hmap in Hs. destruct (Hin scope id) as [cs Hcs]; [intros Hgr; by rewrite Hgr in Hs|].
    assert (d' = group_definition id scope (group config files scope id)) as ->
      by (unfold defined in Hs; destruct (group config files scope id); congruence).
    destruct (group_reported _ _ _ _ Hpath) as [Hr|Hr]; [by left|]. right. rewrite !reported_app.
    left. right. by eapply group_diagnostics_in.
Qed.
End facts.

(** ** A concrete discovery *)

Definition sample_sha (s : string) : list N := [str_len s].

Definition sample_config : DiscoveryConfig :=
  {| global_checks_directory := Some "/home/user/.antiburn/checks"; project_root := Some "/work" |}.

Definition sample_file (path : string) (enabled : bool) : CheckFile :=
  {| cf_path := path; cf_content := Ok "sample"; cf_enabled := enabled |}.

Definition unreadable_file : CheckFile :=
  {| cf_path := "/work/.antiburn/checks/review.yaml";
     cf_content := Err (Diagnostic_new DiscoveryReadFailed "Check file is not valid UTF-8.");
     cf_enabled := true |}.

Definition sample_files : list CheckFile :=
  [sample_file "/home/user/.antiburn/checks/twice.yml" true; unreadable_file;
   sample_file "/home/user/.antiburn/checks/review.yml" true; sample_file "/home/user/.antiburn/checks/Bad.yml" true;
   sample_file "/home/user/.antiburn/checks/nested/deep.yml" true; sample_file "/work/.antiburn/checks/idle.yml" false;
   sample_file "/home/user/.antiburn/checks/solo.yml" true; sample_file "/home/user/.antiburn/checks/twice.yaml" true].

Definition sample_discovery (files : list CheckFile) : result DiscoveryResult DiscoveryStop :=
  @discover_definitions text_numbers (sample_parser sample_tree) sample_sha sample_config files.

Definition state_name `{SerdeNumber} (state : DefinitionState) : string :=
  match state with Ready _ => "ready" | StateInvalid _ => "invalid" | StatePaused _ => "paused" end.

(** The unreadable project file hides the global check, and namesakes hide each other. *)
Example sample_definitions :
  result_map (λ r, (λ d, (ed_id d, ed_scope d, ed_source_paths d, state_name (ed_state d))) <$> definitions r)
    (sample_discovery sample_files) =
  Ok [("idle", ProjectScope, ["/work/.antiburn/checks/idle.yml"], "paused");
      ("review", ProjectScope, ["/work/.antiburn/checks/review.yaml"], "invalid");
      ("solo", GlobalScope, ["/home/user/.antiburn/checks/solo.yml"], "ready");
      ("twice", GlobalScope,
        ["/home/user/.antiburn/checks/twice.yaml"; "/home/user/.antiburn/checks/twice.yml"], "invalid")].
Proof. vm_compute. reflexivity. Qed.

Example sample_reports :
  result_map (λ r, (λ d, (code d, source_path d)) <$> discovery_diagnostics r) (sample_discovery sample_files) =
  Ok [(DiscoveryInvalidId, Some "/home/user/.antiburn/checks/Bad.yml");
      (DiscoveryDuplicateId, Some "/home/user/.antiburn/checks/twice.yaml");
      (DiscoveryDuplicateId, Some "/home/user/.antiburn/checks/twice.yml");
      (DiscoveryPaused, Some "/work/.antiburn/checks/idle.yml");
      (DiscoveryReadFailed, Some "/work/.antiburn/checks/review.yaml");
      (DiscoveryShadowed, Some "/home/user/.antiburn/checks/review.yml")].
Proof. vm_compute. reflexivity. Qed.

Lemma discovery_order_irrelevant_witness :
  NoDup ((λ file, components (cf_path file)) <$> sample_files) ∧
  ∃ r r', sample_discovery sample_files = Ok r ∧ sample_discovery (reverse sample_files) = Ok r' ∧
    definitions r = definitions r'.
Proof.
  assert (NoDup ((λ file, components (cf_path file)) <$> sample_files)) as Hn
    by (apply (bool_decide_unpack _); vm_compute; exact I).
  split; [exact Hn|].
  exact (@discovery_order_irrelevant text_numbers (sample_parser sample_tree) sample_sha sample_config
           sample_files (reverse sample_files) (symmetry (reverse_Permutation _)) Hn).
Defined.

Lemma discovery_accounts_witness :
  ∃ r, sample_discovery sample_files = Ok r ∧
    (∀ d path, d ∈ definitions r → path ∈ ed_source_paths d →
       is_ready (ed_state d) = true ∨ reported path (discovery_diagnostics r)).
Proof.
  destruct (sample_discovery sample_files) as [r|why] eqn:E.
  - exists r. split; [reflexivity|].
    exact (proj2 (@discovery_accounts text_numbers (sample_parser sample_tree) sample_sha sample_config
                    sample_files r E)).
  - pose proof sample_definitions as Hd. by rewrite E in Hd.
Defined.
