(* ===== verification/Preparation.v ===== *)
(** * Preparation of decision inputs (crates/antiburn-checks/src/preparation.rs)

    Conditions and input templates evaluated over a frozen context with the
    shared budget.  The alias bindings are a state of their own, because a map
    template inserts and removes its alias in the caller's bindings. *)

From S2P Require Import Prelude RustString Diagnostics Expression Domain Template Decision Check Json Budget Provenance Scalars Evaluator Inventories.

#[local] Open Scope N_scope.

(** ** State *)

Section preparation.
Context `{SerdeNumber, UnicodeData, JsonDeserializer}.

Definition Bindings : Type := list (string * EvaluatedValue).

Record PrepState := { ps_eval : EvalState; ps_bindings : Bindings }.

Definition preparation (A : Type) : Type := SE PrepState EvaluationError A.

Definition on_eval {A} (m : evaluation A) : preparation A := λ s,
  let '(r, e) := m (ps_eval s) in (r, {| ps_eval := e; ps_bindings := ps_bindings s |}).

Definition charge {A} (m : budgeted A) : preparation A := on_eval (on_budget m).

Definition set_bindings (f : Bindings → Bindings) : preparation unit := λ s,
  (Ok tt, {| ps_eval := ps_eval s; ps_bindings := f (ps_bindings s) |}).

(** A call whose error is returned after a cleanup: [let r = m; cleanup; r?]. *)
Definition then_cleanup {A} (m : preparation A) (f : Bindings → Bindings) : preparation A := λ s,
  let '(r, s) := m s in (r, {| ps_eval := ps_eval s; ps_bindings := f (ps_bindings s) |}).

(** ** Membership of the request history *)

Definition reads_requests_membership (t : EvaluationTrace) : bool :=
  existsb (λ d,
    bool_decide (dep_kind d = KMembership) &&
    match dep_path d with
    | [PProperty session; PProperty requests] =>
        String.eqb session "session" && String.eqb requests "requests"
    | _ => false
    end) (dependencies t).

Definition requests_complete (ctx : Value) : bool :=
  match (session ← value_get ctx "session"; value_get session "requests_complete") with
  | Some (JBool true) => true
  | _ => false
  end.

Definition selected_membership_is_available (t : EvaluationTrace) (ctx : Value) : bool :=
  negb (reads_requests_membership t) || requests_complete ctx.

Definition enforce_selected_membership (v : EvaluatedValue) (ctx : Value) : EvaluatedValue :=
  if negb (selected_membership_is_available (ev_trace v) ctx)
  then {| ev_value := Unavailable; ev_trace := ev_trace v; ev_metadata := ev_metadata v |}
  else v.

(** ** Conditions *)

Definition evaluate_condition (c : Condition) (ctx : Value) (bs : Bindings) (depth : N) :
    evaluation EvaluatedValue :=
  match c with
  | CondBoolean b => do* on_budget (step depth); available (JBool b)
  | CondExpression e =>
      let* v := evaluate_expression_with_budget e ctx bs depth in
      ret (enforce_selected_membership v ctx)
  end.

Inductive ConditionOutcome :=
| Matched | ConditionFalse | ConditionUnavailable | ConditionFailed (message : string).

(** A fresh budget. *)
Definition fresh_state : EvalState := {| budget := EvaluationBudget_default; next_root := 0 |}.

Definition evaluate_trigger_condition (check : CompiledCheck) (ctx : Value) : ConditionOutcome :=
  match cc_condition check with
  | None => Matched
  | Some c =>
      match (evaluate_condition c ctx [] 1 fresh_state).1 with
      | Ok v =>
          match ev_value v with
          | Available x => if is_truthy x then Matched else ConditionFalse
          | Unavailable => ConditionUnavailable
          end
      | Err e => ConditionFailed (message e)
      end
  end.

(** ** Templates *)

Definition invalid_template (msg : string) : EvaluationError :=
  {| code := RuntimeInvalidContext; message := msg |}.

Definition template_literal (l : InputLiteral) : Value :=
  match l with
  | LitNull => JNull
  | LitBoolean b => JBool b
  | LitNumber n => JNumber n
  | LitString s => JString s
  end.

Definition literal_bytes (l : InputLiteral) : N :=
  match l with
  | LitString s => str_len s
  | LitNull => 4
  | LitBoolean _ => 5
  | LitNumber _ => 32
  end.

Definition with_trace (v : EvaluationValue) (t : EvaluationTrace) : evaluation EvaluatedValue :=
  let* e := match v with
            | Available x => available x
            | Unavailable =>
                let* e := available JNull in
                ret {| ev_value := Unavailable; ev_trace := ev_trace e; ev_metadata := ev_metadata e |}
            end in
  ret {| ev_value := ev_value e; ev_trace := t; ev_metadata := ev_metadata e |}.

Definition set_value (v : EvaluationValue) (e : EvaluatedValue) : EvaluatedValue :=
  {| ev_value := v; ev_trace := ev_trace e; ev_metadata := ev_metadata e |}.

(** The evaluation of an expression under the current bindings. *)
Definition prepare_expression (e : Expression) (ctx : Value) (depth : N) : preparation EvaluatedValue :=
  λ s, on_eval (evaluate_expression_with_budget e ctx (ps_bindings s) depth) s.

Fixpoint prepare_text (parts : list TemplatePart) (ctx : Value) (depth : N) (text : string)
    (prepared : EvaluatedValue) : preparation EvaluatedValue :=
  match parts with
  | [] => ret (set_value (Available (JString text)) prepared)
  | part :: parts =>
      do* charge (step (depth + 1));
      match part with
      | PartLiteral literal =>
          do* charge (reserve_generated_bytes (str_len literal));
          prepare_text parts ctx depth (text +:+ literal) prepared
      | PartExpression e =>
          let* evaluated := prepare_expression e ctx (depth + 1) in
          let evaluated := enforce_selected_membership evaluated ctx in
          let prepared := merge_text_provenance prepared evaluated in
          match ev_value evaluated with
          | Available v =>
              let* t := charge (scalar_text v) in
              prepare_text parts ctx depth (text +:+ t) prepared
          | Unavailable => ret (set_value Unavailable prepared)
          end
      end
  end.

Inductive MapItem := ItemExcluded | ItemValue (v : Value) | ItemUnavailable.

Section loops.
(** [prepare_template] on the parts of a template. *)
Variable prepare : InputTemplate → N → preparation EvaluatedValue.

Fixpoint prepare_items (items : list InputTemplate) (depth : N) (values : list Value)
    (t : EvaluationTrace) : preparation EvaluatedValue :=
  match items with
  | [] => on_eval (with_trace (Available (JArray values)) t)
  | item :: items =>
      let* evaluated := prepare item (depth + 1) in
      let t := merge t (ev_trace evaluated) in
      match ev_value evaluated with
      | Available v => prepare_items items depth (values ++ [v])%list t
      | Unavailable => on_eval (with_trace Unavailable t)
      end
  end.

Fixpoint prepare_fields (items : list (string * InputTemplate)) (depth : N) (values : Map Value)
    (t : EvaluationTrace) : preparation EvaluatedValue :=
  match items with
  | [] => on_eval (with_trace (Available (JObject values)) t)
  | (key, item) :: items =>
      do* charge (reserve_generated_bytes (sat_add (str_len key) 4));
      let* evaluated := prepare item (depth + 1) in
      let t := merge t (ev_trace evaluated) in
      match ev_value evaluated with
      | Available v => prepare_fields items depth (map_insert key v values) t
      | Unavailable => on_eval (with_trace Unavailable t)
      end
  end.

(** [prepare_map_item], with the trace it merges into. *)
Definition prepare_map_item (condition : option Condition) (template : InputTemplate)
    (ctx : Value) (depth : N) (t : EvaluationTrace) : preparation (MapItem * EvaluationTrace) :=
  let body t :=
    let* evaluated := prepare template depth in
    let t := merge t (ev_trace evaluated) in
    ret (match ev_value evaluated with
         | Available v => ItemValue v
         | Unavailable => ItemUnavailable
         end, t) in
  match condition with
  | None => body t
  | Some c =>
      let* evaluated := (λ s, on_eval (evaluate_condition c ctx (ps_bindings s) depth) s) in
      let t := merge t (ev_trace evaluated) in
      match ev_value evaluated with
      | Unavailable => ret (ItemUnavailable, t)
      | Available v => if negb (is_truthy v) then ret (ItemExcluded, t) else body t
      end
  end.

(** The loop over the indexes [index..index + count] of a map template. *)
Fixpoint prepare_map (collection : EvaluatedValue) (alias : string) (condition : option Condition)
    (template : InputTemplate) (ctx : Value) (count : nat) (index depth : N)
    (values : list Value) (t : EvaluationTrace) : preparation EvaluatedValue :=
  match count with
  | O => on_eval (with_trace (Available (JArray values)) t)
  | S count =>
      let* item := on_eval (array_item collection index) in
      do* charge (reserve_generated_bytes (str_len alias));
      do* set_bindings (map_insert alias item);
      let* r := then_cleanup (prepare_map_item condition template ctx (depth + 1) t)
                  (map_remove alias) in
      match r.1 with
      | ItemExcluded =>
          prepare_map collection alias condition template ctx count (index + 1) depth values r.2
      | ItemValue v =>
          do* charge (reserve_generated_bytes 1);
          prepare_map collection alias condition template ctx count (index + 1) depth
            (values ++ [v])%list r.2
      | ItemUnavailable => on_eval (with_trace Unavailable r.2)
      end
  end.
End loops.

Fixpoint prepare_template (ctx : Value) (template : InputTemplate) (depth : N) :
    preparation EvaluatedValue :=
  do* charge (step depth);
  match template with
  | TLiteral l =>
      do* charge (reserve_generated_bytes (literal_bytes l));
      on_eval (available (template_literal l))
  | TExpression e =>
      let* v := prepare_expression e ctx depth in
      ret (enforce_selected_membership v ctx)
  | TText parts =>
      let* prepared := on_eval (available JNull) in
      prepare_text parts ctx depth "" prepared
  | TSequence items =>
      do* charge (visit_items (N.of_nat (length items)));
      do* charge (reserve_generated_bytes (sat_add (N.of_nat (length items)) 2));
      prepare_items (prepare_template ctx) items depth [] EvaluationTrace_default
  | TObject items =>
      do* charge (step depth);
      do* charge (visit_items (N.of_nat (length items)));
      do* charge (reserve_generated_bytes 2);
      prepare_fields (prepare_template ctx) items depth [] EvaluationTrace_default
  | TMap collection alias condition template =>
      let* collection := prepare_expression collection ctx (depth + 1) in
      match ev_value collection with
      | Unavailable => ret collection
      | Available (JArray items) =>
          do* charge (reserve_generated_bytes 2);
          let t := ev_membership_trace collection in
          if negb (selected_membership_is_available t ctx) then on_eval (with_trace Unavailable t)
          else prepare_map (prepare_template ctx) collection alias condition template ctx
                 (length items) 0 depth [] t
      | Available _ => fail (invalid_template "Map collection must be an array.")
      end
  end.

(** ** Entry points *)

Definition evaluate_decision_input_with_budget (decision : DecisionBlock) (ctx : Value) :
    evaluation EvaluatedValue := λ s,
  let '(r, s) := prepare_template ctx (d_input decision) 1 {| ps_eval := s; ps_bindings := [] |} in
  (result_map (λ v, enforce_selected_membership v ctx) r, ps_eval s).

Inductive PreparationOutcome :=
| PreparedReady (v : Value)
| PreparedUnavailable (message : string)
| PreparedFailed (message : string)
| PreparedResourceLimit (message : string).

Definition prepare_decision_input_with_budget (decision : DecisionBlock)
    (candidate : FrozenCandidate) (s : EvalState) : PreparationOutcome * EvalState :=
  let '(r, s) := evaluate_decision_input_with_budget decision (fc_value (fr_context candidate)) s in
  (match r with
   | Ok v =>
       match ev_value v with
       | Available x => PreparedReady x
       | Unavailable => PreparedUnavailable "Decision input depends on unavailable evidence."
       end
   | Err e =>
       if bool_decide (code e = EvaluationLimitExceeded) || exhausted (budget s)
       then PreparedResourceLimit (message e) else PreparedFailed (message e)
   end, s).

Definition prepare_decision_input (decision : DecisionBlock) (candidate : FrozenCandidate) :
    PreparationOutcome :=
  (prepare_decision_input_with_budget decision candidate fresh_state).1.
End preparation.

(** ** Preparation respects the budget and never panics *)

Create HintDb preparation discriminated.

Section safety.
Context `{SerdeNumber, UnicodeData, JsonDeserializer}.

Definition prep_le (s s' : PrepState) : Prop := eval_le (ps_eval s) (ps_eval s').

#[export] Instance prep_le_preorder : PreOrder prep_le.
Proof. split; unfold prep_le; [by intros s|intros a b c ??; by etrans]. Qed.

Definition prep_safe {A} (Q : A → Prop) (m : preparation A) : Prop :=
  safe (λ s, budget_live (budget (ps_eval s))) prep_le
    (λ e s, budget_stop e (budget (ps_eval s))) Q m.

Lemma on_eval_safe {A} (Q : A → Prop) (m : evaluation A) : eval_safe Q m → prep_safe Q (on_eval m).
Proof.
  intros Hm s Hs. destruct (Hm (ps_eval s) Hs) as [Hle HQ]. unfold on_eval, prep_le.
  by destruct (m (ps_eval s)) as [[a|e] s'].
Qed.

Lemma prep_bind_any {A B} (Q : B → Prop) (m : preparation A) (f : A → preparation B) :
  prep_safe any m → (∀ a, prep_safe Q (f a)) → prep_safe Q (bind m f).
Proof. intros Hm Hf. exact (safe_bind _ _ _ any Q m f Hm (λ a _, Hf a)). Qed.

Lemma prep_ret_any {A} (a : A) : prep_safe any (ret a).
Proof. by apply safe_ret; [apply _|]. Qed.

Lemma prep_invalid_safe {A} (Q : A → Prop) msg : prep_safe Q (fail (invalid_template msg)).
Proof. apply safe_fail; [apply _|]. intros s [Hok Hact]. split; [exact Hok|]. right. by split. Qed.

Lemma on_eval_any {A} (m : evaluation A) : eval_safe any m → prep_safe any (on_eval m).
Proof. apply on_eval_safe. Qed.

Lemma charge_any {A} (m : budgeted A) : budget_safe any m → prep_safe any (charge m).
Proof. intros Hm. by apply on_eval_any, on_budget_any. Qed.

Lemma available_safe v : eval_safe any (available v).
Proof. unfold available. apply eval_bind_any; [apply generated_safe|]. intros m. apply eval_ret_any. Qed.

Lemma with_trace_safe v t : eval_safe any (with_trace v t).
Proof.
  unfold with_trace. destruct v; (apply eval_bind_any; [|intros ?; apply eval_ret_any]).
  - apply available_safe.
  - apply eval_bind_any; [apply available_safe|]. intros ?. apply eval_ret_any.
Qed.

Lemma expression_safe e ctx bs depth : eval_safe any (evaluate_expression_with_budget e ctx bs depth).
Proof.
  unfold evaluate_expression_with_budget. apply eval_bind_any; [apply evaluate_safe|].
  intros v. eapply safe_mono; [apply finish_safe|done].
Qed.

Lemma condition_safe c ctx bs depth : eval_safe any (evaluate_condition c ctx bs depth).
Proof.
  destruct c as [b|e]; simpl; (apply eval_bind_any; [|intros ?]).
  - apply on_budget_any. auto with budget.
  - apply available_safe.
  - apply expression_safe.
  - apply eval_ret_any.
Qed.

Lemma array_item_safe v i : eval_safe any (array_item v i).
Proof.
  unfold array_item. apply eval_bind_any; [apply on_budget_any; auto with budget|]. intros _.
  repeat case_match; try apply eval_ret_any.
  apply eval_bind_any; [apply on_budget_any; auto with budget|]. intros ?. apply eval_ret_any.
Qed.

Lemma set_bindings_safe f : prep_safe any (set_bindings f).
Proof. intros s Hs. split; [unfold prep_le; simpl; reflexivity|done]. Qed.

Lemma then_cleanup_safe {A} (Q : A → Prop) (m : preparation A) f :
  prep_safe Q m → prep_safe Q (then_cleanup m f).
Proof.
  intros Hm s Hs. destruct (Hm s Hs) as [Hle HQ]. unfold then_cleanup.
  by destruct (m s) as [[a|e] s'].
Qed.

Lemma state_safe {A} (Q : A → Prop) (m : PrepState → preparation A) :
  (∀ s, prep_safe Q (m s)) → prep_safe Q (λ s, m s s).
Proof. intros Hm s. apply (Hm s). Qed.

Lemma prepare_expression_safe e ctx depth : prep_safe any (prepare_expression e ctx depth).
Proof.
  unfold prepare_expression.
  apply (state_safe any (λ s, on_eval (evaluate_expression_with_budget e ctx (ps_bindings s) depth))).
  intros s. apply on_eval_any, expression_safe.
Qed.

Lemma prepare_condition_safe c ctx depth :
  prep_safe any (λ s, on_eval (evaluate_condition c ctx (ps_bindings s) depth) s).
Proof.
  apply (state_safe any (λ s, on_eval (evaluate_condition c ctx (ps_bindings s) depth))).
  intros s. apply on_eval_any, condition_safe.
Qed.
End safety.

#[export] Hint Resolve on_eval_any charge_any prep_ret_any prep_invalid_safe available_safe
  with_trace_safe array_item_safe set_bindings_safe then_cleanup_safe prepare_expression_safe
  prepare_condition_safe : preparation.

Ltac prep_walk :=
  repeat first
    [ assumption
    | solve [auto with preparation budget nocore]
    | apply prep_bind_any; [|intro]
    | case_match ].

Section template_safety.
Context `{SerdeNumber, UnicodeData, JsonDeserializer}.

Lemma prepare_text_safe parts ctx depth : ∀ text prepared,
  prep_safe any (prepare_text parts ctx depth text prepared).
Proof.
  induction parts as [|[l|e] parts IH]; intros text prepared; cbn [prepare_text]; prep_walk.
Qed.

Section loops.
Variable prepare : InputTemplate → N → preparation EvaluatedValue.

Lemma prepare_items_safe items : Forall (λ t, ∀ d, prep_safe any (prepare t d)) items →
  ∀ depth values t, prep_safe any (prepare_items prepare items depth values t).
Proof.
  induction 1 as [|item items Hi _ IH]; intros depth values t; cbn [prepare_items]; prep_walk.
  all: apply Hi.
Qed.

Lemma prepare_fields_safe items : Forall (λ kt, ∀ d, prep_safe any (prepare kt.2 d)) items →
  ∀ depth values t, prep_safe any (prepare_fields prepare items depth values t).
Proof.
  induction 1 as [|[key item] items Hi _ IH]; intros depth values t; cbn [prepare_fields]; prep_walk.
  all: apply Hi.
Qed.

Lemma prepare_map_item_safe condition template ctx depth t :
  (∀ d, prep_safe any (prepare template d)) →
  prep_safe any (prepare_map_item prepare condition template ctx depth t).
Proof. intros Hp. unfold prepare_map_item. prep_walk. all: apply Hp. Qed.

Lemma prepare_map_safe collection alias condition template ctx count :
  (∀ d, prep_safe any (prepare template d)) →
  ∀ index depth values t,
    prep_safe any (prepare_map prepare collection alias condition template ctx count index depth values t).
Proof.
  intros Hp. induction count as [|count IH]; intros index depth values t; cbn [prepare_map]; prep_walk.
  apply then_cleanup_safe. by apply prepare_map_item_safe.
Qed.
End loops.

Lemma prepare_template_safe ctx t : ∀ depth, prep_safe any (prepare_template ctx t depth).
Proof.
  induction t as [l|e|parts|items IH|items IH|c a cond v IH] using InputTemplate_ind_nested;
    intros depth; cbn [prepare_template]; prep_walk.
  - apply prepare_text_safe.
  - by apply prepare_items_safe.
  - by apply prepare_fields_safe.
  - by apply prepare_map_safe.
Qed.
End template_safety.

(** ** Templates and inventories

    [coherent aliases m1 m2]: in every state whose bindings have exactly the
    names [aliases], the two computations do the same, and they leave the
    bindings as they were. *)

Section coherence.
Context `{SerdeNumber, UnicodeData, JsonDeserializer}.

Definition names_match (aliases : list string) (bs : Bindings) : Prop :=
  ∀ a, In a aliases ↔ is_Some (map_get a bs).

Definition coherent {A} (aliases : list string) (m1 m2 : preparation A) : Prop :=
  ∀ s, names_match aliases (ps_bindings s) →
    m1 s = m2 s ∧ ps_bindings (m2 s).2 = ps_bindings s.

Lemma coherent_ret {A} aliases (a : A) : coherent aliases (ret a) (ret a).
Proof. done. Qed.

Lemma coherent_fail {A} aliases (e : EvaluationError) :
  coherent (A:=A) aliases (fail e) (fail e).
Proof. done. Qed.

Lemma coherent_bind {A B} aliases (m1 m2 : preparation A) (f1 f2 : A → preparation B) :
  coherent aliases m1 m2 → (∀ a, coherent aliases (f1 a) (f2 a)) →
  coherent aliases (bind m1 f1) (bind m2 f2).
Proof.
  intros Hm Hf s Hs. destruct (Hm s Hs) as [He Hb]. unfold bind. rewrite He.
  destruct (m2 s) as [[a|e] s']; simpl in *; [|done].
  destruct (Hf a s') as [He' Hb']; [by rewrite Hb|]. by rewrite He', Hb'.
Qed.

Lemma coherent_eval {A} aliases (m1 m2 : evaluation A) :
  same m1 m2 → coherent aliases (on_eval m1) (on_eval m2).
Proof. intros Hm s _. unfold on_eval. rewrite Hm. by destruct (m2 (ps_eval s)). Qed.

Lemma coherent_charge {A} aliases (m : budgeted A) : coherent aliases (charge m) (charge m).
Proof. by apply coherent_eval. Qed.

Lemma map_remove_absent {V} k (m : Map V) : map_get k m = None → map_remove k m = m.
Proof.
  induction m as [|[k' v'] m IH]; [done|]. simpl. destruct (String.eqb k k'); [done|].
  intros Hn. by rewrite IH.
Qed.

Lemma map_remove_insert {V} k (v : V) (m : Map V) :
  map_get k m = None → map_remove k (map_insert k v m) = m.
Proof.
  induction m as [|[k' v'] m IH]; simpl; [by rewrite String.eqb_refl|].
  destruct (String.eqb k k') eqn:E; [done|]. intros Hn.
  destruct (str_lt k k'); simpl; rewrite ?String.eqb_refl, E.
  - by rewrite map_remove_absent.
  - by rewrite IH.
Qed.

Lemma names_match_insert aliases bs alias (x : EvaluatedValue) :
  names_match aliases bs → names_match (aliases ++ [alias]) (map_insert alias x bs).
Proof.
  intros Hn a. rewrite in_app_iff. destruct (decide (alias = a)) as [->|Hne].
  - rewrite map_get_insert_eq. simpl. split; [eauto|by auto].
  - rewrite map_get_insert_ne by done. rewrite <- (Hn a). simpl. intuition congruence.
Qed.

(** The scope of an alias: inserted before, removed after. *)
Lemma coherent_scope {A} aliases alias (x : EvaluatedValue) (m1 m2 : preparation A) :
  ¬ In alias aliases → coherent (aliases ++ [alias]) m1 m2 →
  coherent aliases
    (do* set_bindings (map_insert alias x); then_cleanup m1 (map_remove alias))
    (do* set_bindings (map_insert alias x); then_cleanup m2 (map_remove alias)).
Proof.
  intros Hfresh Hm s Hs. unfold bind, set_bindings, then_cleanup.
  set (s1 := {| ps_eval := ps_eval s; ps_bindings := map_insert alias x (ps_bindings s) |}).
  destruct (Hm s1) as [He Hb]; [by apply names_match_insert|]. rewrite He.
  destruct (m2 s1) as [r s2]. simpl in *. split; [done|]. rewrite Hb.
  apply map_remove_insert. rewrite eq_None_not_Some. by rewrite <- (Hs alias).
Qed.

(** What the compiler checks of a map alias. *)
Fixpoint well_scoped (aliases : list string) (t : InputTemplate) : bool :=
  match t with
  | TSequence items => forallb (well_scoped aliases) items
  | TObject items => forallb (λ kv, well_scoped aliases kv.2) items
  | TMap _ alias _ value =>
      negb (existsb (String.eqb alias) aliases) && well_scoped (aliases ++ [alias]) value
  | _ => true
  end.

Context (c1 c2 : Value) (Hcontexts : same_but_inventories c1 c2).

Lemma membership_same t :
  selected_membership_is_available t c1 = selected_membership_is_available t c2.
Proof.
  unfold selected_membership_is_available, requests_complete.
  by rewrite (same_roots _ _ Hcontexts "session").
Qed.

Lemma enforce_same v : enforce_selected_membership v c1 = enforce_selected_membership v c2.
Proof. unfold enforce_selected_membership. by rewrite membership_same. Qed.

Lemma expression_same aliases e bs depth :
  names_match aliases bs → expression_reads aliases e = false →
  same (evaluate_expression_with_budget e c1 bs depth) (evaluate_expression_with_budget e c2 bs depth).
Proof.
  intros Hn He. unfold evaluate_expression_with_budget. apply same_bind; [|reflexivity].
  by apply (clear_expression_same {| context := c1; bindings := bs |}
              {| context := c2; bindings := bs |} aliases).
Qed.

Lemma prepare_expression_coherent aliases e depth :
  expression_reads aliases e = false →
  coherent aliases (prepare_expression e c1 depth) (prepare_expression e c2 depth).
Proof.
  intros He s Hs. unfold prepare_expression, on_eval.
  rewrite (expression_same aliases e _ depth Hs He).
  by destruct (evaluate_expression_with_budget _ _ _ _ _).
Qed.

Lemma condition_same aliases c bs depth :
  names_match aliases bs → condition_reads aliases (Some c) = false →
  same (evaluate_condition c c1 bs depth) (evaluate_condition c c2 bs depth).
Proof.
  intros Hn Hc. destruct c as [b|e]; [reflexivity|]. simpl.
  apply same_bind; [by apply (expression_same aliases)|]. intros v. rewrite enforce_same. reflexivity.
Qed.

Lemma prepare_text_coherent aliases parts depth : ∀ text prepared,
  existsb (part_reads aliases) parts = false →
  coherent aliases (prepare_text parts c1 depth text prepared)
                   (prepare_text parts c2 depth text prepared).
Proof.
  induction parts as [|[l|e] parts IH]; intros text prepared Hr; cbn [prepare_text];
    [apply coherent_ret| |]; simpl in Hr.
  - apply coherent_bind; [apply coherent_charge|]. intros _.
    apply coherent_bind; [apply coherent_charge|]. intros _. by apply IH.
  - apply orb_false_iff in Hr as [He Hr]. apply coherent_bind; [apply coherent_charge|]. intros _.
    apply coherent_bind; [by apply prepare_expression_coherent|]. intros v. rewrite enforce_same.
    destruct (ev_value _); [|apply coherent_ret].
    apply coherent_bind; [apply coherent_charge|]. intros x. by apply IH.
Qed.

Section loops.
Variable prep1 prep2 : InputTemplate → N → preparation EvaluatedValue.

Definition prepared_same (aliases : list string) (t : InputTemplate) : Prop :=
  ∀ d, coherent aliases (prep1 t d) (prep2 t d).

Lemma prepare_items_coherent aliases items depth :
  Forall (prepared_same aliases) items → ∀ values t,
  coherent aliases (prepare_items prep1 items depth values t) (prepare_items prep2 items depth values t).
Proof.
  induction 1 as [|item items Hi _ IH]; intros values t; cbn [prepare_items];
    [by apply coherent_eval|].
  apply coherent_bind; [apply Hi|]. intros v.
  destruct (ev_value v); [apply IH|by apply coherent_eval].
Qed.

Lemma prepare_fields_coherent aliases items depth :
  Forall (λ kt, prepared_same aliases kt.2) items → ∀ values t,
  coherent aliases (prepare_fields prep1 items depth values t)
                   (prepare_fields prep2 items depth values t).
Proof.
  induction 1 as [|[key item] items Hi _ IH]; intros values t; cbn [prepare_fields];
    [by apply coherent_eval|].
  apply coherent_bind; [apply coherent_charge|]. intros _.
  apply coherent_bind; [apply Hi|]. intros v.
  destruct (ev_value v); [apply IH|by apply coherent_eval].
Qed.

Lemma prepare_map_item_coherent aliases condition template depth t :
  condition_reads aliases condition = false → prepared_same aliases template →
  coherent aliases (prepare_map_item prep1 condition template c1 depth t)
                   (prepare_map_item prep2 condition template c2 depth t).
Proof.
  intros Hc Ht. unfold prepare_map_item.
  assert (∀ t, coherent aliases
    (let* evaluated := prep1 template depth in
     let t := merge t (ev_trace evaluated) in
     ret (match ev_value evaluated with Available v => ItemValue v | Unavailable => ItemUnavailable end, t))
    (let* evaluated := prep2 template depth in
     let t := merge t (ev_trace evaluated) in
     ret (match ev_value evaluated with Available v => ItemValue v | Unavailable => ItemUnavailable end, t)))
    as Hbody.
  { intros u. apply coherent_bind; [apply Ht|]. intros v. apply coherent_ret. }
  destruct condition as [c|]; [|apply Hbody].
  apply coherent_bind.
  - intros s Hs. unfold on_eval. rewrite (condition_same aliases c _ depth Hs Hc).
    by destruct (evaluate_condition _ _ _ _ _).
  - intros v. destruct (ev_value v); [|apply coherent_ret].
    destruct (negb _); [apply coherent_ret|apply Hbody].
Qed.

Lemma prepare_map_coherent aliases collection alias condition template depth count :
  ¬ In alias aliases → condition_reads (aliases ++ [alias]) condition = false →
  prepared_same (aliases ++ [alias]) template → ∀ index values t,
  coherent aliases
    (prepare_map prep1 collection alias condition template c1 count index depth values t)
    (prepare_map prep2 collection alias condition template c2 count index depth values t).
Proof.
  intros Hfresh Hc Ht. induction count as [|count IH]; intros index values t; cbn [prepare_map];
    [by apply coherent_eval|].
  apply coherent_bind; [by apply coherent_eval|]. intros item.
  apply coherent_bind; [apply coherent_charge|]. intros _.
  assert (∀ {A B} (m1 m2 : preparation A) (k1 k2 : A → preparation B),
    coherent (aliases ++ [alias]) m1 m2 → (∀ a, coherent aliases (k1 a) (k2 a)) →
    coherent aliases
      (do* set_bindings (map_insert alias item); let* r := then_cleanup m1 (map_remove alias) in k1 r)
      (do* set_bindings (map_insert alias item); let* r := then_cleanup m2 (map_remove alias) in k2 r))
    as Hscope.
  { intros A B m1 m2 k1 k2 Hm Hk.
    pose proof (coherent_bind aliases _ _ _ _ (coherent_scope aliases alias item m1 m2 Hfresh Hm) Hk)
      as Hb.
    intros s Hs. specialize (Hb s Hs). unfold bind, set_bindings, then_cleanup in *. exact Hb. }
  apply Hscope; [by apply prepare_map_item_coherent|]. intros [[|v|] u]; simpl.
  - apply IH.
  - apply coherent_bind; [apply coherent_charge|]. intros _. apply IH.
  - by apply coherent_eval.
Qed.
End loops.

Lemma prepare_template_coherent t : ∀ aliases,
  template_reads aliases t = false → well_scoped aliases t = true →
  prepared_same (prepare_template c1) (prepare_template c2) aliases t.
Proof.
  induction t as [l|e|parts|items IH|items IH|c a cond v IH] using InputTemplate_ind_nested;
    intros aliases Hr Hw d; cbn [prepare_template]; cbn [template_reads well_scoped] in *;
    (apply coherent_bind; [apply coherent_charge|]; intros _).
  - apply coherent_bind; [apply coherent_charge|]. intros _. by apply coherent_eval.
  - apply coherent_bind; [by apply prepare_expression_coherent|]. intros v. rewrite enforce_same.
    apply coherent_ret.
  - apply coherent_bind; [by apply coherent_eval|]. intros v. by apply prepare_text_coherent.
  - do 2 (apply coherent_bind; [apply coherent_charge|]; intros _).
    apply prepare_items_coherent. rewrite Forall_forall in IH |- *. intros t Ht%list_elem_of_In.
    apply IH; [by apply list_elem_of_In| |].
    + apply not_true_iff_false. intros Hc. apply not_true_iff_false in Hr. destruct Hr.
      apply existsb_exists. eauto.
    + rewrite forallb_forall in Hw. auto.
  - do 3 (apply coherent_bind; [apply coherent_charge|]; intros _).
    apply prepare_fields_coherent. rewrite Forall_forall in IH |- *. intros t Ht%list_elem_of_In.
    apply (IH t); [by apply list_elem_of_In| |].
    + apply not_true_iff_false. intros Hc. apply not_true_iff_false in Hr. destruct Hr.
      apply existsb_exists. eauto.
    + rewrite forallb_forall in Hw. by apply (Hw t).
  - apply orb_false_iff in Hr as [Hc [Hcond Hv]%orb_false_iff]. apply andb_true_iff in Hw as [Hf Hw].
    apply coherent_bind; [by apply prepare_expression_coherent|]. intros x.
    destruct (ev_value x) as [[]|]; try apply coherent_fail; [|apply coherent_ret].
    apply coherent_bind; [apply coherent_charge|]. intros _. rewrite membership_same.
    destruct (selected_membership_is_available _ c2); cbn [negb]; [|by apply coherent_eval].
    apply prepare_map_coherent; [|done|by apply IH].
    intros Hin. apply negb_true_iff, not_true_iff_false in Hf. destruct Hf.
    apply existsb_exists. exists a. split; [done|]. apply String.eqb_refl.
Qed.

Lemma trigger_condition_same check :
  condition_reads [] (cc_condition check) = false →
  evaluate_trigger_condition check c1 = evaluate_trigger_condition check c2.
Proof.
  intros Hr. unfold evaluate_trigger_condition. destruct (cc_condition check) as [c|]; [|done].
  rewrite (condition_same [] c [] 1); [done| |done]. intros a. by split; [|intros [? [=]]].
Qed.

Lemma decision_input_same d s :
  template_reads [] (d_input d) = false → well_scoped [] (d_input d) = true →
  evaluate_decision_input_with_budget d c1 s = evaluate_decision_input_with_budget d c2 s.
Proof.
  intros Hr Hw. unfold evaluate_decision_input_with_budget.
  destruct (prepare_template_coherent (d_input d) [] Hr Hw 1 {| ps_eval := s; ps_bindings := [] |})
    as [-> _]; [intros a; by split; [|intros [? [=]]]|].
  destruct (prepare_template _ _ _ _) as [[v|e] s']; simpl; [|done]. by rewrite enforce_same.
Qed.
End coherence.

(** ** Properties *)

Section properties.
Context `{SerdeNumber, UnicodeData, JsonDeserializer}.

(** Preparing a decision input with an active shared budget keeps every
    counter in bounds, never takes one back, and reports a resource limit
    exactly when the budget is exhausted afterwards: an ordinary failure or an
    unavailable input leaves the budget usable, and no panic is reached. *)
Theorem preparation_outcome_matches_budget decision candidate s :
  budget_live (budget s) →
  let '(outcome, s') := prepare_decision_input_with_budget decision candidate s in
  budget_le (budget s) (budget s') ∧ budget_ok (budget s') = true ∧
  (exhausted (budget s') = true ↔ ∃ message, outcome = PreparedResourceLimit message).
Proof.
  intros Hs. unfold prepare_decision_input_with_budget, evaluate_decision_input_with_budget.
  pose proof (prepare_template_safe (fc_value (fr_context candidate)) (d_input decision) 1
    {| ps_eval := s; ps_bindings := [] |} Hs) as [[Hle _] HQ].
  destruct (prepare_template _ _ _ _) as [[v|e] s']; simpl in *.
  - destruct HQ as [[Hok Hact] _]. split_and!; [done|done|]. rewrite Hact. split; [done|].
    intros [m Hm]. by destruct (ev_value _).
  - destruct HQ as [Hok Herr]. split_and!; [done|done|].
    destruct Herr as [[Hcode Hex]|[Hcode Hact]].
    + rewrite Hcode. simpl. split; eauto.
    + rewrite Hact, Hcode. simpl. split; [done|]. by intros [m Hm].
Qed.
End properties.

Definition sample_candidate : FrozenCandidate (H:=text_numbers) :=
  {| fr_activation := {| a_scope := ActivationScope_default; a_definition_id := "sample";
                         a_generation := 1 |};
     fr_branch := {| branch_id := "main" |}; fr_trigger_position := 3; fr_messages := [];
     fr_context := {| fc_value := @JObject text_numbers [("flag", @JBool text_numbers true)];
                      fc_dependencies := [] |};
     fr_dependencies := []; fr_fingerprint := [] |}.

Definition sample_input_decision : DecisionBlock (H:=text_numbers) :=
  {| d_name := "review";
     d_input := TObject [("seen", TExpression (EPath [PProperty "flag"]));
                         ("note", TText [PartLiteral "flag is "; PartExpression (EPath [PProperty "flag"])])];
     d_fit := []; d_outputs := [] |}.

Definition sample_prepared :=
  prepare_decision_input_with_budget (H:=text_numbers) (H0:=ascii_unicode) (H1:=no_json)
    sample_input_decision sample_candidate sample_state.

Lemma preparation_outcome_matches_budget_witness :
  sample_prepared.1 =
    PreparedReady (@JObject text_numbers [("note", @JString text_numbers "flag is true");
                                          ("seen", @JBool text_numbers true)]) ∧
  budget_ok (budget sample_prepared.2) = true.
Proof.
  split; [vm_refl|].
  pose proof (preparation_outcome_matches_budget (H:=text_numbers) (H0:=ascii_unicode) (H1:=no_json)
    sample_input_decision sample_candidate sample_state (conj eq_refl eq_refl)) as Hr.
  unfold sample_prepared. revert Hr.
  generalize (prepare_decision_input_with_budget (H:=text_numbers) (H0:=ascii_unicode) (H1:=no_json)
    sample_input_decision sample_candidate sample_state).
  intros [o s'] (_ & Hok & _). exact Hok.
Defined.
