(* ===== verification/Context.v ===== *)
(** * Current inventories (crates/antiburn-checks/src/context.rs)

    The observed instruction and skill inventories, their JSON records, and
    their merge into a trigger context. *)

From S2P Require Import Prelude RustString Json.

Record InstructionScope := { is_root : option string; is_globs : list string }.
Record InstructionRecord := {
  in_path : string;
  in_content : string;
  in_scope : InstructionScope;
  in_observed_at : string
}.
Record SkillRecord := { sk_name : string; sk_description : string; sk_path : string }.

Record InventorySnapshot := {
  instructions : option (list InstructionRecord);
  instructions_complete : bool;
  instructions_limits : list string;
  skills : option (list SkillRecord);
  skills_complete : bool;
  skills_limits : list string;
  snapshot_revision : option string
}.

Record CurrentInventories := { inv_global : InventorySnapshot; inv_repo : InventorySnapshot }.

#[export] Instance CurrentInventories_eq_dec : EqDecision CurrentInventories.
Proof. unfold EqDecision, Decision. repeat decide equality. Defined.

Definition InventorySnapshot_default : InventorySnapshot :=
  {| instructions := None; instructions_complete := false; instructions_limits := [];
     skills := None; skills_complete := false; skills_limits := []; snapshot_revision := None |}.

Definition CurrentInventories_default : CurrentInventories :=
  {| inv_global := InventorySnapshot_default; inv_repo := InventorySnapshot_default |}.

Definition inventories_is_empty (i : CurrentInventories) : bool :=
  bool_decide (i = CurrentInventories_default).

Section inventories.
Context `{SerdeNumber}.

Definition strings_value (l : list string) : Value := JArray (JString <$> l).

Definition object_of (fields : list (string * Value)) : Map Value :=
  fold_left (λ m kv, map_insert kv.1 kv.2 m) fields [].

Definition instruction_value (i : InstructionRecord) : Value :=
  JObject (object_of
    [("path", JString (in_path i)); ("content", JString (in_content i));
     ("scope", JObject (object_of
        [("root", match is_root (in_scope i) with Some r => JString r | None => JNull end);
         ("globs", strings_value (is_globs (in_scope i)))]));
     ("observed_at", JString (in_observed_at i))]).

Definition skill_value (s : SkillRecord) : Value :=
  JObject (object_of
    [("name", JString (sk_name s)); ("description", JString (sk_description s));
     ("path", JString (sk_path s))]).

(** The record of a snapshot; [skip_serializing_if] leaves an absent field out. *)
Definition snapshot_fields (s : InventorySnapshot) : Map Value :=
  object_of
    (match instructions s with
     | Some l => [("instructions", JArray (instruction_value <$> l))] | None => [] end ++
     [("instructions_complete", JBool (instructions_complete s));
      ("instructions_limits", strings_value (instructions_limits s))] ++
     match skills s with Some l => [("skills", JArray (skill_value <$> l))] | None => [] end ++
     [("skills_complete", JBool (skills_complete s));
      ("skills_limits", strings_value (skills_limits s))] ++
     match snapshot_revision s with Some r => [("snapshot_revision", JString r)] | None => [] end)%list.

Definition INVENTORY_FIELDS : list string :=
  ["instructions"; "instructions_complete"; "instructions_limits"; "skills"; "skills_complete";
   "skills_limits"; "snapshot_revision"].

(** One turn of the loop over the scopes; [None] is a panic of [expect]. *)
Definition merge_scope (scope : string) (s : InventorySnapshot) (ctx : Value) : option Value :=
  roots ← as_object ctx;
  root ← as_object (default (JObject []) (map_get scope roots));
  let root := fold_left (λ r field, map_remove field r) INVENTORY_FIELDS root in
  let root := fold_left (λ r kv, map_insert kv.1 kv.2 r) (snapshot_fields s) root in
  Some (JObject (map_insert scope (JObject root) roots)).

(** [CurrentInventories::merge_into] *)
Definition merge_into (i : CurrentInventories) (ctx : Value) : option Value :=
  ctx ← merge_scope "global" (inv_global i) ctx;
  merge_scope "repo" (inv_repo i) ctx.
End inventories.
