(* ===== verification/Selection.v ===== *)
(** * Selection (crates/antiburn-checks/src/selection.rs)

    The per-branch state of one activation and every operation on it: event
    filters, the rolling window, published updates with their corrections, and
    removals.  The capture of current inventories is a call to the host, a
    computation on a state of its own; a place where the source would panic is
    [Panicked]. *)

From stdpp Require Import gmap.
From S2P Require Import Prelude RustString Diagnostics Expression Filters Domain Template Decision Check Lifecycle Json Scalars Provenance Evaluator Inventories Preparation Context.

#[local] Open Scope N_scope.

Definition MAX_WINDOW_MESSAGES : N := 40.
Definition MAX_SEEN_RESULTS_PER_BRANCH : N := 4096.

#[export] Instance BranchId_countable : Countable BranchId.
Proof. by apply (inj_countable' branch_id (λ s, {| branch_id := s |})); intros []. Defined.

(** ** State *)

Inductive ResultMembership :=
| MUnknown | MHistorical | MExcluded | MSelected | MRetired | MRemoved.

#[export] Instance ResultMembership_eq_dec : EqDecision ResultMembership.
Proof. solve_decision. Defined.

Record SeenResult := {
  terminal_seen : bool;
  sr_revision : N;
  sr_version : EvidenceVersion;
  sr_native_order : NativeOrderKey;
  membership : ResultMembership
}.

Definition with_membership (m : ResultMembership) (s : SeenResult) : SeenResult :=
  {| terminal_seen := terminal_seen s; sr_revision := sr_revision s; sr_version := sr_version s;
     sr_native_order := sr_native_order s; membership := m |}.

Notation Key := (BranchId * string)%type.

Section selection.
Context `{SerdeNumber, UnicodeData, JsonDeserializer}.

Record SelectedMessage := {
  sm_version : EvidenceVersion;
  sm_native_order : NativeOrderKey;
  sm_message : Message;
  sm_complete : bool
}.

Definition sm_id (m : SelectedMessage) : string := m_id (sm_message m).

Record BranchSelection := {
  results : list SelectedMessage;
  coverage_complete : bool;
  identity_limit_reached : bool;
  last_filter_diagnostic : option FilterDiagnostic
}.

Definition BranchSelection_default : BranchSelection :=
  {| results := []; coverage_complete := true; identity_limit_reached := false;
     last_filter_diagnostic := None |}.

Definition set_results (l : list SelectedMessage) (b : BranchSelection) : BranchSelection :=
  {| results := l; coverage_complete := coverage_complete b;
     identity_limit_reached := identity_limit_reached b;
     last_filter_diagnostic := last_filter_diagnostic b |}.
Definition set_coverage (c : bool) (b : BranchSelection) : BranchSelection :=
  {| results := results b; coverage_complete := c;
     identity_limit_reached := identity_limit_reached b;
     last_filter_diagnostic := last_filter_diagnostic b |}.
Definition set_limit_reached (b : BranchSelection) : BranchSelection :=
  {| results := results b; coverage_complete := false; identity_limit_reached := true;
     last_filter_diagnostic := last_filter_diagnostic b |}.
Definition set_diagnostic (d : option FilterDiagnostic) (b : BranchSelection) : BranchSelection :=
  {| results := results b; coverage_complete := coverage_complete b;
     identity_limit_reached := identity_limit_reached b; last_filter_diagnostic := d |}.

Record SelectionState := {
  branches : gmap BranchId BranchSelection;
  seen_results : gmap Key SeenResult
}.

Definition SelectionState_default : SelectionState := {| branches := ∅; seen_results := ∅ |}.

Definition on_branches (f : gmap BranchId BranchSelection → gmap BranchId BranchSelection)
    (s : SelectionState) : SelectionState :=
  {| branches := f (branches s); seen_results := seen_results s |}.
Definition on_seen (f : gmap Key SeenResult → gmap Key SeenResult) (s : SelectionState) :
    SelectionState :=
  {| branches := branches s; seen_results := f (seen_results s) |}.

(** [self.branches.entry(branch).or_default()], then an update. *)
Definition branch_entry (b : BranchId) (f : BranchSelection → BranchSelection) :
    SelectionState → SelectionState :=
  on_branches (λ m, <[b := f (default BranchSelection_default (m !! b))]> m).

(** [self.branches.get_mut(branch)], then an update if it is there. *)
Definition branch_update (b : BranchId) (f : BranchSelection → BranchSelection) :
    SelectionState → SelectionState := on_branches (alter f b).

Inductive SelectionOutcome :=
| Updated
| Filtered
| FilterRejected (d : FilterDiagnostic)
| ConditionFiltered (o : ConditionOutcome)
| Incomplete
| WindowInvalidated
| Candidate (c : FrozenCandidate).

(** ** Observations *)

Definition is_historical (a : EffectiveActivation) (o : Observation) : bool :=
  (ob_position o <=? ea_bootstrap_position a) ||
  match ob_kind o with
  | ToolResult _ _ _ =>
      match ob_first_terminal o with
      | Some cursor => cursor <=? ea_bootstrap_publication a
      | None => false
      end
  | _ =>
      match ob_first_eligible o with
      | Some cursor => cursor <=? ea_bootstrap_publication a
      | None => true
      end
  end.

Definition observation_message (o : Observation) : option Message :=
  match ob_kind o with
  | UserMessage m | AssistantMessage m | ToolCall m | ToolResult m _ _ => Some m
  | _ => None
  end.

Definition is_terminal (o : Observation) : bool :=
  match ob_kind o with OtherObservation => false | _ => true end.

Definition trigger_context (o : Observation) (complete : bool) : option FrozenContext :=
  roots ← as_object (fc_value (ob_context o));
  let roots :=
    match observation_message o with
    | Some m => map_remove "turn" (map_insert "message" (m_value m) roots)
    | None =>
        let roots := map_remove "message" roots in
        match ob_kind o with
        | TurnEnd turn => map_insert "turn" turn roots
        | _ => map_remove "turn" roots
        end
    end in
  let roots := map_remove "window" roots in
  let roots :=
    match map_get "session" roots with
    | Some (JObject session) =>
        map_insert "session"
          (JObject (map_insert "source_coverage"
             (JString (if complete : bool then "complete" else "partial")) session)) roots
    | _ => roots
    end in
  Some {| fc_value := JObject roots; fc_dependencies := fc_dependencies (ob_context o) |}.

(** ** Event filters *)

Definition parse_category (v : string) : option ToolCategory :=
  if String.eqb v "shell" then Some CatShell
  else if String.eqb v "read" then Some CatRead
  else if String.eqb v "search" then Some CatSearch
  else if String.eqb v "edit" then Some CatEdit
  else if String.eqb v "write" then Some CatWrite
  else if String.eqb v "delegate" then Some CatDelegate
  else if String.eqb v "skill" then Some CatSkill
  else if String.eqb v "mcp" then Some CatMcp
  else if String.eqb v "other" then Some CatOther
  else None.

Definition parse_status (v : string) : option ToolResultStatus :=
  if String.eqb v "completed" then Some StatusCompleted
  else if String.eqb v "error" then Some StatusError
  else if String.eqb v "cancelled" then Some StatusCancelled
  else if String.eqb v "unknown" then Some StatusUnknown
  else None.

(** [value[key]] of serde_json: null when there is no such field. *)
Definition value_index (v : Value) (key : string) : Value := default JNull (value_get v key).

Definition listed {A} `{EqDecision A} (l : option (list A)) (x : option A) : bool :=
  match l with
  | None => true
  | Some l => match x with Some x => bool_decide (x ∈ l) | None => false end
  end.

Definition matches_filters (c : CompiledCheck) (category : option ToolCategory)
    (status : ToolResultStatus) : bool :=
  listed (tr_tools (cc_trigger c)) category && listed (tr_statuses (cc_trigger c)) (Some status).

Definition evaluate_message_filters (c : CompiledCheck) (m : Value) : result unit FilterDiagnostic :=
  let? _ := evaluate_attribution_filters (tr_models (cc_trigger c)) (tr_fast_mode (cc_trigger c))
              ScopeMessage m in
  evaluate_path_filters (tr_paths (cc_trigger c)) (tr_paths_ignore (cc_trigger c)) m.

Definition evaluate_scoped_filters (f : EventFilters) (scope : AttributionScope) (v : Value) :
    result unit FilterDiagnostic :=
  evaluate_attribution_filters (ef_models f) (ef_fast_mode f) scope v.

(** The arm of a message alternative other than a result. *)
Definition message_alternative (f : EventFilters) (m : Message) : result bool FilterDiagnostic :=
  if negb (listed (ef_tools f)
             (s ← as_str (value_index (value_index (m_value m) "tool") "category");
              parse_category s))
  then Ok false
  else
    let? _ := evaluate_scoped_filters f ScopeMessage (m_value m) in
    let? _ := evaluate_path_filters (ef_paths f) (ef_paths_ignore f) (m_value m) in
    Ok true.

Definition session_alternative (f : EventFilters) (o : Observation) : result bool FilterDiagnostic :=
  let? _ := evaluate_scoped_filters f ScopeSession
              (value_index (fc_value (ob_context o)) "session") in
  Ok true.

Definition evaluate_event_filters (c : CompiledCheck) (o : Observation) :
    result bool FilterDiagnostic :=
  match tr_family (cc_trigger c), ob_kind o with
  | Messages true _ _ _, ToolResult m category status =>
      match parse_status status with
      | Some st =>
          if matches_filters c (parse_category category) st then
            let? _ := evaluate_message_filters c (m_value m) in Ok true
          else Ok false
      | None => Ok false
      end
  | Messages _ (Some f) _ _, UserMessage m
  | Messages _ _ (Some f) _, AssistantMessage m
  | Messages _ _ _ (Some f), ToolCall m => message_alternative f m
  | ResponseCycle f, TurnEnd turn =>
      if negb (listed (ef_statuses f) (s ← as_str (value_index turn "status"); parse_status s))
      then Ok false
      else let? _ := evaluate_scoped_filters f ScopeTurn turn in Ok true
  | Session (Some f) _, SessionStart reason =>
      if negb (listed (ef_reasons f) (Some reason)) then Ok false else session_alternative f o
  | Session _ (Some f), SessionIdle _ _ _ _ => session_alternative f o
  | _, _ => Ok false
  end.

(** ** Fingerprints *)

(** The digest of the sha2 crate, and the JSON texts that serde_json writes for
    a value and, by its derived serializer, for an activation identity. *)
Class CandidateDigest := {
  sha256 : string → list N;
  value_text : Value → string;
  activation_text : ActivationId → string
}.

Context `{!CandidateDigest}.

(** [to_be_bytes] of a [u64] *)
Definition be_bytes (n : N) : string :=
  foldr (λ i s, String (ascii_of_N (N.shiftr n (8 * i) mod 256)) s) "" [7; 6; 5; 4; 3; 2; 1; 0].

Definition update_string (s : string) : string := be_bytes (str_len s) +:+ s.

Definition tag (n : N) : string := String (ascii_of_N n) "".

Definition dependency_bytes (d : EvidenceDependency) : string :=
  match d with
  | DepMessage id v => tag 0 +:+ (update_string id +:+ update_string (evidence_version v))
  | MembershipThrough p => tag 1 +:+ be_bytes p
  | DepContext id v => tag 2 +:+ (update_string id +:+ update_string (evidence_version v))
  | SourceEvidence id v => tag 3 +:+ (update_string id +:+ update_string (evidence_version v))
  | SessionActivity epoch revision => tag 4 +:+ (update_string epoch +:+ be_bytes revision)
  end.

Definition candidate_fingerprint (a : ActivationId) (b : BranchId) (trigger : ObservationPosition)
    (messages : list Message) (ctx : FrozenContext) (deps : list EvidenceDependency) : list N :=
  sha256 (activation_text a +:+ (update_string (branch_id b) +:+ (be_bytes trigger +:+
    (value_text (JArray (m_value <$> messages)) +:+ (value_text (fc_value ctx) +:+
      foldr (λ d s, dependency_bytes d +:+ s) "" deps))))).

(** ** Dependencies in order

    The derived order compares the variants first, then the fields. *)

Definition dep_tag (d : EvidenceDependency) : N :=
  match d with
  | DepMessage _ _ => 0 | MembershipThrough _ => 1 | DepContext _ _ => 2
  | SourceEvidence _ _ => 3 | SessionActivity _ _ => 4
  end.

Definition then_compare (c d : comparison) : comparison := match c with Eq => d | _ => c end.

Definition dep_compare (x y : EvidenceDependency) : comparison :=
  match x, y with
  | DepMessage i v, DepMessage j w | DepContext i v, DepContext j w
  | SourceEvidence i v, SourceEvidence j w =>
      then_compare (String.compare i j) (String.compare (evidence_version v) (evidence_version w))
  | MembershipThrough p, MembershipThrough q => N.compare p q
  | SessionActivity e r, SessionActivity f q => then_compare (String.compare e f) (N.compare r q)
  | _, _ => N.compare (dep_tag x) (dep_tag y)
  end.

Definition dep_le (x y : EvidenceDependency) : bool :=
  match dep_compare x y with Gt => false | _ => true end.

Fixpoint insert_dep (d : EvidenceDependency) (l : list EvidenceDependency) :
    list EvidenceDependency :=
  match l with
  | [] => [d]
  | x :: l' => if dep_le d x then d :: l else x :: insert_dep d l'
  end.

(** [dependencies.sort()] *)
Definition sort_deps (l : list EvidenceDependency) : list EvidenceDependency :=
  foldr insert_dep [] l.

(** [dependencies.dedup()]: consecutive repetitions are removed. *)
Fixpoint dedup (l : list EvidenceDependency) : list EvidenceDependency :=
  match l with
  | x :: ((y :: _) as l') => if bool_decide (x = y) then dedup l' else x :: dedup l'
  | _ => l
  end.

(** ** Operations on the state *)

Definition set_membership (k : Key) (m : ResultMembership) : SelectionState → SelectionState :=
  on_seen (alter (with_membership m) k).

Definition accepts_update (s : SelectionState) (b : BranchId) (identity : string) (revision : N)
    (version : EvidenceVersion) : bool :=
  match seen_results s !! (b, identity) with
  | None => true
  | Some seen =>
      (sr_revision seen <? revision) ||
      ((revision =? sr_revision seen) && negb (bool_decide (membership seen = MRemoved)) &&
       negb (bool_decide (version = sr_version seen)))
  end.

Definition is_normalized_duplicate (s : SelectionState) (b : BranchId) (identity : string)
    (revision : N) (version : EvidenceVersion) : bool :=
  match seen_results s !! (b, identity) with
  | None => false
  | Some seen =>
      (revision =? sr_revision seen) && negb (bool_decide (membership seen = MRemoved)) &&
      bool_decide (version = sr_version seen)
  end.

Definition in_branch (b : BranchId) (kv : Key * SeenResult) : Prop := kv.1.1 = b.

#[export] Instance in_branch_dec b kv : Decision (in_branch b kv).
Proof. unfold in_branch. apply _. Defined.

(** The keys of one branch are a range of the map. *)
Definition identity_count (s : SelectionState) (b : BranchId) : N :=
  N.of_nat (size (filter (in_branch b) (seen_results s))).

Definition mark_identity_limit (b : BranchId) : SelectionState → SelectionState :=
  branch_entry b set_limit_reached.

Definition discard_result (b : BranchId) (identity : string) : SelectionState → SelectionState :=
  branch_update b (λ br,
    set_results (filter (λ m, sm_id m ≠ identity) (results br)) br).

Definition mark_coverage_gap (b : BranchId) : SelectionState → SelectionState :=
  branch_entry b (set_coverage false).

Definition retire_seen (b : BranchId) (k : Key) (seen : SeenResult) : option SeenResult :=
  Some (if bool_decide (k.1 = b) && terminal_seen seen &&
           negb (bool_decide (membership seen = MHistorical) ||
                 bool_decide (membership seen = MRemoved))
        then with_membership MRetired seen else seen).

Definition retire_window (b : BranchId) (s : SelectionState) : SelectionState :=
  on_seen (map_imap (retire_seen b)) (branch_update b (set_results []) s).

Definition reset_segment (b : BranchId) (s : SelectionState) : SelectionState :=
  mark_coverage_gap b (retire_window b s).

Definition restore_coverage (b : BranchId) (s : SelectionState) : SelectionState :=
  branch_entry b (set_coverage true) (retire_window b s).

(** [format!("removed:{revision}")] *)
Definition removed_version (revision : N) : EvidenceVersion :=
  {| evidence_version := "removed:" +:+ pretty revision |}.

Definition remove_result (s : SelectionState) (b : BranchId) (identity : string) (revision : N) :
    bool * SelectionState :=
  let k := (b, identity) in
  if (match seen_results s !! k with
      | Some seen =>
          (revision <? sr_revision seen) ||
          ((revision =? sr_revision seen) && bool_decide (membership seen = MRemoved))
      | None => false
      end) then (false, s)
  else if (match seen_results s !! k with Some _ => false | None => true end) &&
          (MAX_SEEN_RESULTS_PER_BRANCH <=? identity_count s b) then
    (true, discard_result b identity (mark_identity_limit b s))
  else
    let order := match seen_results s !! k with
                 | Some seen => sr_native_order seen
                 | None => {| order_key := "" |}
                 end in
    let seen := {| terminal_seen := true; sr_revision := revision;
                   sr_version := removed_version revision; sr_native_order := order;
                   membership := MRemoved |} in
    (true, discard_result b identity (on_seen (<[k := seen]>) s)).

(** ** Applying an observation *)

(** The state of the host, and why an application stops: the capture returned
    an error, or the source would panic. *)
Context {W E : Type}.

Inductive Stop := CaptureFailed (e : E) | Panicked.

Record World := { selection : SelectionState; host : W }.

Definition applying (A : Type) : Type := SE World Stop A.

Variable capture : SE W E (option CurrentInventories).

Definition capture_inventories : applying (option CurrentInventories) := λ w,
  let '(r, h) := capture (host w) in
  (map_err CaptureFailed r, {| selection := selection w; host := h |}).

Definition modify_selection (f : SelectionState → SelectionState) : applying unit := λ w,
  (Ok tt, {| selection := f (selection w); host := host w |}).

Definition get_selection : applying SelectionState := λ w, (Ok (selection w), w).

Definition or_panic {A} (x : option A) : applying A :=
  match x with Some a => ret a | None => fail Panicked end.

(** [set_membership] panics when there is no record. *)
Definition set_recorded (k : Key) (m : ResultMembership) : applying unit :=
  let* s := get_selection in
  match seen_results s !! k with
  | Some _ => modify_selection (set_membership k m)
  | None => fail Panicked
  end.

(** Captures when it is demanded, and merges what there is. *)
Definition with_inventories (demanded : bool) (ctx : FrozenContext) : applying FrozenContext :=
  if demanded then
    let* captured := capture_inventories in
    match captured with
    | None => ret ctx
    | Some i =>
        let* v := or_panic (merge_into i (fc_value ctx)) in
        ret {| fc_value := v; fc_dependencies := fc_dependencies ctx |}
    end
  else ret ctx.

Definition window_config (a : EffectiveActivation) : RollingWindow :=
  match tr_window (cc_trigger (ea_compiled a)) with
  | Some w => w
  | None => {| w_size := 1; w_minimum := 1 |}
  end.

Definition window_size (a : EffectiveActivation) : N :=
  N.min (w_size (window_config a)) MAX_WINDOW_MESSAGES.

(** The window after [push_back] and the pops: what is kept and what retires. *)
Definition push_window (size : N) (l : list SelectedMessage) (m : SelectedMessage) :
    list SelectedMessage * list SelectedMessage :=
  let l := (l ++ [m])%list in
  let retired := (length l - N.to_nat size)%nat in
  (drop retired l, take retired l).

Definition retire_messages (b : BranchId) (l : list SelectedMessage) :
    SelectionState → SelectionState :=
  on_seen (λ seen, fold_left (λ seen m, alter (with_membership MRetired) (b, sm_id m) seen) l seen).

Definition coverage (s : SelectionState) (b : BranchId) : bool :=
  match branches s !! b with Some br => coverage_complete br | None => true end.

Definition window (s : SelectionState) (b : BranchId) : list SelectedMessage :=
  match branches s !! b with Some br => results br | None => [] end.

Definition freeze (a : EffectiveActivation) (o : Observation) (messages : list Message)
    (ctx : FrozenContext) (deps : list EvidenceDependency) : SelectionOutcome :=
  Candidate {|
    fr_activation := ea_id a; fr_branch := ob_branch o; fr_trigger_position := ob_position o;
    fr_messages := messages; fr_context := ctx; fr_dependencies := deps;
    fr_fingerprint := candidate_fingerprint (ea_id a) (ob_branch o) (ob_position o) messages ctx deps
  |}.

(** The end of [apply_with_inventories] for an event without a message. *)
Definition select_event (a : EffectiveActivation) (o : Observation) (ctx : FrozenContext) :
    applying SelectionOutcome :=
  let demand := current_inventory_demand (ea_compiled a) in
  let* ctx := with_inventories (demand_candidate demand && negb (demand_condition demand)) ctx in
  ret (freeze a o [] ctx (dedup (sort_deps (fc_dependencies ctx)))).

(** The dependencies of a window candidate. *)
Definition window_dependencies (o : Observation) (l : list SelectedMessage) :
    list EvidenceDependency :=
  dedup (sort_deps
    (((λ m, DepMessage (sm_id m) (sm_version m)) <$> l) ++ fc_dependencies (ob_context o) ++
     [MembershipThrough (ob_position o)])%list).

(** The message of an observation as the window keeps it. *)
Definition selected_message (o : Observation) (m : Message) : SelectedMessage :=
  {| sm_version := ob_version o; sm_native_order := ob_native_order o; sm_message := m;
     sm_complete := ob_complete o |}.

(** After the window changed: the candidate, once the window is long enough. *)
Definition freeze_window (a : EffectiveActivation) (o : Observation) (ctx : FrozenContext)
    (kept : list SelectedMessage) : applying SelectionOutcome :=
  let demand := current_inventory_demand (ea_compiled a) in
  if N.of_nat (length kept) <? w_minimum (window_config a) then ret Updated
  else
    let* ctx := with_inventories (demand_candidate demand && negb (demand_condition demand)) ctx in
    let messages := sm_message <$> kept in
    let* roots := or_panic (as_object (fc_value ctx)) in
    let roots :=
      match tr_window (cc_trigger (ea_compiled a)) with
      | Some _ => map_insert "window"
                    (JObject [("messages", JArray (m_value <$> messages))]) roots
      | None => roots
      end in
    let ctx := {| fc_value := JObject roots; fc_dependencies := fc_dependencies ctx |} in
    ret (freeze a o messages ctx (window_dependencies o kept)).

(** The end of [apply_with_inventories] for a message. *)
Definition select_message (a : EffectiveActivation) (o : Observation) (m : Message)
    (ctx : FrozenContext) : applying SelectionOutcome :=
  let b := ob_branch o in
  do* modify_selection (branch_entry b id);
  let* s := get_selection in
  let '(kept, retired) := push_window (window_size a) (window s b) (selected_message o m) in
  do* modify_selection (branch_update b (set_results kept));
  do* modify_selection (retire_messages b retired);
  freeze_window a o ctx kept.

Definition apply_with_inventories (a : EffectiveActivation) (o : Observation) :
    applying SelectionOutcome :=
  if negb (is_terminal o) then ret Updated
  else if is_historical a o then ret Updated
  else
    let b := ob_branch o in
    match evaluate_event_filters (ea_compiled a) o with
    | Err d =>
        do* modify_selection (branch_entry b (set_diagnostic (Some d)));
        ret (FilterRejected d)
    | Ok false => ret Filtered
    | Ok true =>
        do* modify_selection (branch_entry b (set_diagnostic None));
        let* s := get_selection in
        match trigger_context o (coverage s b) with
        | None => ret Incomplete
        | Some ctx =>
            let* ctx := with_inventories
                          (demand_condition (current_inventory_demand (ea_compiled a))) ctx in
            let condition := evaluate_trigger_condition (ea_compiled a) (fc_value ctx) in
            match condition with
            | Matched =>
                match observation_message o with
                | None => select_event a o ctx
                | Some m => select_message a o m ctx
                end
            | _ => ret (ConditionFiltered condition)
            end
        end
    end.

(** ** Corrections *)

(** Replaces the first selected message of an identity. *)
Fixpoint correct_message (identity : string) (f : SelectedMessage → SelectedMessage)
    (l : list SelectedMessage) : list SelectedMessage :=
  match l with
  | [] => []
  | m :: l => if String.eqb (sm_id m) identity then f m :: l else m :: correct_message identity f l
  end.

(** The branch and the message must exist. *)
Definition correct_window (b : BranchId) (identity : string) (f : SelectedMessage → SelectedMessage) :
    applying unit :=
  let* s := get_selection in
  if existsb (λ m, String.eqb (sm_id m) identity) (window s b)
  then modify_selection (branch_update b (λ br,
         set_results (correct_message identity f (results br)) br))
  else fail Panicked.

(** Whether a correction still matches the filters and the condition. *)
Definition correction_matches (a : EffectiveActivation) (o : Observation) (complete : bool)
    (filters : result bool FilterDiagnostic) : applying bool :=
  match filters with
  | Ok true =>
      match trigger_context o complete with
      | None => ret false
      | Some ctx =>
          let* ctx := with_inventories
                        (demand_condition (current_inventory_demand (ea_compiled a))) ctx in
          ret (match evaluate_trigger_condition (ea_compiled a) (fc_value ctx) with
               | Matched => true
               | _ => false
               end)
      end
  | _ => ret false
  end.

Definition apply_correction (a : EffectiveActivation) (k : Key) (previous : SeenResult)
    (o : Observation) : applying SelectionOutcome :=
  match membership previous with
  | MHistorical | MRetired | MRemoved => ret Updated
  | _ =>
      let b := ob_branch o in
      let* s := get_selection in
      let selected := existsb (λ m, String.eqb (sm_id m) k.2) (window s b) in
      let complete := coverage s b in
      let filters := evaluate_event_filters (ea_compiled a) o in
      do* modify_selection (branch_entry b
            (set_diagnostic (match filters with Err d => Some d | Ok _ => None end)));
      let* matching := correction_matches a o complete filters in
      if negb matching then
        do* modify_selection (discard_result b k.2);
        do* set_recorded k MExcluded;
        ret (match filters with Err d => FilterRejected d | Ok _ => Updated end)
      else if bool_decide (membership previous = MUnknown) && negb selected then
        do* set_recorded k MRetired;
        do* modify_selection (mark_coverage_gap b);
        ret WindowInvalidated
      else if negb (bool_decide (sr_native_order previous = ob_native_order o)) || negb selected then
        do* modify_selection (retire_window b);
        do* modify_selection (branch_entry b (set_coverage false));
        do* set_recorded k MRetired;
        ret WindowInvalidated
      else
        let* m := or_panic (observation_message o) in
        do* correct_window b k.2 (λ x,
              {| sm_version := ob_version o; sm_native_order := sm_native_order x;
                 sm_message := m; sm_complete := ob_complete o |});
        do* set_recorded k MSelected;
        ret Updated
  end.

(** ** Published updates *)

(** The record of an accepted update. *)
Definition record_update (o : Observation) (revision : N) (previous : option SeenResult) :
    SeenResult :=
  {| terminal_seen := is_terminal o ||
       match previous with Some seen => terminal_seen seen | None => false end;
     sr_revision := revision; sr_version := ob_version o; sr_native_order := ob_native_order o;
     membership :=
       match previous with
       | Some seen => match membership seen with MRemoved => MRetired | m => m end
       | None => MUnknown
       end |}.

Definition family_has_messages (a : EffectiveActivation) : bool :=
  match tr_family (cc_trigger (ea_compiled a)) with
  | Messages _ _ _ _ => true
  | ResponseCycle _ | Session _ _ => false
  end.

Definition limit_reached (s : SelectionState) (b : BranchId) : bool :=
  match branches s !! b with Some br => identity_limit_reached br | None => false end.

(** The part after the record is stored. *)
Definition apply_recorded (a : EffectiveActivation) (k : Key) (previous : option SeenResult)
    (o : Observation) : applying SelectionOutcome :=
  let b := ob_branch o in
  if is_terminal o && is_historical a o then
    do* modify_selection (discard_result b k.2);
    do* set_recorded k MHistorical;
    ret Updated
  else
    match previous with
    | Some seen =>
        if terminal_seen seen then
          if negb (family_has_messages a) then
            do* set_recorded k MRetired;
            ret Updated
          else apply_correction a k seen o
        else if negb (is_terminal o) then ret Updated
        else
          let* outcome := apply_with_inventories a o in
          do* set_recorded k
                (match outcome with Candidate _ | Updated => MSelected | _ => MExcluded end);
          ret outcome
    | None =>
        if negb (is_terminal o) then ret Updated
        else
          let* outcome := apply_with_inventories a o in
          do* set_recorded k
                (match outcome with Candidate _ | Updated => MSelected | _ => MExcluded end);
          ret outcome
    end.

Definition apply_published_with_inventories (a : EffectiveActivation) (identity : string)
    (revision : N) (o : Observation) : applying SelectionOutcome :=
  let b := ob_branch o in
  let k := (b, identity) in
  let* s := get_selection in
  let known := match seen_results s !! k with Some _ => true | None => false end in
  if negb known && limit_reached s b then ret Updated
  else if negb (accepts_update s b identity revision (ob_version o)) then ret Updated
  else if negb known && (MAX_SEEN_RESULTS_PER_BRANCH <=? identity_count s b) then
    do* modify_selection (mark_identity_limit b); ret Updated
  else
    let previous := seen_results s !! k in
    do* modify_selection (on_seen (<[k := record_update o revision previous]>));
    apply_recorded a k previous o.
End selection.

(** ** Without inventories

    The captures of [apply] and [apply_published] find nothing and cannot fail;
    [None] is a panic. *)
Section without_inventories.
Context `{SerdeNumber, UnicodeData, JsonDeserializer, !CandidateDigest}.

Definition no_inventories : SE unit Empty_set (option CurrentInventories) := ret None.

Definition run_alone {A} (m : applying (W:=unit) (E:=Empty_set) A) (s : SelectionState) :
    option (A * SelectionState) :=
  match m {| selection := s; host := tt |} with
  | (Ok x, w) => Some (x, selection w)
  | (Err _, _) => None
  end.

Definition apply (a : EffectiveActivation) (o : Observation) (s : SelectionState) :
    option (SelectionOutcome * SelectionState) :=
  run_alone (apply_with_inventories no_inventories a o) s.

Definition apply_published (a : EffectiveActivation) (identity : string) (revision : N)
    (o : Observation) (s : SelectionState) : option (SelectionOutcome * SelectionState) :=
  run_alone (apply_published_with_inventories no_inventories a identity revision o) s.
End without_inventories.
