(* ===== verification/SelectionFacts.v ===== *)
(** * Invariants of selection

    The windows of a selection state are bounded, hold each identity once and
    only selected ones, and the identities of a branch are bounded, in every
    state that published updates, removals and coverage changes reach.  An
    identity triggers at most one candidate, and revisions never go back. *)

From stdpp Require Import gmap relations.
From S2P Require Import Prelude RustString Diagnostics Expression Filters Domain Template Decision Check Lifecycle Json Scalars Provenance Evaluator Inventories Preparation Context Selection.

#[local] Open Scope N_scope.

(** ** Successful runs

    [triple P m Q]: a run of [m] from a state of [P] that succeeds ends with
    [Q]. *)
Section triples.
Context {S E : Type}.

Definition triple {A} (P : S → Prop) (m : SE S E A) (Q : A → S → Prop) : Prop :=
  ∀ s a s', P s → m s = (Ok a, s') → Q a s'.

Lemma triple_ret {A} (P : S → Prop) (a : A) (Q : A → S → Prop) :
  (∀ s, P s → Q a s) → triple P (ret a) Q.
Proof. intros HQ s x s' Hs [= <- <-]. auto. Qed.

Lemma triple_bind {A B} P (m : SE S E A) (f : A → SE S E B) R Q :
  triple P m R → (∀ a, triple (R a) (f a) Q) → triple P (bind m f) Q.
Proof. intros Hm Hf s b s' Hs (a & s1 & H1 & H2)%bind_ok. eapply Hf; [|done]. by eapply Hm. Qed.

Lemma triple_weaken {A} (P P' : S → Prop) (m : SE S E A) (Q Q' : A → S → Prop) :
  triple P m Q → (∀ s, P' s → P s) → (∀ a s, Q a s → Q' a s) → triple P' m Q'.
Proof. intros Hm HP HQ s a s' Hs Hr. apply HQ. eapply Hm; [|done]. auto. Qed.
End triples.

(** ** What the invariant sees of a state *)

Section views.
Context `{SerdeNumber, UnicodeData, JsonDeserializer}.

Lemma window_on_seen f s b : window (on_seen f s) b = window s b.
Proof. done. Qed.

Lemma window_entry b f s b' :
  window (branch_entry b f s) b' =
  if decide (b = b') then results (f (default BranchSelection_default (branches s !! b)))
  else window s b'.
Proof.
  unfold window, branch_entry. simpl. destruct (decide (b = b')) as [->|Hne].
  - by rewrite lookup_insert_eq.
  - by rewrite lookup_insert_ne.
Qed.

Lemma window_update b f s b' :
  window (branch_update b f s) b' =
  if decide (b = b')
  then match branches s !! b with Some br => results (f br) | None => [] end
  else window s b'.
Proof.
  unfold window, branch_update. simpl. destruct (decide (b = b')) as [->|Hne].
  - rewrite lookup_alter_eq. by destruct (branches s !! b').
  - by rewrite lookup_alter_ne.
Qed.

Lemma window_default s b :
  results (default BranchSelection_default (branches s !! b)) = window s b.
Proof. unfold window. by destruct (branches s !! b). Qed.

Definition same_view (s s' : SelectionState) : Prop :=
  (∀ b, window s' b = window s b) ∧ seen_results s' = seen_results s.

#[export] Instance same_view_equivalence : Equivalence same_view.
Proof.
  split; [by intros s|intros s t [Hw Hs]; split; [by intros b|done]|].
  intros s t u [Hw Hs] [Hw' Hs']. split; [intros b; by rewrite Hw'|by rewrite Hs'].
Qed.

Lemma entry_same_view b f s :
  (∀ br, results (f br) = results br) → same_view s (branch_entry b f s).
Proof.
  intros Hf. split; [|done]. intros b'. rewrite window_entry.
  destruct (decide (b = b')) as [->|]; [|done]. by rewrite Hf, window_default.
Qed.

Lemma discard_window b i s b' :
  window (discard_result b i s) b' =
  if decide (b = b') then filter (λ m, sm_id m ≠ i) (window s b') else window s b'.
Proof.
  unfold discard_result. rewrite window_update. destruct (decide (b = b')) as [->|]; [|done].
  unfold window. by destruct (branches s !! b').
Qed.

Lemma retire_window_window b s b' :
  window (retire_window b s) b' = if decide (b = b') then [] else window s b'.
Proof.
  unfold retire_window. rewrite window_on_seen, window_update.
  destruct (decide (b = b')); [|done]. by destruct (branches s !! b).
Qed.

(** Retirement changes memberships only. *)
Lemma retire_window_seen b s k :
  seen_results (retire_window b s) !! k =
  match seen_results s !! k with Some seen => retire_seen b k seen | None => None end.
Proof. unfold retire_window. simpl. rewrite map_lookup_imap. by destruct (seen_results s !! k). Qed.

Lemma filter_dom_size (P : Key * SeenResult → Prop) `{!∀ x, Decision (P x)} (m1 m2 : gmap Key SeenResult) :
  (∀ k x y, P (k, x) → P (k, y)) → dom m1 = dom m2 →
  size (filter P m1) = size (filter P m2).
Proof.
  intros HP Hd. rewrite <- !size_dom. f_equal. apply set_eq. intros k.
  rewrite !elem_of_dom. unfold is_Some. setoid_rewrite map_lookup_filter_Some.
  assert (∀ k, is_Some (m1 !! k) ↔ is_Some (m2 !! k)) as Hk
    by (intros k'; by rewrite <- !elem_of_dom, Hd).
  split; intros (x & Hx & Hpx).
  - destruct (proj1 (Hk k) ltac:(eauto)) as [y Hy]. exists y. eauto.
  - destruct (proj2 (Hk k) ltac:(eauto)) as [y Hy]. exists y. eauto.
Qed.

Lemma identity_count_dom s s' b :
  dom (seen_results s) = dom (seen_results s') → identity_count s b = identity_count s' b.
Proof.
  intros Hd. unfold identity_count. f_equal. by apply filter_dom_size.
Qed.

Lemma identity_count_insert s k seen b :
  identity_count (on_seen (<[k := seen]>) s) b ≤
  identity_count s b + (if decide (k.1 = b) then if decide (is_Some (seen_results s !! k)) then 0 else 1 else 0).
Proof.
  unfold identity_count. simpl. destruct (seen_results s !! k) as [x|] eqn:E.
  - rewrite (filter_dom_size _ _ (seen_results s)); [lia|done|].
    rewrite dom_insert_L. apply subseteq_union_1_L, singleton_subseteq_l, elem_of_dom. eauto.
  - rewrite map_filter_insert. unfold in_branch at 1. simpl.
    repeat case_decide; try done.
    + rewrite map_size_insert_None; [lia|]. apply map_lookup_filter_None. by left.
    + rewrite delete_id by done. lia.
Qed.
End views.

(** ** The invariant *)

Section invariant.
Context `{SerdeNumber, UnicodeData, JsonDeserializer}.
Variable a : EffectiveActivation.

Definition ids (s : SelectionState) (b : BranchId) : list string := sm_id <$> window s b.

Definition terminal_record (s : SelectionState) (k : Key) : Prop :=
  ∃ seen, seen_results s !! k = Some seen ∧ terminal_seen seen = true.

Definition selected_record (s : SelectionState) (k : Key) : Prop :=
  ∃ seen, seen_results s !! k = Some seen ∧ terminal_seen seen = true ∧ membership seen = MSelected.

(** Well-formed but for the record of the keys in [X]. *)
Record wf_except (X : Key → Prop) (s : SelectionState) : Prop := {
  wf_size b : (length (window s b) ≤ N.to_nat (window_size a))%nat;
  wf_nodup b : NoDup (ids s b);
  wf_selected b i : i ∈ ids s b → X (b, i) ∨ selected_record s (b, i);
  wf_family : family_has_messages a = false → ∀ b, window s b = [];
  wf_bound b : identity_count s b ≤ MAX_SEEN_RESULTS_PER_BRANCH
}.

Definition wf : SelectionState → Prop := wf_except (λ _, False).

Lemma wf_record s b i : wf s → i ∈ ids s b → selected_record s (b, i).
Proof. intros Hw Hi. by destruct (wf_selected _ _ Hw b i Hi). Qed.

Lemma wf_default : wf SelectionState_default.
Proof.
  assert (∀ b, window SelectionState_default b = []) as Hw
    by (intros b; unfold window; simpl; by rewrite lookup_empty).
  split.
  - intros b. rewrite Hw. simpl. lia.
  - intros b. unfold ids. rewrite Hw. constructor.
  - intros b i. unfold ids. rewrite Hw. by intros ?%elem_of_nil.
  - intros _ b. apply Hw.
  - intros b. unfold identity_count. simpl. rewrite map_filter_empty, map_size_empty.
    unfold MAX_SEEN_RESULTS_PER_BRANCH. lia.
Qed.

Lemma wf_view X s s' : same_view s s' → wf_except X s → wf_except X s'.
Proof.
  intros [Hw Hs] [K1 K2 K3 K4 K5]. split.
  - intros b. by rewrite Hw.
  - intros b. unfold ids. rewrite Hw. apply K2.
  - intros b i. unfold ids. rewrite Hw. intros Hi. destruct (K3 b i Hi) as [?|(x & ? & ? & ?)];
      [by left|right]. exists x. by rewrite Hs.
  - intros Hf b. rewrite Hw. auto.
  - intros b. rewrite (identity_count_dom _ s); [done|]. by rewrite Hs.
Qed.

(** A change of records that keeps those of the windows. *)
Lemma wf_records (X Y : Key → Prop) s s' :
  wf_except X s → (∀ b, window s' b = window s b) →
  (∀ b i, i ∈ ids s b → X (b, i) ∨ selected_record s (b, i) → Y (b, i) ∨ selected_record s' (b, i)) →
  (∀ b, identity_count s' b ≤ MAX_SEEN_RESULTS_PER_BRANCH) → wf_except Y s'.
Proof.
  intros [K1 K2 K3 K4 _] Hw Hr Hb. split; [| | | |done].
  - intros b. by rewrite Hw.
  - intros b. unfold ids. rewrite Hw. apply K2.
  - intros b i. unfold ids. rewrite Hw. intros Hi. apply Hr; auto.
  - intros Hf b. rewrite Hw. auto.
Qed.

Lemma set_membership_lookup k m s k' :
  seen_results (set_membership k m s) !! k' =
  if decide (k = k') then with_membership m <$> seen_results s !! k' else seen_results s !! k'.
Proof.
  unfold set_membership. simpl. destruct (decide (k = k')) as [->|].
  - by rewrite lookup_alter_eq.
  - by rewrite lookup_alter_ne.
Qed.

Lemma set_membership_count k m s b : identity_count (set_membership k m s) b = identity_count s b.
Proof. apply identity_count_dom. simpl. by rewrite dom_alter_L. Qed.

Lemma wf_set_membership X k m s :
  k.2 ∉ ids s k.1 → wf_except X s → wf_except X (set_membership k m s).
Proof.
  intros Hk Hw. apply (wf_records X X s); [done|done| |].
  - intros b i Hi [?|(x & Hx & ? & ?)]; [by left|right]. exists x.
    rewrite set_membership_lookup, decide_False; [done|]. intros ->. done.
  - intros b. rewrite set_membership_count. apply Hw.
Qed.

Lemma wf_set_selected k s :
  terminal_record s k → wf_except (λ k', k' = k) s → wf (set_membership k MSelected s).
Proof.
  intros (seen & Hseen & Ht) Hw. apply (wf_records (λ k', k' = k) _ s); [done|done| |].
  - intros b i Hi Hor. right. destruct (decide (k = (b, i))) as [->|Hne].
    + exists (with_membership MSelected seen).
      rewrite set_membership_lookup, decide_True, Hseen by done. done.
    + destruct Hor as [Heq|(x & Hx & ? & ?)]; [by destruct Hne|]. exists x.
      by rewrite set_membership_lookup, decide_False.
  - intros b. rewrite set_membership_count. apply Hw.
Qed.

(** A branch whose window shrinks to a sublist. *)
Lemma wf_shrink X s s' :
  wf_except X s → (∀ b, sublist (window s' b) (window s b)) →
  (∀ b i, i ∈ ids s' b → selected_record s (b, i) → selected_record s' (b, i)) →
  (∀ b, identity_count s' b ≤ MAX_SEEN_RESULTS_PER_BRANCH) → wf_except X s'.
Proof.
  intros [K1 K2 K3 K4 _] Hsub Hr Hb.
  assert (∀ b, sublist (ids s' b) (ids s b)) as Hids by (intros b; by apply fmap_sublist).
  split; [| | | |done].
  - intros b. etransitivity; [apply sublist_length, Hsub|apply K1].
  - intros b. eapply sublist_NoDup; [|apply Hids]. apply K2.
  - intros b i Hi. destruct (K3 b i) as [?|?]; [by eapply elem_of_sublist|by left|]. right. auto.
  - intros Hf b. apply sublist_nil_r. rewrite <- (K4 Hf b). apply Hsub.
Qed.

Lemma discard_ids b i s : i ∉ ids (discard_result b i s) b.
Proof.
  unfold ids. rewrite discard_window, decide_True by done.
  intros (m & -> & [Hne _]%list_elem_of_filter)%list_elem_of_fmap. done.
Qed.

Lemma wf_discard X b i s : wf_except X s → wf_except X (discard_result b i s).
Proof.
  intros Hw. apply (wf_shrink X s); [done| | |].
  - intros b'. rewrite discard_window. destruct (decide (b = b')); [apply sublist_filter|done].
  - done.
  - intros b'. apply Hw.
Qed.

Lemma wf_retire_window X b s : wf_except X s → wf_except X (retire_window b s).
Proof.
  intros Hw. apply (wf_shrink X s); [done| | |].
  - intros b'. rewrite retire_window_window. destruct (decide (b = b')); [apply sublist_nil_l|done].
  - intros b' i Hi (x & Hx & Ht & Hm). unfold ids in Hi. rewrite retire_window_window in Hi.
    destruct (decide (b = b')) as [|Hne]; [by apply elem_of_nil in Hi|].
    exists x. rewrite retire_window_seen, Hx. unfold retire_seen. simpl.
    by rewrite bool_decide_false.
  - intros b'. rewrite (identity_count_dom _ s); [apply Hw|]. apply set_eq. intros k.
    rewrite !elem_of_dom, retire_window_seen. unfold retire_seen.
    destruct (seen_results s !! k); split; intros [? ?]; done || eauto.
Qed.

(** ** The record of an accepted update *)

Lemma wf_record_update k o revision s :
  wf s →
  (is_Some (seen_results s !! k) ∨ identity_count s k.1 < MAX_SEEN_RESULTS_PER_BRANCH) →
  wf (on_seen (<[k := record_update o revision (seen_results s !! k)]>) s).
Proof.
  intros Hw Hk. apply (wf_records (λ _, False) _ s); [done|done| |].
  - intros b i Hi _. right. destruct (wf_record s b i Hw Hi) as (x & Hx & Ht & Hm).
    destruct (decide (k = (b, i))) as [He|Hne].
    + rewrite <- He in *. rewrite Hx.
      exists (record_update o revision (Some x)). split; [apply lookup_insert_eq|].
      simpl. by rewrite Ht, Hm, orb_true_r.
    + exists x. simpl. by rewrite lookup_insert_ne.
  - intros b. pose proof (wf_bound _ _ Hw b). pose proof (identity_count_insert s k
      (record_update o revision (seen_results s !! k)) b) as Hc.
    repeat case_decide; try lia. destruct Hk; [done|]. subst. lia.
Qed.
End invariant.

(** ** Applying an observation *)

Section applying.
Context `{SerdeNumber, UnicodeData, JsonDeserializer, !CandidateDigest}.
Context {W E : Type} (capture : SE W E (option CurrentInventories)).
Variable a : EffectiveActivation.

Definition on_selection (P : SelectionState → Prop) (w : World (W:=W)) : Prop := P (selection w).

Lemma triple_modify (P Q : SelectionState → Prop) f :
  (∀ s, P s → Q (f s)) →
  triple (on_selection P) (modify_selection (E:=E) f) (λ _, on_selection Q).
Proof. intros Hf w x w' Hw [= <- <-]. by apply Hf. Qed.

Lemma triple_recorded (P Q : SelectionState → Prop) k m :
  (∀ s, P s → Q (set_membership k m s)) →
  triple (on_selection P) (set_recorded (W:=W) (E:=E) k m) (λ _, on_selection Q).
Proof.
  intros Hf w x w' Hw. unfold set_recorded, bind, get_selection.
  destruct (seen_results (selection w) !! k); [|done]. intros [= <- <-]. by apply Hf.
Qed.

Lemma triple_get (P : SelectionState → Prop) :
  triple (on_selection P) (get_selection (W:=W) (E:=E)) (λ s, on_selection (λ s', s' = s ∧ P s)).
Proof. by intros w x w' Hw [= <- <-]. Qed.

Lemma triple_panic {A} (P : SelectionState → Prop) (x : option A) :
  triple (on_selection P) (or_panic (W:=W) (E:=E) x) (λ y, on_selection (λ s, P s ∧ x = Some y)).
Proof. intros w y w' Hw. destruct x; [|done]. by intros [= <- <-]. Qed.

Lemma triple_inventories P d ctx :
  triple (on_selection P) (with_inventories capture d ctx) (λ _, on_selection P).
Proof.
  intros w ctx' w' Hw. unfold with_inventories. destruct d; [|by intros [= <- <-]].
  unfold bind, capture_inventories. destruct (capture (host w)) as [[[i|]|e] h]; simpl; try done.
  - destruct (merge_into i (fc_value ctx)); simpl; [|done]. by intros [= <- <-].
  - by intros [= <- <-].
Qed.

Lemma retire_messages_lookup b l s k :
  seen_results (retire_messages b l s) !! k =
  if decide (k.1 = b ∧ k.2 ∈ sm_id <$> l) then with_membership MRetired <$> seen_results s !! k
  else seen_results s !! k.
Proof.
  unfold retire_messages. simpl. generalize (seen_results s).
  induction l as [|m l IH]; intros seen; simpl.
  { rewrite decide_False; [done|]. by intros [_ ?%elem_of_nil]. }
  rewrite IH. destruct k as [kb ki]. simpl.
  destruct (decide ((b, sm_id m) = (kb, ki))) as [[= -> <-]|Hne].
  - rewrite lookup_alter_eq, (decide_True (P := kb = kb ∧ sm_id m ∈ sm_id m :: _)) by set_solver.
    destruct (decide _); [|done]. by destruct (seen !! _).
  - rewrite lookup_alter_ne by done.
    destruct (decide (kb = b ∧ ki ∈ sm_id <$> l)) as [[-> Hi]|Hn].
    + rewrite decide_True by set_solver. done.
    + rewrite decide_False; [done|]. rewrite elem_of_cons. naive_solver.
Qed.

Lemma retire_messages_dom b l s : dom (seen_results (retire_messages b l s)) = dom (seen_results s).
Proof.
  apply set_eq. intros k. rewrite !elem_of_dom, retire_messages_lookup.
  case_decide; [|done]. by rewrite fmap_is_Some.
Qed.

(** The window after a push, as a list. *)
Lemma push_window_spec size l m kept retired :
  push_window size l m = (kept, retired) →
  (retired ++ kept)%list = (l ++ [m])%list ∧ (length kept ≤ N.to_nat size)%nat.
Proof.
  unfold push_window. intros [= <- <-]. rewrite take_drop. split; [done|].
  rewrite length_drop. lia.
Qed.

(** Where a new message goes. *)
Definition pushed (s : SelectionState) (b : BranchId) (kept retired : list SelectedMessage) :
    SelectionState :=
  retire_messages b retired (branch_update b (set_results kept) (branch_entry b id s)).

Lemma pushed_window s b kept retired b' :
  window (pushed s b kept retired) b' = if decide (b = b') then kept else window s b'.
Proof.
  unfold pushed, retire_messages. rewrite window_on_seen, window_update.
  destruct (decide (b = b')) as [->|Hne].
  - unfold branch_entry. simpl. by rewrite lookup_insert_eq.
  - by rewrite window_entry, decide_False.
Qed.

Lemma wf_pushed s b m kept retired :
  wf a s → family_has_messages a = true → sm_id m ∉ ids s b →
  push_window (window_size a) (window s b) m = (kept, retired) →
  wf_except a (λ k, k = (b, sm_id m)) (pushed s b kept retired).
Proof.
  intros Hw Hf Hm [Happ Hlen]%push_window_spec.
  assert (NoDup (sm_id <$> (retired ++ kept)%list)) as Hn.
  { rewrite Happ, fmap_app. apply NoDup_app. split_and!; [apply Hw| |apply NoDup_singleton].
    intros x Hx Hx2. apply Hm. by apply list_elem_of_singleton in Hx2 as <-. }
  rewrite fmap_app in Hn. apply NoDup_app in Hn as (_ & Hdisj & Hkept).
  split.
  - intros b'. rewrite pushed_window. case_decide; [done|apply Hw].
  - intros b'. unfold ids. rewrite pushed_window. case_decide; [done|apply Hw].
  - intros b' i Hi. unfold ids in Hi. rewrite pushed_window in Hi.
    destruct (decide (b = b')) as [<-|Hne].
    + assert (i ∈ sm_id <$> (window s b ++ [m])%list) as Hin
        by (rewrite <- Happ, fmap_app; apply elem_of_app; by right).
      rewrite fmap_app, elem_of_app in Hin. destruct Hin as [Hin|Hin].
      2: { left. by apply list_elem_of_singleton in Hin as ->. }
      right. destruct (wf_record a s b i Hw Hin) as (x & Hx & ? & ?). exists x.
      unfold pushed. rewrite retire_messages_lookup, decide_False; [done|].
      intros [_ Hr]. by apply (Hdisj i).
    + right. destruct (wf_record a s b' i Hw Hi) as (x & Hx & ? & ?). exists x.
      unfold pushed. rewrite retire_messages_lookup, decide_False; [done|]. naive_solver.
  - rewrite Hf. done.
  - intros b'. rewrite (identity_count_dom _ s); [apply Hw|]. unfold pushed. by rewrite retire_messages_dom.
Qed.

Definition triggers (outcome : SelectionOutcome) : bool :=
  match outcome with Candidate _ | Updated => true | _ => false end.

Lemma terminal_pushed s b kept retired k :
  terminal_record s k → terminal_record (pushed s b kept retired) k.
Proof.
  intros (x & Hx & Ht). unfold terminal_record, pushed. rewrite retire_messages_lookup.
  simpl. rewrite Hx. case_decide; eexists; by split.
Qed.

(** After an application: the observed key awaits its membership. *)
Definition applied (k : Key) (outcome : SelectionOutcome) (s : SelectionState) : Prop :=
  terminal_record s k ∧
  if triggers outcome then wf_except a (λ k', k' = k) s else wf a s ∧ k.2 ∉ ids s k.1.

(** Before it: the key has a terminal record and is in no window. *)
Definition fresh (k : Key) (s : SelectionState) : Prop :=
  wf a s ∧ terminal_record s k ∧ k.2 ∉ ids s k.1.

Lemma fresh_applied k outcome s : fresh k s → applied k outcome s.
Proof.
  intros (Hw & Ht & Hk). split; [done|]. destruct (triggers outcome); [|done].
  destruct Hw as [K1 K2 K3 K4 K5]. split; try done. intros b i Hi. right.
  by destruct (K3 b i Hi).
Qed.

Lemma fresh_view k s s' : same_view s s' → fresh k s → fresh k s'.
Proof.
  intros Hv (Hw & (x & Hx & Ht) & Hk). destruct Hv as [Hwin Hs]. split_and!.
  - by apply (wf_view a _ s).
  - exists x. by rewrite Hs.
  - unfold ids. by rewrite Hwin.
Qed.

Lemma select_event_triple k o ctx :
  triple (on_selection (fresh k)) (select_event capture a o ctx) (λ r, on_selection (applied k r)).
Proof.
  unfold select_event. eapply triple_bind; [apply triple_inventories|]. intros ctx'.
  apply triple_ret. intros s Hs. by apply fresh_applied.
Qed.

(** Selecting a message is a push, then the candidate. *)
Lemma select_message_run o m ctx w kept retired :
  push_window (window_size a) (window (selection w) (ob_branch o)) (selected_message o m)
    = (kept, retired) →
  select_message capture a o m ctx w =
  freeze_window capture a o ctx kept
    {| selection := pushed (selection w) (ob_branch o) kept retired; host := host w |}.
Proof.
  intros Hp. unfold select_message, bind, modify_selection, get_selection. cbv zeta beta.
  cbn [selection host].
  assert (window (branch_entry (ob_branch o) id (selection w)) (ob_branch o) =
          window (selection w) (ob_branch o)) as ->
    by (rewrite window_entry, decide_True by done; apply window_default).
  by rewrite Hp.
Qed.

Lemma freeze_window_triple P o ctx kept :
  triple (on_selection P) (freeze_window capture a o ctx kept)
         (λ r, on_selection (λ s, P s ∧ triggers r = true)).
Proof.
  unfold freeze_window. destruct (_ <? _); [by apply triple_ret|].
  eapply triple_bind; [apply triple_inventories|]. intros ctx'.
  eapply triple_bind; [apply triple_panic|]. intros roots.
  apply triple_ret. by intros s [? _].
Qed.

Lemma select_message_triple o m ctx :
  family_has_messages a = true →
  triple (on_selection (fresh (ob_branch o, m_id m))) (select_message capture a o m ctx)
         (λ r, on_selection (applied (ob_branch o, m_id m) r)).
Proof.
  intros Hf w r w' (Hw & Ht & Hk).
  destruct (push_window (window_size a) (window (selection w) (ob_branch o)) (selected_message o m))
    as [kept retired] eqn:Ep.
  rewrite (select_message_run _ _ _ _ _ _ Ep). intros Hr.
  apply (freeze_window_triple (λ s, s = pushed (selection w) (ob_branch o) kept retired)) in Hr
    as [Hs Htr]; [|done].
  unfold on_selection, applied. rewrite Htr, Hs.
  split; [by apply terminal_pushed|]. by apply (wf_pushed _ _ (selected_message o m)).
Qed.

Lemma filters_family c o m :
  evaluate_event_filters c o = Ok true → observation_message o = Some m →
  match tr_family (cc_trigger c) with Messages _ _ _ _ => true | _ => false end = true.
Proof.
  unfold evaluate_event_filters, observation_message.
  destruct (tr_family (cc_trigger c)) as [| |]; [done|..]; destruct (ob_kind o); try done;
    by repeat case_match.
Qed.

Lemma apply_with_inventories_triple k o :
  ob_branch o = k.1 → (∀ m, observation_message o = Some m → m_id m = k.2) →
  triple (on_selection (fresh k)) (apply_with_inventories capture a o)
         (λ r, on_selection (applied k r)).
Proof.
  intros Hb Hm. unfold apply_with_inventories.
  destruct (negb _); [apply triple_ret; intros s Hs; by apply fresh_applied|].
  destruct (is_historical a o); [apply triple_ret; intros s Hs; by apply fresh_applied|].
  destruct (evaluate_event_filters (ea_compiled a) o) as [[]|d] eqn:Ef.
  - eapply triple_bind with (R := λ _, on_selection (fresh k)).
    { apply triple_modify. intros s. apply fresh_view. by apply entry_same_view. }
    intros _. eapply triple_bind with (R := λ _, on_selection (fresh k)).
    { intros w x w' Hw [= <- <-]. done. }
    intros s0. destruct (trigger_context _ _) as [ctx|].
    2: { apply triple_ret. intros s Hs. by apply fresh_applied. }
    eapply triple_bind; [apply triple_inventories|].
    intros ctx'. simpl. destruct (evaluate_trigger_condition _ _);
      try (apply triple_ret; intros s Hs; by apply fresh_applied).
    destruct (observation_message o) as [m|] eqn:Em; [|apply select_event_triple].
    assert (k = (ob_branch o, m_id m)) as -> by (destruct k; simpl in *; by rewrite Hb, Hm).
    apply select_message_triple. by apply (filters_family _ o m).
  - apply triple_ret. intros s Hs. by apply fresh_applied.
  - eapply triple_bind with (R := λ _, on_selection (fresh k)).
    { apply triple_modify. intros s. apply fresh_view. by apply entry_same_view. }
    intros _. apply triple_ret. intros s Hs. by apply fresh_applied.
Qed.
(** ** Corrections and published updates *)

(** The invariant, a terminal record for the key and a window that is known. *)
Definition corrected (k : Key) (l : list SelectedMessage) (s : SelectionState) : Prop :=
  wf a s ∧ terminal_record s k ∧ window s k.1 = l.

Lemma corrected_view k l s s' : same_view s s' → corrected k l s → corrected k l s'.
Proof.
  intros Hv (Hw & (x & Hx & Ht) & Hl). pose proof (wf_view a _ _ _ Hv Hw).
  destruct Hv as [Hwin Hs]. split_and!; [done| |by rewrite Hwin]. exists x. by rewrite Hs.
Qed.

Lemma correction_matches_triple k l o complete filters :
  triple (on_selection (corrected k l)) (correction_matches capture a o complete filters)
         (λ _, on_selection (corrected k l)).
Proof.
  unfold correction_matches. destruct filters as [[]|]; try by apply triple_ret.
  destruct (trigger_context o complete); [|by apply triple_ret].
  eapply triple_bind; [apply triple_inventories|]. intros ctx. by apply triple_ret.
Qed.

Lemma terminal_discard b i s k : terminal_record s k → terminal_record (discard_result b i s) k.
Proof. done. Qed.

(** A rewrite of the messages of one branch that keeps their identities. *)
Lemma wf_rewrite_window b f s :
  (∀ br, sm_id <$> results (f br) = sm_id <$> results br) → wf a s → wf a (branch_update b f s).
Proof.
  intros Hf [K1 K2 K3 K4 K5].
  assert (∀ b', ids (branch_update b f s) b' = ids s b') as Hids.
  { intros b'. unfold ids. rewrite window_update. destruct (decide (b = b')) as [<-|]; [|done].
    unfold window. destruct (branches s !! b); [apply Hf|done]. }
  assert (∀ b', length (window (branch_update b f s) b') = length (window s b')) as Hlen
    by (intros b'; rewrite <- !(length_fmap sm_id); apply (f_equal length), Hids).
  split.
  - intros b'. by rewrite Hlen.
  - intros b'. by rewrite Hids.
  - intros b' i. rewrite Hids. apply K3.
  - intros Hfam b'. apply length_zero_iff_nil. by rewrite Hlen, (K4 Hfam).
  - done.
Qed.

Lemma correct_message_ids i f l :
  (∀ m, sm_id m = i → sm_id (f m) = i) → sm_id <$> correct_message i f l = sm_id <$> l.
Proof.
  intros Hf. induction l as [|m l IH]; [done|]. simpl.
  destruct (String.eqb_spec (sm_id m) i) as [He|]; csimpl; [by rewrite (Hf m He), He|by rewrite IH].
Qed.

Lemma wf_wf_except X s : wf a s → wf_except a X s.
Proof. intros [K1 K2 K3 K4 K5]. split; try done. intros b i Hi. right. by destruct (K3 b i Hi). Qed.

Lemma wf_membership_out k m s : k.2 ∉ ids s k.1 → wf a s → wf a (set_membership k m s).
Proof. apply wf_set_membership. Qed.

Lemma wf_membership_selected k s : terminal_record s k → wf a s → wf a (set_membership k MSelected s).
Proof. intros Ht Hw. by apply wf_set_selected, wf_wf_except. Qed.

Lemma triple_unless_settled {A} (P : World (W:=W) → Prop) m (x y : applying (W:=W) (E:=E) A) Q :
  triple P y Q → triple P x Q →
  triple P (match m with MHistorical | MRetired | MRemoved => y | _ => x end) Q.
Proof. by destruct m. Qed.

Lemma existsb_ids i (l : list SelectedMessage) :
  existsb (λ m, String.eqb (sm_id m) i) l = false → i ∉ sm_id <$> l.
Proof.
  induction l as [|m l IH]; simpl; [intros _; apply not_elem_of_nil|].
  intros [Hm%String.eqb_neq Hl]%orb_false_iff. rewrite elem_of_cons. intros [->|Hi]; [done|].
  by apply IH.
Qed.

Lemma triple_correct_window (P Q : SelectionState → Prop) b i f :
  (∀ s, P s → Q (branch_update b (λ br, set_results (correct_message i f (results br)) br) s)) →
  triple (on_selection P) (correct_window (W:=W) (E:=E) b i f) (λ _, on_selection Q).
Proof.
  intros Hf w x w' Hw. unfold correct_window, bind, get_selection.
  destruct (existsb _ _); [|done]. intros [= <- <-]. by apply Hf.
Qed.

Lemma apply_correction_triple k previous o :
  ob_branch o = k.1 → (∀ m, observation_message o = Some m → m_id m = k.2) →
  triple (on_selection (λ s, wf a s ∧ terminal_record s k)) (apply_correction capture a k previous o)
         (λ _, on_selection (wf a)).
Proof.
  intros Hb Hm. unfold apply_correction. rewrite Hb.
  apply triple_unless_settled; [apply triple_ret; intros s Hs; apply Hs|].
  eapply triple_bind; [apply triple_get|]. intros s0.
  eapply triple_bind with (R := λ _, on_selection (corrected k (window s0 k.1))).
  { apply triple_modify. intros s [-> [Hw Ht]].
    apply (corrected_view k _ s0); [by apply entry_same_view|done]. }
  intros _. eapply triple_bind; [apply correction_matches_triple|]. intros matching.
  destruct (negb matching).
  { eapply triple_bind with (R := λ _, on_selection (λ s, wf a s ∧ k.2 ∉ ids s k.1)).
    { apply triple_modify. intros s (Hw & _ & _). split; [by apply wf_discard|apply discard_ids]. }
    intros _. eapply triple_bind with (R := λ _, on_selection (wf a)).
    { apply triple_recorded. intros s [Hw Hk]. by apply wf_membership_out. }
    intros _. by apply triple_ret. }
  destruct (bool_decide _ && _) eqn:Es.
  { apply andb_true_iff in Es as [_ Hs%negb_true_iff].
    eapply triple_bind with (R := λ _, on_selection (wf a)).
    { apply triple_recorded. intros s (Hw & _ & Hl). apply wf_membership_out; [|done].
      unfold ids. rewrite Hl. by apply existsb_ids. }
    intros _. eapply triple_bind with (R := λ _, on_selection (wf a)).
    { apply triple_modify. intros s. apply wf_view. by apply entry_same_view. }
    intros _. by apply triple_ret. }
  destruct (negb _ || _).
  { eapply triple_bind with (R := λ _, on_selection (λ s, wf a s ∧ window s k.1 = [])).
    { apply triple_modify. intros s (Hw & _ & _). split; [by apply wf_retire_window|].
      by rewrite retire_window_window, decide_True. }
    intros _. eapply triple_bind with (R := λ _, on_selection (λ s, wf a s ∧ window s k.1 = [])).
    { apply triple_modify. intros s [Hw Hl].
      pose proof (entry_same_view k.1 (set_coverage false) s (λ _, eq_refl)) as Hv.
      split; [by eapply wf_view|]. by rewrite (proj1 Hv). }
    intros _. eapply triple_bind with (R := λ _, on_selection (wf a)).
    { apply triple_recorded. intros s [Hw Hl]. apply wf_membership_out; [|done].
      unfold ids. rewrite Hl. apply not_elem_of_nil. }
    intros _. by apply triple_ret. }
  eapply triple_bind; [apply triple_panic|]. intros m.
  eapply triple_bind with (R := λ _, on_selection (λ s, wf a s ∧ terminal_record s k)).
  { apply triple_correct_window. intros s ((Hw & Ht & _) & Ho). split; [|done].
    apply wf_rewrite_window; [|done]. intros br. apply correct_message_ids.
    intros x _. by apply Hm. }
  intros _. eapply triple_bind with (R := λ _, on_selection (wf a)).
  { apply triple_recorded. intros s [Hw Ht]. by apply wf_membership_selected. }
  intros _. by apply triple_ret.
Qed.

(** A published update whose record is stored. *)
Lemma apply_recorded_triple k previous o :
  ob_branch o = k.1 → (∀ m, observation_message o = Some m → m_id m = k.2) →
  triple (on_selection (λ s, wf a s ∧ (∃ r, seen_results s !! k = Some (record_update o r previous)) ∧
            match previous with
            | Some seen => terminal_seen seen = true ∨ k.2 ∉ ids s k.1
            | None => k.2 ∉ ids s k.1
            end))
         (apply_recorded capture a k previous o) (λ _, on_selection (wf a)).
Proof.
  intros Hb Hm. unfold apply_recorded. rewrite Hb.
  destruct (is_terminal o && _).
  { eapply triple_bind with (R := λ _, on_selection (λ s, wf a s ∧ k.2 ∉ ids s k.1)).
    { apply triple_modify. intros s (Hw & _). split; [by apply wf_discard|apply discard_ids]. }
    intros _. eapply triple_bind with (R := λ _, on_selection (wf a)).
    { apply triple_recorded. intros s [Hw Hk]. by apply wf_membership_out. }
    intros _. by apply triple_ret. }
  assert (∀ P : SelectionState → Prop, (∀ s, P s → fresh k s) →
    triple (on_selection P)
      (let* outcome := apply_with_inventories capture a o in
       do* set_recorded k
             (match outcome with Candidate _ | Updated => MSelected | _ => MExcluded end);
       ret outcome) (λ _, on_selection (wf a))) as Hnew.
  { intros P HP. eapply triple_bind.
    { eapply triple_weaken; [by apply (apply_with_inventories_triple k)| |].
      - intros w Hw. by apply HP.
      - intros r w Hw. exact Hw. }
    intros r. eapply triple_bind with (R := λ _, on_selection (wf a)).
    { apply triple_recorded. intros s [Ht Hw]. destruct r; simpl in Hw;
        first [by apply wf_set_selected|destruct Hw; by apply wf_membership_out]. }
    intros _. by apply triple_ret. }
  assert (∀ prev, match prev with Some seen => terminal_seen seen = false | None => True end →
    triple (on_selection (λ s, wf a s ∧ (∃ r, seen_results s !! k = Some (record_update o r prev)) ∧
            match prev with
            | Some seen => terminal_seen seen = true ∨ k.2 ∉ ids s k.1
            | None => k.2 ∉ ids s k.1
            end))
      (if negb (is_terminal o) then ret Updated
       else
         let* outcome := apply_with_inventories capture a o in
         do* set_recorded k
               (match outcome with Candidate _ | Updated => MSelected | _ => MExcluded end);
         ret outcome) (λ _, on_selection (wf a))) as Hfirst.
  { intros prev Hp. destruct (is_terminal o) eqn:Eo; simpl.
    2: { apply triple_ret. by intros s (Hw & _). }
    apply Hnew. intros s (Hw & (r & Hr) & Hk). split_and!; [done| |].
    - exists (record_update o r prev). split; [done|]. simpl. by rewrite Eo.
    - destruct prev as [seen|]; [|done]. destruct Hk as [Ht|]; [by rewrite Hp in Ht|done]. }
  destruct previous as [seen|]; [|by apply Hfirst].
  destruct (terminal_seen seen) eqn:Et; [|eapply triple_weaken; [by apply (Hfirst (Some seen))|intros w; unfold on_selection; by rewrite Et|done]].
  destruct (family_has_messages a) eqn:Ef; simpl.
  - eapply triple_weaken; [by apply apply_correction_triple| |done].
    intros w (Hw & (r & Hr) & _). split; [done|]. eexists. split; [done|].
    simpl. by rewrite Et, orb_true_r.
  - eapply triple_bind with (R := λ _, on_selection (wf a)).
    { apply triple_recorded. intros s (Hw & _). apply wf_membership_out; [|done].
      unfold ids. rewrite (wf_family _ _ _ Hw Ef). apply not_elem_of_nil. }
    intros _. by apply triple_ret.
Qed.

Lemma apply_published_triple identity revision o :
  (∀ m, observation_message o = Some m → m_id m = identity) →
  triple (on_selection (wf a)) (apply_published_with_inventories capture a identity revision o)
         (λ _, on_selection (wf a)).
Proof.
  intros Hm. unfold apply_published_with_inventories.
  eapply triple_bind; [apply triple_get|]. intros s0.
  set (k := (ob_branch o, identity)).
  assert (triple (on_selection (λ s, s = s0 ∧ wf a s0)) (ret Updated) (λ _, on_selection (wf a))
    (E := Stop (E:=E))) as Hret
    by (apply triple_ret; intros w [Hs Hw]; unfold on_selection in *; by rewrite Hs).
  destruct (_ && limit_reached _ _); [done|]. destruct (negb (accepts_update _ _ _ _ _)); [done|].
  destruct (_ && (_ <=? _)) eqn:Eb.
  { eapply triple_bind with (R := λ _, on_selection (wf a)).
    { apply triple_modify. intros s [-> Hw]. eapply wf_view; [|done]. by apply entry_same_view. }
    intros _. by apply triple_ret. }
  eapply triple_bind; [|intros u; by apply apply_recorded_triple].
  apply triple_modify. intros s [-> Hw]. split_and!.
  - apply (wf_record_update a k); [done|]. simpl.
    destruct (seen_results s0 !! k); [left; eauto|right]. by apply N.leb_gt.
  - exists revision. apply lookup_insert_eq.
  - destruct (seen_results s0 !! k) as [x|] eqn:Ek.
    + destruct (decide (identity ∈ ids s0 (ob_branch o))) as [Hi|]; [left|by right].
      destruct (wf_record a s0 _ _ Hw Hi) as (y & Hy & Ht & _).
      by injection (eq_trans (eq_sym Hy) Ek) as <-.
    + intros Hi. destruct (wf_record a s0 _ _ Hw Hi) as (y & Hy & _).
      by pose proof (eq_trans (eq_sym Hy) Ek).
Qed.
End applying.

(** ** The primitive changes of an update

    Whatever its result, an update of a key is a run of primitive changes. *)

Section primitives.
Context `{SerdeNumber, UnicodeData, JsonDeserializer, !CandidateDigest}.
Context {W E : Type} (capture : SE W E (option CurrentInventories)).
Variable a : EffectiveActivation.

Definition keeps_ids (f : BranchSelection → BranchSelection) : Prop :=
  ∀ br, sm_id <$> results (f br) = sm_id <$> results br.

Inductive prim (k : Key) (s : SelectionState) : SelectionState → Prop :=
| prim_entry f : keeps_ids f → prim k s (branch_entry k.1 f s)
| prim_update f : keeps_ids f → prim k s (branch_update k.1 f s)
| prim_discard : prim k s (discard_result k.1 k.2 s)
| prim_membership m : prim k s (set_membership k m s)
| prim_retire : prim k s (retire_window k.1 s)
| prim_push m kept retired :
    sm_id m = k.2 → push_window (window_size a) (window s k.1) m = (kept, retired) →
    prim k s (pushed s k.1 kept retired).

Definition moves (k : Key) {A} (m : applying (W:=W) (E:=E) A) : Prop :=
  ∀ w r w', m w = (r, w') → rtc (prim k) (selection w) (selection w').

Lemma moves_ret k {A} (x : A) : moves k (ret x).
Proof. intros w r w' [= <- <-]. constructor. Qed.

Lemma moves_panic k {A} (x : option A) : moves k (or_panic x).
Proof. intros w r w'. destruct x; intros [= <- <-]; constructor. Qed.

Lemma moves_get k : moves k get_selection.
Proof. intros w r w' [= <- <-]. constructor. Qed.

Lemma moves_bind k {A B} (m : applying A) (f : A → applying B) :
  moves k m → (∀ x, moves k (f x)) → moves k (bind m f).
Proof.
  intros Hm Hf w r w'. unfold bind. destruct (m w) as [[x|e] w1] eqn:E1.
  - intros Hr. etrans; [by eapply Hm|by eapply Hf].
  - intros [= <- <-]. by eapply Hm.
Qed.

Lemma moves_panic_bind k {A B} (x : option A) (f : A → applying B) :
  (∀ y, x = Some y → moves k (f y)) → moves k (bind (or_panic x) f).
Proof.
  intros Hf w r w'. destruct x as [y|]; [by apply Hf|]. intros [= <- <-]. constructor.
Qed.

Lemma moves_unless_settled k {A} m (x y : applying A) :
  moves k y → moves k x →
  moves k (match m with MHistorical | MRetired | MRemoved => y | _ => x end).
Proof. by destruct m. Qed.

Lemma moves_modify k f : (∀ s, prim k s (f s)) → moves k (modify_selection f).
Proof. intros Hf w r w' [= <- <-]. by apply rtc_once. Qed.

Lemma moves_recorded k m : moves k (set_recorded k m).
Proof.
  unfold set_recorded. intros w r w'. unfold bind, get_selection. simpl.
  destruct (seen_results (selection w) !! k); intros [= <- <-];
    [apply rtc_once, prim_membership|constructor].
Qed.

Lemma moves_correct_window k f :
  (∀ m, sm_id m = k.2 → sm_id (f m) = k.2) → moves k (correct_window k.1 k.2 f).
Proof.
  intros Hf. unfold correct_window. intros w r w'. unfold bind, get_selection. simpl.
  destruct (existsb _ _); intros [= <- <-]; [apply rtc_once, prim_update|constructor].
  intros br. by apply correct_message_ids.
Qed.

Lemma moves_inventories k d ctx : moves k (with_inventories capture d ctx).
Proof.
  unfold with_inventories. destruct d; [|apply moves_ret].
  apply moves_bind.
  - intros w r w'. unfold capture_inventories. destruct (capture (host w)) as [r' h].
    intros [= <- <-]. constructor.
  - intros [i|]; [|apply moves_ret]. apply moves_bind; [apply moves_panic|intros v; apply moves_ret].
Qed.
End primitives.

(** One step of a run of primitive changes. *)
Ltac moves_step :=
  match goal with
  | |- moves _ _ (if ?c then _ else _) => destruct c
  | |- moves _ _ (ret _) => apply moves_ret
  | |- moves _ _ (or_panic _) => apply moves_panic
  | |- moves _ _ get_selection => apply moves_get
  | |- moves _ _ (with_inventories _ _ _) => apply moves_inventories
  | |- moves _ _ (modify_selection (branch_entry _ _)) =>
      apply moves_modify; intros ?; by apply prim_entry
  | |- moves _ _ (modify_selection (discard_result _ _)) =>
      apply moves_modify; intros ?; by apply prim_discard
  | |- moves _ _ (set_recorded _ _) => apply moves_recorded
  | |- moves _ _ (modify_selection (mark_coverage_gap _)) =>
      apply moves_modify; intros ?; by apply prim_entry
  | |- moves _ _ (modify_selection (retire_window _)) =>
      apply moves_modify; intros ?; by apply prim_retire
  | |- moves _ _ (bind (or_panic _) _) => apply moves_panic_bind; intros ? ?
  | |- moves _ _ (bind _ _) => apply moves_bind; [|intros ?]
  end.

Section prim_runs.
Context `{SerdeNumber, UnicodeData, JsonDeserializer, !CandidateDigest}.
Context {W E : Type} (capture : SE W E (option CurrentInventories)).
Variable a : EffectiveActivation.

Lemma select_event_moves k o ctx : moves a k (select_event capture a o ctx).
Proof. unfold select_event. repeat moves_step. Qed.

Lemma freeze_window_moves k o ctx kept : moves a k (freeze_window capture a o ctx kept).
Proof. unfold freeze_window. repeat moves_step. Qed.

Lemma select_message_moves k o m ctx :
  ob_branch o = k.1 → m_id m = k.2 → moves a k (select_message capture a o m ctx).
Proof.
  intros Hb Hm w r w'.
  destruct (push_window (window_size a) (window (selection w) (ob_branch o)) (selected_message o m))
    as [kept retired] eqn:Ep.
  rewrite (select_message_run capture a _ _ _ _ _ _ Ep). intros Hr%(freeze_window_moves k).
  simpl in Hr. rewrite Hb in *. eapply rtc_l; [|exact Hr].
  by eapply (prim_push _ _ _ (selected_message o m)).
Qed.

Lemma apply_with_inventories_moves k o :
  ob_branch o = k.1 → (∀ m, observation_message o = Some m → m_id m = k.2) →
  moves a k (apply_with_inventories capture a o).
Proof.
  intros Hb Hm. unfold apply_with_inventories. rewrite Hb. do 2 moves_step; [moves_step|].
  destruct (evaluate_event_filters (ea_compiled a) o) as [[]|d]; repeat moves_step.
  destruct (trigger_context _ _) as [ctx|]; repeat moves_step.
  destruct (evaluate_trigger_condition _ _); repeat moves_step.
  destruct (observation_message o) as [m|] eqn:Em; [|apply select_event_moves].
  apply select_message_moves; auto.
Qed.

Lemma correction_matches_moves k o complete filters :
  moves a k (correction_matches capture a o complete filters).
Proof.
  unfold correction_matches. destruct filters as [[]|]; try moves_step.
  destruct (trigger_context o complete); repeat moves_step.
Qed.

Lemma apply_correction_moves k previous o :
  ob_branch o = k.1 → (∀ m, observation_message o = Some m → m_id m = k.2) →
  moves a k (apply_correction capture a k previous o).
Proof.
  intros Hb Hm. unfold apply_correction. rewrite Hb.
  apply moves_unless_settled; [moves_step|].
  repeat moves_step; try apply correction_matches_moves.
  apply moves_correct_window. intros m _. by apply Hm.
Qed.

Lemma apply_recorded_moves k previous o :
  ob_branch o = k.1 → (∀ m, observation_message o = Some m → m_id m = k.2) →
  moves a k (apply_recorded capture a k previous o).
Proof.
  intros Hb Hm. unfold apply_recorded. rewrite Hb. moves_step; [repeat moves_step|].
  destruct previous as [seen|]; repeat moves_step;
    first [by apply apply_with_inventories_moves|by apply apply_correction_moves].
Qed.
End prim_runs.

(** ** What primitive changes keep *)

Section kept.
Context `{SerdeNumber, UnicodeData, JsonDeserializer, !CandidateDigest}.
Variable a : EffectiveActivation.

(** A record but for its membership. *)
Definition core (s : SeenResult) : bool * N * EvidenceVersion :=
  (terminal_seen s, sr_revision s, sr_version s).

Definition cores (s : SelectionState) : gmap Key (bool * N * EvidenceVersion) :=
  core <$> seen_results s.

Lemma cores_membership k m s : cores (set_membership k m s) = cores s.
Proof.
  unfold cores. apply map_eq. intros k'. rewrite !lookup_fmap, set_membership_lookup.
  case_decide; [|done]. by destruct (seen_results s !! k').
Qed.

Lemma prim_cores k s s' : prim a k s s' → cores s' = cores s.
Proof.
  intros [f|f| |m| |m kept retired]; try done.
  - apply cores_membership.
  - unfold cores. apply map_eq. intros k'. rewrite !lookup_fmap, retire_window_seen.
    destruct (seen_results s !! k') as [x|]; [|done]. unfold retire_seen. simpl.
    by destruct (_ && _).
  - unfold cores, pushed. apply map_eq. intros k'. rewrite !lookup_fmap, retire_messages_lookup.
    case_decide; [|done]. simpl. by destruct (seen_results s !! k').
Qed.

Lemma prims_cores k s s' : rtc (prim a k) s s' → cores s' = cores s.
Proof. induction 1 as [s|s t u Hst _ IH]; [done|]. by rewrite IH, (prim_cores k s t). Qed.

(** A removed identity that is in no window. *)
Definition removed (k : Key) (x : SeenResult) (s : SelectionState) : Prop :=
  seen_results s !! k = Some x ∧ membership x = MRemoved ∧ k.2 ∉ ids s k.1.

Lemma push_window_ids size l m kept retired i :
  push_window size l m = (kept, retired) →
  i ∈ sm_id <$> retired ∨ i ∈ sm_id <$> kept → i ∈ sm_id <$> l ∨ i = sm_id m.
Proof.
  intros [Happ _]%push_window_spec Hi.
  assert (i ∈ sm_id <$> (l ++ [m])%list) as Hin by (by rewrite <- Happ, fmap_app, elem_of_app).
  rewrite fmap_app, elem_of_app in Hin. destruct Hin as [|Hin]; [by left|right].
  by apply list_elem_of_singleton in Hin.
Qed.

Lemma prim_removed k k0 x s s' : k ≠ k0 → prim a k s s' → removed k0 x s → removed k0 x s'.
Proof.
  intros Hne Hp (Hx & Hm & Hi).
  assert (k.1 = k0.1 → k0.2 ≠ k.2) as Hid by (destruct k, k0; simpl; congruence).
  split_and!; [|done|].
  - destruct Hp as [f|f| |m| |m kept retired Hk Hpush]; try done.
    + by rewrite set_membership_lookup, decide_False.
    + rewrite retire_window_seen, Hx. unfold retire_seen. by rewrite Hm, orb_true_r, andb_false_r.
    + unfold pushed. rewrite retire_messages_lookup, decide_False; [done|]. intros [Hb Hr].
      rewrite Hb in Hi.
      destruct (push_window_ids _ _ _ _ _ k0.2 Hpush (or_introl Hr)) as [|Heq]; [done|].
      apply Hid; congruence.
  - unfold ids in *. destruct Hp as [f Hf|f Hf| |m| |m kept retired Hk Hpush]; try done.
    + rewrite window_entry. case_decide as Hb; [|done]. by rewrite Hf, window_default, Hb.
    + rewrite window_update. case_decide as Hb; [|done]. unfold window in Hi. rewrite <- Hb in Hi.
      destruct (branches s !! k.1); [by rewrite Hf|done].
    + rewrite discard_window. case_decide as Hb; [|done].
      intros (y & Hy & [_ Hin]%list_elem_of_filter)%list_elem_of_fmap. apply Hi.
      rewrite Hy. by apply list_elem_of_fmap_2.
    + rewrite retire_window_window. case_decide; [apply not_elem_of_nil|done].
    + rewrite pushed_window. case_decide as Hb; [|done]. intros Hin.
      rewrite <- Hb in Hi.
      destruct (push_window_ids _ _ _ _ _ k0.2 Hpush (or_intror Hin)) as [|Heq]; [done|].
      apply Hid; congruence.
Qed.

Lemma prims_removed k k0 x s s' : k ≠ k0 → rtc (prim a k) s s' → removed k0 x s → removed k0 x s'.
Proof. intros Hne. induction 1; eauto using prim_removed. Qed.
End kept.

(** ** Histories

    The operations on the state of one activation.  An update that stops with
    an error is not a step: the engine works on a copy and drops it. *)

Section histories.
Context `{SerdeNumber, UnicodeData, JsonDeserializer, !CandidateDigest}.
Context {W E : Type} (capture : SE W E (option CurrentInventories)).
Variable a : EffectiveActivation.

Inductive step (s : SelectionState) : SelectionState → Prop :=
| step_published identity revision o h r s' h' :
    (∀ m, observation_message o = Some m → m_id m = identity) →
    apply_published_with_inventories capture a identity revision o {| selection := s; host := h |} =
      (Ok r, {| selection := s'; host := h' |}) →
    step s s'
| step_removed b identity revision effective s' :
    remove_result s b identity revision = (effective, s') → step s s'
| step_gap b : step s (mark_coverage_gap b s)
| step_reset b : step s (reset_segment b s)
| step_restored b : step s (restore_coverage b s).

Lemma mark_coverage_gap_view b s : same_view s (mark_coverage_gap b s).
Proof. by apply entry_same_view. Qed.

Lemma wf_reset_segment b s : wf a s → wf a (reset_segment b s).
Proof. intros Hw. by eapply wf_view, wf_retire_window; [apply mark_coverage_gap_view|]. Qed.

Lemma wf_restore_coverage b s : wf a s → wf a (restore_coverage b s).
Proof. intros Hw. by eapply wf_view, wf_retire_window; [apply entry_same_view|]. Qed.

(** A removal that takes effect stores a record, or marks the limit. *)
Definition removal_record (revision : N) (order : NativeOrderKey) : SeenResult :=
  {| terminal_seen := true; sr_revision := revision; sr_version := removed_version revision;
     sr_native_order := order; membership := MRemoved |}.

Lemma remove_result_cases s b i revision effective s' :
  remove_result s b i revision = (effective, s') →
  (effective = false ∧ s' = s) ∨
  (effective = true ∧ seen_results s !! (b, i) = None ∧
     MAX_SEEN_RESULTS_PER_BRANCH ≤ identity_count s b ∧
     s' = discard_result b i (mark_identity_limit b s)) ∨
  (effective = true ∧ ∃ order,
     (∀ x, seen_results s !! (b, i) = Some x → sr_revision x ≤ revision) ∧
     (is_Some (seen_results s !! (b, i)) ∨ identity_count s b < MAX_SEEN_RESULTS_PER_BRANCH) ∧
     s' = on_seen (<[(b, i) := removal_record revision order]>) (discard_result b i s)).
Proof.
  unfold remove_result. intros Hr. destruct (seen_results s !! (b, i)) as [x|] eqn:Ek.
  - destruct (_ || _) eqn:Eg; [left; by simplify_eq|]. right; right. simpl in Hr.
    apply orb_false_iff in Eg as [Hlt%N.ltb_ge _]. injection Hr as <- <-.
    split; [done|]. exists (sr_native_order x). split_and!; [by intros ? [= <-]|left; eauto|done].
  - simpl in Hr. destruct (N.leb_spec MAX_SEEN_RESULTS_PER_BRANCH (identity_count s b)) as [Hle|Hlt];
      injection Hr as <- <-; right; [by left|right].
    split; [done|]. exists {| order_key := "" |}. split_and!; [done|by right|done].
Qed.

Lemma wf_store_absent k x s :
  k.2 ∉ ids s k.1 →
  (is_Some (seen_results s !! k) ∨ identity_count s k.1 < MAX_SEEN_RESULTS_PER_BRANCH) →
  wf a s → wf a (on_seen (<[k := x]>) s).
Proof.
  intros Hk Hb Hw. apply (wf_records a (λ _, False) _ s); [done|done| |].
  - intros b i Hi [?|(y & Hy & ? & ?)]; [by left|right]. exists y. simpl.
    rewrite lookup_insert_ne; [done|]. by intros ->.
  - intros b. pose proof (wf_bound _ _ _ Hw b). pose proof (identity_count_insert s k x b) as Hc.
    repeat case_decide; try lia. destruct Hb; [done|]. subst. lia.
Qed.

Lemma wf_remove_result s b i revision effective s' :
  remove_result s b i revision = (effective, s') → wf a s → wf a s'.
Proof.
  intros [[_ ->]|[(_ & _ & _ & ->)|(_ & order & _ & Hb & ->)]]%remove_result_cases Hw; [done| |].
  - apply wf_discard. eapply wf_view; [by apply entry_same_view|done].
  - apply wf_store_absent; [apply discard_ids|done|by apply wf_discard].
Qed.

Lemma step_wf s s' : step s s' → wf a s → wf a s'.
Proof.
  intros [i rev o h r ? h' Hm Hr|b i rev eff ? Hr|b|b|b] Hw.
  - by apply (apply_published_triple capture a i rev o Hm {| selection := s; host := h |}) in Hr.
  - by eapply wf_remove_result.
  - eapply wf_view; [apply mark_coverage_gap_view|done].
  - by apply wf_reset_segment.
  - by apply wf_restore_coverage.
Qed.

Lemma steps_wf s s' : rtc step s s' → wf a s → wf a s'.
Proof. induction 1; eauto using step_wf. Qed.

(** What an update does, whatever its result. *)
Lemma published_cases i revision o w r w' :
  let k := (ob_branch o, i) in
  (∀ m, observation_message o = Some m → m_id m = i) →
  apply_published_with_inventories capture a i revision o w = (r, w') →
  (r = Ok Updated ∧ seen_results (selection w') = seen_results (selection w) ∧
   ∀ b, window (selection w') b = window (selection w) b) ∨
  (accepts_update (selection w) (ob_branch o) i revision (ob_version o) = true ∧
   let previous := seen_results (selection w) !! k in
   let s1 := on_seen (<[k := record_update o revision previous]>) (selection w) in
   apply_recorded capture a k previous o {| selection := s1; host := host w |} = (r, w') ∧
   rtc (prim a k) s1 (selection w')).
Proof.
  intros k Hm. unfold apply_published_with_inventories, bind, get_selection. fold k. intros Hr.
  destruct (_ && limit_reached _ _); [left; by injection Hr as <- <-|].
  destruct (accepts_update _ _ _ _ _) eqn:Ea; [|left; by injection Hr as <- <-].
  destruct (_ && (_ <=? _)).
  - left. injection Hr as <- <-. split_and!; [done|done|]. intros b. simpl.
    apply (entry_same_view (ob_branch o) set_limit_reached (selection w)). done.
  - right. split; [done|]. cbv zeta. split; [done|].
    by apply (apply_recorded_moves capture a k _ o eq_refl Hm) in Hr.
Qed.
End histories.
