(* ===== verification/SelectionHistory.v ===== *)
(** * Histories of a selection state

    The properties of selection over any sequence of published updates,
    removals and coverage changes: the invariant of the windows, records that
    only advance, one candidate per identity, removals that guard against old
    updates, and what a candidate holds. *)

From stdpp Require Import gmap relations sorting.
From S2P Require Import Prelude Order RustString Diagnostics Expression Filters Domain Template Decision Check Lifecycle Json Scalars Provenance Evaluator Inventories Preparation Context Selection SelectionFacts.

#[local] Open Scope N_scope.

Section records.
Context `{SerdeNumber, UnicodeData, JsonDeserializer, !CandidateDigest}.
Context {W E : Type} (capture : SE W E (option CurrentInventories)).
Variable a : EffectiveActivation.

(** ** Records advance *)

Definition advances (s s' : SelectionState) : Prop :=
  ∀ k x, seen_results s !! k = Some x →
  ∃ y, seen_results s' !! k = Some y ∧ sr_revision x ≤ sr_revision y ∧
       (terminal_seen x = true → terminal_seen y = true).

Lemma advances_refl s : advances s s.
Proof. intros k x Hx. exists x. split_and!; [done|lia|done]. Qed.

Lemma advances_trans s t u : advances s t → advances t u → advances s u.
Proof.
  intros Hst Htu k x Hx. destruct (Hst k x Hx) as (y & Hy & ? & ?).
  destruct (Htu k y Hy) as (z & Hz & ? & ?). exists z. split_and!; [done|lia|auto].
Qed.

Lemma advances_cores s s' : cores s' = cores s → advances s s'.
Proof.
  intros Hc k x Hx. assert (cores s' !! k = Some (core x)) as Hk
    by (rewrite Hc; unfold cores; by rewrite lookup_fmap, Hx).
  unfold cores in Hk. apply lookup_fmap_Some in Hk as (y & Hy & Hk).
  exists y. unfold core in Hy. injection Hy as Ht Hr _. split_and!; [done|lia|by rewrite Ht].
Qed.

Lemma advances_seen s s' : seen_results s' = seen_results s → advances s s'.
Proof. intros Hs. apply advances_cores. unfold cores. by rewrite Hs. Qed.

Lemma advances_insert k y s :
  (∀ x, seen_results s !! k = Some x →
     sr_revision x ≤ sr_revision y ∧ (terminal_seen x = true → terminal_seen y = true)) →
  advances s (on_seen (<[k := y]>) s).
Proof.
  intros Hy k' x Hx. simpl. destruct (decide (k = k')) as [->|Hne].
  - exists y. rewrite lookup_insert_eq. split; [done|auto].
  - exists x. rewrite lookup_insert_ne by done. split_and!; [done|lia|done].
Qed.

Lemma accepted_revision s b i revision version x :
  accepts_update s b i revision version = true → seen_results s !! (b, i) = Some x →
  sr_revision x < revision ∨ revision = sr_revision x ∧ membership x ≠ MRemoved.
Proof.
  unfold accepts_update. intros Ha Hx. rewrite Hx in Ha.
  apply orb_true_iff in Ha as [Hlt%N.ltb_lt|Heq]; [by left|right].
  apply andb_true_iff in Heq as [[He%N.eqb_eq Hm]%andb_true_iff _].
  split; [done|]. by apply negb_true_iff, bool_decide_eq_false in Hm.
Qed.

Lemma retire_window_cores b s : cores (retire_window b s) = cores s.
Proof. apply (prim_cores a (b, "")). apply prim_retire. Qed.

Lemma step_advances s s' : step capture a s s' → advances s s'.
Proof.
  intros [i rev o h r ? h' Hm Hr|b i rev eff ? Hr|b|b|b].
  - apply published_cases in Hr as [(_ & Hs & _)|(Ha & _ & Hp)]; [by apply advances_seen| |done].
    simpl in *. eapply advances_trans; [|by eapply advances_cores, prims_cores].
    apply advances_insert. intros x Hx. pose proof (accepted_revision _ _ _ _ _ _ Ha Hx).
    rewrite Hx. simpl. split; [lia|]. intros ->. apply orb_true_r.
  - apply remove_result_cases in Hr as [[_ ->]|[(_ & _ & _ & ->)|(_ & order & Hle & _ & ->)]].
    + apply advances_refl.
    + by apply advances_seen.
    + apply (advances_insert (b, i) (removal_record rev order) (discard_result b i s)).
      intros x Hx. split; [by apply Hle|done].
  - by apply advances_seen.
  - apply advances_cores. apply (retire_window_cores b s).
  - apply advances_cores. apply (retire_window_cores b s).
Qed.

Lemma steps_advance s s' : rtc (step capture a) s s' → advances s s'.
Proof. induction 1; eauto using advances_refl, advances_trans, step_advances. Qed.

(** ** A terminal record yields no candidate *)

Lemma correction_no_candidate k previous o w r w' c :
  apply_correction capture a k previous o w = (r, w') → r ≠ Ok (Candidate c).
Proof.
  intros Hr ->. unfold apply_correction in Hr.
  destruct (membership previous); try done;
    repeat (apply bind_ok in Hr as (? & ? & ? & Hr)); simpl in Hr;
    repeat case_match; simpl in Hr;
    repeat (apply bind_ok in Hr as (? & ? & ? & Hr)); simpl in Hr; try done; simplify_eq.
Qed.
Lemma set_recorded_ok k m (w : World (W:=W)) x w' :
  set_recorded (E:=E) k m w = (Ok x, w') →
  w' = {| selection := set_membership k m (selection w); host := host w |}.
Proof.
  unfold set_recorded, bind, get_selection. destruct (seen_results (selection w) !! k); [|done].
  by intros [= _ <-].
Qed.

(** A candidate of an update comes from an observation that is applied. *)
Lemma recorded_candidate k previous o w c w' :
  apply_recorded capture a k previous o w = (Ok (Candidate c), w') →
  is_terminal o = true ∧ is_historical a o = false ∧
  (∀ seen, previous = Some seen → terminal_seen seen = false) ∧
  ∃ w1, apply_with_inventories capture a o w = (Ok (Candidate c), w1) ∧
        w' = {| selection := set_membership k MSelected (selection w1); host := host w1 |}.
Proof.
  unfold apply_recorded. intros Hr. destruct (is_terminal o && is_historical a o) eqn:Eh.
  { by apply bind_ok in Hr as (? & ? & _ & (? & ? & _ & Hr)%bind_ok). }
  assert ((let* outcome := apply_with_inventories capture a o in
    do* set_recorded k
          (match outcome with Candidate _ | Updated => MSelected | _ => MExcluded end);
    ret outcome) w = (Ok (Candidate c), w') →
    ∃ w1, apply_with_inventories capture a o w = (Ok (Candidate c), w1) ∧
      w' = {| selection := set_membership k MSelected (selection w1); host := host w1 |}) as Hnew.
  { intros (r & w1 & Hw & ([] & w2 & Hs & [= -> <-])%bind_ok)%bind_ok.
    apply set_recorded_ok in Hs. eauto. }
  destruct previous as [seen|].
  - destruct (terminal_seen seen) eqn:Et.
    { destruct (negb _).
      - by apply bind_ok in Hr as (? & ? & _ & Hr).
      - by destruct (correction_no_candidate _ _ _ _ _ _ c Hr). }
    destruct (is_terminal o); [|done]. simpl in *.
    split_and!; [done|done|by intros ? [= <-]|by apply Hnew].
  - destruct (is_terminal o); [|done]. split_and!; [done|done|done|by apply Hnew].
Qed.

Lemma published_candidate i revision o w c w' :
  (∀ m, observation_message o = Some m → m_id m = i) →
  apply_published_with_inventories capture a i revision o w = (Ok (Candidate c), w') →
  let previous := seen_results (selection w) !! (ob_branch o, i) in
  is_terminal o = true ∧ is_historical a o = false ∧
  (∀ seen, previous = Some seen → terminal_seen seen = false) ∧
  ∃ w1, apply_with_inventories capture a o
          {| selection := on_seen (<[(ob_branch o, i) := record_update o revision previous]>)
                            (selection w); host := host w |} = (Ok (Candidate c), w1) ∧
        w' = {| selection := set_membership (ob_branch o, i) MSelected (selection w1);
                host := host w1 |}.
Proof.
  intros Hm Hr. apply (published_cases capture a) in Hr as [(Hr & _)|(_ & Hr & _)]; [done| |done].
  by apply recorded_candidate.
Qed.

Lemma candidate_terminal i revision o w c w' :
  (∀ m, observation_message o = Some m → m_id m = i) →
  apply_published_with_inventories capture a i revision o w = (Ok (Candidate c), w') →
  terminal_record (selection w') (ob_branch o, i).
Proof.
  intros Hm Hr. apply published_cases in Hr as [(Hc & _)|(_ & Hrec & Hp)]; [done| |done].
  apply recorded_candidate in Hrec as (Ht & _). simpl in *.
  apply prims_cores, advances_cores in Hp.
  destruct (Hp (ob_branch o, i) _ (lookup_insert_eq _ _ _)) as (y & Hy & _ & Hty).
  exists y. split; [done|]. apply Hty. simpl. by rewrite Ht.
Qed.

(** ** Removals guard *)

(** The record of a key does not accept updates of a revision up to [r]. *)
Definition guarded (r : N) (k : Key) (s : SelectionState) : Prop :=
  ∃ x, seen_results s !! k = Some x ∧ (r < sr_revision x ∨ sr_revision x = r ∧ removed k x s).

Lemma guarded_rejects r k s revision version :
  guarded r k s → revision ≤ r → accepts_update s k.1 k.2 revision version = false.
Proof.
  intros (x & Hx & Hg) Hle. destruct (accepts_update _ _ _ _ _) eqn:Ea; [|done]. destruct k as [b i].
  destruct (accepted_revision _ _ _ _ _ _ Ea Hx) as [|[? Hm]]; [lia|].
  destruct Hg as [|(? & _ & ? & _)]; [lia|done].
Qed.

Lemma guarded_advances r k s s' :
  (∃ x, seen_results s !! k = Some x ∧ r < sr_revision x) → advances s s' → guarded r k s'.
Proof.
  intros (x & Hx & Hr) Ha. destruct (Ha k x Hx) as (y & Hy & ? & _). exists y.
  split; [done|]. left. lia.
Qed.

Lemma guarded_prims r k0 k s s' : k ≠ k0 → rtc (prim a k) s s' → guarded r k0 s → guarded r k0 s'.
Proof.
  intros Hne Hp (x & Hx & [Hlt|[Heq Hg]]).
  - eapply guarded_advances; [by exists x|]. by eapply advances_cores, prims_cores.
  - eapply prims_removed in Hg; [|done..]. exists x. split; [apply Hg|]. by right.
Qed.

Lemma guarded_insert r k0 k y s :
  k ≠ k0 → guarded r k0 s → guarded r k0 (on_seen (<[k := y]>) s).
Proof.
  intros Hne (x & Hx & Hg). exists x. unfold removed. simpl. rewrite lookup_insert_ne by done.
  split; [done|]. destruct Hg as [|(? & ? & ? & ?)]; [by left|right]. by split_and!.
Qed.

Lemma guarded_view r k s s' : same_view s s' → guarded r k s → guarded r k s'.
Proof.
  intros [Hw Hs] (x & Hx & Hg). exists x. unfold removed, ids. by rewrite Hs, Hw.
Qed.

(** A change of the whole branch is the change of another identity of it. *)
Lemma other_key (k : Key) b : (b, String "x" k.2) ≠ k.
Proof.
  intros Hk. apply (f_equal (λ k, String.length k.2)) in Hk. simpl in Hk. lia.
Qed.

Lemma guarded_retire_window r k b s : guarded r k s → guarded r k (retire_window b s).
Proof.
  apply (guarded_prims r k (b, String "x" k.2)); [apply other_key|]. apply rtc_once.
  exact (prim_retire a (b, String "x" k.2) s).
Qed.

Lemma step_guarded r k s s' : step capture a s s' → guarded r k s → guarded r k s'.
Proof.
  intros [i rev o h q ? h' Hm Hr|b i rev eff ? Hr|b|b|b] Hg.
  - apply published_cases in Hr as [(_ & Hs & Hw)|(Ha & _ & Hp)]; [by apply (guarded_view r k s)| |done].
    simpl in *. destruct (decide ((ob_branch o, i) = k)) as [<-|Hne].
    + eapply guarded_advances; [|by eapply advances_cores, prims_cores].
      destruct Hg as (x & Hx & Hg). exists (record_update o rev (seen_results s !! (ob_branch o, i))).
      split; [apply lookup_insert_eq|]. simpl.
      destruct (accepted_revision _ _ _ _ _ _ Ha Hx) as [|[? ?]]; destruct Hg as [|(? & ? & ? & ?)];
        done || lia.
    + eapply guarded_prims; [done..|]. by apply guarded_insert.
  - apply remove_result_cases in Hr as [[_ ->]|[(_ & Hn & _ & ->)|(_ & order & Hle & _ & ->)]]; [done| |].
    + assert ((b, i) ≠ k) as Hne by (intros <-; destruct Hg as (x & Hx & _); congruence).
      apply (guarded_prims r k (b, i) (mark_identity_limit b s)); [done| |].
      * apply rtc_once. exact (prim_discard a (b, i) (mark_identity_limit b s)).
      * eapply guarded_view; [by apply entry_same_view|done].
    + destruct (decide ((b, i) = k)) as [<-|Hne].
      * destruct Hg as (x & Hx & Hg). exists (removal_record rev order).
        split; [apply lookup_insert_eq|]. pose proof (Hle x Hx).
        assert (removed (b, i) (removal_record rev order)
          (on_seen (<[(b, i):=removal_record rev order]>) (discard_result b i s))) as Hrem
          by (split_and!; [apply lookup_insert_eq|done|apply discard_ids]).
        simpl. destruct (N.eq_dec rev r) as [->|]; [by right|left].
        destruct Hg as [|[? _]]; lia.
      * apply guarded_insert; [done|]. apply (guarded_prims r k (b, i) s); [done| |done].
        apply rtc_once. exact (prim_discard a (b, i) s).
  - eapply guarded_view; [apply mark_coverage_gap_view|done].
  - eapply guarded_view; [apply mark_coverage_gap_view|]. by apply guarded_retire_window.
  - eapply guarded_view; [by apply entry_same_view|]. by apply guarded_retire_window.
Qed.

Lemma steps_guarded r k s s' : rtc (step capture a) s s' → guarded r k s → guarded r k s'.
Proof. induction 1; eauto using step_guarded. Qed.
End records.

(** ** Dependencies in order *)

(** The kind of a dependency, then its fields. *)
Definition dep_key (d : EvidenceDependency) : list string * N :=
  match d with
  | DepMessage i v | DepContext i v | SourceEvidence i v => ([i; evidence_version v], 0)
  | MembershipThrough p => ([], p)
  | SessionActivity e r => ([e], r)
  end.

Definition key_compare : list string * N → list string * N → comparison :=
  λ x y, cmp_then (list_cmp String.compare x.1 y.1) (N.compare x.2 y.2).

Lemma dep_compare_key x y :
  dep_compare x y = cmp_then (N.compare (dep_tag x) (dep_tag y)) (key_compare (dep_key x) (dep_key y)).
Proof.
  destruct x, y; try done; unfold key_compare; simpl; unfold cmp_then, then_compare;
    destruct (String.compare _ _); try done; try (by destruct (String.compare _ _)); by destruct (N.compare _ _).
Qed.

#[export] Instance dep_compare_laws : CmpLaws dep_compare.
Proof.
  pose proof (lexicographic_laws (λ x y, N.compare (dep_tag x) (dep_tag y))
    (λ x y, key_compare (dep_key x) (dep_key y)) (pullback_laws _ _ _)
    (pullback_laws dep_key key_compare
       (lexicographic_laws _ _ (pullback_laws fst (list_cmp String.compare) _) (pullback_laws snd N.compare _))))
    as [Hanti Htrans].
  split; [intros x y|intros x y z]; rewrite !dep_compare_key; [apply Hanti|apply Htrans].
Qed.

#[export] Instance dep_compare_eq : CmpEq dep_compare.
Proof.
  intros x y. rewrite dep_compare_key. unfold key_compare, cmp_then.
  destruct (N.compare_spec (dep_tag x) (dep_tag y)) as [Ht|?|?]; [|done..].
  destruct (list_cmp String.compare _ _) eqn:El; [|done..]. apply cmp_eq in El. intros Er%N.compare_eq.
  destruct x, y; simpl in *; try done; simplify_eq; try done; by repeat match goal with v : EvidenceVersion |- _ => destruct v end; simplify_eq/=.
Qed.

Lemma sort_deps_sort l : sort_deps l = sort_by dep_compare l.
Proof.
  induction l as [|x l IH]; [done|]. cbn [sort_deps sort_by foldr] in *.
  unfold sort_deps, sort_by in *. rewrite IH. generalize (foldr (insert_sorted dep_compare) [] l). clear.
  induction l as [|y l IH]; [done|]. simpl. unfold dep_le. destruct (dep_compare x y); [done..|].
  by rewrite IH.
Qed.

(** In the derived order, without repetition. *)
Definition dep_before (d d' : EvidenceDependency) : Prop := dep_compare d d' = Lt.

Lemma dedup_elem d l : d ∈ dedup l ↔ d ∈ l.
Proof.
  induction l as [|x [|y l] IH]; [done..|]. cbn [dedup]. case_bool_decide as E.
  - rewrite IH, E, !elem_of_cons. naive_solver.
  - by rewrite !(elem_of_cons _ _ x), IH.
Qed.

Lemma dedup_ordered l : StronglySorted (cmp_le dep_compare) l → StronglySorted dep_before (dedup l).
Proof.
  induction l as [|x [|y l] IH]; intros Hs; [by repeat constructor..|].
  apply StronglySorted_inv in Hs as [Hs Hx]. specialize (IH Hs). cbn [dedup]. case_bool_decide as E; [done|].
  constructor; [done|]. apply Forall_forall. intros z Hz. apply (dedup_elem z (y :: l)) in Hz. rewrite Forall_forall in Hx.
  assert (dep_before x y) as Hxy.
  { unfold dep_before. pose proof (Hx y ltac:(by left)) as Hle. unfold cmp_le in Hle.
    destruct (dep_compare x y) eqn:Ec; [by apply cmp_eq in Ec|done|done]. }
  apply elem_of_cons in Hz as [->|Hz]; [done|]. apply StronglySorted_inv in Hs as [_ Hy].
  rewrite Forall_forall in Hy. specialize (Hy z Hz). unfold dep_before in *.
  destruct (dep_compare y z) eqn:Ec; [by apply cmp_eq in Ec as <-|exact (cmp_lt_trans dep_compare x y z Hxy Ec)|done].
Qed.

(** [sort] and [dedup] *)
Lemma dedup_sort_ordered l : StronglySorted dep_before (dedup (sort_deps l)).
Proof. apply dedup_ordered. rewrite sort_deps_sort. exact (sort_by_ordered dep_compare l). Qed.

Lemma dedup_sort_elem d l : d ∈ dedup (sort_deps l) ↔ d ∈ l.
Proof. by rewrite dedup_elem, sort_deps_sort, sort_by_perm. Qed.

(** ** What a candidate holds *)

Section content.
Context `{SerdeNumber, UnicodeData, JsonDeserializer, !CandidateDigest}.
Context {W E : Type} (capture : SE W E (option CurrentInventories)).
Variable a : EffectiveActivation.

(** A candidate whose trigger is the observation, with the fingerprint of its own
    parts and ordered dependencies *)
Definition triggered_by (o : Observation) (c : FrozenCandidate) : Prop :=
  fr_activation c = ea_id a ∧ fr_branch c = ob_branch o ∧ fr_trigger_position c = ob_position o ∧
  fc_dependencies (fr_context c) = fc_dependencies (ob_context o) ∧
  StronglySorted dep_before (fr_dependencies c) ∧
  fr_fingerprint c = candidate_fingerprint (fr_activation c) (fr_branch c) (fr_trigger_position c)
    (fr_messages c) (fr_context c) (fr_dependencies c).

(** A message as the trigger of a window: the candidate depends on every message of
    the window at its version, on the context and on the membership. *)
Definition window_candidate (o : Observation) (m : Message) (kept : list SelectedMessage)
    (c : FrozenCandidate) : Prop :=
  fr_messages c = sm_message <$> kept ∧
  (∃ before last, kept = (before ++ [last])%list ∧ sm_message last = m ∧ sm_version last = ob_version o) ∧
  w_minimum (window_config a) ≤ N.of_nat (length kept) ≤ N.min (w_size (window_config a)) 40 ∧
  (∀ d, d ∈ fr_dependencies c ↔
     (∃ x, x ∈ kept ∧ d = DepMessage (m_id (sm_message x)) (sm_version x)) ∨
     d ∈ fc_dependencies (ob_context o) ∨ d = MembershipThrough (ob_position o)) ∧
  (is_Some (tr_window (cc_trigger (ea_compiled a))) →
   ∃ roots, fc_value (fr_context c) = JObject roots ∧
     map_get "window" roots = Some (JObject [("messages", JArray (m_value <$> fr_messages c))])).

(** An event without a message depends on its context alone. *)
Definition event_candidate (o : Observation) (c : FrozenCandidate) : Prop :=
  fr_messages c = [] ∧ ∀ d, d ∈ fr_dependencies c ↔ d ∈ fc_dependencies (ob_context o).

Lemma with_inventories_selection d ctx w ctx' w' :
  with_inventories capture d ctx w = (Ok ctx', w') → selection w' = selection w.
Proof.
  intros Hr. by apply (triple_inventories capture (λ s, s = selection w) d ctx w ctx' w' eq_refl).
Qed.

Lemma with_inventories_dependencies d ctx w ctx' w' :
  with_inventories capture d ctx w = (Ok ctx', w') → fc_dependencies ctx' = fc_dependencies ctx.
Proof.
  unfold with_inventories. destruct d; [|by intros [= <- _]].
  intros ([i|] & w1 & _ & Hr)%bind_ok; [|by injection Hr as <- _].
  by apply bind_ok in Hr as (v & w2 & _ & [= <- _]).
Qed.

Lemma trigger_context_dependencies o complete ctx :
  trigger_context o complete = Some ctx → fc_dependencies ctx = fc_dependencies (ob_context o).
Proof. unfold trigger_context. by intros (roots & _ & [= <-])%bind_Some. Qed.

Lemma window_dependencies_elem o kept d :
  d ∈ window_dependencies o kept ↔
  (∃ x, x ∈ kept ∧ d = DepMessage (m_id (sm_message x)) (sm_version x)) ∨
  d ∈ fc_dependencies (ob_context o) ∨ d = MembershipThrough (ob_position o).
Proof.
  unfold window_dependencies. rewrite dedup_sort_elem, !elem_of_app, list_elem_of_fmap, list_elem_of_singleton.
  unfold sm_id. naive_solver.
Qed.

Lemma freeze_window_candidate o ctx kept w c w' :
  fc_dependencies ctx = fc_dependencies (ob_context o) →
  freeze_window capture a o ctx kept w = (Ok (Candidate c), w') →
  selection w' = selection w ∧ triggered_by o c ∧ fr_messages c = sm_message <$> kept ∧
  w_minimum (window_config a) ≤ N.of_nat (length kept) ∧
  fr_dependencies c = window_dependencies o kept ∧
  (is_Some (tr_window (cc_trigger (ea_compiled a))) →
   ∃ roots, fc_value (fr_context c) = JObject roots ∧
     map_get "window" roots = Some (JObject [("messages", JArray (m_value <$> fr_messages c))])).
Proof.
  intros Hctx. unfold freeze_window.
  destruct (N.ltb_spec (N.of_nat (length kept)) (w_minimum (window_config a))) as [|Hmin]; [done|].
  intros (ctx' & w1 & Hi & (roots & w2 & Hp & [= <- <-])%bind_ok)%bind_ok.
  apply with_inventories_selection in Hi as Hs. apply with_inventories_dependencies in Hi as Hd.
  unfold or_panic in Hp. destruct (as_object (fc_value ctx')); [|done]. injection Hp as _ <-.
  split_and!; [done| |done|exact Hmin|done|].
  - split_and!; simpl; try done; [congruence|apply dedup_sort_ordered].
  - intros [wc Hw]. simpl. eexists. split; [done|]. rewrite Hw. apply map_get_insert_eq.
Qed.

Lemma push_window_last size l m kept retired :
  1 ≤ size → push_window size l m = (kept, retired) → ∃ before, kept = (before ++ [m])%list.
Proof.
  intros Hs [= <- <-]. rewrite length_app. simpl.
  exists (drop (length l + 1 - N.to_nat size) l). rewrite drop_app_le by lia. done.
Qed.

Lemma select_message_candidate o m ctx w c w' :
  fc_dependencies ctx = fc_dependencies (ob_context o) →
  select_message capture a o m ctx w = (Ok (Candidate c), w') →
  triggered_by o c ∧
  (1 ≤ window_size a → window_candidate o m (window (selection w') (ob_branch o)) c).
Proof.
  intros Hctx.
  destruct (push_window (window_size a) (window (selection w) (ob_branch o)) (selected_message o m))
    as [kept retired] eqn:Ep.
  rewrite (select_message_run capture a _ _ _ _ _ _ Ep).
  intros (Hs & Ht & Hc & Hmin & Hd & Hr)%freeze_window_candidate; [|done]. split; [done|]. intros Hsize.
  rewrite Hs. simpl. rewrite pushed_window, decide_True by done.
  pose proof (push_window_spec _ _ _ _ _ Ep) as [_ Hlen].
  destruct (push_window_last _ _ _ _ _ Hsize Ep) as [before Hlast].
  split_and!; [done|by eexists before, _|exact Hmin|unfold window_size, MAX_WINDOW_MESSAGES in Hlen; lia| |done].
  intros d. rewrite Hd. apply window_dependencies_elem.
Qed.

Lemma select_event_candidate o ctx w c w' :
  fc_dependencies ctx = fc_dependencies (ob_context o) →
  select_event capture a o ctx w = (Ok (Candidate c), w') → triggered_by o c ∧ event_candidate o c.
Proof.
  intros Hctx (ctx2 & w4 & Hi%with_inventories_dependencies & [= <- <-])%bind_ok.
  assert (fc_dependencies ctx2 = fc_dependencies (ob_context o)) as Hd by congruence.
  split; [split_and!; simpl; try done; apply dedup_sort_ordered|]. split; [done|].
  intros d. simpl. by rewrite dedup_sort_elem, Hd.
Qed.

Lemma apply_candidate o w c w' :
  apply_with_inventories capture a o w = (Ok (Candidate c), w') →
  evaluate_event_filters (ea_compiled a) o = Ok true ∧ triggered_by o c ∧
  match observation_message o with
  | Some m => 1 ≤ window_size a → window_candidate o m (window (selection w') (ob_branch o)) c
  | None => event_candidate o c
  end.
Proof.
  unfold apply_with_inventories. destruct (negb _); [done|].
  destruct (is_historical a o); [done|].
  destruct (evaluate_event_filters (ea_compiled a) o) as [[]|d]; [|done|].
  2: { by intros (? & ? & _ & ?)%bind_ok. }
  intros (? & w1 & _ & (s & w2 & _ & Hr)%bind_ok)%bind_ok.
  destruct (trigger_context _ _) as [ctx|] eqn:Ec; [|done]. apply trigger_context_dependencies in Ec.
  apply bind_ok in Hr as (ctx' & w3 & Hi%with_inventories_dependencies & Hr). rewrite Ec in Hi.
  destruct (evaluate_trigger_condition _ _); try done. split; [done|].
  destruct (observation_message o) as [m|].
  - by apply select_message_candidate in Hr.
  - by apply select_event_candidate in Hr.
Qed.
End content.

(** ** No update panics *)

Section quiet.
Context `{SerdeNumber, UnicodeData, JsonDeserializer, !CandidateDigest}.
Context {W E : Type} (capture : SE W E (option CurrentInventories)).
Variable a : EffectiveActivation.

(** No panic from a state of [P]. *)
Definition quiet {A} (P : SelectionState → Prop) (m : applying (W:=W) (E:=E) A) : Prop :=
  ∀ w w', P (selection w) → m w ≠ (Err Panicked, w').

Definition recorded (k : Key) (s : SelectionState) : Prop := is_Some (seen_results s !! k).

Lemma quiet_ret {A} P (x : A) : quiet P (ret x).
Proof. by intros w w'. Qed.

Lemma quiet_modify P f : quiet P (modify_selection f).
Proof. by intros w w'. Qed.

Lemma quiet_get P : quiet P get_selection.
Proof. by intros w w'. Qed.

Lemma quiet_recorded k m : quiet (recorded k) (set_recorded k m).
Proof. intros w w' [x Hx]. unfold set_recorded, bind, get_selection. simpl. by rewrite Hx. Qed.

Lemma quiet_weaken {A} (P Q : SelectionState → Prop) (m : applying A) :
  quiet P m → (∀ s, Q s → P s) → quiet Q m.
Proof. intros Hm HQ w w' Hw. apply Hm. auto. Qed.

Lemma quiet_bind {A B} P Q (m : applying A) (f : A → applying B) :
  quiet P m → triple (on_selection P) m (λ x, on_selection (Q x)) →
  (∀ x, quiet (Q x) (f x)) → quiet P (bind m f).
Proof.
  intros Hm Ht Hf w w' Hw. unfold bind. destruct (m w) as [[x|e] w1] eqn:E1.
  - apply (Hf x). by apply (Ht w).
  - intros [= -> ->]. by eapply Hm.
Qed.

Lemma moves_triple_recorded k {A} (m : applying (W:=W) (E:=E) A) :
  moves a k m → triple (on_selection (recorded k)) m (λ _, on_selection (recorded k)).
Proof.
  intros Hm w x w' [y Hy] Hr. apply Hm, prims_cores, (advances_cores (selection w)) in Hr.
  destruct (Hr k y Hy) as (z & Hz & _). by exists z.
Qed.

Lemma quiet_bind_value k {A B} (m : applying A) (f : A → applying B) :
  moves a k m → quiet (recorded k) m →
  (∀ x w w', m w = (Ok x, w') → quiet (recorded k) (f x)) → quiet (recorded k) (bind m f).
Proof.
  intros Hk Hm Hf w w' Hw. unfold bind. destruct (m w) as [[x|e] w1] eqn:E1.
  - eapply (Hf x); [done|]. by apply (moves_triple_recorded k m Hk w x).
  - intros [= -> ->]. by eapply Hm.
Qed.

Lemma quiet_bind_any k {A B} (m : applying A) (f : A → applying B) :
  moves a k m → quiet (recorded k) m → (∀ x, quiet (recorded k) (f x)) →
  quiet (recorded k) (bind m f).
Proof. intros Hk Hm Hf. apply quiet_bind_value; [done..|]. intros x w w' _. apply Hf. Qed.

Lemma quiet_unless_settled {A} P m (x y : applying A) :
  quiet P y → quiet P x →
  quiet P (match m with MHistorical | MRetired | MRemoved => y | _ => x end).
Proof. by destruct m. Qed.

(** A context that takes inventories: an object whose scopes are objects. *)
Definition scope_objects (roots : Map Value) : Prop :=
  ∀ scope, scope = "global" ∨ scope = "repo" →
  is_Some (as_object (default (JObject []) (map_get scope roots))).

Definition mergeable (v : Value) : Prop := ∃ roots, v = JObject roots ∧ scope_objects roots.

Lemma scope_objects_insert k v roots :
  k ≠ "global" → k ≠ "repo" → scope_objects roots → scope_objects (map_insert k v roots).
Proof. intros Hg Hr Hs scope Hscope. rewrite map_get_insert_ne; [auto|]. by intros ->; destruct Hscope. Qed.

Lemma scope_objects_remove k roots :
  k ≠ "global" → k ≠ "repo" → scope_objects roots → scope_objects (map_remove k roots).
Proof. intros Hg Hr Hs scope Hscope. rewrite map_get_remove_ne; [auto|]. by intros ->; destruct Hscope. Qed.

Lemma scope_objects_scope k m roots : scope_objects roots → scope_objects (map_insert k (JObject m) roots).
Proof.
  intros Hs scope Hscope. destruct (string_dec k scope) as [->|Hne].
  - rewrite map_get_insert_eq. simpl. eauto.
  - rewrite map_get_insert_ne by done. auto.
Qed.

Lemma merge_scope_mergeable scope i v :
  scope = "global" ∨ scope = "repo" → mergeable v →
  ∃ v', merge_scope scope i v = Some v' ∧ mergeable v'.
Proof.
  intros Hscope (roots & -> & Hr). destruct (Hr scope Hscope) as [root Hroot].
  unfold merge_scope. simpl. rewrite Hroot. simpl. eexists. split; [done|]. eexists. split; [done|].
  by apply scope_objects_scope.
Qed.

Lemma merge_into_mergeable i v : mergeable v → ∃ v', merge_into i v = Some v' ∧ mergeable v'.
Proof.
  intros Hv. destruct (merge_scope_mergeable "global" (inv_global i) v) as (v1 & He & Hv1); [by left|done|].
  unfold merge_into. rewrite He. simpl. apply merge_scope_mergeable; [by right|done].
Qed.

Lemma with_inventories_quiet d ctx :
  mergeable (fc_value ctx) →
  (∀ P, quiet P (with_inventories capture d ctx)) ∧
  ∀ w ctx' w', with_inventories capture d ctx w = (Ok ctx', w') → mergeable (fc_value ctx').
Proof.
  intros Hm. unfold with_inventories. destruct d.
  2: { split; [intros P; apply quiet_ret|]. by intros w ctx' w' [= <- _]. }
  split.
  - intros P. apply (quiet_bind P (λ _ _, True)); [|done|].
    + intros w w' _. unfold capture_inventories. by destruct (capture (host w)) as [[x|e] h].
    + intros [i|]; [|apply quiet_ret].
      destruct (merge_into_mergeable i _ Hm) as (v & -> & _). by intros w1 w1'.
  - intros w ctx' w' ([i|] & w1 & _ & Hr)%bind_ok; [|by injection Hr as <- _].
    destruct (merge_into_mergeable i _ Hm) as (v & Hi & Hv). rewrite Hi in Hr.
    by injection Hr as <- _.
Qed.

Lemma trigger_context_mergeable o complete ctx :
  mergeable (fc_value (ob_context o)) → trigger_context o complete = Some ctx →
  mergeable (fc_value ctx).
Proof.
  intros (roots & Hv & Hr). unfold trigger_context. rewrite Hv. simpl.
  set (r1 := match observation_message o with Some _ => _ | None => _ end).
  assert (scope_objects r1) as Hr1.
  { unfold r1. destruct (observation_message o); [|destruct (ob_kind o)];
      repeat first [apply scope_objects_remove|apply scope_objects_insert]; done. }
  generalize dependent r1. intros r1 Hr1 [= <-]. simpl. eexists. split; [done|].
  assert (scope_objects (map_remove "window" r1)) as Hw by by apply scope_objects_remove.
  destruct (map_get "session" _) as [[]|]; try done. by apply scope_objects_insert.
Qed.
End quiet.

Ltac quiet_step :=
  match goal with
  | |- quiet _ (if ?c then _ else _) => destruct c eqn:?
  | |- quiet _ (ret _) => apply quiet_ret
  | |- quiet _ get_selection => apply quiet_get
  | |- quiet _ (modify_selection _) => apply quiet_modify
  | |- quiet _ (set_recorded _ _) => apply quiet_recorded
  | act : EffectiveActivation |- quiet (recorded _) (bind ?m _) =>
      eapply (quiet_bind_any act _ m); [solve [repeat moves_step]| |intros ?]
  end.

(** A run from a state where the key is recorded. *)
Ltac by_quiet :=
  match goal with
  | Hk : recorded ?k _ |- ?m _ ≠ _ =>
      assert (quiet (recorded k) m) as Hq by (repeat quiet_step); by apply Hq
  end.

Section quiet_updates.
Context `{SerdeNumber, UnicodeData, JsonDeserializer, !CandidateDigest}.
Context {W E : Type} (capture : SE W E (option CurrentInventories)).
Variable a : EffectiveActivation.

Lemma freeze_window_quiet P o ctx kept :
  mergeable (fc_value ctx) → quiet P (freeze_window capture a o ctx kept).
Proof.
  intros Hm. unfold freeze_window. quiet_step; [quiet_step|].
  intros w w' _. unfold bind.
  destruct (with_inventories _ _ _ w) as [[ctx'|e] w1] eqn:Ei.
  - apply with_inventories_quiet in Ei as (roots & -> & _); done.
  - intros [= -> ->]. by apply (proj1 (with_inventories_quiet capture _ ctx Hm) (λ _, True)) in Ei.
Qed.

Lemma apply_with_inventories_quiet k o :
  ob_branch o = k.1 → mergeable (fc_value (ob_context o)) →
  quiet (recorded k) (apply_with_inventories capture a o).
Proof.
  intros Hb Hm. unfold apply_with_inventories. do 2 (quiet_step; [quiet_step|]). rewrite Hb.
  destruct (evaluate_event_filters _ _) as [[]|d]; repeat quiet_step.
  destruct (trigger_context _ _) as [ctx|] eqn:Ec; [|apply quiet_ret].
  apply trigger_context_mergeable in Ec; [|done].
  apply (quiet_bind_value a); [apply moves_inventories|by apply with_inventories_quiet|].
  intros ctx' w w' Hi. apply with_inventories_quiet in Hi; [|done].
  destruct (evaluate_trigger_condition _ _); try apply quiet_ret.
  destruct (observation_message o) as [m|].
  - intros w1 w1' _.
    destruct (push_window (window_size a) (window (selection w1) (ob_branch o))
                (selected_message o m)) as [kept retired] eqn:Ep.
    rewrite (select_message_run capture a _ _ _ _ _ _ Ep).
    by apply (freeze_window_quiet (λ _, True)).
  - unfold select_event. apply (quiet_bind_value a); [apply moves_inventories| |by intros].
    by apply with_inventories_quiet.
Qed.

Lemma correction_matches_quiet P o complete filters :
  mergeable (fc_value (ob_context o)) → quiet P (correction_matches capture a o complete filters) ∧
  ∀ w w', correction_matches capture a o complete filters w = (Ok true, w') → filters = Ok true.
Proof.
  intros Hm. unfold correction_matches. destruct filters as [[]|]; try done. split; [|done].
  destruct (trigger_context _ _) as [ctx|] eqn:Ec; [|apply quiet_ret].
  apply trigger_context_mergeable in Ec; [|done].
  apply (quiet_bind P (λ _ _, True)); [by apply with_inventories_quiet|done|]. by intros.
Qed.

Lemma filters_message c o :
  match tr_family (cc_trigger c) with Messages _ _ _ _ => true | _ => false end = true →
  evaluate_event_filters c o = Ok true → is_Some (observation_message o).
Proof.
  unfold evaluate_event_filters, observation_message.
  destruct (tr_family (cc_trigger c)) as [tr u v t| |]; try done.
  intros _. destruct (ob_kind o); eauto; by destruct tr, u, v, t.
Qed.

(** The window of a branch and the record of a key, as [apply_correction] first
    reads them. *)
Definition read_state (k : Key) (l : list SelectedMessage) (s : SelectionState) : Prop :=
  recorded k s ∧ window s k.1 = l.

Lemma correction_matches_read k l o complete filters :
  triple (on_selection (read_state k l)) (correction_matches capture a o complete filters)
         (λ _, on_selection (read_state k l)).
Proof.
  unfold correction_matches. destruct filters as [[]|]; try by apply triple_ret.
  destruct (trigger_context o complete); [|by apply triple_ret].
  eapply triple_bind; [apply triple_inventories|]. intros ctx. by apply triple_ret.
Qed.

Lemma apply_correction_quiet k previous o :
  ob_branch o = k.1 → family_has_messages a = true → mergeable (fc_value (ob_context o)) →
  quiet (recorded k) (apply_correction capture a k previous o).
Proof.
  intros Hb Hf Hm. unfold apply_correction. rewrite Hb.
  apply quiet_unless_settled; [quiet_step|].
  eapply quiet_bind; [apply quiet_get|apply triple_get|]. intros s0. simpl.
  eapply (quiet_bind _ (λ _, read_state k (window s0 k.1))); [apply quiet_modify| |].
  { apply triple_modify. intros s [-> Hk]. split; [done|].
    apply (entry_same_view k.1 (set_diagnostic _) s0). done. }
  intros _. intros w w' Hw. unfold bind at 1.
  destruct (correction_matches _ _ _ _ _ w) as [[matching|e] w1] eqn:Ec.
  2: { intros [= -> ->]. by apply (proj1 (correction_matches_quiet (λ _, True) _ _ _ Hm)) in Ec. }
  pose proof (correction_matches_read k (window s0 k.1) _ _ _ w matching w1 Hw Ec) as [Hk Hl].
  destruct matching; simpl; [|by_quiet].
  apply (correction_matches_quiet (λ _, True)) in Ec; [|done].
  destruct (filters_message (ea_compiled a) o Hf Ec) as [m ->].
  destruct (bool_decide _ && _); [by_quiet|]. destruct (negb _ || _) eqn:Eo; [by_quiet|].
  apply orb_false_iff in Eo as [_ Es%negb_false_iff].
  unfold or_panic, correct_window. simpl. unfold bind at 1 2 3. simpl. rewrite Hl, Es.
  unfold modify_selection. by_quiet.
Qed.

Lemma apply_recorded_quiet k previous o :
  ob_branch o = k.1 → (∀ m, observation_message o = Some m → m_id m = k.2) →
  mergeable (fc_value (ob_context o)) → quiet (recorded k) (apply_recorded capture a k previous o).
Proof.
  intros Hb Hi Hm. unfold apply_recorded. quiet_step; [rewrite Hb; repeat quiet_step|].
  assert (quiet (recorded k)
    (if negb (is_terminal o) then ret Updated
     else
       let* outcome := apply_with_inventories capture a o in
       do* set_recorded k
             (match outcome with Candidate _ | Updated => MSelected | _ => MExcluded end);
       ret outcome)) as Hnew.
  { quiet_step; [quiet_step|]. apply (quiet_bind_any a).
    - by apply apply_with_inventories_moves.
    - by apply apply_with_inventories_quiet.
    - intros r. repeat quiet_step. }
  destruct previous as [seen|]; [|done]. destruct (terminal_seen seen); [|done].
  quiet_step; [repeat quiet_step|]. apply apply_correction_quiet; [done| |done].
  by apply negb_false_iff.
Qed.

Lemma apply_published_quiet i revision o :
  (∀ m, observation_message o = Some m → m_id m = i) →
  mergeable (fc_value (ob_context o)) →
  quiet (λ _, True) (apply_published_with_inventories capture a i revision o).
Proof.
  intros Hi Hm. unfold apply_published_with_inventories.
  apply (quiet_bind _ (λ _ _, True)); [apply quiet_get|done|]. intros s. simpl.
  destruct (_ && limit_reached _ _); [apply quiet_ret|].
  destruct (negb (accepts_update _ _ _ _ _)); [apply quiet_ret|].
  destruct (_ && (_ <=? _)).
  - apply (quiet_bind _ (λ _ _, True)); [apply quiet_modify|done|]. intros _. apply quiet_ret.
  - apply (quiet_bind _ (λ _, recorded (ob_branch o, i))); [apply quiet_modify| |].
    + apply triple_modify. intros s' _. exists (record_update o revision (seen_results s !! (ob_branch o, i))).
      apply lookup_insert_eq.
    + intros _. by apply apply_recorded_quiet.
Qed.
End quiet_updates.

(** ** Properties *)

Section properties.
Context `{SerdeNumber, UnicodeData, JsonDeserializer, !CandidateDigest}.
Context {W E : Type} (capture : SE W E (option CurrentInventories)).
Variable a : EffectiveActivation.

(** C33: every state that published updates, removals and coverage changes reach
    from the empty state is well-formed: no window is longer than the
    configured size or 40 messages, a window holds each identity once and only
    identities whose record is terminal and selected, an activation whose
    trigger has no messages has empty windows, and a branch records at most
    4096 identities. *)
Theorem selection_invariant s :
  rtc (step capture a) SelectionState_default s → wf a s.
Proof.
  intros Hs. apply (steps_wf capture a SelectionState_default s Hs). apply wf_default.
Qed.

(** C34: once an update of an identity has yielded a candidate, no later update
    of it does, whatever is published, removed or reset in between. *)
Theorem candidate_once i revision o w c w' s revision' o' h r w'' :
  (∀ m, observation_message o = Some m → m_id m = i) →
  (∀ m, observation_message o' = Some m → m_id m = i) →
  ob_branch o' = ob_branch o →
  apply_published_with_inventories capture a i revision o w = (Ok (Candidate c), w') →
  rtc (step capture a) (selection w') s →
  apply_published_with_inventories capture a i revision' o' {| selection := s; host := h |} = (Ok r, w'') →
  ∀ c', r ≠ Candidate c'.
Proof.
  intros Hm Hm' Hb Hc Hs Hr c' ->.
  destruct (candidate_terminal capture a _ _ _ _ _ _ Hm Hc) as (x & Hx & Ht).
  destruct (steps_advance capture a _ _ Hs _ _ Hx) as (y & Hy & _ & Hty).
  apply (published_candidate capture a) in Hr as (_ & _ & Hn & _); [|done].
  simpl in Hn. rewrite Hb in Hn. specialize (Hn y Hy). by rewrite Hty in Hn.
Qed.

(** A removal that is recorded guards its identity: whatever happens
    afterwards, an update of a revision up to that of the removal changes
    nothing. *)
Theorem removal_guards b i revision s s1 s2 revision' o h :
  remove_result s b i revision = (true, s1) →
  is_Some (seen_results s1 !! (b, i)) →
  rtc (step capture a) s1 s2 →
  ob_branch o = b → revision' ≤ revision →
  apply_published_with_inventories capture a i revision' o {| selection := s2; host := h |} =
    (Ok Updated, {| selection := s2; host := h |}).
Proof.
  intros Hr Hk Hs <- Hle.
  assert (guarded revision (ob_branch o, i) s1) as Hg.
  { apply remove_result_cases in Hr as [[[=] _]|[(_ & Hn & _ & ->)|(_ & order & _ & _ & ->)]].
    - destruct Hk as [x Hx]. simpl in Hx. congruence.
    - exists (removal_record revision order). split; [apply lookup_insert_eq|right].
      split; [done|]. split_and!; [apply lookup_insert_eq|done|apply discard_ids]. }
  apply (steps_guarded capture a) with (s' := s2) in Hg; [|done].
  pose proof (guarded_rejects _ _ _ revision' (ob_version o) Hg Hle) as Ha. simpl in Ha.
  destruct Hg as (x & Hx & _).
  unfold apply_published_with_inventories, bind, get_selection. simpl. by rewrite Hx, Ha.
Qed.

(** C35: a candidate is the frozen trigger.  Its observation is terminal, lies
    after the bootstrap position and passes the event filters, and the
    candidate carries the activation, the branch, the position, the fingerprint of
    its own parts, and its dependencies in order without repetition.  For a message
    it holds the messages of the window, the trigger last, between the configured
    minimum and size, also in its context when a window is configured; it depends on
    each of them at its version, on the context and on the membership through the
    trigger, and on nothing else.  For an event it holds no message and depends on
    exactly its context. *)
Theorem candidate_content i revision o w c w' :
  (∀ m, observation_message o = Some m → m_id m = i) →
  1 ≤ window_size a →
  apply_published_with_inventories capture a i revision o w = (Ok (Candidate c), w') →
  is_terminal o = true ∧ ea_bootstrap_position a < ob_position o ∧
  evaluate_event_filters (ea_compiled a) o = Ok true ∧ triggered_by a o c ∧
  match observation_message o with
  | Some m => window_candidate a o m (window (selection w') (ob_branch o)) c
  | None => event_candidate o c
  end.
Proof.
  intros Hm Hsize Hr.
  apply (published_candidate capture a) in Hr as (Ht & Hh & _ & w1 & Hap & ->); [|done].
  apply apply_candidate in Hap as (Hf & Htr & Hw).
  split_and!; try done; [|by destruct (observation_message o); [apply Hw|]]. unfold is_historical in Hh.
  apply orb_false_iff in Hh as [Hp%N.leb_gt _]. done.
Qed.

(** C36: no update panics, in any state, when the context of its observation is
    an object whose [global] and [repo] entries, where present, are objects:
    the inventories can be merged, the window can be added, a correction that
    matches has a message and finds it in the window, and the record whose
    membership changes is there. *)
Theorem selection_never_panics i revision o w w' :
  (∀ m, observation_message o = Some m → m_id m = i) →
  mergeable (fc_value (ob_context o)) →
  apply_published_with_inventories capture a i revision o w ≠ (Err Panicked, w').
Proof. intros Hi Hm. by apply apply_published_quiet. Qed.
End properties.

(** ** A concrete activation *)

Module Sample.
#[local] Existing Instance text_numbers.
#[local] Existing Instance ascii_unicode.
#[local] Existing Instance no_json.

Definition sample_digest : CandidateDigest :=
  {| sha256 s := [str_len s]; value_text v := match v with JString s => s | _ => "value" end; activation_text i := a_definition_id i |}.
#[local] Existing Instance sample_digest.

Definition sample_capture : SE unit unit (option CurrentInventories) := ret None.

Definition any_message : EventFilters :=
  {| ef_tools := None; ef_statuses := None; ef_models := None; ef_fast_mode := None;
     ef_paths := None; ef_paths_ignore := None; ef_reasons := None |}.

(** A check on the last two user messages. *)
Definition sample_activation : EffectiveActivation :=
  {| ea_id := {| a_scope := ActivationScope_default; a_definition_id := "sample"; a_generation := 1 |};
     ea_revision := []; ea_definition_scope := GlobalScope; ea_source_paths := [];
     ea_project_root := None;
     ea_compiled :=
       {| cc_name := "sample"; cc_description := None; cc_condition := None;
          cc_trigger :=
            {| tr_family := Messages false (Some any_message) None None; tr_tools := None;
               tr_statuses := None; tr_models := None; tr_fast_mode := None; tr_paths := None;
               tr_paths_ignore := None; tr_window := Some {| w_size := 2; w_minimum := 2 |};
               tr_cooldown := 60000 |};
          cc_decisions := []; cc_actions := [] |};
     ea_bootstrap_position := 0; ea_bootstrap_publication := 0 |}.

Definition sample_observation (position : N) (i : string) (text : string) : Observation :=
  {| ob_position := position; ob_branch := {| branch_id := "main" |};
     ob_native_order := {| order_key := i |}; ob_first_terminal := None;
     ob_first_eligible := Some 1; ob_version := {| evidence_version := text |};
     ob_kind := UserMessage {| m_id := i; m_value := JObject [("content", JString text)] |};
     ob_context := {| fc_value := JObject [("session", JObject [])]; fc_dependencies := [] |};
     ob_complete := true |}.

Definition publish (i : string) (revision : N) (o : Observation) (s : SelectionState) :=
  apply_published_with_inventories sample_capture sample_activation i revision o
    {| selection := s; host := tt |}.

Definition first : Observation := sample_observation 1 "m1" "one".
Definition second : Observation := sample_observation 2 "m2" "two".
Definition corrected_second : Observation := sample_observation 3 "m2" "three".

Definition state_of {A B} (r : A * World (H:=text_numbers) (W:=B)) : SelectionState := selection r.2.

Definition after_first : SelectionState := state_of (publish "m1" 1 first SelectionState_default).
Definition after_second : SelectionState := state_of (publish "m2" 1 second after_first).
Definition after_removal : SelectionState :=
  (remove_result after_second {| branch_id := "main" |} "m2" 5).2.

Definition sample_candidate : FrozenCandidate :=
  match (publish "m2" 1 second after_first).1 with
  | Ok (Candidate c) => c
  | _ => {| fr_activation := ea_id sample_activation; fr_branch := {| branch_id := "" |};
            fr_trigger_position := 0; fr_messages := [];
            fr_context := {| fc_value := JNull; fc_dependencies := [] |};
            fr_dependencies := []; fr_fingerprint := [] |}
  end.

Lemma publish_first :
  publish "m1" 1 first SelectionState_default = (Ok Updated, {| selection := after_first; host := tt |}).
Proof. vm_refl. Qed.

Lemma publish_second :
  publish "m2" 1 second after_first =
    (Ok (Candidate sample_candidate), {| selection := after_second; host := tt |}).
Proof. vm_refl. Qed.

Lemma message_identity position i text m :
  observation_message (sample_observation position i text) = Some m → m_id m = i.
Proof. by intros [= <-]. Qed.

Lemma step_first : step sample_capture sample_activation SelectionState_default after_first.
Proof. by eapply step_published; [apply message_identity|exact publish_first]. Qed.

Lemma step_second : step sample_capture sample_activation after_first after_second.
Proof. by eapply step_published; [apply message_identity|exact publish_second]. Qed.

Lemma selection_invariant_witness :
  rtc (step sample_capture sample_activation) SelectionState_default after_second ∧
  wf sample_activation after_second ∧
  ids after_second {| branch_id := "main" |} = ["m1"; "m2"].
Proof.
  assert (rtc (step sample_capture sample_activation) SelectionState_default after_second) as Hs
    by exact (rtc_l _ _ _ _ step_first (rtc_once _ _ step_second)).
  split_and!; [exact Hs|exact (selection_invariant sample_capture sample_activation _ Hs)|vm_refl].
Defined.

Lemma candidate_once_witness :
  ∃ r w, publish "m2" 2 corrected_second after_second = (Ok r, w) ∧ ∀ c, r ≠ Candidate c.
Proof.
  assert (∃ w, publish "m2" 2 corrected_second after_second = (Ok Updated, w)) as [w Hw]
    by (exists (publish "m2" 2 corrected_second after_second).2; vm_refl).
  exists Updated, w. split; [exact Hw|].
  exact (candidate_once sample_capture sample_activation "m2" 1 second _ _ _ after_second 2
    corrected_second tt _ _ (message_identity 2 "m2" "two") (message_identity 3 "m2" "three")
    eq_refl publish_second (rtc_refl _ _) Hw).
Defined.

Lemma removal_guards_witness :
  publish "m2" 4 corrected_second after_removal =
    (Ok Updated, {| selection := after_removal; host := tt |}).
Proof.
  apply (removal_guards sample_capture sample_activation {| branch_id := "main" |} "m2" 5 after_second
           after_removal after_removal 4 corrected_second tt).
  - vm_refl.
  - vm_compute. eexists. reflexivity.
  - apply rtc_refl.
  - reflexivity.
  - lia.
Defined.

Lemma candidate_content_witness :
  fr_messages sample_candidate = [{| m_id := "m1"; m_value := JObject [("content", JString "one")] |};
                                  {| m_id := "m2"; m_value := JObject [("content", JString "two")] |}] ∧
  window_candidate sample_activation second {| m_id := "m2"; m_value := JObject [("content", JString "two")] |}
    (window after_second {| branch_id := "main" |}) sample_candidate.
Proof.
  split; [vm_refl|].
  assert (1 ≤ window_size sample_activation) as Hsize by (vm_compute; discriminate).
  exact (proj2 (proj2 (proj2 (proj2
    (candidate_content sample_capture sample_activation "m2" 1 second _ _ _
       (message_identity 2 "m2" "two") Hsize publish_second))))).
Defined.

Lemma selection_never_panics_witness :
  mergeable (fc_value (ob_context first)) ∧
  ∀ w', publish "m1" 1 first SelectionState_default ≠ (Err Panicked, w').
Proof.
  assert (mergeable (fc_value (ob_context first))) as Hm.
  { eexists. split; [reflexivity|]. intros scope [->| ->]; by exists []. }
  split; [exact Hm|]. intros w'.
  exact (selection_never_panics sample_capture sample_activation "m1" 1 first _ w' (message_identity 1 "m1" "one") Hm).
Defined.
End Sample.
