(* ===== verification/BoundedJson.v ===== *)
(** * Bounded JSON (crates/antiburn-checks/src/bounded_json.rs, bounded_json/measure.rs)

    Strict decoding of JSON text and the measurement of a serialized record,
    both under limits on bytes, values and depth.  The deserializer and the
    writer of serde_json are parameters; the visitor and the serializers, which
    count, are here. *)

From S2P Require Export RustFloat.
From S2P Require Import Prelude RustString Json Diagnostics Expression Budget Provenance Scalars Fit.

#[local] Open Scope N_scope.

Record JsonLimits := { l_bytes : N; l_nodes : N; l_depth : N }.

Record JsonMeasurement := { m_bytes : N; m_nodes : N; m_depth : N }.

Inductive BoundedJsonError :=
| EBytes (observed maximum : N)
| ENodes (observed maximum : N)
| EDepth (observed maximum : N)
| EDuplicateKey (key : string)
| EInvalidJson (message : string)
| ESerialization (message : string).

(** [Display] *)
Definition bounded_text (e : BoundedJsonError) : string :=
  match e with
  | EBytes o m => "JSON bytes " +:+ pretty o +:+ " exceed " +:+ pretty m +:+ "."
  | ENodes o m => "JSON values " +:+ pretty o +:+ " exceed " +:+ pretty m +:+ "."
  | EDepth o m => "JSON depth " +:+ pretty o +:+ " exceeds " +:+ pretty m +:+ "."
  | EDuplicateKey k => "Duplicate JSON key: " +:+ k +:+ "."
  | EInvalidJson message | ESerialization message => message
  end.

(** ** The node counter *)

Record NodeCounter := { c_nodes : N; c_depth : N }.

Definition NodeCounter_new : NodeCounter := {| c_nodes := 0; c_depth := 0 |}.

Section counter.
Variable limits : JsonLimits.

Definition charge (depth : N) : SE NodeCounter BoundedJsonError unit := λ c,
  if l_depth limits <? depth then (Err (EDepth depth (l_depth limits)), c)
  else if l_nodes limits <=? c_nodes c then
    (Err (ENodes (sat_add (c_nodes c) 1) (l_nodes limits)), c)
  else (Ok tt, {| c_nodes := c_nodes c + 1; c_depth := N.max (c_depth c) depth |}).

(** A list of charges, and when all of them succeed. *)
Definition charge_all (depths : list N) : SE NodeCounter BoundedJsonError unit :=
  foldM (λ _ d, charge d) depths tt.

Definition affordable (c : NodeCounter) (depths : list N) : Prop :=
  c_nodes c + N.of_nat (length depths) ≤ l_nodes limits ∧ Forall (λ d, d ≤ l_depth limits) depths.

Definition charged (c : NodeCounter) (depths : list N) : NodeCounter :=
  {| c_nodes := c_nodes c + N.of_nat (length depths); c_depth := foldr N.max (c_depth c) depths |}.

Definition within (c : NodeCounter) : Prop := c_nodes c ≤ l_nodes limits.

Lemma charged_nil c : charged c [] = c.
Proof. destruct c. unfold charged. simpl. f_equal. lia. Qed.

Lemma charged_app c ds es : charged c (ds ++ es) = charged (charged c ds) es.
Proof.
  unfold charged. cbn [c_nodes c_depth]. rewrite length_app, foldr_app. f_equal; [lia|].
  revert ds. assert (∀ l x y, foldr N.max (N.max x y) l = N.max x (foldr N.max y l)) as Hmax
    by (induction l as [|z l IH]; intros x y; simpl; [done|]; rewrite IH; lia).
  induction ds as [|d ds IH]; simpl; [done|]. rewrite IH, Hmax. done.
Qed.

Lemma charge_ok depth c c' :
  charge depth c = (Ok tt, c') ↔
  depth ≤ l_depth limits ∧ c_nodes c < l_nodes limits ∧ c' = charged c [depth].
Proof.
  unfold charge, charged. cbn [length foldr]. change (N.of_nat 1) with 1.
  rewrite (N.max_comm depth). destruct (N.ltb_spec (l_depth limits) depth); [split; [done|lia]|].
  destruct (N.leb_spec (l_nodes limits) (c_nodes c)); [split; [done|lia]|].
  split; [by intros [= <-]|by intros (_ & _ & ->)].
Qed.

Lemma affordable_cons c d ds :
  within c →
  affordable c (d :: ds) ↔
  d ≤ l_depth limits ∧ c_nodes c < l_nodes limits ∧ affordable (charged c [d]) ds.
Proof.
  unfold affordable, within, charged. cbn [length c_nodes]. intros Hc. rewrite Forall_cons.
  rewrite Nat2N.inj_succ. change (N.of_nat 1) with 1. split; intros; split_and!; try lia; tauto.
Qed.

Lemma affordable_app c ds es :
  affordable c (ds ++ es) ↔ affordable c ds ∧ affordable (charged c ds) es.
Proof.
  unfold affordable, charged. cbn [c_nodes]. rewrite length_app, Forall_app, Nat2N.inj_add.
  split; intros; split_and!; try lia; tauto.
Qed.

Lemma affordable_within c ds : affordable c ds → within (charged c ds).
Proof. by intros [Hn _]. Qed.

Lemma affordable_perm c ds es : ds ≡ₚ es → affordable c ds → affordable c es.
Proof. intros Hp [Hn Hf]. split; [by rewrite <- Hp|by rewrite <- Hp]. Qed.

(** [charges ds r m]: [m] succeeds exactly when [r] has a value and the charges
    [ds] are affordable; it then returns that value and has made them. *)
Definition charges {E A} (ds : list N) (r : option A) (m : SE NodeCounter E A) : Prop :=
  ∀ c, within c → ∀ x c', m c = (Ok x, c') ↔ r = Some x ∧ affordable c ds ∧ c' = charged c ds.

Lemma charges_ret {E A} (x : A) : charges [] (Some x) (ret x : SE NodeCounter E A).
Proof.
  intros c Hc y c'. unfold ret. rewrite charged_nil. split.
  - intros [= -> ->]. split_and!; [done| |done]. split; [|constructor].
    unfold within in Hc. simpl. lia.
  - by intros ([= ->] & _ & ->).
Qed.

Lemma charges_fail {E A} ds (e : E) : charges ds None (fail e : SE NodeCounter E A).
Proof. intros c Hc y c'. split; [done|]. by intros [[=] _]. Qed.

Lemma charges_bind {E A B} ds es r (m : SE NodeCounter E A) (g : A → option B) f :
  charges ds r m → (∀ x, r = Some x → charges es (g x) (f x)) →
  charges (ds ++ es) (r ≫= g) (bind m f).
Proof.
  intros Hm Hf c Hc y c'. rewrite bind_ok, affordable_app, charged_app. split.
  - intros (x & c1 & H1 & H2). apply (Hm c Hc) in H1 as (Hr & Ha & ->).
    apply (Hf x Hr) in H2 as (Hg & Hb & ->); [|by apply affordable_within].
    rewrite Hr. by split_and!.
  - destruct r as [x|]; [|by intros [[=] _]]. simpl. intros (Hg & [Ha Hb] & ->).
    exists x, (charged c ds). split; [by apply (Hm c Hc)|].
    apply (Hf x eq_refl); [by apply affordable_within|done].
Qed.

(** The pure fold under [foldM]. *)
Fixpoint foldO {A X} (g : A → X → option A) (xs : list X) (acc : A) : option A :=
  match xs with
  | [] => Some acc
  | x :: xs => acc ← g acc x; foldO g xs acc
  end.

Lemma charges_foldM {E A X} (ds : X → list N) (g : A → X → option A) (f : A → X → SE NodeCounter E A) xs :
  (∀ acc x, In x xs → charges (ds x) (g acc x) (f acc x)) →
  ∀ acc, charges (mjoin (ds <$> xs)) (foldO g xs acc) (foldM f xs acc).
Proof.
  induction xs as [|x xs IH]; intros Hf acc; [apply charges_ret|].
  cbn [foldM foldO fmap list_fmap mjoin list_join].
  apply charges_bind; [apply Hf; by left|]. intros y _. apply IH. intros acc' x' Hx. apply Hf. by right.
Qed.

Lemma charges_charge d : charges [d] (Some tt) (charge d).
Proof.
  intros c Hc [] c'. rewrite charge_ok. unfold affordable. rewrite Forall_singleton.
  cbn [length]. change (N.of_nat 1) with 1. split; intros (? & ? & ?); split_and!; lia || tauto.
Qed.
End counter.

(** ** Measuring a record

    The calls that a derived [Serialize] makes, as far as the counting
    serializer tells them apart: newtypes and [Some] are transparent, a tuple is
    a sequence, a map or a struct is a list of entries, and a variant with data
    wraps its data.  A number of [serde_json] is finite and is kept as its text. *)
Inductive Serial :=
| SerBool (b : bool)
| SerInt (z : Z)
| SerNumber (text : string)
| SerF64 (x : f64)
| SerStr (s : string)
| SerNone
| SerUnitVariant (name : string)
| SerSeq (items : list Serial)
| SerEntries (entries : list (string * Serial))
| SerVariant (name : string) (content : Serial).

Section measure.
Variable limits : JsonLimits.

(** The impl of [Serializer] for [NodeSerializer], with [Compound]. *)
Fixpoint node_serialize (v : Serial) (depth : N) : SE NodeCounter BoundedJsonError unit :=
  match v with
  | SerF64 x =>
      if f64_finite x then charge limits depth
      else fail (ESerialization "JSON numbers must be finite.")
  | SerSeq items =>
      do* charge limits depth; foldM (λ _ v, node_serialize v (depth + 1)) items tt
  | SerEntries entries =>
      do* charge limits depth; foldM (λ _ kv, node_serialize kv.2 (depth + 1)) entries tt
  | SerVariant _ content => do* charge limits depth; node_serialize content (depth + 1)
  | _ => charge limits depth
  end.

(** [serde_json::to_writer]: the writes for a record, and the message of the
    error that ends them, if one does. *)
Class RecordWriter := { record_writes : Serial → list string * option string }.

Context `{!RecordWriter}.

Definition measure_json (v : Serial) : result JsonMeasurement BoundedJsonError :=
  let '(r, c) := node_serialize v 1 NodeCounter_new in
  let? _ := r in
  let '(writes, error) := record_writes v in
  let '(n, refused) := count_writes writes (l_bytes limits) 0 in
  let failed := if refused then Some "JSON byte limit reached" else error in
  match failed with
  | Some message =>
      Err (if l_bytes limits <? n then EBytes n (l_bytes limits) else ESerialization message)
  | None => Ok {| m_bytes := n; m_nodes := c_nodes c; m_depth := c_depth c |}
  end.
End measure.

(** ** Strict decoding

    [ValueSeed] as a visitor of the deserializer.  The error that the visitor
    saves in [DecodeState] is what a failure carries; a failure of the
    deserializer itself carries none. *)
Section decode.
Context `{SerdeNumber, JsonDeserializer}.
Variable limits : JsonLimits.

Definition decoding (A : Type) : Type := SE NodeCounter (option BoundedJsonError) A.

Definition charge_seed (depth : N) : decoding unit := λ c,
  let '(r, c) := charge limits depth c in (map_err Some r, c).

Fixpoint strict_seed (ev : JsonEvent) (depth : N) : decoding Value :=
  do* charge_seed depth;
  match ev with
  | EvUnit => ret JNull
  | EvBool b => ret (JBool b)
  | EvI64 z => ret (JNumber (number_of_i64 z))
  | EvU64 n => ret (JNumber (number_of_u64 n))
  | EvF64 x => match number_of_f64 x with Some n => ret (JNumber n) | None => fail None end
  | EvStr s => ret (JString s)
  | EvSeq l complete =>
      let* values := foldM (λ values ev,
          let* v := strict_seed ev (depth + 1) in ret (values ++ [v])%list) l [] in
      if complete then ret (JArray values) else fail None
  | EvMap l complete =>
      let* fields := foldM (λ fields kv,
          if map_contains kv.1 fields then fail (Some (EDuplicateKey kv.1))
          else let* v := strict_seed kv.2 (depth + 1) in ret (map_insert kv.1 v fields)) l [] in
      if complete then ret (JObject fields) else fail None
  | EvError => fail None
  end.

(** Decoding inside another record's deserializer, which receives the events.  An
    error that the visitor saved is the message of the deserializer's error. *)
Definition deserialize_strict_value (ev : JsonEvent) : result Value (option BoundedJsonError) :=
  (strict_seed ev 1 NodeCounter_new).1.

(** The messages of the deserializer's own errors. *)
Class JsonMessages := { syntax_message : string → string; end_message : string → string }.

Context `{!JsonMessages}.

Definition decode_strict_json (text : string) : result Value BoundedJsonError :=
  if l_bytes limits <? str_len text then Err (EBytes (str_len text) (l_bytes limits))
  else
    match (strict_seed (json_events text) 1 NodeCounter_new).1 with
    | Err e => Err (default (EInvalidJson (syntax_message text)) e)
    | Ok v => if json_end text then Ok v else Err (EInvalidJson (end_message text))
    end.
End decode.

(** ** Reference definitions *)

(** The tree of values in a record or a value. *)
Inductive Shape := Node (children : list Shape).

Fixpoint shape_nodes (s : Shape) : N :=
  match s with Node l => 1 + foldr (λ s n, shape_nodes s + n) 0 l end.

Fixpoint shape_depth (s : Shape) : N :=
  match s with Node l => 1 + foldr (λ s n, N.max (shape_depth s) n) 0 l end.

(** The depth of every node, in the order in which it is visited. *)
Fixpoint shape_depths (s : Shape) (depth : N) : list N :=
  match s with Node l => depth :: mjoin ((λ s, shape_depths s (depth + 1)) <$> l) end.

Fixpoint serial_shape (v : Serial) : Shape :=
  match v with
  | SerSeq items => Node (serial_shape <$> items)
  | SerEntries entries => Node ((λ kv, serial_shape kv.2) <$> entries)
  | SerVariant _ content => Node [serial_shape content]
  | _ => Node []
  end.

Fixpoint serial_finite (v : Serial) : bool :=
  match v with
  | SerF64 x => f64_finite x
  | SerSeq items => forallb serial_finite items
  | SerEntries entries => forallb (λ kv, serial_finite kv.2) entries
  | SerVariant _ content => serial_finite content
  | _ => true
  end.

Section reference.
Context `{SerdeNumber}.

Fixpoint value_shape (v : Value) : Shape :=
  match v with
  | JArray l => Node (value_shape <$> l)
  | JObject m => Node ((λ kv, value_shape kv.2) <$> m)
  | _ => Node []
  end.

(** The value that an event tree denotes: no syntax error, no number that is
    not finite and no repeated key. *)
Fixpoint event_value (ev : JsonEvent) : option Value :=
  match ev with
  | EvUnit => Some JNull
  | EvBool b => Some (JBool b)
  | EvI64 z => Some (JNumber (number_of_i64 z))
  | EvU64 n => Some (JNumber (number_of_u64 n))
  | EvF64 x => JNumber <$> number_of_f64 x
  | EvStr s => Some (JString s)
  | EvSeq l complete =>
      values ← foldO (λ values ev, v ← event_value ev; Some (values ++ [v])%list) l [];
      if complete : bool then Some (JArray values) else None
  | EvMap l complete =>
      fields ← foldO (λ fields kv,
        if map_contains kv.1 fields then None
        else v ← event_value kv.2; Some (map_insert kv.1 v fields)) l [];
      if complete : bool then Some (JObject fields) else None
  | EvError => None
  end.

Fixpoint event_shape (ev : JsonEvent) : Shape :=
  match ev with
  | EvSeq l _ => Node (event_shape <$> l)
  | EvMap l _ => Node ((λ kv, event_shape kv.2) <$> l)
  | _ => Node []
  end.
End reference.

Lemma mjoin_fmap_cons {A B} (f : A → list B) x l : mjoin (f <$> x :: l) = (f x ++ mjoin (f <$> l))%list.
Proof. done. Qed.

Lemma Shape_ind_nested (P : Shape → Prop) : (∀ l, Forall P l → P (Node l)) → ∀ s, P s.
Proof. intros HP. fix IH 1. intros [l]. apply HP. induction l; constructor; [apply IH|assumption]. Qed.

Lemma shape_depths_length s : ∀ d, N.of_nat (length (shape_depths s d)) = shape_nodes s.
Proof.
  induction s as [l IH] using Shape_ind_nested. intros d. cbn [shape_depths shape_nodes length].
  rewrite Nat2N.inj_succ.
  enough (N.of_nat (length (mjoin ((λ s, shape_depths s (d + 1)) <$> l))) =
          foldr (λ s n, shape_nodes s + n) 0 l) by lia.
  induction IH as [|s l Hs _ IH]; [done|]. rewrite mjoin_fmap_cons. cbn [foldr].
  by rewrite length_app, Nat2N.inj_add, Hs, IH.
Qed.

Lemma shape_depths_bound s : ∀ d limit,
  Forall (λ x, x ≤ limit) (shape_depths s d) ↔ d + shape_depth s ≤ limit + 1.
Proof.
  induction s as [l IH] using Shape_ind_nested. intros d limit. cbn [shape_depths shape_depth].
  rewrite Forall_cons.
  assert (Forall (λ x, x ≤ limit) (mjoin ((λ s, shape_depths s (d + 1)) <$> l)) ↔
    l = [] ∨ d + 1 + foldr (λ s n, N.max (shape_depth s) n) 0 l ≤ limit + 1) as ->.
  { induction IH as [|s l Hs _ IH]; [split; [by left|constructor]|].
    rewrite mjoin_fmap_cons. cbn [foldr]. rewrite Forall_app, Hs, IH. destruct l as [|s' l].
    - simpl. rewrite N.max_0_r. split; [intros [? _]; by right|intros [[=]|?]; split; [done|by left]].
    - split; [intros [? [[=]|?]]; right; lia|intros [[=]|?]; split; [|right]; lia]. }
  destruct l; simpl; [split; [intros [? _]; lia|intros; split; [lia|by left]]|].
  split; [intros [? [[=]|?]]; lia|intros; split; [|right]; lia].
Qed.

(** ** The code counts the reference tree *)

Lemma Serial_ind_nested (P : Serial → Prop) :
  (∀ b, P (SerBool b)) → (∀ z, P (SerInt z)) → (∀ text, P (SerNumber text)) →
  (∀ x, P (SerF64 x)) → (∀ s, P (SerStr s)) → P SerNone → (∀ n, P (SerUnitVariant n)) →
  (∀ l, Forall P l → P (SerSeq l)) → (∀ l, Forall (λ kv, P kv.2) l → P (SerEntries l)) →
  (∀ n v, P v → P (SerVariant n v)) → ∀ v, P v.
Proof.
  intros Hb Hz Ht Hx Hs Hn Hu Hseq Hent Hv. fix IH 1.
  intros [b|z|text|x|s| |n|l|l|n v]; [clear IH; auto..| | |].
  - apply Hseq. induction l; constructor; [apply IH|assumption].
  - apply Hent. induction l as [|[k v] l]; constructor; [apply IH|assumption].
  - apply Hv, IH.
Qed.

Lemma mjoin_single {A} (l : list A) : mjoin [l] = l.
Proof. apply app_nil_r. Qed.

Section measure_facts.
Variable limits : JsonLimits.

Lemma charges_weaken {E A} ds (r r' : option A) (m : SE NodeCounter E A) :
  charges limits ds r m → r = r' → charges limits ds r' m.
Proof. by intros Hm <-. Qed.

Lemma foldO_unit {X} (g : X → bool) xs :
  foldO (λ _ x, if g x then Some tt else None) xs tt = if forallb g xs then Some tt else None.
Proof. induction xs as [|x xs IH]; [done|]. simpl. by destruct (g x). Qed.

Lemma node_serialize_charges v : ∀ d,
  charges limits (shape_depths (serial_shape v) d)
    (if serial_finite v then Some tt else None) (node_serialize limits v d).
Proof.
  induction v as [b|z|text|x|s| |n|items IH|entries IH|n content IH] using Serial_ind_nested; intros d;
    cbn [serial_shape serial_finite node_serialize shape_depths]; try apply charges_charge.
  - destruct (f64_finite x); [apply charges_charge|apply charges_fail].
  - apply (charges_bind limits [d] _ (Some tt) _ (λ _, if forallb serial_finite items then Some tt else None));
      [apply charges_charge|]. intros _ _.
    rewrite <- list_fmap_compose. eapply charges_weaken; [|apply (foldO_unit serial_finite)].
    apply (charges_foldM limits (λ v, shape_depths (serial_shape v) (d + 1))). intros [] v Hv.
    rewrite Forall_forall in IH. by apply IH, list_elem_of_In.
  - apply (charges_bind limits [d] _ (Some tt) _
      (λ _, if forallb (λ kv, serial_finite kv.2) entries then Some tt else None));
      [apply charges_charge|]. intros _ _.
    rewrite <- list_fmap_compose. eapply charges_weaken; [|apply (foldO_unit (λ kv, serial_finite kv.2))].
    apply (charges_foldM limits (λ kv, shape_depths (serial_shape kv.2) (d + 1))). intros [] v Hv.
    rewrite Forall_forall in IH. by apply IH, list_elem_of_In.
  - cbn [fmap list_fmap]. rewrite mjoin_single.
    apply (charges_bind limits [d] _ (Some tt) _ (λ _, if serial_finite content then Some tt else None));
      [apply charges_charge|]. intros _ _. apply IH.
Qed.

Context `{!RecordWriter}.

Definition text_length (writes : list string) : N := foldr (λ w n, str_len w + n) 0 writes.

Lemma count_writes_fits max writes : ∀ n,
  max < U64_MAX → n ≤ max →
  (count_writes writes max n = (n + text_length writes, false) ∧ n + text_length writes ≤ max) ∨
  (max < n + text_length writes ∧ ∃ m, count_writes writes max n = (m, true) ∧ max < m).
Proof.
  induction writes as [|w writes IH]; intros n Hmax Hn; simpl.
  { left. split; [by rewrite N.add_0_r|lia]. }
  unfold sat_add. change USIZE_MAX with U64_MAX.
  destruct (N.ltb_spec max (N.min U64_MAX (n + str_len w))) as [Hlt|Hge].
  - right. split; [lia|]. eauto.
  - replace (N.min U64_MAX (n + str_len w)) with (n + str_len w) in * by lia.
    destruct (IH (n + str_len w) Hmax) as [[-> Hle]|(Hlt & m & -> & Hm)]; [lia|left|right].
    + split; [f_equal; lia|lia].
    + split; [lia|]. eauto.
Qed.
End measure_facts.

Section decode_facts.
Context `{SerdeNumber, JsonDeserializer}.
Variable limits : JsonLimits.

Lemma charge_seed_charges d : charges limits [d] (Some tt) (charge_seed limits d).
Proof.
  intros c Hc [] c'. unfold charge_seed. pose proof (charges_charge limits d c Hc tt) as Hd.
  destruct (charge limits d c) as [[[]|e] c1]; rewrite <- Hd; simpl; [|done].
  split; [by intros [= <-]|by intros [= <-]].
Qed.

Lemma charges_end {A} (complete : bool) (x : A) :
  charges limits [] (if complete then Some x else None)
    (if complete then ret x else fail None : decoding A).
Proof. destruct complete; [apply charges_ret|apply charges_fail]. Qed.

Lemma strict_seed_charges ev : ∀ d,
  charges limits (shape_depths (event_shape ev) d) (event_value ev) (strict_seed limits ev d).
Proof.
  assert (∀ d ds r (m : decoding Value), charges limits ds r m →
    charges limits (d :: ds) r (do* charge_seed limits d; m)) as Hnode.
  { intros d ds r m Hm. apply (charges_bind limits [d] ds (Some tt) _ (λ _, r));
      [apply charge_seed_charges|by intros _ _]. }
  induction ev as [|b|z|n|x|s|l c IH|l c IH|] using JsonEvent_ind_nested; intros d;
    cbn [event_shape event_value strict_seed shape_depths]; apply Hnode; try apply charges_ret.
  - destruct (number_of_f64 x); [apply charges_ret|apply charges_fail].
  - rewrite <- (app_nil_r (mjoin _)). apply charges_bind; [|intros values _; apply charges_end].
    rewrite <- list_fmap_compose.
    apply (charges_foldM limits (λ ev, shape_depths (event_shape ev) (d + 1))). intros acc ev Hev.
    cbn beta. rewrite <- (app_nil_r (shape_depths _ _)). apply charges_bind; [|intros v _; apply charges_ret].
    rewrite Forall_forall in IH. by apply IH, list_elem_of_In.
  - rewrite <- (app_nil_r (mjoin _)). apply charges_bind; [|intros values _; apply charges_end].
    rewrite <- list_fmap_compose.
    apply (charges_foldM limits (λ kv, shape_depths (event_shape kv.2) (d + 1))). intros acc kv Hkv.
    destruct (map_contains kv.1 acc); [apply charges_fail|].
    rewrite <- (app_nil_r (shape_depths _ _)). apply charges_bind; [|intros v _; apply charges_ret].
    rewrite Forall_forall in IH. by apply IH, list_elem_of_In.
  - apply charges_fail.
Qed.

(** *** The decoded value has the shape of the events *)

Fixpoint nodes_of (l : list Shape) : N :=
  match l with [] => 0 | s :: l => shape_nodes s + nodes_of l end.
Fixpoint depth_of (l : list Shape) : N :=
  match l with [] => 0 | s :: l => N.max (shape_depth s) (depth_of l) end.

Lemma shape_nodes_node l : shape_nodes (Node l) = 1 + nodes_of l.
Proof. done. Qed.
Lemma shape_depth_node l : shape_depth (Node l) = 1 + depth_of l.
Proof. done. Qed.

Definition same_size (s t : Shape) : Prop :=
  shape_nodes s = shape_nodes t ∧ shape_depth s = shape_depth t.

Lemma same_size_node l l' :
  nodes_of l = nodes_of l' → depth_of l = depth_of l' → same_size (Node l) (Node l').
Proof. intros Hn Hd. split; [rewrite !shape_nodes_node|rewrite !shape_depth_node]; lia. Qed.

Lemma nodes_of_app l l' : nodes_of (l ++ l') = nodes_of l + nodes_of l'.
Proof. induction l; simpl; lia. Qed.
Lemma depth_of_app l l' : depth_of (l ++ l') = N.max (depth_of l) (depth_of l').
Proof. induction l; simpl; lia. Qed.

Lemma map_insert_fresh {V} k (v : V) m : map_contains k m = false → map_insert k v m ≡ₚ (k, v) :: m.
Proof.
  unfold map_contains. induction m as [|[k' v'] m IH]; [done|]. simpl.
  destruct (String.eqb_spec k k') as [->|Hne]; [done|]. intros Hm.
  destruct (str_lt k k'); [done|]. rewrite (IH Hm). by constructor.
Qed.

Lemma sizes_perm l l' : l ≡ₚ l' → nodes_of l = nodes_of l' ∧ depth_of l = depth_of l'.
Proof. induction 1; simpl; lia. Qed.

Lemma foldO_values l : ∀ acc values,
  Forall (λ ev, ∀ v, event_value ev = Some v → same_size (event_shape ev) (value_shape v)) l →
  foldO (λ values ev, v ← event_value ev; Some (values ++ [v])%list) l acc = Some values →
  nodes_of (value_shape <$> values) = nodes_of (value_shape <$> acc) + nodes_of (event_shape <$> l) ∧
  depth_of (value_shape <$> values) = N.max (depth_of (value_shape <$> acc)) (depth_of (event_shape <$> l)).
Proof.
  induction l as [|ev l IH]; intros acc values Hl; simpl.
  { intros [= <-]. rewrite N.add_0_r, N.max_0_r. done. }
  apply Forall_cons in Hl as [Hev Hl]. destruct (event_value ev) as [v|]; [|done]. simpl.
  intros Hf. destruct (IH _ _ Hl Hf) as [-> ->]. destruct (Hev v eq_refl) as [-> ->].
  rewrite fmap_app, nodes_of_app, depth_of_app. csimpl. lia.
Qed.

Lemma foldO_fields l : ∀ acc fields : list (string * Value),
  Forall (λ kv, ∀ v, event_value kv.2 = Some v → same_size (event_shape kv.2) (value_shape v)) l →
  foldO (λ fields kv, if map_contains kv.1 fields then None
                      else v ← event_value kv.2; Some (map_insert kv.1 v fields)) l acc = Some fields →
  nodes_of ((λ kv, value_shape kv.2) <$> fields) =
    nodes_of ((λ kv, value_shape kv.2) <$> acc) + nodes_of ((λ kv, event_shape kv.2) <$> l) ∧
  depth_of ((λ kv, value_shape kv.2) <$> fields) =
    N.max (depth_of ((λ kv, value_shape kv.2) <$> acc)) (depth_of ((λ kv, event_shape kv.2) <$> l)).
Proof.
  induction l as [|kv l IH]; intros acc values Hl; simpl.
  { intros [= <-]. rewrite N.add_0_r, N.max_0_r. done. }
  apply Forall_cons in Hl as [Hev Hl]. destruct (map_contains kv.1 acc) eqn:Ek; [done|].
  destruct (event_value kv.2) as [v|]; [|done]. simpl.
  intros Hf. destruct (IH _ _ Hl Hf) as [-> ->]. destruct (Hev v eq_refl) as [-> ->].
  apply (map_insert_fresh _ v) in Ek. apply (fmap_Permutation (λ kv, value_shape kv.2)) in Ek.
  apply sizes_perm in Ek as [-> ->]. csimpl. lia.
Qed.

Lemma event_value_size ev : ∀ v, event_value ev = Some v → same_size (event_shape ev) (value_shape v).
Proof.
  induction ev as [|b|z|n|x|s|l c IH|l c IH|] using JsonEvent_ind_nested; intros v;
    cbn [event_value event_shape]; try by intros [= <-].
  - destruct (number_of_f64 x); [by intros [= <-]|done].
  - destruct (foldO _ l []) as [values|] eqn:Ef; [|done]. destruct c; [|done]. intros [= <-].
    apply foldO_values in Ef as [Hn Hd]; [|done].
    cbn [value_shape]. apply same_size_node; [by rewrite Hn|rewrite Hd; symmetry; apply N.max_0_l].
  - match goal with |- mbind _ ?f = _ → _ => destruct f as [fields|] eqn:Ef end; [|done].
    destruct c; [|done]. intros [= <-].
    apply foldO_fields in Ef as [Hn Hd]; [|done].
    cbn [value_shape]. apply same_size_node; [by rewrite Hn|rewrite Hd; symmetry; apply N.max_0_l].
Qed.
End decode_facts.

(** ** Properties *)

Section properties.
Context `{SerdeNumber, JsonDeserializer, !JsonMessages, !RecordWriter}.

Lemma charges_run {E A} limits s (r : option A) (m : SE NodeCounter E A) x c :
  charges limits (shape_depths s 1) r m →
  m NodeCounter_new = (Ok x, c) ↔
  r = Some x ∧ shape_nodes s ≤ l_nodes limits ∧ shape_depth s ≤ l_depth limits ∧
  c = charged NodeCounter_new (shape_depths s 1).
Proof.
  intros Hm. rewrite (Hm NodeCounter_new) by (unfold within; simpl; lia). unfold affordable.
  cbn [c_nodes NodeCounter_new]. rewrite shape_depths_length, shape_depths_bound.
  split; intros; split_and!; tauto || lia.
Qed.

Lemma foldr_max_bound ds limit : foldr N.max 0 ds ≤ limit ↔ Forall (λ d, d ≤ limit) ds.
Proof. induction ds as [|d ds IH]; simpl; [split; [constructor|lia]|]. rewrite Forall_cons, <- IH. lia. Qed.

Lemma shape_depths_max s : foldr N.max 0 (shape_depths s 1) = shape_depth s.
Proof.
  pose proof (proj1 (shape_depths_bound s 1 (foldr N.max 0 (shape_depths s 1)))
    (proj1 (foldr_max_bound _ _) (N.le_refl _))).
  pose proof (proj2 (foldr_max_bound (shape_depths s 1) (shape_depth s))
    (proj2 (shape_depths_bound s 1 (shape_depth s)) ltac:(lia))). lia.
Qed.

(** A measurement succeeds exactly for a record of finite numbers whose values,
    depth and text are within the limits, and reports those three. *)
Lemma measure_json_correct limits v m :
  l_bytes limits < U64_MAX →
  measure_json limits v = Ok m ↔
  serial_finite v = true ∧ (record_writes v).2 = None ∧
  shape_nodes (serial_shape v) ≤ l_nodes limits ∧ shape_depth (serial_shape v) ≤ l_depth limits ∧
  text_length (record_writes v).1 ≤ l_bytes limits ∧
  m = {| m_bytes := text_length (record_writes v).1; m_nodes := shape_nodes (serial_shape v);
         m_depth := shape_depth (serial_shape v) |}.
Proof.
  intros Hmax. unfold measure_json.
  pose proof (λ x c, charges_run limits _ _ _ x c (node_serialize_charges limits v 1)) as Hrun.
  destruct (record_writes v) as [writes error]. cbn [fst snd].
  destruct (node_serialize limits v 1 NodeCounter_new) as [[[]|e] c] eqn:En; simpl.
  - destruct (proj1 (Hrun tt c) eq_refl) as (Hf & Hn & Hd & ->). destruct (serial_finite v); [|done].
    cbn [c_nodes c_depth charged NodeCounter_new].
    rewrite shape_depths_length, shape_depths_max, N.add_0_l.
    destruct (count_writes_fits (l_bytes limits) writes 0 Hmax ltac:(lia)) as [[-> Hle]|(Hlt & n & -> & Hn')];
      rewrite N.add_0_l in *.
    + destruct error; split; try done; [by intros (_ & ? & _)|by intros [= <-]|].
      by intros (_ & _ & _ & _ & _ & ->).
    + split; [done|]. intros (_ & _ & _ & _ & ? & _). lia.
  - split; [done|]. intros (Hf & _ & Hn & Hd & _ & _).
    assert ((Err e, c) = (Ok tt, charged NodeCounter_new (shape_depths (serial_shape v) 1))) as [=].
    apply Hrun. by rewrite Hf.
Qed.

(** Strict decoding accepts exactly the bounded JSON texts.  It returns a
    value if and only if the text fits the byte limit, the deserializer reads
    that value from it to the end with finite numbers and no repeated key, and
    the value itself has at most the allowed values and depth. *)
Theorem strict_decode_correct limits text v :
  decode_strict_json limits text = Ok v ↔
  str_len text ≤ l_bytes limits ∧ event_value (json_events text) = Some v ∧ json_end text = true ∧
  shape_nodes (value_shape v) ≤ l_nodes limits ∧ shape_depth (value_shape v) ≤ l_depth limits.
Proof.
  unfold decode_strict_json. destruct (N.ltb_spec (l_bytes limits) (str_len text)); [split; [done|lia]|].
  pose proof (charges_run limits _ _ _ v (charged NodeCounter_new
    (shape_depths (event_shape (json_events text)) 1)) (strict_seed_charges limits (json_events text) 1)) as Hrun.
  destruct (strict_seed _ _ _ _) as [[v'|e] c'] eqn:Es; simpl.
  - apply (charges_run limits _ _ _ _ _ (strict_seed_charges limits _ 1)) in Es as (Hv & Hn & Hd & _).
    destruct (event_value_size _ _ Hv) as [Hn' Hd']. rewrite Hn' in Hn. rewrite Hd' in Hd.
    destruct (json_end text); split; try done.
    + intros [= <-]. done.
    + intros (_ & Hv' & _). rewrite Hv in Hv'. by injection Hv' as ->.
    + by intros (_ & _ & ? & _).
  - split; [done|]. intros (_ & Hv & _ & Hn & Hd). destruct (event_value_size _ _ Hv) as [Hn' Hd'].
    rewrite <- Hn' in Hn. rewrite <- Hd' in Hd.
    assert ((Err e, c') = (Ok v, charged NodeCounter_new (shape_depths (event_shape (json_events text)) 1)))
      as [=]. by apply Hrun.
Qed.
End properties.
