(* ===== verification/Serde.v ===== *)
(** * Derived deserialization

    What serde derives from the attributes of the saved records: a visitor of the
    events that a deserializer delivers ([JsonEvent]).  A struct is read from an
    object or from an array of its fields in order; [deny_unknown_fields] refuses
    other keys, a repeated field is refused, and a field without a default has to
    be there.  The deserializer over a [serde_json::Value] and the events of a
    text that [serde_json] has written are here as well, and what a reader makes
    of the value of a text that was written for a record. *)

From stdpp Require Import sorting countable.
From S2P Require Import Prelude Order RustString Json Diagnostics Expression Budget Provenance Scalars Fit BoundedJson.

#[local] Open Scope N_scope.

(** [T::deserialize]; the messages of its errors are not kept. *)
Definition reader (A : Type) : Type := JsonEvent → option A.

(** ** Scalars *)

Definition read_bool : reader bool := λ ev, match ev with EvBool b => Some b | _ => None end.
Definition read_string : reader string := λ ev, match ev with EvStr s => Some s | _ => None end.

(** An unsigned integer of at most [max]. *)
Definition read_unsigned (max : N) : reader N := λ ev,
  match ev with
  | EvU64 n => if n <=? max then Some n else None
  | EvI64 z => if (0 <=? z)%Z && (z <=? Z.of_N max)%Z then Some (Z.to_N z) else None
  | _ => None
  end.

Definition read_u8 : reader N := read_unsigned 255.
Definition read_u32 : reader N := read_unsigned (2 ^ 32 - 1).
Definition read_u64 : reader N := read_unsigned U64_MAX.
Definition read_usize : reader N := read_unsigned USIZE_MAX.

(** [z as f64] *)
Definition f64_of_Z (z : Z) : f64 := if (z <? 0)%Z then f64_neg (f64_of_N (Z.to_N (- z))) else f64_of_N (Z.to_N z).

Definition read_f64 : reader f64 := λ ev,
  match ev with
  | EvF64 x => Some x
  | EvU64 n => Some (f64_of_N n)
  | EvI64 z => Some (f64_of_Z z)
  | _ => None
  end.

(** [Option<T>]: null is an absence. *)
Definition read_option {A} (r : reader A) : reader (option A) := λ ev,
  match ev with EvUnit => Some None | _ => Some <$> r ev end.

(** A unit variant of an enum: its name, or an object that maps the name to null. *)
Definition read_variant {A} (variants : list (string * A)) : reader A := λ ev,
  match ev with
  | EvStr name | EvMap [(name, EvUnit)] true => map_get name variants
  | _ => None
  end.

(** ** Collections *)

(** [Vec<T>] *)
Definition read_seq {A} (r : reader A) : reader (list A) := λ ev,
  match ev with EvSeq l true => mapM r l | _ => None end.

(** [BTreeMap<String, T>]: a later entry replaces an earlier one. *)
Definition read_map {A} (r : reader A) : reader (Map A) := λ ev,
  match ev with
  | EvMap l true => foldO (λ m kv, v ← r kv.2; Some (map_insert kv.1 v m)) l []
  | _ => None
  end.

(** [(A, B)] *)
Definition read_pair {A B} (ra : reader A) (rb : reader B) : reader (A * B) := λ ev,
  match ev with
  | EvSeq [a; b] true => x ← ra a; y ← rb b; Some (x, y)
  | _ => None
  end.

(** A value that is skipped still has to be one. *)
Fixpoint event_ok (ev : JsonEvent) : bool :=
  match ev with
  | EvSeq l complete => forallb event_ok l && complete
  | EvMap l complete => forallb (λ kv, event_ok kv.2) l && complete
  | EvError => false
  | _ => true
  end.

(** ** Structs *)

Fixpoint distinct (names : list string) : bool :=
  match names with
  | [] => true
  | n :: names => negb (existsb (String.eqb n) names) && distinct names
  end.

(** The fields of a struct by name. *)
Definition read_fields (deny_unknown : bool) (names : list string) :
    reader (string → option JsonEvent) := λ ev,
  match ev with
  | EvMap l true =>
      let known (kv : string * JsonEvent) := existsb (String.eqb kv.1) names in
      if distinct (List.filter known l).*1 &&
         forallb (λ kv, known kv || (negb deny_unknown && event_ok kv.2)) l
      then Some (λ n, map_get n l) else None
  | EvSeq l true =>
      if (length l <=? length names)%nat then Some (λ n, map_get n (zip names l)) else None
  | _ => None
  end.

(** A field without a default, and one with it. *)
Definition required {A} (r : reader A) (field : option JsonEvent) : option A := ev ← field; r ev.
Definition defaulted {A} (d : A) (r : reader A) (field : option JsonEvent) : option A :=
  match field with Some ev => r ev | None => Some d end.

(** An internally tagged enum: the name of the variant, and its content. *)
Definition read_tagged (tag : string) : reader (string * JsonEvent) := λ ev,
  match ev with
  | EvMap l true =>
      match List.filter (λ kv, String.eqb kv.1 tag) l with
      | [(_, EvStr name)] => Some (name, EvMap (List.filter (λ kv, negb (String.eqb kv.1 tag)) l) true)
      | _ => None
      end
  | EvSeq (EvStr name :: rest) true => Some (name, EvSeq rest true)
  | _ => None
  end.

Section values.
Context `{SerdeNumber}.

(** ** Values *)

(** [Value::deserialize] *)
Fixpoint read_value (ev : JsonEvent) : option Value :=
  match ev with
  | EvUnit => Some JNull
  | EvBool b => Some (JBool b)
  | EvI64 z => Some (JNumber (number_of_i64 z))
  | EvU64 n => Some (JNumber (number_of_u64 n))
  | EvF64 x => JNumber <$> number_of_f64 x
  | EvStr s => Some (JString s)
  | EvSeq l complete =>
      values ← foldO (λ values ev, v ← read_value ev; Some (values ++ [v])%list) l [];
      if complete : bool then Some (JArray values) else None
  | EvMap l complete =>
      fields ← foldO (λ fields kv, v ← read_value kv.2; Some (map_insert kv.1 v fields)) l [];
      if complete : bool then Some (JObject fields) else None
  | EvError => None
  end.

(** The deserializer over a [Number], and over a [Value]. *)
Definition number_event (n : Number) : JsonEvent :=
  match number_as_u64 n, number_as_i64 n, number_as_f64 n with
  | Some u, _, _ => EvU64 u
  | None, Some z, _ => EvI64 z
  | None, None, Some x => EvF64 x
  | None, None, None => EvError
  end.

Fixpoint value_event (v : Value) : JsonEvent :=
  match v with
  | JNull => EvUnit
  | JBool b => EvBool b
  | JNumber n => number_event n
  | JString s => EvStr s
  | JArray l => EvSeq (value_event <$> l) true
  | JObject m => EvMap ((λ kv, (kv.1, value_event kv.2)) <$> m) true
  end.

(** [serde_json::from_value] *)
Definition from_value {A} (r : reader A) (v : Value) : option A := r (value_event v).

(** The events of the text that [serde_json] writes for a record. *)
Fixpoint serial_event (v : Serial) : JsonEvent :=
  match v with
  | SerBool b => EvBool b
  | SerInt z => if (0 <=? z)%Z then EvU64 (Z.to_N z) else EvI64 z
  | SerNumber text => match number_from_str text with Some n => number_event n | None => EvError end
  | SerF64 x => EvF64 x
  | SerStr s | SerUnitVariant s => EvStr s
  | SerNone => EvUnit
  | SerSeq l => EvSeq (serial_event <$> l) true
  | SerEntries l => EvMap ((λ kv, (kv.1, serial_event kv.2)) <$> l) true
  | SerVariant name content => EvMap [(name, serial_event content)] true
  end.

(** [Number] is an unsigned or a negative integer or a finite [f64], and prints as
    a text that reads back as it is (the feature [float_roundtrip]). *)
Class SerdeNumberLaws := {
  event_of_u64 n : n ≤ U64_MAX → number_event (number_of_u64 n) = EvU64 n;
  event_of_i64 z : (I64_MIN ≤ z < 0)%Z → number_event (number_of_i64 z) = EvI64 z;
  event_of_f64 x n : number_of_f64 x = Some n → number_event n = EvF64 x;
  number_of_finite x : f64_finite x = true → is_Some (number_of_f64 x);
  value_of_number n : read_value (number_event n) = Some (JNumber n);
  number_text n : number_from_str (number_to_string n) = Some n
}.

(** [serde_json] reads what it has written: the text [text] for the record [v]. *)
Definition reads_back `{JsonDeserializer} (v : Serial) (text : string) : Prop :=
  json_events text = serial_event v ∧ json_end text = true.
End values.

(** ** Facts *)


(** ** Ascending maps *)

Lemma map_sorted_ascending {V} (m : Map V) : map_sorted m = true → ascending String.compare m.
Proof.
  intros Hm. apply Sorted_StronglySorted; [apply _|].
  induction m as [|[k v] m IH]; [constructor|]. destruct m as [|[k' v'] m]; [by repeat constructor|].
  simpl in Hm. apply andb_true_iff in Hm as [Hk Hm].
  constructor; [by apply IH|]. constructor. unfold cmp_lt, str_lt in *. simpl. by destruct (String.compare k k').
Qed.

Lemma map_insert_above {V} k (v : V) m : Forall (λ kv, cmp_lt String.compare kv.1 k) m →
  map_insert k v m = (m ++ [(k, v)])%list ∧ map_contains k m = false.
Proof.
  unfold map_contains. induction 1 as [|[k' v'] m Hk _ [IH1 IH2]]; [done|]. simpl in *.
  destruct (String.eqb_spec k k') as [->|].
  { unfold cmp_lt in Hk. by rewrite cmp_refl in Hk by apply _. }
  assert (str_lt k k' = false) as ->.
  { unfold str_lt, cmp_lt in *. by rewrite (cmp_antisym (cmp:=String.compare) k' k), Hk. }
  by rewrite IH1.
Qed.

Lemma ascending_app {V} (m n : Map V) k v :
  ascending String.compare (m ++ (k, v) :: n) → Forall (λ kv, cmp_lt String.compare kv.1 k) m.
Proof.
  unfold ascending. rewrite fmap_app. intros Hs. apply Forall_forall. intros kv Hin.
  eapply StronglySorted_app_1_elem_of; [exact Hs|by apply list_elem_of_fmap_2|left].
Qed.

(** Entries in ascending order are inserted one behind the other. *)
Lemma foldO_ascending {A V} (f : A → option V) (check : bool) entries (m : Map V) :
  Forall2 (λ e kv, e.1 = kv.1 ∧ f e.2 = Some kv.2) entries m → ∀ acc,
  ascending String.compare (acc ++ m) →
  foldO (λ acc e, if check && map_contains e.1 acc then None
                  else v ← f e.2; Some (map_insert e.1 v acc)) entries acc = Some (acc ++ m)%list.
Proof.
  induction 1 as [|[k a] [k' v] entries m [Hk Ha] _ IH]; intros acc Hs.
  { by rewrite app_nil_r. }
  cbn [fst snd] in Hk, Ha. subst k'. cbn [foldO fst snd]. apply ascending_app in Hs as Hb.
  destruct (map_insert_above k v acc Hb) as [Hins ->]. rewrite andb_false_r.
  replace (f a ≫= λ v, Some (map_insert k v acc)) with (Some (acc ++ [(k, v)])%list)
    by (by rewrite Ha, <- Hins).
  etrans; [apply (IH (acc ++ [(k, v)])%list)|]; by rewrite <- app_assoc.
Qed.

Lemma foldO_append {A B} (f : A → option B) l ws :
  Forall2 (λ x w, f x = Some w) l ws → ∀ acc,
  foldO (λ values x, v ← f x; Some (values ++ [v])%list) l acc = Some (acc ++ ws)%list.
Proof.
  induction 1 as [|x w l ws Hx _ IH]; intros acc; cbn [foldO]; [by rewrite app_nil_r|].
  replace (f x ≫= λ v, Some (acc ++ [v])%list) with (Some (acc ++ [w])%list) by (by rewrite Hx).
  etrans; [apply IH|]. by rewrite <- app_assoc.
Qed.

Lemma foldO_ext {A X} (f g : A → X → option A) xs : (∀ a x, f a x = g a x) → ∀ a, foldO f xs a = foldO g xs a.
Proof. intros Hfg. induction xs as [|x xs IH]; intros a; simpl; [done|]. rewrite Hfg. destruct (g a x); simpl; auto. Qed.

(** ** Values *)

(** The objects of a value are [BTreeMap]s. *)
Fixpoint value_sorted `{SerdeNumber} (v : Value) : bool :=
  match v with
  | JArray l => forallb value_sorted l
  | JObject m => map_sorted m && forallb (λ kv, value_sorted kv.2) m
  | _ => true
  end.

Lemma map_insert_btree {V} k (v : V) (m : Map V) : map_insert k v m = btree_insert String.compare k v m.
Proof.
  unfold btree_insert. induction m as [|[k' v'] m IH]; simpl; [done|]. unfold str_lt.
  destruct (String.eqb_spec k k') as [->|Hne]; [by rewrite cmp_refl by apply _|].
  destruct (String.compare k k') eqn:E; [by apply String.compare_eq_iff in E|done|by rewrite IH].
Qed.

Section values.
Context `{SerdeNumber, !SerdeNumberLaws}.

Lemma read_value_event v : value_sorted v = true → from_value read_value v = Some v.
Proof.
  unfold from_value.
  induction v as [|b|n|s|l IH|m IH] using Value_ind_nested; intros Hs; simpl in *; try done.
  - apply value_of_number.
  - rewrite (foldO_append read_value (value_event <$> l) l); [done|].
    apply Forall2_fmap_l, Forall_Forall2_diag, Forall_forall. intros v Hv.
    rewrite Forall_forall in IH. rewrite forallb_forall in Hs. apply IH; [done|]. by apply Hs, list_elem_of_In.
  - apply andb_true_iff in Hs as [Hs%map_sorted_ascending Hv].
    rewrite (foldO_ext _ (λ acc e, if false && map_contains e.1 acc then None
      else v ← read_value e.2; Some (map_insert e.1 v acc))) by done.
    rewrite (foldO_ascending read_value false _ m); [done| |done].
    apply Forall2_fmap_l, Forall_Forall2_diag, Forall_forall. intros kv Hin. split; [done|].
    rewrite Forall_forall in IH. rewrite forallb_forall in Hv. apply IH; [done|]. by apply Hv, list_elem_of_In.
Qed.

Lemma value_u64 n : n ≤ U64_MAX → from_value read_u64 (JNumber (number_of_u64 n)) = Some n.
Proof. intros Hn. unfold from_value. simpl. rewrite event_of_u64 by done. simpl. by apply N.leb_le in Hn as ->. Qed.

Lemma value_seq {A} (r : reader A) (f : A → Value) l :
  Forall (λ x, from_value r (f x) = Some x) l → from_value (read_seq r) (JArray (f <$> l)) = Some l.
Proof.
  intros Hl. unfold from_value. cbn [value_event read_seq]. apply mapM_Some.
  rewrite <- list_fmap_compose. by apply Forall2_fmap_l, Forall_Forall2_diag.
Qed.

Lemma value_map {A} (r : reader A) (m : Map Value) (l : Map A) :
  ascending String.compare m → Forall2 (λ kv kx, kv.1 = kx.1 ∧ from_value r kv.2 = Some kx.2) m l →
  from_value (read_map r) (JObject m) = Some l.
Proof.
  intros Hs Hl. unfold from_value in *. cbn [value_event read_map].
  rewrite (foldO_ext _ (λ acc e, if false && map_contains e.1 acc then None
    else v ← r e.2; Some (map_insert e.1 v acc))) by done.
  rewrite (foldO_ascending r false _ l); [done| |].
  - by rewrite Forall2_fmap_l.
  - unfold ascending in *. simpl. replace (l.*1) with (m.*1); [done|].
    clear Hs. induction Hl as [|[] [] m l [Hk _] _ IH]; [done|]. csimpl. f_equal; [done|exact IH].
Qed.
End values.

Section facts.
Context `{SerdeNumber, !SerdeNumberLaws}.

(** [decodes r v x]: the reader [r] makes [x] of the value of the record [v]. *)
Definition decodes {A} (r : reader A) (v : Serial) (x : A) : Prop :=
  ∃ w, event_value (serial_event v) = Some w ∧ from_value r w = Some x.

Lemma decodes_string s : decodes read_string (SerStr s) s.
Proof. by exists (JString s). Qed.

Lemma decodes_bool b : decodes read_bool (SerBool b) b.
Proof. by exists (JBool b). Qed.

Lemma decodes_unsigned max n : n ≤ max → max ≤ U64_MAX → decodes (read_unsigned max) (SerInt (Z.of_N n)) n.
Proof.
  intros Hn Hm. exists (JNumber (number_of_u64 n)). unfold from_value. simpl.
  destruct (Z.leb_spec 0 (Z.of_N n)); [|lia]. rewrite N2Z.id. split; [done|].
  rewrite event_of_u64 by lia. simpl. by apply N.leb_le in Hn as ->.
Qed.

Lemma decodes_u8 n : n ≤ 255 → decodes read_u8 (SerInt (Z.of_N n)) n.
Proof. intros Hn. by apply decodes_unsigned. Qed.
Lemma decodes_u64 n : n ≤ U64_MAX → decodes read_u64 (SerInt (Z.of_N n)) n.
Proof. intros Hn. by apply decodes_unsigned. Qed.
Lemma decodes_usize n : n ≤ USIZE_MAX → decodes read_usize (SerInt (Z.of_N n)) n.
Proof. intros Hn. by apply decodes_unsigned. Qed.

Lemma decodes_f64 x : f64_finite x = true → decodes read_f64 (SerF64 x) x.
Proof.
  intros [n Hn]%number_of_finite. exists (JNumber n). unfold from_value. simpl. rewrite Hn.
  split; [done|]. by rewrite (event_of_f64 x n Hn).
Qed.

Lemma decodes_seq {A B} (r : reader B) (f : A → Serial) (g : A → B) l :
  Forall (λ x, decodes r (f x) (g x)) l → decodes (read_seq r) (SerSeq (f <$> l)) (g <$> l).
Proof.
  intros Hl. assert (∃ ws, Forall2 (λ x w, event_value (serial_event (f x)) = Some w) l ws ∧
    Forall2 (λ w y, from_value r w = Some y) ws (g <$> l)) as (ws & Hws & Hr).
  { induction Hl as [|x l (w & Hw & Hx) _ (ws & IH1 & IH2)]; [by exists []|].
    exists (w :: ws). split; by constructor. }
  exists (JArray ws). split.
  - cbn [serial_event event_value]. rewrite (foldO_append event_value _ ws); [done|].
    by rewrite <- list_fmap_compose, Forall2_fmap_l.
  - unfold from_value in *. cbn [value_event read_seq]. apply mapM_Some. by rewrite Forall2_fmap_l.
Qed.

Lemma decodes_map {A B} (r : reader B) (f : A → Serial) (g : A → B) (l : Map A) :
  map_sorted l = true → Forall (λ kv, decodes r (f kv.2) (g kv.2)) l →
  decodes (read_map r) (SerEntries ((λ kv, (kv.1, f kv.2)) <$> l)) ((λ kv, (kv.1, g kv.2)) <$> l).
Proof.
  intros Hs%map_sorted_ascending Hl.
  assert (∃ ws : Map Value,
    Forall2 (λ kv w, kv.1 = w.1 ∧ event_value (serial_event (f kv.2)) = Some w.2) l ws ∧
    Forall2 (λ w y, w.1 = y.1 ∧ from_value r w.2 = Some y.2) ws ((λ kv, (kv.1, g kv.2)) <$> l))
    as (ws & Hws & Hr).
  { clear Hs. induction Hl as [|[k x] l (w & Hw & Hx) _ (ws & IH1 & IH2)]; [by exists []|].
    exists ((k, w) :: ws). split; by constructor. }
  assert (ws.*1 = l.*1) as Hkeys.
  { clear -Hws. induction Hws as [|[] [] l ws [Hk _] _ IH]; [done|]. csimpl. f_equal; [done|exact IH]. }
  exists (JObject ws). split.
  - cbn [serial_event event_value].
    rewrite (foldO_ascending event_value true _ ws); [done| |unfold ascending; simpl; by rewrite Hkeys].
    rewrite <- list_fmap_compose, Forall2_fmap_l. exact Hws.
  - apply value_map; [unfold ascending; by rewrite Hkeys|exact Hr].
Qed.

(** ** Texts *)

Lemma event_shape_serial v : event_shape (serial_event v) = serial_shape v.
Proof.
  induction v as [b|z|text|x|s| |n|items IH|entries IH|n content IH] using Serial_ind_nested; simpl; try done.
  - by destruct (0 <=? z)%Z.
  - destruct (number_from_str text); [|done]. unfold number_event.
    by repeat case_match.
  - f_equal. rewrite <- list_fmap_compose. apply list_fmap_ext. intros i v Hi.
    rewrite Forall_forall in IH. apply IH. by eapply list_elem_of_lookup_2.
  - f_equal. rewrite <- list_fmap_compose. apply list_fmap_ext. intros i kv Hi.
    rewrite Forall_forall in IH. apply IH. by eapply list_elem_of_lookup_2.
  - by rewrite IH.
Qed.

Lemma text_length_concat writes : str_len (foldr (λ w s, w +:+ s) "" writes) = text_length writes.
Proof. induction writes as [|w writes IH]; [done|]. simpl. by rewrite str_len_app, IH. Qed.

Context `{JsonDeserializer, !JsonMessages, !RecordWriter}.

(** The text of a record *)
Definition record_text (v : Serial) : string := foldr (λ w s, w +:+ s) "" (record_writes v).1.

(** A record that a measurement admits is decoded under the same limits. *)
Lemma measured_decodes limits {A} (r : reader A) v x m :
  l_bytes limits < U64_MAX → measure_json limits v = Ok m →
  reads_back v (record_text v) → decodes r v x →
  ∃ w, decode_strict_json limits (record_text v) = Ok w ∧ from_value r w = Some x.
Proof.
  intros Hl (_ & _ & Hn & Hd & Hb & _)%measure_json_correct [He Hend] (w & Hw & Hx); [|done].
  exists w. split; [|done]. apply strict_decode_correct. rewrite He, Hend.
  pose proof (event_value_size _ _ Hw) as [Hwn Hwd]. rewrite event_shape_serial in Hwn, Hwd.
  rewrite <- Hwn, <- Hwd. split_and!; try done. unfold record_text. by rewrite text_length_concat.
Qed.
End facts.

(** A struct with literal field names whose fields decode: the fields become
    variables, and both passes compute. *)
Ltac compute_struct :=
  cbn; repeat (match goal with
  | |- context [str_lt ?a ?b] => let r := eval vm_compute in (str_lt a b) in change (str_lt a b) with r
  | Hw : event_value _ = Some _ |- _ => rewrite Hw; clear Hw
  | Hr : _ (value_event _) = Some _ |- _ => rewrite Hr; clear Hr
  end; cbn).

Ltac decode_struct :=
  repeat match goal with
  | Hd : decodes _ ?v _ |- _ => destruct Hd as (? & Hd & ?); revert Hd; generalize v; intros ? Hd
  end;
  eexists; split; [compute_struct; reflexivity|unfold from_value in *; compute_struct; reflexivity].

(** ** A number type with the laws

    Unsigned and signed integers and finite floats; their text is the binary code
    of the number. *)
Definition ExactNumber : Type := N + Z + (bool + bool * positive * Z).

Fixpoint code_text (p : positive) : string :=
  match p with xO p => String "0" (code_text p) | xI p => String "1" (code_text p) | xH => "" end.

Fixpoint text_code (s : string) : option positive :=
  match s with
  | "" => Some xH
  | String "0" s => xO <$> text_code s
  | String "1" s => xI <$> text_code s
  | _ => None
  end.

Lemma text_code_text p : text_code (code_text p) = Some p.
Proof. induction p as [p IH|p IH|]; simpl; [by rewrite IH|by rewrite IH|done]. Qed.

Definition exact_numbers : SerdeNumber := {|
  Number := ExactNumber;
  number_to_string n := code_text (countable.encode n);
  number_as_u64 n := match n with inl (inl u) => Some u | _ => None end;
  number_as_i64 n := match n with inl (inr z) => Some z | _ => None end;
  number_as_f64 n :=
    match n with
    | inl (inl u) => Some (f64_of_N u)
    | inl (inr z) => Some (f64_of_Z z)
    | inr (inl s) => Some (S754_zero s)
    | inr (inr (s, m, e)) => Some (S754_finite s m e)
    end;
  number_of_u64 u := inl (inl u);
  number_of_i64 z := inl (inr z);
  number_of_f64 x :=
    match x with
    | S754_zero s => Some (inr (inl s))
    | S754_finite s m e => Some (inr (inr (s, m, e)))
    | _ => None
    end;
  number_from_str s := text_code s ≫= countable.decode
|}.

Lemma exact_number_laws : @SerdeNumberLaws exact_numbers.
Proof.
  split; try done.
  - intros [] n; try done; by intros [= <-].
  - by intros [].
  - by intros [[|]|[|[[]]]].
  - intros n. simpl. rewrite text_code_text. simpl. apply decode_encode.
Qed.
