(* ===== verification/Prepared.v ===== *)
(** * Prepared assessments (crates/antiburn-checks/src/prepared_assessment.rs, with
    the records of fit.rs, expression_eval/budget.rs and preparation.rs)

    The immutable requests of one model assessment, saved before the first
    dispatch: their validation, the builder that appends a block, and the record
    in which they are saved under limits on bytes, values and depth, with the
    readers that decode it. *)

From S2P Require Import Prelude RustString Json Diagnostics Expression Budget Decision Provenance Scalars Fit BoundedJson Serde.

#[local] Open Scope N_scope.

Definition PREPARED_ASSESSMENT_VERSION : N := 1.
Definition MAX_PREPARED_ASSESSMENT_BYTES : N := 8 * 1024 * 1024.
Definition MAX_PREPARED_ASSESSMENT_NODES : N := 65536.
Definition MAX_ASSESSMENT_FITTING_WORK_BYTES : N := 64 * 1024 * 1024.
Definition PREPARATION_LIMITS : JsonLimits :=
  {| l_bytes := MAX_PREPARED_ASSESSMENT_BYTES; l_nodes := MAX_PREPARED_ASSESSMENT_NODES;
     l_depth := MAX_FIT_INPUT_DEPTH |}.

Record PreparedAssessmentError := { prepared_message : string }.

Definition prepared_error {A} (message : string) : result A PreparedAssessmentError :=
  Err {| prepared_message := message |}.

Section prepared.
Context `{SerdeNumber}.

Record PreparedBlock := {
  pb_decision : string;
  pb_original_input : Value;
  pb_input : Value;
  pb_request : Value;
  pb_report : FitReport
}.

Record PreparedAssessment := {
  pa_version : N;
  pa_profile : string;
  pa_evaluation_budget : EvaluationBudget;
  pa_fitting_work_bytes : N;
  pa_decisions : list PreparedBlock
}.

(** [PreparationRecord] (fit.rs) *)
Inductive PreparationRecord :=
| RecordReady (prepared : PreparedAssessment)
| RecordLocal (local : LocalPreparation)
| RecordRejected (failure : PreparationFailure).

(** ** Saved records

    What the derived [Serialize] emits. *)
Fixpoint value_serial (v : Value) : Serial :=
  match v with
  | JNull => SerNone
  | JBool b => SerBool b
  | JNumber n => SerNumber (number_to_string n)
  | JString s => SerStr s
  | JArray items => SerSeq (value_serial <$> items)
  | JObject fields => SerEntries ((λ kv, (kv.1, value_serial kv.2)) <$> fields)
  end.

Definition ser_n (n : N) : Serial := SerInt (Z.of_N n).
Definition ser_option {A} (f : A → Serial) (o : option A) : Serial :=
  match o with Some a => f a | None => SerNone end.

Definition budget_serial (b : EvaluationBudget) : Serial :=
  SerEntries
    [("limits", SerEntries [("max_depth", ser_n (max_depth (limits b)));
                            ("max_steps", ser_n (max_steps (limits b)))]);
     ("max_items", ser_n (max_items b));
     ("max_generated_bytes", ser_n (max_generated_bytes b));
     ("max_materialized_bytes", ser_n (max_materialized_bytes b));
     ("steps", ser_n (steps b));
     ("visited_items", ser_n (visited_items b));
     ("generated_bytes", ser_n (generated_bytes b));
     ("materialized_bytes", ser_n (materialized_bytes b));
     ("exhausted", SerBool (exhausted b))].

Definition strategy_name (s : FitStrategy) : string :=
  match s with Recent => "recent" | Truncate => "truncate" end.

Definition report_serial (r : FitReport) : Serial :=
  SerEntries
    [("omissions", SerSeq ((λ o, SerEntries
        [("path", SerStr (om_path o)); ("strategy", SerUnitVariant (strategy_name (om_strategy o)));
         ("original_count", ser_n (om_original_count o));
         ("retained_count", ser_n (om_retained_count o))]) <$> omissions r))].

Definition failure_code_name (c : PreparationFailureCode) : string :=
  match c with
  | ConditionFalse => "condition_false" | InputUnavailable => "input_unavailable"
  | InvalidInput => "invalid_input" | InvalidRequest => "invalid_request" | NoFit => "no_fit"
  | PreparationResourceLimit => "preparation_resource_limit" | InvalidFit => "invalid_fit"
  | ProviderUnavailable => "provider_unavailable" | IncompatibleProfile => "incompatible_profile"
  end.

Definition no_fit_name (r : NoFitReason) : string :=
  match r with
  | NoRules => "no_rules" | NoMatchingTargets => "no_matching_targets"
  | TargetsAtMinimum => "targets_at_minimum" | ReductionsExhausted => "reductions_exhausted"
  end.

Definition budget_kind_name (k : PreparationBudgetKind) : string :=
  match k with
  | InputBytes => "input_bytes" | InputNodes => "input_nodes" | InputDepth => "input_depth"
  | FitRules => "fit_rules" | PathDepth => "path_depth" | PathBytes => "path_bytes"
  | ExpandedTargets => "expanded_targets" | TraversalNodes => "traversal_nodes" | Turns => "turns"
  | WorkBytes => "work_bytes" | RequestBytes => "request_bytes"
  | EstimatedTokens => "estimated_tokens" | ResidentBytes => "resident_bytes"
  | Criteria => "criteria"
  end.

Definition failure_context_serial (c : PreparationFailureContext) : Serial :=
  SerEntries
    [("decision", ser_option SerStr (c_decision c)); ("field", ser_option SerStr (c_field c));
     ("input_path", ser_option SerStr (c_input_path c));
     ("no_fit_reason", ser_option (λ r, SerUnitVariant (no_fit_name r)) (c_no_fit_reason c));
     ("budget", ser_option (λ b, SerEntries
        [("kind", SerUnitVariant (budget_kind_name (pb_kind b))); ("observed", ser_n (observed b));
         ("maximum", ser_n (maximum b))]) (c_budget c))].

Definition block_serial (b : PreparedBlock) : Serial :=
  SerEntries
    [("decision", SerStr (pb_decision b)); ("original_input", value_serial (pb_original_input b));
     ("input", value_serial (pb_input b)); ("request", value_serial (pb_request b));
     ("report", report_serial (pb_report b))].

(** [ReadyView]: the record with one more block. *)
Definition ready_serial (p : PreparedAssessment) (next : option PreparedBlock) : Serial :=
  SerEntries
    [("status", SerStr "ready"); ("version", ser_n (pa_version p)); ("profile", SerStr (pa_profile p));
     ("evaluation_budget", budget_serial (pa_evaluation_budget p));
     ("fitting_work_bytes", ser_n (pa_fitting_work_bytes p));
     ("decisions", SerSeq (block_serial <$> (pa_decisions p ++ option_list next)%list))].

Definition record_serial (r : PreparationRecord) : Serial :=
  match r with
  | RecordReady p => ready_serial p None
  | RecordLocal l =>
      SerEntries
        [("status", SerStr "local"); ("version", ser_n (version l));
         ("started_at_unix_ms", ser_n (started_at_unix_ms l));
         ("evaluation_budget", budget_serial (evaluation_budget l))]
  | RecordRejected f =>
      SerEntries
        [("status", SerStr "rejected"); ("code", SerUnitVariant (failure_code_name (pf_code f)));
         ("detail", SerStr (pf_detail f)); ("report", ser_option report_serial (pf_report f));
         ("context", failure_context_serial (pf_context f))]
  end.

(** ** Validation *)

Context `{!RecordWriter}.

Definition measure_prepared_assessment_view (p : PreparedAssessment) (next : option PreparedBlock) :
    result JsonMeasurement PreparedAssessmentError :=
  map_err (λ e, {| prepared_message := bounded_text e |})
    (measure_json PREPARATION_LIMITS (ready_serial p next)).

Definition measure_prepared_assessment (p : PreparedAssessment) :
    result JsonMeasurement PreparedAssessmentError :=
  measure_prepared_assessment_view p None.

Definition measure_prepared_assessment_with_block (p : PreparedAssessment) (next : PreparedBlock) :
    result JsonMeasurement PreparedAssessmentError :=
  measure_prepared_assessment_view p (Some next).

Definition validate_header (p : PreparedAssessment) : result unit PreparedAssessmentError :=
  if negb (pa_version p =? PREPARED_ASSESSMENT_VERSION) then
    prepared_error "Saved preparation version is unsupported."
  else if is_blank (pa_profile p) then prepared_error "Saved preparation profile is missing."
  else if MAX_ASSESSMENT_FITTING_WORK_BYTES <? pa_fitting_work_bytes p then
    prepared_error "Saved fitting work exceeds the assessment limit."
  else
    map_err (λ e, {| prepared_message := message e |}) (validate_for_resume (pa_evaluation_budget p)).

(** The loop of [validate_names], with the names so far. *)
Fixpoint names_validate (names : list string) (blocks : list PreparedBlock) :
    result unit PreparedAssessmentError :=
  match blocks with
  | [] => Ok tt
  | b :: blocks =>
      if negb (is_identifier (pb_decision b)) || bool_decide (pb_decision b ∈ names) then
        prepared_error "Prepared decision names must be valid and unique."
      else names_validate (pb_decision b :: names) blocks
  end.

Definition validate_names (blocks : list PreparedBlock) (next : option PreparedBlock) :
    result unit PreparedAssessmentError :=
  names_validate [] (blocks ++ option_list next)%list.

Definition prepared_validate (p : PreparedAssessment) : result unit PreparedAssessmentError :=
  let? _ := validate_header p in
  match pa_decisions p with
  | [] => prepared_error "Model preparation requires at least one decision."
  | _ =>
      let? _ := validate_names (pa_decisions p) None in
      let? _ := measure_prepared_assessment p in
      Ok tt
  end.

Definition PreparedAssessment_new (profile : string) (budget : EvaluationBudget) (work : N)
    (decisions : list PreparedBlock) : result PreparedAssessment PreparedAssessmentError :=
  let p :=
    {| pa_version := PREPARED_ASSESSMENT_VERSION; pa_profile := profile;
       pa_evaluation_budget := budget; pa_fitting_work_bytes := work; pa_decisions := decisions |} in
  let? _ := prepared_validate p in Ok p.

Definition prepared_validate_for_declarations (p : PreparedAssessment)
    (declarations : list DecisionBlock) : result unit PreparedAssessmentError :=
  let? _ := prepared_validate p in
  let? _ := map_err (λ e, {| prepared_message := contract_message e |})
    (validate_declarations declarations) in
  if negb (N.of_nat (length (pa_decisions p)) =? N.of_nat (length declarations)) ||
     existsb (λ bd, negb (String.eqb (pb_decision bd.1) (d_name bd.2)))
       (zip (pa_decisions p) declarations)
  then prepared_error "Prepared decisions must match the exact declaration order."
  else Ok tt.

Definition check_append (p : PreparedAssessment) (next : PreparedBlock) :
    result JsonMeasurement PreparedAssessmentError :=
  let? _ := validate_header p in
  let? _ := validate_names (pa_decisions p) (Some next) in
  measure_prepared_assessment_with_block p next.

(** [try_push(&mut self)] *)
Definition try_push (next : PreparedBlock) : SE PreparedAssessment PreparedAssessmentError unit := λ p,
  match check_append p next with
  | Ok _ =>
      (Ok tt,
       {| pa_version := pa_version p; pa_profile := pa_profile p;
          pa_evaluation_budget := pa_evaluation_budget p;
          pa_fitting_work_bytes := pa_fitting_work_bytes p;
          pa_decisions := (pa_decisions p ++ [next])%list |})
  | Err e => (Err e, p)
  end.

(** [bounded_preparation_record] (preparation.rs): a record that does not fit is
    replaced by a short rejection. *)
Definition oversized_failure : PreparationFailure :=
  {| pf_code := PreparationResourceLimit;
     pf_detail := "The saved preparation exceeds the local record limit. The model request was not sent.";
     pf_report := None; pf_context := context_default |}.

Definition bounded_preparation_record (r : PreparationRecord) : PreparationRecord :=
  if is_ok (measure_json PREPARATION_LIMITS (record_serial r)) then r
  else RecordRejected oversized_failure.
End prepared.

(** ** Decoding of saved preparations (crates/antiburn-checks/src/prepared_assessment.rs,
    fit.rs, expression_eval/budget.rs and preparation.rs)

    The readers of the preparation record.  The whole record is first decoded
    strictly under the limits of a record, then typed, and the inner assessment
    is decoded strictly once more, under limits that leave room for its tag. *)

(** ** Budgets (budget.rs) *)

Definition read_limits : reader EvaluationLimits := λ ev,
  fields ← read_fields true ["max_depth"; "max_steps"] ev;
  depth ← required read_usize (fields "max_depth");
  max ← required read_usize (fields "max_steps");
  Some {| max_depth := depth; max_steps := max |}.

Definition read_saved_budget : reader SavedBudget := λ ev,
  fields ← read_fields true
    ["limits"; "max_items"; "max_generated_bytes"; "max_materialized_bytes"; "steps"; "visited_items";
     "generated_bytes"; "materialized_bytes"; "exhausted"] ev;
  limits ← required read_limits (fields "limits");
  items ← required read_usize (fields "max_items");
  generated ← required read_usize (fields "max_generated_bytes");
  materialized ← required read_usize (fields "max_materialized_bytes");
  steps ← required read_usize (fields "steps");
  visited ← required read_usize (fields "visited_items");
  bytes ← required read_usize (fields "generated_bytes");
  copied ← required read_usize (fields "materialized_bytes");
  exhausted ← required read_bool (fields "exhausted");
  Some {| saved_limits := limits; saved_max_items := items; saved_max_generated_bytes := generated;
          saved_max_materialized_bytes := materialized; saved_steps := steps;
          saved_visited_items := visited; saved_generated_bytes := bytes;
          saved_materialized_bytes := copied; saved_exhausted := exhausted |}.

Definition ok_option {A E} (r : result A E) : option A := match r with Ok a => Some a | Err _ => None end.

(** [EvaluationBudget::deserialize] *)
Definition read_budget : reader EvaluationBudget := λ ev,
  saved ← read_saved_budget ev; ok_option (restore saved).

(** ** Reports and failures (fit.rs) *)

Definition read_strategy : reader FitStrategy := read_variant [("recent", Recent); ("truncate", Truncate)].

Definition read_omission : reader FitOmission := λ ev,
  fields ← read_fields true ["path"; "strategy"; "original_count"; "retained_count"] ev;
  path ← required read_string (fields "path");
  strategy ← required read_strategy (fields "strategy");
  original ← required read_usize (fields "original_count");
  retained ← required read_usize (fields "retained_count");
  Some {| om_path := path; om_strategy := strategy; om_original_count := original;
          om_retained_count := retained |}.

Definition read_report : reader FitReport := λ ev,
  fields ← read_fields true ["omissions"] ev;
  omissions ← required (read_seq read_omission) (fields "omissions");
  Some {| omissions := omissions |}.

Definition read_failure_code : reader PreparationFailureCode :=
  read_variant [("condition_false", ConditionFalse); ("input_unavailable", InputUnavailable);
    ("invalid_input", InvalidInput); ("invalid_request", InvalidRequest); ("no_fit", NoFit);
    ("preparation_resource_limit", PreparationResourceLimit); ("invalid_fit", InvalidFit);
    ("provider_unavailable", ProviderUnavailable); ("incompatible_profile", IncompatibleProfile)].

Definition read_no_fit : reader NoFitReason :=
  read_variant [("no_rules", NoRules); ("no_matching_targets", NoMatchingTargets);
    ("targets_at_minimum", TargetsAtMinimum); ("reductions_exhausted", ReductionsExhausted)].

Definition read_budget_kind : reader PreparationBudgetKind :=
  read_variant [("input_bytes", InputBytes); ("input_nodes", InputNodes); ("input_depth", InputDepth);
    ("fit_rules", FitRules); ("path_depth", PathDepth); ("path_bytes", PathBytes);
    ("expanded_targets", ExpandedTargets); ("traversal_nodes", TraversalNodes); ("turns", Turns);
    ("work_bytes", WorkBytes); ("request_bytes", RequestBytes); ("estimated_tokens", EstimatedTokens);
    ("resident_bytes", ResidentBytes); ("criteria", Criteria)].

Definition read_preparation_budget : reader PreparationBudget := λ ev,
  fields ← read_fields true ["kind"; "observed"; "maximum"] ev;
  kind ← required read_budget_kind (fields "kind");
  observed ← required read_u64 (fields "observed");
  maximum ← required read_u64 (fields "maximum");
  Some {| pb_kind := kind; observed := observed; maximum := maximum |}.

(** A missing field of an [Option] is [None]. *)
Definition optional {A} (r : reader A) (field : option JsonEvent) : option (option A) :=
  defaulted None (read_option r) field.

Definition read_failure_context : reader PreparationFailureContext := λ ev,
  fields ← read_fields true ["decision"; "field"; "input_path"; "no_fit_reason"; "budget"] ev;
  decision ← optional read_string (fields "decision");
  field ← optional read_string (fields "field");
  path ← optional read_string (fields "input_path");
  reason ← optional read_no_fit (fields "no_fit_reason");
  budget ← optional read_preparation_budget (fields "budget");
  Some {| c_decision := decision; c_field := field; c_input_path := path; c_no_fit_reason := reason;
          c_budget := budget |}.

Definition read_failure : reader PreparationFailure := λ ev,
  fields ← read_fields true ["code"; "detail"; "report"; "context"] ev;
  code ← required read_failure_code (fields "code");
  detail ← required read_string (fields "detail");
  report ← optional read_report (fields "report");
  context ← defaulted context_default read_failure_context (fields "context");
  Some {| pf_code := code; pf_detail := detail; pf_report := report; pf_context := context |}.

Definition read_local : reader LocalPreparation := λ ev,
  fields ← read_fields true ["version"; "started_at_unix_ms"; "evaluation_budget"] ev;
  v ← required read_u8 (fields "version");
  started ← required read_u64 (fields "started_at_unix_ms");
  budget ← required read_budget (fields "evaluation_budget");
  Some {| version := v; started_at_unix_ms := started; evaluation_budget := budget |}.

(** ** Prepared assessments (prepared_assessment.rs) *)

Definition READY_TAG_BYTES : N := 17.

Definition INNER_LIMITS : JsonLimits :=
  {| l_bytes := MAX_PREPARED_ASSESSMENT_BYTES - READY_TAG_BYTES;
     l_nodes := MAX_PREPARED_ASSESSMENT_NODES - 1; l_depth := MAX_FIT_INPUT_DEPTH |}.

Section decode.
Context `{SerdeNumber, !RecordWriter}.

(** [SavedBlock] and [SavedAssessment] have the fields of the blocks and of the
    assessment. *)
Definition read_block : reader PreparedBlock := λ ev,
  fields ← read_fields true ["decision"; "original_input"; "input"; "request"; "report"] ev;
  decision ← required read_string (fields "decision");
  original ← required read_value (fields "original_input");
  input ← required read_value (fields "input");
  request ← required read_value (fields "request");
  report ← required read_report (fields "report");
  Some {| pb_decision := decision; pb_original_input := original; pb_input := input;
          pb_request := request; pb_report := report |}.

Definition read_saved_assessment : reader PreparedAssessment := λ ev,
  fields ← read_fields true
    ["version"; "profile"; "evaluation_budget"; "fitting_work_bytes"; "decisions"] ev;
  v ← required read_u8 (fields "version");
  profile ← required read_string (fields "profile");
  budget ← required read_budget (fields "evaluation_budget");
  work ← required read_u64 (fields "fitting_work_bytes");
  decisions ← required (read_seq read_block) (fields "decisions");
  Some {| pa_version := v; pa_profile := profile; pa_evaluation_budget := budget;
          pa_fitting_work_bytes := work; pa_decisions := decisions |}.

(** [PreparedAssessment::deserialize] *)
Definition read_prepared : reader PreparedAssessment := λ ev,
  value ← ok_option (deserialize_strict_value INNER_LIMITS ev);
  prepared ← from_value read_saved_assessment value;
  _ ← ok_option (prepared_validate prepared);
  Some prepared.

(** [PreparationRecord] *)
Definition read_record : reader PreparationRecord := λ ev,
  tagged ← read_tagged "status" ev;
  let '(name, content) := tagged in
  if String.eqb name "ready" then RecordReady <$> read_prepared content
  else if String.eqb name "local" then RecordLocal <$> read_local content
  else if String.eqb name "rejected" then RecordRejected <$> read_failure content
  else None.

(** ** Decoding *)

Context `{JsonDeserializer, !JsonMessages}.

(** The text of an error of a derived reader *)
Variable reader_message : Value → string.

Definition decode_prepared_assessment (text : string) : result PreparedAssessment PreparedAssessmentError :=
  let? value := map_err (λ e, {| prepared_message := bounded_text e |}) (decode_strict_json INNER_LIMITS text) in
  match from_value read_prepared value with
  | Some prepared => Ok prepared
  | None => prepared_error (reader_message value)
  end.

Definition invalid_record : PreparationFailure :=
  incompatible "The saved preparation is invalid or unsupported.".

(** [decode_preparation_record] (preparation.rs) *)
Definition decode_preparation_record (text : string) : result PreparationRecord PreparationFailure :=
  let? value := map_err (λ _, invalid_record) (decode_strict_json PREPARATION_LIMITS text) in
  match from_value read_record value with
  | None => Err invalid_record
  | Some r =>
      let? _ :=
        match r with
        | RecordReady prepared => map_err (λ _, invalid_record) (prepared_validate prepared)
        | RecordLocal prepared => LocalPreparation_validate_for_resume prepared
        | RecordRejected _ => Ok tt
        end in
      Ok r
  end.
End decode.
