(* ===== verification/Messages.v ===== *)
(** * Public messages (crates/antiburn-checks/src/source/messages.rs,
    source/message_validation.rs)

    The typed values that the host and the publication reader exchange: the
    builders of user messages, assistant messages and tool calls, and the closed
    grammar that every public message is validated against.  Indexing a JSON
    value for writing panics on a value that is no object; the model keeps the
    panic, and the facts on the shapes of objects are those that show that no builder reaches it. *)

From S2P Require Import Filters Domain Check BoundedJson Prepared Prelude RustString Json Context.

#[local] Open Scope N_scope.

(** ** Failures *)

(** source/mod.rs *)
Inductive SourceError :=
| InvalidObservation (message : string)
| InvalidPageSize (size : N)
| OversizedPage
| NonMonotonicCursor (previous received : PublicationCursor)
| InvalidNextCursor (expected received : PublicationCursor)
| ReaderFailed (message : string).

(** Why a computation stops: an error it returns, or a panic. *)
Inductive SourceStop := SourceFailed (e : SourceError) | SourcePanicked.

Definition checked (A : Type) : Type := result A SourceStop.

Definition source_error {A} (e : SourceError) : checked A := Err (SourceFailed e).

(** [invalid(message)] *)
Definition invalid {A} (message : string) : checked A := source_error (InvalidObservation message).

Definition ensure (b : bool) (message : string) : checked unit :=
  if b then Ok tt else invalid message.

(** [expect] *)
Definition expected {A} (o : option A) : checked A :=
  match o with Some x => Ok x | None => Err SourcePanicked end.

Section messages.
Context `{SerdeNumber}.

(** ** JSON values *)

(** [json!({...})] *)
Definition json_object (fields : list (string * Value)) : Value :=
  JObject (object_of fields).

(** [value[k1]...[kn]] for writing: null becomes an object, a missing field is
    null, and any other value panics. *)
Fixpoint index_update (path : list string) (f : Value → option Value) (v : Value) : option Value :=
  match path with
  | [] => f v
  | k :: path =>
      m ← match v with JNull => Some [] | JObject m => Some m | _ => None end;
      v' ← index_update path f (default JNull (map_get k m));
      Some (JObject (map_insert k v' m))
  end.

(** [value[k1]...[kn] = x] *)
Definition index_set (path : list string) (x : Value) : Value → option Value :=
  index_update path (λ _, Some x).

(** [if let Some(a) = o { value[k1]...[kn] = f(a); }] *)
Definition index_set_some {A} (path : list string) (f : A → Value) (o : option A) (v : Value) :
    option Value :=
  match o with Some a => index_set path (f a) v | None => Some v end.

(** [value[k1]...[kn].as_object_mut().expect(..).remove(key)] *)
Definition index_remove (path : list string) (key : string) : Value → option Value :=
  index_update path (λ v, m ← as_object v; Some (JObject (map_remove key m))).

(** [as_u64], [as_i64], [is_string], [is_boolean] *)
Definition as_u64 (v : Value) : option N :=
  match v with JNumber n => number_as_u64 n | _ => None end.
Definition as_i64 (v : Value) : option Z :=
  match v with JNumber n => number_as_i64 n | _ => None end.
Definition is_string (v : Value) : bool := is_some (as_str v).
Definition is_boolean (v : Value) : bool := is_some (as_bool v).

(** A field that is absent, or present and good. *)
Definition absent_or (p : Value → bool) (v : Value) (key : string) : bool :=
  match value_get v key with Some x => p x | None => true end.
Definition present_and (p : Value → bool) (v : Value) (key : string) : bool :=
  match value_get v key with Some x => p x | None => false end.

Definition one_of (l : list string) (s : string) : bool := existsb (String.eqb s) l.

(** [value.as_str().is_some_and(..)] *)
Definition str_and (p : string → bool) (v : Value) : bool :=
  match as_str v with Some s => p s | None => false end.

(** ** Validation *)

Definition PUBLIC_LIMITS : JsonLimits :=
  {| l_bytes := 4 * 1024 * 1024; l_nodes := 262144; l_depth := 64 |}.

Definition closed (v : Value) (fields : list string) : checked unit :=
  match as_object v with
  | None => invalid "A public record must be an object."
  | Some m => ensure (forallb (one_of fields) (map_keys m))
                "A public record contains an unknown field."
  end.

Definition required_text (v : Value) (key : string) : checked string :=
  match value_get v key ≫= as_str with
  | Some text =>
      if is_blank text then invalid "A required public identity or name is unavailable." else Ok text
  | None => invalid "A required public identity or name is unavailable."
  end.

Definition message_fields : list string :=
  ["id"; "source"; "occurred_at"; "kind"; "role"; "model"; "fast_mode"; "content"; "tool";
   "quality"; "native_order"].

Definition message_role (kind : string) : checked string :=
  if String.eqb kind "user_message" then Ok "user"
  else if String.eqb kind "assistant_message" || String.eqb kind "tool_call" then Ok "assistant"
  else if String.eqb kind "tool_result" then Ok "tool"
  else invalid "The public message kind is unavailable.".

Definition validate_envelope (message : Message) (expected_kind : string) : checked unit :=
  let value := m_value message in
  let? _ := closed value message_fields in
  let? id := required_text value "id" in
  let? matching :=
    if String.eqb id (m_id message) then
      let? kind := required_text value "kind" in Ok (String.eqb kind expected_kind)
    else Ok false in
  let? _ := ensure matching "The typed public message kind or identity does not match its value." in
  let? _ := required_text value "source" in
  let? role := message_role expected_kind in
  let? _ := ensure (present_and (str_and (String.eqb role)) value "role")
    "The public message role does not match its kind." in
  let? _ := ensure (absent_or (str_and is_model_identifier) value "model")
    "The recorded model identifier is invalid." in
  let? _ := ensure (absent_or is_boolean value "fast_mode") "Recorded mode must be a Boolean." in
  let? _ := ensure (absent_or (λ time, is_string time || is_some (as_i64 time)) value "occurred_at")
    "The source time must be a string or integer timestamp." in
  ensure (absent_or (λ order, String.eqb expected_kind "tool_result" && is_string order)
            value "native_order")
    "Only legacy results can contain a native-order string.".

Definition quality_fields : list string :=
  ["source_complete"; "tool_name_available"; "category_available"; "arguments_available";
   "result_content_available"; "request_history_complete"; "main_session"; "paths_available";
   "paths_complete"; "paths_limits"; "model_limit"; "fast_mode_limit"; "fast_mode_evidence";
   "category_limit"].

Definition quality_fact (key : string) (fact : Value) : bool :=
  if String.eqb key "paths_limits" then
    match as_array fact with Some items => forallb is_string items | None => false end
  else if one_of ["model_limit"; "fast_mode_limit"; "fast_mode_evidence"; "category_limit"] key
  then is_string fact
  else is_boolean fact.

Definition validate_quality (quality : Value) : checked unit :=
  let? _ := closed quality quality_fields in
  let? facts := expected (as_object quality) in
  ensure (forallb (λ kv, quality_fact kv.1 kv.2) facts)
    "A public quality fact has an invalid type.".

Definition outcome_fields : list string :=
  ["kind"; "state"; "exit"; "signal"; "timed_out"; "shell_id"; "error"; "session_id"].

Definition outcome_fact (key : string) (fact : Value) : bool :=
  if one_of ["timed_out"; "error"] key then is_boolean fact
  else if String.eqb key "exit" then is_some (as_i64 fact)
  else if String.eqb key "signal" then is_string fact || is_some (as_i64 fact)
  else is_string fact.

Definition validate_outcome (outcome : Value) : checked unit :=
  let? _ := closed outcome outcome_fields in
  let? facts := expected (as_object outcome) in
  ensure (forallb (λ kv, outcome_fact kv.1 kv.2) facts)
    "A native outcome fact has an invalid type.".

Definition result_statuses : list string := ["completed"; "error"; "cancelled"; "unknown"].

Definition validate_result (v : Value) : checked unit :=
  let? _ := closed v ["status"; "content"; "outcome"; "output_bytes"] in
  let? _ := ensure (present_and (str_and (one_of result_statuses)) v "status")
    "The result status is invalid." in
  let? _ := ensure (absent_or (λ size, is_some (as_u64 size)) v "output_bytes")
    "The result output size must be a nonnegative integer." in
  match value_get v "outcome" with Some outcome => validate_outcome outcome | None => Ok tt end.

Definition tool_categories : list string :=
  ["shell"; "read"; "search"; "edit"; "write"; "delegate"; "skill"; "mcp"; "other"].

Definition recorded_path_list (paths : Value) : bool :=
  match as_array paths with
  | Some items => forallb (str_and is_repository_path) items
  | None => false
  end.

Definition validate_tool (tool : Value) (kind : string) : checked unit :=
  let call := String.eqb kind "tool_call" in
  let? _ := closed tool
    ["call_id"; "name"; "category"; "arguments"; "paths"; "provider_executed"; "result"] in
  let? _ := if call || is_some (value_get tool "call_id")
            then let? _ := required_text tool "call_id" in Ok tt else Ok tt in
  let? _ := if call || is_some (value_get tool "name")
            then let? _ := required_text tool "name" in Ok tt else Ok tt in
  let? _ := ensure (absent_or (str_and (one_of tool_categories)) tool "category")
    "The tool category is invalid." in
  let? _ := ensure (absent_or is_boolean tool "provider_executed")
    "The execution flag must be a Boolean." in
  let? _ := ensure (absent_or recorded_path_list tool "paths")
    "Recorded paths must be repository-relative strings." in
  if call then
    ensure (negb (is_some (value_get tool "result"))) "A call cannot contain a result."
  else
    match value_get tool "result" with
    | Some r => validate_result r
    | None => invalid "A result requires a status."
    end.

Context `{!RecordWriter}.

Definition fits_public (v : Serial) : bool := is_ok (measure_json PUBLIC_LIMITS v).

(** [validate_public_message] *)
Definition validate_public_message (message : Message) (expected_kind : string) : checked unit :=
  let value := m_value message in
  let? _ := ensure (fits_public (value_serial value)) "The public message exceeds its bounds." in
  let? _ := validate_envelope message expected_kind in
  let? _ := match value_get value "quality" with Some q => validate_quality q | None => Ok tt end in
  if one_of ["user_message"; "assistant_message"] expected_kind then
    let? _ := ensure (present_and is_string value "content" &&
                      negb (is_some (value_get value "tool")))
      "A text message requires public content and cannot contain a tool." in
    ensure (negb (String.eqb expected_kind "user_message" &&
                  (is_some (value_get value "model") || is_some (value_get value "fast_mode"))))
      "User messages cannot have generator attribution."
  else
    let? _ := ensure (negb (is_some (value_get value "content")))
      "Tool messages cannot contain public text fields." in
    match value_get value "tool" with
    | Some tool => validate_tool tool expected_kind
    | None => invalid "A tool message requires tool facts."
    end.

(** ** Builders *)

(** [add_attribution] *)
Definition add_attribution (a : ObservedAttribution) (v : Value) : option Value :=
  v ← index_set_some ["model"] JString (oa_model a) v;
  index_set_some ["fast_mode"] JBool (oa_fast_mode a) v.

(** [text_message] *)
Definition text_message (id source content : string) (complete : bool) (kind role : string)
    (attribution : option ObservedAttribution) : checked Message :=
  let value := json_object
    [("id", JString id); ("source", JString source); ("kind", JString kind); ("role", JString role);
     ("content", JString content); ("quality", json_object [("source_complete", JBool complete)])] in
  let? value := expected (match attribution with
                          | Some a => add_attribution a value
                          | None => Some value
                          end) in
  let message := {| m_id := id; m_value := value |} in
  let? _ := validate_public_message message kind in
  Ok message.

Definition normalize_user_message (id source content : string) (complete : bool) : checked Message :=
  text_message id source content complete "user_message" "user" None.

Definition normalize_assistant_message (id source content : string) (complete : bool)
    (attribution : ObservedAttribution) : checked Message :=
  text_message id source content complete "assistant_message" "assistant" (Some attribution).

(** source/mod.rs *)
Record PublishedToolMetadata := {
  md_attribution : ObservedAttribution;
  md_fast_mode_evidence : option string;
  md_check_category : option ToolCategory;
  md_paths : option (list string);
  md_paths_complete : bool;
  md_paths_limits : list string;
  md_model_limit : option string;
  md_fast_mode_limit : option string;
  md_category_limit : option string
}.

(** The limits that [normalize] and [normalize_tool_call] copy into the quality. *)
Definition set_limits (md : PublishedToolMetadata) (v : Value) : option Value :=
  v ← index_set_some ["quality"; "model_limit"] JString (md_model_limit md) v;
  v ← index_set_some ["quality"; "fast_mode_limit"] JString (md_fast_mode_limit md) v;
  index_set_some ["quality"; "category_limit"] JString (md_category_limit md) v.

(** The evidence of a mode is kept only beside a recorded mode. *)
Definition mode_evidence (md : PublishedToolMetadata) : option string :=
  match oa_fast_mode (md_attribution md) with
  | Some _ => md_fast_mode_evidence md
  | None => None
  end.

Definition tool_call_value (id source call_id tool_name : string) (arguments : option Value)
    (md : PublishedToolMetadata) (provider_executed : option bool) (complete : bool) :
    option Value :=
  let value := json_object
    [("id", JString id); ("source", JString source); ("kind", JString "tool_call");
     ("role", JString "assistant");
     ("tool", json_object [("call_id", JString call_id); ("name", JString tool_name)]);
     ("quality", json_object
        [("source_complete", JBool complete); ("arguments_available", JBool (is_some arguments));
         ("paths_available", JBool (is_some (md_paths md)));
         ("paths_complete", JBool (is_some (md_paths md) && md_paths_complete md));
         ("paths_limits", strings_value (md_paths_limits md))])] in
  v ← index_set_some ["tool"; "arguments"] (λ x, x) arguments value;
  v ← index_set_some ["tool"; "category"] (λ c, JString (ToolCategory_as_str c))
        (md_check_category md) v;
  v ← index_set_some ["tool"; "paths"] strings_value (md_paths md) v;
  v ← index_set_some ["tool"; "provider_executed"] JBool provider_executed v;
  v ← add_attribution (md_attribution md) v;
  v ← index_set_some ["quality"; "fast_mode_evidence"] JString (mode_evidence md) v;
  set_limits md v.

Definition normalize_tool_call (id source call_id tool_name : string) (arguments : option Value)
    (md : PublishedToolMetadata) (provider_executed : option bool) (complete : bool) :
    checked Message :=
  let? value := expected (tool_call_value id source call_id tool_name arguments md
                            provider_executed complete) in
  let message := {| m_id := id; m_value := value |} in
  let? _ := validate_public_message message "tool_call" in
  Ok message.
End messages.

(** ** Shapes of JSON objects

    What the writes of the sources to a JSON object keep: a shape says which
    value a key may hold and which keys are there.  A chain of writes is shown
    to succeed, and its result to have a shape, by one lemma per write. *)

(** [some_in Q o]: there is a value, and it is in [Q]. *)
Definition some_in {A} (Q : A → Prop) (o : option A) : Prop := match o with Some a => Q a | None => False end.

Lemma some_in_bind {A B} (P : A → Prop) (Q : B → Prop) o (f : A → option B) :
  some_in P o → (∀ a, P a → some_in Q (f a)) → some_in Q (o ≫= f).
Proof. destruct o as [a|]; simpl; [auto|done]. Qed.

Lemma some_in_mono {A} (P Q : A → Prop) (o : option A) :
  some_in P o → (∀ a, P a → Q a) → some_in Q o.
Proof. destruct o as [a|]; simpl; auto. Qed.

Lemma some_in_eq {A} (Q : A → Prop) (o : option A) : some_in Q o ↔ ∃ a, o = Some a ∧ Q a.
Proof. destruct o as [a|]; simpl; [|naive_solver]. split; [eauto|by intros (? & [= ->] & ?)]. Qed.

(** ** Entries *)

Section entries.
Context {V : Type}.
Implicit Type m : Map V.

Lemma in_map_insert k (v : V) m k' v' :
  In (k', v') (map_insert k v m) → (k' = k ∧ v' = v) ∨ In (k', v') m.
Proof.
  induction m as [|[k2 v2] m IH]; simpl; [by intros [[= <- <-]|[]]; left|].
  destruct (String.eqb k k2); simpl; [intros [[= <- <-]|Hin]; auto|].
  destruct (str_lt k k2); simpl; [intros [[= <- <-]|Hin]; auto|].
  intros [[= <- <-]|Hin]; [auto|]. destruct (IH Hin) as [?|?]; auto.
Qed.

Lemma in_map_remove k m k' (v : V) : In (k', v) (map_remove k m) → k' ≠ k ∧ In (k', v) m.
Proof.
  induction m as [|[k2 v2] m IH]; simpl; [done|].
  destruct (String.eqb_spec k k2) as [->|Hne]; simpl.
  - intros Hin. destruct (IH Hin). auto.
  - intros [[= <- <-]|Hin]; [by auto|]. destruct (IH Hin). auto.
Qed.

Lemma map_get_in k m (v : V) : map_get k m = Some v → In (k, v) m.
Proof.
  induction m as [|[k2 v2] m IH]; simpl; [done|].
  destruct (String.eqb_spec k k2) as [->|Hne]; [intros [= ->]; auto|auto].
Qed.

Lemma map_get_insert_is_some k (v : V) m k' :
  is_Some (map_get k' m) → is_Some (map_get k' (map_insert k v m)).
Proof.
  intros Hs. destruct (decide (k = k')) as [->|Hne].
  - rewrite map_get_insert_eq. eauto.
  - by rewrite map_get_insert_ne.
Qed.
End entries.

(** ** Shapes *)

Section shapes.
Context `{SerdeNumber}.
Implicit Types (P : string → Value → Prop) (R : list string).

Definition shaped P R (v : Value) : Prop :=
  ∃ m, v = JObject m ∧ (∀ k x, In (k, x) m → P k x) ∧ (∀ k, In k R → is_Some (map_get k m)).

Lemma shaped_mono P P' R R' v :
  (∀ k x, P k x → P' k x) → (∀ k, In k R' → In k R) → shaped P R v → shaped P' R' v.
Proof. intros HP HR (m & -> & Hm & Hr). exists m. split; [done|]. split; auto. Qed.

(** An object that is built key by key. *)
Lemma shaped_object P R l :
  (∀ k x, In (k, x) l → P k x) → (∀ k, In k R → In k l.*1) → shaped P R (json_object l).
Proof.
  intros HP HR. unfold json_object. exists (object_of l). split; [done|]. unfold object_of.
  assert (∀ (l : list (string * Value)) m,
    (∀ k x, In (k, x) (fold_left (λ m kv, map_insert kv.1 kv.2 m) l m) → In (k, x) l ∨ In (k, x) m) ∧
    (∀ k, In k l.*1 ∨ is_Some (map_get k m) →
          is_Some (map_get k (fold_left (λ m kv, map_insert kv.1 kv.2 m) l m)))) as Hgen.
  { clear. induction l as [|[k v] l IH]; intros m; simpl; [split; [auto|intros k [[]|?]; done]|].
    destruct (IH (map_insert k v m)) as [IH1 IH2]. split.
    - intros k' x Hin. destruct (IH1 k' x Hin) as [?|Hin']; [auto|].
      apply in_map_insert in Hin' as [[-> ->]|?]; auto.
    - intros k' Hk. apply IH2. destruct Hk as [[->|?]|?]; [|auto|].
      + right. rewrite map_get_insert_eq. eauto.
      + right. by apply map_get_insert_is_some. }
  destruct (Hgen l []) as [H1 H2]. split.
  - intros k x Hin. destruct (H1 k x Hin) as [?|[]]. auto.
  - intros k Hk. apply H2. left. auto.
Qed.

Lemma shaped_get P R v k x : shaped P R v → value_get v k = Some x → P k x.
Proof. intros (m & -> & Hm & _) Hg. apply Hm, map_get_in, Hg. Qed.

Lemma shaped_required P R v k : shaped P R v → In k R → ∃ x, value_get v k = Some x ∧ P k x.
Proof.
  intros (m & -> & Hm & Hr) Hk. destruct (Hr k Hk) as [x Hx]. exists x.
  split; [done|]. by apply Hm, map_get_in.
Qed.

Lemma shaped_absent P R v k : shaped P R v → (∀ x, ¬ P k x) → value_get v k = None.
Proof. intros Hv Hn. destruct (value_get v k) as [x|] eqn:Hg; [|done]. by destruct (Hn x); eapply shaped_get. Qed.

(** Writing inside a field that is there. *)
Lemma shaped_update P R k path f v :
  shaped P R v → In k R → (∀ x, P k x → some_in (P k) (index_update path f x)) →
  some_in (shaped P R) (index_update (k :: path) f v).
Proof.
  intros (m & -> & Hm & Hr) Hk Hf. simpl.
  destruct (Hr k Hk) as [x Hx]. rewrite Hx. simpl.
  assert (P k x) as Hp by by apply Hm, map_get_in.
  specialize (Hf x Hp). destruct (index_update path f x) as [x'|]; [|done]. simpl in *.
  exists (map_insert k x' m). split; [done|]. split.
  - intros k' y Hin. apply in_map_insert in Hin as [[-> ->]|?]; auto.
  - intros k' Hk'. apply map_get_insert_is_some. auto.
Qed.

(** Writing a field. *)
Lemma shaped_set P R k x v :
  shaped P R v → P k x → some_in (shaped P R) (index_set [k] x v).
Proof.
  intros (m & -> & Hm & Hr) Hp. simpl. exists (map_insert k x m). split; [done|]. split.
  - intros k' y Hin. apply in_map_insert in Hin as [[-> ->]|?]; auto.
  - intros k' Hk'. apply map_get_insert_is_some. auto.
Qed.

Lemma shaped_set_some {A} P R k (g : A → Value) o v :
  shaped P R v → (∀ a, o = Some a → P k (g a)) → some_in (shaped P R) (index_set_some [k] g o v).
Proof. intros Hv Ho. destruct o as [a|]; [apply shaped_set; auto|done]. Qed.

Lemma shaped_set_some_in {A} P R k path (g : A → Value) o v :
  shaped P R v → In k R →
  (∀ x a, o = Some a → P k x → some_in (P k) (index_set path (g a) x)) →
  some_in (shaped P R) (index_set_some (k :: path) g o v).
Proof.
  intros Hv Hk Ho. destruct o as [a|]; [|done]. apply shaped_update; [done|done|].
  intros x Hx. by apply Ho.
Qed.

(** Removing a field. *)
Lemma shaped_remove P P' R k v :
  shaped P R v → (∀ k' x, k' ≠ k → P k' x → P' k' x) → ¬ In k R →
  some_in (shaped P' R) (index_remove [] k v).
Proof.
  intros (m & -> & Hm & Hr) HP Hk. simpl. exists (map_remove k m). split; [done|]. split.
  - intros k' y [Hne Hin]%in_map_remove. auto.
  - intros k' Hk'. rewrite map_get_remove_ne; [auto|by intros ->].
Qed.
(** The field that is written, and the others. *)
Lemma index_update_other k k' path f v v' :
  k ≠ k' → v ≠ JNull → index_update (k :: path) f v = Some v' → value_get v' k' = value_get v k'.
Proof.
  intros Hne Hn. destruct v as [| | | | |m]; simpl; try done.
  destruct (index_update path f _) as [x|]; [|done]. simpl. intros [= <-].
  unfold value_get. simpl. by apply map_get_insert_ne.
Qed.

Lemma index_update_here (Q Q' : Value → Prop) k path f v x :
  value_get v k = Some x → Q x → (∀ x, Q x → some_in Q' (index_update path f x)) →
  some_in (λ v', ∃ x', value_get v' k = Some x' ∧ Q' x') (index_update (k :: path) f v).
Proof.
  intros Hg Hx Hf. destruct v as [| | | | |m]; try done. unfold value_get in Hg. simpl in *.
  rewrite Hg. simpl. specialize (Hf x Hx). destruct (index_update path f x) as [x'|]; [|done]. simpl in *.
  exists x'. split; [|done]. unfold value_get. simpl. apply map_get_insert_eq.
Qed.
(** ** The checks of the validators *)

Lemma shaped_closed P R l v :
  shaped P R v → (∀ k x, P k x → one_of l k = true) → closed v l = Ok tt.
Proof.
  intros (m & -> & Hm & _) Hl. unfold closed. simpl. unfold ensure.
  assert (forallb (one_of l) (map_keys m) = true) as ->; [|done].
  apply forallb_forall. intros k Hk%list_elem_of_In.
  apply list_elem_of_fmap in Hk as ([k' x] & -> & Hin%list_elem_of_In). by eapply Hl, Hm.
Qed.

Lemma shaped_absent_or P R p v k :
  shaped P R v → (∀ x, P k x → p x = true) → absent_or p v k = true.
Proof.
  intros Hv Hp. unfold absent_or. destruct (value_get v k) as [x|] eqn:Hg; [|done].
  by eapply Hp, shaped_get.
Qed.

Lemma shaped_present_and P R p v k :
  shaped P R v → In k R → (∀ x, P k x → p x = true) → present_and p v k = true.
Proof.
  intros Hv Hk Hp. unfold present_and. destruct (shaped_required _ _ _ _ Hv Hk) as (x & -> & Hx). auto.
Qed.

Lemma shaped_text P R v k s :
  shaped P R v → In k R → (∀ x, P k x → x = JString s) → is_blank s = false →
  required_text v k = Ok s.
Proof.
  intros Hv Hk Hp Hs. unfold required_text.
  destruct (shaped_required _ _ _ _ Hv Hk) as (x & -> & ->%Hp). simpl. by rewrite Hs.
Qed.

Lemma shaped_entries P R p v :
  shaped P R v → (∀ k x, P k x → p k x = true) →
  ∃ m, as_object v = Some m ∧ forallb (λ kv, p kv.1 kv.2) m = true.
Proof.
  intros (m & -> & Hm & _) Hp. exists m. split; [done|]. apply forallb_forall. intros [k x] Hin. eauto.
Qed.
End shapes.
