(* ===== verification/Source.v ===== *)
(** * Source publications (crates/antiburn-checks/src/source/mod.rs,
    source/observations.rs)

    Reading one bounded page of committed publications, and the normalization of
    a published event into a source event of the checks.  The reader of the
    publications is the host's, a function of the request.  The version of an
    observation is the digest of the JSON text of its publication. *)

From S2P Require Import Prelude RustString Json Filters Domain Decision Check Context Selection BoundedJson Prepared Messages.

#[local] Open Scope N_scope.

(** ** Publications *)

Inductive EvidenceValidity := Valid | UnknownValidity | UnsafeIdentity | UnsafeOrder | UnsafeOwnership.

#[export] Instance EvidenceValidity_eq_dec : EqDecision EvidenceValidity.
Proof. solve_decision. Defined.

Inductive PublishedResultStatus :=
| PublishedCompleted | PublishedError | PublishedInterrupted | PublishedUnknown.

Definition PublishedToolMetadata_default : PublishedToolMetadata :=
  {| md_attribution := {| oa_model := None; oa_fast_mode := None |}; md_fast_mode_evidence := None;
     md_check_category := None; md_paths := None; md_paths_complete := false; md_paths_limits := [];
     md_model_limit := None; md_fast_mode_limit := None; md_category_limit := None |}.

#[export] Instance PublishedToolMetadata_eq_dec : EqDecision PublishedToolMetadata.
Proof. solve_decision. Defined.

Definition metadata_is_empty (md : PublishedToolMetadata) : bool :=
  bool_decide (md = PublishedToolMetadata_default).

Record PublicationRead := { rd_after : PublicationCursor; rd_limit : N }.

Record PublishedSourceEvidence := { pe_identity : string; pe_version : EvidenceVersion }.

Section publications.
Context `{SerdeNumber}.

Record PublishedToolResult := {
  tr_identity : string;
  tr_native_order : NativeOrderKey;
  tr_first_terminal_publication : option PublicationCursor;
  tr_revision : N;
  tr_tool_name : option string;
  tr_category : option string;
  tr_metadata : PublishedToolMetadata;
  tr_arguments : option Value;
  tr_content : option string;
  tr_outcome : option Value;
  tr_provider_executed : option bool;
  tr_status : PublishedResultStatus;
  tr_finality : bool;
  tr_payload_complete : bool;
  tr_validity : EvidenceValidity
}.

Record PublishedContext := {
  px_requests : list (string * Value);
  px_session_id : string;
  px_agent_name : string;
  px_project_root : option string;
  px_version : string;
  px_main_session : bool;
  px_complete_through_event : bool;
  px_inventories : CurrentInventories;
  px_session_selection : option ObservedAttribution
}.

Record PublishedResponseCycle := {
  cy_id : string;
  cy_status : ResponseCycleStatus;
  cy_messages : list Message;
  cy_attribution : ObservedAttribution;
  cy_native_reason : option string;
  cy_native_error_code : option string;
  cy_started_at_ms : option Z;
  cy_ended_at_ms : option Z;
  cy_dependencies : list PublishedSourceEvidence
}.

Inductive PublishedObservationPayload :=
| PayloadUserMessage (m : Message)
| PayloadAssistantMessage (m : Message)
| PayloadToolCall (m : Message)
| PayloadResponseCycle (c : PublishedResponseCycle)
| PayloadSessionStart (reason : SessionStartReason)
| PayloadSessionIdle (attachment_epoch : string) (activity_revision idle_seconds : N)
    (last_activity_at_ms : option Z).

Record PublishedObservation := {
  po_identity : string;
  po_native_order : NativeOrderKey;
  po_first_eligible_publication : option PublicationCursor;
  po_revision : N;
  po_eligible : bool;
  po_payload_complete : bool;
  po_validity : EvidenceValidity;
  po_payload : PublishedObservationPayload
}.

Inductive PublishedEvidenceChange :=
| ChangeIgnored
| ChangeUpsert (r : PublishedToolResult)
| ChangeObservation (o : PublishedObservation)
| ChangeRemoval (identity : string) (revision : N)
| ChangeCoverageRestored
| ChangeGap (reason : string)
| ChangeUnsafeUpdate (reason : string)
| ChangePartialGap (reason : string)
| ChangeSegmentReset (reason : string).

Record PublishedEvidenceEvent := {
  pv_cursor : PublicationCursor;
  pv_source_evidence_version : option EvidenceVersion;
  pv_branch : string;
  pv_context : option PublishedContext;
  pv_change : PublishedEvidenceChange
}.

Record PublishedEvidenceBatch := {
  pb_events : list PublishedEvidenceEvent;
  pb_next : PublicationCursor;
  pb_has_more : bool
}.

(** ** Source events *)

Inductive SourceEvent :=
| SourceIgnored (cursor : PublicationCursor)
| SourceObservation (cursor : PublicationCursor) (source_evidence_version : option EvidenceVersion)
    (identity : string) (revision : N) (observation : ObservationDraft)
| SourceRemoval (cursor : PublicationCursor) (identity : string) (revision : N) (branch : BranchId)
| SourceGap (cursor : PublicationCursor) (branch : BranchId) (reason : string)
| SourceUnsafeUpdate (cursor : PublicationCursor) (branch : BranchId) (reason : string)
| SourceSegmentReset (cursor : PublicationCursor) (branch : BranchId) (reason : string)
| SourceCoverageRestored (cursor : PublicationCursor) (branch : BranchId).

Record SourceBatch := {
  sb_events : list SourceEvent;
  sb_next : PublicationCursor;
  sb_has_more : bool
}.

Definition event_cursor (e : SourceEvent) : PublicationCursor :=
  match e with
  | SourceIgnored c | SourceObservation c _ _ _ _ | SourceRemoval c _ _ _ | SourceGap c _ _
  | SourceUnsafeUpdate c _ _ | SourceSegmentReset c _ _ | SourceCoverageRestored c _ => c
  end.

(** ** The JSON of a publication

    What the derived serializers emit, for the digest and for the measurement. *)
Definition opt_entry {A} (key : string) (f : A → Serial) (o : option A) : list (string * Serial) :=
  match o with Some a => [(key, f a)] | None => [] end.

Definition strings_serial (l : list string) : Serial := SerSeq (SerStr <$> l).

Definition message_serial (m : Message) : Serial :=
  SerEntries [("id", SerStr (m_id m)); ("value", value_serial (m_value m))].

Definition attribution_entries (a : ObservedAttribution) : list (string * Serial) :=
  (opt_entry "model" SerStr (oa_model a) ++ opt_entry "fast_mode" SerBool (oa_fast_mode a))%list.

Definition metadata_serial (md : PublishedToolMetadata) : Serial :=
  SerEntries
    (attribution_entries (md_attribution md) ++
     opt_entry "fast_mode_evidence" SerStr (md_fast_mode_evidence md) ++
     opt_entry "check_category" (λ c, SerUnitVariant (ToolCategory_as_str c)) (md_check_category md) ++
     opt_entry "paths" strings_serial (md_paths md) ++
     [("paths_complete", SerBool (md_paths_complete md));
      ("paths_limits", strings_serial (md_paths_limits md))] ++
     opt_entry "model_limit" SerStr (md_model_limit md) ++
     opt_entry "fast_mode_limit" SerStr (md_fast_mode_limit md) ++
     opt_entry "category_limit" SerStr (md_category_limit md))%list.

Definition result_status_serial (s : PublishedResultStatus) : Serial :=
  SerUnitVariant (match s with
                  | PublishedCompleted => "Completed" | PublishedError => "Error"
                  | PublishedInterrupted => "Interrupted" | PublishedUnknown => "Unknown"
                  end).

Definition tool_result_serial (r : PublishedToolResult) : Serial :=
  SerEntries
    ([("identity", SerStr (tr_identity r)); ("native_order", SerStr (order_key (tr_native_order r)))] ++
     opt_entry "first_terminal_publication" ser_n (tr_first_terminal_publication r) ++
     [("revision", ser_n (tr_revision r)); ("tool_name", ser_option SerStr (tr_tool_name r));
      ("category", ser_option SerStr (tr_category r))] ++
     (if metadata_is_empty (tr_metadata r) then [] else [("metadata", metadata_serial (tr_metadata r))]) ++
     [("arguments", ser_option value_serial (tr_arguments r));
      ("content", ser_option SerStr (tr_content r))] ++
     opt_entry "outcome" value_serial (tr_outcome r) ++
     opt_entry "provider_executed" SerBool (tr_provider_executed r) ++
     [("status", result_status_serial (tr_status r)); ("finality", SerBool (tr_finality r));
      ("complete", SerBool (tr_payload_complete r));
      ("selection_safe", SerBool (bool_decide (tr_validity r = Valid)))])%list.

Definition instruction_serial (i : InstructionRecord) : Serial :=
  SerEntries
    [("path", SerStr (in_path i)); ("content", SerStr (in_content i));
     ("scope", SerEntries [("root", ser_option SerStr (is_root (in_scope i)));
                           ("globs", strings_serial (is_globs (in_scope i)))]);
     ("observed_at", SerStr (in_observed_at i))].

Definition skill_serial (s : SkillRecord) : Serial :=
  SerEntries [("name", SerStr (sk_name s)); ("description", SerStr (sk_description s));
              ("path", SerStr (sk_path s))].

Definition snapshot_serial (s : InventorySnapshot) : Serial :=
  SerEntries
    (opt_entry "instructions" (λ l, SerSeq (instruction_serial <$> l)) (instructions s) ++
     [("instructions_complete", SerBool (instructions_complete s));
      ("instructions_limits", strings_serial (instructions_limits s))] ++
     opt_entry "skills" (λ l, SerSeq (skill_serial <$> l)) (skills s) ++
     [("skills_complete", SerBool (skills_complete s));
      ("skills_limits", strings_serial (skills_limits s))] ++
     opt_entry "snapshot_revision" SerStr (snapshot_revision s))%list.

Definition context_serial (c : PublishedContext) : Serial :=
  SerEntries
    ([("requests", SerSeq ((λ r, SerSeq [SerStr r.1; value_serial r.2]) <$> px_requests c));
      ("session_id", SerStr (px_session_id c)); ("agent_name", SerStr (px_agent_name c));
      ("project_root", ser_option SerStr (px_project_root c)); ("version", SerStr (px_version c));
      ("main_session", SerBool (px_main_session c));
      ("complete_through_event", SerBool (px_complete_through_event c))] ++
     (if inventories_is_empty (px_inventories c) then []
      else [("inventories", SerEntries
               [("global", snapshot_serial (inv_global (px_inventories c)));
                ("repo", snapshot_serial (inv_repo (px_inventories c)))])]) ++
     opt_entry "session_selection" (λ a, SerEntries (attribution_entries a))
       (px_session_selection c))%list.

Definition cycle_status_name (s : ResponseCycleStatus) : string :=
  match s with
  | CycleCompleted => "completed" | CycleCancelled => "cancelled" | CycleError => "error"
  end.

Definition start_reason_name (r : SessionStartReason) : string :=
  match r with StartNew => "new" | StartResumed => "resumed" | StartAttached => "attached" end.

Definition cycle_serial (c : PublishedResponseCycle) : Serial :=
  SerEntries
    [("id", SerStr (cy_id c)); ("status", SerUnitVariant (cycle_status_name (cy_status c)));
     ("messages", SerSeq (message_serial <$> cy_messages c));
     ("attribution", SerEntries (attribution_entries (cy_attribution c)));
     ("native_reason", ser_option SerStr (cy_native_reason c));
     ("native_error_code", ser_option SerStr (cy_native_error_code c));
     ("started_at_ms", ser_option SerInt (cy_started_at_ms c));
     ("ended_at_ms", ser_option SerInt (cy_ended_at_ms c));
     ("dependencies", SerSeq ((λ d, SerEntries
        [("identity", SerStr (pe_identity d));
         ("version", SerStr (evidence_version (pe_version d)))]) <$> cy_dependencies c))].

Definition payload_serial (p : PublishedObservationPayload) : Serial :=
  match p with
  | PayloadUserMessage m => SerVariant "UserMessage" (message_serial m)
  | PayloadAssistantMessage m => SerVariant "AssistantMessage" (message_serial m)
  | PayloadToolCall m => SerVariant "ToolCall" (message_serial m)
  | PayloadResponseCycle c => SerVariant "ResponseCycle" (cycle_serial c)
  | PayloadSessionStart reason =>
      SerVariant "SessionStart" (SerEntries [("reason", SerUnitVariant (start_reason_name reason))])
  | PayloadSessionIdle epoch revision seconds last =>
      SerVariant "SessionIdle" (SerEntries
        [("attachment_epoch", SerStr epoch); ("activity_revision", ser_n revision);
         ("idle_seconds", ser_n seconds); ("last_activity_at_ms", ser_option SerInt last)])
  end.

Definition validity_name (v : EvidenceValidity) : string :=
  match v with
  | Valid => "Valid" | UnknownValidity => "Unknown" | UnsafeIdentity => "UnsafeIdentity"
  | UnsafeOrder => "UnsafeOrder" | UnsafeOwnership => "UnsafeOwnership"
  end.

Definition observation_serial (o : PublishedObservation) : Serial :=
  SerEntries
    [("identity", SerStr (po_identity o)); ("native_order", SerStr (order_key (po_native_order o)));
     ("first_eligible_publication", ser_option ser_n (po_first_eligible_publication o));
     ("revision", ser_n (po_revision o)); ("eligible", SerBool (po_eligible o));
     ("payload_complete", SerBool (po_payload_complete o));
     ("validity", SerUnitVariant (validity_name (po_validity o)));
     ("payload", payload_serial (po_payload o))].
End publications.

(** ** Normalization *)

Section normalize.
Context `{SerdeNumber, !CandidateDigest, !RecordWriter}.

Definition main_context (c : PublishedContext) : bool :=
  px_main_session c && negb (is_blank (px_session_id c)) && negb (is_blank (px_agent_name c)).

(** [serde_json::to_vec], then the digest in hexadecimal. *)
Definition evidence_digest (v : Serial) : checked EvidenceVersion :=
  let '(writes, error) := record_writes v in
  match error with
  | Some message => source_error (ReaderFailed message)
  | None =>
      Ok {| evidence_version :=
              foldr (λ b s, hex_byte b +:+ s) "" (sha256 (foldr (λ w s, w +:+ s) "" writes)) |}
  end.

(** The [Debug] text of the errors; the messages hold no character to escape. *)
Definition quoted (s : string) : string :=
  String (ascii_of_N 34) (s +:+ String (ascii_of_N 34) "").
Definition debug_cursor (c : PublicationCursor) : string := "PublicationCursor(" +:+ pretty c +:+ ")".
Definition debug_error (e : SourceError) : string :=
  match e with
  | InvalidObservation m => "InvalidObservation(" +:+ quoted m +:+ ")"
  | InvalidPageSize n => "InvalidPageSize(" +:+ pretty n +:+ ")"
  | OversizedPage => "OversizedPage"
  | NonMonotonicCursor p r =>
      "NonMonotonicCursor { previous: " +:+ debug_cursor p +:+ ", received: " +:+ debug_cursor r +:+ " }"
  | InvalidNextCursor p r =>
      "InvalidNextCursor { expected: " +:+ debug_cursor p +:+ ", received: " +:+ debug_cursor r +:+ " }"
  | ReaderFailed m => "Reader(" +:+ quoted m +:+ ")"
  end.

Definition unavailable_repo : Value :=
  json_object
    [("instructions_complete", JBool false);
     ("instructions_limits", strings_value ["repository-root-unavailable"]);
     ("skills_complete", JBool false);
     ("skills_limits", strings_value ["repository-root-unavailable"])].

Definition coverage_name (complete : bool) : string := if complete then "complete" else "partial".

Definition context_dependency (version : string) : EvidenceDependency :=
  DepContext "user-messages-through-event" {| evidence_version := version |}.

(** *** Tool results

    The arm of [normalize] for an upsert. *)
Definition request_value (r : string * Value) : Value :=
  let '(id, value) := r in
  json_object
    [("id", JString id);
     ("source", default (JString "unknown") (value_get value "source"));
     ("kind", default (JString "user_message") (value_get value "kind"));
     ("text", match value_get value "text" with
              | Some text => text
              | None => default (JString "") (value_get value "content")
              end)].

Definition result_session (context : PublishedContext) : option Value :=
  let session := json_object
    [("requests", JArray (request_value <$> px_requests context));
     ("requests_complete", JBool (px_complete_through_event context));
     ("source_coverage", JString (coverage_name (px_complete_through_event context)))] in
  session ← index_set ["id"] (JString (px_session_id context)) session;
  match px_session_selection context with
  | Some selection => add_attribution selection session
  | None => Some session
  end.

Definition result_context (context : PublishedContext) : option Value :=
  session ← result_session context;
  let value := json_object [("session", session); ("agent", json_object []);
                            ("global", json_object []); ("repo", json_object [])] in
  value ← index_set ["global"] (JObject (snapshot_fields (inv_global (px_inventories context)))) value;
  value ← index_set ["repo"]
            (match px_project_root context with
             | Some _ => JObject (snapshot_fields (inv_repo (px_inventories context)))
             | None => unavailable_repo
             end) value;
  value ← index_set ["agent"; "name"] (JString (px_agent_name context)) value;
  index_set_some ["repo"; "root"] JString (px_project_root context) value.

Definition result_status_name (s : PublishedResultStatus) : string :=
  match s with
  | PublishedCompleted => "completed" | PublishedError => "error"
  | PublishedInterrupted => "cancelled" | PublishedUnknown => "unknown"
  end.

Definition result_category (r : PublishedToolResult) : option string :=
  match md_check_category (tr_metadata r) with
  | Some c => Some (ToolCategory_as_str c)
  | None => tr_category r
  end.

Definition or_null {A} (f : A → Value) (o : option A) : Value :=
  match o with Some a => f a | None => JNull end.

(** [json!] writes an absent fact as null; it is removed again below. *)
Definition result_draft (r : PublishedToolResult) (context : PublishedContext) : Value :=
  let md := tr_metadata r in
  json_object
    [("id", JString (tr_identity r)); ("source", JString (px_agent_name context));
     ("kind", JString "tool_result"); ("role", JString "tool");
     ("tool", json_object
        [("name", or_null JString (tr_tool_name r)); ("category", or_null JString (result_category r));
         ("arguments", or_null (λ x, x) (tr_arguments r));
         ("result", json_object
            [("content", or_null JString (tr_content r));
             ("status", JString (result_status_name (tr_status r)))])]);
     ("native_order", JString (order_key (tr_native_order r)));
     ("quality", json_object
        [("source_complete", JBool (tr_payload_complete r));
         ("tool_name_available", JBool (is_some (tr_tool_name r)));
         ("category_available", JBool (is_some (result_category r)));
         ("arguments_available", JBool (is_some (tr_arguments r)));
         ("result_content_available", JBool (is_some (tr_content r)));
         ("request_history_complete", JBool (px_complete_through_event context));
         ("main_session", JBool (px_main_session context));
         ("paths_available", JBool (is_some (md_paths md)));
         ("paths_complete", JBool (is_some (md_paths md) && md_paths_complete md));
         ("paths_limits", strings_value (md_paths_limits md))])].

(** [if o.is_none() { ...remove(key); }] *)
Definition remove_absent {A} (o : option A) (path : list string) (key : string) (v : Value) :
    option Value :=
  match o with None => index_remove path key v | Some _ => Some v end.

Definition result_message (r : PublishedToolResult) (context : PublishedContext) : option Value :=
  let md := tr_metadata r in
  v ← index_set_some ["model"] JString (oa_model (md_attribution md)) (result_draft r context);
  v ← index_set_some ["fast_mode"] JBool (oa_fast_mode (md_attribution md)) v;
  v ← index_set_some ["quality"; "fast_mode_evidence"] JString (mode_evidence md) v;
  v ← index_set_some ["tool"; "paths"] strings_value (md_paths md) v;
  v ← set_limits md v;
  v ← remove_absent (tr_tool_name r) ["tool"] "name" v;
  v ← remove_absent (result_category r) ["tool"] "category" v;
  v ← remove_absent (tr_arguments r) ["tool"] "arguments" v;
  v ← remove_absent (tr_content r) ["tool"; "result"] "content" v;
  v ← index_set_some ["tool"; "result"; "outcome"] (λ x, x) (tr_outcome r) v;
  index_set_some ["tool"; "provider_executed"] JBool (tr_provider_executed r) v.

(** The publication is not one that can be selected. *)
Definition unsafe_result (branch : BranchId) (context : option PublishedContext)
    (r : PublishedToolResult) : bool :=
  negb (bool_decide (tr_validity r = Valid)) ||
  negb (match context with Some c => main_context c | None => false end) ||
  is_blank (branch_id branch) || is_blank (tr_identity r) ||
  is_blank (order_key (tr_native_order r)).

Definition normalize_result (cursor : PublicationCursor) (branch : BranchId)
    (context : option PublishedContext) (source_version : option EvidenceVersion)
    (r : PublishedToolResult) : checked SourceEvent :=
  if unsafe_result branch context r then
    Ok (SourceUnsafeUpdate cursor branch
          "Source identity, main-session scope, or native order is unavailable.")
  else
    let? version := evidence_digest
      (SerSeq [SerStr (branch_id branch); tool_result_serial r; ser_option context_serial context]) in
    let? context := expected context in
    let? context_value := expected (result_context context) in
    let? message_value := expected (result_message r context) in
    let message := {| m_id := tr_identity r; m_value := message_value |} in
    Ok (SourceObservation cursor source_version (tr_identity r) (tr_revision r)
      {| dr_branch := branch; dr_native_order := tr_native_order r;
         dr_first_terminal := tr_first_terminal_publication r; dr_first_eligible := None;
         dr_version := version;
         dr_kind := if tr_finality r
                    then ToolResult message (default "" (result_category r))
                           (result_status_name (tr_status r))
                    else OtherObservation;
         dr_context := {| fc_value := context_value;
                          fc_dependencies := [context_dependency (px_version context)] |};
         dr_complete := tr_finality r && tr_payload_complete r |}).

(** *** Public observations *)

(** A request of [public_context]. *)
Definition public_request (r : string * Value) : checked Value :=
  let '(id, value) := r in
  let? source :=
    match value_get value "source" ≫= as_str with
    | Some source => if is_blank source then invalid "A request requires its source." else Ok source
    | None => invalid "A request requires its source."
    end in
  let kind := default "user_message" (value_get value "kind" ≫= as_str) in
  let? text :=
    match (match value_get value "text" with
           | Some text => Some text
           | None => value_get value "content"
           end) ≫= as_str with
    | Some text => Ok text
    | None => invalid "A request requires public text."
    end in
  let? _ := ensure (negb (is_blank id) && one_of ["user_message"; "question_answer"; "approval"] kind)
    "The request identity or kind is invalid." in
  let request := json_object
    [("id", JString id); ("source", JString source); ("kind", JString kind); ("text", JString text)] in
  match value_get value "in_reply_to" with
  | Some reply =>
      let? _ := ensure (is_string reply) "The request reply binding must be a string." in
      expected (index_set ["in_reply_to"] reply request)
  | None => Ok request
  end.

(** [iter().map(f).collect::<Result<Vec<_>, _>>()] *)
Fixpoint collect {A B} (f : A → checked B) (l : list A) : checked (list B) :=
  match l with
  | [] => Ok []
  | a :: l => let? b := f a in let? bs := collect f l in Ok (b :: bs)
  end.

Definition valid_model (a : ObservedAttribution) : bool :=
  match oa_model a with Some model => is_model_identifier model | None => true end.

Definition public_context (context : PublishedContext) : checked FrozenContext :=
  let? requests := collect public_request (px_requests context) in
  let session := json_object
    [("id", JString (px_session_id context)); ("requests", JArray requests);
     ("requests_complete", JBool (px_complete_through_event context));
     ("source_coverage", JString (coverage_name (px_complete_through_event context)))] in
  let? session :=
    match px_session_selection context with
    | Some selection =>
        let? _ := ensure (valid_model selection) "The current selection model is invalid." in
        expected (add_attribution selection session)
    | None => Ok session
    end in
  let value := json_object
    [("session", session); ("agent", json_object [("name", JString (px_agent_name context))]);
     ("global", json_object []); ("repo", json_object [])] in
  let? value := expected (merge_into (px_inventories context) value) in
  let? value := expected (match px_project_root context with
                          | Some root => index_set ["repo"; "root"] (JString root) value
                          | None => index_set ["repo"] unavailable_repo value
                          end) in
  Ok {| fc_value := value; fc_dependencies := [context_dependency (px_version context)] |}.

(** [message.value["source"].as_str() == Some(&context.agent_name)] *)
Definition from_agent (context : PublishedContext) (m : Message) : bool :=
  bool_decide (as_str (value_index (m_value m) "source") = Some (px_agent_name context)).

Definition normalize_message (published : PublishedObservation) (context : PublishedContext)
    (m : Message) (kind : string) (observation : Message → ObservationKind) :
    checked ObservationKind :=
  let? _ := validate_public_message m kind in
  let? _ := ensure (String.eqb (m_id m) (po_identity published) && from_agent context m)
    "The message does not match its publication identity or source." in
  Ok (observation m).

(** The loop over the members: their identities, in the set [members]. *)
Fixpoint cycle_members (context : PublishedContext) (messages : list Message) (members : list string) :
    checked (list string) :=
  match messages with
  | [] => Ok members
  | m :: messages =>
      let? kind := match value_get (m_value m) "kind" ≫= as_str with
                   | Some kind => Ok kind
                   | None => invalid "A cycle member has no kind."
                   end in
      let? _ := validate_public_message m kind in
      let? _ := ensure (from_agent context m) "A cycle member has a different source." in
      let? _ := ensure (negb (one_of members (m_id m)))
        "A cycle cannot repeat a current message identity." in
      cycle_members context messages (m_id m :: members)
  end.

(** The loop over the dependencies: the keys of the map [bindings]. *)
Fixpoint cycle_bindings (dependencies : list PublishedSourceEvidence) (bindings : list string) :
    checked (list string) :=
  match dependencies with
  | [] => Ok bindings
  | b :: dependencies =>
      let? _ := ensure (negb (is_blank (evidence_version (pe_version b)) ||
                              one_of bindings (pe_identity b)))
        "A cycle dependency is missing or duplicated." in
      cycle_bindings dependencies (pe_identity b :: bindings)
  end.

Definition MAX_CYCLE_MEMBERS : N := 4096.

Definition cycle_turn (context : PublishedContext) (c : PublishedResponseCycle) : checked Value :=
  let turn := json_object
    [("id", JString (cy_id c)); ("source", JString (px_agent_name context));
     ("status", JString (cycle_status_name (cy_status c)));
     ("messages", JArray (m_value <$> cy_messages c))] in
  let? turn := expected (add_attribution (cy_attribution c) turn) in
  let? _ := ensure (valid_model (cy_attribution c))
    "The cycle attribution has an invalid model identifier." in
  let number t := JNumber (number_of_i64 t) in
  expected
    (turn ← index_set_some ["started_at"] number (cy_started_at_ms c) turn;
     index_set_some ["ended_at"] number (cy_ended_at_ms c) turn).

Definition with_context (v : checked Value) (deps : list EvidenceDependency) : checked FrozenContext :=
  let? v := v in Ok {| fc_value := v; fc_dependencies := deps |}.

Definition binding_dependency (b : PublishedSourceEvidence) : EvidenceDependency :=
  SourceEvidence (pe_identity b) (pe_version b).

Definition normalize_cycle (published : PublishedObservation) (context : PublishedContext)
    (frozen : FrozenContext) (c : PublishedResponseCycle) : checked (ObservationKind * FrozenContext) :=
  let? _ := ensure
    (po_payload_complete published && String.eqb (cy_id c) (po_identity published) &&
     (0 <? N.of_nat (length (cy_messages c))) &&
     (N.of_nat (length (cy_messages c)) <=? MAX_CYCLE_MEMBERS) &&
     (N.of_nat (length (cy_dependencies c)) <=? MAX_CYCLE_MEMBERS))
    "The response cycle is incomplete or exceeds its member bound." in
  let? members := cycle_members context (cy_messages c) [] in
  let? bindings := cycle_bindings (cy_dependencies c) [] in
  let? _ := ensure (bool_decide (length members = length bindings) &&
                    forallb (one_of bindings) members)
    "The cycle requires exact current bindings for every public member." in
  let? turn := cycle_turn context c in
  let? frozen := with_context (expected (index_set ["turn"] turn (fc_value frozen)))
    (fc_dependencies frozen ++ (binding_dependency <$> cy_dependencies c))%list in
  Ok (TurnEnd turn, frozen).

Definition MIN_IDLE_SECONDS : N := 120.

(** [normalize_payload] *)
Definition normalize_payload (published : PublishedObservation) (context : PublishedContext)
    (frozen : FrozenContext) : checked (ObservationKind * FrozenContext) :=
  let message m kind observation :=
    let? k := normalize_message published context m kind observation in Ok (k, frozen) in
  match po_payload published with
  | PayloadUserMessage m => message m "user_message" UserMessage
  | PayloadAssistantMessage m => message m "assistant_message" AssistantMessage
  | PayloadToolCall m => message m "tool_call" ToolCall
  | PayloadResponseCycle c => normalize_cycle published context frozen c
  | PayloadSessionStart reason =>
      let? frozen := with_context
        (expected (index_set ["session"; "start_reason"] (JString (start_reason_name reason))
                     (fc_value frozen))) (fc_dependencies frozen) in
      Ok (SessionStart reason, frozen)
  | PayloadSessionIdle epoch revision seconds last =>
      let? _ := ensure (negb (is_blank epoch) && (MIN_IDLE_SECONDS <=? seconds))
        "An idle boundary requires an attachment and at least 120 seconds." in
      let? frozen := with_context
        (expected
          (v ← index_set ["session"; "idle_seconds"] (JNumber (number_of_u64 seconds))
                 (fc_value frozen);
           index_set_some ["session"; "last_activity_at"] (λ t, JNumber (number_of_i64 t)) last v))
        (fc_dependencies frozen ++ [SessionActivity epoch revision])%list in
      Ok (SessionIdle epoch revision seconds last, frozen)
  end.

Definition is_public_message (k : ObservationKind) : bool :=
  match k with UserMessage _ | AssistantMessage _ | ToolCall _ => true | _ => false end.

Definition unsafe_observation (cursor : PublicationCursor) (branch : BranchId)
    (o : PublishedObservation) : bool :=
  negb (bool_decide (po_validity o = Valid)) || is_blank (branch_id branch) ||
  is_blank (po_identity o) || is_blank (order_key (po_native_order o)) ||
  match po_first_eligible_publication o with Some first => cursor <? first | None => false end.

(** The end of [normalize_observation], once the kind is known. *)
Definition public_observation (cursor : PublicationCursor) (branch : BranchId)
    (source_version : option EvidenceVersion) (o : PublishedObservation) (version : EvidenceVersion)
    (kind : ObservationKind) (frozen : FrozenContext) : SourceEvent :=
  let deps := if is_public_message kind then fc_dependencies frozen
              else (fc_dependencies frozen ++ [SourceEvidence (po_identity o) version])%list in
  SourceObservation cursor source_version (po_identity o) (po_revision o)
    {| dr_branch := branch; dr_native_order := po_native_order o; dr_first_terminal := None;
       dr_first_eligible := po_first_eligible_publication o; dr_version := version;
       dr_kind := kind;
       dr_context := {| fc_value := fc_value frozen; fc_dependencies := deps |};
       dr_complete := po_eligible o && po_payload_complete o |}.

(** An error turns into an unsafe update; a panic stays one. *)
Definition or_unsafe {A} (r : checked A) (unsafe : string → SourceEvent) (prefix : string)
    (f : A → checked SourceEvent) : checked SourceEvent :=
  match r with
  | Ok x => f x
  | Err (SourceFailed e) => Ok (unsafe (prefix +:+ debug_error e))
  | Err SourcePanicked => Err SourcePanicked
  end.

Definition normalize_observation (cursor : PublicationCursor) (branch : BranchId)
    (context : option PublishedContext) (source_version : option EvidenceVersion)
    (o : PublishedObservation) : checked SourceEvent :=
  let unsafe := SourceUnsafeUpdate cursor branch in
  match context with
  | Some context =>
      if negb (main_context context) then
        Ok (unsafe "The public event lacks admitted main-session context.")
      else if unsafe_observation cursor branch o then
        Ok (unsafe "The public event lacks safe identity, ownership, or order.")
      else if negb (fits_public (SerSeq [observation_serial o; context_serial context])) then
        Ok (unsafe "The public event or context exceeds its bounds.")
      else
        let? version := evidence_digest
          (SerSeq [SerStr (branch_id branch); observation_serial o; context_serial context]) in
        or_unsafe (public_context context) unsafe "Invalid public context: " (λ frozen,
          or_unsafe
            (if po_eligible o then normalize_payload o context frozen
             else Ok (OtherObservation, frozen))
            unsafe "Invalid public event: "
            (λ '(kind, frozen), Ok (public_observation cursor branch source_version o version kind frozen)))
  | None => Ok (unsafe "The public event lacks admitted main-session context.")
  end.

(** [normalize] *)
Definition normalize (e : PublishedEvidenceEvent) : checked SourceEvent :=
  let branch := {| branch_id := pv_branch e |} in
  let cursor := pv_cursor e in
  match pv_change e with
  | ChangeIgnored => Ok (SourceIgnored cursor)
  | ChangeGap reason => Ok (SourceUnsafeUpdate cursor branch reason)
  | ChangePartialGap reason => Ok (SourceGap cursor branch reason)
  | ChangeUnsafeUpdate reason => Ok (SourceUnsafeUpdate cursor branch reason)
  | ChangeSegmentReset reason => Ok (SourceSegmentReset cursor branch reason)
  | ChangeRemoval identity revision => Ok (SourceRemoval cursor identity revision branch)
  | ChangeCoverageRestored => Ok (SourceCoverageRestored cursor branch)
  | ChangeObservation o =>
      normalize_observation cursor branch (pv_context e) (pv_source_evidence_version e) o
  | ChangeUpsert r =>
      normalize_result cursor branch (pv_context e) (pv_source_evidence_version e) r
  end.

(** [normalize_tool_result_message] *)
Definition normalize_tool_result_message (r : PublishedToolResult) (context : PublishedContext) :
    checked Message :=
  let? event := normalize
    {| pv_cursor := 0; pv_source_evidence_version := None;
       pv_branch := "public-message-normalization"; pv_context := Some context;
       pv_change := ChangeUpsert r |} in
  match event with
  | SourceObservation _ _ _ _ observation =>
      match dr_kind observation with
      | ToolResult message _ _ => Ok message
      | _ => invalid "A cycle result must be terminal."
      end
  | _ => invalid "The result lacks safe source admission."
  end.

(** ** Reading a page *)

Record PublishedEvidenceSource := {
  reader : PublicationRead → result PublishedEvidenceBatch SourceError;
  page_size : N
}.

(** [PublishedEvidenceSource::new] *)
Definition PublishedEvidenceSource_new (r : PublicationRead → result PublishedEvidenceBatch SourceError)
    (size : N) : checked PublishedEvidenceSource :=
  if (1 <=? size) && (size <=? 1000) then Ok {| reader := r; page_size := size |}
  else source_error (InvalidPageSize size).

(** The loop over the events of a page. *)
Fixpoint read_events (previous : PublicationCursor) (l : list PublishedEvidenceEvent) :
    checked (list SourceEvent * PublicationCursor) :=
  match l with
  | [] => Ok ([], previous)
  | e :: l =>
      if pv_cursor e <=? previous then source_error (NonMonotonicCursor previous (pv_cursor e))
      else
        let? event := normalize e in
        let? '(events, previous) := read_events (pv_cursor e) l in
        Ok (event :: events, previous)
  end.

(** [read_batch] *)
Definition read_batch (s : PublishedEvidenceSource) (after : PublicationCursor) :
    checked SourceBatch :=
  let? batch := map_err SourceFailed (reader s {| rd_after := after; rd_limit := page_size s |}) in
  if page_size s <? N.of_nat (length (pb_events batch)) then source_error OversizedPage
  else
    let? '(events, previous) := read_events after (pb_events batch) in
    if (pb_next batch <? previous) ||
       negb (bool_decide (events = [])) && negb (pb_next batch =? previous) then
      source_error (InvalidNextCursor previous (pb_next batch))
    else Ok {| sb_events := events; sb_next := pb_next batch; sb_has_more := pb_has_more batch |}.
End normalize.
