(* ===== verification/Results.v ===== *)
(** * Typed results (crates/antiburn-checks/src/results.rs)

    Results of questions, decisions and whole assessments, with the validation
    that binds them to their declarations and the measurement of the records
    they are saved as.  Probabilities are binary64 values.  The
    last part measures the largest result that the declarations allow. *)

From stdpp Require Import gmap sorting.
From S2P Require Import Template RustFloat Budget Provenance Scalars Prelude RustString Json Diagnostics Expression Fit BoundedJson Decision.

#[local] Open Scope N_scope.

(** ** Constants and errors *)

Definition RESULT_VERSION : N := 1.
Definition MAX_RESULT_BYTES : N := 512 * 1024.
Definition RESULT_LIMITS : JsonLimits :=
  {| l_bytes := MAX_RESULT_BYTES; l_nodes := 65536; l_depth := MAX_FIT_INPUT_DEPTH |}.

(** The binary64 value nearest to 0.02 *)
Definition PROBABILITY_SUM_TOLERANCE : f64 := S754_finite false 5764607523034235 (-58).

Record ResultError := { result_message : string }.

Definition result_error {A} (message : string) : result A ResultError :=
  Err {| result_message := message |}.

(** The two [From] impls *)
Definition from_contract {A} (r : result A DecisionContractError) : result A ResultError :=
  map_err (λ e, {| result_message := contract_message e |}) r.
Definition from_bounded {A} (r : result A BoundedJsonError) : result A ResultError :=
  map_err (λ e, {| result_message := bounded_text e |}) r.

(** ** Arithmetic of [f64] *)

Definition f64_add : f64 → f64 → f64 := SFadd 53 1024.
Definition f64_sub : f64 → f64 → f64 := SFsub 53 1024.
Definition f64_zero : f64 := S754_zero false.
Definition f64_one : f64 := f64_of_N 1.

(** [(lo..=hi).contains(&x)] *)
Definition f64_within (lo hi x : f64) : bool := SFleb lo x && SFleb x hi.

Definition validate_probability (x : f64) : result unit ResultError :=
  if negb (f64_finite x) || negb (f64_within f64_zero f64_one x) then
    result_error "Probabilities and confidence must be finite values from zero to one."
  else Ok tt.

Definition validate_confidence (confidence : option f64) : result unit ResultError :=
  match confidence with None => Ok tt | Some x => validate_probability x end.

(** The loop of [validate_distribution], with the sum so far. *)
Fixpoint distribution_sum (probabilities : list f64) (sum : f64) : result f64 ResultError :=
  match probabilities with
  | [] => Ok sum
  | p :: probabilities =>
      let? _ := validate_probability p in
      distribution_sum probabilities (f64_add sum p)
  end.

Definition validate_distribution (probabilities : list f64) : result unit ResultError :=
  let? sum := distribution_sum probabilities f64_zero in
  if SFltb PROBABILITY_SUM_TOLERANCE (SFabs (f64_sub sum f64_one)) then
    result_error "Probability sum must differ from one by no more than 0.02 under f64 arithmetic."
  else Ok tt.

(** ** Question results *)

Record ChoiceResult := {
  ch_output : string;
  ch_probabilities : option (list (string * f64));
  ch_confidence : option f64
}.

Definition choice_validate (r : ChoiceResult) (question : Question) : result unit ResultError :=
  let? _ := from_contract (question_validate question) in
  match question with
  | Choice _ criteria =>
      if negb (existsb (λ c, String.eqb c.1 (ch_output r)) criteria) then
        result_error "Choice output is not a declared label."
      else
        let? _ :=
          match ch_probabilities r with
          | None => Ok tt
          | Some probabilities =>
              if negb (N.of_nat (length probabilities) =? N.of_nat (length criteria)) ||
                 existsb (λ c, negb (map_contains c.1 probabilities)) criteria then
                result_error "Choice probabilities must match the exact declared labels."
              else validate_distribution probabilities.*2
          end in
        validate_confidence (ch_confidence r)
  | _ => result_error "Choice result requires a Choice declaration."
  end.

Definition ChoiceResult_new (question : Question) (output : string)
    (probabilities : option (list (string * f64))) (confidence : option f64) :
    result ChoiceResult ResultError :=
  let r := {| ch_output := output; ch_probabilities := probabilities; ch_confidence := confidence |} in
  let? _ := choice_validate r question in Ok r.

Record ScoreResult := {
  sc_output : f64;
  sc_probabilities : option (list f64);
  sc_confidence : option f64
}.

Definition score_validate (r : ScoreResult) (question : Question) : result unit ResultError :=
  let? _ := from_contract (question_validate question) in
  match question with
  | Score _ criteria =>
      let maximum := f64_of_N (N.of_nat (length criteria) - 1) in
      if negb (f64_finite (sc_output r)) || negb (f64_within f64_zero maximum (sc_output r)) then
        result_error "Score output must be finite and within the declared criterion range."
      else
        let? _ :=
          match sc_probabilities r with
          | None => Ok tt
          | Some probabilities =>
              if negb (N.of_nat (length probabilities) =? N.of_nat (length criteria)) then
                result_error "Score probabilities must match the declared criterion count."
              else validate_distribution probabilities
          end in
        validate_confidence (sc_confidence r)
  | _ => result_error "Score result requires a Score declaration."
  end.

Definition ScoreResult_new (question : Question) (output : f64) (probabilities : option (list f64))
    (confidence : option f64) : result ScoreResult ResultError :=
  let r := {| sc_output := output; sc_probabilities := probabilities; sc_confidence := confidence |} in
  let? _ := score_validate r question in Ok r.

Record NoulResult := { no_output : f64 }.

Definition NoulResult_new (output : f64) : result NoulResult ResultError :=
  let? _ := validate_probability output in Ok {| no_output := output |}.

Inductive QuestionResult :=
| RChoice (r : ChoiceResult)
| RScore (r : ScoreResult)
| RNoul (r : NoulResult).


Definition result_validate (r : QuestionResult) (question : Question)
    (required : QuestionRequirements) : result unit ResultError :=
  let? details :=
    match r, question with
    | RChoice r, Choice _ _ =>
        let? _ := choice_validate r question in
        Ok (is_some (ch_probabilities r), is_some (ch_confidence r))
    | RScore r, Score _ _ =>
        let? _ := score_validate r question in
        Ok (is_some (sc_probabilities r), is_some (sc_confidence r))
    | RNoul r, Noul _ => let? _ := validate_probability (no_output r) in Ok (false, false)
    | _, _ => result_error "Result type does not match the declared question."
    end in
  if (r_probabilities required && negb details.1) || (r_confidence required && negb details.2) then
    result_error "Result is missing required probability or confidence details."
  else Ok tt.

(** ** Decision results *)

Record NamedAnswer := { an_name : string; an_result : QuestionResult }.

Definition NamedAnswer_new (name : string) (r : QuestionResult) : result NamedAnswer ResultError :=
  if negb (is_identifier name) then result_error "Answer name must be a valid identifier."
  else Ok {| an_name := name; an_result := r |}.

Record DecisionResult := {
  dr_decision : string;
  dr_answers : list NamedAnswer;
  dr_attempts : N
}.

(** [sort_by_key], which is stable, by an optional position. *)
Definition key_le (x y : option N) : bool :=
  match x, y with
  | None, _ => true
  | Some _, None => false
  | Some x, Some y => x <=? y
  end.

Fixpoint insert_by {A} (key : A → option N) (x : A) (l : list A) : list A :=
  match l with
  | [] => [x]
  | y :: l' => if key_le (key x) (key y) then x :: l else y :: insert_by key x l'
  end.

Definition sort_by_key {A} (key : A → option N) (l : list A) : list A := foldr (insert_by key) [] l.

(** [iter().position(|x| name(x) == n)] *)
Fixpoint position (names : list string) (n : string) : option N :=
  match names with
  | [] => None
  | x :: names => if String.eqb x n then Some 0 else N.succ <$> position names n
  end.

Definition find_question (outputs : list NamedQuestion) (name : string) : option NamedQuestion :=
  List.find (λ q, String.eqb (q_name q) name) outputs.

(** The first loop of [validate_answers]. *)
Fixpoint required_validate (decision : string) (outputs : list NamedQuestion) (names : gset string)
    (required : list QuestionRequirements) : result unit ResultError :=
  match required with
  | [] => Ok tt
  | r :: required =>
      if bool_decide (r_question r ∈ names) then
        result_error "Question requirements must be unique."
      else
        match find_question outputs (r_question r) with
        | None => result_error "Requirements contain an undeclared question."
        | Some question =>
            let? _ := from_contract (validate_for_question r decision question) in
            required_validate decision outputs ({[ r_question r ]} ∪ names) required
        end
  end.

(** The second loop of [validate_answers]. *)
Fixpoint answers_validate (outputs : list NamedQuestion) (required : list QuestionRequirements)
    (names : gset string) (answers : list NamedAnswer) : result unit ResultError :=
  match answers with
  | [] => Ok tt
  | answer :: answers =>
      if bool_decide (an_name answer ∈ names) then result_error "Answer names must be unique."
      else
        match find_question outputs (an_name answer) with
        | None => result_error "Answer contains an undeclared question."
        | Some question =>
            match List.find (λ r, String.eqb (r_question r) (an_name answer)) required with
            | None => result_error "Answer requirements are missing."
            | Some r =>
                let? _ := result_validate (an_result answer) (q_question question) r in
                answers_validate outputs required ({[ an_name answer ]} ∪ names) answers
            end
        end
  end.

(** ** Saved records

    What the derived [Serialize] emits.  [QuestionResult] is tagged by a field
    [type] in front of the fields of its content. *)
Definition optional_field (name : string) (v : option Serial) : list (string * Serial) :=
  match v with Some v => [(name, v)] | None => [] end.

Definition question_result_serial (r : QuestionResult) : Serial :=
  match r with
  | RChoice r =>
      SerEntries (("type", SerStr "choice") :: ("output", SerStr (ch_output r)) ::
        (optional_field "probabilities"
           ((λ l, SerEntries ((λ kv, (kv.1, SerF64 kv.2)) <$> l)) <$> ch_probabilities r) ++
         optional_field "confidence" (SerF64 <$> ch_confidence r))%list)
  | RScore r =>
      SerEntries (("type", SerStr "score") :: ("output", SerF64 (sc_output r)) ::
        (optional_field "probabilities" ((λ l, SerSeq (SerF64 <$> l)) <$> sc_probabilities r) ++
         optional_field "confidence" (SerF64 <$> sc_confidence r))%list)
  | RNoul r => SerEntries [("type", SerStr "noul"); ("output", SerF64 (no_output r))]
  end.

Definition decision_result_serial (r : DecisionResult) : Serial :=
  SerEntries
    [("decision", SerStr (dr_decision r));
     ("answers", SerSeq ((λ a, SerEntries [("name", SerStr (an_name a));
                                           ("result", question_result_serial (an_result a))])
                          <$> dr_answers r));
     ("attempts", SerInt (Z.of_N (dr_attempts r)))].

Definition assessment_serial (version : N) (decisions : list DecisionResult) (attempts : N) : Serial :=
  SerEntries [("version", SerInt (Z.of_N version));
              ("decisions", SerSeq (decision_result_serial <$> decisions));
              ("attempts", SerInt (Z.of_N attempts))].

(** [try_fold] with [checked_add] *)
Fixpoint sum_attempts (decisions : list DecisionResult) (total : N) : result N ResultError :=
  match decisions with
  | [] => Ok total
  | d :: decisions =>
      if U64_MAX <? total + dr_attempts d then
        result_error "Assessment attempt total overflowed."
      else sum_attempts decisions (total + dr_attempts d)
  end.

Definition total_attempts (decisions : list DecisionResult) : result N ResultError :=
  sum_attempts decisions 0.

Section saved.
Context `{!RecordWriter}.

Definition measure_decision_results_with_next (results : list DecisionResult)
    (next : DecisionResult) : result JsonMeasurement ResultError :=
  if existsb (λ r, String.eqb (dr_decision r) (dr_decision next)) results then
    result_error "Decision results must be unique."
  else
    let? total := total_attempts results in
    if U64_MAX <? total + dr_attempts next then
      result_error "Assessment attempt total overflowed."
    else
      from_bounded (measure_json RESULT_LIMITS
        (assessment_serial RESULT_VERSION (results ++ [next])%list (total + dr_attempts next))).

Context `{SerdeNumber}.

Definition validate_answers (declaration : DecisionBlock) (requirements : list QuestionRequirements)
    (answers : list NamedAnswer) (attempts : N) : result unit ResultError :=
  let? _ := from_contract (block_validate declaration) in
  if negb ((1 <=? attempts) && (attempts <=? 2)) then
    result_error "Decision attempts must be one or two."
  else if negb (N.of_nat (length answers) =? N.of_nat (length (d_outputs declaration))) then
    result_error "Answers must match the exact declared question set."
  else
    let required := List.filter (λ r, String.eqb (r_decision r) (d_name declaration)) requirements in
    if negb (N.of_nat (length required) =? N.of_nat (length (d_outputs declaration))) then
      result_error "Requirements must match the exact declared question set."
    else
      let? _ := required_validate (d_name declaration) (d_outputs declaration) ∅ required in
      answers_validate (d_outputs declaration) required ∅ answers.

Definition DecisionResult_new (declaration : DecisionBlock) (requirements : list QuestionRequirements)
    (answers : list NamedAnswer) (attempts : N) : result DecisionResult ResultError :=
  let? _ := validate_answers declaration requirements answers attempts in
  let r :=
    {| dr_decision := d_name declaration;
       dr_answers := sort_by_key (λ a, position (q_name <$> d_outputs declaration) (an_name a)) answers;
       dr_attempts := attempts |} in
  let? _ := measure_decision_results_with_next [] r in
  Ok r.

Definition result_validate_for_declaration (r : DecisionResult) (declaration : DecisionBlock)
    (requirements : list QuestionRequirements) : result unit ResultError :=
  if negb (String.eqb (dr_decision r) (d_name declaration)) then
    result_error "Decision result does not match the declared block."
  else
    let? _ := validate_answers declaration requirements (dr_answers r) (dr_attempts r) in
    if existsb (λ p, negb (String.eqb (an_name p.1) (q_name p.2)))
         (zip (dr_answers r) (d_outputs declaration)) then
      result_error "Answers must follow declared question order."
    else
      let? _ := measure_decision_results_with_next [] r in Ok tt.

(** ** Assessments *)

Record EvaluatedAssessment := {
  as_version : N;
  as_decisions : list DecisionResult;
  as_attempts : N
}.

Definition EvaluatedAssessment_local : EvaluatedAssessment :=
  {| as_version := RESULT_VERSION; as_decisions := []; as_attempts := 0 |}.

(** The record that an assessment is saved as *)
Definition assessment_record (a : EvaluatedAssessment) : Serial :=
  assessment_serial (as_version a) (as_decisions a) (as_attempts a).

Definition measure_results (a : EvaluatedAssessment) : result JsonMeasurement ResultError :=
  from_bounded (measure_json RESULT_LIMITS
    (assessment_serial (as_version a) (as_decisions a) (as_attempts a))).

(** The indices by name; the last declaration of a name wins. *)
Definition decision_index (declarations : list DecisionBlock) (name : string) : option N :=
  (λ i, N.of_nat (length declarations) - 1 - i) <$>
    position (reverse (d_name <$> declarations)) name.

(** The loop of [EvaluatedAssessment::new].  The index is always one of the
    declarations ([ResultFacts.decision_index_declared]), so the access of the
    source cannot panic and the branch for a miss is never taken. *)
Fixpoint decisions_validate (declarations : list DecisionBlock)
    (requirements : list QuestionRequirements) (names : gset string)
    (decisions : list DecisionResult) : result unit ResultError :=
  match decisions with
  | [] => Ok tt
  | d :: decisions =>
      if bool_decide (dr_decision d ∈ names) then result_error "Decision results must be unique."
      else
        match decision_index declarations (dr_decision d) with
        | None => result_error "Results contain an undeclared decision."
        | Some index =>
            match declarations !! N.to_nat index with
            | None => result_error "panic"
            | Some declaration =>
                let? _ := result_validate_for_declaration d declaration requirements in
                decisions_validate declarations requirements ({[ dr_decision d ]} ∪ names) decisions
            end
        end
  end.

Definition EvaluatedAssessment_new (declarations : list DecisionBlock)
    (requirements : list QuestionRequirements) (decisions : list DecisionResult) :
    result EvaluatedAssessment ResultError :=
  let? _ := from_contract (validate_requirements declarations requirements) in
  if negb (N.of_nat (length decisions) =? N.of_nat (length declarations)) then
    result_error "Results must match the exact declared decision set."
  else
    let? _ := decisions_validate declarations requirements ∅ decisions in
    let? attempts := total_attempts decisions in
    let a :=
      {| as_version := RESULT_VERSION;
         as_decisions := sort_by_key (λ d, decision_index declarations (dr_decision d)) decisions;
         as_attempts := attempts |} in
    let? _ := measure_results a in
    Ok a.

(** The loop over results and declarations. *)
Fixpoint pairs_validate (requirements : list QuestionRequirements) (decisions : list DecisionResult)
    (declarations : list DecisionBlock) : result unit ResultError :=
  match decisions, declarations with
  | d :: decisions, declaration :: declarations =>
      let? _ := result_validate_for_declaration d declaration requirements in
      pairs_validate requirements decisions declarations
  | _, _ => Ok tt
  end.

Definition validate_for_declarations (a : EvaluatedAssessment) (declarations : list DecisionBlock)
    (requirements : list QuestionRequirements) : result unit ResultError :=
  let? _ := from_contract (validate_requirements declarations requirements) in
  if negb (as_version a =? RESULT_VERSION) then
    result_error "Saved result version is unsupported."
  else if negb (N.of_nat (length (as_decisions a)) =? N.of_nat (length declarations)) then
    result_error "Results must match the exact declared decision set."
  else
    let? _ := pairs_validate requirements (as_decisions a) declarations in
    let? total := total_attempts (as_decisions a) in
    if negb (as_attempts a =? total) then
      result_error "Assessment attempt total does not match its decision results."
    else
      let? _ := measure_results a in Ok tt.
End saved.

(** ** Result capacity (crates/antiburn-checks/src/results/capacity.rs)

    Before anything is sent, the largest result that the declarations allow is
    measured against the limits of a saved assessment: every optional detail is
    present, the longest label is chosen, and a text of 32 bytes stands for each
    number. *)

Definition NUMBER_RESERVATION : string := "00000000000000000000000000000000".

(** [max_by_key(|label| label.len())]: the last of the longest labels. *)
Definition longest_label (labels : list string) : option string :=
  fold_left (λ best l,
    match best with
    | None => Some l
    | Some b => if str_len l <? str_len b then best else Some l
    end) labels None.

Definition reserved_number : Serial := SerStr NUMBER_RESERVATION.

(** The message of a custom serialization error, or the record. *)
Definition question_capacity (q : Question) : result Serial string :=
  match q with
  | Choice _ criteria =>
      match longest_label criteria.*1 with
      | None => Err "Choice criteria are missing."
      | Some longest =>
          Ok (SerEntries
            [("type", SerStr "choice"); ("output", SerStr longest);
             ("probabilities", SerEntries ((λ c, (c.1, reserved_number)) <$> criteria));
             ("confidence", reserved_number)])
      end
  | Score _ criteria =>
      Ok (SerEntries
        [("type", SerStr "score"); ("output", reserved_number);
         ("probabilities", SerSeq ((λ _, reserved_number) <$> criteria));
         ("confidence", reserved_number)])
  | Noul _ => Ok (SerEntries [("type", SerStr "noul"); ("output", reserved_number)])
  end.

(** A sequence stops at the first error of an element. *)
Definition answer_capacity (q : NamedQuestion) : result Serial string :=
  let? r := question_capacity (q_question q) in
  Ok (SerEntries [("name", SerStr (q_name q)); ("result", r)]).

Section capacity.
Context `{SerdeNumber, !RecordWriter}.

Definition decision_capacity (d : DecisionBlock) : result Serial string :=
  let? answers := results_of answer_capacity (d_outputs d) in
  Ok (SerEntries [("decision", SerStr (d_name d)); ("answers", SerSeq answers);
                  ("attempts", SerInt 2)]).

Definition assessment_capacity (declarations : list DecisionBlock) : result Serial string :=
  let? decisions := results_of decision_capacity declarations in
  Ok (SerEntries [("version", SerInt (Z.of_N RESULT_VERSION)); ("decisions", SerSeq decisions);
                  ("attempts", SerInt (Z.of_N U64_MAX))]).

(** The error of a missing criterion cannot happen after the validation of the
    declarations. *)
Definition measure_result_capacity (declarations : list DecisionBlock)
    (requirements : list QuestionRequirements) : result JsonMeasurement ResultError :=
  let? _ := from_contract (validate_requirements declarations requirements) in
  from_bounded
    match assessment_capacity declarations with
    | Err message => Err (ESerialization message)
    | Ok record => measure_json RESULT_LIMITS record
    end.
End capacity.
