(* ===== verification/ResultFacts.v ===== *)
(** * Facts about results

    Validation does not depend on the order of answers and results, and the
    constructors sort them into the declared order, so that what a constructor
    returns passes the validation of saved results. *)

From stdpp Require Import gmap sorting.
From S2P Require Import Prelude RustString Diagnostics Expression Template Decision Check Json Budget Provenance Scalars Fit BoundedJson Results.

#[local] Open Scope N_scope.

(** ** Sorting by declared position *)

Lemma position_lookup names n i :
  NoDup names → position names n = Some i ↔ names !! N.to_nat i = Some n.
Proof.
  revert i. induction names as [|x names IH]; intros i Hn; simpl; [done|].
  apply NoDup_cons in Hn as [Hx Hn]. destruct (String.eqb_spec x n) as [->|Hne].
  - split; [by intros [= <-]|]. destruct (N.to_nat i) eqn:Ei; [intros _; f_equal; lia|].
    simpl. intros Hl. destruct Hx. by eapply list_elem_of_lookup_2.
  - rewrite fmap_Some. split.
    + intros (j & Hj%IH & ->); [|done]. by rewrite N2Nat.inj_succ.
    + destruct (N.to_nat i) as [|j] eqn:Ei; simpl; [congruence|]. intros Hl.
      exists (N.pred i). split; [|lia]. apply IH; [done|]. by replace (N.to_nat (N.pred i)) with j by lia.
Qed.

Lemma position_elem names n : n ∈ names → is_Some (position names n).
Proof.
  induction names as [|x names IH]; simpl; [by intros ?%elem_of_nil|].
  rewrite elem_of_cons. destruct (String.eqb_spec x n) as [->|Hne]; [eauto|].
  intros [->|Hn]; [done|]. destruct (IH Hn) as [i ->]. eauto.
Qed.

#[local] Instance key_le_trans : Transitive (λ x y, key_le x y = true).
Proof. intros [x|] [y|] [z|]; simpl; try done. rewrite !N.leb_le. lia. Qed.
#[local] Instance key_le_antisym : AntiSymm (=) (λ x y, key_le x y = true).
Proof. intros [x|] [y|]; simpl; try done. rewrite !N.leb_le. intros. f_equal. lia. Qed.

Lemma key_le_total x y : key_le x y = false → key_le y x = true.
Proof. destruct x, y; simpl; try done. rewrite N.leb_gt, N.leb_le. lia. Qed.

Section sort.
Context {A : Type} (key : A → option N).

Definition by_key : relation A := λ x y, key_le (key x) (key y) = true.

Lemma insert_by_perm x l : insert_by key x l ≡ₚ x :: l.
Proof.
  induction l as [|y l IH]; simpl; [done|]. destruct (key_le _ _); [done|]. rewrite IH. by constructor.
Qed.

Lemma sort_by_key_perm l : sort_by_key key l ≡ₚ l.
Proof. induction l as [|x l IH]; simpl; [done|]. by rewrite insert_by_perm, IH. Qed.

Lemma insert_by_sorted x l : Sorted by_key l → Sorted by_key (insert_by key x l).
Proof.
  induction 1 as [|y l Hl IH Hy]; simpl; [by repeat constructor|].
  destruct (key_le (key x) (key y)) eqn:E; [by repeat constructor|].
  constructor; [done|]. apply key_le_total in E.
  destruct Hy as [|z l Hz]; simpl; [by constructor|]. by destruct (key_le (key x) (key z)); constructor.
Qed.

Lemma sort_by_key_sorted l : Sorted by_key (sort_by_key key l).
Proof. induction l; simpl; [constructor|by apply insert_by_sorted]. Qed.
End sort.

Lemma positions_sorted key order :
  NoDup order → (∀ n, n ∈ order → key n = position order n) → Sorted (by_key key) order.
Proof.
  intros Hn Hkey.
  assert (∀ post pre, order = (pre ++ post)%list → Sorted (by_key key) post) as Hs;
    [|by apply (Hs order [])].
  assert (∀ pre x post, order = (pre ++ x :: post)%list → key x = Some (N.of_nat (length pre))) as Hat.
  { intros pre x post Ho. rewrite Hkey by (rewrite Ho; set_solver).
    apply position_lookup; [done|]. rewrite Nat2N.id, Ho. by apply list_lookup_middle. }
  induction post as [|x post IH]; intros pre Ho; [constructor|].
  assert (order = ((pre ++ [x]) ++ post)%list) as Ho' by (by rewrite <- app_assoc).
  constructor; [by eapply IH|]. destruct post as [|y post]; constructor.
  unfold by_key. rewrite (Hat _ _ _ Ho), (Hat _ _ _ Ho'). simpl. apply N.leb_le.
  rewrite length_app. simpl. lia.
Qed.

Lemma sorted_fmap {A} (key : A → option N) l :
  Sorted (by_key key) l → Sorted (λ x y, key_le x y = true) (key <$> l).
Proof. induction 1 as [|x l Hl IH Hx]; constructor; [done|]. by destruct Hx; constructor. Qed.

Lemma fmap_undo {A B} (f : A → B) (g : B → A) (l : list A) : (∀ x, x ∈ l → g (f x) = x) → g <$> (f <$> l) = l.
Proof.
  intros Hg. induction l as [|x l IH]; [done|]. csimpl. rewrite Hg by set_solver.
  f_equal. apply IH. intros y Hy. apply Hg. set_solver.
Qed.

(** A sort by position puts names into the order of the positions. *)
Lemma sort_by_position {A} (name : A → string) key order (l : list A) :
  NoDup order → (∀ n, n ∈ order → key n = position order n) → name <$> l ≡ₚ order →
  name <$> sort_by_key (λ a, key (name a)) l = order.
Proof.
  intros Hn Hkey Hp. set (s := sort_by_key (λ a, key (name a)) l).
  assert (name <$> s ≡ₚ order) as Hs by (rewrite <- Hp; apply fmap_Permutation, sort_by_key_perm).
  set (undo := λ k : option N, default "" (k ≫= λ i, order !! N.to_nat i)).
  assert (∀ x, x ∈ order → undo (key x) = x) as Hundo.
  { intros x Hx. rewrite Hkey by done. destruct (position_elem order x Hx) as [i Hi].
    unfold undo. rewrite Hi. simpl. apply position_lookup in Hi; [|done]. by rewrite Hi. }
  rewrite <- (fmap_undo key undo (name <$> s)) by (intros x; rewrite Hs; apply Hundo).
  rewrite <- (fmap_undo key undo order) by done. f_equal.
  apply (Sorted_unique (λ x y, key_le x y = true)).
  - rewrite <- list_fmap_compose. apply (sorted_fmap (λ a, key (name a))), sort_by_key_sorted.
  - by apply sorted_fmap, positions_sorted.
  - by apply fmap_Permutation.
Qed.

(** ** What validation decides *)

Section validation.
Context `{SerdeNumber}.

Definition answer_ok (outputs : list NamedQuestion) (required : list QuestionRequirements)
    (a : NamedAnswer) : Prop :=
  ∃ q r, find_question outputs (an_name a) = Some q ∧
         List.find (λ r, String.eqb (r_question r) (an_name a)) required = Some r ∧
         result_validate (an_result a) (q_question q) r = Ok tt.

Lemma answers_validate_correct outputs required answers : ∀ names,
  answers_validate outputs required names answers = Ok tt ↔
  NoDup (an_name <$> answers) ∧ (∀ x, x ∈ an_name <$> answers → x ∉ names) ∧
  Forall (answer_ok outputs required) answers.
Proof.
  induction answers as [|a answers IH]; intros names; simpl.
  { split; [|done]. intros _. split_and!; [constructor|by intros x ?%elem_of_nil|constructor]. }
  rewrite NoDup_cons, Forall_cons. case_bool_decide as Ha.
  { split; [done|]. intros (_ & Hn & _). destruct (Hn (an_name a)); [by left|done]. }
  unfold answer_ok at 1.
  destruct (find_question outputs (an_name a)) as [q|]; [|split; [done|]; by intros (_ & _ & (? & ? & [=] & _) & _)].
  destruct (List.find _ required) as [r|]; [|split; [done|]; by intros (_ & _ & (? & ? & _ & [=] & _) & _)].
  destruct (result_validate _ _ _) as [[]|e] eqn:Er; simpl.
  - rewrite IH. split.
    + intros (Hn & Hx & Hf). split_and!; try done.
      * intros Hin. destruct (Hx _ Hin). by apply elem_of_union_l, elem_of_singleton.
      * intros x. rewrite elem_of_cons. intros [->|Hin]; [done|]. specialize (Hx x Hin). set_solver.
      * eauto.
    + intros ([Hna Hn] & Hx & _ & Hf). split_and!; [done| |done]. intros x Hin.
      specialize (Hx x ltac:(by right)). rewrite not_elem_of_union, not_elem_of_singleton.
      split; [|done]. by intros ->.
  - split; [done|]. intros (_ & _ & (q' & r' & [= <-] & [= <-] & Hr) & _). congruence.
Qed.

Lemma answers_validate_perm outputs required answers answers' :
  answers ≡ₚ answers' →
  answers_validate outputs required ∅ answers = Ok tt →
  answers_validate outputs required ∅ answers' = Ok tt.
Proof.
  intros Hp. rewrite !answers_validate_correct. intros (Hn & _ & Hf). split_and!.
  - by rewrite <- Hp.
  - set_solver.
  - by rewrite <- Hp.
Qed.

Lemma find_question_elem outputs n q :
  find_question outputs n = Some q → n ∈ q_name <$> outputs.
Proof.
  intros [Hin Heq]%List.find_some. apply String.eqb_eq in Heq as <-.
  apply list_elem_of_fmap_2. by apply list_elem_of_In.
Qed.

Lemma names_perm (l k : list string) :
  NoDup l → (∀ x, x ∈ l → x ∈ k) → length l = length k → l ≡ₚ k.
Proof.
  intros Hl Hin Hlen. apply NoDup_Permutation_bis; [by apply NoDup_ListNoDup|lia|].
  intros x. rewrite <- !list_elem_of_In. apply Hin.
Qed.

(** Accepted answers are a permutation of the declared questions. *)
Lemma answers_names declaration requirements answers attempts :
  validate_answers declaration requirements answers attempts = Ok tt →
  NoDup (q_name <$> d_outputs declaration) ∧ an_name <$> answers ≡ₚ q_name <$> d_outputs declaration.
Proof.
  unfold validate_answers. destruct (block_validate declaration) as [[]|] eqn:Eb; [|done]. simpl.
  apply block_validate_correct in Eb as (_ & _ & Hn & _). destruct (negb (_ && _)); [done|].
  destruct (negb (_ =? _)) eqn:El; [done|]. apply negb_false_iff, N.eqb_eq in El.
  destruct (negb _); [done|]. destruct (required_validate _ _ _ _) as [[]|]; [|done]. simpl.
  rewrite answers_validate_correct. intros (Ha & _ & Hf). split; [done|].
  apply names_perm; [done| |rewrite !length_fmap; lia].
  intros x (a & -> & Hin)%list_elem_of_fmap. rewrite Forall_forall in Hf.
  destruct (Hf a Hin) as (q & r & Hq & _). by eapply find_question_elem.
Qed.

Lemma validate_answers_perm declaration requirements answers answers' attempts :
  answers ≡ₚ answers' → validate_answers declaration requirements answers attempts = Ok tt →
  validate_answers declaration requirements answers' attempts = Ok tt.
Proof.
  intros Hp. unfold validate_answers. rewrite (Permutation_length Hp).
  destruct (from_contract _); [|done]. simpl. destruct (negb (_ && _)); [done|].
  destruct (negb (_ =? _)); [done|]. destruct (negb _); [done|].
  destruct (required_validate _ _ _ _); [|done]. simpl. by apply answers_validate_perm.
Qed.

Context `{!RecordWriter}.

Lemma zip_names (answers : list NamedAnswer) (outputs : list NamedQuestion) :
  an_name <$> answers = q_name <$> outputs →
  existsb (λ p, negb (String.eqb (an_name p.1) (q_name p.2))) (zip answers outputs) = false.
Proof.
  revert outputs. induction answers as [|a answers IH]; intros [|q outputs]; csimpl; try done.
  intros [= Hn Hl]. rewrite Hn, String.eqb_refl. simpl. by apply IH.
Qed.

(** What the constructor returns is accepted when it is read back. *)
Lemma decision_result_revalidates declaration requirements answers attempts r :
  DecisionResult_new declaration requirements answers attempts = Ok r →
  result_validate_for_declaration r declaration requirements = Ok tt ∧
  an_name <$> dr_answers r = q_name <$> d_outputs declaration ∧ dr_answers r ≡ₚ answers ∧
  dr_attempts r = attempts.
Proof.
  unfold DecisionResult_new, result_validate_for_declaration.
  destruct (validate_answers _ _ answers _) as [[]|] eqn:Ev; [|done]. simpl.
  set (sorted := sort_by_key _ answers). set (r0 := {| dr_decision := _ |}).
  destruct (measure_decision_results_with_next [] r0) eqn:Em; [|done]. simpl. intros [= <-].
  pose proof (answers_names _ _ _ _ Ev) as [Hn Hp].
  assert (an_name <$> sorted = q_name <$> d_outputs declaration) as Hs
    by (by apply (sort_by_position an_name (position (q_name <$> d_outputs declaration)))).
  assert (sorted ≡ₚ answers) as Hsp by apply sort_by_key_perm.
  split_and!; [|done|done|done]. cbn [dr_decision dr_answers dr_attempts r0].
  rewrite String.eqb_refl. simpl. rewrite (validate_answers_perm _ _ answers sorted) by done.
  simpl. rewrite zip_names by done. by rewrite Em.
Qed.
End validation.

(** ** Assessments *)

Section assessments.
Context `{SerdeNumber, !RecordWriter}.

Lemma decision_index_position ds n :
  NoDup (d_name <$> ds) → decision_index ds n = position (d_name <$> ds) n.
Proof.
  intros Hn. unfold decision_index. set (names := d_name <$> ds) in *.
  assert (NoDup (reverse names)) as Hr by (by rewrite reverse_Permutation).
  assert (length names = length ds) as Hlen by apply length_fmap.
  apply option_eq. intros i. rewrite fmap_Some, position_lookup by done. split.
  - intros (j & Hj & ->). apply position_lookup in Hj; [|done].
    pose proof (lookup_lt_Some _ _ _ Hj) as Hlt. rewrite length_reverse in Hlt.
    rewrite reverse_lookup in Hj by done. rewrite <- Hj. f_equal. lia.
  - intros Hi. pose proof (lookup_lt_Some _ _ _ Hi) as Hlt.
    exists (N.of_nat (length ds) - 1 - i). split; [|lia]. apply position_lookup; [done|].
    rewrite reverse_lookup by lia. rewrite <- Hi. f_equal. lia.
Qed.

(** The index is that of a declaration: the access in the constructor's loop
    never misses. *)
Lemma decision_index_declared ds n i : decision_index ds n = Some i → is_Some (ds !! N.to_nat i).
Proof.
  unfold decision_index. intros (j & Hj & ->)%fmap_Some. apply lookup_lt_is_Some.
  destruct ds; [done|simpl; lia].
Qed.

(** A decision result that is valid for the declaration of its name. *)
Definition decision_ok (ds : list DecisionBlock) (rs : list QuestionRequirements)
    (d : DecisionResult) : Prop :=
  ∃ declaration, declaration ∈ ds ∧ result_validate_for_declaration d declaration rs = Ok tt.

Lemma validated_name d declaration rs :
  result_validate_for_declaration d declaration rs = Ok tt → dr_decision d = d_name declaration.
Proof.
  unfold result_validate_for_declaration. destruct (String.eqb_spec (dr_decision d) (d_name declaration)); done.
Qed.

Lemma decisions_validate_names ds rs decisions : ∀ names,
  decisions_validate ds rs names decisions = Ok tt →
  NoDup (dr_decision <$> decisions) ∧ (∀ x, x ∈ dr_decision <$> decisions → x ∉ names) ∧
  Forall (decision_ok ds rs) decisions.
Proof.
  induction decisions as [|d decisions IH]; intros names; simpl.
  { intros _. split_and!; [constructor|by intros x ?%elem_of_nil|constructor]. }
  case_bool_decide as Hd; [done|]. destruct (decision_index ds (dr_decision d)) as [i|]; [|done].
  destruct (ds !! N.to_nat i) as [declaration|] eqn:El; [|done].
  destruct (result_validate_for_declaration d declaration rs) as [[]|] eqn:Ev; [|done]. simpl.
  intros (Hn & Hx & Hf)%IH. rewrite NoDup_cons, Forall_cons. split_and!; try done.
  - intros Hin. destruct (Hx _ Hin). by apply elem_of_union_l, elem_of_singleton.
  - intros x. rewrite elem_of_cons. intros [->|Hin]; [done|]. specialize (Hx x Hin). set_solver.
  - exists declaration. split; [by eapply list_elem_of_lookup_2|done].
Qed.

Lemma decision_ok_name ds rs d : decision_ok ds rs d → dr_decision d ∈ d_name <$> ds.
Proof.
  intros (declaration & Hin & Hv). rewrite (validated_name _ _ _ Hv). by apply list_elem_of_fmap_2.
Qed.

(** Results in declared order pass the pairwise validation. *)
Lemma pairs_validate_ordered all rs decisions ds :
  NoDup (d_name <$> all) → (∀ d, d ∈ ds → d ∈ all) → dr_decision <$> decisions = d_name <$> ds →
  Forall (decision_ok all rs) decisions → pairs_validate rs decisions ds = Ok tt.
Proof.
  intros Hall. revert ds. induction decisions as [|d decisions IH]; intros [|declaration ds]; csimpl; try done.
  intros Hin [= Hd Hds] [(declaration' & Hin' & Hv) Hf]%Forall_cons.
  assert (declaration' = declaration) as ->.
  { pose proof (validated_name _ _ _ Hv) as Hname. rewrite Hd in Hname.
    apply list_elem_of_lookup in Hin' as [i Hi].
    destruct (proj1 (list_elem_of_lookup _ _) (Hin declaration ltac:(by left))) as [j Hj].
    assert (i = j) as ->; [|congruence]. apply (NoDup_lookup _ _ _ (d_name declaration) Hall).
    - by rewrite list_lookup_fmap, Hi, Hname.
    - by rewrite list_lookup_fmap, Hj. }
  rewrite Hv. simpl. apply IH; [|done|done]. intros d' Hd'. apply Hin. by right.
Qed.

Fixpoint attempts_of (decisions : list DecisionResult) : N :=
  match decisions with [] => 0 | d :: decisions => dr_attempts d + attempts_of decisions end.

Lemma sum_attempts_total decisions : ∀ total,
  total ≤ U64_MAX →
  sum_attempts decisions total =
  if total + attempts_of decisions <=? U64_MAX then Ok (total + attempts_of decisions)
  else result_error "Assessment attempt total overflowed.".
Proof.
  induction decisions as [|d decisions IH]; intros total Ht; simpl.
  { rewrite N.add_0_r. by apply N.leb_le in Ht as ->. }
  destruct (N.ltb_spec U64_MAX (total + dr_attempts d)).
  - destruct (N.leb_spec (total + (dr_attempts d + attempts_of decisions)) U64_MAX); [lia|done].
  - rewrite IH by done. by rewrite N.add_assoc.
Qed.

Lemma total_attempts_perm decisions decisions' :
  decisions ≡ₚ decisions' → total_attempts decisions = total_attempts decisions'.
Proof.
  intros Hp. unfold total_attempts. rewrite !sum_attempts_total by done.
  by assert (attempts_of decisions = attempts_of decisions') as -> by (induction Hp; simpl; lia).
Qed.

(** A new assessment passes the validation of saved assessments. *)
Lemma assessment_revalidates_helper ds rs decisions a :
  EvaluatedAssessment_new ds rs decisions = Ok a →
  validate_for_declarations a ds rs = Ok tt ∧
  dr_decision <$> as_decisions a = d_name <$> ds ∧ as_decisions a ≡ₚ decisions.
Proof.
  unfold EvaluatedAssessment_new, validate_for_declarations.
  destruct (validate_requirements ds rs) as [[]|] eqn:Er; [|done]. simpl.
  apply requirements_decided in Er as ([Hn _] & _).
  destruct (negb (N.of_nat (length decisions) =? _)) eqn:El; [done|].
  destruct (decisions_validate _ _ _ _) as [[]|] eqn:Ed; [|done]. simpl.
  destruct (total_attempts decisions) as [attempts|] eqn:Et; [|done]. simpl.
  set (sorted := sort_by_key _ decisions). set (a0 := {| as_version := _ |}).
  destruct (measure_results a0) as [m|] eqn:Em; [|done]. simpl. intros [= <-].
  apply decisions_validate_names in Ed as (Hdn & _ & Hf).
  assert (dr_decision <$> decisions ≡ₚ d_name <$> ds) as Hp.
  { apply names_perm; [done| |].
    - intros x (d & -> & Hin)%list_elem_of_fmap. rewrite Forall_forall in Hf.
      by eapply decision_ok_name, Hf.
    - apply negb_false_iff, N.eqb_eq in El. rewrite !length_fmap. lia. }
  assert (dr_decision <$> sorted = d_name <$> ds) as Hs.
  { apply (sort_by_position dr_decision (decision_index ds)); [done| |done].
    intros n _. by apply decision_index_position. }
  assert (sorted ≡ₚ decisions) as Hsp by apply sort_by_key_perm.
  split_and!; [|done|done]. cbn [as_version as_decisions as_attempts a0].
  rewrite N.eqb_refl, (Permutation_length Hsp), El. simpl.
  rewrite (pairs_validate_ordered ds) by (try done; by rewrite Hsp). simpl.
  rewrite (total_attempts_perm _ _ Hsp), Et. simpl. by rewrite N.eqb_refl, Em.
Qed.

(** An assessment that is accepted is accepted again when it is read back:
    the constructor puts the results into the declared order, keeps exactly the
    given results, and what it returns passes the whole validation of a saved
    assessment, with the requirements, the attempt total and the size limits. *)
Theorem assessment_revalidates ds rs decisions a :
  EvaluatedAssessment_new ds rs decisions = Ok a →
  validate_for_declarations a ds rs = Ok tt ∧
  dr_decision <$> as_decisions a = d_name <$> ds ∧ as_decisions a ≡ₚ decisions.
Proof. apply assessment_revalidates_helper. Qed.
End assessments.

(** ** A sample assessment *)

(** Every record fits: one short write. *)
Definition short_writer : RecordWriter := {| record_writes _ := (["{}"], None) |}.

Definition f64_quarter : f64 := S754_finite false 4503599627370496 (-54).
Definition f64_three_quarters : f64 := S754_finite false 6755399441055744 (-53).

(** The answers of [sample_decision], in the wrong order. *)
Definition sample_answers : list NamedAnswer :=
  [{| an_name := "level";
      an_result := RChoice {| ch_output := "high";
        ch_probabilities := Some [("high", f64_three_quarters); ("low", f64_quarter)];
        ch_confidence := None |} |};
   {| an_name := "risk"; an_result := RNoul {| no_output := f64_quarter |} |}].

Definition sample_results : list DecisionResult :=
  [{| dr_decision := "review"; dr_answers := reverse sample_answers; dr_attempts := 1 |}].

Definition sample_assessment : EvaluatedAssessment :=
  {| as_version := RESULT_VERSION; as_decisions := sample_results; as_attempts := 1 |}.

Lemma assessment_revalidates_witness :
  DecisionResult_new (H:=short_writer) sample_decision (question_requirements sample_check) sample_answers 1 =
    Ok {| dr_decision := "review"; dr_answers := reverse sample_answers; dr_attempts := 1 |} ∧
  validate_for_declarations (H:=short_writer) sample_assessment [sample_decision]
    (question_requirements sample_check) = Ok tt.
Proof.
  split; [vm_refl|].
  apply (assessment_revalidates (H0:=short_writer) [sample_decision]
    (question_requirements sample_check) sample_results sample_assessment). vm_refl.
Defined.
