(* ===== verification/ResultDecode.v ===== *)
(** * Decoding of saved results (crates/antiburn-checks/src/results/decode.rs)

    Saved assessments and decision results are decoded strictly, checked for
    their shape, and only then bound to the declarations that they answer. *)

From stdpp Require Import gmap.
From S2P Require Import Prelude RustString Json Diagnostics Expression Template Decision RustFloat Budget Provenance Scalars Fit BoundedJson Serde Results.

#[local] Open Scope N_scope.

(** ** Saved data *)

Inductive SavedQuestionResult :=
| SavedChoice (output : string) (probabilities : option (list (string * f64))) (confidence : option f64)
| SavedScore (output : f64) (probabilities : option (list f64)) (confidence : option f64)
| SavedNoul (output : f64).

Record SavedAnswer := { sv_name : string; sv_result : SavedQuestionResult }.

Record SavedDecision := { sv_decision : string; sv_answers : list SavedAnswer; sv_attempts : N }.

Record SavedAssessment := { sv_version : N; sv_decisions : list SavedDecision; sv_total : N }.

(** ** Derived readers *)

(** [present]: a field that is there is not null. *)
Definition present {A} (r : reader A) (field : option JsonEvent) : option (option A) :=
  defaulted None (λ ev, Some <$> r ev) field.

Definition read_question_result : reader SavedQuestionResult := λ ev,
  tagged ← read_tagged "type" ev;
  let '(name, content) := tagged in
  if String.eqb name "choice" then
    fields ← read_fields true ["output"; "probabilities"; "confidence"] content;
    output ← required read_string (fields "output");
    probabilities ← present (read_map read_f64) (fields "probabilities");
    confidence ← present read_f64 (fields "confidence");
    Some (SavedChoice output probabilities confidence)
  else if String.eqb name "score" then
    fields ← read_fields true ["output"; "probabilities"; "confidence"] content;
    output ← required read_f64 (fields "output");
    probabilities ← present (read_seq read_f64) (fields "probabilities");
    confidence ← present read_f64 (fields "confidence");
    Some (SavedScore output probabilities confidence)
  else if String.eqb name "noul" then
    fields ← read_fields true ["output"] content;
    output ← required read_f64 (fields "output");
    Some (SavedNoul output)
  else None.

Definition read_answer : reader SavedAnswer := λ ev,
  fields ← read_fields true ["name"; "result"] ev;
  name ← required read_string (fields "name");
  r ← required read_question_result (fields "result");
  Some {| sv_name := name; sv_result := r |}.

Definition read_decision : reader SavedDecision := λ ev,
  fields ← read_fields true ["decision"; "answers"; "attempts"] ev;
  decision ← required read_string (fields "decision");
  answers ← required (read_seq read_answer) (fields "answers");
  attempts ← required read_u8 (fields "attempts");
  Some {| sv_decision := decision; sv_answers := answers; sv_attempts := attempts |}.

Definition read_assessment : reader SavedAssessment := λ ev,
  fields ← read_fields true ["version"; "decisions"; "attempts"] ev;
  version ← required read_u8 (fields "version");
  decisions ← required (read_seq read_decision) (fields "decisions");
  attempts ← required read_u64 (fields "attempts");
  Some {| sv_version := version; sv_decisions := decisions; sv_total := attempts |}.

(** [DecisionAttempt::deserialize] (decision.rs) *)
Definition read_attempt : reader DecisionAttempt := λ ev,
  fields ← read_fields true ["decision"; "number"] ev;
  decision ← required read_string (fields "decision");
  number ← required read_u8 (fields "number");
  match DecisionAttempt_new decision number with Ok attempt => Some attempt | Err _ => None end.

(** ** Shapes *)

Definition question_result_shape (r : SavedQuestionResult) : result unit ResultError :=
  match r with
  | SavedChoice output probabilities confidence =>
      if negb (is_identifier output) then
        result_error "Choice output must be a declared label identifier."
      else
        let? _ :=
          match probabilities with
          | None => Ok tt
          | Some probabilities =>
              if (N.of_nat (length probabilities) <? 2) || negb (map_contains output probabilities) ||
                 existsb (λ label, negb (is_identifier label)) probabilities.*1 then
                result_error "Saved Choice probabilities have invalid labels."
              else validate_distribution probabilities.*2
          end in
        validate_confidence confidence
  | SavedScore output probabilities confidence =>
      if negb (f64_finite output) || SFltb output f64_zero then
        result_error "Saved Score output must be finite and nonnegative."
      else
        let? _ :=
          match probabilities with
          | None => Ok tt
          | Some probabilities =>
              if (N.of_nat (length probabilities) <? 2) ||
                 SFltb (f64_of_N (N.of_nat (length probabilities) - 1)) output then
                result_error "Saved Score output or distribution length is invalid."
              else validate_distribution probabilities
          end in
        validate_confidence confidence
  | SavedNoul output => validate_probability output
  end.

(** The loop over the answers, with the names so far. *)
Fixpoint answers_shape (names : gset string) (answers : list SavedAnswer) : result unit ResultError :=
  match answers with
  | [] => Ok tt
  | answer :: answers =>
      if negb (is_identifier (sv_name answer)) || bool_decide (sv_name answer ∈ names) then
        result_error "Saved answer names must be valid and unique."
      else
        let? _ := question_result_shape (sv_result answer) in
        answers_shape ({[ sv_name answer ]} ∪ names) answers
  end.

Definition decision_shape (d : SavedDecision) : result unit ResultError :=
  if negb (is_identifier (sv_decision d)) || negb ((1 <=? sv_attempts d) && (sv_attempts d <=? 2)) ||
     (match sv_answers d with [] => true | _ => false end) ||
     (MAX_QUESTIONS_PER_DECISION <? N.of_nat (length (sv_answers d))) then
    result_error "Saved decision name, attempts, or answer count is invalid."
  else answers_shape ∅ (sv_answers d).

(** ** Binding *)

Definition bind_question_result (r : SavedQuestionResult) (question : Question) :
    result QuestionResult ResultError :=
  match r with
  | SavedChoice output probabilities confidence =>
      result_map RChoice (ChoiceResult_new question output probabilities confidence)
  | SavedScore output probabilities confidence =>
      result_map RScore (ScoreResult_new question output probabilities confidence)
  | SavedNoul output =>
      match question with
      | Noul _ => result_map RNoul (NoulResult_new output)
      | _ => result_error "Noul result requires a Noul declaration."
      end
  end.

Section binding.
Context `{SerdeNumber, !RecordWriter}.

Definition bind_answer (outputs : list NamedQuestion) (answer : SavedAnswer) :
    result NamedAnswer ResultError :=
  match find_question outputs (sv_name answer) with
  | None => result_error "Saved answer contains an undeclared question."
  | Some question =>
      let? r := bind_question_result (sv_result answer) (q_question question) in
      NamedAnswer_new (sv_name answer) r
  end.

Definition bind_decision (d : SavedDecision) (declaration : DecisionBlock)
    (requirements : list QuestionRequirements) : result DecisionResult ResultError :=
  if negb (String.eqb (sv_decision d) (d_name declaration)) then
    result_error "Saved result does not match the declared decision."
  else if negb (N.of_nat (length (sv_answers d)) =? N.of_nat (length (d_outputs declaration))) then
    result_error "Saved answers must match the exact declared question set."
  else
    let? answers := results_of (bind_answer (d_outputs declaration)) (sv_answers d) in
    DecisionResult_new declaration requirements answers (sv_attempts d).

(** The map of the declarations by name, in which the last one of a name wins. *)
Definition declared_decision (declarations : list DecisionBlock) (name : string) : option DecisionBlock :=
  List.find (λ d, String.eqb (d_name d) name) (reverse declarations).

(** [DecodedAssessment::validate_for_declarations] *)
Definition bind_assessment (saved : SavedAssessment) (declarations : list DecisionBlock)
    (requirements : list QuestionRequirements) : result EvaluatedAssessment ResultError :=
  let? _ := from_contract (validate_requirements declarations requirements) in
  if negb (N.of_nat (length (sv_decisions saved)) =? N.of_nat (length declarations)) then
    result_error "Saved results must match the exact declared decision set."
  else
    let? decisions := results_of (λ d,
      match declared_decision declarations (sv_decision d) with
      | None => result_error "Saved results contain an undeclared decision."
      | Some declaration => bind_decision d declaration requirements
      end) (sv_decisions saved) in
    let? a := EvaluatedAssessment_new declarations requirements decisions in
    if negb (as_attempts a =? sv_total saved) then
      result_error "Saved assessment attempt total does not match its decision results."
    else Ok a.
End binding.

(** ** Decoding *)

Section decode.
Context `{SerdeNumber, JsonDeserializer, !JsonMessages}.

(** The text of an error of a derived reader *)
Variable reader_message : Value → string.

Definition read_saved {A} (r : reader A) (text : string) : result A ResultError :=
  let? value := from_bounded (decode_strict_json RESULT_LIMITS text) in
  match from_value r value with
  | Some saved => Ok saved
  | None => result_error (reader_message value)
  end.

(** The loop over the saved decisions, with the names and the attempts so far. *)
Fixpoint decisions_shape (names : gset string) (attempts : N) (decisions : list SavedDecision) :
    result N ResultError :=
  match decisions with
  | [] => Ok attempts
  | d :: decisions =>
      if bool_decide (sv_decision d ∈ names) then
        result_error "Saved decision results must be unique."
      else
        let? _ := decision_shape d in
        if U64_MAX <? attempts + sv_attempts d then result_error "Saved attempt total overflowed."
        else decisions_shape ({[ sv_decision d ]} ∪ names) (attempts + sv_attempts d) decisions
  end.

(** A [DecodedAssessment] is the saved assessment. *)
Definition decode_results (text : string) : result SavedAssessment ResultError :=
  let? saved := read_saved read_assessment text in
  if negb (sv_version saved =? RESULT_VERSION) then
    result_error "Saved result version is unsupported."
  else
    let? attempts := decisions_shape ∅ 0 (sv_decisions saved) in
    if negb (attempts =? sv_total saved) then
      result_error "Saved assessment attempt total does not match its decision results."
    else Ok saved.

Definition decode_decision_result (text : string) : result SavedDecision ResultError :=
  let? saved := read_saved read_decision text in
  let? _ := decision_shape saved in
  Ok saved.
End decode.
