(* ===== verification/ResultDecodeFacts.v ===== *)
(** * Facts about the decoding of saved results (crates/antiburn-checks/src/results/decode.rs)

    What is saved of an accepted assessment decodes and binds to that assessment,
    and whatever decodes and binds is one that validation accepts. *)

From stdpp Require Import gmap sorting.
From S2P Require Import Prelude Order RustString Json Diagnostics Expression Template Decision Check RustFloat Budget Provenance Scalars Fit BoundedJson Serde Results ResultFacts ResultDecode.

#[local] Open Scope N_scope.

(** ** What is saved *)

Definition saved_question (r : QuestionResult) : SavedQuestionResult :=
  match r with
  | RChoice r => SavedChoice (ch_output r) (ch_probabilities r) (ch_confidence r)
  | RScore r => SavedScore (sc_output r) (sc_probabilities r) (sc_confidence r)
  | RNoul r => SavedNoul (no_output r)
  end.

Definition saved_answer (a : NamedAnswer) : SavedAnswer :=
  {| sv_name := an_name a; sv_result := saved_question (an_result a) |}.

Definition saved_decision (d : DecisionResult) : SavedDecision :=
  {| sv_decision := dr_decision d; sv_answers := saved_answer <$> dr_answers d; sv_attempts := dr_attempts d |}.

Definition saved_assessment (a : EvaluatedAssessment) : SavedAssessment :=
  {| sv_version := as_version a; sv_decisions := saved_decision <$> as_decisions a; sv_total := as_attempts a |}.

(** The labels of a distribution are the keys of a [BTreeMap]. *)
Definition labels_ascend (a : NamedAnswer) : Prop :=
  match an_result a with
  | RChoice r => ∀ l, ch_probabilities r = Some l → map_sorted l = true
  | _ => True
  end.

Definition decision_labels_ascend (d : DecisionResult) : Prop := Forall labels_ascend (dr_answers d).

(** ** Reading back *)

Section reading.
Context `{SerdeNumber, !SerdeNumberLaws}.

Lemma decodes_floats l : forallb f64_finite l = true → decodes (read_seq read_f64) (SerSeq (SerF64 <$> l)) l.
Proof.
  intros Hl. rewrite <- (list_fmap_id l) at 2. apply (decodes_seq _ SerF64 id).
  apply Forall_forall. intros x Hx%list_elem_of_In. rewrite forallb_forall in Hl. by apply decodes_f64, Hl.
Qed.

Lemma decodes_labelled l :
  map_sorted l = true → forallb f64_finite l.*2 = true →
  decodes (read_map read_f64) (SerEntries ((λ kv, (kv.1, SerF64 kv.2)) <$> l)) l.
Proof.
  intros Hs Hl. destruct (decodes_map read_f64 SerF64 id l Hs) as (w & Hw & Hr).
  - apply Forall_forall. intros kv Hin. apply decodes_f64. rewrite forallb_forall in Hl.
    apply Hl, list_elem_of_In. by apply (list_elem_of_fmap_2 snd).
  - exists w. split; [done|]. rewrite Hr. f_equal. rewrite <- (list_fmap_id l) at 2.
    by apply list_fmap_ext; intros i [].
Qed.

Lemma finite_floats l : forallb serial_finite (SerF64 <$> l) = forallb f64_finite l.
Proof. induction l; [done|]. csimpl. by f_equal. Qed.

Lemma finite_labelled (l : list (string * f64)) :
  forallb (λ kv, serial_finite kv.2) ((λ kv, (kv.1, SerF64 kv.2)) <$> l) = forallb f64_finite l.*2.
Proof. induction l as [|[] l IH]; [done|]. csimpl. by rewrite IH. Qed.

Lemma decodes_question r :
  serial_finite (question_result_serial r) = true →
  (∀ c l, r = RChoice c → ch_probabilities c = Some l → map_sorted l = true) →
  decodes read_question_result (question_result_serial r) (saved_question r).
Proof.
  destruct r as [[out ps conf]|[out ps conf]|[out]]; intros Hf Hs; cbn in Hf.
  - pose proof (decodes_string out) as Ho.
    assert (∀ x, conf = Some x → decodes read_f64 (SerF64 x) x) as Hc.
    { intros x ->. apply decodes_f64. destruct ps; cbn in Hf;
        [apply andb_true_iff in Hf as [_ Hf]|]; by rewrite andb_true_r in Hf. }
    assert (∀ l, ps = Some l →
      decodes (read_map read_f64) (SerEntries ((λ kv, (kv.1, SerF64 kv.2)) <$> l)) l) as Hl.
    { intros l ->. apply decodes_labelled; [by eapply Hs|]. rewrite <- finite_labelled. cbn in Hf.
      by apply andb_true_iff in Hf as [Hf _]. }
    unfold question_result_serial, saved_question. cbn [ch_output ch_probabilities ch_confidence].
    destruct ps as [l|], conf as [x|]; try specialize (Hl _ eq_refl); try specialize (Hc _ eq_refl);
      cbn [fmap option_fmap option_map optional_field app]; decode_struct.
  - apply andb_true_iff in Hf as [Hout Hf]. pose proof (decodes_f64 out Hout) as Ho.
    assert (∀ x, conf = Some x → decodes read_f64 (SerF64 x) x) as Hc.
    { intros x ->. apply decodes_f64. destruct ps; cbn in Hf;
        [apply andb_true_iff in Hf as [_ Hf]|]; by rewrite andb_true_r in Hf. }
    assert (∀ l, ps = Some l → decodes (read_seq read_f64) (SerSeq (SerF64 <$> l)) l) as Hl.
    { intros l ->. apply decodes_floats. rewrite <- finite_floats. cbn in Hf.
      by apply andb_true_iff in Hf as [Hf _]. }
    unfold question_result_serial, saved_question. cbn [sc_output sc_probabilities sc_confidence].
    destruct ps as [l|], conf as [x|]; try specialize (Hl _ eq_refl); try specialize (Hc _ eq_refl);
      cbn [fmap option_fmap option_map optional_field app]; decode_struct.
  - rewrite andb_true_r in Hf. pose proof (decodes_f64 out Hf) as Ho.
    unfold question_result_serial, saved_question. cbn [no_output]. decode_struct.
Qed.

Definition answer_serial (a : NamedAnswer) : Serial :=
  SerEntries [("name", SerStr (an_name a)); ("result", question_result_serial (an_result a))].

Lemma decodes_answer a :
  serial_finite (answer_serial a) = true → labels_ascend a →
  decodes read_answer (answer_serial a) (saved_answer a).
Proof.
  intros Hf Hs. cbn in Hf. rewrite andb_true_r in Hf.
  assert (decodes read_question_result (question_result_serial (an_result a)) (saved_question (an_result a))) as Hr.
  { apply decodes_question; [done|]. intros c l Hc Hl. unfold labels_ascend in Hs. rewrite Hc in Hs. by apply Hs. }
  pose proof (decodes_string (an_name a)) as Hn. unfold answer_serial, saved_answer. decode_struct.
Qed.

Lemma decodes_decision d :
  serial_finite (decision_result_serial d) = true → decision_labels_ascend d → dr_attempts d ≤ 255 →
  decodes read_decision (decision_result_serial d) (saved_decision d).
Proof.
  intros Hf Hs Ha. cbn in Hf. rewrite andb_true_r in Hf.
  assert (decodes (read_seq read_answer) (SerSeq (answer_serial <$> dr_answers d)) (saved_answer <$> dr_answers d)) as Hl.
  { apply decodes_seq. rewrite Forall_forall. intros a Hin. apply decodes_answer.
    - rewrite forallb_forall in Hf. apply Hf, list_elem_of_In. by apply (list_elem_of_fmap_2 answer_serial).
    - unfold decision_labels_ascend in Hs. rewrite Forall_forall in Hs. by apply Hs. }
  pose proof (decodes_string (dr_decision d)) as Hn.
  pose proof (decodes_u8 (dr_attempts d) Ha) as Hat.
  unfold decision_result_serial, saved_decision. change (λ a, SerEntries _) with answer_serial.
  decode_struct.
Qed.

Lemma decodes_assessment version ds attempts :
  serial_finite (assessment_serial version ds attempts) = true →
  Forall decision_labels_ascend ds → Forall (λ d, dr_attempts d ≤ 255) ds →
  version ≤ 255 → attempts ≤ U64_MAX →
  decodes read_assessment (assessment_serial version ds attempts)
    {| sv_version := version; sv_decisions := saved_decision <$> ds; sv_total := attempts |}.
Proof.
  intros Hf Hs Ha Hv Ht. cbn in Hf. rewrite andb_true_r in Hf. rewrite Forall_forall in Hs, Ha.
  assert (decodes (read_seq read_decision) (SerSeq (decision_result_serial <$> ds)) (saved_decision <$> ds)) as Hl.
  { apply decodes_seq. rewrite Forall_forall. intros d Hin. apply decodes_decision; [|by auto..].
    rewrite forallb_forall in Hf. apply Hf, list_elem_of_In. by apply list_elem_of_fmap_2. }
  pose proof (decodes_u8 version Hv) as Hver.
  pose proof (decodes_u64 attempts Ht) as Hat.
  unfold assessment_serial. decode_struct.
Qed.
End reading.

(** ** Shapes *)

Lemma from_contract_ok {A} (r : result A DecisionContractError) x : from_contract r = Ok x ↔ r = Ok x.
Proof. unfold from_contract. by destruct r; simpl; split; intros [=]; subst. Qed.

(** The labels of a complete distribution are the declared ones. *)
Lemma labels_perm (probabilities : list (string * f64)) (criteria : list (string * string)) :
  NoDup probabilities.*1 → NoDup criteria.*1 → length probabilities = length criteria →
  existsb (λ c, negb (map_contains c.1 probabilities)) criteria = false →
  criteria.*1 ≡ₚ probabilities.*1.
Proof.
  intros Hp Hc Hl He%existsb_not_forall. rewrite Forall_forall in He. apply names_perm; [done| |].
  - intros x (c & -> & Hin)%list_elem_of_fmap. specialize (He c Hin). unfold map_contains in He.
    destruct (map_get c.1 probabilities) as [v|] eqn:Eg; [|done]. clear -Eg.
    induction probabilities as [|[k w] l IH]; [done|]. simpl in *.
    destruct (String.eqb_spec c.1 k) as [->|]; [left|right; by apply IH].
  - rewrite !length_fmap. done.
Qed.

Lemma choice_shape c q :
  (∀ l, ch_probabilities c = Some l → map_sorted l = true) →
  choice_validate c q = Ok tt → question_result_shape (saved_question (RChoice c)) = Ok tt.
Proof.
  intros Hs. unfold choice_validate. rewrite result_bind_ok. intros ([] & Hq & Hv).
  apply from_contract_ok, question_validate_correct in Hq. destruct q as [text criteria| |]; [|done..].
  destruct Hq as (Hlen & Hnd & Hid & _). destruct c as [out ps conf]. simpl in *.
  destruct (existsb _ criteria) eqn:Eo; [|done]. simpl in Hv.
  apply existsb_exists in Eo as (c & Hc & Heq%String.eqb_eq). apply list_elem_of_In in Hc.
  rewrite Forall_forall in Hid. destruct (Hid c Hc) as [Hidc _]. rewrite Heq in Hidc. rewrite Hidc. simpl.
  apply result_bind_ok in Hv as ([] & Hps & Hconf). rewrite Hconf.
  destruct ps as [l|]; [|done]. destruct (negb (_ =? _) || _) eqn:Eb; [done|].
  apply orb_false_iff in Eb as [El Ee]. apply negb_false_iff, N.eqb_eq in El.
  assert (NoDup l.*1) as Hndl.
  { specialize (Hs l eq_refl). apply map_sorted_ascending in Hs. clear -Hs. unfold ascending in Hs.
    induction Hs as [|k ks _ IH Hk]; constructor; [|done]. intros Hin. rewrite Forall_forall in Hk.
    apply Hk in Hin. unfold cmp_lt in Hin. by rewrite cmp_refl in Hin by apply _. }
  pose proof (labels_perm l criteria Hndl Hnd ltac:(lia) Ee) as Hp.
  assert ((N.of_nat (length l) <? 2) = false) as -> by (apply N.ltb_ge; lia).
  assert (map_contains out l = true) as ->.
  { apply map_contains_elem. rewrite <- Hp, <- Heq. by apply list_elem_of_fmap_2. }
  assert (existsb (λ label, negb (is_identifier label)) l.*1 = false) as ->.
  { apply existsb_not_forall. rewrite <- Hp. apply Forall_fmap, Forall_forall. intros c' Hc'.
    by apply Hid. }
  simpl. by rewrite Hps.
Qed.

Lemma score_shape c q :
  score_validate c q = Ok tt → question_result_shape (saved_question (RScore c)) = Ok tt.
Proof.
  unfold score_validate. rewrite result_bind_ok. intros ([] & Hq & Hv).
  apply from_contract_ok, question_validate_correct in Hq. destruct q as [|text criteria|]; [done| |done].
  destruct Hq as (Hlen & _). destruct c as [out ps conf]. simpl in *.
  destruct (f64_finite out); [|done]. simpl in *. unfold f64_within in Hv.
  destruct (SFleb f64_zero out) eqn:E0; [|done]. destruct (SFleb out _) eqn:Em in Hv; [|done]. simpl in Hv.
  rewrite (SFleb_not_gt _ _ E0). apply result_bind_ok in Hv as ([] & Hps & Hconf). rewrite Hconf.
  destruct ps as [l|]; [|done]. destruct (N.eqb_spec (N.of_nat (length l)) (N.of_nat (length criteria))) as [El|]; [|done].
  simpl in Hps. rewrite El, (SFleb_not_gt _ _ Em), orb_false_r.
  assert ((N.of_nat (length criteria) <? 2) = false) as -> by (apply N.ltb_ge; lia). by rewrite Hps.
Qed.

(** ** A valid result is bound as it was *)

Lemma saved_result_valid r q required :
  (∀ c l, r = RChoice c → ch_probabilities c = Some l → map_sorted l = true) →
  result_validate r q required = Ok tt →
  question_result_shape (saved_question r) = Ok tt ∧ bind_question_result (saved_question r) q = Ok r.
Proof.
  intros Hs. unfold result_validate. rewrite result_bind_ok. intros (details & Hd & _).
  destruct r as [c|c|[out]], q as [text cs|text cs|text]; try done;
    apply result_bind_ok in Hd as ([] & Hv & _).
  - split; [by eapply choice_shape; [intros l; apply Hs|exact Hv]|].
    destruct c as [out ps conf]. simpl. unfold ChoiceResult_new. by rewrite Hv.
  - split; [by eapply score_shape|]. destruct c as [out ps conf]. simpl. unfold ScoreResult_new. by rewrite Hv.
  - simpl. split; [done|]. unfold NoulResult_new. simpl in Hv. by rewrite Hv.
Qed.

Section binding.
Context `{SerdeNumber, !RecordWriter}.

Lemma answers_shape_ok answers : ∀ names,
  NoDup (sv_name <$> answers) → (∀ x, x ∈ sv_name <$> answers → x ∉ names) →
  Forall (λ a, is_identifier (sv_name a) = true ∧ question_result_shape (sv_result a) = Ok tt) answers →
  answers_shape names answers = Ok tt.
Proof.
  induction answers as [|a answers IH]; intros names Hn Hx Hf; [done|]. csimpl in *.
  apply NoDup_cons in Hn as [Ha Hn]. apply Forall_cons in Hf as [[Hi Hr] Hf]. rewrite Hi. simpl.
  rewrite bool_decide_false by (apply Hx; left). rewrite Hr. simpl. apply IH; [done| |done].
  intros x Hin [->%elem_of_singleton|Hin']%elem_of_union; [done|]. apply (Hx x); [by right|done].
Qed.

(** What validation says of one answer *)
Lemma answer_facts declaration rs answers attempts a :
  validate_answers declaration rs answers attempts = Ok tt → a ∈ answers → labels_ascend a →
  is_identifier (an_name a) = true ∧ question_result_shape (saved_question (an_result a)) = Ok tt ∧
  bind_answer (d_outputs declaration) (saved_answer a) = Ok a.
Proof.
  unfold validate_answers. destruct (block_validate declaration) as [[]|] eqn:Eb; [|done]. simpl.
  apply block_validate_correct in Eb as (_ & _ & _ & Ho). destruct (negb (_ && _)); [done|].
  destruct (negb (_ =? _)); [done|]. destruct (negb _); [done|].
  destruct (required_validate _ _ _ _) as [[]|]; [|done]. simpl. rewrite answers_validate_correct.
  intros (_ & _ & Hf) Hin Hl. rewrite Forall_forall in Hf. destruct (Hf a Hin) as (q & r & Hq & _ & Hv).
  assert (is_identifier (an_name a) = true) as Hid.
  { apply find_question_elem in Hq as (q' & -> & Hq')%list_elem_of_fmap. rewrite Forall_forall in Ho.
    by apply Ho. }
  apply saved_result_valid in Hv as [Hsh Hb].
  2: { intros c l Hc Hp. unfold labels_ascend in Hl. rewrite Hc in Hl. by apply Hl. }
  split_and!; [done|done|]. unfold bind_answer. simpl. rewrite Hq, Hb. simpl.
  unfold NamedAnswer_new. rewrite Hid. by destruct a.
Qed.

Lemma validate_answers_facts declaration rs answers attempts :
  validate_answers declaration rs answers attempts = Ok tt →
  valid_block declaration ∧ 1 ≤ attempts ≤ 2 ∧ length answers = length (d_outputs declaration).
Proof.
  unfold validate_answers. destruct (block_validate declaration) as [[]|] eqn:Eb; [|done]. simpl.
  apply block_validate_correct in Eb. destruct (negb (_ && _)) eqn:Ea; [done|].
  apply negb_false_iff, andb_true_iff in Ea as [H1%N.leb_le H2%N.leb_le].
  destruct (negb (_ =? _)) eqn:El; [done|]. apply negb_false_iff, N.eqb_eq in El. intros _.
  split_and!; [done..|lia].
Qed.

Lemma zip_names_inv (answers : list NamedAnswer) (outputs : list NamedQuestion) :
  length answers = length outputs →
  existsb (λ p, negb (String.eqb (an_name p.1) (q_name p.2))) (zip answers outputs) = false →
  an_name <$> answers = q_name <$> outputs.
Proof.
  revert outputs. induction answers as [|a answers IH]; intros [|q outputs]; csimpl; try done.
  intros [= Hl] [Hn Hz]%orb_false_iff. apply negb_false_iff, String.eqb_eq in Hn.
  f_equal; [done|by apply IH].
Qed.

Lemma saved_names (answers : list NamedAnswer) : sv_name <$> (saved_answer <$> answers) = an_name <$> answers.
Proof. by rewrite <- list_fmap_compose. Qed.

(** A valid decision result has a good shape, and binds to itself. *)
Lemma decision_saved d declaration rs :
  result_validate_for_declaration d declaration rs = Ok tt → decision_labels_ascend d →
  decision_shape (saved_decision d) = Ok tt ∧ bind_decision (saved_decision d) declaration rs = Ok d ∧
  dr_decision d = d_name declaration ∧ 1 ≤ dr_attempts d ≤ 2.
Proof.
  intros Hd Hl. pose proof (validated_name _ _ _ Hd) as Hname. unfold result_validate_for_declaration in Hd.
  rewrite Hname, String.eqb_refl in Hd. simpl in Hd. apply result_bind_ok in Hd as ([] & Hv & Hd).
  destruct (existsb _ _) eqn:Ez; [done|]. apply result_bind_ok in Hd as (m & Hm & _).
  pose proof (answers_names _ _ _ _ Hv) as [Hnd Hp].
  assert (∀ a, a ∈ dr_answers d → is_identifier (an_name a) = true ∧
    question_result_shape (saved_question (an_result a)) = Ok tt ∧
    bind_answer (d_outputs declaration) (saved_answer a) = Ok a) as Ha.
  { intros a Hin. eapply answer_facts; [exact Hv|done|]. unfold decision_labels_ascend in Hl.
    rewrite Forall_forall in Hl. by apply Hl. }
  apply validate_answers_facts in Hv as Hfacts. destruct Hfacts as ((Hid & Hb & _) & Hat & Hlen).
  pose proof (zip_names_inv _ _ Hlen Ez) as Hnames.
  split_and!; [| |done|lia..].
  - unfold decision_shape. cbn [saved_decision sv_decision sv_attempts sv_answers].
    rewrite Hname, Hid, length_fmap, Hlen.
    assert ((1 <=? dr_attempts d) && (dr_attempts d <=? 2) = true) as -> by (apply andb_true_iff; lia).
    assert (match saved_answer <$> dr_answers d with [] => true | _ => false end = false) as ->
      by (destruct (dr_answers d); simpl in *; [lia|done]).
    assert ((MAX_QUESTIONS_PER_DECISION <? N.of_nat (length (d_outputs declaration))) = false) as ->
      by (apply N.ltb_ge; lia).
    simpl. apply answers_shape_ok.
    + by rewrite saved_names, Hnames.
    + set_solver.
    + apply Forall_fmap, Forall_forall. intros a Hin. destruct (Ha a Hin) as (? & ? & _). done.
  - unfold bind_decision. cbn [saved_decision sv_decision sv_attempts sv_answers].
    rewrite Hname, String.eqb_refl, length_fmap, Hlen, N.eqb_refl. simpl.
    rewrite (results_of_intro _ _ (dr_answers d)).
    2: { apply Forall2_fmap_l, Forall_Forall2_diag, Forall_forall. intros a Hin. by apply Ha. }
    simpl. unfold DecisionResult_new. rewrite Hv. simpl.
    assert (sort_by_key (λ a, position (q_name <$> d_outputs declaration) (an_name a)) (dr_answers d) =
            dr_answers d) as ->.
    { apply (keys_determine an_name); [rewrite sort_by_key_perm, Hp; done|apply sort_by_key_perm|].
      rewrite Hnames. by apply (sort_by_position an_name (position (q_name <$> d_outputs declaration))). }
    destruct d as [name answers attempts]. simpl in *. subst name. by rewrite Hm.
Qed.

(** ** Assessments *)

Lemma decision_index_found ds declaration :
  NoDup (d_name <$> ds) → declaration ∈ ds →
  ∃ i, decision_index ds (d_name declaration) = Some i ∧ ds !! N.to_nat i = Some declaration.
Proof.
  intros Hn [i Hi]%list_elem_of_lookup. exists (N.of_nat i). rewrite Nat2N.id. split; [|done].
  rewrite decision_index_position by done. apply position_lookup; [done|].
  by rewrite Nat2N.id, list_lookup_fmap, Hi.
Qed.

Lemma decisions_validate_ok ds rs decisions : ∀ names,
  NoDup (d_name <$> ds) → NoDup (dr_decision <$> decisions) →
  (∀ x, x ∈ dr_decision <$> decisions → x ∉ names) → Forall (decision_ok ds rs) decisions →
  decisions_validate ds rs names decisions = Ok tt.
Proof.
  induction decisions as [|d decisions IH]; intros names Hds Hn Hx Hf; [done|]. csimpl in *.
  apply NoDup_cons in Hn as [Hd Hn]. apply Forall_cons in Hf as [(declaration & Hin & Hv) Hf].
  rewrite bool_decide_false by (apply Hx; left).
  destruct (decision_index_found ds declaration Hds Hin) as (i & Hi & Hl).
  rewrite (validated_name _ _ _ Hv), Hi, Hl, Hv. simpl. apply IH; [done|done| |done].
  intros x Hxin [->%elem_of_singleton|Hx']%elem_of_union; [|by apply (Hx x); [right|]].
  by rewrite <- (validated_name _ _ _ Hv) in Hxin.
Qed.

Lemma declared_decision_found ds declaration :
  NoDup (d_name <$> ds) → declaration ∈ ds → declared_decision ds (d_name declaration) = Some declaration.
Proof.
  intros Hn Hin. unfold declared_decision.
  destruct (List.find _ (reverse ds)) as [d|] eqn:Ef.
  - apply List.find_some in Ef as [Hd Heq%String.eqb_eq]. apply list_elem_of_In in Hd.
    rewrite elem_of_reverse in Hd. f_equal. by eapply (NoDup_fmap_inj d_name).
  - apply (List.find_none _ _) with (x := declaration) in Ef; [by rewrite String.eqb_refl in Ef|].
    apply list_elem_of_In. by rewrite elem_of_reverse.
Qed.
End binding.

(** ** Round trips *)

Section round_trip.
Context `{SerdeNumber, !SerdeNumberLaws, JsonDeserializer, !JsonMessages, !RecordWriter}.
Variable reader_message : Value → string.

Lemma pairs_validated rs decisions : ∀ ds,
  length decisions = length ds → pairs_validate rs decisions ds = Ok tt →
  Forall2 (λ d declaration, result_validate_for_declaration d declaration rs = Ok tt) decisions ds.
Proof.
  induction decisions as [|d decisions IH]; intros [|declaration ds]; simpl; try done.
  intros [= Hl]. rewrite result_bind_ok. intros ([] & Hd & Hp). constructor; [done|by apply IH].
Qed.

(** What the validation of a saved assessment says. *)
Lemma assessment_facts a ds rs :
  validate_for_declarations a ds rs = Ok tt →
  validate_requirements ds rs = Ok tt ∧ NoDup (d_name <$> ds) ∧ as_version a = RESULT_VERSION ∧
  length (as_decisions a) = length ds ∧
  Forall2 (λ d declaration, result_validate_for_declaration d declaration rs = Ok tt) (as_decisions a) ds ∧
  total_attempts (as_decisions a) = Ok (as_attempts a) ∧ ∃ m, measure_results a = Ok m.
Proof.
  unfold validate_for_declarations. rewrite result_bind_ok. intros ([] & Hr%from_contract_ok & Hv).
  pose proof (proj1 (requirements_decided _ _) Hr) as ([Hn _] & _).
  destruct (N.eqb_spec (as_version a) RESULT_VERSION) as [Hver|]; [|done].
  destruct (N.eqb_spec (N.of_nat (length (as_decisions a))) (N.of_nat (length ds))) as [Hl|]; [|done].
  simpl in Hv. apply result_bind_ok in Hv as ([] & Hp & Hv). apply result_bind_ok in Hv as (total & Ht & Hv).
  destruct (N.eqb_spec (as_attempts a) total) as [->|]; [|done]. simpl in Hv.
  apply result_bind_ok in Hv as (m & Hm & _).
  split_and!; [done..|lia|apply pairs_validated; [lia|done]|done|by exists m].
Qed.

Lemma decisions_shape_ok decisions : ∀ names total,
  NoDup (dr_decision <$> decisions) → (∀ x, x ∈ dr_decision <$> decisions → x ∉ names) →
  Forall (λ d, decision_shape (saved_decision d) = Ok tt) decisions →
  decisions_shape names total (saved_decision <$> decisions) =
  map_err (λ _, {| result_message := "Saved attempt total overflowed." |}) (sum_attempts decisions total).
Proof.
  induction decisions as [|d decisions IH]; intros names total Hn Hx Hf; [done|]. csimpl in *.
  apply NoDup_cons in Hn as [Hd Hn]. apply Forall_cons in Hf as [Hs Hf].
  cbn [decisions_shape sum_attempts]. cbn [saved_decision sv_decision sv_attempts] in *.
  rewrite bool_decide_false by (apply Hx; left). fold (saved_decision d). rewrite Hs. simpl.
  destruct (U64_MAX <? total + dr_attempts d); [done|]. apply IH; [done| |done].
  intros x Hin [->%elem_of_singleton|Hx']%elem_of_union; [done|]. by apply (Hx x); [right|].
Qed.

Lemma total_bounded decisions n : total_attempts decisions = Ok n → n ≤ U64_MAX.
Proof.
  unfold total_attempts. rewrite sum_attempts_total by done. destruct (N.leb_spec (0 + attempts_of decisions) U64_MAX);
    [by intros [= <-]|done].
Qed.

Lemma Forall2_names rs decisions ds :
  Forall2 (λ d declaration, result_validate_for_declaration d declaration rs = Ok tt) decisions ds →
  dr_decision <$> decisions = d_name <$> ds ∧ Forall (decision_ok ds rs) decisions.
Proof.
  intros Hf. split.
  - induction Hf as [|d declaration decisions ds Hd _ IH]; [done|]. csimpl. f_equal; [by eapply validated_name|done].
  - apply Forall_forall. intros d [i Hi]%list_elem_of_lookup.
    destruct (Forall2_lookup_l _ _ _ _ _ Hf Hi) as (declaration & Hl & Hv).
    exists declaration. split; [by eapply list_elem_of_lookup_2|done].
Qed.

Lemma bind_saved a ds rs :
  validate_for_declarations a ds rs = Ok tt → Forall decision_labels_ascend (as_decisions a) →
  bind_assessment (saved_assessment a) ds rs = Ok a.
Proof.
  intros Ha Hl. destruct (assessment_facts a ds rs Ha) as (Hr & Hn & Hver & Hlen & Hv & Ht & m & Hm).
  destruct (Forall2_names rs _ _ Hv) as [Hnames Hok]. unfold bind_assessment. rewrite Hr. simpl.
  rewrite length_fmap, Hlen, N.eqb_refl. simpl.
  rewrite (results_of_intro _ _ (as_decisions a)).
  2: { apply Forall2_fmap_l, Forall_Forall2_diag, Forall_forall. intros d Hd. simpl.
       rewrite Forall_forall in Hok, Hl. destruct (Hok d Hd) as (declaration & Hin & Hdv).
       destruct (decision_saved d declaration rs Hdv (Hl d Hd)) as (_ & Hb & Hname & _).
       by rewrite Hname, declared_decision_found. }
  simpl. unfold EvaluatedAssessment_new. rewrite Hr. simpl. rewrite Hlen, N.eqb_refl. simpl.
  rewrite decisions_validate_ok by (done || (by rewrite Hnames) || set_solver). simpl. rewrite Ht. simpl.
  assert (sort_by_key (λ d, decision_index ds (dr_decision d)) (as_decisions a) = as_decisions a) as ->.
  { apply (keys_determine dr_decision); [by rewrite sort_by_key_perm, Hnames|apply sort_by_key_perm|].
    rewrite Hnames. apply (sort_by_position dr_decision (decision_index ds)); [done| |by rewrite Hnames].
    intros n _. by apply decision_index_position. }
  destruct a as [version decisions attempts]. simpl in *. subst version. rewrite Hm. simpl. by rewrite N.eqb_refl.
Qed.

(** C22: what is saved of an accepted assessment comes back: its record, which the
    acceptance measured, is decoded strictly within the same limits, passes every
    check of its shape, and binds to the same assessment, with the details of
    every answer and the attempts. *)
Theorem saved_results_round_trip a ds rs :
  validate_for_declarations a ds rs = Ok tt → Forall decision_labels_ascend (as_decisions a) →
  reads_back (assessment_record a) (record_text (assessment_record a)) →
  decode_results reader_message (record_text (assessment_record a)) = Ok (saved_assessment a) ∧
  bind_assessment (saved_assessment a) ds rs = Ok a.
Proof.
  intros Ha Hl Hread. split; [|by apply bind_saved].
  destruct (assessment_facts a ds rs Ha) as (Hr & Hn & Hver & Hlen & Hv & Ht & m & Hm).
  destruct (Forall2_names rs _ _ Hv) as [Hnames Hok]. rewrite Forall_forall in Hok, Hl.
  assert (∀ d, d ∈ as_decisions a → decision_shape (saved_decision d) = Ok tt ∧ dr_attempts d ≤ 255) as Hd.
  { intros d Hin. destruct (Hok d Hin) as (declaration & _ & Hdv).
    destruct (decision_saved d declaration rs Hdv (Hl d Hin)) as (? & _ & _ & ?). split; [done|lia]. }
  unfold measure_results, from_bounded in Hm.
  destruct (measure_json _ _) as [m'|] eqn:Em; [|done]. clear m Hm.
  destruct (measured_decodes RESULT_LIMITS read_assessment (assessment_record a) (saved_assessment a) m')
    as (w & Hw & Hx); [done|done|done| |].
  { apply measure_json_correct in Em as (Hf & _); [|done].
    apply decodes_assessment; [done|by apply Forall_forall|by apply Forall_forall; intros d Hin; apply Hd| |].
    - by rewrite Hver.
    - by eapply total_bounded. }
  unfold decode_results, read_saved. rewrite Hw. simpl. rewrite Hx. simpl. rewrite Hver. simpl.
  rewrite decisions_shape_ok.
  - unfold total_attempts in Ht. rewrite Ht. simpl. by rewrite N.eqb_refl.
  - by rewrite Hnames.
  - set_solver.
  - apply Forall_forall. intros d Hin. by apply Hd.
Qed.
(** ** Whatever is bound was saved *)

Lemma bound_question r q r' : bind_question_result r q = Ok r' → saved_question r' = r.
Proof.
  destruct r as [out ps conf|out ps conf|out]; simpl.
  - unfold ChoiceResult_new. destruct (choice_validate _ _); simpl; [by intros [= <-]|done].
  - unfold ScoreResult_new. destruct (score_validate _ _); simpl; [by intros [= <-]|done].
  - destruct q; try done. unfold NoulResult_new. destruct (validate_probability _); simpl; [by intros [= <-]|done].
Qed.

Lemma bound_answer outputs a a' : bind_answer outputs a = Ok a' → saved_answer a' = a.
Proof.
  unfold bind_answer. destruct (find_question _ _) as [q|]; [|done]. rewrite result_bind_ok.
  intros (r & Hr%bound_question & Ha). unfold NamedAnswer_new in Ha. destruct (negb _); [done|].
  injection Ha as <-. unfold saved_answer. simpl. rewrite Hr. by destruct a.
Qed.

(** The same decision, up to the order of its answers. *)
Definition same_decision (saved : SavedDecision) (d : DecisionResult) : Prop :=
  sv_decision saved = dr_decision d ∧ sv_attempts saved = dr_attempts d ∧
  sv_answers saved ≡ₚ saved_answer <$> dr_answers d.

Lemma bound_decision saved declaration rs d :
  bind_decision saved declaration rs = Ok d → same_decision saved d.
Proof.
  unfold bind_decision. destruct (String.eqb_spec (sv_decision saved) (d_name declaration)) as [Hn|]; [|done].
  destruct (negb (_ =? _)); [done|]. simpl. rewrite result_bind_ok. intros (answers & Ha & Hd).
  apply decision_result_revalidates in Hd as (Hv & _ & Hp & Hat). apply validated_name in Hv.
  split_and!; [congruence|done|]. rewrite Hp. apply results_of_spec in Ha.
  assert (sv_answers saved = saved_answer <$> answers) as ->; [|done].
  clear -Ha. induction Ha as [|x y l k Hx _ IH]; [done|]. csimpl.
  f_equal; [symmetry; by eapply bound_answer|exact IH].
Qed.

(** Decoding grants nothing that validation would refuse.  When a text decodes
    and binds to the declarations, the assessment passes the whole validation of
    a saved assessment; its decisions and answers are exactly the saved ones, in
    the declared order, with the saved attempts and their saved total. *)
Theorem decoded_results_valid text saved ds rs a :
  decode_results reader_message text = Ok saved → bind_assessment saved ds rs = Ok a →
  validate_for_declarations a ds rs = Ok tt ∧ dr_decision <$> as_decisions a = d_name <$> ds ∧
  sv_version saved = as_version a ∧ sv_total saved = as_attempts a ∧
  ∃ decisions, as_decisions a ≡ₚ decisions ∧ Forall2 same_decision (sv_decisions saved) decisions.
Proof.
  unfold decode_results. rewrite result_bind_ok. intros (saved' & _ & Hs).
  destruct (N.eqb_spec (sv_version saved') RESULT_VERSION) as [Hver|]; [|done]. simpl in Hs.
  apply result_bind_ok in Hs as (n & _ & Hs). destruct (negb (n =? _)); [done|]. injection Hs as ->.
  unfold bind_assessment. rewrite result_bind_ok. intros ([] & _ & Hb). destruct (negb (_ =? _)); [done|].
  apply result_bind_ok in Hb as (decisions & Hds & Hb). apply result_bind_ok in Hb as (a' & Ha & Hb).
  destruct (N.eqb_spec (as_attempts a') (sv_total saved)) as [Ht|]; [|done]. injection Hb as ->.
  assert (as_version a = RESULT_VERSION) as Hav.
  { unfold EvaluatedAssessment_new in Ha. destruct (from_contract _); [|done]. simpl in Ha.
    destruct (negb _); [done|]. destruct (decisions_validate _ _ _ _); [|done]. simpl in Ha.
    destruct (total_attempts _); [|done]. simpl in Ha. destruct (measure_results _); [|done].
    simpl in Ha. by injection Ha as <-. }
  apply assessment_revalidates_helper in Ha as (Hv & Hn & Hp).
  split_and!; [done|done|congruence|done|]. exists decisions. split; [done|].
  apply results_of_spec in Hds. eapply Forall2_impl; [exact Hds|]. intros d d' Hd. simpl in Hd.
  destruct (declared_decision ds (sv_decision d)) as [declaration|]; [|done]. by eapply bound_decision.
Qed.
End round_trip.

(** ** A concrete round trip *)

Definition exact_decision : DecisionBlock (H:=exact_numbers) :=
  {| d_name := "review"; d_input := TLiteral LitNull; d_fit := []; d_outputs := d_outputs sample_decision |}.

Definition exact_requirements : list QuestionRequirements := question_requirements sample_check.

(** What the deserializer delivers for the text of the sample. *)
Definition sample_deserializer : JsonDeserializer :=
  {| json_events _ := @serial_event exact_numbers (assessment_record sample_assessment); json_end _ := true |}.

Definition sample_messages : JsonMessages := {| syntax_message _ := "syntax"; end_message _ := "trailing" |}.

Definition sample_text : string := @record_text short_writer (assessment_record sample_assessment).

Definition sample_decoded : result SavedAssessment ResultError :=
  @decode_results exact_numbers sample_deserializer sample_messages (λ _, "invalid") sample_text.

Lemma saved_results_round_trip_witness :
  sample_decoded = Ok (saved_assessment sample_assessment) ∧
  @bind_assessment exact_numbers short_writer (saved_assessment sample_assessment) [exact_decision]
    exact_requirements = Ok sample_assessment.
Proof.
  apply (@saved_results_round_trip exact_numbers exact_number_laws sample_deserializer sample_messages
           short_writer (λ _, "invalid") sample_assessment [exact_decision] exact_requirements).
  - vm_refl.
  - repeat constructor. by intros l [= <-].
  - by split.
Defined.

Lemma decoded_results_valid_witness :
  @validate_for_declarations short_writer exact_numbers sample_assessment [exact_decision] exact_requirements = Ok tt ∧
  sv_total (saved_assessment sample_assessment) = as_attempts sample_assessment.
Proof.
  assert (sample_decoded = Ok (saved_assessment sample_assessment)) as Hd by vm_refl.
  assert (@bind_assessment exact_numbers short_writer (saved_assessment sample_assessment) [exact_decision]
    exact_requirements = Ok sample_assessment) as Hb by vm_refl.
  destruct (@decoded_results_valid exact_numbers sample_deserializer sample_messages short_writer (λ _, "invalid")
    sample_text (saved_assessment sample_assessment) [exact_decision] exact_requirements sample_assessment Hd Hb)
    as (Hv & _ & _ & Ht & _).
  split; [exact Hv|exact Ht].
Defined.
