(* ===== verification/Actions.v ===== *)
(** * Status actions (crates/antiburn-checks/src/actions.rs)

    The ordered planning of independently gated status actions over a frozen
    context, to which the validated decision results are added.  The trace is
    a mutable argument of the source, so it is part of the state and keeps what
    a failed action had read. *)

From S2P Require Import Prelude RustString Diagnostics Expression Domain Template Decision Check Json Budget Provenance Scalars Evaluator Inventories Preparation BoundedJson Results.

#[local] Open Scope N_scope.

(** ** Data *)

Record ActionPlanningError := { planning_code : DiagnosticCode; planning_message : string }.

(** An error, or a panic of the source. *)
Inductive PlanningStop := PlanningFailed (e : ActionPlanningError) | PlanningPanicked.

Inductive ActionOutcomeKind :=
| Applied (r : StatusResult) (message : option string)
| SkippedConditionFalse
| SkippedConditionUnavailable
| SkippedInputUnavailable
| ActionFailed (e : EvaluationError).

Record ActionOutcome := { ao_index : N; ao_outcome : ActionOutcomeKind }.

Record ActionPlan := { current_status : option StatusResult; outcomes : list ActionOutcome }.

Definition planning_error {A} (c : DiagnosticCode) (m : string) : result A PlanningStop :=
  Err (PlanningFailed {| planning_code := c; planning_message := m |}).

Definition invalid_action_input (m : string) : EvaluationError :=
  {| code := RuntimeInvalidContext; message := m |}.

Section actions.
Context `{SerdeNumber, UnicodeData, JsonDeserializer}.

(** ** The context with the decision results *)

(** [None] is a panic: the number is not finite. *)
Definition finite_number (x : f64) : option Value := JNumber <$> number_of_f64 x.

Definition insert_optional (key : string) (x : option f64) (m : Map Value) : option (Map Value) :=
  match x with
  | None => Some m
  | Some x => v ← finite_number x; Some (map_insert key v m)
  end.

(** The output of an answer and its details. *)
Definition answer_values (r : QuestionResult) : option (Value * Map Value) :=
  match r with
  | RChoice r =>
      details ←
        match ch_probabilities r with
        | None => Some []
        | Some l =>
            fields ← mapM (λ kv, v ← finite_number kv.2; Some (kv.1, v)) l;
            Some (map_insert "probabilities"
                    (JObject (fold_left (λ m kv, map_insert kv.1 kv.2 m) fields [])) [])
        end;
      details ← insert_optional "confidence" (ch_confidence r) details;
      Some (JString (ch_output r), details)
  | RScore r =>
      details ←
        match sc_probabilities r with
        | None => Some []
        | Some l => items ← mapM finite_number l; Some (map_insert "probabilities" (JArray items) [])
        end;
      details ← insert_optional "confidence" (sc_confidence r) details;
      v ← finite_number (sc_output r);
      Some (v, details)
  | RNoul r => v ← finite_number (no_output r); Some (v, [])
  end.

(** One turn of the loop over the answers: the details and the outputs. *)
Definition add_answer (acc : Map Value * Map Value) (a : NamedAnswer) : option (Map Value * Map Value) :=
  r ← answer_values (an_result a);
  Some (map_insert (an_name a) (JObject r.2) acc.1, map_insert (an_name a) r.1 acc.2).

Definition add_decision (decisions : Map Value) (d : DecisionResult) : option (Map Value) :=
  r ← foldO add_answer (dr_answers d) ([], []);
  Some (map_insert (dr_decision d)
          (JObject (map_insert "details" (JObject r.1) (map_insert "outputs" (JObject r.2) [])))
          decisions).

Definition context_with_assessment (ctx : Value) (assessed : EvaluatedAssessment) :
    result Value PlanningStop :=
  match as_object ctx with
  | None => planning_error RuntimeInvalidContext "Frozen expression context must be a JSON object."
  | Some root =>
      if map_contains "decisions" root then
        planning_error RuntimeInvalidContext "Frozen context must not contain a `decisions` root."
      else
        match as_decisions assessed with
        | [] => Ok (JObject root)
        | _ =>
            match foldO add_decision (as_decisions assessed) [] with
            | None => Err PlanningPanicked
            | Some decisions => Ok (JObject (map_insert "decisions" (JObject decisions) root))
            end
        end
  end.

(** ** One action *)

Record ActionState := { ac_eval : EvalState; ac_trace : EvaluationTrace }.

Definition acting (A : Type) : Type := SE ActionState EvaluationError A.

Definition acting_eval {A} (m : evaluation A) : acting A := λ s,
  let '(r, e) := m (ac_eval s) in (r, {| ac_eval := e; ac_trace := ac_trace s |}).

(** A preparation under the bindings of the action, which are empty. *)
Definition acting_prepare {A} (m : preparation A) : acting A :=
  acting_eval (λ s, let '(r, p) := m {| ps_eval := s; ps_bindings := [] |} in (r, ps_eval p)).

Definition merge_trace (t : EvaluationTrace) : acting unit := λ s,
  (Ok tt, {| ac_eval := ac_eval s; ac_trace := merge (ac_trace s) t |}).

(** Whether the condition of an action lets it run: the outcome if it does not. *)
Definition action_gate (a : StatusAction) (ctx : Value) : acting (option ActionOutcomeKind) :=
  match sa_condition a with
  | None => ret None
  | Some condition =>
      let* v := acting_eval (evaluate_condition condition ctx [] 1) in
      do* merge_trace (ev_trace v);
      match ev_value v with
      | Unavailable => ret (Some SkippedConditionUnavailable)
      | Available x => ret (if negb (is_truthy x) then Some SkippedConditionFalse else None)
      end
  end.

(** The status of an action; [None] when its input is unavailable. *)
Definition action_status (a : StatusAction) (ctx : Value) : acting (option StatusResult) :=
  match sa_result a with
  | ResultLiteral r => ret (Some r)
  | ResultExpression e =>
      let* v := acting_eval (evaluate_expression_with_budget e ctx [] 1) in
      let v := enforce_selected_membership v ctx in
      do* merge_trace (ev_trace v);
      match ev_value v with
      | Unavailable => ret None
      | Available (JString s) =>
          if String.eqb s "success" then ret (Some Success)
          else if String.eqb s "failure" then ret (Some Failure)
          else fail (invalid_action_input "Status result must be exactly `success` or `failure`.")
      | _ => fail (invalid_action_input "Status result must be exactly `success` or `failure`.")
      end
  end.

(** The message of an action; [None] when its input is unavailable. *)
Definition action_message (a : StatusAction) (ctx : Value) : acting (option (option string)) :=
  match sa_message a with
  | None => ret (Some None)
  | Some template =>
      let* v := acting_prepare (prepare_template ctx template 1) in
      do* merge_trace (ev_trace v);
      match ev_value v with
      | Unavailable => ret None
      | Available (JString s) =>
          if is_blank s then fail (invalid_action_input "Status message must be a nonblank string.")
          else ret (Some (Some s))
      | _ => fail (invalid_action_input "Status message must be a nonblank string.")
      end
  end.

Definition plan_action (a : StatusAction) (ctx : Value) : acting ActionOutcomeKind :=
  do* acting_eval (on_budget (step 1));
  let* gate := action_gate a ctx in
  match gate with
  | Some outcome => ret outcome
  | None =>
      let* status := action_status a ctx in
      match status with
      | None => ret SkippedInputUnavailable
      | Some r =>
          let* message := action_message a ctx in
          match message with
          | None => ret SkippedInputUnavailable
          | Some message => ret (Applied r message)
          end
      end
  end.

(** ** The plan *)

(** The status after an outcome. *)
Definition written (status : option StatusResult) (o : ActionOutcomeKind) : option StatusResult :=
  match o with Applied r _ => Some r | _ => status end.

(** The loop over the actions. *)
Fixpoint plan_actions (actions : list StatusAction) (ctx : Value) (index : N) (plan : ActionPlan)
    (s : ActionState) : result ActionPlan PlanningStop * ActionState :=
  match actions with
  | [] => (Ok plan, s)
  | a :: actions =>
      let '(r, s) := plan_action a ctx s in
      match r with
      | Err e =>
          if bool_decide (code e = EvaluationLimitExceeded) || exhausted (budget (ac_eval s)) then
            (planning_error EvaluationLimitExceeded (message e), s)
          else
            plan_actions actions ctx (index + 1)
              {| current_status := current_status plan;
                 outcomes := outcomes plan ++ [{| ao_index := index; ao_outcome := ActionFailed e |}] |} s
      | Ok o =>
          plan_actions actions ctx (index + 1)
            {| current_status := written (current_status plan) o;
               outcomes := outcomes plan ++ [{| ao_index := index; ao_outcome := o |}] |} s
      end
  end.

Definition plan_status_actions_traced (actions : list StatusAction) (ctx : Value)
    (assessed : EvaluatedAssessment) (prior : option StatusResult) :
    SE EvalState PlanningStop (ActionPlan * EvaluationTrace) := λ e,
  let '(r, e) := on_budget (step 1) e in
  match r with
  | Err err => (planning_error (code err) (message err), e)
  | Ok _ =>
      match context_with_assessment ctx assessed with
      | Err stop => (Err stop, e)
      | Ok ctx =>
          let '(r, s) :=
            plan_actions actions ctx 0 {| current_status := prior; outcomes := [] |}
              {| ac_eval := e; ac_trace := EvaluationTrace_default |} in
          (let? plan := r in Ok (plan, ac_trace s), ac_eval s)
      end
  end.

Definition plan_status_actions_with_budget (actions : list StatusAction) (ctx : Value)
    (assessed : EvaluatedAssessment) (prior : option StatusResult) :
    SE EvalState PlanningStop ActionPlan :=
  let* r := plan_status_actions_traced actions ctx assessed prior in ret r.1.

Definition plan_status_actions (actions : list StatusAction) (ctx : Value)
    (assessed : EvaluatedAssessment) (prior : option StatusResult) : result ActionPlan PlanningStop :=
  (plan_status_actions_with_budget actions ctx assessed prior fresh_state).1.
End actions.
