(* ===== verification/ActionFacts.v ===== *)
(** * Facts about action plans

    A plan holds one outcome per action and the status of the last write; a
    spent budget leaves no plan; a validated assessment never panics; and a
    check that demands no inventories cannot observe them. *)

From S2P Require Import Prelude RustString Diagnostics Expression Domain Template Decision Check Json Budget Provenance Scalars Evaluator Inventories Preparation BoundedJson Results ResultFacts Actions.

#[local] Open Scope N_scope.

(** ** Actions respect the budget *)

Section safety.
Context `{SerdeNumber, UnicodeData, JsonDeserializer}.

Definition act_le (s s' : ActionState) : Prop := eval_le (ac_eval s) (ac_eval s').

#[local] Instance act_le_preorder : PreOrder act_le.
Proof. split; unfold act_le; [by intros s|intros a b c ??; by etrans]. Qed.

Definition act_safe {A} (Q : A → Prop) (m : acting A) : Prop :=
  safe (λ s, budget_live (budget (ac_eval s))) act_le
    (λ e s, budget_stop e (budget (ac_eval s))) Q m.

Lemma act_ret {A} (Q : A → Prop) x : Q x → act_safe Q (ret x).
Proof. apply safe_ret, _. Qed.

Lemma act_bind {A B} (P : A → Prop) (Q : B → Prop) (m : acting A) (f : A → acting B) :
  act_safe P m → (∀ x, P x → act_safe Q (f x)) → act_safe Q (bind m f).
Proof. apply safe_bind, _. Qed.

Lemma act_invalid {A} (Q : A → Prop) msg : act_safe Q (fail (invalid_action_input msg)).
Proof. apply safe_fail; [apply _|]. intros s [Hok Hact]. split; [exact Hok|]. right. by split. Qed.

Lemma acting_eval_safe {A} (m : evaluation A) : eval_safe any m → act_safe any (acting_eval m).
Proof.
  intros Hm s Hs. destruct (Hm (ac_eval s) Hs) as [Hle HQ]. unfold acting_eval, act_le.
  by destruct (m (ac_eval s)) as [[x|e] s'].
Qed.

Lemma acting_prepare_safe {A} (m : preparation A) : prep_safe any m → act_safe any (acting_prepare m).
Proof.
  intros Hm. apply acting_eval_safe. intros s Hs.
  destruct (Hm {| ps_eval := s; ps_bindings := [] |} Hs) as [Hle HQ].
  by destruct (m {| ps_eval := s; ps_bindings := [] |}) as [[x|e] p].
Qed.

(** An evaluated part of an action, the trace of which is merged. *)
Lemma act_evaluated {A B} (P : B → Prop) (m : acting A) (trace : A → EvaluationTrace) (f : A → acting B) :
  act_safe any m → (∀ v, act_safe P (f v)) → act_safe P (let* v := m in do* merge_trace (trace v); f v).
Proof.
  intros Hm Hf. eapply act_bind; [done|]. intros v _. apply act_bind with (P := any); [|by intros].
  intros s Hs. simpl. split; [unfold act_le; reflexivity|done].
Qed.

(** ** What an outcome says of its action *)

Definition outcome_fits (a : StatusAction) (o : ActionOutcomeKind) : Prop :=
  match o with
  | Applied r m =>
      (∀ literal, sa_result a = ResultLiteral literal → r = literal) ∧
      (m = None ↔ sa_message a = None) ∧ (∀ text, m = Some text → is_blank text = false)
  | SkippedConditionFalse | SkippedConditionUnavailable => is_Some (sa_condition a)
  | SkippedInputUnavailable => (∃ e, sa_result a = ResultExpression e) ∨ is_Some (sa_message a)
  | ActionFailed e => code e = RuntimeInvalidContext
  end.

Lemma action_gate_safe a ctx :
  act_safe (λ gate, ∀ o, gate = Some o → outcome_fits a o) (action_gate a ctx).
Proof.
  unfold action_gate. destruct (sa_condition a) as [c|] eqn:Ec; [|by apply act_ret].
  apply act_evaluated; [apply acting_eval_safe, condition_safe|]. intros v.
  destruct (ev_value v) as [x|]; apply act_ret; [destruct (is_truthy x); simpl|];
    intros o [= <-]; simpl; by eexists.
Qed.

Lemma action_status_safe a ctx :
  act_safe (λ status, match status with
    | Some r => ∀ literal, sa_result a = ResultLiteral literal → r = literal
    | None => ∃ e, sa_result a = ResultExpression e
    end) (action_status a ctx).
Proof.
  unfold action_status. destruct (sa_result a) as [r|e]; [apply act_ret; by intros l [= ->]|].
  apply (act_evaluated _ _ (λ v, ev_trace (enforce_selected_membership v ctx)));
    [apply acting_eval_safe, expression_safe|]. intros v.
  repeat case_match; first [apply act_ret; by eauto|apply act_invalid].
Qed.

Lemma action_message_safe a ctx :
  act_safe (λ message, match message with
    | Some m => (m = None ↔ sa_message a = None) ∧ (∀ text, m = Some text → is_blank text = false)
    | None => is_Some (sa_message a)
    end) (action_message a ctx).
Proof.
  unfold action_message. destruct (sa_message a) as [t|]; [|by apply act_ret].
  apply act_evaluated; [apply acting_prepare_safe, prepare_template_safe|]. intros v.
  repeat case_match; first [apply act_ret|apply act_invalid]; [..|by eexists].
  split; [done|]. by intros text [= <-].
Qed.

Lemma plan_action_safe a ctx : act_safe (outcome_fits a) (plan_action a ctx).
Proof.
  unfold plan_action.
  eapply act_bind; [apply acting_eval_safe, on_budget_any; auto with budget|]. intros _ _.
  eapply act_bind; [apply action_gate_safe|]. intros [o|] Hgate; [apply act_ret; by apply Hgate|].
  eapply act_bind; [apply action_status_safe|]. intros [r|] Hr; [|apply act_ret; by left].
  eapply act_bind; [apply action_message_safe|].
  intros [m|] Hm; apply act_ret; [by split|by right].
Qed.

(** ** The plan of a list of actions *)

(** Outcomes with consecutive positions. *)
Fixpoint numbered (index : N) (os : list ActionOutcomeKind) : list ActionOutcome :=
  match os with
  | [] => []
  | o :: os => {| ao_index := index; ao_outcome := o |} :: numbered (index + 1) os
  end.

Definition applied_status (o : ActionOutcomeKind) : option StatusResult :=
  match o with Applied r _ => Some r | _ => None end.

(** The status of the last applied outcome, or the prior one. *)
Definition last_write (prior : option StatusResult) (os : list ActionOutcomeKind) : option StatusResult :=
  match last (omap applied_status os) with Some r => Some r | None => prior end.

Lemma last_write_cons prior o os : last_write (written prior o) os = last_write prior (o :: os).
Proof.
  unfold last_write. csimpl. destruct o; simpl; try done. rewrite last_cons.
  by destruct (last (omap applied_status os)).
Qed.

Definition plan_result (actions : list StatusAction) (index : N) (plan : ActionPlan)
    (r : result ActionPlan PlanningStop) (e : EvalState) : Prop :=
  match r with
  | Ok plan' =>
      exhausted (budget e) = false ∧
      ∃ os, Forall2 outcome_fits actions os ∧
            outcomes plan' = (outcomes plan ++ numbered index os)%list ∧
            current_status plan' = last_write (current_status plan) os
  | Err (PlanningFailed err) =>
      planning_code err = EvaluationLimitExceeded ∧ exhausted (budget e) = true
  | Err PlanningPanicked => False
  end.

Lemma plan_actions_correct actions ctx : ∀ index plan s,
  budget_live (budget (ac_eval s)) →
  let '(r, s') := plan_actions actions ctx index plan s in
  act_le s s' ∧ budget_ok (budget (ac_eval s')) = true ∧ plan_result actions index plan r (ac_eval s').
Proof.
  induction actions as [|a actions IH]; intros index plan s Hs; cbn [plan_actions].
  { split; [done|]. split; [apply Hs|]. split; [apply Hs|]. exists []. simpl. by rewrite app_nil_r. }
  destruct (plan_action_safe a ctx s Hs) as [Hle HQ].
  destruct (plan_action a ctx s) as [[o|e] s1]; simpl in Hle, HQ.
  - destruct HQ as [Hs1 Ho1].
    specialize (IH (index + 1) {| current_status := written (current_status plan) o;
      outcomes := (outcomes plan ++ [{| ao_index := index; ao_outcome := o |}])%list |} s1 Hs1).
    destruct (plan_actions _ _ _ _ _) as [r s2]. destruct IH as (Hle2 & Hok & Hr).
    split; [by etrans|]. split; [done|]. destruct r as [plan'|[err|]]; simpl in *; [|done..].
    destruct Hr as (Hx & os & Hl & Ho & Hc). split; [done|]. exists (o :: os). simpl.
    split; [by constructor|]. split; [by rewrite Ho, <- app_assoc|].
    by rewrite Hc, last_write_cons.
  - destruct HQ as [Hok Hstop]. destruct Hstop as [[Hcode Hx]|[Hcode Hx]].
    + rewrite Hcode. simpl. by split_and!.
    + rewrite Hcode, Hx. simpl.
      specialize (IH (index + 1) {| current_status := current_status plan;
        outcomes := (outcomes plan ++ [{| ao_index := index; ao_outcome := ActionFailed e |}])%list |} s1
        (conj Hok Hx)).
      destruct (plan_actions _ _ _ _ _) as [r s2]. destruct IH as (Hle2 & Hok2 & Hr).
      split; [by etrans|]. split; [done|]. destruct r as [plan'|[err|]]; simpl in *; [|done..].
      destruct Hr as (Hx2 & os & Hl & Ho & Hc). split; [done|]. exists (ActionFailed e :: os). simpl.
      split; [by constructor|]. split; [by rewrite Ho, <- app_assoc|done].
Qed.
End safety.

(** ** Validated results are finite *)

Section finite.
Context `{SerdeNumber}.

Definition finite (x : f64) : Prop := f64_finite x = true.
Definition all_finite (x : option f64) : Prop := ∀ y, x = Some y → finite y.

Definition result_finite (r : QuestionResult) : Prop :=
  match r with
  | RChoice r => (∀ l, ch_probabilities r = Some l → Forall finite l.*2) ∧ all_finite (ch_confidence r)
  | RScore r =>
      finite (sc_output r) ∧ (∀ l, sc_probabilities r = Some l → Forall finite l) ∧
      all_finite (sc_confidence r)
  | RNoul r => finite (no_output r)
  end.

Lemma probability_finite x : validate_probability x = Ok tt → finite x.
Proof. unfold validate_probability, finite. by destruct (f64_finite x). Qed.

Lemma confidence_finite x : validate_confidence x = Ok tt → all_finite x.
Proof. destruct x as [x|]; simpl; [|done]. intros Hx%probability_finite. by intros y [= <-]. Qed.

Lemma distribution_finite l : validate_distribution l = Ok tt → Forall finite l.
Proof.
  unfold validate_distribution. destruct (distribution_sum l f64_zero) as [sum|] eqn:Es; [|done].
  intros _. revert Es. generalize f64_zero. induction l as [|x l IH]; intros acc; simpl; [constructor|].
  destruct (validate_probability x) as [[]|] eqn:Ex; [|done]. simpl. intros Hs.
  constructor; [by apply probability_finite|by eapply IH].
Qed.

Lemma choice_finite r q : choice_validate r q = Ok tt → result_finite (RChoice r).
Proof.
  unfold choice_validate. destruct (question_validate q) as [[]|]; [|done]. simpl.
  destruct q as [text criteria|text criteria|text]; try done. destruct (negb _); [done|].
  destruct (ch_probabilities r) as [l|]; simpl.
  - destruct (_ || _); [done|]. destruct (validate_distribution l.*2) as [[]|] eqn:Ed; [|done]. simpl.
    intros Hc%confidence_finite. split; [|done]. intros l' [= <-]. by apply distribution_finite.
  - intros Hc%confidence_finite. by split.
Qed.

Lemma score_finite r q : score_validate r q = Ok tt → result_finite (RScore r).
Proof.
  unfold score_validate. destruct (question_validate q) as [[]|]; [|done]. simpl.
  destruct q as [text criteria|text criteria|text]; try done. unfold finite.
  destruct (f64_finite (sc_output r)); [|done]. simpl. destruct (negb _); [done|].
  destruct (sc_probabilities r) as [l|]; simpl.
  - destruct (negb _); [done|]. destruct (validate_distribution l) as [[]|] eqn:Ed; [|done]. simpl.
    intros Hc%confidence_finite. split_and!; [done| |done]. intros l' [= <-]. by apply distribution_finite.
  - intros Hc%confidence_finite. by split_and!.
Qed.

Lemma result_validate_finite r q required : result_validate r q required = Ok tt → result_finite r.
Proof.
  unfold result_validate. destruct r as [r|r|r], q as [? ?|? ?|?]; simpl; try done.
  - destruct (choice_validate r _) as [[]|] eqn:Er; [|done]. intros _. by eapply choice_finite.
  - destruct (score_validate r _) as [[]|] eqn:Er; [|done]. intros _. by eapply score_finite.
  - destruct (validate_probability _) as [[]|] eqn:Er; [|done]. intros _. by apply probability_finite.
Qed.

Definition decision_finite (d : DecisionResult) : Prop :=
  Forall (λ a, result_finite (an_result a)) (dr_answers d).

Lemma validate_answers_finite declaration rs answers attempts :
  validate_answers declaration rs answers attempts = Ok tt →
  Forall (λ a, result_finite (an_result a)) answers.
Proof.
  unfold validate_answers. destruct (from_contract _) as [[]|]; [|done]. simpl.
  destruct (negb (_ && _)); [done|]. destruct (negb (_ =? _)); [done|]. destruct (negb _); [done|].
  destruct (required_validate _ _ _ _) as [[]|]; [|done]. simpl.
  intros (_ & _ & Hf)%answers_validate_correct. eapply Forall_impl; [done|].
  intros a (q & r & _ & _ & Hr). by eapply result_validate_finite.
Qed.

Context `{!RecordWriter}.

Lemma assessment_finite a ds rs :
  validate_for_declarations a ds rs = Ok tt → Forall decision_finite (as_decisions a).
Proof.
  unfold validate_for_declarations. destruct (from_contract _) as [[]|]; [|done]. simpl.
  destruct (negb _); [done|]. destruct (negb _) eqn:El; [done|]. apply negb_false_iff, N.eqb_eq in El.
  destruct (pairs_validate _ _ _) as [[]|] eqn:Ep; [|done]. intros _.
  assert (length (as_decisions a) = length ds) as Hl by lia. clear El.
  revert ds Hl Ep. generalize (as_decisions a). intros decisions.
  induction decisions as [|d decisions IH]; intros [|declaration ds]; simpl; try done. intros [= Hl].
  destruct (result_validate_for_declaration d declaration rs) as [[]|] eqn:Ed; [|done]. simpl.
  intros Hp. constructor; [|by eapply IH]. unfold result_validate_for_declaration in Ed.
  destruct (negb _); [done|]. destruct (validate_answers _ _ _ _) as [[]|] eqn:Ea; [|done].
  by eapply validate_answers_finite.
Qed.
End finite.

Section context.
Context `{SerdeNumber}.
Hypothesis finite_numbers : ∀ x, f64_finite x = true → is_Some (number_of_f64 x).

Lemma finite_number_some x : finite x → is_Some (finite_number x).
Proof. intros [n Hn]%finite_numbers. unfold finite_number. rewrite Hn. simpl. eauto. Qed.

Lemma insert_optional_some k x m : all_finite x → is_Some (insert_optional k x m).
Proof.
  intros Hx. unfold insert_optional. destruct x as [x|]; [|eauto].
  destruct (finite_number_some x (Hx x eq_refl)) as [v ->]. simpl. eauto.
Qed.

Ltac insert_confidence Hc :=
  match goal with
  | |- context [insert_optional ?k ?x ?m] => destruct (insert_optional_some k x m Hc) as [? ->]
  end.

Lemma mapM_some {A B} (f : A → option B) l : Forall (λ x, is_Some (f x)) l → is_Some (mapM f l).
Proof. intros Hl. by apply mapM_is_Some. Qed.

Lemma answer_values_some r : result_finite r → is_Some (answer_values r).
Proof.
  destruct r as [r|r|r]; simpl.
  - intros [Hl Hc]. destruct (ch_probabilities r) as [l|].
    + destruct (mapM_some (λ kv : string * f64, v ← finite_number kv.2; Some (kv.1, v)) l) as [fields ->].
      { specialize (Hl l eq_refl). rewrite Forall_fmap in Hl. eapply Forall_impl; [exact Hl|].
        intros kv [v Hv]%finite_number_some. simpl in Hv. rewrite Hv. simpl. eauto. }
      simpl. insert_confidence Hc. simpl. eauto.
    + simpl. insert_confidence Hc. simpl. eauto.
  - intros (Ho & Hl & Hc). destruct (sc_probabilities r) as [l|].
    + destruct (mapM_some finite_number l) as [items ->].
      { eapply Forall_impl; [by apply Hl|]. apply finite_number_some. }
      simpl. insert_confidence Hc. simpl.
      destruct (finite_number_some _ Ho) as [v ->]. simpl. eauto.
    + simpl. insert_confidence Hc. simpl.
      destruct (finite_number_some _ Ho) as [v ->]. simpl. eauto.
  - intros Ho. destruct (finite_number_some _ Ho) as [v ->]. simpl. eauto.
Qed.

Lemma foldO_some {A X} (g : A → X → option A) xs :
  Forall (λ x, ∀ acc, is_Some (g acc x)) xs → ∀ acc, is_Some (foldO g xs acc).
Proof.
  induction 1 as [|x xs Hx _ IH]; intros acc; simpl; [eauto|].
  destruct (Hx acc) as [acc' ->]. simpl. apply IH.
Qed.

Lemma add_decision_some d acc : decision_finite d → is_Some (add_decision acc d).
Proof.
  intros Hd. unfold add_decision.
  assert (Forall (λ x, ∀ acc, is_Some (add_answer acc x)) (dr_answers d)) as Hf.
  { eapply Forall_impl; [exact Hd|]. intros x Hx acc'. unfold add_answer.
    destruct (answer_values_some _ Hx) as [v ->]. simpl. eauto. }
  match goal with |- context [foldO add_answer ?xs ?acc0] =>
    destruct (foldO_some add_answer xs Hf acc0) as [r Hr] end.
  rewrite Hr. simpl. eauto.
Qed.

Lemma context_no_panic ctx a :
  Forall decision_finite (as_decisions a) → context_with_assessment ctx a ≠ Err PlanningPanicked.
Proof.
  intros Hd. unfold context_with_assessment. destruct (as_object ctx) as [root|]; [|done].
  destruct (map_contains _ _); [done|].
  assert (Forall (λ d, ∀ acc, is_Some (add_decision acc d)) (as_decisions a)) as Hf
    by (eapply Forall_impl; [exact Hd|]; intros d Hd' acc; by apply add_decision_some).
  destruct (as_decisions a) as [|d ds]; [done|].
  match goal with |- context [foldO add_decision ?xs ?acc0] =>
    destruct (foldO_some add_decision xs Hf acc0) as [m Hm] end.
  by rewrite Hm.
Qed.
End context.

(** ** Inventories that are not demanded *)

Section undemanded.
Context `{SerdeNumber, UnicodeData, JsonDeserializer}.

Lemma no_aliases : names_match [] [].
Proof. intros a. by split; [|intros [? [=]]]. Qed.

Lemma acting_eval_same {A} (m1 m2 : evaluation A) : same m1 m2 → same (acting_eval m1) (acting_eval m2).
Proof. intros Hm s. unfold acting_eval. by rewrite Hm. Qed.

Section contexts.
Context (c1 c2 : Value) (Hcontexts : same_but_inventories c1 c2).

Lemma action_gate_same a :
  condition_reads [] (sa_condition a) = false → same (action_gate a c1) (action_gate a c2).
Proof.
  intros Hr. unfold action_gate. destruct (sa_condition a) as [c|]; [|reflexivity].
  apply same_bind; [|reflexivity].
  apply acting_eval_same, (condition_same _ _ Hcontexts []); [apply no_aliases|done].
Qed.

Lemma action_status_same a :
  (match sa_result a with ResultExpression e => expression_reads [] e | _ => false end) = false →
  same (action_status a c1) (action_status a c2).
Proof.
  intros Hr. unfold action_status. destruct (sa_result a) as [r|e]; [reflexivity|].
  apply same_bind.
  - apply acting_eval_same, (expression_same _ _ Hcontexts []); [apply no_aliases|done].
  - intros v. rewrite (enforce_same _ _ Hcontexts). reflexivity.
Qed.

Definition message_scoped (a : StatusAction) : bool :=
  match sa_message a with Some t => well_scoped [] t | None => true end.

Lemma action_message_same a :
  (match sa_message a with Some t => template_reads [] t | None => false end) = false →
  message_scoped a = true → same (action_message a c1) (action_message a c2).
Proof.
  intros Hr Hw. unfold action_message, message_scoped in *. destruct (sa_message a) as [t|]; [|reflexivity].
  apply same_bind; [|reflexivity]. unfold acting_prepare. apply acting_eval_same. intros s.
  destruct (prepare_template_coherent _ _ Hcontexts t [] Hr Hw 1 {| ps_eval := s; ps_bindings := [] |})
    as [-> _]; [apply no_aliases|done].
Qed.

Lemma plan_action_same a :
  action_reads a = false → message_scoped a = true → same (plan_action a c1) (plan_action a c2).
Proof.
  unfold action_reads. intros [[Hc Hs]%orb_false_iff Hm]%orb_false_iff Hw. unfold plan_action.
  apply same_bind; [reflexivity|]. intros _.
  apply same_bind; [by apply action_gate_same|]. intros [o|]; [reflexivity|].
  apply same_bind; [by apply action_status_same|]. intros [r|]; [|reflexivity].
  apply same_bind; [by apply action_message_same|]. reflexivity.
Qed.

Lemma plan_actions_same actions : ∀ index plan s,
  existsb action_reads actions = false → forallb message_scoped actions = true →
  plan_actions actions c1 index plan s = plan_actions actions c2 index plan s.
Proof.
  induction actions as [|a actions IH]; intros index plan s; simpl; [done|].
  intros [Ha Hr]%orb_false_iff [Hw Hws]%andb_true_iff. rewrite (plan_action_same a Ha Hw).
  destruct (plan_action a c2 s) as [[o|e] s1]; [by apply IH|]. destruct (_ || _); [done|by apply IH].
Qed.
End contexts.

Lemma value_get_insert k k' v root :
  value_get (JObject (map_insert k v root)) k' =
  if String.eqb k k' then Some v else value_get (JObject root) k'.
Proof.
  unfold value_get. simpl. destruct (String.eqb_spec k k') as [->|Hne].
  - apply map_get_insert_eq.
  - by apply map_get_insert_ne.
Qed.

(** Adding the decisions keeps two contexts the same but for inventories. *)
Lemma context_with_assessment_same r1 r2 assessed :
  same_but_inventories (JObject r1) (JObject r2) →
  (∃ stop, context_with_assessment (JObject r1) assessed = Err stop ∧
           context_with_assessment (JObject r2) assessed = Err stop) ∨
  ∃ v1 v2, context_with_assessment (JObject r1) assessed = Ok v1 ∧
           context_with_assessment (JObject r2) assessed = Ok v2 ∧ same_but_inventories v1 v2.
Proof.
  intros Hsame. unfold context_with_assessment, map_contains. simpl.
  pose proof (same_roots _ _ Hsame "decisions" ltac:(done) ltac:(done)) as Hd.
  unfold value_get in Hd. simpl in Hd. rewrite Hd. destruct (map_get "decisions" r2); [left; eauto|].
  destruct (as_decisions assessed) as [|d ds]; [right; by exists (JObject r1), (JObject r2)|].
  destruct (foldO add_decision (d :: ds) _) as [m|]; [right|left; eauto].
  eexists _, _. split_and!; [done|done|]. split.
  - intros root Hg Hr. rewrite !value_get_insert. destruct (String.eqb _ _); [done|].
    by apply (same_roots _ _ Hsame).
  - rewrite !value_get_insert. simpl. apply Hsame.
Qed.
End undemanded.

(** ** Properties *)

Section properties.
Context `{SerdeNumber, UnicodeData, JsonDeserializer, !RecordWriter}.

Lemma existsb_false_in {A} (f : A → bool) l x : existsb f l = false → In x l → f x = false.
Proof.
  induction l as [|y l IH]; simpl; [done|]. intros [Hy Hl]%orb_false_iff [->|Hin]; [done|by apply IH].
Qed.

Lemma step_limit depth s e s' :
  on_budget (step depth) s = (Err e, s') → code e = EvaluationLimitExceeded.
Proof.
  unfold on_budget, step, bind, get_state, lift, check_active.
  destruct (exhausted (budget s)); [by intros [= <- <-]|].
  destruct (_ <? _); [by intros [= <- <-]|]. destruct (_ <=? _); [by intros [= <- <-]|done].
Qed.

(** C40: planning the actions of an assessment that validates, on an active
    shared budget, never panics.  A plan has one outcome per action in authored
    order, each of which fits its action (a literal status is applied as it is,
    a message is never blank, only a conditional action is skipped by its
    condition, a failure is never a spent limit); its status is that of the last
    applied action, or the prior status when none applied, and the budget is
    still usable.  Otherwise there is no plan: the budget is spent, or the
    context is not an object or already has a [decisions] root. *)
Theorem plan_status_actions_correct actions ctx assessed prior ds rs s :
  budget_live (budget s) →
  (∀ x, f64_finite x = true → is_Some (number_of_f64 x)) →
  validate_for_declarations assessed ds rs = Ok tt →
  let '(r, s') := plan_status_actions_traced actions ctx assessed prior s in
  budget_le (budget s) (budget s') ∧ budget_ok (budget s') = true ∧
  match r with
  | Ok (plan, _) =>
      exhausted (budget s') = false ∧
      ∃ os, Forall2 outcome_fits actions os ∧ outcomes plan = numbered 0 os ∧
            current_status plan = last_write prior os
  | Err (PlanningFailed e) =>
      (planning_code e = EvaluationLimitExceeded ∧ exhausted (budget s') = true) ∨
      (planning_code e = RuntimeInvalidContext ∧
       match ctx with JObject root => map_contains "decisions" root = true | _ => True end)
  | Err PlanningPanicked => False
  end.
Proof.
  intros Hs Hfinite Hv. unfold plan_status_actions_traced.
  destruct (on_budget_any (step 1) ltac:(auto with budget) s Hs) as [Hle HQ].
  destruct (on_budget (step 1) s) as [[[]|e] s1] eqn:Es; simpl in Hle, HQ.
  2: { destruct HQ as [Hok Hstop]. split; [apply Hle|]. split; [done|]. left.
       destruct Hstop as [[Hc Hx]|[Hc Hx]]; [by split|]. by rewrite (step_limit _ _ _ _ Es) in Hc. }
  destruct HQ as [Hs1 _].
  pose proof (context_no_panic Hfinite ctx assessed (assessment_finite _ _ _ Hv)) as Hpanic.
  destruct (context_with_assessment ctx assessed) as [c|stop] eqn:Ec.
  - pose proof (plan_actions_correct actions c 0 {| current_status := prior; outcomes := [] |}
      {| ac_eval := s1; ac_trace := EvaluationTrace_default |} Hs1) as Hplan.
    destruct (plan_actions _ _ _ _ _) as [r s2]. destruct Hplan as (Hle2 & Hok & Hr).
    split; [etrans; [apply Hle|apply Hle2]|]. split; [done|].
    destruct r as [plan|[err|]]; simpl in *; [done|by left|done].
  - split; [apply Hle|]. split; [apply Hs1|]. destruct stop as [e|]; [|done].
    unfold context_with_assessment in Ec. right.
    destruct ctx as [| | | | |root]; try (injection Ec as <-; done). simpl in Ec.
    destruct (map_contains "decisions" root); [by injection Ec as <-|].
    destruct (as_decisions assessed); [done|]. by destruct (foldO _ _ _).
Qed.

(** A check that demands no inventories cannot observe them.  On two frozen
    contexts that differ only in their inventories, its trigger condition has
    one outcome if the condition demands none; and if the candidate demands
    none, every decision input and the whole action plan come out the same, with
    the same traces, errors and budget, given alias names that do not shadow
    each other. *)
Theorem undemanded_inventories_irrelevant check r1 r2 :
  same_but_inventories (JObject r1) (JObject r2) →
  (demand_condition (current_inventory_demand check) = false →
   evaluate_trigger_condition check (JObject r1) = evaluate_trigger_condition check (JObject r2)) ∧
  (demand_candidate (current_inventory_demand check) = false →
   forallb (λ d, well_scoped [] (d_input d)) (cc_decisions check) = true →
   forallb message_scoped (cc_actions check) = true →
   ∀ s,
   (∀ d, In d (cc_decisions check) →
      evaluate_decision_input_with_budget d (JObject r1) s =
      evaluate_decision_input_with_budget d (JObject r2) s) ∧
   (∀ assessed prior,
      plan_status_actions_traced (cc_actions check) (JObject r1) assessed prior s =
      plan_status_actions_traced (cc_actions check) (JObject r2) assessed prior s)).
Proof.
  intros Hsame. split; [by apply trigger_condition_same|]. simpl.
  intros [Hd Ha]%orb_false_iff Hws Hms s. split.
  - intros d Hin. apply decision_input_same; [done| |].
    + by apply existsb_false_in with (x := d) in Hd.
    + by rewrite forallb_forall in Hws; apply Hws.
  - intros assessed prior. unfold plan_status_actions_traced.
    destruct (on_budget (step 1) s) as [[[]|e] s1]; [|done].
    destruct (context_with_assessment_same r1 r2 assessed Hsame)
      as [(stop & -> & ->)|(v1 & v2 & -> & -> & Hv)]; [done|].
    by rewrite (plan_actions_same v1 v2 Hv).
Qed.
End properties.

(** ** Sample plans *)

Section sample.
#[local] Existing Instance text_numbers.
#[local] Existing Instance ascii_unicode.
#[local] Existing Instance no_json.
#[local] Existing Instance short_writer.

Definition sample_root (skills : string) : Map Value :=
  [("global", JString skills); ("repo", JObject [("root", JString "/work"); ("skills", JString skills)])].

(** A failure under the probability of [high], then a success under a path that
    the context does not have. *)
Definition sample_actions : list StatusAction :=
  (cc_actions sample_check ++
   [{| sa_condition := Some (CondExpression (EPath [PProperty "missing"]));
       sa_result := ResultLiteral Success; sa_message := None |}])%list.

Lemma text_numbers_finite x : f64_finite x = true → is_Some (number_of_f64 x).
Proof. destruct x; simpl; by eauto. Qed.

Lemma plan_status_actions_correct_witness :
  plan_status_actions sample_actions (JObject (sample_root "a")) sample_assessment None =
    Ok {| current_status := Some Failure;
          outcomes := [{| ao_index := 0; ao_outcome := Applied Failure None |};
                       {| ao_index := 1; ao_outcome := SkippedConditionUnavailable |}] |} ∧
  ∃ r s', plan_status_actions_traced sample_actions (JObject (sample_root "a")) sample_assessment None
    fresh_state = (r, s') ∧ budget_ok (budget s') = true.
Proof.
  split; [vm_refl|].
  pose proof (plan_status_actions_correct sample_actions (JObject (sample_root "a")) sample_assessment None
    [sample_decision] (question_requirements sample_check) fresh_state
    ltac:(by split) text_numbers_finite ltac:(vm_refl)) as Hplan.
  destruct (plan_status_actions_traced _ _ _ _ _) as [r s']. exists r, s'. split; [done|apply Hplan].
Defined.

Lemma sample_roots_same : same_but_inventories (JObject (sample_root "a")) (JObject (sample_root "b")).
Proof.
  split; [|reflexivity]. intros root Hg Hn. unfold sample_root, value_get, as_object. simpl.
  destruct (String.eqb_spec root "global") as [|_]; [done|].
  destruct (String.eqb_spec root "repo") as [|_]; [done|]. done.
Qed.

Lemma undemanded_inventories_irrelevant_witness :
  plan_status_actions_traced (cc_actions sample_check) (JObject (sample_root "a")) sample_assessment None fresh_state =
  plan_status_actions_traced (cc_actions sample_check) (JObject (sample_root "b")) sample_assessment None fresh_state.
Proof.
  apply (undemanded_inventories_irrelevant sample_check (sample_root "a") (sample_root "b") sample_roots_same);
    vm_refl.
Defined.
End sample.
