(* ===== verification/Progress.v ===== *)
(** * Saved decision progress (crates/antiburn-checks/src/check_store.rs)

    The data that the host storage keeps for the runtime, and the validation of
    the durable attempt rows of one candidate.  A decision has at most two rows;
    a second one follows only a first failure that is safe to repeat. *)

From stdpp Require Import gmap.
From S2P Require Import Prelude RustString Diagnostics Expression Domain Template Decision Check Json Budget Provenance Scalars Evaluator Fit BoundedJson Results Actions.

#[local] Open Scope N_scope.

(** ** Data *)

Record StoreError := { store_message : string }.

Definition store_error {A} (message : string) : result A StoreError :=
  Err {| store_message := message |}.

Inductive AcceptanceOutcome := Accepted | Deferred | AcceptanceStale | AlreadyAccepted.

Inductive AttemptFailure := FailSafeTransient | FailUnknown | FailPermanent.

Inductive ClaimOutcome := Current | Stale.

#[export] Instance AttemptFailure_eq_dec : EqDecision AttemptFailure.
Proof. solve_decision. Defined.
#[export] Instance ClaimOutcome_eq_dec : EqDecision ClaimOutcome.
Proof. solve_decision. Defined.

Inductive DecisionAttemptOutcome :=
| DispatchIntent
| SafeTransient
| AttemptUnknown
| Permanent
| Answer (r : DecisionResult).

Record SavedDecisionAttempt := {
  sa_attempt : DecisionAttempt;
  sa_outcome : DecisionAttemptOutcome
}.

Record DecisionProgress := { dp_attempts : list SavedDecisionAttempt }.

Definition DecisionProgress_default : DecisionProgress := {| dp_attempts := [] |}.

Inductive DecisionProgressTerminal :=
| TUnresolvedIntent | TUnknown | TPermanent | TAttemptsExhausted.

Inductive DecisionProgressState :=
| PNext (attempt : DecisionAttempt) (unfinished_decisions : N)
| PComplete (a : EvaluatedAssessment)
| PTerminal (t : DecisionProgressTerminal).

Record ValidatedDecisionProgress := { vp_attempts : N; vp_state : DecisionProgressState }.

Section claims.
Context `{SerdeNumber}.

Definition CandidateId_from (c : FrozenCandidate) : list N := fr_fingerprint c.

Record ClaimedCandidate := {
  cl_id : list N;
  cl_candidate : FrozenCandidate;
  cl_prior_status : option StatusResult;
  cl_fence : N
}.

Inductive CandidateClaim :=
| Claimed (c : ClaimedCandidate)
| ClaimNotDue (retry_at_unix_ms : N)
| ClaimStale.

Record AssessmentAcceptance := {
  aa_claimed : ClaimedCandidate;
  aa_evaluated : EvaluatedAssessment;
  aa_actions : ActionPlan
}.

(** [status_write]: the status of the last applied outcome. *)
Definition status_write (a : AssessmentAcceptance) : option StatusResult :=
  head (omap (λ o, match ao_outcome o with Applied r _ => Some r | _ => None end)
    (reverse (outcomes (aa_actions a)))).
End claims.

(** ** Validation of saved progress *)

Notation Rows := (gmap (string * N) DecisionAttemptOutcome).

Definition invalid_progress {A} : result A StoreError :=
  store_error "invalid saved decision progress".

Section progress.
Context `{SerdeNumber, !RecordWriter}.

(** The loop that collects the rows by decision and number. *)
Fixpoint collect_rows (declarations : list DecisionBlock) (saved : list SavedDecisionAttempt)
    (rows : Rows) : result Rows StoreError :=
  match saved with
  | [] => Ok rows
  | row :: saved =>
      let key := (da_decision (sa_attempt row), da_number (sa_attempt row)) in
      match attempt_validate (sa_attempt row) with
      | Err _ => invalid_progress
      | Ok _ =>
          if negb (existsb (λ block, String.eqb (d_name block) (da_decision (sa_attempt row))) declarations) ||
             (match rows !! key with Some _ => true | None => false end)
          then invalid_progress
          else collect_rows declarations saved (<[key := sa_outcome row]> rows)
      end
  end.

(** The attempt that counts of a decision's two rows, with its outcome. *)
Definition counted_attempt (first second : option DecisionAttemptOutcome) :
    result (N * option DecisionAttemptOutcome) StoreError :=
  match first, second with
  | None, None => Ok (1, None)
  | None, Some _ => invalid_progress
  | Some SafeTransient, second => Ok (2, second)
  | Some first, None => Ok (1, Some first)
  | Some _, Some _ => invalid_progress
  end.

(** What a decision's rows add: an answer, or the state that ends the search. *)
Definition decision_progress (requirements : list QuestionRequirements) (block : DecisionBlock)
    (unfinished number : N) (outcome : option DecisionAttemptOutcome) :
    result (DecisionResult + DecisionProgressState) StoreError :=
  match outcome with
  | Some (Answer answer) =>
      match result_validate_for_declaration answer block requirements with
      | Err _ => invalid_progress
      | Ok _ => if negb (dr_attempts answer =? number) then invalid_progress else Ok (inl answer)
      end
  | Some DispatchIntent => Ok (inr (PTerminal TUnresolvedIntent))
  | Some AttemptUnknown => Ok (inr (PTerminal TUnknown))
  | Some Permanent => Ok (inr (PTerminal TPermanent))
  | Some SafeTransient => Ok (inr (PTerminal TAttemptsExhausted))
  | None =>
      match DecisionAttempt_new (d_name block) number with
      | Err _ => invalid_progress
      | Ok attempt => Ok (inr (PNext attempt unfinished))
      end
  end.

(** The loop over the declarations: the rows that are left, the answers and the
    state.  [blocks] are the declarations from the current index on, so their
    number is [declarations.len() - index]. *)
Fixpoint scan_declarations (requirements : list QuestionRequirements) (blocks : list DecisionBlock)
    (rows : Rows) (answers : list DecisionResult) (state : option DecisionProgressState) :
    result (Rows * list DecisionResult * option DecisionProgressState) StoreError :=
  match blocks with
  | [] => Ok (rows, answers, state)
  | block :: rest =>
      let first := rows !! (d_name block, 1) in
      let rows := delete (d_name block, 1) rows in
      let second := rows !! (d_name block, 2) in
      let rows := delete (d_name block, 2) rows in
      match state with
      | Some _ =>
          match first, second with
          | None, None => scan_declarations requirements rest rows answers state
          | _, _ => invalid_progress
          end
      | None =>
          let? counted := counted_attempt first second in
          let? found :=
            decision_progress requirements block (N.of_nat (length blocks)) counted.1 counted.2 in
          match found with
          | inl answer => scan_declarations requirements rest rows (answers ++ [answer]) None
          | inr state => scan_declarations requirements rest rows answers (Some state)
          end
      end
  end.

Definition validate_decision_progress (declarations : list DecisionBlock)
    (requirements : list QuestionRequirements) (progress : DecisionProgress) :
    result ValidatedDecisionProgress StoreError :=
  match validate_requirements declarations requirements with
  | Err _ => invalid_progress
  | Ok _ =>
      let? rows := collect_rows declarations (dp_attempts progress) ∅ in
      let attempts := N.of_nat (size rows) in
      let? '(rest, answers, state) := scan_declarations requirements declarations rows [] None in
      if negb (bool_decide (rest = ∅)) then invalid_progress
      else
        match measure_json RESULT_LIMITS (assessment_serial RESULT_VERSION answers attempts) with
        | Err _ => invalid_progress
        | Ok _ =>
            match state with
            | Some state => Ok {| vp_attempts := attempts; vp_state := state |}
            | None =>
                match EvaluatedAssessment_new declarations requirements answers with
                | Err _ => invalid_progress
                | Ok evaluated =>
                    if negb (as_attempts evaluated =? attempts) then invalid_progress
                    else Ok {| vp_attempts := attempts; vp_state := PComplete evaluated |}
                end
            end
        end
  end.
End progress.
