(* ===== verification/Checkpoint.v ===== *)
(** * Selector checkpoints (crates/antiburn-checks/src/check_store.rs)

    The durable progress of one activation: the last publication, the last
    observation position and the selection state, with its JSON checkpoint and
    the compare-and-swap token of a page, and the readers that decode it. *)

From stdpp Require Import gmap sorting.
From S2P Require Import Prelude Order RustString Json Diagnostics Expression Budget Provenance Scalars Fit Filters Domain Context Selection Messages BoundedJson Serde Progress.

#[local] Open Scope N_scope.

Section checkpoint.
Context `{SerdeNumber, !CandidateDigest}.

Record SourceProgress := {
  publication_cursor : PublicationCursor;
  observation_position : ObservationPosition;
  progress_selection : SelectionState
}.

Definition SourceProgress_default : SourceProgress :=
  {| publication_cursor := 0; observation_position := 0;
     progress_selection := SelectionState_default |}.

Record SourceProgressHead := {
  head_cursor : PublicationCursor;
  head_position : ObservationPosition;
  checkpoint_fingerprint : list N
}.

(** ** The JSON of a checkpoint

    What [json!] makes of the derived serializers.  A map is written in the
    order of its keys. *)
Definition filter_field_name (f : FilterField) : string :=
  match f with
  | FieldModel => "Model" | FieldFastMode => "FastMode" | FieldPaths => "Paths"
  | FieldPathsIgnore => "PathsIgnore"
  end.

Definition filter_reason_name (r : FilterReason) : string :=
  match r with
  | Unavailable => "Unavailable" | Filters.Incomplete => "Incomplete" | Invalid => "Invalid"
  | KnownEmpty => "KnownEmpty" | NoMatch => "NoMatch" | IgnoredPath => "IgnoredPath"
  | LimitExceeded => "LimitExceeded"
  end.

Definition scope_name (s : AttributionScope) : string :=
  match s with ScopeMessage => "Message" | ScopeTurn => "Turn" | ScopeSession => "Session" end.

Definition membership_name (m : ResultMembership) : string :=
  match m with
  | MUnknown => "Unknown" | MHistorical => "Historical" | MExcluded => "Excluded"
  | MSelected => "Selected" | MRetired => "Retired" | MRemoved => "Removed"
  end.

Definition u64_value (n : N) : Value := JNumber (number_of_u64 n).

Definition diagnostic_value (d : FilterDiagnostic) : Value :=
  json_object
    [("field", JString (filter_field_name (fd_field d)));
     ("reason", JString (filter_reason_name (fd_reason d)));
     ("scope", JString (scope_name (fd_scope d))); ("limits", strings_value (fd_limits d))].

Definition selected_value (m : SelectedMessage) : Value :=
  json_object
    [("version", JString (evidence_version (sm_version m)));
     ("native_order", JString (order_key (sm_native_order m)));
     ("message", json_object [("id", JString (m_id (sm_message m)));
                              ("value", m_value (sm_message m))]);
     ("complete", JBool (sm_complete m))].

Definition branch_value (b : BranchSelection) : Value :=
  json_object
    ([("results", JArray (selected_value <$> results b));
      ("coverage_complete", JBool (coverage_complete b));
      ("identity_limit_reached", JBool (identity_limit_reached b))] ++
     match last_filter_diagnostic b with
     | Some d => [("last_filter_diagnostic", diagnostic_value d)]
     | None => []
     end)%list.

Definition seen_value (s : SeenResult) : Value :=
  json_object
    ([("terminal_seen", JBool (terminal_seen s)); ("revision", u64_value (sr_revision s));
      ("version", JString (evidence_version (sr_version s)));
      ("native_order", JString (order_key (sr_native_order s)))] ++
     match membership s with
     | MUnknown => []
     | m => [("membership", JString (membership_name m))]
     end)%list.

(** The derived order of [(BranchId, String)] *)
Definition seen_key_le (x y : Key * SeenResult) : Prop :=
  match String.compare (branch_id x.1.1) (branch_id y.1.1) with
  | Lt => True
  | Eq => String.compare x.1.2 y.1.2 ≠ Gt
  | Gt => False
  end.

#[export] Instance seen_key_le_dec : RelDecision seen_key_le.
Proof. intros x y. unfold seen_key_le. destruct (String.compare _ _); apply _. Defined.

Definition seen_entries (s : SelectionState) : list (Key * SeenResult) :=
  merge_sort seen_key_le (map_to_list (seen_results s)).

Definition progress_value (p : SourceProgress) : Value :=
  json_object
    [("version", u64_value 1); ("publication_cursor", u64_value (publication_cursor p));
     ("observation_position", u64_value (observation_position p));
     ("branches", json_object ((λ kb, (branch_id kb.1, branch_value kb.2)) <$>
                               map_to_list (branches (progress_selection p))));
     ("seen_results", JArray ((λ ks, JArray [JArray [JString (branch_id ks.1.1); JString ks.1.2];
                                             seen_value ks.2]) <$>
                              seen_entries (progress_selection p)))].

(** [SourceProgress::encode]; a JSON value always serializes. *)
Definition encode (p : SourceProgress) : string := value_text (progress_value p).

(** [SourceProgress::head] *)
Definition head (p : SourceProgress) : SourceProgressHead :=
  {| head_cursor := publication_cursor p; head_position := observation_position p;
     checkpoint_fingerprint := sha256 (encode p) |}.
End checkpoint.

(** ** Decoding of selector checkpoints (crates/antiburn-checks/src/check_store.rs)

    [SourceProgress::decode] with the readers that are derived for the state of
    the selection, and the round trip of a checkpoint: a restart finds exactly the
    progress that was encoded. *)

(** ** Derived readers (selection.rs, filters.rs, domain.rs) *)

Definition read_filter_field : reader FilterField :=
  read_variant [("Model", FieldModel); ("FastMode", FieldFastMode); ("Paths", FieldPaths);
                ("PathsIgnore", FieldPathsIgnore)].

Definition read_filter_reason : reader FilterReason :=
  read_variant [("Unavailable", Unavailable); ("Incomplete", Filters.Incomplete); ("Invalid", Invalid);
                ("KnownEmpty", KnownEmpty); ("NoMatch", NoMatch); ("IgnoredPath", IgnoredPath);
                ("LimitExceeded", LimitExceeded)].

Definition read_scope : reader AttributionScope :=
  read_variant [("Message", ScopeMessage); ("Turn", ScopeTurn); ("Session", ScopeSession)].

Definition read_membership : reader ResultMembership :=
  read_variant [("Unknown", MUnknown); ("Historical", MHistorical); ("Excluded", MExcluded);
                ("Selected", MSelected); ("Retired", MRetired); ("Removed", MRemoved)].

Definition read_diagnostic : reader FilterDiagnostic := λ ev,
  fields ← read_fields false ["field"; "reason"; "scope"; "limits"] ev;
  field ← required read_filter_field (fields "field");
  reason ← required read_filter_reason (fields "reason");
  scope ← required read_scope (fields "scope");
  limits ← required (read_seq read_string) (fields "limits");
  Some {| fd_field := field; fd_reason := reason; fd_scope := scope; fd_limits := limits |}.

(** Newtypes are transparent. *)
Definition read_version : reader EvidenceVersion := λ ev,
  (λ s, {| evidence_version := s |}) <$> read_string ev.
Definition read_order : reader NativeOrderKey := λ ev, (λ s, {| order_key := s |}) <$> read_string ev.
Definition read_branch : reader BranchId := λ ev, (λ s, {| branch_id := s |}) <$> read_string ev.

Definition read_seen : reader SeenResult := λ ev,
  fields ← read_fields false ["terminal_seen"; "revision"; "version"; "native_order"; "membership"] ev;
  terminal ← required read_bool (fields "terminal_seen");
  revision ← required read_u64 (fields "revision");
  version ← required read_version (fields "version");
  order ← required read_order (fields "native_order");
  membership ← defaulted MUnknown read_membership (fields "membership");
  Some {| terminal_seen := terminal; sr_revision := revision; sr_version := version;
          sr_native_order := order; membership := membership |}.

Section checkpoint.
Context `{SerdeNumber}.

Definition read_message : reader Message := λ ev,
  fields ← read_fields false ["id"; "value"] ev;
  id ← required read_string (fields "id");
  value ← required read_value (fields "value");
  Some {| m_id := id; m_value := value |}.

Definition read_selected : reader SelectedMessage := λ ev,
  fields ← read_fields false ["version"; "native_order"; "message"; "complete"] ev;
  version ← required read_version (fields "version");
  order ← required read_order (fields "native_order");
  message ← required read_message (fields "message");
  complete ← required read_bool (fields "complete");
  Some {| sm_version := version; sm_native_order := order; sm_message := message; sm_complete := complete |}.

Definition read_branch_selection : reader BranchSelection := λ ev,
  fields ← read_fields false
    ["results"; "coverage_complete"; "identity_limit_reached"; "last_filter_diagnostic"] ev;
  results ← required (read_seq read_selected) (fields "results");
  coverage ← required read_bool (fields "coverage_complete");
  limit ← defaulted false read_bool (fields "identity_limit_reached");
  diagnostic ← defaulted None (read_option read_diagnostic) (fields "last_filter_diagnostic");
  Some {| results := results; coverage_complete := coverage; identity_limit_reached := limit;
          last_filter_diagnostic := diagnostic |}.

(** ** [SourceProgress::decode] *)

Record SavedCheckpoint := {
  ck_version : N;
  ck_publication_cursor : N;
  ck_observation_position : N;
  ck_branches : Map BranchSelection;
  ck_seen_results : list (Key * SeenResult)
}.

Definition read_checkpoint : reader SavedCheckpoint := λ ev,
  fields ← read_fields true
    ["version"; "publication_cursor"; "observation_position"; "branches"; "seen_results"] ev;
  version ← required read_u32 (fields "version");
  cursor ← required read_u64 (fields "publication_cursor");
  position ← required read_u64 (fields "observation_position");
  branches ← required (read_map read_branch_selection) (fields "branches");
  seen ← required (read_seq (read_pair (read_pair read_branch read_string) read_seen)) (fields "seen_results");
  Some {| ck_version := version; ck_publication_cursor := cursor; ck_observation_position := position;
          ck_branches := branches; ck_seen_results := seen |}.

(** [collect] into a map: the last entry of a key stays. *)
Definition collect_map `{Countable K} {V} (l : list (K * V)) : gmap K V :=
  fold_left (λ m kv, <[fst kv := snd kv]> m) l ∅.

Context `{JsonDeserializer}.

(** [serde_json::from_str] *)
Definition from_str {A} (r : reader A) (text : string) : option A :=
  x ← r (json_events text); if json_end text then Some x else None.

Definition progress_decode (text : string) : result SourceProgress StoreError :=
  match from_str read_checkpoint text with
  | None => Err {| store_message := "invalid selector checkpoint" |}
  | Some checkpoint =>
      if negb (ck_version checkpoint =? 1) then
        Err {| store_message := "unsupported selector checkpoint version" |}
      else
        Ok {| publication_cursor := ck_publication_cursor checkpoint;
              observation_position := ck_observation_position checkpoint;
              progress_selection :=
                {| branches := collect_map ((λ kv, ({| branch_id := fst kv |}, snd kv)) <$> ck_branches checkpoint);
                   seen_results := collect_map (ck_seen_results checkpoint) |} |}
  end.
End checkpoint.
