(* ===== verification/CheckpointFacts.v ===== *)
(** * Facts about selector checkpoints (crates/antiburn-checks/src/check_store.rs)

    The round trip of a checkpoint: a restart finds exactly the progress that was
    encoded. *)

From stdpp Require Import gmap sorting.
From S2P Require Import Prelude Order RustString Json Diagnostics Expression Budget Provenance Scalars Fit Filters Domain Context Selection Messages BoundedJson Serde Progress Checkpoint.

#[local] Open Scope N_scope.

(** ** Objects from entries *)

Lemma object_of_spec `{SerdeNumber} (l : list (string * Value)) :
  NoDup l.*1 → object_of l ≡ₚ l ∧ ascending String.compare (object_of l).
Proof.
  intros Hn. unfold object_of.
  enough (∀ acc : Map Value, NoDup (l.*1 ++ acc.*1) → ascending String.compare acc →
    fold_left (λ m kv, map_insert kv.1 kv.2 m) l acc ≡ₚ l ++ acc ∧
    ascending String.compare (fold_left (λ m kv, map_insert kv.1 kv.2 m) l acc)) as Hall.
  { destruct (Hall [] ltac:(by rewrite app_nil_r) ltac:(constructor)) as [Hp ?]. by rewrite app_nil_r in Hp. }
  clear Hn. induction l as [|[k v] l IH]; intros acc Hn Ha; [done|].
  csimpl in *. apply NoDup_cons in Hn as [Hk Hn].
  assert (map_contains k acc = false) as Hc.
  { unfold map_contains. destruct (map_get k acc) eqn:Eg; [|done]. destruct Hk. apply elem_of_app. right.
    clear -Eg. induction acc as [|[k' w] acc IH]; [done|]. simpl in *.
    destruct (String.eqb_spec k k') as [->|]; [left|right; by apply IH]. }
  pose proof (map_insert_fresh k v acc Hc) as Hp.
  destruct (IH (map_insert k v acc)) as [Hp' Ha'].
  - pose proof (fmap_Permutation fst _ _ Hp) as Hf. rewrite Hf. csimpl.
    rewrite <- Permutation_middle. by constructor.
  - rewrite map_insert_btree. by apply entry_ascending; [apply _..|].
  - split; [|done]. rewrite Hp', Hp. by rewrite <- Permutation_middle.
Qed.

Lemma collect_map_to_list `{Countable K} {V} (m : gmap K V) l : l ≡ₚ map_to_list m → collect_map l = m.
Proof.
  intros Hp. unfold collect_map. rewrite <- fold_left_rev_right.
  assert (NoDup l.*1) as Hn by (rewrite Hp; apply NoDup_fst_map_to_list).
  transitivity (list_to_map (rev l) : gmap K V).
  { induction (rev l) as [|[k v] r IH]; [done|]. simpl. by rewrite IH. }
  rewrite <- (list_to_map_to_list m). apply list_to_map_proper.
  - assert (rev l ≡ₚ l) as Hr by (symmetry; apply Permutation_rev). by rewrite Hr.
  - etrans; [symmetry; apply Permutation_rev|done].
Qed.

(** A struct in a value that [json!] builds from literal keys: the fields become
    variables and the object is computed before it is read. *)
Ltac read_struct :=
  repeat match goal with
  | Hr : from_value _ ?v = Some _ |- _ => revert Hr; generalize v; intros ? Hr; unfold from_value in Hr
  end;
  match goal with
  | |- context [json_object ?l] =>
      let m := eval vm_compute in (object_of l) in change (json_object l) with (JObject m)
  end;
  unfold from_value in *; cbn;
  repeat (match goal with Hr : _ (value_event _) = Some _ |- _ => rewrite Hr; clear Hr end; cbn);
  reflexivity.

Section checkpoint.
Context `{SerdeNumber, !SerdeNumberLaws}.

(** ** Records *)

Lemma value_strings l : from_value (read_seq read_string) (strings_value l) = Some l.
Proof. by apply (value_seq read_string JString), Forall_forall. Qed.

Lemma value_diagnostic d : from_value read_diagnostic (diagnostic_value d) = Some d.
Proof.
  destruct d as [field reason scope limits]. unfold diagnostic_value. simpl.
  pose proof (value_strings limits) as Hl.
  assert (from_value read_filter_field (JString (filter_field_name field)) = Some field) as Hf by (by destruct field).
  assert (from_value read_filter_reason (JString (filter_reason_name reason)) = Some reason) as Hr by (by destruct reason).
  assert (from_value read_scope (JString (scope_name scope)) = Some scope) as Hs by (by destruct scope).
  read_struct.
Qed.

Definition selected_storable (m : SelectedMessage) : Prop := value_sorted (m_value (sm_message m)) = true.

Lemma value_selected m : selected_storable m → from_value read_selected (selected_value m) = Some m.
Proof.
  destruct m as [[version] [order] [id value] complete]. unfold selected_storable, selected_value. simpl.
  intros Hs%read_value_event. read_struct.
Qed.

Definition branch_storable (b : BranchSelection) : Prop := Forall selected_storable (results b).

Lemma value_branch b : branch_storable b → from_value read_branch_selection (branch_value b) = Some b.
Proof.
  destruct b as [results coverage limit diagnostic]. unfold branch_storable, branch_value. simpl. intros Hs.
  assert (from_value (read_seq read_selected) (JArray (selected_value <$> results)) = Some results) as Hr.
  { apply (value_seq read_selected selected_value). eapply Forall_impl; [exact Hs|]. apply value_selected. }
  destruct diagnostic as [d|]; cbn [app]; [|read_struct].
  assert (from_value (read_option read_diagnostic) (diagnostic_value d) = Some (Some d)) as Hd.
  { pose proof (value_diagnostic d) as Hd. unfold from_value in *. unfold read_option.
    change (value_event (diagnostic_value d)) with (EvMap ((λ kv, (kv.1, value_event kv.2)) <$>
      object_of [("field", JString (filter_field_name (fd_field d)));
                 ("reason", JString (filter_reason_name (fd_reason d)));
                 ("scope", JString (scope_name (fd_scope d))); ("limits", strings_value (fd_limits d))]) true) in *.
    by rewrite Hd. }
  read_struct.
Qed.

(** Positions and revisions are [u64]. *)
Definition seen_storable (s : SeenResult) : Prop := sr_revision s ≤ U64_MAX.

Lemma value_seen s : seen_storable s → from_value read_seen (seen_value s) = Some s.
Proof.
  destruct s as [terminal revision [version] [order] member]. unfold seen_storable, seen_value. simpl.
  intros Hn%value_u64. unfold u64_value.
  destruct member; cbn [app]; read_struct.
Qed.

(** ** Checkpoints *)

(** What the types of the source say of a progress: [u64] numbers, and objects
    that are [BTreeMap]s. *)
Record progress_storable (p : SourceProgress) : Prop := {
  ps_cursor : publication_cursor p ≤ U64_MAX;
  ps_position : observation_position p ≤ U64_MAX;
  ps_branches : map_Forall (λ _ b, branch_storable b) (branches (progress_selection p));
  ps_seen : map_Forall (λ _ s, seen_storable s) (seen_results (progress_selection p))
}.

Definition branch_entries (m : gmap BranchId BranchSelection) : Value :=
  json_object ((λ kb, (branch_id kb.1, branch_value kb.2)) <$> map_to_list m).

Lemma value_branches (m : gmap BranchId BranchSelection) :
  map_Forall (λ _ b, branch_storable b) m →
  ∃ l, from_value (read_map read_branch_selection) (branch_entries m) = Some l ∧
       collect_map ((λ kv, ({| branch_id := kv.1 |}, kv.2)) <$> l) = m.
Proof.
  intros Hm. set (f := λ kb : BranchId * BranchSelection, (branch_id kb.1, branch_value kb.2)).
  assert (NoDup (f <$> map_to_list m).*1) as Hn.
  { rewrite <- list_fmap_compose.
    replace ((fst ∘ f) <$> map_to_list m) with (branch_id <$> (map_to_list m).*1)
      by (by rewrite <- list_fmap_compose).
    apply NoDup_fmap_2; [by intros [] [] [= ->]|apply NoDup_fst_map_to_list]. }
  destruct (object_of_spec _ Hn) as [Hp Ha].
  destruct (Permutation_map_inv f (map_to_list m) Hp) as (L & HL & HpL).
  exists ((λ kb, (branch_id kb.1, kb.2)) <$> L). split.
  - unfold branch_entries, json_object. apply value_map; [done|].
    change (λ kb, (branch_id kb.1, branch_value kb.2)) with f. rewrite HL. change (map f L) with (f <$> L).
    apply Forall2_fmap_2, Forall_Forall2_diag, Forall_forall. intros [b s] Hin. split; [done|]. simpl.
    apply value_branch. rewrite <- HpL in Hin. apply elem_of_map_to_list in Hin. by eapply Hm.
  - rewrite <- list_fmap_compose. apply collect_map_to_list. rewrite HpL.
    rewrite (list_fmap_ext _ id L) by (by intros i [[] ]). by rewrite list_fmap_id.
Qed.

Definition seen_entry (ks : Key * SeenResult) : Value :=
  JArray [JArray [JString (branch_id ks.1.1); JString ks.1.2]; seen_value ks.2].

Lemma value_seen_results (s : SelectionState) :
  map_Forall (λ _ s, seen_storable s) (seen_results s) →
  from_value (read_seq (read_pair (read_pair read_branch read_string) read_seen))
    (JArray (seen_entry <$> seen_entries s)) = Some (seen_entries s) ∧
  collect_map (seen_entries s) = seen_results s.
Proof.
  intros Hs. assert (seen_entries s ≡ₚ map_to_list (seen_results s)) as Hp by apply merge_sort_Permutation.
  split; [|by apply collect_map_to_list]. apply value_seq, Forall_forall. intros [[[b] id] r] Hin.
  rewrite Hp in Hin. apply elem_of_map_to_list in Hin. apply Hs in Hin.
  pose proof (value_seen r Hin) as Hr. unfold from_value in *. simpl in *. by rewrite Hr.
Qed.

Lemma value_checkpoint p :
  progress_storable p →
  ∃ l, from_value read_checkpoint (progress_value p) =
    Some {| ck_version := 1; ck_publication_cursor := publication_cursor p;
            ck_observation_position := observation_position p; ck_branches := l;
            ck_seen_results := seen_entries (progress_selection p) |} ∧
    collect_map ((λ kv, ({| branch_id := kv.1 |}, kv.2)) <$> l) = branches (progress_selection p).
Proof.
  intros [Hc%value_u64 Ho%value_u64 Hb Hs]. destruct (value_branches _ Hb) as (l & Hl & Hm). exists l.
  split; [|done]. destruct (value_seen_results _ Hs) as [Hr _].
  assert (from_value read_u32 (u64_value 1) = Some 1) as Hv.
  { unfold from_value, u64_value. simpl. by rewrite event_of_u64. }
  unfold progress_value. change (λ ks : Key * SeenResult, JArray _) with seen_entry.
  fold (branch_entries (branches (progress_selection p))). fold (u64_value (publication_cursor p)) in Hc.
  fold (u64_value (observation_position p)) in Ho. read_struct.
Qed.

Context `{JsonDeserializer, !CandidateDigest}.

(** C21: a restart finds the progress that was encoded: when the text of a
    checkpoint reads back as the value that was written, its decoding returns the
    same cursor, the same observation position and the same selection state,
    with every window, diagnostic and seen result of every branch. *)
Theorem checkpoint_round_trip p :
  progress_storable p →
  json_events (encode p) = value_event (progress_value p) → json_end (encode p) = true →
  progress_decode (encode p) = Ok p.
Proof.
  intros Hp He Hend. destruct (value_checkpoint p Hp) as (l & Hl & Hb). unfold progress_decode, from_str.
  rewrite He, Hend. unfold from_value in Hl. rewrite Hl. simpl. rewrite Hb.
  destruct Hp as [_ _ _ Hs]. destruct (value_seen_results _ Hs) as [_ Hseen]. rewrite Hseen.
  by destruct p as [? ? []].
Qed.
End checkpoint.

(** ** A concrete checkpoint *)

#[local] Existing Instance exact_numbers.

Definition checkpoint_digest : CandidateDigest :=
  {| sha256 _ := []; value_text _ := "text"; activation_text _ := "activation" |}.

Definition checkpoint_message : SelectedMessage :=
  {| sm_version := {| evidence_version := "v1" |}; sm_native_order := {| order_key := "0001" |};
     sm_message := {| m_id := "call-1"; m_value := json_object [("name", JString "shell"); ("count", u64_value 3)] |};
     sm_complete := true |}.

Definition checkpoint_branch : BranchSelection :=
  {| results := [checkpoint_message]; coverage_complete := true; identity_limit_reached := false;
     last_filter_diagnostic :=
       Some {| fd_field := FieldPaths; fd_reason := NoMatch; fd_scope := ScopeTurn; fd_limits := ["paths"] |} |}.

Definition checkpoint_seen (m : ResultMembership) : SeenResult :=
  {| terminal_seen := true; sr_revision := 2; sr_version := {| evidence_version := "v1" |};
     sr_native_order := {| order_key := "0001" |}; membership := m |}.

Definition main_branch : BranchId := {| branch_id := "main" |}.

(** One branch with a window and a diagnostic, and two seen results, one of them
    with the membership that is not written. *)
Definition sample_progress : SourceProgress :=
  {| publication_cursor := 7; observation_position := 5;
     progress_selection :=
       {| branches := {[ main_branch := checkpoint_branch ]};
          seen_results := {[ (main_branch, "call-1") := checkpoint_seen MSelected;
                             (main_branch, "call-0") := checkpoint_seen MUnknown ]} |} |}.

Definition checkpoint_deserializer : JsonDeserializer :=
  {| json_events _ := value_event (progress_value sample_progress); json_end _ := true |}.

Lemma checkpoint_round_trip_witness :
  @progress_decode exact_numbers checkpoint_deserializer (@encode exact_numbers checkpoint_digest sample_progress) =
    Ok sample_progress.
Proof.
  apply (@checkpoint_round_trip exact_numbers exact_number_laws checkpoint_deserializer checkpoint_digest).
  - split; [done|done|..].
    + apply map_Forall_singleton. by repeat constructor.
    + apply map_Forall_insert_2; [done|]. by apply map_Forall_singleton.
  - done.
  - done.
Defined.
