(* ===== verification/ProgressFacts.v ===== *)
(** * What saved progress means

    The validation of saved attempt rows against a declarative reading of them:
    the answered decisions are a prefix of the declarations, the first decision
    that is not answered decides the state, and no later decision has a row. *)

From stdpp Require Import gmap.
From S2P Require Import Prelude RustString Diagnostics Expression Domain Template Decision Check Json Budget Provenance Scalars Evaluator Fit BoundedJson Results ResultFacts Actions Progress.

#[local] Open Scope N_scope.

Section rows.
Context `{SerdeNumber}.

Definition row_key (r : SavedDecisionAttempt) : string * N :=
  (da_decision (sa_attempt r), da_number (sa_attempt r)).

Definition row_map (saved : list SavedDecisionAttempt) : Rows :=
  list_to_map ((λ r, (row_key r, sa_outcome r)) <$> saved).

Definition row_ok (ds : list DecisionBlock) (r : SavedDecisionAttempt) : Prop :=
  attempt_validate (sa_attempt r) = Ok tt ∧ da_decision (sa_attempt r) ∈ d_name <$> ds.

Record rows_ok (ds : list DecisionBlock) (saved : list SavedDecisionAttempt) : Prop := {
  ro_rows : Forall (row_ok ds) saved;
  ro_keys : NoDup (row_key <$> saved)
}.

Lemma row_map_keys saved : ((λ r, (row_key r, sa_outcome r)) <$> saved).*1 = row_key <$> saved.
Proof. by rewrite <- list_fmap_compose. Qed.

Lemma row_map_elem saved k : is_Some (row_map saved !! k) ↔ k ∈ row_key <$> saved.
Proof. unfold row_map. rewrite <- elem_of_dom, dom_list_to_map. by rewrite row_map_keys, elem_of_list_to_set. Qed.

Lemma row_map_app saved r :
  row_key r ∉ row_key <$> saved → row_map (saved ++ [r]) = <[row_key r := sa_outcome r]> (row_map saved).
Proof.
  intros Hr. unfold row_map. rewrite fmap_app, list_to_map_app. simpl.
  rewrite <- insert_union_r; [by rewrite (right_id_L ∅ (∪))|].
  apply not_elem_of_list_to_map_1. by rewrite row_map_keys.
Qed.

Lemma row_map_size saved : NoDup (row_key <$> saved) → size (row_map saved) = length saved.
Proof.
  intros Hn. unfold row_map. rewrite <- size_dom, dom_list_to_map_L, row_map_keys.
  rewrite size_list_to_set by done. apply length_fmap.
Qed.

Lemma declared_name ds name :
  existsb (λ block, String.eqb (d_name block) name) ds = true ↔ name ∈ d_name <$> ds.
Proof.
  rewrite existsb_exists, list_elem_of_fmap. split.
  - intros (b & Hb & He%String.eqb_eq). exists b. by rewrite list_elem_of_In.
  - intros (b & -> & Hb). exists b. by rewrite <- list_elem_of_In, String.eqb_refl.
Qed.

Lemma collect_rows_spec ds saved : ∀ rows R,
  collect_rows ds saved rows = Ok R ↔
  rows_ok ds saved ∧ (∀ k, k ∈ row_key <$> saved → rows !! k = None) ∧ R = row_map saved ∪ rows.
Proof.
  induction saved as [|r saved IH]; intros rows R; cbn [collect_rows].
  { split.
    - intros [= <-]. split_and!; [split; constructor|by intros k ?%elem_of_nil|].
      unfold row_map. simpl. by rewrite (left_id_L ∅ (∪)).
    - intros (_ & _ & ->). unfold row_map. simpl. by rewrite (left_id_L ∅ (∪)). }
  change (da_decision (sa_attempt r), da_number (sa_attempt r)) with (row_key r).
  assert (rows_ok ds (r :: saved) ↔ (row_ok ds r ∧ row_key r ∉ row_key <$> saved) ∧ rows_ok ds saved) as Hcons.
  { split.
    - intros [Hf Hn]. rewrite fmap_cons, NoDup_cons in Hn. rewrite Forall_cons in Hf. split; [tauto|split; tauto].
    - intros [[? ?] [? ?]]. split; [by constructor|]. rewrite fmap_cons, NoDup_cons. done. }
  rewrite Hcons. unfold row_ok. rewrite <- declared_name.
  destruct (attempt_validate (sa_attempt r)) as [[]|]; [|split; [done|intros ([[[[=] _] _] _] & _)]].
  destruct (existsb _ ds) eqn:Ed; simpl; [|split; [done|intros ([[[_ [=]] _] _] & _)]].
  destruct (rows !! row_key r) eqn:Er.
  { split; [done|]. intros (_ & Hk & _). rewrite Hk in Er; [done|]. by left. }
  rewrite IH. csimpl. setoid_rewrite elem_of_cons. split.
  - intros (Ho & Hk & ->).
    assert (row_key r ∉ row_key <$> saved) as Hr by (intros Hin; specialize (Hk _ Hin); by rewrite lookup_insert_eq in Hk).
    split_and!; try done.
    + intros k [->|Hin]; [done|]. specialize (Hk _ Hin).
      rewrite lookup_insert_ne in Hk; [done|]. intros <-. done.
    + unfold row_map. cbn. rewrite <- insert_union_l, insert_union_r; [done|].
      apply not_elem_of_list_to_map_1. by rewrite row_map_keys.
  - intros ([[_ Hr] Ho] & Hk & ->). split_and!; [done| |].
    + intros k Hin. rewrite lookup_insert_ne by (intros <-; done). apply Hk. by right.
    + unfold row_map. cbn. rewrite <- insert_union_l, insert_union_r; [done|].
      apply not_elem_of_list_to_map_1. by rewrite row_map_keys.
Qed.
End rows.

(** ** The state of the rows *)

Section shape.
Context `{SerdeNumber, !RecordWriter}.
Variable rs : list QuestionRequirements.

Notation row_lookup := (string * N → option DecisionAttemptOutcome).

(** The rows of a decision end with a valid answer, numbered as its attempt. *)
Definition block_answered (R : row_lookup) (b : DecisionBlock) (answer : DecisionResult) : Prop :=
  counted_attempt (R (d_name b, 1)) (R (d_name b, 2)) = Ok (dr_attempts answer, Some (Answer answer)) ∧
  result_validate_for_declaration answer b rs = Ok tt.

(** The rows of a decision are not an answer, and give the state. *)
Definition block_stops (R : row_lookup) (b : DecisionBlock) (unfinished : N)
    (state : DecisionProgressState) : Prop :=
  ∃ n o, counted_attempt (R (d_name b, 1)) (R (d_name b, 2)) = Ok (n, o) ∧
         decision_progress rs b unfinished n o = Ok (inr state).

Definition block_untouched (R : row_lookup) (b : DecisionBlock) : Prop :=
  R (d_name b, 1) = None ∧ R (d_name b, 2) = None.

Inductive shape (R : row_lookup) :
    list DecisionBlock → list DecisionResult → option DecisionProgressState → Prop :=
| shape_done : shape R [] [] None
| shape_answer b bs answer answers state :
    block_answered R b answer → shape R bs answers state →
    shape R (b :: bs) (answer :: answers) state
| shape_stop b bs state :
    block_stops R b (N.of_nat (length (b :: bs))) state → Forall (block_untouched R) bs →
    shape R (b :: bs) [] (Some state).

Definition same_rows (R R' : row_lookup) (bs : list DecisionBlock) : Prop :=
  ∀ b n, b ∈ bs → R (d_name b, n) = R' (d_name b, n).

Lemma same_rows_sym R R' bs : same_rows R R' bs → same_rows R' R bs.
Proof. intros Hs b n Hb. symmetry. by apply Hs. Qed.

Lemma untouched_ext R R' bs :
  same_rows R R' bs → Forall (block_untouched R) bs → Forall (block_untouched R') bs.
Proof.
  intros Hs. rewrite !Forall_forall. intros Hf b Hb. unfold block_untouched.
  rewrite <- !(Hs b) by done. by apply Hf.
Qed.

Lemma shape_ext R R' bs answers state :
  same_rows R R' bs → shape R bs answers state → shape R' bs answers state.
Proof.
  intros Hs Hsh. induction Hsh as [|b bs a answers st Ha _ IH|b bs st (n & o & Hc & Hd) Hu].
  - constructor.
  - constructor; [|apply IH; intros b' n Hb'; apply Hs; by right].
    unfold block_answered. rewrite <- !(Hs b) by (by left). exact Ha.
  - constructor; [|eapply untouched_ext; [|exact Hu]; intros b' n' Hb'; apply Hs; by right].
    exists n, o. rewrite <- !(Hs b) by (by left). done.
Qed.

(** ** The loop over the declarations *)

Definition clear_block (b : DecisionBlock) (R : Rows) : Rows :=
  delete (d_name b, 2) (delete (d_name b, 1) R).

Definition clear_blocks (bs : list DecisionBlock) (R : Rows) : Rows := fold_left (λ R b, clear_block b R) bs R.

Lemma clear_block_other b R k : k.1 ≠ d_name b → clear_block b R !! k = R !! k.
Proof. intros Hk. unfold clear_block. rewrite !lookup_delete_ne; [done|..]; by intros <-. Qed.

Lemma clear_block_rows (b : DecisionBlock) (bs : list DecisionBlock) (R : Rows) :
  d_name b ∉ d_name <$> bs → same_rows (λ k, clear_block b R !! k) (λ k, R !! k) bs.
Proof.
  intros Hb b' n Hin. apply clear_block_other. simpl. intros He. apply Hb. rewrite <- He.
  by apply list_elem_of_fmap_2.
Qed.

Lemma clear_blocks_lookup bs R k :
  clear_blocks bs R !! k =
  if bool_decide (k.1 ∈ d_name <$> bs ∧ (k.2 = 1 ∨ k.2 = 2)) then None else R !! k.
Proof.
  revert R. induction bs as [|b bs IH]; intros R; cbn [clear_blocks fold_left]; rewrite ?fmap_nil, ?fmap_cons.
  - rewrite bool_decide_eq_false_2; [done|]. by intros [?%elem_of_nil _].
  - change (fold_left _ bs ?R) with (clear_blocks bs R). rewrite IH. clear IH.
    case_bool_decide as Hin; case_bool_decide as Hin'; try done.
    + destruct Hin'. set_solver.
    + unfold clear_block. destruct k as [x n]; simpl in *.
      destruct Hin' as [[->|?]%elem_of_cons Hn]; [|tauto].
      destruct Hn as [->| ->]; [|apply lookup_delete_eq].
      rewrite lookup_delete_ne by congruence. apply lookup_delete_eq.
    + unfold clear_block. destruct k as [x n]; simpl in *. rewrite !lookup_delete_ne; [done|..];
        intros [= <- <-]; apply Hin'; (split; [by left|auto]).
Qed.

Lemma scan_stopped bs answers state R R' answers' state' :
  NoDup (d_name <$> bs) →
  scan_declarations rs bs R answers (Some state) = Ok (R', answers', state') ↔
  Forall (block_untouched (λ k, R !! k)) bs ∧ answers' = answers ∧ state' = Some state ∧
  R' = clear_blocks bs R.
Proof.
  revert R. induction bs as [|b bs IH]; intros R Hn.
  { cbn. split; [by intros [= -> -> ->]|by intros (_ & -> & -> & ->)]. }
  rewrite fmap_cons, NoDup_cons in Hn. destruct Hn as [Hb Hn].
  cbn [scan_declarations clear_blocks fold_left]. change (fold_left _ bs ?R) with (clear_blocks bs R).
  rewrite lookup_delete_ne by congruence. rewrite Forall_cons. unfold block_untouched at 1.
  pose proof (clear_block_rows b bs R Hb) as Hs.
  destruct (R !! (d_name b, 1)) as [o1|]; [split; [done|by intros ([[[=] _] _] & _)]|].
  destruct (R !! (d_name b, 2)) as [o2|]; [split; [done|by intros ([[_ [=]] _] & _)]|].
  fold (clear_block b R). rewrite IH by done. split.
  - intros (Hu & -> & -> & ->). split_and!; try done. by eapply untouched_ext.
  - intros ([_ Hu] & -> & -> & ->). split_and!; try done.
    eapply untouched_ext; [|exact Hu]. by apply same_rows_sym.
Qed.

(** One block of the loop, before anything has stopped it. *)
Lemma decision_progress_answer b u n o answer :
  decision_progress rs b u n o = Ok (inl answer) ↔
  o = Some (Answer answer) ∧ result_validate_for_declaration answer b rs = Ok tt ∧ dr_attempts answer = n.
Proof.
  unfold decision_progress. destruct o as [[| | | |a]|]; try (split; [done|naive_solver]).
  - destruct (result_validate_for_declaration a b rs) as [[]|] eqn:Ev; [|split; [done|naive_solver congruence]].
    destruct (N.eqb_spec (dr_attempts a) n); simpl; naive_solver.
  - destruct (DecisionAttempt_new (d_name b) n); naive_solver.
Qed.

Lemma scan_spec bs answers R R' answers' state :
  NoDup (d_name <$> bs) →
  scan_declarations rs bs R answers None = Ok (R', answers', state) ↔
  ∃ more, shape (λ k, R !! k) bs more state ∧ answers' = (answers ++ more)%list ∧ R' = clear_blocks bs R.
Proof.
  revert R answers. induction bs as [|b bs IH]; intros R answers Hn.
  { cbn. split.
    - intros [= -> -> <-]. exists []. rewrite app_nil_r. split_and!; [constructor|done|done].
    - intros (more & Hs & -> & ->). inversion Hs; subst. by rewrite app_nil_r. }
  rewrite fmap_cons, NoDup_cons in Hn. destruct Hn as [Hb Hn].
  cbn [scan_declarations clear_blocks fold_left]. change (fold_left _ bs ?R) with (clear_blocks bs R).
  rewrite lookup_delete_ne by congruence. fold (clear_block b R).
  pose proof (clear_block_rows b bs R Hb) as Hs.
  rewrite result_bind_ok. setoid_rewrite result_bind_ok. split.
  - intros ([n o] & Hc & [answer|st] & Hd & Hscan); cbn [fst snd] in *.
    + apply decision_progress_answer in Hd as (-> & Hv & <-).
      apply IH in Hscan as (more & Hsh & -> & ->); [|done].
      exists (answer :: more). rewrite <- (app_assoc answers [answer] more). split_and!; [|done|done].
      constructor; [by split|by eapply shape_ext].
    + apply scan_stopped in Hscan as (Hu & -> & -> & ->); [|done].
      exists []. rewrite app_nil_r. split_and!; [|done|done].
      constructor; [by exists n, o|by eapply untouched_ext].
  - intros (more & Hsh & -> & ->).
    inversion Hsh as [|? ? answer more' ? [Hc Hv] Hsh'|? ? st (n & o & Hc & Hd) Hu]; subst.
    + exists (dr_attempts answer, Some (Answer answer)). split; [done|]. cbn [fst snd].
      exists (inl answer). split; [by apply decision_progress_answer|]. apply IH; [done|].
      exists more'. split_and!; [|by rewrite <- app_assoc|done].
      eapply shape_ext; [by apply same_rows_sym|done].
    + exists (n, o). split; [done|]. exists (inr st). split; [done|]. apply scan_stopped; [done|].
      rewrite app_nil_r. split_and!; try done. eapply untouched_ext; [|exact Hu]. by apply same_rows_sym.
Qed.

(** ** The rows count the attempts *)

Definition opt_count {A} (o : option A) : N := match o with Some _ => 1 | None => 0 end.

Lemma clear_block_size b R :
  N.of_nat (size R) =
  opt_count (R !! (d_name b, 1)) + opt_count (R !! (d_name b, 2)) + N.of_nat (size (clear_block b R)).
Proof.
  assert (∀ k (M : Rows), N.of_nat (size M) = opt_count (M !! k) + N.of_nat (size (delete k M))) as Hdel.
  { intros k M. destruct (M !! k) as [o|] eqn:E; simpl.
    - rewrite map_size_delete_Some by done. assert (size M ≠ 0%nat); [|lia].
      intros Hz%map_size_empty_inv. subst M. by rewrite lookup_empty in E.
    - by rewrite delete_id. }
  unfold clear_block. rewrite (Hdel (d_name b, 1) R). rewrite (Hdel (d_name b, 2) (delete _ R)).
  rewrite lookup_delete_ne by congruence. lia.
Qed.

Lemma counted_rows first second n o :
  counted_attempt first second = Ok (n, o) →
  opt_count first + opt_count second + opt_count (if o then None else Some tt) = n ∧ 1 ≤ n ≤ 2.
Proof. destruct first as [[]|], second as [[]|]; simpl; intros [= <- <-]; simpl; lia. Qed.

(** The rows that the state has left open. *)
Definition state_rows (state : option DecisionProgressState) (n : N) : Prop :=
  match state with
  | None => n = 0
  | Some (PNext a _) => n + 1 = da_number a
  | Some _ => n ≤ 2
  end.

Lemma new_attempt name n a : DecisionAttempt_new name n = Ok a → a = {| da_decision := name; da_number := n |}.
Proof. unfold DecisionAttempt_new. destruct (attempt_validate _) as [[]|]; by intros [= <-]. Qed.

Lemma stops_cases R b u state :
  block_stops R b u state →
  (∃ n, counted_attempt (R (d_name b, 1)) (R (d_name b, 2)) = Ok (n, None) ∧
        attempt_validate {| da_decision := d_name b; da_number := n |} = Ok tt ∧
        state = PNext {| da_decision := d_name b; da_number := n |} u) ∨
  (∃ n o t, counted_attempt (R (d_name b, 1)) (R (d_name b, 2)) = Ok (n, Some o) ∧ state = PTerminal t).
Proof.
  intros (n & o & Hc & Hd). unfold decision_progress in Hd.
  destruct o as [[| | | |a]|]; try (injection Hd as <-; right; by eauto).
  - exfalso. destruct (result_validate_for_declaration a b rs); [|done].
    by destruct (negb (dr_attempts a =? n)).
  - unfold DecisionAttempt_new in Hd. destruct (attempt_validate _) as [[]|] eqn:Ev; [|done].
    injection Hd as <-. left. by exists n.
Qed.

Lemma shape_size (R : Rows) bs answers state :
  NoDup (d_name <$> bs) → (∀ k, is_Some (R !! k) → k.1 ∈ d_name <$> bs ∧ (k.2 = 1 ∨ k.2 = 2)) →
  shape (λ k, R !! k) bs answers state →
  ∃ n, state_rows state n ∧ N.of_nat (size R) = attempts_of answers + n.
Proof.
  revert R answers. induction bs as [|b bs IH]; intros R answers Hn Hk Hs.
  { exists 0. inversion Hs; subst. split; [done|]. assert (R = ∅) as ->; [|by rewrite map_size_empty].
    apply map_eq_iff. intros k. rewrite lookup_empty. destruct (R !! k) eqn:E; [|done].
    destruct (Hk k) as [?%elem_of_nil _]; [by rewrite E|done]. }
  rewrite fmap_cons, NoDup_cons in Hn. destruct Hn as [Hb Hn].
  pose proof (clear_block_rows b bs R Hb) as Hrows. apply same_rows_sym in Hrows.
  assert (∀ k, is_Some (clear_block b R !! k) → k.1 ∈ d_name <$> bs ∧ (k.2 = 1 ∨ k.2 = 2)) as Hk'.
  { intros [x n] Hsome. assert (is_Some (R !! (x, n))) as Hr.
    { unfold clear_block in Hsome. destruct (decide (x = d_name b)) as [->|].
      - destruct Hsome as [o Ho]. apply lookup_delete_Some in Ho as [_ Ho].
        apply lookup_delete_Some in Ho as [_ Ho]. by exists o.
      - by rewrite !lookup_delete_ne in Hsome by congruence. }
    destruct (Hk _ Hr) as [Hin Hnum]. split; [|done]. cbn [fst] in *. rewrite fmap_cons in Hin.
    apply elem_of_cons in Hin as [->|Hin]; [|done]. exfalso. unfold clear_block in Hsome. cbn [snd] in Hnum.
    destruct Hnum as [->| ->].
    - rewrite lookup_delete_ne, lookup_delete_eq in Hsome by congruence. by destruct Hsome.
    - rewrite lookup_delete_eq in Hsome. by destruct Hsome. }
  rewrite (clear_block_size b R).
  inversion Hs as [|? ? answer answers' ? [Hc _] Hsh|? ? st Hst Hu]; subst.
  - apply counted_rows in Hc as [Hc _]. simpl in Hc.
    destruct (IH (clear_block b R) answers' Hn Hk') as (n & Hst & Hsize); [by eapply shape_ext|].
    exists n. split; [done|]. simpl. lia.
  - assert (size (clear_block b R) = 0%nat) as Hz.
    { apply map_size_empty_iff, map_eq_iff. intros k. rewrite lookup_empty.
      destruct (clear_block b R !! k) eqn:E; [|done]. exfalso.
      destruct (Hk' k) as [(b' & Hb' & Hin)%list_elem_of_fmap Hnum]; [by rewrite E|].
      destruct k as [x n]. cbn [fst snd] in *. subst x. rewrite <- (Hrows b' n) in E by done.
      rewrite Forall_forall in Hu. destruct (Hu b' Hin) as [H1 H2]. destruct Hnum as [->| ->]; congruence. }
    apply stops_cases in Hst as [(n & Hc & _ & ->)|(n & o & t & Hc & ->)]; apply counted_rows in Hc as [Hc ?].
    + exists (n - 1). simpl in *. lia.
    + exists n. simpl in *. lia.
Qed.

(** ** The whole validation *)

Definition rows_at (saved : list SavedDecisionAttempt) : row_lookup := λ k, row_map saved !! k.

(** What a valid progress consists of: the answers of the first decisions and
    the state of the next one. *)
Record progress_ok (ds : list DecisionBlock) (saved : list SavedDecisionAttempt)
    (answers : list DecisionResult) (state : option DecisionProgressState) : Prop := {
  po_requirements : validate_requirements ds rs = Ok tt;
  po_rows : rows_ok ds saved;
  po_shape : shape (rows_at saved) ds answers state;
  po_fits : is_ok (measure_json RESULT_LIMITS
              (assessment_serial RESULT_VERSION answers (N.of_nat (length saved)))) = true
}.

Definition final_state (ds : list DecisionBlock) (answers : list DecisionResult) (attempts : N)
    (state : option DecisionProgressState) (final : DecisionProgressState) : Prop :=
  match state with
  | Some state => final = state
  | None => ∃ a, EvaluatedAssessment_new ds rs answers = Ok a ∧ as_attempts a = attempts ∧ final = PComplete a
  end.

Lemma attempt_number a : attempt_validate a = Ok tt → da_number a = 1 ∨ da_number a = 2.
Proof.
  unfold attempt_validate. destruct (is_identifier (da_decision a)); [|done]. simpl.
  destruct (N.leb_spec 1 (da_number a)), (N.leb_spec (da_number a) 2); try done. intros _. lia.
Qed.

Lemma rows_ok_keys ds saved k :
  rows_ok ds saved → is_Some (row_map saved !! k) → k.1 ∈ d_name <$> ds ∧ (k.2 = 1 ∨ k.2 = 2).
Proof.
  intros [Hf _] Hk. apply row_map_elem, list_elem_of_fmap in Hk as (r & -> & Hr).
  rewrite Forall_forall in Hf. destruct (Hf r Hr) as [Hv Hd]. split; [done|]. by apply attempt_number.
Qed.

Lemma rows_ok_cleared ds saved : rows_ok ds saved → clear_blocks ds (row_map saved) = ∅.
Proof.
  intros Ho. apply map_eq_iff. intros k. rewrite clear_blocks_lookup, lookup_empty.
  case_bool_decide as Hk; [done|]. destruct (row_map saved !! k) eqn:E; [|done].
  destruct Hk. eapply rows_ok_keys; [done|]. by rewrite E.
Qed.

Lemma names_nodup ds : validate_requirements ds rs = Ok tt → NoDup (d_name <$> ds).
Proof. by intros [[? _] _]%requirements_decided. Qed.

Lemma validate_progress_spec ds progress v :
  validate_decision_progress ds rs progress = Ok v ↔
  ∃ answers state,
    progress_ok ds (dp_attempts progress) answers state ∧
    vp_attempts v = N.of_nat (length (dp_attempts progress)) ∧
    final_state ds answers (vp_attempts v) state (vp_state v).
Proof.
  destruct progress as [saved]. unfold validate_decision_progress. cbn [dp_attempts].
  destruct (validate_requirements ds rs) as [[]|] eqn:Er; [|split; [done|intros (? & ? & [? _ _ _] & _); congruence]].
  pose proof (names_nodup ds Er) as Hn.
  rewrite result_bind_ok. setoid_rewrite collect_rows_spec. setoid_rewrite (right_id_L ∅ (∪)).
  split.
  - intros (R & (Ho & _ & ->) & Hv). rewrite result_bind_ok in Hv.
    destruct Hv as ([[R' answers] state] & Hscan & Hv).
    apply scan_spec in Hscan as (more & Hsh & -> & ->); [|done].
    rewrite rows_ok_cleared, bool_decide_eq_true_2 in Hv by done. cbn [negb app] in Hv.
    destruct Ho as [Hrows Hkeys]. rewrite row_map_size in Hv by done.
    destruct (measure_json _ _) as [m|] eqn:Em; [|done]. exists more, state. split.
    { split; [done|by split|done|]. simpl in Em. by rewrite Em. }
    destruct state as [state|]; [by injection Hv as <-|].
    destruct (EvaluatedAssessment_new ds rs more) as [built|] eqn:Ea; [|done].
    destruct (N.eqb_spec (as_attempts built) (N.of_nat (length saved))); [|done]. injection Hv as <-.
    split; [done|]. by exists built.
  - intros (answers & state & [_ Ho Hsh Hm] & Hatt & Hfin). exists (row_map saved).
    split; [split_and!; [done|intros; by rewrite lookup_empty|done]|].
    rewrite result_bind_ok. exists (clear_blocks ds (row_map saved), answers, state).
    split; [apply scan_spec; [done|]; by exists answers|].
    rewrite rows_ok_cleared, bool_decide_eq_true_2 by done. cbn [negb].
    rewrite row_map_size by apply Ho. destruct (measure_json _ _) as [m|] eqn:Em; [|done].
    destruct v as [n final]. cbn [vp_attempts vp_state] in *. subst n.
    destruct state as [state|]; simpl in Hfin; [by subst|].
    destruct Hfin as (a & -> & Hat & ->). rewrite Hat, N.eqb_refl. done.
Qed.

(** ** An ordered list of valid answers makes an assessment *)

Definition answers_for (ds : list DecisionBlock) (answers : list DecisionResult) : Prop :=
  Forall2 (λ b answer, result_validate_for_declaration answer b rs = Ok tt) (take (length answers) ds) answers.

Lemma nodup_keys_perm {A K} (f : A → K) (l k : list A) :
  NoDup (f <$> k) → l ≡ₚ k → f <$> l = f <$> k → l = k.
Proof.
  intros Hn Hp Hf. apply list_eq_same_length with (length k); [done|by apply Permutation_length|].
  intros i x y Hi Hx Hy.
  assert (f x = f y) as He.
  { apply (f_equal (.!! i)) in Hf. rewrite !list_lookup_fmap, Hx, Hy in Hf. by injection Hf. }
  assert (x ∈ k) as [j Hj]%list_elem_of_lookup by (rewrite <- Hp; by eapply list_elem_of_lookup_2).
  assert (i = j) as <-; [|congruence].
  apply (NoDup_lookup _ _ _ (f y) Hn); rewrite list_lookup_fmap; [by rewrite Hy|by rewrite Hj, <- He].
Qed.

Lemma decisions_validate_complete ds decisions : ∀ names,
  NoDup (d_name <$> ds) → NoDup (dr_decision <$> decisions) →
  (∀ x, x ∈ dr_decision <$> decisions → x ∉ names) → Forall (decision_ok ds rs) decisions →
  decisions_validate ds rs names decisions = Ok tt.
Proof.
  intros names Hds. revert names. induction decisions as [|d decisions IH]; intros names Hn Hx Hf; [done|].
  cbn [decisions_validate]. rewrite fmap_cons, NoDup_cons in Hn. destruct Hn as [Hd Hn].
  apply Forall_cons in Hf as [(b & Hb & Hv) Hf].
  rewrite bool_decide_eq_false_2 by (apply Hx; rewrite fmap_cons; by left).
  rewrite decision_index_position by done.
  destruct (position_elem (d_name <$> ds) (dr_decision d)) as [i Hi].
  { rewrite (validated_name _ _ _ Hv). by apply list_elem_of_fmap_2. }
  rewrite Hi. apply position_lookup in Hi; [|done].
  rewrite list_lookup_fmap in Hi. destruct (ds !! N.to_nat i) as [b'|] eqn:Eb; [|done].
  assert (b' = b) as ->.
  { apply list_elem_of_lookup in Hb as [j Hj]. injection Hi as Hi.
    assert (N.to_nat i = j) as <-; [|congruence].
    apply (NoDup_lookup _ _ _ (d_name b) Hds); rewrite list_lookup_fmap; [rewrite Eb|by rewrite Hj].
    simpl. f_equal. by rewrite Hi, (validated_name _ _ _ Hv). }
  rewrite Hv. simpl. apply IH; [done| |done]. intros x Hin. specialize (Hx x).
  rewrite fmap_cons in Hx. set_solver.
Qed.

Lemma answers_names_prefix ds answers :
  answers_for ds answers → length answers = length ds → dr_decision <$> answers = d_name <$> ds.
Proof.
  unfold answers_for. intros Hf Hl. rewrite take_ge in Hf by lia.
  induction Hf as [|b a ds answers Ha _ IH]; [done|]. csimpl. injection Hl as Hl.
  by rewrite (validated_name _ _ _ Ha), IH.
Qed.

Lemma answers_ok ds answers : answers_for ds answers → Forall (decision_ok ds rs) answers.
Proof.
  intros Hf. apply Forall_forall. intros a [i Hi]%list_elem_of_lookup.
  destruct (Forall2_lookup_r _ _ _ _ _ Hf Hi) as (b & Hb & Hv). exists b. split; [|done].
  eapply list_elem_of_lookup_2. by apply lookup_take_Some in Hb as [Hb _].
Qed.

Lemma assessment_from_answers ds answers n :
  validate_requirements ds rs = Ok tt → answers_for ds answers → length answers = length ds →
  attempts_of answers = n → n ≤ U64_MAX →
  is_ok (measure_json RESULT_LIMITS (assessment_serial RESULT_VERSION answers n)) = true →
  EvaluatedAssessment_new ds rs answers =
    Ok {| as_version := RESULT_VERSION; as_decisions := answers; as_attempts := n |}.
Proof.
  intros Hr Hf Hl Ha Hmax Hm. pose proof (names_nodup ds Hr) as Hn.
  pose proof (answers_names_prefix ds answers Hf Hl) as Hnames.
  unfold EvaluatedAssessment_new. rewrite Hr. simpl. rewrite Hl, N.eqb_refl. simpl.
  rewrite decisions_validate_complete; [|done|by rewrite Hnames|set_solver|by apply answers_ok]. simpl.
  unfold total_attempts. rewrite sum_attempts_total by lia. rewrite N.add_0_l, Ha.
  rewrite (proj2 (N.leb_le _ _)) by done. simpl.
  assert (sort_by_key (λ d, decision_index ds (dr_decision d)) answers = answers) as ->.
  { apply (nodup_keys_perm dr_decision); [by rewrite Hnames|apply sort_by_key_perm|]. rewrite Hnames.
    apply (sort_by_position dr_decision (decision_index ds)); [done| |by rewrite Hnames].
    intros x _. by apply decision_index_position. }
  unfold measure_results. cbn [as_version as_decisions as_attempts].
  destruct (measure_json _ _) as [m|]; [done|discriminate Hm].
Qed.

(** ** One more row *)

(** The state after a row of the attempt, unless it is an answer. *)
Definition failed_state (a : DecisionAttempt) (unfinished : N) (o : DecisionAttemptOutcome) :
    option DecisionProgressState :=
  match o with
  | Answer _ => None
  | DispatchIntent => Some (PTerminal TUnresolvedIntent)
  | AttemptUnknown => Some (PTerminal TUnknown)
  | Permanent => Some (PTerminal TPermanent)
  | SafeTransient =>
      Some (if da_number a =? 1 then PNext {| da_decision := da_decision a; da_number := 2 |} unfinished
            else PTerminal TAttemptsExhausted)
  end.

(** The state when all of these decisions are left. *)
Definition open_state (bs : list DecisionBlock) : option DecisionProgressState :=
  match bs with
  | [] => None
  | b :: _ => Some (PNext {| da_decision := d_name b; da_number := 1 |} (N.of_nat (length bs)))
  end.

Definition with_row (R : row_lookup) (a : DecisionAttempt) (o : DecisionAttemptOutcome) : row_lookup :=
  λ k, if decide (k = (da_decision a, da_number a)) then Some o else R k.

Lemma with_row_at R a o : with_row R a o (da_decision a, da_number a) = Some o.
Proof. unfold with_row. by rewrite decide_True. Qed.

Lemma with_row_other R a o k : k ≠ (da_decision a, da_number a) → with_row R a o k = R k.
Proof. intros Hk. unfold with_row. by rewrite decide_False. Qed.

Lemma with_row_rest R a o bs : da_decision a ∉ d_name <$> bs → same_rows R (with_row R a o) bs.
Proof.
  intros Ha b n Hb. symmetry. apply with_row_other. intros [= He _]. apply Ha. rewrite <- He.
  by apply list_elem_of_fmap_2.
Qed.

Lemma named_attempt b n :
  is_identifier (d_name b) = true → n = 1 ∨ n = 2 →
  attempt_validate {| da_decision := d_name b; da_number := n |} = Ok tt.
Proof. unfold attempt_validate. simpl. by intros -> [->| ->]. Qed.

Lemma shape_open R bs :
  Forall (λ b, is_identifier (d_name b) = true) bs → Forall (block_untouched R) bs →
  shape R bs [] (open_state bs).
Proof.
  destruct bs as [|b bs]; intros [Hb Hi]%Forall_cons_1 [[H1 H2] Hu]%Forall_cons_1 || intros _ _; [constructor|].
  simpl. constructor; [|done]. exists 1, None. rewrite H1, H2. split; [done|]. simpl.
  unfold DecisionAttempt_new. by rewrite named_attempt by auto.
Qed.

(** An attempt is open: its decision is the first without an answer, the attempt
    has no row, and a second attempt follows a first that was safe to repeat. *)
Record attempt_open (R : row_lookup) (bs : list DecisionBlock) (answers : list DecisionResult)
    (a : DecisionAttempt) (unfinished : N) : Prop := {
  ao_row : R (da_decision a, da_number a) = None;
  ao_number : da_number a = 1 ∧ R (da_decision a, 2) = None ∨
              da_number a = 2 ∧ R (da_decision a, 1) = Some SafeTransient;
  ao_block : ∃ b, bs !! length answers = Some b ∧ d_name b = da_decision a;
  ao_unfinished : unfinished = N.of_nat (length bs - length answers)
}.

Lemma stop_next R b bs a u :
  block_stops R b (N.of_nat (length (b :: bs))) (PNext a u) →
  attempt_open R (b :: bs) [] a u.
Proof.
  intros [(n & Hc & _ & [= -> ->])|(n & o & t & _ & [=])]%stops_cases. simpl.
  destruct (R (d_name b, 1)) as [[]|] eqn:E1, (R (d_name b, 2)) eqn:E2; simpl in Hc; try done;
    injection Hc as <-; (split; [done|simpl; auto|by exists b|simpl; lia]).
Qed.

Lemma shape_next R bs answers a u :
  shape R bs answers (Some (PNext a u)) → attempt_open R bs answers a u.
Proof.
  remember (Some (PNext a u)) as st. intros Hs. induction Hs as [|b bs answer answers st Ha _ IH|b bs st Hst Hu];
    [done| |].
  - destruct (IH Heqst) as [? ? ? ?]. by split.
  - injection Heqst as ->. by apply stop_next.
Qed.

Lemma shape_fail R bs answers a u o st :
  NoDup (d_name <$> bs) → Forall (λ b, is_identifier (d_name b) = true) bs →
  shape R bs answers (Some (PNext a u)) → failed_state a u o = Some st →
  shape (with_row R a o) bs answers (Some st).
Proof.
  intros Hn Hi Hs Ho. remember (Some (PNext a u)) as next.
  induction Hs as [|b bs answer answers next Ha Hs IH|b bs next Hst Hu]; [done| |];
    rewrite fmap_cons, NoDup_cons in Hn; destruct Hn as [Hb Hn]; apply Forall_cons in Hi as [Hib Hi].
  - subst next. apply shape_answer; [|by apply IH]. pose proof (shape_next _ _ _ _ _ Hs) as [_ _ (b' & Hb' & Hname) _].
    assert (d_name b ≠ da_decision a) as Hne.
    { rewrite <- Hname. intros He. apply Hb. rewrite He. apply list_elem_of_fmap_2. by eapply list_elem_of_lookup_2. }
    unfold block_answered. by rewrite !with_row_other by congruence.
  - injection Heqnext as ->. pose proof (stop_next _ _ _ _ _ Hst) as [Hrow Hnum (b' & [= <-] & Hname) _].
    assert (Forall (block_untouched (with_row R a o)) bs) as Hu'.
    { eapply untouched_ext; [|exact Hu]. apply with_row_rest. by rewrite <- Hname. }
    apply stops_cases in Hst as [(n & Hc & Hv & [= -> ->])|(n & o' & t & _ & [=])].
    constructor; [|done]. cbn [da_decision da_number] in *.
    destruct Hnum as [(-> & H2)|(-> & H1)].
    + unfold block_stops. change (d_name b, 1) with (da_decision {| da_decision := d_name b; da_number := 1 |}, 1).
      rewrite with_row_at, with_row_other by (simpl; congruence). cbn [da_decision]. rewrite H2.
      destruct o; simpl in Ho; try done; injection Ho as <-; try (eexists 1, _; split; [done|done]).
      exists 2, None. split; [done|]. simpl. unfold DecisionAttempt_new. by rewrite named_attempt by auto.
    + unfold block_stops.
      rewrite (with_row_other R _ o (d_name b, 1)) by (simpl; congruence). rewrite H1.
      change (with_row R _ o (d_name b, 2)) with
        (with_row R {| da_decision := d_name b; da_number := 2 |} o
           (da_decision {| da_decision := d_name b; da_number := 2 |}, 2)).
      rewrite with_row_at. destruct o; simpl in Ho; try done; injection Ho as <-;
        eexists 2, _; (split; [done|done]).
Qed.

Lemma shape_push R bs answers a u answer :
  NoDup (d_name <$> bs) → Forall (λ b, is_identifier (d_name b) = true) bs →
  shape R bs answers (Some (PNext a u)) →
  (∀ b, b ∈ bs → d_name b = da_decision a → result_validate_for_declaration answer b rs = Ok tt) →
  dr_attempts answer = da_number a →
  shape (with_row R a (Answer answer)) bs (answers ++ [answer]) (open_state (drop (S (length answers)) bs)).
Proof.
  intros Hn Hi Hs Hv Hnum. remember (Some (PNext a u)) as next.
  induction Hs as [|b bs answer' answers next Ha Hs IH|b bs next Hst Hu]; [done| |];
    rewrite fmap_cons, NoDup_cons in Hn; destruct Hn as [Hb Hn]; apply Forall_cons in Hi as [Hib Hi].
  - subst next. pose proof (shape_next _ _ _ _ _ Hs) as [_ _ (b' & Hb' & Hname) _].
    assert (d_name b ≠ da_decision a) as Hne.
    { rewrite <- Hname. intros He. apply Hb. rewrite He. apply list_elem_of_fmap_2. by eapply list_elem_of_lookup_2. }
    cbn [app length]. rewrite skipn_cons. apply shape_answer; [|apply IH; auto; intros; apply Hv; [by right|done]].
    unfold block_answered. by rewrite !with_row_other by congruence.
  - injection Heqnext as ->. pose proof (stop_next _ _ _ _ _ Hst) as [Hrow Hnumber (b' & [= <-] & Hname) _].
    assert (Forall (block_untouched (with_row R a (Answer answer))) bs) as Hu'.
    { eapply untouched_ext; [|exact Hu]. apply with_row_rest. by rewrite <- Hname. }
    cbn [app length]. rewrite skipn_cons. apply shape_answer; [|by apply shape_open].
    split; [|apply Hv; [by left|done]]. rewrite Hname, Hnum.
    destruct a as [name n]. cbn [da_decision da_number] in *. destruct Hnumber as [(-> & H2)|(-> & H1)].
    + rewrite (with_row_at R {| da_decision := name; da_number := 1 |}), with_row_other by (simpl; congruence).
      by rewrite H2.
    + rewrite (with_row_at R {| da_decision := name; da_number := 2 |}), with_row_other by (simpl; congruence).
      by rewrite H1.
Qed.

(** ** The progress of a candidate advances *)

Definition pushed (progress : DecisionProgress) (a : DecisionAttempt) (o : DecisionAttemptOutcome) :
    DecisionProgress :=
  {| dp_attempts := dp_attempts progress ++ [{| sa_attempt := a; sa_outcome := o |}] |}.

(** Valid results of declared decisions fit into the saved record, in any order
    and with any number of attempts that the decisions allow. *)
Definition results_fit (ds : list DecisionBlock) : Prop :=
  ∀ answers n, NoDup (dr_decision <$> answers) → Forall (decision_ok ds rs) answers →
  n ≤ 2 * N.of_nat (length ds) →
  is_ok (measure_json RESULT_LIMITS (assessment_serial RESULT_VERSION answers n)) = true.

(** An outcome that the engine may record for an attempt. *)
Definition outcome_valid (ds : list DecisionBlock) (a : DecisionAttempt) (o : DecisionAttemptOutcome) : Prop :=
  match o with
  | Answer answer =>
      (∀ b, b ∈ ds → d_name b = da_decision a → result_validate_for_declaration answer b rs = Ok tt) ∧
      dr_attempts answer = da_number a
  | _ => True
  end.

(** The state that follows: the next decision in declared order, or the complete
    assessment. *)
Definition follows (ds : list DecisionBlock) (a : DecisionAttempt) (unfinished n : N)
    (o : DecisionAttemptOutcome) (state : DecisionProgressState) : Prop :=
  match failed_state a unfinished o with
  | Some failed => state = failed
  | None =>
      ∃ i b, ds !! i = Some b ∧ d_name b = da_decision a ∧
      match ds !! S i with
      | Some next =>
          state = PNext {| da_decision := d_name next; da_number := 1 |} (N.of_nat (length ds - S i))
      | None =>
          ∃ answers, answers_for ds answers ∧ length answers = length ds ∧
          state = PComplete {| as_version := RESULT_VERSION; as_decisions := answers; as_attempts := n + 1 |}
      end
  end.

Lemma shape_answers R bs answers st :
  shape R bs answers st → answers_for bs answers ∧ (length answers ≤ length bs)%nat ∧
  (st = None → length answers = length bs).
Proof.
  unfold answers_for. induction 1 as [|b bs answer answers st [_ Hv] _ (IH & Hl & He)|b bs st _ _]; simpl.
  - by split_and!.
  - split_and!; [by constructor|lia|]. intros Hst. by rewrite He.
  - split_and!; [constructor|lia|done].
Qed.

Lemma answers_for_nodup ds answers :
  NoDup (d_name <$> ds) → answers_for ds answers → NoDup (dr_decision <$> answers).
Proof.
  intros Hn Hf. assert (dr_decision <$> answers = d_name <$> take (length answers) ds) as ->.
  { unfold answers_for in Hf. induction Hf as [|b a bs answers' Ha _ IH]; [done|]. csimpl.
    by rewrite (validated_name _ _ _ Ha), IH. }
  rewrite fmap_take. eapply sublist_NoDup; [done|apply sublist_take].
Qed.

Lemma fits_measure ds answers n :
  results_fit ds → validate_requirements ds rs = Ok tt → answers_for ds answers →
  n ≤ 2 * N.of_nat (length ds) →
  is_ok (measure_json RESULT_LIMITS (assessment_serial RESULT_VERSION answers n)) = true.
Proof.
  intros Hfit Hr Hf Hn. apply Hfit; [|by apply answers_ok|done].
  eapply answers_for_nodup; [by apply names_nodup|done].
Qed.

Definition slots (ds : list DecisionBlock) : list (string * N) :=
  ds ≫= λ b, [(d_name b, 1); (d_name b, 2)].

Lemma slots_length ds : length (slots ds) = (2 * length ds)%nat.
Proof. unfold slots. induction ds as [|b ds IH]; [done|]. rewrite bind_cons, length_app, IH. simpl. lia. Qed.

(** A candidate has at most two rows for each decision. *)
Lemma rows_bound ds saved : rows_ok ds saved → (length saved ≤ 2 * length ds)%nat.
Proof.
  intros [Hf Hn]. rewrite <- slots_length, <- (length_fmap row_key saved).
  apply submseteq_length, NoDup_submseteq; [done|].
  intros k (r & -> & Hr)%list_elem_of_fmap. rewrite Forall_forall in Hf.
  destruct (Hf r Hr) as [Hv (b & Hb & Hin)%list_elem_of_fmap]. unfold slots.
  apply list_elem_of_bind. exists b. split; [|done]. unfold row_key. rewrite Hb.
  destruct (attempt_number _ Hv) as [->| ->]; set_solver.
Qed.

Lemma rows_push ds saved a o :
  rows_ok ds saved → rows_at saved (da_decision a, da_number a) = None →
  attempt_validate a = Ok tt → da_decision a ∈ d_name <$> ds →
  rows_ok ds (saved ++ [{| sa_attempt := a; sa_outcome := o |}]).
Proof.
  intros [Hf Hn] Hrow Hv Hd. split.
  - rewrite Forall_app, Forall_singleton. by split.
  - rewrite fmap_app. apply NoDup_app. split_and!; [done| |apply NoDup_singleton].
    intros k Hk ->%list_elem_of_singleton. apply row_map_elem in Hk as [x Hx].
    unfold rows_at in Hrow. unfold row_key in Hx. simpl in Hx. congruence.
Qed.

Lemma rows_at_push saved a o k :
  rows_at saved (da_decision a, da_number a) = None →
  rows_at (saved ++ [{| sa_attempt := a; sa_outcome := o |}]) k = with_row (rows_at saved) a o k.
Proof.
  intros Hrow. unfold rows_at. rewrite row_map_app.
  - unfold row_key, with_row. cbn [sa_attempt sa_outcome]. case_decide as Hk.
    + subst k. apply lookup_insert_eq.
    + by apply lookup_insert_ne.
  - intros [x Hx]%row_map_elem. unfold rows_at in Hrow. unfold row_key in Hx. simpl in Hx. congruence.
Qed.

Lemma names_identifiers ds :
  validate_requirements ds rs = Ok tt → Forall (λ b, is_identifier (d_name b) = true) ds.
Proof.
  intros [[_ Hf] _]%requirements_decided. eapply Forall_impl; [exact Hf|]. by intros b [? _].
Qed.

Lemma open_state_drop ds i :
  open_state (drop i ds) =
  match ds !! i with
  | Some b => Some (PNext {| da_decision := d_name b; da_number := 1 |} (N.of_nat (length ds - i)))
  | None => None
  end.
Proof.
  destruct (ds !! i) as [b|] eqn:E.
  - rewrite (drop_S _ b i E). simpl. repeat f_equal. rewrite length_drop.
    pose proof (lookup_lt_Some _ _ _ E). lia.
  - apply lookup_ge_None in E. by rewrite drop_ge.
Qed.

Lemma progress_advances_helper ds progress n a u o :
  results_fit ds → N.of_nat (length ds) ≤ 2 ^ 62 →
  validate_decision_progress ds rs progress = Ok {| vp_attempts := n; vp_state := PNext a u |} →
  outcome_valid ds a o →
  ∃ state, validate_decision_progress ds rs (pushed progress a o) =
             Ok {| vp_attempts := n + 1; vp_state := state |} ∧ follows ds a u n o state.
Proof.
  intros Hfit Hlen Hv Ho. apply validate_progress_spec in Hv as (answers & st & [Hr Hrows Hsh Hm] & Hn & Hst).
  cbn [vp_attempts vp_state] in Hn, Hst.
  destruct st as [st|]; [simpl in Hst; subst st|by destruct Hst as (? & _ & _ & [=])].
  pose proof (shape_next _ _ _ _ _ Hsh) as [Hrow Hnum (b & Hb & Hname) Hu].
  pose proof (names_nodup ds Hr) as Hnd. pose proof (names_identifiers ds Hr) as Hid.
  assert (da_decision a ∈ d_name <$> ds) as Hd.
  { rewrite <- Hname. apply list_elem_of_fmap_2. by eapply list_elem_of_lookup_2. }
  assert (attempt_validate a = Ok tt) as Ha.
  { destruct a as [name m]. simpl in *. subst name. apply named_attempt; [|tauto].
    rewrite Forall_forall in Hid. apply Hid. by eapply list_elem_of_lookup_2. }
  pose proof (rows_push ds _ a o Hrows Hrow Ha Hd) as Hrows'.
  pose proof (rows_bound _ _ Hrows') as Hbound. rewrite length_app in Hbound. simpl in Hbound.
  assert (same_rows (with_row (rows_at (dp_attempts progress)) a o) (rows_at (dp_attempts (pushed progress a o))) ds)
    as Hsame by (intros b' k _; symmetry; by apply rows_at_push).
  destruct (shape_answers _ _ _ _ Hsh) as (Hfor & Hle & _).
  assert (length (dp_attempts (pushed progress a o)) = (length (dp_attempts progress) + 1)%nat) as Hl'
    by (simpl; rewrite length_app; simpl; lia).
  destruct (failed_state a u o) as [failed|] eqn:Ef.
  - exists failed. split; [|unfold follows; by rewrite Ef].
    apply validate_progress_spec. exists answers, (Some failed). cbn [vp_attempts vp_state].
    split_and!; [|rewrite Hl'; lia|done]. split; [done|done| |].
    + eapply shape_ext; [exact Hsame|]. by eapply shape_fail.
    + eapply fits_measure; try done. rewrite Hl'. lia.
  - destruct o as [| | | |answer]; try done. destruct Ho as [Hval Hatt].
    pose proof (shape_push _ _ _ _ _ answer Hnd Hid Hsh Hval Hatt) as Hsh'.
    apply (shape_ext _ _ _ _ _ Hsame) in Hsh'. destruct (shape_answers _ _ _ _ Hsh') as (Hfor' & Hle' & Hall).
    assert (is_ok (measure_json RESULT_LIMITS (assessment_serial RESULT_VERSION (answers ++ [answer])
      (N.of_nat (length (dp_attempts (pushed progress a (Answer answer))))))) = true) as Hm'
      by (eapply fits_measure; try done; rewrite Hl'; lia).
    unfold follows. rewrite Ef. rewrite open_state_drop in Hsh', Hall.
    setoid_rewrite validate_progress_spec. cbn [vp_attempts vp_state].
    destruct (ds !! S (length answers)) as [next|] eqn:Enext.
    + eexists. split.
      * exists (answers ++ [answer])%list, (Some (PNext {| da_decision := d_name next; da_number := 1 |}
          (N.of_nat (length ds - S (length answers))))).
        split_and!; [by split|rewrite Hl'; lia|reflexivity].
      * exists (length answers), b. by rewrite Enext.
    + specialize (Hall eq_refl).
      destruct (shape_size (row_map (dp_attempts (pushed progress a (Answer answer)))) ds
        (answers ++ [answer]) None) as (m & Hm0 & Hsize); [done| |done|].
      { intros k. by apply rows_ok_keys. }
      simpl in Hm0. subst m. rewrite row_map_size, Hl' in Hsize by apply Hrows'.
      eexists. split.
      * exists (answers ++ [answer])%list, None. split_and!; [by split|rewrite Hl'; lia|].
        eexists. split; [|split; [|reflexivity]].
        -- apply (assessment_from_answers ds (answers ++ [answer]) (n + 1)); [done|done|done|lia| |].
           ++ unfold U64_MAX. lia.
           ++ rewrite Hl' in Hm'. by replace (n + 1) with (N.of_nat (length (dp_attempts progress) + 1)) by lia.
        -- done.
      * exists (length answers), b. rewrite Enext. split_and!; [done|done|].
        by exists (answers ++ [answer])%list.
Qed.
End shape.
