(* ===== verification/CapacityFacts.v ===== *)
(** * The measured capacity is enough

    When the largest result of the declarations fits, every valid set of results
    fits: what is measured before the first request is an upper bound of what is
    saved after the last one. *)

From stdpp Require Import gmap sorting.
From S2P Require Import Prelude RustString Json Diagnostics Expression Template Decision Check Budget Provenance Scalars Fit BoundedJson Results ResultFacts ActionFacts Progress ProgressFacts.

#[local] Open Scope N_scope.

(** ** The length of compact JSON *)

Fixpoint escaped_size (s : string) : N :=
  match s with
  | "" => 0
  | String a t => match escape a with Some e => str_len e | None => 1 end + escaped_size t
  end.

Definition string_size (s : string) : N := 2 + escaped_size s.

(** The brackets and the commas of a list of parts. *)
Definition list_size (parts : list N) : N := 2 + foldr N.add 0 parts + (N.of_nat (length parts) - 1).

Section sizes.
Variable float_text : f64 → string.

Fixpoint serial_size (v : Serial) : N :=
  match v with
  | SerBool b => if b then 4 else 5
  | SerInt z => str_len (pretty z)
  | SerNumber text => str_len text
  | SerF64 x => str_len (float_text x)
  | SerStr s => string_size s
  | SerNone => 4
  | SerUnitVariant n => string_size n
  | SerSeq items => list_size (serial_size <$> items)
  | SerEntries entries => list_size ((λ kv, string_size kv.1 + 1 + serial_size kv.2) <$> entries)
  | SerVariant n content => list_size [string_size n + 1 + serial_size content]
  end.
End sizes.

(** What [serde_json::to_writer] does with a record of finite numbers: it writes
    compact JSON, and a finite [f64] needs at most 17 digits, a sign, a point and
    an exponent. *)
Class RecordWriterLaws `{RecordWriter} := {
  float_text : f64 → string;
  float_text_bound x : f64_finite x = true → str_len (float_text x) ≤ 24;
  record_written v :
    serial_finite v = true →
    (record_writes v).2 = None ∧ text_length (record_writes v).1 = serial_size float_text v
}.

(** ** Texts *)

Lemma identifier_escape s : str_all is_identifier_byte s = true → escaped_size s = str_len s.
Proof.
  induction s as [|a s IH]; [done|]. cbn [str_all escaped_size]. intros [Ha Hs]%andb_true_iff.
  rewrite str_len_cons, IH by done. f_equal.
  assert (escape a = None) as ->; [|done].
  revert Ha. clear. destruct a as [[] [] [] [] [] [] [] []]; vm_compute; done.
Qed.

Lemma identifier_bytes s : is_identifier s = true → str_all is_identifier_byte s = true.
Proof.
  destruct s as [|a s]; [done|]. cbn [is_identifier str_all]. intros [Ha ->]%andb_true_iff.
  unfold is_identifier_byte. by rewrite Ha.
Qed.

Lemma identifier_size s : is_identifier s = true → string_size s = 2 + str_len s.
Proof. intros Hs. unfold string_size. by rewrite (identifier_escape s) by (by apply identifier_bytes). Qed.

Lemma pretty_N_go_length k : ∀ n s, n < 10 ^ N.of_nat k →
  str_len (pretty_N_go n s) ≤ N.of_nat k + str_len s.
Proof.
  induction k as [|k IH]; intros n s Hn.
  { change (10 ^ N.of_nat 0) with 1 in Hn. replace n with 0 by lia. rewrite pretty_N_go_0. lia. }
  destruct (decide (n = 0)) as [->|Hne]; [rewrite pretty_N_go_0; lia|].
  rewrite pretty_N_go_step by lia. rewrite Nat2N.inj_succ, N.pow_succ_r' in Hn.
  etrans; [apply IH, N.Div0.div_lt_upper_bound; lia|]. rewrite str_len_cons. lia.
Qed.

Lemma pretty_length n k : n < 10 ^ N.of_nat k → (1 ≤ k)%nat → str_len (pretty (Z.of_N n)) ≤ N.of_nat k.
Proof.
  intros Hn Hk. assert (pretty (Z.of_N n) = pretty n) as -> by (by destruct n).
  unfold pretty, pretty_N. destruct (decide (n = 0)); [unfold str_len; simpl; lia|].
  etrans; [by apply pretty_N_go_length|]. unfold str_len. simpl. lia.
Qed.

(** ** Records within records *)

Section within.
Context `{RecordWriterLaws}.

Notation size := (serial_size float_text).

Record within (v w : Serial) : Prop := {
  wi_nodes : shape_nodes (serial_shape v) ≤ shape_nodes (serial_shape w);
  wi_depth : shape_depth (serial_shape v) ≤ shape_depth (serial_shape w);
  wi_size : size v ≤ size w;
  wi_finite : serial_finite v = true
}.

Lemma within_refl v : serial_finite v = true → within v v.
Proof. by split. Qed.

Lemma within_number x : f64_finite x = true → within (SerF64 x) reserved_number.
Proof.
  intros Hx. split; [done|done| |done]. pose proof (float_text_bound x Hx).
  change (size reserved_number) with 34. simpl. lia.
Qed.

Lemma within_label s t : is_identifier s = true → is_identifier t = true → str_len s ≤ str_len t →
  within (SerStr s) (SerStr t).
Proof. intros Hs Ht Hl. split; [done|done| |done]. simpl. rewrite !identifier_size by done. lia. Qed.

Lemma within_count n m k :
  n < 10 ^ N.of_nat k → (1 ≤ k)%nat → N.of_nat k ≤ str_len (pretty (Z.of_N m)) →
  within (SerInt (Z.of_N n)) (SerInt (Z.of_N m)).
Proof. intros Hn Hk Hm. split; [done|done| |done]. simpl. pose proof (pretty_length n k Hn Hk). lia. Qed.

(** A part of a list goes into a part of its own. *)
Definition parts_within {A} (R : A → A → Prop) (l l' : list A) : Prop := ∃ k, Forall2 R l k ∧ k ⊆+ l'.

Definition sum {A} (f : A → N) (l : list A) : N := foldr (λ x n, f x + n) 0 l.
Definition best {A} (f : A → N) (l : list A) : N := foldr (λ x n, N.max (f x) n) 0 l.

Lemma sum_parts {A} (R : A → A → Prop) (f : A → N) l l' :
  (∀ x y, R x y → f x ≤ f y) → parts_within R l l' → sum f l ≤ sum f l'.
Proof.
  intros HR (k & Hk & Hs). transitivity (sum f k).
  - clear Hs. induction Hk as [|x y l k Hxy _ IH]; [done|]. specialize (HR x y Hxy). unfold sum in *. simpl. lia.
  - clear Hk. unfold sum. induction Hs; simpl in *; lia.
Qed.

Lemma best_parts {A} (R : A → A → Prop) (f : A → N) l l' :
  (∀ x y, R x y → f x ≤ f y) → parts_within R l l' → best f l ≤ best f l'.
Proof.
  intros HR (k & Hk & Hs). transitivity (best f k).
  - clear Hs. induction Hk as [|x y l k Hxy _ IH]; [done|]. specialize (HR x y Hxy). unfold best in *. simpl. lia.
  - clear Hk. unfold best. induction Hs; simpl in *; lia.
Qed.

Lemma parts_length {A} (R : A → A → Prop) l l' : parts_within R l l' → (length l ≤ length l')%nat.
Proof. intros (k & Hk%Forall2_length & Hs%submseteq_length). lia. Qed.

Lemma parts_all {A} (R : A → A → Prop) (P : A → Prop) l l' :
  (∀ x y, R x y → P x) → parts_within R l l' → Forall P l.
Proof. intros HR (k & Hk & _). induction Hk; constructor; eauto. Qed.

Lemma list_size_sum {A} (f : A → N) l : list_size (f <$> l) = 2 + sum f l + (N.of_nat (length l) - 1).
Proof.
  unfold list_size, sum. rewrite length_fmap. enough (foldr N.add 0 (f <$> l) = foldr (λ x n, f x + n) 0 l) by lia.
  induction l as [|x l IH]; [done|]. csimpl. by rewrite IH.
Qed.

Lemma nodes_sum {A} (f : A → Serial) l : shape_nodes (Node ((λ x, serial_shape (f x)) <$> l)) =
  1 + sum (λ x, shape_nodes (serial_shape (f x))) l.
Proof.
  unfold sum. cbn [shape_nodes]. f_equal. induction l as [|x l IH]; [done|]. csimpl. by rewrite IH.
Qed.

Lemma depth_best {A} (f : A → Serial) l : shape_depth (Node ((λ x, serial_shape (f x)) <$> l)) =
  1 + best (λ x, shape_depth (serial_shape (f x))) l.
Proof.
  unfold best. cbn [shape_depth]. f_equal. induction l as [|x l IH]; [done|]. csimpl. by rewrite IH.
Qed.

Lemma within_seq l l' : parts_within within l l' → within (SerSeq l) (SerSeq l').
Proof.
  intros Hp. pose proof (parts_length _ _ _ Hp). split.
  - cbn [serial_shape]. rewrite !(nodes_sum (λ v, v)). apply N.add_le_mono_l.
    by eapply sum_parts; [|done]; intros x y [].
  - cbn [serial_shape]. rewrite !(depth_best (λ v, v)). apply N.add_le_mono_l.
    by eapply best_parts; [|done]; intros x y [].
  - cbn [serial_size]. rewrite !list_size_sum.
    assert (sum size l ≤ sum size l'); [|lia]. by eapply sum_parts; [|done]; intros x y [].
  - cbn [serial_finite]. apply forallb_forall. intros x Hx%list_elem_of_In.
    revert x Hx. apply Forall_forall. by eapply parts_all; [|done]; intros x y [].
Qed.

Definition entry_within (a b : string * Serial) : Prop := a.1 = b.1 ∧ within a.2 b.2.

Lemma within_entries l l' : parts_within entry_within l l' → within (SerEntries l) (SerEntries l').
Proof.
  intros Hp. pose proof (parts_length _ _ _ Hp). split.
  - cbn [serial_shape]. rewrite !(nodes_sum snd). apply N.add_le_mono_l.
    by eapply sum_parts; [|done]; intros x y [_ []].
  - cbn [serial_shape]. rewrite !(depth_best snd). apply N.add_le_mono_l.
    by eapply best_parts; [|done]; intros x y [_ []].
  - cbn [serial_size]. rewrite !list_size_sum. set (f := λ kv : string * Serial, _).
    assert (sum f l ≤ sum f l'); [|lia]. eapply sum_parts; [|done].
    intros x y [Hk [_ _ Hs _]]. unfold f. rewrite Hk. lia.
  - cbn [serial_finite]. apply forallb_forall. intros x Hx%list_elem_of_In.
    revert x Hx. apply Forall_forall. by eapply parts_all; [|done]; intros x y [_ []].
Qed.

Lemma parts_same {A} (R : A → A → Prop) l l' : Forall2 R l l' → parts_within R l l'.
Proof. intros Hf. by exists l'. Qed.

Lemma parts_of {A B} (R : B → B → Prop) (P : A → A → Prop) (f g : A → B) l l' :
  (∀ x y, P x y → R (f x) (g y)) → parts_within P l l' → parts_within R (f <$> l) (g <$> l').
Proof.
  intros HR (k & Hk & Hs). exists (g <$> k). split; [|by apply fmap_submseteq].
  apply Forall2_fmap. eapply Forall2_impl; [exact Hk|]. apply HR.
Qed.

(** A record within one that is measured is measured too. *)
Lemma within_measured limits v w m :
  l_bytes limits < U64_MAX → within v w → measure_json limits w = Ok m → is_ok (measure_json limits v) = true.
Proof.
  intros Hl [Hn Hd Hs Hf] (Hw & _ & Hwn & Hwd & Hws & _)%measure_json_correct; [|done].
  destruct (record_written w Hw) as [_ Hsize]. rewrite Hsize in Hws.
  destruct (record_written v Hf) as [He Hv].
  enough (measure_json limits v = Ok {| m_bytes := text_length (record_writes v).1;
    m_nodes := shape_nodes (serial_shape v); m_depth := shape_depth (serial_shape v) |}) as -> by done.
  apply measure_json_correct; [done|]. rewrite Hv. split_and!; try done; lia.
Qed.
End within.

(** ** Results within the capacity *)

Section capacity.
Context `{SerdeNumber, RecordWriterLaws}.

Lemma parts_nil {A} (R : A → A → Prop) l' : parts_within R [] l'.
Proof. exists []. split; [constructor|apply submseteq_nil_l]. Qed.
Lemma parts_skip {A} (R : A → A → Prop) x y l l' :
  R x y → parts_within R l l' → parts_within R (x :: l) (y :: l').
Proof. intros Hxy (k & Hk & Hs). exists (y :: k). split; [by constructor|by apply submseteq_skip]. Qed.
Lemma parts_drop {A} (R : A → A → Prop) y l l' : parts_within R l l' → parts_within R l (y :: l').
Proof. intros (k & Hk & Hs). exists k. split; [done|by apply submseteq_cons]. Qed.

Lemma longest_label_spec labels t :
  longest_label labels = Some t → t ∈ labels ∧ ∀ s, s ∈ labels → str_len s ≤ str_len t.
Proof.
  unfold longest_label. set (pick := λ (best : option string) l, _).
  assert (∀ ls acc, (∀ s, acc = Some s → s ∈ labels) → (∀ s, s ∈ ls → s ∈ labels) →
    fold_left pick ls acc = Some t →
    t ∈ labels ∧ (∀ s, acc = Some s → str_len s ≤ str_len t) ∧ ∀ s, s ∈ ls → str_len s ≤ str_len t) as Hfold.
  { induction ls as [|l ls IH]; intros acc Hacc Hls; simpl.
    { intros ->. split_and!; [by apply Hacc|by intros s [= ->]|by intros s ?%elem_of_nil]. }
    intros Hf. assert (∃ b, pick acc l = Some b ∧ b ∈ labels ∧ str_len l ≤ str_len b ∧
      ∀ s, acc = Some s → str_len s ≤ str_len b) as (b & Hb & Hin & Hlb & Hab).
    { unfold pick. destruct acc as [b|]; [|exists l; split_and!; [done|apply Hls; by left|done|done]].
      destruct (N.ltb_spec (str_len l) (str_len b)).
      - exists b. split_and!; [done|by apply Hacc|lia|by intros s [= ->]].
      - exists l. split_and!; [done|apply Hls; by left|done|by intros s [= ->]]. }
    rewrite Hb in Hf. apply IH in Hf as (Ht & Ha & Hs); [|by intros s [= <-]|intros s Hs'; apply Hls; by right].
    specialize (Ha b eq_refl). split_and!; [done| |].
    - intros s Hs'. specialize (Hab s Hs'). lia.
    - intros s [->|Hs']%elem_of_cons; [lia|by apply Hs]. }
  intros Hf. destruct (Hfold labels None) as (Ht & _ & Hs); [done|done|done|]. by split.
Qed.

(** The probabilities of a choice are those of the labels, in the order of the map. *)
Lemma choice_keys (probabilities : list (string * f64)) (criteria : list (string * string)) :
  NoDup criteria.*1 → length probabilities = length criteria →
  existsb (λ c, negb (map_contains c.1 probabilities)) criteria = false →
  criteria.*1 ≡ₚ probabilities.*1.
Proof.
  intros Hn Hl He. apply names_perm; [done| |by rewrite !length_fmap].
  intros x (c & -> & Hc)%list_elem_of_fmap.
  assert (map_contains c.1 probabilities = true) as Hk.
  { destruct (map_contains c.1 probabilities) eqn:Ek; [done|exfalso].
    apply not_true_iff_false in He. apply He, existsb_exists. exists c.
    split; [by apply list_elem_of_In|by rewrite Ek]. }
  by apply map_contains_elem.
Qed.

Lemma probabilities_within (l : list (string * f64)) (criteria : list (string * string)) :
  Forall finite l.*2 → criteria.*1 ≡ₚ l.*1 →
  within (SerEntries ((λ kv, (kv.1, SerF64 kv.2)) <$> l))
         (SerEntries ((λ c, (c.1, reserved_number)) <$> criteria)).
Proof.
  intros Hf Hp. apply within_entries. exists ((λ k, (k, reserved_number)) <$> l.*1). split.
  - rewrite <- list_fmap_compose. apply Forall2_fmap, Forall_Forall2_diag.
    rewrite Forall_fmap in Hf. eapply Forall_impl; [exact Hf|]. intros kv Hkv. split; [done|].
    by apply within_number.
  - assert ((λ c, (c.1, reserved_number)) <$> criteria = (λ k, (k, reserved_number)) <$> criteria.*1) as ->
      by (by rewrite <- list_fmap_compose).
    by rewrite Hp.
Qed.

Lemma numbers_within {A} (l : list f64) (criteria : list A) :
  Forall finite l → length l = length criteria →
  within (SerSeq (SerF64 <$> l)) (SerSeq ((λ _, reserved_number) <$> criteria)).
Proof.
  intros Hf Hl. apply within_seq, parts_same. revert criteria Hl.
  induction Hf as [|x l Hx _ IH]; intros [|c criteria]; csimpl; try done; constructor.
  - by apply within_number.
  - apply IH. by injection Hl.
Qed.

Lemma question_within r q required w :
  result_validate r q required = Ok tt → question_capacity q = Ok w → within (question_result_serial r) w.
Proof.
  intros Hv Hw. pose proof (result_validate_finite _ _ _ Hv) as Hfin.
  assert (∀ k v v', within v v' → entry_within (k, v) (k, v')) as Hentry by done.
  assert (∀ k c l', all_finite c →
    parts_within entry_within (optional_field k (SerF64 <$> c)) ((k, reserved_number) :: l')) as Hconf.
  { intros k [c|] l' Hc; simpl; [|apply parts_nil]. apply parts_skip; [|apply parts_nil].
    by apply Hentry, within_number, Hc. }
  unfold result_validate in Hv. destruct r as [r|r|r], q as [text criteria|text criteria|text]; try done.
  - simpl in Hw. destruct (longest_label criteria.*1) as [longest|] eqn:El; [|done]. injection Hw as <-.
    apply longest_label_spec in El as [Hin Hle]. destruct Hfin as [Hprob Hc].
    destruct (choice_validate r _) as [[]|] eqn:Er; [|done]. clear Hv. unfold choice_validate in Er.
    destruct (question_validate _) as [[]|] eqn:Eq; [|done]. simpl in Er.
    apply question_validate_correct in Eq as (_ & Hn & Hid & _).
    destruct (existsb _ criteria) eqn:Eo; [|done]. simpl in Er.
    apply existsb_exists in Eo as (c & Hcin%list_elem_of_In & Hout%String.eqb_eq).
    assert (∀ s, s ∈ criteria.*1 → is_identifier s = true) as Hids.
    { intros s (c' & -> & Hc')%list_elem_of_fmap. rewrite Forall_forall in Hid. by apply Hid. }
    assert (c.1 ∈ criteria.*1) as Hcl by (by apply list_elem_of_fmap_2).
    apply within_entries, parts_skip; [by apply Hentry, within_refl|].
    apply parts_skip; [apply Hentry, within_label; rewrite <- ?Hout; auto|].
    destruct (ch_probabilities r) as [l|]; simpl; [|by apply parts_drop, Hconf].
    apply parts_skip; [|by apply Hconf]. apply Hentry, probabilities_within; [by apply Hprob|].
    destruct (_ || _) eqn:Ep; [done|]. apply orb_false_iff in Ep as [El He].
    apply negb_false_iff, N.eqb_eq in El. apply choice_keys; [done|lia|done].
  - simpl in Hw. injection Hw as <-. destruct Hfin as (Ho & Hprob & Hc).
    destruct (score_validate r _) as [[]|] eqn:Er; [|done]. clear Hv. unfold score_validate in Er.
    destruct (question_validate _) as [[]|]; [|done]. simpl in Er. destruct (_ || _); [done|].
    apply within_entries, parts_skip; [by apply Hentry, within_refl|].
    apply parts_skip; [by apply Hentry, within_number|].
    destruct (sc_probabilities r) as [l|]; simpl; [|by apply parts_drop, Hconf].
    apply parts_skip; [|by apply Hconf]. apply Hentry, numbers_within; [by apply Hprob|].
    destruct (negb _) eqn:El; [done|]. apply negb_false_iff, N.eqb_eq in El. lia.
  - simpl in Hw. injection Hw as <-. apply within_entries, parts_skip; [by apply Hentry, within_refl|].
    apply parts_skip; [by apply Hentry, within_number|apply parts_nil].
Qed.
(** The answers of a valid result belong to the declared questions, in order. *)
Lemma answers_declared d b rs :
  result_validate_for_declaration d b rs = Ok tt →
  (1 ≤ dr_attempts d ≤ 2) ∧
  Forall2 (λ a q, an_name a = q_name q ∧ ∃ required, result_validate (an_result a) (q_question q) required = Ok tt)
    (dr_answers d) (d_outputs b).
Proof.
  unfold result_validate_for_declaration. destruct (negb _); [done|].
  destruct (validate_answers b rs _ _) as [[]|] eqn:Ev; [|done]. simpl.
  destruct (existsb _ _) eqn:Ez; [done|]. intros _.
  pose proof (answers_names _ _ _ _ Ev) as [Hn _]. unfold validate_answers in Ev.
  destruct (from_contract _) as [[]|]; [|done]. simpl in Ev.
  destruct (negb (_ && _)) eqn:Ea; [done|]. apply negb_false_iff, andb_true_iff in Ea as [?%N.leb_le ?%N.leb_le].
  split; [done|]. destruct (negb (_ =? _)) eqn:El; [done|]. apply negb_false_iff, N.eqb_eq in El.
  destruct (negb _); [done|]. destruct (required_validate _ _ _ _) as [[]|]; [|done]. simpl in Ev.
  apply answers_validate_correct in Ev as (_ & _ & Hf).
  apply Forall2_same_length_lookup. split; [lia|]. intros i a q Ha Hq.
  assert (an_name a = q_name q) as Hname.
  { apply not_true_iff_false in Ez. destruct (String.eqb_spec (an_name a) (q_name q)) as [|Hne]; [done|].
    destruct Ez. apply existsb_exists. exists (a, q). split.
    - apply list_elem_of_In, list_elem_of_lookup. exists i. by rewrite lookup_zip_with, Ha, Hq.
    - simpl. by apply String.eqb_neq in Hne as ->. }
  split; [done|]. rewrite Forall_forall in Hf.
  destruct (Hf a) as (q' & r & Hq' & _ & Hr); [by eapply list_elem_of_lookup_2|].
  assert (q' = q) as ->; [|by exists r].
  apply List.find_some in Hq' as [Hin%list_elem_of_In Heq%String.eqb_eq].
  apply list_elem_of_lookup in Hin as [j Hj].
  assert (j = i) as ->; [|congruence]. apply (NoDup_lookup _ _ _ (q_name q) Hn).
  - by rewrite list_lookup_fmap, Hj, <- Hname, <- Heq.
  - by rewrite list_lookup_fmap, Hq.
Qed.

Lemma decision_within d b rs w :
  result_validate_for_declaration d b rs = Ok tt → decision_capacity b = Ok w →
  within (decision_result_serial d) w.
Proof.
  intros Hv Hw. pose proof (validated_name _ _ _ Hv) as Hname.
  apply answers_declared in Hv as [Hattempts Hf]. unfold decision_capacity in Hw.
  destruct (results_of answer_capacity (d_outputs b)) as [ws|] eqn:Ews; [|done]. injection Hw as <-.
  apply results_of_spec in Ews.
  assert (∀ k v v', within v v' → entry_within (k, v) (k, v')) as Hentry by done.
  apply within_entries, parts_skip; [rewrite Hname; by apply Hentry, within_refl|].
  apply parts_skip.
  - apply Hentry, within_seq, parts_same. revert ws Ews.
    induction Hf as [|a q answers outputs [Ha [required Hr]] _ IH]; intros ws Hws;
      [apply Forall2_nil_inv_l in Hws as ->; constructor|].
    apply Forall2_cons_inv_l in Hws as (w & ws' & Hw & Hws & ->). csimpl. constructor; [|by apply IH].
    unfold answer_capacity in Hw. destruct (question_capacity (q_question q)) as [wq|] eqn:Eq; [|done].
    injection Hw as <-. rewrite Ha. apply within_entries, parts_skip; [by apply Hentry, within_refl|].
    apply parts_skip; [|apply parts_nil]. by apply Hentry, (question_within _ _ required _ Hr Eq).
  - apply parts_skip; [|apply parts_nil]. apply Hentry. apply (within_count _ 2 1); [|done|done].
    change (10 ^ N.of_nat 1) with 10. lia.
Qed.

(** Each result takes the place of its own declaration. *)
Lemma results_places ds rs decisions :
  NoDup (dr_decision <$> decisions) → Forall (decision_ok ds rs) decisions →
  ∃ k, Forall2 (λ d b, result_validate_for_declaration d b rs = Ok tt) decisions k ∧ k ⊆+ ds.
Proof.
  intros Hn Hok.
  assert (∃ k, Forall2 (λ d b, result_validate_for_declaration d b rs = Ok tt) decisions k ∧ ∀ b, b ∈ k → b ∈ ds)
    as (k & Hk & Hin).
  { clear Hn. induction Hok as [|d decisions (b & Hb & Hv) _ (k & Hk & Hin)].
    { exists []. split; [constructor|by intros b ?%elem_of_nil]. }
    exists (b :: k). split; [by constructor|]. by intros b' [->|Hb']%elem_of_cons; [|apply Hin]. }
  exists k. split; [done|]. apply NoDup_submseteq; [|done]. apply (NoDup_fmap_1 d_name).
  assert (d_name <$> k = dr_decision <$> decisions) as ->; [|done].
  clear Hn Hok Hin. induction Hk as [|d b decisions k Hv _ IH]; [done|]. csimpl.
  by rewrite IH, (validated_name _ _ _ Hv).
Qed.

Lemma assessment_within ds rs decisions n w :
  NoDup (dr_decision <$> decisions) → Forall (decision_ok ds rs) decisions → n < 10 ^ 20 →
  assessment_capacity ds = Ok w → within (assessment_serial RESULT_VERSION decisions n) w.
Proof.
  intros Hn Hok Hlt Hw. destruct (results_places ds rs decisions Hn Hok) as (k & Hk & Hsub).
  unfold assessment_capacity in Hw.
  destruct (results_of decision_capacity ds) as [ws|] eqn:Ews; [|done]. injection Hw as <-.
  apply results_of_spec in Ews.
  assert (∀ k v v', within v v' → entry_within (k, v) (k, v')) as Hentry by done.
  apply within_entries, parts_skip; [by apply Hentry, within_refl|].
  apply parts_skip.
  - apply Hentry, within_seq. set (cap := λ b, match decision_capacity b with Ok w => w | Err _ => SerNone end).
    assert (ws = cap <$> ds ∧ Forall (λ b, ∃ w, decision_capacity b = Ok w) ds) as [-> Hcap].
    { clear Hok Hsub. induction Ews as [|b w ds ws Hb _ [-> Hall]]; [by split|]. csimpl. split.
      - unfold cap at 2. by rewrite Hb.
      - constructor; [by exists w|done]. }
    exists (cap <$> k). split; [|by apply fmap_submseteq]. apply Forall2_fmap.
    rewrite Forall_forall in Hcap. pose proof (λ b Hb, Hcap b (elem_of_submseteq _ _ b Hb Hsub)) as Hk'.
    clear Hn Hok Hsub. induction Hk as [|d b decisions k Hv _ IH]; constructor.
    + destruct (Hk' b ltac:(by left)) as [w Hw]. unfold cap. rewrite Hw. by apply (decision_within d b rs).
    + apply IH. intros b' Hb'. apply Hk'. by right.
  - apply parts_skip; [|apply parts_nil]. apply Hentry, (within_count _ U64_MAX 20); [done|lia|].
    apply N.leb_le. vm_refl.
Qed.

(** What the capacity measurement promises to the engine. *)
Lemma capacity_fits ds rs m :
  N.of_nat (length ds) ≤ 2 ^ 62 → measure_result_capacity ds rs = Ok m → results_fit rs ds.
Proof.
  intros Hlen. unfold measure_result_capacity. destruct (from_contract _) as [[]|]; [|done]. simpl.
  destruct (assessment_capacity ds) as [w|] eqn:Ew; [|done]. unfold from_bounded.
  destruct (measure_json RESULT_LIMITS w) as [m'|] eqn:Em; [|done]. intros _ answers n Hn Hok Hle.
  eapply within_measured; [done| |exact Em]. apply (assessment_within ds rs); try done. lia.
Qed.
End capacity.

(** ** Properties *)

Section properties.
Context `{SerdeNumber, RecordWriterLaws}.

Lemma attempts_bound ds rs decisions :
  Forall (decision_ok ds rs) decisions → attempts_of decisions ≤ 2 * N.of_nat (length decisions).
Proof.
  induction 1 as [|d decisions (b & _ & [Hd _]%answers_declared) _ IH]; simpl; lia.
Qed.

(** C23: the capacity that is measured before anything is sent is enough.  When
    the largest result of the declarations fits the limits, every complete set of
    valid decision results, in any order, makes an assessment: it is never lost to
    the limits on bytes, values and depth after its requests were answered. *)
Theorem capacity_suffices ds rs m decisions :
  N.of_nat (length ds) ≤ 2 ^ 62 →
  measure_result_capacity ds rs = Ok m →
  dr_decision <$> decisions ≡ₚ d_name <$> ds →
  Forall (decision_ok ds rs) decisions →
  ∃ a, EvaluatedAssessment_new ds rs decisions = Ok a.
Proof.
  intros Hlen Hm Hp Hok. pose proof (capacity_fits ds rs m Hlen Hm) as Hfit.
  assert (validate_requirements ds rs = Ok tt) as Hr.
  { unfold measure_result_capacity in Hm. by destruct (validate_requirements ds rs) as [[]|]. }
  pose proof (names_nodup _ ds Hr) as Hn.
  assert (length decisions = length ds) as Hl by (by rewrite <- (length_fmap dr_decision), Hp, length_fmap).
  pose proof (attempts_bound ds rs decisions Hok) as Hatt.
  unfold EvaluatedAssessment_new. rewrite Hr. simpl. rewrite Hl, N.eqb_refl. simpl.
  rewrite decisions_validate_complete; [|done|by rewrite Hp|set_solver|done]. simpl.
  unfold total_attempts. rewrite sum_attempts_total, N.add_0_l by done.
  rewrite (proj2 (N.leb_le _ _)) by (unfold U64_MAX; lia). simpl.
  set (key := λ d, decision_index ds (dr_decision d)). pose proof (sort_by_key_perm key decisions) as Hs.
  assert (is_ok (measure_json RESULT_LIMITS
    (assessment_serial RESULT_VERSION (sort_by_key key decisions) (attempts_of decisions))) = true) as Hfits.
  { apply Hfit; [by rewrite Hs, Hp|by rewrite Hs|lia]. }
  unfold measure_results. cbn [as_version as_decisions as_attempts].
  destruct (measure_json _ _) as [size|]; [|discriminate Hfits]. eexists. reflexivity.
Qed.

(** The saved rows of a candidate always advance.  After any valid outcome of
    the next attempt, the rows with the new one validate again: an answer leads to
    the next decision in declared order or to the complete assessment, a safe
    failure to the second attempt or to the end, any other outcome to the end. *)
Theorem progress_advances ds rs m progress n a u o :
  N.of_nat (length ds) ≤ 2 ^ 62 →
  measure_result_capacity ds rs = Ok m →
  validate_decision_progress ds rs progress = Ok {| vp_attempts := n; vp_state := PNext a u |} →
  outcome_valid rs ds a o →
  ∃ state, validate_decision_progress ds rs (pushed progress a o) =
             Ok {| vp_attempts := n + 1; vp_state := state |} ∧ follows rs ds a u n o state.
Proof. intros Hlen Hm%capacity_fits; [|done]. by apply progress_advances_helper. Qed.
End properties.

(** ** A compact writer *)

Section compact.

Fixpoint escape_text (s : string) : string :=
  match s with
  | "" => ""
  | String a t => match escape a with Some e => e | None => str1 a end +:+ escape_text t
  end.

Definition render_string (s : string) : string := str1 quote +:+ (escape_text s +:+ str1 quote).

(** [, ] between the parts *)
Fixpoint commas (parts : list string) : string :=
  match parts with
  | [] => ""
  | [part] => part
  | part :: parts => part +:+ ("," +:+ commas parts)
  end.

Fixpoint render (v : Serial) : string :=
  match v with
  | SerBool b => if b then "true" else "false"
  | SerInt z => pretty z
  | SerNumber text => text
  | SerF64 x => "0.5"
  | SerStr s => render_string s
  | SerNone => "null"
  | SerUnitVariant n => render_string n
  | SerSeq items => "[" +:+ (commas (render <$> items) +:+ "]")
  | SerEntries entries =>
      "{" +:+ (commas ((λ kv, render_string kv.1 +:+ (":" +:+ render kv.2)) <$> entries) +:+ "}")
  | SerVariant n content => "{" +:+ (render_string n +:+ (":" +:+ (render content +:+ "}")))
  end.

Definition compact_writer : RecordWriter := {| record_writes v := ([render v], None) |}.

Lemma escape_text_size s : str_len (escape_text s) = escaped_size s.
Proof.
  induction s as [|a s IH]; [done|]. cbn [escape_text escaped_size]. rewrite str_len_app, IH.
  by destruct (escape a).
Qed.

Lemma render_string_size s : str_len (render_string s) = string_size s.
Proof.
  unfold render_string, string_size. rewrite !str_len_app, escape_text_size.
  change (str_len (str1 quote)) with 1. lia.
Qed.

Lemma commas_size parts :
  str_len (commas parts) = foldr N.add 0 (str_len <$> parts) + (N.of_nat (length parts) - 1).
Proof.
  induction parts as [|part [|part' parts] IH]; [done|simpl; lia|].
  change (commas (part :: part' :: parts)) with (part +:+ ("," +:+ commas (part' :: parts))).
  rewrite !str_len_app, IH. change (str_len ",") with 1. simpl. lia.
Qed.

Lemma bracket_size open close parts :
  str_len open = 1 → str_len close = 1 →
  str_len (open +:+ (commas parts +:+ close)) = list_size (str_len <$> parts).
Proof.
  intros Ho Hc. rewrite !str_len_app, Ho, Hc, commas_size. unfold list_size. rewrite length_fmap. lia.
Qed.

Lemma render_size v : str_len (render v) = serial_size (λ _, "0.5") v.
Proof.
  induction v as [b|z|text|x|s| |n|items IH|entries IH|n content IH] using Serial_ind_nested;
    cbn [render serial_size]; try done.
  - by destruct b.
  - apply render_string_size.
  - apply render_string_size.
  - rewrite bracket_size by done. f_equal. rewrite <- list_fmap_compose.
    induction IH as [|v items Hv _ IH]; [done|]. csimpl. by rewrite Hv, IH.
  - rewrite bracket_size by done. f_equal. rewrite <- list_fmap_compose.
    induction IH as [|[k v] items Hv _ IH]; [done|]. csimpl. f_equal; [|done]. simpl in Hv.
    rewrite !str_len_app, Hv, render_string_size. change (str_len ":") with 1. lia.
  - rewrite !str_len_app, IH, render_string_size. unfold list_size. simpl.
    change (str_len "{") with 1. change (str_len ":") with 1. change (str_len "}") with 1. lia.
Qed.

Lemma compact_laws : RecordWriterLaws (H:=compact_writer).
Proof.
  refine (Build_RecordWriterLaws compact_writer (λ _, "0.5") _ _).
  - intros x _. by vm_compute.
  - intros v _. split; [done|]. simpl. rewrite N.add_0_r. apply render_size.
Qed.
End compact.

(** ** Samples *)

Section sample.
#[local] Existing Instance text_numbers.
#[local] Existing Instance compact_writer.
#[local] Existing Instance compact_laws.

Definition sample_requirements : list QuestionRequirements := question_requirements sample_check.

Lemma capacity_suffices_witness :
  ∃ m a, measure_result_capacity [sample_decision] sample_requirements = Ok m ∧
         EvaluatedAssessment_new [sample_decision] sample_requirements sample_results = Ok a.
Proof.
  assert (is_ok (measure_result_capacity [sample_decision] sample_requirements) = true) as Hm by vm_refl.
  destruct (measure_result_capacity [sample_decision] sample_requirements) as [m|] eqn:Em; [|discriminate Hm].
  destruct (capacity_suffices [sample_decision] sample_requirements m sample_results) as [a Ha].
  - apply N.leb_le. vm_refl.
  - exact Em.
  - reflexivity.
  - apply Forall_cons. split; [|constructor]. exists sample_decision. split; [by left|vm_refl].
  - exists m, a. split; [reflexivity|exact Ha].
Defined.

Lemma progress_advances_witness :
  let a := {| da_decision := "review"; da_number := 1 |} in
  validate_decision_progress [sample_decision] sample_requirements
    {| dp_attempts := [{| sa_attempt := a; sa_outcome := SafeTransient |}] |} =
  Ok {| vp_attempts := 1; vp_state := PNext {| da_decision := "review"; da_number := 2 |} 1 |}.
Proof.
  intros a.
  assert (is_ok (measure_result_capacity [sample_decision] sample_requirements) = true) as Hm by vm_refl.
  destruct (measure_result_capacity [sample_decision] sample_requirements) as [m|] eqn:Em; [|discriminate Hm].
  destruct (progress_advances [sample_decision] sample_requirements m DecisionProgress_default 0 a 1 SafeTransient)
    as (state & Hv & Hs).
  - apply N.leb_le. vm_refl.
  - exact Em.
  - vm_refl.
  - exact I.
  - unfold follows in Hs. simpl in Hs. subst state. exact Hv.
Defined.
End sample.
