(* ===== verification/PreparedFacts.v ===== *)
(** * Facts about prepared assessments (crates/antiburn-checks/src/prepared_assessment.rs,
    fit.rs and preparation.rs)

    A preparation record that was saved within the limits is decoded as the same
    record; and the builder that appends one block at a time accepts exactly the
    lists of blocks that validate as a whole. *)

From stdpp Require Import gmap sorting.
From S2P Require Import Prelude Order RustString Json Diagnostics Expression Budget Provenance Scalars Fit Decision Check BoundedJson Serde Prepared Results ResultFacts ActionFacts Progress ProgressFacts CapacityFacts.

#[local] Open Scope N_scope.

(** ** Values *)

Section values.
Context `{SerdeNumber, !SerdeNumberLaws}.

(** On the events of a number the two readers agree. *)
Lemma event_value_number n : event_value (number_event n) = Some (JNumber n).
Proof.
  rewrite <- (value_of_number n). unfold number_event.
  destruct (number_as_u64 n), (number_as_i64 n), (number_as_f64 n); done.
Qed.

(** A value that is read strictly again. *)
Lemma event_value_event v : value_sorted v = true → event_value (value_event v) = Some v.
Proof.
  induction v as [|b|n|s|l IH|m IH] using Value_ind_nested; intros Hs; simpl in *; try done.
  - apply event_value_number.
  - rewrite (foldO_append event_value (value_event <$> l) l); [done|].
    apply Forall2_fmap_l, Forall_Forall2_diag, Forall_forall. intros v Hv.
    rewrite Forall_forall in IH. rewrite forallb_forall in Hs. apply IH; [done|]. by apply Hs, list_elem_of_In.
  - apply andb_true_iff in Hs as [Hs%map_sorted_ascending Hv].
    rewrite (foldO_ascending event_value true _ m); [done| |done].
    apply Forall2_fmap_l, Forall_Forall2_diag, Forall_forall. intros kv Hin. split; [done|].
    rewrite Forall_forall in IH. rewrite forallb_forall in Hv. apply IH; [done|]. by apply Hv, list_elem_of_In.
Qed.

(** The serializer of a value and the deserializer over it. *)
Lemma serial_event_value v : serial_event (value_serial v) = value_event v.
Proof.
  induction v as [|b|n|s|l IH|m IH] using Value_ind_nested; simpl; try done.
  - by rewrite number_text.
  - f_equal. rewrite <- list_fmap_compose. apply list_fmap_ext. intros i v Hi.
    rewrite Forall_forall in IH. apply IH. by eapply list_elem_of_lookup_2.
  - f_equal. rewrite <- list_fmap_compose. apply list_fmap_ext. intros i kv Hi. simpl. f_equal.
    rewrite Forall_forall in IH. apply IH. by eapply list_elem_of_lookup_2.
Qed.

Lemma decodes_value v : value_sorted v = true → decodes read_value (value_serial v) v.
Proof.
  intros Hs. exists v. split; [|by apply read_value_event]. rewrite serial_event_value. by apply event_value_event.
Qed.

Lemma sorted_ascending {V} (m : Map V) : ascending String.compare m → map_sorted m = true.
Proof.
  induction m as [|[k v] m IH]; [done|]. intros Ha. destruct m as [|[k' v'] m]; [done|].
  apply StronglySorted_inv in Ha as [Ha Hk]. change (str_lt k k' && map_sorted ((k', v') :: m) = true).
  rewrite (IH Ha), andb_true_r. apply Forall_inv in Hk. unfold cmp_lt in Hk. simpl in Hk. unfold str_lt. by rewrite Hk.
Qed.

(** What is read strictly has [BTreeMap]s. *)
Lemma event_value_sorted ev : ∀ v, event_value ev = Some v → value_sorted v = true.
Proof.
  induction ev as [|b|z|n|x|s|l c IH|l c IH|] using JsonEvent_ind_nested; intros v Hv; simpl in Hv;
    try done; try by injection Hv as <-.
  - destruct (number_of_f64 x); [by injection Hv as <-|done].
  - apply bind_Some in Hv as (values & Hl & Hc). destruct c; [|done]. injection Hc as <-. simpl.
    assert (∀ acc, forallb value_sorted acc = true →
      foldO (λ values ev, v ← event_value ev; Some (values ++ [v])%list) l acc = Some values →
      forallb value_sorted values = true) as Hall; [|by apply (Hall [])].
    clear Hl. induction IH as [|ev l Hev _ IH]; intros acc Ha; simpl; [by intros [= <-]|].
    destruct (event_value ev) as [w|] eqn:Ew; simpl; [|done]. apply IH.
    rewrite forallb_app, Ha. simpl. by rewrite (Hev w).
  - apply bind_Some in Hv as (fields & Hl & Hc). destruct c; [|done]. injection Hc as <-. simpl.
    assert (∀ acc : Map Value, ascending String.compare acc → forallb (λ kv, value_sorted kv.2) acc = true →
      foldO (λ fields kv, if map_contains kv.1 fields then None
                          else v ← event_value kv.2; Some (Json.map_insert kv.1 v fields)) l acc = Some fields →
      ascending String.compare fields ∧ forallb (λ kv, value_sorted kv.2) fields = true) as Hall.
    { clear Hl. induction IH as [|[k ev] l Hev _ IH]; intros acc Ha Hs; simpl; [by intros [= <-]|].
      destruct (map_contains k acc) eqn:Ek; [done|]. simpl in Hev.
      destruct (event_value ev) as [w|] eqn:Ew; simpl; [|done]. apply IH.
      - rewrite map_insert_btree. by apply entry_ascending; [apply _..|].
      - apply forallb_forall. intros kv Hin%list_elem_of_In. rewrite (map_insert_fresh k w acc Ek) in Hin.
        apply elem_of_cons in Hin as [->|Hin]; [by apply (Hev w)|].
        rewrite forallb_forall in Hs. by apply Hs, list_elem_of_In. }
    destruct (Hall [] ltac:(constructor) eq_refl Hl) as [Ha Hs]. by rewrite (sorted_ascending _ Ha).
Qed.

(** A value within the limits passes through the strict visitor. *)
Lemma strict_value limits v :
  value_sorted v = true → shape_nodes (value_shape v) ≤ l_nodes limits →
  shape_depth (value_shape v) ≤ l_depth limits →
  deserialize_strict_value limits (value_event v) = Ok v.
Proof.
  intros Hs Hn Hd. pose proof (event_value_event v Hs) as Hv. destruct (event_value_size _ _ Hv) as [Hn' Hd'].
  unfold deserialize_strict_value.
  pose proof (charges_run limits (event_shape (value_event v)) (event_value (value_event v)) _ v
    (charged NodeCounter_new (shape_depths (event_shape (value_event v)) 1))
    (strict_seed_charges limits (value_event v) 1)) as [_ Hrun].
  rewrite Hrun; [done|]. rewrite Hn', Hd'. by split_and!.
Qed.
End values.

(** ** Records *)

Section records.
Context `{SerdeNumber, !SerdeNumberLaws}.

Lemma decodes_null {A} (r : reader A) : decodes (read_option r) SerNone None.
Proof. by exists JNull. Qed.

(** An absence is written as null, and nothing else is. *)
Lemma decodes_option {A} (r : reader A) (f : A → Serial) o :
  (∀ x, o = Some x → serial_event (f x) ≠ EvUnit ∧ decodes r (f x) x) →
  decodes (read_option r) (ser_option f o) o.
Proof.
  intros Ho. destruct o as [x|]; [|apply decodes_null]. destruct (Ho x eq_refl) as (Hne & w & Hw & Hx).
  exists w. split; [done|]. unfold from_value, read_option in *. simpl in Hw. rewrite Hx.
  destruct w as [|b|n|s|l|m]; try done.
  - exfalso. destruct (serial_event (f x)); simpl in Hw; try done.
    + by destruct (number_of_f64 _).
    + by destruct (foldO _ _ _) as [?|]; simpl in Hw; [destruct complete|].
    + by destruct (foldO _ _ _) as [?|]; simpl in Hw; [destruct complete|].
  - simpl. unfold number_event. by repeat case_match.
Qed.

Lemma decodes_optional_string o : decodes (read_option read_string) (ser_option SerStr o) o.
Proof. apply decodes_option. intros s _. split; [done|apply decodes_string]. Qed.

Lemma decodes_variant {A} (variants : list (string * A)) name a :
  map_get name variants = Some a → decodes (read_variant variants) (SerUnitVariant name) a.
Proof. intros Hg. by exists (JString name). Qed.

(** *** Budgets *)

Definition limits_serial (l : EvaluationLimits) : Serial :=
  SerEntries [("max_depth", ser_n (max_depth l)); ("max_steps", ser_n (max_steps l))].

Lemma decodes_limits l :
  max_depth l ≤ USIZE_MAX → max_steps l ≤ USIZE_MAX → decodes read_limits (limits_serial l) l.
Proof.
  destruct l as [d s]. intros Hd%decodes_usize Hs%decodes_usize. unfold limits_serial, ser_n. simpl in *. decode_struct.
Qed.

(** The limits of production are [usize]s. *)
Lemma budget_bounds b :
  budget_ok b && within_defaults b = true →
  max_depth (limits b) ≤ USIZE_MAX ∧ max_steps (limits b) ≤ USIZE_MAX ∧ max_items b ≤ USIZE_MAX ∧
  max_generated_bytes b ≤ USIZE_MAX ∧ max_materialized_bytes b ≤ USIZE_MAX ∧ steps b ≤ USIZE_MAX ∧
  visited_items b ≤ USIZE_MAX ∧ generated_bytes b ≤ USIZE_MAX ∧ materialized_bytes b ≤ USIZE_MAX.
Proof.
  unfold budget_ok, within_defaults. rewrite !andb_true_iff, !N.leb_le.
  assert (DEFAULT_MAX_EVALUATION_DEPTH ≤ USIZE_MAX ∧ DEFAULT_MAX_EVALUATION_STEPS ≤ USIZE_MAX ∧
    DEFAULT_MAX_EVALUATION_ITEMS ≤ USIZE_MAX ∧ DEFAULT_MAX_GENERATED_BYTES ≤ USIZE_MAX ∧
    DEFAULT_MAX_MATERIALIZED_BYTES ≤ USIZE_MAX) as Hmax by (by vm_compute).
  intros Hb. destruct b. simpl in *. split_and!; lia.
Qed.

Lemma decodes_budget b : budget_ok b && within_defaults b = true → decodes read_budget (budget_serial b) b.
Proof.
  intros Hb. assert (restore (save b) = Ok b) as Hrestore.
  { revert Hb. unfold restore, budget_ok, within_defaults. destruct b. simpl. intros Hb.
    match goal with |- (if ?c then _ else _) = _ => destruct c eqn:E end; [lia|done]. }
  assert (decodes read_saved_budget (budget_serial b) (save b)) as (w & Hw & Hr).
  { apply budget_bounds in Hb as (Hd & Hs & Hi & Hg & Hm & Hst & Hv & Hgb & Hmb).
    pose proof (decodes_limits (limits b) Hd Hs) as Hl. unfold budget_serial.
    change (SerEntries [("max_depth", _); _]) with (limits_serial (limits b)).
    apply decodes_usize in Hi, Hg, Hm, Hst, Hv, Hgb, Hmb. pose proof (decodes_bool (exhausted b)) as He.
    unfold ser_n, save. destruct b. simpl in *. decode_struct. }
  exists w. split; [done|]. unfold from_value, read_budget in *. rewrite Hr. simpl. by rewrite Hrestore.
Qed.

(** *** Reports and failures *)

Definition omission_storable (o : FitOmission) : Prop :=
  om_original_count o ≤ USIZE_MAX ∧ om_retained_count o ≤ USIZE_MAX.

Definition report_storable (r : FitReport) : Prop := Forall omission_storable (omissions r).

Definition omission_serial (o : FitOmission) : Serial :=
  SerEntries
    [("path", SerStr (om_path o)); ("strategy", SerUnitVariant (strategy_name (om_strategy o)));
     ("original_count", ser_n (om_original_count o)); ("retained_count", ser_n (om_retained_count o))].

Lemma decodes_omission o : omission_storable o → decodes read_omission (omission_serial o) o.
Proof.
  destruct o as [path strategy original retained]. intros [Ho%decodes_usize Hr%decodes_usize]. simpl in *.
  pose proof (decodes_string path) as Hp.
  assert (decodes read_strategy (SerUnitVariant (strategy_name strategy)) strategy) as Hs
    by (apply decodes_variant; by destruct strategy).
  unfold omission_serial, ser_n. simpl. decode_struct.
Qed.

Lemma decodes_report r : report_storable r → decodes read_report (report_serial r) r.
Proof.
  destruct r as [l]. unfold report_storable. simpl. intros Hl.
  assert (decodes (read_seq read_omission) (SerSeq (omission_serial <$> l)) l) as Hd.
  { rewrite <- (list_fmap_id l) at 2. apply (decodes_seq _ omission_serial id).
    eapply Forall_impl; [exact Hl|]. apply decodes_omission. }
  unfold report_serial. change (λ o, SerEntries _) with omission_serial. simpl. decode_struct.
Qed.

Definition budget_storable (b : PreparationBudget) : Prop := observed b ≤ U64_MAX ∧ maximum b ≤ U64_MAX.

Definition preparation_budget_serial (b : PreparationBudget) : Serial :=
  SerEntries [("kind", SerUnitVariant (budget_kind_name (pb_kind b))); ("observed", ser_n (observed b));
              ("maximum", ser_n (maximum b))].

Lemma decodes_preparation_budget b :
  budget_storable b → decodes read_preparation_budget (preparation_budget_serial b) b.
Proof.
  destruct b as [kind observed maximum]. intros [Ho%decodes_u64 Hm%decodes_u64]. simpl in *.
  assert (decodes read_budget_kind (SerUnitVariant (budget_kind_name kind)) kind) as Hk
    by (apply decodes_variant; by destruct kind).
  unfold preparation_budget_serial, ser_n. simpl. decode_struct.
Qed.

Definition context_storable (c : PreparationFailureContext) : Prop :=
  ∀ b, c_budget c = Some b → budget_storable b.

Lemma decodes_failure_context c :
  context_storable c → decodes read_failure_context (failure_context_serial c) c.
Proof.
  destruct c as [decision field path reason budget]. unfold context_storable. simpl. intros Hb.
  pose proof (decodes_optional_string decision) as Hd. pose proof (decodes_optional_string field) as Hf.
  pose proof (decodes_optional_string path) as Hp.
  assert (decodes (read_option read_no_fit) (ser_option (λ r, SerUnitVariant (no_fit_name r)) reason) reason) as Hr.
  { apply decodes_option. intros r _. split; [done|]. apply decodes_variant. by destruct r. }
  assert (decodes (read_option read_preparation_budget) (ser_option preparation_budget_serial budget) budget) as Hbu.
  { apply decodes_option. intros b Hs. split; [done|]. by apply decodes_preparation_budget, Hb. }
  unfold failure_context_serial. change (λ b, SerEntries _) with preparation_budget_serial. simpl. decode_struct.
Qed.

Definition failure_storable (f : PreparationFailure) : Prop :=
  (∀ r, pf_report f = Some r → report_storable r) ∧ context_storable (pf_context f).

Lemma failure_fields f :
  failure_storable f →
  decodes read_failure_code (SerUnitVariant (failure_code_name (pf_code f))) (pf_code f) ∧
  decodes (read_option read_report) (ser_option report_serial (pf_report f)) (pf_report f) ∧
  decodes read_failure_context (failure_context_serial (pf_context f)) (pf_context f).
Proof.
  intros [Hr Hc]. split_and!; [|apply decodes_option; intros r Hs; split; [done|]|by apply decodes_failure_context].
  - apply decodes_variant. by destruct (pf_code f).
  - by apply decodes_report, Hr.
Qed.

Context `{!RecordWriter}.

Lemma decodes_rejected f :
  failure_storable f → decodes read_record (record_serial (RecordRejected f)) (RecordRejected f).
Proof.
  intros (Hc & Hr & Hx)%failure_fields. pose proof (decodes_string (pf_detail f)) as Hd. cbn [record_serial].
  destruct f as [code detail report context]. cbn [pf_code pf_detail pf_report pf_context] in *. decode_struct.
Qed.

Definition local_storable (l : LocalPreparation) : Prop :=
  started_at_unix_ms l ≤ U64_MAX ∧ budget_ok (evaluation_budget l) = true ∧
  LocalPreparation_validate_for_resume l = Ok tt.

(** What resumes has the limits of production. *)
Lemma resumable_defaults b : validate_for_resume b = Ok tt → within_defaults b = true.
Proof.
  unfold validate_for_resume. destruct (check_active b); simpl; [|done].
  destruct (_ || _) eqn:E; [done|]. rewrite !orb_false_iff, !negb_false_iff, bool_decide_eq_true, !N.eqb_eq in E.
  destruct E as (((Hl & Hi) & Hg) & Hm). intros _. unfold within_defaults. rewrite Hl, Hi, Hg, Hm. by vm_compute.
Qed.

Lemma decodes_local l : local_storable l → decodes read_record (record_serial (RecordLocal l)) (RecordLocal l).
Proof.
  intros (Hs%decodes_u64 & Hb & Hv). unfold LocalPreparation_validate_for_resume in Hv.
  destruct (N.eqb_spec (version l) 1) as [Hone|]; [|done]. simpl in Hv.
  assert (decodes read_budget (budget_serial (evaluation_budget l)) (evaluation_budget l)) as Hd.
  { apply decodes_budget. rewrite Hb. simpl. apply resumable_defaults.
    by destruct (validate_for_resume (evaluation_budget l)) as [[]|]. }
  pose proof (decodes_u8 (version l) ltac:(rewrite Hone; lia)) as Hver.
  cbn [record_serial]. unfold ser_n. destruct l as [v started budget].
  cbn [version started_at_unix_ms evaluation_budget] in *. decode_struct.
Qed.

(** *** Prepared assessments *)

Definition block_storable (b : PreparedBlock) : Prop :=
  value_sorted (pb_original_input b) = true ∧ value_sorted (pb_input b) = true ∧
  value_sorted (pb_request b) = true ∧ report_storable (pb_report b).

Lemma decodes_block b : block_storable b → decodes read_block (block_serial b) b.
Proof.
  destruct b as [name original input request report]. unfold block_storable. simpl.
  intros (Ho%decodes_value & Hi%decodes_value & Hr%decodes_value & Hrep%decodes_report).
  pose proof (decodes_string name) as Hn. unfold block_serial. simpl. decode_struct.
Qed.

Definition prepared_storable (p : PreparedAssessment) : Prop :=
  budget_ok (pa_evaluation_budget p) = true ∧ Forall block_storable (pa_decisions p) ∧
  prepared_validate p = Ok tt.

Lemma header_bounds p :
  prepared_validate p = Ok tt →
  pa_version p ≤ 255 ∧ pa_fitting_work_bytes p ≤ U64_MAX ∧
  validate_for_resume (pa_evaluation_budget p) = Ok tt.
Proof.
  unfold prepared_validate, validate_header. destruct (N.eqb_spec (pa_version p) PREPARED_ASSESSMENT_VERSION) as [->|];
    simpl; [|done]. destruct (is_blank _); simpl; [done|].
  destruct (N.ltb_spec MAX_ASSESSMENT_FITTING_WORK_BYTES (pa_fitting_work_bytes p)) as [|Hle]; simpl; [done|].
  destruct (validate_for_resume _) as [[]|]; simpl; [|done]. intros _. split_and!; [done| |done].
  etrans; [exact Hle|by vm_compute].
Qed.

(** What a ready record and its content are read as. *)
Definition ready_value (tagged : bool) (ds budget work profile v : Value) : Value :=
  JObject ([("decisions", ds); ("evaluation_budget", budget); ("fitting_work_bytes", work); ("profile", profile)] ++
           (if tagged then [("status", JString "ready")] else []) ++ [("version", v)])%list.

(** The tag is one value, which the inner limit leaves out. *)
Lemma ready_value_inner ds budget work profile v :
  value_sorted (ready_value true ds budget work profile v) = true →
  shape_nodes (value_shape (ready_value true ds budget work profile v)) ≤ l_nodes PREPARATION_LIMITS →
  shape_depth (value_shape (ready_value true ds budget work profile v)) ≤ l_depth PREPARATION_LIMITS →
  deserialize_strict_value INNER_LIMITS (value_event (ready_value false ds budget work profile v)) =
    Ok (ready_value false ds budget work profile v).
Proof.
  intros Hs Hn Hd. apply strict_value.
  - simpl in *. rewrite !andb_true_iff in *. naive_solver.
  - change (l_nodes INNER_LIMITS) with (l_nodes PREPARATION_LIMITS - 1). simpl in Hn |- *. lia.
  - change (l_depth INNER_LIMITS) with (l_depth PREPARATION_LIMITS). simpl in Hd |- *. lia.
Qed.

Lemma read_ready ds budget work profile v p :
  deserialize_strict_value INNER_LIMITS (value_event (ready_value false ds budget work profile v)) =
    Ok (ready_value false ds budget work profile v) →
  from_value read_saved_assessment (ready_value false ds budget work profile v) = Some p →
  prepared_validate p = Ok tt →
  from_value read_record (ready_value true ds budget work profile v) = Some (RecordReady p).
Proof.
  intros Hs Hr Hv. unfold from_value at 1, read_record.
  assert (read_tagged "status" (value_event (ready_value true ds budget work profile v)) =
    Some ("ready", value_event (ready_value false ds budget work profile v))) as -> by done.
  cbn -[read_prepared]. unfold read_prepared. 
  change (EvMap _ true) with (value_event (ready_value false ds budget work profile v)).
  rewrite Hs. cbn -[from_value ready_value]. rewrite Hr. cbn -[prepared_validate]. by rewrite Hv.
Qed.

(** The fields of an assessment decode, and so does the record around them. *)
Lemma decodes_ready p m :
  prepared_storable p → measure_json PREPARATION_LIMITS (record_serial (RecordReady p)) = Ok m →
  decodes read_record (record_serial (RecordReady p)) (RecordReady p).
Proof.
  intros (Hb & Hbs & Hv) Hm. destruct (header_bounds p Hv) as (Hver%decodes_u8 & Hwork%decodes_u64 & Hres).
  assert (decodes read_budget (budget_serial (pa_evaluation_budget p)) (pa_evaluation_budget p)) as Hbud
    by (apply decodes_budget; by rewrite Hb, (resumable_defaults _ Hres)).
  assert (decodes (read_seq read_block) (SerSeq (block_serial <$> pa_decisions p)) (pa_decisions p)) as Hds.
  { rewrite <- (list_fmap_id (pa_decisions p)) at 2. apply (decodes_seq _ block_serial id).
    eapply Forall_impl; [exact Hbs|]. apply decodes_block. }
  apply measure_json_correct in Hm as (_ & _ & Hnodes & Hdepth & _ & _); [|done].
  destruct Hver as (wv & Hwv & Hrv), Hwork as (ww & Hww & Hrw), Hbud as (wb & Hwb & Hrb), Hds as (wd & Hwd & Hrd).
  assert (event_value (serial_event (record_serial (RecordReady p))) =
    Some (ready_value true wd wb ww (JString (pa_profile p)) wv)) as He.
  { cbn [record_serial]. unfold ready_serial, ser_n, ready_value. cbn [option_list]. rewrite app_nil_r.
    revert Hwv Hww Hwb Hwd.
    generalize (SerInt (Z.of_N (pa_version p))), (SerInt (Z.of_N (pa_fitting_work_bytes p))),
      (budget_serial (pa_evaluation_budget p)), (SerSeq (block_serial <$> pa_decisions p)).
    intros sv sw sb sd ????. compute_struct. reflexivity. }
  exists (ready_value true wd wb ww (JString (pa_profile p)) wv). split; [done|].
  destruct (event_value_size _ _ He) as [Hsn Hsd]. rewrite event_shape_serial in Hsn, Hsd.
  apply read_ready; [apply ready_value_inner|..|done].
  - by eapply event_value_sorted.
  - by rewrite <- Hsn.
  - by rewrite <- Hsd.
  - destruct p as [v profile budget work ds]. unfold from_value, ready_value in *. simpl in *. compute_struct. reflexivity.
Qed.
End records.

(** ** Saved records *)

Section round_trip.
Context `{SerdeNumber, !SerdeNumberLaws, JsonDeserializer, !JsonMessages, !RecordWriter}.

(** What the types say of a record, and what holds of the records that the
    engine makes: counters within their limits, and objects that are
    [BTreeMap]s. *)
Definition record_storable (r : PreparationRecord) : Prop :=
  match r with
  | RecordReady p => prepared_storable p
  | RecordLocal l => local_storable l
  | RecordRejected f => failure_storable f
  end.

(** C20: a preparation that was saved is found again.  When a record is within
    the limits, and its text reads back as what was written, decoding returns
    exactly that record: every request with its inputs and reductions, the shared
    budget with its counters, or the failure with its context.  The second strict
    pass over the inner assessment, with its smaller limits, never refuses what
    the first pass over the whole record accepts. *)
Theorem preparation_round_trip r :
  record_storable r →
  is_ok (measure_json PREPARATION_LIMITS (record_serial r)) = true →
  reads_back (record_serial r) (record_text (record_serial r)) →
  decode_preparation_record (record_text (record_serial r)) = Ok r.
Proof.
  intros Hs Hm Hback. destruct (measure_json _ _) as [m|e] eqn:Em; [|done].
  assert (decodes read_record (record_serial r) r) as Hd.
  { destruct r as [p|l|f]; [by eapply decodes_ready|by apply decodes_local|by apply decodes_rejected]. }
  destruct (measured_decodes PREPARATION_LIMITS read_record (record_serial r) r m) as (w & Hw & Hr); try done.
  unfold decode_preparation_record. rewrite Hw. simpl. rewrite Hr.
  destruct r as [p|l|f]; [destruct Hs as (_ & _ & Hv)|destruct Hs as (_ & _ & Hv)|done]; by rewrite Hv.
Qed.
End round_trip.

(** ** A concrete record *)

#[local] Existing Instance exact_numbers.

(** A writer that writes any record as a short text. *)
Definition brief_writer : RecordWriter := {| record_writes _ := (["{}"], None) |}.

Definition saved_report : FitReport :=
  {| omissions := [{| om_path := "requests"; om_strategy := Recent; om_original_count := 3;
                      om_retained_count := 1 |}] |}.

Definition saved_preparation : PreparationRecord :=
  RecordReady
    {| pa_version := 1; pa_profile := "profile"; pa_evaluation_budget := EvaluationBudget_default;
       pa_fitting_work_bytes := 12;
       pa_decisions :=
         [{| pb_decision := "review"; pb_original_input := JArray [JString "a"; JNull; JString "b"];
             pb_input := JArray [JString "b"]; pb_request := JObject [("model", JString "m")];
             pb_report := saved_report |}] |}.

Definition saved_record_text : string := @record_text brief_writer (record_serial saved_preparation).

Definition record_deserializer : JsonDeserializer :=
  {| json_events _ := serial_event (record_serial saved_preparation); json_end _ := true |}.

Definition record_messages : JsonMessages := {| syntax_message _ := "syntax"; end_message _ := "trailing" |}.

Lemma preparation_round_trip_witness :
  @decode_preparation_record exact_numbers brief_writer record_deserializer record_messages saved_record_text =
    Ok saved_preparation.
Proof.
  apply (@preparation_round_trip exact_numbers exact_number_laws record_deserializer record_messages brief_writer).
  - split; [vm_refl|]. split; [repeat constructor; vm_compute; discriminate|vm_refl].
  - vm_refl.
  - by split.
Defined.

(** ** The builder *)

Section builder.
Context `{SerdeNumber, RecordWriterLaws}.

Definition with_blocks (blocks : list PreparedBlock) (p : PreparedAssessment) : PreparedAssessment :=
  {| pa_version := pa_version p; pa_profile := pa_profile p;
     pa_evaluation_budget := pa_evaluation_budget p;
     pa_fitting_work_bytes := pa_fitting_work_bytes p; pa_decisions := blocks |}.

(** The blocks are pushed in order, until one is refused. *)
Definition push_all (blocks : list PreparedBlock) : SE PreparedAssessment PreparedAssessmentError unit :=
  foldM (λ _ b, try_push b) blocks tt.

(** ** The size of a saved preparation *)

Lemma forallb_fmap {A B} (f : A → B) (g : B → bool) l : forallb g (f <$> l) = forallb (λ x, g (f x)) l.
Proof. induction l as [|x l IH]; [done|]. csimpl. by rewrite IH. Qed.

Lemma value_finite v : serial_finite (value_serial v) = true.
Proof.
  induction v as [| | | |l IH|m IH] using Value_ind_nested; try done; cbn [value_serial serial_finite];
    rewrite forallb_fmap; apply forallb_forall; intros x Hx%list_elem_of_In;
    rewrite Forall_forall in IH; by apply IH.
Qed.

Lemma block_finite b : serial_finite (block_serial b) = true.
Proof.
  unfold block_serial. cbn [serial_finite forallb snd]. rewrite !value_finite. simpl.
  rewrite forallb_fmap, !andb_true_r. by apply forallb_forall.
Qed.

Lemma ready_within p l1 l2 :
  within (ready_serial (with_blocks l1 p) None) (ready_serial (with_blocks (l1 ++ l2) p) None).
Proof.
  unfold ready_serial. cbn [pa_version pa_profile pa_evaluation_budget pa_fitting_work_bytes pa_decisions with_blocks
    option_list]. rewrite !app_nil_r, fmap_app.
  assert (∀ k v, serial_finite v = true → entry_within (k, v) (k, v)) as Hsame
    by (intros k v Hv; split; [done|by apply within_refl]).
  apply within_entries. repeat (apply parts_skip; [by apply Hsame|]).
  apply parts_skip; [|apply parts_nil]. split; [done|]. apply within_seq.
  exists (block_serial <$> l1). split; [|by apply submseteq_inserts_r].
  apply Forall2_fmap, Forall_Forall2_diag, Forall_forall. intros b _. apply within_refl, block_finite.
Qed.

Lemma ready_extended p l b :
  ready_serial (with_blocks l p) (Some b) = ready_serial (with_blocks (l ++ [b]) p) None.
Proof. unfold ready_serial. cbn [with_blocks pa_decisions option_list]. by rewrite app_nil_r. Qed.

Lemma names_prefix l1 l2 : ∀ names,
  names_validate names (l1 ++ l2) = Ok tt → names_validate names l1 = Ok tt.
Proof.
  induction l1 as [|b l1 IH]; intros names; [done|]. cbn [app names_validate].
  destruct (_ || _); [done|]. apply IH.
Qed.

(** ** Validation of prefixes *)

Lemma validate_parts p l :
  l ≠ [] →
  prepared_validate (with_blocks l p) = Ok tt ↔
  validate_header p = Ok tt ∧ names_validate [] l = Ok tt ∧
  is_ok (measure_json PREPARATION_LIMITS (ready_serial (with_blocks l p) None)) = true.
Proof.
  intros Hl. unfold prepared_validate. change (validate_header (with_blocks l p)) with (validate_header p).
  destruct (validate_header p) as [[]|e]; simpl; [|split; [done|by intros (? & _)]].
  destruct l as [|b l]; [done|]. unfold validate_names. cbn [option_list].
  rewrite app_nil_r. destruct (names_validate [] (b :: l)) as [[]|e]; simpl; [|split; [done|by intros (_ & ? & _)]].
  unfold measure_prepared_assessment, measure_prepared_assessment_view.
  destruct (measure_json _ _) as [m|e]; simpl; [done|split; [done|by intros (_ & _ & ?)]].
Qed.

Lemma validate_prefix p l1 l2 :
  l1 ≠ [] → prepared_validate (with_blocks (l1 ++ l2) p) = Ok tt → prepared_validate (with_blocks l1 p) = Ok tt.
Proof.
  intros Hl. rewrite !validate_parts by (done || by destruct l1). intros (Hh & Hn & Hm).
  split_and!; [done|by eapply names_prefix|].
  destruct (measure_json PREPARATION_LIMITS (ready_serial (with_blocks (l1 ++ l2) p) None)) as [m|] eqn:Em;
    [|discriminate Hm].
  eapply within_measured; [done|apply ready_within|exact Em].
Qed.

(** A push succeeds exactly when the longer assessment validates. *)
Lemma try_push_decides p l b :
  match try_push b (with_blocks l p) with
  | (Ok _, p') => prepared_validate (with_blocks (l ++ [b]) p) = Ok tt ∧ p' = with_blocks (l ++ [b]) p
  | (Err _, p') => prepared_validate (with_blocks (l ++ [b]) p) ≠ Ok tt ∧ p' = with_blocks l p
  end.
Proof.
  pose proof (validate_parts p (l ++ [b]) ltac:(by destruct l)) as Hv.
  unfold try_push, check_append. change (validate_header (with_blocks l p)) with (validate_header p).
  unfold validate_names. cbn [pa_decisions with_blocks option_list].
  unfold measure_prepared_assessment_with_block, measure_prepared_assessment_view.
  change (ready_serial _ (Some b)) with (ready_serial (with_blocks l p) (Some b)). rewrite ready_extended.
  destruct (validate_header p) as [[]|e]; simpl.
  2:{ split; [|done]. by intros (? & _)%Hv. }
  destruct (names_validate [] (l ++ [b])) as [[]|e]; simpl.
  2:{ split; [|done]. by intros (_ & ? & _)%Hv. }
  destruct (measure_json _ _) as [m|e]; simpl.
  - split; [|done]. by apply Hv.
  - split; [|done]. by intros (_ & _ & ?)%Hv.
Qed.

Lemma push_all_from p l blocks :
  let r := push_all blocks (with_blocks l p) in
  (r.1 = Ok tt → r.2 = with_blocks (l ++ blocks) p ∧
     (blocks ≠ [] → prepared_validate (with_blocks (l ++ blocks) p) = Ok tt)) ∧
  (prepared_validate (with_blocks (l ++ blocks) p) = Ok tt → r.1 = Ok tt).
Proof.
  revert l. induction blocks as [|b blocks IH]; intros l; cbn zeta.
  { simpl. by rewrite app_nil_r. }
  unfold push_all. cbn [foldM]. unfold bind at 1 2 3. pose proof (try_push_decides p l b) as Hb.
  destruct (try_push b (with_blocks l p)) as [[[]|e] p'].
  - destruct Hb as [Hb ->]. specialize (IH (l ++ [b])%list). cbn zeta in IH. rewrite <- app_assoc in IH.
    destruct IH as [IH1 IH2]. split; [|exact IH2]. intros Hr. destruct (IH1 Hr) as [Hp Hv]. split; [exact Hp|].
    intros _. destruct blocks as [|b' blocks]; [exact Hb|by apply Hv].
  - destruct Hb as [Hb ->]. simpl. split; [done|]. intros Hv. destruct Hb.
    apply (validate_prefix p (l ++ [b]) blocks); [by destruct l|by rewrite <- app_assoc].
Qed.

(** The builder and the validation agree.  Appending the blocks of an
    assessment one by one succeeds exactly when the assessment with all of them is
    valid; the checks of each step (names, header, and the size of the record
    with the new block) never refuse a block of a valid assessment and never
    accept an invalid one. *)
Theorem builder_accepts_valid p blocks :
  blocks ≠ [] →
  let r := push_all blocks (with_blocks [] p) in
  (r.1 = Ok tt ↔ prepared_validate (with_blocks blocks p) = Ok tt) ∧
  (r.1 = Ok tt → r.2 = with_blocks blocks p).
Proof.
  intros Hb r. destruct (push_all_from p [] blocks) as [Hok Hvalid]. split.
  - split; [|exact Hvalid]. intros Hr. by apply Hok.
  - intros Hr. by apply Hok.
Qed.
End builder.

Section sample.
#[local] Existing Instance text_numbers.
#[local] Existing Instance compact_writer.
#[local] Existing Instance compact_laws.

Definition sample_block (name : string) : PreparedBlock :=
  {| pb_decision := name; pb_original_input := JNull; pb_input := JString "input"; pb_request := JNull;
     pb_report := {| omissions := [] |} |}.

Definition sample_header : PreparedAssessment :=
  {| pa_version := 1; pa_profile := "profile"; pa_evaluation_budget := EvaluationBudget_default;
     pa_fitting_work_bytes := 0; pa_decisions := [] |}.

Lemma builder_accepts_valid_witness :
  (push_all [sample_block "a"; sample_block "b"] (with_blocks [] sample_header)).1 = Ok tt ∧
  (push_all [sample_block "a"; sample_block "a"] (with_blocks [] sample_header)).1 ≠ Ok tt.
Proof.
  split.
  - apply (builder_accepts_valid sample_header [sample_block "a"; sample_block "b"]); [discriminate|vm_refl].
  - intros Hr.
    destruct (builder_accepts_valid sample_header [sample_block "a"; sample_block "a"] ltac:(discriminate)) as [Hd _].
    assert (is_ok (prepared_validate (with_blocks [sample_block "a"; sample_block "a"] sample_header)) = false) as Hf
      by vm_refl.
    rewrite (proj1 Hd Hr) in Hf. discriminate Hf.
Defined.
End sample.
