(* ===== verification/SourceFacts.v ===== *)
(** * Facts on source publications

    Normalization never panics and keeps the cursor and the branch of an event;
    what it admits is owned, ordered and identified.  A result message is one
    that the validator of public messages accepts.  A page is read exactly when
    the reader keeps its contract. *)

From S2P Require Import Prelude RustString Json Filters Domain Decision Check Context Selection SelectionFacts SelectionHistory BoundedJson Prepared Messages CapacityFacts Source.

#[local] Open Scope N_scope.

(** ** Result messages *)

Section result_messages.
Context `{SerdeNumber}.
Variable r : PublishedToolResult.
Variable context : PublishedContext.

(** The facts that a publication records have their documented form. *)
Definition recorded_facts : bool :=
  valid_model (md_attribution (tr_metadata r)) &&
  match tr_tool_name r with Some name => negb (is_blank name) | None => true end &&
  match result_category r with Some c => one_of tool_categories c | None => true end &&
  match md_paths (tr_metadata r) with Some l => forallb is_repository_path l | None => true end &&
  match tr_outcome r with Some o => is_ok (validate_outcome o) | None => true end.

Definition quality_shape (k : string) (x : Value) : Prop :=
  one_of quality_fields k = true ∧ quality_fact k x = true.

Definition result_shape (k : string) (x : Value) : Prop :=
  (k = "status" ∧ x = JString (result_status_name (tr_status r))) ∨ k = "content" ∨
  (k = "outcome" ∧ tr_outcome r = Some x).

(** A missing name or category is null until it is removed. *)
Definition tool_shape (k : string) (x : Value) : Prop :=
  (k = "name" ∧ x = or_null JString (tr_tool_name r)) ∨
  (k = "category" ∧ x = or_null JString (result_category r)) ∨
  k = "arguments" ∨
  (k = "paths" ∧ ∃ l, md_paths (tr_metadata r) = Some l ∧ x = strings_value l) ∨
  (k = "provider_executed" ∧ is_boolean x = true) ∨
  (k = "result" ∧ shaped result_shape ["status"] x).

Definition tool_shaped (absent : list string) (t : Value) : Prop :=
  shaped tool_shape ["result"] t ∧ ∀ k, In k absent → value_get t k = None.

Definition message_shape (k : string) (x : Value) : Prop :=
  (k = "id" ∧ x = JString (tr_identity r)) ∨ (k = "source" ∧ x = JString (px_agent_name context)) ∨
  (k = "kind" ∧ x = JString "tool_result") ∨ (k = "role" ∧ x = JString "tool") ∨
  (k = "native_order" ∧ is_string x = true) ∨ (k = "fast_mode" ∧ is_boolean x = true) ∨
  (k = "model" ∧ ∃ m, oa_model (md_attribution (tr_metadata r)) = Some m ∧ x = JString m) ∨
  (k = "quality" ∧ shaped quality_shape [] x) ∨ k = "tool".

Definition message_required : list string := ["id"; "source"; "kind"; "role"; "quality"; "tool"].

Definition message_shaped (absent : list string) (v : Value) : Prop :=
  shaped message_shape message_required v ∧ ∃ t, value_get v "tool" = Some t ∧ tool_shaped absent t.

Ltac by_key := intros k x Hin; simpl in Hin; repeat (destruct Hin as [Hin|Hin]; [injection Hin as <- <-|]); [..|done].

Lemma quality_shaped l :
  Forall (λ kv, one_of quality_fields kv.1 && quality_fact kv.1 kv.2 = true) l →
  shaped quality_shape [] (json_object l).
Proof.
  intros Hl. apply shaped_object; [|done]. intros k x Hin. rewrite Forall_forall in Hl.
  apply list_elem_of_In, Hl in Hin. apply andb_true_iff in Hin. exact Hin.
Qed.

Lemma strings_are_strings l : forallb is_string (JString <$> l) = true.
Proof. by induction l. Qed.

Lemma draft_tool_shaped :
  tool_shaped [] (json_object
    [("name", or_null JString (tr_tool_name r)); ("category", or_null JString (result_category r));
     ("arguments", or_null (λ x, x) (tr_arguments r));
     ("result", json_object [("content", or_null JString (tr_content r));
                             ("status", JString (result_status_name (tr_status r)))])]).
Proof.
  split; [|done]. apply shaped_object; [|by intros k Hk; simpl in *; intuition].
  by_key; unfold tool_shape; [by left|by right; left|by do 2 right; left|].
  do 5 right. split; [done|]. apply shaped_object; [|by intros k Hk; simpl in *; intuition].
  by_key; unfold result_shape; [by right; left|by left].
Qed.

Lemma draft_shaped : message_shaped [] (result_draft r context).
Proof.
  split; [|by eexists; split; [vm_compute; reflexivity|exact draft_tool_shaped]].
  unfold result_draft. apply shaped_object; [|by intros k Hk; simpl in *; intuition].
  by_key; unfold message_shape; try (by intuition eauto).
  do 7 right. left. split; [done|]. apply quality_shaped.
  repeat (constructor; [done|]). constructor; [|by constructor]. exact (strings_are_strings _).
Qed.

(** A write outside [tool]. *)
Lemma outside_tool absent k path f v :
  In k ["model"; "fast_mode"; "quality"] →
  (shaped message_shape message_required v →
   some_in (shaped message_shape message_required) (index_update (k :: path) f v)) →
  message_shaped absent v → some_in (message_shaped absent) (index_update (k :: path) f v).
Proof.
  intros Hk Hf [Hv (t & Ht & Hts)]. specialize (Hf Hv).
  destruct (index_update (k :: path) f v) as [v'|] eqn:Ev; [|done]. simpl in *.
  split; [done|]. exists t. split; [|done]. rewrite <- Ht.
  apply (index_update_other k "tool" path f); [|by intros ->|done].
  simpl in Hk. by destruct_or!; subst.
Qed.

Lemma set_outside {A} absent k (g : A → Value) o v :
  In k ["model"; "fast_mode"] → (∀ a, o = Some a → message_shape k (g a)) →
  message_shaped absent v → some_in (message_shaped absent) (index_set_some [k] g o v).
Proof.
  intros Hk Ho Hv. destruct o as [a|]; [|done].
  apply outside_tool; [by simpl in *; tauto| |done]. intros Hs. apply shaped_set; auto.
Qed.

Lemma set_quality {A} absent key (g : A → Value) o v :
  (∀ a, o = Some a → quality_shape key (g a)) → message_shaped absent v →
  some_in (message_shaped absent) (index_set_some ["quality"; key] g o v).
Proof.
  intros Ho Hv. destruct o as [a|]; [|done].
  apply outside_tool; [by simpl; tauto| |done]. intros Hs.
  apply shaped_update; [done|by simpl; tauto|]. intros x Hx.
  assert (shaped quality_shape [] x) as Hq by (unfold message_shape in Hx; destruct_or!; naive_solver).
  eapply some_in_mono; [apply (shaped_set _ _ key (g a) x Hq); auto|].
  intros y Hy. unfold message_shape. tauto.
Qed.

(** A write inside [tool]. *)
Lemma inside_tool absent absent' path f v :
  (∀ t, tool_shaped absent t → some_in (tool_shaped absent') (index_update path f t)) →
  message_shaped absent v → some_in (message_shaped absent') (index_update ("tool" :: path) f v).
Proof.
  intros Hf [Hv (t & Ht & Hts)].
  pose proof (index_update_here _ _ "tool" path f v t Ht Hts Hf) as Hhere.
  assert (some_in (shaped message_shape message_required) (index_update ("tool" :: path) f v)) as Hs.
  { destruct Hv as (m & -> & Hm & Hr). unfold value_get in Ht. simpl in *. rewrite Ht. simpl.
    specialize (Hf t Hts). destruct (index_update path f t) as [x|]; [|done]. simpl.
    exists (Json.map_insert "tool" x m). split; [done|]. split.
    - intros k y Hin. apply in_map_insert in Hin as [[-> ->]|?]; [unfold message_shape; tauto|auto].
    - intros k Hk. apply map_get_insert_is_some. auto. }
  destruct (index_update ("tool" :: path) f v); [|done]. by split.
Qed.

Lemma set_tool {A} absent k (g : A → Value) o v :
  ¬ In k absent → (∀ a, o = Some a → tool_shape k (g a)) →
  message_shaped absent v → some_in (message_shaped absent) (index_set_some ["tool"; k] g o v).
Proof.
  intros Hk Ho. destruct o as [a|]; [|by intros Hv].
  apply inside_tool. intros t [Ht Ha].
  pose proof (shaped_set _ _ k (g a) t Ht (Ho a eq_refl)) as Hs.
  change (index_update [k] (λ _, Some (g a)) t) with (index_set [k] (g a) t).
  destruct (index_set [k] (g a) t) as [t'|] eqn:Et; [|done]. split; [done|].
  intros k' Hk'. rewrite <- (Ha k' Hk').
  apply (index_update_other k k' [] (λ _, Some (g a))); [by intros ->| |done].
  by destruct Ht as (? & -> & _).
Qed.

Lemma remove_tool {A} (o : option A) absent k v :
  k ≠ "result" → message_shaped absent v →
  some_in (message_shaped (match o with None => k :: absent | Some _ => absent end))
    (remove_absent o ["tool"] k v).
Proof.
  intros Hk. destruct o as [a|]; [by intros Hv|]. apply inside_tool. intros t [Ht Ha].
  pose proof (shaped_remove _ tool_shape ["result"] k t Ht (λ _ _ _ Hx, Hx)) as Hs.
  destruct Ht as (m & -> & _). simpl in *. split; [by apply Hs; intros [|[]]|].
  intros k' Hk'. unfold value_get. simpl.
  destruct (decide (k = k')) as [->|Hne]; [apply map_get_remove_eq|].
  rewrite map_get_remove_ne by done. destruct Hk' as [|Hk']; [done|]. by apply Ha in Hk'.
Qed.

(** A write inside the result of [tool]. *)
Lemma inside_result absent path f v :
  ¬ In "result" absent →
  (∀ x, shaped result_shape ["status"] x → some_in (shaped result_shape ["status"]) (index_update path f x)) →
  message_shaped absent v → some_in (message_shaped absent) (index_update ("tool" :: "result" :: path) f v).
Proof.
  intros Hn Hf. apply inside_tool. intros t [Ht Ha].
  assert (some_in (shaped tool_shape ["result"]) (index_update ("result" :: path) f t)) as Hs.
  { apply shaped_update; [done|by simpl; tauto|]. intros x Hx.
    assert (shaped result_shape ["status"] x) as Hq by (unfold tool_shape in Hx; destruct_or!; naive_solver).
    eapply some_in_mono; [by apply Hf|]. intros y Hy. unfold tool_shape. tauto. }
  destruct (index_update ("result" :: path) f t) as [t'|] eqn:Et; [|done]. split; [done|].
  intros k Hk. rewrite <- (Ha k Hk). apply (index_update_other "result" k path f); [by intros <-| |done].
  by destruct Ht as (? & -> & _).
Qed.
Definition missing (o : option string) (k : string) : list string :=
  match o with None => [k] | Some _ => [] end.

Lemma remove_missing (o : option string) absent k v :
  k ≠ "result" → message_shaped absent v →
  some_in (message_shaped (missing o k ++ absent)%list) (remove_absent o ["tool"] k v).
Proof. intros Hk Hv. pose proof (remove_tool o absent k v Hk Hv) as Hr. by destruct o. Qed.

Definition missing_facts : list string :=
  (missing (result_category r) "category" ++ missing (tr_tool_name r) "name")%list.

Lemma missing_facts_in k : In k missing_facts → k = "category" ∨ k = "name".
Proof. unfold missing_facts, missing. destruct (result_category r), (tr_tool_name r); simpl; intuition. Qed.

Lemma set_limits_shaped md absent v :
  message_shaped absent v → some_in (message_shaped absent) (set_limits md v).
Proof.
  intros Hv. unfold set_limits. eapply some_in_bind; [by apply set_quality; [done|exact Hv]|].
  intros v1 Hv1. eapply some_in_bind; [by apply set_quality; [done|exact Hv1]|].
  intros v2 Hv2. by apply set_quality.
Qed.

Lemma forget_absent absent k v : message_shaped (k :: absent) v → message_shaped absent v.
Proof. intros [Hv (t & Ht & Hts & Ha)]. split; [done|]. exists t. split; [done|]. split; [done|]. intros k' Hk'. apply Ha. by right. Qed.

(** Building a result message succeeds, and gives its shape. *)
Lemma result_message_shaped : some_in (message_shaped missing_facts) (result_message r context).
Proof.
  unfold result_message. pose proof draft_shaped as Hv.
  eapply some_in_bind; [apply set_outside; [by left| |exact Hv]; intros a Ha; unfold message_shape; naive_solver|].
  clear Hv. intros v Hv.
  eapply some_in_bind; [apply set_outside; [by right; left| |exact Hv]; intros a _; unfold message_shape; naive_solver|].
  clear v Hv. intros v Hv.
  eapply some_in_bind; [by apply set_quality; [done|exact Hv]|]. clear v Hv. intros v Hv.
  eapply some_in_bind; [apply (set_tool []); [by intros []| |exact Hv]; intros a Ha; unfold tool_shape; naive_solver|].
  clear v Hv. intros v Hv.
  eapply some_in_bind; [by apply set_limits_shaped; exact Hv|]. clear v Hv. intros v Hv.
  eapply some_in_bind; [by apply remove_missing; [|exact Hv]|]. clear v Hv. intros v Hv.
  eapply some_in_bind; [by apply remove_missing; [|exact Hv]|]. clear v Hv. intros v Hv.
  rewrite app_nil_r in Hv. change (message_shaped missing_facts v) in Hv.
  apply (some_in_bind (message_shaped missing_facts)).
  { eapply some_in_mono; [by apply remove_tool; [|exact Hv]|].
    intros x Hx. destruct (tr_arguments r); [done|by eapply forget_absent]. }
  clear v Hv. intros v Hv.
  apply (some_in_bind (message_shaped missing_facts)).
  { destruct (tr_content r); [done|]. apply inside_result; [by intros Hx; destruct (missing_facts_in _ Hx)| |done].
    intros x Hx. apply (shaped_remove result_shape result_shape); [done|done|by intros [|[]]]. }
  clear v Hv. intros v Hv.
  apply (some_in_bind (message_shaped missing_facts)).
  { destruct (tr_outcome r) as [o|] eqn:Eo; [|done].
    apply inside_result; [by intros Hx; destruct (missing_facts_in _ Hx)| |done].
    intros x Hx. apply shaped_set; [done|]. unfold result_shape. naive_solver. }
  clear v Hv. intros v Hv.
  apply set_tool; [by intros Hx; destruct (missing_facts_in _ Hx)| |done]. intros a _. unfold tool_shape. naive_solver.
Qed.
(** ** What the validator sees *)

Hypothesis Hcontext : main_context context = true.
Hypothesis Hidentity : is_blank (tr_identity r) = false.
Hypothesis Hfacts : recorded_facts = true.

Lemma recorded :
  valid_model (md_attribution (tr_metadata r)) = true ∧
  (∀ n, tr_tool_name r = Some n → is_blank n = false) ∧
  (∀ c, result_category r = Some c → one_of tool_categories c = true) ∧
  (∀ l, md_paths (tr_metadata r) = Some l → forallb is_repository_path l = true) ∧
  (∀ o, tr_outcome r = Some o → validate_outcome o = Ok tt).
Proof.
  pose proof Hfacts as Hf. unfold recorded_facts in Hf. rewrite !andb_true_iff in Hf.
  destruct Hf as [[[[Hm Hn] Hc] Hp] Ho]. split_and!; [done|..].
  - intros n Hn'. rewrite Hn' in Hn. by apply negb_true_iff.
  - intros c Hc'. by rewrite Hc' in Hc.
  - intros l Hl. by rewrite Hl in Hp.
  - intros o Ho'. rewrite Ho' in Ho. by destruct (validate_outcome o) as [[]|].
Qed.

Ltac shape_done := unfold message_shape, tool_shape, result_shape in *; intros; naive_solver.

Lemma envelope_valid absent v :
  message_shaped absent v →
  validate_envelope {| m_id := tr_identity r; m_value := v |} "tool_result" = Ok tt.
Proof.
  intros [Hv _]. destruct recorded as (Hm & _). unfold main_context in Hcontext.
  rewrite !andb_true_iff, !negb_true_iff in Hcontext. destruct Hcontext as [_ Hagent].
  unfold validate_envelope. cbn [m_value m_id].
  rewrite (shaped_closed _ _ _ _ Hv) by (intros k x Hx; unfold message_shape in Hx; destruct_or!; naive_solver).
  cbn [result_bind].
  rewrite (shaped_text _ _ v "id" (tr_identity r) Hv) by (done || (by simpl; tauto) || shape_done).
  cbn [result_bind]. rewrite String.eqb_refl.
  rewrite (shaped_text _ _ v "kind" "tool_result" Hv) by (done || (by simpl; tauto) || shape_done).
  cbn [result_bind]. change (ensure (String.eqb "tool_result" "tool_result") ?m) with (Ok (E:=SourceStop) tt).
  cbn [result_bind].
  rewrite (shaped_text _ _ v "source" (px_agent_name context) Hv) by (done || (by simpl; tauto) || shape_done).
  change (message_role "tool_result") with (Ok (E:=SourceStop) "tool"). cbn [result_bind].
  rewrite (shaped_present_and _ _ (str_and (String.eqb "tool")) v "role" Hv) by ((by simpl; tauto) || shape_done).
  cbn [ensure result_bind].
  rewrite (shaped_absent_or _ _ (str_and is_model_identifier) v "model" Hv).
  2:{ intros x Hx. assert (∃ m, oa_model (md_attribution (tr_metadata r)) = Some m ∧ x = JString m)
        as (m & Em & ->) by shape_done. unfold valid_model in Hm. by rewrite Em in Hm. }
  cbn [ensure result_bind].
  rewrite (shaped_absent_or _ _ is_boolean v "fast_mode" Hv) by shape_done.
  cbn [ensure result_bind].
  rewrite (shaped_absent_or _ _ _ v "occurred_at" Hv) by shape_done.
  cbn [ensure result_bind].
  by rewrite (shaped_absent_or _ _ _ v "native_order" Hv) by shape_done.
Qed.

Lemma quality_valid q : shaped quality_shape [] q → validate_quality q = Ok tt.
Proof.
  intros Hq. unfold validate_quality.
  rewrite (shaped_closed _ _ _ _ Hq) by by intros k x [? _].
  destruct (shaped_entries _ _ quality_fact q Hq) as (m & -> & Hm); [by intros k x [_ ?]|].
  simpl. by rewrite Hm.
Qed.

Lemma result_valid x : shaped result_shape ["status"] x → validate_result x = Ok tt.
Proof.
  intros Hx. destruct recorded as (_ & _ & _ & _ & Ho). unfold validate_result.
  rewrite (shaped_closed _ _ _ _ Hx) by shape_done. cbn [result_bind].
  rewrite (shaped_present_and _ _ (str_and (one_of result_statuses)) x "status" Hx);
    [|by left|intros y Hy; assert (y = JString (result_status_name (tr_status r))) as -> by shape_done;
      by destruct (tr_status r)].
  cbn [ensure result_bind].
  rewrite (shaped_absent_or _ _ _ x "output_bytes" Hx) by shape_done. cbn [ensure result_bind].
  destruct (value_get x "outcome") as [o|] eqn:Eo; [|done].
  apply Ho. apply (shaped_get _ _ _ _ _ Hx) in Eo. shape_done.
Qed.

Lemma tool_valid t : tool_shaped missing_facts t → validate_tool t "tool_result" = Ok tt.
Proof.
  intros [Ht Ha]. destruct recorded as (_ & Hn & Hc & Hp & _). unfold validate_tool.
  change (String.eqb "tool_result" "tool_call") with false. cbn [orb].
  rewrite (shaped_closed _ _ _ _ Ht) by (intros k x Hx; unfold tool_shape in Hx; destruct_or!; naive_solver).
  cbn [result_bind].
  rewrite (shaped_absent _ _ t "call_id" Ht) by shape_done. cbn [is_some result_bind].
  assert ((if is_some (value_get t "name") then let? _ := required_text t "name" in Ok tt else Ok tt)
          = Ok (E:=SourceStop) tt) as ->.
  { destruct (value_get t "name") as [x|] eqn:En; [|done]. unfold is_some.
    pose proof (shaped_get _ _ _ _ _ Ht En) as Hx.
    assert (x = or_null JString (tr_tool_name r)) as -> by shape_done.
    destruct (tr_tool_name r) as [n|] eqn:Enm.
    - unfold required_text. rewrite En. simpl. by rewrite (Hn n eq_refl).
    - exfalso. rewrite (Ha "name") in En; [done|].
      unfold missing_facts, missing. rewrite Enm. destruct (result_category r); simpl; tauto. }
  cbn [result_bind].
  assert (absent_or (str_and (one_of tool_categories)) t "category" = true) as ->.
  { unfold absent_or. destruct (value_get t "category") as [x|] eqn:En; [|done].
    pose proof (shaped_get _ _ _ _ _ Ht En) as Hx.
    assert (x = or_null JString (result_category r)) as -> by shape_done.
    destruct (result_category r) as [c|] eqn:Enm; [by apply Hc|].
    exfalso. rewrite (Ha "category") in En; [done|]. unfold missing_facts, missing. rewrite Enm. by left. }
  cbn [ensure result_bind].
  rewrite (shaped_absent_or _ _ is_boolean t "provider_executed" Ht) by shape_done. cbn [ensure result_bind].
  rewrite (shaped_absent_or _ _ recorded_path_list t "paths" Ht).
  2:{ intros x Hx. assert (∃ l, md_paths (tr_metadata r) = Some l ∧ x = strings_value l) as (l & El & ->)
        by shape_done. unfold recorded_path_list. simpl. specialize (Hp l El).
      clear -Hp. induction l as [|s l IH]; [done|]. simpl in *.
      apply andb_true_iff in Hp as [Hs Hp]. apply andb_true_iff. split; [exact Hs|auto]. }
  cbn [ensure result_bind].
  destruct (shaped_required _ _ _ "result" Ht) as (x & -> & Hx); [by left|].
  apply result_valid. shape_done.
Qed.
End result_messages.

(** ** Errors of checked computations *)

Definition errors {A} (F : SourceStop → Prop) (r : checked A) : Prop := ∀ e, r = Err e → F e.

Definition is_invalid (e : SourceStop) : Prop := ∃ m, e = SourceFailed (InvalidObservation m).

Definition is_reader_error (e : SourceStop) : Prop := ∃ m, e = SourceFailed (ReaderFailed m).

Lemma errors_bind {A B} F (r : checked A) (f : A → checked B) :
  errors F r → (∀ a, r = Ok a → errors F (f a)) → errors F (result_bind r f).
Proof. intros Hr Hf e. destruct r as [a|e']; simpl; [by apply Hf|]. intros [= ->]. by apply Hr. Qed.

Lemma errors_ok {A} F (a : A) : errors F (Ok a).
Proof. by intros e. Qed.

Lemma errors_invalid {A} m : errors is_invalid (@invalid A m).
Proof. intros e [= <-]. by exists m. Qed.

Lemma errors_ensure b m : errors is_invalid (ensure b m).
Proof. unfold ensure. destruct b; [apply errors_ok|apply errors_invalid]. Qed.

Lemma errors_expected {A} F Q (o : option A) : some_in Q o → errors F (expected o).
Proof. destruct o as [a|]; [|done]. intros _. apply errors_ok. Qed.

Lemma ensure_ok b m u : ensure b m = Ok u ↔ b = true.
Proof. unfold ensure. by destruct b, u. Qed.

Lemma expected_ok {A} (o : option A) a : expected o = Ok a ↔ o = Some a.
Proof. unfold expected. destruct o as [x|]; naive_solver. Qed.

#[export] Hint Resolve errors_ok errors_invalid errors_ensure : checked.

(** The text of the function is the proof: an error is raised at a leaf. *)
Ltac errors_walk :=
  repeat first
    [ solve [eauto with checked]
    | apply errors_bind; [|intros ? ?]
    | case_match ].

(** [steps into] the facts of a successful computation. *)
Ltac ok_walk H :=
  repeat match type of H with
    | result_bind _ _ = Ok _ => let x := fresh "x" in let Hx := fresh "Hok" in
        apply result_bind_ok in H as (x & Hx & H)
    end.

Section errors.
Context `{SerdeNumber, !RecordWriter}.

Lemma required_text_errors v k : errors is_invalid (required_text v k).
Proof. unfold required_text. errors_walk. Qed.

Lemma closed_errors v l : errors is_invalid (closed v l).
Proof. unfold closed. errors_walk. Qed.

Hint Resolve required_text_errors closed_errors : checked.

Lemma closed_object v l : closed v l = Ok tt → ∃ m, as_object v = Some m.
Proof. unfold closed. destruct (as_object v); [eauto|done]. Qed.

(** [expect] after [closed]. *)
Lemma closed_expected v l (u : unit) :
  closed v l = Ok u → errors is_invalid (expected (as_object v)).
Proof. destruct u. intros (m & ->)%closed_object. apply errors_ok. Qed.

Hint Resolve closed_expected : checked.

Lemma validate_quality_errors q : errors is_invalid (validate_quality q).
Proof. unfold validate_quality. errors_walk. Qed.

Lemma validate_outcome_errors o : errors is_invalid (validate_outcome o).
Proof. unfold validate_outcome. errors_walk. Qed.

Hint Resolve validate_quality_errors validate_outcome_errors : checked.

Lemma validate_result_errors v : errors is_invalid (validate_result v).
Proof. unfold validate_result. errors_walk. Qed.

Hint Resolve validate_result_errors : checked.

Lemma validate_tool_errors v k : errors is_invalid (validate_tool v k).
Proof. unfold validate_tool. errors_walk. Qed.

Lemma message_role_errors k : errors is_invalid (message_role k).
Proof. unfold message_role. errors_walk. Qed.

Hint Resolve validate_tool_errors message_role_errors : checked.

Lemma validate_envelope_errors m k : errors is_invalid (validate_envelope m k).
Proof. unfold validate_envelope. errors_walk. Qed.

Hint Resolve validate_envelope_errors : checked.

Lemma validate_public_message_errors m k : errors is_invalid (validate_public_message m k).
Proof. unfold validate_public_message. errors_walk. Qed.
End errors.

#[export] Hint Resolve validate_public_message_errors : checked.

(** ** Contexts *)

Section contexts.
Context `{SerdeNumber}.

Definition context_roots : list string := ["session"; "global"; "repo"].

Definition context_shape (k : string) (x : Value) : Prop :=
  In k context_roots → ∃ m, x = JObject m.

(** A context whose scopes are objects. *)
Definition context_shaped (v : Value) : Prop := shaped context_shape context_roots v.

Lemma add_attribution_object a v m : v = JObject m → some_in (λ v', ∃ m', v' = JObject m') (add_attribution a v).
Proof.
  intros ->. unfold add_attribution. eapply (some_in_bind (λ v', ∃ m', v' = JObject m')).
  - destruct (oa_model a); simpl; eauto.
  - intros v1 [m1 ->]. destruct (oa_fast_mode a); simpl; eauto.
Qed.

Lemma merge_scope_shaped k s v :
  In k context_roots → context_shaped v → some_in context_shaped (merge_scope k s v).
Proof.
  intros Hk (m & -> & Hm & Hr). unfold merge_scope. simpl.
  destruct (Hr k Hk) as [x Hx]. rewrite Hx. simpl.
  destruct (Hm k x (map_get_in _ _ _ Hx) Hk) as [root ->]. simpl.
  eexists. split; [done|]. split.
  - intros k' y Hin. apply in_map_insert in Hin as [[-> ->]|?]; [by intros _; eauto|by apply Hm].
  - intros k' Hk'. apply map_get_insert_is_some. auto.
Qed.

Lemma merge_into_shaped i v : context_shaped v → some_in context_shaped (merge_into i v).
Proof.
  intros Hv. unfold merge_into. eapply some_in_bind; [apply merge_scope_shaped; [by right; left|exact Hv]|].
  intros v' Hv'. apply merge_scope_shaped; [by do 2 right; left|exact Hv'].
Qed.

Lemma initial_context_shaped session agent m :
  session = JObject m →
  context_shaped (json_object [("session", session); ("agent", agent);
                               ("global", json_object []); ("repo", json_object [])]).
Proof.
  intros ->. apply shaped_object; [|by intros k Hk; simpl in *; intuition].
  intros k x Hin Hk. simpl in Hin.
  destruct Hin as [[= <- <-]|[[= <- <-]|[[= <- <-]|[[= <- <-]|[]]]]]; [by eexists| |by eexists..].
  by destruct Hk as [|[|[|[]]]].
Qed.

(** A write inside a scope, and of a whole root. *)
Lemma context_set_in k key x v :
  In k context_roots → context_shaped v → some_in context_shaped (index_set [k; key] x v).
Proof.
  intros Hk Hv. apply shaped_update; [done|done|]. intros y Hy.
  destruct (Hy Hk) as [m ->]. simpl. intros _. eauto.
Qed.

Lemma context_set_root k x v :
  (In k context_roots → ∃ m, x = JObject m) → context_shaped v → some_in context_shaped (index_set [k] x v).
Proof. intros Hx Hv. by apply shaped_set. Qed.

Lemma public_request_errors r : errors is_invalid (public_request r).
Proof.
  unfold public_request. destruct r as [id value]. errors_walk.
  all: by eapply (errors_expected _ (λ _, True)).
Qed.

Lemma collect_errors {A B} F (f : A → checked B) l : (∀ a, errors F (f a)) → errors F (collect f l).
Proof. intros Hf. induction l as [|a l IH]; simpl; [apply errors_ok|]. repeat (apply errors_bind; [done|intros ? ?]). apply errors_ok. Qed.

(** A public context is built without a panic, and its scopes are objects. *)
Lemma public_context_facts c :
  errors is_invalid (public_context c) ∧
  (∀ f, public_context c = Ok f →
    context_shaped (fc_value f) ∧ fc_dependencies f = [context_dependency (px_version c)]).
Proof.
  unfold public_context.
  pose proof (collect_errors is_invalid public_request (px_requests c) public_request_errors) as Hreq.
  destruct (collect public_request (px_requests c)) as [requests|e];
    [|split; [intros e' [= <-]; by apply Hreq|done]]. cbn [result_bind]. clear Hreq.
  set (base := json_object [("id", _); ("requests", _); ("requests_complete", _); ("source_coverage", _)]).
  set (session := match px_session_selection c with Some _ => _ | None => _ end).
  assert (errors is_invalid session ∧ ∀ v, session = Ok v → ∃ m, v = JObject m) as [He Hs].
  { subst session. destruct (px_session_selection c) as [a|]; [|split; [apply errors_ok|]].
    - pose proof (add_attribution_object a base _ eq_refl) as Ha. split.
      + apply errors_bind; [apply errors_ensure|intros [] _]. by eapply errors_expected.
      + intros v Hv. apply result_bind_ok in Hv as ([] & _ & Hv%expected_ok). by rewrite Hv in Ha.
    - intros v [= <-]. by eexists. }
  destruct session as [s|e]; [|split; [intros e' [= <-]; by apply He|done]]. cbn [result_bind].
  destruct (Hs s eq_refl) as [m Hm].
  pose proof (merge_into_shaped (px_inventories c) _ (initial_context_shaped s (json_object [("name", JString (px_agent_name c))]) m Hm)) as Hmerge.
  destruct (merge_into _ _) as [v|]; [|done]. cbn [some_in expected result_bind] in *.
  assert (some_in context_shaped (match px_project_root c with
            | Some root => index_set ["repo"; "root"] (JString root) v
            | None => index_set ["repo"] unavailable_repo v end)) as Hroot.
  { destruct (px_project_root c); [by apply context_set_in; [by do 2 right; left|]|].
    apply context_set_root; [|done]. intros _. by eexists. }
  destruct (match px_project_root c with Some _ => _ | None => _ end) as [v'|]; [|done].
  split; [apply errors_ok|]. by intros f [= <-].
Qed.
End contexts.

(** ** Response cycles *)

Section cycles.
Context `{SerdeNumber, !RecordWriter}.

Definition accepted_member (context : PublishedContext) (m : Message) : Prop :=
  (∃ kind, validate_public_message m kind = Ok tt) ∧ from_agent context m = true.

Lemma one_of_in l s : one_of l s = true ↔ In s l.
Proof.
  unfold one_of. rewrite existsb_exists. split; [|by intros Hs; exists s; rewrite String.eqb_refl].
  by intros (x & Hx & ->%String.eqb_eq).
Qed.

Lemma cycle_members_ok context l : ∀ seen members,
  NoDup seen → cycle_members context l seen = Ok members →
  NoDup members ∧ members ≡ₚ (m_id <$> l) ++ seen ∧ Forall (accepted_member context) l.
Proof.
  induction l as [|m l IH]; intros seen members Hs; simpl; [by intros [= <-]|].
  intros Hc. ok_walk Hc. apply ensure_ok in Hok1, Hok2. apply negb_true_iff in Hok2.
  apply IH in Hc as (Hn & Hp & Hf).
  - split_and!; [done| |].
    + rewrite Hp. by rewrite <- Permutation_middle.
    + constructor; [|done]. split; [|done]. destruct x0. by eexists.
  - constructor; [|done]. intros Hin%list_elem_of_In%one_of_in. congruence.
Qed.

Lemma cycle_bindings_ok l : ∀ seen bindings,
  NoDup seen → cycle_bindings l seen = Ok bindings →
  NoDup bindings ∧ bindings ≡ₚ (pe_identity <$> l) ++ seen ∧
  Forall (λ b, is_blank (evidence_version (pe_version b)) = false) l.
Proof.
  induction l as [|b l IH]; intros seen bindings Hs; simpl; [by intros [= <-]|].
  intros Hc. ok_walk Hc. apply ensure_ok in Hok. rewrite negb_true_iff, orb_false_iff in Hok.
  destruct Hok as [Hb Hn]. apply IH in Hc as (Hnd & Hp & Hf).
  - split_and!; [done| |by constructor]. rewrite Hp. by rewrite <- Permutation_middle.
  - constructor; [|done]. intros Hin%list_elem_of_In%one_of_in. congruence.
Qed.

Lemma cycle_members_errors context l : ∀ seen, errors is_invalid (cycle_members context l seen).
Proof. induction l as [|m l IH]; intros seen; simpl; errors_walk. Qed.

Lemma cycle_bindings_errors l : ∀ seen, errors is_invalid (cycle_bindings l seen).
Proof. induction l as [|b l IH]; intros seen; simpl; errors_walk. Qed.

Lemma set_some_object {A} k (g : A → Value) o v :
  (∃ m, v = JObject m) → some_in (λ v', ∃ m', v' = JObject m') (index_set_some [k] g o v).
Proof. intros [m ->]. destruct o; simpl; eauto. Qed.

Lemma cycle_turn_facts context c :
  errors is_invalid (cycle_turn context c).
Proof.
  unfold cycle_turn. set (turn := json_object _).
  pose proof (add_attribution_object (cy_attribution c) turn _ eq_refl) as Ht.
  destruct (add_attribution (cy_attribution c) turn) as [v|]; [|done]. cbn [expected result_bind].
  apply errors_bind; [apply errors_ensure|intros [] _]. eapply errors_expected.
  eapply some_in_bind; [by apply set_some_object|]. intros v1 Hv1. by apply set_some_object.
Qed.

Hint Resolve cycle_members_errors cycle_bindings_errors cycle_turn_facts : checked.

Lemma normalize_message_errors published context m kind k :
  errors is_invalid (normalize_message published context m kind k).
Proof. unfold normalize_message. errors_walk. Qed.

Lemma with_context_facts F (Q : Value → Prop) o deps :
  some_in Q o → errors F (with_context (expected o) deps).
Proof. intros Ho. apply errors_bind; [by eapply errors_expected|intros; apply errors_ok]. Qed.

Lemma with_context_ok (Q : Value → Prop) o deps f :
  some_in Q o → with_context (expected o) deps = Ok f → Q (fc_value f) ∧ fc_dependencies f = deps.
Proof. unfold with_context. destruct o as [v|]; [|done]. simpl. by intros Hv [= <-]. Qed.

Lemma normalize_cycle_errors published context frozen c :
  context_shaped (fc_value frozen) → errors is_invalid (normalize_cycle published context frozen c).
Proof.
  intros Hf. unfold normalize_cycle. errors_walk.
  eapply (errors_expected _ context_shaped).
  apply context_set_root; [|exact Hf]. by intros [|[|[|[]]]].
Qed.

Lemma normalize_payload_errors published context frozen :
  context_shaped (fc_value frozen) → errors is_invalid (normalize_payload published context frozen).
Proof.
  intros Hf. unfold normalize_payload. destruct (po_payload published).
  1-3: apply errors_bind; [apply normalize_message_errors|intros ? ?; apply errors_ok].
  - by apply normalize_cycle_errors.
  - apply errors_bind; [|intros ? ?; apply errors_ok]. eapply (with_context_facts _ context_shaped).
    by apply context_set_in; [left|].
  - apply errors_bind; [apply errors_ensure|intros ? ?].
    apply errors_bind; [|intros ? ?; apply errors_ok]. eapply (with_context_facts _ context_shaped).
    eapply some_in_bind; [by apply context_set_in; [left|]|]. intros v Hv.
    destruct last_activity_at_ms; [by apply context_set_in; [left|]|done].
Qed.

(** What a response cycle is made of. *)
Definition cycle_bound (context : PublishedContext) (c : PublishedResponseCycle) : Prop :=
  NoDup (m_id <$> cy_messages c) ∧
  (pe_identity <$> cy_dependencies c) ≡ₚ (m_id <$> cy_messages c) ∧
  Forall (accepted_member context) (cy_messages c) ∧
  Forall (λ b, is_blank (evidence_version (pe_version b)) = false) (cy_dependencies c).

Lemma same_length_incl_perm (l k : list string) :
  NoDup l → NoDup k → length l = length k → forallb (one_of k) l = true → l ≡ₚ k.
Proof.
  intros Hl Hk Hlen Hin. apply submseteq_length_Permutation; [|lia].
  apply NoDup_submseteq; [done|]. intros x Hx. rewrite forallb_forall in Hin.
  apply list_elem_of_In. by apply one_of_in, Hin, list_elem_of_In.
Qed.

Lemma cycle_turn_messages context c turn :
  cycle_turn context c = Ok turn → value_get turn "messages" = Some (JArray (m_value <$> cy_messages c)).
Proof.
  unfold cycle_turn, add_attribution, index_set_some.
  destruct (oa_model (cy_attribution c)), (oa_fast_mode (cy_attribution c)); simpl;
    (destruct (ensure _ _) as [[]|]; [|done]); simpl;
    destruct (cy_started_at_ms c), (cy_ended_at_ms c); simpl; by intros [= <-].
Qed.

Lemma normalize_cycle_ok published context frozen c kind frozen' :
  normalize_cycle published context frozen c = Ok (kind, frozen') →
  cycle_bound context c ∧ cy_id c = po_identity published ∧
  (∃ turn, kind = TurnEnd turn ∧ value_get turn "messages" = Some (JArray (m_value <$> cy_messages c))) ∧
  fc_dependencies frozen' = (fc_dependencies frozen ++ (binding_dependency <$> cy_dependencies c))%list.
Proof.
  unfold normalize_cycle. intros Hc. ok_walk Hc.
  apply ensure_ok in Hok, Hok2. rewrite !andb_true_iff in Hok. destruct Hok as [[[[_ Hid] _] _] _].
  apply String.eqb_eq in Hid. apply andb_true_iff in Hok2 as [Hlen%bool_decide_eq_true Hall].
  apply cycle_members_ok in Hok0 as (Hnm & Hpm & Hfm); [|constructor].
  apply cycle_bindings_ok in Hok1 as (Hnb & Hpb & Hfb); [|constructor].
  rewrite app_nil_r in Hpm, Hpb. injection Hc as <- <-.
  pose proof (same_length_incl_perm _ _ Hnm Hnb Hlen Hall) as Hperm.
  split_and!; [|done| |].
  - split_and!; [by rewrite <- Hpm|by rewrite <- Hpm, <- Hpb|done|done].
  - eexists. split; [done|]. by apply cycle_turn_messages in Hok3.
  - unfold with_context in Hok4. ok_walk Hok4. by injection Hok4 as <-.
Qed.
End cycles.

(** ** Normalized events *)

Definition event_branch `{SerdeNumber} (e : SourceEvent) : option BranchId :=
  match e with
  | SourceIgnored _ => None
  | SourceObservation _ _ _ _ d => Some (dr_branch d)
  | SourceRemoval _ _ _ b | SourceGap _ b _ | SourceUnsafeUpdate _ b _ | SourceSegmentReset _ b _
  | SourceCoverageRestored _ b => Some b
  end.

Section normalized.
Context `{SerdeNumber, !CandidateDigest, !RecordWriter}.

Lemma evidence_digest_errors v : errors is_reader_error (evidence_digest v).
Proof.
  unfold evidence_digest. destruct (record_writes v) as [writes [message|]]; [|apply errors_ok].
  intros e [= <-]. by eexists.
Qed.

Lemma result_context_shaped c : some_in context_shaped (result_context c).
Proof.
  unfold result_context. apply (some_in_bind (λ s, ∃ m, s = JObject m)).
  { unfold result_session. simpl. destruct (px_session_selection c); [|simpl; eauto].
    by eapply add_attribution_object. }
  intros s [m ->].
  assert (∀ g r a, context_shaped (JObject [("agent", a); ("global", JObject g); ("repo", JObject r);
                                            ("session", JObject m)])) as Hshape.
  { intros g r a. eexists. split; [done|]. split.
    - intros k x Hin Hk. simpl in Hin.
      destruct Hin as [[= <- <-]|[[= <- <-]|[[= <- <-]|[[= <- <-]|[]]]]]; [|by eexists..].
      by destruct Hk as [|[|[|[]]]].
    - intros k [<-|[<-|[<-|[]]]]; simpl; eauto. }
  destruct (px_project_root c); simpl; apply Hshape.
Qed.

Lemma context_shaped_mergeable v : context_shaped v → mergeable v.
Proof.
  intros (m & -> & Hm & Hr). exists m. split; [done|]. intros k Hk.
  assert (In k context_roots) as Hin by (simpl; intuition).
  destruct (Hr k Hin) as [x Hx]. rewrite Hx. destruct (Hm k x (map_get_in _ _ _ Hx) Hin) as [root ->].
  simpl. eauto.
Qed.

Lemma normalize_result_errors cursor branch context sv r :
  errors is_reader_error (normalize_result cursor branch context sv r).
Proof.
  unfold normalize_result. destruct (unsafe_result branch context r) eqn:Hu; [apply errors_ok|].
  apply errors_bind; [apply evidence_digest_errors|intros version _].
  unfold unsafe_result in Hu. destruct context as [c|]; [|by rewrite !orb_true_r in Hu]. clear Hu. cbn [expected result_bind].
  apply errors_bind; [eapply errors_expected, result_context_shaped|intros v _].
  apply errors_bind; [eapply errors_expected, result_message_shaped|intros mv _]. apply errors_ok.
Qed.

Lemma or_unsafe_errors {A} F (r : checked A) unsafe prefix f :
  errors is_invalid r → (∀ a, r = Ok a → errors F (f a)) → errors F (or_unsafe r unsafe prefix f).
Proof.
  intros Hr Hf. destruct r as [a|[e|]]; simpl; [by apply Hf|apply errors_ok|].
  destruct (Hr SourcePanicked eq_refl) as [m Hm]. done.
Qed.

Lemma normalize_observation_errors cursor branch context sv o :
  errors is_reader_error (normalize_observation cursor branch context sv o).
Proof.
  unfold normalize_observation. destruct context as [c|]; [|apply errors_ok].
  destruct (negb _); [apply errors_ok|]. destruct (unsafe_observation _ _ _); [apply errors_ok|].
  destruct (negb _); [apply errors_ok|].
  apply errors_bind; [apply evidence_digest_errors|intros version _].
  destruct (public_context_facts c) as [He Hf]. apply or_unsafe_errors; [done|]. intros frozen Hfr.
  apply or_unsafe_errors; [|by intros [kind frozen'] _; apply errors_ok].
  destruct (po_eligible o); [|apply errors_ok]. apply normalize_payload_errors. by apply Hf.
Qed.

Lemma or_unsafe_ok {A} (r : checked A) unsafe prefix f ev :
  or_unsafe r unsafe prefix f = Ok ev → (∃ a, r = Ok a ∧ f a = Ok ev) ∨ ∃ reason, ev = unsafe reason.
Proof. destruct r as [a|[e|]]; simpl; [eauto|intros [= <-]; eauto|done]. Qed.

Lemma normalize_result_ok cursor branch context sv r ev :
  normalize_result cursor branch context sv r = Ok ev →
  (∃ reason, ev = SourceUnsafeUpdate cursor branch reason) ∨
  ∃ c version cv mv,
    unsafe_result branch context r = false ∧ context = Some c ∧ result_context c = Some cv ∧
    result_message r c = Some mv ∧
    ev = SourceObservation cursor sv (tr_identity r) (tr_revision r)
      {| dr_branch := branch; dr_native_order := tr_native_order r;
         dr_first_terminal := tr_first_terminal_publication r; dr_first_eligible := None;
         dr_version := version;
         dr_kind := if tr_finality r
                    then ToolResult {| m_id := tr_identity r; m_value := mv |}
                           (default "" (result_category r)) (result_status_name (tr_status r))
                    else OtherObservation;
         dr_context := {| fc_value := cv; fc_dependencies := [context_dependency (px_version c)] |};
         dr_complete := tr_finality r && tr_payload_complete r |}.
Proof.
  unfold normalize_result. destruct (unsafe_result branch context r); [intros [= <-]; eauto|].
  intros Hn. right. ok_walk Hn. apply expected_ok in Hok0, Hok1, Hok2. injection Hn as <-.
  by exists x0, x, x1, x2.
Qed.

Lemma normalize_observation_ok cursor branch context sv o ev :
  normalize_observation cursor branch context sv o = Ok ev →
  (∃ reason, ev = SourceUnsafeUpdate cursor branch reason) ∨
  ∃ c version frozen kind frozen',
    context = Some c ∧ main_context c = true ∧ unsafe_observation cursor branch o = false ∧
    public_context c = Ok frozen ∧
    (if po_eligible o then normalize_payload o c frozen else Ok (OtherObservation, frozen))
      = Ok (kind, frozen') ∧
    ev = public_observation cursor branch sv o version kind frozen'.
Proof.
  unfold normalize_observation. destruct context as [c|]; [|intros [= <-]; eauto].
  destruct (main_context c) eqn:Hc; simpl; [|intros [= <-]; eauto].
  destruct (unsafe_observation cursor branch o) eqn:Hu; [intros [= <-]; eauto|].
  destruct (negb _); [intros [= <-]; eauto|].
  intros Hn. apply result_bind_ok in Hn as (version & _ & Hn).
  apply or_unsafe_ok in Hn as [(frozen & Hfrozen & Hn)|[reason ->]]; [|eauto].
  apply or_unsafe_ok in Hn as [([kind frozen'] & Hkind & [= <-])|[reason ->]]; [|eauto].
  right. exists c, version, frozen, kind, frozen'. by split_and!.
Qed.

(** An eligible payload is an observation of its own kind, with its identity. *)
Lemma normalize_payload_kind o c frozen kind frozen' :
  normalize_payload o c frozen = Ok (kind, frozen') →
  kind ≠ OtherObservation ∧ (∀ m c s, kind ≠ ToolResult m c s) ∧
  (∀ m, kind = UserMessage m ∨ kind = AssistantMessage m ∨ kind = ToolCall m → m_id m = po_identity o).
Proof.
  unfold normalize_payload, normalize_message. destruct (po_payload o); intros Hn.
  1-3: ok_walk Hn; injection Hn as <- <-; ok_walk Hok; injection Hok as <-;
    apply ensure_ok, andb_true_iff in Hok1 as [Hid%String.eqb_eq _]; naive_solver.
  - apply normalize_cycle_ok in Hn as (_ & _ & (turn & -> & _) & _). naive_solver.
  - ok_walk Hn. injection Hn as <- <-. naive_solver.
  - ok_walk Hn. injection Hn as <- <-. naive_solver.
Qed.

(** The scopes of the context stay objects. *)
Lemma normalize_payload_context o c frozen kind frozen' :
  context_shaped (fc_value frozen) →
  normalize_payload o c frozen = Ok (kind, frozen') → context_shaped (fc_value frozen').
Proof.
  intros Hf. unfold normalize_payload. destruct (po_payload o); intros Hn; ok_walk Hn.
  1-3: by injection Hn as <- <-.
  - unfold normalize_cycle in Hn. ok_walk Hn. injection Hn as <- <-.
    eapply with_context_ok; [|done]. apply context_set_root; [|done]. by intros [|[|[|[]]]].
  - injection Hn as <- <-. eapply with_context_ok; [|done]. by apply context_set_in; [left|].
  - injection Hn as <- <-. eapply with_context_ok; [|done].
    eapply some_in_bind; [by apply context_set_in; [left|]|]. intros v Hv.
    destruct last_activity_at_ms; [by apply context_set_in; [left|]|done].
Qed.

(** What selection asks of an observation: a message has the identity of its
    publication, and the inventories can be merged into the context. *)
Definition selectable (i : string) (d : ObservationDraft) : Prop :=
  (∀ p m, observation_message (commit d p) = Some m → m_id m = i) ∧
  mergeable (fc_value (dr_context d)).

Lemma normalize_selectable e c v i r d :
  normalize e = Ok (SourceObservation c v i r d) → selectable i d.
Proof.
  unfold normalize. destruct (pv_change e); try by intros [=].
  - intros [(reason & [=])|(cx & version & cv & mv & _ & _ & Hcv & _ & [= -> -> -> -> ->])]%normalize_result_ok.
    split; simpl.
    + intros p m. unfold observation_message. simpl. by destruct (tr_finality r0); [intros [= <-]|].
    + pose proof (result_context_shaped cx) as Hs. rewrite Hcv in Hs. by apply context_shaped_mergeable.
  - intros [(reason & [=])|(cx & version & f & k & f' & _ & _ & _ & Hpub & Hk & Hev)]%normalize_observation_ok.
    injection Hev as -> -> -> -> ->. apply public_context_facts in Hpub as [Hf _]. split; simpl.
    + intros p m. unfold observation_message. simpl.
      destruct (po_eligible o); [|injection Hk as <- <-; done].
      apply normalize_payload_kind in Hk as (_ & Hr & Hid).
      destruct k; try done; intros [= <-]; [apply Hid; auto..|by destruct (Hr message category status)].
    + apply context_shaped_mergeable. destruct (po_eligible o); [|by injection Hk as <- <-].
      by eapply normalize_payload_context.
Qed.

Lemma normalize_errors e : errors is_reader_error (normalize e).
Proof.
  unfold normalize. destruct (pv_change e); try apply errors_ok.
  - apply normalize_result_errors.
  - apply normalize_observation_errors.
Qed.

Lemma normalize_keeps e ev :
  normalize e = Ok ev →
  event_cursor ev = pv_cursor e ∧
  event_branch ev = match pv_change e with
                    | ChangeIgnored => None | _ => Some {| branch_id := pv_branch e |} end.
Proof.
  unfold normalize. destruct (pv_change e); try by intros [= <-].
  - by intros [(reason & ->)|(c & version & cv & mv & _ & _ & _ & _ & ->)]%normalize_result_ok.
  - by intros [(reason & ->)|(c & version & f & k & f' & _ & _ & _ & _ & _ & ->)]%normalize_observation_ok.
Qed.

(** ** Pages *)

(** Cursors that increase from a first one. *)
Fixpoint increasing (after : N) (l : list N) : Prop :=
  match l with [] => True | c :: l => after < c ∧ increasing c l end.

(** The cursor to resume from: the last one, or a later one after an empty page. *)
Definition resumes (after : N) (l : list N) (next : N) : Prop :=
  match l with [] => after ≤ next | _ => last l = Some next end.

Lemma default_last (after c : N) l : default after (last (c :: l)) = default c (last l).
Proof.
  destruct l as [|d l]; [done|]. change (last (c :: d :: l)) with (last (d :: l)).
  destruct (last (d :: l)) eqn:E; [done|by apply last_None in E].
Qed.

Lemma last_default (d c : N) l : last (c :: l) = Some (default d (last (c :: l))).
Proof. destruct (last (c :: l)) eqn:E; [done|by apply last_None in E]. Qed.

Lemma read_events_ok l : ∀ after events previous,
  read_events after l = Ok (events, previous) ↔
  increasing after (pv_cursor <$> l) ∧ Forall2 (λ e ev, normalize e = Ok ev) l events ∧
  previous = default after (last (pv_cursor <$> l)).
Proof.
  induction l as [|e l IH]; intros after events previous; simpl.
  - split; [by intros [= <- <-]|]. by intros (_ & ->%Forall2_nil_inv_l & ->).
  - destruct (N.leb_spec (pv_cursor e) after) as [Hle|Hlt]; [split; [done|lia]|].
    pose proof (default_last after (pv_cursor e)) as Hlast.
    split.
    + intros Hr. apply result_bind_ok in Hr as (ev & Hev & Hr). apply result_bind_ok in Hr as ([events' previous'] & Hr & [= <- <-]).
      apply IH in Hr as (Hi & Hf & ->). rewrite Hlast. split_and!; [done..|by constructor|done].
    + intros ((_ & Hi) & Hf & ->). apply Forall2_cons_inv_l in Hf as (ev & events' & Hev & Hf & ->).
      apply result_bind_ok. exists ev. split; [done|]. apply result_bind_ok. exists (events', default (pv_cursor e) (last (pv_cursor <$> l))).
      rewrite Hlast. split; [|done]. apply IH. by split_and!.
Qed.

Lemma increasing_last after l c : increasing after l → last l = Some c → after < c.
Proof.
  revert after. induction l as [|x l IH]; intros after; simpl; [done|]. intros [Hx Hi].
  destruct l as [|y l]; [by intros [= <-]|]. intros Hl. specialize (IH x Hi Hl). lia.
Qed.

Lemma read_batch_ok s after page :
  read_batch s after = Ok page ↔
  ∃ batch,
    reader s {| rd_after := after; rd_limit := page_size s |} = Ok batch ∧
    N.of_nat (length (pb_events batch)) ≤ page_size s ∧
    increasing after (pv_cursor <$> pb_events batch) ∧
    resumes after (pv_cursor <$> pb_events batch) (pb_next batch) ∧
    Forall2 (λ e ev, normalize e = Ok ev) (pb_events batch) (sb_events page) ∧
    sb_next page = pb_next batch ∧ sb_has_more page = pb_has_more batch.
Proof.
  unfold read_batch. destruct (reader s _) as [batch|e]; cbn [map_err result_bind];
    [|split; [done|by intros (? & ? & _)]].
  assert (∀ Q : PublishedEvidenceBatch → Prop, (∃ b, Ok (E:=SourceError) batch = Ok b ∧ Q b) ↔ Q batch) as ->
    by (intros Q; split; [by intros (? & [= ->] & ?)|eauto]).
  destruct (N.ltb_spec (page_size s) (N.of_nat (length (pb_events batch)))); [split; [done|lia]|].
  split.
  - intros Hr. apply result_bind_ok in Hr as ([events previous] & Hr & Hp). apply read_events_ok in Hr as (Hi & Hf & ->).
    destruct (_ || _) eqn:Hb; [done|]. injection Hp as <-. cbn [sb_events sb_next sb_has_more].
    split_and!; try done. apply orb_false_iff in Hb as [Hb1 Hb2].
    destruct Hf as [|e ev l events _ _]; [simpl in *; lia|].
    apply andb_false_iff in Hb2 as [Hb2|Hb2]; [by rewrite bool_decide_eq_false_2 in Hb2|].
    rewrite negb_false_iff, N.eqb_eq in Hb2. rewrite Hb2, fmap_cons. apply last_default.
  - intros (_ & Hi & Hn & Hf & Hnext & Hmore). destruct page as [events next more]. simpl in *. subst.
    apply result_bind_ok. exists (events, default after (last (pv_cursor <$> pb_events batch))).
    split; [by apply read_events_ok|].
    assert ((pb_next batch <? default after (last (pv_cursor <$> pb_events batch))) ||
            negb (bool_decide (events = [])) &&
            negb (pb_next batch =? default after (last (pv_cursor <$> pb_events batch))) = false) as ->; [|done].
    destruct Hf as [|e ev l events _ _]; [simpl in *; apply orb_false_iff; split; [lia|done]|].
    rewrite fmap_cons in *. unfold resumes in Hn. rewrite Hn. cbn [default from_option].
    rewrite N.ltb_irrefl, N.eqb_refl. by rewrite andb_false_r.
Qed.

Lemma read_events_errors l : ∀ after,
  errors (λ e, e ≠ SourcePanicked) (read_events after l).
Proof.
  induction l as [|e l IH]; intros after; simpl; [apply errors_ok|].
  destruct (_ <=? _); [by intros x [= <-]|].
  apply errors_bind; [by intros x Hx; destruct (normalize_errors e x Hx) as [m ->]|intros ev _].
  apply errors_bind; [apply IH|intros [events p] _; apply errors_ok].
Qed.
End normalized.

(** ** Properties *)

Section source_properties.
Context `{SerdeNumber, !CandidateDigest, !RecordWriter}.

(** What an observation that reaches the engine comes from. *)
Definition admitted (e : PublishedEvidenceEvent) (ev : SourceEvent) : Prop :=
  match ev with
  | SourceObservation _ v i _ d =>
      (∃ context, pv_context e = Some context ∧ main_context context = true) ∧
      v = pv_source_evidence_version e ∧ is_blank (pv_branch e) = false ∧ is_blank i = false ∧
      is_blank (order_key (dr_native_order d)) = false ∧
      match dr_first_eligible d with Some first => first ≤ pv_cursor e | None => True end ∧
      (dr_complete d = true → dr_kind d ≠ OtherObservation) ∧ selectable i d
  | _ => True
  end.

Lemma admitted_observation e c v i r d :
  normalize e = Ok (SourceObservation c v i r d) → admitted e (SourceObservation c v i r d).
Proof.
  intros Hn. pose proof (normalize_selectable _ _ _ _ _ _ Hn) as Hs. revert Hn. unfold normalize, admitted.
  destruct (pv_change e) as [|r'|o| | | | | |]; try by intros [=].
  - intros [(reason & [=])|(cx & version & cv & mv & Hu & Hc & _ & _ & [= -> -> -> -> ->])]%normalize_result_ok.
    unfold unsafe_result in Hu. rewrite Hc, !orb_false_iff in Hu.
    destruct Hu as [[[[_ Hm%negb_false_iff] Hb] Hi] Ho]. simpl.
    split_and!; try done; [by exists cx|]. by destruct (tr_finality r').
  - intros [(reason & [=])|(cx & version & f & k & f' & Hc & Hm & Hu & _ & Hk & Hev)]%normalize_observation_ok.
    injection Hev as -> -> -> -> ->. unfold unsafe_observation in Hu. rewrite !orb_false_iff in Hu.
    destruct Hu as [[[[_ Hb] Hi] Ho] Hf]. simpl. split_and!; try done; [by exists cx|..].
    + destruct (po_first_eligible_publication o); [lia|done].
    + destruct (po_eligible o); [|done]. by apply normalize_payload_kind in Hk as [? _].
Qed.

(** C12: normalizing a published event never panics, and fails only where the
    publication cannot be serialized.  Otherwise the source event has the cursor
    and the branch of the publication, and an observation comes from an admitted
    main session, has an identity, a branch and an order, is complete only when
    it is terminal, and is one that selection can take: a message carries the
    identity of its publication and inventories can be merged into its context. *)
Theorem normalize_correct e :
  match normalize e with
  | Ok ev =>
      event_cursor ev = pv_cursor e ∧
      event_branch ev = match pv_change e with
                        | ChangeIgnored => None | _ => Some {| branch_id := pv_branch e |} end ∧
      admitted e ev
  | Err (SourceFailed (ReaderFailed _)) => True
  | Err _ => False
  end.
Proof.
  destruct (normalize e) as [ev|stop] eqn:En.
  - destruct (normalize_keeps _ _ En) as [-> ->]. split_and!; [done..|].
    destruct ev; try done. by apply admitted_observation.
  - by destruct (normalize_errors e stop En) as [m ->].
Qed.

(** A page is read exactly when the reader keeps its contract: at most the
    requested number of events, in strictly increasing order after the requested
    cursor, and a cursor to resume from that is the last one, or no earlier than
    the requested one after an empty page.  The page then holds the
    normalization of every event, in order; reading never panics. *)
Theorem read_batch_correct s after page :
  (read_batch s after = Ok page ↔
   ∃ batch,
     reader s {| rd_after := after; rd_limit := page_size s |} = Ok batch ∧
     N.of_nat (length (pb_events batch)) ≤ page_size s ∧
     increasing after (pv_cursor <$> pb_events batch) ∧
     resumes after (pv_cursor <$> pb_events batch) (pb_next batch) ∧
     Forall2 (λ e ev, normalize e = Ok ev) (pb_events batch) (sb_events page) ∧
     sb_next page = pb_next batch ∧ sb_has_more page = pb_has_more batch) ∧
  read_batch s after ≠ Err SourcePanicked.
Proof.
  split; [apply read_batch_ok|]. unfold read_batch.
  destruct (reader s _) as [batch|e]; cbn [map_err result_bind]; [|done].
  destruct (_ <? _); [done|]. pose proof (read_events_errors (pb_events batch) after) as He.
  destruct (read_events after (pb_events batch)) as [[events previous]|stop]; cbn [result_bind].
  - by destruct (_ || _).
  - intros [= ->]. by eapply He.
Qed.

(** A response cycle reaches the engine only when it is bound exactly: its
    members have distinct identities, each is a valid public message of the
    session's agent, and the bindings name every member once and nothing else.
    The observation depends on the context, on the bindings and on the cycle
    itself, and its turn holds the members in order. *)
Theorem cycle_exact_bindings e c v i r d o cycle turn :
  pv_change e = ChangeObservation o → po_payload o = PayloadResponseCycle cycle →
  normalize e = Ok (SourceObservation c v i r d) → dr_kind d = TurnEnd turn →
  ∃ context,
    pv_context e = Some context ∧ cycle_bound context cycle ∧ cy_id cycle = i ∧
    value_get turn "messages" = Some (JArray (m_value <$> cy_messages cycle)) ∧
    fc_dependencies (dr_context d) =
      ([context_dependency (px_version context)] ++ (binding_dependency <$> cy_dependencies cycle) ++
       [SourceEvidence i (dr_version d)])%list.
Proof.
  intros Hchange Hpayload. unfold normalize. rewrite Hchange.
  intros [(reason & [=])|(cx & version & f & k & f' & Hc & Hm & Hu & Hpub & Hk & Hev)]%normalize_observation_ok Hkind.
  injection Hev as -> -> -> -> ->. simpl in Hkind. subst k.
  destruct (po_eligible o); [|done]. unfold normalize_payload in Hk. rewrite Hpayload in Hk.
  apply normalize_cycle_ok in Hk as (Hbound & Hid & (turn' & [= <-] & Hmsg) & Hdeps).
  apply public_context_facts in Hpub as [_ Hfd].
  exists cx. split_and!; [done..|]. simpl. rewrite Hdeps, Hfd. by rewrite <- app_assoc.
Qed.

(** A terminal result that normalization admits gives a message that the
    validator of public messages accepts, once the facts that it records have
    their documented form and the message is within the public bounds: the
    builder only writes fields and types of the closed grammar. *)
Theorem tool_result_message_valid r context m :
  normalize_tool_result_message r context = Ok m →
  recorded_facts r = true → fits_public (value_serial (m_value m)) = true →
  validate_public_message m "tool_result" = Ok tt ∧ m_id m = tr_identity r.
Proof.
  unfold normalize_tool_result_message. intros Hn Hf Hfit. ok_walk Hn.
  unfold normalize in Hok. simpl in Hok.
  apply normalize_result_ok in Hok as [(reason & ->)|(cx & version & cv & mv & Hu & [= <-] & _ & Hmv & ->)];
    [done|]. simpl in Hn. destruct (tr_finality r); [|done]. injection Hn as <-. split; [|done].
  unfold unsafe_result in Hu. rewrite !orb_false_iff in Hu.
  destruct Hu as [[[[_ Hctx%negb_false_iff] _] Hi] _].
  pose proof (result_message_shaped r context) as Hs. rewrite Hmv in Hs. simpl in Hs.
  unfold validate_public_message. cbn [m_value] in *. rewrite Hfit. cbn [ensure result_bind].
  rewrite (envelope_valid r context Hctx Hi Hf _ mv Hs). cbn [result_bind].
  destruct Hs as [Hs (t & Ht & Hts)].
  destruct (shaped_required _ _ _ "quality" Hs) as (q & -> & Hq); [by simpl; tauto|].
  assert (shaped quality_shape [] q) as Hqs by (unfold message_shape in Hq; destruct_or!; naive_solver).
  rewrite (quality_valid q Hqs). cbn [result_bind].
  change (one_of ["user_message"; "assistant_message"] "tool_result") with false. cbn iota.
  rewrite (shaped_absent _ _ mv "content" Hs) by (unfold message_shape; intros; naive_solver).
  cbn [is_some negb ensure result_bind]. rewrite Ht. by apply (tool_valid r).
Qed.
End source_properties.

(** ** Samples *)

(** A normalized event that ends a turn. *)
Definition ends_turn `{SerdeNumber} (r : checked SourceEvent) : bool :=
  match r with
  | Ok (SourceObservation _ _ _ _ d) => match dr_kind d with TurnEnd _ => true | _ => false end
  | _ => false
  end.

Lemma ends_turn_inv `{SerdeNumber} r :
  ends_turn r = true →
  ∃ c v i revision d turn, r = Ok (SourceObservation c v i revision d) ∧ dr_kind d = TurnEnd turn.
Proof.
  destruct r as [[|c v i revision d| | | | |]|]; try done. simpl.
  destruct (dr_kind d) as [| | | |turn| | |] eqn:E; try done. intros _. by repeat eexists.
Qed.

Section sample.
#[local] Existing Instance text_numbers.
#[local] Existing Instance Sample.sample_digest.
#[local] Existing Instance compact_writer.

Definition sample_context : PublishedContext :=
  {| px_requests := [("u1", json_object [("source", JString "codex"); ("text", JString "go")])];
     px_session_id := "s1"; px_agent_name := "codex"; px_project_root := None; px_version := "v1";
     px_main_session := true; px_complete_through_event := true;
     px_inventories := CurrentInventories_default; px_session_selection := None |}.

Definition sample_text (i kind role : string) : Message :=
  {| m_id := i;
     m_value := json_object [("id", JString i); ("source", JString "codex"); ("kind", JString kind);
                             ("role", JString role); ("content", JString "text")] |}.

Definition sample_cycle : PublishedResponseCycle :=
  {| cy_id := "turn-1"; cy_status := CycleCompleted;
     cy_messages := [sample_text "m1" "user_message" "user"; sample_text "m2" "assistant_message" "assistant"];
     cy_attribution := {| oa_model := Some "openai/gpt-5"; oa_fast_mode := None |};
     cy_native_reason := None; cy_native_error_code := None; cy_started_at_ms := Some 5%Z;
     cy_ended_at_ms := Some 9%Z;
     cy_dependencies :=
       [{| pe_identity := "m2"; pe_version := {| evidence_version := "b" |} |};
        {| pe_identity := "m1"; pe_version := {| evidence_version := "a" |} |}] |}.

Definition sample_publication (identity : string) (payload : PublishedObservationPayload) :
    PublishedObservation :=
  {| po_identity := identity; po_native_order := {| order_key := "7" |};
     po_first_eligible_publication := Some 3; po_revision := 1; po_eligible := true;
     po_payload_complete := true; po_validity := Valid; po_payload := payload |}.

Definition sample_event (cursor : N) (change : PublishedEvidenceChange) : PublishedEvidenceEvent :=
  {| pv_cursor := cursor; pv_source_evidence_version := None; pv_branch := "main";
     pv_context := Some sample_context; pv_change := change |}.

Definition sample_cycle_event : PublishedEvidenceEvent :=
  sample_event 4 (ChangeObservation (sample_publication "turn-1" (PayloadResponseCycle sample_cycle))).

Lemma sample_cycle_ends : ends_turn (normalize sample_cycle_event) = true.
Proof. vm_refl. Qed.

Lemma cycle_exact_bindings_witness :
  ∃ context, pv_context sample_cycle_event = Some context ∧ cycle_bound context sample_cycle.
Proof.
  destruct (ends_turn_inv _ sample_cycle_ends) as (c & v & i & revision & d & turn & Hn & Hk).
  destruct (cycle_exact_bindings sample_cycle_event c v i revision d _ sample_cycle turn eq_refl eq_refl Hn Hk)
    as (context & Hc & Hb & _).
  exact (ex_intro _ context (conj Hc Hb)).
Defined.

Definition sample_result : PublishedToolResult :=
  {| tr_identity := "call-1"; tr_native_order := {| order_key := "8" |};
     tr_first_terminal_publication := Some 5; tr_revision := 1; tr_tool_name := Some "Bash";
     tr_category := Some "shell";
     tr_metadata :=
       {| md_attribution := {| oa_model := Some "openai/gpt-5"; oa_fast_mode := Some false |};
          md_fast_mode_evidence := Some "recorded"; md_check_category := Some CatShell;
          md_paths := Some ["src/main.rs"]; md_paths_complete := true; md_paths_limits := [];
          md_model_limit := None; md_fast_mode_limit := None; md_category_limit := None |};
     tr_arguments := None; tr_content := Some "done";
     tr_outcome := Some (json_object [("exit", JNumber (number_of_i64 0)); ("timed_out", JBool false)]);
     tr_provider_executed := Some false; tr_status := PublishedCompleted; tr_finality := true;
     tr_payload_complete := true; tr_validity := Valid |}.

(** The message of a result that normalizes. *)
Definition within_bounds (r : checked Message) : bool :=
  match r with Ok m => fits_public (value_serial (m_value m)) | Err _ => false end.

Lemma within_bounds_inv r : within_bounds r = true → ∃ m, r = Ok m ∧ fits_public (value_serial (m_value m)) = true.
Proof. destruct r; [eauto|done]. Qed.

Lemma sample_result_bounds : within_bounds (normalize_tool_result_message sample_result sample_context) = true.
Proof. vm_refl. Qed.

Lemma sample_result_facts : recorded_facts sample_result = true.
Proof. vm_refl. Qed.

Lemma tool_result_message_valid_witness :
  ∃ m, normalize_tool_result_message sample_result sample_context = Ok m ∧
       validate_public_message m "tool_result" = Ok tt.
Proof.
  destruct (within_bounds_inv _ sample_result_bounds) as (m & Hm & Hfit).
  destruct (tool_result_message_valid sample_result sample_context m Hm sample_result_facts Hfit) as [Hv _].
  exact (ex_intro _ m (conj Hm Hv)).
Defined.
End sample.
