(* ===== verification/Scheduler.v ===== *)
(** * The candidate scheduler (crates/antiburn-checks/src/engine.rs)

    The in-memory queue of candidates: admission with coalescing and a global
    bound, the choice of the next candidate, the reservation of its branch while
    it is evaluated, and the release of the reservation.  Each definition is one
    section of the code under the scheduler's lock, so interleavings of threads
    are sequences of these steps. *)

From stdpp Require Import gmap.
From S2P Require Import Prelude Order RustString Diagnostics Expression Domain Template Decision Check Json BoundedJson Results Lifecycle Selection Progress.

#[local] Open Scope N_scope.

Definition MAX_PENDING_CANDIDATES : N := 128.
Definition MAX_IN_FLIGHT_EVALUATIONS : N := 4.

Inductive ExecutionPolicy := PolicyLive | SequentialReplay.

#[export] Instance ExecutionPolicy_eq_dec : EqDecision ExecutionPolicy.
Proof. solve_decision. Defined.

Inductive EnqueueOutcome := Queued | Coalesced | Overflow.

(** ** Keys and their order *)

Record ScheduleKey := { sk_activation : ActivationId; sk_branch : BranchId }.

#[export] Instance ScheduleKey_eq_dec : EqDecision ScheduleKey.
Proof. solve_decision. Defined.

#[export] Instance ScheduleKey_countable : Countable ScheduleKey.
Proof.
  apply (inj_countable'
    (λ k, let a := sk_activation k in let s := a_scope a in
          (environment s, session_cwd s, match run s with Live => None | Replay id => Some id end,
           a_definition_id a, a_generation a, branch_id (sk_branch k)))
    (λ '(e, c, r, d, g, b),
       {| sk_activation :=
            {| a_scope := {| environment := e; session_cwd := c;
                             run := match r with None => Live | Some id => Replay id end |};
               a_definition_id := d; a_generation := g |};
          sk_branch := {| branch_id := b |} |})).
  by intros [[[? ? []] ? ?] []].
Defined.

Definition run_cmp (a b : RunScope) : comparison :=
  match a, b with
  | Live, Live => Eq
  | Live, Replay _ => Lt
  | Replay _, Live => Gt
  | Replay a, Replay b => String.compare a b
  end.

Definition activation_cmp (a b : ActivationId) : comparison :=
  cmp_then (String.compare (environment (a_scope a)) (environment (a_scope b)))
    (cmp_then (String.compare (session_cwd (a_scope a)) (session_cwd (a_scope b)))
      (cmp_then (run_cmp (run (a_scope a)) (run (a_scope b)))
        (cmp_then (String.compare (a_definition_id a) (a_definition_id b))
          (a_generation a ?= a_generation b)))).

(** The derived [Ord] of [ScheduleKey] *)
Definition key_cmp (a b : ScheduleKey) : comparison :=
  cmp_then (activation_cmp (sk_activation a) (sk_activation b))
    (String.compare (branch_id (sk_branch a)) (branch_id (sk_branch b))).

(** [min_by_key] returns the first minimum, [max_by_key] the last maximum. *)
Definition min_by {A} (cmp : A → A → comparison) (l : list A) : option A :=
  fold_left (λ best x,
    match best with
    | None => Some x
    | Some y => match cmp x y with Lt => Some x | _ => best end
    end) l None.

Definition max_by {A} (cmp : A → A → comparison) (l : list A) : option A :=
  fold_left (λ best x,
    match best with
    | None => Some x
    | Some y => match cmp x y with Lt => best | _ => Some x end
    end) l None.

Definition option_cmp (a b : option N) : comparison :=
  match a, b with
  | None, None => Eq
  | None, Some _ => Lt
  | Some _, None => Gt
  | Some a, Some b => a ?= b
  end.

(** [(position, key)] and [(ticket, key)] as sort keys *)
Definition ranked_cmp (a b : ScheduleKey * ObservationPosition) : comparison :=
  cmp_then (a.2 ?= b.2) (key_cmp a.1 b.1).
Definition ticket_cmp (tickets : gmap ScheduleKey N) (a b : ScheduleKey) : comparison :=
  cmp_then (option_cmp (tickets !! a) (tickets !! b)) (key_cmp a b).

(** ** State *)

Record PendingCandidate `{SerdeNumber} := {
  pc_candidate : FrozenCandidate;
  pc_compiled : CompiledCheck;
  pc_resumed : bool
}.

(** The pending candidates of a key, by their position. *)
Notation Queue := (gmap N PendingCandidate).

Section scheduler.
Context `{SerdeNumber}.

Record SchedulerState := {
  pending : gmap ScheduleKey Queue;
  in_flight : gset ScheduleKey;
  cooldown_until : gmap ScheduleKey N;
  service_tickets : gmap ScheduleKey N;
  next_service_ticket : N;
  active_count : N;
  recent_dispatches : N;
  pending_releases : gmap ScheduleKey ClaimedCandidate
}.

Definition SchedulerState_default : SchedulerState :=
  {| pending := ∅; in_flight := ∅; cooldown_until := ∅; service_tickets := ∅;
     next_service_ticket := 0; active_count := 0; recent_dispatches := 0; pending_releases := ∅ |}.

Definition on_pending (f : gmap ScheduleKey Queue → gmap ScheduleKey Queue) (s : SchedulerState) :
    SchedulerState :=
  {| pending := f (pending s); in_flight := in_flight s; cooldown_until := cooldown_until s;
     service_tickets := service_tickets s; next_service_ticket := next_service_ticket s;
     active_count := active_count s; recent_dispatches := recent_dispatches s;
     pending_releases := pending_releases s |}.
Definition on_cooldown (f : gmap ScheduleKey N → gmap ScheduleKey N) (s : SchedulerState) :
    SchedulerState :=
  {| pending := pending s; in_flight := in_flight s; cooldown_until := f (cooldown_until s);
     service_tickets := service_tickets s; next_service_ticket := next_service_ticket s;
     active_count := active_count s; recent_dispatches := recent_dispatches s;
     pending_releases := pending_releases s |}.
Definition on_tickets (f : gmap ScheduleKey N → gmap ScheduleKey N) (s : SchedulerState) :
    SchedulerState :=
  {| pending := pending s; in_flight := in_flight s; cooldown_until := cooldown_until s;
     service_tickets := f (service_tickets s); next_service_ticket := next_service_ticket s;
     active_count := active_count s; recent_dispatches := recent_dispatches s;
     pending_releases := pending_releases s |}.
Definition on_releases (f : gmap ScheduleKey ClaimedCandidate → gmap ScheduleKey ClaimedCandidate)
    (s : SchedulerState) : SchedulerState :=
  {| pending := pending s; in_flight := in_flight s; cooldown_until := cooldown_until s;
     service_tickets := service_tickets s; next_service_ticket := next_service_ticket s;
     active_count := active_count s; recent_dispatches := recent_dispatches s;
     pending_releases := f (pending_releases s) |}.
Definition on_flight (f : gset ScheduleKey → gset ScheduleKey) (count : N) (s : SchedulerState) :
    SchedulerState :=
  {| pending := pending s; in_flight := f (in_flight s); cooldown_until := cooldown_until s;
     service_tickets := service_tickets s; next_service_ticket := next_service_ticket s;
     active_count := count; recent_dispatches := recent_dispatches s;
     pending_releases := pending_releases s |}.
Definition set_dispatches (n : N) (s : SchedulerState) : SchedulerState :=
  {| pending := pending s; in_flight := in_flight s; cooldown_until := cooldown_until s;
     service_tickets := service_tickets s; next_service_ticket := next_service_ticket s;
     active_count := active_count s; recent_dispatches := n;
     pending_releases := pending_releases s |}.

(** Take the next ticket for a key; the counter saturates. *)
Definition take_ticket (k : ScheduleKey) (s : SchedulerState) : SchedulerState :=
  {| pending := pending s; in_flight := in_flight s; cooldown_until := cooldown_until s;
     service_tickets := <[k := next_service_ticket s]> (service_tickets s);
     next_service_ticket := sat_add (next_service_ticket s) 1;
     active_count := active_count s; recent_dispatches := recent_dispatches s;
     pending_releases := pending_releases s |}.

(** ** Queues *)

(** [first_key_value] and [last_key_value] *)
Definition first_entry (q : Queue) : option (ObservationPosition * PendingCandidate) :=
  min_by (λ a b, a.1 ?= b.1) (map_to_list q).
Definition last_entry (q : Queue) : option (ObservationPosition * PendingCandidate) :=
  max_by (λ a b, a.1 ?= b.1) (map_to_list q).

(** [queue.values().any(|pending| !pending.resumed)] *)
Definition has_fresh (q : Queue) : bool := existsb (λ e, negb (pc_resumed e.2)) (map_to_list q).

(** [queue.retain(|_, pending| pending.resumed)] *)
Definition resumed_only (q : Queue) : Queue := filter (λ e, pc_resumed e.2 = true) q.

Definition queue_of (k : ScheduleKey) (s : SchedulerState) : Queue := default ∅ (pending s !! k).

Definition pending_total (s : SchedulerState) : N :=
  map_fold (λ _ q n, N.of_nat (size (q : Queue)) + n) 0 (pending s).

Definition candidate_key (c : FrozenCandidate) : ScheduleKey :=
  {| sk_activation := fr_activation c; sk_branch := fr_branch c |}.

Definition windowed (c : CompiledCheck) : bool := is_some (tr_window (cc_trigger c)).

(** ** Admission *)

(** The candidates that a new one of a check with a window replaces. *)
Definition replaces_pending (a : EffectiveActivation) (resumed : bool) (q : Queue) : bool :=
  negb resumed && windowed (ea_compiled a) && has_fresh q.

(** A newer candidate is already waiting. *)
Definition superseded (c : FrozenCandidate) (q : Queue) : bool :=
  match last_entry q with
  | Some (position, p) => negb (pc_resumed p) && (fr_trigger_position c <? position)
  | None => false
  end.

(** The admission of a candidate whose position is not in its queue. *)
Definition enqueue_new (a : EffectiveActivation) (c : FrozenCandidate) (resumed : bool)
    (s : SchedulerState) : EnqueueOutcome * SchedulerState :=
  let key := candidate_key c in
  let queue := queue_of key s in
  let replaces := replaces_pending a resumed queue in
  if negb replaces && (MAX_PENDING_CANDIDATES <=? pending_total s) then (Overflow, s)
  else if replaces && superseded c queue then (Coalesced, s)
  else
    let s' := on_pending (<[key :=
      <[fr_trigger_position c :=
          {| pc_candidate := c; pc_compiled := ea_compiled a; pc_resumed := resumed |}]>
        (if replaces then resumed_only queue else queue)]>) s in
    (if replaces then Coalesced else Queued,
     if bool_decide (queue = ∅) then take_ticket key s' else s').

(** [enqueue_with_resume] after the pruning, under one lock.  A candidate that is
    already waiting only becomes a resumed one. *)
Definition enqueue_locked (a : EffectiveActivation) (c : FrozenCandidate) (resumed : bool)
    (s : SchedulerState) : EnqueueOutcome * SchedulerState :=
  let key := candidate_key c in
  match pending s !! key ≫= λ q, q !! fr_trigger_position c with
  | Some existing =>
      (Queued,
       on_pending (alter (<[fr_trigger_position c :=
         {| pc_candidate := pc_candidate existing; pc_compiled := pc_compiled existing;
            pc_resumed := pc_resumed existing || resumed |}]>) key) s)
  | None => enqueue_new a c resumed s
  end.

(** The identities that [prune_terminal_pending] asks the store about, and the
    removal of the terminal ones. *)
Definition pending_ids (s : SchedulerState) : list (list N) :=
  remove_dups (concat (map (λ kq, map (λ e, CandidateId_from (pc_candidate e.2)) (map_to_list kq.2))
    (map_to_list (pending s)))).

Definition prune_queue (terminal : list (list N)) (q : Queue) : Queue :=
  filter (λ e, CandidateId_from (pc_candidate e.2) ∉ terminal) q.

Definition prune_locked (terminal : list (list N)) (s : SchedulerState) : SchedulerState :=
  let pruned := prune_queue terminal <$> pending s in
  let empty := dom (filter (λ kq, kq.2 = ∅) pruned) in
  on_tickets (filter (λ kt, kt.1 ∉ empty)) (on_pending (λ _, filter (λ kq, kq.2 ≠ ∅) pruned) s).

(** ** The next candidate *)

Definition is_due (policy : ExecutionPolicy) (now : N) (s : SchedulerState) (k : ScheduleKey)
    (q : Queue) : bool :=
  negb (bool_decide (k ∈ in_flight s)) &&
  (bool_decide (policy = SequentialReplay) ||
   match first_entry q with Some (_, p) => pc_resumed p | None => false end ||
   match cooldown_until s !! k with Some until => until <=? now | None => true end).

Definition due_keys (policy : ExecutionPolicy) (activation : ActivationId) (now : N)
    (ready : BranchId → bool) (s : SchedulerState) : list ScheduleKey :=
  (List.filter (λ kq,
    bool_decide (sk_activation kq.1 = activation) && ready (sk_branch kq.1) &&
    is_due policy now s kq.1 kq.2) (map_to_list (pending s))).*1.

(** The due keys with the newest position of their queue. *)
Definition ranked (s : SchedulerState) (due : list ScheduleKey) : list (ScheduleKey * ObservationPosition) :=
  omap (λ k, q ← pending s !! k; e ← last_entry q; Some (k, e.1)) due.

Definition next_key (policy : ExecutionPolicy) (s : SchedulerState) (due : list ScheduleKey) :
    option ScheduleKey :=
  match policy with
  | SequentialReplay => fst <$> min_by ranked_cmp (ranked s due)
  | PolicyLive =>
      if 3 <=? recent_dispatches s then min_by (ticket_cmp (service_tickets s)) due
      else fst <$> max_by ranked_cmp (ranked s due)
  end.

Definition select_next (policy : ExecutionPolicy) (activation : ActivationId) (now : N)
    (ready : BranchId → bool) (s : SchedulerState) : option (ScheduleKey * PendingCandidate) :=
  k ← next_key policy s (due_keys policy activation now ready s);
  q ← pending s !! k;
  e ← first_entry q;
  Some (k, e.2).

Definition take_pending (k : ScheduleKey) (p : PendingCandidate) (s : SchedulerState) : SchedulerState :=
  let q := delete (fr_trigger_position (pc_candidate p)) (queue_of k s) in
  on_pending (if bool_decide (q = ∅) then delete k else <[k := q]>) s.

(** The reservation at the start of [start_one_due_matching], under one lock. *)
Definition reserve (policy : ExecutionPolicy) (activation : ActivationId) (now : N)
    (ready : BranchId → bool) (s : SchedulerState) :
    option (ScheduleKey * PendingCandidate * SchedulerState) :=
  if MAX_IN_FLIGHT_EVALUATIONS <=? active_count s then None
  else
    '(k, p) ← select_next policy activation now ready s;
    Some (k, p, on_flight (λ f, {[ k ]} ∪ f) (active_count s + 1) (take_pending k p s)).

(** ** After the reservation *)

Definition restore_pending (k : ScheduleKey) (p : PendingCandidate) (s : SchedulerState) : SchedulerState :=
  let q := queue_of k s in
  if negb (pc_resumed p) && windowed (pc_compiled p) && has_fresh q then
    on_pending (<[k := q]>) s
  else
    let position := fr_trigger_position (pc_candidate p) in
    on_pending (<[k := match q !! position with Some _ => q | None => <[position := p]> q end]>) s.

Definition defer_candidate (k : ScheduleKey) (p : PendingCandidate) (retry_at : N) (s : SchedulerState) :
    SchedulerState :=
  restore_pending k p (on_cooldown (<[k := retry_at]>) s).

Definition clear_ticket_if_idle (k : ScheduleKey) (s : SchedulerState) : SchedulerState :=
  if bool_decide (queue_of k s = ∅) then on_tickets (delete k) s else s.

Definition mark_scheduler_started (k : ScheduleKey) (now cooldown_ms : N) (policy : ExecutionPolicy)
    (s : SchedulerState) : SchedulerState :=
  let s := if bool_decide (queue_of k s = ∅) then on_tickets (delete k) s else take_ticket k s in
  let s :=
    match policy with
    | PolicyLive =>
        set_dispatches (if 3 <=? recent_dispatches s then 0 else recent_dispatches s + 1) s
    | SequentialReplay => s
    end in
  on_cooldown (<[k := sat_add now (N.min U64_MAX cooldown_ms)]>) s.

(** [persist_activation]: the work of older generations of a definition. *)
Definition keeps_activation (definition_id : string) (activation : option EffectiveActivation)
    (k : ScheduleKey) : bool :=
  negb (String.eqb (a_definition_id (sk_activation k)) definition_id) ||
  match activation with Some a => bool_decide (sk_activation k = ea_id a) | None => false end.

Definition retain_activation (definition_id : string) (activation : option EffectiveActivation)
    (s : SchedulerState) : SchedulerState :=
  let keep := keeps_activation definition_id activation in
  on_releases (filter (λ kv, keep kv.1 = true))
    (on_cooldown (filter (λ kv, keep kv.1 = true)) (on_pending (filter (λ kv, keep kv.1 = true)) s)).

(** [apply_source_page]: the queues of branches whose window was reset. *)
Definition drop_branches (activation : ActivationId) (reset : list BranchId) (s : SchedulerState) :
    SchedulerState :=
  on_pending (filter (λ kq, negb (bool_decide (sk_activation kq.1 = activation)) ||
                            negb (bool_decide (sk_branch kq.1 ∈ reset)) = true)) s.

(** ** The guard of a reservation *)

(** What the guard does when it is dropped before the evaluation is finished:
    the closure of [start_model] restores a candidate under the saved claim. *)
Record SafeRelease := { rl_pending : PendingCandidate; rl_claimed : ClaimedCandidate }.

Record InFlightGuard := {
  g_key : ScheduleKey;
  g_finished : bool;
  g_release_branch_on_drop : bool;
  g_safe_release : option SafeRelease
}.

Definition guard_new (k : ScheduleKey) (p : PendingCandidate) : InFlightGuard :=
  {| g_key := k; g_finished := false; g_release_branch_on_drop := is_local (pc_compiled p);
     g_safe_release := None |}.

(** The assignments to the two fields that change. *)
Definition set_guard (release : bool) (r : option SafeRelease) (g : InFlightGuard) : InFlightGuard :=
  {| g_key := g_key g; g_finished := g_finished g; g_release_branch_on_drop := release;
     g_safe_release := r |}.

(** [pending.resumed = true] *)
Definition release_pending (p : PendingCandidate) : PendingCandidate :=
  {| pc_candidate := pc_candidate p; pc_compiled := pc_compiled p; pc_resumed := true |}.

Definition guard_finish (g : InFlightGuard) (s : SchedulerState) : InFlightGuard * SchedulerState :=
  if g_finished g then (g, s)
  else
    ({| g_key := g_key g; g_finished := true; g_release_branch_on_drop := g_release_branch_on_drop g;
        g_safe_release := None |},
     on_flight (λ f, f ∖ {[ g_key g ]}) (active_count s - 1) s).

(** The closure of [start_model], given what the store answers. *)
Definition run_release (k : ScheduleKey) (r : SafeRelease) (released : result ClaimOutcome StoreError)
    (s : SchedulerState) : SchedulerState :=
  match released with
  | Ok Stale => s
  | Ok Current => restore_pending k (rl_pending r) s
  | Err _ => restore_pending k (rl_pending r) (on_releases (<[k := rl_claimed r]>) s)
  end.

(** [Drop]; [released] is the answer of the store, should it be asked. *)
Definition guard_drop (g : InFlightGuard) (released : result ClaimOutcome StoreError)
    (s : SchedulerState) : SchedulerState :=
  if g_release_branch_on_drop g then
    let s :=
      if negb (g_finished g) then
        match g_safe_release g with Some r => run_release (g_key g) r released s | None => s end
      else s in
    (guard_finish g s).2
  else if negb (g_finished g) then on_flight id (active_count s - 1) s
  else s.
End scheduler.
