(* ===== verification/Engine.v ===== *)
(** * Evaluation tasks (crates/antiburn-checks/src/engine.rs, engine/model.rs,
    engine_local.rs)

    What the engine does with a reserved candidate: it claims it, prepares the
    requests, records every dispatch before it is sent, settles the answers and
    submits the assessment; or it evaluates a check without a model.  The store
    and the evaluator are behind calls, the scheduler and the guard of the
    reservation are the state of the process. *)

From stdpp Require Import gmap.
From S2P Require Import Prelude Program RustString Json Diagnostics Expression Budget Provenance Scalars Evaluator Fit Domain Template Decision Check Preparation Lifecycle Selection BoundedJson Prepared Results Actions Progress Scheduler.

#[local] Open Scope N_scope.

(** ** Data *)

(** decision.rs *)
Record DecisionInput `{SerdeNumber} := { di_decision : string; di_input : Value }.

Inductive PreparationValidationPurpose := PurposeDispatch | PurposePublication.

Inductive EvaluationFailureCode :=
| ECAuthenticationRejected | ECRateLimited | ECProviderOverloaded | ECProviderUnavailable
| ECDeliveryUnknown | ECInvalidResponse | ECContextRejected | ECInvalidRequest | ECCancelled
| ECStorageFailure | ECInvalidDecision | ECActionFailed.

Record EvaluationFailure := {
  ef_code : EvaluationFailureCode;
  ef_kind : AttemptFailure;
  ef_detail : string;
  ef_attempts : N
}.

Record EvaluationDiagnostic := { ed_code : EvaluationFailureCode; ed_detail : string }.

Inductive RunOutcome :=
| RunAccepted | RunDeferred | RunStale | RunSkipped
| RunNotAssessed (detail : string) | RunFailed (detail : string) | RunLimitReached.

Record RunSettlement := { rs_outcome : RunOutcome; rs_attempts : N; rs_new_intents : N }.

Record EvaluationTaskError := {
  te_source : StoreError;
  te_attempts : N;
  te_new_intents : N;
  te_intent_commit_uncertain : bool
}.

(** ** Calls

    The methods of [CheckStore] and [DecisionEvaluator] that a task uses.  The
    future of [evaluate_prepared] is polled as soon as it is awaited, so it is
    one call that may send the request and one that waits for the answer; a
    future may be dropped where it waits, and before its first poll. *)
Section calls.
Context `{SerdeNumber}.

Inductive engine_call : Type → Type :=
| LoadTerminalCandidateIds (ids : list (list N)) : engine_call (result (list (list N)) StoreError)
| ReleasePreDispatchClaim (c : ClaimedCandidate) : engine_call (result ClaimOutcome StoreError)
| ClaimDue (c : FrozenCandidate) (now : N) (bypass_cooldown : bool) :
    engine_call (result CandidateClaim StoreError)
| LoadDecisionProgress (c : ClaimedCandidate) : engine_call (result DecisionProgress StoreError)
| LoadPreparation (c : ClaimedCandidate) : engine_call (result (option PreparationRecord) StoreError)
| RecordPreparation (c : ClaimedCandidate) (r : PreparationRecord) :
    engine_call (result ClaimOutcome StoreError)
| RecordLocalStart (c : ClaimedCandidate) (now cooldown : N) (p : LocalPreparation) :
    engine_call (result ClaimOutcome StoreError)
| RecordPreparationRejection (c : ClaimedCandidate) (f : PreparationFailure) :
    engine_call (result ClaimOutcome StoreError)
| RecordDispatchIntent (c : ClaimedCandidate) (now cooldown : N) (a : DecisionAttempt) :
    engine_call (result ClaimOutcome StoreError)
| RecordAttemptFailure (c : ClaimedCandidate) (a : DecisionAttempt) (kind : AttemptFailure)
    (d : EvaluationDiagnostic) : engine_call (result ClaimOutcome StoreError)
| RecordDecisionAnswer (c : ClaimedCandidate) (a : DecisionAttempt) (answer : DecisionResult) :
    engine_call (result ClaimOutcome StoreError)
| Accept (a : AssessmentAcceptance) : engine_call (result AcceptanceOutcome StoreError)
| RecordEvaluationFailure (c : ClaimedCandidate) (d : EvaluationDiagnostic) :
    engine_call (result ClaimOutcome StoreError)
| RecordNotAssessed (c : ClaimedCandidate) (detail : string) :
    engine_call (result ClaimOutcome StoreError)
| LocalExecutionIsCurrent (a : EffectiveActivation) : engine_call bool
| Prepare (a : EffectiveActivation) (inputs : list DecisionInput) (b : EvaluationBudget) :
    engine_call (result PreparedAssessment PreparationFailure)
| PreparationRecorded (r : PreparationRecord) : engine_call unit
| ValidatePrepared (a : EffectiveActivation) (p : PreparedAssessment)
    (purpose : PreparationValidationPurpose) : engine_call (result unit PreparationFailure)
| Send (a : EffectiveActivation) (c : FrozenCandidate) (p : PreparedAssessment)
    (attempt : DecisionAttempt) : engine_call unit
| Receive (attempt : DecisionAttempt) : engine_call (result DecisionResult EvaluationFailure)
| Suspend : engine_call unit.

(** The guard of the task and the scheduler of the engine. *)
Definition Local : Type := InFlightGuard * SchedulerState.

Definition task (A : Type) : Type := prog engine_call Local A.

(** What starting a reserved candidate gives: [Started] holds the future. *)
Inductive StartOutcome :=
| StartNotDue
| StartStale
| Started (future : task (result RunSettlement EvaluationTaskError)).

(** ** Sections under the lock of the scheduler, and the guard *)

Definition on_scheduler (f : InFlightGuard → SchedulerState → SchedulerState) : task unit :=
  pupdate (λ '(g, s), (g, f g s)).

Definition on_guard (f : InFlightGuard → InFlightGuard) : task unit :=
  pupdate (λ '(g, s), (f g, s)).

Definition finish : task unit := pupdate (λ '(g, s), guard_finish g s).

Definition restore_candidate (p : PendingCandidate) : task unit :=
  on_scheduler (λ g, restore_pending (g_key g) p).

Definition clear_if_idle : task unit := on_scheduler (λ g, clear_ticket_if_idle (g_key g)).

Definition set_release (b : bool) : task unit := on_guard (λ g, set_guard b (g_safe_release g) g).

Definition disarm (b : bool) : task unit := on_guard (set_guard b None).

(** [Drop] of the guard.  The closure it may run releases the claim, then
    changes the scheduler; only then is the reservation given back.  The closure
    is taken out of the guard, which nothing else can see any more. *)
Definition drop_guard : task unit :=
  call! g := atomically (λ l : Local, (l.1, l)) in
  if g_release_branch_on_drop g then
    run!
      (if negb (g_finished g) then
         match g_safe_release g with
         | Some r =>
             call! released := pcall (ReleasePreDispatchClaim (rl_claimed r)) in
             pupdate (λ '(g, s), (set_guard true None g, run_release (g_key g) r released s))
         | None => Ret tt
         end
       else Ret tt);
    finish
  else if negb (g_finished g) then on_scheduler (λ _ s, on_flight id (active_count s - 1) s)
  else Ret tt.

(** [restore_pre_dispatch] *)
Definition restore_pre_dispatch (pending : PendingCandidate) (claimed : ClaimedCandidate)
    (error : StoreError) : task StoreError :=
  call! released := pcall (ReleasePreDispatchClaim claimed) in
  call! error :=
    match released with
    | Ok Current => run! restore_candidate pending; Ret error
    | Ok Stale => Ret error
    | Err release_error =>
        run! on_scheduler (λ g s, restore_pending (g_key g) pending
               (on_releases (<[g_key g := claimed]>) s));
        Ret {| store_message := store_message error +:+ ("; pre-dispatch claim release: " +:+
                                store_message release_error) |}
    end in
  run! finish;
  Ret error.

(** A future that is ready when it is first polled. *)
Definition ready (r : result RunSettlement EvaluationTaskError) :
    task (result RunSettlement EvaluationTaskError) :=
  run! pcall Suspend; Ret r.

Definition task_error (source : StoreError) (attempts new_intents : N) : EvaluationTaskError :=
  {| te_source := source; te_attempts := attempts; te_new_intents := new_intents;
     te_intent_commit_uncertain := false |}.

(** The outcome of a claim-bound write: a stale claim overrides it. *)
Definition unless_stale (recorded : ClaimOutcome) (o : RunOutcome) : RunOutcome :=
  match recorded with Stale => RunStale | Current => o end.

Definition acceptance_outcome (a : AcceptanceOutcome) : RunOutcome :=
  match a with
  | Accepted | AlreadyAccepted => RunAccepted
  | Deferred => RunDeferred
  | AcceptanceStale => RunStale
  end.
End calls.

Definition terminal_diagnostic (t : DecisionProgressTerminal) : EvaluationDiagnostic :=
  match t with
  | TUnresolvedIntent =>
      {| ed_code := ECDeliveryUnknown;
         ed_detail := "An earlier decision dispatch has no settled delivery outcome. Automatic retry is blocked." |}
  | TUnknown =>
      {| ed_code := ECDeliveryUnknown;
         ed_detail := "Decision delivery is unknown. Automatic retry is blocked." |}
  | TPermanent =>
      {| ed_code := ECInvalidDecision; ed_detail := "Decision evaluation failed permanently." |}
  | TAttemptsExhausted =>
      {| ed_code := ECProviderUnavailable; ed_detail := "Decision retries are exhausted." |}
  end.

(** ** Preparation before a dispatch *)

Section engine.
Context `{SerdeNumber, UnicodeData, JsonDeserializer, !RecordWriter}.

(** [local_condition_failure] (engine_local.rs) *)
Definition local_condition_failure (compiled : CompiledCheck) (candidate : FrozenCandidate) :
    option PreparationFailure :=
  let failure code detail :=
    Some {| pf_code := code; pf_detail := detail; pf_report := None; pf_context := context_default |} in
  match evaluate_trigger_condition compiled (fc_value (fr_context candidate)) with
  | Matched => None
  | Preparation.ConditionFalse => failure Fit.ConditionFalse "condition was false"
  | ConditionUnavailable =>
      failure InputUnavailable "Top-level condition depends on unavailable evidence."
  | ConditionFailed detail => failure InvalidInput detail
  end.

Definition incompatible_preparation (detail : string) : PreparationFailure :=
  {| pf_code := IncompatibleProfile; pf_detail := detail; pf_report := None;
     pf_context := context_default |}.

(** A bounded rejection is a rejection, so the last branch is not reachable. *)
Definition bounded_failure (f : PreparationFailure) : PreparationFailure :=
  match bounded_preparation_record (RecordRejected f) with
  | RecordRejected f => f
  | _ => f
  end.

Definition input_failure (block : DecisionBlock) (code : PreparationFailureCode) (detail : string) :
    PreparationFailure :=
  {| pf_code := code; pf_detail := detail; pf_report := None;
     pf_context :=
       {| c_decision := Some (d_name block);
          c_field := Some ("decisions." +:+ (d_name block +:+ ".input"));
          c_input_path := None; c_no_fit_reason := None; c_budget := None |} |}.

(** The loop over the declared decisions, which share one budget. *)
Fixpoint prepare_inputs (blocks : list DecisionBlock) (candidate : FrozenCandidate)
    (inputs : list DecisionInput) (s : EvalState) :
    result (list DecisionInput * EvaluationBudget) PreparationFailure :=
  match blocks with
  | [] => Ok (inputs, budget s)
  | block :: blocks =>
      let '(outcome, s) := prepare_decision_input_with_budget block candidate s in
      match outcome with
      | PreparedReady input =>
          prepare_inputs blocks candidate
            (inputs ++ [{| di_decision := d_name block; di_input := input |}])%list s
      | PreparedUnavailable detail => Err (input_failure block InputUnavailable detail)
      | PreparedFailed detail => Err (input_failure block InvalidInput detail)
      | PreparedResourceLimit detail => Err (input_failure block PreparationResourceLimit detail)
      end
  end.

Definition prepare_all_inputs (compiled : CompiledCheck) (candidate : FrozenCandidate) :
    result (list DecisionInput * EvaluationBudget) PreparationFailure :=
  match local_condition_failure compiled candidate with
  | Some failure => Err failure
  | None =>
      let? _ := map_err (λ e, incompatible_preparation (result_message e))
        (measure_result_capacity (cc_decisions compiled) (question_requirements compiled)) in
      prepare_inputs (cc_decisions compiled) candidate [] fresh_state
  end.

Inductive PreflightOutcome :=
| PreflightReady (p : PreparedAssessment)
| PreflightSettled (s : RunSettlement)
| PreflightStale.

Definition declared_preparation (p : PreparedAssessment) (compiled : CompiledCheck) :
    result unit PreparationFailure :=
  map_err (λ e, incompatible_preparation (prepared_message e))
    (prepared_validate_for_declarations p (cc_decisions compiled)).

(** A preparation by the evaluator that leaves the shared budget alone. *)
Definition prepare_new (activation : EffectiveActivation) (pending : PendingCandidate) :
    task (result PreparedAssessment PreparationFailure) :=
  let! '(inputs, saved_budget) :=
    Ret (prepare_all_inputs (pc_compiled pending) (pc_candidate pending)) in
  let! prepared := pcall (Prepare activation inputs saved_budget) in
  if negb (bool_decide (pa_evaluation_budget prepared = saved_budget)) then
    Ret (Err (incompatible_preparation "Provider preparation changed the shared expression budget."))
  else
    Ret (let? _ := declared_preparation prepared (pc_compiled pending) in Ok prepared).

(** The saved preparation of the claim, or a new one, which is then saved; [None]
    when the claim is stale. *)
Definition claimed_preparation (activation : EffectiveActivation) (pending : PendingCandidate)
    (claimed : ClaimedCandidate) (attempts : N) (purpose : PreparationValidationPurpose) :
    task (result (option PreparationRecord) StoreError) :=
  let! saved := pcall (LoadPreparation claimed) in
  match saved with
  | Some saved => Ret (Ok (Some saved))
  | None =>
      if (0 <? attempts) || match purpose with PurposePublication => true | PurposeDispatch => false end
      then
        Ret (Ok (Some (RecordRejected
          (incompatible_preparation "The original preparation is unavailable."))))
      else
        call! prepared := prepare_new activation pending in
        let record := bounded_preparation_record
          match prepared with Ok p => RecordReady p | Err f => RecordRejected f end in
        let! recorded := pcall (RecordPreparation claimed record) in
        match recorded with
        | Stale => Ret (Ok None)
        | Current => run! pcall (PreparationRecorded record); Ret (Ok (Some record))
        end
  end.

(** [prepare_claimed] *)
Definition prepare_claimed (activation : EffectiveActivation) (pending : PendingCandidate)
    (claimed : ClaimedCandidate) (attempts : N) (purpose : PreparationValidationPurpose) :
    task (result PreflightOutcome StoreError) :=
  let! preparation := claimed_preparation activation pending claimed attempts purpose in
  match preparation with
  | None => Ret (Ok PreflightStale)
  | Some preparation =>
      call! prepared :=
        match preparation with
        | RecordReady p =>
            let! _ := Ret (declared_preparation p (pc_compiled pending)) in
            let! _ := pcall (ValidatePrepared activation p purpose) in
            Ret (Ok p)
        | RecordRejected failure => Ret (Err failure)
        | RecordLocal _ =>
            Ret (Err (incompatible_preparation "A local preparation cannot evaluate a model decision."))
        end in
      match prepared with
      | Ok p => Ret (Ok (PreflightReady p))
      | Err failure =>
          let failure := bounded_failure failure in
          let! recorded := pcall (RecordPreparationRejection claimed failure) in
          Ret (Ok (PreflightSettled
            {| rs_outcome := unless_stale recorded
                 match pf_code failure with
                 | Fit.ConditionFalse => RunSkipped
                 | _ => RunNotAssessed (pf_detail failure)
                 end;
               rs_attempts := attempts; rs_new_intents := 0 |}))
      end
  end.

(** ** One attempt *)

(** [validate_answer]; [None] is the panic of [expect]. *)
Definition validate_answer (activation : EffectiveActivation) (attempt : DecisionAttempt)
    (answer : DecisionResult) (progress : DecisionProgress) :
    option (result DecisionResult EvaluationFailure) :=
  let invalid {A} (detail : string) : result A EvaluationFailure :=
    Err {| ef_code := ECInvalidDecision; ef_kind := FailPermanent; ef_detail := detail;
           ef_attempts := da_number attempt |} in
  block ← List.find (λ b, String.eqb (d_name b) (da_decision attempt)) (cc_decisions (ea_compiled activation));
  Some
    match result_validate_for_declaration answer block (question_requirements (ea_compiled activation)) with
    | Err e => invalid (result_message e)
    | Ok _ =>
        if negb (dr_attempts answer =? da_number attempt) then
          invalid "The answer attempt count does not match its durable intent."
        else
          let previous := omap (λ row,
            match sa_outcome row with Answer a => Some a | _ => None end) (dp_attempts progress) in
          match measure_decision_results_with_next previous answer with
          | Err e => invalid (result_message e)
          | Ok _ => Ok answer
          end
    end.

Definition failure_outcome (kind : AttemptFailure) : DecisionAttemptOutcome :=
  match kind with
  | FailSafeTransient => SafeTransient
  | FailUnknown => AttemptUnknown
  | FailPermanent => Permanent
  end.

(** [settle_decision_attempt] *)
Definition settle_decision_attempt (activation : EffectiveActivation) (claimed : ClaimedCandidate)
    (attempt : DecisionAttempt) (evaluated : result DecisionResult EvaluationFailure)
    (progress : DecisionProgress) :
    task (result (ClaimOutcome * DecisionAttemptOutcome * option EvaluationDiagnostic) StoreError) :=
  call! evaluated :=
    match evaluated with
    | Ok answer =>
        match validate_answer activation attempt answer progress with
        | Some r => Ret r
        | None => Halt Panics
        end
    | Err failure => Ret (Err failure)
    end in
  match evaluated with
  | Ok answer =>
      let! recorded := pcall (RecordDecisionAnswer claimed attempt answer) in
      Ret (Ok (recorded, Answer answer, None))
  | Err failure =>
      let diagnostic := {| ed_code := ef_code failure; ed_detail := ef_detail failure |} in
      let! recorded := pcall (RecordAttemptFailure claimed attempt (ef_kind failure) diagnostic) in
      Ret (Ok (recorded, failure_outcome (ef_kind failure), Some diagnostic))
  end.

(** ** Publication

    Also the recovery publishes, so the state of the process is open here. *)

(** The plan of the status actions with the budget of the preparation. *)
Definition plan_with_budget (compiled : CompiledCheck) (claimed : ClaimedCandidate)
    (ctx : Value) (evaluated : EvaluatedAssessment) (b : EvaluationBudget) :
    result ActionPlan PlanningStop :=
  (plan_status_actions_with_budget (cc_actions compiled) ctx evaluated (cl_prior_status claimed)
     {| budget := b; next_root := 0 |}).1.

(** The tail of a publication: the plan is submitted, or its failure is saved. *)
Definition submit {L : Type} (claimed : ClaimedCandidate) (evaluated : EvaluatedAssessment)
    (plan : result ActionPlan PlanningStop) : prog engine_call L (result RunOutcome StoreError) :=
  match plan with
  | Err PlanningPanicked => Halt Panics
  | Err (PlanningFailed e) =>
      let! recorded := pcall (RecordEvaluationFailure claimed
        {| ed_code := ECActionFailed; ed_detail := planning_message e |}) in
      Ret (Ok (unless_stale recorded (RunFailed (planning_message e))))
  | Ok actions =>
      let! accepted := pcall (Accept
        {| aa_claimed := claimed; aa_evaluated := evaluated; aa_actions := actions |}) in
      Ret (Ok (acceptance_outcome accepted))
  end.

(** [publish_model] *)
Definition publish_model {L : Type} (activation : EffectiveActivation) (claimed : ClaimedCandidate)
    (prepared : PreparedAssessment) (evaluated : EvaluatedAssessment) :
    prog engine_call L (result RunOutcome StoreError) :=
  call! valid := pcall (ValidatePrepared activation prepared PurposePublication) in
  match valid with
  | Err failure =>
      let failure := bounded_failure failure in
      let! recorded := pcall (RecordPreparationRejection claimed failure) in
      Ret (Ok (unless_stale recorded (RunNotAssessed (pf_detail failure))))
  | Ok _ =>
      submit claimed evaluated
        (plan_with_budget (ea_compiled activation) claimed
           (fc_value (fr_context (cl_candidate claimed))) evaluated (pa_evaluation_budget prepared))
  end.

(** ** The loop over the attempts

    What is constant in [run_model], and what a turn of its loop changes. *)
Record RunEnv := {
  re_activation : EffectiveActivation;
  re_candidate : FrozenCandidate;
  re_claimed : ClaimedCandidate;
  re_prepared : PreparedAssessment;
  re_maximum_new_intents : N;
  re_now : N;
  re_cooldown : N;
  re_policy : ExecutionPolicy
}.

Record LoopState := {
  ls_progress : DecisionProgress;
  ls_first_intent : bool;
  ls_last_failure : option EvaluationDiagnostic;
  ls_attempts : N;
  ls_new_intents : N
}.

Definition counts_error (st : LoopState) (source : StoreError) : EvaluationTaskError :=
  task_error source (ls_attempts st) (ls_new_intents st).

(** A turn ends the loop, with the counts it has reached, or goes on. *)
Inductive Turn :=
| Done (r : result RunOutcome EvaluationTaskError) (st : LoopState)
| Again (st : LoopState).

Definition done_outcome (st : LoopState) (r : result RunOutcome StoreError) : task Turn :=
  Ret (Done (map_err (counts_error st) r) st).

Section run.
Variable env : RunEnv.

Definition run_declarations : list DecisionBlock := cc_decisions (ea_compiled (re_activation env)).
Definition run_requirements : list QuestionRequirements :=
  question_requirements (ea_compiled (re_activation env)).

Definition terminal_turn (st : LoopState) (t : DecisionProgressTerminal) : task Turn :=
  run! set_release false;
  let diagnostic := default (terminal_diagnostic t) (ls_last_failure st) in
  call! recorded := pcall (RecordEvaluationFailure (re_claimed env) diagnostic) in
  done_outcome st (let? recorded := recorded in
    Ok (unless_stale recorded (RunFailed (ed_detail diagnostic)))).

(** What is left after an attempt was sent. *)
Definition settle_turn (st : LoopState) (attempt : DecisionAttempt)
    (evaluated : result DecisionResult EvaluationFailure) : task Turn :=
  call! settled := settle_decision_attempt (re_activation env) (re_claimed env) attempt evaluated (ls_progress st) in
  match settled with
  | Err source => done_outcome st (Err source)
  | Ok (Stale, _, _) => done_outcome st (Ok RunStale)
  | Ok (Current, outcome, diagnostic) =>
      let st :=
        {| ls_progress :=
             {| dp_attempts :=
                  dp_attempts (ls_progress st) ++ [{| sa_attempt := attempt; sa_outcome := outcome |}] |};
           ls_first_intent := ls_first_intent st; ls_last_failure := diagnostic;
           ls_attempts := ls_attempts st; ls_new_intents := ls_new_intents st |} in
      match validate_decision_progress run_declarations run_requirements (ls_progress st) with
      | Err source => done_outcome st (Err source)
      | Ok settled =>
          match vp_state settled with
          | PNext _ _ => run! set_release true; run! pcall Suspend; Ret (Again st)
          | PComplete _ => run! disarm true; run! pcall Suspend; Ret (Again st)
          | PTerminal _ => Ret (Again st)
          end
      end
  end.

(** The intent is recorded before the request is sent.  A failed write can have
    committed, so the branch stays reserved. *)
Definition dispatch_turn (st : LoopState) (attempt : DecisionAttempt) : task Turn :=
  run! set_release false;
  call! intent := pcall (RecordDispatchIntent (re_claimed env) (re_now env) (re_cooldown env) attempt) in
  match intent with
  | Err source =>
      Ret (Done (Err {| te_source := source; te_attempts := ls_attempts st;
                        te_new_intents := ls_new_intents st; te_intent_commit_uncertain := true |}) st)
  | Ok Stale => done_outcome st (Ok RunStale)
  | Ok Current =>
      let attempts := ls_attempts st + 1 in
      run!
        (if ls_first_intent st && (attempts =? 1) then
           on_scheduler (λ g, mark_scheduler_started (g_key g) (re_now env) (re_cooldown env) (re_policy env))
         else Ret tt);
      run! pcall (Send (re_activation env) (re_candidate env) (re_prepared env) attempt);
      call! evaluated := pcall (Receive attempt) in
      settle_turn
        {| ls_progress := ls_progress st; ls_first_intent := false;
           ls_last_failure := ls_last_failure st; ls_attempts := attempts;
           ls_new_intents := ls_new_intents st + 1 |} attempt evaluated
  end.

Definition next_turn (st : LoopState) (attempt : DecisionAttempt) (unfinished : N) : task Turn :=
  let remaining := re_maximum_new_intents env - ls_new_intents st in
  if (remaining =? 0) || (ls_first_intent st && (remaining <? unfinished)) then
    call! recorded :=
      pcall (RecordNotAssessed (re_claimed env) "Replay provider attempt limit reached.") in
    done_outcome st (let? recorded := recorded in Ok (unless_stale recorded RunLimitReached))
  else
    call! valid := pcall (ValidatePrepared (re_activation env) (re_prepared env) PurposeDispatch) in
    match valid with
    | Err failure =>
        let failure := bounded_failure failure in
        call! recorded := pcall (RecordPreparationRejection (re_claimed env) failure) in
        done_outcome st (let? recorded := recorded in
          Ok (unless_stale recorded (RunNotAssessed (pf_detail failure))))
    | Ok _ => dispatch_turn st attempt
    end.

Definition run_turn (st : LoopState) : task Turn :=
  match validate_decision_progress run_declarations run_requirements (ls_progress st) with
  | Err source => done_outcome st (Err source)
  | Ok validated =>
      if negb (vp_attempts validated =? ls_attempts st) then
        done_outcome st (store_error "saved attempt count changed during evaluation")
      else
        match vp_state validated with
        | PComplete evaluated =>
            run! disarm true;
            call! r := publish_model (re_activation env) (re_claimed env) (re_prepared env) evaluated in
            done_outcome st r
        | PTerminal t => terminal_turn st t
        | PNext attempt unfinished => next_turn st attempt unfinished
        end
  end.

(** Each turn that goes on has added a row to a valid progress, so there are at
    most two for each decision; see [EngineFacts.run_loop_safe]. *)
Fixpoint run_loop (fuel : nat) (st : LoopState) : task (result RunOutcome EvaluationTaskError * LoopState) :=
  match fuel with
  | O => Halt OutOfFuel
  | S fuel =>
      call! turn := run_turn st in
      match turn with
      | Done r st => Ret (r, st)
      | Again st => run_loop fuel st
      end
  end.

Definition run_fuel : nat := S (2 * length run_declarations).

Definition run_model (progress : DecisionProgress) (attempts : N) :
    task (result RunOutcome EvaluationTaskError * LoopState) :=
  run_loop run_fuel
    {| ls_progress := progress; ls_first_intent := true; ls_last_failure := None;
       ls_attempts := attempts; ls_new_intents := 0 |}.

(** The future of [start_model]: the guard is dropped when it ends. *)
Definition model_future (progress : DecisionProgress) (attempts : N) :
    task (result RunSettlement EvaluationTaskError) :=
  run! pcall Suspend;
  call! '(r, st) := run_model progress attempts in
  match r with
  | Ok outcome =>
      run! finish;
      run! drop_guard;
      Ret (Ok {| rs_outcome := outcome; rs_attempts := ls_attempts st; rs_new_intents := ls_new_intents st |})
  | Err error => run! drop_guard; Ret (Err error)
  end.
End run.

(** ** Starting a model check *)

Definition effective_cooldown (policy : ExecutionPolicy) (compiled : CompiledCheck) : N :=
  match policy with SequentialReplay => 0 | PolicyLive => tr_cooldown (cc_trigger compiled) end.

(** [pending.resumed |= b] *)
Definition resume_if (b : bool) (p : PendingCandidate) : PendingCandidate :=
  {| pc_candidate := pc_candidate p; pc_compiled := pc_compiled p; pc_resumed := pc_resumed p || b |}.

(** Saved rows that do not validate end the candidate. *)
Definition start_invalid (claimed : ClaimedCandidate) (progress : DecisionProgress) (error : StoreError) :
    task (result StartOutcome StoreError) :=
  call! recorded := pcall (RecordEvaluationFailure claimed
    {| ed_code := ECInvalidDecision; ed_detail := store_message error |}) in
  run! finish;
  let attempts := N.of_nat (length (dp_attempts progress)) in
  Ret (Ok (Started (ready
    match recorded with
    | Err source => Err (task_error source attempts 0)
    | Ok recorded =>
        Ok {| rs_outcome := unless_stale recorded (RunFailed (store_message error));
              rs_attempts := attempts; rs_new_intents := 0 |}
    end))).

Definition start_model (activation : EffectiveActivation) (now maximum_new_intents : N)
    (policy : ExecutionPolicy) (pending : PendingCandidate) (claimed : ClaimedCandidate) :
    task (result StartOutcome StoreError) :=
  call! loaded := pcall (LoadDecisionProgress claimed) in
  match loaded with
  | Err error =>
      call! error := restore_pre_dispatch (release_pending pending) claimed error in Ret (Err error)
  | Ok progress =>
      match validate_decision_progress (cc_decisions (pc_compiled pending))
              (question_requirements (pc_compiled pending)) progress with
      | Err error => start_invalid claimed progress error
      | Ok validated =>
          let attempts := vp_attempts validated in
          let pending := resume_if (0 <? attempts) pending in
          let purpose :=
            match vp_state validated with PComplete _ => PurposePublication | _ => PurposeDispatch end in
          call! preflight := prepare_claimed activation pending claimed attempts purpose in
          match preflight with
          | Err error =>
              call! source := restore_pre_dispatch pending claimed error in
              Ret (Ok (Started (ready (Err (task_error source attempts 0)))))
          | Ok PreflightStale => run! finish; Ret (Ok StartStale)
          | Ok (PreflightSettled settlement) =>
              run! clear_if_idle; run! finish; Ret (Ok (Started (ready (Ok settlement))))
          | Ok (PreflightReady prepared) =>
              run! on_guard (set_guard true
                     (Some {| rl_pending := release_pending pending; rl_claimed := claimed |}));
              Ret (Ok (Started (model_future
                {| re_activation := activation; re_candidate := pc_candidate pending;
                   re_claimed := claimed; re_prepared := prepared;
                   re_maximum_new_intents := maximum_new_intents; re_now := now;
                   re_cooldown := effective_cooldown policy (pc_compiled pending);
                   re_policy := policy |} progress attempts)))
          end
      end
  end.

(** ** Starting a local check (engine_local.rs) *)

(** The future of [start_local]; an early error drops the guard unfinished. *)
Definition local_future (activation : EffectiveActivation) (pending : PendingCandidate)
    (claimed : ClaimedCandidate) (prepared : LocalPreparation) :
    task (result RunSettlement EvaluationTaskError) :=
  run! pcall Suspend;
  call! r :=
    (call! current := pcall (LocalExecutionIsCurrent activation) in
     if negb current then Ret (Ok RunDeferred)
     else
       let plan := plan_with_budget (pc_compiled pending) claimed
         (fc_value (fr_context (pc_candidate pending))) EvaluatedAssessment_local (evaluation_budget prepared) in
       match plan with
       | Ok _ =>
           call! current := pcall (LocalExecutionIsCurrent activation) in
           if negb current then Ret (Ok RunDeferred) else submit claimed EvaluatedAssessment_local plan
       | Err _ => submit claimed EvaluatedAssessment_local plan
       end) in
  match r with
  | Ok outcome =>
      run! finish;
      run! drop_guard;
      Ret (Ok {| rs_outcome := outcome; rs_attempts := 0; rs_new_intents := 0 |})
  | Err source => run! drop_guard; Ret (Err (task_error source 0 0))
  end.

Definition start_local (activation : EffectiveActivation) (now : N) (policy : ExecutionPolicy)
    (pending : PendingCandidate) (claimed : ClaimedCandidate) : task (result StartOutcome StoreError) :=
  call! current := pcall (LocalExecutionIsCurrent activation) in
  if negb current then
    call! released := pcall (ReleasePreDispatchClaim claimed) in
    match released with
    | Ok Current => run! restore_candidate pending; run! finish; Ret (Ok StartNotDue)
    | Ok Stale => run! clear_if_idle; run! finish; Ret (Ok StartStale)
    | Err error => call! error := restore_pre_dispatch pending claimed error in Ret (Err error)
    end
  else
    match local_condition_failure (pc_compiled pending) (pc_candidate pending) with
    | Some failure =>
        call! recorded := pcall (RecordPreparationRejection claimed failure) in
        match recorded with
        | Err error => call! error := restore_pre_dispatch pending claimed error in Ret (Err error)
        | Ok recorded =>
            run! clear_if_idle;
            run! finish;
            Ret (Ok (Started (ready (Ok
              {| rs_outcome := unless_stale recorded
                   match pf_code failure with
                   | Fit.ConditionFalse => RunSkipped
                   | _ => RunNotAssessed (pf_detail failure)
                   end;
                 rs_attempts := 0; rs_new_intents := 0 |}))))
        end
    | None =>
        let prepared := LocalPreparation_new now in
        let cooldown := effective_cooldown policy (pc_compiled pending) in
        call! started := pcall (RecordLocalStart claimed now cooldown prepared) in
        match started with
        | Err error => call! error := restore_pre_dispatch pending claimed error in Ret (Err error)
        | Ok Stale => run! clear_if_idle; run! finish; Ret (Ok StartStale)
        | Ok Current =>
            run! on_scheduler (λ g, mark_scheduler_started (g_key g) now cooldown policy);
            Ret (Ok (Started (local_future activation pending claimed prepared)))
        end
    end.

(** ** Starting a reserved candidate

    [start_one_due_matching] after the reservation. *)
Definition start_claimed (activation : EffectiveActivation) (now maximum_new_intents : N)
    (policy : ExecutionPolicy) (pending : PendingCandidate) : task (result StartOutcome StoreError) :=
  call! claim := pcall (ClaimDue (pc_candidate pending) now
    match policy with SequentialReplay => true | PolicyLive => false end) in
  match claim with
  | Err error => run! restore_candidate pending; run! finish; Ret (Err error)
  | Ok (ClaimNotDue retry_at) =>
      run! on_scheduler (λ g, defer_candidate (g_key g) pending retry_at);
      run! finish; Ret (Ok StartNotDue)
  | Ok ClaimStale => run! clear_if_idle; run! finish; Ret (Ok StartStale)
  | Ok (Claimed claimed) =>
      if is_local (pc_compiled pending) then start_local activation now policy pending claimed
      else start_model activation now maximum_new_intents policy pending claimed
  end.

Definition start_reserved (activation : EffectiveActivation) (now maximum_new_intents : N)
    (policy : ExecutionPolicy) (pending : PendingCandidate) : task (result StartOutcome StoreError) :=
  call! previous := atomically (λ l : Local, (pending_releases l.2 !! g_key l.1, l)) in
  match previous with
  | None => start_claimed activation now maximum_new_intents policy pending
  | Some previous =>
      call! released := pcall (ReleasePreDispatchClaim previous) in
      match released with
      | Err error => run! restore_candidate pending; run! finish; Ret (Err error)
      | Ok _ =>
          run! on_scheduler (λ g, on_releases (delete (g_key g)));
          start_claimed activation now maximum_new_intents policy pending
      end
  end.

(** The whole life of a reservation: it is started, and its future runs. *)
Definition evaluation (activation : EffectiveActivation) (now maximum_new_intents : N)
    (policy : ExecutionPolicy) (pending : PendingCandidate) : task unit :=
  call! started := start_reserved activation now maximum_new_intents policy pending in
  match started with
  | Ok (Started future) => call! _ := future in Ret tt
  | _ => Ret tt
  end.
End engine.
