(* ===== verification/Pages.v ===== *)
(** * Source pages (crates/antiburn-checks/src/engine.rs, engine_source_refresh.rs)

    The engine applies a page of source events to the progress of an activation:
    it selects candidates, drops those that a later event of the page makes
    stale, commits page, progress and candidates in one transaction of the
    store, and only then admits the candidates to the scheduler.  The progress
    in memory is behind a mutex that is held until the transaction has ended, so
    the part under the mutex is a function of that progress. *)

From stdpp Require Import gmap sorting.
From S2P Require Import Prelude Program RustString Diagnostics Expression Filters Domain Template Decision Check Lifecycle Json Scalars Provenance Evaluator Inventories Preparation Context Selection BoundedJson Prepared Messages Source Results Actions Progress Scheduler Engine Checkpoint.

#[local] Open Scope N_scope.

#[export] Instance ActivationId_countable : Countable ActivationId.
Proof.
  apply (inj_countable (λ a, {| sk_activation := a; sk_branch := {| branch_id := "" |} |})
           (λ k, Some (sk_activation k))).
  by intros [].
Defined.

(** ** Data *)

Section data.
Context `{SerdeNumber}.

Record CommittedSourceObservation := {
  co_cursor : PublicationCursor;
  co_identity : string;
  co_revision : N;
  co_observation : Observation;
  co_window_invalidated : bool
}.

Record BatchOutcome := {
  bo_observations : N;
  bo_candidates : N;
  bo_coalesced : N;
  bo_overflowed : N;
  bo_condition_outcomes : list (ObservationPosition * ConditionOutcome);
  bo_filter_outcomes : list (ObservationPosition * FilterDiagnostic)
}.
End data.

Inductive PageInvalidation :=
| InvUpsert (identity : string) (version : EvidenceVersion)
    (source_evidence_version : option EvidenceVersion)
| InvNativeUpsert (identity : string) (version : EvidenceVersion)
| InvRemoval (identity : string)
| InvBranch.

(** ** The calls of the engine's services *)

(** The work that a restart finds. *)
Inductive RecoveryWork `{SerdeNumber} :=
| WorkPending (candidate : FrozenCandidate) (resumed : bool)
| WorkAnswered (claimed : ClaimedCandidate) (evaluated : EvaluatedAssessment).

Record RecoveryRecord `{SerdeNumber} := { rr_activation : EffectiveActivation; rr_work : RecoveryWork }.

Section calls.
Context `{SerdeNumber}.

Inductive service_call : Type → Type :=
| Activate (definition_id : string) (t : LifecycleTransition)
    (activation : option EffectiveActivation) : service_call (result unit StoreError)
| LoadSourceProgress (a : EffectiveActivation) : service_call (result SourceProgress StoreError)
| ApplySourcePage (a : EffectiveActivation) (expected : SourceProgressHead) (page : SourceBatch)
    (observations : list CommittedSourceObservation) (next : SourceProgress)
    (candidates : list FrozenCandidate) : service_call (result unit StoreError)
| RecordOverflow (c : FrozenCandidate) : service_call (result unit StoreError)
| LoadRecovery (after : option (list N)) (limit : N) :
    service_call (result (list RecoveryRecord) StoreError)
| Evaluation {X : Type} (c : engine_call X) : service_call X.

(** The state that every thread shares is the scheduler. *)
Definition service (A : Type) : Type := prog service_call SchedulerState A.

(** A program of an evaluation as a part of a service. *)
Fixpoint evaluating {A} (p : prog engine_call SchedulerState A) : service A :=
  match p with
  | Ret a => Ret a
  | Atomic f k => Atomic f (λ x, evaluating (k x))
  | Call c k => Call (Evaluation c) (λ x, evaluating (k x))
  | Halt why => Halt why
  end.
End calls.

(** The progress in memory, by activation. *)
Notation Selectors := (gmap ActivationId SourceProgress).

(** ** Applying the events of a page *)

Section pages.
Context `{SerdeNumber, UnicodeData, JsonDeserializer, !CandidateDigest}.

(** [validate_source_page] *)
Fixpoint validate_events (previous : PublicationCursor) (l : list SourceEvent) :
    result PublicationCursor StoreError :=
  match l with
  | [] => Ok previous
  | e :: l =>
      if event_cursor e <=? previous
      then store_error "source page does not advance publication progress"
      else validate_events (event_cursor e) l
  end.

Definition validate_source_page (p : SourceProgress) (page : SourceBatch) : result unit StoreError :=
  let? previous := validate_events (publication_cursor p) (sb_events page) in
  if (sb_next page <? previous) ||
     negb (bool_decide (sb_events page = [])) && negb (sb_next page =? previous)
  then store_error "source page cursor does not match its final event"
  else Ok tt.

(** The state of the host that the capture works on. *)
Context {W : Type}.
Variable capture : PublicationCursor → Observation → SE W StoreError (option CurrentInventories).
Variable activation : EffectiveActivation.

(** What the loop over the events changes. *)
Record PageState := {
  ps_next : SourceProgress;
  ps_committed : list CommittedSourceObservation;
  ps_candidates : list (FrozenCandidate * nat * string);
  ps_conditions : list (ObservationPosition * ConditionOutcome);
  ps_filters : list (ObservationPosition * FilterDiagnostic);
  ps_invalidations : list (nat * BranchId * PageInvalidation);
  ps_resets : list BranchId;
  ps_host : W
}.

Inductive PageStop := PageFailed (e : StoreError) | PagePanicked.

Definition paging (A : Type) : Type := SE PageState PageStop A.

Definition page_update (f : PageState → PageState) : paging unit := λ p, (Ok tt, f p).

Definition set_next (next : SourceProgress) (p : PageState) : PageState :=
  {| ps_next := next; ps_committed := ps_committed p; ps_candidates := ps_candidates p;
     ps_conditions := ps_conditions p; ps_filters := ps_filters p;
     ps_invalidations := ps_invalidations p; ps_resets := ps_resets p; ps_host := ps_host p |}.

Definition on_selection_of (f : SelectionState → SelectionState) (p : PageState) : PageState :=
  set_next {| publication_cursor := publication_cursor (ps_next p);
              observation_position := observation_position (ps_next p);
              progress_selection := f (progress_selection (ps_next p)) |} p.

Definition push_invalidation (index : nat) (b : BranchId) (i : PageInvalidation) (p : PageState) :
    PageState :=
  {| ps_next := ps_next p; ps_committed := ps_committed p; ps_candidates := ps_candidates p;
     ps_conditions := ps_conditions p; ps_filters := ps_filters p;
     ps_invalidations := (ps_invalidations p ++ [(index, b, i)])%list;
     ps_resets := ps_resets p; ps_host := ps_host p |}.

Definition push_committed (o : CommittedSourceObservation) (p : PageState) : PageState :=
  {| ps_next := ps_next p; ps_committed := (ps_committed p ++ [o])%list;
     ps_candidates := ps_candidates p; ps_conditions := ps_conditions p; ps_filters := ps_filters p;
     ps_invalidations := ps_invalidations p; ps_resets := ps_resets p; ps_host := ps_host p |}.

Definition push_reset (b : BranchId) (p : PageState) : PageState :=
  {| ps_next := ps_next p; ps_committed := ps_committed p; ps_candidates := ps_candidates p;
     ps_conditions := ps_conditions p; ps_filters := ps_filters p;
     ps_invalidations := ps_invalidations p; ps_resets := b :: ps_resets p; ps_host := ps_host p |}.

(** The match on the outcome of a selection. *)
Definition push_outcome (index : nat) (identity : string) (o : Observation) (s : SelectionOutcome)
    (p : PageState) : PageState :=
  match s with
  | Candidate c =>
      {| ps_next := ps_next p; ps_committed := ps_committed p;
         ps_candidates := (ps_candidates p ++ [(c, index, identity)])%list;
         ps_conditions := ps_conditions p; ps_filters := ps_filters p;
         ps_invalidations := ps_invalidations p; ps_resets := ps_resets p; ps_host := ps_host p |}
  | ConditionFiltered c =>
      {| ps_next := ps_next p; ps_committed := ps_committed p; ps_candidates := ps_candidates p;
         ps_conditions := (ps_conditions p ++ [(ob_position o, c)])%list; ps_filters := ps_filters p;
         ps_invalidations := ps_invalidations p; ps_resets := ps_resets p; ps_host := ps_host p |}
  | FilterRejected d =>
      {| ps_next := ps_next p; ps_committed := ps_committed p; ps_candidates := ps_candidates p;
         ps_conditions := ps_conditions p; ps_filters := (ps_filters p ++ [(ob_position o, d)])%list;
         ps_invalidations := ps_invalidations p; ps_resets := ps_resets p; ps_host := ps_host p |}
  | WindowInvalidated => push_invalidation index (ob_branch o) InvBranch p
  | _ => p
  end.

(** [next.selection.apply_published_with_inventories(.., &mut || capture(..))?] *)
Definition select_published (cursor : PublicationCursor) (identity : string) (revision : N)
    (o : Observation) : paging SelectionOutcome := λ p,
  let '(r, w) := apply_published_with_inventories (capture cursor o) activation identity revision o
                   {| selection := progress_selection (ps_next p); host := ps_host p |} in
  let p := {| ps_next := {| publication_cursor := publication_cursor (ps_next p);
                            observation_position := observation_position (ps_next p);
                            progress_selection := selection w |};
              ps_committed := ps_committed p; ps_candidates := ps_candidates p;
              ps_conditions := ps_conditions p; ps_filters := ps_filters p;
              ps_invalidations := ps_invalidations p; ps_resets := ps_resets p; ps_host := host w |} in
  (match r with
   | Ok outcome => Ok outcome
   | Err (CaptureFailed e) => Err (PageFailed e)
   | Err Panicked => Err PagePanicked
   end, p).

(** [checked_add] of the last position *)
Definition next_position : paging ObservationPosition := λ p,
  let n := observation_position (ps_next p) in
  if U64_MAX <=? n then (Err (PageFailed {| store_message := "observation position is exhausted" |}), p)
  else
    (Ok (n + 1),
     set_next {| publication_cursor := publication_cursor (ps_next p);
                 observation_position := n + 1;
                 progress_selection := progress_selection (ps_next p) |} p).

(** The arm of an observation: an update that is not accepted is ignored, though
    it may bind the same projection to a new native version. *)
Definition apply_observation (index : nat) (cursor : PublicationCursor)
    (native : option EvidenceVersion) (identity : string) (revision : N) (draft : ObservationDraft) :
    paging SourceEvent := λ p,
  let s := progress_selection (ps_next p) in
  let b := dr_branch draft in
  if negb (accepts_update s b identity revision (dr_version draft)) then
    (do*
       match native with
       | Some version =>
           if is_normalized_duplicate s b identity revision (dr_version draft)
           then page_update (push_invalidation index b (InvNativeUpsert identity version))
           else ret tt
       | None => ret tt
       end;
     ret (SourceIgnored cursor)) p
  else
    (let* position := next_position in
     let o := commit draft position in
     do* page_update (push_invalidation index (ob_branch o)
           (InvUpsert identity (ob_version o) native));
     let* outcome := select_published cursor identity revision o in
     do* page_update (push_outcome index identity o outcome);
     do* page_update (push_committed
           {| co_cursor := cursor; co_identity := identity; co_revision := revision;
              co_observation := o;
              co_window_invalidated :=
                match outcome with WindowInvalidated => true | _ => false end |});
     ret (SourceObservation cursor native identity revision draft)) p.

(** The arm of a removal. *)
Definition apply_removal (index : nat) (cursor : PublicationCursor) (identity : string)
    (revision : N) (b : BranchId) : paging SourceEvent := λ p,
  let '(effective, s) := remove_result (progress_selection (ps_next p)) b identity revision in
  if negb effective then (Ok (SourceIgnored cursor), p)
  else
    (Ok (SourceRemoval cursor identity revision b),
     push_invalidation index b (InvRemoval identity) (on_selection_of (λ _, s) p)).

(** The arm of an unsafe update and of a reset. *)
Definition apply_reset (index : nat) (b : BranchId) : paging unit :=
  page_update (λ p, on_selection_of (reset_segment b) (push_reset b (push_invalidation index b InvBranch p))).

(** One event: the event that the applied page holds in its place. *)
Definition apply_event (index : nat) (e : SourceEvent) : paging SourceEvent :=
  match e with
  | SourceIgnored _ => ret e
  | SourceObservation cursor native identity revision draft =>
      apply_observation index cursor native identity revision draft
  | SourceRemoval cursor identity revision b => apply_removal index cursor identity revision b
  | SourceGap _ b _ => do* page_update (on_selection_of (mark_coverage_gap b)); ret e
  | SourceUnsafeUpdate _ b _ | SourceSegmentReset _ b _ => do* apply_reset index b; ret e
  | SourceCoverageRestored _ b => do* page_update (on_selection_of (restore_coverage b)); ret e
  end.

(** The loop, from the event at [index]. *)
Fixpoint apply_events (index : nat) (l : list SourceEvent) : paging (list SourceEvent) :=
  match l with
  | [] => ret []
  | e :: l =>
      let* e' := apply_event index e in
      let* l' := apply_events (S index) l in
      ret (e' :: l')
  end.

(** ** Stale candidates *)

(** A dependency that a change of the same branch contradicts. *)
Definition contradicts (identity : string) (change : PageInvalidation) (d : EvidenceDependency) : bool :=
  match change, d with
  | InvUpsert i version native, DepMessage id saved =>
      String.eqb id i && negb (bool_decide (saved = version))
  | InvUpsert i version native, SourceEvidence id saved =>
      String.eqb id i &&
      (if String.eqb id identity then negb (bool_decide (saved = version))
       else match native with
            | Some native => negb (bool_decide (saved = native))
            | None => false
            end)
  | InvNativeUpsert i version, SourceEvidence id saved =>
      String.eqb id i && negb (String.eqb id identity) && negb (bool_decide (saved = version))
  | InvRemoval i, DepMessage id _ | InvRemoval i, SourceEvidence id _ => String.eqb id i
  | _, _ => false
  end.

Definition invalidates (c : FrozenCandidate * nat * string) (inv : nat * BranchId * PageInvalidation) :
    bool :=
  let '(candidate, index, identity) := c in
  let '(changed, b, change) := inv in
  (index <? changed)%nat && bool_decide (b = fr_branch candidate) &&
  match change with
  | InvBranch => true
  | _ => existsb (contradicts identity change) (fr_dependencies candidate)
  end.

(** [candidates.retain(..)] *)
Definition surviving (p : PageState) : list (FrozenCandidate * nat * string) :=
  List.filter (λ c, negb (existsb (invalidates c) (ps_invalidations p))) (ps_candidates p).

(** ** The transaction *)

Definition initial_page (progress : SourceProgress) (h : W) : PageState :=
  {| ps_next := progress; ps_committed := []; ps_candidates := []; ps_conditions := [];
     ps_filters := []; ps_invalidations := []; ps_resets := []; ps_host := h |}.

Definition finish_page (page : SourceBatch) (p : PageState) : SourceProgress :=
  {| publication_cursor := sb_next page;
     observation_position := observation_position (ps_next p);
     progress_selection := progress_selection (ps_next p) |}.

(** What the page leaves for the scheduler. *)
Record AppliedPage := {
  ap_candidates : list FrozenCandidate;
  ap_resets : list BranchId;
  ap_outcome : BatchOutcome
}.

Definition applied_outcome (p : PageState) (candidates : list FrozenCandidate) : BatchOutcome :=
  {| bo_observations := N.of_nat (length (ps_committed p));
     bo_candidates := N.of_nat (length candidates); bo_coalesced := 0; bo_overflowed := 0;
     bo_condition_outcomes := ps_conditions p; bo_filter_outcomes := ps_filters p |}.

(** With the progress loaded: the events, the transaction, the new progress. *)
Definition commit_page (selectors : Selectors) (progress : SourceProgress) (page : SourceBatch) (h : W) :
    service (Selectors * W * result AppliedPage StoreError) :=
  match validate_source_page progress page with
  | Err e => Ret (selectors, h, Err e)
  | Ok _ =>
      match apply_events 0 (sb_events page) (initial_page progress h) with
      | (Err PagePanicked, _) => Halt Panics
      | (Err (PageFailed e), p) => Ret (selectors, ps_host p, Err e)
      | (Ok events, p) =>
          let candidates := (λ c, c.1.1) <$> surviving p in
          let next := finish_page page p in
          let applied := {| sb_events := events; sb_next := sb_next page; sb_has_more := sb_has_more page |} in
          call! committed := pcall (ApplySourcePage activation (head progress) applied (ps_committed p)
                                      next candidates) in
          match committed with
          | Err e => Ret (delete (ea_id activation) selectors, ps_host p, Err e)
          | Ok _ =>
              Ret (<[ea_id activation := next]> selectors, ps_host p,
                   Ok {| ap_candidates := candidates; ap_resets := ps_resets p;
                         ap_outcome := applied_outcome p candidates |})
          end
      end
  end.

(** The part under the mutex of the selectors. *)
Definition apply_page_locked (selectors : Selectors) (page : SourceBatch) (h : W) :
    service (Selectors * W * result AppliedPage StoreError) :=
  match selectors !! ea_id activation with
  | Some progress => commit_page selectors progress page h
  | None =>
      call! loaded := pcall (LoadSourceProgress activation) in
      match loaded with
      | Err e => Ret (selectors, h, Err e)
      | Ok progress => commit_page (<[ea_id activation := progress]> selectors) progress page h
      end
  end.
End pages.

(** ** The queue of candidates *)

Section queue.
Context `{SerdeNumber}.

(** The derived order of [CandidateId] *)
Fixpoint id_le (x y : list N) : bool :=
  match x, y with
  | [], _ => true
  | _ :: _, [] => false
  | a :: x, b :: y => (a <? b) || ((a =? b) && id_le x y)
  end.

Definition id_order (x y : list N) : Prop := id_le x y = true.

#[export] Instance id_order_dec : RelDecision id_order.
Proof. intros x y. unfold id_order. apply _. Defined.

(** [slice::chunks] *)
Fixpoint chunks_fuel {A} (fuel n : nat) (l : list A) : list (list A) :=
  match fuel, l with
  | S fuel, _ :: _ => take n l :: chunks_fuel fuel n (drop n l)
  | _, _ => []
  end.
Definition chunks {A} (n : nat) (l : list A) : list (list A) := chunks_fuel (length l) n l.

(** The loop over the batches of [prune_terminal_pending]. *)
Fixpoint terminal_ids (batches : list (list (list N))) (terminal : list (list N)) :
    service (result (list (list N)) StoreError) :=
  match batches with
  | [] => Ret (Ok terminal)
  | batch :: batches =>
      let! found := pcall (Evaluation (LoadTerminalCandidateIds batch)) in
      if existsb (λ id, negb (bool_decide (id ∈ batch))) found
      then Ret (store_error "terminal candidate lookup returned an unrequested identity")
      else terminal_ids batches (terminal ++ found)%list
  end.

Definition prune_terminal_pending : service (result unit StoreError) :=
  call! ids := atomically (λ s, (merge_sort id_order (pending_ids s), s)) in
  match ids with
  | [] => Ret (Ok tt)
  | _ =>
      let! terminal := terminal_ids (chunks (N.to_nat MAX_PENDING_CANDIDATES) ids) [] in
      run! pupdate (prune_locked terminal);
      Ret (Ok tt)
  end.

(** The lock is given up for the pruning, and only then. *)
Definition enqueue_with_resume (a : EffectiveActivation) (c : FrozenCandidate) (resumed : bool) :
    service (result EnqueueOutcome StoreError) :=
  call! admitted := atomically (λ s,
    if MAX_PENDING_CANDIDATES <=? pending_total s then (None, s)
    else let '(o, s) := enqueue_locked a c resumed s in (Some o, s)) in
  match admitted with
  | Some o => Ret (Ok o)
  | None =>
      let! _ := prune_terminal_pending in
      call! o := atomically (enqueue_locked a c resumed) in
      Ret (Ok o)
  end.

Definition enqueue (a : EffectiveActivation) (c : FrozenCandidate) :
    service (result EnqueueOutcome StoreError) := enqueue_with_resume a c false.

Definition count_coalesced (o : BatchOutcome) : BatchOutcome :=
  {| bo_observations := bo_observations o; bo_candidates := bo_candidates o;
     bo_coalesced := bo_coalesced o + 1; bo_overflowed := bo_overflowed o;
     bo_condition_outcomes := bo_condition_outcomes o; bo_filter_outcomes := bo_filter_outcomes o |}.
Definition count_overflowed (o : BatchOutcome) : BatchOutcome :=
  {| bo_observations := bo_observations o; bo_candidates := bo_candidates o;
     bo_coalesced := bo_coalesced o; bo_overflowed := bo_overflowed o + 1;
     bo_condition_outcomes := bo_condition_outcomes o; bo_filter_outcomes := bo_filter_outcomes o |}.

(** One candidate: its admission, and the record of an overflow. *)
Definition admit_one (a : EffectiveActivation) (c : FrozenCandidate) (resumed : bool)
    (outcome : BatchOutcome) : service (result BatchOutcome StoreError) :=
  let! admitted := enqueue_with_resume a c resumed in
  match admitted with
  | Queued => Ret (Ok outcome)
  | Coalesced => Ret (Ok (count_coalesced outcome))
  | Overflow =>
      let! _ := pcall (RecordOverflow c) in
      Ret (Ok (count_overflowed outcome))
  end.

Fixpoint admit_all (a : EffectiveActivation) (candidates : list FrozenCandidate)
    (outcome : BatchOutcome) : service (result BatchOutcome StoreError) :=
  match candidates with
  | [] => Ret (Ok outcome)
  | c :: candidates =>
      let! outcome := admit_one a c false outcome in
      admit_all a candidates outcome
  end.

(** ** Changes of the progress outside a page *)

(** [persist_activation] *)
Definition persist_activation (definition_id : string) (t : LifecycleTransition)
    (activation : option EffectiveActivation) (selectors : Selectors) :
    service (Selectors * result unit StoreError) :=
  call! activated := pcall (Activate definition_id t activation) in
  match activated with
  | Err e => Ret (selectors, Err e)
  | Ok _ =>
      run! pupdate (retain_activation definition_id activation);
      Ret (filter (λ kp, keeps_activation definition_id activation
                           {| sk_activation := kp.1; sk_branch := {| branch_id := "" |} |} = true)
             selectors, Ok tt)
  end.

(** [refresh_source_progress] *)
Definition refresh_source_progress (a : EffectiveActivation) (selectors : Selectors) :
    service (Selectors * result unit StoreError) :=
  call! loaded := pcall (LoadSourceProgress a) in
  match loaded with
  | Err e => Ret (selectors, Err e)
  | Ok progress => Ret (<[ea_id a := progress]> selectors, Ok tt)
  end.
End queue.

(** ** A page *)

Section page.
Context `{SerdeNumber, UnicodeData, JsonDeserializer, !CandidateDigest}.

(** [apply_source_page_with_inventories] *)
Definition apply_source_page_with_inventories {W}
    (capture : PublicationCursor → Observation → SE W StoreError (option CurrentInventories))
    (a : EffectiveActivation) (selectors : Selectors) (page : SourceBatch) (h : W) :
    service (Selectors * W * result BatchOutcome StoreError) :=
  call! '(selectors, h, applied) := apply_page_locked capture a selectors page h in
  match applied with
  | Err e => Ret (selectors, h, Err e)
  | Ok p =>
      run! (match ap_resets p with
            | [] => Ret tt
            | _ => pupdate (drop_branches (ea_id a) (ap_resets p))
            end);
      call! r := admit_all a (ap_candidates p) (ap_outcome p) in
      Ret (selectors, h, r)
  end.

(** [apply_source_page] *)
Definition apply_source_page (a : EffectiveActivation) (selectors : Selectors) (page : SourceBatch) :
    service (Selectors * unit * result BatchOutcome StoreError) :=
  apply_source_page_with_inventories (λ _ _, ret None) a selectors page tt.
End page.
