(* ===== verification/PageFacts.v ===== *)
(** * Facts on source pages

    What one event changes, what a page changes, and what every call to the
    store therefore holds: the committed positions are consecutive, the cursors
    advance, no candidate is stale, and the selection moves by steps of the
    selection state.  A page that the source has read is never refused, and
    applying it never panics.  The second part holds of whole runs of the page
    handler, with restarts and failed transactions. *)

From stdpp Require Import gmap relations.
From S2P Require Import Prelude Program RustString Diagnostics Expression Filters Domain Template Decision Check Lifecycle Json Scalars Provenance Evaluator Inventories Preparation Context Selection SelectionFacts SelectionHistory BoundedJson Prepared Messages Source CapacityFacts SourceFacts Results Actions Progress Scheduler Engine Checkpoint Pages.

#[local] Open Scope N_scope.

(** ** The calls of an admission *)

Section admission.
Context `{SerdeNumber}.

Variable overflows : FrozenCandidate → Prop.

Definition is_admission (X : Type) (c : service_call X) : Prop :=
  match c with
  | Evaluation (LoadTerminalCandidateIds _) => True
  | RecordOverflow c => overflows c
  | _ => False
  end.

Lemma terminal_ids_calls batches : ∀ terminal, calls_in is_admission (terminal_ids batches terminal).
Proof.
  induction batches as [|batch batches IH]; intros terminal; [done|]. simpl. split; [done|].
  intros [found|e]; simpl; [|done]. by destruct (existsb _ _).
Qed.

Lemma prune_calls : calls_in is_admission prune_terminal_pending.
Proof.
  apply calls_in_bind; [done|]. intros [|id ids]; [done|].
  apply calls_in_try; [apply terminal_ids_calls|done].
Qed.

Lemma enqueue_calls a c resumed : calls_in is_admission (enqueue_with_resume a c resumed).
Proof.
  apply calls_in_bind; [done|]. intros [o|]; [done|].
  apply calls_in_try; [apply prune_calls|done].
Qed.

Lemma admit_calls a c resumed outcome :
  overflows c → calls_in is_admission (admit_one a c resumed outcome).
Proof.
  intros Hc. apply calls_in_try; [apply enqueue_calls|]. intros []; [done|done|]. simpl. split; [done|].
  by intros [x|e].
Qed.

Lemma admit_all_calls a cs outcome :
  Forall overflows cs → calls_in is_admission (admit_all a cs outcome).
Proof.
  intros Hcs. revert outcome. induction Hcs as [|c cs Hc _ IH]; intros outcome; [done|].
  apply calls_in_try; [by apply admit_calls|apply IH].
Qed.
End admission.

Section unsourced.
Context `{SerdeNumber}.

(** None of them is about the progress of a source. *)
Definition is_sourced (X : Type) (c : service_call X) : Prop :=
  match c with LoadSourceProgress _ | ApplySourcePage _ _ _ _ _ _ => True | _ => False end.

Notation unsourced := (calls_in (λ X c, ¬ is_sourced X c)).

Lemma admit_all_unsourced a cs outcome : unsourced (admit_all a cs outcome).
Proof.
  eapply calls_in_mono; [|by apply (admit_all_calls (λ _, True)), Forall_true].
  intros X c Hc Hs. by destruct c.
Qed.
End unsourced.

Notation unsourced := (calls_in (λ X c, ¬ is_sourced X c)).

Section validation.
Context `{SerdeNumber}.

(** ** The check of the page *)

Lemma validate_events_ok l : ∀ previous c,
  validate_events previous l = Ok c ↔
  increasing previous (event_cursor <$> l) ∧ c = default previous (last (event_cursor <$> l)).
Proof.
  induction l as [|e l IH]; intros previous c; simpl; [naive_solver|].
  destruct (N.leb_spec (event_cursor e) previous); [split; [done|lia]|].
  rewrite IH, default_last. naive_solver.
Qed.

Lemma validate_source_page_ok p page :
  validate_source_page p page = Ok tt ↔
  increasing (publication_cursor p) (event_cursor <$> sb_events page) ∧
  resumes (publication_cursor p) (event_cursor <$> sb_events page) (sb_next page).
Proof.
  unfold validate_source_page.
  destruct (validate_events (publication_cursor p) (sb_events page)) as [c|e] eqn:Ev; cbn [result_bind].
  - apply validate_events_ok in Ev as [Hi ->]. destruct (sb_events page) as [|e l].
    + simpl. destruct (N.ltb_spec (sb_next page) (publication_cursor p)); simpl; split; (done || lia).
    + rewrite bool_decide_eq_false_2 by done. cbn [negb andb]. unfold resumes. rewrite fmap_cons.
      rewrite (last_default (publication_cursor p)).
      set (c := default _ _). destruct (N.ltb_spec (sb_next page) c), (N.eqb_spec (sb_next page) c);
        simpl; split; first [done | intros [_ [= Heq]]; exfalso; lia | intros _; split; [done|congruence]].
  - split; [done|]. intros [Hi _].
    pose proof (proj2 (validate_events_ok (sb_events page) (publication_cursor p) _) (conj Hi eq_refl)) as Hv.
    by rewrite Ev in Hv.
Qed.
End validation.

Section page_facts.
Context `{SerdeNumber, UnicodeData, JsonDeserializer, !CandidateDigest}.
Context {W : Type}.
Variable capture : PublicationCursor → Observation → SE W StoreError (option CurrentInventories).
Variable a : EffectiveActivation.

(** ** The selection during a page *)

(** A step of the selection, whatever the host captures. *)
Definition page_step (s s' : SelectionState) : Prop :=
  ∃ cap : SE W StoreError (option CurrentInventories), step cap a s s'.

Lemma page_steps_wf s s' : rtc page_step s s' → wf a s → wf a s'.
Proof. induction 1 as [|s t u [cap Hs] _ IH]; [done|]. intros Hwf. by eapply IH, step_wf. Qed.

Lemma page_steps_advance s s' : rtc page_step s s' → advances s s'.
Proof.
  induction 1 as [|s t u [cap Hs] _ IH]; [apply advances_refl|].
  eapply advances_trans; [by eapply step_advances|done].
Qed.

Lemma frozen_key cap o w c w' :
  apply_with_inventories (W:=W) (E:=StoreError) cap a o w = (Ok (Candidate c), w') →
  fr_activation c = ea_id a ∧ fr_branch c = ob_branch o ∧ fr_trigger_position c = ob_position o.
Proof. by intros (_ & (? & ? & ? & _) & _)%apply_candidate. Qed.

(** ** One event *)

(** What an event of the applied page does to earlier candidates. *)
Definition event_change (e : SourceEvent) : option (BranchId * PageInvalidation) :=
  match e with
  | SourceObservation _ native i _ d => Some (dr_branch d, InvUpsert i (dr_version d) native)
  | SourceRemoval _ i _ b => Some (b, InvRemoval i)
  | SourceUnsafeUpdate _ b _ | SourceSegmentReset _ b _ => Some (b, InvBranch)
  | _ => None
  end.

(** The observation that an event commits. *)
Definition commits (e : SourceEvent) (co : CommittedSourceObservation) : Prop :=
  ∃ native d,
    e = SourceObservation (co_cursor co) native (co_identity co) (co_revision co) d ∧
    co_observation co = commit d (ob_position (co_observation co)).

Record changed (index : nat) (e e' : SourceEvent) (p p' : PageState (W:=W)) : Prop := {
  ch_cursor : event_cursor e' = event_cursor e;
  ch_progress : publication_cursor (ps_next p') = publication_cursor (ps_next p);
  ch_selection : rtc page_step (progress_selection (ps_next p)) (progress_selection (ps_next p'));
  ch_committed :
    (ps_committed p' = ps_committed p ∧ ps_candidates p' = ps_candidates p ∧
     observation_position (ps_next p') = observation_position (ps_next p) ∧
     ∀ co, ¬ commits e' co) ∨
    ∃ co,
      ps_committed p' = (ps_committed p ++ [co])%list ∧ commits e' co ∧
      observation_position (ps_next p) < U64_MAX ∧
      observation_position (ps_next p') = observation_position (ps_next p) + 1 ∧
      ob_position (co_observation co) = observation_position (ps_next p) + 1 ∧
      (ps_candidates p' = ps_candidates p ∨
       ∃ c, ps_candidates p' = (ps_candidates p ++ [(c, index, co_identity co)])%list ∧
            fr_activation c = ea_id a ∧ fr_branch c = ob_branch (co_observation co) ∧
            fr_trigger_position c = ob_position (co_observation co));
  ch_invalidations :
    ∃ extra, ps_invalidations p' = (ps_invalidations p ++ extra)%list ∧
             ∀ b change, event_change e' = Some (b, change) → (index, b, change) ∈ extra
}.

Definition selectable_event (e : SourceEvent) : Prop :=
  match e with SourceObservation _ _ i _ d => selectable i d | _ => True end.

Lemma push_outcome_fields index i o s (p : PageState (W:=W)) :
  ps_next (push_outcome index i o s p) = ps_next p ∧
  ps_committed (push_outcome index i o s p) = ps_committed p ∧
  (∃ extra, ps_invalidations (push_outcome index i o s p) = (ps_invalidations p ++ extra)%list) ∧
  ps_candidates (push_outcome index i o s p) =
    (ps_candidates p ++ match s with Candidate c => [(c, index, i)] | _ => [] end)%list.
Proof. destruct s; simpl; rewrite ?app_nil_r; split_and!; try done; try (by exists []; rewrite app_nil_r); by eexists. Qed.

Lemma apply_observation_changed index cursor native i r d e' p p' :
  selectable i d →
  apply_observation capture a index cursor native i r d p = (Ok e', p') →
  changed index (SourceObservation cursor native i r d) e' p p'.
Proof.
  intros [Hid _]. unfold apply_observation. set (s := progress_selection (ps_next p)).
  destruct (negb (accepts_update s (dr_branch d) i r (dr_version d))) eqn:Ea.
  - intros (u & p1 & Hp1 & [= <- <-])%bind_ok.
    assert (ps_next p1 = ps_next p ∧ ps_committed p1 = ps_committed p ∧ ps_candidates p1 = ps_candidates p ∧
            ∃ extra, ps_invalidations p1 = (ps_invalidations p ++ extra)%list) as (Hn & Hc & Hk & extra & He).
    { destruct native as [version|]; [|by injection Hp1 as <- <-; split_and!; try done; exists []; rewrite app_nil_r].
      destruct (is_normalized_duplicate _ _ _ _ _); injection Hp1 as <- <-; split_and!; try done;
        [by eexists|by exists []; rewrite app_nil_r]. }
    constructor; [done|by rewrite Hn|by rewrite Hn| |by exists extra].
    left. rewrite Hn, Hc, Hk. split_and!; try done. by intros co (? & ? & [=] & _).
  - intros (position & p1 & Hpos & Hr)%bind_ok. unfold next_position in Hpos.
    destruct (N.leb_spec U64_MAX (observation_position (ps_next p))); [done|].
    injection Hpos as <- <-.
    apply bind_ok in Hr as (u1 & p2 & [= _ <-] & Hr).
    apply bind_ok in Hr as (outcome & p3 & Hsel & Hr).
    apply bind_ok in Hr as (u2 & p4 & [= _ <-] & Hr).
    apply bind_ok in Hr as (u3 & p5 & [= _ <-] & [= <- <-]).
    set (o := commit d (observation_position (ps_next p) + 1)) in *.
    unfold select_published in Hsel.
    destruct (apply_published_with_inventories (capture cursor o) a i r o _) as [[oc|[]] w] eqn:Eap;
      try done. injection Hsel as -> <-. cbn in Eap.
    destruct (push_outcome_fields index i o outcome
      {| ps_next := {| publication_cursor := publication_cursor (ps_next p);
                       observation_position := observation_position (ps_next p) + 1;
                       progress_selection := selection w |};
         ps_committed := ps_committed p; ps_candidates := ps_candidates p;
         ps_conditions := ps_conditions p; ps_filters := ps_filters p;
         ps_invalidations := (ps_invalidations p ++ [(index, dr_branch d, InvUpsert i (dr_version d) native)])%list;
         ps_resets := ps_resets p; ps_host := host w |}) as (Hn & Hc & (extra & Hi) & Hk).
    cbn in Hn, Hc, Hi, Hk.
    constructor.
    + done.
    + cbn. by rewrite Hn.
    + cbn. rewrite Hn. cbn. apply rtc_once. exists (capture cursor o). destruct w as [s' h'].
      eapply (step_published (capture cursor o) a _ i r o); [by apply Hid|exact Eap].
    + right. eexists. cbn. rewrite Hc. split; [done|]. split; [by exists native, d|].
      split; [done|]. rewrite Hn. split; [done|]. split; [done|].
      destruct outcome as [| | | | | |c]; try by left.
      right. exists c. split; [done|].
      pose proof (published_candidate _ _ _ _ _ _ _ _ (Hid _) Eap) as Hpc. cbv zeta in Hpc.
      destruct Hpc as (_ & _ & _ & w1 & Hap & _).
      by apply frozen_key in Hap.
    + cbn. rewrite Hi, <- app_assoc. eexists. split; [done|]. intros b change [= <- <-]. simpl. left.
Qed.

Lemma moved_changed index (e : SourceEvent) f (p : PageState (W:=W)) extra :
  (∀ co, ¬ commits e co) → page_step (progress_selection (ps_next p)) (f (progress_selection (ps_next p))) →
  (∀ b change, event_change e = Some (b, change) → (index, b, change) ∈ extra) →
  ∀ p', ps_next p' = ps_next (on_selection_of f p) → ps_committed p' = ps_committed p →
  ps_candidates p' = ps_candidates p → ps_invalidations p' = (ps_invalidations p ++ extra)%list →
  changed index e e p p'.
Proof.
  intros Hno Hstep Hch p' Hn Hc Hk Hi. constructor; [done|by rewrite Hn|..].
  - rewrite Hn. by apply rtc_once.
  - left. rewrite Hn. by split_and!.
  - by exists extra.
Qed.

Lemma no_commit (e : SourceEvent) :
  match e with SourceObservation _ _ _ _ _ => False | _ => True end → ∀ co, ¬ commits e co.
Proof. intros He co (native & d & -> & _). done. Qed.

Lemma same_changed index (e e' : SourceEvent) (p : PageState (W:=W)) :
  event_cursor e' = event_cursor e → event_change e' = None → (∀ co, ¬ commits e' co) →
  changed index e e' p p.
Proof.
  intros He Hch Hno. constructor; [done|done|apply rtc_refl|by left|].
  exists []. rewrite app_nil_r, Hch. done.
Qed.

Lemma apply_event_changed index e e' p p' :
  selectable_event e → apply_event capture a index e p = (Ok e', p') → changed index e e' p p'.
Proof.
  intros Hsel. destruct e as [c|c native i r d|c i r b|c b reason|c b reason|c b reason|c b]; simpl.
  - intros [= <- <-]. by apply same_changed; [| |apply no_commit].
  - by apply apply_observation_changed.
  - unfold apply_removal.
    destruct (remove_result (progress_selection (ps_next p)) b i r) as [effective s] eqn:Er.
    destruct effective; simpl; intros [= <- <-]; [|by apply same_changed; [| |apply no_commit]].
    eapply (moved_changed _ _ (λ _, s) p [(index, b, InvRemoval i)]); try done; [by apply no_commit|..].
    + exists (λ w, (Ok None, w)). by eapply step_removed.
    + intros b' ch [= <- <-]. by left.
  - intros [= <- <-]. eapply (moved_changed _ _ (mark_coverage_gap b) p []); try done; [by apply no_commit|..].
    + exists (λ w, (Ok None, w)). apply step_gap.
    + simpl. by rewrite app_nil_r.
  - intros [= <- <-]. eapply (moved_changed _ _ (reset_segment b) p [(index, b, InvBranch)]); try done;
      [by apply no_commit|..].
    + exists (λ w, (Ok None, w)). apply step_reset.
    + intros b' ch [= <- <-]. by left.
  - intros [= <- <-]. eapply (moved_changed _ _ (reset_segment b) p [(index, b, InvBranch)]); try done;
      [by apply no_commit|..].
    + exists (λ w, (Ok None, w)). apply step_reset.
    + intros b' ch [= <- <-]. by left.
  - intros [= <- <-]. eapply (moved_changed _ _ (restore_coverage b) p []); try done; [by apply no_commit|..].
    + exists (λ w, (Ok None, w)). apply step_restored.
    + simpl. by rewrite app_nil_r.
Qed.

(** ** The events of a page *)

Definition position_of (co : CommittedSourceObservation) : ObservationPosition :=
  ob_position (co_observation co).

Definition is_observation (e : SourceEvent) : bool :=
  match e with SourceObservation _ _ _ _ _ => true | _ => false end.

(** The [n] positions after one. *)
Definition positions (after : N) (n : nat) : list N := (λ i, after + N.of_nat i + 1) <$> seq 0 n.

Lemma positions_snoc after n : positions after (n + 1) = (positions after n ++ [after + N.of_nat n + 1])%list.
Proof. unfold positions. by rewrite seq_app, fmap_app. Qed.

(** The observation whose selection gave a candidate. *)
Definition triggered (events : list SourceEvent) (committed : list CommittedSourceObservation)
    (entry : FrozenCandidate * nat * string) : Prop :=
  let '(c, index, identity) := entry in
  ∃ e co, events !! index = Some e ∧ commits e co ∧ co ∈ committed ∧ identity = co_identity co ∧
          fr_activation c = ea_id a ∧ fr_branch c = ob_branch (co_observation co) ∧
          fr_trigger_position c = position_of co.

Record paged (p0 : SourceProgress) (events : list SourceEvent) (p : PageState (W:=W)) : Prop := {
  pg_cursor : publication_cursor (ps_next p) = publication_cursor p0;
  pg_selection : rtc page_step (progress_selection p0) (progress_selection (ps_next p));
  pg_positions :
    position_of <$> ps_committed p = positions (observation_position p0) (length (ps_committed p));
  pg_position : observation_position (ps_next p) = observation_position p0 + N.of_nat (length (ps_committed p));
  pg_bound : observation_position p0 ≤ U64_MAX → observation_position (ps_next p) ≤ U64_MAX;
  pg_commits : Forall2 commits (filter (λ e, is_observation e = true) events) (ps_committed p);
  pg_candidates : Forall (triggered events (ps_committed p)) (ps_candidates p);
  pg_order : sublist ((λ c, fr_trigger_position c.1.1) <$> ps_candidates p) (position_of <$> ps_committed p);
  pg_changes : ∀ j e b change,
    events !! j = Some e → event_change e = Some (b, change) → (j, b, change) ∈ ps_invalidations p
}.

Lemma paged_initial p0 h : paged p0 [] (initial_page p0 h).
Proof. constructor; simpl; try done; lia. Qed.

Lemma triggered_app events committed e co entry :
  triggered events committed entry → triggered (events ++ [e]) (committed ++ co) entry.
Proof.
  destruct entry as [[c index] i]. intros (e0 & co0 & He & ? & Hin & ?). exists e0, co0.
  split; [by apply lookup_app_l_Some|]. split; [done|]. split; [|done]. apply elem_of_app. by left.
Qed.

Lemma paged_changed p0 events p e e' p' :
  paged p0 events p → changed (length events) e e' p p' → paged p0 (events ++ [e']) p'.
Proof.
  intros [Hc Hs Hp Hpos Hb Hco Hk Ho Hi] [Hcc Hcp Hcs Hcm (extra & Hex & Hch)].
  assert (∀ j e0 b change, (events ++ [e']) !! j = Some e0 → event_change e0 = Some (b, change) →
            (j, b, change) ∈ ps_invalidations p') as Hchanges.
  { intros j e0 b change Hj He0. rewrite Hex. apply elem_of_app.
    apply lookup_app_Some in Hj as [Hj|[Hle Hj]]; [left; by eapply Hi|right].
    apply list_lookup_singleton_Some in Hj as [Hj ->]. replace j with (length events) by lia. auto. }
  destruct Hcm as [(Hm & Hcd & Hps & Hno)|(co & Hm & Hcmt & Hlt & Hps & Hop & Hcd)].
  - assert (is_observation e' = false) as Hobs.
    { destruct e' as [|cc native i r d| | | | |]; try done. exfalso.
      apply (Hno {| co_cursor := cc; co_identity := i; co_revision := r;
                    co_observation := commit d 0; co_window_invalidated := false |}). by exists native, d. }
    constructor; rewrite ?Hm, ?Hcd, ?Hps; try done; [congruence|by etrans|..].
    + rewrite filter_app, (filter_cons_False _ e') by (rewrite Hobs; done). by rewrite app_nil_r.
    + eapply Forall_impl; [exact Hk|]. intros entry He. rewrite <- (app_nil_r (ps_committed p)). by apply triggered_app.
  - assert (is_observation e' = true) as Hobs by (destruct Hcmt as (? & ? & -> & _); done).
    assert (position_of co = observation_position p0 + N.of_nat (length (ps_committed p)) + 1) as Hposco
      by (unfold position_of; lia).
    constructor; rewrite ?Hm, ?Hps; try done; [congruence|by etrans|..].
    + rewrite fmap_app, Hp, length_app. simpl. rewrite positions_snoc, Hposco. done.
    + rewrite length_app. simpl. lia.
    + lia.
    + rewrite filter_app, (filter_cons_True _ e') by done. apply Forall2_app; [done|by constructor].
    + destruct Hcd as [->|(c & -> & Hca & Hcb & Hct)].
      * eapply Forall_impl; [exact Hk|]. intros entry. apply triggered_app.
      * apply Forall_app. split; [eapply Forall_impl; [exact Hk|]; intros entry; apply triggered_app|].
        constructor; [|constructor]. exists e', co.
        split; [by apply list_lookup_middle|]. split; [done|].
        split; [apply elem_of_app; right; by left|]. by split_and!.
    + rewrite fmap_app. destruct Hcd as [->|(c & -> & Hca & Hcb & Hct)].
      * by apply sublist_inserts_r.
      * rewrite fmap_app. apply sublist_app; [done|]. simpl. rewrite Hct. done.
Qed.

Lemma apply_events_paged p0 l : ∀ events p l' p',
  Forall selectable_event l → paged p0 events p →
  apply_events capture a (length events) l p = (Ok l', p') →
  paged p0 (events ++ l') p' ∧ event_cursor <$> l' = event_cursor <$> l.
Proof.
  induction l as [|e l IH]; intros events p l' p' Hsel Hp; simpl.
  - intros [= <- <-]. by rewrite app_nil_r.
  - apply Forall_cons in Hsel as [He Hsel].
    intros (e' & p1 & Hr1 & (l1 & p2 & Hr2 & [= <- <-])%bind_ok)%bind_ok.
    apply apply_event_changed in Hr1; [|done].
    pose proof (paged_changed _ _ _ _ _ _ Hp Hr1) as Hp1.
    replace (S (length events)) with (length (events ++ [e'])) in Hr2 by (rewrite length_app; simpl; lia).
    apply IH in Hr2 as [Hp2 Hc]; [|done..]. rewrite <- app_assoc in Hp2. split; [done|].
    rewrite !fmap_cons, Hc. f_equal. by apply (ch_cursor _ _ _ _ _ Hr1).
Qed.

(** ** No panic *)

Lemma select_published_quiet cursor i r d pos p p' :
  selectable i d → select_published capture a cursor i r (commit d pos) p ≠ (Err PagePanicked, p').
Proof.
  intros [Hid Hm]. unfold select_published.
  destruct (apply_published_with_inventories _ _ _ _ _ _) as [[oc|[e|]] w] eqn:Eap; try done. intros _.
  by eapply (apply_published_quiet (capture cursor (commit d pos)) a i r (commit d pos)); [apply Hid| | |exact Eap].
Qed.

Lemma apply_observation_quiet index cursor native i r d p p' :
  selectable i d → apply_observation capture a index cursor native i r d p ≠ (Err PagePanicked, p').
Proof.
  intros Hsel. unfold apply_observation. destruct (negb (accepts_update _ _ _ _ _)).
  - destruct native as [v|]; [|done]. by destruct (is_normalized_duplicate _ _ _ _ _).
  - unfold next_position, bind. destruct (U64_MAX <=? observation_position (ps_next p)); [done|]. simpl.
    destruct (select_published _ _ _ _ _ _ _) as [[o|[e|]] p1] eqn:Es; try done.
    intros _. by eapply select_published_quiet in Es.
Qed.

Lemma apply_events_quiet l : ∀ index p p',
  Forall selectable_event l → apply_events capture a index l p ≠ (Err PagePanicked, p').
Proof.
  induction l as [|e l IH]; intros index p p' Hsel; [done|]. apply Forall_cons in Hsel as [He Hsel].
  simpl. unfold bind. destruct (apply_event capture a index e p) as [[e'|[s|]] p1] eqn:Ee; [|done|].
  - destruct (apply_events _ _ _ _ _) as [[l'|[s|]] p2] eqn:El; try done. intros _. by eapply IH in El.
  - exfalso. destruct e; simpl in Ee; try done.
    + by apply apply_observation_quiet in Ee.
    + unfold apply_removal in Ee. destruct (remove_result _ _ _ _) as [[] s]; done.
Qed.

(** ** What the store is asked to commit *)

(** An event of the applied page that makes a candidate of the page stale. *)
Definition outdates (identity : string) (c : FrozenCandidate) (e : SourceEvent) : bool :=
  match event_change e with
  | Some (b, change) =>
      bool_decide (b = fr_branch c) &&
      match change with
      | InvBranch => true
      | _ => existsb (contradicts identity change) (fr_dependencies c)
      end
  | None => false
  end.

(** A candidate of the page that no later event of the page makes stale. *)
Definition current_candidate (page : SourceBatch) (committed : list CommittedSourceObservation)
    (c : FrozenCandidate) : Prop :=
  ∃ index identity,
    triggered (sb_events page) committed (c, index, identity) ∧
    ∀ later e, (index < later)%nat → sb_events page !! later = Some e → outdates identity c e = false.

Record page_request (expected : SourceProgressHead) (page : SourceBatch)
    (committed : list CommittedSourceObservation) (next : SourceProgress)
    (candidates : list FrozenCandidate) (progress : SourceProgress) : Prop := {
  rq_expected : expected = head progress;
  rq_cursors : increasing (publication_cursor progress) (event_cursor <$> sb_events page);
  rq_resumes : resumes (publication_cursor progress) (event_cursor <$> sb_events page) (sb_next page);
  rq_cursor : publication_cursor next = sb_next page;
  rq_commits : Forall2 commits (filter (λ e, is_observation e = true) (sb_events page)) committed;
  rq_positions : position_of <$> committed = positions (observation_position progress) (length committed);
  rq_position : observation_position next = observation_position progress + N.of_nat (length committed);
  rq_selection : rtc page_step (progress_selection progress) (progress_selection next);
  rq_candidates : Forall (current_candidate page committed) candidates;
  rq_order : sublist (fr_trigger_position <$> candidates) (position_of <$> committed)
}.

Lemma filter_sublist {A} (f : A → bool) l : sublist (List.filter f l) l.
Proof. induction l as [|x l IH]; simpl; [constructor|]. destruct (f x); by constructor. Qed.

Lemma surviving_current events p0 p c index identity later e :
  paged p0 events p → (c, index, identity) ∈ surviving p → (index < later)%nat →
  events !! later = Some e → outdates identity c e = false.
Proof.
  intros Hp Hin Hlt He. unfold surviving in Hin.
  apply list_elem_of_In, filter_In in Hin as [_ Hs]. apply negb_true_iff in Hs.
  unfold outdates. destruct (event_change e) as [[b change]|] eqn:Ech; [|done].
  pose proof (pg_changes _ _ _ Hp later e b change He Ech) as Hinv.
  destruct (bool_decide (b = fr_branch c) && _) eqn:Eo; [|done]. exfalso.
  apply not_true_iff_false in Hs. apply Hs, existsb_exists. exists (later, b, change).
  split; [by apply list_elem_of_In|]. unfold invalidates.
  rewrite (proj2 (Nat.ltb_lt index later) Hlt). exact Eo.
Qed.

Lemma paged_request progress page h l' p :
  validate_source_page progress page = Ok tt → Forall selectable_event (sb_events page) →
  apply_events capture a 0 (sb_events page) (initial_page progress h) = (Ok l', p) →
  page_request (head progress)
    {| sb_events := l'; sb_next := sb_next page; sb_has_more := sb_has_more page |}
    (ps_committed p) (finish_page page p) ((λ c, c.1.1) <$> surviving p) progress.
Proof.
  intros [Hinc Hres]%validate_source_page_ok Hsel Hr.
  destruct (apply_events_paged progress _ [] _ _ _ Hsel (paged_initial progress h) Hr) as [Hp Hc].
  simpl in Hp. constructor; cbn [sb_events sb_next finish_page publication_cursor observation_position progress_selection].
  - done.
  - by rewrite Hc.
  - by rewrite Hc.
  - done.
  - by apply (pg_commits _ _ _ Hp).
  - by apply (pg_positions _ _ _ Hp).
  - by apply (pg_position _ _ _ Hp).
  - by apply (pg_selection _ _ _ Hp).
  - apply Forall_fmap, Forall_forall. intros [[c index] identity] Hin. exists index, identity. split.
    + eapply Forall_forall; [exact (pg_candidates _ _ _ Hp)|]. unfold surviving in Hin.
      apply list_elem_of_In, filter_In in Hin as [Hin _]. by apply list_elem_of_In.
    + intros later e Hlt He. by eapply surviving_current.
  - etrans; [|exact (pg_order _ _ _ Hp)]. rewrite <- list_fmap_compose.
    apply (fmap_sublist (λ c : FrozenCandidate * nat * string, fr_trigger_position c.1.1)), filter_sublist.
Qed.

(** ** Every run of the engine's page handler *)

Definition asks (X : Type) (c : service_call X) (_ : unit) : Prop :=
  match c with
  | ApplySourcePage a' expected page committed next candidates =>
      a' = a ∧ ∃ progress, page_request expected page committed next candidates progress
  | _ => True
  end.

Definition asking {A} (p : service A) : Prop :=
  hoare (λ _ _ _ _ _, True) asks (λ _, True) never (λ _ _, True) p tt.

Lemma asking_bind {A B} (p : service A) (f : A → service B) :
  asking p → (∀ x, asking (f x)) → asking (pbind p f).
Proof. intros Hp Hf. eapply hoare_bind; [exact Hp|]. intros x [] _ _. apply Hf. Qed.

Lemma asking_call {X A} (c : service_call X) (f : X → service A) :
  asks X c tt → (∀ x, asking (f x)) → asking (pbind (pcall c) f).
Proof. intros Hc Hf. split; [done|]. split; [done|]. intros x [] _. apply Hf. Qed.

Lemma unsourced_asking {A} (p : service A) : unsourced p → asking p.
Proof. intros Hp. eapply calls_in_hoare; [done| |done|exact Hp|done]. intros X c g Hc _. by destruct c. Qed.

Lemma commit_page_asking selectors progress page h :
  Forall selectable_event (sb_events page) → asking (commit_page capture a selectors progress page h).
Proof.
  intros Hsel. unfold commit_page.
  destruct (validate_source_page progress page) as [[]|e] eqn:Ev; [|done].
  destruct (apply_events _ _ _ _ _) as [[l'|[e|]] p] eqn:Er; [|done|by apply apply_events_quiet in Er].
  apply asking_call; [|by intros [[]|e]]. split; [done|]. exists progress. by apply paged_request with (h := h).
Qed.

Lemma page_asking selectors page h :
  Forall selectable_event (sb_events page) →
  asking (apply_source_page_with_inventories capture a selectors page h).
Proof.
  intros Hsel. apply asking_bind.
  - unfold apply_page_locked. destruct (selectors !! ea_id a); [by apply commit_page_asking|].
    apply asking_call; [done|]. intros [progress|e]; [by apply commit_page_asking|done].
  - intros [[sel h'] [applied|e]]; [|done]. apply asking_bind; [apply unsourced_asking; by destruct (ap_resets applied)|].
    intros _. apply asking_bind; [apply unsourced_asking, admit_all_unsourced|done].
Qed.
End page_facts.

(** ** Runs of the page handler

    The guarantees of source delivery.  The durable state of the store moves
    only by compare-and-swap on its head; whatever engines, restarts, failed
    transactions and outdated memories there are, every publication is applied
    once and in order.  The progress that one engine keeps in memory is the
    durable one. *)

(** ** Lists of cursors *)

Lemma increasing_app after l l' middle :
  increasing after l → (∀ c, c ∈ l → c ≤ middle) → after ≤ middle → increasing middle l' →
  increasing after (l ++ l').
Proof.
  revert after. induction l as [|c l IH]; intros after; simpl; intros Hl Hm Ha Hl'.
  - clear Hl Hm. destruct l' as [|c l']; [done|]. simpl in *. destruct Hl'. split; [lia|done].
  - destruct Hl as [Hc Hl]. split; [done|]. apply IH; [done| | |done].
    + intros d Hd. apply Hm. by right.
    + apply Hm. by left.
Qed.

Lemma increasing_resumes after l next :
  increasing after l → resumes after l next → after ≤ next ∧ ∀ c, c ∈ l → c ≤ next.
Proof.
  revert after. induction l as [|c l IH]; intros after; simpl; [intros _ Hn; split; [done|by intros c Hc%not_elem_of_nil]|].
  intros [Hc Hl] Hlast. destruct l as [|d l].
  - injection Hlast as ->. split; [lia|]. intros x Hx%list_elem_of_singleton. lia.
  - destruct (IH c Hl Hlast) as [Hle Hall]. split; [lia|]. intros x [->|Hx]%elem_of_cons; [done|auto].
Qed.

Lemma positions_app after n m : positions after (n + m) = (positions after n ++ positions (after + N.of_nat n) m)%list.
Proof.
  unfold positions. rewrite seq_app, fmap_app. f_equal. simpl.
  rewrite <- (Nat.add_0_r n) at 1. rewrite <- fmap_add_seq, <- list_fmap_compose.
  apply list_fmap_ext. intros i x _. simpl. lia.
Qed.

Section runs.
Context `{SerdeNumber, UnicodeData, JsonDeserializer, !CandidateDigest}.
Variable a : EffectiveActivation.

(** ** The durable state

    What the store holds for the activation, with the pages it committed.  A
    transaction commits only from the head that it names; its answer may be lost.
    Other host operations may change the selection, as the deletion of a session
    does, but neither of the cursors. *)
Record Stored := {
  st_progress : SourceProgress;
  st_events : list SourceEvent;
  st_committed : list CommittedSourceObservation
}.

Definition touched (p : SourceProgress) (s : SelectionState) : SourceProgress :=
  {| publication_cursor := publication_cursor p; observation_position := observation_position p;
     progress_selection := s |}.

Inductive history (p0 : SourceProgress) : Stored → Prop :=
| history_start : history p0 {| st_progress := p0; st_events := []; st_committed := [] |}
| history_touched st s :
    history p0 st →
    history p0 {| st_progress := touched (st_progress st) s; st_events := st_events st;
                  st_committed := st_committed st |}
| history_commit {W} (capture : PublicationCursor → Observation → SE W StoreError (option CurrentInventories))
    st selectors page h before page' committed next candidates x after p' :
    history p0 st →
    Forall selectable_event (sb_events page) →
    runs (apply_source_page_with_inventories capture a selectors page h)
      (before ++ Ev (ApplySourcePage a (head (st_progress st)) page' committed next candidates) x :: after) p' →
    history p0 {| st_progress := next; st_events := (st_events st ++ sb_events page')%list;
                  st_committed := (st_committed st ++ committed)%list |}.

Definition in_order (p0 : SourceProgress) (st : Stored) : Prop :=
  increasing (publication_cursor p0) (event_cursor <$> st_events st) ∧
  publication_cursor p0 ≤ publication_cursor (st_progress st) ∧
  (∀ c, c ∈ event_cursor <$> st_events st → c ≤ publication_cursor (st_progress st)) ∧
  Forall2 commits (filter (λ e, is_observation e = true) (st_events st)) (st_committed st) ∧
  position_of <$> st_committed st = positions (observation_position p0) (length (st_committed st)) ∧
  observation_position (st_progress st) = observation_position p0 + N.of_nat (length (st_committed st)).

(** A request of any run commits in order. *)
Lemma request_in_order {W} p0 st page committed next candidates progress :
  page_request (W:=W) a (head (st_progress st)) page committed next candidates progress →
  in_order p0 st →
  in_order p0 {| st_progress := next; st_events := (st_events st ++ sb_events page)%list;
                 st_committed := (st_committed st ++ committed)%list |}.
Proof.
  intros [Hhead Hcur Hres Hnext Hco Hpos Hposn _ _ _] (Hi & Hp0 & Hle & Hc & Hp & Hn).
  pose proof (f_equal head_cursor Hhead) as Hhc. pose proof (f_equal head_position Hhead) as Hhp.
  simpl in Hhc, Hhp. destruct (increasing_resumes _ _ _ Hcur Hres) as [Hge Hall].
  unfold in_order. simpl. rewrite !fmap_app, filter_app, length_app. split_and!.
  - eapply increasing_app; [done|exact Hle|done|]. by rewrite Hhc.
  - rewrite Hnext. lia.
  - rewrite Hnext. intros c [Hin|Hin]%elem_of_app; [|auto]. apply Hle in Hin. lia.
  - by apply Forall2_app.
  - rewrite Hp, Hpos, positions_app. do 2 f_equal. rewrite <- Hhp, Hn. done.
  - rewrite Hposn, <- Hhp, Hn. lia.
Qed.

Lemma run_request {W} (capture : PublicationCursor → Observation → SE W StoreError (option CurrentInventories))
    selectors page h before b expected page' committed next candidates x after p' :
  Forall selectable_event (sb_events page) →
  runs (apply_source_page_with_inventories capture a selectors page h)
    (before ++ Ev (ApplySourcePage b expected page' committed next candidates) x :: after) p' →
  b = a ∧ ∃ progress, page_request (W:=W) a expected page' committed next candidates progress.
Proof.
  intros Hsel Hrun.
  pose proof (page_asking capture a selectors page h Hsel) as Hask.
  assert (∀ tr, ghost_steps (G:=unit) (call:=service_call) (λ _ _ _ _ _, True) tt tr tt) as Hghost.
  { induction tr as [|[X c y] tr IH]; [done|]. by exists tt. }
  apply (hoare_calls _ _ _ _ _ _ _ _ _ _ _ _ _ Hask Hrun eq_refl (Hghost before)).
Qed.

Lemma history_in_order p0 st : history p0 st → in_order p0 st.
Proof.
  induction 1 as [|st s _ IH|W capture st selectors page h before page' committed next candidates x after p' _ IH Hsel Hrun].
  - unfold in_order. simpl. split_and!; try done; try lia. by intros c Hc%not_elem_of_nil.
  - exact IH.
  - destruct (run_request capture _ _ _ _ _ _ _ _ _ _ _ _ _ Hsel Hrun) as [_ [progress Hreq]].
    by eapply request_in_order.
Qed.

(** ** The progress in memory *)

(** The durable progress of the activation, moved by the answers of the store. *)
Definition stored_step (X : Type) (c : service_call X) (x : X) (d d' : SourceProgress) : Prop :=
  match c in service_call X return X → Prop with
  | LoadSourceProgress b => λ x, d' = d ∧ (ea_id b = ea_id a → ∀ p, x = Ok p → p = d)
  | ApplySourcePage b expected page committed next candidates => λ x,
      (ea_id b ≠ ea_id a ∧ d' = d) ∨
      (ea_id b = ea_id a ∧ match x with
                           | Ok _ => expected = head d ∧ d' = next
                           | Err _ => d' = d ∨ (expected = head d ∧ d' = next)
                           end)
  | _ => λ _, d' = d
  end x.

Definition from_head (X : Type) (c : service_call X) (d : SourceProgress) : Prop :=
  match c with ApplySourcePage _ expected _ _ _ _ => expected = head d | _ => True end.

Definition coherent (selectors : Selectors) (d : SourceProgress) : Prop :=
  ∀ p, selectors !! ea_id a = Some p → p = d.

Definition keeps_coherent {A} (Q : A → SourceProgress → Prop) (p : service A) (d : SourceProgress) : Prop :=
  hoare stored_step from_head (λ _, True) never Q p d.

Lemma unsourced_coherent {A} (p : service A) d : unsourced p → keeps_coherent (λ _ d', d' = d) p d.
Proof.
  intros Hp. eapply (calls_in_hoare _ _ _ _ (λ d', d' = d)); [done| | |exact Hp|done].
  - intros X c g Hc _. by destruct c.
  - intros X c x g g' Hc ->. destruct c; try done; by destruct Hc.
Qed.

Section handler.
Context {W : Type}.
Variable capture : PublicationCursor → Observation → SE W StoreError (option CurrentInventories).

Lemma commit_page_coherent selectors progress page h d :
  Forall selectable_event (sb_events page) → selectors !! ea_id a = Some progress → progress = d →
  keeps_coherent (λ r d', coherent r.1.1 d') (commit_page capture a selectors progress page h) d.
Proof.
  intros Hsel Hlook ->. unfold commit_page.
  assert (coherent selectors d) as Hco by (intros p; rewrite Hlook; by intros [= ->]).
  destruct (validate_source_page d page) as [[]|e] eqn:Ev; [|by split].
  destruct (apply_events _ _ _ _ _) as [[l'|[e|]] p] eqn:Er; [|by split|by apply apply_events_quiet in Er].
  apply hoare_call; [done|done|]. intros [[]|e] d' [[Hne _]|[_ Hx]]; try done.
  - destruct Hx as [_ ->]. split; [done|]. unfold coherent. cbn [fst]. intros q. rewrite lookup_insert_eq. by intros [= <-].
  - split; [done|]. unfold coherent. cbn [fst]. intros q. by rewrite lookup_delete_eq.
Qed.

Lemma page_coherent selectors page h d :
  Forall selectable_event (sb_events page) → coherent selectors d →
  keeps_coherent (λ r d', coherent r.1.1 d')
    (apply_source_page_with_inventories capture a selectors page h) d.
Proof.
  intros Hsel Hco. unfold keeps_coherent, apply_source_page_with_inventories.
  apply (hoare_bind _ _ _ _ (λ r d', coherent r.1.1 d')).
  - unfold apply_page_locked. destruct (selectors !! ea_id a) as [progress|] eqn:El.
    + by apply commit_page_coherent, Hco.
    + apply hoare_call; [done|done|]. intros [progress|e] d' [-> Hload]; [|by split].
      apply commit_page_coherent; [done|by rewrite lookup_insert_eq|by apply Hload].
  - intros [[sel h'] [applied|e]] d' _ Hd; [|by split].
    apply (hoare_bind _ _ _ _ (λ _ d'', d'' = d')); [apply unsourced_coherent; by destruct (ap_resets applied)|].
    intros _ ? _ ->.
    apply (hoare_bind _ _ _ _ (λ _ d'', d'' = d')); [apply unsourced_coherent, admit_all_unsourced|].
    intros r ? _ ->. by split.
Qed.

Lemma runs_nil {A} (p : service A) : runs p [] p.
Proof. destruct p; by left. Qed.

(** A valid page is committed from the progress in memory. *)
Lemma commit_runs selectors progress page h l' p x :
  selectors !! ea_id a = Some progress → validate_source_page progress page = Ok tt →
  apply_events capture a 0 (sb_events page) (initial_page progress h) = (Ok l', p) →
  ∃ p', runs (apply_source_page_with_inventories capture a selectors page h)
    [Ev (ApplySourcePage a (head progress)
           {| sb_events := l'; sb_next := sb_next page; sb_has_more := sb_has_more page |}
           (ps_committed p) (finish_page page p) ((λ c, c.1.1) <$> surviving p)) x] p'.
Proof.
  intros Hl Hv Hr. unfold apply_source_page_with_inventories, apply_page_locked, commit_page.
  rewrite Hl, Hv, Hr. eexists. right. exists x, []. split; [done|].
  apply runs_nil.
Qed.
End handler.
End runs.

(** ** Properties *)

Section properties.
Context `{SerdeNumber, UnicodeData, JsonDeserializer, !CandidateDigest, !RecordWriter}.

(** A page that the source read. *)
Lemma read_page_selectable s after page :
  read_batch s after = Ok page → Forall selectable_event (sb_events page).
Proof.
  intros (batch & _ & _ & _ & _ & Hf & _)%read_batch_ok.
  induction Hf as [|e ev l l' Hn _ IH]; constructor; [|done].
  destruct ev; try done. by eapply normalize_selectable.
Qed.

Lemma read_page_cursors s after page :
  read_batch s after = Ok page →
  increasing after (event_cursor <$> sb_events page) ∧ resumes after (event_cursor <$> sb_events page) (sb_next page).
Proof.
  intros (batch & _ & _ & Hi & Hr & Hf & -> & _)%read_batch_ok.
  assert (event_cursor <$> sb_events page = pv_cursor <$> pb_events batch) as ->; [|done]. clear Hi Hr.
  induction Hf as [|e ev l l' Hn _ IH]; [done|]. rewrite !fmap_cons, IH. f_equal.
  by apply normalize_keeps in Hn as [-> _].
Qed.

Variable a : EffectiveActivation.

(** C10: every publication is applied once and in order.  Whatever pages are read
    and handed to the engine, by any number of engines, with any progress in
    memory and any answers of the store, the store only ever commits events
    whose cursors increase strictly from the start and do not pass the durable
    cursor, and the observation positions that it commits are consecutive: one
    for each observation of the committed pages, in their order. *)
Theorem pages_applied_once p0 st :
  history a p0 st →
  increasing (publication_cursor p0) (event_cursor <$> st_events st) ∧
  (∀ e, e ∈ st_events st → event_cursor e ≤ publication_cursor (st_progress st)) ∧
  Forall2 commits (filter (λ e, is_observation e = true) (st_events st)) (st_committed st) ∧
  position_of <$> st_committed st = positions (observation_position p0) (length (st_committed st)) ∧
  observation_position (st_progress st) = observation_position p0 + N.of_nat (length (st_committed st)).
Proof.
  intros (Hi & _ & Hle & Hc & Hp & Hn)%history_in_order. split_and!; try done.
  intros e He. apply Hle. by apply list_elem_of_fmap_2.
Qed.

Context {W : Type}.
Variable capture : PublicationCursor → Observation → SE W StoreError (option CurrentInventories).

(** The progress that an engine keeps in memory is the durable one.  When it
    is at the start of a page, every transaction of the page names the durable
    head, so that the store has no conflict to report, and it is again at the
    end, whatever failed in between: a transaction that reports an error, though
    it may have committed, leaves no progress in memory, and the next page loads
    it again. *)
Theorem progress_cached s after page selectors h d d' tr p' :
  read_batch s after = Ok page → coherent a selectors d →
  runs (apply_source_page_with_inventories capture a selectors page h) tr p' →
  ghost_steps (stored_step a) d tr d' →
  match p' with
  | Ret r => coherent a r.1.1 d'
  | Call c _ => from_head _ c d'
  | Atomic _ _ => True
  | Halt _ => False
  end.
Proof.
  intros Hr Hco Hrun Hs.
  pose proof (page_coherent a capture selectors page h d (read_page_selectable _ _ _ Hr) Hco) as Hp.
  destruct (hoare_sound _ _ _ _ _ _ _ _ _ _ Hp Hrun Hs) as [_ Hpost]. by destruct p'.
Qed.

(** The engine accepts the pages of the source.  A page that was read after
    the durable cursor passes the check of the page, and no run of the handler
    panics: the messages carry their identities, the contexts take inventories,
    and every record that the selection asks for is there. *)
Theorem read_page_applies s progress page :
  read_batch s (publication_cursor progress) = Ok page →
  validate_source_page progress page = Ok tt ∧
  ∀ selectors h tr why,
    ¬ runs (apply_source_page_with_inventories capture a selectors page h) tr (Halt why).
Proof.
  intros Hr. split; [by apply validate_source_page_ok, read_page_cursors with s|].
  intros selectors h tr why Hrun.
  pose proof (page_asking capture a selectors page h (read_page_selectable _ _ _ Hr)) as Hask.
  assert (∀ tr, ghost_steps (G:=unit) (call:=service_call) (λ _ _ _ _ _, True) tt tr tt) as Hghost.
  { intros tr'. induction tr' as [|[X c y] tr' IH]; [done|]. by exists tt. }
  by destruct (hoare_sound _ _ _ _ _ _ _ _ _ _ Hask Hrun (Hghost tr)) as [_ Hhalt].
Qed.

(** C11: what the engine asks the store to commit with a page is sound.  The
    observations are those of the page, at the positions after the durable one;
    the selection has moved by steps of the selection state only; and every
    candidate was triggered by an observation of the page, in the order of the
    triggers, and no later event of the page corrects or removes a message it
    holds, rebinds its evidence, or resets its branch. *)
Theorem page_commits_current s after page selectors h before b expected page' committed next candidates x rest p' :
  read_batch s after = Ok page →
  runs (apply_source_page_with_inventories capture a selectors page h)
    (before ++ Ev (ApplySourcePage b expected page' committed next candidates) x :: rest) p' →
  ∃ progress,
    expected = head progress ∧ publication_cursor next = sb_next page' ∧
    Forall2 commits (filter (λ e, is_observation e = true) (sb_events page')) committed ∧
    position_of <$> committed = positions (observation_position progress) (length committed) ∧
    rtc (page_step (W:=W) a) (progress_selection progress) (progress_selection next) ∧
    Forall (current_candidate a page' committed) candidates ∧
    sublist (fr_trigger_position <$> candidates) (position_of <$> committed).
Proof.
  intros Hr Hrun. apply read_page_selectable in Hr.
  destruct (run_request a capture _ _ _ _ _ _ _ _ _ _ _ _ _ Hr Hrun) as (_ & progress & Hreq).
  exists progress. destruct Hreq. by split_and!.
Qed.
End properties.

(** ** Samples *)

Lemma ok_inv {A E} (r : result A E) : is_ok r = true → ∃ x, r = Ok x.
Proof. destruct r; [eauto|done]. Qed.

Lemma paged_inv {S E A} (r : result A E * S) : is_ok r.1 = true → ∃ x s, r = (Ok x, s).
Proof. destruct r as [[x|e] s]; [eauto|done]. Qed.

Section sample.
#[local] Existing Instance text_numbers.
#[local] Existing Instance ascii_unicode.
#[local] Existing Instance no_json.
#[local] Existing Instance Sample.sample_digest.
#[local] Existing Instance compact_writer.

Definition message_event (cursor : N) (i : string) : PublishedEvidenceEvent :=
  sample_event cursor (ChangeObservation
    (sample_publication i (PayloadUserMessage (sample_text i "user_message" "user")))).

(** Two messages and the removal of the first one. *)
Definition sample_batch : PublishedEvidenceBatch :=
  {| pb_events := [message_event 4 "m1"; message_event 6 "m2"; sample_event 7 (ChangeRemoval "m1" 2);
                   message_event 9 "m3"];
     pb_next := 9; pb_has_more := false |}.

Definition sample_source : PublishedEvidenceSource :=
  {| reader := λ _, Ok sample_batch; page_size := 10 |}.

Definition sample_start : SourceProgress :=
  {| publication_cursor := 3; observation_position := 20; progress_selection := SelectionState_default |}.

Definition no_capture : PublicationCursor → Observation → SE unit StoreError (option CurrentInventories) :=
  λ _ _, ret None.

Definition sample_selectors : Selectors := {[ea_id Sample.sample_activation := sample_start]}.

Lemma sample_read : is_ok (read_batch sample_source 3) = true.
Proof. vm_refl. Qed.

(** What the page gives: the candidates, before and after the stale ones are dropped. *)
Definition page_summary (r : checked SourceBatch) : option (nat * list N * list N) :=
  match r with
  | Ok page =>
      match apply_events no_capture Sample.sample_activation 0 (sb_events page) (initial_page sample_start tt) with
      | (Ok _, p) => Some (length (ps_committed p), (λ c, fr_trigger_position c.1.1) <$> ps_candidates p,
                           (λ c, fr_trigger_position c.1.1) <$> surviving p)
      | _ => None
      end
  | Err _ => None
  end.

(** The window of [m1] and [m2] is stale after the removal of [m1]; that of [m2]
    and [m3] is a candidate. *)
Example sample_page_summary :
  page_summary (read_batch sample_source 3) = Some (3%nat, [22; 23], [23]).
Proof. vm_refl. Qed.

Lemma sample_applies page :
  read_batch sample_source 3 = Ok page →
  ∃ l p, apply_events no_capture Sample.sample_activation 0 (sb_events page) (initial_page sample_start tt) = (Ok l, p) ∧
         length (ps_committed p) = 3%nat.
Proof.
  intros Hp. pose proof sample_page_summary as Hs. rewrite Hp in Hs. unfold page_summary in Hs.
  destruct (apply_events _ _ _ _ _) as [[l|e] p]; [|done]. injection Hs as Hs _ _.
  exact (ex_intro _ l (ex_intro _ p (conj eq_refl Hs))).
Qed.

Lemma sample_selected : sample_selectors !! ea_id Sample.sample_activation = Some sample_start.
Proof. apply lookup_singleton_eq. Qed.

Lemma read_page_applies_witness :
  ∃ page, read_batch sample_source 3 = Ok page ∧ validate_source_page sample_start page = Ok tt.
Proof.
  destruct (ok_inv _ sample_read) as [page Hp]. exists page. split; [exact Hp|].
  exact (proj1 (read_page_applies Sample.sample_activation no_capture sample_source sample_start page Hp)).
Defined.

(** The request of the sample page, for any answer. *)
Lemma sample_request x :
  ∃ page l (p : PageState (W:=unit)) p',
    read_batch sample_source 3 = Ok page ∧ length (ps_committed p) = 3%nat ∧
    runs (apply_source_page_with_inventories no_capture Sample.sample_activation sample_selectors page tt)
      [Ev (ApplySourcePage Sample.sample_activation (head sample_start)
             {| sb_events := l; sb_next := sb_next page; sb_has_more := sb_has_more page |}
             (ps_committed p) (finish_page page p) ((λ c, c.1.1) <$> surviving p)) x] p'.
Proof.
  destruct (ok_inv _ sample_read) as [page Hp]. destruct (sample_applies page Hp) as (l & p & Hl & Hlen).
  assert (validate_source_page sample_start page = Ok tt) as Hv
    by (apply validate_source_page_ok; exact (read_page_cursors sample_source 3 page Hp)).
  destruct (commit_runs Sample.sample_activation no_capture sample_selectors sample_start page tt l p x
              sample_selected Hv Hl) as [p' Hrun].
  exists page, l, p, p'. split; [exact Hp|]. split; [exact Hlen|exact Hrun].
Qed.

(** The sample page is committed, though the answer is lost. *)
Lemma pages_applied_once_witness :
  ∃ st, history Sample.sample_activation sample_start st ∧ length (st_committed st) = 3%nat ∧
        position_of <$> st_committed st = positions 20 (length (st_committed st)).
Proof.
  destruct (sample_request (Err {| store_message := "lost" |})) as (page & l & p & p' & Hp & Hlen & Hrun).
  pose proof (history_commit Sample.sample_activation sample_start no_capture _ sample_selectors page tt [] _ _ _ _
    (Err {| store_message := "lost" |}) [] p' (history_start Sample.sample_activation sample_start)
    (read_page_selectable sample_source 3 page Hp) Hrun) as Hh.
  eexists. split; [exact Hh|]. split; [exact Hlen|].
  destruct (pages_applied_once Sample.sample_activation sample_start _ Hh) as (_ & _ & _ & Hpos & _). exact Hpos.
Defined.

Lemma sample_coherent : coherent Sample.sample_activation sample_selectors sample_start.
Proof. intros p. rewrite sample_selected. by intros [= ->]. Qed.

(** After the transaction was lost, the engine has no progress in memory. *)
Lemma progress_cached_witness :
  ∃ page (tr : list (event service_call)) p',
    runs (apply_source_page_with_inventories no_capture Sample.sample_activation sample_selectors page tt) tr p' ∧
    length tr = 1%nat ∧
    match p' with
    | Ret r => coherent Sample.sample_activation r.1.1 sample_start
    | Call c _ => from_head _ c sample_start
    | Atomic _ _ => True
    | Halt _ => False
    end.
Proof.
  destruct (sample_request (Err {| store_message := "lost" |})) as (page & l & p & p' & Hp & _ & Hrun).
  match type of Hrun with
  | runs _ ?tr _ => assert (ghost_steps (stored_step Sample.sample_activation) sample_start tr sample_start) as Hs
  end.
  { exists sample_start. split; [|reflexivity]. right. split; [reflexivity|]. left. reflexivity. }
  refine (ex_intro _ page (ex_intro _ _ (ex_intro _ p' (conj Hrun (conj eq_refl
    (progress_cached Sample.sample_activation no_capture sample_source 3 page sample_selectors tt
      sample_start sample_start _ p' Hp sample_coherent Hrun Hs)))))).
Defined.

Lemma page_commits_current_witness :
  ∃ page' (committed : list CommittedSourceObservation) candidates,
    length committed = 3%nat ∧ Forall (current_candidate Sample.sample_activation page' committed) candidates.
Proof.
  destruct (sample_request (Ok tt)) as (page & l & p & p' & Hp & Hlen & Hrun).
  destruct (page_commits_current Sample.sample_activation no_capture sample_source 3 page sample_selectors tt []
    _ _ _ _ _ _ (Ok tt) [] p' Hp Hrun) as (progress & _ & _ & _ & _ & _ & Hc & _).
  eexists _, _, _. split; [exact Hlen|exact Hc].
Defined.
End sample.
