(* ===== verification/Recovery.v ===== *)
(** * Recovery (crates/antiburn-checks/src/engine.rs, [recover_pending])

    After a restart the engine reads the unfinished work of the store page by
    page.  Work that is still to be done goes back to the queue; an assessment
    that was complete before the restart is published without a new request,
    provided that it is exactly what the saved attempts and the saved preparation
    give. *)

From stdpp Require Import gmap.
From S2P Require Import Prelude Program RustString Json Diagnostics Expression Budget Provenance Scalars Evaluator Fit Domain Template Decision Check Preparation Lifecycle Selection BoundedJson Prepared Source Results Actions Progress Scheduler Engine Checkpoint Pages.

#[local] Open Scope N_scope.

(** ** Equality of assessments

    The derived [PartialEq]: numbers are compared as [f64]s, so a NaN is not
    equal to itself and the two zeros are equal. *)
Fixpoint list_eqb {A} (eqb : A → A → bool) (l l' : list A) : bool :=
  match l, l' with
  | [], [] => true
  | x :: l, y :: l' => eqb x y && list_eqb eqb l l'
  | _, _ => false
  end.

Definition option_eqb {A} (eqb : A → A → bool) (x y : option A) : bool :=
  match x, y with
  | None, None => true
  | Some x, Some y => eqb x y
  | _, _ => false
  end.

Definition f64_eqb : f64 → f64 → bool := SFeqb.

Definition choice_eqb (x y : ChoiceResult) : bool :=
  String.eqb (ch_output x) (ch_output y) &&
  option_eqb (list_eqb (λ c d : string * f64, String.eqb c.1 d.1 && f64_eqb c.2 d.2))
    (ch_probabilities x) (ch_probabilities y) &&
  option_eqb f64_eqb (ch_confidence x) (ch_confidence y).

Definition score_eqb (x y : ScoreResult) : bool :=
  f64_eqb (sc_output x) (sc_output y) &&
  option_eqb (list_eqb f64_eqb) (sc_probabilities x) (sc_probabilities y) &&
  option_eqb f64_eqb (sc_confidence x) (sc_confidence y).

Definition question_result_eqb (x y : QuestionResult) : bool :=
  match x, y with
  | RChoice x, RChoice y => choice_eqb x y
  | RScore x, RScore y => score_eqb x y
  | RNoul x, RNoul y => f64_eqb (no_output x) (no_output y)
  | _, _ => false
  end.

Definition decision_result_eqb (x y : DecisionResult) : bool :=
  String.eqb (dr_decision x) (dr_decision y) &&
  list_eqb (λ a b, String.eqb (an_name a) (an_name b) && question_result_eqb (an_result a) (an_result b))
    (dr_answers x) (dr_answers y) &&
  (dr_attempts x =? dr_attempts y).

Definition assessment_eqb (x y : EvaluatedAssessment) : bool :=
  (as_version x =? as_version y) &&
  list_eqb decision_result_eqb (as_decisions x) (as_decisions y) &&
  (as_attempts x =? as_attempts y).

Section recovery.
Context `{SerdeNumber, UnicodeData, JsonDeserializer, !RecordWriter}.

(** ** What the saved work must rest on *)

(** [restored_evaluation_budget] *)
Definition restored_evaluation_budget (compiled : CompiledCheck) (preparation : option PreparationRecord) :
    result EvaluationBudget EvaluationDiagnostic :=
  let failed detail := {| ed_code := ECActionFailed; ed_detail := detail |} in
  if is_local compiled then
    match preparation with
    | Some (RecordLocal prepared) =>
        let? _ := map_err (λ e, failed (pf_detail e)) (LocalPreparation_validate_for_resume prepared) in
        Ok (evaluation_budget prepared)
    | _ => Err (failed "A saved local answer requires its original local preparation.")
    end
  else
    match preparation with
    | Some (RecordReady prepared) =>
        let? _ := map_err (λ e, failed (prepared_message e))
          (prepared_validate_for_declarations prepared (cc_decisions compiled)) in
        Ok (pa_evaluation_budget prepared)
    | _ => Err (failed "A saved model answer requires its original model preparation.")
    end.

(** [complete]: the rows of the attempts give exactly the saved answer. *)
Definition progress_matches (compiled : CompiledCheck) (progress : DecisionProgress)
    (evaluated : EvaluatedAssessment) : bool :=
  match validate_decision_progress (cc_decisions compiled) (question_requirements compiled) progress with
  | Ok v => match vp_state v with PComplete saved => assessment_eqb saved evaluated | _ => false end
  | Err _ => false
  end.

(** The preparation that a saved model answer is published with. *)
Definition recovered_preparation (compiled : CompiledCheck) (progress : DecisionProgress)
    (evaluated : EvaluatedAssessment) (preparation : option PreparationRecord) :
    option PreparedAssessment :=
  match preparation with
  | Some (RecordReady prepared) =>
      if progress_matches compiled progress evaluated &&
         is_ok (prepared_validate_for_declarations prepared (cc_decisions compiled))
      then Some prepared else None
  | _ => None
  end.

(** ** One record *)

(** A call of an evaluation, for its error only. *)
Definition evaluation_call {X} (c : engine_call (result X StoreError)) : service (result unit StoreError) :=
  let! _ := pcall (Evaluation c) in Ret (Ok tt).

(** The saved answer of a model check. *)
Definition recover_model (a : EffectiveActivation) (claimed : ClaimedCandidate)
    (evaluated : EvaluatedAssessment) (preparation : option PreparationRecord) :
    service (result unit StoreError) :=
  let! progress := pcall (Evaluation (LoadDecisionProgress claimed)) in
  match recovered_preparation (ea_compiled a) progress evaluated preparation with
  | Some prepared =>
      let! _ := evaluating (publish_model a claimed prepared evaluated) in Ret (Ok tt)
  | None =>
      evaluation_call (RecordPreparationRejection claimed (incompatible_preparation
        "The saved answer does not match complete durable decision progress and preparation."))
  end.

(** The saved answer of a local check. *)
Definition recover_local (a : EffectiveActivation) (claimed : ClaimedCandidate)
    (evaluated : EvaluatedAssessment) (preparation : option PreparationRecord) :
    service (result unit StoreError) :=
  match restored_evaluation_budget (ea_compiled a) preparation with
  | Err diagnostic => evaluation_call (RecordEvaluationFailure claimed diagnostic)
  | Ok budget =>
      let plan := plan_with_budget (ea_compiled a) claimed
        (fc_value (fr_context (cl_candidate claimed))) evaluated budget in
      match plan with
      | Err _ => let! _ := evaluating (submit claimed evaluated plan) in Ret (Ok tt)
      | Ok _ =>
          call! current :=
            (if is_local (ea_compiled a) then pcall (Evaluation (LocalExecutionIsCurrent a)) else Ret true) in
          if negb current then Ret (Ok tt)
          else let! _ := evaluating (submit claimed evaluated plan) in Ret (Ok tt)
      end
  end.

(** The arm [Answered]. *)
Definition recover_answered (a : EffectiveActivation) (claimed : ClaimedCandidate)
    (evaluated : EvaluatedAssessment) : service (result unit StoreError) :=
  call! current :=
    (if is_local (ea_compiled a) then pcall (Evaluation (LocalExecutionIsCurrent a)) else Ret true) in
  if negb current then Ret (Ok tt)
  else
    match validate_for_declarations evaluated (cc_decisions (ea_compiled a))
            (question_requirements (ea_compiled a)) with
    | Err error =>
        evaluation_call (RecordEvaluationFailure claimed
          {| ed_code := ECInvalidDecision; ed_detail := result_message error |})
    | Ok _ =>
        let! preparation := pcall (Evaluation (LoadPreparation claimed)) in
        if negb (is_local (ea_compiled a)) then recover_model a claimed evaluated preparation
        else recover_local a claimed evaluated preparation
    end.

Definition count_candidate (o : BatchOutcome) : BatchOutcome :=
  {| bo_observations := bo_observations o; bo_candidates := bo_candidates o + 1;
     bo_coalesced := bo_coalesced o; bo_overflowed := bo_overflowed o;
     bo_condition_outcomes := bo_condition_outcomes o; bo_filter_outcomes := bo_filter_outcomes o |}.

(** What the loops change: the key to go on from, and the counts. *)
Definition Recovered : Type := option (list N) * BatchOutcome.

(** The identity of the work in a record *)
Definition record_id (r : RecoveryRecord) : list N :=
  match rr_work r with
  | WorkPending candidate _ => CandidateId_from candidate
  | WorkAnswered claimed _ => cl_id claimed
  end.

Definition recover_record (r : RecoveryRecord) (outcome : BatchOutcome) :
    service (result Recovered StoreError) :=
  match rr_work r with
  | WorkAnswered claimed evaluated =>
      let! _ := recover_answered (rr_activation r) claimed evaluated in
      Ret (Ok (Some (cl_id claimed), outcome))
  | WorkPending candidate resumed =>
      let! outcome := admit_one (rr_activation r) candidate resumed (count_candidate outcome) in
      Ret (Ok (Some (CandidateId_from candidate), outcome))
  end.

(** ** The loops *)

Fixpoint recover_records (records : list RecoveryRecord) (st : Recovered) :
    service (result Recovered StoreError) :=
  match records with
  | [] => Ret (Ok st)
  | r :: records =>
      let! st := recover_record r st.2 in
      recover_records records st
  end.

(** Each page but the last holds work after the key, so as many pages as there is
    unfinished work are enough; see [RecoveryFacts.recovery_complete]. *)
Fixpoint recover_pages (fuel : nat) (st : Recovered) : service (result BatchOutcome StoreError) :=
  match fuel with
  | O => Halt OutOfFuel
  | S fuel =>
      let! records := pcall (LoadRecovery st.1 MAX_PENDING_CANDIDATES) in
      match records with
      | [] => Ret (Ok st.2)
      | _ =>
          let! st := recover_records records st in
          recover_pages fuel st
      end
  end.

Definition empty_outcome : BatchOutcome :=
  {| bo_observations := 0; bo_candidates := 0; bo_coalesced := 0; bo_overflowed := 0;
     bo_condition_outcomes := []; bo_filter_outcomes := [] |}.

Definition recover_pending (fuel : nat) : service (result BatchOutcome StoreError) :=
  let! _ := prune_terminal_pending in
  recover_pages fuel (None, empty_outcome).
End recovery.
