(* ===== verification/EngineFacts.v ===== *)
(** * Every run of an evaluation is safe

    The contract of the store for the attempt rows of one candidate, and the
    proof that an evaluation keeps to it: what it sends was recorded before,
    nothing is sent twice, it neither panics nor runs out of fuel, and it submits
    only complete assessments. *)

From stdpp Require Import gmap.
From S2P Require Import Prelude Program RustString Json Diagnostics Expression Budget Provenance Scalars Evaluator Fit Domain Template Decision Check Preparation Lifecycle Selection BoundedJson Prepared Results ResultFacts Actions ActionFacts Progress ProgressFacts Scheduler Engine.

#[local] Open Scope N_scope.

(** ** The durable rows of a candidate *)

(** The rows that the store holds, the attempts that were sent in the whole life
    of the candidate, and how many the current evaluation has sent. *)
Record Durable := {
  du_rows : list SavedDecisionAttempt;
  du_sent : list DecisionAttempt;
  du_now : N
}.

Definition with_rows (rows : list SavedDecisionAttempt) (d : Durable) : Durable :=
  {| du_rows := rows; du_sent := du_sent d; du_now := du_now d |}.

Definition intend (a : DecisionAttempt) (rows : list SavedDecisionAttempt) : list SavedDecisionAttempt :=
  (rows ++ [{| sa_attempt := a; sa_outcome := DispatchIntent |}])%list.

Definition settle (a : DecisionAttempt) (o : DecisionAttemptOutcome) (rows : list SavedDecisionAttempt) :
    list SavedDecisionAttempt :=
  (λ r, if decide (sa_attempt r = a) then {| sa_attempt := a; sa_outcome := o |} else r) <$> rows.

(** The restart marks abandoned dispatches as unknown. *)
Definition abandon (rows : list SavedDecisionAttempt) : list SavedDecisionAttempt :=
  (λ r, match sa_outcome r with
        | DispatchIntent => {| sa_attempt := sa_attempt r; sa_outcome := AttemptUnknown |}
        | _ => r
        end) <$> rows.

(** A write that reports an error may have committed. *)
Definition maybe (d d' committed : Durable) : Prop := d' = d ∨ d' = committed.

Section contract.
Context `{SerdeNumber}.

(** What the documentation of [CheckStore] promises of the rows: they are loaded
    exactly; a current intent is saved before the call returns and a stale one is
    not; a settled attempt has its outcome, also when the claim is stale. *)
Definition durable_step (X : Type) (c : engine_call X) : X → Durable → Durable → Prop :=
  match c in engine_call X return X → Durable → Durable → Prop with
  | LoadDecisionProgress _ => λ x d d', d' = d ∧ ∀ p, x = Ok p → dp_attempts p = du_rows d
  | RecordDispatchIntent _ _ _ a => λ x d d',
      let committed := with_rows (intend a (du_rows d)) d in
      match x with
      | Ok Current => d' = committed
      | Ok Stale => d' = d
      | Err _ => maybe d d' committed
      end
  | RecordAttemptFailure _ a kind _ => λ x d d',
      let committed := with_rows (settle a (failure_outcome kind) (du_rows d)) d in
      match x with Ok _ => d' = committed | Err _ => maybe d d' committed end
  | RecordDecisionAnswer _ a answer => λ x d d',
      let committed := with_rows (settle a (Answer answer) (du_rows d)) d in
      match x with Ok Current => d' = committed | _ => maybe d d' committed end
  | Send _ _ _ a => λ _ d d',
      d' = {| du_rows := du_rows d; du_sent := du_sent d ++ [a]; du_now := du_now d + 1 |}
  | _ => λ _ d d', d' = d
  end.

(** ** The invariant *)

(** The rows are distinct, a second attempt follows a first that was safe to
    repeat, and what was sent, once each, has a row. *)
Record durable_ok (d : Durable) : Prop := {
  do_keys : NoDup (row_key <$> du_rows d);
  do_numbers r : r ∈ du_rows d → da_number (sa_attempt r) = 1 ∨ da_number (sa_attempt r) = 2;
  do_second r : r ∈ du_rows d → da_number (sa_attempt r) = 2 →
    {| sa_attempt := {| da_decision := da_decision (sa_attempt r); da_number := 1 |};
       sa_outcome := SafeTransient |} ∈ du_rows d;
  do_sent : ∀ a, a ∈ du_sent d → a ∈ sa_attempt <$> du_rows d;
  do_once : NoDup (du_sent d)
}.

Definition attempt_key (a : DecisionAttempt) : string * N := (da_decision a, da_number a).

#[export] Instance attempt_key_inj : Inj (=) (=) attempt_key.
Proof. by intros [] [] [= -> ->]. Qed.

Lemma rows_attempts (rows : list SavedDecisionAttempt) : row_key <$> rows = attempt_key <$> (sa_attempt <$> rows).
Proof. by rewrite <- list_fmap_compose. Qed.

Lemma fresh_row (rows : list SavedDecisionAttempt) a :
  rows_at rows (da_decision a, da_number a) = None → a ∉ sa_attempt <$> rows.
Proof.
  intros Hrow Hin. apply (list_elem_of_fmap_2 attempt_key) in Hin. rewrite <- rows_attempts in Hin.
  apply row_map_elem in Hin as [o Ho]. unfold rows_at in Hrow. unfold attempt_key in Ho. congruence.
Qed.

Lemma settle_fresh a o rows : a ∉ sa_attempt <$> rows → settle a o rows = rows.
Proof.
  unfold settle. induction rows as [|r rows IH]; [done|]. csimpl. intros [Hr Hin]%not_elem_of_cons.
  rewrite decide_False by congruence. by rewrite IH.
Qed.

Lemma settle_last a o o' rows :
  a ∉ sa_attempt <$> rows →
  settle a o (rows ++ [{| sa_attempt := a; sa_outcome := o' |}]) =
  (rows ++ [{| sa_attempt := a; sa_outcome := o |}])%list.
Proof.
  intros Ha. unfold settle. rewrite fmap_app. fold (settle a o rows). rewrite settle_fresh by done.
  simpl. by rewrite decide_True.
Qed.

Lemma row_elem rows k o : NoDup (row_key <$> rows) → rows_at rows k = Some o → 
  ∃ r, r ∈ rows ∧ row_key r = k ∧ sa_outcome r = o.
Proof.
  intros Hn Hk. unfold rows_at, row_map in Hk. apply elem_of_list_to_map_2 in Hk.
  apply list_elem_of_fmap in Hk as (r & [= -> ->] & Hr). by exists r.
Qed.

(** A row of an open attempt is added: as an intent, or with its outcome. *)
Lemma durable_add d ds answers a u o :
  durable_ok d → attempt_open (rows_at (du_rows d)) ds answers a u →
  durable_ok (with_rows (du_rows d ++ [{| sa_attempt := a; sa_outcome := o |}]) d).
Proof.
  intros [Hk Hnum Hsec Hsent Hone] [Hrow Hnumber _ _].
  pose proof (fresh_row _ _ Hrow) as Hfresh. split; cbn [du_rows du_sent with_rows].
  - rewrite fmap_app. apply NoDup_app. split_and!; [done| |apply NoDup_singleton].
    intros k Hin ->%list_elem_of_singleton. apply Hfresh. rewrite rows_attempts in Hin.
    apply list_elem_of_fmap in Hin as (a' & He & Hin). by apply (inj attempt_key) in He as <-.
  - intros r [Hr| ->%list_elem_of_singleton]%elem_of_app; [by apply Hnum|]. simpl. tauto.
  - intros r [Hr| ->%list_elem_of_singleton]%elem_of_app H2; apply elem_of_app; left; [by apply Hsec|].
    simpl in *. destruct Hnumber as [[H1 _]|[_ H1]]; [lia|].
    apply row_elem in H1 as ([[name n] o'] & Hr & [= -> ->] & Ho); [|done]. simpl in Ho. by rewrite Ho in Hr.
  - intros a' Ha'. rewrite fmap_app, elem_of_app. left. by apply Hsent.
  - done.
Qed.

Lemma durable_send d a :
  durable_ok d → a ∈ sa_attempt <$> du_rows d → a ∉ du_sent d →
  durable_ok {| du_rows := du_rows d; du_sent := du_sent d ++ [a]; du_now := du_now d + 1 |}.
Proof.
  intros [Hk Hnum Hsec Hsent Hone] Ha Hnot. split; cbn [du_rows du_sent]; try done.
  - intros a' [Ha'| ->%list_elem_of_singleton]%elem_of_app; [by apply Hsent|done].
  - apply NoDup_app. split_and!; [done| |apply NoDup_singleton].
    by intros a' Ha' ->%list_elem_of_singleton.
Qed.
End contract.

(** ** The calls of an evaluation *)

Ltac hstep := cbn [hoare pbind ptry pcall atomically pupdate fst snd].

Section safety_drop.
Context `{SerdeNumber}.

(** The drop of a guard leaves the rows alone. *)
Lemma drop_guard_any (req : ∀ X, engine_call X → Durable → Prop) d :
  (∀ c, req _ (ReleasePreDispatchClaim c) d) → durable_ok d →
  hoare durable_step req durable_ok never (λ _ d', d' = d) drop_guard d.
Proof.
  intros Hreq Hd. unfold drop_guard. hstep. split; [done|]. intros [g s]. hstep.
  destruct (g_release_branch_on_drop g).
  - destruct (negb (g_finished g)); [destruct (g_safe_release g) as [r|]|].
    + unfold finish. hstep. split_and!; [done|apply Hreq|].
      intros released d' ->. split; [done|]. intros _. split; [done|]. done.
    + unfold finish. hstep. done.
    + unfold finish. hstep. done.
  - destruct (negb (g_finished g)); [unfold on_scheduler|]; hstep; done.
Qed.
End safety_drop.

Section safety.
Context `{SerdeNumber, UnicodeData, JsonDeserializer, !RecordWriter}.

(** [number_of_f64] is defined on the finite values. *)
Hypothesis finite_numbers : ∀ x, f64_finite x = true → is_Some (number_of_f64 x).

(** The limit on new intents, and the check. *)
Variable limit : N.
Variable activation : EffectiveActivation.

Notation decisions := (cc_decisions (ea_compiled activation)).
Notation requirements := (question_requirements (ea_compiled activation)).

(** The assessment of the saved rows, or the empty one of a check without
    decisions. *)
Definition assessment_complete (a : AssessmentAcceptance) (rows : list SavedDecisionAttempt) : Prop :=
  aa_evaluated a = EvaluatedAssessment_local ∨
  ∃ n, validate_decision_progress decisions requirements {| dp_attempts := rows |} =
         Ok {| vp_attempts := n; vp_state := PComplete (aa_evaluated a) |}.

(** What holds when a call is made: an intent is for an attempt without a row; a
    request is sent right after its intent was saved, for the first time, within
    the limit; and only a complete assessment is submitted. *)
Definition engine_require (X : Type) (c : engine_call X) (d : Durable) : Prop :=
  match c with
  | RecordDispatchIntent _ _ _ a => a ∉ sa_attempt <$> du_rows d
  | Send _ _ _ a => (∃ rows, du_rows d = intend a rows) ∧ a ∉ du_sent d ∧ du_now d < limit
  | Accept a => assessment_complete a (du_rows d)
  | _ => True
  end.

Notation safe_task := (hoare durable_step engine_require durable_ok never).

Lemma drop_guard_safe d : durable_ok d → safe_task (λ _ d', d' = d) drop_guard d.
Proof. by apply drop_guard_any. Qed.

Lemma restore_safe p claimed e d :
  durable_ok d → safe_task (λ _ d', d' = d) (restore_pre_dispatch p claimed e) d.
Proof.
  intros Hd. unfold restore_pre_dispatch. hstep. split_and!; [done|done|]. intros released d' ->.
  destruct released as [[]|e']; unfold restore_candidate, on_scheduler, finish; hstep; done.
Qed.

(** ** Publication *)

Lemma plan_actions_no_panic actions ctx : ∀ index plan s,
  (plan_actions actions ctx index plan s).1 ≠ Err PlanningPanicked.
Proof.
  induction actions as [|a actions IH]; intros index plan s; [done|]. cbn [plan_actions].
  destruct (plan_action a ctx s) as [[o|e] s']; [apply IH|].
  destruct (_ || _); [done|apply IH].
Qed.

Lemma plan_no_panic actions ctx assessed prior s :
  Forall decision_finite (as_decisions assessed) →
  (plan_status_actions_with_budget actions ctx assessed prior s).1 ≠ Err PlanningPanicked.
Proof.
  intros Hf. unfold plan_status_actions_with_budget, plan_status_actions_traced, bind.
  destruct (on_budget (Budget.step 1) s) as [[[]|e] s']; [|done].
  pose proof (context_no_panic finite_numbers ctx assessed Hf) as Hp.
  destruct (context_with_assessment ctx assessed) as [c|stop]; [|by destruct stop].
  pose proof (plan_actions_no_panic actions c 0 {| current_status := prior; outcomes := [] |}
    {| ac_eval := s'; ac_trace := EvaluationTrace_default |}) as Hn.
  destruct (plan_actions _ _ _ _ _) as [[plan|stop] s2]; simpl in *; congruence.
Qed.

Lemma submit_safe {L} claimed evaluated plan d :
  durable_ok d → plan ≠ Err PlanningPanicked →
  (∀ actions, assessment_complete {| aa_claimed := claimed; aa_evaluated := evaluated; aa_actions := actions |}
                (du_rows d)) →
  safe_task (λ _ d', d' = d) (submit (L:=L) claimed evaluated plan) d.
Proof.
  intros Hd Hp Hc. unfold submit. destruct plan as [actions|[e|]]; [| |done].
  - hstep. split_and!; [done|apply Hc|]. intros [r|e] d' ->; hstep; done.
  - hstep. split_and!; [done|done|]. intros [r|e'] d' ->; hstep; done.
Qed.

Lemma publish_safe {L} claimed prepared evaluated d :
  durable_ok d → Forall decision_finite (as_decisions evaluated) →
  (∀ actions, assessment_complete {| aa_claimed := claimed; aa_evaluated := evaluated; aa_actions := actions |}
                (du_rows d)) →
  safe_task (λ _ d', d' = d) (publish_model (L:=L) activation claimed prepared evaluated) d.
Proof.
  intros Hd Hf Hc. unfold publish_model. hstep. split_and!; [done|done|]. intros [[]|failure] d' ->.
  - apply submit_safe; [done|by apply plan_no_panic|done].
  - hstep. split_and!; [done|done|]. intros [r|e] d' ->; hstep; done.
Qed.

(** ** A turn of the loop *)

(** The rows are those of the progress in memory. *)
Record loop_ok (st : LoopState) (d : Durable) : Prop := {
  lo_rows : du_rows d = dp_attempts (ls_progress st);
  lo_durable : durable_ok d;
  lo_now : du_now d = ls_new_intents st;
  lo_limit : ls_new_intents st ≤ limit
}.

(** A turn that goes on leaves a longer progress that is valid. *)
Definition turn_ok (rows : nat) (t : Turn) (d : Durable) : Prop :=
  match t with
  | Done _ _ => True
  | Again st =>
      loop_ok st d ∧ length (dp_attempts (ls_progress st)) = S rows ∧
      is_ok (validate_decision_progress decisions requirements (ls_progress st)) = true
  end.

(** A complete progress validates to one answer for each decision. *)
Lemma progress_complete progress n a :
  validate_decision_progress decisions requirements progress = Ok {| vp_attempts := n; vp_state := PComplete a |} →
  as_attempts a = N.of_nat (length (dp_attempts progress)) ∧
  dr_decision <$> as_decisions a = d_name <$> decisions ∧
  validate_for_declarations a decisions requirements = Ok tt.
Proof.
  intros Hv. apply validate_progress_spec in Hv as (answers & st & [_ _ Hsh _] & Hn & Hfin).
  cbn [vp_state vp_attempts] in Hfin, Hn. destruct st as [st|].
  - simpl in Hfin. subst st. exfalso. remember (Some (PComplete a)) as st eqn:Est.
    induction Hsh as [|b bs ans anss st' Ha _ IH|b bs st' Hst _]; [done|by apply IH|].
    injection Est as ->. by apply stops_cases in Hst as [(? & _ & _ & [=])|(? & ? & ? & _ & [=])].
  - destruct Hfin as (built & Hb & Hat & [= ->]). apply assessment_revalidates_helper in Hb as (Hb & Hnames & _).
    split_and!; [by rewrite Hat|done|done].
Qed.

Lemma complete_finite progress n a :
  validate_decision_progress decisions requirements progress = Ok {| vp_attempts := n; vp_state := PComplete a |} →
  Forall decision_finite (as_decisions a).
Proof. intros (_ & _ & Hv)%progress_complete. by eapply assessment_finite. Qed.

Lemma next_open progress n a u :
  validate_decision_progress decisions requirements progress = Ok {| vp_attempts := n; vp_state := PNext a u |} →
  ∃ answers, attempt_open (rows_at (dp_attempts progress)) decisions answers a u.
Proof.
  intros Hv. apply validate_progress_spec in Hv as (answers & st & [_ _ Hsh _] & _ & Hfin).
  cbn [vp_state vp_attempts] in Hfin. destruct st as [st|].
  - simpl in Hfin. subst st. exists answers. by apply (shape_next requirements).
  - by destruct Hfin as (? & _ & _ & [=]).
Qed.

Variable env : RunEnv.
Hypothesis env_activation : re_activation env = activation.
Hypothesis env_limit : re_maximum_new_intents env = limit.

Lemma done_safe st r d rows : durable_ok d → safe_task (turn_ok rows) (done_outcome st r) d.
Proof. intros Hd. unfold done_outcome. hstep. done. Qed.

Lemma terminal_safe st t d rows : durable_ok d → safe_task (turn_ok rows) (terminal_turn env st t) d.
Proof.
  intros Hd. unfold terminal_turn, set_release, on_guard. hstep. split; [done|]. intros _.
  split_and!; [done|done|]. intros [r|e] d' ->; apply done_safe; done.
Qed.

(** The row of an intent takes an outcome. *)
Lemma durable_settle a o d saved :
  durable_ok d → du_rows d = intend a saved → a ∉ sa_attempt <$> saved →
  durable_ok (with_rows (saved ++ [{| sa_attempt := a; sa_outcome := o |}]) d).
Proof.
  intros [Hk Hnum Hsec Hsent Hone] Hrows Ha. rewrite Hrows in *. unfold intend in *.
  assert (∀ r, da_number (sa_attempt r) = 2 →
    {| sa_attempt := {| da_decision := da_decision (sa_attempt r); da_number := 1 |}; sa_outcome := SafeTransient |}
      ∈ (saved ++ [{| sa_attempt := a; sa_outcome := DispatchIntent |}])%list →
    {| sa_attempt := {| da_decision := da_decision (sa_attempt r); da_number := 1 |}; sa_outcome := SafeTransient |}
      ∈ (saved ++ [{| sa_attempt := a; sa_outcome := o |}])%list) as Hkeep.
  { intros r _ [Hin|[=]%list_elem_of_singleton]%elem_of_app. apply elem_of_app. by left. }
  split; cbn [du_rows du_sent with_rows]; rewrite ?fmap_app in *; try done.
  - intros r [Hr| ->%list_elem_of_singleton]%elem_of_app; [apply Hnum, elem_of_app; by left|].
    apply (Hnum {| sa_attempt := a; sa_outcome := DispatchIntent |}), elem_of_app. right. by left.
  - intros r [Hr| ->%list_elem_of_singleton]%elem_of_app Hsnd; apply (Hkeep _ Hsnd).
    + apply Hsec; [|done]. apply elem_of_app. by left.
    + apply (Hsec {| sa_attempt := a; sa_outcome := DispatchIntent |}); [|done].
      apply elem_of_app. right. by left.
Qed.

(** What the durable state is after an attempt was settled. *)
Definition settled_ok (a : DecisionAttempt) (saved : list SavedDecisionAttempt) (d : Durable)
    (r : result (ClaimOutcome * DecisionAttemptOutcome * option EvaluationDiagnostic) StoreError)
    (d' : Durable) : Prop :=
  durable_ok d' ∧
  ∀ o diagnostic, r = Ok (Current, o, diagnostic) →
  d' = with_rows (saved ++ [{| sa_attempt := a; sa_outcome := o |}]) d.

Lemma validate_answer_some a answers u answer progress :
  attempt_open (rows_at (dp_attempts progress)) decisions answers a u →
  is_Some (validate_answer activation a answer progress).
Proof.
  intros [_ _ (b & Hb & Hname) _]. unfold validate_answer.
  destruct (List.find _ decisions) as [block|] eqn:Ef; [simpl; eauto|].
  apply list_elem_of_lookup_2, list_elem_of_In in Hb.
  pose proof (find_none _ _ Ef b Hb) as Hn. simpl in Hn. by rewrite Hname, String.eqb_refl in Hn.
Qed.

Lemma settle_attempt_safe claimed a u answers evaluated progress d :
  durable_ok d → attempt_open (rows_at (dp_attempts progress)) decisions answers a u →
  du_rows d = intend a (dp_attempts progress) →
  safe_task (settled_ok a (dp_attempts progress) d)
    (settle_decision_attempt activation claimed a evaluated progress) d.
Proof.
  intros Hd Hopen Hrows. pose proof Hopen as [Hrow _ _ _]. pose proof (fresh_row _ _ Hrow) as Hfresh.
  assert (∀ o, settle a o (du_rows d) = (dp_attempts progress ++ [{| sa_attempt := a; sa_outcome := o |}])%list) as Hs
    by (intros o; rewrite Hrows; by apply settle_last).
  pose proof (λ o, durable_settle a o d _ Hd Hrows Hfresh) as Hok.
  assert (∀ o d', maybe d d' (with_rows (settle a o (du_rows d)) d) → durable_ok d') as Hmaybe.
  { intros o d' [->| ->]; [done|]. rewrite Hs. apply Hok. }
  unfold settle_decision_attempt.
  apply (hoare_bind _ _ _ _ (λ r d', d' = d ∧ (∀ x, r = Ok x → True))).
  { destruct evaluated as [answer|failure]; [|hstep; done].
    destruct (validate_answer_some a answers u answer progress Hopen) as [r ->]. hstep. done. }
  intros r d' _ [-> _]. destruct r as [answer|failure].
  - hstep. split_and!; [done|done|]. intros [[]|e] d' Hstep; cbn in Hstep; hstep; unfold settled_ok.
    + subst d'. rewrite Hs. split_and!; [apply Hok|apply Hok|]. by intros o diagnostic [= <- <-].
    + split_and!; [by eapply Hmaybe|by eapply Hmaybe|done].
    + split_and!; [by eapply Hmaybe|by eapply Hmaybe|done].
  - hstep. split_and!; [done|done|]. intros [x|e] d' Hstep; cbn in Hstep; hstep; unfold settled_ok.
    + subst d'. rewrite Hs. split_and!; [apply Hok|apply Hok|]. by intros o diagnostic [= -> <- <-].
    + split_and!; [by eapply Hmaybe|by eapply Hmaybe|done].
Qed.

Lemma settle_safe st a u answers evaluated d :
  durable_ok d → attempt_open (rows_at (dp_attempts (ls_progress st))) decisions answers a u →
  du_rows d = intend a (dp_attempts (ls_progress st)) →
  du_now d = ls_new_intents st → ls_new_intents st ≤ limit →
  safe_task (turn_ok (length (dp_attempts (ls_progress st)))) (settle_turn env st a evaluated) d.
Proof.
  intros Hd Hopen Hrows Hnow Hlim. unfold settle_turn. rewrite env_activation.
  eapply hoare_bind; [by eapply settle_attempt_safe|].
  intros r d' Hd' [_ Hr]. destruct r as [[[[] o] diagnostic]|e]; [|by apply done_safe..].
  specialize (Hr o diagnostic eq_refl).
  unfold run_declarations, run_requirements. rewrite env_activation.
  match goal with |- context [validate_decision_progress _ _ (ls_progress ?s)] => set (st' := s) end.
  assert (loop_ok st' d') as Hloop by (subst d'; by split).
  assert (length (dp_attempts (ls_progress st')) = S (length (dp_attempts (ls_progress st)))) as Hlen
    by (simpl; rewrite length_app; simpl; lia).
  destruct (validate_decision_progress decisions requirements (ls_progress st')) as [v|e] eqn:Ev; [|by apply done_safe].
  assert (turn_ok (length (dp_attempts (ls_progress st))) (Again st') d') as Hturn
    by (split_and!; [done|done|]; by rewrite Ev).
  destruct (vp_state v); unfold set_release, disarm, on_guard; hstep.
  - split; [done|]. intros _. split_and!; [done|done|]. by intros _ d2 ->.
  - split; [done|]. intros _. split_and!; [done|done|]. by intros _ d2 ->.
  - done.
Qed.

Lemma dispatch_safe st a n u d :
  loop_ok st d → ls_new_intents st < limit →
  validate_decision_progress decisions requirements (ls_progress st) =
    Ok {| vp_attempts := n; vp_state := PNext a u |} →
  safe_task (turn_ok (length (dp_attempts (ls_progress st)))) (dispatch_turn env st a) d.
Proof.
  intros [Hrows Hd Hnow Hlim] Hlt Hv. apply next_open in Hv as [answers Hopen].
  pose proof Hopen as [Hrow _ _ _]. pose proof (fresh_row _ _ Hrow) as Hfresh.
  assert (durable_ok (with_rows (intend a (du_rows d)) d)) as Hd'.
  { rewrite <- Hrows in Hopen. by eapply durable_add. }
  assert (a ∉ du_sent d) as Hnew by (intros Ha; apply Hfresh; rewrite <- Hrows; by apply (do_sent _ Hd)).
  unfold dispatch_turn, set_release, on_guard. hstep. split; [done|]. intros _.
  split_and!; [done|cbn [engine_require]; by rewrite Hrows|]. intros [[]|e] d' Hstep; cbn in Hstep.
  - subst d'. apply (hoare_bind _ _ _ _ (λ _ d1, d1 = with_rows (intend a (du_rows d)) d)).
    { destruct (_ && _); unfold on_scheduler; hstep; done. }
    intros _ d1 _ ->. hstep. split_and!; [done| |].
    { cbn [engine_require with_rows du_rows du_sent du_now]. split_and!; [by eexists|done|by rewrite Hnow]. }
    intros x d1 Hd1. cbn in Hd1. subst d1.
    assert (durable_ok {| du_rows := intend a (du_rows d); du_sent := du_sent d ++ [a]; du_now := du_now d + 1 |}) as Hs.
    { apply (durable_send _ a) in Hd'; [done| |done]. cbn [du_rows with_rows]. unfold intend.
      rewrite fmap_app. apply elem_of_app. right. by left. }
    split_and!; [done|done|]. intros evaluated d2 ->.
    eapply (settle_safe {| ls_progress := ls_progress st; ls_first_intent := false;
      ls_last_failure := ls_last_failure st; ls_attempts := ls_attempts st + 1;
      ls_new_intents := ls_new_intents st + 1 |}); cbn; [done|exact Hopen|by rewrite Hrows|lia|lia].
  - subst d'. by apply done_safe.
  - hstep. destruct Hstep as [->| ->]; done.
Qed.

Lemma next_safe st a n u d :
  loop_ok st d →
  validate_decision_progress decisions requirements (ls_progress st) =
    Ok {| vp_attempts := n; vp_state := PNext a u |} →
  safe_task (turn_ok (length (dp_attempts (ls_progress st)))) (next_turn env st a u) d.
Proof.
  intros Hl Hv. pose proof (lo_durable _ _ Hl) as Hd. unfold next_turn. rewrite env_limit, env_activation.
  destruct (N.eqb_spec (limit - ls_new_intents st) 0) as [|Hrem]; simpl orb;
    [|destruct (_ && _)].
  1,2: hstep; split_and!; [done|done|]; intros [r|err] d' ->; by apply done_safe.
  hstep. split_and!; [done|done|]. intros [[]|failure] d' ->.
  - eapply dispatch_safe; [done|lia|done].
  - hstep. split_and!; [done|done|]. intros [r|e] d' ->; by apply done_safe.
Qed.

Lemma run_turn_safe st d :
  loop_ok st d → safe_task (turn_ok (length (dp_attempts (ls_progress st)))) (run_turn env st) d.
Proof.
  intros Hl. pose proof (lo_durable _ _ Hl) as Hd. unfold run_turn, run_declarations, run_requirements.
  rewrite env_activation.
  destruct (validate_decision_progress decisions requirements (ls_progress st)) as [[n state]|err] eqn:Ev;
    [|by apply done_safe].
  cbn [vp_attempts vp_state]. destruct (negb _); [by apply done_safe|].
  destruct state as [a u|evaluated|t].
  - by eapply next_safe.
  - unfold disarm, on_guard. hstep. split; [done|]. intros _.
    eapply hoare_bind; [apply publish_safe; [done|by eapply complete_finite|]|].
    + intros actions. right. exists n. cbn [aa_evaluated]. rewrite (lo_rows _ _ Hl).
      by destruct (ls_progress st).
    + intros r d' Hd' _. by apply done_safe.
  - by apply terminal_safe.
Qed.

(** The fuel is enough: a valid progress has at most two rows for each decision,
    and every turn that goes on has added one. *)
Lemma run_loop_safe fuel : ∀ st d,
  loop_ok st d → (2 * length decisions < fuel + length (dp_attempts (ls_progress st)))%nat →
  (fuel = 0%nat → is_ok (validate_decision_progress decisions requirements (ls_progress st)) = true) →
  safe_task (λ _ _, True) (run_loop env fuel st) d.
Proof.
  induction fuel as [|fuel IH]; intros st d Hl Hfuel Hzero; cbn [run_loop].
  - specialize (Hzero eq_refl).
    destruct (validate_decision_progress decisions requirements (ls_progress st)) as [v|] eqn:Ev; [|done].
    apply validate_progress_spec in Ev as (answers & state & [_ Hrows _ _] & _).
    apply rows_bound in Hrows. lia.
  - eapply hoare_bind; [by apply run_turn_safe|]. intros [r st'|st'] d' Hd' Hturn; [hstep; done|].
    destruct Hturn as (Hl' & Hlen & Hok). apply IH; [done|lia|done].
Qed.

Lemma model_future_safe progress attempts d :
  durable_ok d → du_rows d = dp_attempts progress → du_now d = 0 →
  safe_task (λ _ _, True) (model_future env progress attempts) d.
Proof.
  intros Hd Hrows Hnow. unfold model_future. hstep. split_and!; [done|done|]. intros x d' Hd'. cbn in Hd'. subst d'.
  unfold run_model, run_fuel, run_declarations. rewrite env_activation.
  eapply hoare_bind; [apply run_loop_safe; [split; simpl; [done|done|done|lia]|simpl; lia|done]|].
  intros [[outcome|error] st] d' Hd' _.
  - unfold finish. hstep. split; [done|]. intros _. eapply hoare_bind; [by apply drop_guard_safe|].
    intros _ d2 Hd2 _. hstep. done.
  - eapply hoare_bind; [by apply drop_guard_safe|]. intros _ d2 Hd2 _. hstep. done.
Qed.
End safety.

(** ** From the reservation to the end *)

Section starting.
Context `{SerdeNumber, UnicodeData, JsonDeserializer, !RecordWriter}.
Hypothesis finite_numbers : ∀ x, f64_finite x = true → is_Some (number_of_f64 x).
Variable limit : N.
Variable activation : EffectiveActivation.

Notation safe_task := (hoare durable_step (engine_require limit activation) durable_ok never).

(** A preparation does not touch the rows. *)
Lemma prepare_claimed_safe pending claimed attempts purpose d :
  durable_ok d →
  safe_task (λ _ d', d' = d) (prepare_claimed activation pending claimed attempts purpose) d.
Proof.
  intros Hd. unfold prepare_claimed, ptry.
  eapply (hoare_bind _ _ _ _ (λ _ d', d' = d)).
  { unfold claimed_preparation, ptry. hstep. split_and!; [done|done|]. intros [[saved|]|err] d' ->; [hstep; done| |hstep; done].
    destruct (_ || _); [hstep; done|].
    eapply (hoare_bind _ _ _ _ (λ _ d', d' = d)).
    { unfold prepare_new, ptry. hstep. destruct (prepare_all_inputs _ _) as [[inputs saved]|failure]; hstep; [|done].
      split_and!; [done|done|]. intros [prepared|failure] d' ->; [|hstep; done].
      destruct (negb _); hstep; done. }
    intros prepared d' _ ->. hstep. split_and!; [done|done|]. intros [[]|err] d' ->; [|hstep; done..].
    hstep. split_and!; [done|done|]. intros x d' Hd'. cbn in Hd'. by subst d'. }
  intros [[preparation|]|err] d' _ ->; [|hstep; done..].
  eapply (hoare_bind _ _ _ _ (λ _ d', d' = d)).
  { destruct preparation as [p|l|failure]; [|hstep; done..].
    hstep. destruct (declared_preparation _ _) as [[]|failure]; hstep; [|done].
    split_and!; [done|done|]. intros [[]|failure] d' ->; hstep; done. }
  intros [p|failure] d' _ ->; [hstep; done|].
  hstep. split_and!; [done|done|]. intros [recorded|err] d' ->; hstep; done.
Qed.

(** A future that was started keeps to the contract. *)
Definition started_safe (r : result StartOutcome StoreError) (d : Durable) : Prop :=
  match r with Ok (Started future) => safe_task (λ _ _, True) future d | _ => True end.

Lemma ready_safe r d : durable_ok d → safe_task (λ _ _, True) (ready r) d.
Proof. intros Hd. unfold ready. hstep. split_and!; [done|done|]. intros x d' Hd'. cbn in Hd'. by subst d'. Qed.

Lemma restored_safe p claimed error d :
  durable_ok d →
  safe_task started_safe (call! error := restore_pre_dispatch p claimed error in Ret (Err error)) d.
Proof. intros Hd. eapply hoare_bind; [by apply restore_safe|]. intros err d' Hd' _. hstep. done. Qed.

Lemma start_model_safe now policy pending claimed d :
  durable_ok d → du_now d = 0 →
  safe_task started_safe (start_model activation now limit policy pending claimed) d.
Proof.
  intros Hd Hnow. unfold start_model. hstep. split_and!; [done|done|].
  intros [progress|err] d' [-> Hload]; [|by apply restored_safe].
  specialize (Hload progress eq_refl).
  destruct (validate_decision_progress _ _ progress) as [validated|err].
  2:{ unfold start_invalid, finish. hstep. split_and!; [done|done|]. intros recorded d' ->.
      split; [done|]. intros _. split; [done|]. by apply ready_safe. }
  eapply hoare_bind; [by apply prepare_claimed_safe|]. intros [[p|s|]|err] d' _ ->.
  - unfold on_guard. hstep. split; [done|]. intros _. split; [done|]. cbn [started_safe].
    eapply (model_future_safe finite_numbers); [done|done|done|by rewrite Hload|done].
  - unfold clear_if_idle, on_scheduler, finish. hstep. split; [done|]. intros _. split; [done|]. intros _.
    split; [done|]. by apply ready_safe.
  - unfold finish. hstep. done.
  - eapply hoare_bind; [by apply restore_safe|]. intros source d' Hd' _. hstep. split; [done|]. by apply ready_safe.
Qed.

Lemma local_future_safe pending claimed prepared d :
  durable_ok d → safe_task (λ _ _, True) (local_future activation pending claimed prepared) d.
Proof.
  intros Hd. unfold local_future. apply hoare_call; [done|done|]. intros x d' Hd'. cbn in Hd'. subst d'.
  set (plan := plan_with_budget _ _ _ _ _).
  assert (plan ≠ Err PlanningPanicked) as Hplan by (by apply (plan_no_panic finite_numbers)).
  eapply (hoare_bind _ _ _ _ (λ _ d', d' = d)).
  { apply hoare_call; [done|done|]. intros current d' ->. destruct (negb current); [hstep; done|].
    assert (safe_task (λ _ d', d' = d) (submit (L:=Local) claimed EvaluatedAssessment_local plan) d) as Hsubmit
      by (apply submit_safe; [done|done|]; intros actions; by left).
    destruct plan as [actions|stop]; [|exact Hsubmit].
    hstep. split_and!; [done|done|]. intros current' d' ->. destruct (negb current'); [hstep; done|exact Hsubmit]. }
  intros [outcome|source] d' _ ->.
  - unfold finish. hstep. split; [done|]. intros _. eapply hoare_bind; [by apply drop_guard_safe|].
    intros _ d2 Hd2 _. hstep. done.
  - eapply hoare_bind; [by apply drop_guard_safe|]. intros _ d2 Hd2 _. hstep. done.
Qed.

Lemma start_local_safe now policy pending claimed d :
  durable_ok d → safe_task started_safe (start_local activation now policy pending claimed) d.
Proof.
  intros Hd. unfold start_local, restore_candidate, clear_if_idle, on_scheduler, finish.
  hstep. split_and!; [done|done|]. intros current d' ->. destruct (negb current).
  { hstep. split_and!; [done|done|]. intros [[]|err] d' ->; [hstep; done..|by apply restored_safe]. }
  destruct (local_condition_failure _ _) as [failure|].
  - hstep. split_and!; [done|done|]. intros [recorded|err] d' ->; [|by apply restored_safe].
    hstep. split; [done|]. intros _. split; [done|]. intros _. split; [done|]. by apply ready_safe.
  - hstep. split_and!; [done|done|]. intros [[]|err] d' ->; [|hstep; done|by apply restored_safe].
    hstep. split; [done|]. intros _. split; [done|]. by apply local_future_safe.
Qed.

Lemma start_claimed_safe now policy pending d :
  durable_ok d → du_now d = 0 →
  safe_task started_safe (start_claimed activation now limit policy pending) d.
Proof.
  intros Hd Hnow. unfold start_claimed, restore_candidate, clear_if_idle, on_scheduler, finish.
  hstep. split_and!; [done|done|]. intros [[claimed|retry| ]|err] d' ->; [|hstep; done..].
  destruct (is_local _); [by apply start_local_safe|by apply start_model_safe].
Qed.

(** The whole life of a reservation keeps to the contract. *)
Lemma evaluation_safe now policy pending d :
  durable_ok d → du_now d = 0 →
  safe_task (λ _ _, True) (evaluation activation now limit policy pending) d.
Proof.
  intros Hd Hnow. unfold evaluation. eapply (hoare_bind _ _ _ _ started_safe).
  - unfold start_reserved, restore_candidate, on_scheduler, finish. hstep. split; [done|]. intros [g s]. cbn [fst snd].
    destruct (pending_releases s !! g_key g) as [previous|]; [|by apply start_claimed_safe].
    hstep. split_and!; [done|done|]. intros [released|err] d' ->; [|hstep; done].
    hstep. split; [done|]. intros _. by apply start_claimed_safe.
  - intros [[| |future]|err] d' Hd' Hst; try (hstep; done).
    eapply hoare_bind; [exact Hst|]. intros r d2 Hd2 _. hstep. done.
Qed.
End starting.
