(* ===== verification/RecoveryFacts.v ===== *)
(** * Facts on recovery

    What recovery asks of the outside: it never starts new work, and what it
    publishes rests on the saved rows and the saved preparation.  With a store
    that keeps its contract on pages it reads all unfinished work and ends. *)

From stdpp Require Import gmap sorting.
From S2P Require Import Prelude Program RustString Json Diagnostics Expression Budget Provenance Scalars Evaluator Fit Domain Template Decision Check Preparation Lifecycle Selection BoundedJson Prepared Source Results ResultFacts Actions ActionFacts Progress ProgressFacts Scheduler Engine EngineFacts Checkpoint Pages PageFacts Recovery.

#[local] Open Scope N_scope.

(** ** Equality of assessments *)

Lemma list_eqb_refl {A} (P : A → Prop) eqb (l : list A) :
  (∀ x, P x → eqb x x = true) → Forall P l → list_eqb eqb l l = true.
Proof. intros He. induction 1 as [|x l Hx _ IH]; [done|]. simpl. by rewrite He. Qed.

Lemma option_eqb_refl {A} (P : A → Prop) eqb (x : option A) :
  (∀ x, P x → eqb x x = true) → from_option P True x → option_eqb eqb x x = true.
Proof. intros He Hx. destruct x; [by apply He|done]. Qed.

Lemma f64_eqb_refl x : f64_finite x = true → f64_eqb x x = true.
Proof.
  destruct x as [[]| [] | |[] m e]; try done; intros _; unfold f64_eqb, SFeqb; simpl;
    by rewrite Z.compare_refl, Pos.compare_cont_refl.
Qed.

Lemma option_finite (x : option f64) :
  (∀ c, x = Some c → finite c) → option_eqb f64_eqb x x = true.
Proof. intros Hx. destruct x as [c|]; [by apply f64_eqb_refl, Hx|done]. Qed.

Lemma question_result_eqb_refl r : result_finite r → question_result_eqb r r = true.
Proof.
  destruct r as [r|r|r]; simpl.
  - intros [Hp Hc]. unfold choice_eqb. rewrite String.eqb_refl, (option_finite _ Hc). simpl.
    rewrite andb_true_r. apply (option_eqb_refl (λ l, Forall finite l.*2)).
    + intros l Hl. apply (list_eqb_refl (λ c : string * f64, finite c.2)); [|exact (proj1 (Forall_fmap snd finite l) Hl)].
      intros [n c] Hc'. simpl. by rewrite String.eqb_refl, f64_eqb_refl.
    + destruct (ch_probabilities r) as [l|]; [by apply Hp|done].
  - intros (Ho & Hp & Hc). unfold score_eqb. rewrite (f64_eqb_refl _ Ho), (option_finite _ Hc). simpl.
    rewrite andb_true_r. apply (option_eqb_refl (Forall finite)).
    + intros l. apply (list_eqb_refl finite), f64_eqb_refl.
    + destruct (sc_probabilities r) as [l|]; [by apply Hp|done].
  - apply f64_eqb_refl.
Qed.

Lemma decision_result_eqb_refl d : decision_finite d → decision_result_eqb d d = true.
Proof.
  intros Hd. unfold decision_result_eqb. rewrite String.eqb_refl, N.eqb_refl, andb_true_r. simpl.
  apply (list_eqb_refl (λ a, result_finite (an_result a))); [|exact Hd].
  intros a Ha. by rewrite String.eqb_refl, question_result_eqb_refl.
Qed.

Lemma assessment_eqb_refl a : Forall decision_finite (as_decisions a) → assessment_eqb a a = true.
Proof.
  intros Ha. unfold assessment_eqb. rewrite !N.eqb_refl, andb_true_r. simpl.
  apply (list_eqb_refl decision_finite); [apply decision_result_eqb_refl|exact Ha].
Qed.

Section sound.
Context `{SerdeNumber, UnicodeData, JsonDeserializer, !RecordWriter}.

(** ** What recovery asks for *)

Definition log : Type := list (event service_call).

(** A record that the store has answered. *)
Definition loaded (g : log) (r : RecoveryRecord) : Prop :=
  ∃ after limit records, Ev (LoadRecovery after limit) (Ok records) ∈ g ∧ r ∈ records.

Definition saved_answer (a : EffectiveActivation) (claimed : ClaimedCandidate)
    (evaluated : EvaluatedAssessment) : RecoveryRecord :=
  {| rr_activation := a; rr_work := WorkAnswered claimed evaluated |}.

(** What a published assessment rests on: it was saved for the claim and is
    valid; the actions are planned with the budget of the saved preparation; and
    for a model check the saved rows give the same assessment. *)
Record grounded (g : log) (a : EffectiveActivation) (aa : AssessmentAcceptance) : Prop := {
  gr_saved : loaded g (saved_answer a (aa_claimed aa) (aa_evaluated aa));
  gr_valid : validate_for_declarations (aa_evaluated aa) (cc_decisions (ea_compiled a))
               (question_requirements (ea_compiled a)) = Ok tt;
  gr_plan : ∃ preparation budget,
    Ev (Evaluation (LoadPreparation (aa_claimed aa))) (Ok preparation) ∈ g ∧
    restored_evaluation_budget (ea_compiled a) preparation = Ok budget ∧
    plan_with_budget (ea_compiled a) (aa_claimed aa)
      (fc_value (fr_context (cl_candidate (aa_claimed aa)))) (aa_evaluated aa) budget = Ok (aa_actions aa);
  gr_progress : is_local (ea_compiled a) = false → ∃ progress,
    Ev (Evaluation (LoadDecisionProgress (aa_claimed aa))) (Ok progress) ∈ g ∧
    progress_matches (ea_compiled a) progress (aa_evaluated aa) = true
}.

Definition answered (g : log) (claimed : ClaimedCandidate) : Prop :=
  ∃ a evaluated, loaded g (saved_answer a claimed evaluated).

(** The calls of a recovery, after the log [g]. *)
Definition recovery_requires (X : Type) (c : service_call X) (g : log) : Prop :=
  match c with
  | LoadRecovery _ limit => limit = MAX_PENDING_CANDIDATES
  | RecordOverflow c => ∃ a resumed, loaded g {| rr_activation := a; rr_work := WorkPending c resumed |}
  | Evaluation c =>
      match c with
      | LoadTerminalCandidateIds _ | LocalExecutionIsCurrent _ => True
      | ValidatePrepared _ _ purpose => purpose = PurposePublication
      | LoadPreparation claimed | LoadDecisionProgress claimed
      | RecordEvaluationFailure claimed _ | RecordPreparationRejection claimed _ => answered g claimed
      | Accept aa => ∃ a, grounded g a aa
      | _ => False
      end
  | _ => False
  end.

Definition logged (X : Type) (c : service_call X) (x : X) (g g' : log) : Prop := g' = (g ++ [Ev c x])%list.

(** The log only grows. *)
Definition extends (g g' : log) : Prop := g `prefix_of` g'.

Lemma loaded_extends g g' r : extends g g' → loaded g r → loaded g' r.
Proof.
  intros [k ->] (after & limit & records & He & Hr). exists after, limit, records.
  split; [|done]. apply elem_of_app. by left.
Qed.

Lemma answered_extends g g' claimed : extends g g' → answered g claimed → answered g' claimed.
Proof. intros Hg (a & evaluated & Hl). exists a, evaluated. by eapply loaded_extends. Qed.

Notation keeps := (hoare logged recovery_requires (λ _, True) (λ why, why = OutOfFuel)).

(** A step that makes one call and goes on. *)
Lemma keeps_call {A X} (Q : A → log → Prop) (c : service_call X) (f : X → service A) g :
  recovery_requires X c g → (∀ x, keeps Q (f x) (g ++ [Ev c x])) → keeps Q (pbind (pcall c) f) g.
Proof. intros Hc Hf. split; [done|]. split; [done|]. intros x g' ->. apply Hf. Qed.

Lemma keeps_try {A X} (Q : result A StoreError → log → Prop) (c : service_call (result X StoreError))
    (f : X → service (result A StoreError)) g :
  recovery_requires _ c g → (∀ e, Q (Err e) (g ++ [Ev c (Err e)])%list) →
  (∀ x, keeps Q (f x) (g ++ [Ev c (Ok x)])) → keeps Q (ptry (pcall c) f) g.
Proof.
  intros Hc He Hf. split; [done|]. split; [done|]. intros [x|e] g' ->; [apply Hf|]. by split.
Qed.

Definition grows {A} (g : log) (_ : A) (g' : log) : Prop := extends g g'.

Lemma grows_snoc {A} g e (x : A) g' : grows (g ++ [e]) x g' → grows g x g'.
Proof. intros Hg. unfold grows, extends in *. etrans; [|exact Hg]. by exists [e]. Qed.

Lemma keeps_ret {A} (x : A) g : keeps (grows g) (Ret x : service A) g.
Proof. split; [done|]. unfold grows, extends. done. Qed.

Lemma keeps_snoc {A} g e (p : service A) g0 : keeps (grows (g ++ [e])) p g0 → keeps (grows g) p g0.
Proof. intros Hp. eapply hoare_mono; [exact Hp|]. intros x g' _. apply grows_snoc. Qed.

Lemma grounded_extends g g' a aa : extends g g' → grounded g a aa → grounded g' a aa.
Proof.
  intros Hg [Hs Hv (preparation & budget & Hp & Hb & Hplan) Hprog].
  assert (∀ e, e ∈ g → e ∈ g') as Hin by (intros e He; destruct Hg as [k ->]; apply elem_of_app; by left).
  split; [by eapply loaded_extends|done|exists preparation, budget; auto|].
  intros Hl. destruct (Hprog Hl) as (progress & Hr & Hm). exists progress. auto.
Qed.

(** ** The end of a publication *)

Lemma submit_keeps claimed evaluated plan g :
  plan ≠ Err PlanningPanicked → answered g claimed →
  (∀ actions, plan = Ok actions →
     ∃ a, grounded g a {| aa_claimed := claimed; aa_evaluated := evaluated; aa_actions := actions |}) →
  keeps (grows g) (evaluating (submit claimed evaluated plan)) g.
Proof.
  intros Hp Ha Hg. unfold submit. destruct plan as [actions|[e|]]; [| |done].
  - cbn [evaluating ptry pbind pcall]. split_and!; [done|by apply Hg|]. intros [x|e] g' ->; (split; [done|]);
      by eexists.
  - cbn [evaluating ptry pbind pcall]. split_and!; [done|done|]. intros [x|e'] g' ->; (split; [done|]);
      by eexists.
Qed.

Lemma answered_snoc g e claimed : answered g claimed → answered (g ++ [e])%list claimed.
Proof. apply answered_extends. by exists [e]. Qed.

Lemma loaded_snoc g e r : loaded g r → loaded (g ++ [e])%list r.
Proof. apply loaded_extends. by exists [e]. Qed.

Lemma publish_keeps a claimed prepared evaluated g :
  plan_with_budget (ea_compiled a) claimed (fc_value (fr_context (cl_candidate claimed))) evaluated
    (pa_evaluation_budget prepared) ≠ Err PlanningPanicked →
  answered g claimed →
  (∀ e actions,
     plan_with_budget (ea_compiled a) claimed (fc_value (fr_context (cl_candidate claimed))) evaluated
       (pa_evaluation_budget prepared) = Ok actions →
     grounded (g ++ [e])%list a
       {| aa_claimed := claimed; aa_evaluated := evaluated; aa_actions := actions |}) →
  keeps (grows g) (evaluating (publish_model a claimed prepared evaluated)) g.
Proof.
  intros Hp Ha Hg. unfold publish_model. cbn [evaluating ptry pbind pcall].
  split_and!; [done|done|]. intros [[]|failure] g' ->.
  - apply keeps_snoc with (Ev (Evaluation (ValidatePrepared a prepared PurposePublication)) (Ok tt)).
    apply submit_keeps; [done|by apply answered_snoc|]. intros actions Hplan. exists a. by apply Hg.
  - cbn [evaluating ptry pbind pcall]. split_and!; [done|by apply answered_snoc|].
    intros [x|e'] g' ->; (split; [done|]); unfold grows, extends; rewrite <- app_assoc; by eexists.
Qed.

(** ** One record *)

(** Any program followed by a return. *)
Lemma keeps_then {A B} (p : service (result A StoreError)) (f : A → result B StoreError) g :
  keeps (grows g) p g → keeps (grows g) (ptry p (λ x, Ret (f x))) g.
Proof.
  intros Hp. unfold ptry. eapply hoare_bind; [exact Hp|]. intros [x|e] g' _ Hg; by split.
Qed.

Lemma evaluation_call_keeps {X} (c : engine_call (result X StoreError)) g :
  recovery_requires _ (Evaluation c) g → keeps (grows g) (evaluation_call c) g.
Proof.
  intros Hc. apply keeps_then. split; [done|]. split; [done|]. intros x g' ->. split; [done|]. by eexists.
Qed.

Lemma admission_keeps {A} overflows (p : service A) g :
  (∀ c, overflows c → ∃ a resumed, loaded g {| rr_activation := a; rr_work := WorkPending c resumed |}) →
  calls_in (is_admission overflows) p → keeps (grows g) p g.
Proof.
  intros Ho Hp. eapply (calls_in_hoare _ _ _ _ (extends g)); [done| | |exact Hp|by exists []; rewrite app_nil_r].
  - intros X c g' Hc Hg. destruct c as [| | |c| |X c]; try done.
    + destruct (Ho c Hc) as (a & resumed & Hl). exists a, resumed. by eapply loaded_extends.
    + by destruct c.
  - intros X c x g1 g' _ Hg ->. unfold extends in *. etrans; [exact Hg|by eexists].
Qed.

Variable finite_numbers : ∀ x : f64, f64_finite x = true → is_Some (number_of_f64 x).

Lemma recovered_plan_no_panic a claimed evaluated budget :
  validate_for_declarations evaluated (cc_decisions (ea_compiled a))
    (question_requirements (ea_compiled a)) = Ok tt →
  plan_with_budget (ea_compiled a) claimed (fc_value (fr_context (cl_candidate claimed))) evaluated budget
    ≠ Err PlanningPanicked.
Proof. intros Hv. apply (plan_no_panic finite_numbers). by eapply assessment_finite. Qed.

Section answer.
Context (a : EffectiveActivation) (claimed : ClaimedCandidate) (evaluated : EvaluatedAssessment).
Hypothesis Hvalid : validate_for_declarations evaluated (cc_decisions (ea_compiled a))
  (question_requirements (ea_compiled a)) = Ok tt.

Lemma recover_local_keeps preparation g :
  is_local (ea_compiled a) = true → loaded g (saved_answer a claimed evaluated) →
  Ev (Evaluation (LoadPreparation claimed)) (Ok preparation) ∈ g →
  keeps (grows g) (recover_local a claimed evaluated preparation) g.
Proof.
  intros Hl Hg Hp. assert (answered g claimed) as Ha by (by exists a, evaluated).
  unfold recover_local. destruct (restored_evaluation_budget _ _) as [budget|d] eqn:Eb;
    [|by apply evaluation_call_keeps].
  pose proof (recovered_plan_no_panic a claimed evaluated budget Hvalid) as Hn.
  set (plan := plan_with_budget _ _ _ _ _) in *.
  assert (∀ e, keeps (grows (g ++ [e])%list) (evaluating (submit claimed evaluated plan)) (g ++ [e])%list) as Hs.
  { intros e. apply submit_keeps; [done|by apply answered_snoc|]. intros actions Hplan. exists a.
    apply (grounded_extends g); [by eexists|]. split; [done|done| |by rewrite Hl].
    by exists preparation, budget. }
  destruct plan as [actions|stop] eqn:Ep.
  - rewrite Hl. apply keeps_call; [done|]. intros []; (eapply keeps_snoc with (e := Ev _ _)).
    + apply keeps_then, Hs.
    + apply keeps_ret.
  - apply keeps_then, submit_keeps; [done|done|]. intros actions [=].
Qed.

Lemma recover_model_keeps preparation g :
  is_local (ea_compiled a) = false → loaded g (saved_answer a claimed evaluated) →
  Ev (Evaluation (LoadPreparation claimed)) (Ok preparation) ∈ g →
  keeps (grows g) (recover_model a claimed evaluated preparation) g.
Proof.
  intros Hl Hg Hp. assert (answered g claimed) as Ha by (by exists a, evaluated).
  unfold recover_model. apply keeps_try; [done|by eexists|]. intros progress.
  eapply keeps_snoc with (e := Ev _ _).
  destruct (recovered_preparation _ _ _ _) as [prepared|] eqn:Er;
    [|by apply evaluation_call_keeps, answered_snoc].
  unfold recovered_preparation in Er. destruct preparation as [[p|f|l]|]; try done.
  destruct (progress_matches _ _ _) eqn:Em; [|done].
  destruct (prepared_validate_for_declarations p _) as [[]|] eqn:Hd; [|done]. injection Er as ->.
  apply keeps_then, publish_keeps; [by apply recovered_plan_no_panic|by apply answered_snoc|].
  intros e actions Hplan. apply (grounded_extends (g ++ [Ev (Evaluation (LoadDecisionProgress claimed)) (Ok progress)]));
    [by eexists|].
  split; cbn [aa_claimed aa_evaluated aa_actions]; [by apply loaded_snoc|done| |].
  - exists (Some (RecordReady prepared)), (pa_evaluation_budget prepared).
    split; [by apply elem_of_app; left|]. unfold restored_evaluation_budget. by rewrite Hl, Hd.
  - intros _. exists progress. split; [|done]. apply elem_of_app. right. by apply list_elem_of_singleton.
Qed.
End answer.

Lemma recover_answered_keeps a claimed evaluated g :
  loaded g (saved_answer a claimed evaluated) →
  keeps (grows g) (recover_answered a claimed evaluated) g.
Proof.
  intros Hg. unfold recover_answered.
  apply (hoare_bind _ _ _ _ (grows g)).
  { destruct (is_local _); [|apply keeps_ret].
    split; [done|]. split; [done|]. intros x g' ->. split; [done|]. by eexists. }
  intros current g1 _ Hg1. apply (loaded_extends _ _ _ Hg1) in Hg.
  assert (answered g1 claimed) as Ha by (by exists a, evaluated).
  eapply (hoare_mono _ _ _ _ (grows g1)); [|intros x g' _ Hg'; unfold grows, extends in *; by etrans].
  clear Hg1. destruct (negb current); [apply keeps_ret|].
  destruct (validate_for_declarations _ _ _) as [[]|e] eqn:Hv; [|by apply evaluation_call_keeps].
  apply keeps_try; [done|by eexists|]. intros preparation. eapply keeps_snoc with (e := Ev _ _).
  assert (Ev (Evaluation (LoadPreparation claimed)) (Ok preparation) ∈
            (g1 ++ [Ev (Evaluation (LoadPreparation claimed)) (Ok preparation)])%list) as Hin
    by (apply elem_of_app; right; by apply list_elem_of_singleton).
  destruct (is_local (ea_compiled a)) eqn:El; simpl;
    [apply recover_local_keeps|apply recover_model_keeps]; try done; by apply loaded_snoc.
Qed.

(** ** The loops *)

Lemma recover_record_keeps r outcome g :
  loaded g r → keeps (grows g) (recover_record r outcome) g.
Proof.
  intros Hg. destruct r as [a [candidate resumed|claimed evaluated]]; unfold recover_record; cbn [rr_work rr_activation].
  - apply keeps_then, (admission_keeps (λ c, c = candidate)); [|by apply admit_calls].
    intros c ->. by exists a, resumed.
  - by apply keeps_then, recover_answered_keeps.
Qed.

Lemma recover_records_keeps records : ∀ st g,
  Forall (loaded g) records → keeps (grows g) (recover_records records st) g.
Proof.
  induction records as [|r records IH]; intros st g Hg; [apply keeps_ret|].
  apply Forall_cons in Hg as [Hr Hg]. unfold recover_records, ptry.
  eapply hoare_bind; [by apply recover_record_keeps|]. intros [st'|e] g' _ Hg'; [|by split].
  eapply (hoare_mono _ _ _ _ (grows g')); [|intros x g2 _ Hg2; unfold grows, extends in *; by etrans].
  apply IH. eapply Forall_impl; [exact Hg|]. intros x. by apply loaded_extends.
Qed.

Lemma recover_pages_keeps fuel : ∀ st g, keeps (λ _ _, True) (recover_pages fuel st) g.
Proof.
  induction fuel as [|fuel IH]; intros st g; [done|]. unfold recover_pages.
  apply keeps_try; [done|done|]. intros records.
  destruct records as [|r records]; [done|].
  unfold ptry. eapply hoare_bind; [|intros [st'|e] g' _ _; [apply IH|by split]].
  apply recover_records_keeps. apply Forall_forall. intros x Hx.
  eexists _, _, _. split; [|exact Hx]. apply elem_of_app. right. by apply list_elem_of_singleton.
Qed.

Lemma recover_pending_keeps fuel : keeps (λ _ _, True) (recover_pending fuel) [].
Proof.
  unfold recover_pending, ptry. eapply hoare_bind; [|intros [x|e] g' _ _; [apply recover_pages_keeps|by split]].
  apply (admission_keeps (λ _, False)); [done|]. apply prune_calls.
Qed.

(** ** The answer of an interrupted evaluation is recovered

    An evaluation may end between the last answer and the publication.  The rows
    that it saved then give the assessment that it would have published, so the
    comparison with the saved answer does not reject it. *)
Lemma own_answer_recovered a progress n saved prepared :
  validate_decision_progress (cc_decisions (ea_compiled a)) (question_requirements (ea_compiled a)) progress =
    Ok {| vp_attempts := n; vp_state := PComplete saved |} →
  prepared_validate_for_declarations prepared (cc_decisions (ea_compiled a)) = Ok tt →
  recovered_preparation (ea_compiled a) progress saved (Some (RecordReady prepared)) = Some prepared.
Proof.
  intros Hv Hp. unfold recovered_preparation, progress_matches. rewrite Hv. cbn [vp_state]. rewrite Hp.
  rewrite assessment_eqb_refl; [done|]. by eapply complete_finite.
Qed.
End sound.
