(* ===== verification/SchedulerFacts.v ===== *)
(** * Facts about the scheduler

    Every interleaving of the scheduler's sections keeps its bounds and at most
    one evaluation per branch; a branch whose evaluation was dropped after its
    intent is never reserved again; and a candidate that stays due is served
    within a bounded number of dispatches. *)

From stdpp Require Import gmap relations.
From S2P Require Import Prelude Order RustString Diagnostics Expression Domain Template Decision Check Json BoundedJson Results Lifecycle Selection Progress Scheduler.

#[local] Open Scope N_scope.

(** ** Comparisons *)

#[export] Instance option_cmp_laws : CmpLaws option_cmp.
Proof.
  split.
  - intros [x|] [y|]; simpl; [apply N.compare_antisym|done..].
  - intros [x|] [y|] [z|]; simpl; try done. rewrite !N.compare_le_iff. lia.
Qed.

#[export] Instance run_cmp_laws : CmpLaws run_cmp.
Proof.
  split.
  - intros [|x] [|y]; simpl; [done..|apply String.compare_antisym].
  - intros [|x] [|y] [|z]; simpl; try done. apply cmp_trans.
Qed.

#[export] Instance activation_cmp_laws : CmpLaws activation_cmp.
Proof.
  unfold activation_cmp. repeat apply lexicographic_laws; try apply pullback_laws; apply _.
Qed.

#[export] Instance key_cmp_laws : CmpLaws key_cmp.
Proof.
  apply lexicographic_laws; [by apply (pullback_laws sk_activation), _|].
  by apply (pullback_laws (λ k, branch_id (sk_branch k))), _.
Qed.

#[export] Instance ranked_cmp_laws : CmpLaws ranked_cmp.
Proof.
  apply lexicographic_laws; [by apply (pullback_laws snd), _|by apply (pullback_laws fst), _].
Qed.

#[export] Instance ticket_cmp_laws tickets : CmpLaws (ticket_cmp tickets).
Proof. apply lexicographic_laws; [by apply (pullback_laws (tickets !!.)), _|apply _]. Qed.

(** ** The first minimum and the last maximum *)

Section best.
Context {A : Type} (cmp : A → A → comparison) `{!CmpLaws cmp}.

Lemma min_by_fold l : ∀ acc y,
  fold_left (λ best x, match best with
    | None => Some x
    | Some y => match cmp x y with Lt => Some x | _ => best end end) l acc = Some y →
  (y ∈ l ∨ acc = Some y) ∧ (∀ x, x ∈ l → cmp y x ≠ Gt) ∧ (∀ x, acc = Some x → cmp y x ≠ Gt).
Proof.
  induction l as [|a l IH]; intros acc y; simpl.
  { intros ->. split_and!; [by right|by intros x ?%elem_of_nil|]. intros x [= ->]. by rewrite cmp_refl. }
  intros Hf. apply IH in Hf as (Hin & Hl & Hacc). split_and!.
  - destruct Hin as [Hin|Hin]; [left; by right|]. destruct acc as [z|]; [|injection Hin as ->; left; left].
    destruct (cmp a z); [by right| |by right]. injection Hin as ->. left. left.
  - intros x [->|Hx]%elem_of_cons; [|by apply Hl]. destruct acc as [z|]; [|by apply Hacc].
    destruct (cmp a z) eqn:Eaz; [|by apply Hacc|]; (apply (cmp_trans y z a); [by apply Hacc|]);
      by rewrite (cmp_antisym a z), Eaz.
  - intros x ->. destruct (cmp a x) eqn:Eax; [by apply Hacc| |by apply Hacc].
    apply (cmp_trans y a x); [by apply Hacc|]. by rewrite Eax.
Qed.

Lemma min_by_spec l y : min_by cmp l = Some y → y ∈ l ∧ ∀ x, x ∈ l → cmp y x ≠ Gt.
Proof. intros Hf. apply min_by_fold in Hf as ([?|[=]] & ? & _). by split. Qed.

Lemma min_by_none l : min_by cmp l = None → l = [].
Proof.
  destruct l as [|x l]; [done|]. unfold min_by. simpl. generalize x.
  induction l as [|a l IH]; intros y; simpl; [done|]. destruct (cmp a y); by intros ?%IH.
Qed.

Lemma max_by_fold l : ∀ acc y,
  fold_left (λ best x, match best with
    | None => Some x
    | Some y => match cmp x y with Lt => best | _ => Some x end end) l acc = Some y →
  (y ∈ l ∨ acc = Some y) ∧ (∀ x, x ∈ l → cmp x y ≠ Gt) ∧ (∀ x, acc = Some x → cmp x y ≠ Gt).
Proof.
  induction l as [|a l IH]; intros acc y; simpl.
  { intros ->. split_and!; [by right|by intros x ?%elem_of_nil|]. intros x [= ->]. by rewrite cmp_refl. }
  intros Hf. apply IH in Hf as (Hin & Hl & Hacc). split_and!.
  - destruct Hin as [Hin|Hin]; [left; by right|]. destruct acc as [z|]; [|injection Hin as ->; left; left].
    destruct (cmp a z); [|by right|]; injection Hin as ->; left; left.
  - intros x [->|Hx]%elem_of_cons; [|by apply Hl]. destruct acc as [z|]; [|by apply Hacc].
    destruct (cmp a z) eqn:Eaz; [by apply Hacc| |by apply Hacc].
    apply (cmp_trans a z y); [by rewrite Eaz|by apply Hacc].
  - intros x ->. destruct (cmp a x) eqn:Eax; [|by apply Hacc|];
      (apply (cmp_trans x a y); [by rewrite (cmp_antisym a x), Eax|by apply Hacc]).
Qed.

Lemma max_by_spec l y : max_by cmp l = Some y → y ∈ l ∧ ∀ x, x ∈ l → cmp x y ≠ Gt.
Proof. intros Hf. apply max_by_fold in Hf as ([?|[=]] & ? & _). by split. Qed.

Lemma max_by_none l : max_by cmp l = None → l = [].
Proof.
  destruct l as [|x l]; [done|]. unfold max_by. simpl. generalize x.
  induction l as [|a l IH]; intros y; simpl; [done|]. destruct (cmp a y); by intros ?%IH.
Qed.
End best.

(** ** Queues *)

Section queues.
Context `{SerdeNumber}.

#[local] Instance entry_cmp_laws {A} : CmpLaws (λ a b : N * A, a.1 ?= b.1).
Proof. by apply (pullback_laws fst), _. Qed.

Lemma first_entry_spec (q : Queue) pos p :
  first_entry q = Some (pos, p) → q !! pos = Some p ∧ ∀ pos' p', q !! pos' = Some p' → pos ≤ pos'.
Proof.
  intros Hf. apply min_by_spec in Hf as [Hin Hmin]; [|apply _].
  apply elem_of_map_to_list in Hin. split; [done|]. intros pos' p' Hp'%elem_of_map_to_list.
  by apply N.compare_le_iff, (Hmin (pos', p')).
Qed.

Lemma last_entry_spec (q : Queue) pos p :
  last_entry q = Some (pos, p) → q !! pos = Some p ∧ ∀ pos' p', q !! pos' = Some p' → pos' ≤ pos.
Proof.
  intros Hf. apply max_by_spec in Hf as [Hin Hmax]; [|apply _].
  apply elem_of_map_to_list in Hin. split; [done|]. intros pos' p' Hp'%elem_of_map_to_list.
  by apply N.compare_le_iff, (Hmax (pos', p')).
Qed.

Lemma first_entry_none (q : Queue) : first_entry q = None → q = ∅.
Proof. intros Hn%min_by_none. by apply map_to_list_empty_iff. Qed.

Definition fresh (p : PendingCandidate) : Prop := pc_resumed p = false.

Lemma has_fresh_spec (q : Queue) : has_fresh q = true ↔ ∃ pos p, q !! pos = Some p ∧ fresh p.
Proof.
  unfold has_fresh. rewrite existsb_exists. split.
  - intros ([pos p] & Hin%list_elem_of_In%elem_of_map_to_list & Hp%negb_true_iff). eauto.
  - intros (pos & p & Hq & Hp). exists (pos, p).
    split; [by apply list_elem_of_In, elem_of_map_to_list|]. by apply negb_true_iff.
Qed.

Lemma resumed_only_lookup (q : Queue) pos p :
  resumed_only q !! pos = Some p ↔ q !! pos = Some p ∧ pc_resumed p = true.
Proof. unfold resumed_only. apply map_lookup_filter_Some. Qed.

Definition total (m : gmap ScheduleKey Queue) : N := map_fold (λ _ q n, N.of_nat (size (q : Queue)) + n) 0 m.

Lemma total_insert m k q : m !! k = None → total (<[k := q]> m) = N.of_nat (size q) + total m.
Proof.
  intros Hk. unfold total. rewrite (map_fold_insert_L (λ _ (q : Queue) n, N.of_nat (size q) + n)); [done| |done].
  intros. lia.
Qed.

Lemma total_delete m k q : m !! k = Some q → total m = N.of_nat (size q) + total (delete k m).
Proof.
  intros Hk. unfold total.
  rewrite (map_fold_delete_L (λ _ (q : Queue) n, N.of_nat (size q) + n) _ k q); [done| |done].
  intros. lia.
Qed.

Lemma total_replace m k q :
  total (<[k := q]> m) + N.of_nat (size (default ∅ (m !! k) : Queue)) = N.of_nat (size q) + total m.
Proof.
  destruct (m !! k) as [q0|] eqn:Ek; simpl.
  - rewrite <- insert_delete_eq, total_insert by apply lookup_delete_eq.
    rewrite (total_delete m k q0 Ek). lia.
  - rewrite total_insert by done. rewrite map_size_empty. lia.
Qed.

Lemma total_mono (m m' : gmap ScheduleKey Queue) :
  (∀ k q', m' !! k = Some q' → ∃ q, m !! k = Some q ∧ q' ⊆ q) → total m' ≤ total m.
Proof.
  revert m. induction m' as [|k q' m' Hk IH] using map_ind; intros m Hm; [unfold total; rewrite map_fold_empty; lia|].
  destruct (Hm k q') as (q & Hq & Hsub); [by rewrite lookup_insert_eq|].
  rewrite total_insert by done. rewrite (total_delete m k q Hq).
  assert (size q' ≤ size q)%nat by (by apply map_subseteq_size).
  enough (total m' ≤ total (delete k m)) by lia. apply IH. intros k' q1 Hk'.
  assert (k ≠ k') by congruence. destruct (Hm k' q1) as (q2 & Hq2 & Hs).
  { by rewrite lookup_insert_ne. }
  exists q2. by rewrite lookup_delete_ne.
Qed.
End queues.

(** ** Interleavings *)

Section system.
Context `{SerdeNumber}.

(** Whether the checks of an activation have a window. *)
Variable windows : ActivationId → bool.

(** A running evaluation: its guard, and the candidate it took until it either
    puts it back or hands it to the guard's release. *)
Record Task := { tk_guard : InFlightGuard; tk_held : option PendingCandidate }.

Record System := { sys_state : SchedulerState; sys_tasks : list Task }.

Definition tk_key (t : Task) : ScheduleKey := g_key (tk_guard t).

Definition system_initial : System := {| sys_state := SchedulerState_default; sys_tasks := [] |}.

(** What a running task can do under the lock of the scheduler. *)
Inductive task_step : SchedulerState → Task → SchedulerState → option Task → Prop :=
| TRestore s g p :
    task_step s {| tk_guard := g; tk_held := Some p |}
      (restore_pending (g_key g) p s) (Some {| tk_guard := g; tk_held := None |})
| TDefer s g p retry_at :
    task_step s {| tk_guard := g; tk_held := Some p |}
      (defer_candidate (g_key g) p retry_at s) (Some {| tk_guard := g; tk_held := None |})
| TKeepRelease s g p claimed :
    task_step s {| tk_guard := g; tk_held := Some p |}
      (restore_pending (g_key g) p (on_releases (<[g_key g := claimed]>) s))
      (Some {| tk_guard := g; tk_held := None |})
| TReleased s t :
    task_step s t (on_releases (delete (tk_key t)) s) (Some t)
| TClear s t : task_step s t (clear_ticket_if_idle (tk_key t) s) (Some t)
| TResume s g p :
    task_step s {| tk_guard := g; tk_held := Some p |} s
      (Some {| tk_guard := g; tk_held := Some (release_pending p) |})
| TArm s g p claimed :
    task_step s {| tk_guard := g; tk_held := Some p |} s
      (Some {| tk_guard := set_guard true
                 (Some {| rl_pending := release_pending p; rl_claimed := claimed |}) g;
               tk_held := None |})
| TFlag s t release :
    task_step s t s
      (Some {| tk_guard := set_guard release (g_safe_release (tk_guard t)) (tk_guard t);
               tk_held := tk_held t |})
| TDisarm s t release :
    task_step s t s
      (Some {| tk_guard := set_guard release None (tk_guard t); tk_held := tk_held t |})
| TStarted s t now cooldown policy :
    task_step s t (mark_scheduler_started (tk_key t) now cooldown policy s) (Some t)
| TRelease s g held r released :
    g_safe_release g = Some r →
    task_step s {| tk_guard := g; tk_held := held |} (run_release (g_key g) r released s)
      (Some {| tk_guard := set_guard (g_release_branch_on_drop g) None g; tk_held := held |})
| TFinish s t : task_step s t (guard_finish (tk_guard t) s).2 None
| TDrop s t released : task_step s t (guard_drop (tk_guard t) released s) None.

Inductive system_step : System → System → Prop :=
| SEnqueue a c resumed s ts :
    fr_activation c = ea_id a → windowed (ea_compiled a) = windows (ea_id a) →
    system_step {| sys_state := s; sys_tasks := ts |}
      {| sys_state := (enqueue_locked a c resumed s).2; sys_tasks := ts |}
| SPrune terminal s ts :
    system_step {| sys_state := s; sys_tasks := ts |}
      {| sys_state := prune_locked terminal s; sys_tasks := ts |}
| SRetain definition_id activation s ts :
    system_step {| sys_state := s; sys_tasks := ts |}
      {| sys_state := retain_activation definition_id activation s; sys_tasks := ts |}
| SReset activation reset s ts :
    system_step {| sys_state := s; sys_tasks := ts |}
      {| sys_state := drop_branches activation reset s; sys_tasks := ts |}
| SReserve policy activation now ready s ts k p s' :
    reserve policy activation now ready s = Some (k, p, s') →
    system_step {| sys_state := s; sys_tasks := ts |}
      {| sys_state := s'; sys_tasks := {| tk_guard := guard_new k p; tk_held := Some p |} :: ts |}
| STask pre t post s s' t' :
    task_step s t s' t' →
    system_step {| sys_state := s; sys_tasks := pre ++ t :: post |}
      {| sys_state := s'; sys_tasks := pre ++ option_list t' ++ post |}.

Definition reachable (y : System) : Prop := rtc system_step system_initial y.

(** ** The invariant *)

Definition entry_ok (k : ScheduleKey) (p : PendingCandidate) : Prop :=
  candidate_key (pc_candidate p) = k ∧ windowed (pc_compiled p) = windows (sk_activation k).

Record queue_ok (k : ScheduleKey) (q : Queue) : Prop := {
  qo_entries pos p : q !! pos = Some p → entry_ok k p ∧ fr_trigger_position (pc_candidate p) = pos;
  qo_coalesced pos pos' p p' :
    windows (sk_activation k) = true → q !! pos = Some p → q !! pos' = Some p' →
    fresh p → fresh p' → pos = pos'
}.

Definition queues_ok (m : gmap ScheduleKey Queue) : Prop :=
  ∀ k q, m !! k = Some q → queue_ok k q ∧ q ≠ ∅.

(** A task can still put one candidate back. *)
Definition restorable (t : Task) : N :=
  match tk_held t, g_safe_release (tk_guard t) with None, None => 0 | _, _ => 1 end.

Fixpoint restorable_total (ts : list Task) : N :=
  match ts with [] => 0 | t :: ts => restorable t + restorable_total ts end.

Record task_ok (s : SchedulerState) (t : Task) : Prop := {
  to_reserved : tk_key t ∈ in_flight s;
  to_running : g_finished (tk_guard t) = false;
  to_held p : tk_held t = Some p → entry_ok (tk_key t) p;
  to_release r : g_safe_release (tk_guard t) = Some r → entry_ok (tk_key t) (rl_pending r);
  to_single : is_Some (tk_held t) → g_safe_release (tk_guard t) = None
}.

Record system_ok (y : System) : Prop := {
  so_count : active_count (sys_state y) = N.of_nat (length (sys_tasks y));
  so_bound : active_count (sys_state y) ≤ MAX_IN_FLIGHT_EVALUATIONS;
  so_keys : NoDup (tk_key <$> sys_tasks y);
  so_tasks : Forall (task_ok (sys_state y)) (sys_tasks y);
  so_queues : queues_ok (pending (sys_state y));
  so_total :
    pending_total (sys_state y) + restorable_total (sys_tasks y) ≤
    MAX_PENDING_CANDIDATES + MAX_IN_FLIGHT_EVALUATIONS
}.

(** *** Queues *)

Lemma queue_ok_sub k q q' :
  queue_ok k q → (∀ pos p, q' !! pos = Some p → q !! pos = Some p) → queue_ok k q'.
Proof.
  intros [He Hc] Hsub. split; [by intros pos p Hp%Hsub; apply He|].
  intros pos pos' p p' Hw Hp%Hsub Hp'%Hsub. by eapply Hc.
Qed.

Lemma queue_ok_insert k q p :
  queue_ok k q → entry_ok k p →
  (windows (sk_activation k) = true → fresh p → has_fresh q = false) →
  queue_ok k (<[fr_trigger_position (pc_candidate p) := p]> q).
Proof.
  intros [He Hc] Hp Hf. split.
  - intros pos p'. rewrite lookup_insert_Some. intros [[<- <-]|[_ Hp']]; [done|by apply He].
  - assert (∀ pos p', windows (sk_activation k) = true → fresh p → q !! pos = Some p' → fresh p' → False) as Hno.
    { intros pos p' Hw Hpf Hp' Hpf'. assert (has_fresh q = true) by (apply has_fresh_spec; eauto).
      rewrite Hf in *; done. }
    intros pos pos' p1 p2 Hw. rewrite !lookup_insert_Some.
    intros [[<- <-]|[_ Hp1]] [[<- <-]|[_ Hp2]] Hf1 Hf2; [done| | |by eapply Hc].
    + by destruct (Hno pos' p2).
    + by destruct (Hno pos p1).
Qed.

Lemma queue_ok_empty k : queue_ok k ∅.
Proof. split; intros *; by rewrite ?lookup_empty. Qed.

Lemma queue_of_ok s k : queues_ok (pending s) → queue_ok k (queue_of k s).
Proof.
  intros Hq. unfold queue_of. destruct (pending s !! k) as [q|] eqn:Ek; [by apply Hq|apply queue_ok_empty].
Qed.

Lemma queues_ok_insert m k q : queues_ok m → queue_ok k q → q ≠ ∅ → queues_ok (<[k := q]> m).
Proof. intros Hm Hq Hne k' q'. rewrite lookup_insert_Some. intros [[<- <-]|[_ Hq']]; [done|by apply Hm]. Qed.

Lemma queues_ok_sub (m m' : gmap ScheduleKey Queue) :
  queues_ok m →
  (∀ k q', m' !! k = Some q' → q' ≠ ∅ ∧ ∃ q, m !! k = Some q ∧ q' ⊆ q) → queues_ok m'.
Proof.
  intros Hm Hsub k q' Hq'. destruct (Hsub k q' Hq') as (Hne & q & Hq & Hs). split; [|done].
  eapply queue_ok_sub; [by apply Hm|]. intros pos p Hp. by eapply lookup_weaken.
Qed.

Lemma alter_some {V} (f : V → V) (m : gmap ScheduleKey V) k v :
  m !! k = Some v → alter f k m = <[k := f v]> m.
Proof.
  intros Hk. apply map_eq. intros k'. destruct (decide (k = k')) as [<-|Hne].
  - by rewrite lookup_alter_eq, lookup_insert_eq, Hk.
  - by rewrite lookup_alter_ne, lookup_insert_ne.
Qed.

Lemma queue_present s k pos p : queue_of k s !! pos = Some p → ∃ q, pending s !! k = Some q ∧ q !! pos = Some p.
Proof. unfold queue_of. destruct (pending s !! k) as [q|]; simpl; [eauto|by rewrite lookup_empty]. Qed.

Lemma size_insert_fresh (q : Queue) pos p :
  q !! pos = None → size (<[pos := p]> q) = S (size q).
Proof. apply map_size_insert_None. Qed.

Lemma resumed_only_smaller (q : Queue) : has_fresh q = true → (size (resumed_only q) < size q)%nat.
Proof.
  intros (pos & p & Hp & Hf)%has_fresh_spec.
  assert (resumed_only q ⊆ delete pos q) as Hs.
  { apply map_subseteq_spec. intros pos' p' [Hp' Hr]%resumed_only_lookup.
    rewrite lookup_delete_ne; [done|]. intros ->. unfold fresh in Hf. congruence. }
  apply map_subseteq_size in Hs. rewrite map_size_delete, Hp in Hs.
  assert (size q ≠ 0%nat) by (apply map_size_ne_0_lookup; eauto). lia.
Qed.

(** *** Enqueuing *)

Definition same_flight (s s' : SchedulerState) : Prop :=
  active_count s' = active_count s ∧ in_flight s' = in_flight s.

Lemma take_ticket_pending k s : pending (take_ticket k s) = pending s.
Proof. done. Qed.

Lemma enqueue_new_ok a c resumed s :
  fr_activation c = ea_id a → windowed (ea_compiled a) = windows (ea_id a) →
  queues_ok (pending s) → queue_of (candidate_key c) s !! fr_trigger_position c = None →
  let s' := (enqueue_new a c resumed s).2 in
  queues_ok (pending s') ∧ same_flight s s' ∧
  total (pending s') ≤ N.max (total (pending s)) MAX_PENDING_CANDIDATES.
Proof.
  intros Hact Hwin Hq Hnew. unfold enqueue_new. set (key := candidate_key c) in *.
  set (q := queue_of key s) in *. set (pos := fr_trigger_position c) in *.
  set (p := {| pc_candidate := c; pc_compiled := ea_compiled a; pc_resumed := resumed |}).
  pose proof (queue_of_ok s key Hq) as Hqok. fold q in Hqok.
  assert (entry_ok key p) as Hentry by (split; [done|]; simpl; by rewrite Hact).
  destruct (replaces_pending a resumed q) eqn:Er; simpl.
  - apply andb_true_iff in Er as [[Hres Hw]%andb_true_iff Hf]. destruct (superseded c q); simpl.
    { split_and!; [done|done|lia]. }
    assert (queue_ok key (<[pos := p]> (resumed_only q))) as Hok.
    { apply (queue_ok_insert key _ p); [|done|].
      - eapply queue_ok_sub; [done|]. by intros pos' p' [Hp' _]%resumed_only_lookup.
      - intros _ _. apply not_true_is_false. intros (pos' & p' & [_ Hp']%resumed_only_lookup & Hf')%has_fresh_spec.
        by rewrite Hf' in Hp'. }
    pose proof (resumed_only_smaller q Hf) as Hsmall.
    pose proof (total_replace (pending s) key (<[pos := p]> (resumed_only q))) as Ht.
    fold (queue_of key s) in Ht. fold q in Ht. rewrite map_size_insert_None in Ht.
    2: { apply eq_None_not_Some. intros [p' [Hp' _]%resumed_only_lookup]. by rewrite Hnew in Hp'. }
    split_and!; [|by case_bool_decide|].
    + case_bool_decide; (apply queues_ok_insert; [done|done|apply insert_non_empty]).
    + case_bool_decide; simpl; lia.
  - destruct (N.leb_spec MAX_PENDING_CANDIDATES (pending_total s)) as [Hfull|Hroom]; simpl.
    { split_and!; [done|done|lia]. }
    assert (queue_ok key (<[pos := p]> q)) as Hok.
    { apply (queue_ok_insert key _ p); [done|done|]. intros Hw Hfresh.
      unfold replaces_pending in Er. rewrite Hwin in Er. simpl in Hw. rewrite Hact in Hw.
      unfold fresh in Hfresh. simpl in Hfresh. rewrite Hw, Hfresh in Er. exact Er. }
    pose proof (total_replace (pending s) key (<[pos := p]> q)) as Ht.
    fold (queue_of key s) in Ht. fold q in Ht. rewrite map_size_insert_None in Ht by done.
    change (pending_total s) with (total (pending s)) in Hroom.
    split_and!; [|by case_bool_decide|].
    + case_bool_decide; (apply queues_ok_insert; [done|done|apply insert_non_empty]).
    + case_bool_decide; simpl; lia.
Qed.

Lemma enqueue_locked_ok a c resumed s :
  fr_activation c = ea_id a → windowed (ea_compiled a) = windows (ea_id a) →
  queues_ok (pending s) →
  let s' := (enqueue_locked a c resumed s).2 in
  queues_ok (pending s') ∧ same_flight s s' ∧
  total (pending s') ≤ N.max (total (pending s)) MAX_PENDING_CANDIDATES.
Proof.
  intros Hact Hwin Hq. unfold enqueue_locked. set (key := candidate_key c).
  set (pos := fr_trigger_position c).
  destruct (pending s !! key ≫= _) as [p|] eqn:Ep.
  2: { apply enqueue_new_ok; [done..|]. unfold queue_of. fold key.
       by destruct (pending s !! key); simpl in *; [|apply lookup_empty]. }
  apply bind_Some in Ep as (q & Ek & Ep). simpl. rewrite (alter_some _ _ _ _ Ek).
  destruct (Hq key q Ek) as [Hqok Hne]. destruct (qo_entries _ _ Hqok pos p Ep) as [Hp Hpos].
  split_and!; [|done|].
  - apply queues_ok_insert; [done| |apply insert_non_empty]. split.
    + intros pos' p'. rewrite lookup_insert_Some. intros [[<- <-]|[_ Hp']]; [done|by apply Hqok].
    + intros p1 p2 e1 e2 Hw. rewrite !lookup_insert_Some. unfold fresh.
      intros [[<- <-]|[Hn1 Hp1]] [[<- <-]|[Hn2 Hp2]]; simpl; try done.
      * intros [Hf1 _]%orb_false_iff Hf2. by eapply (qo_coalesced _ _ Hqok pos p2 p).
      * intros Hf1 [Hf2 _]%orb_false_iff. by eapply (qo_coalesced _ _ Hqok p1 pos _ p).
      * by eapply (qo_coalesced _ _ Hqok).
  - pose proof (total_replace (pending s) key
      (<[pos := {| pc_candidate := pc_candidate p; pc_compiled := pc_compiled p;
                   pc_resumed := pc_resumed p || resumed |}]> q)) as Ht.
    rewrite Ek in Ht. simpl in Ht. rewrite map_size_insert_Some in Ht by eauto. lia.
Qed.

(** *** Removals *)

Lemma pending_sub_ok s (m' : gmap ScheduleKey Queue) :
  queues_ok (pending s) →
  (∀ k q', m' !! k = Some q' → q' ≠ ∅ ∧ ∃ q, pending s !! k = Some q ∧ q' ⊆ q) →
  queues_ok m' ∧ total m' ≤ total (pending s).
Proof.
  intros Hq Hsub. split; [by eapply queues_ok_sub|]. apply total_mono. intros k q' Hq'.
  by destruct (Hsub k q' Hq').
Qed.

Lemma filter_pending_ok s (P : ScheduleKey * Queue → Prop) `{∀ x, Decision (P x)} :
  queues_ok (pending s) →
  queues_ok (filter P (pending s)) ∧ total (filter P (pending s)) ≤ total (pending s).
Proof.
  intros Hq. apply pending_sub_ok; [done|]. intros k q' [Hq' _]%map_lookup_filter_Some.
  split; [by apply (Hq k)|eauto].
Qed.

Lemma prune_locked_ok terminal s :
  queues_ok (pending s) →
  queues_ok (pending (prune_locked terminal s)) ∧ total (pending (prune_locked terminal s)) ≤ total (pending s).
Proof.
  intros Hq. simpl. apply pending_sub_ok; [done|].
  intros k q' [Hq' Hne]%map_lookup_filter_Some. split; [done|].
  rewrite lookup_fmap in Hq'. apply fmap_Some in Hq' as (q & Hq' & ->).
  exists q. split; [done|]. apply map_filter_subseteq.
Qed.

(** *** Putting a candidate back *)

Lemma queues_ok_same s m : queues_ok (pending s) → m = pending s → queues_ok m.
Proof. by intros ? ->. Qed.

Lemma restore_pending_ok k p s :
  queues_ok (pending s) → entry_ok k p →
  let s' := restore_pending k p s in
  queues_ok (pending s') ∧ same_flight s s' ∧ total (pending s') ≤ total (pending s) + 1.
Proof.
  intros Hq Hp. pose proof (queue_of_ok s k Hq) as Hqok. unfold restore_pending.
  pose proof (λ q, total_replace (pending s) k q) as Ht. fold (queue_of k s) in Ht.
  destruct (negb (pc_resumed p) && windowed (pc_compiled p) && has_fresh (queue_of k s)) eqn:Ed; simpl.
  - specialize (Ht (queue_of k s)). split_and!; [|done|lia].
    apply andb_true_iff in Ed as [_ (pos & p' & (q & Hq' & Hp')%queue_present & _)%has_fresh_spec].
    assert (queue_of k s = q) as Heq by (unfold queue_of; by rewrite Hq').
    apply queues_ok_insert; [done|done|]. rewrite Heq. intros ->. by rewrite lookup_empty in Hp'.
  - destruct (queue_of k s !! fr_trigger_position (pc_candidate p)) as [p'|] eqn:Ep.
    + specialize (Ht (queue_of k s)). split_and!; [|done|lia].
      apply queues_ok_insert; [done|done|]. intros Heq. by rewrite Heq, lookup_empty in Ep.
    + specialize (Ht (<[fr_trigger_position (pc_candidate p) := p]> (queue_of k s))).
      rewrite map_size_insert_None in Ht by done. split_and!; [|done|lia].
      apply queues_ok_insert; [done| |apply insert_non_empty]. apply queue_ok_insert; [done..|].
      intros Hw Hf. destruct Hp as [_ Hwin]. rewrite Hwin, Hw, Hf in Ed. exact Ed.
Qed.

(** *** Taking a candidate *)

Lemma reserve_spec policy activation now ready s k p s' :
  reserve policy activation now ready s = Some (k, p, s') →
  active_count s < MAX_IN_FLIGHT_EVALUATIONS ∧
  k ∈ due_keys policy activation now ready s ∧
  next_key policy s (due_keys policy activation now ready s) = Some k ∧
  (∃ q pos, pending s !! k = Some q ∧ first_entry q = Some (pos, p)) ∧
  s' = on_flight (λ f, {[ k ]} ∪ f) (active_count s + 1) (take_pending k p s).
Proof.
  unfold reserve. destruct (N.leb_spec MAX_IN_FLIGHT_EVALUATIONS (active_count s)); [done|].
  unfold select_next. destruct (next_key _ _ _) as [k'|] eqn:En; [|done]. simpl.
  destruct (pending s !! k') as [q|] eqn:Eq; [|done]. simpl.
  destruct (first_entry q) as [[pos p']|] eqn:Ef; [|done]. simpl. intros [= -> -> <-].
  split_and!; [done| |done|by exists q, pos|done].
  clear -En. unfold next_key in En. destruct policy.
  - destruct (_ <=? _).
    + apply min_by_spec in En as [Hin _]; [done|apply _].
    + apply fmap_Some in En as ([k' pos] & Hm & ->). apply max_by_spec in Hm as [Hin _]; [|apply _].
      apply list_elem_of_omap in Hin as (k & Hk & Ho). simpl.
      destruct (pending s !! k) as [q|]; simpl in Ho; [|done].
      destruct (last_entry q) as [[? ?]|]; simpl in Ho; [|done]. by injection Ho as -> _.
  - apply fmap_Some in En as ([k' pos] & Hm & ->). apply min_by_spec in Hm as [Hin _]; [|apply _].
    apply list_elem_of_omap in Hin as (k & Hk & Ho). simpl.
    destruct (pending s !! k) as [q|]; simpl in Ho; [|done].
    destruct (last_entry q) as [[? ?]|]; simpl in Ho; [|done]. by injection Ho as -> _.
Qed.

Lemma due_keys_spec policy activation now ready s k :
  k ∈ due_keys policy activation now ready s ↔
  ∃ q, pending s !! k = Some q ∧ sk_activation k = activation ∧ ready (sk_branch k) = true ∧
       is_due policy now s k q = true.
Proof.
  unfold due_keys. rewrite list_elem_of_fmap. split.
  - intros ([k' q] & -> & Hin%list_elem_of_In). apply List.filter_In in Hin as [Hin Hf].
    apply list_elem_of_In, elem_of_map_to_list in Hin. simpl in *.
    apply andb_true_iff in Hf as [[Ha%bool_decide_eq_true Hr]%andb_true_iff Hd]. eauto.
  - intros (q & Hq & Ha & Hr & Hd). exists (k, q). split; [done|].
    apply list_elem_of_In, List.filter_In. split; [by apply list_elem_of_In, elem_of_map_to_list|].
    simpl. rewrite Hr, Hd, bool_decide_eq_true_2 by done. done.
Qed.

Lemma due_not_in_flight policy activation now ready s k :
  k ∈ due_keys policy activation now ready s → k ∉ in_flight s.
Proof.
  intros (q & _ & _ & _ & Hd)%due_keys_spec. unfold is_due in Hd.
  apply andb_true_iff in Hd as [Hd%negb_true_iff _]. by apply bool_decide_eq_false in Hd.
Qed.

Lemma take_pending_ok k p q pos s :
  queues_ok (pending s) → pending s !! k = Some q → first_entry q = Some (pos, p) →
  let s' := take_pending k p s in
  queues_ok (pending s') ∧ entry_ok k p ∧ total (pending s') + 1 = total (pending s).
Proof.
  intros Hq Hk Hf. apply first_entry_spec in Hf as [Hp _]. destruct (Hq k q Hk) as [Hqok Hne].
  destruct (qo_entries _ _ Hqok pos p Hp) as [Hentry Hpos]. unfold take_pending.
  unfold queue_of. rewrite Hk, Hpos. simpl. set (q' := delete pos q).
  assert (size q = S (size q')) as Hsize.
  { unfold q'. rewrite map_size_delete, Hp. assert (size q ≠ 0%nat) by (apply map_size_ne_0_lookup; eauto). lia. }
  split_and!; [|done|].
  - case_bool_decide.
    + apply (pending_sub_ok s); [done|]. intros k' q1 [_ Hq1]%lookup_delete_Some.
      split; [by apply (Hq k')|eauto].
    + apply queues_ok_insert; [done| |done]. eapply queue_ok_sub; [done|].
      by intros pos' p' [_ Hp']%lookup_delete_Some.
  - case_bool_decide as He.
    + rewrite (total_delete _ _ _ Hk). rewrite He, map_size_empty in Hsize. lia.
    + pose proof (total_replace (pending s) k q') as Ht. rewrite Hk in Ht. simpl in Ht. lia.
Qed.

(** *** Preservation *)

Lemma restorable_app ts ts' : restorable_total (ts ++ ts') = restorable_total ts + restorable_total ts'.
Proof. induction ts; simpl; lia. Qed.

Lemma restorable_length ts : restorable_total ts ≤ N.of_nat (length ts).
Proof. induction ts as [|t ts IH]; simpl; [lia|]. unfold restorable. repeat case_match; lia. Qed.

Lemma task_ok_flight s s' t : in_flight s ⊆ in_flight s' → task_ok s t → task_ok s' t.
Proof. intros Hf [? ? ? ? ?]. split; [set_solver|done..]. Qed.

(** What a step of a task does to the queues, the reservations and itself. *)
Definition task_effect (s : SchedulerState) (t : Task) (s' : SchedulerState) (t' : option Task) : Prop :=
  queues_ok (pending s') ∧
  total (pending s') + restorable_total (option_list t') ≤ total (pending s) + restorable t ∧
  match t' with
  | Some t' => tk_key t' = tk_key t ∧ same_flight s s' ∧ task_ok s' t'
  | None =>
      active_count s' = active_count s - 1 ∧ in_flight s ∖ {[ tk_key t ]} ⊆ in_flight s'
  end.

Lemma mark_started_same k now cooldown policy s :
  pending (mark_scheduler_started k now cooldown policy s) = pending s ∧
  same_flight s (mark_scheduler_started k now cooldown policy s).
Proof. unfold mark_scheduler_started. case_bool_decide; by destruct policy. Qed.

Lemma clear_ticket_same k s :
  pending (clear_ticket_if_idle k s) = pending s ∧ same_flight s (clear_ticket_if_idle k s).
Proof. unfold clear_ticket_if_idle. by case_bool_decide. Qed.

Lemma task_effect_same s t s' t' :
  queues_ok (pending s) → task_ok s t → pending s' = pending s → same_flight s s' →
  tk_key t' = tk_key t → restorable t' ≤ restorable t → task_ok s t' → task_effect s t s' (Some t').
Proof.
  intros Hq Ht Hp Hf Hk Hr Ht'. split_and!; [by rewrite Hp|simpl; rewrite Hp; lia|done|done|].
  eapply task_ok_flight; [|done]. by destruct Hf as [_ ->].
Qed.

Lemma task_restore_effect s g p s0 :
  queues_ok (pending s) → task_ok s {| tk_guard := g; tk_held := Some p |} →
  pending s0 = pending s → same_flight s s0 →
  task_effect s {| tk_guard := g; tk_held := Some p |} (restore_pending (g_key g) p s0)
    (Some {| tk_guard := g; tk_held := None |}).
Proof.
  intros Hq [Hres Hrun Hheld Hrel Hsingle] Hp0 Hf0.
  destruct (restore_pending_ok (g_key g) p s0) as (Hq' & [Hc Hf] & Ht); [by rewrite Hp0|by apply Hheld|].
  unfold tk_key in *. simpl in *. pose proof (Hsingle ltac:(eauto)) as Hnone.
  unfold task_effect. simpl. unfold restorable. simpl. rewrite Hnone. rewrite Hp0 in Ht. destruct Hf0 as [Hc0 Hi0].
  split_and!; [done|lia|done|by split; congruence|]. split; simpl; try done.
  unfold tk_key. simpl. congruence.
Qed.

Lemma run_release_ok k r released s :
  queues_ok (pending s) → entry_ok k (rl_pending r) →
  let s' := run_release k r released s in
  queues_ok (pending s') ∧ same_flight s s' ∧ total (pending s') ≤ total (pending s) + 1.
Proof.
  intros Hq Hp. destruct released as [[]|e]; simpl.
  - by apply restore_pending_ok.
  - split_and!; [done|done|lia].
  - apply (restore_pending_ok k (rl_pending r) (on_releases (<[k:=rl_claimed r]>) s)); done.
Qed.

Lemma task_step_effect s t s' t' :
  task_step s t s' t' → queues_ok (pending s) → task_ok s t → task_effect s t s' t'.
Proof.
  intros Hstep Hq Ht. pose proof Ht as [Hres Hrun Hheld Hrel Hsingle].
  destruct Hstep as [s g p|s g p retry|s g p claimed|s t|s t|s g p|s g p claimed|s t release|s t release
    |s t now cooldown policy|s g held r released Hr|s t|s t released]; unfold tk_key in *; simpl in *.
  - by apply task_restore_effect.
  - by apply task_restore_effect.
  - by apply task_restore_effect.
  - by apply task_effect_same.
  - destruct (clear_ticket_same (g_key (tk_guard t)) s). by apply task_effect_same.
  - apply task_effect_same; try done. split; simpl; try done; [intros p' [= <-]; exact (Hheld p eq_refl)|].
    intros _. by apply Hsingle.
  - apply task_effect_same; try done. split; simpl; try done.
    intros r [= <-]. exact (Hheld p eq_refl).
  - by apply task_effect_same.
  - apply task_effect_same; try done.
    unfold restorable. simpl. by repeat case_match.
  - destruct (mark_started_same (g_key (tk_guard t)) now cooldown policy s). by apply task_effect_same.
  - destruct (run_release_ok (g_key g) r released s) as (Hq1 & [Hc Hi] & Ht1); [done|by apply Hrel|].
    destruct held as [p|]; [by rewrite Hsingle in Hr by eauto|].
    unfold task_effect. simpl. unfold restorable. simpl. rewrite Hr. split_and!; [done|lia|done|done|].
    split; simpl; try done. by rewrite Hi.
  - unfold guard_finish. rewrite Hrun. unfold task_effect. simpl. split_and!; [done|lia|done|set_solver].
  - unfold guard_drop. rewrite Hrun. destruct (g_release_branch_on_drop _); simpl.
    + set (s1 := match g_safe_release (tk_guard t) with Some r => _ | None => s end).
      assert (queues_ok (pending s1) ∧ same_flight s s1 ∧ total (pending s1) ≤ total (pending s) + restorable t)
        as (Hq1 & [Hc Hi] & Ht1).
      { unfold s1. destruct (g_safe_release (tk_guard t)) as [r|] eqn:Er.
        - destruct (run_release_ok (g_key (tk_guard t)) r released s) as (? & ? & ?); [done|by apply Hrel|].
          split_and!; [done|done|]. unfold restorable. rewrite Er. destruct (tk_held t); lia.
        - split_and!; [done|done|lia]. }
      unfold guard_finish. rewrite Hrun. unfold task_effect. simpl.
      split_and!; [done|lia|by rewrite Hc|rewrite Hi; set_solver].
    + unfold task_effect. simpl. split_and!; [done|lia|done|set_solver].
Qed.

Lemma tasks_ok_flight s s' ts :
  in_flight s ⊆ in_flight s' → Forall (task_ok s) ts → Forall (task_ok s') ts.
Proof. intros Hf Hts. eapply Forall_impl; [exact Hts|]. intros t. by apply task_ok_flight. Qed.

(** A step that leaves the reservations alone. *)
Lemma system_ok_state s s' ts :
  system_ok {| sys_state := s; sys_tasks := ts |} →
  queues_ok (pending s') → same_flight s s' →
  total (pending s') ≤ N.max (total (pending s)) MAX_PENDING_CANDIDATES →
  system_ok {| sys_state := s'; sys_tasks := ts |}.
Proof.
  intros [Hcount Hbound Hkeys Htasks Hqueues Htotal] Hq [Hc Hf] Ht. simpl in *.
  pose proof (restorable_length ts). split; simpl; try done; [lia|lia| |].
  - eapply tasks_ok_flight; [|exact Htasks]. by rewrite Hf.
  - change (total (pending s) + restorable_total ts ≤ 128 + 4) in Htotal.
    change (active_count s ≤ 4) in Hbound. unfold MAX_PENDING_CANDIDATES in *.
    change (total (pending s') + restorable_total ts ≤ 128 + 4). lia.
Qed.

Lemma system_step_ok y y' : system_step y y' → system_ok y → system_ok y'.
Proof.
  intros Hstep Hok. pose proof Hok as [Hcount Hbound Hkeys Htasks Hqueues Htotal]. destruct Hstep as
    [a c resumed s ts Hact Hwin|terminal s ts|definition_id activation s ts|activation reset s ts
    |policy activation now ready s ts k p s' Hr|pre t post s s' t' Hstep]; simpl in *.
  - destruct (enqueue_locked_ok a c resumed s Hact Hwin Hqueues) as (Hq & Hf & Ht).
    by eapply system_ok_state.
  - destruct (prune_locked_ok terminal s Hqueues) as [Hq Ht]. eapply system_ok_state; [done..|lia].
  - destruct (filter_pending_ok s (λ kv, keeps_activation definition_id activation kv.1 = true) Hqueues) as [Hq Ht].
    eapply system_ok_state; [done..|]. simpl. lia.
  - destruct (filter_pending_ok s (λ kq, negb (bool_decide (sk_activation kq.1 = activation)) ||
      negb (bool_decide (sk_branch kq.1 ∈ reset)) = true) Hqueues) as [Hq Ht].
    eapply system_ok_state; [done..|]. simpl. lia.
  - apply reserve_spec in Hr as (Hroom & Hdue & _ & (q & pos & Hk & Hf) & ->).
    pose proof (due_not_in_flight _ _ _ _ _ _ Hdue) as Hnew.
    destruct (take_pending_ok k p q pos s Hqueues Hk Hf) as (Hq & Hentry & Ht).
    split; simpl; try done; [lia|lia| | |].
    + apply NoDup_cons. split; [|done]. intros (t & Hkt & Hin)%list_elem_of_fmap.
      rewrite Forall_forall in Htasks. destruct (Htasks t Hin) as [Hres _ _ _ _]. unfold tk_key in *.
      simpl in Hkt. by rewrite <- Hkt in Hres.
    + constructor.
      * split; simpl; try done; [set_solver|by intros p' [= <-]].
      * eapply Forall_impl; [exact Htasks|]. intros t. apply task_ok_flight. simpl. set_solver.
    + change (total (pending s) + restorable_total ts ≤ 128 + 4) in Htotal.
      change (total (pending (take_pending k p s)) + (1 + restorable_total ts) ≤ 128 + 4). lia.
  - rewrite fmap_app, fmap_cons in Hkeys. apply Forall_app in Htasks as [Hpre [Ht Hpost]%Forall_cons].
    rewrite length_app in Hcount. rewrite restorable_app in Htotal. simpl in *.
    destruct (task_step_effect s t s' t' Hstep Hqueues Ht) as (Hq & Htot & Heff).
    change (total (pending s) + (restorable_total pre + (restorable t + restorable_total post)) ≤ 128 + 4) in Htotal.
    assert (total (pending s') + (restorable_total (pre ++ option_list t' ++ post)) ≤ 128 + 4) as Htotal'
      by (rewrite !restorable_app; lia).
    destruct t' as [t'|]; simpl in *.
    + destruct Heff as (Hk & [Hc Hf] & Ht'). split; simpl; try done.
      * rewrite length_app. simpl. lia.
      * lia.
      * by rewrite fmap_app, fmap_cons, Hk.
      * apply Forall_app; split; [|constructor; [done|]]; (eapply Forall_impl; [eassumption|]); intros t0;
          apply task_ok_flight; by rewrite Hf.
    + destruct Heff as [Hc Hf]. apply NoDup_app in Hkeys as (Hnpre & Hdis & [Hnt Hnpost]%NoDup_cons).
      assert (∀ l, Forall (task_ok s) l → tk_key t ∉ tk_key <$> l → Forall (task_ok s') l) as Hkeep.
      { intros l Hl Hn. rewrite Forall_forall in Hl |- *. intros t0 Hin.
        destruct (Hl t0 Hin) as [Hres ? ? ? ?]. split; try done. apply Hf, elem_of_difference.
        split; [done|]. intros Heq%elem_of_singleton. destruct Hn. rewrite <- Heq.
        by apply list_elem_of_fmap_2. }
      split; simpl; try done.
      * rewrite length_app. lia.
      * lia.
      * rewrite fmap_app. apply NoDup_app. split_and!; [done| |done].
        intros x Hx Hx'. apply (Hdis x Hx). by right.
      * apply Forall_app. split; apply Hkeep; try done. intros Hin. apply (Hdis _ Hin). by left.
Qed.

Lemma initial_ok : system_ok system_initial.
Proof. split; simpl; try done; constructor. Qed.

Lemma reachable_ok y : reachable y → system_ok y.
Proof.
  unfold reachable. generalize initial_ok. generalize system_initial. intros x Hx Hr.
  induction Hr as [|x y z Hs _ IH]; [done|]. apply IH. by eapply system_step_ok.
Qed.
End system.

(** ** Reserved branches *)

Section reserved.
Context `{SerdeNumber}.
Variable windows : ActivationId → bool.

(** A key that is reserved without a task that could release it. *)
Definition abandoned (k : ScheduleKey) (y : System) : Prop :=
  k ∈ in_flight (sys_state y) ∧ k ∉ tk_key <$> sys_tasks y.

Lemma reserve_not_in_flight policy activation now ready s k p s' :
  reserve policy activation now ready s = Some (k, p, s') → k ∉ in_flight s.
Proof. intros (_ & Hdue & _)%reserve_spec. by eapply due_not_in_flight. Qed.

Lemma enqueue_same_flight a c resumed s : same_flight s (enqueue_locked a c resumed s).2.
Proof.
  unfold enqueue_locked. destruct (_ ≫= _); [done|]. unfold enqueue_new.
  repeat (case_match; simpl; try done). all: by case_bool_decide.
Qed.

Lemma restore_same_flight k p s : same_flight s (restore_pending k p s).
Proof. unfold restore_pending. by case_match. Qed.

Lemma guard_drop_flight g released s :
  in_flight s ∖ {[ g_key g ]} ⊆ in_flight (guard_drop g released s).
Proof.
  assert (∀ s0, in_flight s0 ∖ {[ g_key g ]} ⊆ in_flight (guard_finish g s0).2) as Hfin.
  { intros s0. unfold guard_finish. destruct (g_finished g); simpl; set_solver. }
  unfold guard_drop. destruct (g_release_branch_on_drop g).
  - etrans; [|apply Hfin]. destruct (g_finished g); simpl; [done|].
    destruct (g_safe_release g) as [r|]; [|done]. destruct released as [[]|e]; simpl; [|done|].
    + by destruct (restore_same_flight (g_key g) (rl_pending r) s) as [_ ->].
    + by destruct (restore_same_flight (g_key g) (rl_pending r) (on_releases (<[g_key g:=rl_claimed r]>) s))
        as [_ ->].
  - destruct (g_finished g); simpl; set_solver.
Qed.

Lemma task_step_flight s t s' t' :
  task_step s t s' t' →
  in_flight s ∖ {[ tk_key t ]} ⊆ in_flight s' ∧ (∀ t0, t' = Some t0 → tk_key t0 = tk_key t).
Proof.
  intros Hstep. destruct Hstep as [s g p|s g p retry|s g p claimed|s t|s t|s g p|s g p claimed|s t release
    |s t release|s t now cooldown policy|s g held r released Hr|s t|s t released]; (split; [|by intros t0 [= <-]]).
  - destruct (restore_same_flight (g_key g) p s) as [_ ->]. set_solver.
  - unfold defer_candidate.
    destruct (restore_same_flight (g_key g) p (on_cooldown (<[g_key g:=retry]>) s)) as [_ ->]. simpl. set_solver.
  - destruct (restore_same_flight (g_key g) p (on_releases (<[g_key g:=claimed]>) s)) as [_ ->]. simpl. set_solver.
  - simpl. set_solver.
  - destruct (clear_ticket_same (tk_key t) s) as [_ [_ ->]]. set_solver.
  - set_solver.
  - set_solver.
  - set_solver.
  - set_solver.
  - destruct (mark_started_same (tk_key t) now cooldown policy s) as [_ [_ ->]]. set_solver.
  - unfold run_release. destruct released as [[]|e]; simpl; [|set_solver|].
    + destruct (restore_same_flight (g_key g) (rl_pending r) s) as [_ ->]. set_solver.
    + destruct (restore_same_flight (g_key g) (rl_pending r) (on_releases (<[g_key g:=rl_claimed r]>) s)) as [_ ->].
      simpl. set_solver.
  - unfold guard_finish, tk_key. destruct (g_finished _); simpl; set_solver.
  - apply guard_drop_flight.
Qed.

Lemma abandoned_step k y y' : system_step windows y y' → abandoned k y → abandoned k y'.
Proof.
  intros Hstep [Hin Hout]. destruct Hstep as
    [a c resumed s ts Hact Hwin|terminal s ts|definition_id activation s ts|activation reset s ts
    |policy activation now ready s ts k' p s' Hr|pre t post s s' t' Hstep]; simpl in *.
  - split; simpl; [|done]. by destruct (enqueue_same_flight a c resumed s) as [_ ->].
  - done.
  - done.
  - done.
  - pose proof (reserve_not_in_flight _ _ _ _ _ _ _ _ Hr) as Hk.
    apply reserve_spec in Hr as (_ & _ & _ & _ & ->). split; simpl; [set_solver|].
    intros [->|Hts]%elem_of_cons; [|done]. by unfold tk_key in Hk; simpl in Hk.
  - apply task_step_flight in Hstep as [Hf Hk']. rewrite fmap_app, fmap_cons in Hout.
    assert (k ≠ tk_key t) as Hne by set_solver.
    split; simpl; [apply Hf; set_solver|]. rewrite !fmap_app. destruct t' as [t'|]; simpl; [|set_solver].
    rewrite (Hk' t' eq_refl). set_solver.
Qed.

Lemma abandoned_forever k y y' : rtc (system_step windows) y y' → abandoned k y → abandoned k y'.
Proof. induction 1 as [|x y z Hs _ IH]; [done|]. intros Ha. by eapply IH, abandoned_step. Qed.

(** Dropping a task after its intent abandons its branch. *)
Lemma dropped_abandoned pre t post released s :
  reachable windows {| sys_state := s; sys_tasks := pre ++ t :: post |} →
  g_release_branch_on_drop (tk_guard t) = false →
  abandoned (tk_key t) {| sys_state := guard_drop (tk_guard t) released s; sys_tasks := pre ++ post |}.
Proof.
  intros [_ _ Hkeys Htasks _ _]%reachable_ok Hflag. simpl in *.
  apply Forall_app in Htasks as [_ [Ht _]%Forall_cons]. destruct Ht as [Hres Hrun _ _ _].
  rewrite fmap_app, fmap_cons in Hkeys. apply NoDup_app in Hkeys as (_ & Hdis & [Hn _]%NoDup_cons).
  split; simpl.
  - unfold guard_drop. rewrite Hflag, Hrun. simpl. done.
  - rewrite fmap_app, elem_of_app. intros [Hin|Hin]; [|done]. apply (Hdis _ Hin). by left.
Qed.
End reserved.

(** ** Waiting *)

Section waiting.
Context `{SerdeNumber}.
Variable k : ScheduleKey.

(** The keys of the same activation that a dispatch by service ticket prefers. *)
Definition ahead (s : SchedulerState) : gset ScheduleKey :=
  filter (λ k', sk_activation k' = sk_activation k ∧ k' ≠ k ∧ ticket_cmp (service_tickets s) k' k ≠ Gt)
    (dom (pending s)).

(** [passed_over n s s']: from [s] to [s'] the key is due at each of [n]
    dispatches of its activation, and each of them starts another key.  In between
    candidates may arrive, evaluations may finish, and other activations may
    dispatch, but not as the fourth dispatch, whose key is chosen by service
    ticket: the counter is shared, and the choice would be theirs. *)
Inductive passed_over : nat → SchedulerState → SchedulerState → Prop :=
| passed_none s : passed_over 0 s s
| passed_enqueue n s s' a c resumed :
    next_service_ticket s < U64_MAX →
    passed_over n (enqueue_locked a c resumed s).2 s' → passed_over n s s'
| passed_finish n s s' g :
    passed_over n (guard_finish g s).2 s' → passed_over n s s'
| passed_dispatch n s s' now ready k' p s1 cooldown :
    next_service_ticket s < U64_MAX →
    k ∈ due_keys PolicyLive (sk_activation k) now ready s →
    reserve PolicyLive (sk_activation k) now ready s = Some (k', p, s1) → k' ≠ k →
    passed_over n (mark_scheduler_started k' now cooldown PolicyLive s1) s' →
    passed_over (S n) s s'
| passed_other n s s' activation now ready k' p s1 cooldown :
    next_service_ticket s < U64_MAX → recent_dispatches s < 3 → activation ≠ sk_activation k →
    reserve PolicyLive activation now ready s = Some (k', p, s1) →
    passed_over n (mark_scheduler_started k' now cooldown PolicyLive s1) s' →
    passed_over n s s'.

Record waiting (s : SchedulerState) : Prop := {
  wa_tickets k' t : service_tickets s !! k' = Some t → t < next_service_ticket s;
  wa_queues k' q : pending s !! k' = Some q → q ≠ ∅;
  wa_pending : k ∈ dom (pending s)
}.

Lemma elem_of_ahead s k' :
  k' ∈ ahead s ↔ k' ∈ dom (pending s) ∧ sk_activation k' = sk_activation k ∧ k' ≠ k ∧
                 ticket_cmp (service_tickets s) k' k ≠ Gt.
Proof. unfold ahead. rewrite elem_of_filter. tauto. Qed.

(** A key with a new ticket is behind. *)
Lemma new_ticket_behind s k' :
  waiting s → k' ≠ k → ticket_cmp (<[k' := next_service_ticket s]> (service_tickets s)) k' k = Gt.
Proof.
  intros [Ht _ _] Hne. unfold ticket_cmp. rewrite lookup_insert_eq, lookup_insert_ne by done.
  destruct (service_tickets s !! k) as [t|] eqn:Ek; simpl; [|done].
  by rewrite (proj2 (N.compare_gt_iff _ _) (Ht k t Ek)).
Qed.

Lemma same_tickets_cmp (m m' : gmap ScheduleKey N) k' :
  m' !! k' = m !! k' → m' !! k = m !! k → ticket_cmp m' k' k = ticket_cmp m k' k.
Proof. unfold ticket_cmp. by intros -> ->. Qed.

Lemma take_ticket_waiting s k' :
  next_service_ticket s < U64_MAX → waiting s → waiting (take_ticket k' s).
Proof.
  intros Hn [Ht Hq Hp]. split; simpl; [|done|done].
  assert (sat_add (next_service_ticket s) 1 = next_service_ticket s + 1) as ->.
  { unfold sat_add. change USIZE_MAX with U64_MAX. lia. }
  intros k1 t. rewrite lookup_insert_Some. intros [[_ <-]|[_ Hk1%Ht]]; lia.
Qed.

Lemma enqueue_waiting a c resumed s :
  next_service_ticket s < U64_MAX → waiting s →
  let s' := (enqueue_locked a c resumed s).2 in
  waiting s' ∧ ahead s' ⊆ ahead s ∧ recent_dispatches s' = recent_dispatches s.
Proof.
  intros Hn Hw. pose proof Hw as [Ht Hq Hp]. unfold enqueue_locked. set (key := candidate_key c).
  destruct (pending s !! key ≫= _) as [e|] eqn:Ee; simpl.
  - apply bind_Some in Ee as (q & Ek & Ee). unfold on_pending. rewrite (alter_some _ _ _ _ Ek).
    split; [|split; [|done]].
    + split; simpl; [done| |set_solver]. intros k' q'. rewrite lookup_insert_Some.
      intros [[_ <-]|[_ Hq']]; [apply insert_non_empty|by eapply Hq].
    + intros k'. rewrite !elem_of_ahead. simpl. rewrite dom_insert_L, elem_of_union, elem_of_singleton.
      intros [[->|Hd] ?]; split; try done. apply elem_of_dom. eauto.
  - unfold enqueue_new. fold key. set (queue := queue_of key s).
    destruct (_ && (_ <=? _)); [by split_and!|]. destruct (_ && superseded _ _); [by split_and!|]. simpl.
    set (q' := <[fr_trigger_position c := _]> _).
    set (s1 := on_pending <[key := q']> s).
    assert (waiting s1) as Hw1.
    { split; simpl; [done| |set_solver]. intros k' q1. rewrite lookup_insert_Some.
      intros [[_ <-]|[_ Hq1]]; [apply insert_non_empty|by eapply Hq]. }
    case_bool_decide as He; simpl.
    + assert (key ∉ dom (pending s)) as Hkey.
      { intros [q1 Hq1]%elem_of_dom. destruct (Hq _ _ Hq1). unfold queue, queue_of in He. by rewrite Hq1 in He. }
      assert (key ≠ k) as Hne by (intros ->; done).
      split_and!; [by apply take_ticket_waiting| |done]. intros k'. rewrite !elem_of_ahead. simpl.
      rewrite dom_insert_L, elem_of_union, elem_of_singleton. intros ([->|Hd] & Ha & Hk' & Hc).
      * destruct Hc. by apply new_ticket_behind.
      * split_and!; try done. assert (k' ≠ key) by (intros ->; done).
        by rewrite <- (same_tickets_cmp _ (<[key := next_service_ticket s]> (service_tickets s)));
          [|rewrite lookup_insert_ne..].
    + split_and!; [done| |done]. intros k'. rewrite !elem_of_ahead. simpl.
      rewrite dom_insert_L, elem_of_union, elem_of_singleton. intros ([->|Hd] & ?); split; try done.
      apply elem_of_dom. unfold queue, queue_of in He. by destruct (pending s !! key); [eauto|].
Qed.

(** One dispatch of another key. *)
Lemma dispatch_waiting activation now ready k' p s1 cooldown s :
  next_service_ticket s < U64_MAX → waiting s →
  reserve PolicyLive activation now ready s = Some (k', p, s1) → k' ≠ k →
  let s' := mark_scheduler_started k' now cooldown PolicyLive s1 in
  waiting s' ∧ ahead s' ⊆ ahead s ∖ {[ k' ]} ∧
  (k ∈ due_keys PolicyLive activation now ready s → activation = sk_activation k →
   3 ≤ recent_dispatches s → k' ∈ ahead s) ∧
  recent_dispatches s' = if 3 <=? recent_dispatches s then 0 else recent_dispatches s + 1.
Proof.
  intros Hn Hw Hr Hne. apply reserve_spec in Hr as (_ & Hdue' & Hnext & (q & pos & Hk' & Hf) & ->).
  pose proof Hw as [Ht Hq Hp].
  set (s1 := on_flight _ _ (take_pending k' p s)).
  assert (∀ k1, k1 ≠ k' → pending s1 !! k1 = pending s !! k1) as Hother.
  { intros k1 Hk1. unfold s1. simpl. case_bool_decide; [by rewrite lookup_delete_ne|by rewrite lookup_insert_ne]. }
  assert (∀ q1, pending s1 !! k' = Some q1 → q1 ≠ ∅) as Hself.
  { intros q1. unfold s1. simpl. case_bool_decide; [by rewrite lookup_delete_eq|].
    rewrite lookup_insert_eq. by intros [= <-]. }
  assert (waiting s1) as Hw1.
  { split; simpl; [done| |].
    - intros k1 q1 Hq1. destruct (decide (k1 = k')) as [->|Hk1]; [by apply Hself|].
      apply (Hq k1). rewrite <- Hother by done. exact Hq1.
    - apply elem_of_dom. rewrite Hother by done. by apply elem_of_dom. }
  assert (dom (pending s1) ⊆ dom (pending s)) as Hdom.
  { intros k1 [q1 Hq1]%elem_of_dom. destruct (decide (k1 = k')) as [->|Hk1]; apply elem_of_dom; [eauto|].
    rewrite <- Hother by done. eauto. }
  assert (∀ k1, k1 ∈ ahead s1 → k1 ≠ k' → k1 ∈ ahead s ∖ {[ k' ]}) as Hahead.
  { intros k1 Hk1 Hne1. rewrite elem_of_difference, elem_of_singleton. split; [|done].
    rewrite elem_of_ahead in *. destruct Hk1 as (? & ? & ? & ?). by split_and!; [apply Hdom|..]. }
  unfold mark_scheduler_started. split_and!.
  - case_bool_decide; simpl.
    + split; simpl; [|apply Hw1..]. intros k1 t [_ Hk1]%lookup_delete_Some. by apply (wa_tickets _ Hw1 k1).
    + pose proof (take_ticket_waiting s1 k' Hn Hw1) as [? ? ?]. by split.
  - intros k1 Hk1. apply elem_of_ahead in Hk1 as (Hd & Ha & Hk1 & Hc).
    assert (k1 ∈ dom (pending s1)) as Hd1 by (case_bool_decide; exact Hd).
    assert (k1 ≠ k') as Hne1.
    { intros ->. case_bool_decide as He; simpl in *.
      - apply elem_of_dom in Hd1 as [q1 Hq1]. apply (Hself q1 Hq1). unfold queue_of in He. simpl in *.
        by rewrite Hq1 in He.
      - apply Hc, (new_ticket_behind s1 k'); done. }
    apply Hahead; [|done]. apply elem_of_ahead. split_and!; try done. case_bool_decide; simpl in Hc.
    + rewrite (same_tickets_cmp (service_tickets s1)) in Hc; [done|by rewrite lookup_delete_ne..].
    + rewrite (same_tickets_cmp (service_tickets s1)) in Hc; [done|by rewrite lookup_insert_ne..].
  - intros Hdue Eact Hfair%N.leb_le. unfold next_key in Hnext. rewrite Hfair in Hnext.
    apply min_by_spec in Hnext as [_ Hmin]; [|apply _]. apply due_keys_spec in Hdue' as (q' & Hq' & Ha & _).
    apply elem_of_ahead. split_and!; [by apply elem_of_dom; eauto|congruence|done|by apply Hmin].
  - by case_bool_decide.
Qed.

Lemma passed_over_bound n s s' :
  passed_over n s s' → waiting s →
  N.of_nat n ≤ 4 * N.of_nat (size (ahead s)) + (3 - N.min 3 (recent_dispatches s)).
Proof.
  intros Hp. induction Hp as [s|n s s' a c resumed Hn _ IH|n s s' g _ IH
    |n s s' now ready k' p s1 cooldown Hn Hdue Hr Hne _ IH
    |n s s' activation now ready k' p s1 cooldown Hn H3 Ha Hr _ IH]; intros Hw.
  - simpl. lia.
  - destruct (enqueue_waiting a c resumed s Hn Hw) as (Hw' & Ha & Hd). specialize (IH Hw').
    rewrite Hd in IH. apply subseteq_size in Ha. lia.
  - assert (pending (guard_finish g s).2 = pending s ∧ service_tickets (guard_finish g s).2 = service_tickets s ∧
      next_service_ticket (guard_finish g s).2 = next_service_ticket s ∧
      recent_dispatches (guard_finish g s).2 = recent_dispatches s) as (Hp1 & Ht1 & Hn1 & Hr1)
      by (unfold guard_finish; by destruct (g_finished g)).
    rewrite Hr1 in IH. unfold ahead in *. rewrite Hp1, Ht1 in IH. apply IH.
    destruct Hw as [? ? ?]. by split; rewrite ?Hp1, ?Ht1, ?Hn1.
  - destruct (dispatch_waiting _ now ready k' p s1 cooldown s Hn Hw Hr Hne) as (Hw' & Ha & Hfair & Hd).
    specialize (IH Hw'). specialize (Hfair Hdue eq_refl). rewrite Hd in IH. apply subseteq_size in Ha.
    destruct (N.leb_spec 3 (recent_dispatches s)) as [H3|H3].
    + specialize (Hfair H3). rewrite size_difference in Ha by set_solver. rewrite size_singleton in Ha.
      assert (size (ahead s) ≠ 0%nat) by (intros Hz%size_empty_inv; set_solver). lia.
    + assert (size (ahead s ∖ {[k']}) ≤ size (ahead s))%nat by (apply subseteq_size; set_solver). lia.
  - assert (k' ≠ k) as Hne.
    { intros ->. apply reserve_spec in Hr as (_ & Hdue & _). by apply due_keys_spec in Hdue as (q & _ & ? & _). }
    destruct (dispatch_waiting _ now ready k' p s1 cooldown s Hn Hw Hr Hne) as (Hw' & Ha' & _ & Hd).
    specialize (IH Hw'). rewrite Hd, (proj2 (N.leb_gt _ _) H3) in IH. apply subseteq_size in Ha'.
    assert (size (ahead s ∖ {[k']}) ≤ size (ahead s))%nat by (apply subseteq_size; set_solver). lia.
Qed.
End waiting.
