(* ===== verification/SchedulerRuns.v ===== *)
(** * Runs of the scheduler

    The properties of every interleaving of the scheduler's sections, with
    sample runs, and two runs that show what the bounds do not give. *)

From stdpp Require Import gmap relations.
From S2P Require Import Prelude RustString Diagnostics Expression Domain Template Decision Check Json BoundedJson Results Lifecycle Selection Progress Scheduler SchedulerFacts.

#[local] Open Scope N_scope.

Section properties.
Context `{SerdeNumber}.
Variable windows : ActivationId → bool.

(** C38: in every interleaving of the scheduler's sections at most four
    evaluations run, never two for one branch of an activation; no queue is
    empty, every waiting candidate is under its own branch and position, a check
    with a window has at most one candidate that is not resumed in each queue;
    and the waiting candidates are at most 128, plus one for each of four
    evaluations that may put its candidate back. *)
Theorem scheduler_invariant y :
  reachable windows y →
  active_count (sys_state y) = N.of_nat (length (sys_tasks y)) ∧
  active_count (sys_state y) ≤ MAX_IN_FLIGHT_EVALUATIONS ∧
  NoDup (tk_key <$> sys_tasks y) ∧
  Forall (λ t, tk_key t ∈ in_flight (sys_state y)) (sys_tasks y) ∧
  (∀ k q, pending (sys_state y) !! k = Some q →
     q ≠ ∅ ∧
     (∀ pos p, q !! pos = Some p →
        candidate_key (pc_candidate p) = k ∧ fr_trigger_position (pc_candidate p) = pos) ∧
     (windows (sk_activation k) = true → ∀ pos pos' p p',
        q !! pos = Some p → q !! pos' = Some p' → pc_resumed p = false → pc_resumed p' = false →
        pos = pos')) ∧
  pending_total (sys_state y) ≤ MAX_PENDING_CANDIDATES + MAX_IN_FLIGHT_EVALUATIONS.
Proof.
  intros [Hcount Hbound Hkeys Htasks Hqueues Htotal]%reachable_ok.
  repeat split; [done|done|done| | | | | |lia].
  - eapply Forall_impl; [exact Htasks|]. by intros t [? _ _ _ _].
  - by apply (Hqueues k).
  - destruct (Hqueues k q) as [[He _] _]; [done|]. by destruct (He pos p) as [[? _] _].
  - destruct (Hqueues k q) as [[He _] _]; [done|]. by destruct (He pos p) as [_ ?].
  - intros Hw pos pos' p p'. destruct (Hqueues k q) as [[_ Hc] _]; [done|]. by apply Hc.
Qed.

(** A branch whose evaluation was dropped after its dispatch intent is never
    reserved again, whatever the engine does afterwards: the request whose
    delivery is unknown is not sent a second time. *)
Theorem dropped_intent_never_restarts pre t post released s y policy activation now ready k p s' :
  reachable windows {| sys_state := s; sys_tasks := pre ++ t :: post |} →
  g_release_branch_on_drop (tk_guard t) = false →
  rtc (system_step windows)
    {| sys_state := guard_drop (tk_guard t) released s; sys_tasks := pre ++ post |} y →
  reserve policy activation now ready (sys_state y) = Some (k, p, s') →
  k ≠ tk_key t.
Proof.
  intros Hr Hflag Hsteps Hres%reserve_not_in_flight ->.
  pose proof (dropped_abandoned windows _ _ _ released _ Hr Hflag) as Ha.
  by destruct (abandoned_forever windows _ _ _ Hsteps Ha).
Qed.

(** C39: under the live policy a branch that stays due is served after a bounded
    number of dispatches of its activation, as long as no other activation takes a
    fourth dispatch: each fourth dispatch takes the oldest service ticket, so at
    most four dispatches pass for every branch of the activation whose ticket is
    older, and three more.  In between candidates may arrive, evaluations may
    finish, and other activations may take the dispatches that go by position.
    Without the condition there is no bound, since the counter is shared
    (shared_counter_starves).  The branch starts with work in its queue, no queue is
    empty, every ticket is older than the next one, and the tickets do not run out
    of the machine's integers. *)
Theorem due_branch_served k n s s' :
  waiting k s → passed_over k n s s' →
  N.of_nat n ≤ 4 * N.of_nat (size (ahead k s)) + 3.
Proof. intros Hw Hp. pose proof (passed_over_bound k n s s' Hp Hw). lia. Qed.
End properties.

(** ** Samples *)

Section sample.
#[local] Existing Instance text_numbers.

Definition sample_id (definition : string) : ActivationId :=
  {| a_scope := ActivationScope_default; a_definition_id := definition; a_generation := 1 |}.

Definition sample_effective (definition : string) : EffectiveActivation :=
  {| ea_id := sample_id definition; ea_revision := []; ea_definition_scope := GlobalScope;
     ea_source_paths := []; ea_project_root := None; ea_compiled := sample_check;
     ea_bootstrap_position := 0; ea_bootstrap_publication := 0 |}.

Definition sample_at (definition branch : string) (position : N) : FrozenCandidate :=
  {| fr_activation := sample_id definition; fr_branch := {| branch_id := branch |};
     fr_trigger_position := position; fr_messages := [];
     fr_context := {| fc_value := JObject []; fc_dependencies := [] |}; fr_dependencies := [];
     fr_fingerprint := [position] |}.

Definition no_windows (_ : ActivationId) : bool := false.

Definition add_at (definition branch : string) (position : N) (s : SchedulerState) : SchedulerState :=
  (enqueue_locked (sample_effective definition) (sample_at definition branch position) false s).2.

Definition add_all (positions : list N) (s : SchedulerState) : SchedulerState :=
  fold_left (λ s position, add_at "a" "main" position s) positions s.

Lemma add_at_step definition branch position s ts :
  system_step no_windows {| sys_state := s; sys_tasks := ts |}
    {| sys_state := add_at definition branch position s; sys_tasks := ts |}.
Proof. by apply SEnqueue. Qed.

Lemma add_all_steps positions ts : ∀ s,
  rtc (system_step no_windows) {| sys_state := s; sys_tasks := ts |}
    {| sys_state := add_all positions s; sys_tasks := ts |}.
Proof.
  induction positions as [|position positions IH]; intros s; simpl; [done|].
  eapply rtc_l; [apply add_at_step|apply IH].
Qed.

(** The state after a reservation for an activation, and the task it starts. *)
Definition start (definition : string) (s : SchedulerState) : option (ScheduleKey * PendingCandidate * SchedulerState) :=
  reserve PolicyLive (sample_id definition) 0 (λ _, true) s.

Definition sample_start : option (ScheduleKey * PendingCandidate * SchedulerState) :=
  start "a" (add_all [1; 2] SchedulerState_default).

Lemma sample_reachable k p s' :
  sample_start = Some (k, p, s') →
  reachable no_windows {| sys_state := s'; sys_tasks := [{| tk_guard := guard_new k p; tk_held := Some p |}] |}.
Proof.
  intros Hs. unfold reachable. eapply rtc_r; [apply (add_all_steps [1; 2])|]. by eapply SReserve.
Qed.

Lemma scheduler_invariant_witness :
  match sample_start with
  | Some (k, p, s') =>
      fr_trigger_position (pc_candidate p) = 1 ∧ active_count s' = 1 ∧ pending_total s' ≤ 132
  | None => False
  end.
Proof.
  assert (is_some sample_start = true) as Hsome by vm_refl.
  destruct sample_start as [[[k p] s']|] eqn:Es; [clear Hsome|discriminate Hsome].
  pose proof (scheduler_invariant no_windows _ (sample_reachable k p s' Es)) as (Hc & _ & _ & _ & _ & Ht).
  assert ((λ r, fr_trigger_position (pc_candidate r.1.2)) <$> sample_start = Some 1) as Hp by vm_refl.
  rewrite Es in Hp. split; [by injection Hp|]. split; [exact Hc|exact Ht].
Defined.

(** The task of [sample_start] is dropped after its intent; a second candidate of
    the branch is waiting, and stays there. *)
Lemma dropped_intent_never_restarts_witness :
  match sample_start with
  | Some (k, p, s') =>
      let g := set_guard false None (guard_new k p) in
      ∀ policy now ready k' p' s'',
      reserve policy (sample_id "a") now ready (guard_drop g (Ok Current) s') = Some (k', p', s'') → k' ≠ k
  | None => False
  end.
Proof.
  assert (is_some sample_start = true) as Hsome by vm_refl.
  destruct sample_start as [[[k p] s']|] eqn:Es; [clear Hsome|discriminate Hsome].
  intros g policy now ready k' p' s'' Hr.
  apply (dropped_intent_never_restarts no_windows [] {| tk_guard := g; tk_held := Some p |} [] (Ok Current) s'
    {| sys_state := guard_drop g (Ok Current) s'; sys_tasks := [] |} policy (sample_id "a") now ready k' p' s'').
  - eapply rtc_r; [exact (sample_reachable k p s' Es)|].
    apply (STask no_windows [] _ [] s' s' (Some {| tk_guard := g; tk_held := Some p |})).
    apply (TDisarm s' {| tk_guard := guard_new k p; tk_held := Some p |} false).
  - reflexivity.
  - apply rtc_refl.
  - exact Hr.
Defined.

(** *** Waiting *)

Definition old_key : ScheduleKey := {| sk_activation := sample_id "a"; sk_branch := {| branch_id := "old" |} |}.

Definition sample_waiting : SchedulerState := add_at "a" "old" 1 SchedulerState_default.

Definition waiting_check (k : ScheduleKey) (s : SchedulerState) : bool :=
  bool_decide (map_Forall (λ _ t, t < next_service_ticket s) (service_tickets s)) &&
  forallb (λ kq : ScheduleKey * Queue, negb (bool_decide (kq.2 = ∅))) (map_to_list (pending s)) &&
  is_some (pending s !! k).

Lemma waiting_check_sound k s : waiting_check k s = true → waiting k s.
Proof.
  intros [[Ht%bool_decide_eq_true Hq]%andb_true_iff Hp]%andb_true_iff. split.
  - intros k' t Hk. by apply (Ht k').
  - intros k' q Hk. rewrite forallb_forall in Hq.
    assert (In (k', q) (map_to_list (pending s))) as Hin by (by apply list_elem_of_In, elem_of_map_to_list).
    by apply Hq, negb_true_iff, bool_decide_eq_false in Hin.
  - apply elem_of_dom. destruct (pending s !! k); [by eexists|done].
Qed.

Lemma sample_waiting_ok : waiting old_key sample_waiting.
Proof. apply waiting_check_sound. vm_refl. Qed.

(** A key that is due but not chosen. *)
Definition passes (s : SchedulerState) (r : option (ScheduleKey * PendingCandidate * SchedulerState)) : bool :=
  bool_decide (old_key ∈ due_keys PolicyLive (sample_id "a") 0 (λ _, true) s) &&
  match r with Some (k, _, _) => negb (bool_decide (k = old_key)) | None => false end.

Lemma due_branch_served_witness :
  ∃ s', passed_over old_key 1 sample_waiting s' ∧
        N.of_nat 1 ≤ 4 * N.of_nat (size (ahead old_key sample_waiting)) + 3.
Proof.
  set (s := add_at "a" "new" 2 sample_waiting).
  assert (passes s (start "a" s) = true) as Hp by vm_refl.
  apply andb_true_iff in Hp as [Hdue Hother]. apply bool_decide_eq_true in Hdue.
  destruct (start "a" s) as [[[k p] s1]|] eqn:Es; [|discriminate Hother].
  apply negb_true_iff, bool_decide_eq_false in Hother.
  assert (passed_over old_key 1 sample_waiting (mark_scheduler_started k 0 0 PolicyLive s1)) as Hrun.
  { apply (passed_enqueue old_key 1 sample_waiting _ (sample_effective "a") (sample_at "a" "new" 2) false);
      [apply N.ltb_lt; vm_refl|].
    apply (passed_dispatch old_key 0 s _ 0 (λ _, true) k p s1 0); [apply N.ltb_lt; vm_refl|done|done|done|].
    apply passed_none. }
  exists (mark_scheduler_started k 0 0 PolicyLive s1). split; [exact Hrun|].
  apply (due_branch_served old_key 1 sample_waiting (mark_scheduler_started k 0 0 PolicyLive s1)
    sample_waiting_ok Hrun).
Defined.

(** ** What the bounds do not give *)

(** 128 candidates wait, one is taken, another arrives, and the first is put
    back: 129 wait. *)
Definition numbers_to (n : nat) : list N := map N.of_nat (seq 1 n).

Lemma reserve_then_defer definition s k p s1 position due :
  start definition s = Some (k, p, s1) →
  rtc (system_step no_windows) {| sys_state := s; sys_tasks := [] |}
    {| sys_state := defer_candidate k p due (add_at "a" "main" position s1);
       sys_tasks := [{| tk_guard := guard_new k p; tk_held := None |}] |}.
Proof.
  intros Hs. eapply rtc_l; [eapply SReserve; exact Hs|]. eapply rtc_l; [apply (add_at_step "a" "main" position)|].
  eapply rtc_once, (STask no_windows [] _ [] _ _ (Some _)), (TDefer _ (guard_new k p) p due).
Qed.

Theorem pending_bound_exceeded :
  ∃ y, reachable no_windows y ∧ pending_total (sys_state y) = MAX_PENDING_CANDIDATES + 1.
Proof.
  set (s := add_all (numbers_to 128) SchedulerState_default).
  assert ((λ r, pending_total (defer_candidate r.1.1 r.1.2 10000 (add_at "a" "main" 129 r.2))) <$> start "a" s =
    Some 129) as Ht by vm_refl.
  destruct (start "a" s) as [[[k p] s1]|] eqn:Es; [|discriminate Ht]. simpl in Ht.
  exists {| sys_state := defer_candidate k p 10000 (add_at "a" "main" 129 s1);
            sys_tasks := [{| tk_guard := guard_new k p; tk_held := None |}] |}.
  split; [|by injection Ht].
  unfold reachable. etransitivity; [apply (add_all_steps (numbers_to 128))|].
  by apply (reserve_then_defer "a").
Qed.

(** A candidate arrives, its branch is dispatched, and the evaluation finishes. *)
Definition serve (definition branch : string) (position : N) (s : SchedulerState) : option SchedulerState :=
  let s := add_at definition branch position s in
  '(k, p, s1) ← start definition s;
  if bool_decide (sk_branch k = {| branch_id := branch |}) &&
     (negb (String.eqb definition "a") || passes s (Some (k, p, s1)))
  then Some (guard_finish (guard_new k p) (mark_scheduler_started k 0 0 PolicyLive s1)).2
  else None.

(** Three dispatches of one activation, then one of another. *)
Definition serve_round (acc : option SchedulerState) (position : N) : option SchedulerState :=
  s ← acc;
  s ← serve "a" "new" (4 * position) s;
  s ← serve "a" "new" (4 * position + 1) s;
  s ← serve "a" "new" (4 * position + 2) s;
  serve "b" "main" (4 * position + 3) s.

(** The counter of recent dispatches belongs to the engine, not to an
    activation.  When each fourth dispatch goes to another activation, a branch
    that is due and has the oldest ticket of its own activation is passed over
    sixty times in a row, where [due_branch_served] gives at most three. *)
Theorem shared_counter_starves :
  size (ahead old_key sample_waiting) = 0%nat ∧
  is_Some (fold_left serve_round (numbers_to 20) (Some sample_waiting)).
Proof.
  split; [vm_refl|].
  assert (is_some (fold_left serve_round (numbers_to 20) (Some sample_waiting)) = true) as Hs by vm_refl.
  destruct (fold_left serve_round (numbers_to 20) (Some sample_waiting)); [by eexists|discriminate Hs].
Qed.
End sample.
