(* ===== verification/EngineRuns.v ===== *)
(** * The life of a candidate

    Any number of evaluations of one candidate, one after the other as the store
    claims it, each of which can be cut short anywhere by a crash or a dropped
    future, whose guard then runs.  No request is sent twice. *)

From stdpp Require Import gmap.
From S2P Require Import Prelude Program RustString Json Diagnostics Expression Budget Provenance Scalars Evaluator Fit Domain Template Decision Check Preparation Lifecycle Selection BoundedJson Prepared Results ResultFacts Actions ActionFacts Progress ProgressFacts Scheduler SchedulerFacts SchedulerRuns Engine EngineFacts.

#[local] Open Scope N_scope.

Section runs.
Context `{SerdeNumber, UnicodeData, JsonDeserializer, !RecordWriter}.

(** The rows of a candidate and the attempts that were sent for it. *)
Inductive history : list SavedDecisionAttempt → list DecisionAttempt → Prop :=
| history_new : history [] []
| history_run rows sent activation now limit policy pending tr p d :
    history rows sent →
    runs (evaluation activation now limit policy pending) tr p →
    ghost_steps durable_step {| du_rows := rows; du_sent := sent; du_now := 0 |} tr d →
    history (du_rows d) (du_sent d)
| history_drop rows sent tr p d :
    history rows sent →
    runs drop_guard tr p →
    ghost_steps durable_step {| du_rows := rows; du_sent := sent; du_now := 0 |} tr d →
    history (du_rows d) (du_sent d)
| history_restart rows sent : history rows sent → history (abandon rows) sent.

Lemma abandon_attempts rows : sa_attempt <$> abandon rows = sa_attempt <$> rows.
Proof.
  unfold abandon. rewrite <- list_fmap_compose. apply list_fmap_ext. intros i r _. simpl.
  by destruct (sa_outcome r).
Qed.

Lemma abandon_elem rows r :
  r ∈ abandon rows → sa_outcome r ≠ AttemptUnknown → r ∈ rows.
Proof.
  unfold abandon. intros (r' & -> & Hr)%list_elem_of_fmap Ho. by destruct (sa_outcome r') eqn:E; try done.
Qed.

Lemma abandon_ok rows sent n :
  durable_ok {| du_rows := rows; du_sent := sent; du_now := n |} →
  durable_ok {| du_rows := abandon rows; du_sent := sent; du_now := n |}.
Proof.
  intros [Hk Hnum Hsec Hsent Hone]. cbn [du_rows du_sent] in *.
  assert (∀ r, r ∈ abandon rows → ∃ r', r' ∈ rows ∧ sa_attempt r' = sa_attempt r) as Hback.
  { intros r Hr. apply (list_elem_of_fmap_2 sa_attempt) in Hr. rewrite abandon_attempts in Hr.
    apply list_elem_of_fmap in Hr as (r' & Hr' & Hin). by exists r'. }
  split; cbn [du_rows du_sent].
  - by rewrite rows_attempts, abandon_attempts, <- rows_attempts.
  - intros r (r' & Hr' & <-)%Hback. by apply Hnum.
  - intros r (r' & Hr' & <-)%Hback Hsnd. specialize (Hsec r' Hr' Hsnd).
    unfold abandon. apply list_elem_of_fmap. eexists. split; [|exact Hsec]. done.
  - by rewrite abandon_attempts.
  - done.
Qed.

(** [number_of_f64] is defined on the finite values. *)
Hypothesis finite_numbers : ∀ x, f64_finite x = true → is_Some (number_of_f64 x).

Lemma history_ok rows sent :
  history rows sent → durable_ok {| du_rows := rows; du_sent := sent; du_now := 0 |}.
Proof.
  induction 1 as [|rows sent activation now limit policy pending tr p d _ IH Hrun Hs
    |rows sent tr p d _ IH Hrun Hs|rows sent _ IH].
  - split; cbn; [constructor|by intros ? ?%elem_of_nil..|constructor].
  - pose proof (hoare_sound _ _ _ _ _ _ _ _ _ _
      (evaluation_safe finite_numbers limit activation now policy pending _ IH eq_refl) Hrun Hs) as [Hd _].
    destruct Hd as [? ? ? ? ?]. by split.
  - pose proof (hoare_sound _ _ _ _ _ _ _ _ _ _
      (drop_guard_any (λ _ _ _, True) _ (λ _, I) IH) Hrun Hs) as [Hd _].
    destruct Hd as [? ? ? ? ?]. by split.
  - by apply abandon_ok.
Qed.

(** C1: no request for a decision is ever sent twice.  Over the whole life of a
    candidate, through any number of evaluations that crash or are dropped
    anywhere, with any answers of the evaluator and failing writes of the store,
    each attempt is sent at most once, there are at most two attempts for a
    decision, and a second one is sent only when the first has a saved failure
    that is safe to repeat. *)
Theorem requests_sent_once rows sent :
  history rows sent →
  NoDup sent ∧
  ∀ a, a ∈ sent →
    (da_number a = 1 ∨ da_number a = 2) ∧ a ∈ sa_attempt <$> rows ∧
    (da_number a = 2 →
     {| sa_attempt := {| da_decision := da_decision a; da_number := 1 |}; sa_outcome := SafeTransient |} ∈ rows).
Proof.
  intros [Hk Hnum Hsec Hsent Hone]%history_ok. cbn [du_rows du_sent] in *. split; [done|].
  intros a Ha. pose proof (Hsent a Ha) as Hin. apply list_elem_of_fmap in Hin as (r & -> & Hr).
  split_and!; [by apply Hnum|by apply list_elem_of_fmap_2|by apply Hsec].
Qed.

(** C7: every request is recorded before it is sent.  In every run of an
    evaluation, when a request is sent its attempt is the last saved row, with
    the intent as its outcome; it was not sent before, and the limit on new
    requests of this evaluation is not reached. *)
Theorem intent_precedes_send rows sent activation now limit policy pending tr p a c q attempt x before after d :
  history rows sent →
  runs (evaluation activation now limit policy pending) tr p →
  tr = (before ++ Ev (Send a c q attempt) x :: after)%list →
  ghost_steps durable_step {| du_rows := rows; du_sent := sent; du_now := 0 |} before d →
  (∃ saved, du_rows d = intend attempt saved) ∧ attempt ∉ du_sent d ∧ du_now d < limit.
Proof.
  intros Hh%history_ok Hrun Htr Hs.
  pose proof (hoare_calls _ _ _ _ _ _ _ _ _ _ _ _ _
    (evaluation_safe finite_numbers limit activation now policy pending _ Hh eq_refl) Hrun Htr Hs) as [_ Hr].
  exact Hr.
Qed.

(** C16: only complete assessments are submitted.  In every run of an evaluation,
    what is submitted is either the empty assessment of a check without
    decisions, or the assessment that the saved rows validate to at that moment:
    one valid answer for each declared decision, in declared order. *)
Theorem submitted_assessment_complete rows sent activation now limit policy pending tr p a x before after d :
  history rows sent →
  runs (evaluation activation now limit policy pending) tr p →
  tr = (before ++ Ev (Accept a) x :: after)%list →
  ghost_steps durable_step {| du_rows := rows; du_sent := sent; du_now := 0 |} before d →
  aa_evaluated a = EvaluatedAssessment_local ∨
  (as_attempts (aa_evaluated a) = N.of_nat (length (du_rows d)) ∧
   dr_decision <$> as_decisions (aa_evaluated a) = d_name <$> cc_decisions (ea_compiled activation) ∧
   validate_for_declarations (aa_evaluated a) (cc_decisions (ea_compiled activation))
     (question_requirements (ea_compiled activation)) = Ok tt).
Proof.
  intros Hh%history_ok Hrun Htr Hs.
  pose proof (hoare_calls _ _ _ _ _ _ _ _ _ _ _ _ _
    (evaluation_safe finite_numbers limit activation now policy pending _ Hh eq_refl) Hrun Htr Hs) as [_ Hr].
  destruct Hr as [Hr|[n Hr]]; [by left|right]. apply progress_complete in Hr as (Hn & Hv & Hnames).
  by split_and!.
Qed.

(** C17: an evaluation never panics and never runs out of fuel.  It starts with saved
    rows that some history of its candidate leaves, under a store that keeps its
    contract (rows are loaded exactly, a write that reports success has been made,
    one that reports an error may have been); then every run either returns or
    stands at a call, whatever the evaluator answers and whichever calls of the
    store fail. *)
Theorem evaluation_never_stuck rows sent activation now limit policy pending tr p d :
  history rows sent →
  runs (evaluation activation now limit policy pending) tr p →
  ghost_steps durable_step {| du_rows := rows; du_sent := sent; du_now := 0 |} tr d →
  ∀ why, p ≠ Halt why.
Proof.
  intros Hh%history_ok Hrun Hs why ->.
  by pose proof (hoare_sound _ _ _ _ _ _ _ _ _ _
    (evaluation_safe finite_numbers limit activation now policy pending _ Hh eq_refl) Hrun Hs) as [_ Hd].
Qed.
End runs.

(** ** A sample run

    The first request fails in a way that is safe to repeat, the second one is
    answered, and the assessment is accepted. *)

(** The first event of a kind in a trace. *)
Fixpoint split_event {call A} (pick : event call → option A) (tr : list (event call)) :
    option (list (event call) * A * list (event call)) :=
  match tr with
  | [] => None
  | e :: tr =>
      match pick e with
      | Some a => Some ([], a, tr)
      | None => '(before, a, after) ← split_event pick tr; Some (e :: before, a, after)
      end
  end.

Lemma split_event_spec {call A} (pick : event call → option A) (make : A → event call) tr before a after :
  (∀ e a, pick e = Some a → e = make a) →
  split_event pick tr = Some (before, a, after) → tr = (before ++ make a :: after)%list.
Proof.
  intros Hp. revert before. induction tr as [|e tr IH]; intros before; simpl; [done|].
  destruct (pick e) as [a'|] eqn:Ep.
  - intros [= <- -> ->]. by rewrite (Hp _ _ Ep).
  - intros ([[before' a'] after'] & Hs & [= <- <- <-])%bind_Some. by rewrite (IH before').
Qed.

(** A store that commits what it reports, as a function. *)
Definition durable_next `{SerdeNumber} {X} (c : engine_call X) (x : X) (d : Durable) : option Durable :=
  match c in engine_call X return X → option Durable with
  | LoadDecisionProgress _ => λ x,
      match x, du_rows d with
      | Ok {| dp_attempts := [] |}, [] => Some d
      | _, _ => None
      end
  | RecordDispatchIntent _ _ _ a => λ x,
      match x with Ok Current => Some (with_rows (intend a (du_rows d)) d) | _ => None end
  | RecordAttemptFailure _ a kind _ => λ x,
      match x with Ok _ => Some (with_rows (settle a (failure_outcome kind) (du_rows d)) d) | _ => None end
  | RecordDecisionAnswer _ a answer => λ x,
      match x with Ok Current => Some (with_rows (settle a (Answer answer) (du_rows d)) d) | _ => None end
  | Send _ _ _ a => λ _,
      Some {| du_rows := du_rows d; du_sent := du_sent d ++ [a]; du_now := du_now d + 1 |}
  | _ => λ _, Some d
  end x.

Fixpoint durable_run `{SerdeNumber} (tr : list (event engine_call)) (d : Durable) : option Durable :=
  match tr with
  | [] => Some d
  | Ev c x :: tr => d ← durable_next c x d; durable_run tr d
  end.

Lemma durable_run_steps `{SerdeNumber} tr : ∀ d d',
  durable_run tr d = Some d' → ghost_steps durable_step d tr d'.
Proof.
  induction tr as [|[X c x] tr IH]; intros d d'; simpl; [by intros [= ->]|].
  intros (d1 & Hn & Hr)%bind_Some. exists d1. split; [|by apply IH].
  destruct c; simpl in *; try by injection Hn as <-.
  all: try (destruct x as [[]|]; simpl in *; try done; by injection Hn as <-).
  - destruct x as [[[|]]|]; try done. destruct (du_rows d) eqn:E; [|done]. injection Hn as <-.
    split; [done|]. by intros p [= <-].
Qed.

Section sample.
#[local] Existing Instance text_numbers.
#[local] Existing Instance ascii_unicode.
#[local] Existing Instance no_json.
#[local] Existing Instance short_writer.

Definition sample_prepared : PreparedAssessment :=
  {| pa_version := 1; pa_profile := "profile";
     pa_evaluation_budget :=
       match prepare_all_inputs sample_check (sample_at "a" "main" 1) with
       | Ok (_, b) => b
       | Err _ => EvaluationBudget_default
       end;
     pa_fitting_work_bytes := 0;
     pa_decisions := [{| pb_decision := "review"; pb_original_input := JNull; pb_input := JNull;
                         pb_request := JNull; pb_report := {| omissions := [] |} |}] |}.

Definition sample_claim : ClaimedCandidate :=
  {| cl_id := [1]; cl_candidate := sample_at "a" "main" 1; cl_prior_status := None; cl_fence := 1 |}.

Definition sample_failure : EvaluationFailure :=
  {| ef_code := ECRateLimited; ef_kind := FailSafeTransient; ef_detail := "busy"; ef_attempts := 1 |}.

Definition sample_reply (a : DecisionAttempt) : result DecisionResult EvaluationFailure :=
  if da_number a =? 1 then Err sample_failure
  else Ok {| dr_decision := "review"; dr_answers := reverse sample_answers; dr_attempts := 2 |}.

Definition sample_call (X : Type) (c : engine_call X) : X :=
  match c in engine_call X return X with
  | LoadTerminalCandidateIds _ => Ok []
  | ReleasePreDispatchClaim _ => Ok Current
  | ClaimDue _ _ _ => Ok (Claimed sample_claim)
  | LoadDecisionProgress _ => Ok DecisionProgress_default
  | LoadPreparation _ => Ok None
  | RecordPreparation _ _ => Ok Current
  | RecordLocalStart _ _ _ _ => Ok Current
  | RecordPreparationRejection _ _ => Ok Current
  | RecordDispatchIntent _ _ _ _ => Ok Current
  | RecordAttemptFailure _ _ _ _ => Ok Current
  | RecordDecisionAnswer _ _ _ => Ok Current
  | Accept _ => Ok Accepted
  | RecordEvaluationFailure _ _ => Ok Current
  | RecordNotAssessed _ _ => Ok Current
  | LocalExecutionIsCurrent _ => true
  | Prepare _ _ _ => Ok sample_prepared
  | PreparationRecorded _ => tt
  | ValidatePrepared _ _ _ => Ok tt
  | Send _ _ _ _ => tt
  | Receive a => sample_reply a
  | Suspend => tt
  end.

Definition sample_pending : PendingCandidate :=
  {| pc_candidate := sample_at "a" "main" 1; pc_compiled := sample_check; pc_resumed := false |}.

Definition sample_evaluation : task () :=
  evaluation (sample_effective "a") 1000 10 PolicyLive sample_pending.

Definition sample_local : Local :=
  (guard_new (candidate_key (sample_at "a" "main" 1)) sample_pending, SchedulerState_default).

Definition sample_trace : list (event engine_call) :=
  (interpret sample_call sample_evaluation sample_local).1.1.

Definition sample_end : option Durable :=
  durable_run sample_trace {| du_rows := []; du_sent := []; du_now := 0 |}.

Definition sample_accepts : list (list string) :=
  omap (λ e, match e with Ev (Accept a) _ => Some (dr_decision <$> as_decisions (aa_evaluated a)) | _ => None end)
    sample_trace.

Definition first_attempt : DecisionAttempt := {| da_decision := "review"; da_number := 1 |}.
Definition second_attempt : DecisionAttempt := {| da_decision := "review"; da_number := 2 |}.

Example sample_run_sends :
  (du_sent <$> sample_end, sample_accepts) = (Some [first_attempt; second_attempt], [["review"]]).
Proof. vm_refl. Qed.

Lemma sample_runs : ∃ p, runs sample_evaluation sample_trace p.
Proof.
  pose proof (interpret_runs sample_call sample_evaluation sample_local) as Hr. unfold sample_trace.
  destruct (interpret sample_call sample_evaluation sample_local) as [[tr r] l]. by eexists.
Qed.

Definition fresh_durable : Durable := {| du_rows := []; du_sent := []; du_now := 0 |}.

Lemma sample_history d : sample_end = Some d → history (du_rows d) (du_sent d).
Proof.
  intros He. destruct sample_runs as [p Hp]. apply durable_run_steps in He.
  by apply (history_run [] [] _ _ _ _ _ _ p d history_new Hp).
Qed.

Lemma requests_sent_once_witness :
  ∃ rows, history rows [first_attempt; second_attempt] ∧ NoDup [first_attempt; second_attempt] ∧
          {| sa_attempt := first_attempt; sa_outcome := SafeTransient |} ∈ rows.
Proof.
  destruct sample_end as [d|] eqn:Ed; [|assert (is_some sample_end = true) as Hs by vm_refl; by rewrite Ed in Hs].
  assert (du_sent <$> sample_end = Some [first_attempt; second_attempt]) as Hs by vm_refl.
  rewrite Ed in Hs. injection Hs as Hs. pose proof (sample_history d Ed) as Hh. rewrite Hs in Hh.
  destruct (requests_sent_once text_numbers_finite _ _ Hh) as [Hn Ha]. exists (du_rows d).
  split; [exact Hh|split; [exact Hn|]].
  destruct (Ha second_attempt ltac:(right; left)) as (_ & _ & Hsnd). by apply Hsnd.
Defined.

Definition pick_send (e : event engine_call) :
    option (EffectiveActivation * FrozenCandidate * PreparedAssessment * DecisionAttempt * unit) :=
  match e with
  | Ev c x => match c in engine_call X return X → _ with Send a c q t => λ x, Some (a, c, q, t, x) | _ => λ _, None end x
  end.

Definition pick_accept (e : event engine_call) :
    option (AssessmentAcceptance * result AcceptanceOutcome StoreError) :=
  match e with
  | Ev c x => match c in engine_call X return X → _ with Accept a => λ x, Some (a, x) | _ => λ _, None end x
  end.

Definition make_send (t : EffectiveActivation * FrozenCandidate * PreparedAssessment * DecisionAttempt * unit) :
    event engine_call :=
  let '(a, c, q, t, x) := t in Ev (Send a c q t) x.

Definition make_accept (t : AssessmentAcceptance * result AcceptanceOutcome StoreError) : event engine_call :=
  Ev (Accept t.1) t.2.

Lemma pick_send_spec e t : pick_send e = Some t → e = make_send t.
Proof. destruct e as [X c x]. destruct c; simpl; try done. by intros [= <-]. Qed.
Lemma pick_accept_spec e t : pick_accept e = Some t → e = make_accept t.
Proof. destruct e as [X c x]. destruct c; simpl; try done. by intros [= <-]. Qed.

Definition sample_send := split_event pick_send sample_trace.
Definition sample_accept := split_event pick_accept sample_trace.

Lemma durable_run_split tr before e after d :
  tr = (before ++ e :: after)%list → is_some (durable_run tr d) = true →
  ∃ d', durable_run before d = Some d' ∧ ghost_steps durable_step d before d'.
Proof.
  intros ->. revert d. induction before as [|[X c x] before IH]; intros d Hs; simpl in *.
  - by exists d.
  - destruct (durable_next c x d) as [d1|] eqn:En; [|done]. simpl in *.
    destruct (IH d1 Hs) as (d' & Hd & Hsteps). exists d'. split; [done|]. simpl. exists d1. split; [|done].
    assert (durable_run [Ev c x] d = Some d1) as Hone by (simpl; by rewrite En).
    apply durable_run_steps in Hone as (d2 & Hstep & ->). done.
Qed.

Lemma intent_precedes_send_witness :
  ∃ d saved, du_rows d = intend first_attempt saved ∧ du_now d < 10.
Proof.
  destruct sample_runs as [p Hp].
  assert ((λ s, s.1.2.1.2) <$> sample_send = Some first_attempt) as Hattempt by vm_refl.
  destruct sample_send as [[[before [[[[a c] q] t] x]] after]|] eqn:Es; [|discriminate Hattempt].
  injection Hattempt as Ht. simpl in Ht. subst t.
  apply (split_event_spec _ make_send) in Es; [|exact pick_send_spec].
  destruct (durable_run_split _ _ _ _ fresh_durable Es ltac:(vm_refl)) as (d & _ & Hsteps).
  destruct (intent_precedes_send text_numbers_finite [] [] _ _ _ _ _ _ _ _ _ _ _ _ _ _ _
    history_new Hp Es Hsteps) as ([saved Hsaved] & _ & Hnow).
  exists d, saved. by split.
Defined.

Lemma submitted_assessment_complete_witness :
  ∃ a d, as_decisions (aa_evaluated a) ≠ [] ∧
    dr_decision <$> as_decisions (aa_evaluated a) = ["review"] ∧
    as_attempts (aa_evaluated a) = N.of_nat (length (du_rows d)).
Proof.
  destruct sample_runs as [p Hp].
  assert ((λ s, as_attempts (aa_evaluated s.1.2.1)) <$> sample_accept = Some 2) as Hattempts by vm_refl.
  destruct sample_accept as [[[before [a x]] after]|] eqn:Es; [|discriminate Hattempts].
  injection Hattempts as Ha. simpl in Ha.
  apply (split_event_spec _ make_accept) in Es; [|exact pick_accept_spec].
  destruct (durable_run_split _ _ _ _ fresh_durable Es ltac:(vm_refl)) as (d & _ & Hsteps).
  destruct (submitted_assessment_complete text_numbers_finite [] [] _ _ _ _ _ _ _ _ _ _ _ _
    history_new Hp Es Hsteps) as [Hl|(Hn & Hnames & _)].
  - cbn [fst] in Hl. rewrite Hl in Ha. discriminate Ha.
  - exists a, d. split; [|split; [exact Hnames|exact Hn]]. intros He. cbn [fst] in Hnames. rewrite He in Hnames. discriminate Hnames.
Defined.

Lemma evaluation_never_stuck_witness : ∃ p, runs sample_evaluation sample_trace p ∧ p ≠ Halt Panics.
Proof.
  destruct sample_runs as [p Hp]. exists p. split; [exact Hp|].
  destruct sample_end as [d|] eqn:Ed; [|assert (is_some sample_end = true) as Hs by vm_refl; by rewrite Ed in Hs].
  apply durable_run_steps in Ed.
  exact (evaluation_never_stuck text_numbers_finite [] [] _ _ _ _ _ _ _ _ history_new Hp Ed Panics).
Defined.
End sample.
