(* ===== verification/RecoveryRuns.v ===== *)
(** * Runs of a recovery

    The contract of the store on the unfinished work, and what follows for every
    run: the loop over the pages ends, and it has handled every work item that is
    still unfinished, each once and in the order of the keys. *)

From stdpp Require Import gmap sorting.
From S2P Require Import Prelude Program RustString Json Diagnostics Expression Budget Provenance Scalars Evaluator Fit Domain Template Decision Check Preparation Lifecycle Selection BoundedJson Prepared Source Results ResultFacts Actions ActionFacts Progress ProgressFacts Scheduler SchedulerFacts SchedulerRuns Engine EngineFacts EngineRuns Checkpoint Pages PageFacts Recovery RecoveryFacts.

#[local] Open Scope N_scope.

(** ** Sorted lists and filters *)

Lemma sublist_sorted {A} (R : relation A) l l' : sublist l' l → StronglySorted R l → StronglySorted R l'.
Proof.
  induction 1 as [|x l1 l2 Hs IH|x l1 l2 Hs IH]; [done| |].
  - intros [Hl Hx]%StronglySorted_inv. constructor; [by apply IH|].
    apply Forall_forall. intros y Hy. eapply Forall_forall; [exact Hx|]. by eapply elem_of_sublist.
  - intros [Hl _]%StronglySorted_inv. by apply IH.
Qed.

Lemma filter_sublist_le {A} (P : A → Prop) `{∀ x, Decision (P x)} l l' :
  sublist l' l → (length (filter P l') ≤ length (filter P l))%nat.
Proof.
  induction 1 as [|x l1 l2 _ IH|x l1 l2 _ IH]; [done| |]; rewrite !filter_cons; case_decide; simpl; lia.
Qed.

Lemma filter_le {A} (P Q : A → Prop) `{∀ x, Decision (P x), ∀ x, Decision (Q x)} l :
  (∀ y, P y → Q y) → (length (filter P l) ≤ length (filter Q l))%nat.
Proof.
  intros Hpq. induction l as [|x l IH]; [done|]. rewrite !filter_cons.
  case_decide as Hp; case_decide as Hq; simpl; try lia. by apply Hpq in Hp.
Qed.

Lemma filter_lt {A} (P Q : A → Prop) `{∀ x, Decision (P x), ∀ x, Decision (Q x)} l z :
  (∀ y, P y → Q y) → z ∈ l → Q z → ¬ P z → (length (filter P l) < length (filter Q l))%nat.
Proof.
  intros Hpq Hz HQ HP. induction l as [|x l IH]; [by apply not_elem_of_nil in Hz|].
  rewrite !filter_cons. apply elem_of_cons in Hz as [->|Hz].
  - rewrite decide_False, decide_True by done. simpl. pose proof (filter_le P Q l Hpq). lia.
  - specialize (IH Hz). case_decide as Hp; case_decide as Hq; simpl; try lia. by apply Hpq in Hp.
Qed.

(** ** The order of the keys *)

Definition id_lt (x y : list N) : Prop := id_le y x = false.

Lemma id_lt_irrefl x : ¬ id_lt x x.
Proof.
  unfold id_lt. induction x as [|a x IH]; simpl; [done|].
  rewrite N.eqb_refl, N.ltb_irrefl. simpl. by destruct (id_le x x).
Qed.

Lemma id_lt_trans x y z : id_lt x y → id_lt y z → id_lt x z.
Proof.
  unfold id_lt. revert y z. induction x as [|a x IH]; intros [|b y] [|c z]; simpl; try done.
  rewrite !orb_false_iff, !andb_false_iff. intros [H1 H2] [H3 H4]. split; [lia|].
  destruct (decide (c = a)) as [->|]; [|lia].
  destruct H2 as [H2|H2]; [lia|]. destruct H4 as [H4|H4]; [lia|]. right. by eapply IH.
Qed.

(** The keys after an exclusive bound *)
Definition after_key (after : option (list N)) (i : list N) : Prop :=
  match after with None => True | Some k => id_lt k i end.

#[export] Instance after_key_dec after i : Decision (after_key after i).
Proof. destruct after; simpl; unfold id_lt; apply _. Defined.

(** One page of the keys after [after]: what comes between two keys of it is not
    open any more. *)
Lemma page_keys opened opened' after ids k :
  StronglySorted id_lt opened → sublist opened' opened → sublist ids (filter (after_key after) opened) →
  (∀ i, i ∈ opened' → after_key after i → i ∈ ids ∨ ∃ k, last ids = Some k ∧ id_lt k i) → last ids = Some k →
  StronglySorted id_lt ids ∧
  (∀ i, i ∈ ids → after_key after i) ∧
  (∀ i, i ∈ opened' → ¬ after_key (Some k) i → after_key after i → i ∈ ids) ∧
  (length (filter (after_key (Some k)) opened') < length (filter (after_key after) opened))%nat.
Proof.
  intros Hs Hsub Hids Hnone Hk.
  assert (∀ i, i ∈ ids → after_key after i ∧ i ∈ opened) as Hin
    by (intros i Hi; by eapply elem_of_sublist, list_elem_of_filter in Hids).
  assert (k ∈ ids) as [Hka Hko]%Hin by (apply last_Some in Hk as [l' ->]; apply elem_of_app; right; by left).
  split_and!.
  - eapply sublist_sorted; [exact Hids|]. eapply sublist_sorted; [apply sublist_filter|done].
  - intros i [Ha _]%Hin. done.
  - intros i Hi Hn Ha. destruct (Hnone i Hi Ha) as [?|(k' & Hk' & Hlt)]; [done|]. rewrite Hk in Hk'.
    injection Hk' as <-. by destruct Hn.
  - eapply Nat.le_lt_trans; [by apply filter_sublist_le|]. apply filter_lt with k; [|done|done|apply id_lt_irrefl].
    intros i Hi. destruct after as [k0|]; [|done]. by eapply id_lt_trans.
Qed.

Section runs.
Context `{SerdeNumber, UnicodeData, JsonDeserializer, !RecordWriter}.
Variable finite_numbers : ∀ x : f64, f64_finite x = true → is_Some (number_of_f64 x).

(** ** The contract of the store *)

(** The keys of the unfinished work in the store, in order, and the records that
    were loaded.  While the recovery runs, work can be finished but none is
    added. *)
Record Work := { wk_open : list (list N); wk_loaded : list RecoveryRecord }.

(** A key that the store has given *)
Definition known_key (after : option (list N)) (w : Work) : Prop :=
  match after with None => True | Some k => k ∈ record_id <$> wk_loaded w end.

(** The records of a page were unfinished when it was asked for, in the order of
    their keys after the exclusive one, and no work that is still unfinished is
    left out, up to the last of them.  So a page may be shorter than its limit,
    but it is not empty while there is work. *)
Definition page_of (after : option (list N)) (limit : N) (ids : list (list N)) (w w' : Work) : Prop :=
  N.of_nat (length ids) ≤ limit ∧ sublist ids (filter (after_key after) (wk_open w)) ∧
  ∀ i, i ∈ wk_open w' → after_key after i → i ∈ ids ∨ ∃ k, last ids = Some k ∧ id_lt k i.

Definition work_step (X : Type) (c : service_call X) (x : X) (w w' : Work) : Prop :=
  sublist (wk_open w') (wk_open w) ∧
  match c in service_call X return X → Prop with
  | LoadRecovery after limit => λ x,
      match x with
      | Ok records =>
          wk_loaded w' = (wk_loaded w ++ records)%list ∧
          (known_key after w → page_of after limit (record_id <$> records) w w')
      | Err _ => wk_loaded w' = wk_loaded w
      end
  | _ => λ _, wk_loaded w' = wk_loaded w
  end x.

Definition works {A} (Q : A → Work → Prop) (p : service A) (w : Work) : Prop :=
  hoare work_step (λ _ _ _, True) (λ _, True) never Q p w.

(** What a part of the program that loads no page keeps. *)
Definition apart (w w' : Work) : Prop :=
  sublist (wk_open w') (wk_open w) ∧ wk_loaded w' = wk_loaded w.

Lemma apart_refl w : apart w w.
Proof. by split. Qed.

Lemma apart_trans w1 w2 w3 : apart w1 w2 → apart w2 w3 → apart w1 w3.
Proof. intros [Hs1 He1] [Hs2 He2]. split; [by etrans|congruence]. Qed.

Definition not_loading (X : Type) (c : service_call X) : Prop :=
  match c with LoadRecovery _ _ => False | _ => True end.

Lemma works_apart {A} (p : service A) w : calls_in not_loading p → works (λ _, apart w) p w.
Proof.
  intros Hp. eapply (calls_in_hoare _ _ _ _ (apart w)); [done|done| |exact Hp|apply apart_refl].
  intros X c x w1 w2 Hc Hw [Hs Hl]. eapply apart_trans; [exact Hw|]. split; [exact Hs|].
  by destruct c.
Qed.

(** ** One record *)

Lemma submit_apart claimed evaluated plan :
  plan ≠ Err PlanningPanicked → calls_in not_loading (evaluating (submit claimed evaluated plan)).
Proof. intros Hp. destruct plan as [actions|[e|]]; [| |done]; (split; [done|]); by intros [x|e']. Qed.

Lemma publish_apart a claimed prepared evaluated :
  plan_with_budget (ea_compiled a) claimed (fc_value (fr_context (cl_candidate claimed))) evaluated
    (pa_evaluation_budget prepared) ≠ Err PlanningPanicked →
  calls_in not_loading (evaluating (publish_model a claimed prepared evaluated)).
Proof.
  intros Hp. split; [done|]. intros [[]|failure]; [by apply submit_apart|].
  split; [done|]. by intros [x|e].
Qed.

Lemma recover_answered_apart a claimed evaluated :
  calls_in not_loading (recover_answered a claimed evaluated).
Proof.
  apply calls_in_bind; [by destruct (is_local _)|]. intros current. destruct (negb current); [done|].
  destruct (validate_for_declarations _ _ _) as [[]|e] eqn:Hv; [|split; [done|by intros [x|e']]].
  apply calls_in_try; [done|]. intros preparation. destruct (negb (is_local _)).
  - apply calls_in_try; [done|]. intros progress.
    destruct (recovered_preparation _ _ _ _); [|split; [done|by intros [x|e']]].
    apply calls_in_try; [|done]. by apply publish_apart, recovered_plan_no_panic.
  - unfold recover_local. destruct (restored_evaluation_budget _ _) as [budget|d];
      [|split; [done|by intros [x|e']]].
    pose proof (recovered_plan_no_panic finite_numbers a claimed evaluated budget Hv) as Hn.
    destruct (plan_with_budget _ _ _ _ _) as [actions|stop];
      [|by apply calls_in_try; [apply submit_apart|]].
    apply calls_in_bind; [by destruct (is_local _)|]. intros current'. destruct (negb current'); [done|].
    by apply calls_in_try; [apply submit_apart|].
Qed.

(** What the counts of the outcome say of the records that were handled. *)
Definition is_pending (r : RecoveryRecord) : bool :=
  match rr_work r with WorkPending _ _ => true | WorkAnswered _ _ => false end.

Definition counted (records : list RecoveryRecord) (o : BatchOutcome) : Prop :=
  bo_candidates o = N.of_nat (length (List.filter is_pending records)) ∧
  bo_coalesced o + bo_overflowed o ≤ bo_candidates o ∧ bo_observations o = 0.

Lemma counted_snoc records r o o' :
  counted records o →
  (if is_pending r
   then bo_candidates o' = bo_candidates o + 1 ∧ bo_observations o' = bo_observations o ∧
        bo_coalesced o' + bo_overflowed o' ≤ bo_coalesced o + bo_overflowed o + 1
   else o' = o) →
  counted (records ++ [r]) o'.
Proof.
  unfold counted. rewrite List.filter_app, length_app. simpl. destruct (is_pending r); simpl; [lia|].
  intros Hc ->. lia.
Qed.

Lemma admit_works a c resumed outcome w :
  works (λ r w', apart w w' ∧ ∀ o, r = Ok o →
           o = outcome ∨ o = count_coalesced outcome ∨ o = count_overflowed outcome)
    (admit_one a c resumed outcome) w.
Proof.
  unfold admit_one, ptry. eapply hoare_bind.
  - apply works_apart. eapply calls_in_mono; [|apply (enqueue_calls (λ _, False))]. by intros X [].
  - intros [[]|e] w' _ Hw'; (split; [done|]); try (split; [done|]); try (intros o [= <-]; tauto); try done.
    intros [x|e] w2 Hs; (split; [done|]); (split; [|intros o [=]; subst; tauto]);
      (eapply apart_trans; [exact Hw'|exact Hs]).
Qed.

Lemma recover_record_works r outcome w :
  works (λ res w', apart w w' ∧ ∀ st, res = Ok st →
           st.1 = Some (record_id r) ∧ ∀ l, counted l outcome → counted (l ++ [r]) st.2)
    (recover_record r outcome) w.
Proof.
  unfold recover_record, record_id, ptry. destruct r as [a [candidate resumed|claimed evaluated]]; cbn [rr_work rr_activation].
  - eapply hoare_bind; [apply admit_works|]. intros [o|e] w' _ [Hw Ho]; (split; [done|]); (split; [done|]);
      [|done]. intros st [= <-]. split; [done|]. intros l Hl. apply counted_snoc with (1 := Hl).
    destruct (Ho o eq_refl) as [->|[->| ->]]; simpl; lia.
  - eapply hoare_bind; [apply works_apart, recover_answered_apart|].
    intros [[]|e] w' _ Hw; (split; [done|]); (split; [done|]); [|done]. intros st [= <-]. split; [done|].
    intros l Hl. by apply counted_snoc with (1 := Hl).
Qed.

Lemma recover_records_works records : ∀ st w,
  works (λ res w', apart w w' ∧ ∀ st', res = Ok st' →
           st'.1 = match last (record_id <$> records) with Some k => Some k | None => st.1 end ∧
           ∀ l, counted l st.2 → counted (l ++ records) st'.2)
    (recover_records records st) w.
Proof.
  induction records as [|r records IH]; intros st w.
  - split; [done|]. split; [apply apart_refl|]. intros st' [= <-]. split; [done|].
    intros l. by rewrite app_nil_r.
  - unfold recover_records, ptry. eapply hoare_bind; [apply recover_record_works|].
    intros [st1|e] w1 _ [Hw1 Hst1]; [|split; [done|]; by split].
    destruct (Hst1 st1 eq_refl) as [Hk Hc]. eapply hoare_mono; [apply IH|].
    intros res w2 _ [Hw2 Hst2]. split; [by eapply apart_trans|]. intros st' Hres.
    destruct (Hst2 st' Hres) as [Hk' Hc']. split.
    + rewrite Hk', Hk, fmap_cons. change (record_id r :: ?l) with ([record_id r] ++ l)%list.
      rewrite last_app. by destruct (last _).
    + intros l Hl. specialize (Hc' _ (Hc l Hl)). by rewrite <- app_assoc in Hc'.
Qed.

(** ** The loop over the pages *)

(** What is known between two pages: nothing before the key was missed. *)
Record caught (st : Recovered) (w : Work) : Prop := {
  ca_open : StronglySorted id_lt (wk_open w);
  ca_loaded : StronglySorted id_lt (record_id <$> wk_loaded w);
  ca_key : last (record_id <$> wk_loaded w) = st.1;
  ca_missed i : i ∈ wk_open w → ¬ after_key st.1 i → i ∈ record_id <$> wk_loaded w;
  ca_counted : counted (wk_loaded w) st.2
}.

Lemma caught_apart st w w' : caught st w → apart w w' → caught st w'.
Proof.
  intros [Ho Hl Hk Hm Hc] [Hs He]. split; rewrite ?He; try done.
  - by eapply sublist_sorted.
  - intros i Hi. apply Hm. by eapply elem_of_sublist.
Qed.

(** A page that is not empty: the loop has come closer to its end. *)
Lemma caught_page st st' w opened limit records :
  caught st w → sublist opened (wk_open w) →
  let w' := {| wk_open := opened; wk_loaded := wk_loaded w ++ records |} in
  page_of st.1 limit (record_id <$> records) w w' →
  records ≠ [] →
  st'.1 = match last (record_id <$> records) with Some k => Some k | None => st.1 end →
  counted (wk_loaded w ++ records) st'.2 →
  caught st' w' ∧
  (length (filter (after_key st'.1) opened) < length (filter (after_key st.1) (wk_open w)))%nat.
Proof.
  intros [Ho Hl Hk Hm Hc] Hsub w' (_ & Hids & Hpage) Hne Hst' Hcount.
  subst w'. cbn [wk_open wk_loaded] in *.
  destruct (last (record_id <$> records)) as [k|] eqn:Elast;
    [|apply last_None, fmap_nil_inv in Elast; by subst].
  rewrite <- Elast in Hpage.
  destruct (page_keys _ _ _ _ _ Ho Hsub Hids Hpage Elast) as (Hs & Hafter & Hbetween & Hless).
  split; [split; cbn [wk_open wk_loaded]|].
  - by eapply sublist_sorted.
  - rewrite fmap_app. apply StronglySorted_app_2; [|done|done].
    intros i j Hi Hj. apply Hafter in Hj. rewrite <- Hk in Hj.
    destruct (last _) as [k0|] eqn:E0; [|apply last_None in E0; rewrite E0 in Hi; by apply not_elem_of_nil in Hi].
    simpl in Hj. apply last_Some in E0 as [l0 E0]. rewrite E0 in Hi, Hl.
    apply elem_of_app in Hi as [Hi| ->%list_elem_of_singleton]; [|done].
    eapply id_lt_trans; [|exact Hj]. eapply StronglySorted_app_1_elem_of; [exact Hl|done|by left].
  - rewrite fmap_app, last_app, Elast. by rewrite Hst'.
  - rewrite Hst', fmap_app. intros i Hi Hn. apply elem_of_app. destruct (decide (after_key st.1 i)) as [Ha|Ha].
    + right. by apply Hbetween.
    + left. apply Hm; [by eapply elem_of_sublist|done].
  - done.
  - by rewrite Hst'.
Qed.

Lemma caught_known st w : caught st w → known_key st.1 w.
Proof.
  intros [_ _ Hk _ _]. unfold known_key. destruct st.1 as [k|]; [|done].
  apply last_Some in Hk as [l ->]. apply elem_of_app. right. by left.
Qed.

(** What a recovery that ends without an error has done. *)
Definition all_handled (o : BatchOutcome) (w : Work) : Prop :=
  (∀ i, i ∈ wk_open w → i ∈ record_id <$> wk_loaded w) ∧
  StronglySorted id_lt (record_id <$> wk_loaded w) ∧ counted (wk_loaded w) o.

Lemma recover_pages_works fuel : ∀ st w,
  caught st w → (length (filter (after_key st.1) (wk_open w)) < fuel)%nat →
  works (λ r w', ∀ o, r = Ok o → all_handled o w') (recover_pages fuel st) w.
Proof.
  induction fuel as [|fuel IH]; intros st w Hc Hf; [lia|]. cbn [recover_pages].
  apply hoare_call; [done|done|]. intros [records|e] w1 [Hsub Hload]; [|by split].
  destruct Hload as [Hl Hpage]. specialize (Hpage (caught_known _ _ Hc)).
  destruct records as [|r records].
  - rewrite app_nil_r in Hl. split; [done|]. intros o [= <-].
    assert (caught st w1) as [_ Hsl _ Hm Hco] by (eapply caught_apart; [exact Hc|by split]).
    split_and!; [|done|done]. intros i Hi. apply Hm; [done|]. intros Ha. destruct Hpage as (_ & _ & Hpage).
    destruct (Hpage i Hi Ha) as [?%not_elem_of_nil|(k & [=] & _)]; done.
  - cbn beta iota. unfold ptry at 1. eapply hoare_bind; [apply recover_records_works|].
    intros [st'|e] w2 _ [[Hsub2 Hl2] Hst']; [|by split]. destruct (Hst' st' eq_refl) as [Hk Hcount].
    destruct (caught_page st st' w (wk_open w1) MAX_PENDING_CANDIDATES (r :: records) Hc Hsub Hpage ltac:(done) Hk
                (Hcount _ (ca_counted _ _ Hc))) as [Hc' Hless].
    apply IH.
    + eapply caught_apart; [exact Hc'|]. split; [done|]. simpl. by rewrite Hl2.
    + pose proof (filter_sublist_le (after_key st'.1) _ _ Hsub2). lia.
Qed.

Lemma recover_pending_works fuel w :
  StronglySorted id_lt (wk_open w) → wk_loaded w = [] → (length (wk_open w) < fuel)%nat →
  works (λ r w', ∀ o, r = Ok o → all_handled o w') (recover_pending fuel) w.
Proof.
  intros Hs Hl Hf. unfold recover_pending, ptry. eapply hoare_bind.
  - apply works_apart. eapply calls_in_mono; [|apply (prune_calls (λ _, False))]. by intros X [].
  - intros [x|e] w1 _ Hw1; [|by split]. apply recover_pages_works.
    + eapply caught_apart; [|exact Hw1]. split; rewrite ?Hl; simpl; try done; try constructor.
    + destruct Hw1 as [Hsub _]. simpl. pose proof (filter_sublist_le (after_key None) _ _ Hsub) as Hle.
      pose proof (sublist_length _ _ (sublist_filter (after_key None) (wk_open w))). lia.
Qed.

(** ** Properties *)

Lemma logged_steps tr : ghost_steps logged [] tr tr.
Proof.
  assert (∀ g, ghost_steps logged g tr (g ++ tr)) as Hg; [|apply Hg].
  induction tr as [|[X c x] tr IH]; intros g; simpl; [by rewrite app_nil_r|].
  eexists. split; [done|]. specialize (IH (g ++ [Ev c x])%list). by rewrite <- app_assoc in IH.
Qed.

(** C13: recovery publishes only what was saved.  Whatever the store answers, no
    run records or sends a request, starts a local check or panics; records are
    failed or rejected only for saved answers that were loaded; and an assessment
    is submitted only when it was loaded for its claim, is valid for the check,
    has actions planned with the budget of the preparation that was loaded, and,
    for a model check, equals the assessment that the loaded rows give. *)
Theorem recovery_grounded fuel before X (c : service_call X) x after p' :
  runs (recover_pending fuel) (before ++ Ev c x :: after) p' →
  recovery_requires X c before ∧ p' ≠ Halt Panics.
Proof.
  intros Hrun. pose proof (recover_pending_keeps finite_numbers fuel) as Hk. split.
  - by apply (hoare_calls _ _ _ _ _ _ _ _ _ _ _ _ _ Hk Hrun eq_refl (logged_steps before)).
  - destruct (hoare_sound _ _ _ _ _ _ _ _ _ _ Hk Hrun (logged_steps _)) as [_ Hp].
    destruct p'; try done. simpl in Hp. by subst.
Qed.

(** Recovery ends and misses nothing.  With a store whose pages leave
    no unfinished work out, however short they are, one turn more than there is unfinished work
    is enough for every run; a run that succeeds has loaded, once each and in
    order, every work item that is still unfinished when it ends, and its outcome
    counts the candidates among them. *)
Theorem recovery_complete opened fuel tr p' w' :
  StronglySorted id_lt opened → (length opened < fuel)%nat →
  runs (recover_pending fuel) tr p' →
  ghost_steps work_step {| wk_open := opened; wk_loaded := [] |} tr w' →
  match p' with
  | Ret (Ok o) => all_handled o w'
  | Halt _ => False
  | _ => True
  end.
Proof.
  intros Hs Hf Hrun Hsteps.
  pose proof (recover_pending_works fuel {| wk_open := opened; wk_loaded := [] |} Hs eq_refl Hf) as Hw.
  destruct (hoare_sound _ _ _ _ _ _ _ _ _ _ Hw Hrun Hsteps) as [_ Hp].
  destruct p' as [[o|e]| | |]; try done. by apply Hp.
Qed.
End runs.

(** ** A sample run

    Two work items are left: a model check whose last answer was saved, and a
    candidate that was not started. *)

(** A store that keeps its contract, as a function that drops nothing. *)
Definition work_next `{SerdeNumber} {X} (c : service_call X) (x : X) (w : Work) : option Work :=
  match c in service_call X return X → option Work with
  | LoadRecovery after limit => λ x,
      match x with
      | Ok records =>
          if decide (record_id <$> records = take (N.to_nat limit) (filter (after_key after) (wk_open w)) ∧ 0 < limit)
          then Some {| wk_open := wk_open w; wk_loaded := wk_loaded w ++ records |} else None
      | Err _ => Some w
      end
  | _ => λ _, Some w
  end x.

Fixpoint work_run `{SerdeNumber} (tr : list (event service_call)) (w : Work) : option Work :=
  match tr with
  | [] => Some w
  | Ev c x :: tr => w ← work_next c x w; work_run tr w
  end.

Lemma work_run_steps `{SerdeNumber} tr : ∀ w w',
  StronglySorted id_lt (wk_open w) → work_run tr w = Some w' → ghost_steps work_step w tr w'.
Proof.
  induction tr as [|[X c x] tr IH]; intros w w' Hsort; simpl; [by intros [= ->]|].
  intros (w1 & Hn & Hr)%bind_Some.
  assert (wk_open w1 = wk_open w ∧ work_step X c x w w1) as [Hsame Hstep]; [|exists w1; split; [done|]; apply IH; congruence].
  destruct c; simpl in *; try (by injection Hn as <-; split; [|split]).
  destruct x as [records|e]; [|by injection Hn as <-; split; [|split]].
  case_decide as Hp; [|done]. destruct Hp as [Hp Hlimit]. injection Hn as <-. split; [done|].
  split; [done|]. split; [done|]. intros _. unfold page_of. rewrite Hp. simpl.
  assert (StronglySorted id_lt (filter (after_key after) (wk_open w))) as Hs
    by (eapply sublist_sorted; [apply sublist_filter|done]).
  set (opened := filter _ _) in *. split_and!; [rewrite length_take; lia|apply sublist_take|].
  intros i Hi Ha. assert (i ∈ opened) as Hin by (by apply list_elem_of_filter).
  rewrite <- (take_drop (N.to_nat limit) opened) in Hin, Hs.
  apply elem_of_app in Hin as [Hin|Hin]; [by left|right].
  destruct (last (take (N.to_nat limit) opened)) as [k|] eqn:El.
  - exists k. split; [done|]. eapply StronglySorted_app_1_elem_of; [exact Hs| |done].
    apply last_Some in El as [l ->]. apply elem_of_app. right. by left.
  - apply last_None in El. destruct (N.to_nat limit) eqn:E; [lia|]. destruct opened; [|done].
    by apply not_elem_of_nil in Hin.
Qed.

Section sample.
#[local] Existing Instance text_numbers.
#[local] Existing Instance ascii_unicode.
#[local] Existing Instance no_json.
#[local] Existing Instance short_writer.

Definition saved_rows : DecisionProgress :=
  {| dp_attempts :=
       [{| sa_attempt := first_attempt; sa_outcome := SafeTransient |};
        {| sa_attempt := second_attempt;
           sa_outcome := Answer {| dr_decision := "review"; dr_answers := reverse sample_answers;
                                   dr_attempts := 2 |} |}] |}.

Definition saved_assessment : EvaluatedAssessment :=
  match validate_decision_progress (cc_decisions sample_check) (question_requirements sample_check) saved_rows with
  | Ok v => match vp_state v with PComplete a => a | _ => EvaluatedAssessment_local end
  | Err _ => EvaluatedAssessment_local
  end.

Definition waiting : FrozenCandidate := sample_at "a" "side" 7.

Definition sample_recovery (X : Type) (c : service_call X) : X :=
  match c in service_call X return X with
  | Activate _ _ _ => Ok tt
  | LoadSourceProgress _ => store_error "not used"
  | ApplySourcePage _ _ _ _ _ _ => Ok tt
  | RecordOverflow _ => Ok tt
  | LoadRecovery None _ =>
      Ok [saved_answer (sample_effective "a") sample_claim saved_assessment;
          {| rr_activation := sample_effective "a"; rr_work := WorkPending waiting false |}]
  | LoadRecovery (Some _) _ => Ok []
  | @Evaluation _ X c =>
      match c in engine_call X return X with
      | LoadDecisionProgress _ => Ok saved_rows
      | LoadPreparation _ => Ok (Some (RecordReady sample_prepared))
      | c => sample_call _ c
      end
  end.

Definition recovery_trace : list (event service_call) :=
  (interpret sample_recovery (recover_pending 3) SchedulerState_default).1.1.

Definition recovery_open : Work := {| wk_open := [[1]; CandidateId_from waiting]; wk_loaded := [] |}.

(** The saved assessment is accepted and the candidate waits. *)
Example recovery_run :
  (omap (λ e, match e with Ev (Evaluation (Accept a)) _ => Some (as_attempts (aa_evaluated a)) | _ => None end)
     recovery_trace,
   pending_total (interpret sample_recovery (recover_pending 3) SchedulerState_default).2,
   is_some (work_run recovery_trace recovery_open)) = ([2], 1, true).
Proof. vm_refl. Qed.

Lemma recovery_runs : ∃ p, runs (recover_pending 3) recovery_trace p.
Proof.
  pose proof (interpret_runs sample_recovery (recover_pending 3) SchedulerState_default) as Hr.
  unfold recovery_trace.
  destruct (interpret sample_recovery (recover_pending 3) SchedulerState_default) as [[tr r] l]. by eexists.
Qed.

Definition pick_accepted (e : event service_call) :
    option (AssessmentAcceptance * result AcceptanceOutcome StoreError) :=
  match e with
  | Ev c x =>
      match c in service_call X return X → _ with
      | @Evaluation _ X c =>
          match c in engine_call X return X → _ with Accept a => λ x, Some (a, x) | _ => λ _, None end
      | _ => λ _, None
      end x
  end.

Definition make_accepted (t : AssessmentAcceptance * result AcceptanceOutcome StoreError) : event service_call :=
  Ev (Evaluation (Accept t.1)) t.2.

Lemma pick_accepted_spec e t : pick_accepted e = Some t → e = make_accepted t.
Proof. destruct e as [X c x]. destruct c as [| | | | |X c]; try done. destruct c; try done. by intros [= <-]. Qed.

Definition recovered_accept := split_event pick_accepted recovery_trace.

Lemma recovery_grounded_witness :
  ∃ g a aa, grounded g a aa ∧ as_attempts (aa_evaluated aa) = 2.
Proof.
  destruct recovery_runs as [p Hp].
  assert ((λ s, as_attempts (aa_evaluated s.1.2.1)) <$> recovered_accept = Some 2) as Hattempts by vm_refl.
  destruct recovered_accept as [[[before [aa x]] after]|] eqn:Es; [|discriminate Hattempts].
  injection Hattempts as Ha. simpl in Ha.
  apply (split_event_spec _ make_accepted) in Es; [|exact pick_accepted_spec].
  rewrite Es in Hp.
  destruct (recovery_grounded text_numbers_finite 3 before _ _ _ _ _ Hp) as [[a Hg] _].
  exists before, a, aa. split; [exact Hg|exact Ha].
Defined.

Lemma recovery_open_sorted : StronglySorted id_lt (wk_open recovery_open).
Proof. repeat constructor. Qed.

Lemma recovery_complete_witness :
  ∃ p w, runs (recover_pending 3) recovery_trace p ∧
         match p with Ret (Ok o) => all_handled o w | Halt _ => False | _ => True end.
Proof.
  destruct recovery_runs as [p Hp].
  assert (is_some (work_run recovery_trace recovery_open) = true) as Hs by vm_refl.
  destruct (work_run recovery_trace recovery_open) as [w|] eqn:Ew; [|discriminate Hs].
  apply work_run_steps in Ew; [|exact recovery_open_sorted]. exists p, w. split; [exact Hp|].
  exact (recovery_complete text_numbers_finite _ 3 _ p w recovery_open_sorted ltac:(simpl; lia) Hp Ew).
Defined.
End sample.
