(* ===== verification/EngineScheduler.v ===== *)
(** * The engine implements the scheduler

    Several evaluations run at once and interleave at every call and at every
    section under the lock.  Each step of this system is a step of the abstract
    scheduler of [SchedulerFacts], so its invariants hold of the engine. *)

From stdpp Require Import gmap relations.
From S2P Require Import Prelude Program RustString Json Diagnostics Expression Budget Provenance Scalars Evaluator Fit Domain Template Decision Check Preparation Lifecycle Selection BoundedJson Prepared Results Actions Progress Scheduler SchedulerFacts Engine.

#[local] Open Scope N_scope.

(** ** Programs as tasks of the scheduler *)

Section tracking.
Context `{SerdeNumber}.

(** The abstract task of a program: none once its reservation is given back, and
    otherwise the candidate it holds. *)
Notation status := (option (option PendingCandidate)).

Definition abstract (g : InFlightGuard) (st : status) : option Task :=
  match st with Some held => Some {| tk_guard := g; tk_held := held |} | None => None end.

Definition resumes (held held' : option PendingCandidate) : Prop :=
  held' = held ∨ ∃ p, held = Some p ∧ held' = Some (release_pending p).

(** A section of a program does nothing, or one step of its abstract task. *)
Definition moves (s : SchedulerState) (g : InFlightGuard) (held : option PendingCandidate)
    (s' : SchedulerState) (g' : InFlightGuard) (st' : status) : Prop :=
  ∃ held', resumes held held' ∧
    ((s' = s ∧ g' = g ∧ st' = Some held') ∨
     task_step s {| tk_guard := g; tk_held := held' |} s' (abstract g' st')).

(** The guard where a future can be dropped. *)
Definition drop_ok (g : InFlightGuard) (st : status) : Prop :=
  match st with Some _ => g_finished g = false | None => g_finished g = true end.

(** While an answer is awaited, the guard keeps the branch when it is dropped. *)
Definition call_guard {X} (c : engine_call X) (g : InFlightGuard) (st : status) : Prop :=
  match c with
  | Suspend => drop_ok g st
  | Receive _ => g_finished g = false ∧ g_release_branch_on_drop g = false ∧ is_Some st
  | _ => True
  end.

Fixpoint tracks {A} (Q : A → InFlightGuard → status → Prop) (p : task A) (g : InFlightGuard)
    (st : status) : Prop :=
  match p with
  | Ret a => Q a g st
  | Halt _ => True
  | Atomic f k =>
      ∀ s, ∃ st',
        match st with
        | Some held => moves s g held (f (g, s)).2.2 (f (g, s)).2.1 st'
        | None => (f (g, s)).2.2 = s ∧ st' = None
        end ∧
        tracks Q (k (f (g, s)).1) (f (g, s)).2.1 st'
  | Call c k => call_guard c g st ∧ ∀ x, tracks Q (k x) g st
  end.

Lemma tracks_bind {A B} (P : A → InFlightGuard → status → Prop) (Q : B → InFlightGuard → status → Prop)
    (p : task A) (f : A → task B) g st :
  tracks P p g st → (∀ a g' st', P a g' st' → tracks Q (f a) g' st') → tracks Q (pbind p f) g st.
Proof.
  intros Hp Hf. revert g st Hp. induction p as [a|X u k IH|X c k IH|why]; intros g st; simpl.
  - apply Hf.
  - intros Hk s. destruct (Hk s) as (st' & Hm & Ht). exists st'. split; [done|]. by apply IH.
  - intros [Hc Hk]. split; [done|]. intros x. by apply IH.
  - done.
Qed.

Lemma tracks_mono {A} (P Q : A → InFlightGuard → status → Prop) (p : task A) g st :
  (∀ a g' st', P a g' st' → Q a g' st') → tracks P p g st → tracks Q p g st.
Proof.
  intros HPQ. revert g st. induction p as [a|X u k IH|X c k IH|why]; intros g st; simpl.
  - apply HPQ.
  - intros Hk s. destruct (Hk s) as (st' & Hm & Ht). exists st'. split; [done|]. by apply IH.
  - intros [Hc Hk]. split; [done|]. intros x. by apply IH.
  - done.
Qed.

(** ** The sections *)

Definition same_task (g : InFlightGuard) (st : status) : InFlightGuard → status → Prop :=
  λ g' st', g' = g ∧ st' = st.

Definition gone : ∀ {A}, A → InFlightGuard → status → Prop := λ A _ g st, g_finished g = true ∧ st = None.

Lemma resumes_refl held : resumes held held.
Proof. by left. Qed.

(** A section that is one step of the abstract task. *)
Lemma section_step {A} (Q : A → InFlightGuard → status → Prop) (f : Local → Local) (k : unit → task A)
    g held held' :
  resumes held held' →
  (∀ s, ∃ st', task_step s {| tk_guard := g; tk_held := held' |} (f (g, s)).2 (abstract (f (g, s)).1 st') ∧
               tracks Q (k tt) (f (g, s)).1 st') →
  tracks Q (pbind (pupdate f) k) g (Some held).
Proof.
  intros Hr Hf s. destruct (Hf s) as (st' & Hstep & Ht). exists st'. simpl.
  destruct (f (g, s)) as [g' s'] eqn:E. simpl in *. split; [|done].
  exists held'. split; [done|]. by right.
Qed.

Lemma finish_tracks {A} (Q : A → InFlightGuard → status → Prop) (k : unit → task A) g held :
  g_finished g = false →
  (∀ g', g_finished g' = true → tracks Q (k tt) g' None) →
  tracks Q (pbind finish k) g (Some held).
Proof.
  intros Hg Hk. unfold finish. apply (section_step _ _ _ _ _ held); [by left|]. intros s. exists None.
  split; [apply TFinish|]. apply Hk. unfold guard_finish. by rewrite Hg.
Qed.

Lemma restore_tracks {A} (Q : A → InFlightGuard → status → Prop) (k : unit → task A) g p p' :
  resumes (Some p) (Some p') →
  tracks Q (k tt) g (Some None) → tracks Q (pbind (restore_candidate p') k) g (Some (Some p)).
Proof.
  intros Hr Hk. unfold restore_candidate, on_scheduler. eapply section_step; [exact Hr|]. intros s.
  exists (Some None). split; [apply TRestore|done].
Qed.

Lemma clear_tracks {A} (Q : A → InFlightGuard → status → Prop) (k : unit → task A) g held :
  tracks Q (k tt) g (Some held) → tracks Q (pbind clear_if_idle k) g (Some held).
Proof.
  intros Hk. unfold clear_if_idle, on_scheduler. eapply section_step; [by left|]. intros s.
  exists (Some held). split; [apply (TClear s {| tk_guard := g; tk_held := held |})|done].
Qed.

Lemma started_tracks {A} (Q : A → InFlightGuard → status → Prop) (k : unit → task A) g held now cooldown policy :
  tracks Q (k tt) g (Some held) →
  tracks Q (pbind (on_scheduler (λ g, mark_scheduler_started (g_key g) now cooldown policy)) k) g (Some held).
Proof.
  intros Hk. unfold on_scheduler. eapply section_step; [by left|]. intros s.
  exists (Some held). split; [apply (TStarted s {| tk_guard := g; tk_held := held |})|done].
Qed.

Lemma set_release_tracks {A} (Q : A → InFlightGuard → status → Prop) (k : unit → task A) g held b :
  tracks Q (k tt) (set_guard b (g_safe_release g) g) (Some held) →
  tracks Q (pbind (set_release b) k) g (Some held).
Proof.
  intros Hk. unfold set_release, on_guard. eapply section_step; [by left|]. intros s.
  exists (Some held). split; [apply (TFlag s {| tk_guard := g; tk_held := held |})|done].
Qed.

Lemma disarm_tracks {A} (Q : A → InFlightGuard → status → Prop) (k : unit → task A) g held b :
  tracks Q (k tt) (set_guard b None g) (Some held) → tracks Q (pbind (disarm b) k) g (Some held).
Proof.
  intros Hk. unfold disarm, on_guard. eapply section_step; [by left|]. intros s.
  exists (Some held). split; [apply (TDisarm s {| tk_guard := g; tk_held := held |})|done].
Qed.

Lemma call_tracks {A X} (Q : A → InFlightGuard → status → Prop) (c : engine_call X) (k : X → task A) g st :
  call_guard c g st → (∀ x, tracks Q (k x) g st) → tracks Q (pbind (pcall c) k) g st.
Proof. done. Qed.

(** A drop of the guard ends the abstract task. *)
Lemma drop_guard_tracks g st : drop_ok g st → tracks (λ _ _ st', st' = None) drop_guard g st.
Proof.
  intros Hd. unfold drop_guard. simpl. intros s. exists st. split.
  { destruct st as [held|]; [|done]. exists held. split; [by left|]. by left. }
  destruct st as [held|]; simpl in Hd; rewrite Hd; simpl.
  - destruct (g_release_branch_on_drop g) eqn:Eflag.
    + destruct (g_safe_release g) as [r|] eqn:Er; simpl.
      * split; [done|]. intros released s1. exists (Some held). split.
        { exists held. split; [by left|]. right. rewrite <- Eflag. by apply TRelease. }
        intros s2. exists None. split; [|done]. exists held. split; [by left|]. right. apply TFinish.
      * intros s1. exists None. split; [|done]. exists held. split; [by left|]. right. apply TFinish.
    + simpl. intros s1. exists None. split; [|done]. exists held. split; [by left|]. right.
      pose proof (TDrop s1 {| tk_guard := g; tk_held := held |} (Ok Current)) as Hstep.
      unfold guard_drop in Hstep. cbn [tk_guard] in Hstep. by rewrite Eflag, Hd in Hstep.
  - assert (∀ s0, guard_finish g s0 = (g, s0)) as Hf by (intros s0; unfold guard_finish; by rewrite Hd).
    destruct (g_release_branch_on_drop g); [|done].
    simpl. intros s1. exists None. rewrite Hf. split; done.
Qed.

Lemma drop_tracks {A} (Q : A → InFlightGuard → status → Prop) (k : unit → task A) g st :
  drop_ok g st → (∀ g', tracks Q (k tt) g' None) → tracks Q (pbind drop_guard k) g st.
Proof. intros Hd Hk. eapply tracks_bind; [by apply drop_guard_tracks|]. by intros [] g' st' ->. Qed.
End tracking.

(** ** The programs of the engine *)

Section engine.
Context `{SerdeNumber, UnicodeData, JsonDeserializer, !RecordWriter}.

Notation status := (option (option PendingCandidate)).

Definition alive : ∀ {A}, A → InFlightGuard → status → Prop :=
  λ A _ g st, g_finished g = false ∧ is_Some st.

Lemma restore_pre_dispatch_tracks {A} (Q : A → InFlightGuard → status → Prop) (k : StoreError → task A)
    p p' claimed error g :
  g_finished g = false → resumes (Some p) (Some p') →
  (∀ e g', g_finished g' = true → tracks Q (k e) g' None) →
  tracks Q (pbind (restore_pre_dispatch p' claimed error) k) g (Some (Some p)).
Proof.
  intros Hg Hr Hk. eapply (tracks_bind gone); [|intros e g' st' [Hg' ->]; by apply Hk].
  unfold restore_pre_dispatch. apply call_tracks; [done|]. intros released.
  eapply (tracks_bind alive).
  2:{ intros e g' st' [Hg' [held ->]]. by apply finish_tracks. }
  destruct released as [[]|e].
  - eapply restore_tracks; [exact Hr|]. split; [done|by eexists].
  - split; [done|by eexists].
  - unfold on_scheduler. eapply section_step; [exact Hr|]. intros s. exists (Some None).
    split; [apply TKeepRelease|]. split; [done|by eexists].
Qed.

(** *** The loop over the attempts *)

Variable env : RunEnv.

Lemma done_tracks st r g held : g_finished g = false → tracks alive (done_outcome st r) g (Some held).
Proof. intros Hg. split; [done|by eexists]. Qed.

Lemma settle_attempt_tracks activation claimed attempt evaluated progress g held :
  g_finished g = false →
  tracks alive (settle_decision_attempt activation claimed attempt evaluated progress) g (Some held).
Proof.
  intros Hg. unfold settle_decision_attempt. eapply (tracks_bind (λ _, same_task g (Some held))).
  { destruct evaluated as [answer|failure]; [|done]. by destruct (validate_answer _ _ _ _). }
  intros r g' st' [-> ->]. destruct r as [answer|failure]; (apply call_tracks; [done|]);
    intros [recorded|e]; (split; [done|by eexists]).
Qed.

Lemma settle_turn_tracks st attempt evaluated g held :
  g_finished g = false → tracks alive (settle_turn env st attempt evaluated) g (Some held).
Proof.
  intros Hg. unfold settle_turn. eapply tracks_bind; [by apply settle_attempt_tracks|].
  intros r g' st' [Hg' [held' ->]]. destruct r as [[[[] o] diagnostic]|e]; [|by apply done_tracks..].
  destruct (validate_decision_progress _ _ _) as [v|e]; [|by apply done_tracks].
  destruct (vp_state v).
  - apply set_release_tracks, call_tracks; [done|]. intros _. split; [done|by eexists].
  - apply disarm_tracks, call_tracks; [done|]. intros _. split; [done|by eexists].
  - split; [done|by eexists].
Qed.

(** The request is awaited with the branch kept. *)
Lemma dispatch_tracks st attempt g held :
  g_finished g = false → tracks alive (dispatch_turn env st attempt) g (Some held).
Proof.
  intros Hg. unfold dispatch_turn. apply set_release_tracks.
  set (g1 := set_guard false (g_safe_release g) g). apply call_tracks; [done|].
  intros [[]|source]; [|by apply done_tracks|split; [done|by eexists]].
  eapply (tracks_bind (λ _, same_task g1 (Some held))).
  { destruct (_ && _); [|done].
    pose proof (started_tracks (λ _ : unit, same_task g1 (Some held)) (λ _, Ret tt) g1 held (re_now env)
      (re_cooldown env) (re_policy env)) as Hs. apply Hs. done. }
  intros _ g' st' [-> ->]. apply call_tracks; [done|]. intros _.
  apply call_tracks; [split_and!; [done|done|by eexists]|]. intros evaluated. by apply settle_turn_tracks.
Qed.

Lemma next_turn_tracks st attempt unfinished g held :
  g_finished g = false → tracks alive (next_turn env st attempt unfinished) g (Some held).
Proof.
  intros Hg. unfold next_turn. destruct (_ || _).
  - apply call_tracks; [done|]. intros recorded. by apply done_tracks.
  - apply call_tracks; [done|]. intros [[]|failure]; [by apply dispatch_tracks|].
    apply call_tracks; [done|]. intros recorded. by apply done_tracks.
Qed.

Lemma submit_tracks claimed evaluated plan g held :
  g_finished g = false → tracks alive (submit claimed evaluated plan) g (Some held).
Proof.
  intros Hg. unfold submit. destruct plan as [actions|[e|]]; [| |done]; (apply call_tracks; [done|]);
    intros [r|err]; (split; [done|by eexists]).
Qed.

Lemma publish_tracks activation claimed prepared evaluated g held :
  g_finished g = false → tracks alive (publish_model activation claimed prepared evaluated) g (Some held).
Proof.
  intros Hg. unfold publish_model. apply call_tracks; [done|]. intros [[]|failure]; [by apply submit_tracks|].
  apply call_tracks; [done|]. intros [r|err]; (split; [done|by eexists]).
Qed.

Lemma run_turn_tracks st g held : g_finished g = false → tracks alive (run_turn env st) g (Some held).
Proof.
  intros Hg. unfold run_turn. destruct (validate_decision_progress _ _ _) as [v|e]; [|by apply done_tracks].
  destruct (negb _); [by apply done_tracks|]. destruct (vp_state v) as [attempt unfinished|evaluated|t].
  - by apply next_turn_tracks.
  - apply disarm_tracks. eapply tracks_bind; [by apply publish_tracks|].
    intros r g' st' [Hg' [held' ->]]. by apply done_tracks.
  - unfold terminal_turn. apply set_release_tracks, call_tracks; [done|]. intros recorded. by apply done_tracks.
Qed.

Lemma run_loop_tracks fuel : ∀ st g held,
  g_finished g = false → tracks alive (run_loop env fuel st) g (Some held).
Proof.
  induction fuel as [|fuel IH]; intros st g held Hg; cbn [run_loop]; [done|].
  eapply tracks_bind; [by apply run_turn_tracks|]. intros [r st'|st'] g' st1 [Hg' [held' ->]].
  - split; [done|by eexists].
  - by apply IH.
Qed.

(** *** Futures end with the abstract task *)

Definition ended : ∀ {A}, A → InFlightGuard → status → Prop := λ A _ _ st, st = None.

Lemma end_tracks {A} (r : A) g held :
  g_finished g = false → tracks ended (run! finish; run! drop_guard; Ret r) g (Some held).
Proof.
  intros Hg. apply finish_tracks; [done|]. intros g' Hg'. by apply drop_tracks.
Qed.

Lemma model_future_tracks progress attempts g held :
  g_finished g = false → tracks ended (model_future env progress attempts) g (Some held).
Proof.
  intros Hg. unfold model_future. apply call_tracks; [done|]. intros _.
  eapply tracks_bind; [by apply run_loop_tracks|]. intros [[outcome|error] st] g' st' [Hg' [held' ->]].
  - by apply end_tracks.
  - by apply drop_tracks.
Qed.
End engine.

Section starting.
Context `{SerdeNumber, UnicodeData, JsonDeserializer, !RecordWriter}.

Notation status := (option (option PendingCandidate)).

Lemma ready_tracks r g : g_finished g = true → tracks ended (ready r) g None.
Proof. intros Hg. unfold ready. by apply call_tracks. Qed.

Lemma local_future_tracks activation pending claimed prepared g held :
  g_finished g = false →
  tracks ended (local_future activation pending claimed prepared) g (Some held).
Proof.
  intros Hg. unfold local_future. apply call_tracks; [done|]. intros _. eapply (tracks_bind alive).
  - apply call_tracks; [done|]. intros current. destruct (negb current); [split; [done|by eexists]|].
    set (plan := plan_with_budget _ _ _ _ _). destruct plan as [actions|stop] eqn:Ep; [|by apply submit_tracks].
    apply call_tracks; [done|]. intros current'. destruct (negb current'); [split; [done|by eexists]|].
    by apply submit_tracks.
  - intros [outcome|source] g' st' [Hg' [held' ->]]; [by apply end_tracks|by apply drop_tracks].
Qed.

(** What starting gives: nothing is left of the reservation, or a future has it. *)
Definition start_tracks (r : result StartOutcome StoreError) (g : InFlightGuard) (st : status) : Prop :=
  match r with Ok (Started future) => tracks ended future g st | _ => st = None end.

Lemma prepare_claimed_tracks activation pending claimed attempts purpose g held :
  g_finished g = false →
  tracks (λ _, same_task g (Some held)) (prepare_claimed activation pending claimed attempts purpose) g (Some held).
Proof.
  intros Hg. unfold prepare_claimed, ptry. eapply (tracks_bind (λ _, same_task g (Some held))).
  { unfold claimed_preparation, ptry. apply call_tracks; [done|]. intros [[saved|]|e]; [done| |done].
    destruct (_ || _); [done|]. eapply (tracks_bind (λ _, same_task g (Some held))).
    { unfold prepare_new, ptry. simpl. destruct (prepare_all_inputs _ _) as [[inputs saved]|failure]; [|done].
      apply call_tracks; [done|]. intros [prepared|failure]; [|done]. by destruct (negb _). }
    intros prepared g' st' [-> ->]. apply call_tracks; [done|]. intros [[]|e]; done. }
  intros [[preparation|]|e] g' st' [-> ->]; [|done..].
  eapply (tracks_bind (λ _, same_task g (Some held))).
  { destruct preparation as [p|l|failure]; [|done..]. simpl. destruct (declared_preparation _ _) as [[]|failure]; [|done].
    apply call_tracks; [done|]. by intros [[]|failure]. }
  intros [p|failure] g' st' [-> ->]; [done|]. apply call_tracks; [done|]. by intros [recorded|e].
Qed.

Lemma resume_if_resumes b p : resumes (Some p) (Some (resume_if b p)).
Proof.
  destruct p as [c compiled resumed], b; unfold resume_if; simpl.
  - right. eexists. split; [done|]. unfold release_pending. simpl. by rewrite orb_true_r.
  - left. by rewrite orb_false_r.
Qed.

Lemma release_resumed b p : release_pending (resume_if b p) = release_pending p.
Proof. done. Qed.

Lemma start_model_tracks activation now limit policy pending claimed g :
  g_finished g = false →
  tracks start_tracks (start_model activation now limit policy pending claimed) g (Some (Some pending)).
Proof.
  intros Hg. unfold start_model. apply call_tracks; [done|]. intros [progress|e].
  2:{ apply restore_pre_dispatch_tracks; [done|right; by eexists|done]. }
  destruct (validate_decision_progress _ _ _) as [validated|e].
  2:{ unfold start_invalid. apply call_tracks; [done|]. intros recorded. apply finish_tracks; [done|].
      intros g' Hg'. by apply ready_tracks. }
  eapply tracks_bind; [by apply prepare_claimed_tracks|]. intros [[p|settlement|]|e] g' st' [-> ->].
  - unfold on_guard. eapply section_step; [by left|]. intros s. exists (Some None).
    split; [|by apply model_future_tracks]. rewrite release_resumed. apply TArm.
  - apply clear_tracks, finish_tracks; [done|]. intros g' Hg'. by apply ready_tracks.
  - by apply finish_tracks.
  - apply restore_pre_dispatch_tracks; [done|apply resume_if_resumes|]. intros e' g' Hg'. by apply ready_tracks.
Qed.

Lemma start_local_tracks activation now policy pending claimed g :
  g_finished g = false →
  tracks start_tracks (start_local activation now policy pending claimed) g (Some (Some pending)).
Proof.
  intros Hg. unfold start_local. apply call_tracks; [done|]. intros current. destruct (negb current).
  - apply call_tracks; [done|]. intros [[]|e].
    + eapply restore_tracks; [by left|]. by apply finish_tracks.
    + apply clear_tracks. by apply finish_tracks.
    + by apply restore_pre_dispatch_tracks; [|left|].
  - destruct (local_condition_failure _ _) as [failure|].
    + apply call_tracks; [done|]. intros [recorded|e].
      * apply clear_tracks, finish_tracks; [done|]. intros g' Hg'. by apply ready_tracks.
      * by apply restore_pre_dispatch_tracks; [|left|].
    + apply call_tracks; [done|]. intros [[]|e].
      * apply started_tracks. by apply local_future_tracks.
      * apply clear_tracks. by apply finish_tracks.
      * by apply restore_pre_dispatch_tracks; [|left|].
Qed.

Lemma start_claimed_tracks activation now limit policy pending g :
  g_finished g = false →
  tracks start_tracks (start_claimed activation now limit policy pending) g (Some (Some pending)).
Proof.
  intros Hg. unfold start_claimed. apply call_tracks; [done|]. intros [[claimed|retry|]|e].
  - destruct (is_local _); [by apply start_local_tracks|by apply start_model_tracks].
  - unfold on_scheduler. eapply section_step; [by left|]. intros s. exists (Some None).
    split; [apply TDefer|]. by apply finish_tracks.
  - apply clear_tracks. by apply finish_tracks.
  - eapply restore_tracks; [by left|]. by apply finish_tracks.
Qed.

Lemma evaluation_tracks activation now limit policy pending g :
  g_finished g = false →
  tracks ended (evaluation activation now limit policy pending) g (Some (Some pending)).
Proof.
  intros Hg. unfold evaluation. eapply (tracks_bind start_tracks).
  - unfold start_reserved. simpl. intros s. exists (Some (Some pending)). split.
    { exists (Some pending). split; [by left|]. by left. }
    destruct (pending_releases s !! g_key g) as [previous|]; [|by apply start_claimed_tracks].
    apply call_tracks; [done|]. intros [released|e].
    + unfold on_scheduler. eapply section_step; [by left|]. intros s1. exists (Some (Some pending)).
      split; [apply (TReleased s1 {| tk_guard := g; tk_held := Some pending |})|by apply start_claimed_tracks].
    + eapply restore_tracks; [by left|]. by apply finish_tracks.
  - intros [[| |future]|e] g' st' Hst; simpl in Hst; try (by subst).
    eapply tracks_bind; [exact Hst|]. by intros r g2 st2 ->.
Qed.
End starting.

(** ** The engine as a system

    Every evaluation is a program with its guard; they share the scheduler.  A
    call is answered in any way, and a future can be dropped where it waits:
    before it is first polled, between two turns, and while a request is out. *)

Section engine_system.
Context `{SerdeNumber, UnicodeData, JsonDeserializer, !RecordWriter}.
Variable windows : ActivationId → bool.

Record EngineTask := { et_program : task unit; et_guard : InFlightGuard }.

Record EngineSystem := { es_state : SchedulerState; es_tasks : list EngineTask }.

Definition et_key (t : EngineTask) : ScheduleKey := g_key (et_guard t).

Definition engine_initial : EngineSystem := {| es_state := SchedulerState_default; es_tasks := [] |}.

Definition droppable {X} (c : engine_call X) : Prop :=
  match c with Suspend | Receive _ => True | _ => False end.

Inductive engine_step : EngineSystem → EngineSystem → Prop :=
| EEnqueue a c resumed s ts :
    fr_activation c = ea_id a → windowed (ea_compiled a) = windows (ea_id a) →
    engine_step {| es_state := s; es_tasks := ts |}
      {| es_state := (enqueue_locked a c resumed s).2; es_tasks := ts |}
| EPrune terminal s ts :
    engine_step {| es_state := s; es_tasks := ts |}
      {| es_state := prune_locked terminal s; es_tasks := ts |}
| ERetain definition_id activation s ts :
    engine_step {| es_state := s; es_tasks := ts |}
      {| es_state := retain_activation definition_id activation s; es_tasks := ts |}
| EReset activation reset s ts :
    engine_step {| es_state := s; es_tasks := ts |}
      {| es_state := drop_branches activation reset s; es_tasks := ts |}
| EReserve policy activation now limit ready s ts k p s' :
    reserve policy (ea_id activation) now ready s = Some (k, p, s') →
    engine_step {| es_state := s; es_tasks := ts |}
      {| es_state := s';
         es_tasks := {| et_program := evaluation activation now limit policy p;
                        et_guard := guard_new k p |} :: ts |}
| EAtomic {X} pre (f : Local → X * Local) k g post s :
    engine_step {| es_state := s; es_tasks := pre ++ {| et_program := Atomic f k; et_guard := g |} :: post |}
      {| es_state := (f (g, s)).2.2;
         es_tasks := pre ++ {| et_program := k (f (g, s)).1; et_guard := (f (g, s)).2.1 |} :: post |}
| ECall {X} pre (c : engine_call X) k x g post s :
    engine_step {| es_state := s; es_tasks := pre ++ {| et_program := Call c k; et_guard := g |} :: post |}
      {| es_state := s; es_tasks := pre ++ {| et_program := k x; et_guard := g |} :: post |}
| EDrop {X} pre (c : engine_call X) k g post s :
    droppable c →
    engine_step {| es_state := s; es_tasks := pre ++ {| et_program := Call c k; et_guard := g |} :: post |}
      {| es_state := s; es_tasks := pre ++ {| et_program := drop_guard; et_guard := g |} :: post |}
| EEnd pre u g post s :
    engine_step {| es_state := s; es_tasks := pre ++ {| et_program := Ret u; et_guard := g |} :: post |}
      {| es_state := s; es_tasks := pre ++ post |}.

Definition engine_reachable (e : EngineSystem) : Prop := rtc engine_step engine_initial e.

(** ** Refinement *)

Definition matched (t : EngineTask) (ot : option Task) : Prop :=
  ∃ st, ot = abstract (et_guard t) st ∧ tracks ended (et_program t) (et_guard t) st.

Definition refines (e : EngineSystem) (y : System) : Prop :=
  es_state e = sys_state y ∧
  ∃ ots, Forall2 matched (es_tasks e) ots ∧ sys_tasks y = omap id ots.

(** A section of one task, at the place of the task. *)
Lemma moves_steps pre post s g held s' g' st' :
  moves s g held s' g' st' →
  rtc (system_step windows)
    {| sys_state := s; sys_tasks := pre ++ {| tk_guard := g; tk_held := held |} :: post |}
    {| sys_state := s'; sys_tasks := pre ++ option_list (abstract g' st') ++ post |}.
Proof.
  intros (held' & Hr & Hm).
  assert (rtc (system_step windows)
    {| sys_state := s; sys_tasks := pre ++ {| tk_guard := g; tk_held := held |} :: post |}
    {| sys_state := s; sys_tasks := pre ++ {| tk_guard := g; tk_held := held' |} :: post |}) as Hfirst.
  { destruct Hr as [->|(p & -> & ->)]; [done|]. apply rtc_once.
    exact (STask windows pre _ post _ _ _ (TResume s g p)). }
  destruct Hm as [(-> & -> & ->)|Hstep]; [exact Hfirst|].
  eapply rtc_r; [exact Hfirst|]. by apply STask.
Qed.

Lemma matched_split (pre post : list EngineTask) t ots :
  Forall2 matched (pre ++ t :: post) ots →
  ∃ ots1 ot ots2, ots = (ots1 ++ ot :: ots2)%list ∧
    Forall2 matched pre ots1 ∧ matched t ot ∧ Forall2 matched post ots2.
Proof.
  intros (ots1 & ots' & Hpre & Hpost & ->)%Forall2_app_inv_l.
  apply Forall2_cons_inv_l in Hpost as (ot & ots2 & Ht & Hpost & ->). by exists ots1, ot, ots2.
Qed.

Lemma refines_replace pre post t' s s' ots1 ot ots2 ot' :
  Forall2 matched pre ots1 → Forall2 matched post ots2 → matched t' ot' →
  rtc (system_step windows)
    {| sys_state := s; sys_tasks := omap id ots1 ++ option_list ot ++ omap id ots2 |}
    {| sys_state := s'; sys_tasks := omap id ots1 ++ option_list ot' ++ omap id ots2 |} →
  ∃ y', rtc (system_step windows) {| sys_state := s; sys_tasks := omap id (ots1 ++ ot :: ots2)%list |} y' ∧
        refines {| es_state := s'; es_tasks := pre ++ t' :: post |} y'.
Proof.
  intros Hpre Hpost Ht Hs.
  assert (∀ o, omap id (ots1 ++ o :: ots2)%list = (omap id ots1 ++ option_list o ++ omap id ots2)%list) as Ho.
  { intros o. rewrite omap_app. by destruct o. }
  exists {| sys_state := s'; sys_tasks := omap id ots1 ++ option_list ot' ++ omap id ots2 |}.
  split; [by rewrite Ho|]. split; [done|]. exists (ots1 ++ ot' :: ots2)%list. split; [|by rewrite Ho].
  by apply Forall2_app; [|apply Forall2_cons].
Qed.

Lemma engine_simulates e e' : engine_step e e' → ∀ y, refines e y →
  ∃ y', rtc (system_step windows) y y' ∧ refines e' y'.
Proof.
  intros Hstep [s0 ts0] (Hstate & ots & Hm & Hts). destruct Hstep as
    [a c resumed s ts Ha Hw|terminal s ts|definition_id activation s ts|activation reset s ts
    |policy activation now limit ready s ts k p s' Hres|X pre f k g post s|X pre c k x g post s
    |X pre c k g post s Hd|pre u g post s]; simpl in Hstate, Hts, Hm; subst s0 ts0.
  - eexists; split; [by apply rtc_once, SEnqueue|]. split; [done|by exists ots].
  - eexists; split; [by apply rtc_once, SPrune|]. split; [done|by exists ots].
  - eexists; split; [by apply rtc_once, SRetain|]. split; [done|by exists ots].
  - eexists; split; [by apply rtc_once, SReset|]. split; [done|by exists ots].
  - eexists; split; [by eapply rtc_once, SReserve|]. split; [done|].
    exists (Some {| tk_guard := guard_new k p; tk_held := Some p |} :: ots). split; [|done].
    apply Forall2_cons; split; [|done]. exists (Some (Some p)). split; [done|]. by apply evaluation_tracks.
  - apply matched_split in Hm as (ots1 & ot & ots2 & -> & Hpre & (st & -> & Ht) & Hpost).
    destruct (Ht s) as (st' & Hmove & Ht').
    eapply refines_replace; [exact Hpre|exact Hpost|by exists st'|].
    destruct st as [held|]; simpl in Hmove.
    + by apply moves_steps.
    + destruct Hmove as [-> ->]. done.
  - apply matched_split in Hm as (ots1 & ot & ots2 & -> & Hpre & (st & -> & _ & Ht) & Hpost).
    eapply refines_replace; [exact Hpre|exact Hpost|exists st; split; [done|exact (Ht x)]|done].
  - apply matched_split in Hm as (ots1 & ot & ots2 & -> & Hpre & (st & -> & Hc & _) & Hpost).
    assert (drop_ok g st) as Hok by (destruct c; try done; by destruct Hc as (? & _ & ? & ->)).
    assert (matched {| et_program := drop_guard; et_guard := g |} (abstract g st)) as Ht.
    { exists st. split; [done|]. by apply drop_guard_tracks. }
    eapply refines_replace; [exact Hpre|exact Hpost|exact Ht|done].
  - apply matched_split in Hm as (ots1 & ot & ots2 & -> & Hpre & (st & -> & Ht) & Hpost).
    change (st = None) in Ht. subst st. exists {| sys_state := s; sys_tasks := omap id (ots1 ++ None :: ots2)%list |}. split; [done|].
    split; [done|]. exists (ots1 ++ ots2)%list. split; [by apply Forall2_app|]. simpl. by rewrite !omap_app.
Qed.

Lemma engine_initial_refines : refines engine_initial system_initial.
Proof. split; [done|]. by exists []. Qed.

Lemma engine_reachable_refines e : engine_reachable e → ∃ y, reachable windows y ∧ refines e y.
Proof.
  unfold engine_reachable. intros Hr.
  assert (∃ y, reachable windows y ∧ refines engine_initial y) as Hy.
  { exists system_initial. split; [apply rtc_refl|apply engine_initial_refines]. }
  revert Hy. induction Hr as [|e1 e2 e3 Hstep _ IH]; [done|]. intros (y & Hy & Hr). apply IH.
  destruct (engine_simulates _ _ Hstep y Hr) as (y' & Hs & Hr'). exists y'. split; [|done].
  unfold reachable in *. by etrans.
Qed.

(** ** Requests that are out *)

Definition awaits (t : EngineTask) : bool :=
  match et_program t with
  | Call c _ => match c with Receive _ => true | _ => false end
  | _ => false
  end.

(** A task that waits for an answer holds its reservation, and its guard keeps
    the branch reserved should it be dropped. *)
Lemma awaits_matched t ot :
  matched t ot → awaits t = true →
  g_finished (et_guard t) = false ∧ g_release_branch_on_drop (et_guard t) = false ∧
  ∃ held, ot = Some {| tk_guard := et_guard t; tk_held := held |}.
Proof.
  destruct t as [p g]. intros (st & -> & Ht) Ha. unfold awaits in Ha. simpl in *.
  destruct p as [|X f k|X c k|]; try done. destruct Ht as [Hc _]. destruct c; try done.
  destruct Hc as (Hf & Hk & [held ->]). split_and!; [done|done|by exists held].
Qed.

Lemma awaits_sublist ts ots :
  Forall2 matched ts ots → sublist (et_key <$> List.filter awaits ts) (tk_key <$> omap id ots).
Proof.
  induction 1 as [|t ot ts ots Hm _ IH]; simpl; [apply sublist_nil|].
  destruct (awaits t) eqn:Ea.
  - destruct (awaits_matched t ot Hm Ea) as (_ & _ & held & ->). simpl. by apply sublist_skip.
  - destruct ot as [t'|]; simpl; [by apply sublist_cons|done].
Qed.

Lemma matched_elem t ts ots : Forall2 matched ts ots → t ∈ ts → ∃ ot, matched t ot ∧ ot ∈ ots.
Proof.
  induction 1 as [|t1 ot ts ots Hm _ IH]; [by intros ?%elem_of_nil|].
  intros [->|Hin]%elem_of_cons; [exists ot; split; [done|by left]|].
  destruct (IH Hin) as (ot' & ? & ?). exists ot'. split; [done|by right].
Qed.
End engine_system.
