(* ===== verification/EngineSystemRuns.v ===== *)
(** * Interleavings of evaluations

    The properties of every interleaving of the engine's evaluations, from the
    refinement of [EngineScheduler] and the invariants of [SchedulerFacts]. *)

From stdpp Require Import gmap relations.
From S2P Require Import Prelude Program RustString Json Diagnostics Expression Budget Provenance Scalars Evaluator Fit Domain Template Decision Check Preparation Lifecycle Selection BoundedJson Prepared Results ResultFacts Actions ActionFacts Progress ProgressFacts Scheduler SchedulerFacts SchedulerRuns Engine EngineFacts EngineRuns EngineScheduler.

#[local] Open Scope N_scope.

Section properties.
Context `{SerdeNumber, UnicodeData, JsonDeserializer, !RecordWriter}.
Variable windows : ActivationId → bool.

(** ** Dropped requests

    The drop of a guard that keeps its branch reads the guard, then gives the
    place back. *)
Definition keep_branch : task unit := on_scheduler (λ _ s, on_flight id (active_count s - 1) s).

Definition dropping (t : EngineTask) : Prop :=
  (et_program t = drop_guard ∨ et_program t = keep_branch) ∧
  g_finished (et_guard t) = false ∧ g_release_branch_on_drop (et_guard t) = false.

Definition section_of (p : task unit) (l : Local) : option (task unit * Local) :=
  match p with Atomic f k => Some (k (f l).1, (f l).2) | _ => None end.

Lemma dropping_section t s :
  dropping t →
  section_of (et_program t) (et_guard t, s) =
    Some (keep_branch, (et_guard t, s)) ∨
  section_of (et_program t) (et_guard t, s) =
    Some (Ret tt, (et_guard t, guard_drop (et_guard t) (Ok Current) s)).
Proof.
  intros ([->| ->] & Hf & Hr).
  - left. unfold section_of, drop_guard. simpl. by rewrite Hr, Hf.
  - right. unfold section_of, keep_branch, guard_drop. simpl. by rewrite Hr, Hf.
Qed.

(** A dropped evaluation holds its reservation until it gave its place back. *)
Lemma dropping_matched t ot :
  matched t ot → dropping t → ∃ held, ot = Some {| tk_guard := et_guard t; tk_held := held |}.
Proof.
  intros (st & -> & Ht) (Hp & Hf & Hr). destruct st as [held|]; [by exists held|exfalso].
  assert (tracks ended keep_branch (et_guard t) None) as Hk.
  { destruct Hp as [Hp|Hp]; rewrite Hp in Ht; [|done].
    destruct (Ht SchedulerState_default) as (st' & [_ ->] & Hk). simpl in Hk. by rewrite Hr, Hf in Hk. }
  destruct (Hk (on_flight id 1 SchedulerState_default)) as (st' & [Hs _] & _).
  by apply (f_equal active_count) in Hs.
Qed.

(** The branch is reserved for ever, or until the drop of its guard ends. *)
Definition kept (key : ScheduleKey) (e : EngineSystem) : Prop :=
  ∃ y, reachable windows y ∧ refines e y ∧
    (abandoned key y ∨ ∃ t, t ∈ es_tasks e ∧ dropping t ∧ et_key t = key).

Lemma kept_in_flight key e : kept key e → key ∈ in_flight (es_state e).
Proof.
  intros (y & Hy & (-> & ots & Hm & Hts) & [[Hin _]|(t & Ht & Hd & <-)]); [done|].
  destruct (matched_elem t _ _ Hm Ht) as (ot & Hmt & Hot).
  destruct (dropping_matched t ot Hmt Hd) as [held ->].
  apply reachable_ok in Hy as [_ _ _ Htasks _ _]. rewrite Forall_forall in Htasks.
  destruct (Htasks {| tk_guard := et_guard t; tk_held := held |}) as [Hres _ _ _ _]; [|done].
  rewrite Hts. apply list_elem_of_omap. by eexists.
Qed.

(** The last section of a drop leaves the branch without a task. *)
Lemma last_section_kept pre t post s :
  (∃ y, reachable windows y ∧ refines {| es_state := s; es_tasks := pre ++ t :: post |} y) →
  dropping t →
  kept (et_key t) {| es_state := guard_drop (et_guard t) (Ok Current) s;
                     es_tasks := pre ++ {| et_program := Ret tt; et_guard := et_guard t |} :: post |}.
Proof.
  intros ([s0 ts] & Hy & Hs & ots & Hm & Hts) Hd. simpl in Hs, Hts, Hm. subst s0 ts.
  apply matched_split in Hm as (ots1 & ot & ots2 & -> & Hpre & Hmt & Hpost).
  destruct (dropping_matched t ot Hmt Hd) as [held ->]. rewrite omap_app in Hy. simpl in Hy.
  destruct Hd as (_ & Hf & Hr).
  exists {| sys_state := guard_drop (et_guard t) (Ok Current) s; sys_tasks := omap id ots1 ++ omap id ots2 |}.
  split_and!.
  - unfold reachable in *. eapply rtc_r; [exact Hy|].
    exact (STask windows _ _ _ _ _ _ (TDrop s {| tk_guard := et_guard t; tk_held := held |} (Ok Current))).
  - split; [done|]. exists (ots1 ++ None :: ots2)%list. split; [|by rewrite omap_app].
    apply Forall2_app; [done|]. apply Forall2_cons. split; [|done]. by exists None.
  - left. by apply (dropped_abandoned windows _ {| tk_guard := et_guard t; tk_held := held |}).
Qed.

Lemma kept_step key e e' : engine_step windows e e' → kept key e → kept key e'.
Proof.
  intros Hstep (y & Hy & Hr & Hk).
  destruct (engine_simulates _ _ _ Hstep y Hr) as (y' & Hsteps & Hr').
  assert (reachable windows y') as Hy' by (unfold reachable in *; by etrans).
  destruct Hk as [Ha|(t & Ht & Hd & Hkey)].
  { exists y'. split_and!; [done|done|left]. by apply (abandoned_forever windows key y y'). }
  assert (∀ t', t' ∈ es_tasks e' → dropping t' → et_key t' = key → kept key e') as Hstay.
  { intros t' ? ? ?. exists y'. split_and!; [done|done|right]. by exists t'. }
  destruct Hstep as [a c resumed s ts Ha Hw|terminal s ts|definition_id activation s ts|activation reset s ts
    |policy activation now limit ready s ts k p s' Hres|X pre f k g post s|X pre c k x g post s
    |X pre c k g post s Hc|pre u g post s]; simpl in Ht, Hstay;
    try (by apply (Hstay t)).
  { apply (Hstay t); [by right|done|done]. }
  all: apply elem_of_app in Ht as [Ht|[->|Ht]%elem_of_cons];
    try (apply (Hstay t); [set_solver|done|done]); try (by destruct Hd as [[|] _]).
  destruct (dropping_section _ s Hd) as [Hs|Hs]; cbn [section_of et_program et_guard] in Hs; injection Hs as Hp Hl.
  - apply (Hstay {| et_program := keep_branch; et_guard := g |}).
    + rewrite Hp, Hl. apply elem_of_app. right. by left.
    + destruct Hd as (_ & Hd). split; [by right|exact Hd].
    + done.
  - rewrite Hp, Hl, <- Hkey.
    apply (last_section_kept pre {| et_program := Atomic f k; et_guard := g |} post s); [by exists y|done].
Qed.

Lemma kept_forever key e e' : rtc (engine_step windows) e e' → kept key e → kept key e'.
Proof. induction 1 as [|e1 e2 e3 Hs _ IH]; [done|]. intros Hk. by eapply IH, kept_step. Qed.

(** C8: the engine implements the scheduler.  Every step of the engine, in which
    its evaluations interleave at every call and every section under the lock,
    is a sequence of steps of the abstract scheduler that ends in a related
    state; and the initial states are related. *)
Theorem engine_refines_scheduler :
  refines engine_initial system_initial ∧
  ∀ e e' y, engine_step windows e e' → refines e y →
    ∃ y', rtc (system_step windows) y y' ∧ refines e' y'.
Proof. split; [apply engine_initial_refines|]. intros e e' y Hs Hr. by eapply engine_simulates. Qed.

(** C9: at most four requests wait for an answer at once, never two for one
    branch of an activation, and each of them has its branch reserved; at most 132
    candidates wait, the 128 of the limit and one for each of the four evaluations,
    which may put its candidate back without being counted. *)
Theorem requests_in_flight e :
  engine_reachable windows e →
  let out := et_key <$> List.filter awaits (es_tasks e) in
  NoDup out ∧ N.of_nat (length out) ≤ MAX_IN_FLIGHT_EVALUATIONS ∧
  Forall (λ k, k ∈ in_flight (es_state e)) out ∧
  pending_total (es_state e) ≤ MAX_PENDING_CANDIDATES + MAX_IN_FLIGHT_EVALUATIONS.
Proof.
  intros (y & Hy & Hs & ots & Hm & Hts)%engine_reachable_refines out.
  apply reachable_ok in Hy as [Hcount Hbound Hkeys Htasks _ Htotal].
  pose proof (awaits_sublist _ _ Hm) as Hsub. rewrite <- Hts in Hsub. rewrite Hs.
  split_and!.
  - by eapply sublist_NoDup.
  - apply sublist_length in Hsub. rewrite (length_fmap tk_key) in Hsub. unfold out. lia.
  - apply Forall_forall. intros k Hk.
    apply (elem_of_sublist _ _ k) in Hsub; [|done]. apply list_elem_of_fmap in Hsub as (t & -> & Ht).
    rewrite Forall_forall in Htasks. by destruct (Htasks t Ht).
  - lia.
Qed.

(** A request whose answer was not awaited is not repeated.  When the future
    of an evaluation is dropped while its request is out, no step of the engine
    ever reserves the branch again, so the next request for it waits for a new
    process, which finds the recorded intent. *)
Theorem dropped_request_keeps_branch pre attempt k g post s e policy activation now ready key p s' :
  engine_reachable windows
    {| es_state := s; es_tasks := pre ++ {| et_program := Call (Receive attempt) k; et_guard := g |} :: post |} →
  rtc (engine_step windows)
    {| es_state := s; es_tasks := pre ++ {| et_program := drop_guard; et_guard := g |} :: post |} e →
  reserve policy activation now ready (es_state e) = Some (key, p, s') →
  key ≠ g_key g.
Proof.
  intros Hr Hsteps Hres%reserve_not_in_flight ->.
  assert (kept (g_key g)
    {| es_state := s; es_tasks := pre ++ {| et_program := drop_guard; et_guard := g |} :: post |}) as Hk.
  { destruct (engine_reachable_refines _ _ Hr) as (y1 & _ & _ & ots & Hm & _).
    apply matched_split in Hm as (ots1 & ot & ots2 & _ & _ & Hmt & _).
    destruct (awaits_matched _ _ Hmt eq_refl) as (Hf & Hkeep & _).
    assert (engine_reachable windows
      {| es_state := s; es_tasks := pre ++ {| et_program := drop_guard; et_guard := g |} :: post |}) as Hdrop.
    { unfold engine_reachable in *. eapply rtc_r; [exact Hr|]. by apply EDrop. }
    destruct (engine_reachable_refines _ _ Hdrop) as (y & Hy & Hry). exists y. split_and!; [done|done|right].
    exists {| et_program := drop_guard; et_guard := g |}. split_and!; [set_solver| |done].
    by split; [left|]. }
  by apply Hres, kept_in_flight, (kept_forever _ _ _ Hsteps).
Qed.
End properties.

(** ** A sample *)

Section sample.
#[local] Existing Instance text_numbers.
#[local] Existing Instance ascii_unicode.
#[local] Existing Instance no_json.
#[local] Existing Instance short_writer.

Definition is_receive {X} (c : engine_call X) : bool := match c with Receive _ => true | _ => false end.

(** One evaluation until its request is out. *)
Fixpoint advance (fuel : nat) (p : task unit) (g : InFlightGuard) (s : SchedulerState) :
    SchedulerState * EngineTask :=
  match fuel with
  | O => (s, {| et_program := p; et_guard := g |})
  | S fuel =>
      match p with
      | Atomic f k => advance fuel (k (f (g, s)).1) (f (g, s)).2.1 (f (g, s)).2.2
      | Call c k =>
          if is_receive c then (s, {| et_program := p; et_guard := g |})
          else advance fuel (k (sample_call _ c)) g s
      | _ => (s, {| et_program := p; et_guard := g |})
      end
  end.

Lemma advance_steps fuel : ∀ p g s,
  rtc (engine_step no_windows) {| es_state := s; es_tasks := [{| et_program := p; et_guard := g |}] |}
    {| es_state := (advance fuel p g s).1; es_tasks := [(advance fuel p g s).2] |}.
Proof.
  induction fuel as [|fuel IH]; intros p g s; simpl; [done|].
  destruct p as [a|X f k|X c k|why]; simpl; try done.
  - eapply rtc_l; [apply (EAtomic no_windows [] f k g [] s)|apply IH].
  - destruct (is_receive c); simpl; [done|].
    eapply rtc_l; [apply (ECall no_windows [] c k (sample_call X c) g [] s)|apply IH].
Qed.

Lemma add_all_engine positions : ∀ s,
  rtc (engine_step no_windows) {| es_state := s; es_tasks := [] |}
    {| es_state := add_all positions s; es_tasks := [] |}.
Proof.
  induction positions as [|position positions IH]; intros s; simpl; [done|].
  eapply rtc_l; [|apply IH]. by apply EEnqueue.
Qed.

Definition run_out (r : ScheduleKey * PendingCandidate * SchedulerState) : SchedulerState * EngineTask :=
  advance 100 (evaluation (sample_effective "a") 0 10 PolicyLive r.1.2) (guard_new r.1.1 r.1.2) r.2.

Definition sample_out : option (SchedulerState * EngineTask) := run_out <$> sample_start.

Lemma run_out_reachable k p s :
  sample_start = Some (k, p, s) →
  engine_reachable no_windows
    {| es_state := (run_out (k, p, s)).1; es_tasks := [(run_out (k, p, s)).2] |}.
Proof.
  intros Es. unfold engine_reachable. etransitivity; [apply (add_all_engine [1; 2])|].
  eapply rtc_l; [exact (EReserve no_windows PolicyLive (sample_effective "a") 0 10 (λ _, true) _ [] k p s Es)|].
  apply advance_steps.
Qed.

Lemma sample_out_reachable s t :
  sample_out = Some (s, t) → engine_reachable no_windows {| es_state := s; es_tasks := [t] |}.
Proof.
  unfold sample_out. intros ([[k p] s1] & Es & Ho)%fmap_Some.
  pose proof (run_out_reachable k p s1 Es) as Hr. by rewrite <- Ho in Hr.
Qed.

Lemma sample_out_awaits : (awaits ∘ snd) <$> sample_out = Some true.
Proof. vm_refl. Qed.

Lemma requests_in_flight_witness :
  ∃ e, engine_reachable no_windows e ∧ length (List.filter awaits (es_tasks e)) = 1%nat ∧
       NoDup (et_key <$> List.filter awaits (es_tasks e)).
Proof.
  pose proof sample_out_awaits as Ha. destruct sample_out as [[s t]|] eqn:Es; [|discriminate Ha].
  injection Ha as Ha. simpl in Ha. exists {| es_state := s; es_tasks := [t] |}.
  pose proof (sample_out_reachable s t Es) as Hr. split; [exact Hr|]. split.
  - simpl. by rewrite Ha.
  - exact (proj1 (requests_in_flight no_windows _ Hr)).
Defined.

Lemma dropped_request_keeps_branch_witness :
  match sample_out with
  | Some (s, t) => ∀ policy now ready k p s',
      reserve policy (sample_id "a") now ready s = Some (k, p, s') → k ≠ et_key t
  | None => False
  end.
Proof.
  pose proof sample_out_awaits as Ha. destruct sample_out as [[s t]|] eqn:Es; [|discriminate Ha].
  injection Ha as Ha. simpl in Ha. pose proof (sample_out_reachable s t Es) as Hr.
  intros policy now ready k p s' Hres. destruct t as [[u|X f q|X c q|why] g]; try discriminate Ha.
  destruct c as [| | | | | | | | | | | | | | | | | | |attempt|]; try discriminate Ha.
  exact (dropped_request_keeps_branch no_windows [] attempt q g [] s _ policy (sample_id "a") now ready k p s'
    Hr (rtc_refl _ _) Hres).
Defined.
End sample.
