(* ===== verification/Replay.v ===== *)
(** * Replay (crates/antiburn-checks/src/replay.rs)

    A finite source is replayed through an engine of its own: one event is read,
    applied and its candidate settled before the next one is read, within limits
    on events, evaluations and provider attempts. *)

From stdpp Require Import gmap.
From S2P Require Import Prelude Program RustString Json Diagnostics Expression Budget Provenance Scalars Evaluator Filters Domain Template Decision Check Lifecycle Context Selection BoundedJson Prepared Messages Source Results Actions Progress Scheduler Engine Checkpoint Pages.

#[local] Open Scope N_scope.

(** ** Data *)

Record ReplayRunId := { replay_run_id : string }.

Record ReplayLimits := { rl_events : N; rl_evaluations : N; rl_attempts : N }.

Inductive ReplayEnd :=
| ReplayComplete | ReplayLimitReached | ReplayCancelled
| ReplaySourceError (error : string) | ReplayExecutionError (error : string).

Record ReplayStep := {
  st_cursor : PublicationCursor;
  st_candidates : N;
  st_outcome : option RunOutcome
}.

Record ReplayReport := {
  rp_run_id : ReplayRunId;
  rp_definition_id : string;
  rp_definition_revision : string;
  rp_limits : ReplayLimits;
  rp_end : ReplayEnd;
  rp_events : N;
  rp_evaluations : N;
  rp_attempts : N;
  rp_steps : list ReplayStep
}.

Definition set_end (e : ReplayEnd) (r : ReplayReport) : ReplayReport :=
  {| rp_run_id := rp_run_id r; rp_definition_id := rp_definition_id r;
     rp_definition_revision := rp_definition_revision r; rp_limits := rp_limits r; rp_end := e;
     rp_events := rp_events r; rp_evaluations := rp_evaluations r; rp_attempts := rp_attempts r;
     rp_steps := rp_steps r |}.

Definition add_event (r : ReplayReport) : ReplayReport :=
  {| rp_run_id := rp_run_id r; rp_definition_id := rp_definition_id r;
     rp_definition_revision := rp_definition_revision r; rp_limits := rp_limits r; rp_end := rp_end r;
     rp_events := rp_events r + 1; rp_evaluations := rp_evaluations r; rp_attempts := rp_attempts r;
     rp_steps := rp_steps r |}.

Definition add_evaluation (r : ReplayReport) : ReplayReport :=
  {| rp_run_id := rp_run_id r; rp_definition_id := rp_definition_id r;
     rp_definition_revision := rp_definition_revision r; rp_limits := rp_limits r; rp_end := rp_end r;
     rp_events := rp_events r; rp_evaluations := rp_evaluations r + 1; rp_attempts := rp_attempts r;
     rp_steps := rp_steps r |}.

Definition push_step (s : ReplayStep) (r : ReplayReport) : ReplayReport :=
  {| rp_run_id := rp_run_id r; rp_definition_id := rp_definition_id r;
     rp_definition_revision := rp_definition_revision r; rp_limits := rp_limits r; rp_end := rp_end r;
     rp_events := rp_events r; rp_evaluations := rp_evaluations r; rp_attempts := rp_attempts r;
     rp_steps := (rp_steps r ++ [s])%list |}.

(** [checked_add] on the attempts; a [usize] holds every [u64]. *)
Definition add_attempts (new_intents : N) (r : ReplayReport) : result ReplayReport StoreError :=
  if USIZE_MAX <? rp_attempts r + new_intents then store_error "replay attempt total is exhausted"
  else
    Ok {| rp_run_id := rp_run_id r; rp_definition_id := rp_definition_id r;
          rp_definition_revision := rp_definition_revision r; rp_limits := rp_limits r; rp_end := rp_end r;
          rp_events := rp_events r; rp_evaluations := rp_evaluations r;
          rp_attempts := rp_attempts r + new_intents; rp_steps := rp_steps r |}.

(** ** The calls of a replay *)

Section calls.
Context `{SerdeNumber}.

Inductive replay_call : Type → Type :=
| IsCancelled : replay_call bool
| NextEvent : replay_call (result (option SourceEvent) string)
| Serve {X : Type} (c : service_call X) : replay_call X.

(** The engine is the replay's own, so its scheduler is the whole state. *)
Definition replaying (A : Type) : Type := prog replay_call SchedulerState A.

Definition serving {A} (p : service A) : replaying (A * unit) :=
  embed (λ X c, Serve (X:=X) c) (λ _ s, s) (λ s, (tt, s)) tt p.

(** A task with its guard as a part of a service. *)
Definition guarded {A} (g : InFlightGuard) (p : task A) : service (A * InFlightGuard) :=
  embed (λ X c, Evaluation (X:=X) c) (λ g s, (g, s)) (λ l, l) g p.
End calls.

Section replay.
Context `{SerdeNumber, UnicodeData, JsonDeserializer, !CandidateDigest, !RecordWriter}.

(** [start_one_due_matching] (engine.rs): the reservation of a branch that is
    ready, its guard, and the start.  The guard of a started task lives on with
    its future. *)
Definition start_one_due_matching (activation : EffectiveActivation) (now maximum_new_intents : N)
    (ready : BranchId → bool) (policy : ExecutionPolicy) :
    service (result (StartOutcome * option InFlightGuard) StoreError) :=
  call! reserved := atomically (λ s,
    match reserve policy (ea_id activation) now ready s with
    | Some (k, p, s) => (Some (guard_new k p, p), s)
    | None => (None, s)
    end) in
  match reserved with
  | None => Ret (Ok (StartNotDue, None))
  | Some (g, pending) =>
      call! '(started, g) := guarded g (start_reserved activation now maximum_new_intents policy pending) in
      match started with
      | Ok outcome => Ret (Ok (outcome, Some g))
      | Err error => Ret (Err error)
      end
  end.

Definition start_one_due_with_attempt_limit (activation : EffectiveActivation) (now maximum_new_intents : N)
    (policy : ExecutionPolicy) : service (result (StartOutcome * option InFlightGuard) StoreError) :=
  start_one_due_matching activation now maximum_new_intents (λ _, true) policy.

(** The two other starts: without a limit, and only for branches that are
    attached. *)
Definition start_one_due (activation : EffectiveActivation) (now : N) (policy : ExecutionPolicy) :
    service (result (StartOutcome * option InFlightGuard) StoreError) :=
  start_one_due_with_attempt_limit activation now U64_MAX policy.

Definition start_one_due_for_branches (activation : EffectiveActivation) (now : N)
    (branches : gset BranchId) (policy : ExecutionPolicy) :
    service (result (StartOutcome * option InFlightGuard) StoreError) :=
  start_one_due_matching activation now U64_MAX (λ b, bool_decide (b ∈ branches)) policy.

(** The awaited future. *)
Definition await_task (g : InFlightGuard) (future : task (result RunSettlement EvaluationTaskError)) :
    service (result RunSettlement EvaluationTaskError) :=
  call! '(r, _) := guarded g future in Ret r.

(** The match on the outcome of a settlement. *)
Definition outcome_end (o : RunOutcome) (r : ReplayReport) : ReplayReport :=
  match o with
  | RunFailed detail => set_end (ReplayExecutionError detail) r
  | RunDeferred => set_end (ReplayExecutionError "replay answer acceptance is deferred") r
  | RunStale => set_end (ReplayExecutionError "replay answer lost publication rights") r
  | RunLimitReached => set_end ReplayLimitReached r
  | _ => r
  end.

Definition error_end (e : EvaluationTaskError) (r : ReplayReport) : ReplayReport :=
  set_end (ReplayExecutionError
    (if te_intent_commit_uncertain e
     then store_message (te_source e) +:+ "; the last dispatch intent commit is uncertain"
     else store_message (te_source e))) r.

(** The match on the result of the future. *)
Definition settle_report (settled : result RunSettlement EvaluationTaskError) (r : ReplayReport) :
    result (ReplayReport * option RunOutcome) StoreError :=
  match settled with
  | Ok settlement =>
      let? r := add_attempts (rs_new_intents settlement) r in
      Ok (outcome_end (rs_outcome settlement) r, Some (rs_outcome settlement))
  | Err error =>
      let? r := add_attempts (te_new_intents error) r in
      Ok (error_end error r, None)
  end.

(** The candidate of an event: started with the attempts that are left, and
    awaited. *)
Definition evaluate_step (activation : EffectiveActivation) (r : ReplayReport) :
    replaying (result (ReplayReport * option RunOutcome) StoreError) :=
  let maximum_attempts := rl_attempts (rp_limits r) - rp_attempts r in
  call! '(started, _) :=
    serving (start_one_due_with_attempt_limit activation 0 maximum_attempts SequentialReplay) in
  match started with
  | Ok (Started future, Some g) =>
      let r := add_evaluation r in
      call! '(settled, _) := serving (await_task g future) in
      Ret (settle_report settled r)
  | Ok _ =>
      Ret (Ok (set_end (ReplayExecutionError "sequential replay candidate was not dispatched") r, None))
  | Err error => Ret (Ok (set_end (ReplayExecutionError (store_message error)) r, None))
  end.

(** The candidates of an applied event.  At the limit on evaluations the code
    pushes the step and breaks, which is what happens to every step that changed
    the end. *)
Definition settle_event (activation : EffectiveActivation) (applied : BatchOutcome) (r : ReplayReport) :
    replaying (result (ReplayReport * option RunOutcome) StoreError) :=
  if 0 <? bo_candidates applied then
    if rl_evaluations (rp_limits r) <=? rp_evaluations r then Ret (Ok (set_end ReplayLimitReached r, None))
    else evaluate_step activation r
  else Ret (Ok (r, None)).

(** One event that was read: its page, and its candidates. *)
Definition replay_event (activation : EffectiveActivation) (event : SourceEvent) (selectors : Selectors)
    (r : ReplayReport) : replaying (result (ReplayReport * Selectors) StoreError) :=
  let cursor := event_cursor event in
  let page := {| sb_events := [event]; sb_next := cursor; sb_has_more := true |} in
  call! '((selectors, _, applied), _) := serving (apply_source_page activation selectors page) in
  match applied with
  | Err error => Ret (Ok (set_end (ReplayExecutionError (store_message error)) r, selectors))
  | Ok applied =>
      let r := add_event r in
      let! '(r, outcome) := settle_event activation applied r in
      Ret (Ok (push_step {| st_cursor := cursor; st_candidates := bo_candidates applied;
                            st_outcome := outcome |} r, selectors))
  end.

Definition is_complete (e : ReplayEnd) : bool := match e with ReplayComplete => true | _ => false end.

(** The loop; [replay_bounded] shows that the fuel is enough. *)
Fixpoint replay_loop (fuel : nat) (activation : EffectiveActivation) (selectors : Selectors)
    (r : ReplayReport) : replaying (result ReplayReport StoreError) :=
  match fuel with
  | O => Halt OutOfFuel
  | S fuel =>
      call! (cancelled : bool) := pcall IsCancelled in
      if cancelled then Ret (Ok (set_end ReplayCancelled r))
      else
        call! (next : result (option SourceEvent) string) := pcall NextEvent in
        match next with
        | Ok None => Ret (Ok r)
        | Err error => Ret (Ok (set_end (ReplaySourceError error) r))
        | Ok (Some event) =>
            if rl_events (rp_limits r) <=? rp_events r then Ret (Ok (set_end ReplayLimitReached r))
            else
              let! '(r, selectors) := replay_event activation event selectors r in
              if negb (is_complete (rp_end r)) then Ret (Ok r)
              else replay_loop fuel activation selectors r
        end
  end.

(** The activation of the run: its scope names the run, and both bootstrap
    orders start at zero. *)
Definition replay_activation (run_id : ReplayRunId) (a : EffectiveActivation) : EffectiveActivation :=
  {| ea_id :=
       {| a_scope := {| environment := environment (a_scope (ea_id a));
                        session_cwd := session_cwd (a_scope (ea_id a));
                        run := Replay (replay_run_id run_id) |};
          a_definition_id := a_definition_id (ea_id a); a_generation := a_generation (ea_id a) |};
     ea_revision := ea_revision a; ea_definition_scope := ea_definition_scope a;
     ea_source_paths := ea_source_paths a; ea_project_root := ea_project_root a;
     ea_compiled := ea_compiled a; ea_bootstrap_position := 0; ea_bootstrap_publication := 0 |}.

Definition empty_report (run_id : ReplayRunId) (a : EffectiveActivation) (limits : ReplayLimits) :
    ReplayReport :=
  {| rp_run_id := run_id; rp_definition_id := a_definition_id (ea_id a);
     rp_definition_revision := foldr (λ b s, hex_byte b +:+ s) "" (ea_revision a);
     rp_limits := limits; rp_end := ReplayComplete; rp_events := 0; rp_evaluations := 0;
     rp_attempts := 0; rp_steps := [] |}.

Definition replay_fuel (limits : ReplayLimits) : nat := S (N.to_nat (rl_events limits)).

Definition replay (run_id : ReplayRunId) (activation : EffectiveActivation) (limits : ReplayLimits) :
    replaying (result ReplayReport StoreError) :=
  if is_blank (replay_run_id run_id) then Ret (store_error "replay run ID must not be empty")
  else
    let activation := replay_activation run_id activation in
    call! '((selectors, persisted), _) :=
      serving (persist_activation (a_definition_id (ea_id activation)) (Activated activation)
                 (Some activation) ∅) in
    match persisted with
    | Err error => Ret (Err error)
    | Ok _ => replay_loop (replay_fuel limits) activation selectors (empty_report run_id activation limits)
    end.
End replay.
