(* ===== verification/ReplayFacts.v ===== *)
(** * Every run of a replay keeps to its limits (crates/antiburn-checks/src/replay.rs)

    A tally of the calls of a run counts what was read, committed, started, sent
    and received.  Whatever the source, the store and the evaluator answer, a
    replay ends, stays within its limits, reports what it did, and settles one
    event before it reads the next.  The last part states these properties and
    holds a sample replay. *)

From stdpp Require Import gmap.
From S2P Require Import Prelude Program RustString Json Diagnostics Expression Budget Provenance Scalars Evaluator Filters Domain Template Decision Check Preparation Lifecycle Context Selection SelectionFacts SelectionHistory BoundedJson Prepared Messages Source SourceFacts Results ResultFacts Actions ActionFacts Progress ProgressFacts CapacityFacts Scheduler SchedulerFacts SchedulerRuns Engine EngineFacts EngineRuns Checkpoint Pages PageFacts Replay.

#[local] Open Scope N_scope.

(** ** The tally of a run *)

Section tally.
Context `{SerdeNumber}.

Record Tally := {
  ta_last : option SourceEvent;
  ta_exhausted : bool;
  ta_reads : N;
  ta_pages : N;
  ta_starts : N;
  ta_sent : N;
  ta_received : N
}.

Definition no_calls : Tally :=
  {| ta_last := None; ta_exhausted := false; ta_reads := 0; ta_pages := 0; ta_starts := 0;
     ta_sent := 0; ta_received := 0 |}.

Definition task_count {X} (c : engine_call X) (t : Tally) : Tally :=
  match c with
  | ClaimDue _ _ _ =>
      {| ta_last := ta_last t; ta_exhausted := ta_exhausted t; ta_reads := ta_reads t; ta_pages := ta_pages t;
         ta_starts := ta_starts t + 1; ta_sent := ta_sent t; ta_received := ta_received t |}
  | Send _ _ _ _ =>
      {| ta_last := ta_last t; ta_exhausted := ta_exhausted t; ta_reads := ta_reads t; ta_pages := ta_pages t;
         ta_starts := ta_starts t; ta_sent := ta_sent t + 1; ta_received := ta_received t |}
  | Receive _ =>
      {| ta_last := ta_last t; ta_exhausted := ta_exhausted t; ta_reads := ta_reads t; ta_pages := ta_pages t;
         ta_starts := ta_starts t; ta_sent := ta_sent t; ta_received := ta_received t + 1 |}
  | _ => t
  end.

Definition service_count {X} (c : service_call X) (t : Tally) : Tally :=
  match c with
  | ApplySourcePage _ _ _ _ _ _ =>
      {| ta_last := ta_last t; ta_exhausted := ta_exhausted t; ta_reads := ta_reads t;
         ta_pages := ta_pages t + 1; ta_starts := ta_starts t; ta_sent := ta_sent t;
         ta_received := ta_received t |}
  | Evaluation c => task_count c t
  | _ => t
  end.

Definition read_count (x : result (option SourceEvent) string) (t : Tally) : Tally :=
  match x with
  | Ok (Some e) =>
      {| ta_last := Some e; ta_exhausted := ta_exhausted t; ta_reads := ta_reads t + 1; ta_pages := ta_pages t;
         ta_starts := ta_starts t; ta_sent := ta_sent t; ta_received := ta_received t |}
  | Ok None =>
      {| ta_last := ta_last t; ta_exhausted := true; ta_reads := ta_reads t; ta_pages := ta_pages t;
         ta_starts := ta_starts t; ta_sent := ta_sent t; ta_received := ta_received t |}
  | Err _ => t
  end.

Definition replay_count {X} (c : replay_call X) : X → Tally → Tally :=
  match c in replay_call X return X → Tally → Tally with
  | IsCancelled => λ _ t, t
  | NextEvent => read_count
  | Serve c => λ _, service_count c
  end.

Definition tally (tr : list (event replay_call)) : Tally :=
  fold_left (λ t e, match e with Ev c x => replay_count c x t end) tr no_calls.
End tally.

(** The ghost state is the tally. *)
Notation task_step := (λ X (c : engine_call X) (_ : X) t t', t' = task_count c t).
Notation service_step := (λ X (c : service_call X) (_ : X) t t', t' = service_count c t).
Notation replay_step := (λ X (c : replay_call X) (x : X) t t', t' = replay_count c x t).

(** The only way to stop is a panic: no loop runs out of fuel. *)
Definition panics (why : stop) : Prop := why = Panics.

Lemma tally_steps `{SerdeNumber} (tr : list (event replay_call)) t :
  ghost_steps replay_step t tr (fold_left (λ t e, match e with Ev c x => replay_count c x t end) tr t).
Proof. revert t. induction tr as [|[X c x] tr IH]; intros t; [done|]. exists (replay_count c x t). by split. Qed.

(** ** Tasks *)

Section tasks.
Context `{SerdeNumber, UnicodeData, JsonDeserializer, !RecordWriter}.
Variable limits : ReplayLimits.

(** What holds when a task makes a call: a request is sent within the limit and
    when no other one is waiting; a candidate is claimed within its limit. *)
Definition task_require (X : Type) (c : engine_call X) (t : Tally) : Prop :=
  match c with
  | ClaimDue _ _ _ => ta_starts t < rl_evaluations limits
  | Send _ _ _ _ => ta_sent t < rl_attempts limits ∧ ta_received t = ta_sent t
  | _ => True
  end.

Notation counting := (hoare task_step task_require (λ _, True) panics).

(** Calls that the tally does not count. *)
Definition uncounted (X : Type) (c : engine_call X) : Prop :=
  match c with ClaimDue _ _ _ | Send _ _ _ _ | Receive _ => False | _ => True end.

Lemma uncounted_counting {A} (p : task A) t : calls_within uncounted panics p → counting (λ _ t', t' = t) p t.
Proof.
  intros Hp. eapply (calls_within_hoare uncounted panics _ _ _ (λ t', t' = t)); [done|done| | |exact Hp|done].
  - by intros X [] g.
  - intros X c x g g' Hc -> ->. by destruct c.
Qed.

(** Case analysis of a program whose calls are all uncounted. *)
Ltac uncounted_step :=
  lazymatch goal with
  | |- calls_within _ _ (pbind _ _) => apply calls_in_bind; [|intros ?]
  | |- calls_within _ _ (ptry _ _) => apply calls_in_try; [|intros ?]
  | |- calls_within _ _ (match ?x with _ => _ end) => destruct x
  | |- calls_within _ _ (let '_ := ?x in _) => destruct x
  | |- calls_within _ _ _ => solve [by repeat split]
  end.
Ltac uncounted := repeat uncounted_step.

Lemma drop_guard_uncounted : calls_within uncounted panics drop_guard.
Proof. unfold drop_guard. uncounted. Qed.

Lemma restore_uncounted p claimed e : calls_within uncounted panics (restore_pre_dispatch p claimed e).
Proof. unfold restore_pre_dispatch, restore_candidate, on_scheduler. uncounted. Qed.

Lemma ready_uncounted r : calls_within uncounted panics (ready r).
Proof. unfold ready. uncounted. Qed.

Lemma submit_uncounted claimed evaluated plan :
  calls_within uncounted panics (submit (L:=Local) claimed evaluated plan).
Proof. unfold submit. uncounted. Qed.

Lemma publish_uncounted a claimed prepared evaluated :
  calls_within uncounted panics (publish_model (L:=Local) a claimed prepared evaluated).
Proof. unfold publish_model. uncounted. apply submit_uncounted. Qed.

Lemma claimed_preparation_uncounted a pending claimed attempts purpose :
  calls_within uncounted panics (claimed_preparation a pending claimed attempts purpose).
Proof. unfold claimed_preparation, prepare_new. uncounted. Qed.

Lemma settle_uncounted a claimed attempt evaluated progress :
  calls_within uncounted panics (settle_decision_attempt a claimed attempt evaluated progress).
Proof. unfold settle_decision_attempt. uncounted. Qed.

(** *** The loop over the attempts *)

(** [k] requests were sent and answered. *)
Definition with_sends (k : N) (t : Tally) : Tally :=
  {| ta_last := ta_last t; ta_exhausted := ta_exhausted t; ta_reads := ta_reads t; ta_pages := ta_pages t;
     ta_starts := ta_starts t; ta_sent := ta_sent t + k; ta_received := ta_received t + k |}.

Lemma with_no_sends t : t = with_sends 0 t.
Proof. destruct t. unfold with_sends. simpl. by rewrite !N.add_0_r. Qed.

Variable t0 : Tally.
Variable maximum : N.
Hypothesis settled : ta_received t0 = ta_sent t0.
Hypothesis affordable : ta_sent t0 + maximum ≤ rl_attempts limits.

Definition counted_sends (k : N) (t : Tally) : Prop := t = with_sends k t0 ∧ k ≤ maximum.

Definition outcome_sends (r : result RunOutcome EvaluationTaskError) (st : LoopState) : N :=
  match r with Ok _ => ls_new_intents st | Err e => te_new_intents e end.

Definition settled_sends (r : result RunSettlement EvaluationTaskError) : N :=
  match r with Ok s => rs_new_intents s | Err e => te_new_intents e end.

Section loop.
Variable env : RunEnv.
Hypothesis env_limit : re_maximum_new_intents env = maximum.

(** A turn that goes on leaves a longer progress that is valid. *)
Definition turn_counts (rows : nat) (turn : Turn) (t : Tally) : Prop :=
  match turn with
  | Done r st => counted_sends (outcome_sends r st) t
  | Again st =>
      counted_sends (ls_new_intents st) t ∧ length (dp_attempts (ls_progress st)) = S rows ∧
      is_ok (validate_decision_progress (run_declarations env) (run_requirements env) (ls_progress st)) = true
  end.

Lemma done_counts rows st r t :
  counted_sends (ls_new_intents st) t → counting (turn_counts rows) (done_outcome st r) t.
Proof. intros Ht. unfold done_outcome. hstep. split; [done|]. by destruct r. Qed.

Lemma uncounted_then {A B} (Q : B → Tally → Prop) (p : task A) (f : A → task B) t :
  calls_within uncounted panics p → (∀ x, counting Q (f x) t) → counting Q (pbind p f) t.
Proof.
  intros Hp Hf. eapply hoare_bind; [by apply uncounted_counting|]. intros x t' _ ->. apply Hf.
Qed.

Lemma terminal_counts rows st terminal t :
  counted_sends (ls_new_intents st) t → counting (turn_counts rows) (terminal_turn env st terminal) t.
Proof.
  intros Ht. unfold terminal_turn. apply uncounted_then; [by repeat split|]. intros _.
  apply uncounted_then; [by repeat split|]. intros r. by apply done_counts.
Qed.

Lemma settle_counts st attempt evaluated t :
  counted_sends (ls_new_intents st) t →
  counting (turn_counts (length (dp_attempts (ls_progress st)))) (settle_turn env st attempt evaluated) t.
Proof.
  intros Ht. unfold settle_turn. apply uncounted_then; [apply settle_uncounted|].
  intros [[[[] o] d]|e]; [|by apply done_counts..].
  match goal with |- context [validate_decision_progress _ _ (ls_progress ?s)] => set (st' := s) end.
  destruct (validate_decision_progress _ _ (ls_progress st')) as [v|e] eqn:Ev; [|by apply done_counts].
  assert (turn_counts (length (dp_attempts (ls_progress st))) (Again st') t) as Hagain.
  { split_and!; [done|simpl; rewrite length_app; simpl; lia|by rewrite Ev]. }
  destruct (vp_state v); [| |by split];
    (apply uncounted_then; [by repeat split|]; intros _; apply uncounted_then; [by repeat split|];
     intros _; by split).
Qed.

Lemma dispatch_counts st attempt t :
  counted_sends (ls_new_intents st) t → ls_new_intents st < maximum →
  counting (turn_counts (length (dp_attempts (ls_progress st)))) (dispatch_turn env st attempt) t.
Proof.
  intros Ht Hlt. unfold dispatch_turn. apply uncounted_then; [by repeat split|]. intros _.
  apply uncounted_then; [by repeat split|]. intros [[]|e]; [|by apply done_counts|by split].
  apply uncounted_then; [by destruct (_ && _)|]. intros _. destruct Ht as [-> _].
  hstep. split_and!; [done|cbn; lia|]. intros x t1 ->. split_and!; [done|done|]. intros evaluated t2 ->.
  match goal with |- context [settle_turn _ ?s _ _] => apply (settle_counts s) end.
  split; cbn; [|lia]. unfold with_sends. simpl. by rewrite !N.add_assoc.
Qed.

Lemma next_counts st attempt unfinished t :
  counted_sends (ls_new_intents st) t →
  counting (turn_counts (length (dp_attempts (ls_progress st)))) (next_turn env st attempt unfinished) t.
Proof.
  intros Ht. unfold next_turn. rewrite env_limit.
  destruct (N.eqb_spec (maximum - ls_new_intents st) 0) as [|Hrem]; simpl orb; [|destruct (_ && _)].
  1,2: apply uncounted_then; [by repeat split|]; intros r; by apply done_counts.
  apply uncounted_then; [by repeat split|]. intros [[]|failure].
  - apply dispatch_counts; [done|lia].
  - apply uncounted_then; [by repeat split|]. intros r. by apply done_counts.
Qed.

Lemma run_turn_counts st t :
  counted_sends (ls_new_intents st) t →
  counting (turn_counts (length (dp_attempts (ls_progress st)))) (run_turn env st) t.
Proof.
  intros Ht. unfold run_turn.
  destruct (validate_decision_progress _ _ _) as [[n state]|e]; [|by apply done_counts].
  cbn [vp_attempts vp_state]. destruct (negb _); [by apply done_counts|].
  destruct state as [a u|evaluated|terminal]; [by apply next_counts| |by apply terminal_counts].
  apply uncounted_then; [by repeat split|]. intros _. apply uncounted_then; [apply publish_uncounted|].
  intros r. by apply done_counts.
Qed.

Lemma run_loop_counts fuel : ∀ st t,
  counted_sends (ls_new_intents st) t →
  (2 * length (run_declarations env) < fuel + length (dp_attempts (ls_progress st)))%nat →
  (fuel = 0%nat →
   is_ok (validate_decision_progress (run_declarations env) (run_requirements env) (ls_progress st)) = true) →
  counting (λ r t', counted_sends (outcome_sends r.1 r.2) t') (run_loop env fuel st) t.
Proof.
  induction fuel as [|fuel IH]; intros st t Ht Hfuel Hzero; cbn [run_loop].
  - specialize (Hzero eq_refl).
    destruct (validate_decision_progress _ _ (ls_progress st)) as [v|] eqn:Ev; [|done].
    apply validate_progress_spec in Ev as (answers & state & [_ Hrows _ _] & _).
    apply rows_bound in Hrows. lia.
  - eapply hoare_bind; [by apply run_turn_counts|]. intros [r st'|st'] t' _ Hturn; [by split|].
    destruct Hturn as (Ht' & Hlen & Hok). apply IH; [done|lia|done].
Qed.

Lemma model_future_counts progress attempts :
  counting (λ r, counted_sends (settled_sends r)) (model_future env progress attempts) t0.
Proof.
  unfold model_future. apply uncounted_then; [by repeat split|]. intros _.
  eapply hoare_bind; [apply run_loop_counts|].
  - split; [by apply with_no_sends|apply N.le_0_l].
  - unfold run_fuel. simpl. lia.
  - done.
  - intros [[outcome|e] st] t _ Ht.
    + apply uncounted_then; [by repeat split|]. intros _.
      apply uncounted_then; [apply drop_guard_uncounted|]. by split.
    + apply uncounted_then; [apply drop_guard_uncounted|]. by split.
Qed.
End loop.
End tasks.

(** *** From the reservation to the future *)

Section starting.
Context `{SerdeNumber, UnicodeData, JsonDeserializer, !RecordWriter}.
Variable limits : ReplayLimits.
Variable maximum : N.

Notation counting := (hoare task_step (task_require limits) (λ _, True) panics).

(** A tally from which [maximum] requests are left. *)
Definition affords (t : Tally) : Prop :=
  ta_received t = ta_sent t ∧ ta_sent t + maximum ≤ rl_attempts limits.

(** What starting gives: the future sends within [maximum], and its result says
    how many. *)
Definition future_counts (f : task (result RunSettlement EvaluationTaskError)) (t : Tally) : Prop :=
  counting (λ r, counted_sends t maximum (settled_sends r)) f t.

Definition started_counts (r : result StartOutcome StoreError) (t : Tally) : Prop :=
  match r with Ok (Started future) => future_counts future t | _ => True end.

Definition start_counts {L} (p : prog engine_call L (result StartOutcome StoreError)) (t : Tally) : Prop :=
  hoare task_step (task_require limits) (λ _, True) panics (λ r t', t' = t ∧ started_counts r t') p t.

Lemma ready_counts r t : settled_sends r = 0 → future_counts (ready r) t.
Proof.
  intros Hr. apply uncounted_then; [by repeat split|]. intros _. split; [done|]. rewrite Hr.
  split; [apply with_no_sends|apply N.le_0_l].
Qed.

Lemma restored_counts p claimed e t :
  start_counts (call! error := restore_pre_dispatch p claimed e in Ret (Err error)) t.
Proof. apply uncounted_then; [apply restore_uncounted|]. by split. Qed.

(** Changes of the state before something that counts. *)
Ltac uncounted_first := apply uncounted_then; [by repeat split|].

(** A preparation that settles has sent nothing. *)
Lemma prepare_claimed_counts activation pending claimed attempts purpose t :
  counting (λ r t', t' = t ∧ ∀ s, r = Ok (PreflightSettled s) → rs_new_intents s = 0)
    (prepare_claimed activation pending claimed attempts purpose) t.
Proof.
  unfold prepare_claimed, ptry at 1. apply uncounted_then; [apply claimed_preparation_uncounted|].
  intros [[record|]|e]; [|by split..].
  apply uncounted_then.
  { destruct record as [p|l|f]; [|done..]. apply calls_in_try; [done|]. intros _. by apply calls_in_try. }
  intros [p|failure]; [by split|]. apply uncounted_then; [by repeat split|].
  intros [recorded|e]; (split; [done|]; split; [done|]); [by intros s [= <-]|done].
Qed.

Lemma start_model_counts activation now policy pending claimed t :
  affords t → start_counts (start_model activation now maximum policy pending claimed) t.
Proof.
  intros [Hs Ha]. unfold start_counts, start_model. uncounted_first. intros [progress|e]; [|apply restored_counts].
  destruct (validate_decision_progress _ _ progress) as [validated|e].
  2:{ unfold start_invalid. uncounted_first. intros recorded. uncounted_first. intros _. split_and!; [done|done|].
      apply ready_counts. by destruct recorded. }
  eapply hoare_bind; [apply prepare_claimed_counts|]. intros [[prepared|settlement|]|e] t' _ [-> Hz].
  - uncounted_first. intros _. split_and!; [done|done|]. by apply model_future_counts.
  - uncounted_first. intros _. uncounted_first. intros _. split_and!; [done|done|]. apply ready_counts. by apply Hz.
  - uncounted_first. by split.
  - apply uncounted_then; [apply restore_uncounted|]. intros source. split_and!; [done|done|]. by apply ready_counts.
Qed.

Lemma local_future_counts activation pending claimed prepared t :
  future_counts (local_future activation pending claimed prepared) t.
Proof.
  unfold future_counts, local_future. uncounted_first. intros _.
  apply uncounted_then.
  { apply calls_in_bind; [by repeat split|]. intros current. destruct (negb current); [done|].
    destruct (plan_with_budget _ _ _ _ _) as [actions|e]; [|apply submit_uncounted].
    apply calls_in_bind; [by repeat split|]. intros current'. destruct (negb current'); [done|apply submit_uncounted]. }
  assert (counted_sends t maximum 0 t) as H0' by (split; [apply with_no_sends|apply N.le_0_l]).
  intros [outcome|source].
  - uncounted_first. intros _. apply uncounted_then; [apply drop_guard_uncounted|]. by split.
  - apply uncounted_then; [apply drop_guard_uncounted|]. by split.
Qed.

Lemma start_local_counts activation now policy pending claimed t :
  start_counts (start_local activation now policy pending claimed) t.
Proof.
  unfold start_counts, start_local. uncounted_first. intros current. destruct (negb current).
  { uncounted_first. intros [[]|e]; [| |apply restored_counts];
      (uncounted_first; intros _; uncounted_first; by split). }
  destruct (local_condition_failure _ _) as [failure|].
  - uncounted_first. intros [recorded|e]; [|apply restored_counts].
    uncounted_first. intros _. uncounted_first. intros _. split_and!; [done|done|]. by apply ready_counts.
  - uncounted_first. intros [[]|e]; [| |apply restored_counts].
    + uncounted_first. intros _. split_and!; [done|done|]. apply local_future_counts.
    + uncounted_first. intros _. uncounted_first. by split.
Qed.

(** The claim is counted. *)
Definition with_start (t : Tally) : Tally :=
  {| ta_last := ta_last t; ta_exhausted := ta_exhausted t; ta_reads := ta_reads t; ta_pages := ta_pages t;
     ta_starts := ta_starts t + 1; ta_sent := ta_sent t; ta_received := ta_received t |}.

Definition claim_counts (t : Tally) (r : result StartOutcome StoreError) (t' : Tally) : Prop :=
  (t' = t ∨ t' = with_start t) ∧
  match r with Ok (Started future) => t' = with_start t ∧ future_counts future t' | _ => True end.

Lemma start_claimed_counts activation now policy pending t :
  affords t → ta_starts t < rl_evaluations limits →
  counting (claim_counts t) (start_claimed activation now maximum policy pending) t.
Proof.
  intros Ht Hlt. unfold start_claimed. hstep. split_and!; [done|done|]. intros claim t1 ->. cbn [task_count].
  assert (affords (with_start t)) as Ht1 by done.
  destruct claim as [[claimed|retry|]|e].
  2-4: uncounted_first; intros _; uncounted_first; by split; [|split; [right|]].
  destruct (is_local _).
  - eapply hoare_mono; [apply start_local_counts|]. intros [[]|] t' _ [-> Hr]; by split; [right|].
  - eapply hoare_mono; [by apply start_model_counts|]. intros [[]|] t' _ [-> Hr]; by split; [right|].
Qed.

Lemma start_reserved_counts activation now policy pending t :
  affords t → ta_starts t < rl_evaluations limits →
  counting (claim_counts t) (start_reserved activation now maximum policy pending) t.
Proof.
  intros Ht Hlt. unfold start_reserved. uncounted_first. intros [previous|]; [|by apply start_claimed_counts].
  uncounted_first. intros [released|e].
  - uncounted_first. intros _. by apply start_claimed_counts.
  - uncounted_first. intros _. uncounted_first. by split; [|split; [left|]].
Qed.
End starting.

(** ** Services *)

Section services.
Context `{SerdeNumber, UnicodeData, JsonDeserializer, !CandidateDigest, !RecordWriter}.
Variable limits : ReplayLimits.
Variable activation : EffectiveActivation.

(** A page is committed for the event that was read last, within the limit, and
    when no request is waiting. *)
Definition service_require (X : Type) (c : service_call X) (t : Tally) : Prop :=
  match c with
  | ApplySourcePage a _ page _ _ _ =>
      a = activation ∧ ta_reads t = ta_pages t + 1 ∧ ta_pages t < rl_events limits ∧
      ta_received t = ta_sent t ∧ event_cursor <$> ta_last t = Some (sb_next page)
  | Evaluation c => task_require limits _ c t
  | _ => True
  end.

Notation counting := (hoare service_step service_require (λ _, True) panics).

Definition uncounted_service (X : Type) (c : service_call X) : Prop :=
  match c with
  | ApplySourcePage _ _ _ _ _ _ => False
  | Evaluation c => uncounted _ c
  | _ => True
  end.

Lemma uncounted_service_counting {A} (p : service A) t :
  calls_in uncounted_service p → counting (λ _ t', t' = t) p t.
Proof.
  intros Hp. eapply (calls_in_hoare uncounted_service _ _ _ (λ t', t' = t)); [done| | |exact Hp|done].
  - intros X c g Hc _. destruct c as [| | | | |Y c]; try done. by destruct c.
  - intros X c x g g' Hc -> ->. destruct c as [| | | | |Y c]; try done. by destruct c.
Qed.

(** *** A page *)

Definition with_page (t : Tally) : Tally :=
  {| ta_last := ta_last t; ta_exhausted := ta_exhausted t; ta_reads := ta_reads t; ta_pages := ta_pages t + 1;
     ta_starts := ta_starts t; ta_sent := ta_sent t; ta_received := ta_received t |}.

Definition page_counts {A E} (t : Tally) (r : result A E) (t' : Tally) : Prop :=
  match r with Ok _ => t' = with_page t | Err _ => t' = t ∨ t' = with_page t end.

Lemma commit_page_counts selectors progress page t :
  service_require _ (ApplySourcePage activation (head progress) page [] progress []) t →
  counting (λ r, page_counts t r.2)
    (commit_page (λ _ _, ret None) activation selectors progress page tt) t.
Proof.
  intros Hreq. unfold commit_page. destruct (validate_source_page progress page) as [[]|e]; [|by split; [|left]].
  destruct (apply_events _ _ _ _ _) as [[l|[e|]] p]; [|by split; [|left]|done].
  hstep. split_and!; [done|exact Hreq|]. intros [[]|e] t' ->; (split; [done|]); [done|by right].
Qed.

Lemma page_service_counts selectors page t :
  service_require _ (ApplySourcePage activation (head SourceProgress_default) page [] SourceProgress_default []) t →
  counting (λ r, page_counts t r.2) (apply_source_page activation selectors page) t.
Proof.
  intros Hreq. unfold apply_source_page, apply_source_page_with_inventories.
  apply (hoare_bind _ _ _ _ (λ r, page_counts t r.2)).
  - unfold apply_page_locked. destruct (selectors !! ea_id activation); [by apply commit_page_counts|].
    apply hoare_call; [done|done|]. intros [progress|e] t' ->; [by apply commit_page_counts|by split; [|left]].
  - intros [[sel h] [applied|e]] t' _ Ht; [|by split]. cbn [snd page_counts] in Ht. subst t'.
    eapply hoare_bind; [apply uncounted_service_counting; by destruct (ap_resets applied)|].
    intros _ ? _ ->. eapply hoare_bind.
    + apply uncounted_service_counting. eapply calls_in_mono; [|by apply (admit_all_calls (λ _, True)), Forall_true].
      intros X c Hc. destruct c as [| | | | |Y c]; try done. by destruct c.
    + intros [o|e] ? _ ->; (split; [done|]); [done|by right].
Qed.

(** *** The start of a candidate *)

Variable maximum : N.

Lemma guarded_counts {A} (Q : A → Tally → Prop) g (p : task A) t :
  hoare task_step (task_require limits) (λ _, True) panics Q p t → counting (λ r, Q r.1) (guarded g p) t.
Proof. intros Hp. unfold guarded. eapply embed_hoare; [| |exact Hp]; [by intros X c x t1 t2|done]. Qed.

Definition service_started (t : Tally) (r : result (StartOutcome * option InFlightGuard) StoreError)
    (t' : Tally) : Prop :=
  (t' = t ∨ t' = with_start t) ∧
  match r with
  | Ok (Started future, Some g) =>
      t' = with_start t ∧ counting (λ s, counted_sends t' maximum (settled_sends s)) (await_task g future) t'
  | _ => True
  end.

Lemma start_service_counts now ready policy t :
  affords limits maximum t → ta_starts t < rl_evaluations limits →
  counting (service_started t) (start_one_due_matching activation now maximum ready policy) t.
Proof.
  intros Ht Hlt. unfold start_one_due_matching.
  eapply hoare_bind; [by apply uncounted_service_counting|]. intros [[g pending]|] ? _ ->.
  2:{ split; [done|]. by split; [left|]. }
  eapply hoare_bind; [by apply guarded_counts, start_reserved_counts|].
  intros [[outcome|e] g'] t' _ [Hclaim Hst]; (split; [done|]; split; [done|]); [|done].
  destruct outcome as [| |future]; [done|done|]. destruct Hst as [-> Hst]. split; [done|]. unfold await_task.
  eapply hoare_bind; [apply guarded_counts; exact Hst|]. intros [s g2] t2 _ Hs. by split.
Qed.
End services.

(** ** The replay *)

Section replays.
Context `{SerdeNumber, UnicodeData, JsonDeserializer, !CandidateDigest, !RecordWriter}.
Variable limits : ReplayLimits.
Variable activation : EffectiveActivation.

(** The limit is a [usize]. *)
Hypothesis attempts_usize : rl_attempts limits ≤ USIZE_MAX.

(** Before the next event is asked for, every event that was read is committed
    and every request is answered. *)
Definition at_rest (t : Tally) : Prop :=
  ta_pages t = ta_reads t ∧ ta_received t = ta_sent t ∧ ta_reads t ≤ rl_events limits.

Definition replay_require (X : Type) (c : replay_call X) (t : Tally) : Prop :=
  match c with
  | IsCancelled | NextEvent => at_rest t
  | Serve c => service_require limits activation _ c t
  end.

Notation counting := (hoare replay_step replay_require (λ _, True) panics).

Lemma serving_counts {A} (Q : A → Tally → Prop) (p : service A) t :
  hoare service_step (service_require limits activation) (λ _, True) panics Q p t →
  counting (λ r, Q r.1) (serving p) t.
Proof. intros Hp. unfold serving. eapply embed_hoare; [| |exact Hp]; [by intros X c x t1 t2|done]. Qed.

(** The report of a run that goes on. *)
Record report_ok (r : ReplayReport) (t : Tally) : Prop := {
  ro_limits : rp_limits r = limits;
  ro_end : rp_end r = ReplayComplete;
  ro_events : rp_events r = ta_pages t;
  ro_evaluations : rp_evaluations r = ta_starts t;
  ro_attempts : rp_attempts r = ta_sent t;
  ro_received : ta_received t = ta_sent t;
  ro_limit : ta_sent t ≤ rl_attempts limits
}.

(** The report of a run that has ended. *)
Record report_final (r : ReplayReport) (t : Tally) : Prop := {
  rf_limits : rp_limits r = limits;
  rf_attempts : rp_attempts r = ta_sent t;
  rf_received : ta_received t = ta_sent t;
  rf_events : rp_events r ≤ ta_pages t ≤ rp_events r + 1;
  rf_evaluations : rp_evaluations r ≤ ta_starts t ≤ rp_evaluations r + 1;
  rf_steps : N.of_nat (length (rp_steps r)) = rp_events r;
  rf_complete : rp_end r = ReplayComplete →
    ta_exhausted t = true ∧ rp_events r = ta_reads t ∧ rp_events r = ta_pages t ∧
    rp_evaluations r = ta_starts t
}.

(** Only the end, the evaluations and the attempts of the report change. *)
Definition same_steps (r r' : ReplayReport) : Prop :=
  rp_limits r' = rp_limits r ∧ rp_events r' = rp_events r ∧ rp_steps r' = rp_steps r.

Definition same_page (t t' : Tally) : Prop :=
  ta_last t' = ta_last t ∧ ta_exhausted t' = ta_exhausted t ∧ ta_reads t' = ta_reads t ∧ ta_pages t' = ta_pages t.

Record settled_counts (r : ReplayReport) (t : Tally) (r' : ReplayReport) (t' : Tally) : Prop := {
  sc_report : same_steps r r';
  sc_page : same_page t t';
  sc_attempts : rp_attempts r' = ta_sent t';
  sc_received : ta_received t' = ta_sent t';
  sc_limit : ta_sent t' ≤ rl_attempts limits;
  sc_starts : ta_starts t' ≤ rl_evaluations limits;
  sc_evaluations : rp_evaluations r' ≤ ta_starts t' ≤ rp_evaluations r' + 1;
  sc_complete : rp_end r' = ReplayComplete → rp_evaluations r' = ta_starts t'
}.

Definition settles (r : ReplayReport) (t : Tally) (x : result (ReplayReport * option RunOutcome) StoreError)
    (t' : Tally) : Prop :=
  match x with Err _ => False | Ok (r', _) => settled_counts r t r' t' end.

Lemma settle_report_ok s r :
  rp_attempts r + settled_sends s ≤ USIZE_MAX →
  ∃ r' o, settle_report s r = Ok (r', o) ∧ same_steps r r' ∧ rp_evaluations r' = rp_evaluations r ∧
    rp_attempts r' = rp_attempts r + settled_sends s.
Proof.
  intros Hle. unfold settle_report, add_attempts.
  destruct s as [settlement|e]; cbn [settled_sends] in *;
    (destruct (N.ltb_spec USIZE_MAX (rp_attempts r + rs_new_intents settlement)) ||
     destruct (N.ltb_spec USIZE_MAX (rp_attempts r + te_new_intents e))); [lia| |lia|];
    eexists _, _; (split; [reflexivity|]).
  - by destruct (rs_outcome settlement).
  - done.
Qed.

Lemma evaluate_counts r t :
  report_ok r t → ta_starts t < rl_evaluations limits →
  counting (settles r t) (evaluate_step activation r) t.
Proof.
  intros [Hl He Hev Hevs Hat Hrec Hlim] Hlt. unfold evaluate_step. rewrite Hl, Hat.
  assert (affords limits (rl_attempts limits - ta_sent t) t) as Ha by (split; [done|lia]).
  eapply hoare_bind; [by apply serving_counts, start_service_counts|].
  intros [started []] t' _ [Ht' Hs]; cbn [fst] in *.
  assert (same_page t t' ∧ ta_sent t' = ta_sent t ∧ ta_received t' = ta_sent t ∧
          ta_starts t ≤ ta_starts t' ≤ ta_starts t + 1) as (Hpage & Hsent & Hr & Hstarts)
    by (destruct Ht' as [->| ->]; simpl; split_and!; try done; lia).
  assert (∀ e, e ≠ ReplayComplete → settles r t (Ok (set_end e r, None)) t') as Hstop.
  { intros e Hne. split; try done; simpl; lia. }
  destruct started as [[[| |future] [g|]]|e]; try (split; [done|]; by apply Hstop).
  destruct Hs as [-> Hs]. eapply hoare_bind; [by apply serving_counts|]. intros [s []] t2 _ [-> Hk]. cbn [fst] in Hk |- *.
  destruct (settle_report_ok s (add_evaluation r)) as (r' & o & -> & Hsame & Hevs' & Hat'); [simpl; lia|].
  simpl in Hevs', Hat'. split; [done|]. split; simpl; try done; try lia.
Qed.

Lemma settle_event_counts applied r t :
  report_ok r t → ta_starts t ≤ rl_evaluations limits →
  counting (settles r t) (settle_event activation applied r) t.
Proof.
  intros Hr Hle. pose proof Hr as [Hl He Hev Hevs Hat Hrec Hlim]. unfold settle_event.
  destruct (0 <? _); [|by split; [|split; simpl; try done; lia]].
  destruct (N.leb_spec (rl_evaluations (rp_limits r)) (rp_evaluations r)) as [|Hlt].
  - split; [done|]. split; simpl; try done; lia.
  - apply evaluate_counts; [done|]. by rewrite Hl, Hevs in Hlt.
Qed.

Definition counted_steps (r : ReplayReport) : Prop := N.of_nat (length (rp_steps r)) = rp_events r.

(** At the head of the loop. *)
Record loop_ready (r : ReplayReport) (t : Tally) : Prop := {
  lr_report : report_ok r t;
  lr_steps : counted_steps r;
  lr_pages : ta_pages t = ta_reads t;
  lr_reads : ta_reads t ≤ rl_events limits;
  lr_starts : ta_starts t ≤ rl_evaluations limits
}.

Definition event_counts (n : N) (x : result (ReplayReport * Selectors) StoreError) (t : Tally) : Prop :=
  match x with
  | Err _ => False
  | Ok (r, _) => (rp_end r = ReplayComplete ∧ ta_reads t = n ∧ loop_ready r t) ∨ (rp_end r ≠ ReplayComplete ∧ report_final r t)
  end.

Lemma end_dec (e : ReplayEnd) : e = ReplayComplete ∨ e ≠ ReplayComplete.
Proof. destruct e; [by left|by right..]. Qed.

(** A step that was settled. *)
Lemma pushed_counts r t r' t' step s :
  ta_reads t' = ta_pages t' → ta_reads t' ≤ rl_events limits → rp_limits r = limits → rp_events r = ta_pages t → N.of_nat (S (length (rp_steps r))) = rp_events r →
  settled_counts r t r' t' → event_counts (ta_reads t') (Ok (push_step step r', s)) t'.
Proof.
  intros Hrp Hre Hl Hev Hsteps [(Hl' & Hev' & Hsteps') (_ & _ & _ & Hpages) Hat Hrec Hlim Hst Hevs Hc].
  assert (counted_steps (push_step step r')) as Hcount
    by (unfold counted_steps; simpl; rewrite length_app, Hsteps', Hev'; simpl; lia).
  destruct (end_dec (rp_end r')) as [He|He]; [left|right]; (split; [done|]).
  - split; [done|]. split; [split|..]; simpl; try done; [congruence|congruence|by apply Hc].
  - split; simpl; try done; [congruence|rewrite Hev'; lia].
Qed.

Lemma replay_event_counts event selectors r t :
  report_ok r t → counted_steps r → ta_reads t = ta_pages t + 1 → ta_pages t < rl_events limits →
  ta_starts t ≤ rl_evaluations limits → ta_last t = Some event →
  counting (event_counts (ta_reads t)) (replay_event activation event selectors r) t.
Proof.
  intros [Hl He Hev Hevs Hat Hrec Hlim] Hsteps Hreads Hlt Hle Hlast. unfold replay_event.
  eapply hoare_bind.
  { apply serving_counts, page_service_counts. split_and!; try done. by rewrite Hlast. }
  intros [[[sel h] [applied|e]] []] t1 _ Ht1; cbn [fst snd page_counts] in Ht1.
  2:{ split; [done|]. right. split; [done|]. destruct Ht1 as [->| ->]; split; simpl; try done; lia. }
  subst t1. set (r1 := add_event r). set (t1 := with_page t).
  eapply hoare_bind; [apply settle_event_counts|].
  - split; simpl; try done. lia.
  - done.
  - intros [[r2 o]|e] t2 _ Hs; [|done]. split; [done|]. cbn [settles] in Hs.
    pose proof Hs as [_ (_ & _ & Hreads2 & Hpages2) _ _ _ _ _ _]. simpl in Hreads2, Hpages2.
    assert (ta_reads t = ta_reads t2) as -> by done. eapply (pushed_counts r1 t1); [lia|lia|done|simpl; lia|unfold counted_steps in Hsteps; simpl; lia|exact Hs].
Qed.

(** The fuel is enough: every event that the loop goes on after is counted. *)
Lemma replay_loop_counts fuel : ∀ selectors r t,
  loop_ready r t → rl_events limits < N.of_nat fuel + ta_reads t →
  counting (λ x t', match x with Ok r => report_final r t' | Err _ => False end)
    (replay_loop fuel activation selectors r) t.
Proof.
  induction fuel as [|fuel IH]; intros selectors r t Hr Hfuel; [destruct Hr; lia|].
  pose proof Hr as [[Hl He Hev Hevs Hat Hrec Hlim] Hsteps Hpages Hreads Hstarts].
  assert (∀ e t', e ≠ ReplayComplete → ta_pages t' = ta_pages t → ta_starts t' = ta_starts t →
    ta_sent t' = ta_sent t → ta_received t' = ta_received t → report_final (set_end e r) t') as Hstop.
  { intros e t' Hne Hp Hs Hse Hre. unfold counted_steps in Hsteps.
    split; simpl; rewrite ?Hp, ?Hs, ?Hse, ?Hre; try done; lia. }
  cbn [replay_loop]. apply hoare_call; [done|done|]. intros cancelled t1 ->. cbn [replay_count].
  destruct cancelled; [split; [done|]; by apply Hstop|].
  apply hoare_call; [done|done|]. intros next t1 ->. cbn [replay_count].
  destruct next as [[event|]|e]; cbn [read_count].
  - destruct (N.leb_spec (rl_events (rp_limits r)) (rp_events r)) as [|Hlt].
    { split; [done|]. by apply Hstop. }
    rewrite Hl, Hev in Hlt. eapply hoare_bind.
    { apply replay_event_counts; [by split|done|simpl; lia|done|done|done]. }
    intros [[r2 sel]|e] t2 _ Hevent; [|done]. destruct Hevent as [(He2 & Hn & Hr2)|[He2 Hr2]].
    + rewrite He2. apply IH; [done|]. simpl in Hn. lia.
    + assert (negb (is_complete (rp_end r2)) = true) as -> by (by destruct (rp_end r2)). exact (conj I Hr2).
  - split; [done|]. unfold counted_steps in Hsteps.
    split; simpl; try done; try lia.
  - split; [done|]. by apply Hstop.
Qed.

Lemma replay_counts run_id a :
  activation = replay_activation run_id a →
  counting (λ x t', match x with Ok r => report_final r t' | Err _ => t' = no_calls end)
    (replay run_id a limits) no_calls.
Proof.
  intros Ha. unfold replay. destruct (is_blank _); [done|]. rewrite <- Ha. eapply hoare_bind.
  { apply serving_counts, uncounted_service_counting. unfold persist_activation.
    apply calls_in_bind; [by split|]. by intros [[]|e]. }
  intros [[selectors [[]|e]] []] t _ ->; [|done].
  eapply hoare_mono; [apply replay_loop_counts|].
  - split; [split|..]; simpl; try done; lia.
  - unfold replay_fuel. simpl. lia.
  - by intros [r|e] t' _ Hr.
Qed.
End replays.

(** ** Properties of replays (crates/antiburn-checks/src/replay.rs)

    The bounds of a replay and the order of its calls, for every source, store
    and evaluator, and a sample replay. *)

Section properties.
Context `{SerdeNumber, UnicodeData, JsonDeserializer, !CandidateDigest, !RecordWriter}.
Variable limits : ReplayLimits.

(** The limits are [usize]s. *)
Hypothesis attempts_usize : rl_attempts limits ≤ USIZE_MAX.

Lemma tally_app tr e : tally (tr ++ [e]) = match e with Ev c x => replay_count c x (tally tr) end.
Proof. unfold tally. by rewrite fold_left_app. Qed.

(** What every call of a run requires, at the tally of the calls before it. *)
Lemma replay_requires run_id a tr p e before after :
  runs (replay run_id a limits) tr p → tr = (before ++ e :: after)%list →
  required (replay_require limits (replay_activation run_id a)) e (tally before).
Proof.
  intros Hrun Htr.
  pose proof (replay_counts limits (replay_activation run_id a) attempts_usize run_id a eq_refl) as Hp.
  exact (proj2 (hoare_calls _ _ _ _ _ _ _ _ _ _ _ _ _ Hp Hrun Htr (tally_steps before no_calls))).
Qed.

Record in_limits (t : Tally) : Prop := {
  il_reads : ta_reads t ≤ rl_events limits + 1;
  il_pages : ta_pages t ≤ rl_events limits;
  il_starts : ta_starts t ≤ rl_evaluations limits;
  il_sent : ta_sent t ≤ rl_attempts limits
}.

Lemma count_in_limits activation X (c : replay_call X) x t :
  replay_require limits activation X c t → in_limits t → in_limits (replay_count c x t).
Proof.
  intros Hr [Hreads Hpages Hstarts Hsent]. destruct c as [| |Y c]; simpl in *; [done| |].
  - destruct Hr as (_ & _ & Hr). destruct x as [[e|]|e]; (split; simpl; try done; lia).
  - destruct c as [| | | | |Z c]; try done; simpl in *; [split; simpl; lia|].
    destruct c; try done; split; simpl in *; lia.
Qed.

(** C18: a replay is bounded and ends.  Whatever the source, the store and the
    evaluator answer, a run of a replay reads at most one event more than the
    limit on events, commits a page for at most as many, claims at most as many
    candidates as evaluations are allowed, and sends no request past the limit on
    attempts, over all evaluations together; it stops early only by a panic of a
    part.  The report says exactly how many requests were sent, and a report
    that is complete was given the end of the source and has applied every event
    and settled every candidate. *)
Theorem replay_bounded run_id a tr p :
  runs (replay run_id a limits) tr p →
  in_limits (tally tr) ∧
  match p with
  | Ret (Ok report) => report_final limits report (tally tr)
  | Ret (Err _) => tally tr = no_calls
  | Halt why => why = Panics
  | _ => True
  end.
Proof.
  intros Hrun. split.
  - assert (∀ before after, tr = (before ++ after)%list → in_limits (tally before)) as Hall.
    { intros before. induction before as [|[X c x] before IH] using rev_ind; intros after Htr.
      - split; simpl; lia.
      - rewrite <- app_assoc in Htr. rewrite tally_app.
        eapply count_in_limits; [exact (replay_requires _ _ _ _ (Ev c x) _ _ Hrun Htr)|by eapply IH]. }
    apply (Hall tr []). by rewrite app_nil_r.
  - pose proof (replay_counts limits (replay_activation run_id a) attempts_usize run_id a eq_refl) as Hp.
    destruct (hoare_sound _ _ _ _ _ _ _ _ _ _ Hp Hrun (tally_steps tr no_calls)) as [_ Hpost].
    by destruct p as [[report|e]|X f k|X c k|why].
Qed.

(** C19: a replay settles one event before it reads the next.  When the source is
    asked, every event that was read before is committed and every request that
    was sent is answered; a page is committed for the run's own activation, right
    after the event it holds was read; and a request is sent only when no other
    one is waiting. *)
Theorem replay_sequential run_id a tr p before after :
  runs (replay run_id a limits) tr p →
  (∀ x, tr = (before ++ Ev NextEvent x :: after)%list →
   ta_pages (tally before) = ta_reads (tally before) ∧ ta_received (tally before) = ta_sent (tally before)) ∧
  (∀ b head page committed next candidates x,
   tr = (before ++ Ev (Serve (ApplySourcePage b head page committed next candidates)) x :: after)%list →
   b = replay_activation run_id a ∧ ta_reads (tally before) = ta_pages (tally before) + 1 ∧
   event_cursor <$> ta_last (tally before) = Some (sb_next page) ∧
   ta_received (tally before) = ta_sent (tally before)) ∧
  (∀ b c prepared attempt x,
   tr = (before ++ Ev (Serve (Evaluation (Send b c prepared attempt))) x :: after)%list →
   ta_received (tally before) = ta_sent (tally before)).
Proof.
  intros Hrun. split_and!.
  - intros x Htr. by destruct (replay_requires _ _ _ _ _ _ _ Hrun Htr) as (? & ? & _).
  - intros b head page committed next candidates x Htr.
    by destruct (replay_requires _ _ _ _ _ _ _ Hrun Htr) as (? & ? & _ & ? & ?).
  - intros b c prepared attempt x Htr. by destruct (replay_requires _ _ _ _ _ _ _ Hrun Htr) as [_ ?].
Qed.
End properties.

(** ** A sample replay

    The first request fails in a way that is safe to repeat, the second one is
    answered; the source would go on, so the run ends at its limit. *)

Section sample.
#[local] Existing Instance text_numbers.
#[local] Existing Instance ascii_unicode.
#[local] Existing Instance no_json.
#[local] Existing Instance Sample.sample_digest.
#[local] Existing Instance short_writer.

Definition replayed_source : PublishedEvidenceSource :=
  {| reader := λ _, Ok {| pb_events := [message_event 5 "m1"]; pb_next := 5; pb_has_more := false |};
     page_size := 10 |}.

Definition replayed_event : SourceEvent :=
  match @read_batch _ _ compact_writer replayed_source 0 with
  | Ok page => hd (SourceIgnored 5) (sb_events page)
  | Err _ => SourceIgnored 5
  end.

(** The sample check on the last user message. *)
Definition replayed_activation : EffectiveActivation :=
  {| ea_id := {| a_scope := ActivationScope_default; a_definition_id := "sample"; a_generation := 1 |};
     ea_revision := [1; 255]; ea_definition_scope := GlobalScope; ea_source_paths := [];
     ea_project_root := None;
     ea_compiled :=
       {| cc_name := "sample"; cc_description := None; cc_condition := None;
          cc_trigger :=
            {| tr_family := Messages false (Some Sample.any_message) None None; tr_tools := None;
               tr_statuses := None; tr_models := None; tr_fast_mode := None; tr_paths := None;
               tr_paths_ignore := None; tr_window := Some {| w_size := 1; w_minimum := 1 |};
               tr_cooldown := 60000 |};
          cc_decisions := cc_decisions sample_check; cc_actions := cc_actions sample_check |};
     ea_bootstrap_position := 4; ea_bootstrap_publication := 4 |}.

Definition replay_answer (X : Type) (c : replay_call X) : X :=
  match c in replay_call X return X with
  | IsCancelled => false
  | NextEvent => Ok (Some replayed_event)
  | @Serve _ X c =>
      match c in service_call X return X with
      | Activate _ _ _ => Ok tt
      | LoadSourceProgress _ => Ok SourceProgress_default
      | ApplySourcePage _ _ _ _ _ _ => Ok tt
      | RecordOverflow _ => Ok tt
      | LoadRecovery _ _ => Ok []
      | Evaluation c => sample_call _ c
      end
  end.

Definition replayed_limits : ReplayLimits := {| rl_events := 1; rl_evaluations := 1; rl_attempts := 2 |}.

Definition replayed_run : ReplayRunId := {| replay_run_id := "run" |}.

Definition replayed :=
  interpret replay_answer (replay replayed_run replayed_activation replayed_limits) SchedulerState_default.

Definition replay_trace : list (event replay_call) := replayed.1.1.

Definition report_summary (r : result ReplayReport StoreError + stop) :=
  match r with
  | inl (Ok r) => Some (rp_definition_revision r, rp_end r, (rp_events r, rp_evaluations r, rp_attempts r), rp_steps r)
  | _ => None
  end.

(** The report: two attempts of one evaluation, which was accepted. *)
Example replayed_report :
  report_summary replayed.1.2 =
    Some ("01ff", ReplayLimitReached, (1, 1, 2),
          [{| st_cursor := 5; st_candidates := 1; st_outcome := Some RunAccepted |}]).
Proof. vm_refl. Qed.

Lemma replay_runs : ∃ p, runs (replay replayed_run replayed_activation replayed_limits) replay_trace p.
Proof.
  pose proof (interpret_runs replay_answer (replay replayed_run replayed_activation replayed_limits)
                SchedulerState_default) as Hr.
  unfold replay_trace. fold replayed in Hr. destruct replayed as [[tr r] l]. by eexists.
Qed.

Lemma usize_attempts : rl_attempts replayed_limits ≤ USIZE_MAX.
Proof. by vm_compute. Qed.

Lemma replay_bounded_witness :
  in_limits replayed_limits (tally replay_trace) ∧ ta_sent (tally replay_trace) = 2.
Proof.
  destruct replay_runs as [p Hp].
  destruct (replay_bounded replayed_limits usize_attempts replayed_run replayed_activation replay_trace p Hp)
    as [Hl _].
  split; [exact Hl|vm_refl].
Defined.

(** The second read of the source: the last call of the run. *)
Definition all_but_last {A} (l : list A) : list A := take (length l - 1) l.

Definition pick_read (e : event replay_call) : option (result (option SourceEvent) string) :=
  match e with
  | Ev c x => match c in replay_call X return X → _ with NextEvent => λ x, Some x | _ => λ _, None end x
  end.

Lemma last_read (tr : list (event replay_call)) :
  is_some (last tr ≫= pick_read) = true → ∃ x, tr = (all_but_last tr ++ [Ev NextEvent x])%list.
Proof.
  destruct tr as [|e tr _] using rev_ind; [done|]. rewrite last_snoc. simpl. intros He.
  destruct e as [X c x]. destruct c; simpl in He; try done. exists x. unfold all_but_last.
  rewrite length_app, Nat.add_sub. by rewrite take_app_length.
Qed.

Lemma replay_sequential_witness :
  ta_pages (tally (all_but_last replay_trace)) = ta_reads (tally (all_but_last replay_trace)) ∧
  ta_reads (tally (all_but_last replay_trace)) = 1 ∧ ta_sent (tally (all_but_last replay_trace)) = 2.
Proof.
  destruct replay_runs as [p Hp]. assert (is_some (last replay_trace ≫= pick_read) = true) as Hlast by vm_refl.
  destruct (last_read replay_trace Hlast) as [x Hx].
  destruct (replay_sequential replayed_limits usize_attempts replayed_run replayed_activation replay_trace p
              (all_but_last replay_trace) [] Hp) as (Hread & _ & _).
  split; [exact (proj1 (Hread x Hx))|split; vm_refl].
Defined.
End sample.
