(* ===== verification/Database.v ===== *)
(** * The check database (apps/desktop/src-tauri/src/store/schema.rs)

    The tables of the runtime state, and the statements and transactions on them.
    A table is the list of its rows in the order of their row numbers.  Every
    statement can fail, and a commit that reports an error may have happened. *)

From S2P Require Import Prelude RustString.

#[local] Open Scope Z_scope.

(** ** Rows *)

Inductive CandidateState :=
| SPending | SClaimed | SDispatching | SAnswered | SAccepted
| SCoalesced | SNotAssessed | SExecutionFailed | SCancelled | SStale.

#[export] Instance CandidateState_eq_dec : EqDecision CandidateState.
Proof. solve_decision. Defined.

(** burn_check_activation *)
Record ActivationRow := {
  av_check_id : string;
  av_scope_key : string;
  av_definition_revision : string;
  av_enabled : bool;
  av_generation : Z;
  av_applied_sequence : Z
}.

(** burn_check_candidate *)
Record CandidateRow := {
  cd_candidate_id : string;
  cd_check_id : string;
  cd_scope_key : string;
  cd_generation : Z;
  cd_branch_key : string;
  cd_session_key_json : string;
  cd_trigger_position : Z;
  cd_selected_publication_head : Z;
  cd_dependencies_json : string;
  cd_frozen_input_json : string;
  cd_answer_json : option string;
  cd_state : CandidateState;
  cd_claim_owner : option string;
  cd_claim_fence : Z;
  cd_claim_epoch : option Z;
  cd_prior_status : option string;
  cd_updated_at_epoch : Z;
  cd_preparation_json : option string;
  cd_diagnostic_json : option string;
  cd_started_cooldown_until_epoch : option Z
}.

Inductive AttemptState := APrepared | ADispatchIntent | ASettled.

#[export] Instance AttemptState_eq_dec : EqDecision AttemptState.
Proof. solve_decision. Defined.

(** burn_check_evaluation_attempt *)
Record AttemptRow := {
  at_attempt_id : string;
  at_candidate_id : string;
  at_decision_name : option string;
  at_attempt_number : Z;
  at_state : AttemptState;
  at_outcome : option string;
  at_response_json : option string;
  at_updated_at_epoch : Z
}.

(** burn_check_cooldown *)
Record CooldownRow := {
  co_check_id : string;
  co_scope_key : string;
  co_generation : Z;
  co_branch_key : string;
  co_until_epoch : Z
}.

(** burn_check_assessment_history *)
Record HistoryRow := {
  hi_assessment_id : string;
  hi_candidate_id : string;
  hi_check_id : string;
  hi_scope_key : string;
  hi_generation : Z;
  hi_branch_key : string;
  hi_trigger_position : Z;
  hi_outcome : string;
  hi_answer_json : option string;
  hi_actions_json : string;
  hi_evidence_valid : bool;
  hi_accepted_at_epoch : Z
}.

(** burn_check_current_status *)
Record StatusRow := {
  cs_check_id : string;
  cs_scope_key : string;
  cs_branch_key : string;
  cs_generation : Z;
  cs_status : string;
  cs_assessment_id : string;
  cs_position : Z;
  cs_evidence_valid : bool;
  cs_updated_at_epoch : Z
}.

(** burn_check_acceptance_watermark *)
Record WatermarkRow := {
  wm_check_id : string;
  wm_scope_key : string;
  wm_branch_key : string;
  wm_generation : Z;
  wm_position : Z
}.

(** burn_check_candidate_dependency *)
Record DependencyRow := {
  de_candidate_id : string;
  de_observation_id : string;
  de_session_key_json : string;
  de_source_format : string;
  de_native_revision : option Z;
  de_evidence_version : string;
  de_removed : Z;
  de_payload_sha256 : string;
  de_binding_json : option string
}.

(** burn_check_observation *)
Record ObservationRow := {
  ow_check_id : string;
  ow_scope_key : string;
  ow_observation_id : string;
  ow_session_key_json : string;
  ow_source_format : string;
  ow_native_revision : option Z;
  ow_evidence_version : string;
  ow_removed : Z;
  ow_payload_json : string
}.

(** ** Updates of the columns of a candidate *)
Definition set_state (state : CandidateState) (c : CandidateRow) : CandidateRow :=
  {| cd_candidate_id := cd_candidate_id c; cd_check_id := cd_check_id c; cd_scope_key := cd_scope_key c;
     cd_generation := cd_generation c; cd_branch_key := cd_branch_key c;
     cd_session_key_json := cd_session_key_json c; cd_trigger_position := cd_trigger_position c;
     cd_selected_publication_head := cd_selected_publication_head c;
     cd_dependencies_json := cd_dependencies_json c;
     cd_frozen_input_json := cd_frozen_input_json c; cd_answer_json := cd_answer_json c;
     cd_state := state; cd_claim_owner := cd_claim_owner c; cd_claim_fence := cd_claim_fence c;
     cd_claim_epoch := cd_claim_epoch c; cd_prior_status := cd_prior_status c;
     cd_updated_at_epoch := cd_updated_at_epoch c; cd_preparation_json := cd_preparation_json c;
     cd_diagnostic_json := cd_diagnostic_json c;
     cd_started_cooldown_until_epoch := cd_started_cooldown_until_epoch c |}.

Definition set_updated (now : Z) (c : CandidateRow) : CandidateRow :=
  {| cd_candidate_id := cd_candidate_id c; cd_check_id := cd_check_id c; cd_scope_key := cd_scope_key c;
     cd_generation := cd_generation c; cd_branch_key := cd_branch_key c;
     cd_session_key_json := cd_session_key_json c; cd_trigger_position := cd_trigger_position c;
     cd_selected_publication_head := cd_selected_publication_head c;
     cd_dependencies_json := cd_dependencies_json c;
     cd_frozen_input_json := cd_frozen_input_json c; cd_answer_json := cd_answer_json c;
     cd_state := cd_state c; cd_claim_owner := cd_claim_owner c; cd_claim_fence := cd_claim_fence c;
     cd_claim_epoch := cd_claim_epoch c; cd_prior_status := cd_prior_status c;
     cd_updated_at_epoch := now; cd_preparation_json := cd_preparation_json c;
     cd_diagnostic_json := cd_diagnostic_json c;
     cd_started_cooldown_until_epoch := cd_started_cooldown_until_epoch c |}.

Definition set_claim (owner : option string) (fence : Z) (c : CandidateRow) : CandidateRow :=
  {| cd_candidate_id := cd_candidate_id c; cd_check_id := cd_check_id c; cd_scope_key := cd_scope_key c;
     cd_generation := cd_generation c; cd_branch_key := cd_branch_key c;
     cd_session_key_json := cd_session_key_json c; cd_trigger_position := cd_trigger_position c;
     cd_selected_publication_head := cd_selected_publication_head c;
     cd_dependencies_json := cd_dependencies_json c;
     cd_frozen_input_json := cd_frozen_input_json c; cd_answer_json := cd_answer_json c;
     cd_state := cd_state c; cd_claim_owner := owner; cd_claim_fence := fence;
     cd_claim_epoch := cd_claim_epoch c; cd_prior_status := cd_prior_status c;
     cd_updated_at_epoch := cd_updated_at_epoch c; cd_preparation_json := cd_preparation_json c;
     cd_diagnostic_json := cd_diagnostic_json c;
     cd_started_cooldown_until_epoch := cd_started_cooldown_until_epoch c |}.

Definition set_prior (prior : option string) (epoch : Z) (c : CandidateRow) : CandidateRow :=
  {| cd_candidate_id := cd_candidate_id c; cd_check_id := cd_check_id c; cd_scope_key := cd_scope_key c;
     cd_generation := cd_generation c; cd_branch_key := cd_branch_key c;
     cd_session_key_json := cd_session_key_json c; cd_trigger_position := cd_trigger_position c;
     cd_selected_publication_head := cd_selected_publication_head c;
     cd_dependencies_json := cd_dependencies_json c;
     cd_frozen_input_json := cd_frozen_input_json c; cd_answer_json := cd_answer_json c;
     cd_state := cd_state c; cd_claim_owner := cd_claim_owner c; cd_claim_fence := cd_claim_fence c;
     cd_claim_epoch := Some epoch; cd_prior_status := prior;
     cd_updated_at_epoch := cd_updated_at_epoch c; cd_preparation_json := cd_preparation_json c;
     cd_diagnostic_json := cd_diagnostic_json c;
     cd_started_cooldown_until_epoch := cd_started_cooldown_until_epoch c |}.

Definition set_texts (answer preparation diagnostic : option string) (c : CandidateRow) : CandidateRow :=
  {| cd_candidate_id := cd_candidate_id c; cd_check_id := cd_check_id c; cd_scope_key := cd_scope_key c;
     cd_generation := cd_generation c; cd_branch_key := cd_branch_key c;
     cd_session_key_json := cd_session_key_json c; cd_trigger_position := cd_trigger_position c;
     cd_selected_publication_head := cd_selected_publication_head c;
     cd_dependencies_json := cd_dependencies_json c;
     cd_frozen_input_json := cd_frozen_input_json c; cd_answer_json := answer;
     cd_state := cd_state c; cd_claim_owner := cd_claim_owner c; cd_claim_fence := cd_claim_fence c;
     cd_claim_epoch := cd_claim_epoch c; cd_prior_status := cd_prior_status c;
     cd_updated_at_epoch := cd_updated_at_epoch c; cd_preparation_json := preparation;
     cd_diagnostic_json := diagnostic;
     cd_started_cooldown_until_epoch := cd_started_cooldown_until_epoch c |}.

Definition set_diagnostic (d : option string) (c : CandidateRow) : CandidateRow :=
  set_texts (cd_answer_json c) (cd_preparation_json c) d c.
Definition set_preparation (p : option string) (c : CandidateRow) : CandidateRow :=
  set_texts (cd_answer_json c) p (cd_diagnostic_json c) c.
Definition set_answer (a : option string) (c : CandidateRow) : CandidateRow :=
  set_texts a (cd_preparation_json c) (cd_diagnostic_json c) c.

Definition set_started_cooldown (until : Z) (c : CandidateRow) : CandidateRow :=
  {| cd_candidate_id := cd_candidate_id c; cd_check_id := cd_check_id c; cd_scope_key := cd_scope_key c;
     cd_generation := cd_generation c; cd_branch_key := cd_branch_key c;
     cd_session_key_json := cd_session_key_json c; cd_trigger_position := cd_trigger_position c;
     cd_selected_publication_head := cd_selected_publication_head c;
     cd_dependencies_json := cd_dependencies_json c;
     cd_frozen_input_json := cd_frozen_input_json c; cd_answer_json := cd_answer_json c;
     cd_state := cd_state c; cd_claim_owner := cd_claim_owner c; cd_claim_fence := cd_claim_fence c;
     cd_claim_epoch := cd_claim_epoch c; cd_prior_status := cd_prior_status c;
     cd_updated_at_epoch := cd_updated_at_epoch c; cd_preparation_json := cd_preparation_json c;
     cd_diagnostic_json := cd_diagnostic_json c; cd_started_cooldown_until_epoch := Some until |}.

Definition set_inputs (frozen dependencies : string) (c : CandidateRow) : CandidateRow :=
  {| cd_candidate_id := cd_candidate_id c; cd_check_id := cd_check_id c; cd_scope_key := cd_scope_key c;
     cd_generation := cd_generation c; cd_branch_key := cd_branch_key c;
     cd_session_key_json := cd_session_key_json c; cd_trigger_position := cd_trigger_position c;
     cd_selected_publication_head := cd_selected_publication_head c; cd_dependencies_json := dependencies;
     cd_frozen_input_json := frozen; cd_answer_json := cd_answer_json c;
     cd_state := cd_state c; cd_claim_owner := cd_claim_owner c; cd_claim_fence := cd_claim_fence c;
     cd_claim_epoch := cd_claim_epoch c; cd_prior_status := cd_prior_status c;
     cd_updated_at_epoch := cd_updated_at_epoch c; cd_preparation_json := cd_preparation_json c;
     cd_diagnostic_json := cd_diagnostic_json c;
     cd_started_cooldown_until_epoch := cd_started_cooldown_until_epoch c |}.

(** ** The database

    [db_sources] holds every other table: the publications, the sessions and the
    settings, which the runtime state only reads. *)
Section database.
Context {Sources : Type}.

Record Database := {
  db_activations : list ActivationRow;
  db_candidates : list CandidateRow;
  db_attempts : list AttemptRow;
  db_cooldowns : list CooldownRow;
  db_history : list HistoryRow;
  db_statuses : list StatusRow;
  db_watermarks : list WatermarkRow;
  db_dependencies : list DependencyRow;
  db_observations : list ObservationRow;
  db_sources : Sources
}.

Definition with_candidates (rows : list CandidateRow) (db : Database) : Database :=
  {| db_activations := db_activations db; db_candidates := rows; db_attempts := db_attempts db;
     db_cooldowns := db_cooldowns db; db_history := db_history db; db_statuses := db_statuses db;
     db_watermarks := db_watermarks db; db_dependencies := db_dependencies db;
     db_observations := db_observations db; db_sources := db_sources db |}.

Definition with_attempts (rows : list AttemptRow) (db : Database) : Database :=
  {| db_activations := db_activations db; db_candidates := db_candidates db; db_attempts := rows;
     db_cooldowns := db_cooldowns db; db_history := db_history db; db_statuses := db_statuses db;
     db_watermarks := db_watermarks db; db_dependencies := db_dependencies db;
     db_observations := db_observations db; db_sources := db_sources db |}.

Definition with_cooldowns (rows : list CooldownRow) (db : Database) : Database :=
  {| db_activations := db_activations db; db_candidates := db_candidates db; db_attempts := db_attempts db;
     db_cooldowns := rows; db_history := db_history db; db_statuses := db_statuses db;
     db_watermarks := db_watermarks db; db_dependencies := db_dependencies db;
     db_observations := db_observations db; db_sources := db_sources db |}.

Definition with_history (rows : list HistoryRow) (db : Database) : Database :=
  {| db_activations := db_activations db; db_candidates := db_candidates db; db_attempts := db_attempts db;
     db_cooldowns := db_cooldowns db; db_history := rows; db_statuses := db_statuses db;
     db_watermarks := db_watermarks db; db_dependencies := db_dependencies db;
     db_observations := db_observations db; db_sources := db_sources db |}.

Definition with_statuses (rows : list StatusRow) (db : Database) : Database :=
  {| db_activations := db_activations db; db_candidates := db_candidates db; db_attempts := db_attempts db;
     db_cooldowns := db_cooldowns db; db_history := db_history db; db_statuses := rows;
     db_watermarks := db_watermarks db; db_dependencies := db_dependencies db;
     db_observations := db_observations db; db_sources := db_sources db |}.

Definition with_watermarks (rows : list WatermarkRow) (db : Database) : Database :=
  {| db_activations := db_activations db; db_candidates := db_candidates db; db_attempts := db_attempts db;
     db_cooldowns := db_cooldowns db; db_history := db_history db; db_statuses := db_statuses db;
     db_watermarks := rows; db_dependencies := db_dependencies db;
     db_observations := db_observations db; db_sources := db_sources db |}.

(** ** Statements

    What the host does to the statements of an operation, in their order, and the
    readings of its clock. *)
Inductive Fault :=
| Works
| Fails (message : string)
| FailsAfter (message : string).

Record Host := { h_faults : list Fault; h_clock : list Z }.

(** [anyhow::Error], as far as it is told apart: an error of the database, or one
    that [ensure!], [context] or [bail!] made. *)
Inductive StoreFailure :=
| SqlFailed (message : string)
| Refused (message : string).

Definition sql (A : Type) : Type := SE (Database * Host) StoreFailure A.

Definition next_fault (h : Host) : Fault * Host :=
  match h_faults h with
  | [] => (Works, h)
  | f :: faults => (f, {| h_faults := faults; h_clock := h_clock h |})
  end.

(** One statement on the database: it is done, or it fails and has no effect. *)
Definition statement {A} (f : Database → result (A * Database) string) : sql A := λ s,
  let '(fault, h) := next_fault s.2 in
  match fault with
  | Works =>
      match f s.1 with
      | Ok (a, db) => (Ok a, (db, h))
      | Err message => (Err (SqlFailed message), (s.1, h))
      end
  | Fails message | FailsAfter message => (Err (SqlFailed message), (s.1, h))
  end.

Definition query {A} (f : Database → A) : sql A := statement (λ db, Ok (f db, db)).

(** A statement that changes rows, with their number. *)
Definition execute (f : Database → N * Database) : sql N := statement (λ db, Ok (f db)).

(** [INSERT], which a constraint can refuse. *)
Definition insert (f : Database → result Database string) : sql unit :=
  statement (λ db, result_map (λ db', (tt, db')) (f db)).

(** [ensure!(condition, message)], and [context] of an option *)
Definition ensure (condition : bool) (message : string) : sql unit :=
  if condition then ret tt else fail (Refused message).
Definition context {A} (o : option A) (message : string) : sql A :=
  match o with Some a => ret a | None => fail (Refused message) end.
Definition refused {A} (r : result A string) : sql A := lift (map_err Refused r).

(** [now_epoch()] *)
Definition now_epoch : sql Z := λ s,
  match h_clock s.2 with
  | [] => (Ok 0, s)
  | t :: clock => (Ok t, (s.1, {| h_faults := h_faults s.2; h_clock := clock |}))
  end.

(** ** Transactions

    The operation commits, or returns without a commit, which rolls back, as an
    error does. *)
Inductive Ending (A : Type) := Commit (a : A) | RollBack (a : A).
Arguments Commit {_} _.
Arguments RollBack {_} _.

Definition transaction {A} (body : sql (Ending A)) : sql A := λ s,
  match query (λ _, tt) s with
  | (Err e, s) => (Err e, s)
  | (Ok _, s) =>
      match body s with
      | (Err e, (_, h)) => (Err e, (s.1, h))
      | (Ok (RollBack a), (_, h)) => (Ok a, (s.1, h))
      | (Ok (Commit a), (db, h)) =>
          let '(fault, h) := next_fault h in
          match fault with
          | Works => (Ok a, (db, h))
          | Fails message => (Err (SqlFailed message), (s.1, h))
          | FailsAfter message => (Err (SqlFailed message), (db, h))
          end
      end
  end.

(** ** Tables *)

Section table.
Context {R : Type}.

(** [UPDATE … SET … WHERE …]: the rows, and how many have changed. *)
Definition update_where (p : R → bool) (f : R → R) (rows : list R) : N * list R :=
  (N.of_nat (length (List.filter p rows)), (λ r, if p r then f r else r) <$> rows).

(** [SELECT … WHERE …] of one row *)
Definition select_one (p : R → bool) (rows : list R) : option R := List.find p rows.
Definition exists_row (p : R → bool) (rows : list R) : bool := existsb p rows.

(** [INSERT … ON CONFLICT(key) DO UPDATE SET …]: [key] finds the conflicting row. *)
Definition upsert (key : R → bool) (row : R) (change : R → R) (rows : list R) : list R :=
  if existsb key rows then (λ r, if key r then change r else r) <$> rows else (rows ++ [row])%list.
End table.

Definition update_candidates (p : Database → CandidateRow → bool)
    (f : Database → CandidateRow → CandidateRow) : sql N :=
  execute (λ db, let '(n, rows) := update_where (p db) (f db) (db_candidates db) in (n, with_candidates rows db)).

Definition update_attempts (p : Database → AttemptRow → bool) (f : AttemptRow → AttemptRow) : sql N :=
  execute (λ db, let '(n, rows) := update_where (p db) f (db_attempts db) in (n, with_attempts rows db)).

(** The tables' own constraints on an insertion: unique keys, and references. *)
Definition insert_attempt (row : AttemptRow) : sql unit :=
  insert (λ db,
    if exists_row (λ r, String.eqb (at_attempt_id r) (at_attempt_id row) ||
         (String.eqb (at_candidate_id r) (at_candidate_id row) &&
          bool_decide (is_Some (at_decision_name row)) &&
          bool_decide (at_decision_name r = at_decision_name row) &&
          (at_attempt_number r =? at_attempt_number row))) (db_attempts db) then
      Err "UNIQUE constraint failed: burn_check_evaluation_attempt"
    else if negb ((1 <=? at_attempt_number row) && (at_attempt_number row <=? 2)) then
      Err "CHECK constraint failed: attempt_number BETWEEN 1 AND 2"
    else if negb (exists_row (λ c, String.eqb (cd_candidate_id c) (at_candidate_id row)) (db_candidates db)) then
      Err "FOREIGN KEY constraint failed"
    else Ok (with_attempts (db_attempts db ++ [row]) db)).

(** [INSERT INTO burn_check_assessment_history SELECT …] of the rows that [make]
    gives for the candidates, in their order; [conflict] is what happens when the
    candidate has a history row already. *)
Definition insert_history (conflict : HistoryRow → HistoryRow → result HistoryRow string)
    (make : CandidateRow → option HistoryRow) : sql N :=
  statement (λ db,
    let add (acc : result (N * list HistoryRow) string) (c : CandidateRow) :=
      let? '(n, rows) := acc in
      match make c with
      | None => Ok (n, rows)
      | Some row =>
          match select_one (λ r, String.eqb (hi_candidate_id r) (hi_candidate_id row)) rows with
          | Some old =>
              let? new := conflict old row in
              Ok (n, (λ r, if String.eqb (hi_candidate_id r) (hi_candidate_id row) then new else r) <$> rows)
          | None =>
              if exists_row (λ r, String.eqb (hi_assessment_id r) (hi_assessment_id row)) rows then
                Err "UNIQUE constraint failed: burn_check_assessment_history.assessment_id"
              else Ok (N.succ n, (rows ++ [row])%list)
          end
      end in
    let? '(n, rows) := fold_left add (db_candidates db) (Ok (0%N, db_history db)) in
    Ok (n, with_history rows db)).

(** [ON CONFLICT(candidate_id) DO NOTHING], and no such clause *)
Definition keep_old (old _ : HistoryRow) : result HistoryRow string := Ok old.
Definition no_conflict (_ _ : HistoryRow) : result HistoryRow string :=
  Err "UNIQUE constraint failed: burn_check_assessment_history.candidate_id".
End database.

Arguments Database : clear implicits.
Arguments sql : clear implicits.
Arguments Commit {_} _.
Arguments RollBack {_} _.
