(* ===== verification/RuntimeStore.v ===== *)
(** * The store of the runtime (apps/desktop/src-tauri/src/store/burn_checks)

    [StoreCheckStore], the [CheckStore] of the desktop application: its operations
    on the work of a candidate as transactions of the check database, from
    runtime.rs, runtime_attempts.rs, runtime_progress.rs, runtime_local.rs,
    runtime_recovery.rs, candidates.rs and assessments.rs.

    The JSON functions of SQLite and what the ingestion says of its own tables are
    parameters; tracing is left out. *)

From stdpp Require Import gmap.
From S2P Require Import Prelude RustString Json Diagnostics Expression Budget Provenance Scalars Evaluator Fit Domain Template Decision Check Preparation Lifecycle Context Selection Messages BoundedJson Serde Prepared Results ResultDecode Actions Progress Checkpoint Scheduler Engine Database.

#[local] Open Scope N_scope.

(** ** Parameters *)

(** The JSON functions of SQLite: the text at a path, the type at a path, whether
    a text is JSON, and [json_object] with the key [detail]. *)
Class Sqlite := {
  json_extract : string → string → option string;
  json_type : string → string → option string;
  json_valid : string → bool;
  json_object_detail : option string → string
}.

(** What the sources table and the ingestion say: the origin of a candidate's
    requests (request_origin.rs), its typed dependencies (observers.rs), whether a
    publication of a session follows a sequence (evidence.rs), and a setting. *)
Class Ingestion (Sources : Type) := {
  new_candidate_request_origin_current : Database Sources → string → result bool string;
  typed_dependencies_current : Database Sources → string → result bool string;
  newer_publication : Database Sources → string → Z → string → string → Z → bool;
  settings : Sources → list (string * string);
  session_key : string → option (string * string * string)
}.

(** [PartialEq] of [serde_json::Value], and the texts of errors of derived readers *)
Class ValueEq `{SerdeNumber} := {
  value_eqb : Value → Value → bool;
  reader_error : Value → string
}.

(** ** Texts *)

Definition hex (bytes : list N) : string := foldr (λ b s, hex_byte b +:+ s) "" bytes.

(** [i64::try_from(value)] *)
Definition integer (value : N) : result Z string :=
  if (Z.of_N value <=? I64_MAX)%Z then Ok (Z.of_N value) else Err "runtime value exceeds SQLite integer range".

(** [saturating_add], [saturating_mul] of [u64] *)
Definition sat_add_u64 (x y : N) : N := N.min U64_MAX (x + y).
Definition sat_mul_u64 (x y : N) : N := N.min U64_MAX (x * y).

(** A column that is read as an unsigned integer *)
Definition column_u64 (z : Z) : result N string :=
  if (0 <=? z)%Z then Ok (Z.to_N z) else Err "Integer out of range".

(** [u8::from_str_radix(digits, 16)] of two digits that are lowercase *)
Definition digit_value (a : ascii) : option N :=
  let n := N_of_ascii a in
  if (48 <=? n) && (n <=? 57) then Some (n - 48)
  else if (97 <=? n) && (n <=? 102) then Some (n - 87) else None.

Fixpoint hex_bytes (value : string) : option (list N) :=
  match value with
  | EmptyString => Some []
  | String a (String b rest) =>
      hi ← digit_value a; lo ← digit_value b; bytes ← hex_bytes rest; Some (16 * hi + lo :: bytes)
  | String _ EmptyString => None
  end.

Definition parse_candidate_id (value : string) : result (list N) string :=
  if str_len value =? 64 then
    match hex_bytes value with Some bytes => Ok bytes | None => Err "invalid candidate identity" end
  else Err "invalid candidate identity".

Definition status_name (status : StatusResult) : string :=
  match status with Success => "success" | Failure => "failure" end.

Definition parse_status (status : option string) : result (option StatusResult) string :=
  match status with
  | None => Ok None
  | Some status =>
      if String.eqb status "success" then Ok (Some Success)
      else if String.eqb status "failure" then Ok (Some Failure) else Err "invalid saved status"
  end.

Definition assessment_key (candidate : string) : string := "assessment:" +:+ candidate.

Section store.
Context `{SerdeNumber, JsonDeserializer, !JsonMessages, !RecordWriter, !ValueEq, !CandidateDigest, !Sqlite}.
Context {Sources : Type} `{!Ingestion Sources}.

Notation sql := (Database.sql Sources).
Notation Database := (Database.Database Sources).

Definition payload_sha256 (payload : string) : string := hex (sha256 payload).

(** [serde_json::to_string] *)
Definition to_string (v : Serial) : result string string :=
  match (record_writes v).2 with Some message => Err message | None => Ok (record_text v) end.

(** *** Derived serializers *)

Definition run_serial (r : RunScope) : Serial :=
  match r with Live => SerUnitVariant "Live" | Replay id => SerVariant "Replay" (SerStr id) end.

Definition scope_serial (s : ActivationScope) : Serial :=
  SerEntries [("environment", SerStr (environment s)); ("session_cwd", SerStr (session_cwd s));
              ("run", run_serial (run s))].

Definition evaluation_code_name (c : EvaluationFailureCode) : string :=
  match c with
  | ECAuthenticationRejected => "authentication_rejected" | ECRateLimited => "rate_limited"
  | ECProviderOverloaded => "provider_overloaded" | ECProviderUnavailable => "provider_unavailable"
  | ECDeliveryUnknown => "delivery_unknown" | ECInvalidResponse => "invalid_response"
  | ECContextRejected => "context_rejected" | ECInvalidRequest => "invalid_request"
  | ECCancelled => "cancelled" | ECStorageFailure => "storage_failure"
  | ECInvalidDecision => "invalid_decision" | ECActionFailed => "action_failed"
  end.

Definition diagnostic_serial (d : EvaluationDiagnostic) : Serial :=
  SerEntries [("code", SerUnitVariant (evaluation_code_name (ed_code d))); ("detail", SerStr (ed_detail d))].

(** [json!({"detail": detail})] *)
Definition detail_serial (detail : string) : Serial := SerEntries [("detail", SerStr detail)].

Definition code_variant (c : DiagnosticCode) : string :=
  match c with
  | YamlSyntax => "YamlSyntax" | YamlDirective => "YamlDirective"
  | YamlDocumentCount => "YamlDocumentCount" | YamlRootType => "YamlRootType"
  | YamlNestingLimit => "YamlNestingLimit" | YamlAnchor => "YamlAnchor"
  | YamlAlias => "YamlAlias" | YamlUnsupportedTag => "YamlUnsupportedTag"
  | YamlNonStringKey => "YamlNonStringKey" | YamlDuplicateKey => "YamlDuplicateKey"
  | YamlMergeKey => "YamlMergeKey" | YamlNonFiniteNumber => "YamlNonFiniteNumber"
  | YamlInvalidScalar => "YamlInvalidScalar" | ConfigMissingField => "ConfigMissingField"
  | ConfigUnknownField => "ConfigUnknownField" | ConfigInvalidType => "ConfigInvalidType"
  | ConfigInvalidValue => "ConfigInvalidValue" | CompileUnsupportedFeature => "CompileUnsupportedFeature"
  | CompileInvalidExpression => "CompileInvalidExpression" | CompileUnknownReference => "CompileUnknownReference"
  | CompileInvalidWindow => "CompileInvalidWindow" | CompileInvalidCooldown => "CompileInvalidCooldown"
  | CompileInvalidDecision => "CompileInvalidDecision" | CompileInvalidAction => "CompileInvalidAction"
  | RuntimeInvalidDecision => "RuntimeInvalidDecision" | RuntimeInvalidContext => "RuntimeInvalidContext"
  | EvaluationLimitExceeded => "EvaluationLimitExceeded" | DiscoveryInvalidId => "DiscoveryInvalidId"
  | DiscoveryDuplicateId => "DiscoveryDuplicateId" | DiscoveryReadFailed => "DiscoveryReadFailed"
  | DiscoveryPaused => "DiscoveryPaused" | DiscoveryShadowed => "DiscoveryShadowed"
  end.

Definition status_serial (s : StatusResult) : Serial :=
  SerUnitVariant (match s with Success => "Success" | Failure => "Failure" end).

Definition outcome_kind_serial (k : ActionOutcomeKind) : Serial :=
  match k with
  | Applied r message =>
      SerVariant "Applied" (SerEntries [("result", status_serial r); ("message", ser_option SerStr message)])
  | SkippedConditionFalse => SerUnitVariant "SkippedConditionFalse"
  | SkippedConditionUnavailable => SerUnitVariant "SkippedConditionUnavailable"
  | SkippedInputUnavailable => SerUnitVariant "SkippedInputUnavailable"
  | ActionFailed e =>
      SerVariant "Failed" (SerEntries [("code", SerUnitVariant (code_variant (code e))); ("message", SerStr (message e))])
  end.

Definition plan_serial (p : ActionPlan) : Serial :=
  SerEntries
    [("current_status", ser_option status_serial (current_status p));
     ("outcomes", SerSeq ((λ o, SerEntries [("index", ser_n (ao_index o));
                                            ("outcome", outcome_kind_serial (ao_outcome o))]) <$> outcomes p))].

(** [serde_json::to_value] of a record *)
Fixpoint to_value (v : Serial) : Value :=
  match v with
  | SerBool b => JBool b
  | SerInt z => JNumber (if (0 <=? z)%Z then number_of_u64 (Z.to_N z) else number_of_i64 z)
  | SerNumber text => match number_from_str text with Some n => JNumber n | None => JNull end
  | SerF64 x => match number_of_f64 x with Some n => JNumber n | None => JNull end
  | SerStr s | SerUnitVariant s => JString s
  | SerNone => JNull
  | SerSeq l => JArray (to_value <$> l)
  | SerEntries l => JObject (fold_left (λ m kv, Json.map_insert kv.1 kv.2 m) ((λ kv, (kv.1, to_value kv.2)) <$> l) [])
  | SerVariant name content => JObject [(name, to_value content)]
  end.

(** *** Derived readers (domain.rs) *)

Definition read_run : reader RunScope := λ ev,
  match ev with
  | EvStr name | EvMap [(name, EvUnit)] true => if String.eqb name "Live" then Some Live else None
  | EvMap [(name, content)] true => if String.eqb name "Replay" then Replay <$> read_string content else None
  | _ => None
  end.

Definition read_activation_scope : reader ActivationScope := λ ev,
  fields ← read_fields false ["environment"; "session_cwd"; "run"] ev;
  environment ← required read_string (fields "environment");
  cwd ← required read_string (fields "session_cwd");
  run ← required read_run (fields "run");
  Some {| environment := environment; session_cwd := cwd; run := run |}.

Definition read_activation_id : reader ActivationId := λ ev,
  fields ← read_fields false ["scope"; "definition_id"; "generation"] ev;
  scope ← required read_activation_scope (fields "scope");
  definition ← required read_string (fields "definition_id");
  generation ← required read_u64 (fields "generation");
  Some {| a_scope := scope; a_definition_id := definition; a_generation := generation |}.

Definition read_identified {A} (make : string → EvidenceVersion → A) : reader A := λ ev,
  fields ← read_fields false ["id"; "version"] ev;
  id ← required read_string (fields "id");
  version ← required read_version (fields "version");
  Some (make id version).

Definition read_activity : reader EvidenceDependency := λ ev,
  fields ← read_fields false ["attachment_epoch"; "activity_revision"] ev;
  epoch ← required read_string (fields "attachment_epoch");
  revision ← required read_u64 (fields "activity_revision");
  Some (SessionActivity epoch revision).

Definition read_dependency : reader EvidenceDependency := λ ev,
  match ev with
  | EvMap [(name, content)] true =>
      if String.eqb name "Message" then read_identified DepMessage content
      else if String.eqb name "MembershipThrough" then MembershipThrough <$> read_u64 content
      else if String.eqb name "Context" then read_identified DepContext content
      else if String.eqb name "SourceEvidence" then read_identified SourceEvidence content
      else if String.eqb name "SessionActivity" then read_activity content
      else None
  | _ => None
  end.

Definition read_context : reader FrozenContext := λ ev,
  fields ← read_fields false ["value"; "dependencies"] ev;
  value ← required read_value (fields "value");
  dependencies ← required (read_seq read_dependency) (fields "dependencies");
  Some {| fc_value := value; fc_dependencies := dependencies |}.

(** [[u8; 32]] *)
Definition read_fingerprint : reader (list N) := λ ev,
  bytes ← read_seq read_u8 ev; if (length bytes =? 32)%nat then Some bytes else None.

Definition read_candidate : reader FrozenCandidate := λ ev,
  fields ← read_fields false
    ["activation"; "branch"; "trigger_position"; "messages"; "context"; "dependencies"; "fingerprint"] ev;
  activation ← required read_activation_id (fields "activation");
  branch ← required read_branch (fields "branch");
  position ← required read_u64 (fields "trigger_position");
  messages ← required (read_seq read_message) (fields "messages");
  context ← required read_context (fields "context");
  dependencies ← required (read_seq read_dependency) (fields "dependencies");
  fingerprint ← required read_fingerprint (fields "fingerprint");
  Some {| fr_activation := activation; fr_branch := branch; fr_trigger_position := position;
          fr_messages := messages; fr_context := context; fr_dependencies := dependencies;
          fr_fingerprint := fingerprint |}.

(** [serde_json::from_str::<FrozenCandidate>] *)
Definition frozen_from_str (text : string) : result FrozenCandidate string :=
  match from_str read_candidate text with Some c => Ok c | None => Err "invalid frozen candidate" end.

(** *** Derived equalities *)

Definition message_eqb (a b : Message) : bool := String.eqb (m_id a) (m_id b) && value_eqb (m_value a) (m_value b).

Fixpoint all_equal {A} (eqb : A → A → bool) (l k : list A) : bool :=
  match l, k with
  | [], [] => true
  | a :: l, b :: k => eqb a b && all_equal eqb l k
  | _, _ => false
  end.

Definition candidate_eqb (a b : FrozenCandidate) : bool :=
  bool_decide (fr_activation a = fr_activation b) && bool_decide (fr_branch a = fr_branch b) &&
  (fr_trigger_position a =? fr_trigger_position b) && all_equal message_eqb (fr_messages a) (fr_messages b) &&
  value_eqb (fc_value (fr_context a)) (fc_value (fr_context b)) &&
  bool_decide (fc_dependencies (fr_context a) = fc_dependencies (fr_context b)) &&
  bool_decide (fr_dependencies a = fr_dependencies b) && bool_decide (fr_fingerprint a = fr_fingerprint b).

#[local] Instance FitOmission_eq_dec : EqDecision FitOmission.
Proof. solve_decision. Defined.
#[local] Instance FitReport_eq_dec : EqDecision FitReport.
Proof. solve_decision. Defined.
#[local] Instance PreparationFailureCode_eq_dec : EqDecision PreparationFailureCode.
Proof. solve_decision. Defined.
#[local] Instance NoFitReason_eq_dec : EqDecision NoFitReason.
Proof. solve_decision. Defined.
#[local] Instance PreparationBudgetKind_eq_dec : EqDecision PreparationBudgetKind.
Proof. solve_decision. Defined.
#[local] Instance PreparationBudget_eq_dec : EqDecision PreparationBudget.
Proof. solve_decision. Defined.
#[local] Instance PreparationFailureContext_eq_dec : EqDecision PreparationFailureContext.
Proof. solve_decision. Defined.
#[local] Instance PreparationFailure_eq_dec : EqDecision PreparationFailure.
Proof. solve_decision. Defined.
#[local] Instance LocalPreparation_eq_dec : EqDecision LocalPreparation.
Proof. solve_decision. Defined.

Definition block_eqb (a b : PreparedBlock) : bool :=
  String.eqb (pb_decision a) (pb_decision b) && value_eqb (pb_original_input a) (pb_original_input b) &&
  value_eqb (pb_input a) (pb_input b) && value_eqb (pb_request a) (pb_request b) &&
  bool_decide (pb_report a = pb_report b).

Definition preparation_eqb (a b : PreparationRecord) : bool :=
  match a, b with
  | RecordReady a, RecordReady b =>
      (pa_version a =? pa_version b) && String.eqb (pa_profile a) (pa_profile b) &&
      bool_decide (pa_evaluation_budget a = pa_evaluation_budget b) &&
      (pa_fitting_work_bytes a =? pa_fitting_work_bytes b) &&
      all_equal block_eqb (pa_decisions a) (pa_decisions b)
  | RecordLocal a, RecordLocal b => bool_decide (a = b)
  | RecordRejected a, RecordRejected b => bool_decide (a = b)
  | _, _ => false
  end.

(** [== EvaluatedAssessment::local()] *)
Definition is_local_assessment (a : EvaluatedAssessment) : bool :=
  (as_version a =? RESULT_VERSION) && (match as_decisions a with [] => true | _ => false end) &&
  (as_attempts a =? 0).

(** [encode_preparation] *)
Definition encode_preparation (r : PreparationRecord) : result string string :=
  let? _ := map_err bounded_text (measure_json PREPARATION_LIMITS (record_serial r)) in
  let? saved := to_string (record_serial r) in
  let? _ := map_err pf_detail (decode_preparation_record saved) in
  Ok saved.

(** ** The store of one scope

    [ss_activations] is the map of the registered activations, which other threads
    change under its lock; an operation reads it at most once. *)
Record StoreCheckStore := {
  ss_owner : string;
  ss_scope : ActivationScope;
  ss_activations : list (ActivationId * EffectiveActivation);
  ss_publication_gate : option (EffectiveActivation → bool)
}.

Record BurnCheckCandidateClaim := { bc_candidate_id : string; bc_owner : string; bc_fence : Z }.

(** Writing a scope cannot fail. *)
Definition activation_scope_key (scope : ActivationScope) : string := record_text (scope_serial scope).

Definition attempts_of (db : Database) (candidate : string) : list AttemptRow :=
  List.filter (λ a, String.eqb (at_candidate_id a) candidate) (db_attempts db).

Definition has_id (candidate : string) (c : CandidateRow) : bool := String.eqb (cd_candidate_id c) candidate.

Definition in_states (states : list CandidateState) (c : CandidateRow) : bool :=
  existsb (λ s, bool_decide (cd_state c = s)) states.

(** [candidate_id = ?1 AND claim_owner = ?2 AND claim_fence = ?3] *)
Definition owns (claim : BurnCheckCandidateClaim) (c : CandidateRow) : bool :=
  has_id (bc_candidate_id claim) c && bool_decide (cd_claim_owner c = Some (bc_owner claim)) &&
  (cd_claim_fence c =? bc_fence claim)%Z.

(** [JOIN burn_check_activation a USING(check_id, activation_scope_key)] *)
Definition joined (c : CandidateRow) (a : ActivationRow) : bool :=
  String.eqb (av_check_id a) (cd_check_id c) && String.eqb (av_scope_key a) (cd_scope_key c).

Definition joined_current (c : CandidateRow) (a : ActivationRow) : bool :=
  joined c a && (cd_generation c =? av_generation a)%Z && av_enabled a.

(** ** The operations *)

Section operations.
Variable store : StoreCheckStore.

Notation scope_key := (activation_scope_key (ss_scope store)).

Definition registered_activation (id : ActivationId) : option EffectiveActivation :=
  snd <$> List.find (λ kv, bool_decide (kv.1 = id)) (ss_activations store).

(** runtime.rs *)
Definition claim_record (claimed : ClaimedCandidate) : sql BurnCheckCandidateClaim :=
  do* ensure (bool_decide (a_scope (fr_activation (cl_candidate claimed)) = ss_scope store) &&
              bool_decide (cl_id claimed = CandidateId_from (cl_candidate claimed)))
             "claim belongs to another candidate or scope";
  let* fence := refused (integer (cl_fence claimed)) in
  ret {| bc_candidate_id := hex (cl_id claimed); bc_owner := ss_owner store; bc_fence := fence |}.

Definition require_model_claim (claimed : ClaimedCandidate) : sql unit :=
  match registered_activation (fr_activation (cl_candidate claimed)) with
  | Some activation =>
      ensure (negb (is_local (ea_compiled activation)))
        "local work cannot use provider preparation, attempts, or answers"
  | None => ret tt
  end.

(** *** Currency of a claim (runtime_progress.rs) *)

Definition coalesce (z : option Z) : Z := default (-1)%Z z.

(** What of a dependency is compared with the current observation. *)
Definition dependency_current (check scope : string) (db : Database) (d : DependencyRow) : bool :=
  match select_one (λ o, String.eqb (ow_check_id o) check && String.eqb (ow_scope_key o) scope &&
                      String.eqb (ow_observation_id o) (de_observation_id d) &&
                      String.eqb (ow_session_key_json o) (de_session_key_json d)) (db_observations db) with
  | None => false
  | Some o =>
      String.eqb (ow_source_format o) (de_source_format d) &&
      (coalesce (ow_native_revision o) =? coalesce (de_native_revision d))%Z &&
      String.eqb (ow_evidence_version o) (de_evidence_version d) &&
      (de_removed d =? 0)%Z && (ow_removed o =? 0)%Z &&
      String.eqb (payload_sha256 (ow_payload_json o)) (de_payload_sha256 d)
  end.

(** The dependencies of a candidate that are checked against observations. *)
Definition observed_dependencies (candidate : string) (db : Database) : list DependencyRow :=
  List.filter (λ d, String.eqb (de_candidate_id d) candidate &&
    match de_binding_json d with
    | None => true
    | Some binding => bool_decide (json_type binding "$.HostObservation" = Some "object")
    end) (db_dependencies db).

(** A watermark of the branch and generation at or past the trigger *)
Definition watermark_passed (db : Database) (c : CandidateRow) : bool :=
  exists_row (λ w, String.eqb (wm_check_id w) (cd_check_id c) && String.eqb (wm_scope_key w) (cd_scope_key c) &&
    String.eqb (wm_branch_key w) (cd_branch_key c) && (wm_generation w =? cd_generation c)%Z &&
    (cd_trigger_position c <=? wm_position w)%Z) (db_watermarks db).

Definition claim_row_current (claim : BurnCheckCandidateClaim) (activation : EffectiveActivation)
    (scope : string) (generation : Z) (db : Database) : bool :=
  exists_row (λ c, owns claim c && String.eqb (cd_check_id c) (a_definition_id (ea_id activation)) &&
    String.eqb (cd_scope_key c) scope && (cd_generation c =? generation)%Z &&
    bool_decide (json_extract (cd_frozen_input_json c) "$.branch" = Some (cd_branch_key c)) &&
    in_states [SClaimed; SDispatching; SAnswered] c &&
    exists_row (λ a, joined_current c a &&
      String.eqb (av_definition_revision a) (hex (ea_revision activation))) (db_activations db) &&
    negb (watermark_passed db c)) (db_candidates db).

Definition claim_is_current_for_scope_in (claim : BurnCheckCandidateClaim)
    (activation : EffectiveActivation) (scope : string) : sql bool :=
  let* generation := refused (integer (a_generation (ea_id activation))) in
  let* current := query (claim_row_current claim activation scope generation) in
  if negb current then ret false
  else
    let* origin := statement (λ db,
      result_map (λ b, (b, db)) (new_candidate_request_origin_current db (bc_candidate_id claim))) in
    if negb origin then ret false
    else
      let* typed := statement (λ db,
        result_map (λ b, (b, db)) (typed_dependencies_current db (bc_candidate_id claim))) in
      if negb typed then ret false
      else query (λ db, forallb (dependency_current (a_definition_id (ea_id activation)) scope db)
                          (observed_dependencies (bc_candidate_id claim) db)).

Definition claim_is_current_in (claim : BurnCheckCandidateClaim) (activation : EffectiveActivation) : sql bool :=
  claim_is_current_for_scope_in claim activation scope_key.

(** The claim of a candidate whose request is about to be sent *)
Definition dispatching_row (id attempt : string) (db : Database) : option (CandidateRow * string) :=
  c ← select_one (λ c, has_id id c && in_states [SDispatching] c && bool_decide (is_Some (cd_claim_owner c)) &&
        exists_row (λ a, String.eqb (at_candidate_id a) id && String.eqb (at_attempt_id a) attempt &&
          bool_decide (at_state a = ADispatchIntent)) (db_attempts db)) (db_candidates db);
  owner ← cd_claim_owner c;
  Some (c, owner).

Definition provider_dispatch_claim (activation : EffectiveActivation) (candidate : FrozenCandidate)
    (attempt : DecisionAttempt) : sql (option BurnCheckCandidateClaim) :=
  do* ensure (bool_decide (fr_activation candidate = ea_id activation)) "dispatch activation changed";
  do* refused (map_err contract_message (attempt_validate attempt));
  let id := hex (fr_fingerprint candidate) in
  let* saved := query (dispatching_row id (attempt_id (fr_fingerprint candidate) attempt)) in
  match saved with
  | None => ret None
  | Some (row, owner) =>
      let* frozen := refused (frozen_from_str (cd_frozen_input_json row)) in
      do* ensure (candidate_eqb frozen candidate) "provider dispatch does not match the frozen candidate";
      let claim := {| bc_candidate_id := id; bc_owner := owner; bc_fence := cd_claim_fence row |} in
      let* current := claim_is_current_for_scope_in claim activation
        (activation_scope_key (a_scope (ea_id activation))) in
      ret (if (current : bool) then Some claim else None)
  end.

Definition provider_dispatch_is_current (activation : EffectiveActivation) (claim : BurnCheckCandidateClaim) :
    sql bool :=
  claim_is_current_for_scope_in claim activation (activation_scope_key (a_scope (ea_id activation))).

(** *** Saved decision progress (runtime_progress.rs) *)

Definition saved_outcome (declaration : DecisionBlock) (requirements : list QuestionRequirements)
    (row : AttemptRow) : result DecisionAttemptOutcome string :=
  let contradictory := Err "saved attempt has a contradictory state or response" in
  match at_state row, at_outcome row, at_response_json row with
  | ADispatchIntent, None, None => Ok DispatchIntent
  | ASettled, Some outcome, None =>
      if String.eqb outcome "safe_transient" then Ok SafeTransient
      else if String.eqb outcome "unknown" then Ok AttemptUnknown
      else if String.eqb outcome "permanent" then Ok Permanent
      else contradictory
  | ASettled, Some outcome, Some response =>
      if String.eqb outcome "answer" then
        let? saved := map_err result_message (decode_decision_result reader_error response) in
        let? answer := map_err result_message (bind_decision saved declaration requirements) in
        Ok (Answer answer)
      else contradictory
  | _, _, _ => contradictory
  end.

(** One row: the bytes that are retained with it, and the attempt. *)
Definition read_row (declarations : list DecisionBlock) (requirements : list QuestionRequirements)
    (candidate : list N) (retained : N) (row : AttemptRow) : result (N * SavedDecisionAttempt) StoreFailure :=
  match at_decision_name row with
  | None => Err (Refused "Invalid type")
  | Some name =>
      let retained := retained + str_len name + match at_response_json row with Some r => str_len r | None => 0 end + 64 in
      if U64_MAX <? retained then Err (Refused "decision progress size overflow")
      else if l_bytes RESULT_LIMITS <? retained then Err (Refused "decision progress exceeds its retained byte limit")
      else if negb ((0 <=? at_attempt_number row) && (at_attempt_number row <=? 255))%Z then Err (SqlFailed "Integer out of range")
      else
        let? attempt := map_err (λ e, Refused (contract_message e)) (DecisionAttempt_new name (Z.to_N (at_attempt_number row))) in
        match List.find (λ block, String.eqb (d_name block) name) declarations with
        | None => Err (Refused "saved attempt names an unknown decision")
        | Some declaration =>
            if negb (String.eqb (at_attempt_id row) (attempt_id candidate attempt)) then
              Err (Refused "saved attempt identity is invalid")
            else
              let? outcome := map_err Refused (saved_outcome declaration requirements row) in
              Ok (retained, {| sa_attempt := attempt; sa_outcome := outcome |})
        end
  end.

(** The loop over the rows, with what was read and retained. *)
Fixpoint read_rows (declarations : list DecisionBlock) (requirements : list QuestionRequirements)
    (candidate : list N) (saved : list SavedDecisionAttempt) (retained : N) (rows : list AttemptRow) :
    result (list SavedDecisionAttempt) StoreFailure :=
  match rows with
  | [] => Ok saved
  | row :: rows =>
      if negb (N.of_nat (length saved) <? 2 * N.of_nat (length declarations)) then
        Err (Refused "decision progress has too many rows")
      else
        let? '(retained, attempt) := read_row declarations requirements candidate retained row in
        read_rows declarations requirements candidate (saved ++ [attempt]) retained rows
  end.

Definition read_decision_rows (candidate : string) (activation : EffectiveActivation) : sql DecisionProgress :=
  let declarations := cc_decisions (ea_compiled activation) in
  let requirements := question_requirements (ea_compiled activation) in
  let* rows := query (λ db, attempts_of db candidate) in
  let* id := refused (parse_candidate_id candidate) in
  let* attempts := lift (read_rows declarations requirements id [] 0 rows) in
  let answers := omap (λ row, match sa_outcome row with Answer a => Some a | _ => None end) attempts in
  do* refused (map_err bounded_text (measure_json RESULT_LIMITS
        (assessment_serial RESULT_VERSION answers (N.of_nat (length attempts)))));
  let progress := {| dp_attempts := attempts |} in
  do* refused (map_err store_message (validate_decision_progress declarations requirements progress));
  ret progress.

Definition read_decision_progress (claim : BurnCheckCandidateClaim) (activation : EffectiveActivation) :
    sql DecisionProgress :=
  let* current := query (λ db, exists_row (owns claim) (db_candidates db)) in
  do* ensure current "decision progress claim is stale";
  read_decision_rows (bc_candidate_id claim) activation.

Definition load_decision_progress (claimed : ClaimedCandidate) : sql DecisionProgress :=
  let* activation := context (registered_activation (fr_activation (cl_candidate claimed)))
    "decision progress requires its registered activation" in
  let* claim := claim_record claimed in
  read_decision_progress claim activation.

(** *** Claims (runtime_attempts.rs) *)

(** The row that [claim] reads, if the activation is the current one. *)
Definition claimable_row (id : string) (db : Database) : option CandidateRow :=
  select_one (λ c, has_id id c && String.eqb (cd_scope_key c) scope_key &&
    exists_row (joined_current c) (db_activations db)) (db_candidates db).

(** A candidate of the branch and generation that is claimed, sent or answered *)
Definition branch_busy (check : string) (generation : Z) (branch : string) (db : Database) : bool :=
  exists_row (λ c, String.eqb (cd_check_id c) check && String.eqb (cd_scope_key c) scope_key &&
    (cd_generation c =? generation)%Z && String.eqb (cd_branch_key c) branch &&
    in_states [SClaimed; SDispatching; SAnswered] c) (db_candidates db).

Definition cooldown_of (check : string) (generation : Z) (branch : string) (db : Database) : option Z :=
  co_until_epoch <$> select_one (λ r, String.eqb (co_check_id r) check && String.eqb (co_scope_key r) scope_key &&
    (co_generation r =? generation)%Z && String.eqb (co_branch_key r) branch) (db_cooldowns db).

Definition prior_of (check branch : string) (generation : Z) (db : Database) : option string :=
  cs_status <$> select_one (λ r, String.eqb (cs_check_id r) check && String.eqb (cs_scope_key r) scope_key &&
    String.eqb (cs_branch_key r) branch && (cs_generation r =? generation)%Z) (db_statuses db).

Definition optional_u64 (z : option Z) : result (option N) string :=
  match z with None => Ok None | Some z => result_map Some (column_u64 z) end.

(** The due time that is reported for work that waits. *)
Definition retry_at (now : N) (until : option N) : N :=
  match until with
  | None => sat_add_u64 now 1000
  | Some until => N.max (sat_mul_u64 until 1000) (sat_add_u64 now 1)
  end.

Definition claim (candidate : FrozenCandidate) (now_ms : N) (bypass : bool) : sql CandidateClaim :=
  let check := a_definition_id (fr_activation candidate) in
  let branch := branch_id (fr_branch candidate) in
  do* ensure (bool_decide (a_scope (fr_activation candidate) = ss_scope store))
        "candidate belongs to another scope";
  match registered_activation (fr_activation candidate) with
  | None => ret ClaimStale
  | Some activation =>
      let id := hex (fr_fingerprint candidate) in
      let* ended := transaction
        (let* saved := query (claimable_row id) in
         match saved with
         | None => ret (RollBack (inl ClaimStale))
         | Some row =>
             let* fence := refused (column_u64 (cd_claim_fence row)) in
             let* started := refused (optional_u64 (cd_started_cooldown_until_epoch row)) in
             if negb (bool_decide (cd_state row = SPending)) then ret (RollBack (inl ClaimStale))
             else
               let* origin := statement (λ db,
                 result_map (λ b, (b, db)) (new_candidate_request_origin_current db id)) in
               let* typed :=
                 if negb origin then ret false
                 else statement (λ db, result_map (λ b, (b, db)) (typed_dependencies_current db id)) in
               if negb typed then
                 do* update_candidates (λ _ c, has_id id c && in_states [SPending] c) (λ _, set_state SStale);
                 ret (Commit (inl ClaimStale))
               else
                 let* frozen := refused (frozen_from_str (cd_frozen_input_json row)) in
                 do* ensure (candidate_eqb frozen candidate) "claim does not match frozen candidate";
                 let* generation := refused (integer (a_generation (fr_activation candidate))) in
                 let* busy := query (branch_busy check generation branch) in
                 let* cooldown := query (cooldown_of check generation branch) in
                 let* until := refused (optional_u64 cooldown) in
                 let* resumed := query (λ db, existsb (λ _, true) (attempts_of db id)) in
                 let own_cooldown :=
                   resumed && match started, until with Some own, Some until => until <=? own | _, _ => false end in
                 if busy || (negb bypass && negb own_cooldown &&
                             match until with Some until => now_ms <? sat_mul_u64 until 1000 | None => false end)
                 then ret (RollBack (inl (ClaimNotDue (retry_at now_ms until))))
                 else
                   do* ensure (negb (is_local (ea_compiled activation)) || negb resumed)
                         "local work cannot retain provider attempts";
                   let* prior :=
                     if resumed then ret (cd_prior_status row) else query (prior_of check branch generation) in
                   do* ensure (fence <? U64_MAX) "claim fence is exhausted";
                   let* saved_fence := refused (integer (fence + 1)) in
                   let* epoch := refused (integer (now_ms / 1000)) in
                   do* update_candidates (λ _ c, has_id id c && in_states [SPending] c)
                         (λ _ c, set_updated epoch (set_prior prior epoch
                                 (set_claim (Some (ss_owner store)) saved_fence (set_state SClaimed c))));
                   ret (Commit (inr (prior, fence + 1)))
         end) in
      match ended with
      | inl outcome => ret outcome
      | inr (prior, fence) =>
          let* prior_status := refused (parse_status prior) in
          ret (Claimed
            {| cl_id := CandidateId_from candidate; cl_candidate := candidate;
               cl_prior_status := prior_status; cl_fence := fence |})
      end
  end.

(** The text of a state *)
Definition state_name (s : CandidateState) : string :=
  match s with
  | SPending => "pending" | SClaimed => "claimed" | SDispatching => "dispatching" | SAnswered => "answered"
  | SAccepted => "accepted" | SCoalesced => "coalesced" | SNotAssessed => "not_assessed"
  | SExecutionFailed => "execution_failed" | SCancelled => "cancelled" | SStale => "stale"
  end.

(** The history row of a candidate that was not accepted *)
Definition unaccepted_row (outcome : string) (answer : option string) (actions : string) (now : Z)
    (c : CandidateRow) : HistoryRow :=
  {| hi_assessment_id := assessment_key (cd_candidate_id c); hi_candidate_id := cd_candidate_id c;
     hi_check_id := cd_check_id c; hi_scope_key := cd_scope_key c; hi_generation := cd_generation c;
     hi_branch_key := cd_branch_key c; hi_trigger_position := cd_trigger_position c;
     hi_outcome := outcome; hi_answer_json := answer; hi_actions_json := actions;
     hi_evidence_valid := false; hi_accepted_at_epoch := now |}.

(** An attempt that forbids to release a claim, or to queue it again *)
Definition blocks_release (a : AttemptRow) : bool :=
  negb (bool_decide (at_state a = ASettled)) ||
  match at_outcome a with
  | None => false
  | Some outcome =>
      negb (String.eqb outcome "answer" || String.eqb outcome "safe_transient") ||
      (String.eqb outcome "safe_transient" && (at_attempt_number a =? 2)%Z)
  end.

(** A candidate of the same branch with a later trigger that is still of use *)
Definition newer_candidate (db : Database) (c : CandidateRow) : bool :=
  exists_row (λ n, String.eqb (cd_check_id n) (cd_check_id c) && String.eqb (cd_scope_key n) (cd_scope_key c) &&
    (cd_generation n =? cd_generation c)%Z && String.eqb (cd_branch_key n) (cd_branch_key c) &&
    (cd_trigger_position c <? cd_trigger_position n)%Z &&
    negb (in_states [SStale; SCancelled; SCoalesced] n)) (db_candidates db).

Definition release_unattempted_claim (claimed : ClaimedCandidate) : sql ClaimOutcome :=
  let* claim := claim_record claimed in
  let coalesces :=
    match registered_activation (fr_activation (cl_candidate claimed)) with
    | Some active => match tr_window (cc_trigger (ea_compiled active)) with Some _ => true | None => false end
    | None => false
    end in
  do* ensure (cl_fence claimed <? U64_MAX) "claim fence is exhausted";
  let* next_fence := refused (integer (cl_fence claimed + 1)) in
  transaction
    (let* now := now_epoch in
     let* changed := update_candidates
       (λ db c, owns claim c && in_states [SClaimed] c &&
                negb (existsb blocks_release (attempts_of db (bc_candidate_id claim))))
       (λ db c, set_updated now (set_claim None next_fence
          (set_state (if coalesces && negb (existsb (λ _, true) (attempts_of db (bc_candidate_id claim))) &&
                         newer_candidate db c then SCoalesced else SPending) c))) in
     if changed =? 0 then ret (RollBack Stale)
     else
       let* pending := query (λ db, exists_row (λ c, has_id (bc_candidate_id claim) c && in_states [SPending] c)
                                      (db_candidates db)) in
       ret (Commit (if pending then Current else Stale))).

(** *** Preparations (runtime_attempts.rs) *)

Definition saved_preparation (claimed : ClaimedCandidate) : sql (option PreparationRecord) :=
  let* claim := claim_record claimed in
  let* row := query (λ db, select_one (owns claim) (db_candidates db)) in
  match row with
  | None => fail (SqlFailed "Query returned no rows")
  | Some row =>
      ret ((λ saved, match decode_preparation_record saved with
                     | Ok preparation => preparation
                     | Err failure => RecordRejected failure
                     end) <$> cd_preparation_json row)
  end.

Definition save_preparation (claimed : ClaimedCandidate) (preparation : PreparationRecord) : sql ClaimOutcome :=
  do* ensure (match preparation with RecordLocal _ => false | _ => true end)
        "local preparation must be saved with its answer and cooldown";
  do* require_model_claim claimed;
  let* activation := context (registered_activation (fr_activation (cl_candidate claimed)))
    "model preparation requires its registered activation" in
  do* (match preparation with
       | RecordReady prepared =>
           refused (map_err prepared_message
             (prepared_validate_for_declarations prepared (cc_decisions (ea_compiled activation))))
       | _ => ret tt
       end);
  let* claim := claim_record claimed in
  let* saved := refused (encode_preparation preparation) in
  transaction
    (let* previous := query (λ db, cd_preparation_json <$>
       select_one (λ c, owns claim c && in_states [SClaimed] c) (db_candidates db)) in
     match previous with
     | None => ret (RollBack Stale)
     | Some (Some previous) =>
         let* decoded := refused (map_err pf_detail (decode_preparation_record previous)) in
         do* ensure (preparation_eqb decoded preparation) "decision preparation is immutable";
         ret (Commit Current)
     | Some None =>
         let* attempted := query (λ db, existsb (λ _, true) (attempts_of db (bc_candidate_id claim))) in
         do* ensure (negb attempted) "cannot prepare a retry without its original request";
         do* update_candidates (λ _, owns claim) (λ _, set_preparation (Some saved));
         ret (Commit Current)
     end).

(** *** Dispatch (runtime_attempts.rs) *)

(** [u64::try_from(cooldown.as_millis())]; a duration is given in milliseconds *)
Definition cooldown_ms (cooldown : N) : result N string :=
  if cooldown <=? U64_MAX then Ok cooldown else Err "cooldown exceeds supported duration".

Definition cooldown_until (now cooldown : N) : N := sat_add_u64 (sat_add_u64 now cooldown) 999 / 1000.

(** The cooldown of the branch of a candidate is at least [until]. *)
Definition raise_cooldown (candidate : string) (until : Z) : sql N :=
  execute (λ db,
    let rows := List.filter (has_id candidate) (db_candidates db) in
    let raise (cooldowns : list CooldownRow) (c : CandidateRow) :=
      upsert (λ r, String.eqb (co_check_id r) (cd_check_id c) && String.eqb (co_scope_key r) (cd_scope_key c) &&
                   (co_generation r =? cd_generation c)%Z && String.eqb (co_branch_key r) (cd_branch_key c))
        {| co_check_id := cd_check_id c; co_scope_key := cd_scope_key c; co_generation := cd_generation c;
           co_branch_key := cd_branch_key c; co_until_epoch := until |}
        (λ r, {| co_check_id := co_check_id r; co_scope_key := co_scope_key r; co_generation := co_generation r;
                 co_branch_key := co_branch_key r; co_until_epoch := Z.max (co_until_epoch r) until |}) cooldowns in
    (N.of_nat (length rows), with_cooldowns (fold_left raise rows (db_cooldowns db)) db)).

(** The columns that one candidate has, or no row. *)
Definition candidate_row (id : string) : sql CandidateRow :=
  let* row := query (λ db, select_one (has_id id) (db_candidates db)) in
  match row with Some row => ret row | None => fail (SqlFailed "Query returned no rows") end.

(** The unfinished candidate of a claim becomes stale. *)
Definition mark_stale (claim : BurnCheckCandidateClaim) (f : CandidateRow → CandidateRow) : sql N :=
  update_candidates (λ _ c, owns claim c && in_states [SClaimed; SDispatching; SAnswered] c)
    (λ _ c, f (set_state SStale c)).

Definition is_next (state : DecisionProgressState) (attempt : DecisionAttempt) : bool :=
  match state with PNext next _ => bool_decide (next = attempt) | _ => false end.

Definition dispatch (claimed : ClaimedCandidate) (now_ms cooldown : N) (attempt : DecisionAttempt) :
    sql ClaimOutcome :=
  do* require_model_claim claimed;
  let* claim := claim_record claimed in
  do* refused (map_err contract_message (attempt_validate attempt));
  match registered_activation (fr_activation (cl_candidate claimed)) with
  | None => ret Stale
  | Some activation =>
      let declarations := cc_decisions (ea_compiled activation) in
      transaction
        (let* current := claim_is_current_in claim activation in
         if negb current then
           let* now := now_epoch in
           do* mark_stale claim (set_updated now);
           ret (Commit Stale)
         else
           let* row := candidate_row (bc_candidate_id claim) in
           let* frozen := refused (frozen_from_str (cd_frozen_input_json row)) in
           do* ensure (candidate_eqb frozen (cl_candidate claimed))
                 "dispatch does not match the exact frozen candidate";
           let* progress := read_decision_progress claim activation in
           let* validated := refused (map_err store_message
             (validate_decision_progress declarations (question_requirements (ea_compiled activation)) progress)) in
           do* ensure (is_next (vp_state validated) attempt)
                 "dispatch is not the next declared decision attempt";
           let* row := candidate_row (bc_candidate_id claim) in
           let* preparation := context (cd_preparation_json row)
             "dispatch requires the complete saved preparation" in
           let* record := refused (map_err pf_detail (decode_preparation_record preparation)) in
           do* (match record with
                | RecordReady prepared =>
                    refused (map_err prepared_message (prepared_validate_for_declarations prepared declarations))
                | _ => fail (Refused "dispatch requires a ready model preparation")
                end);
           let* now := refused (integer (now_ms / 1000)) in
           let* changed := update_candidates
             (λ db c, owns claim c && in_states [SClaimed] c &&
                exists_row (λ a, joined c a && (av_generation a =? cd_generation c)%Z && av_enabled a)
                  (db_activations db))
             (λ _ c, set_diagnostic None (set_updated now (set_state SDispatching c))) in
           if changed =? 0 then ret (RollBack Stale)
           else
             do* insert_attempt
                   {| at_attempt_id := attempt_id (cl_id claimed) attempt;
                      at_candidate_id := bc_candidate_id claim;
                      at_decision_name := Some (da_decision attempt);
                      at_attempt_number := Z.of_N (da_number attempt);
                      at_state := ADispatchIntent; at_outcome := None; at_response_json := None;
                      at_updated_at_epoch := now |};
             do* (match dp_attempts progress with
                  | _ :: _ => ret 0
                  | [] =>
                      let* cooldown_ms := refused (cooldown_ms cooldown) in
                      let until := if cooldown =? 0 then 0 else cooldown_until now_ms cooldown_ms in
                      let* saved := refused (integer until) in
                      do* update_candidates (λ _, has_id (bc_candidate_id claim)) (λ _, set_started_cooldown saved);
                      if cooldown =? 0 then ret 0 else raise_cooldown (bc_candidate_id claim) saved
                  end);
             ret (Commit Current))
  end.

(** *** Settlement of an attempt (runtime_attempts.rs) *)

Definition settled_row (outcome : string) (response : option string) (now : Z) (r : AttemptRow) : AttemptRow :=
  {| at_attempt_id := at_attempt_id r; at_candidate_id := at_candidate_id r;
     at_decision_name := at_decision_name r; at_attempt_number := at_attempt_number r;
     at_state := ASettled; at_outcome := Some outcome;
     at_response_json := match response with Some _ => response | None => at_response_json r end;
     at_updated_at_epoch := now |}.

(** [UPDATE burn_check_evaluation_attempt SET state = 'settled' …]: the intent of
    the attempt gets its outcome, if the claim is still the one that holds. *)
Definition settle_attempt (claimed : ClaimedCandidate) (claim : BurnCheckCandidateClaim)
    (attempt : DecisionAttempt) (outcome : string) (response : option string) (now : Z) : sql N :=
  update_attempts
    (λ db r, String.eqb (at_candidate_id r) (bc_candidate_id claim) &&
       String.eqb (at_attempt_id r) (attempt_id (cl_id claimed) attempt) &&
       bool_decide (at_state r = ADispatchIntent) && exists_row (owns claim) (db_candidates db))
    (settled_row outcome response now).

(** The history of a candidate that lost its claim; [conflict] as in the statement *)
Definition record_lost (conflict : HistoryRow → HistoryRow → result HistoryRow string) (id : string) (now : Z) :
    sql N :=
  insert_history conflict (λ c,
    if has_id id c && in_states [SStale; SCancelled] c
    then Some (unaccepted_row (state_name (cd_state c)) (cd_answer_json c) "{}" now c) else None).

Definition outcome_name (outcome : AttemptFailure) : string :=
  match outcome with
  | FailSafeTransient => "safe_transient" | FailUnknown => "unknown" | FailPermanent => "permanent"
  end.

Definition is_safe_transient (outcome : AttemptFailure) : bool :=
  match outcome with FailSafeTransient => true | _ => false end.

Definition settle_failure (claimed : ClaimedCandidate) (attempt : DecisionAttempt)
    (outcome : AttemptFailure) (diagnostic : EvaluationDiagnostic) : sql ClaimOutcome :=
  do* require_model_claim claimed;
  do* refused (map_err contract_message (attempt_validate attempt));
  let* claim := claim_record claimed in
  transaction
    (let* now := now_epoch in
     let* changed := settle_attempt claimed claim attempt (outcome_name outcome) None now in
     do* ensure (changed =? 1) "attempt claim is stale or already settled";
     let* saved := refused (to_string (diagnostic_serial diagnostic)) in
     do* update_candidates (λ _, owns claim) (λ _, set_diagnostic (Some saved));
     do* (if is_safe_transient outcome && (da_number attempt =? 1) then
            update_candidates (λ _ c, has_id (bc_candidate_id claim) c && in_states [SDispatching] c)
              (λ _, set_state SClaimed)
          else ret 0);
     let* current :=
       match registered_activation (fr_activation (cl_candidate claimed)) with
       | Some activation => claim_is_current_in claim activation
       | None => ret false
       end in
     do* (if (current : bool) then ret 0
          else
            do* mark_stale claim id;
            let* now := now_epoch in
            record_lost keep_old (bc_candidate_id claim) now);
     ret (Commit (if current then Current else Stale))).

(** [ON CONFLICT(candidate_id) DO UPDATE SET answer_json = excluded.answer_json] *)
Definition take_answer (old new : HistoryRow) : result HistoryRow string :=
  Ok {| hi_assessment_id := hi_assessment_id old; hi_candidate_id := hi_candidate_id old;
        hi_check_id := hi_check_id old; hi_scope_key := hi_scope_key old; hi_generation := hi_generation old;
        hi_branch_key := hi_branch_key old; hi_trigger_position := hi_trigger_position old;
        hi_outcome := hi_outcome old; hi_answer_json := hi_answer_json new;
        hi_actions_json := hi_actions_json old; hi_evidence_valid := hi_evidence_valid old;
        hi_accepted_at_epoch := hi_accepted_at_epoch old |}.

Definition save_decision_answer (claimed : ClaimedCandidate) (attempt : DecisionAttempt)
    (evaluated : DecisionResult) : sql ClaimOutcome :=
  do* require_model_claim claimed;
  do* refused (map_err contract_message (attempt_validate attempt));
  do* ensure (String.eqb (dr_decision evaluated) (da_decision attempt) &&
              (dr_attempts evaluated =? da_number attempt))
        "decision answer does not match its exact attempt";
  do* refused (map_err result_message (measure_decision_results_with_next [] evaluated));
  let* claim := claim_record claimed in
  let* answer := refused (to_string (decision_result_serial evaluated)) in
  let activation := registered_activation (fr_activation (cl_candidate claimed)) in
  transaction
    (let* now := now_epoch in
     let* changed := settle_attempt claimed claim attempt "answer" (Some answer) now in
     do* ensure (changed =? 1) "answer has no exact dispatch intent";
     let* current :=
       match activation with Some activation => claim_is_current_in claim activation | None => ret false end in
     let* complete :=
       match activation with
       | None => ret None
       | Some activation =>
           let* progress := read_decision_progress claim activation in
           let* validated := refused (map_err store_message
             (validate_decision_progress (cc_decisions (ea_compiled activation))
                (question_requirements (ea_compiled activation)) progress)) in
           match vp_state validated with
           | PComplete complete =>
               let* text := refused (to_string (assessment_record complete)) in ret (Some text)
           | PNext _ _ => ret None
           | PTerminal _ => fail (Refused "decision answer leaves terminal progress")
           end
       end in
     let* now := now_epoch in
     do* update_candidates (λ _, owns claim) (λ _ c,
           set_updated now (set_answer (match complete with Some _ => complete | None => cd_answer_json c end)
             (set_state (if (current : bool)
                         then match complete with None => SClaimed | Some _ => SAnswered end
                         else if in_states [SClaimed; SDispatching; SAnswered] c then SStale else cd_state c) c)));
     do* (if current then ret 0
          else let* now := now_epoch in record_lost take_answer (bc_candidate_id claim) now);
     ret (Commit (if current then Current else Stale))).

(** *** Terminal outcomes (runtime_attempts.rs) *)

Definition terminal_with_diagnostic (claimed : ClaimedCandidate) (detail : string) (not_assessed : bool)
    (preparation : option PreparationRecord) (diagnostic : option EvaluationDiagnostic) : sql ClaimOutcome :=
  let* claim := claim_record claimed in
  let* preparation :=
    match preparation with
    | None => ret None
    | Some preparation => let* text := refused (encode_preparation preparation) in ret (Some text)
    end in
  let state := if not_assessed then SNotAssessed else SExecutionFailed in
  transaction
    (let* saved := query (λ db, cd_state <$> select_one (owns claim) (db_candidates db)) in
     match saved with
     | None => ret (RollBack Stale)
     | Some saved =>
         let stale := bool_decide (saved = SStale) || bool_decide (saved = SCancelled) in
         do* ensure (stale || existsb (λ s, bool_decide (saved = s)) [SClaimed; SDispatching; SAnswered])
               "terminal claim is already settled";
         let state := if stale then saved else state in
         let* actions := refused (to_string (detail_serial detail)) in
         let* now := now_epoch in
         do* insert_history keep_old (λ c,
               if owns claim c then Some (unaccepted_row (state_name state) (cd_answer_json c) actions now c)
               else None);
         let* now := now_epoch in
         let* diagnostic :=
           match diagnostic with
           | None => ret None
           | Some d => let* text := refused (to_string (diagnostic_serial d)) in ret (Some text)
           end in
         do* update_candidates (λ _, owns claim) (λ _ c,
               set_updated now (set_state state
                 (set_texts (cd_answer_json c)
                    (match preparation with Some _ => preparation | None => cd_preparation_json c end)
                    (match cd_diagnostic_json c with Some _ => cd_diagnostic_json c | None => diagnostic end) c)));
         ret (Commit (if stale then Stale else Current))
     end).

Definition terminal (claimed : ClaimedCandidate) (detail : string) (not_assessed : bool) : sql ClaimOutcome :=
  terminal_with_diagnostic claimed detail not_assessed None None.

(** *** Local work (runtime_local.rs) *)

Definition decode_answer (activation : EffectiveActivation) (text : string) : result EvaluatedAssessment string :=
  let? saved := map_err result_message (decode_results reader_error text) in
  map_err result_message
    (bind_assessment saved (cc_decisions (ea_compiled activation)) (question_requirements (ea_compiled activation))).

(** [saved.map(decode).transpose()] *)
Definition optional_result {A B} (f : A → result B string) (o : option A) : result (option B) string :=
  match o with None => Ok None | Some a => result_map Some (f a) end.

Definition start_local (claimed : ClaimedCandidate) (now_ms cooldown : N) (preparation : LocalPreparation) :
    sql ClaimOutcome :=
  let* claim := claim_record claimed in
  match registered_activation (fr_activation (cl_candidate claimed)) with
  | None => ret Stale
  | Some activation =>
      do* ensure (is_local (ea_compiled activation)) "local start requires a local check";
      transaction
        (let* current := claim_is_current_in claim activation in
         if negb current then ret (RollBack Stale)
         else
           let* saved := query (λ db, select_one (λ c, owns claim c &&
             exists_row (λ a, joined_current c a &&
               String.eqb (av_definition_revision a) (hex (ea_revision activation))) (db_activations db))
             (db_candidates db)) in
           match saved with
           | None => ret (RollBack Stale)
           | Some row =>
               if negb (in_states [SClaimed; SAnswered] row) then ret (RollBack Stale)
               else
                 let* frozen := refused (frozen_from_str (cd_frozen_input_json row)) in
                 do* ensure (candidate_eqb frozen (cl_candidate claimed))
                       "local start does not match the frozen candidate";
                 let* attempted := query (λ db, existsb (λ _, true) (attempts_of db (bc_candidate_id claim))) in
                 do* ensure (negb attempted) "local work cannot retain provider attempts";
                 do* refused (map_err pf_detail (LocalPreparation_validate_for_resume preparation));
                 let* encoded := refused (encode_preparation (RecordLocal preparation)) in
                 do* refused (map_err result_message
                       (validate_for_declarations EvaluatedAssessment_local (cc_decisions (ea_compiled activation))
                          (question_requirements (ea_compiled activation))));
                 let* answer := refused (to_string (assessment_record EvaluatedAssessment_local)) in
                 if bool_decide (cd_state row = SAnswered) then
                   let* previous := refused (optional_result
                     (λ saved, map_err pf_detail (decode_preparation_record saved)) (cd_preparation_json row)) in
                   let same := match previous with
                               | Some previous => preparation_eqb previous (RecordLocal preparation)
                               | None => false
                               end in
                   let* answered :=
                     if (same : bool) then refused (optional_result (decode_answer activation) (cd_answer_json row))
                     else ret None in
                   do* ensure (same && match answered with Some a => is_local_assessment a | None => false end)
                         "local start is immutable";
                   ret (RollBack Current)
                 else
                   do* ensure (match cd_preparation_json row, cd_answer_json row with None, None => true | _, _ => false end)
                         "local start requires an unstarted claim";
                   do* ensure (started_at_unix_ms preparation =? now_ms)
                         "local start time does not match preparation";
                   let* now := refused (integer (now_ms / 1000)) in
                   let* changed := update_candidates (λ _ c, owns claim c && in_states [SClaimed] c)
                     (λ _ c, set_updated now (set_texts (Some answer) (Some encoded) (cd_diagnostic_json c)
                               (set_state SAnswered c))) in
                   do* ensure (changed =? 1) "local start did not save its exact claim";
                   do* (if cooldown =? 0 then ret tt
                        else
                          let* cooldown_ms := refused (cooldown_ms cooldown) in
                          let* until := refused (integer (cooldown_until now_ms cooldown_ms)) in
                          let* changed := raise_cooldown (bc_candidate_id claim) until in
                          ensure (changed =? 1) "local start did not save its first cooldown");
                   ret (Commit Current)
           end)
  end.

(** *** Restart (runtime_recovery.rs) *)

(** The intents of the scope's candidates become unknown. *)
Definition abandon_attempt (now : Z) (r : AttemptRow) : AttemptRow :=
  {| at_attempt_id := at_attempt_id r; at_candidate_id := at_candidate_id r;
     at_decision_name := at_decision_name r; at_attempt_number := at_attempt_number r;
     at_state := ASettled; at_outcome := Some "unknown"; at_response_json := at_response_json r;
     at_updated_at_epoch := now |}.

Definition abandoned_detail : string := "dispatch outcome unknown or retry limit exhausted".

(** An attempt row that keeps a candidate of the scope from being queued again *)
Definition blocks_requeue (a : AttemptRow) : bool :=
  negb (bool_decide (is_Some (at_decision_name a))) || blocks_release a.

Definition recover_abandoned : sql unit :=
  let in_scope (c : CandidateRow) := String.eqb (cd_scope_key c) scope_key in
  let abandoned (c : CandidateRow) := in_scope c && in_states [SClaimed; SDispatching] c in
  transaction
    (let* unknown := refused (to_string (diagnostic_serial
        {| ed_code := ECDeliveryUnknown;
           ed_detail := "The provider delivery outcome is unknown after restart." |})) in
     do* update_candidates
           (λ db c, abandoned c &&
              existsb (λ a, bool_decide (at_state a = ADispatchIntent)) (attempts_of db (cd_candidate_id c)))
           (λ _, set_diagnostic (Some unknown));
     let* now := now_epoch in
     do* update_attempts
           (λ db r, bool_decide (at_state r = ADispatchIntent) &&
              exists_row (λ c, has_id (at_candidate_id r) c && in_scope c) (db_candidates db))
           (abandon_attempt now);
     do* update_candidates
           (λ db c, abandoned c && negb (existsb blocks_requeue (attempts_of db (cd_candidate_id c))))
           (λ _ c, set_claim None (cd_claim_fence c) (set_state SPending c));
     let* detail := refused (to_string (detail_serial abandoned_detail)) in
     let* now := now_epoch in
     do* insert_history keep_old (λ c,
           if abandoned c then
             let own := d ← cd_diagnostic_json c; json_extract d "$.detail" in
             Some (unaccepted_row "execution_failed" None
               (json_object_detail (match own with Some _ => own | None => json_extract detail "$.detail" end))
               now c)
           else None);
     let* now := now_epoch in
     do* update_candidates (λ _, abandoned)
           (λ _ c, set_updated now (set_claim None (cd_claim_fence c) (set_state SExecutionFailed c)));
     do* update_candidates (λ _ c, in_scope c && in_states [SAnswered] c)
           (λ _ c, set_claim (Some (ss_owner store)) (cd_claim_fence c + 1)%Z c);
     ret (Commit tt)).

(** *** Overflow and inventory (candidates.rs, runtime.rs) *)

Definition record_burn_check_overflow (candidate safe_reason : string) (now : Z) : sql bool :=
  transaction
    (let* found := query (λ db, exists_row (λ c, has_id candidate c && in_states [SPending] c) (db_candidates db)) in
     if negb found then ret (RollBack false)
     else
       let* actions := refused (to_string (detail_serial safe_reason)) in
       do* insert_history no_conflict (λ c,
             if has_id candidate c && in_states [SPending] c then
               Some {| hi_assessment_id := "overflow:" +:+ candidate; hi_candidate_id := candidate;
                       hi_check_id := cd_check_id c; hi_scope_key := cd_scope_key c;
                       hi_generation := cd_generation c; hi_branch_key := cd_branch_key c;
                       hi_trigger_position := cd_trigger_position c; hi_outcome := "not_assessed";
                       hi_answer_json := None; hi_actions_json := actions;
                       hi_evidence_valid := false; hi_accepted_at_epoch := now |}
             else None);
       do* update_candidates (λ _, has_id candidate)
             (λ _ c, set_updated now (set_inputs "{}" "{}" (set_state SNotAssessed c)));
       ret (Commit true)).

Definition record_overflow (candidate : FrozenCandidate) : sql unit :=
  do* ensure (bool_decide (a_scope (fr_activation candidate) = ss_scope store))
        "overflow candidate belongs to another scope";
  let* now := now_epoch in
  do* record_burn_check_overflow (hex (fr_fingerprint candidate)) "pending candidate limit reached" now;
  ret tt.

(** The candidates come in the order of their rows. *)
Definition load_terminal_candidate_ids (ids : list (list N)) : sql (list (list N)) :=
  do* ensure (N.of_nat (length ids) <=? MAX_PENDING_CANDIDATES)
        "terminal candidate query exceeds the scheduler bound";
  match ids with
  | [] => ret []
  | _ =>
      query (λ db, omap (λ c,
        if String.eqb (cd_scope_key c) scope_key &&
           in_states [SAccepted; SCoalesced; SNotAssessed; SExecutionFailed; SCancelled; SStale] c
        then List.find (λ id, String.eqb (hex id) (cd_candidate_id c)) ids else None) (db_candidates db))
  end.

(** *** Acceptance (assessments.rs) *)

Definition setting_is (key : string) (p : string → bool) (db : Database) : bool :=
  existsb (λ kv, String.eqb kv.1 key && p kv.2) (settings (db_sources db)).

(** An answer of a live activation waits while the user's settings stop the checks. *)
Definition acceptance_paused (candidate : string) (db : Database) : bool :=
  exists_row (λ c, has_id candidate c && in_states [SAnswered] c &&
    (if json_valid (cd_scope_key c) then bool_decide (json_extract (cd_scope_key c) "$.run" = Some "Live") else false) &&
    (setting_is "internal:yamlBurnChecksDiscoveryEnabledV1" (λ v, negb (String.eqb v "true")) db ||
     (setting_is "internal:typesafeCredentialChangePendingV1" (String.eqb "true") db ||
      setting_is "internal:smartChecksConnectionChangePendingV1" (λ v, negb (String.eqb v "")) db ||
      setting_is "internal:smartChecksCredentialRemovalPendingV1" (λ v, negb (String.eqb v "")) db ||
      setting_is "internal:typesafeAuthRejectedV1" (String.eqb "true") db))) (db_candidates db).

(** The answered candidate of the claim, with the applied sequence of its activation *)
Definition answered_row (claim : BurnCheckCandidateClaim) (db : Database) : option (CandidateRow * Z) :=
  c ← select_one (λ c, in_states [SAnswered] c && owns claim c && exists_row (joined_current c) (db_activations db))
        (db_candidates db);
  a ← select_one (joined_current c) (db_activations db);
  Some (c, av_applied_sequence a).

Definition watermark_of (c : CandidateRow) (db : Database) : option Z :=
  wm_position <$> select_one (λ w, String.eqb (wm_check_id w) (cd_check_id c) &&
    String.eqb (wm_scope_key w) (cd_scope_key c) && String.eqb (wm_branch_key w) (cd_branch_key c) &&
    (wm_generation w =? cd_generation c)%Z) (db_watermarks db).

(** [UPDATE … SET state = 'stale' WHERE candidate_id = ?1 AND state = 'answered'] *)
Definition answered_is_stale (p : CandidateRow → bool) (f : CandidateRow → CandidateRow) : sql N :=
  update_candidates (λ _ c, p c && in_states [SAnswered] c) (λ _ c, f (set_state SStale c)).

(** The history, the watermark, the status and the state of an accepted answer *)
Definition commit_acceptance (c : CandidateRow) (assessment : string) (answer actions : Value)
    (status_write : option string) (now : Z) : sql (Ending AcceptanceOutcome) :=
  let* answer_text := refused (to_string (value_serial answer)) in
  let* actions_text := refused (to_string (value_serial actions)) in
  do* insert_history no_conflict (λ r,
        if has_id (cd_candidate_id c) r then
          Some {| hi_assessment_id := assessment; hi_candidate_id := cd_candidate_id c;
                  hi_check_id := cd_check_id c; hi_scope_key := cd_scope_key c;
                  hi_generation := cd_generation c; hi_branch_key := cd_branch_key c;
                  hi_trigger_position := cd_trigger_position c; hi_outcome := "assessed";
                  hi_answer_json := Some answer_text; hi_actions_json := actions_text;
                  hi_evidence_valid := true; hi_accepted_at_epoch := now |}
        else None);
  do* execute (λ db, (1, with_watermarks
        (upsert (λ w, String.eqb (wm_check_id w) (cd_check_id c) && String.eqb (wm_scope_key w) (cd_scope_key c) &&
                      String.eqb (wm_branch_key w) (cd_branch_key c))
           {| wm_check_id := cd_check_id c; wm_scope_key := cd_scope_key c; wm_branch_key := cd_branch_key c;
              wm_generation := cd_generation c; wm_position := cd_trigger_position c |}
           (λ w, {| wm_check_id := wm_check_id w; wm_scope_key := wm_scope_key w; wm_branch_key := wm_branch_key w;
                    wm_generation := cd_generation c; wm_position := cd_trigger_position c |})
           (db_watermarks db)) db));
  do* (match status_write with
       | None => ret 0
       | Some status =>
           do* ensure (String.eqb status "success" || String.eqb status "failure") "invalid Burn Check status";
           execute (λ db, (1, with_statuses
             (upsert (λ s, String.eqb (cs_check_id s) (cd_check_id c) && String.eqb (cs_scope_key s) (cd_scope_key c) &&
                           String.eqb (cs_branch_key s) (cd_branch_key c))
                {| cs_check_id := cd_check_id c; cs_scope_key := cd_scope_key c; cs_branch_key := cd_branch_key c;
                   cs_generation := cd_generation c; cs_status := status; cs_assessment_id := assessment;
                   cs_position := cd_trigger_position c; cs_evidence_valid := true; cs_updated_at_epoch := now |}
                (λ s, {| cs_check_id := cs_check_id s; cs_scope_key := cs_scope_key s;
                         cs_branch_key := cs_branch_key s; cs_generation := cd_generation c; cs_status := status;
                         cs_assessment_id := assessment; cs_position := cd_trigger_position c;
                         cs_evidence_valid := true; cs_updated_at_epoch := now |})
                (db_statuses db)) db))
       end);
  do* update_candidates (λ _ r, has_id (cd_candidate_id c) r && in_states [SAnswered] r)
        (λ _ r, set_updated now (set_state SAccepted r));
  ret (Commit Accepted).

(** The saved preparation must fit the kind of the answer. *)
Definition acceptable_preparation (candidate : string) (answer : Value)
    (preparation : option PreparationRecord) : sql unit :=
  if value_eqb answer (to_value (assessment_record EvaluatedAssessment_local)) then
    match preparation with
    | Some (RecordLocal preparation) =>
        do* refused (map_err pf_detail (LocalPreparation_validate_for_resume preparation));
        let* attempted := query (λ db, existsb (λ _, true) (attempts_of db candidate)) in
        ensure (negb attempted) "local work cannot retain provider attempts"
    | _ => fail (Refused "a local answer requires its saved local preparation")
    end
  else
    ensure (match preparation with Some (RecordLocal _) => false | _ => true end)
      "a local preparation requires an empty zero-attempt answer".

(** What follows once the answered row of the claim is read. *)
Definition accept_answered (claim : BurnCheckCandidateClaim) (assessment : string) (answer actions : Value)
    (status_write : option string) (now : Z) (row : CandidateRow * Z) : sql (Ending AcceptanceOutcome) :=
  let '(c, applied) := row in
  let id := bc_candidate_id claim in
  let* persisted := context (cd_answer_json c) "answered candidate has no saved response" in
  do* refused (map_err result_message (decode_results reader_error persisted));
  let* value := context (from_str read_value persisted) "invalid saved response" in
  do* ensure (value_eqb value answer) "answer does not match the durable response";
  let* preparation := refused (optional_result
    (λ saved, map_err pf_detail (decode_preparation_record saved)) (cd_preparation_json c)) in
  do* acceptable_preparation id answer preparation;
  do* context (session_key (cd_session_key_json c)) "invalid session key";
  let* newer := query (λ db,
    newer_publication db (cd_session_key_json c) applied (cd_check_id c) (cd_scope_key c) (cd_generation c)) in
  if (applied <? cd_selected_publication_head c)%Z || newer then ret (RollBack Deferred)
  else
    let* observed := query (λ db,
      forallb (dependency_current (cd_check_id c) (cd_scope_key c) db) (observed_dependencies id db)) in
    let* typed := statement (λ db, result_map (λ b, (b, db)) (typed_dependencies_current db id)) in
    if negb (typed && observed) then
      do* answered_is_stale (has_id id) (set_updated now);
      ret (Commit AcceptanceStale)
    else
      let* watermark := query (watermark_of c) in
      if match watermark with Some old => (cd_trigger_position c <=? old)%Z | None => false end then
        do* answered_is_stale (has_id id) (λ r, r);
        ret (Commit AcceptanceStale)
      else commit_acceptance c assessment answer actions status_write now.

Definition try_accept_burn_check_answer (claim : BurnCheckCandidateClaim) (assessment : string)
    (answer actions : Value) (status_write : option string) (now : Z) : sql AcceptanceOutcome :=
  let id := bc_candidate_id claim in
  transaction
    (let* accepted := query (λ db, exists_row (λ c, has_id id c && in_states [SAccepted] c) (db_candidates db)) in
     if (accepted : bool) then ret (RollBack AlreadyAccepted)
     else
       let* origin := statement (λ db, result_map (λ b, (b, db)) (new_candidate_request_origin_current db id)) in
       if negb origin then
         do* answered_is_stale (has_id id) (set_updated now);
         ret (Commit AcceptanceStale)
       else
         let* paused := query (acceptance_paused id) in
         if (paused : bool) then ret (RollBack Deferred)
         else
           let* row := query (answered_row claim) in
           match row with
           | None =>
               do* answered_is_stale (owns claim) (λ r, r);
               ret (Commit AcceptanceStale)
           | Some row => accept_answered claim assessment answer actions status_write now row
           end).

Definition accept (a : AssessmentAcceptance) : sql AcceptanceOutcome :=
  match registered_activation (fr_activation (cl_candidate (aa_claimed a))) with
  | None => ret AcceptanceStale
  | Some activation =>
      if match ss_publication_gate store with Some gate => negb (gate activation) | None => false end
      then ret Deferred
      else
        do* refused (map_err result_message
              (validate_for_declarations (aa_evaluated a) (cc_decisions (ea_compiled activation))
                 (question_requirements (ea_compiled activation))));
        let* claim := claim_record (aa_claimed a) in
        let* now := now_epoch in
        try_accept_burn_check_answer claim (assessment_key (bc_candidate_id claim))
          (to_value (assessment_record (aa_evaluated a))) (to_value (plan_serial (aa_actions a)))
          (status_name <$> status_write a) now
  end.
End operations.
End store.

(** ** [impl CheckStore for StoreCheckStore] (runtime.rs) *)

Definition failure_text (e : StoreFailure) : string := match e with SqlFailed m | Refused m => m end.

(** [store_error] *)
Definition store_failure (e : StoreFailure) : StoreError :=
  {| store_message := "Burn Check store: " +:+ failure_text e |}.

Section interface.
Context `{SerdeNumber, JsonDeserializer, !JsonMessages, !RecordWriter, !ValueEq, !CandidateDigest, !Sqlite}.
Context {Sources : Type} `{!Ingestion Sources}.

Notation Database := (Database.Database Sources).

(** The operation [m] takes the database from [db] to [db'] and answers [x], with
    some host. *)
Definition performs {A} (m : Database.sql Sources A) (x : result A StoreError) (db db' : Database) : Prop :=
  ∃ h r h', m (db, h) = (r, (db', h')) ∧ x = map_err store_failure r.

Definition check_store_step (store : StoreCheckStore) (X : Type) (c : engine_call X) :
    X → Database → Database → Prop :=
  match c in engine_call X return X → Database → Database → Prop with
  | LoadTerminalCandidateIds ids => performs (load_terminal_candidate_ids store ids)
  | ReleasePreDispatchClaim claimed => performs (release_unattempted_claim store claimed)
  | ClaimDue candidate now bypass => performs (claim store candidate now bypass)
  | LoadDecisionProgress claimed => performs (load_decision_progress store claimed)
  | LoadPreparation claimed => performs (saved_preparation store claimed)
  | RecordPreparation claimed record => performs (save_preparation store claimed record)
  | RecordLocalStart claimed now cooldown preparation =>
      performs (start_local store claimed now cooldown preparation)
  | RecordPreparationRejection claimed failure =>
      performs (terminal_with_diagnostic store claimed (pf_detail failure) true
                  (Some (RecordRejected failure)) None)
  | RecordDispatchIntent claimed now cooldown attempt => performs (dispatch store claimed now cooldown attempt)
  | RecordAttemptFailure claimed attempt kind diagnostic =>
      performs (settle_failure store claimed attempt kind diagnostic)
  | RecordDecisionAnswer claimed attempt answer => performs (save_decision_answer store claimed attempt answer)
  | Accept a => performs (accept store a)
  | RecordEvaluationFailure claimed diagnostic =>
      performs (terminal_with_diagnostic store claimed (ed_detail diagnostic) false None (Some diagnostic))
  | RecordNotAssessed claimed detail => performs (terminal store claimed detail true)
  | _ => λ _ db db', db' = db
  end.
End interface.
