(* ===== verification/RuntimeStoreFacts.v ===== *)
(** * Facts about the store of the runtime
    (apps/desktop/src-tauri/src/store/burn_checks)

    The transactions of the store keep the contract that the engine relies on,
    whatever statements fail; at most one candidate of a branch is claimed; and an
    outdated claim changes nothing. *)

From stdpp Require Import gmap.
From S2P Require Import Prelude Program RustString Json Diagnostics Expression Budget Provenance Scalars Evaluator Fit Domain Template Decision Check Preparation Lifecycle Context Selection Messages BoundedJson Serde Prepared Results ResultFacts ResultDecode ResultDecodeFacts Actions ActionFacts Progress ProgressFacts Checkpoint Scheduler Engine EngineFacts EngineRuns Database RuntimeStore.

#[local] Open Scope N_scope.

(** ** Reasoning about statements and transactions

    [moves R m]: whatever the host does, [m] takes the database along [R].
    [ends m db Q]: when [m] succeeds from [db], its result and the database are
    in [Q]. *)
Section statements.
Context {Sources : Type}.
Notation Database := (Database.Database Sources).
Notation sql := (Database.sql Sources).

Definition moves (R : relation Database) {A} (m : sql A) : Prop := ∀ s, R s.1 (m s).2.1.

Definition ends {A} (m : sql A) (db : Database) (Q : A → Database → Prop) : Prop :=
  ∀ h, match m (db, h) with (Ok a, (db', _)) => Q a db' | (Err _, _) => True end.

Section moves.
Context (R : relation Database) `{!PreOrder R}.

Lemma moves_pure {A} (a : A) : moves R (ret a : sql A).
Proof. intros s. simpl. reflexivity. Qed.

Lemma moves_fail {A} e : moves R (fail e : sql A).
Proof. intros s. simpl. reflexivity. Qed.

Lemma moves_lift {A} r : moves R (lift r : sql A).
Proof. intros s. simpl. reflexivity. Qed.

Lemma moves_seq {A B} (m : sql A) (f : A → sql B) : moves R m → (∀ a, moves R (f a)) → moves R (bind m f).
Proof.
  intros Hm Hf s. specialize (Hm s). unfold bind. destruct (m s) as [[a|e] s']; simpl in *; [|done].
  etransitivity; [exact Hm|apply Hf].
Qed.

Lemma moves_statement {A} (f : Database → result (A * Database) string) :
  (∀ db a db', f db = Ok (a, db') → R db db') → moves R (statement f).
Proof.
  intros Hf [db h]. unfold statement. simpl. destruct (next_fault h) as [[|?|?] h']; [|simpl; reflexivity..].
  destruct (f db) as [[a db']|e] eqn:E; simpl; [by eapply Hf|reflexivity].
Qed.

Lemma moves_query {A} (f : Database → A) : moves R (query f).
Proof. apply moves_statement. intros db a db' [= _ <-]. reflexivity. Qed.

Lemma moves_execute f : (∀ db, R db (f db).2) → moves R (execute f).
Proof. intros Hf. apply moves_statement. intros db n db' [= E]. specialize (Hf db). by rewrite E in Hf. Qed.

Lemma moves_ensure b message : moves R (ensure b message).
Proof. destruct b; [apply moves_pure|apply moves_fail]. Qed.

Lemma moves_context {A} (o : option A) message : moves R (context o message).
Proof. destruct o; [apply moves_pure|apply moves_fail]. Qed.

Lemma moves_refused {A} (r : result A string) : moves R (refused r).
Proof. apply moves_lift. Qed.

Lemma moves_now : moves R now_epoch.
Proof. intros [db h]. unfold now_epoch. simpl. destruct (h_clock h); simpl; reflexivity. Qed.

Lemma moves_transaction {A} (body : sql (Ending A)) : moves R body → moves R (transaction body).
Proof.
  intros Hb [db h]. unfold transaction. pose proof (moves_query (λ _, tt) (db, h)) as Hq.
  unfold query, statement in *. simpl in *. destruct (next_fault h) as [[|?|?] h1]; simpl; [|reflexivity..].
  specialize (Hb (db, h1)). destruct (body (db, h1)) as [[[a|a]|e] [db' h2]]; simpl in *; [|reflexivity..].
  destruct (next_fault h2) as [[|?|?] h3]; simpl; [done|reflexivity|done].
Qed.
End moves.

(** *** Results *)

Lemma ends_ret {A} (a : A) db (Q : A → Database → Prop) : Q a db → ends (ret a) db Q.
Proof. by intros HQ h. Qed.

Lemma ends_fail {A} e db (Q : A → Database → Prop) : ends (fail e) db Q.
Proof. by intros h. Qed.

Lemma ends_bind {A B} (m : sql A) (f : A → sql B) db Q :
  ends m db (λ a db', ends (f a) db' Q) → ends (bind m f) db Q.
Proof.
  intros Hm h. specialize (Hm h). unfold bind. destruct (m (db, h)) as [[a|e] [db' h']]; [|done].
  exact (Hm h').
Qed.

Lemma ends_mono {A} (m : sql A) db (P Q : A → Database → Prop) :
  ends m db P → (∀ a db', P a db' → Q a db') → ends m db Q.
Proof. intros Hm HPQ h. specialize (Hm h). destruct (m (db, h)) as [[a|e] [db' h']]; [auto|done]. Qed.

Lemma ends_statement {A} (f : Database → result (A * Database) string) db (Q : A → Database → Prop) :
  (∀ a db', f db = Ok (a, db') → Q a db') → ends (statement f) db Q.
Proof.
  intros Hf h. unfold statement. simpl. destruct (next_fault h) as [[|?|?] h']; [|done..].
  destruct (f db) as [[a db']|e] eqn:E; [by apply Hf|done].
Qed.

Lemma ends_query {A} (f : Database → A) db (Q : A → Database → Prop) : Q (f db) db → ends (query f) db Q.
Proof. intros HQ. apply ends_statement. by intros a db' [= <- <-]. Qed.

Lemma ends_execute f db (Q : N → Database → Prop) : Q (f db).1 (f db).2 → ends (execute f) db Q.
Proof. intros HQ. apply ends_statement. intros n db' [= E]. by rewrite E in HQ. Qed.

Lemma ends_ensure b message db (Q : unit → Database → Prop) :
  (b = true → Q tt db) → ends (ensure b message) db Q.
Proof. intros HQ. destruct b; [apply ends_ret; auto|apply ends_fail]. Qed.

Lemma ends_context {A} (o : option A) message db (Q : A → Database → Prop) :
  (∀ a, o = Some a → Q a db) → ends (context o message) db Q.
Proof. intros HQ. destruct o; [apply ends_ret; auto|apply ends_fail]. Qed.

Lemma ends_refused {A} (r : result A string) db (Q : A → Database → Prop) :
  (∀ a, r = Ok a → Q a db) → ends (refused r) db Q.
Proof. intros HQ h. unfold refused, lift. destruct r as [a|e]; simpl; [auto|done]. Qed.

Lemma ends_lift {A} (r : result A StoreFailure) db (Q : A → Database → Prop) :
  (∀ a, r = Ok a → Q a db) → ends (lift r) db Q.
Proof. intros HQ h. unfold lift. destruct r as [a|e]; simpl; [auto|done]. Qed.

Lemma ends_moves R {A} (m : sql A) db : moves R m → ends m db (λ _ db', R db db').
Proof. intros Hm h. specialize (Hm (db, h)). by destruct (m (db, h)) as [[a|e] [db' h']]. Qed.

(** A part that only reads *)
Lemma ends_reads {A B} (m : sql A) (f : A → sql B) db Q :
  moves eq m → (∀ a, ends (f a) db Q) → ends (bind m f) db Q.
Proof.
  intros Hm Hf. apply ends_bind. eapply ends_mono; [by apply ends_moves|]. intros a db' <-. apply Hf.
Qed.

Lemma ends_skip {A B} (m : sql A) (f : A → sql B) db Q : (∀ a db', ends (f a) db' Q) → ends (bind m f) db Q.
Proof. intros Hf. apply ends_bind. intros h. destruct (m (db, h)) as [[a|e] [db' h']]; [apply Hf|done]. Qed.

Lemma ends_transaction {A} (body : sql (Ending A)) db (Q : A → Database → Prop) :
  ends body db (λ e db', match e with Commit a => Q a db' | RollBack a => Q a db end) →
  ends (transaction body) db Q.
Proof.
  intros Hb h. unfold transaction, query, statement. simpl.
  destruct (next_fault h) as [[|?|?] h1]; simpl; [|done..].
  specialize (Hb h1). destruct (body (db, h1)) as [[[a|a]|e] [db1 h2]]; simpl in *; [|done..].
  by destruct (next_fault h2) as [[|?|?] h3].
Qed.

(** A part that moves the database along [R] *)
Lemma ends_then R {A B} (m : sql A) (f : A → sql B) db Q :
  moves R m → (∀ a db', R db db' → ends (f a) db' Q) → ends (bind m f) db Q.
Proof.
  intros Hm Hf. apply ends_bind. eapply ends_mono; [by apply ends_moves|]. intros a db' HR. by apply Hf.
Qed.

(** What a transaction leaves: on an error it has not happened, or it has. *)
Lemma transaction_ends {A} (body : sql (Ending A)) db Q h r db' h' :
  ends body db Q → transaction body (db, h) = (r, (db', h')) →
  match r with
  | Ok a => Q (Commit a) db' ∨ db' = db ∧ ∃ db1, Q (RollBack a) db1
  | Err _ => db' = db ∨ ∃ a, Q (Commit a) db'
  end.
Proof.
  intros Hb. unfold transaction, query, statement. simpl.
  destruct (next_fault h) as [[|?|?] h1]; simpl; [|intros [= <- <- <-]; by left..].
  specialize (Hb h1). destruct (body (db, h1)) as [[[a|a]|e] [db1 h2]]; simpl in *.
  - destruct (next_fault h2) as [[|?|?] h3]; intros [= <- <- <-]; eauto.
  - intros [= <- <- <-]. right. eauto.
  - intros [= <- <- <-]. by left.
Qed.

(** A run whose first part only reads. *)
Lemma reads_then {A B} (m : sql A) (f : A → sql B) P db h r db' h' :
  moves eq m → ends m db P → bind m f (db, h) = (r, (db', h')) →
  (∃ e, r = Err e ∧ db' = db) ∨ ∃ a h1, P a db ∧ f a (db, h1) = (r, (db', h')).
Proof.
  intros Hm Hp. specialize (Hm (db, h)). specialize (Hp h). unfold bind.
  destruct (m (db, h)) as [[a|e] [db1 h1]]; simpl in Hm; subst db1; [eauto|].
  intros [= <- <- <-]. eauto.
Qed.

Lemma ends_any {A} (m : sql A) db : ends m db (λ _ _, True).
Proof. intros h. by destruct (m (db, h)) as [[a|e] [db' h']]. Qed.
End statements.

Ltac moves_step :=
  match goal with
  | |- moves ?R (bind _ _) => apply (moves_seq R); [|intros ?]
  | |- moves ?R (ret _) => apply (moves_pure R)
  | |- moves ?R (fail _) => apply (moves_fail R)
  | |- moves ?R (query _) => apply (moves_query R)
  | |- moves ?R (ensure _ _) => apply (moves_ensure R)
  | |- moves ?R (context _ _) => apply (moves_context R)
  | |- moves ?R (refused _) => apply (moves_refused R)
  | |- moves ?R (lift _) => apply (moves_lift R)
  | |- moves ?R now_epoch => apply (moves_now R)
  | |- moves ?R (transaction _) => apply (moves_transaction R)
  | |- moves _ (match ?x with _ => _ end) => destruct x
  end.

(** *** Reading *)

Section reading.
Context `{SerdeNumber, JsonDeserializer, !JsonMessages, !RecordWriter, !ValueEq, !CandidateDigest, !Sqlite}.
Context {Sources : Type} `{!Ingestion Sources}.
Notation Database := (Database.Database Sources).
Variable store : StoreCheckStore.

Context (R : relation Database) `{!PreOrder R}.

Lemma moves_check (f : Database → result bool string) :
  moves R (statement (λ db, result_map (λ b, (b, db)) (f db))).
Proof.
  apply (moves_statement R). intros db b db'. destruct (f db); intros [= _ <-]. reflexivity.
Qed.

Ltac reads :=
  repeat first [moves_step | apply moves_check | progress cbn beta iota zeta | solve [auto with nocore] ].

Lemma moves_claim_record claimed : moves R (claim_record (Sources:=Sources) store claimed).
Proof. unfold claim_record. reads. Qed.

Lemma moves_model_claim claimed : moves R (require_model_claim (Sources:=Sources) store claimed).
Proof. unfold require_model_claim. reads. Qed.

Lemma moves_current claim activation : moves R (claim_is_current_in store claim activation).
Proof. unfold claim_is_current_in, claim_is_current_for_scope_in. reads. Qed.

Lemma moves_rows candidate activation : moves R (read_decision_rows (Sources:=Sources) candidate activation).
Proof. unfold read_decision_rows. reads. Qed.

Lemma moves_progress claim activation : moves R (read_decision_progress (Sources:=Sources) claim activation).
Proof. unfold read_decision_progress. reads. apply moves_rows. Qed.

Lemma moves_candidate_row id : moves R (candidate_row (Sources:=Sources) id).
Proof. unfold candidate_row. reads. Qed.

Lemma moves_load claimed : moves R (load_decision_progress (Sources:=Sources) store claimed).
Proof. unfold load_decision_progress. reads; [apply moves_claim_record|apply moves_progress]. Qed.

Lemma moves_preparation claimed : moves R (saved_preparation (Sources:=Sources) store claimed).
Proof. unfold saved_preparation. reads. apply moves_claim_record. Qed.

Lemma moves_terminal_ids ids : moves R (load_terminal_candidate_ids (Sources:=Sources) store ids).
Proof. unfold load_terminal_candidate_ids. reads. Qed.

Lemma moves_acceptable candidate answer p : moves R (acceptable_preparation (Sources:=Sources) candidate answer p).
Proof. unfold acceptable_preparation. reads. Qed.
End reading.

Ltac read_step R := first
  [ moves_step | apply (moves_check R) | apply (moves_claim_record _ R) | apply (moves_model_claim _ R)
  | apply (moves_current _ R) | apply (moves_progress R) | apply (moves_candidate_row R)
  | apply (moves_acceptable R) ].
Ltac reads R := repeat read_step R.

(** ** Operations that leave the attempts alone *)

Section frame.
Context `{SerdeNumber, JsonDeserializer, !JsonMessages, !RecordWriter, !ValueEq, !CandidateDigest, !Sqlite}.
Context {Sources : Type} `{!Ingestion Sources}.
Notation Database := (Database.Database Sources).
Notation sql := (Database.sql Sources).
Variable store : StoreCheckStore.

Definition same_attempts (db db' : Database) : Prop := db_attempts db' = db_attempts db.

#[export] Instance same_attempts_preorder : PreOrder same_attempts.
Proof. split; [done|]. intros a b c Hab Hbc. unfold same_attempts in *. congruence. Qed.

Lemma attempts_candidates p f : moves same_attempts (update_candidates p f).
Proof. apply (moves_execute same_attempts). intros db. by destruct (update_where _ _ _). Qed.

Lemma attempts_history conflict make : moves same_attempts (insert_history (Sources:=Sources) conflict make).
Proof.
  apply (moves_statement same_attempts). intros db n db' He.
  by apply result_bind_ok in He as ([k rows] & _ & [= <- <-]).
Qed.

Lemma attempts_cooldown candidate until : moves same_attempts (raise_cooldown (Sources:=Sources) candidate until).
Proof. by apply (moves_execute same_attempts). Qed.

Ltac frame := repeat first
  [ progress reads same_attempts | apply attempts_candidates | apply attempts_history | apply attempts_cooldown
  | progress unfold mark_stale, record_lost, answered_is_stale, raise_cooldown
  | apply (moves_execute same_attempts); done ].

Lemma claim_frame candidate now bypass : moves same_attempts (claim store candidate now bypass).
Proof. unfold claim. frame. Qed.

Lemma release_frame claimed : moves same_attempts (release_unattempted_claim (Sources:=Sources) store claimed).
Proof. unfold release_unattempted_claim. frame. Qed.

Lemma preparation_frame claimed r : moves same_attempts (save_preparation (Sources:=Sources) store claimed r).
Proof. unfold save_preparation. frame. Qed.

Lemma terminal_frame claimed detail b p d :
  moves same_attempts (terminal_with_diagnostic (Sources:=Sources) store claimed detail b p d).
Proof. unfold terminal_with_diagnostic. frame. Qed.

Lemma local_frame claimed now cooldown p : moves same_attempts (start_local store claimed now cooldown p).
Proof. unfold start_local. frame. Qed.

Lemma accept_frame a : moves same_attempts (accept store a).
Proof.
  unfold accept. frame. unfold try_accept_burn_check_answer. frame. unfold accept_answered. frame.
  unfold commit_acceptance. frame.
Qed.
End frame.

Ltac frames := repeat first
  [ match goal with |- moves ?R _ => progress reads R end | apply attempts_candidates | apply attempts_history
  | apply attempts_cooldown | progress unfold mark_stale, record_lost, answered_is_stale, candidate_row, id ].

(** ** The rows of one candidate *)

Section rows.
Context `{SerdeNumber, !SerdeNumberLaws, JsonDeserializer, !JsonMessages, !RecordWriter, !ValueEq}.
Context {Sources : Type}.
Notation Database := (Database.Database Sources).

Variable check : CompiledCheck.
Variable cand : list N.

Notation declarations := (cc_decisions check).
Notation requirements := (question_requirements check).

(** An answer that the engine has validated, whose text [serde_json] reads back *)
Record savable (a : DecisionResult) : Prop := {
  sv_declared : ∃ declaration,
    List.find (λ block, String.eqb (d_name block) (dr_decision a)) declarations = Some declaration ∧
    result_validate_for_declaration a declaration requirements = Ok tt;
  sv_labels : decision_labels_ascend a;
  sv_reads : reads_back (decision_result_serial a) (record_text (decision_result_serial a))
}.

(** The columns that say an outcome *)
Definition saved_as (o : DecisionAttemptOutcome) (r : AttemptRow) : Prop :=
  match o with
  | DispatchIntent => at_state r = ADispatchIntent ∧ at_outcome r = None ∧ at_response_json r = None
  | SafeTransient => at_state r = ASettled ∧ at_outcome r = Some "safe_transient" ∧ at_response_json r = None
  | AttemptUnknown => at_state r = ASettled ∧ at_outcome r = Some "unknown" ∧ at_response_json r = None
  | Permanent => at_state r = ASettled ∧ at_outcome r = Some "permanent" ∧ at_response_json r = None
  | Answer a =>
      at_state r = ASettled ∧ at_outcome r = Some "answer" ∧
      at_response_json r = Some (record_text (decision_result_serial a)) ∧
      dr_decision a = match at_decision_name r with Some name => name | None => "" end ∧ savable a
  end.

Record row_of (s : SavedDecisionAttempt) (r : AttemptRow) : Prop := {
  ro_id : at_attempt_id r = attempt_id cand (sa_attempt s);
  ro_name : at_decision_name r = Some (da_decision (sa_attempt s));
  ro_number : at_attempt_number r = Z.of_N (da_number (sa_attempt s));
  ro_outcome : saved_as (sa_outcome s) r
}.

(** The table holds exactly [rows] for the candidate, in their order. *)
Record represents (db : Database) (rows : list SavedDecisionAttempt) : Prop := {
  rp_rows : Forall2 row_of rows (attempts_of db (hex cand));
  rp_ids : NoDup (at_attempt_id <$> attempts_of db (hex cand))
}.

Lemma savable_finite a : savable a → serial_finite (decision_result_serial a) = true ∧ dr_attempts a ≤ 255.
Proof.
  intros [(declaration & _ & Hv) Hl _]. split.
  - unfold result_validate_for_declaration in Hv. destruct (negb _); [done|].
    apply result_bind_ok in Hv as (? & _ & Hv). destruct (existsb _ _); [done|].
    apply result_bind_ok in Hv as (m & Hm & _). unfold measure_decision_results_with_next in Hm.
    simpl in Hm. destruct (_ <? _); [done|]. unfold from_bounded in Hm.
    destruct (measure_json _ _) as [m'|] eqn:E; [|done].
    apply measure_json_correct in E as [Hf _]; [|by vm_compute]. cbn in Hf.
      rewrite !andb_true_r in Hf. cbn. by rewrite andb_true_r.
  - destruct (decision_saved _ _ _ Hv Hl) as (_ & _ & _ & ?). lia.
Qed.

(** What was saved of an answer is read as that answer. *)
Lemma saved_answer_read a saved declaration :
  savable a → decode_decision_result reader_error (record_text (decision_result_serial a)) = Ok saved →
  List.find (λ block, String.eqb (d_name block) (dr_decision a)) declarations = Some declaration →
  bind_decision saved declaration requirements = Ok a.
Proof.
  intros Hs Hd Hf. destruct (savable_finite a Hs) as [Hfin Hat]. destruct Hs as [(d & Hd' & Hv) Hl [He Hend]].
  rewrite Hf in Hd'. injection Hd' as <-.
  destruct (decodes_decision a Hfin Hl Hat) as (w & Hw & Hx).
  unfold decode_decision_result, read_saved in Hd. apply result_bind_ok in Hd as (s & Hs & Hd).
  apply result_bind_ok in Hd as (? & _ & [= <-]). apply result_bind_ok in Hs as (w' & Hw' & Hs).
  unfold from_bounded in Hw'. destruct (decode_strict_json _ _) as [w2|] eqn:E; [|done]. injection Hw' as ->.
  apply strict_decode_correct in E as (_ & Hev & _). rewrite He, Hw in Hev. injection Hev as ->.
  rewrite Hx in Hs. injection Hs as <-. by apply decision_saved.
Qed.

Lemma read_row_exact s r retained x :
  row_of s r → read_row declarations requirements cand retained r = Ok x → x.2 = s.
Proof.
  intros [Hid Hname Hnum Ho] Hr. unfold read_row in Hr. rewrite Hname, Hnum in Hr.
  repeat match type of Hr with (if ?b then _ else _) = _ => destruct b; [done|] end.
  apply result_bind_ok in Hr as (a & Ha & Hr). destruct (List.find _ _) as [declaration|] eqn:Ef; [|done].
  destruct (negb _); [done|]. apply result_bind_ok in Hr as (o & Hs%map_err_ok & [= <-]). simpl.
  destruct (DecisionAttempt_new _ _) as [a'|e] eqn:Ea in Ha; [|done]. injection Ha as ->.
  apply result_bind_ok in Ea as (_ & _ & [= <-]). rewrite N2Z.id. destruct s as [[d n] o']. simpl in *. f_equal.
  destruct o' as [| | | |answer]; simpl in Ho.
  1-4: destruct Ho as (Hst & Hout & Hres); unfold saved_outcome in Hs; rewrite Hst, Hout, Hres in Hs;
       vm_compute in Hs; congruence.
  destruct Ho as (Hst & Hout & Hres & Hd & Hsv). unfold saved_outcome in Hs. rewrite Hst, Hout, Hres in Hs.
  apply result_bind_ok in Hs as (saved & Hsaved & Hs). apply result_bind_ok in Hs as (b & Hb & [= <-]).
  destruct (decode_decision_result _ _) as [saved'|] eqn:Esv in Hsaved; [|done]. injection Hsaved as ->.
  rewrite Hname in Hd. subst d. erewrite saved_answer_read in Hb; [|done..].
  by injection Hb as <-.
Qed.

Lemma read_rows_exact rows table saved retained attempts :
  Forall2 row_of rows table →
  read_rows declarations requirements cand saved retained table = Ok attempts → attempts = (saved ++ rows)%list.
Proof.
  intros Ht. revert saved retained. induction Ht as [|s r rows table Hs _ IH]; intros saved retained.
  - intros [= <-]. by rewrite app_nil_r.
  - cbn [read_rows]. destruct (negb _); [done|]. intros ([k a] & Ha & Hr)%result_bind_ok.
    apply (read_row_exact s) in Ha; [|done]. simpl in Ha. subst a. apply IH in Hr as ->.
    by rewrite <- app_assoc.
Qed.
End rows.

(** ** The identity of a candidate *)

Definition is_identity (c : list N) : Prop := length c = 32%nat ∧ Forall (λ b, b < 256) c.

Lemma digit_value_hex n : n < 16 → digit_value (hex_digit n) = Some n.
Proof.
  intros Hn. assert (∀ k, (k < 16)%nat → digit_value (hex_digit (N.of_nat k)) = Some (N.of_nat k)) as Hk.
  { intros k Hk. do 16 (destruct k as [|k]; [done|]). lia. }
  specialize (Hk (N.to_nat n)). rewrite N2Nat.id in Hk. apply Hk. lia.
Qed.

Lemma hex_bytes_hex c : Forall (λ b, b < 256) c → hex_bytes (hex c) = Some c.
Proof.
  induction 1 as [|b c Hb _ IH]; [done|]. unfold hex. cbn [foldr]. fold (hex c). unfold hex_byte.
  rewrite !str_app_cons, str_app_nil. cbn [hex_bytes].
  rewrite !digit_value_hex by (apply N.mod_lt || apply N.Div0.div_lt_upper_bound; lia).
  simpl. rewrite IH. simpl. do 2 f_equal. rewrite (N.div_mod b 16) at 3 by lia. lia.
Qed.

Lemma parse_hex c id : Forall (λ b, b < 256) c → parse_candidate_id (hex c) = Ok id → id = c.
Proof.
  intros Hc. unfold parse_candidate_id. destruct (_ =? _); [|done]. rewrite hex_bytes_hex by done. congruence.
Qed.

Lemma hex_inj c c' : is_identity c → is_identity c' → hex c = hex c' → c = c'.
Proof. intros [_ Hc] [_ Hc'] He. apply (f_equal hex_bytes) in He. rewrite !hex_bytes_hex in He by done. congruence. Qed.

(** ** The contract of the attempt rows *)

(** The candidate whose attempts a call reads or changes *)
Definition row_candidate `{SerdeNumber} (X : Type) (c : engine_call X) : option (list N) :=
  match c with
  | LoadDecisionProgress claimed | RecordDispatchIntent claimed _ _ _ | RecordAttemptFailure claimed _ _ _
  | RecordDecisionAnswer claimed _ _ => Some (cl_id claimed)
  | _ => None
  end.

Section contract.
Context `{SerdeNumber, !SerdeNumberLaws, JsonDeserializer, !JsonMessages, !RecordWriter, !ValueEq, !CandidateDigest,
          !Sqlite}.
Context {Sources : Type} `{!Ingestion Sources}.
Notation Database := (Database.Database Sources).
Notation sql := (Database.sql Sources).
Variable store : StoreCheckStore.
Variable check : CompiledCheck.
Variable cand : list N.

Notation declarations := (cc_decisions check).
Notation requirements := (question_requirements check).
Notation represents := (represents (Sources:=Sources) check cand).

Hypothesis identity : is_identity cand.

(** The registered activation of the candidate has this check. *)
Hypothesis registered : ∀ c a,
  CandidateId_from c = cand → registered_activation store (fr_activation c) = Some a → ea_compiled a = check.

Lemma ends_claim_record claimed db (Q : BurnCheckCandidateClaim → Database → Prop) :
  (cl_id claimed = CandidateId_from (cl_candidate claimed) →
   Q {| bc_candidate_id := hex (cl_id claimed); bc_owner := ss_owner store; bc_fence := Z.of_N (cl_fence claimed) |} db) →
  ends (claim_record store claimed) db Q.
Proof.
  intros HQ. unfold claim_record. apply ends_bind, ends_ensure.
  intros [_ Hid%bool_decide_eq_true]%andb_true_iff. apply ends_bind, ends_refused. intros fence Hf.
  unfold integer in Hf. destruct (_ <=? _)%Z; [|done]. injection Hf as <-. by apply ends_ret, HQ.
Qed.

Lemma ends_decision_rows activation db rows (Q : DecisionProgress → Database → Prop) :
  ea_compiled activation = check → represents db rows → (∀ p, dp_attempts p = rows → Q p db) →
  ends (read_decision_rows (hex cand) activation) db Q.
Proof.
  intros Ha [Hr _] HQ. unfold read_decision_rows. rewrite Ha. apply ends_bind, ends_query, ends_bind, ends_refused.
  intros id ->%parse_hex; [|apply identity]. apply ends_bind, ends_lift. intros attempts Hatt.
  apply (read_rows_exact _ _ rows) in Hatt; [|done]. simpl in Hatt. subst attempts.
  apply ends_reads; [apply moves_refused, _|]. intros _. apply ends_reads; [apply moves_refused, _|]. intros _.
  by apply ends_ret, HQ.
Qed.

Lemma ends_progress claim activation db rows (Q : DecisionProgress → Database → Prop) :
  bc_candidate_id claim = hex cand → ea_compiled activation = check → represents db rows →
  (∀ p, dp_attempts p = rows → Q p db) → ends (read_decision_progress claim activation) db Q.
Proof.
  intros Hc Ha Hr HQ. unfold read_decision_progress. apply ends_bind, ends_query. cbn.
  apply ends_bind, ends_ensure. intros _. rewrite Hc. by apply (ends_decision_rows activation db rows).
Qed.

(** Rows are loaded exactly. *)
Lemma load_exact claimed db rows :
  cl_id claimed = cand → represents db rows →
  ends (load_decision_progress store claimed) db (λ p db', db' = db ∧ dp_attempts p = rows).
Proof.
  intros Hid Hr. unfold load_decision_progress. apply ends_bind, ends_context. intros activation Ha.
  apply ends_bind, ends_claim_record. intros Hc. apply (ends_progress _ _ _ rows); [|..]; try done.
  - by rewrite Hid.
  - eapply registered; [|exact Ha]. congruence.
Qed.

Lemma represents_same db db' rows : same_attempts db db' → represents db rows → represents db' rows.
Proof. intros Hs [Hr Hi]. unfold same_attempts in Hs. by split; unfold attempts_of in *; rewrite Hs. Qed.

(** *** The intent *)

Definition intended (a : DecisionAttempt) (rows : list SavedDecisionAttempt) (e : Ending ClaimOutcome)
    (db' : Database) : Prop :=
  match e with
  | Commit Current => represents db' (intend a rows)
  | Commit Stale => represents db' rows
  | RollBack o => o = Stale
  end.

Lemma intent_saved now a db rows :
  represents db rows →
  ends (insert_attempt
          {| at_attempt_id := attempt_id cand a; at_candidate_id := hex cand;
             at_decision_name := Some (da_decision a); at_attempt_number := Z.of_N (da_number a);
             at_state := ADispatchIntent; at_outcome := None; at_response_json := None;
             at_updated_at_epoch := now |}) db (λ _ db', represents db' (intend a rows)).
Proof.
  intros [Hr Hn]. apply ends_statement. intros [] db'.
  destruct (exists_row _ _) eqn:Ee; [done|]. destruct (negb _); [done|]. destruct (negb _); [done|].
  intros [= <-].
  assert (∀ l, attempts_of (with_attempts (db_attempts db ++ [l]) db) (hex cand) =
     (attempts_of db (hex cand) ++ List.filter (λ r, String.eqb (at_candidate_id r) (hex cand)) [l])%list) as Hof.
  { intros l. unfold attempts_of. cbn [with_attempts db_attempts]. by rewrite List.filter_app. }
  split; rewrite Hof; cbn [List.filter at_candidate_id]; rewrite String.eqb_refl.
  - apply Forall2_app; [done|]. constructor; [by split|constructor].
  - rewrite fmap_app. apply NoDup_app. split_and!; [done| |apply NoDup_singleton].
    intros x (r & -> & Hin)%list_elem_of_fmap Hx%list_elem_of_singleton. simpl in Hx.
    apply list_elem_of_In, List.filter_In in Hin as [Hin _].
    assert (exists_row (λ r, String.eqb (at_attempt_id r) (attempt_id cand a)) (db_attempts db) = true) as He.
    { apply existsb_exists. exists r. split; [done|]. by apply String.eqb_eq. }
    unfold exists_row in *. apply existsb_exists in He as (r' & Hr' & He).
    apply not_true_iff_false in Ee. apply Ee, existsb_exists. exists r'. split; [done|]. simpl. by rewrite He.
Qed.

Lemma ends_current claim activation db (Q : bool → Database → Prop) :
  (∀ b, Q b db) → ends (claim_is_current_in store claim activation) db Q.
Proof.
  intros HQ. eapply ends_mono; [apply (ends_moves eq), (moves_current _ eq)|]. by intros b db' <-.
Qed.

(** A call that reads its claim first. *)
Lemma claim_record_then {A} claimed (f : BurnCheckCandidateClaim → sql A) db h r db' h' :
  bind (claim_record store claimed) f (db, h) = (r, (db', h')) →
  (∃ e, r = Err e ∧ db' = db) ∨
  cl_id claimed = CandidateId_from (cl_candidate claimed) ∧
  ∃ h1, f {| bc_candidate_id := hex (cl_id claimed); bc_owner := ss_owner store;
             bc_fence := Z.of_N (cl_fence claimed) |} (db, h1) = (r, (db', h')).
Proof.
  intros Hrun. apply (reads_then _ _ (λ c _, cl_id claimed = CandidateId_from (cl_candidate claimed) ∧
    c = {| bc_candidate_id := hex (cl_id claimed); bc_owner := ss_owner store;
           bc_fence := Z.of_N (cl_fence claimed) |})) in Hrun as [?|(c & h1 & [Hc ->] & Hrun)];
    [by left|eauto|apply (moves_claim_record _ eq)|].
  apply ends_claim_record. done.
Qed.

Lemma plain_then {A B} (m : sql A) (f : A → sql B) db h r db' h' :
  moves eq m → bind m f (db, h) = (r, (db', h')) →
  (∃ e, r = Err e ∧ db' = db) ∨ ∃ a h1, f a (db, h1) = (r, (db', h')).
Proof.
  intros Hm Hrun. apply (reads_then _ _ (λ _ _, True)) in Hrun as [?|(a & h1 & _ & Hrun)];
    [by left|eauto|done|apply ends_any].
Qed.

Lemma dispatch_contract claimed now_ms cooldown a db rows x db' :
  cl_id claimed = cand → represents db rows →
  performs (dispatch store claimed now_ms cooldown a) x db db' →
  match x with
  | Ok Current => represents db' (intend a rows)
  | Ok Stale => represents db' rows
  | Err _ => represents db' rows ∨ represents db' (intend a rows)
  end.
Proof.
  intros Hid Hrep (h & r & h' & Hrun & ->). unfold dispatch in Hrun.
  apply plain_then in Hrun as [(e & -> & ->)|([] & h1 & Hrun)]; [by left| |apply (moves_model_claim _ eq)].
  apply claim_record_then in Hrun as [(e & -> & ->)|(Hc & h2 & Hrun)]; [by left|].
  apply plain_then in Hrun as [(e & -> & ->)|([] & h3 & Hrun)]; [by left| |apply (moves_refused eq)].
  destruct (registered_activation _ _) as [activation|] eqn:Ha; [|by injection Hrun as <- <- _].
  assert (ea_compiled activation = check) as Hact by (eapply registered; [|exact Ha]; congruence).
  apply (transaction_ends _ _ (intended a rows)) in Hrun.
  { destruct r as [[|]|e]; simpl in *.
    - destruct Hrun as [?|[-> [db1 ?]]]; done.
    - destruct Hrun as [?|[-> [db1 ?]]]; done.
    - destruct Hrun as [->|[[|] ?]]; auto. }
  apply ends_reads; [apply moves_current; apply _|]. intros [|]; cbn [negb].
  2: { apply (ends_then same_attempts); [by frames|]. intros n db1 Hs. apply (ends_then same_attempts); [by frames|].
       intros k db2 Hs'. apply ends_ret. simpl. eapply represents_same; [|exact Hrep]. by etransitivity. }
  do 3 (apply ends_reads; [by reads (@eq Database)|intros ?]).
  eapply ends_bind, ends_progress; [by rewrite <- Hid|done|done|]. intros p Hp.
  repeat (apply ends_reads; [solve [reads (@eq Database)]|intros ?]).
  apply (ends_then same_attempts); [by frames|]. intros changed db1 Hs.
  destruct (changed =? 0); [by apply ends_ret|]. apply (represents_same _ _ _ Hs) in Hrep. simpl.
  rewrite Hid. apply ends_bind. eapply ends_mono; [by apply intent_saved|]. intros [] db2 Hi.
  apply (ends_then same_attempts).
  { destruct (dp_attempts p); [|by frames]. frames; by destruct (cooldown =? 0); frames. }
  intros n db3 Hs3. apply ends_ret. simpl. by eapply represents_same.
Qed.

(** *** The settlement *)

Lemma Forall2_elem_mono {A B} (P Q : A → B → Prop) l k :
  Forall2 P l k → (∀ x y, y ∈ k → P x y → Q x y) → Forall2 Q l k.
Proof. induction 1; intros HPQ; constructor; [apply HPQ; [by left|done]|]. apply IHForall2. intros. apply HPQ; [by right|done]. Qed.

Lemma attempts_mapped (db : Database) (p : AttemptRow → bool) f candidate :
  (∀ r, at_candidate_id (f r) = at_candidate_id r) →
  attempts_of (with_attempts ((λ r, if p r then f r else r) <$> db_attempts db) db) candidate =
  (λ r, if p r then f r else r) <$> attempts_of db candidate.
Proof.
  intros Hf. unfold attempts_of. cbn [with_attempts db_attempts]. induction (db_attempts db) as [|r l IH]; [done|].
  csimpl. assert (at_candidate_id (if p r then f r else r) = at_candidate_id r) as -> by (destruct (p r); auto).
  destruct (String.eqb _ _); csimpl; by rewrite IH.
Qed.

Lemma settled_rows claimed claim a o outcome response now db rows :
  cl_id claimed = cand → bc_candidate_id claim = hex cand → represents db rows →
  (∀ r, at_decision_name r = Some (da_decision a) → at_response_json r = None →
        saved_as check o (settled_row outcome response now r)) →
  ends (settle_attempt claimed claim a outcome response now) db (λ n db', n = 1 → represents db' (settle a o rows)).
Proof.
  intros Hid Hc [Hr Hn] Ho. unfold settle_attempt, update_attempts. rewrite Hid, Hc.
  apply ends_execute. unfold update_where. cbn [fst snd].
  set (p := λ r, String.eqb (at_candidate_id r) (hex cand) && String.eqb (at_attempt_id r) (attempt_id cand a) &&
    bool_decide (at_state r = ADispatchIntent) && exists_row (owns claim) (db_candidates db)).
  intros Hone.
  assert (∃ r0, r0 ∈ attempts_of db (hex cand) ∧ p r0 = true ∧ at_attempt_id r0 = attempt_id cand a)
    as (r0 & Hin0 & Hp0 & Hid0).
  { destruct (List.filter (p) (db_attempts db)) as [|r0 l] eqn:Ef; [done|].
    assert (In r0 (List.filter (p) (db_attempts db))) as [Hin Hp]%List.filter_In by (rewrite Ef; by left).
    exists r0. pose proof Hp as Hp'. unfold p in Hp'. rewrite !andb_true_iff, !String.eqb_eq in Hp'.
    destruct Hp' as [[[Hcand Ha] _] _]. split_and!; [|done|done].
    apply list_elem_of_In, List.filter_In. split; [done|by apply String.eqb_eq]. }
  assert (∀ r, r ∈ attempts_of db (hex cand) → at_attempt_id r = attempt_id cand a → r = r0) as Hsame.
  { intros r Hin He. eapply (NoDup_fmap_inj at_attempt_id); [done..|congruence]. }
  split; rewrite (attempts_mapped db p) by done.
  2: { rewrite <- list_fmap_compose. erewrite list_fmap_ext; [exact Hn|]. intros i r _. cbn. by case_match. }
  unfold settle. apply Forall2_fmap. apply (Forall2_elem_mono _ _ _ _ Hr).
  intros s r Hin Hs. pose proof Hs as [Hrid Hname Hnum Hout]. destruct (decide (sa_attempt s = a)) as [<-|Hne].
  - pose proof (Hsame r Hin Hrid) as ->. rewrite Hp0.
    split; cbn; [done..|]. apply Ho; [done|].
    assert (at_state r0 = ADispatchIntent) as Hst.
    { unfold p in Hp0. rewrite !andb_true_iff, bool_decide_eq_true in Hp0. tauto. }
    destruct (sa_outcome s); destruct Hout as (? & ? & ?); congruence.
  - assert (p r = false) as ->; [|done]. apply not_true_is_false. intros Hp. apply Hne.
    unfold p in Hp. rewrite !andb_true_iff, !String.eqb_eq in Hp. destruct Hp as [[[_ Ha] _] _].
    rewrite Hrid in Ha. destruct identity as [_ Hb]. by apply attempt_id_parts in Ha as [_ ?].
Qed.

(** A transaction that settles, then leaves the attempts alone, and commits. *)
Definition settled (rows : list SavedDecisionAttempt) (e : Ending ClaimOutcome) (db' : Database) : Prop :=
  match e with Commit _ => represents db' rows | RollBack _ => False end.

Lemma settled_transaction (body : sql (Ending ClaimOutcome)) db rows rows' h r db' h' :
  represents db rows → ends body db (settled rows') → transaction body (db, h) = (r, (db', h')) →
  match r with Ok _ => represents db' rows' | Err _ => represents db' rows ∨ represents db' rows' end.
Proof.
  intros Hrep Hb Hrun. eapply transaction_ends in Hrun; [|exact Hb]. destruct r as [o|e]; simpl in Hrun.
  - by destruct Hrun as [?|[_ [? []]]].
  - destruct Hrun as [->|[? ?]]; auto.
Qed.

Lemma ends_settled claimed claim a o outcome response now (k : N → sql (Ending ClaimOutcome)) message db rows :
  cl_id claimed = cand → bc_candidate_id claim = hex cand → represents db rows →
  (∀ r, at_decision_name r = Some (da_decision a) → at_response_json r = None →
        saved_as check o (settled_row outcome response now r)) →
  (∀ db1, represents db1 (settle a o rows) → ends (k 1) db1 (settled (settle a o rows))) →
  ends (let* changed := settle_attempt claimed claim a outcome response now in
        do* ensure (changed =? 1) message; k changed) db (settled (settle a o rows)).
Proof.
  intros Hid Hc Hrep Ho Hk. apply ends_bind. eapply ends_mono; [by apply settled_rows|]. intros n db1 Hn.
  apply ends_bind, ends_ensure. intros ->%N.eqb_eq. by apply Hk, Hn.
Qed.

Lemma failure_contract claimed a kind diagnostic db rows x db' :
  cl_id claimed = cand → represents db rows → performs (settle_failure store claimed a kind diagnostic) x db db' →
  match x with
  | Ok _ => represents db' (settle a (failure_outcome kind) rows)
  | Err _ => represents db' rows ∨ represents db' (settle a (failure_outcome kind) rows)
  end.
Proof.
  intros Hid Hrep (h & r & h' & Hrun & ->). unfold settle_failure in Hrun.
  apply plain_then in Hrun as [(e & -> & ->)|([] & h1 & Hrun)]; [by left| |apply (moves_model_claim _ eq)].
  apply plain_then in Hrun as [(e & -> & ->)|([] & h2 & Hrun)]; [by left| |apply (moves_refused eq)].
  apply claim_record_then in Hrun as [(e & -> & ->)|(Hc & h3 & Hrun)]; [by left|].
  apply (settled_transaction _ _ rows (settle a (failure_outcome kind) rows)) in Hrun; [by destruct r|done|].
  apply ends_reads; [apply (moves_now eq)|]. intros now.
  apply (ends_settled _ _ a (failure_outcome kind)); [done|by rewrite <- Hid|done| |].
  { intros r' _ Hnone. destruct kind; by split_and!. }
  intros db1 Hrep1. repeat (apply (ends_then same_attempts); [by frames|intros ? ? Hs;
    apply (represents_same _ _ _ Hs) in Hrep1; clear Hs]).
  by apply ends_ret.
Qed.

Lemma answer_contract claimed a answer db rows x db' :
  cl_id claimed = cand → represents db rows → savable check answer →
  performs (save_decision_answer store claimed a answer) x db db' →
  match x with
  | Ok _ => represents db' (settle a (Answer answer) rows)
  | Err _ => represents db' rows ∨ represents db' (settle a (Answer answer) rows)
  end.
Proof.
  intros Hid Hrep Hsv (h & r & h' & Hrun & ->). unfold save_decision_answer in Hrun.
  apply plain_then in Hrun as [(e & -> & ->)|([] & h1 & Hrun)]; [by left| |apply (moves_model_claim _ eq)].
  apply plain_then in Hrun as [(e & -> & ->)|([] & h2 & Hrun)]; [by left| |apply (moves_refused eq)].
  apply (reads_then _ _ (λ _ _, dr_decision answer = da_decision a)) in Hrun
    as [(e & -> & ->)|([] & h3 & Hname & Hrun)]; [by left| |apply (moves_ensure eq)|].
  2: { apply ends_ensure. by intros [?%String.eqb_eq _]%andb_true_iff. }
  apply plain_then in Hrun as [(e & -> & ->)|(m & h4 & Hrun)]; [by left| |apply (moves_refused eq)].
  apply claim_record_then in Hrun as [(e & -> & ->)|(Hc & h5 & Hrun)]; [by left|].
  apply (reads_then _ _ (λ text _, text = record_text (decision_result_serial answer))) in Hrun
    as [(e & -> & ->)|(text & h6 & -> & Hrun)]; [by left| |apply (moves_refused eq)|].
  2: { apply ends_refused. unfold to_string. destruct (record_writes _).2; [done|]. by intros ? [= <-]. }
  apply (settled_transaction _ _ rows (settle a (Answer answer) rows)) in Hrun; [by destruct r|done|].
  apply ends_reads; [apply (moves_now eq)|]. intros now.
  apply (ends_settled _ _ a (Answer answer)); [done|by rewrite <- Hid|done| |].
  { intros r' Hn _. split_and!; [done..| |done]. simpl. by rewrite Hn. }
  intros db1 Hrep1. repeat (apply (ends_then same_attempts); [by frames|intros ? ? Hs;
    apply (represents_same _ _ _ Hs) in Hrep1; clear Hs]).
  by apply ends_ret.
Qed.

Lemma performs_moves R {A} (m : sql A) x db db' : moves R m → performs m x db db' → R db db'.
Proof. intros Hm (h & r & h' & Hrun & _). specialize (Hm (db, h)). by rewrite Hrun in Hm. Qed.

Lemma load_contract claimed db rows x db' :
  cl_id claimed = cand → represents db rows → performs (load_decision_progress store claimed) x db db' →
  db' = db ∧ ∀ p, x = Ok p → dp_attempts p = rows.
Proof.
  intros Hid Hrep Hp. split; [symmetry; by apply (performs_moves eq) in Hp; [|apply (moves_load _ eq)]|].
  destruct Hp as (h & r & h' & Hrun & ->). pose proof (load_exact claimed db rows Hid Hrep h) as Hl.
  rewrite Hrun in Hl. intros p Hx. destruct r as [q|e]; [|done]. injection Hx as <-. by destruct Hl.
Qed.

Lemma frame_contract {A} (m : sql A) x db db' rows :
  moves same_attempts m → represents db rows → performs m x db db' → represents db' rows.
Proof. intros Hm Hrep Hp. apply (performs_moves same_attempts) in Hp; [|done]. by eapply represents_same. Qed.

(** A call that is on no other candidate's attempts, and whose answer can be saved *)
Definition call_of (X : Type) (c : engine_call X) : Prop :=
  match row_candidate X c with Some id => id = cand | None => True end ∧
  match c with RecordDecisionAnswer _ _ answer => savable check answer | _ => True end.

Lemma store_step X (c : engine_call X) x db db' d :
  call_of X c → represents db (du_rows d) → check_store_step store X c x db db' →
  ∃ d', durable_step X c x d d' ∧ represents db' (du_rows d').
Proof.
  intros [Hc Hsv] Hrep Hs. destruct c; simpl in Hc, Hs, Hsv;
    try (exists d; split; [done|]; eapply frame_contract; [|exact Hrep|exact Hs];
         first [apply release_frame|apply claim_frame|apply preparation_frame|apply local_frame
               |apply terminal_frame|apply accept_frame|apply (moves_preparation _ same_attempts)
               |apply (moves_terminal_ids _ same_attempts)]);
    try (exists d; split; [done|by subst]).
  - destruct (load_contract _ _ _ _ _ Hc Hrep Hs) as [-> Hp]. by exists d.
  - pose proof (dispatch_contract _ _ _ _ _ _ _ _ Hc Hrep Hs) as Hd. destruct x as [[|]|e]; simpl.
    + by exists (with_rows (intend a (du_rows d)) d).
    + by exists d.
    + destruct Hd; eexists; (split; [by (left + right)|done]).
  - pose proof (failure_contract _ _ _ _ _ _ _ _ Hc Hrep Hs) as Hd. destruct x as [o|e]; simpl.
    + by exists (with_rows (settle a (failure_outcome kind) (du_rows d)) d).
    + destruct Hd; eexists; (split; [by (left + right)|done]).
  - pose proof (answer_contract _ _ _ _ _ _ _ Hc Hrep Hsv Hs) as Hd.
    destruct x as [o|e]; simpl.
    + exists (with_rows (settle a (Answer answer) (du_rows d)) d). split; [|done]. destruct o; by (idtac + right).
    + destruct Hd; eexists; (split; [by (left + right)|done]).
  - eexists. split; [done|]. by subst.
Qed.

(** *** The restart *)

Lemma abandoned_rows now db rows :
  represents db rows →
  ends (update_attempts
          (λ db r, bool_decide (at_state r = ADispatchIntent) &&
             exists_row (λ c, has_id (at_candidate_id r) c &&
               String.eqb (cd_scope_key c) (activation_scope_key (ss_scope store))) (db_candidates db))
          (abandon_attempt now)) db
    (λ _ db', represents db' rows ∨ represents db' (abandon rows)).
Proof.
  intros [Hr Hn]. apply ends_execute. unfold update_where. cbn [fst snd].
  set (p := λ r, bool_decide (at_state r = ADispatchIntent) && exists_row (λ c, has_id (at_candidate_id r) c &&
    String.eqb (cd_scope_key c) (activation_scope_key (ss_scope store))) (db_candidates db)).
  set (b := exists_row (λ c, has_id (hex cand) c &&
    String.eqb (cd_scope_key c) (activation_scope_key (ss_scope store))) (db_candidates db)).
  assert (∀ r, r ∈ attempts_of db (hex cand) → p r = bool_decide (at_state r = ADispatchIntent) && b) as Hp.
  { intros r Hin%list_elem_of_In. apply List.filter_In in Hin as [_ He%String.eqb_eq]. unfold p. by rewrite He. }
  assert (NoDup (at_attempt_id <$>
    ((λ r, if p r then abandon_attempt now r else r) <$> attempts_of db (hex cand)))) as Hn'.
  { rewrite <- list_fmap_compose. erewrite list_fmap_ext; [exact Hn|]. intros i r _. cbn. by case_match. }
  destruct b; [right|left]; split; rewrite (attempts_mapped db p) by done; try exact Hn'.
  - unfold abandon. apply Forall2_fmap. apply (Forall2_elem_mono _ _ _ _ Hr).
    intros s r Hin [Hid Hname Hnum Hout]. rewrite Hp, andb_true_r by done.
    destruct (sa_outcome s) eqn:E; simpl in Hout; destruct Hout as (Hst & Ho & Hres); rewrite Hst; simpl;
      (split; [done..|]); try by rewrite E. done.
  - rewrite <- (list_fmap_id rows). apply Forall2_fmap. apply (Forall2_elem_mono _ _ _ _ Hr).
    intros s r Hin Hs. by rewrite Hp, andb_false_r.
Qed.

Lemma recover_contract db rows x db' :
  represents db rows → performs (recover_abandoned store) x db db' →
  represents db' rows ∨ represents db' (abandon rows).
Proof.
  intros Hrep (h & r & h' & Hrun & _). unfold recover_abandoned in Hrun.
  apply (transaction_ends _ _ (λ _ db', represents db' rows ∨ represents db' (abandon rows))) in Hrun.
  { destruct r; naive_solver. }
  apply ends_reads; [apply (moves_refused eq)|]. intros unknown.
  apply (ends_then same_attempts); [by frames|]. intros n db1 Hs. apply (represents_same _ _ _ Hs) in Hrep. clear Hs.
  apply ends_reads; [apply (moves_now eq)|]. intros now.
  apply ends_bind. eapply ends_mono; [by apply abandoned_rows|]. intros k db2 Hrep2. cbv beta in Hrep2.
  assert (∀ db3 db4, same_attempts db3 db4 → represents db3 rows ∨ represents db3 (abandon rows) →
            represents db4 rows ∨ represents db4 (abandon rows)) as Hsame.
  { intros db3 db4 Hs [?|?]; [left|right]; by eapply represents_same. }
  repeat (apply (ends_then same_attempts); [by frames|intros ? ? Hs; apply (Hsame _ _ Hs) in Hrep2; clear Hs]).
  by apply ends_ret.
Qed.
End contract.

(** ** The work of other candidates *)

Section others.
Context `{SerdeNumber, JsonDeserializer, !JsonMessages, !RecordWriter, !ValueEq, !CandidateDigest, !Sqlite}.
Context {Sources : Type} `{!Ingestion Sources}.
Notation Database := (Database.Database Sources).
Variable store : StoreCheckStore.
Variable cand : list N.

(** The attempts of the candidate are untouched. *)
Definition kept (db db' : Database) : Prop := attempts_of db' (hex cand) = attempts_of db (hex cand).

#[export] Instance kept_preorder : PreOrder kept.
Proof. split; [done|]. intros a b c Hab Hbc. unfold kept in *. congruence. Qed.

Lemma moves_mono (R R' : relation Database) {A} (m : Database.sql Sources A) :
  (∀ db db', R db db' → R' db db') → moves R m → moves R' m.
Proof. intros HR Hm s. apply HR, Hm. Qed.

Lemma same_kept db db' : same_attempts db db' → kept db db'.
Proof. unfold same_attempts, kept, attempts_of. by intros ->. Qed.

Lemma insert_kept row : at_candidate_id row ≠ hex cand → moves kept (insert_attempt (Sources:=Sources) row).
Proof.
  intros Hne. apply (moves_statement kept). intros db [] db'. destruct (exists_row _ _); [done|].
  destruct (negb _); [done|]. destruct (negb _); [done|]. intros [= <-]. unfold kept, attempts_of.
  cbn [with_attempts db_attempts]. rewrite List.filter_app. simpl.
  apply String.eqb_neq in Hne as ->. by rewrite app_nil_r.
Qed.

Lemma settle_kept claimed claim a outcome response now :
  bc_candidate_id claim ≠ hex cand →
  moves kept (settle_attempt (Sources:=Sources) claimed claim a outcome response now).
Proof.
  intros Hne. apply (moves_execute kept). intros db. unfold update_where, kept. cbn [snd].
  rewrite (attempts_mapped db _ (settled_row outcome response now)) by done.
  rewrite <- (list_fmap_id (attempts_of db (hex cand))) at 2. apply list_fmap_ext. intros i r Hr.
  apply list_elem_of_lookup_2, list_elem_of_In, List.filter_In in Hr as [_ Hr%String.eqb_eq].
  rewrite Hr. apply not_eq_sym, String.eqb_neq in Hne. by rewrite Hne.
Qed.

Lemma moves_claim_then (R : relation Database) `{!PreOrder R} {A} claimed (f : _ → Database.sql Sources A) :
  (∀ owner fence, moves R (f {| bc_candidate_id := hex (cl_id claimed); bc_owner := owner; bc_fence := fence |})) →
  moves R (bind (claim_record store claimed) f).
Proof.
  intros Hf. unfold claim_record. intros s. unfold bind at 1. unfold ensure at 1.
  destruct (_ && _); [|simpl; reflexivity]. unfold bind, refused, lift, ret.
  destruct (integer (cl_fence claimed)); simpl; [apply Hf|reflexivity].
Qed.

Ltac kept_frame := eapply (moves_mono same_attempts kept); [by apply same_kept|].
Ltac kept := repeat first
  [ match goal with
    | |- moves _ (bind (claim_record _ _) _) => apply (moves_claim_then kept); intros ? ?
    end
  | read_step kept | apply settle_kept; done | apply insert_kept; done
  | kept_frame; solve [frames] | progress unfold mark_stale, record_lost, candidate_row, id ].

(** Work on another candidate leaves the attempts alone. *)
Lemma other_step X (c : engine_call X) x db db' :
  is_identity cand → match row_candidate X c with Some id => is_identity id ∧ id ≠ cand | None => True end →
  check_store_step store X c x db db' → kept db db'.
Proof.
  intros Hi Hc Hs. assert (∀ c, is_identity c ∧ c ≠ cand → hex c ≠ hex cand) as Hne.
  { intros c' [Hc' Hne] He. by apply hex_inj in He. }
  destruct c; simpl in Hc, Hs; try (by subst); (eapply performs_moves; [|exact Hs]);
    try (kept_frame;
         first [apply release_frame|apply claim_frame|apply preparation_frame|apply local_frame
               |apply terminal_frame|apply accept_frame|apply (moves_preparation _ same_attempts)
               |apply (moves_load _ same_attempts)|apply (moves_terminal_ids _ same_attempts)]);
    apply Hne in Hc.
  - unfold dispatch. kept.
  - unfold settle_failure. kept.
  - unfold save_decision_answer. kept.
Qed.
End others.

(** ** An outdated claim *)

Section outdated.
Context `{SerdeNumber, JsonDeserializer, !JsonMessages, !RecordWriter, !ValueEq, !CandidateDigest, !Sqlite}.
Context {Sources : Type} `{!Ingestion Sources}.
Notation Database := (Database.Database Sources).
Notation sql := (Database.sql Sources).
Variable store : StoreCheckStore.

(** The claim that the store makes of a claimed candidate *)
Definition claim_of (claimed : ClaimedCandidate) : BurnCheckCandidateClaim :=
  {| bc_candidate_id := hex (cl_id claimed); bc_owner := ss_owner store; bc_fence := Z.of_N (cl_fence claimed) |}.

(** No candidate is held by the claim: it was released, or claimed anew. *)
Definition outdated (claim : BurnCheckCandidateClaim) (db : Database) : Prop :=
  existsb (owns claim) (db_candidates db) = false.

Definition unless_committed {A} (db : Database) (e : Ending A) (db' : Database) : Prop :=
  match e with Commit _ => db' = db | RollBack _ => True end.

Lemma outdated_owns claim db c : outdated claim db → In c (db_candidates db) → owns claim c = false.
Proof.
  intros Ho Hc. apply not_true_is_false. intros Hown. apply not_true_iff_false in Ho. apply Ho, existsb_exists. eauto.
Qed.

Lemma outdated_exists claim q db : outdated claim db → existsb (λ c, owns claim c && q c) (db_candidates db) = false.
Proof.
  intros Ho. apply not_true_is_false. intros (c & Hc & [Hown _]%andb_true_iff)%existsb_exists.
  by rewrite (outdated_owns _ _ _ Ho Hc) in Hown.
Qed.

Lemma outdated_select claim q db : outdated claim db → select_one (λ c, owns claim c && q c) (db_candidates db) = None.
Proof.
  intros Ho. unfold select_one. destruct (List.find _ _) as [c|] eqn:Ef; [|done].
  apply List.find_some in Ef as [Hc [Hown _]%andb_true_iff]. by rewrite (outdated_owns _ _ _ Ho Hc) in Hown.
Qed.

Lemma outdated_update claim p f db (Q : N → Database → Prop) :
  outdated claim db → (∀ c, p db c = true → owns claim c = true) → Q 0 db → ends (update_candidates p f) db Q.
Proof.
  intros Ho Hp HQ. apply ends_execute. unfold update_where. cbn [fst snd].
  assert (∀ c, In c (db_candidates db) → p db c = false) as Hno.
  { intros c Hc. apply not_true_is_false. intros Hpc. apply Hp in Hpc. by rewrite (outdated_owns _ _ _ Ho Hc) in Hpc. }
  assert (List.filter (p db) (db_candidates db) = []) as ->.
  { destruct (List.filter _ _) as [|c l] eqn:Ef; [done|].
    assert (In c (List.filter (p db) (db_candidates db))) as [Hc Hpc]%List.filter_In by (rewrite Ef; by left).
    by rewrite Hno in Hpc. }
  assert ((λ r, if p db r then f db r else r) <$> db_candidates db = db_candidates db) as ->.
  { rewrite <- (list_fmap_id (db_candidates db)) at 2. apply list_fmap_ext. intros i c Hc.
    by rewrite Hno by (by apply list_elem_of_In; eapply list_elem_of_lookup_2). }
  by destruct db.
Qed.

Lemma outdated_settle claimed claim a outcome response now db (Q : N → Database → Prop) :
  outdated claim db → Q 0 db → ends (settle_attempt claimed claim a outcome response now) db Q.
Proof.
  intros Ho HQ. apply ends_execute. unfold update_where, exists_row. unfold outdated in Ho. rewrite Ho. cbn [fst snd].
  assert (∀ l, List.filter (λ r, String.eqb (at_candidate_id r) (bc_candidate_id claim) &&
     String.eqb (at_attempt_id r) (attempt_id (cl_id claimed) a) && bool_decide (at_state r = ADispatchIntent) &&
     false) l = []) as -> by (induction l as [|r l IH]; [done|]; simpl; by rewrite andb_false_r).
  assert ((λ r, if String.eqb (at_candidate_id r) (bc_candidate_id claim) &&
     String.eqb (at_attempt_id r) (attempt_id (cl_id claimed) a) && bool_decide (at_state r = ADispatchIntent) &&
     false then settled_row outcome response now r else r) <$> db_attempts db = db_attempts db) as ->.
  { rewrite <- (list_fmap_id (db_attempts db)) at 2. apply list_fmap_ext. intros i r _. by rewrite andb_false_r. }
  by destruct db.
Qed.

Lemma outdated_not_current claim activation db (Q : bool → Database → Prop) :
  outdated claim db → Q false db → ends (claim_is_current_in store claim activation) db Q.
Proof.
  intros Ho HQ. unfold claim_is_current_in, claim_is_current_for_scope_in.
  apply ends_bind, ends_refused. intros generation _. apply ends_bind, ends_query.
  assert (claim_row_current claim activation (activation_scope_key (ss_scope store)) generation db = false) as ->.
  { unfold claim_row_current, exists_row. apply not_true_is_false. intros (c & Hc & Hcur)%existsb_exists.
    rewrite (outdated_owns _ _ _ Ho Hc) in Hcur. simpl in Hcur. done. }
  by apply ends_ret.
Qed.

Lemma unless_committed_transaction {A} (body : sql (Ending A)) db h r db' h' :
  ends body db (unless_committed db) → transaction body (db, h) = (r, (db', h')) → db' = db.
Proof.
  intros Hb Hrun. eapply transaction_ends in Hrun; [|exact Hb]. destruct r; simpl in Hrun; [|naive_solver].
  by destruct Hrun as [?|[-> _]].
Qed.

(** An operation of a claim: it reads, then it is a transaction that an outdated
    claim does not commit with a change. *)
Definition fenced {A} (claimed : ClaimedCandidate) (m : sql A) : Prop :=
  ∀ db h r db' h', outdated (claim_of claimed) db → m (db, h) = (r, (db', h')) → db' = db.

Lemma fenced_reads {A B} claimed (m : sql A) (f : A → sql B) :
  moves eq m → (∀ a, fenced claimed (f a)) → fenced claimed (bind m f).
Proof.
  intros Hm Hf db h r db' h' Ho Hrun.
  apply plain_then in Hrun as [(e & -> & ->)|(a & h1 & Hrun)]; [done| |done]. by eapply Hf.
Qed.

Lemma reading_fenced {A} claimed (m : sql A) : moves eq m → fenced claimed m.
Proof. intros Hm db h r db' h' _ Hrun. specialize (Hm (db, h)). by rewrite Hrun in Hm. Qed.

Lemma fenced_claim {A} claimed (f : BurnCheckCandidateClaim → sql A) :
  fenced claimed (f (claim_of claimed)) → fenced claimed (bind (claim_record store claimed) f).
Proof.
  intros Hf db h r db' h' Ho Hrun.
  apply claim_record_then in Hrun as [(e & -> & ->)|(_ & h1 & Hrun)]; [done|]. by eapply Hf.
Qed.

Lemma fenced_ret {A} claimed (a : A) : fenced claimed (ret a : sql A).
Proof. by intros db h r db' h' _ [= _ <- _]. Qed.

Lemma fenced_transaction {A} claimed (body : sql (Ending A)) :
  (∀ db, outdated (claim_of claimed) db → ends body db (unless_committed db)) → fenced claimed (transaction body).
Proof. intros Hb db h r db' h' Ho Hrun. eapply unless_committed_transaction; [by apply Hb|exact Hrun]. Qed.

Ltac fenced_step :=
  match goal with
  | |- fenced _ (bind (claim_record _ _) _) => apply fenced_claim
  | |- fenced _ (bind _ _) => apply fenced_reads; [solve [reads (@eq Database)]|intros ?]
  | |- fenced _ (ret _) => apply fenced_ret
  | |- fenced _ (match ?x with _ => _ end) => destruct x
  | |- fenced _ (transaction _) => apply fenced_transaction; intros ? Ho
  | |- ends (bind now_epoch _) _ _ => apply ends_reads; [apply (moves_now eq)|intros ?]
  | Ho : outdated _ _ |- ends (bind (claim_is_current_in _ _ _) _) _ _ =>
      apply ends_bind, (outdated_not_current _ _ _ _ Ho)
  | Ho : outdated _ _ |- ends (bind (settle_attempt _ _ _ _ _ _) _) _ _ =>
      apply ends_bind, (outdated_settle _ _ _ _ _ _ _ _ Ho)
  | |- ends (bind (ensure (0 =? 1) _) _) _ _ => apply ends_bind, ends_ensure; intros [=]
  end; cbv zeta.

Lemma release_fenced claimed : fenced claimed (release_unattempted_claim (Sources:=Sources) store claimed).
Proof.
  unfold release_unattempted_claim. repeat fenced_step. apply ends_bind, (outdated_update _ _ _ _ _ Ho).
  - by intros c [[Hown _]%andb_true_iff _]%andb_true_iff.
  - by apply ends_ret.
Qed.

Lemma preparation_fenced claimed r : fenced claimed (save_preparation (Sources:=Sources) store claimed r).
Proof.
  unfold save_preparation. repeat fenced_step. apply ends_bind, ends_query. rewrite outdated_select by done.
  by apply ends_ret.
Qed.

Lemma stale_fenced claim f db :
  outdated claim db → ends (mark_stale (Sources:=Sources) claim f) db (λ _ db', db' = db).
Proof. intros Ho. by apply (outdated_update _ _ _ _ _ Ho); [intros c [? _]%andb_true_iff|]. Qed.

Lemma dispatch_fenced claimed now cooldown a : fenced claimed (dispatch (Sources:=Sources) store claimed now cooldown a).
Proof.
  unfold dispatch. repeat fenced_step. simpl. fenced_step. apply ends_bind.
  eapply ends_mono; [by apply stale_fenced|]. intros n db' ->. by apply ends_ret.
Qed.

Lemma failure_fenced claimed a kind d : fenced claimed (settle_failure (Sources:=Sources) store claimed a kind d).
Proof. unfold settle_failure. repeat fenced_step. Qed.

Lemma answer_fenced claimed a answer : fenced claimed (save_decision_answer (Sources:=Sources) store claimed a answer).
Proof. unfold save_decision_answer. repeat fenced_step. Qed.

Lemma terminal_fenced claimed detail b p d :
  fenced claimed (terminal_with_diagnostic (Sources:=Sources) store claimed detail b p d).
Proof.
  unfold terminal_with_diagnostic. repeat fenced_step. apply ends_bind, ends_query.
  unfold select_one. destruct (List.find _ _) as [c|] eqn:Ef; [|by apply ends_ret].
  apply List.find_some in Ef as [Hc Hown]. by rewrite (outdated_owns _ _ _ Ho Hc) in Hown.
Qed.

Lemma local_fenced claimed now cooldown p : fenced claimed (start_local (Sources:=Sources) store claimed now cooldown p).
Proof. unfold start_local. repeat fenced_step. by apply ends_ret. Qed.

(** The claimed candidate of a call that is fenced by its claim *)
Definition fenced_call (X : Type) (c : engine_call X) : option ClaimedCandidate :=
  match c with
  | ReleasePreDispatchClaim claimed | LoadDecisionProgress claimed | LoadPreparation claimed
  | RecordPreparation claimed _ | RecordLocalStart claimed _ _ _ | RecordPreparationRejection claimed _
  | RecordDispatchIntent claimed _ _ _ | RecordAttemptFailure claimed _ _ _ | RecordDecisionAnswer claimed _ _
  | RecordEvaluationFailure claimed _ | RecordNotAssessed claimed _ => Some claimed
  | _ => None
  end.

Lemma performs_fenced {A} claimed (m : sql A) x db db' :
  fenced claimed m → outdated (claim_of claimed) db → performs m x db db' → db' = db.
Proof. intros Hm Ho (h & r & h' & Hrun & _). by eapply Hm. Qed.
End outdated.

(** ** One candidate of a branch at a time *)

Section exclusive.
Context `{SerdeNumber, JsonDeserializer, !JsonMessages, !RecordWriter, !ValueEq, !CandidateDigest, !Sqlite}.
Context {Sources : Type} `{!Ingestion Sources}.
Notation Database := (Database.Database Sources).
Notation sql := (Database.sql Sources).
Variable store : StoreCheckStore.

Definition busy (c : CandidateRow) : bool := in_states [SClaimed; SDispatching; SAnswered] c.
Definition unfinished (c : CandidateRow) : bool := in_states [SPending; SClaimed; SDispatching; SAnswered] c.

Definition branch_of (c : CandidateRow) : string * string * Z * string :=
  (cd_check_id c, cd_scope_key c, cd_generation c, cd_branch_key c).

(** The columns of an unfinished candidate say what its frozen input says. *)
Definition columns_agree (c : CandidateRow) : Prop :=
  ∀ f, frozen_from_str (cd_frozen_input_json c) = Ok f →
    cd_check_id c = a_definition_id (fr_activation f) ∧
    cd_generation c = Z.of_N (a_generation (fr_activation f)) ∧ cd_branch_key c = branch_id (fr_branch f).

(** At most one candidate of a branch is claimed, sent or answered. *)
Record exclusive (db : Database) : Prop := {
  ex_ids : NoDup (cd_candidate_id <$> db_candidates db);
  ex_columns c : c ∈ db_candidates db → unfinished c = true → columns_agree c;
  ex_busy c c' : c ∈ db_candidates db → c' ∈ db_candidates db →
    busy c = true → busy c' = true → branch_of c = branch_of c' → c = c'
}.

(** A row is kept, and only a busy one stays busy. *)
Record calmer_row (c c' : CandidateRow) : Prop := {
  cr_id : cd_candidate_id c' = cd_candidate_id c;
  cr_branch : branch_of c' = branch_of c;
  cr_busy : busy c' = true → busy c = true;
  cr_unfinished : unfinished c' = true →
    unfinished c = true ∧ cd_frozen_input_json c' = cd_frozen_input_json c
}.

#[export] Instance calmer_row_preorder : PreOrder calmer_row.
Proof.
  split; [by split|]. intros a b c [I1 I2 I3 I4] [K1 K2 K3 K4]. split; [congruence..|auto|].
  intros [Hb Hf]%K4. apply I4 in Hb as [Ha Hf']. split; congruence.
Qed.

Definition calmer (db db' : Database) : Prop := Forall2 calmer_row (db_candidates db) (db_candidates db').

#[export] Instance calmer_preorder : PreOrder calmer.
Proof. unfold calmer. split; [intros db; reflexivity|intros a b c Hab Hbc; by etransitivity]. Qed.

Lemma calmer_exclusive db db' : calmer db db' → exclusive db → exclusive db'.
Proof.
  intros Hc [Hids Hcols Hbusy]. unfold calmer in Hc.
  assert (cd_candidate_id <$> db_candidates db' = cd_candidate_id <$> db_candidates db) as Hsame.
  { clear -Hc. induction Hc as [|c c' l l' [Hid _ _ _] _ IH]; [done|]. csimpl. by rewrite Hid, IH. }
  assert (∀ c', c' ∈ db_candidates db' → ∃ c, c ∈ db_candidates db ∧ calmer_row c c') as Hback.
  { intros c' (i & Hi)%list_elem_of_lookup_1. destruct (Forall2_lookup_r _ _ _ _ _ Hc Hi) as (c & Hlook & ?).
    exists c. split; [by eapply list_elem_of_lookup_2|done]. }
  split; [by rewrite Hsame| |].
  - intros c' (c & Hin & [_ Hbr _ Hunf])%Hback [Hu Hf]%Hunf f. rewrite Hf. intros (? & ? & ?)%(Hcols c Hin Hu).
    unfold branch_of in Hbr. split_and!; congruence.
  - intros c1 c2 Hin1 Hin2 Hb1 Hb2 Heq. destruct (Hback c1 Hin1) as (d1 & Hd1 & [Hid1 Hbr1 Hbs1 _]).
    destruct (Hback c2 Hin2) as (d2 & Hd2 & [Hid2 Hbr2 Hbs2 _]).
    assert (d1 = d2) as -> by (apply Hbusy; auto; congruence).
    rewrite <- Hsame in Hids. eapply (NoDup_fmap_inj cd_candidate_id); [exact Hids|done|done|congruence].
Qed.

Lemma calmer_same db db' : db_candidates db' = db_candidates db → calmer db db'.
Proof. unfold calmer. intros ->. reflexivity. Qed.

(** Statements on other tables *)
Definition same_candidates (db db' : Database) : Prop := db_candidates db' = db_candidates db.

#[export] Instance same_candidates_preorder : PreOrder same_candidates.
Proof. split; [done|]. intros a b c Hab Hbc. unfold same_candidates in *. congruence. Qed.

Lemma calmer_update (p : Database → CandidateRow → bool) f db :
  (∀ c, c ∈ db_candidates db → p db c = true → calmer_row c (f db c)) →
  calmer db (with_candidates ((λ c, if p db c then f db c else c) <$> db_candidates db) db).
Proof.
  intros Hf. unfold calmer. cbn [with_candidates db_candidates].
  induction (db_candidates db) as [|c l IH]; csimpl; constructor.
  - specialize (Hf c ltac:(by left)). destruct (p db c); [by apply Hf|reflexivity].
  - apply IH. intros c' Hc'. apply Hf. by right.
Qed.

Lemma calmer_candidates p f :
  (∀ db c, p db c = true → calmer_row c (f db c)) → moves calmer (update_candidates p f).
Proof. intros Hf. apply (moves_execute calmer). intros db. apply calmer_update. auto. Qed.

Lemma calmer_execute (f : Database → N * Database) :
  (∀ db, db_candidates (f db).2 = db_candidates db) → moves calmer (execute f).
Proof. intros Hf. apply (moves_execute calmer). intros db. by apply calmer_same. Qed.

Lemma calmer_history conflict make : moves calmer (insert_history (Sources:=Sources) conflict make).
Proof.
  apply (moves_statement calmer). intros db n db' He. apply calmer_same.
  by apply result_bind_ok in He as ([k rows] & _ & [= <- <-]).
Qed.

Lemma calmer_insert row : moves calmer (insert_attempt (Sources:=Sources) row).
Proof.
  apply (moves_statement calmer). intros db [] db' He. apply calmer_same.
  destruct (exists_row _ _); [done|]. destruct (negb _); [done|]. destruct (negb _); [done|]. by injection He as <-.
Qed.

Lemma in_states_elem states c : in_states states c = true ↔ cd_state c ∈ states.
Proof.
  unfold in_states. rewrite existsb_exists. setoid_rewrite bool_decide_eq_true.
  setoid_rewrite <- list_elem_of_In. naive_solver.
Qed.

(** A row whose identity stays, with a state that is no busier *)
Lemma calmer_to c c' :
  cd_candidate_id c' = cd_candidate_id c → branch_of c' = branch_of c →
  (cd_state c' = cd_state c ∨ unfinished c' = false ∨
   unfinished c = true ∧ cd_state c' = SPending ∨ busy c = true ∧ busy c' = true) →
  cd_frozen_input_json c' = cd_frozen_input_json c ∨ unfinished c' = false →
  calmer_row c c'.
Proof.
  intros Hid Hbr Hst Hf. assert (unfinished c' = true → unfinished c = true) as Hun.
  { intros Hu'. destruct Hst as [Hst|[Hst|[[Hu _]|[Hb _]]]]; [|congruence|done|].
    - unfold unfinished in *. apply in_states_elem in Hu'. apply in_states_elem. congruence.
    - unfold unfinished, busy in *. apply in_states_elem in Hb. apply in_states_elem. set_solver. }
  split; [done|done| |].
  - intros Hb'. assert (unfinished c' = true) as Hu'.
    { unfold unfinished, busy in *. apply in_states_elem in Hb'. apply in_states_elem. set_solver. }
    destruct Hst as [Hst|[Hst|[[_ Hst]|[Hb _]]]]; [|congruence| |done].
    + unfold busy in *. apply in_states_elem in Hb'. apply in_states_elem. congruence.
    + unfold busy in Hb'. apply in_states_elem in Hb'. rewrite Hst in Hb'. set_solver.
  - intros Hu'. split; [by apply Hun|]. destruct Hf as [Hf|Hf]; [done|congruence].
Qed.

Lemma was_unfinished l c : in_states l c = true → l ⊆ [SPending; SClaimed; SDispatching; SAnswered] → unfinished c = true.
Proof. unfold unfinished. rewrite !in_states_elem. auto. Qed.

Lemma was_busy l c : in_states l c = true → l ⊆ [SClaimed; SDispatching; SAnswered] → busy c = true.
Proof. unfold busy. rewrite !in_states_elem. auto. Qed.

Ltac states :=
  repeat match goal with
  | Hp : _ && _ = true |- _ => apply andb_true_iff in Hp as [? ?]
  | Hp : in_states ?l ?c = true |- unfinished ?c = true ∧ _ => split; [by apply (was_unfinished l); [|set_solver]|]
  | Hp : in_states ?l ?c = true |- busy ?c = true ∧ _ => split; [by apply (was_busy l); [|set_solver]|]
  end.

Ltac calm_row := intros; apply calmer_to; [done|done| |by (left + right)];
  first [by left|by right; left|right; right; left; states; done|right; right; right; states; done].

Ltac calm := repeat first
  [ read_step calmer | apply calmer_history | apply calmer_insert
  | progress unfold mark_stale, record_lost, answered_is_stale, candidate_row, raise_cooldown, settle_attempt,
      update_attempts, id
  | apply calmer_execute; done | apply calmer_candidates; solve [calm_row] ].

Lemma release_calm claimed : moves calmer (release_unattempted_claim (Sources:=Sources) store claimed).
Proof.
  unfold release_unattempted_claim. calm. apply calmer_candidates. intros db c Hp.
  destruct (_ && newer_candidate db c); calm_row.
Qed.

Lemma preparation_calm claimed r : moves calmer (save_preparation (Sources:=Sources) store claimed r).
Proof. unfold save_preparation. calm. Qed.

Lemma dispatch_calm claimed now cooldown a : moves calmer (dispatch (Sources:=Sources) store claimed now cooldown a).
Proof. unfold dispatch. calm. Qed.

Lemma failure_calm claimed a kind d : moves calmer (settle_failure (Sources:=Sources) store claimed a kind d).
Proof. unfold settle_failure. calm. Qed.

Lemma terminal_calm claimed detail b p d :
  moves calmer (terminal_with_diagnostic (Sources:=Sources) store claimed detail b p d).
Proof.
  unfold terminal_with_diagnostic. calm. apply calmer_candidates. intros db row Hp.
  destruct (_ || _) eqn:E; [|destruct b; calm_row].
  rewrite orb_true_iff, !bool_decide_eq_true in E. destruct E as [->| ->]; calm_row.
Qed.

Lemma local_calm claimed now cooldown p : moves calmer (start_local (Sources:=Sources) store claimed now cooldown p).
Proof. unfold start_local. calm. Qed.

Lemma accept_calm a : moves calmer (accept (Sources:=Sources) store a).
Proof.
  unfold accept. calm. unfold try_accept_burn_check_answer. calm. unfold accept_answered. calm.
  unfold commit_acceptance. calm.
Qed.

Lemma recover_calm : moves calmer (recover_abandoned (Sources:=Sources) store).
Proof. unfold recover_abandoned. calm. Qed.

Lemma overflow_calm candidate : moves calmer (record_overflow (Sources:=Sources) store candidate).
Proof. unfold record_overflow. calm. unfold record_burn_check_overflow. calm. Qed.

(** *** An answer

    The claim was current, so its candidate was busy. *)
Lemma current_busy claim activation db (Q : bool → Database → Prop) :
  (∀ b, (b = true → ∃ c, c ∈ db_candidates db ∧ owns claim c = true ∧ busy c = true) → Q b db) →
  ends (claim_is_current_in store claim activation) db Q.
Proof.
  intros HQ. unfold claim_is_current_in, claim_is_current_for_scope_in.
  apply ends_bind, ends_refused. intros generation _. apply ends_bind, ends_query.
  destruct (claim_row_current _ _ _ _ _) eqn:E; simpl; [|by apply ends_ret, HQ].
  assert (∃ c, c ∈ db_candidates db ∧ owns claim c = true ∧ busy c = true) as Hc.
  { unfold claim_row_current in E. apply existsb_exists in E as (c & Hin & Hc). exists c.
    rewrite !andb_true_iff in Hc. rewrite list_elem_of_In. unfold busy. tauto. }
  eapply ends_mono; [apply (ends_moves eq); repeat (read_step (@eq Database))|]. intros b db' <-. by apply HQ.
Qed.

Lemma owned_once claim db c c' :
  exclusive db → c ∈ db_candidates db → c' ∈ db_candidates db → owns claim c = true → owns claim c' = true → c = c'.
Proof.
  intros [Hids _ _] Hc Hc' Ho Ho'. eapply (NoDup_fmap_inj cd_candidate_id); [exact Hids|done|done|].
  unfold owns, has_id in *. rewrite !andb_true_iff, String.eqb_eq in Ho, Ho'. destruct Ho as [[-> _] _].
  by destruct Ho' as [[-> _] _].
Qed.

Lemma answer_calm claimed a answer x db db' :
  exclusive db → performs (save_decision_answer (Sources:=Sources) store claimed a answer) x db db' → calmer db db'.
Proof.
  intros Hex (h & r & h' & Hrun & _). unfold save_decision_answer in Hrun.
  do 4 (apply plain_then in Hrun as [(e & -> & ->)|(? & ? & Hrun)]; [reflexivity| |solve [reads (@eq Database)]]).
  apply plain_then in Hrun as [(e & -> & ->)|(claim & ? & Hrun)]; [reflexivity| |solve [reads (@eq Database)]].
  apply plain_then in Hrun as [(e & -> & ->)|(? & ? & Hrun)]; [reflexivity| |solve [reads (@eq Database)]].
  cbv zeta in Hrun.
  apply (transaction_ends _ _ (λ e db1, match e with Commit _ => calmer db db1 | RollBack _ => True end)) in Hrun.
  { destruct r; [destruct Hrun as [?|[-> _]]|destruct Hrun as [->|[? ?]]]; try done; reflexivity. }
  apply ends_reads; [apply (moves_now eq)|]. intros now.
  apply (ends_then same_candidates); [by apply (moves_execute same_candidates)|]. intros n db1 Hsame.
  apply ends_bind, ends_ensure. intros _.
  assert (exclusive db1) as Hex1 by (eapply calmer_exclusive; [by apply calmer_same|done]).
  assert (∀ db2, calmer db1 db2 → calmer db db2) as Hfrom.
  { intros db2 Hc. etransitivity; [by apply calmer_same|exact Hc]. }
  clear Hex Hsame. apply ends_bind.
  eapply (ends_mono _ _ (λ b db2, db2 = db1 ∧
    (b = true → ∃ c, c ∈ db_candidates db1 ∧ owns claim c = true ∧ busy c = true))).
  { destruct (registered_activation _ _) as [activation|]; [|by apply ends_ret].
    apply current_busy. intros b Hb. by split. }
  intros current db2 [-> Hcur]. apply ends_reads; [solve [reads (@eq Database)]|]. intros complete.
  apply ends_reads; [apply (moves_now eq)|]. intros now'.
  apply ends_bind, ends_execute. unfold update_where. cbn [fst snd].
  match goal with |- ends _ ?db2 _ => assert (calmer db1 db2) as Hcalm end.
  { apply (calmer_update (λ _, owns claim) (λ _ row, _)). intros row Hrow Hown. destruct current.
    - destruct (Hcur eq_refl) as (held & Hheld & Hholds & Hbusy).
      rewrite (owned_once claim db1 row held) in * by done. destruct complete; calm_row.
    - destruct (in_states _ row); calm_row. }
  apply (ends_then calmer); [destruct current; calm|]. intros k db3 Hc3. apply ends_ret.
  apply Hfrom. by etransitivity.
Qed.

(** *** A claim

    The row of a pending candidate is claimed when no other one of its branch is
    busy. *)
Lemma pending_claimed db row f :
  exclusive db → row ∈ db_candidates db → cd_state row = SPending →
  (∀ c, c ∈ db_candidates db → busy c = true → branch_of c ≠ branch_of row) →
  (∀ c, cd_candidate_id (f c) = cd_candidate_id c ∧ branch_of (f c) = branch_of c ∧
        cd_frozen_input_json (f c) = cd_frozen_input_json c) →
  exclusive (with_candidates ((λ c, if has_id (cd_candidate_id row) c && in_states [SPending] c then f c else c) <$>
                                db_candidates db) db).
Proof.
  intros [Hids Hcols Hbusy] Hrow Hpend Hfree Hf.
  assert (∀ c, c ∈ db_candidates db → has_id (cd_candidate_id row) c && in_states [SPending] c = true → c = row) as Hone.
  { intros c Hc [Hid%String.eqb_eq _]%andb_true_iff. by eapply (NoDup_fmap_inj cd_candidate_id). }
  split; cbn [with_candidates db_candidates].
  - rewrite <- list_fmap_compose. erewrite list_fmap_ext; [exact Hids|]. intros i c _. cbn.
    destruct (_ && _); [apply Hf|done].
  - intros c' (c & -> & Hc)%list_elem_of_fmap Hu j. destruct (_ && _) eqn:E.
    + destruct (Hf c) as (_ & Hbr & ->). pose proof (Hone c Hc E) as ->. unfold branch_of in Hbr.
      intros Hj. apply (Hcols row Hrow) in Hj; [|unfold unfinished; apply in_states_elem; rewrite Hpend; set_solver].
      destruct Hj as (? & ? & ?). split_and!; congruence.
    + by apply Hcols.
  - intros c1' c2' (c1 & -> & Hc1)%list_elem_of_fmap (c2 & -> & Hc2)%list_elem_of_fmap.
    destruct (has_id _ c1 && _) eqn:E1, (has_id _ c2 && _) eqn:E2.
    + intros _ _ _. by rewrite (Hone c1 Hc1 E1), (Hone c2 Hc2 E2).
    + pose proof (Hone c1 Hc1 E1) as ->. destruct (Hf row) as (_ & -> & _). intros _ Hb2 He. by destruct (Hfree c2 Hc2 Hb2).
    + pose proof (Hone c2 Hc2 E2) as ->. destruct (Hf row) as (_ & -> & _). intros Hb1 _ He. by destruct (Hfree c1 Hc1 Hb1).
    + by apply Hbusy.
Qed.

Lemma then_reads {A B} (m : sql A) (k : A → sql B) db h r db' h' :
  bind m k (db, h) = (r, (db', h')) → (∀ a, moves eq (k a)) → ∃ r1 h1, m (db, h) = (r1, (db', h1)).
Proof.
  unfold bind. intros Hrun Hk. destruct (m (db, h)) as [[a|e] [db1 h1]].
  - specialize (Hk a (db1, h1)). rewrite Hrun in Hk. simpl in Hk. subst. eauto.
  - injection Hrun as _ <- _. eauto.
Qed.

Lemma candidate_eqb_identity f c :
  candidate_eqb f c = true → fr_activation f = fr_activation c ∧ fr_branch f = fr_branch c.
Proof. unfold candidate_eqb. rewrite !andb_true_iff, !bool_decide_eq_true. tauto. Qed.

Definition exclusive_ending {A} (e : Ending A) (db' : Database) : Prop :=
  match e with Commit _ => exclusive db' | RollBack _ => True end.

Lemma claim_exclusive candidate now bypass x db db' :
  exclusive db → performs (claim (Sources:=Sources) store candidate now bypass) x db db' → exclusive db'.
Proof.
  intros Hex (h & r & h' & Hrun & _). unfold claim in Hrun.
  apply plain_then in Hrun as [(e & -> & ->)|([] & h1 & Hrun)]; [done| |apply (moves_ensure eq)].
  destruct (registered_activation _ _) as [activation|]; [|by injection Hrun as _ <- _].
  apply then_reads in Hrun as (r1 & h2 & Hrun).
  2: { intros [o|[prior fence]]; repeat (read_step (@eq Database)). }
  apply (transaction_ends _ _ exclusive_ending) in Hrun.
  { destruct r1; [destruct Hrun as [?|[-> _]]|destruct Hrun as [->|[? ?]]]; done. }
  apply ends_bind, ends_query. destruct (claimable_row _ _ _) as [row|] eqn:Erow; [|by apply ends_ret].
  apply List.find_some in Erow as [Hrow Hsel]. rewrite !andb_true_iff in Hsel. destruct Hsel as [[Hid Hscope] _].
  do 2 (apply ends_reads; [apply (moves_refused eq)|intros ?]).
  destruct (bool_decide (cd_state row = SPending)) eqn:Epend; simpl negb; [|by apply ends_ret].
  apply bool_decide_eq_true in Epend.
  do 2 (apply ends_reads; [repeat read_step (@eq Database)|intros ?]).
  match goal with |- ends (if ?b then _ else _) _ _ => destruct b end.
  { apply (ends_then calmer); [calm|]. intros n db1 Hc. apply ends_ret. by eapply calmer_exclusive. }
  apply ends_bind, ends_refused. intros frozen Hfrozen. apply ends_bind, ends_ensure. intros Heq.
  apply ends_bind, ends_refused. intros generation Hgen. apply ends_bind, ends_query.
  do 3 (apply ends_reads; [repeat read_step (@eq Database)|intros ?]). cbv zeta.
  destruct (branch_busy _ _ _ _ _) eqn:Ebusy; simpl orb; [by apply ends_ret|].
  match goal with |- ends (if ?b then _ else _) _ _ => destruct b end; [by apply ends_ret|].
  do 5 (apply ends_reads; [repeat read_step (@eq Database)|intros ?]).
  apply ends_bind, ends_execute. unfold update_where. cbn [fst snd]. apply ends_ret.
  apply String.eqb_eq in Hid as <-. apply list_elem_of_In in Hrow.
  apply (pending_claimed db row); [done..| |done]. intros c Hc Hbusy Hbr.
  destruct (candidate_eqb_identity _ _ Heq) as [Ha Hb].
  pose proof (ex_columns db Hex row Hrow) as Hcols. unfold unfinished in Hcols.
  destruct (Hcols ltac:(apply in_states_elem; rewrite Epend; set_solver) frozen Hfrozen) as (Hcheck & Hgen' & Hbranch).
  unfold integer in Hgen. destruct (_ <=? _)%Z; [|done]. injection Hgen as <-. rewrite Ha in Hcheck, Hgen'.
  rewrite Hb in Hbranch. apply String.eqb_eq in Hscope. unfold branch_of in Hbr.
  apply not_true_iff_false in Ebusy. apply Ebusy, existsb_exists. exists c. rewrite list_elem_of_In in Hc.
  split; [done|]. injection Hbr as -> -> -> ->.
  rewrite Hcheck, Hscope, Hgen', Hbranch, !String.eqb_refl, Z.eqb_refl. exact Hbusy.
Qed.

Lemma call_exclusive X (c : engine_call X) x db db' :
  exclusive db → check_store_step store X c x db db' → exclusive db'.
Proof.
  intros Hex Hs. destruct c; simpl in Hs; try (by subst);
    try (eapply calmer_exclusive; [|exact Hex]; eapply performs_moves; [|exact Hs];
         first [apply release_calm|apply preparation_calm|apply local_calm|apply terminal_calm|apply dispatch_calm
               |apply failure_calm|apply accept_calm|apply (moves_terminal_ids _ calmer)
               |apply (moves_load _ calmer)|apply (moves_preparation _ calmer)]).
  - by eapply claim_exclusive.
  - eapply calmer_exclusive; [by eapply answer_calm|done].
Qed.
End exclusive.


(** ** The gate before a request *)

Section gate.
Context `{SerdeNumber, JsonDeserializer, !JsonMessages, !RecordWriter, !ValueEq, !CandidateDigest, !Sqlite}.
Context {Sources : Type} `{!Ingestion Sources}.
Notation Database := (Database.Database Sources).

(** A request may be sent for a claim that holds the candidate while the intent of
    the exact attempt is saved, and asking changes nothing. *)
Lemma provider_dispatch_recorded activation candidate attempt (db : Database) :
  ends (provider_dispatch_claim activation candidate attempt) db (λ x db', db' = db ∧
    ∀ claim, x = Some claim →
      bc_candidate_id claim = hex (fr_fingerprint candidate) ∧ fr_activation candidate = ea_id activation ∧
      (∃ a, a ∈ attempts_of db (bc_candidate_id claim) ∧
            at_attempt_id a = attempt_id (fr_fingerprint candidate) attempt ∧ at_state a = ADispatchIntent) ∧
      ∃ c, c ∈ db_candidates db ∧ owns claim c = true ∧ cd_state c = SDispatching).
Proof.
  unfold provider_dispatch_claim. apply ends_bind, ends_ensure. intros Hact%bool_decide_eq_true.
  apply ends_bind, ends_refused. intros _ _. cbv zeta. apply ends_bind, ends_query.
  destruct (dispatching_row _ _ db) as [[c owner]|] eqn:Erow; [|by apply ends_ret].
  unfold dispatching_row in Erow. apply bind_Some in Erow as (c' & Hc & Erow).
  apply bind_Some in Erow as (owner' & Howner & [= -> ->]). apply List.find_some in Hc as [Hin Hc].
  rewrite !andb_true_iff, bool_decide_eq_true in Hc. destruct Hc as [[[Hid Hst] _] Hatt].
  apply ends_bind, ends_refused. intros frozen _. apply ends_bind, ends_ensure. intros _.
  apply ends_reads; [unfold claim_is_current_for_scope_in; repeat (read_step (@eq Database))|]. intros current.
  apply ends_ret. split; [done|]. intros claim. destruct current; [|done]. intros [= <-]. cbn [bc_candidate_id].
  split_and!; [done|done| |].
  - apply existsb_exists in Hatt as (a & Ha & Hmatch). rewrite !andb_true_iff, bool_decide_eq_true in Hmatch.
    destruct Hmatch as [[Hc Ha'%String.eqb_eq] Hst']. exists a. split; [|done]. unfold attempts_of.
    by rewrite list_elem_of_In, List.filter_In.
  - exists c. rewrite list_elem_of_In. split; [done|]. split.
    + unfold owns. cbn. rewrite Hid, Howner, Z.eqb_refl. by rewrite bool_decide_eq_true_2.
    + unfold in_states in Hst. simpl in Hst. rewrite orb_false_r, bool_decide_eq_true in Hst. done.
Qed.
End gate.

(** ** Acceptance *)

Section acceptance.
Context `{SerdeNumber, JsonDeserializer, !JsonMessages, !RecordWriter, !ValueEq, !CandidateDigest, !Sqlite}.
Context {Sources : Type} `{!Ingestion Sources}.
Notation Database := (Database.Database Sources).
Notation sql := (Database.sql Sources).
Variable store : StoreCheckStore.

(** The tables that publish an assessment, and the attempts *)
Definition unpublished (db db' : Database) : Prop :=
  db_history db' = db_history db ∧ db_watermarks db' = db_watermarks db ∧ db_statuses db' = db_statuses db ∧
  db_attempts db' = db_attempts db.

Definition history_row (c : CandidateRow) (assessment answer actions : string) (now : Z) : HistoryRow :=
  {| hi_assessment_id := assessment; hi_candidate_id := cd_candidate_id c;
     hi_check_id := cd_check_id c; hi_scope_key := cd_scope_key c; hi_generation := cd_generation c;
     hi_branch_key := cd_branch_key c; hi_trigger_position := cd_trigger_position c; hi_outcome := "assessed";
     hi_answer_json := Some answer; hi_actions_json := actions; hi_evidence_valid := true;
     hi_accepted_at_epoch := now |}.

(** The status of the branch of a candidate says an assessment. *)
Definition status_row_of (c : CandidateRow) (assessment status : string) (s : StatusRow) : Prop :=
  cs_check_id s = cd_check_id c ∧ cs_scope_key s = cd_scope_key c ∧ cs_branch_key s = cd_branch_key c ∧
  cs_generation s = cd_generation c ∧ cs_status s = status ∧ cs_assessment_id s = assessment ∧
  cs_position s = cd_trigger_position c.

(** Everything that an acceptance writes *)
Record published (c : CandidateRow) (assessment : string) (answer actions : Value) (status : option string)
    (db db' : Database) : Prop := {
  pu_history : ∃ answer_text actions_text now,
    to_string (value_serial answer) = Ok answer_text ∧ to_string (value_serial actions) = Ok actions_text ∧
    history_row c assessment answer_text actions_text now ∈ db_history db';
  pu_watermark : watermark_of c db' = Some (cd_trigger_position c);
  pu_status : match status with
              | None => db_statuses db' = db_statuses db
              | Some status => ∃ s, s ∈ db_statuses db' ∧ status_row_of c assessment status s
              end;
  pu_state : ∃ c', c' ∈ db_candidates db' ∧ cd_candidate_id c' = cd_candidate_id c ∧ cd_state c' = SAccepted;
  pu_attempts : db_attempts db' = db_attempts db
}.

Lemma upsert_found {R} (key found : R → bool) row change rows :
  found row = true → (∀ r, found (change r) = key r) → (∀ r, found r = true → key r = true) →
  ∃ r, List.find found (upsert key row change rows) = Some r ∧ (r = row ∨ ∃ r0, key r0 = true ∧ r = change r0).
Proof.
  intros Hrow Hchange Hkey. unfold upsert. destruct (existsb key rows) eqn:E.
  - induction rows as [|r rows IH]; [done|]. csimpl. destruct (key r) eqn:Ek.
    + rewrite Hchange, Ek. exists (change r). eauto.
    + assert (found r = false) as -> by (apply not_true_is_false; intros Hf%Hkey; congruence).
      apply IH. simpl in E. by rewrite Ek in E.
  - exists row. split; [|by left].
    assert (List.find found rows = None) as Hnone.
    { destruct (List.find found rows) as [r|] eqn:Ef; [|done]. apply List.find_some in Ef as [Hin Hf%Hkey].
      assert (existsb key rows = true) as Hex by (apply existsb_exists; eauto). congruence. }
    clear E. induction rows as [|r rows IH]; simpl in *; [by rewrite Hrow|].
    destruct (found r); [done|]. by apply IH.
Qed.

(** A history row that is inserted is there, and stays. *)
Lemma history_inserted make (db : Database) row c (Q : N → Database → Prop) :
  c ∈ db_candidates db → make c = Some row → (∀ n rows, row ∈ rows → Q n (with_history rows db)) →
  ends (insert_history no_conflict make) db Q.
Proof.
  intros Hc Hmake HQ. apply ends_statement. intros n db' He.
  apply result_bind_ok in He as ([k rows] & Hfold & [= <- <-]). apply HQ. clear HQ.
  match type of Hfold with fold_left ?f _ _ = _ => set (add := f) in * end.
  assert (∀ acc c0 k rows, add acc c0 = Ok (k, rows) → ∃ k0 rows0, acc = Ok (k0, rows0) ∧
    (row ∈ rows0 → row ∈ rows) ∧ (make c0 = Some row → row ∈ rows)) as Hadd.
  { clear. intros [[k0 rows0]|e] c0 k rows Ha; [|done]. exists k0, rows0. split; [done|]. unfold add in Ha. simpl in Ha.
    destruct (make c0) as [r|]; [|by injection Ha as <- <-]. destruct (select_one _ _); [done|].
    destruct (exists_row _ _); [done|]. injection Ha as <- <-. split; [by intros ?; apply elem_of_app; left|].
    intros [= <-]. apply elem_of_app. right. by left. }
  assert (∀ l acc k rows, fold_left add l acc = Ok (k, rows) → ∃ k0 rows0, acc = Ok (k0, rows0) ∧
    (row ∈ rows0 → row ∈ rows) ∧ (c ∈ l → row ∈ rows)) as Hall.
  { clear -Hadd Hmake. induction l as [|c0 l IH]; intros acc k rows Hf; simpl in Hf.
    - exists k, rows. split_and!; [done..|by intros ?%elem_of_nil].
    - apply IH in Hf as (k1 & rows1 & Ha & Hkeep & Hin). apply Hadd in Ha as (k0 & rows0 & -> & Hkeep0 & Hin0).
      exists k0, rows0. split_and!; [done|auto|]. intros [->|?]%elem_of_cons; auto. }
  apply Hall in Hfold as (_ & _ & _ & _ & Hin). auto.
Qed.

Lemma accepted_row c now (db : Database) :
  c ∈ db_candidates db → cd_state c = SAnswered →
  ∃ c', c' ∈ (λ r, if has_id (cd_candidate_id c) r && in_states [SAnswered] r
                   then set_updated now (set_state SAccepted r) else r) <$> db_candidates db ∧
    cd_candidate_id c' = cd_candidate_id c ∧ cd_state c' = SAccepted.
Proof.
  intros Hc Hst. exists (set_updated now (set_state SAccepted c)). split; [|done].
  apply list_elem_of_fmap. exists c. split; [|done].
  assert (has_id (cd_candidate_id c) c && in_states [SAnswered] c = true) as ->; [|done].
  apply andb_true_iff. split; [by apply String.eqb_eq|]. apply in_states_elem. rewrite Hst. set_solver.
Qed.

Lemma watermark_raised c (rows : list WatermarkRow) :
  ∃ w, List.find (λ w, String.eqb (wm_check_id w) (cd_check_id c) &&
      String.eqb (wm_scope_key w) (cd_scope_key c) && String.eqb (wm_branch_key w) (cd_branch_key c) &&
      (wm_generation w =? cd_generation c)%Z)
    (upsert (λ w, String.eqb (wm_check_id w) (cd_check_id c) && String.eqb (wm_scope_key w) (cd_scope_key c) &&
                  String.eqb (wm_branch_key w) (cd_branch_key c))
       {| wm_check_id := cd_check_id c; wm_scope_key := cd_scope_key c; wm_branch_key := cd_branch_key c;
          wm_generation := cd_generation c; wm_position := cd_trigger_position c |}
       (λ w, {| wm_check_id := wm_check_id w; wm_scope_key := wm_scope_key w; wm_branch_key := wm_branch_key w;
                wm_generation := cd_generation c; wm_position := cd_trigger_position c |}) rows) = Some w ∧
    wm_position w = cd_trigger_position c.
Proof.
  edestruct (upsert_found (R:=WatermarkRow)) as (w & Hfind & Hw); [| | |exists w; split; [exact Hfind|]].
  - cbn. by rewrite !String.eqb_refl, Z.eqb_refl.
  - intros r. cbn. by rewrite Z.eqb_refl, andb_true_r.
  - by intros r [? _]%andb_true_iff.
  - by destruct Hw as [->|(r0 & _ & ->)].
Qed.

Lemma commit_published c assessment answer actions status now db :
  c ∈ db_candidates db → cd_state c = SAnswered →
  ends (commit_acceptance c assessment answer actions status now) db
    (λ e db', e = Commit Accepted ∧ published c assessment answer actions status db db').
Proof.
  intros Hc Hst. unfold commit_acceptance.
  apply ends_bind, ends_refused. intros answer_text Ha. apply ends_bind, ends_refused. intros actions_text Hac.
  apply ends_bind. eapply (history_inserted _ _ (history_row c assessment answer_text actions_text now) c); [done| |].
  { cbn. unfold has_id. by rewrite String.eqb_refl. }
  intros n rows Hrow. apply ends_bind, ends_execute. cbn [fst snd].
  destruct (watermark_raised c (db_watermarks (with_history rows db))) as (w & Hfind & Hpos).
  destruct status as [status|].
  - do 2 apply ends_bind. apply ends_ensure. intros _. apply ends_execute. cbn [fst snd].
    apply ends_bind, ends_execute. unfold update_where. cbn [fst snd]. apply ends_ret. split; [done|].
    split; try done.
    + exists answer_text, actions_text, now. by split_and!.
    + unfold watermark_of, select_one. cbn [db_watermarks with_candidates with_statuses with_watermarks].
      rewrite Hfind. simpl. by rewrite Hpos.
    + cbn [db_statuses with_candidates with_statuses]. match goal with |- context [upsert ?key ?row ?change ?l] =>
        destruct (upsert_found key key row change l) as (s & Hs & Hcase) end; [|done..|].
      { cbn. by rewrite !String.eqb_refl. }
      apply List.find_some in Hs as [Hin Hkey]. exists s. split; [by apply list_elem_of_In|].
      destruct Hcase as [->|(s0 & Hkey0 & ->)]; [done|]. rewrite !andb_true_iff, !String.eqb_eq in Hkey0.
      by destruct Hkey0 as [[? ?] ?].
    + by apply accepted_row.
  - apply ends_bind, ends_ret. apply ends_bind, ends_execute. unfold update_where. cbn [fst snd]. apply ends_ret.
    split; [done|]. split; try done.
    + exists answer_text, actions_text, now. by split_and!.
    + unfold watermark_of, select_one. cbn [db_watermarks with_candidates with_statuses with_watermarks].
      rewrite Hfind. simpl. by rewrite Hpos.
    + by apply accepted_row.
Qed.

(** Why an answer could be accepted *)
Record acceptable (a : AssessmentAcceptance) (c : CandidateRow) (db : Database) : Prop := {
  ac_row : c ∈ db_candidates db;
  ac_claim : owns (claim_of store (aa_claimed a)) c = true ∧ cd_state c = SAnswered;
  ac_activation : ∃ row, answered_row (claim_of store (aa_claimed a)) db = Some (c, av_applied_sequence row) ∧
    joined_current c row = true ∧ (cd_selected_publication_head c <= av_applied_sequence row)%Z;
  ac_paused : acceptance_paused (cd_candidate_id c) db = false;
  ac_answer : ∃ text value, cd_answer_json c = Some text ∧ from_str read_value text = Some value ∧
    value_eqb value (to_value (assessment_record (aa_evaluated a))) = true;
  ac_dependencies : typed_dependencies_current db (cd_candidate_id c) = Ok true ∧
    forallb (dependency_current (cd_check_id c) (cd_scope_key c) db) (observed_dependencies (cd_candidate_id c) db) = true;
  ac_watermark : ∀ old, watermark_of c db = Some old → (old < cd_trigger_position c)%Z
}.

Lemma answered_row_spec claim (db : Database) c applied :
  answered_row claim db = Some (c, applied) →
  c ∈ db_candidates db ∧ owns claim c = true ∧ cd_state c = SAnswered ∧
  ∃ row, applied = av_applied_sequence row ∧ joined_current c row = true.
Proof.
  unfold answered_row. intros (c' & Hc & Ha)%bind_Some. apply bind_Some in Ha as (row & Hrow & [= -> <-]).
  apply List.find_some in Hc as [Hin Hc]. apply List.find_some in Hrow as [_ Hrow].
  rewrite !andb_true_iff in Hc. destruct Hc as [[Hst Hown] _]. apply in_states_elem in Hst.
  split_and!; [by apply list_elem_of_In|done|set_solver|]. by exists row.
Qed.

#[export] Instance unpublished_preorder : PreOrder unpublished.
Proof. split; [done|]. intros d1 d2 d3 (? & ? & ? & ?) (? & ? & ? & ?). split_and!; congruence. Qed.

Lemma stale_unpublished p f : moves unpublished (answered_is_stale (Sources:=Sources) p f).
Proof. apply (moves_execute unpublished). intros db. by destruct (update_where _ _ _). Qed.

(** What a commit of an acceptance writes *)
Definition accepted_or_stale (a : AssessmentAcceptance) (db db' : Database) (o : AcceptanceOutcome) : Prop :=
  match o with
  | Accepted =>
      ∃ c, acceptable a c db ∧
        published c (assessment_key (hex (cl_id (aa_claimed a)))) (to_value (assessment_record (aa_evaluated a)))
          (to_value (plan_serial (aa_actions a))) (status_name <$> status_write a) db db'
  | AcceptanceStale => unpublished db db'
  | Deferred | AlreadyAccepted => False
  end.

Definition acceptance_ending (a : AssessmentAcceptance) (db : Database) (e : Ending AcceptanceOutcome)
    (db' : Database) : Prop :=
  match e with
  | Commit o => accepted_or_stale a db db' o
  | RollBack o => o = Deferred ∨ o = AlreadyAccepted
  end.

Lemma becomes_stale a db p f :
  ends (do* answered_is_stale p f; ret (Commit AcceptanceStale)) db (acceptance_ending a db).
Proof.
  apply (ends_then unpublished); [apply stale_unpublished|]. intros n db' Hu. by apply ends_ret.
Qed.

Lemma answered_ends a db c applied now :
  answered_row (claim_of store (aa_claimed a)) db = Some (c, applied) →
  acceptance_paused (hex (cl_id (aa_claimed a))) db = false →
  ends (accept_answered (claim_of store (aa_claimed a)) (assessment_key (hex (cl_id (aa_claimed a))))
          (to_value (assessment_record (aa_evaluated a))) (to_value (plan_serial (aa_actions a)))
          (status_name <$> status_write a) now (c, applied)) db (acceptance_ending a db).
Proof.
  intros Hrow Hpaused. destruct (answered_row_spec _ _ _ _ Hrow) as (Hc & Hown & Hst & row & -> & Hjoin).
  assert (cd_candidate_id c = hex (cl_id (aa_claimed a))) as Hid.
  { unfold owns, has_id in Hown. rewrite !andb_true_iff, String.eqb_eq in Hown. apply Hown. }
  unfold accept_answered. cbn [bc_candidate_id claim_of]. cbv zeta.
  apply ends_bind, ends_context. intros text Htext. apply ends_reads; [apply (moves_refused eq)|]. intros ?.
  apply ends_bind, ends_context. intros value Hvalue. apply ends_bind, ends_ensure. intros Heq.
  do 3 (apply ends_reads; [repeat read_step (@eq Database)|intros ?]).
  apply ends_bind, ends_query.
  destruct (_ || newer_publication _ _ _ _ _ _) eqn:Ehead; [apply ends_ret; by left|].
  apply orb_false_iff in Ehead as [Ehead%Z.ltb_ge _].
  apply ends_bind, ends_query. apply ends_bind, ends_statement. intros typed db' Htyped.
  destruct (typed_dependencies_current _ _) as [b|] eqn:Et; [|done]. injection Htyped as -> <-.
  destruct (negb _) eqn:Edep; [apply becomes_stale|].
  apply negb_false_iff, andb_true_iff in Edep as [-> Hobserved].
  apply ends_bind, ends_query.
  destruct (match watermark_of c db with Some _ => _ | None => _ end) eqn:Ew; [apply becomes_stale|].
  eapply ends_mono; [by apply commit_published|]. intros e db' [-> Hp]. exists c. split; [|done].
  split; try done; rewrite ?Hid; try done.
  - exists row. split_and!; [done..|lia].
  - eauto.
  - intros old Hold. rewrite Hold in Ew. lia.
Qed.
End acceptance.
