(* ===== verification/RuntimeStoreRuns.v ===== *)
(** * The life of a candidate on the database

    An evaluation works on the attempts of its own candidate; so over any number of
    evaluations, dropped guards and restarts, with the database that the store's
    transactions leave, no request is sent twice.  The promises of the store follow
    from the facts on its transactions: its contract, the fence, acceptance, and one
    claimed candidate for each branch.  A concrete evaluation is run on a concrete
    database, against which they are applied. *)

From stdpp Require Import gmap.
From S2P Require Import Prelude Program RustString Json Diagnostics Expression Budget Provenance Scalars Evaluator Fit Domain Template Decision Check Preparation Lifecycle Context Selection Messages BoundedJson Serde Prepared Results ResultFacts ResultDecode ResultDecodeFacts CapacityFacts Actions ActionFacts Progress ProgressFacts Checkpoint Scheduler SchedulerFacts SchedulerRuns Engine EngineFacts EngineRuns Database RuntimeStore RuntimeStoreFacts.

#[local] Open Scope N_scope.

(** ** The calls of an evaluation

    An evaluation of a candidate reads and changes the attempts of that candidate
    only, and an answer that it records was validated for its declaration. *)
Section evaluation.
Context `{SerdeNumber, UnicodeData, JsonDeserializer, !RecordWriter}.
Variable cand : list N.
Variable check : CompiledCheck.
Variable activation : EffectiveActivation.
Hypothesis activation_check : ea_compiled activation = check.

Notation declarations := (cc_decisions check).
Notation requirements := (question_requirements check).

Definition declared_answer (a : DecisionResult) : Prop :=
  ∃ declaration, List.find (λ block, String.eqb (d_name block) (dr_decision a)) declarations = Some declaration ∧
    result_validate_for_declaration a declaration requirements = Ok tt.

Definition on_rows (X : Type) (c : engine_call X) : Prop :=
  match row_candidate X c with Some id => id = cand | None => True end ∧
  match c with RecordDecisionAnswer _ _ answer => declared_answer answer | _ => True end.

Notation within := (calls_within on_rows any).

Ltac within_step :=
  lazymatch goal with
  | |- calls_within _ _ (pbind _ _) => apply calls_in_bind; [|intros ?]
  | |- calls_within _ _ (ptry _ _) => apply calls_in_try; [|intros ?]
  | |- calls_within _ _ (match ?x with _ => _ end) => destruct x
  | |- calls_within _ _ (let '_ := ?x in _) => destruct x
  | |- calls_within _ _ _ => solve [by repeat split]
  end.
Ltac within := repeat within_step.

Lemma drop_within : within drop_guard.
Proof. unfold drop_guard. within. Qed.

Lemma restore_within p claimed e : within (restore_pre_dispatch p claimed e).
Proof. unfold restore_pre_dispatch, restore_candidate, on_scheduler. within. Qed.

Lemma ready_on_rows r : within (ready r).
Proof. unfold ready. within. Qed.

Lemma submit_within claimed evaluated plan : within (submit (L:=Local) claimed evaluated plan).
Proof. unfold submit. within. Qed.

Lemma prepare_within pending claimed attempts purpose :
  within (prepare_claimed activation pending claimed attempts purpose).
Proof. unfold prepare_claimed, claimed_preparation, prepare_new. within. Qed.

Lemma settle_within claimed attempt evaluated progress :
  cl_id claimed = cand → within (settle_decision_attempt activation claimed attempt evaluated progress).
Proof.
  intros Hid. unfold settle_decision_attempt.
  destruct evaluated as [answer|failure]; simpl; [|by split; [|intros []]].
  destruct (validate_answer _ _ _ _) as [[a|e]|] eqn:Ev; simpl; [|by split; [|intros []]|done].
  split; [|by intros []].
  split; [done|]. unfold validate_answer in Ev. apply bind_Some in Ev as (block & Hb & [= Ev]).
  destruct (result_validate_for_declaration _ _ _) as [[]|] eqn:Er; [|done]. destruct (negb _); [done|].
  destruct (measure_decision_results_with_next _ _); [|done]. injection Ev as <-.
  rewrite activation_check in Hb, Er. exists block. split; [|done]. rewrite (validated_name _ _ _ Er).
  by pose proof (List.find_some _ _ Hb) as [_ ->%String.eqb_eq].
Qed.

Lemma publish_within claimed prepared evaluated : within (publish_model (L:=Local) activation claimed prepared evaluated).
Proof. unfold publish_model. within. apply submit_within. Qed.

Section loop.
Variable env : RunEnv.
Hypothesis env_activation : re_activation env = activation.
Hypothesis env_claimed : cl_id (re_claimed env) = cand.

Lemma settle_turn_within st attempt evaluated : within (settle_turn env st attempt evaluated).
Proof.
  unfold settle_turn. rewrite env_activation. apply calls_in_bind; [by apply settle_within|]. intros r.
  unfold done_outcome. within.
Qed.

Lemma dispatch_turn_within st attempt : within (dispatch_turn env st attempt).
Proof.
  unfold dispatch_turn, done_outcome, set_release. apply calls_in_bind; [by repeat split|]. intros _.
  apply calls_in_bind; [by repeat split|]. intros [[]|e]; [|by repeat split..].
  apply calls_in_bind; [by destruct (_ && _)|]. intros _. apply calls_in_bind; [by repeat split|]. intros _.
  apply calls_in_bind; [by repeat split|]. intros r. apply settle_turn_within.
Qed.

Lemma run_turn_within st : within (run_turn env st).
Proof.
  unfold run_turn, done_outcome. destruct (validate_decision_progress _ _ _) as [[n state]|e]; [|by repeat split].
  cbn [vp_attempts vp_state]. destruct (negb _); [by repeat split|]. destruct state as [a u|evaluated|t].
  - unfold next_turn. within. apply dispatch_turn_within.
  - apply calls_in_bind; [by repeat split|]. intros _. rewrite env_activation.
    apply calls_in_bind; [apply publish_within|]. by repeat split.
  - unfold terminal_turn, set_release, done_outcome. within.
Qed.

Lemma run_loop_within fuel : ∀ st, within (run_loop env fuel st).
Proof.
  induction fuel as [|fuel IH]; intros st; simpl; [done|].
  apply calls_in_bind; [apply run_turn_within|]. intros [r st'|st']; [by repeat split|apply IH].
Qed.

Lemma model_future_within progress attempts : within (model_future env progress attempts).
Proof.
  unfold model_future, run_model. apply calls_in_bind; [by repeat split|]. intros _.
  apply calls_in_bind; [apply run_loop_within|]. intros [r st]. destruct r; within; apply drop_within.
Qed.
End loop.

Lemma local_future_within pending claimed prepared : within (local_future activation pending claimed prepared).
Proof. unfold local_future. within; (apply submit_within || apply drop_within). Qed.

(** What the start of a reservation leaves: the calls of its future are on the
    attempts of the candidate too.  The claim that it gets is of the candidate. *)
Definition claims_candidate (X : Type) (c : engine_call X) : X → unit → unit → Prop :=
  match c in engine_call X return X → unit → unit → Prop with
  | ClaimDue candidate _ _ => λ x _ _, ∀ claimed, x = Ok (Claimed claimed) → cl_id claimed = CandidateId_from candidate
  | _ => λ _ _ _, True
  end.

Notation claiming := (hoare claims_candidate (λ X c _, on_rows X c) any any).

Definition future_within (r : result StartOutcome StoreError) (_ : unit) : Prop :=
  match r with Ok (Started future) => within future | _ => True end.

Lemma within_claiming {A} (p : task A) : within p → claiming (λ _ _, True) p tt.
Proof. intros Hp. by apply (calls_within_hoare on_rows any _ _ _ any). Qed.

Lemma within_then {A B} (Q : B → unit → Prop) (p : task A) (f : A → task B) :
  within p → (∀ x, claiming Q (f x) tt) → claiming Q (pbind p f) tt.
Proof. intros Hp Hf. eapply hoare_bind; [by apply within_claiming|]. intros x [] _ _. apply Hf. Qed.

Ltac claiming_step :=
  lazymatch goal with
  | |- hoare _ _ _ _ _ (pbind _ _) _ => apply within_then; [|intros ?]
  | |- hoare _ _ _ _ _ (match ?x with _ => _ end) _ => destruct x
  | |- hoare _ _ _ _ _ (Ret _) _ => split; [done|]; unfold future_within; try done
  | |- calls_within _ _ (ready _) => apply ready_on_rows
  | |- calls_within _ _ (restore_pre_dispatch _ _ _) => apply restore_within
  | |- calls_within _ _ (pcall _) => by repeat split
  | |- calls_within _ _ _ => within_step
  end.
Ltac claiming := repeat claiming_step.

Lemma start_local_within now policy pending claimed :
  claiming future_within (Engine.start_local activation now policy pending claimed) tt.
Proof.
  unfold Engine.start_local, clear_if_idle, finish, restore_candidate, on_scheduler.
  claiming; apply local_future_within.
Qed.

Lemma start_model_within now maximum policy pending claimed :
  cl_id claimed = cand → claiming future_within (start_model activation now maximum policy pending claimed) tt.
Proof.
  intros Hid. unfold start_model, start_invalid, clear_if_idle, finish, on_scheduler, on_guard.
  claiming; (apply prepare_within || by apply model_future_within).
Qed.

Lemma start_claimed_within now maximum policy pending :
  CandidateId_from (pc_candidate pending) = cand →
  claiming future_within (start_claimed activation now maximum policy pending) tt.
Proof.
  intros Hp. unfold start_claimed. apply hoare_call; [done|by repeat split|]. intros claim [] Hc. cbn in Hc.
  destruct claim as [[claimed|retry|]|e].
  - specialize (Hc claimed eq_refl). destruct (is_local _); [apply start_local_within|].
    apply start_model_within. congruence.
  - unfold on_scheduler, finish. claiming.
  - unfold clear_if_idle, on_scheduler, finish. claiming.
  - unfold restore_candidate, on_scheduler, finish. claiming.
Qed.

Lemma evaluation_within now maximum policy pending :
  CandidateId_from (pc_candidate pending) = cand →
  claiming (λ _ _, True) (evaluation activation now maximum policy pending) tt.
Proof.
  intros Hp. unfold evaluation. apply (hoare_bind _ _ _ _ future_within).
  - unfold start_reserved. apply within_then; [by repeat split|]. intros [previous|]; [|by apply start_claimed_within].
    apply within_then; [by repeat split|]. intros [o|e].
    + apply within_then; [by repeat split|]. intros _. by apply start_claimed_within.
    + unfold restore_candidate, on_scheduler, finish. claiming.
  - intros [[| |future]|e] [] _ Hf; try by split. apply within_then; [exact Hf|]. by split.
Qed.
End evaluation.

(** ** The life of a candidate on the database *)

Section claims.
Context `{SerdeNumber, JsonDeserializer, !JsonMessages, !RecordWriter, !ValueEq, !CandidateDigest, !Sqlite}.
Context {Sources : Type} `{!Ingestion Sources}.

Lemma claim_candidate store candidate now bypass db :
  ends (claim (Sources:=Sources) store candidate now bypass) db
    (λ c _, ∀ claimed, c = Claimed claimed → cl_id claimed = CandidateId_from candidate).
Proof.
  unfold claim. apply ends_skip. intros _ db1. destruct (registered_activation _ _) as [activation|];
    [|by apply ends_ret].
  apply ends_bind. eapply (ends_mono _ _ (λ ended _, ∀ c, ended ≠ inl (Claimed c))).
  - apply ends_transaction. repeat first
      [ match goal with |- ends (match ?x with _ => _ end) _ _ => destruct x end
      | match goal with |- ends (ret _) _ _ => by apply ends_ret end
      | apply ends_skip; intros ? ? ].
  - intros [o|[prior fence]] db2 Hn; [apply ends_ret; naive_solver|].
    apply ends_skip. intros prior_status db3. apply ends_ret. by intros claimed [= <-].
Qed.
End claims.

Section life.
Context `{SerdeNumber, !SerdeNumberLaws, UnicodeData, JsonDeserializer, !JsonMessages, !RecordWriter, !ValueEq,
          !CandidateDigest, !Sqlite}.
Context {Sources : Type} `{!Ingestion Sources}.
Notation Database := (Database.Database Sources).
Variable check : CompiledCheck.
Variable cand : list N.

(** The database, and the attempts that were sent in the life of the candidate *)
Record Life := { lf_db : Database; lf_sent : list DecisionAttempt }.

(** The candidate's activation is registered with its check only. *)
Definition registers (store : StoreCheckStore) : Prop :=
  ∀ c a, CandidateId_from c = cand → registered_activation store (fr_activation c) = Some a → ea_compiled a = check.

(** A call is served by the store of a process.  Before it, anything can happen to
    the database that leaves the candidate's attempts alone. *)
Definition served (X : Type) (c : engine_call X) (x : X) (g g' : Life) : Prop :=
  (∃ store db, registers store ∧ kept cand (lf_db g) db ∧ check_store_step store X c x db (lf_db g')) ∧
  lf_sent g' = match c with Send _ _ _ a => (lf_sent g ++ [a])%list | _ => lf_sent g end.

(** [serde_json] reads back the answers that are recorded, whose labels come from
    a sorted map. *)
Definition readable (e : event engine_call) : Prop :=
  match e with
  | Ev (RecordDecisionAnswer _ _ a) _ =>
      decision_labels_ascend a ∧ reads_back (decision_result_serial a) (record_text (decision_result_serial a))
  | _ => True
  end.

(** Evaluations, dropped guards and restarts of processes, in any order *)
Inductive life : Database → list DecisionAttempt → Prop :=
| life_new db : attempts_of db (hex cand) = [] → life db []
| life_other db db' sent : life db sent → kept cand db db' → life db' sent
| life_run db sent activation now limit policy pending tr p g :
    life db sent →
    CandidateId_from (pc_candidate pending) = cand → ea_compiled activation = check →
    runs (evaluation activation now limit policy pending) tr p → Forall readable tr →
    ghost_steps served {| lf_db := db; lf_sent := sent |} tr g →
    life (lf_db g) (lf_sent g)
| life_drop db sent tr p g :
    life db sent →
    runs drop_guard tr p → ghost_steps served {| lf_db := db; lf_sent := sent |} tr g →
    life (lf_db g) (lf_sent g)
| life_restart store x db db' sent :
    life db sent → performs (recover_abandoned store) x db db' → life db' sent.

Lemma served_claims X (c : engine_call X) x g g' : served X c x g g' → claims_candidate X c x tt tt.
Proof.
  intros [(store & db & _ & _ & Hs) _]. destruct c; try done. cbn in *. intros claimed ->.
  destruct Hs as (h & r & h' & Hrun & Hx). pose proof (claim_candidate store c now bypass_cooldown db h) as Hc.
  rewrite Hrun in Hc. destruct r as [o|e]; [|done]. injection Hx as <-. by apply Hc.
Qed.

Lemma served_trace tr : ∀ g g', ghost_steps served g tr g' → ghost_steps claims_candidate tt tr tt.
Proof.
  induction tr as [|[X c x] tr IH]; intros g g'; [done|]. intros (g1 & Hs & Ht). exists tt.
  split; [by eapply served_claims|by eapply IH].
Qed.

Lemma required_trace {A} ok (Q : A → unit → Prop) (p : task A) tr p' :
  hoare claims_candidate (λ X c _, ok X c) any any Q p tt → runs p tr p' → ghost_steps claims_candidate tt tr tt →
  Forall (λ e, match e with Ev c _ => ok _ c end) tr.
Proof.
  intros Hp Hrun Hs. apply Forall_forall. intros e (before & after & Htr)%list_elem_of_split.
  rewrite Htr in Hs. apply (ghost_steps_app _ any) in Hs as ([] & Hs & _).
  pose proof (hoare_calls _ _ _ _ _ _ _ _ _ _ _ _ _ Hp Hrun Htr Hs) as [_ Hr]. by destruct e.
Qed.

(** A dropped guard releases claims only. *)
Definition releases (X : Type) (c : engine_call X) : Prop :=
  match c with ReleasePreDispatchClaim _ => True | _ => False end.

Lemma drop_releases : hoare claims_candidate (λ X c _, releases X c) any any (λ _ _, True) drop_guard tt.
Proof.
  apply (calls_within_hoare releases any _ _ _ any); try done. unfold drop_guard. repeat match goal with
  | |- calls_within _ _ (pbind _ _) => apply calls_in_bind; [|intros ?]
  | |- calls_within _ _ (match ?x with _ => _ end) => destruct x
  | |- calls_within _ _ _ => solve [by repeat split]
  end.
Qed.

Lemma on_rows_call X (c : engine_call X) x : on_rows cand check X c → readable (Ev c x) → call_of check cand X c.
Proof.
  intros [Hc Ha] Hr. split; [done|]. destruct c; try done. destruct Hr as [Hl Hb]. by split.
Qed.

Lemma represents_kept db db' rows :
  kept cand db db' → represents (Sources:=Sources) check cand db rows → represents check cand db' rows.
Proof. intros Hk [Hr Hn]. unfold kept in Hk. by split; rewrite Hk. Qed.

Lemma durable_sent X (c : engine_call X) x d d' :
  durable_step X c x d d' → du_sent d' = match c with Send _ _ _ a => (du_sent d ++ [a])%list | _ => du_sent d end.
Proof.
  assert (∀ rows d1, maybe d d1 (with_rows rows d) → du_sent d1 = du_sent d) as Hm.
  { by intros rows d1 [->| ->]. }
  destruct c; simpl; try (by intros ->); try (by intros [-> _]);
    destruct x as [[]|]; intros Hx; solve [by subst|by eapply Hm].
Qed.

Hypothesis identity : is_identity cand.

(** What the calls do to the database is what the contract says of its rows. *)
Lemma served_durable tr : ∀ g g' d,
  Forall (λ e, match e with Ev c _ => call_of check cand _ c end) tr → ghost_steps served g tr g' →
  represents check cand (lf_db g) (du_rows d) → du_sent d = lf_sent g →
  ∃ d', ghost_steps durable_step d tr d' ∧ represents check cand (lf_db g') (du_rows d') ∧ du_sent d' = lf_sent g'.
Proof.
  induction tr as [|[X c x] tr IH]; intros g g' d Hok Hs Hrep Hsent.
  - simpl in Hs. subst g'. by exists d.
  - apply Forall_cons in Hok as [Hc Hok]. destruct Hs as (g1 & [(store & db & Hreg & Hk & Hstep) Hsent1] & Hs).
    apply (represents_kept _ _ _ Hk) in Hrep.
    destruct (store_step store check cand identity Hreg X c x db (lf_db g1) d Hc Hrep Hstep) as (d1 & Hd & Hrep1).
    assert (du_sent d1 = lf_sent g1) as Hsent'.
    { by rewrite (durable_sent _ _ _ _ _ Hd), Hsent1, Hsent. }
    destruct (IH g1 g' d1 Hok Hs Hrep1 Hsent') as (d' & ? & ? & ?). exists d'. split_and!; [by exists d1|done..].
Qed.

Lemma life_history db sent : life db sent → ∃ rows, history rows sent ∧ represents check cand db rows.
Proof.
  induction 1 as [db Hnew|db db' sent _ (rows & Hh & Hrep) Hk
    |db sent activation now limit policy pending tr p g _ (rows & Hh & Hrep) Hp Ha Hrun Hread Hs
    |db sent tr p g _ (rows & Hh & Hrep) Hrun Hs|store x db db' sent _ (rows & Hh & Hrep) Hx].
  - exists []. split; [constructor|]. split; rewrite Hnew; constructor.
  - exists rows. split; [done|by eapply represents_kept].
  - assert (Forall (λ e, match e with Ev c _ => call_of check cand _ c end) tr) as Hok.
    { pose proof (evaluation_within cand check activation Ha now limit policy pending Hp) as Hw.
      apply (required_trace _ _ _ _ _ Hw) in Hrun as Hw'; [|by eapply served_trace].
      apply Forall_forall. intros e He. rewrite Forall_forall in Hw', Hread. specialize (Hw' e He).
      specialize (Hread e He). destruct e. by eapply on_rows_call. }
    destruct (served_durable tr _ _ {| du_rows := rows; du_sent := sent; du_now := 0 |} Hok Hs Hrep eq_refl)
      as (d' & Hd & Hrep' & Hsent). rewrite <- Hsent. exists (du_rows d'). split; [|done]. by eapply history_run.
  - assert (Forall (λ e, match e with Ev c _ => call_of check cand _ c end) tr) as Hok.
    { apply (required_trace releases (λ _ _, True) drop_guard _ p) in Hrun; [|exact drop_releases|by eapply served_trace].
      eapply Forall_impl; [exact Hrun|]. intros [X c x]. by destruct c. }
    destruct (served_durable tr _ _ {| du_rows := rows; du_sent := sent; du_now := 0 |} Hok Hs Hrep eq_refl)
      as (d' & Hd & Hrep' & Hsent). rewrite <- Hsent. exists (du_rows d'). split; [|done]. by eapply history_drop.
  - apply (recover_contract store check cand db rows x db' Hrep) in Hx as [Hr|Hr].
    + by exists rows.
    + exists (abandon rows). split; [by constructor|done].
Qed.

(** [number_of_f64] is defined on the finite values. *)
Hypothesis finite_numbers : ∀ x, f64_finite x = true → is_Some (number_of_f64 x).

(** C2: On the database no request is sent twice.  Over the life of a candidate
    (evaluations, dropped guards and restarts of any processes in any order, each
    served by the transactions of a store whose statements and commits can fail,
    with anything in between that leaves the candidate's attempts alone) every
    request that was sent has its attempt row and was sent once, and a second
    request follows only a row that is settled as safe to repeat. *)
Theorem store_sends_once db sent :
  life db sent →
  NoDup sent ∧
  ∀ a, a ∈ sent →
    (da_number a = 1 ∨ da_number a = 2) ∧
    (∃ r, r ∈ attempts_of db (hex cand) ∧ at_attempt_id r = attempt_id cand a) ∧
    (da_number a = 2 → ∃ r, r ∈ attempts_of db (hex cand) ∧
       at_attempt_id r = attempt_id cand {| da_decision := da_decision a; da_number := 1 |} ∧
       at_state r = ASettled ∧ at_outcome r = Some "safe_transient").
Proof.
  intros (rows & Hh & [Hr _])%life_history. apply (history_ok finite_numbers) in Hh as [_ Hnum Hsec Hsent Hone].
  cbn [du_rows du_sent] in *. split; [done|]. intros a Ha.
  assert (∀ s, s ∈ rows → ∃ r, r ∈ attempts_of db (hex cand) ∧ row_of check cand s r) as Hrow.
  { intros s (i & Hi)%list_elem_of_lookup_1. destruct (Forall2_lookup_l _ _ _ _ _ Hr Hi) as (r & Hlook & Hrs).
    exists r. split; [by eapply list_elem_of_lookup_2|done]. }
  pose proof (Hsent a Ha) as (s & -> & Hs)%list_elem_of_fmap. split_and!; [by apply Hnum| |].
  - destruct (Hrow s Hs) as (r & Hin & [Hid _ _ _]). eauto.
  - intros Htwo. destruct (Hrow _ (Hsec s Hs Htwo)) as (r & Hin & [Hid _ _ Hout]). simpl in *.
    destruct Hout as (? & ? & _). eauto.
Qed.
End life.

(** ** What the store promises *)

Section promises.
Context `{SerdeNumber, !SerdeNumberLaws, JsonDeserializer, !JsonMessages, !RecordWriter, !ValueEq, !CandidateDigest,
          !Sqlite}.
Context {Sources : Type} `{!Ingestion Sources}.
Notation Database := (Database.Database Sources).
Variable store : StoreCheckStore.

(** C3: The transactions of the store keep the contract that the engine relies on.
    Whatever statements and commits fail, a call on the work of a candidate does to
    the attempt rows in the database exactly what the contract says of the saved
    attempts: they are loaded as they were saved, a current intent is added before
    the call returns and a stale one is not, and a settled attempt has its outcome.
    Work on other candidates leaves them alone, and a restart turns the intents
    without an outcome into unknown ones. *)
Theorem store_keeps_contract check cand db db' d :
  is_identity cand → registers check cand store → represents check cand db (du_rows d) →
  (∀ X (c : engine_call X) x, call_of check cand X c → check_store_step store X c x db db' →
     ∃ d', durable_step X c x d d' ∧ represents check cand db' (du_rows d')) ∧
  (∀ X (c : engine_call X) x other, row_candidate X c = Some other → is_identity other → other ≠ cand →
     check_store_step store X c x db db' → represents check cand db' (du_rows d)) ∧
  (∀ x, performs (recover_abandoned store) x db db' →
     represents check cand db' (du_rows d) ∨ represents check cand db' (abandon (du_rows d))).
Proof.
  intros Hid Hreg Hrep. split_and!.
  - intros X c x Hc Hs. by eapply store_step.
  - intros X c x other Hother Hoid Hne Hs. eapply represents_kept; [|exact Hrep].
    eapply other_step; [done| |exact Hs]. by rewrite Hother.
  - intros x Hs. by eapply recover_contract.
Qed.

(** C6: An outdated claim changes nothing.  When no candidate of the database is
    held by the owner and the fence of a claim (it was released and claimed anew,
    or the process restarted), no call with the claim changes the database, whatever
    it answers: no release, preparation, dispatch, settlement, answer, local start
    or terminal outcome. *)
Theorem outdated_claim_changes_nothing X (c : engine_call X) claimed x db db' :
  fenced_call X c = Some claimed → outdated (claim_of store claimed) db → check_store_step store X c x db db' → db' = db.
Proof.
  intros Hc Ho Hs. destruct c; simpl in Hc, Hs; try done; injection Hc as ->;
    (eapply performs_fenced; [|exact Ho|exact Hs]);
    first [apply release_fenced|apply preparation_fenced|apply dispatch_fenced|apply failure_fenced
          |apply answer_fenced|apply terminal_fenced|apply local_fenced
          |apply reading_fenced, moves_load, _|apply reading_fenced, moves_preparation, _].
Qed.

(** C5: What an acceptance leaves.  An answer is accepted only when its candidate is
    answered and held by the claim, of the current enabled activation, not paused,
    saved with the same value, its dependencies are current, its publications are
    applied and its trigger is above the watermark of its branch; then the history,
    the watermark, the status and the state are all written.  Otherwise a deferred
    or repeated acceptance changes nothing, and a stale one publishes nothing; an
    error leaves the database as it was, or as one of the commits does. *)
Theorem acceptance_outcome a x db db' :
  performs (accept store a) x db db' →
  match x with
  | Ok Deferred | Ok AlreadyAccepted => db' = db
  | Ok o => accepted_or_stale store a db db' o ∨ o = AcceptanceStale ∧ db' = db
  | Err _ => db' = db ∨ ∃ o, accepted_or_stale store a db db' o
  end.
Proof.
  intros (h & r & h' & Hrun & ->). unfold accept in Hrun.
  destruct (registered_activation _ _) as [activation|]; [|injection Hrun as <- <- _; by right].
  destruct (match ss_publication_gate store with Some _ => _ | None => _ end); [by injection Hrun as <- <- _|].
  apply plain_then in Hrun as [(e & -> & ->)|([] & h1 & Hrun)]; [by left| |apply (moves_refused eq)].
  apply claim_record_then in Hrun as [(e & -> & ->)|(_ & h2 & Hrun)]; [by left|].
  apply plain_then in Hrun as [(e & -> & ->)|(now & h3 & Hrun)]; [by left| |apply (moves_now eq)].
  apply (transaction_ends _ _ (acceptance_ending store a db)) in Hrun.
  { destruct r as [o|e]; simpl in *.
    - destruct Hrun as [?|[-> [? [-> | ->]]]]; [|done..]. destruct o; auto; done.
    - destruct Hrun as [->|[o ?]]; eauto. }
  apply ends_bind, ends_query. destruct (exists_row _ _); [apply ends_ret; by right|].
  apply ends_reads; [apply moves_check, _|]. intros origin. destruct (negb _); [apply becomes_stale|].
  apply ends_bind, ends_query. destruct (acceptance_paused _ _) eqn:Ep; [apply ends_ret; by left|].
  apply ends_bind, ends_query. destruct (answered_row _ db) as [[c applied]|] eqn:Erow; [|apply becomes_stale].
  by apply answered_ends.
Qed.
End promises.

Section operations.
Context `{SerdeNumber, JsonDeserializer, !JsonMessages, !RecordWriter, !ValueEq, !CandidateDigest, !Sqlite}.
Context {Sources : Type} `{!Ingestion Sources}.

(** What a store does to the database: a call of the engine, the restart of the
    process, and a candidate that is refused for its number. *)
Inductive operation (db db' : Database.Database Sources) : Prop :=
| operation_call store X (c : engine_call X) x : check_store_step store X c x db db' → operation db db'
| operation_restart store x : performs (recover_abandoned store) x db db' → operation db db'
| operation_overflow store candidate x : performs (record_overflow store candidate) x db db' → operation db db'.

(** C4: One candidate of a branch at a time.  Whatever operations run, of any
    stores on the database, with any failing statements and commits: at most one
    candidate of a check, scope, generation and branch is claimed, dispatching or
    answered, and the candidates keep their identities. *)
Theorem one_candidate_of_a_branch db db' : exclusive db → rtc operation db db' → exclusive db'.
Proof.
  intros Hex Hr. induction Hr as [db|db db1 db2 Hop _ IH]; [done|]. apply IH.
  destruct Hop as [store X c x Hs|store x Hs|store candidate x Hs].
  - by eapply call_exclusive.
  - eapply calmer_exclusive; [|exact Hex]. eapply performs_moves; [apply recover_calm|exact Hs].
  - eapply calmer_exclusive; [|exact Hex]. eapply performs_moves; [apply overflow_calm|exact Hs].
Qed.
End operations.

(** ** A concrete run

    One store serves the calls of an evaluation on one database. *)

Section serving.
Context `{SerdeNumber, JsonDeserializer, !JsonMessages, !RecordWriter, !ValueEq, !CandidateDigest, !Sqlite}.
Context {Sources : Type} `{!Ingestion Sources}.
Notation Life := (Life (Sources:=Sources)).
Variable store : StoreCheckStore.
Variable outside : ∀ X, engine_call X → X.

Definition quiet_host : Host := {| h_faults := []; h_clock := [] |}.

Definition performing {A} (m : Database.sql Sources A) (g : Life) : result A StoreError * Life :=
  match m (lf_db g, quiet_host) with
  | (r, (db, _)) => (map_err store_failure r, {| lf_db := db; lf_sent := lf_sent g |})
  end.

Definition serve (X : Type) (c : engine_call X) (g : Life) : X * Life :=
  match c in engine_call X return X * Life with
  | LoadTerminalCandidateIds ids => performing (load_terminal_candidate_ids store ids) g
  | ReleasePreDispatchClaim claimed => performing (release_unattempted_claim store claimed) g
  | ClaimDue candidate now bypass => performing (claim store candidate now bypass) g
  | LoadDecisionProgress claimed => performing (load_decision_progress store claimed) g
  | LoadPreparation claimed => performing (saved_preparation store claimed) g
  | RecordPreparation claimed record => performing (save_preparation store claimed record) g
  | RecordLocalStart claimed now cooldown p => performing (RuntimeStore.start_local store claimed now cooldown p) g
  | RecordPreparationRejection claimed f =>
      performing (terminal_with_diagnostic store claimed (pf_detail f) true (Some (RecordRejected f)) None) g
  | RecordDispatchIntent claimed now cooldown a => performing (dispatch store claimed now cooldown a) g
  | RecordAttemptFailure claimed a kind d => performing (settle_failure store claimed a kind d) g
  | RecordDecisionAnswer claimed a answer => performing (save_decision_answer store claimed a answer) g
  | Accept a => performing (accept store a) g
  | RecordEvaluationFailure claimed d =>
      performing (terminal_with_diagnostic store claimed (ed_detail d) false None (Some d)) g
  | RecordNotAssessed claimed detail => performing (terminal store claimed detail true) g
  | Send _ _ _ a => (tt, {| lf_db := lf_db g; lf_sent := lf_sent g ++ [a] |})
  | LocalExecutionIsCurrent a => (outside _ (LocalExecutionIsCurrent a), g)
  | Prepare a inputs b => (outside _ (Prepare a inputs b), g)
  | PreparationRecorded r => (tt, g)
  | ValidatePrepared a p purpose => (outside _ (ValidatePrepared a p purpose), g)
  | Receive a => (outside _ (Receive a), g)
  | Suspend => (tt, g)
  end.

Fixpoint serve_run {A} (p : task A) (l : Local) (g : Life) : list (event engine_call) * Life :=
  match p with
  | Ret _ | Halt _ => ([], g)
  | Atomic f k => let '(x, l) := f l in serve_run (k x) l g
  | Call c k =>
      let '(x, g) := serve _ c g in
      let '(tr, g) := serve_run (k x) l g in (Ev c x :: tr, g)
  end.

Lemma performing_performs {A} (m : Database.sql Sources A) g :
  performs m (performing m g).1 (lf_db g) (lf_db (performing m g).2).
Proof.
  unfold performing, performs. destruct (m (lf_db g, quiet_host)) as [r [db h]] eqn:E. by exists quiet_host, r, h.
Qed.

Lemma performing_sent {A} (m : Database.sql Sources A) g : lf_sent (performing m g).2 = lf_sent g.
Proof. unfold performing. by destruct (m (lf_db g, quiet_host)) as [r [db h]]. Qed.

Lemma serve_step X (c : engine_call X) g :
  check_store_step store X c (serve X c g).1 (lf_db g) (lf_db (serve X c g).2) ∧
  lf_sent (serve X c g).2 = match c with Send _ _ _ a => (lf_sent g ++ [a])%list | _ => lf_sent g end.
Proof. destruct c; (split; [try apply performing_performs; done|try apply performing_sent; done]). Qed.

Context {check : CompiledCheck} {cand : list N}.
Hypothesis registered : registers check cand store.

Lemma serve_served X (c : engine_call X) g : served check cand X c (serve X c g).1 g (serve X c g).2.
Proof. destruct (serve_step X c g) as [Hstep Hsent]. split; [|exact Hsent]. by exists store, (lf_db g). Qed.

Lemma serve_run_runs {A} (p : task A) : ∀ l g,
  (∃ p', runs p (serve_run p l g).1 p') ∧ ghost_steps (served check cand) g (serve_run p l g).1 (serve_run p l g).2.
Proof.
  induction p as [a|X f k IH|X c k IH|why]; intros l g; simpl.
  - split; [by eexists; left|done].
  - destruct (f l) as [x l'] eqn:E. destruct (IH x l' g) as [[p' Hr] Hs]. split; [|done]. exists p'. right.
    exists l. by rewrite E.
  - pose proof (serve_served X c g) as Hserved. destruct (serve X c g) as [x g1]. specialize (IH x l g1).
    destruct (serve_run (k x) l g1) as [tr g2]. destruct IH as [[p' Hr] Hs]. split.
    + exists p'. right. by exists x, tr.
    + by exists g1.
  - split; [by eexists; left|done].
Qed.
End serving.

(** *** The sample *)

Section sample.
#[local] Existing Instance exact_numbers.
#[local] Existing Instance exact_number_laws.
#[local] Existing Instance ascii_unicode.
#[local] Existing Instance compact_writer.

Definition stored_decision : DecisionBlock :=
  {| d_name := "review"; d_input := TLiteral LitNull; d_fit := [];
     d_outputs := [{| q_name := "risk"; q_question := Noul "Is it safe?" |}] |}.

Definition stored_check : CompiledCheck :=
  {| cc_name := "sample"; cc_description := None; cc_condition := None;
     cc_trigger := cc_trigger sample_check; cc_decisions := [stored_decision];
     cc_actions := [{| sa_condition := None; sa_result := ResultLiteral Failure; sa_message := None |}] |}.

Definition stored_candidate : FrozenCandidate :=
  {| fr_activation := sample_id "a"; fr_branch := {| branch_id := "main" |}; fr_trigger_position := 1;
     fr_messages := []; fr_context := {| fc_value := JObject []; fc_dependencies := [] |};
     fr_dependencies := []; fr_fingerprint := repeat 7 32 |}.

(** What the deserializer delivers for the text of the frozen candidate. *)
Definition stored_events : JsonEvent :=
  EvMap
    [("activation",
      EvMap [("scope", EvMap [("environment", EvStr ""); ("session_cwd", EvStr ""); ("run", EvStr "Live")] true);
             ("definition_id", EvStr "a"); ("generation", EvU64 1)] true);
     ("branch", EvStr "main"); ("trigger_position", EvU64 1); ("messages", EvSeq [] true);
     ("context", EvMap [("value", EvMap [] true); ("dependencies", EvSeq [] true)] true);
     ("dependencies", EvSeq [] true); ("fingerprint", EvSeq (repeat (EvU64 7) 32) true)] true.

Definition stored_answer : DecisionResult :=
  {| dr_decision := "review"; dr_answers := [{| an_name := "risk"; an_result := RNoul {| no_output := f64_quarter |} |}];
     dr_attempts := 2 |}.

Definition stored_assessment : EvaluatedAssessment :=
  {| as_version := RESULT_VERSION; as_decisions := [stored_answer]; as_attempts := 2 |}.

Definition stored_prepared : PreparedAssessment :=
  {| pa_version := 1; pa_profile := "profile"; pa_evaluation_budget :=
       match @prepare_all_inputs exact_numbers ascii_unicode no_json compact_writer stored_check stored_candidate with
       | Ok (_, b) => b
       | Err _ => EvaluationBudget_default
       end;
     pa_fitting_work_bytes := 0;
     pa_decisions := [{| pb_decision := "review"; pb_original_input := JNull; pb_input := JNull;
                         pb_request := JObject [("model", JString "m")]; pb_report := {| omissions := [] |} |}] |}.

(** The texts that are read: the frozen candidate, and what was written. *)
Definition stored_deserializer : JsonDeserializer :=
  {| json_events text :=
       match List.find (λ v, String.eqb text (record_text v))
               [record_serial (RecordReady stored_prepared); decision_result_serial stored_answer;
                assessment_record stored_assessment] with
       | Some v => serial_event v
       | None => if String.eqb text "frozen" then stored_events else EvError
       end;
     json_end _ := true |}.
#[local] Existing Instance stored_deserializer.

Definition stored_messages : JsonMessages := {| syntax_message _ := "syntax"; end_message _ := "trailing" |}.
#[local] Existing Instance stored_messages.

Definition stored_values : ValueEq :=
  {| value_eqb a b := String.eqb (record_text (value_serial a)) (record_text (value_serial b));
     reader_error _ := "invalid" |}.
#[local] Existing Instance stored_values.

Definition stored_digest : CandidateDigest :=
  {| sha256 s := [str_len s]; value_text _ := "value"; activation_text i := a_definition_id i |}.
#[local] Existing Instance stored_digest.

Definition stored_sqlite : Sqlite :=
  {| json_extract text path := if String.eqb path "$.branch" then Some "main" else Some "Live";
     json_type _ _ := Some "object"; json_valid _ := true;
     json_object_detail _ := "{}" |}.
#[local] Existing Instance stored_sqlite.

(** The tables of the ingestion are empty. *)
Definition stored_ingestion : Ingestion unit :=
  {| new_candidate_request_origin_current _ _ := Ok true; typed_dependencies_current _ _ := Ok true;
     newer_publication _ _ _ _ _ _ := false; settings _ := []; session_key _ := Some ("a", "b", "c") |}.
#[local] Existing Instance stored_ingestion.

Definition stored_activation : EffectiveActivation :=
  {| ea_id := sample_id "a"; ea_revision := [1]; ea_definition_scope := GlobalScope;
     ea_source_paths := []; ea_project_root := None; ea_compiled := stored_check;
     ea_bootstrap_position := 0; ea_bootstrap_publication := 0 |}.

Definition stored_store : StoreCheckStore :=
  {| ss_owner := "owner"; ss_scope := ActivationScope_default;
     ss_activations := [(sample_id "a", stored_activation)]; ss_publication_gate := None |}.

Definition stored_scope : string := activation_scope_key ActivationScope_default.

Definition stored_row : CandidateRow :=
  {| cd_candidate_id := hex (repeat 7 32); cd_check_id := "a"; cd_scope_key := stored_scope; cd_generation := 1;
     cd_branch_key := "main"; cd_session_key_json := "session"; cd_trigger_position := 1;
     cd_selected_publication_head := 0; cd_dependencies_json := "[]"; cd_frozen_input_json := "frozen";
     cd_answer_json := None; cd_state := SPending; cd_claim_owner := None; cd_claim_fence := 0;
     cd_claim_epoch := None; cd_prior_status := None; cd_updated_at_epoch := 0; cd_preparation_json := None;
     cd_diagnostic_json := None; cd_started_cooldown_until_epoch := None |}.

Definition stored_database : Database.Database unit :=
  {| db_activations := [{| av_check_id := "a"; av_scope_key := stored_scope; av_definition_revision := hex [1];
                           av_enabled := true; av_generation := 1; av_applied_sequence := 0 |}];
     db_candidates := [stored_row]; db_attempts := []; db_cooldowns := []; db_history := []; db_statuses := [];
     db_watermarks := []; db_dependencies := []; db_observations := []; db_sources := tt |}.

(** The provider fails once in a way that is safe to repeat, then answers. *)
Definition stored_outside (X : Type) (c : engine_call X) : X :=
  match c in engine_call X return X with
  | LoadTerminalCandidateIds _ => Ok []
  | ClaimDue _ _ _ => Ok ClaimStale
  | LoadDecisionProgress _ => Ok DecisionProgress_default
  | LoadPreparation _ => Ok None
  | Accept _ => Ok Deferred
  | LocalExecutionIsCurrent _ => true
  | Prepare _ _ _ => Ok stored_prepared
  | ReleasePreDispatchClaim _ | RecordPreparation _ _ | RecordLocalStart _ _ _ _
  | RecordPreparationRejection _ _ | RecordDispatchIntent _ _ _ _ | RecordAttemptFailure _ _ _ _
  | RecordDecisionAnswer _ _ _ | RecordEvaluationFailure _ _ | RecordNotAssessed _ _ => Ok Stale
  | ValidatePrepared _ _ _ => Ok tt
  | Receive a =>
      if da_number a =? 1 then
        Err {| ef_code := ECRateLimited; ef_kind := FailSafeTransient; ef_detail := "busy"; ef_attempts := 1 |}
      else Ok stored_answer
  | PreparationRecorded _ | Send _ _ _ _ | Suspend => tt
  end.

Definition stored_pending : PendingCandidate :=
  {| pc_candidate := stored_candidate; pc_compiled := stored_check; pc_resumed := false |}.

Definition stored_local : Local :=
  (guard_new (candidate_key stored_candidate) stored_pending, SchedulerState_default).

Definition stored_start : Life := {| lf_db := stored_database; lf_sent := [] |}.

Definition stored_run : list (event engine_call) * Life :=
  serve_run stored_store stored_outside (evaluation stored_activation 1000 10 PolicyLive stored_pending)
    stored_local stored_start.

Definition stored_id : list N := repeat 7 32.

Lemma stored_identity : is_identity stored_id.
Proof. split; [done|]. by repeat constructor. Qed.

Lemma stored_registered : registers stored_check stored_id stored_store.
Proof.
  intros c a _. unfold registered_activation, stored_store. cbn [ss_activations List.find].
  destruct (bool_decide _); [|done]. by intros [= <-].
Qed.

(** The answers that a trace records *)
Definition recorded (e : event engine_call) : option DecisionResult :=
  match e with Ev (RecordDecisionAnswer _ _ a) _ => Some a | _ => None end.

Lemma stored_readable tr : omap recorded tr = [stored_answer] → Forall readable tr.
Proof.
  intros Htr. apply Forall_forall. intros [X c x] He. destruct c; try done.
  assert (answer ∈ omap recorded tr) as Ha by (apply list_elem_of_omap; eexists; split; [exact He|done]).
  rewrite Htr in Ha. apply list_elem_of_singleton in Ha as ->. split; [by repeat constructor|by split].
Qed.

Lemma stored_life : life stored_check stored_id (lf_db stored_run.2) (lf_sent stored_run.2).
Proof.
  destruct (serve_run_runs stored_store stored_outside stored_registered
    (evaluation stored_activation 1000 10 PolicyLive stored_pending) stored_local stored_start) as [[p Hr] Hs].
  fold stored_run in Hr, Hs.
  refine (life_run stored_check stored_id stored_database [] stored_activation 1000 10 PolicyLive stored_pending
    stored_run.1 p stored_run.2 _ eq_refl eq_refl Hr _ Hs).
  - by apply life_new.
  - apply stored_readable. vm_refl.
Qed.

Lemma store_sends_once_witness :
  lf_sent stored_run.2 = [first_attempt; second_attempt] ∧
  ∃ r, r ∈ attempts_of (lf_db stored_run.2) (hex stored_id) ∧ at_outcome r = Some "safe_transient".
Proof.
  assert (lf_sent stored_run.2 = [first_attempt; second_attempt]) as Hsent by vm_refl. split; [exact Hsent|].
  destruct (store_sends_once stored_check stored_id stored_identity (@number_of_finite _ exact_number_laws) _ _
    stored_life) as [_ Ha].
  destruct (Ha second_attempt) as (_ & _ & Htwo); [rewrite Hsent; right; left|].
  destruct (Htwo eq_refl) as (r & Hin & _ & _ & Ho). exists r. split; [exact Hin|exact Ho].
Defined.

(** The first claim, before the candidate is claimed *)
Definition stored_claim : ClaimedCandidate :=
  {| cl_id := stored_id; cl_candidate := stored_candidate; cl_prior_status := None; cl_fence := 1 |}.

Definition intended_life : Life :=
  (performing (claim stored_store stored_candidate 1000 false) stored_start).2.

(** The first call of a kind in the run, and the database before it *)
Fixpoint first_call {A B} (pick : ∀ X, engine_call X → option B) (p : task A) (l : Local)
    (g : Life (Sources:=unit)) : option (B * Life (Sources:=unit)) :=
  match p with
  | Ret _ | Halt _ => None
  | Atomic f k => let '(x, l) := f l in first_call pick (k x) l g
  | Call c k =>
      match pick _ c with
      | Some b => Some (b, g)
      | None => let '(x, g) := serve stored_store stored_outside _ c g in first_call pick (k x) l g
      end
  end.

Definition stored_first {B} (pick : ∀ X, engine_call X → option B) : option (B * Life) :=
  first_call pick (evaluation stored_activation 1000 10 PolicyLive stored_pending) stored_local stored_start.

Definition stored_dispatch : option (ClaimedCandidate * Life) :=
  stored_first (λ X c, match c with RecordDispatchIntent claimed _ _ _ => Some claimed | _ => None end).

Definition stored_accept : option (AssessmentAcceptance * Life) :=
  stored_first (λ X c, match c with Accept a => Some a | _ => None end).

Lemma store_keeps_contract_witness :
  match stored_dispatch with
  | Some (claimed, g) =>
      represents stored_check stored_id
        (lf_db (performing (dispatch stored_store claimed 1000 60000 first_attempt) g).2) (intend first_attempt [])
  | None => False
  end.
Proof.
  assert ((λ cg : ClaimedCandidate * Life, (cl_id cg.1, db_attempts (lf_db cg.2),
    (performing (dispatch stored_store cg.1 1000 60000 first_attempt) cg.2).1)) <$> stored_dispatch =
    Some (stored_id, [], Ok Current)) as Hr by vm_refl.
  destruct stored_dispatch as [[claimed g]|]; [|discriminate Hr]. cbn in Hr. injection Hr as Hid Hrows Hx.
  assert (represents stored_check stored_id (lf_db g) []) as Hrep.
  { split; unfold attempts_of; rewrite Hrows; constructor. }
  destruct (store_keeps_contract stored_store stored_check stored_id (lf_db g)
    (lf_db (performing (dispatch stored_store claimed 1000 60000 first_attempt) g).2)
    {| du_rows := []; du_sent := []; du_now := 0 |} stored_identity stored_registered Hrep) as [Hc _].
  destruct (Hc _ (RecordDispatchIntent claimed 1000 60000 first_attempt) (Ok Current)) as (d' & Hd & Hrep').
  - split; [exact Hid|exact I].
  - cbn. rewrite <- Hx. apply performing_performs.
  - cbn in Hd. subst d'. exact Hrep'.
Defined.

Lemma outdated_claim_changes_nothing_witness :
  lf_db (performing (terminal stored_store stored_claim "late" true) stored_start).2 = stored_database.
Proof.
  apply (outdated_claim_changes_nothing stored_store _ (RecordNotAssessed stored_claim "late") stored_claim
    (performing (terminal stored_store stored_claim "late" true) stored_start).1).
  - reflexivity.
  - unfold outdated. vm_refl.
  - apply performing_performs.
Defined.

Lemma stored_exclusive : exclusive stored_database.
Proof.
  split.
  - apply NoDup_singleton.
  - intros c ->%list_elem_of_singleton _ f. assert (frozen_from_str "frozen" = Ok stored_candidate) as Hf by vm_refl.
    cbn [stored_row cd_frozen_input_json]. rewrite Hf. by intros [= <-].
  - by intros c c' ->%list_elem_of_singleton ->%list_elem_of_singleton.
Qed.

Lemma one_candidate_of_a_branch_witness :
  exclusive (lf_db intended_life) ∧ (busy <$> db_candidates (lf_db intended_life)) = [true].
Proof.
  split; [|vm_refl]. apply (one_candidate_of_a_branch stored_database); [exact stored_exclusive|].
  apply rtc_once. apply (operation_call _ _ stored_store _ (ClaimDue stored_candidate 1000 false)
    (performing (claim stored_store stored_candidate 1000 false) stored_start).1).
  apply performing_performs.
Defined.

Lemma acceptance_outcome_witness :
  match stored_accept with
  | Some (a, g) =>
      (performing (accept stored_store a) g).1 = Ok Accepted ∧
      accepted_or_stale stored_store a (lf_db g) (lf_db (performing (accept stored_store a) g).2) Accepted
  | None => False
  end.
Proof.
  destruct stored_accept as [[a g]|] eqn:Ea; [|assert (is_some stored_accept = true) as Hs by vm_refl; by rewrite Ea in Hs].
  assert ((λ ag : AssessmentAcceptance * Life, (performing (accept stored_store ag.1) ag.2).1) <$> stored_accept =
    Some (Ok Accepted)) as Hr by vm_refl.
  rewrite Ea in Hr. simpl in Hr. injection Hr as Hr. split; [exact Hr|].
  pose proof (acceptance_outcome stored_store a _ _ _ (performing_performs (accept stored_store a) g)) as Ho.
  rewrite Hr in Ho. destruct Ho as [Ho|[Ho _]]; [exact Ho|discriminate Ho].
Defined.
End sample.
