(* ===== verification/StoreRecovery.v ===== *)
(** * Recovery on the database (store/burn_checks/runtime_recovery.rs)

    [load_recovery] of the desktop store: pages of unfinished work, where a row
    that cannot be resumed is rejected in the transaction that reads it.  Each page
    keeps the contract that [RecoveryRuns.work_step] asks for, so on this database
    the recovery of the engine ends and misses nothing. *)

From stdpp Require Import gmap sorting.
From S2P Require Import Prelude Order Program RustString Json Diagnostics Expression Budget Provenance Scalars Evaluator Fit Domain Template Decision Check Preparation Lifecycle Context Selection Messages BoundedJson Serde Prepared Source Results ResultFacts ResultDecode ResultDecodeFacts CapacityFacts Actions ActionFacts Progress ProgressFacts Checkpoint Scheduler SchedulerFacts SchedulerRuns Engine EngineFacts EngineRuns Pages PageFacts Recovery RecoveryFacts RecoveryRuns Database RuntimeStore RuntimeStoreFacts RuntimeStoreRuns.

#[local] Open Scope N_scope.

(** ** Operations *)

(** When the lock of the connection is taken again: for a page after a key, and for
    one row of it *)
Inductive Taking := ForPage (after : string) | ForRow (id : string).

Record RecoveryCandidateRow := {
  rc_id : string;
  rc_state : CandidateState;
  rc_prior_status : option string;
  rc_fence : N;
  rc_check_id : string;
  rc_generation : N
}.

Section recovery.
Context `{SerdeNumber, JsonDeserializer, !JsonMessages, !RecordWriter, !ValueEq, !CandidateDigest, !Sqlite}.
Context {Sources : Type} `{!Ingestion Sources}.

Notation sql := (Database.sql Sources).
Notation Database := (Database.Database Sources).

Variable store : StoreCheckStore.
Notation scope_key := (activation_scope_key (ss_scope store)).

(** What other threads did to the database before the lock was taken *)
Variable others : Taking → Database → Database.

Definition taken (t : Taking) : sql unit := λ s, (Ok tt, (others t s.1, s.2)).

(** [WHERE c.activation_scope_key = ?1 AND c.state IN ('pending', 'answered') …] *)
Definition is_unfinished (db : Database) (c : CandidateRow) : bool :=
  String.eqb (cd_scope_key c) scope_key && in_states [SPending; SAnswered] c &&
  exists_row (joined_current c) (db_activations db).

Definition by_id (c c' : CandidateRow) : comparison := String.compare (cd_candidate_id c) (cd_candidate_id c').

Definition unfinished_rows (db : Database) : list CandidateRow :=
  sort_by by_id (List.filter (is_unfinished db) (db_candidates db)).

Definition is_after (after : string) (c : CandidateRow) : bool :=
  match String.compare after (cd_candidate_id c) with Lt => true | _ => false end.

Definition page_rows (after : string) (limit : N) (db : Database) : list CandidateRow :=
  take (N.to_nat limit) (List.filter (is_after after) (unfinished_rows db)).

Definition recovery_row (c : CandidateRow) : result RecoveryCandidateRow string :=
  let? fence := column_u64 (cd_claim_fence c) in
  let? generation := column_u64 (cd_generation c) in
  Ok {| rc_id := cd_candidate_id c; rc_state := cd_state c; rc_prior_status := cd_prior_status c;
        rc_fence := fence; rc_check_id := cd_check_id c; rc_generation := generation |}.

(** The row is still as the page has read it. *)
Definition row_current (row : RecoveryCandidateRow) (db : Database) (c : CandidateRow) : bool :=
  has_id (rc_id row) c && String.eqb (cd_scope_key c) scope_key &&
  bool_decide (cd_state c = rc_state row) && (cd_claim_fence c =? Z.of_N (rc_fence row))%Z &&
  bool_decide (cd_prior_status c = rc_prior_status row) && String.eqb (cd_check_id c) (rc_check_id row) &&
  (cd_generation c =? Z.of_N (rc_generation row))%Z && exists_row (joined_current c) (db_activations db).

(** The saved preparation must fit the kind of the check. *)
Definition resumable_preparation (activation : EffectiveActivation) (row : RecoveryCandidateRow)
    (preparation : option string) : result unit string :=
  match preparation with
  | Some saved =>
      let? record := map_err pf_detail (decode_preparation_record saved) in
      match record with
      | RecordReady prepared =>
          if is_local (ea_compiled activation) then Err "local work has a provider preparation"
          else map_err prepared_message (prepared_validate_for_declarations prepared (cc_decisions (ea_compiled activation)))
      | RecordLocal _ =>
          if is_local (ea_compiled activation) then Ok tt else Err "model work has a local preparation"
      | RecordRejected _ => Err "unfinished work has a rejected preparation"
      end
  | None =>
      if bool_decide (rc_state row = SPending) then Ok tt else Err "answered work requires its saved preparation"
  end.

(** The answer must be the one that the saved attempts give. *)
Definition answered_work (activation : EffectiveActivation) (row : RecoveryCandidateRow)
    (candidate : FrozenCandidate) (answer : option string) (state : DecisionProgressState) :
    result RecoveryWork string :=
  match answer with
  | None => Err "answered work has no saved result"
  | Some answer =>
      let? evaluated := decode_answer activation answer in
      match state with
      | PComplete durable =>
          if assessment_eqb evaluated durable then
            let? prior := parse_status (rc_prior_status row) in
            Ok (WorkAnswered {| cl_id := CandidateId_from candidate; cl_candidate := candidate;
                                cl_prior_status := prior; cl_fence := rc_fence row |} evaluated)
          else Err "saved complete result does not match durable answers"
      | _ => Err "answered work has incomplete durable progress"
      end
  end.

Definition pending_work (activation : EffectiveActivation) (candidate : FrozenCandidate)
    (progress : DecisionProgress) (state : DecisionProgressState) : result RecoveryWork string :=
  if is_local (ea_compiled activation) || match state with PNext _ _ => true | _ => false end then
    Ok (WorkPending candidate (match dp_attempts progress with [] => false | _ => true end))
  else Err "pending work has terminal or complete progress".

(** The record of a row, once its activation is found. *)
Definition recover_row_in (activation : EffectiveActivation) (row : RecoveryCandidateRow) : sql RecoveryRecord :=
  let* saved := candidate_row (rc_id row) in
  let* candidate := refused (frozen_from_str (cd_frozen_input_json saved)) in
  do* ensure (String.eqb (hex (fr_fingerprint candidate)) (rc_id row) &&
              bool_decide (fr_activation candidate = ea_id activation)) "saved candidate identity is invalid";
  let* saved := candidate_row (rc_id row) in
  let preparation := cd_preparation_json saved in
  do* refused (resumable_preparation activation row preparation);
  let* progress := read_decision_rows (rc_id row) activation in
  do* ensure (bool_decide (is_Some preparation) || match dp_attempts progress with [] => true | _ => false end)
        "started work requires its exact saved preparation";
  let* validated := refused (map_err store_message
    (validate_decision_progress (cc_decisions (ea_compiled activation))
       (question_requirements (ea_compiled activation)) progress)) in
  let* work :=
    if bool_decide (rc_state row = SAnswered) then
      let* saved := candidate_row (rc_id row) in
      refused (answered_work activation row candidate (cd_answer_json saved) (vp_state validated))
    else refused (pending_work activation candidate progress (vp_state validated)) in
  ret {| rr_activation := activation; rr_work := work |}.

Definition rejected_detail : string := "The saved assessment is invalid or incompatible.".

Definition reject_recovery_row (row : RecoveryCandidateRow) : sql unit :=
  let here (c : CandidateRow) := has_id (rc_id row) c && String.eqb (cd_scope_key c) scope_key &&
    bool_decide (cd_state c = rc_state row) && (cd_claim_fence c =? Z.of_N (rc_fence row))%Z in
  let state := if bool_decide (rc_state row = SPending) then SNotAssessed else SExecutionFailed in
  let* actions := refused (to_string (detail_serial rejected_detail)) in
  let* now := now_epoch in
  do* insert_history keep_old (λ c,
        if here c then Some (unaccepted_row (state_name state) (cd_answer_json c) actions now c) else None);
  let* diagnostic := refused (to_string (diagnostic_serial
    {| ed_code := ECInvalidDecision; ed_detail := rejected_detail |})) in
  let* now := now_epoch in
  do* update_candidates (λ _, here)
        (λ _ c, set_updated now (set_diagnostic (Some diagnostic)
                  (set_claim None (cd_claim_fence c + 1)%Z (set_state state c))));
  ret tt.

(** An error that the database did not make is the row's own. *)
Definition unless_refused {A} (m : sql A) : sql (option A) := λ s,
  match m s with
  | (Ok a, s) => (Ok (Some a), s)
  | (Err (Refused _), s) => (Ok None, s)
  | (Err e, s) => (Err e, s)
  end.

Definition recover_row (row : RecoveryCandidateRow) : sql (option RecoveryRecord) :=
  do* taken (ForRow (rc_id row));
  transaction
    (let* current := query (λ db, exists_row (row_current row db) (db_candidates db)) in
     if negb current then ret (RollBack None)
     else
       let* activation := context (registered_activation store
           {| a_scope := ss_scope store; a_definition_id := rc_check_id row; a_generation := rc_generation row |})
         "register all durable activations before recovery" in
       let* record := unless_refused (recover_row_in activation row) in
       match record with
       | Some record => ret (Commit (Some record))
       | None => do* reject_recovery_row row; ret (Commit None)
       end).

Fixpoint recover_rows (rows : list RecoveryCandidateRow) : sql (list RecoveryRecord) :=
  match rows with
  | [] => ret []
  | row :: rows =>
      let* record := recover_row row in
      let* records := recover_rows rows in
      ret (match record with Some r => r :: records | None => records end)
  end.

(** The loop over the pages; [None] when the fuel is out. *)
Fixpoint recovery_pages (fuel : nat) (after : string) (limit : N) : sql (option (list RecoveryRecord)) :=
  match fuel with
  | O => ret None
  | S fuel =>
      do* taken (ForPage after);
      let* rows := query (page_rows after limit) in
      let* rows := lift (map_err SqlFailed (results_of recovery_row rows)) in
      match rows with
      | [] => ret (Some [])
      | _ =>
          let* records := recover_rows rows in
          match records with
          | [] => recovery_pages fuel (match last rows with Some row => rc_id row | None => after end) limit
          | _ => ret (Some records)
          end
      end
  end.

Definition recovery_page (fuel : nat) (after : option (list N)) (limit : N) : sql (option (list RecoveryRecord)) :=
  do* ensure ((1 <=? limit) && (limit <=? 500)) "recovery page limit must be between 1 and 500";
  recovery_pages fuel (match after with Some id => hex id | None => "" end) limit.
End recovery.

(** ** Keys

    The texts of identities are ordered as the identities are. *)

Lemma hex_digit_compare n m : n < 16 → m < 16 → Ascii.compare (hex_digit n) (hex_digit m) = N.compare n m.
Proof.
  intros Hn Hm.
  assert (∀ i j, (i < 16)%nat → (j < 16)%nat →
    Ascii.compare (hex_digit (N.of_nat i)) (hex_digit (N.of_nat j)) = N.compare (N.of_nat i) (N.of_nat j)) as Hall.
  { intros i j Hi Hj. do 16 (destruct i as [|i]; [do 16 (destruct j as [|j]; [reflexivity|]); lia|]). lia. }
  rewrite <- (N2Nat.id n), <- (N2Nat.id m). apply Hall; lia.
Qed.

Lemma hex_compare x : ∀ y, Forall (λ b, b < 256) x → Forall (λ b, b < 256) y →
  String.compare (hex x) (hex y) = list_cmp N.compare x y.
Proof.
  induction x as [|a x IH]; intros [|b y] Hx Hy; [done..|].
  apply Forall_cons in Hx as [Ha Hx]. apply Forall_cons in Hy as [Hb Hy].
  unfold hex. cbn [foldr]. fold (hex x) (hex y). unfold hex_byte. rewrite !str_app_cons, !str_app_nil.
  cbn [String.compare list_cmp].
  rewrite !hex_digit_compare by (apply N.mod_lt || apply N.Div0.div_lt_upper_bound; lia).
  rewrite IH by done. pose proof (N.div_mod a 16 ltac:(done)) as Ea. pose proof (N.div_mod b 16 ltac:(done)) as Eb.
  pose proof (N.mod_lt a 16 ltac:(done)). pose proof (N.mod_lt b 16 ltac:(done)). unfold cmp_then.
  destruct (N.compare_spec (a / 16) (b / 16)), (N.compare_spec (a mod 16) (b mod 16)), (N.compare_spec a b);
    first [done|lia].
Qed.

Lemma id_lt_cmp x : ∀ y, id_lt x y ↔ list_cmp N.compare x y = Lt.
Proof.
  unfold id_lt. induction x as [|a x IH]; intros [|b y]; simpl; [done..|]. unfold cmp_then.
  destruct (N.compare_spec a b) as [->|?|?].
  - rewrite N.ltb_irrefl, N.eqb_refl. apply IH.
  - split; [done|]. intros _. apply orb_false_iff. split; [lia|]. apply andb_false_iff. left. lia.
  - split; [|done]. intros Hf%orb_false_iff. lia.
Qed.

Lemma hex_digit_value a n : digit_value a = Some n → n < 16 ∧ hex_digit n = a.
Proof.
  destruct a as [[] [] [] [] [] [] [] []]; vm_compute; intros Hd; first [discriminate Hd|injection Hd as <-; done].
Qed.

Lemma hex_bytes_spec s : ∀ i, hex_bytes s = Some i → Forall (λ b, b < 256) i ∧ hex i = s.
Proof.
  revert s. fix IH 1. intros [|a [|b s]] i; simpl; [by intros [= <-]|done|].
  intros (hi & Ha & (lo & Hb & (bytes & Hs & [= <-])%bind_Some)%bind_Some)%bind_Some.
  apply hex_digit_value in Ha as [Hhi Ha]. apply hex_digit_value in Hb as [Hlo Hb]. apply IH in Hs as [Hs <-].
  split; [constructor; [lia|done]|]. unfold hex. cbn [foldr]. fold (hex bytes). unfold hex_byte.
  rewrite !str_app_cons, str_app_nil. f_equal; [rewrite <- Ha|f_equal; rewrite <- Hb]; f_equal.
  - rewrite N.mul_comm, N.div_add_l, N.div_small by lia. lia.
  - rewrite N.add_comm, N.mul_comm, N.Div0.mod_add, N.mod_small by lia. done.
Qed.

Lemma hex_length i : str_len (hex i) = 2 * N.of_nat (length i).
Proof.
  induction i as [|b i IH]; [done|]. unfold hex. cbn [foldr length]. fold (hex i). unfold hex_byte.
  autorewrite with str. rewrite IH. lia.
Qed.

Lemma parse_spec s i : parse_candidate_id s = Ok i → is_identity i ∧ hex i = s.
Proof.
  unfold parse_candidate_id. destruct (N.eqb_spec (str_len s) 64) as [Hl|]; [|done].
  destruct (hex_bytes s) as [bytes|] eqn:Es; [|done]. intros [= <-]. apply hex_bytes_spec in Es as [Hb <-].
  rewrite hex_length in Hl. split; [|done]. split; [lia|done].
Qed.

Lemma parse_identity i : is_identity i → parse_candidate_id (hex i) = Ok i.
Proof.
  intros [Hl Hb]. unfold parse_candidate_id. rewrite hex_length, Hl. simpl. by rewrite hex_bytes_hex.
Qed.

(** An ordered list is a sublist of another one when its elements are. *)
Lemma sorted_sublist {A} (R : relation A) l : ∀ l', (∀ x, ¬ R x x) → (∀ x y, R x y → R y x → False) →
  StronglySorted R l → StronglySorted R l' → (∀ x, x ∈ l → x ∈ l') → sublist l l'.
Proof.
  induction l as [|x l IH]; intros l' Hi Ha Hs Hs' Hin; [apply sublist_nil_l|].
  assert (x ∈ l') as Hx by (apply Hin; by left). revert Hs' Hin Hx.
  induction l' as [|y l' IHl']; intros Hs' Hin Hx; [by apply not_elem_of_nil in Hx|].
  apply StronglySorted_inv in Hs as Hs1. destruct Hs1 as [Hs1 Hxl]. rewrite Forall_forall in Hxl.
  apply StronglySorted_inv in Hs' as [Hs' Hy]. rewrite Forall_forall in Hy.
  pose proof Hx as [->|Hx']%elem_of_cons.
  - apply sublist_skip. apply IH; try done. intros z Hz. specialize (Hin z ltac:(by right)).
    apply elem_of_cons in Hin as [->|Hzl]; [|exact Hzl]. destruct (Hi y). by apply Hxl.
  - apply sublist_cons. apply IHl'; try done. intros z Hz.
    pose proof (Hin z Hz) as [->|Hzl]%elem_of_cons; [|exact Hzl]. exfalso.
    apply elem_of_cons in Hz as [->|Hz]; [by apply (Hi x), Hy|]. eapply Ha; [apply Hxl, Hz|by apply Hy].
Qed.

Lemma length_omap_le {A B} (f : A → option B) l : (length (omap f l) ≤ length l)%nat.
Proof. induction l as [|x l IH]; csimpl; [done|]. destruct (f x); simpl; lia. Qed.

(** ** Steps that only finish work *)

Section finishing.
Context `{SerdeNumber, JsonDeserializer, !JsonMessages, !RecordWriter, !ValueEq, !CandidateDigest, !Sqlite}.
Context {Sources : Type} `{!Ingestion Sources}.
Notation Database := (Database.Database Sources).
Notation sql := (Database.sql Sources).
Variable store : StoreCheckStore.
Notation still_open := (is_unfinished (Sources:=Sources) store).

Definition is_open (c : CandidateRow) : bool := in_states [SPending; SAnswered] c.

(** What a page has read of a row is still so while the row is open. *)
Record finishing_row (c c' : CandidateRow) : Prop := {
  fi_id : cd_candidate_id c' = cd_candidate_id c;
  fi_check : cd_check_id c' = cd_check_id c;
  fi_scope : cd_scope_key c' = cd_scope_key c;
  fi_generation : cd_generation c' = cd_generation c;
  fi_open : is_open c' = true →
    cd_state c' = cd_state c ∧ cd_claim_fence c' = cd_claim_fence c ∧ cd_prior_status c' = cd_prior_status c
}.

#[export] Instance finishing_row_preorder : PreOrder finishing_row.
Proof.
  split; [done|]. intros a b c [I1 I2 I3 I4 I5] [K1 K2 K3 K4 K5]. split; [congruence..|].
  intros Ho. destruct (K5 Ho) as (E1 & E2 & E3). assert (is_open b = true) as Hb.
  { unfold is_open, in_states in *. by rewrite <- E1. }
  destruct (I5 Hb) as (F1 & F2 & F3). split_and!; congruence.
Qed.

(** No candidate is added or opened again, and no activation is enabled. *)
Record finishing (db db' : Database) : Prop := {
  fi_rows : Forall2 finishing_row (db_candidates db) (db_candidates db');
  fi_activations c : exists_row (joined_current c) (db_activations db') = true →
    exists_row (joined_current c) (db_activations db) = true
}.

#[export] Instance finishing_preorder : PreOrder finishing.
Proof.
  split; [intros db; split; [reflexivity|done]|]. intros a b c [I1 I2] [K1 K2]. split; [by etransitivity|auto].
Qed.

Lemma finishing_same (db db' : Database) :
  db_candidates db' = db_candidates db → db_activations db' = db_activations db → finishing db db'.
Proof. intros Hc Ha. split; [rewrite Hc; reflexivity|by rewrite Ha]. Qed.

Lemma finishing_candidates p f :
  (∀ db c, p db c = true → finishing_row c (f db c)) → moves finishing (update_candidates p f).
Proof.
  intros Hf. apply (moves_execute finishing). intros db. split; [|done]. cbn [snd update_where with_candidates db_candidates].
  induction (db_candidates db) as [|c l IH]; csimpl; constructor; [|apply IH].
  destruct (p db c) eqn:E; [by apply Hf|reflexivity].
Qed.

Lemma finishing_execute (f : Database → N * Database) :
  (∀ db, db_candidates (f db).2 = db_candidates db ∧ db_activations (f db).2 = db_activations db) →
  moves finishing (execute f).
Proof. intros Hf. apply (moves_execute finishing). intros db. by apply finishing_same; apply Hf. Qed.

Lemma finishing_history conflict make : moves finishing (insert_history (Sources:=Sources) conflict make).
Proof.
  apply (moves_statement finishing). intros db n db' He. 
  by apply result_bind_ok in He as ([k rows] & _ & [= <- <-]); apply finishing_same.
Qed.

(** A row that is not open afterwards *)
Lemma finishes c c' :
  cd_candidate_id c' = cd_candidate_id c → cd_check_id c' = cd_check_id c → cd_scope_key c' = cd_scope_key c →
  cd_generation c' = cd_generation c → is_open c' = false → finishing_row c c'.
Proof. intros. split; [done..|congruence]. Qed.

Lemma finishing_back db db' c' :
  finishing db db' → c' ∈ db_candidates db' → ∃ c, c ∈ db_candidates db ∧ finishing_row c c'.
Proof.
  intros [Hrows _] (i & Hi)%list_elem_of_lookup_1. destruct (Forall2_lookup_r _ _ _ _ _ Hrows Hi) as (c & Hc & Hr).
  exists c. split; [by eapply list_elem_of_lookup_2|done].
Qed.

Lemma finishing_ids db db' : finishing db db' → cd_candidate_id <$> db_candidates db' = cd_candidate_id <$> db_candidates db.
Proof.
  intros [Hrows _]. induction Hrows as [|c c' l l' [Hid _ _ _ _] _ IH]; [done|]. csimpl. by rewrite Hid, IH.
Qed.

Lemma finishing_unfinished db db' c c' :
  finishing db db' → finishing_row c c' → still_open db' c' = true → still_open db c = true.
Proof.
  intros [_ Ha] [Hid Hcheck Hscope Hgen Hopen]. unfold is_unfinished. rewrite !andb_true_iff.
  intros [[Hs Ho] Hj]. rewrite <- Hscope. split_and!; [done| |].
  - destruct (Hopen Ho) as (Hst & _). unfold is_open, in_states in *. by rewrite <- Hst.
  - apply Ha. unfold exists_row, joined_current, joined in *. by rewrite <- Hcheck, <- Hscope, <- Hgen.
Qed.

Ltac finish_row := intros; apply finishes; [done..|]; by unfold is_open, in_states; simpl.

Ltac finish := repeat first
  [ read_step finishing | apply finishing_history
  | progress unfold mark_stale, record_lost, answered_is_stale, candidate_row, id
  | apply finishing_execute; done | apply finishing_candidates; solve [finish_row] ].

Lemma terminal_finishing claimed detail b p d :
  moves finishing (terminal_with_diagnostic (Sources:=Sources) store claimed detail b p d).
Proof.
  unfold terminal_with_diagnostic. finish. apply finishing_candidates. intros db row Hp.
  destruct (_ || _) eqn:E; [|destruct b; finish_row].
  rewrite orb_true_iff, !bool_decide_eq_true in E. destruct E as [->| ->]; finish_row.
Qed.

Lemma accept_finishing a : moves finishing (accept (Sources:=Sources) store a).
Proof.
  unfold accept. finish. unfold try_accept_burn_check_answer. finish. unfold accept_answered. finish.
  unfold commit_acceptance. finish.
Qed.

Lemma overflow_finishing candidate : moves finishing (record_overflow (Sources:=Sources) store candidate).
Proof. unfold record_overflow. finish. unfold record_burn_check_overflow. finish. Qed.

Lemma reject_finishing row : moves finishing (reject_recovery_row (Sources:=Sources) store row).
Proof.
  unfold reject_recovery_row. finish. apply finishing_candidates. intros db c Hp.
  destruct (bool_decide (rc_state row = SPending)); finish_row.
Qed.

Lemma moves_unless R `{!PreOrder R} {A} (m : sql A) : moves R m → moves R (unless_refused m).
Proof. intros Hm s. specialize (Hm s). unfold unless_refused. by destruct (m s) as [[a|[]] s']. Qed.

Lemma moves_recover_row_in R `{!PreOrder R} activation row :
  moves R (recover_row_in (Sources:=Sources) activation row).
Proof. unfold recover_row_in. repeat first [read_step R|apply (moves_rows R)]. Qed.

Variable others : Taking → Database → Database.
Hypothesis others_finish : ∀ t db, finishing db (others t db).

Lemma taken_finishing t : moves finishing (taken others t).
Proof. intros s. apply others_finish. Qed.

Lemma recover_row_finishing row : moves finishing (recover_row store others row).
Proof.
  unfold recover_row. repeat first [read_step finishing|apply taken_finishing|apply reject_finishing
    |apply (moves_unless finishing)|apply (moves_recover_row_in finishing)].
Qed.

Lemma recover_rows_finishing rows : moves finishing (recover_rows store others rows).
Proof.
  induction rows as [|row rows IH]; cbn [recover_rows].
  all: repeat first [read_step finishing|apply recover_row_finishing|apply IH].
Qed.

Lemma recovery_pages_finishing fuel : ∀ after limit, moves finishing (recovery_pages store others fuel after limit).
Proof.
  induction fuel as [|fuel IH]; intros after limit; cbn [recovery_pages].
  all: repeat first [read_step finishing|apply taken_finishing|apply recover_rows_finishing|apply IH].
Qed.

(** The calls of a recovery that reach the store *)
Lemma call_finishing X (c : engine_call X) x db db' :
  match c with
  | LoadTerminalCandidateIds _ | LocalExecutionIsCurrent _ | ValidatePrepared _ _ _ | LoadPreparation _
  | LoadDecisionProgress _ | RecordEvaluationFailure _ _ | RecordPreparationRejection _ _ | Accept _ => True
  | _ => False
  end →
  check_store_step store X c x db db' → finishing db db'.
Proof.
  intros Hc Hs. destruct c; simpl in Hc, Hs; try done; try (by subst);
    (eapply performs_moves; [|exact Hs]);
    first [apply (moves_terminal_ids _ finishing)|apply (moves_load _ finishing)|apply (moves_preparation _ finishing)
          |apply terminal_finishing|apply accept_finishing].
Qed.

(** ** The unfinished work of the store *)

Definition parsed (c : CandidateRow) : option (list N) :=
  match parse_candidate_id (cd_candidate_id c) with Ok i => Some i | Err _ => None end.

Definition open_work (db : Database) : list (list N) := omap parsed (unfinished_rows store db).

Definition identified (db : Database) : Prop := NoDup (cd_candidate_id <$> db_candidates db).

Lemma identified_finishing db db' : finishing db db' → identified db → identified db'.
Proof. unfold identified. by intros ->%finishing_ids. Qed.

Lemma identified_same db c c' :
  identified db → c ∈ db_candidates db → c' ∈ db_candidates db → cd_candidate_id c = cd_candidate_id c' → c = c'.
Proof. intros Hi Hc Hc'. by apply (NoDup_fmap_inj cd_candidate_id (db_candidates db)). Qed.

Lemma parsed_spec c i : parsed c = Some i → is_identity i ∧ hex i = cd_candidate_id c.
Proof. unfold parsed. destruct (parse_candidate_id _) eqn:E; [|done]. intros [= <-]. by apply parse_spec. Qed.

Lemma unfinished_rows_elem db c : c ∈ unfinished_rows store db ↔ c ∈ db_candidates db ∧ still_open db c = true.
Proof. unfold unfinished_rows. rewrite sort_by_perm, !list_elem_of_In, List.filter_In. done. Qed.

Lemma open_work_elem db i :
  i ∈ open_work db ↔ ∃ c, c ∈ db_candidates db ∧ still_open db c = true ∧ parsed c = Some i.
Proof. unfold open_work. rewrite list_elem_of_omap. setoid_rewrite unfinished_rows_elem. naive_solver. Qed.

#[local] Instance by_id_laws : CmpLaws by_id.
Proof. apply (pullback_laws cd_candidate_id String.compare), _. Qed.

Lemma unfinished_rows_sorted db :
  identified db → StronglySorted (λ c c', by_id c c' = Lt) (unfinished_rows store db).
Proof.
  intros Hi. assert (NoDup (cd_candidate_id <$> unfinished_rows store db)) as Hn.
  { unfold unfinished_rows. rewrite sort_by_perm. eapply sublist_NoDup; [exact Hi|]. apply fmap_sublist.
    induction (db_candidates db) as [|c l IH]; simpl; [done|]. destruct (still_open db c); by constructor. }
  pose proof (sort_by_ordered by_id (List.filter (still_open db) (db_candidates db))) as Hs.
  fold (unfinished_rows store db) in Hs. induction Hs as [|c l Hs IH Hc]; [constructor|].
  apply NoDup_cons in Hn as [Hcl Hn]. constructor; [by apply IH|]. apply Forall_forall. intros c' Hc'.
  rewrite Forall_forall in Hc. specialize (Hc c' Hc'). unfold cmp_le in Hc.
  destruct (by_id c c') eqn:E; [|done|done]. unfold by_id in E. apply String.compare_eq_iff in E. exfalso.
  apply Hcl. rewrite E. by apply list_elem_of_fmap_2.
Qed.

(** The order of the keys and of their texts *)
Lemma id_lt_hex i j : is_identity i → is_identity j → id_lt i j ↔ String.compare (hex i) (hex j) = Lt.
Proof. intros [_ Hi] [_ Hj]. rewrite hex_compare by done. apply id_lt_cmp. Qed.

Lemma sorted_parsed l : StronglySorted (λ c c', by_id c c' = Lt) l → StronglySorted id_lt (omap parsed l).
Proof.
  induction 1 as [|c l Hs IH Hc]; [constructor|].
  simpl. destruct (parsed c) as [i|] eqn:Ei; [|done]. constructor; [done|]. apply Forall_forall.
  intros j (c' & Hc' & Ej)%list_elem_of_omap. rewrite Forall_forall in Hc. specialize (Hc c' Hc').
  apply parsed_spec in Ei as [Hii Ei]. apply parsed_spec in Ej as [Hij Ej].
  apply id_lt_hex; [done..|]. by rewrite Ei, Ej.
Qed.

Lemma open_work_sorted db : identified db → StronglySorted id_lt (open_work db).
Proof. intros Hi. by apply sorted_parsed, unfinished_rows_sorted. Qed.

Lemma id_lt_asym x y : id_lt x y → id_lt y x → False.
Proof. intros Hxy Hyx. eapply id_lt_irrefl, id_lt_trans; [exact Hxy|exact Hyx]. Qed.

Lemma open_work_back db db' i : finishing db db' → i ∈ open_work db' → i ∈ open_work db.
Proof.
  intros Hf (c' & Hc' & Hu & Hp)%open_work_elem. destruct (finishing_back _ _ _ Hf Hc') as (c & Hc & Hr).
  apply open_work_elem. exists c. split_and!; [done|by eapply finishing_unfinished|].
  unfold parsed in *. by rewrite <- (fi_id _ _ Hr).
Qed.

Lemma open_work_sublist db db' : finishing db db' → identified db → sublist (open_work db') (open_work db).
Proof.
  intros Hf Hi. apply (sorted_sublist id_lt); [apply id_lt_irrefl|apply id_lt_asym| | |].
  - apply open_work_sorted. by eapply identified_finishing.
  - by apply open_work_sorted.
  - intros i. by apply open_work_back.
Qed.
End finishing.

(** ** What is recovered of a row *)

Section rows.
Context `{SerdeNumber, JsonDeserializer, !JsonMessages, !RecordWriter, !ValueEq, !CandidateDigest, !Sqlite}.
Context {Sources : Type} `{!Ingestion Sources}.
Notation Database := (Database.Database Sources).
Notation sql := (Database.sql Sources).
Variable store : StoreCheckStore.
Notation still_open := (is_unfinished (Sources:=Sources) store).

Lemma read_fingerprint_identity ev i : read_fingerprint ev = Some i → is_identity i.
Proof.
  unfold read_fingerprint. intros (bytes & Hb & Hr)%bind_Some. destruct (Nat.eqb_spec (length bytes) 32); [|done].
  injection Hr as <-. split; [done|]. unfold read_seq in Hb. destruct ev; try done.
  destruct complete; [|done]. apply mapM_Some in Hb. clear -Hb. induction Hb as [|ev b l bytes Hb _ IH]; constructor; [|done].
  unfold read_u8, read_unsigned in Hb. destruct ev; try done; repeat case_match; simplify_eq; lia.
Qed.

Lemma frozen_identity text c : frozen_from_str text = Ok c → is_identity (fr_fingerprint c).
Proof.
  unfold frozen_from_str, from_str. destruct (read_candidate _) as [c'|] eqn:E; [|done]. simpl.
  destruct (json_end text); [|done]. intros [= <-]. unfold read_candidate in E.
  do 7 (apply bind_Some in E as (? & _ & E)). apply bind_Some in E as (i & Hi & [= <-]).
  unfold Serde.required in Hi. apply bind_Some in Hi as (ev & _ & Hi). by eapply read_fingerprint_identity.
Qed.

Lemma ends_rows_parsed id activation db :
  ends (read_decision_rows (Sources:=Sources) id activation) db (λ _ _, ∃ i, parse_candidate_id id = Ok i).
Proof.
  unfold read_decision_rows. apply ends_bind, ends_query, ends_bind, ends_refused. intros i Hi.
  eapply ends_mono; [apply ends_any|]. eauto.
Qed.

(** A record is of the candidate of its row. *)
Definition record_of (row : RecoveryCandidateRow) (r : RecoveryRecord) : Prop :=
  parse_candidate_id (rc_id row) = Ok (record_id r).

Lemma ends_record activation row db :
  ends (recover_row_in (Sources:=Sources) activation row) db (λ r _, record_of row r).
Proof.
  unfold recover_row_in. apply ends_skip. intros saved db1. apply ends_bind, ends_refused. intros candidate Hc.
  apply frozen_identity in Hc. apply ends_bind, ends_ensure. intros [Hid%String.eqb_eq _]%andb_true_iff.
  apply ends_skip. intros saved' db2. apply ends_skip. intros [] db3. apply ends_bind.
  eapply ends_mono; [apply ends_rows_parsed|]. intros progress db4 [i Hi].
  assert (i = fr_fingerprint candidate) as ->.
  { rewrite <- Hid in Hi. apply parse_hex in Hi; [done|apply Hc]. }
  apply ends_skip. intros [] db5. apply ends_skip. intros validated db6. apply ends_bind.
  eapply (ends_mono _ _ (λ work _, match work with
    | WorkPending c _ => c = candidate
    | WorkAnswered claimed _ => cl_id claimed = CandidateId_from candidate end)).
  2: { intros work db7 Hwork. apply ends_ret. unfold record_of, record_id. simpl. destruct work as [c b|claimed e];
       simpl in Hwork; [by subst|by rewrite Hwork]. }
  destruct (bool_decide _).
  - apply ends_skip. intros saved'' db7. apply ends_refused. unfold answered_work. intros work Hw.
    destruct (cd_answer_json _); [|done]. apply result_bind_ok in Hw as (evaluated & _ & Hw).
    destruct (vp_state validated); try done. destruct (assessment_eqb _ _); [|done].
    by apply result_bind_ok in Hw as (prior & _ & [= <-]).
  - apply ends_refused. unfold pending_work. intros work Hw. destruct (_ || _); [|done]. by injection Hw as <-.
Qed.

Lemma recovery_row_columns c row :
  recovery_row c = Ok row →
  rc_id row = cd_candidate_id c ∧ rc_state row = cd_state c ∧ rc_prior_status row = cd_prior_status c ∧
  Z.of_N (rc_fence row) = cd_claim_fence c ∧ rc_check_id row = cd_check_id c ∧
  Z.of_N (rc_generation row) = cd_generation c.
Proof.
  unfold recovery_row, column_u64. destruct (Z.leb_spec 0 (cd_claim_fence c)); [|done].
  destruct (Z.leb_spec 0 (cd_generation c)); [|done]. intros [= <-]. simpl. by rewrite !Z2N.id.
Qed.

(** A row that is still open is as the page has read it. *)
Lemma open_row_current db0 c0 row db c :
  identified db0 → c0 ∈ db_candidates db0 → recovery_row c0 = Ok row → finishing db0 db →
  c ∈ db_candidates db → cd_candidate_id c = cd_candidate_id c0 → still_open db c = true →
  row_current store row db c = true.
Proof.
  intros Hi Hc0 (Eid & Est & Epr & Efe & Ech & Ege)%recovery_row_columns Hf Hc Hid Hopen.
  destruct (finishing_back _ _ _ Hf Hc) as (c1 & Hc1 & [F1 F2 F3 F4 F5]).
  assert (c1 = c0) as -> by (apply (identified_same db0); congruence).
  unfold is_unfinished in Hopen. rewrite !andb_true_iff in Hopen. destruct Hopen as [[Hs Ho] Hj].
  destruct (F5 Ho) as (Hst & Hfe & Hpr). unfold row_current, has_id.
  rewrite !andb_true_iff, !bool_decide_eq_true, !String.eqb_eq, !Z.eqb_eq. apply String.eqb_eq in Hs.
  split_and!; try done; congruence.
Qed.

Lemma ends_unless {A} (m : sql A) db (Q : option A → Database → Prop) :
  moves eq m → ends m db (λ a _, Q (Some a) db) → Q None db → ends (unless_refused m) db Q.
Proof.
  intros Hm Hs Hn h. specialize (Hm (db, h)). specialize (Hs h). unfold unless_refused.
  destruct (m (db, h)) as [[a|[]] [db' h']]; simpl in *; by subst.
Qed.

Lemma ends_reject row db (Q : Database → Prop) :
  (∀ db1 f, db_candidates db1 = db_candidates db → db_activations db1 = db_activations db →
     (∀ c, is_open (f c) = false) →
     Q (with_candidates ((λ c, if has_id (rc_id row) c && String.eqb (cd_scope_key c) (activation_scope_key (ss_scope store)) &&
       bool_decide (cd_state c = rc_state row) && (cd_claim_fence c =? Z.of_N (rc_fence row))%Z then f c else c) <$>
         db_candidates db1) db1)) →
  ends (reject_recovery_row store row) db (λ _, Q).
Proof.
  intros HQ. unfold reject_recovery_row. apply ends_reads; [apply (moves_refused eq)|]. intros actions.
  apply ends_reads; [apply (moves_now eq)|]. intros now.
  apply ends_bind, ends_statement. intros n db1 He. apply result_bind_ok in He as ([k history] & _ & [= <- <-]).
  apply ends_reads; [apply (moves_refused eq)|]. intros diagnostic. apply ends_reads; [apply (moves_now eq)|]. intros now'.
  apply ends_bind, ends_execute, ends_ret. cbn [update_where fst snd].
  apply (HQ (with_history history db) (λ c, set_updated now' _)); [done..|]. intros c.
  by destruct (bool_decide (rc_state row = SPending)).
Qed.

Variable others : Taking → Database → Database.
Hypothesis others_finish : ∀ t db, finishing db (others t db).

(** Either the record of the row is given, or its candidate is not open any more. *)
Lemma ends_recover_row db0 c0 row db :
  identified db0 → c0 ∈ db_candidates db0 → recovery_row c0 = Ok row → finishing db0 db →
  ends (recover_row store others row) db (λ x db',
    match x with
    | Some r => record_of row r
    | None => ∀ c, c ∈ db_candidates db' → cd_candidate_id c = cd_candidate_id c0 → still_open db' c = false
    end).
Proof.
  intros Hi Hc0 Hrow Hf. pose proof (open_row_current db0 c0 row) as Hcur. unfold recover_row.
  apply ends_bind. intros h. cbn [taken fst snd]. clear h. set (db1 := others _ db).
  assert (finishing db0 db1) as Hf1 by (etransitivity; [exact Hf|apply others_finish]).
  apply ends_transaction, ends_bind, ends_query. destruct (exists_row _ _) eqn:Ecur; simpl negb; cbv iota.
  - apply ends_bind, ends_context. intros activation _. apply ends_bind, ends_unless.
    + by apply moves_recover_row_in, _.
    + eapply ends_mono; [apply ends_record|]. intros r db2 Hr. by apply ends_ret.
    + apply ends_bind. eapply (ends_mono _ _ (λ _, _)); [apply ends_reject with (Q := λ db', ∀ c, c ∈ db_candidates db' →
        cd_candidate_id c = cd_candidate_id c0 → still_open db' c = false)|].
      2: { intros [] db2 HQ. by apply ends_ret. }
      intros db2 f Hsame Hact Hclosed c (c1 & -> & Hc1)%list_elem_of_fmap Hid. rewrite Hsame in Hc1.
      match goal with |- context [if ?b then f c1 else c1] => destruct b eqn:E end.
      * unfold is_unfinished. specialize (Hclosed c1). unfold is_open in Hclosed. by rewrite Hclosed, andb_false_r.
      * destruct (still_open _ c1) eqn:Eopen; [|done]. exfalso.
        specialize (Hcur db1 c1 Hi Hc0 Hrow Hf1 Hc1 Hid). unfold is_unfinished in Hcur, Eopen.
        cbn [with_candidates db_activations] in Eopen. rewrite Hact in Eopen. specialize (Hcur Eopen).
        unfold row_current in Hcur. rewrite !andb_true_iff in Hcur. rewrite !andb_false_iff in E. destruct_and!. destruct E as [[[E|E]|E]|E]; congruence.
  - apply ends_ret. intros c Hc Hid. destruct (still_open db1 c) eqn:Eopen; [|done]. exfalso.
    specialize (Hcur db1 c Hi Hc0 Hrow Hf1 Hc Hid Eopen). apply not_true_iff_false in Ecur. apply Ecur, existsb_exists.
    exists c. by rewrite <- list_elem_of_In.
Qed.

Lemma ends_and R {A} (m : sql A) db (Q : A → Database → Prop) :
  moves R m → ends m db Q → ends m db (λ a db', R db db' ∧ Q a db').
Proof.
  intros Hm HQ h. specialize (Hm (db, h)). specialize (HQ h). by destruct (m (db, h)) as [[a|e] [db' h']].
Qed.

(** No candidate with the identity of the row is open. *)
Definition closed (db : Database) (c0 : CandidateRow) : Prop :=
  ∀ c, c ∈ db_candidates db → cd_candidate_id c = cd_candidate_id c0 → still_open db c = false.

Lemma closed_finishing db db' c0 : finishing db db' → closed db c0 → closed db' c0.
Proof.
  intros Hf Hc c' Hc' Hid. destruct (finishing_back _ _ _ Hf Hc') as (c & Hin & Hr).
  destruct (still_open db' c') eqn:E; [|done]. rewrite <- (Hc c Hin); [|by rewrite <- (fi_id _ _ Hr)].
  symmetry. by eapply finishing_unfinished.
Qed.

Definition read_from (db : Database) (c : CandidateRow) (row : RecoveryCandidateRow) : Prop :=
  c ∈ db_candidates db ∧ recovery_row c = Ok row.

Lemma ends_recover_rows db0 l rows : identified db0 → Forall2 (read_from db0) l rows → ∀ db, finishing db0 db →
  ends (recover_rows store others rows) db (λ records db',
    finishing db db' ∧ sublist (record_id <$> records) (omap parsed l) ∧
    ∀ c0, c0 ∈ l → (∃ i, parsed c0 = Some i ∧ i ∈ record_id <$> records) ∨ closed db' c0).
Proof.
  intros Hi Hrows. induction Hrows as [|c0 row l rows [Hc0 Hrow] _ IH]; intros db Hf; cbn [recover_rows].
  { apply ends_ret. split_and!; [reflexivity|done|]. by intros c0 ?%not_elem_of_nil. }
  apply ends_bind. eapply ends_mono.
  { apply (ends_and finishing); [by apply recover_row_finishing|]. by apply (ends_recover_row db0 c0). }
  intros x db1 [Hf1 Hx]. apply ends_bind. eapply ends_mono; [apply IH; by etransitivity|].
  intros records db2 (Hf2 & Hsub & Hall). apply ends_ret.
  assert (∀ r, x = Some r → parsed c0 = Some (record_id r)) as Hparsed.
  { intros r ->. apply recovery_row_columns in Hrow as (Hid & _). unfold parsed. unfold record_of in Hx.
    rewrite Hid in Hx. by rewrite Hx. }
  split_and!; [by etransitivity| |].
  - destruct x as [r|]; csimpl.
    + rewrite (Hparsed r eq_refl). by apply sublist_skip.
    + destruct (parsed c0); [by apply sublist_cons|done].
  - intros c [->|Hc]%elem_of_cons.
    + destruct x as [r|]; [left|right; by eapply closed_finishing].
      exists (record_id r). split; [by apply Hparsed|]. by left.
    + destruct (Hall c Hc) as [(i & Hp & Hin)|Hcl]; [left|by right]. exists i. split; [done|].
      destruct x; [by right|done].
Qed.

(** ** What is recovered of a page *)

(** [ids] is what a page after the text [after] gives between two states. *)
Record paged (after : string) (limit : N) (ids : list (list N)) (db db' : Database) : Prop := {
  pd_length : N.of_nat (length ids) ≤ limit;
  pd_sorted : StronglySorted id_lt ids;
  pd_open i : i ∈ ids → i ∈ open_work store db ∧ String.compare after (hex i) = Lt;
  pd_all i : i ∈ open_work store db' → String.compare after (hex i) = Lt →
    i ∈ ids ∨ ∃ k, last ids = Some k ∧ id_lt k i
}.

Lemma is_after_spec after c : is_after after c = true ↔ String.compare after (cd_candidate_id c) = Lt.
Proof. unfold is_after. by destruct (String.compare _ _). Qed.

Lemma compare_lt_trans x y z : String.compare x y = Lt → String.compare y z = Lt → String.compare x z = Lt.
Proof. apply (cmp_lt_trans String.compare). Qed.

(** The rows after a key, in order, as the first [limit] and the rest *)
Lemma page_split after limit db :
  identified db → 1 ≤ limit → ∃ rest,
    (page_rows store after limit db = [] → rest = []) ∧
    N.of_nat (length (page_rows store after limit db)) ≤ limit ∧
    StronglySorted (λ c c', by_id c c' = Lt) (page_rows store after limit db ++ rest) ∧
    ∀ c, c ∈ page_rows store after limit db ∨ c ∈ rest ↔
      c ∈ db_candidates db ∧ still_open db c = true ∧ String.compare after (cd_candidate_id c) = Lt.
Proof.
  intros Hi Hlimit. set (l := List.filter (is_after after) (unfinished_rows store db)). unfold page_rows. fold l.
  exists (drop (N.to_nat limit) l). rewrite take_drop. split_and!.
  - destruct (N.to_nat limit) eqn:E; [lia|]. by destruct l.
  - rewrite length_take. lia.
  - unfold l. pose proof (unfinished_rows_sorted store db Hi) as Hs. induction Hs as [|c k Hs IH Hc]; simpl; [constructor|].
    destruct (is_after after c); [|done]. constructor; [done|]. apply Forall_forall. intros c' Hc'.
    rewrite Forall_forall in Hc. apply Hc. rewrite list_elem_of_In, List.filter_In, <- list_elem_of_In in Hc'. tauto.
  - intros c. rewrite <- elem_of_app, take_drop. unfold l.
    rewrite list_elem_of_In, List.filter_In, <- list_elem_of_In, unfinished_rows_elem, is_after_spec. tauto.
Qed.

(** An open key is that of a row, before and after. *)
Lemma open_row db db' i :
  finishing db db' → i ∈ open_work store db' → ∃ c, c ∈ db_candidates db ∧ still_open db c = true ∧ parsed c = Some i.
Proof. intros Hf Hi. by apply (open_work_back store db db'), open_work_elem in Hi. Qed.

Lemma open_not_closed db i c : i ∈ open_work store db → parsed c = Some i → closed db c → False.
Proof.
  intros (c' & Hc' & Ho & Hp)%open_work_elem [_ Hid]%parsed_spec Hcl. apply parsed_spec in Hp as [_ Hid'].
  rewrite (Hcl c') in Ho; [done|done|congruence].
Qed.

Lemma page_given after limit db db' rest ids :
  (∀ c, c ∈ page_rows store after limit db ∨ c ∈ rest ↔
     c ∈ db_candidates db ∧ still_open db c = true ∧ String.compare after (cd_candidate_id c) = Lt) →
  StronglySorted (λ c c', by_id c c' = Lt) (page_rows store after limit db ++ rest) →
  N.of_nat (length (page_rows store after limit db)) ≤ limit →
  finishing db db' → sublist ids (omap parsed (page_rows store after limit db)) →
  (∀ c, c ∈ page_rows store after limit db → (∃ i, parsed c = Some i ∧ i ∈ ids) ∨ closed db' c) →
  ids ≠ [] → paged after limit ids db db'.
Proof.
  set (l := page_rows store after limit db). intros Hpage Hs Hlen Hf Hsub Hall Hne.
  apply StronglySorted_app in Hs as Hs3. destruct Hs3 as (Hbefore & Hsl & _).
  assert (∀ i, i ∈ ids → ∃ c, c ∈ l ∧ parsed c = Some i) as Hrow.
  { intros i Hi. eapply elem_of_sublist in Hi; [|exact Hsub]. by apply list_elem_of_omap in Hi. }
  split.
  - apply sublist_length in Hsub. pose proof (length_omap_le parsed l). lia.
  - eapply sublist_sorted; [exact Hsub|by apply sorted_parsed].
  - intros i (c & Hc & Hp)%Hrow. destruct (proj1 (Hpage c) (or_introl Hc)) as (Hdb & Ho & Hlt).
    split; [apply open_work_elem; eauto|]. apply parsed_spec in Hp as [_ ->]. done.
  - intros i Hi Hlt. destruct (open_row db db' i Hf Hi) as (c & Hdb & Ho & Hp).
    pose proof Hp as [Hid Ehex]%parsed_spec. rewrite Ehex in Hlt.
    destruct (proj2 (Hpage c) ltac:(done)) as [Hc|Hc].
    + destruct (Hall c Hc) as [(i' & Hp' & Hin)|Hcl]; [left; congruence|].
      exfalso. by eapply open_not_closed.
    + right. destruct (last ids) as [k|] eqn:El; [|by apply last_None in El]. exists k. split; [done|].
      destruct (Hrow k) as (ck & Hck & Hpk); [apply last_Some in El as [k' ->]; apply elem_of_app; right; by left|].
      apply parsed_spec in Hpk as [Hidk Ehexk]. apply id_lt_hex; [done..|]. rewrite Ehex, Ehexk.
      exact (Hbefore ck c Hck Hc).
Qed.

(** A page without records closes its rows, and the next one goes on from it. *)
Lemma page_skipped after limit db db1 db2 rest l0 cN ids :
  (∀ c, c ∈ page_rows store after limit db ∨ c ∈ rest ↔
     c ∈ db_candidates db ∧ still_open db c = true ∧ String.compare after (cd_candidate_id c) = Lt) →
  StronglySorted (λ c c', by_id c c' = Lt) (page_rows store after limit db ++ rest) →
  page_rows store after limit db = (l0 ++ [cN])%list → finishing db db1 → finishing db1 db2 →
  (∀ c, c ∈ page_rows store after limit db → closed db1 c) →
  paged (cd_candidate_id cN) limit ids db1 db2 → paged after limit ids db db2.
Proof.
  intros Hpage Hs El Hf1 Hf2 Hall [Hlen Hsort Hopen Hrest].
  assert (cN ∈ page_rows store after limit db) as HcN by (rewrite El; apply elem_of_app; right; by left).
  destruct (proj1 (Hpage cN) (or_introl HcN)) as (_ & _ & Hlt).
  apply StronglySorted_app in Hs as (Hbefore & _ & _).
  split; [done|done| |].
  - intros i [Hi Hafter]%Hopen. split; [by eapply open_work_back|]. by eapply compare_lt_trans.
  - intros i Hi Hafter. destruct (open_row db db2 i ltac:(by etransitivity) Hi) as (c & Hdb & Ho & Hp).
    pose proof Hp as [Hid Ehex]%parsed_spec. rewrite Ehex in Hafter.
    destruct (proj2 (Hpage c) ltac:(done)) as [Hc|Hc].
    + exfalso. eapply open_not_closed; [exact Hi|exact Hp|]. by eapply closed_finishing, Hall.
    + apply Hrest; [done|]. rewrite Ehex. exact (Hbefore cN c HcN Hc).
Qed.

Lemma ends_pages limit fuel : 1 ≤ limit → ∀ after db, identified db →
  ends (recovery_pages store others fuel after limit) db (λ x db',
    finishing db db' ∧ ∀ records, x = Some records → paged after limit (record_id <$> records) db db').
Proof.
  intros Hlimit. induction fuel as [|fuel IH]; intros after db Hi; cbn [recovery_pages]; [by apply ends_ret|].
  apply ends_bind. intros h. cbn [taken fst snd]. clear h. set (db1 := others _ db).
  assert (finishing db db1) as Hf1 by apply others_finish.
  assert (identified db1) as Hi1 by (by eapply identified_finishing).
  destruct (page_split after limit db1 Hi1 Hlimit) as (rest & Hnil & Hlen & Hs & Hpage).
  apply ends_bind, ends_query, ends_bind, ends_lift. intros rows Hrows%map_err_ok%results_of_spec.
  assert (∀ ids db', finishing db1 db' → paged after limit ids db1 db' → paged after limit ids db db') as Hfrom.
  { intros ids db' Hf [P1 P2 P3 P4]. split; [done|done| |done]. intros i [Hin ?]%P3. split; [by eapply open_work_back|done]. }
  destruct rows as [|row rows'].
  - apply Forall2_nil_inv_r in Hrows. apply ends_ret. split; [done|]. intros records [= <-]. split; simpl.
    + lia.
    + constructor.
    + by intros i ?%not_elem_of_nil.
    + intros i Hin Hlt. destruct (open_row db1 db1 i ltac:(reflexivity) Hin) as (c & Hdb & Ho & Hp).
      pose proof Hp as [_ Ehex]%parsed_spec. rewrite Ehex in Hlt. rewrite (Hnil Hrows), Hrows in Hpage.
      destruct (proj2 (Hpage c) ltac:(done)) as [?%not_elem_of_nil|?%not_elem_of_nil]; done.
  - set (rows := row :: rows') in *. apply ends_bind. eapply ends_mono.
    { apply (ends_recover_rows db1 (page_rows store after limit db1)); [done| |reflexivity].
      apply Forall2_flip. eapply Forall2_elem_mono; [by apply Forall2_flip, Hrows|]. intros row' c Hc Hr.
      split; [by apply (Hpage c); left|exact Hr]. }
    intros records db2 (Hf2 & Hsub & Hall). destruct records as [|r records].
    + assert (∃ l0 cN, page_rows store after limit db1 = (l0 ++ [cN])%list ∧
        match last rows with Some row => rc_id row | None => after end = cd_candidate_id cN) as (l0 & cN & El & ->).
      { destruct (exists_last (l:=rows)) as (k & rowN & Ek); [done|]. rewrite Ek in Hrows |- *.
        apply Forall2_app_inv_r in Hrows as (l0 & l1 & _ & Hl1 & El).
        apply Forall2_cons_inv_r in Hl1 as (cN & l2 & HcN & Hl2 & ->). apply Forall2_nil_inv_r in Hl2 as ->.
        exists l0, cN. split; [done|]. rewrite last_snoc. by apply recovery_row_columns in HcN as (-> & _). }
      eapply ends_mono; [apply IH; by eapply identified_finishing|]. intros x db3 [Hf3 Hx].
      split; [do 2 (etransitivity; [eassumption|]); done|]. intros records ->. apply Hfrom; [by etransitivity|].
      eapply page_skipped; [exact Hpage|exact Hs|exact El|exact Hf2|exact Hf3| |by apply Hx].
      intros c Hc. destruct (Hall c Hc) as [(i & _ & ?%not_elem_of_nil)|]; done.
    + apply ends_ret. split; [by etransitivity|]. intros ? [= <-]. apply Hfrom; [done|].
      by eapply page_given.
Qed.

(** *** Enough fuel

    Each page that gives nothing has moved the key over a candidate. *)
Definition keys_after (after : string) (db : Database) : list string :=
  filter (λ id, String.compare after id = Lt) (cd_candidate_id <$> db_candidates db).

Lemma ends_fuel limit fuel : ∀ after db, (length (keys_after after db) < fuel)%nat →
  ends (recovery_pages store others fuel after limit) db (λ x _, x ≠ None).
Proof.
  induction fuel as [|fuel IH]; intros after db Hfuel; [lia|]. cbn [recovery_pages].
  apply ends_bind. intros h. cbn [taken fst snd]. clear h. set (db1 := others _ db).
  assert (finishing db db1) as Hf1 by apply others_finish.
  apply ends_bind, ends_query, ends_bind, ends_lift. intros rows Hrows%map_err_ok%results_of_spec.
  destruct (last rows) as [row|] eqn:El.
  - assert (rows ≠ []) as Hne by (by intros ->). destruct rows as [|row0 rows']; [done|].
    set (rows := row0 :: rows') in *. apply ends_bind. eapply ends_mono.
    { apply (ends_moves finishing). by apply recover_rows_finishing. }
    intros records db2 Hf2. destruct records as [|r records]; [|by apply ends_ret]. apply IH.
    apply last_Some in El as [k Ek]. rewrite Ek in Hrows.
    apply Forall2_app_inv_r in Hrows as (l0 & l1 & _ & Hl1 & Epage).
    apply Forall2_cons_inv_r in Hl1 as (cN & l2 & HcN & _ & ->).
    apply recovery_row_columns in HcN as (-> & _).
    assert (cN ∈ page_rows store after limit db1) as HcN by (rewrite Epage; apply elem_of_app; right; by left).
    unfold page_rows in HcN. eapply elem_of_sublist in HcN; [|apply sublist_take].
    rewrite list_elem_of_In, List.filter_In, <- list_elem_of_In, unfinished_rows_elem, is_after_spec in HcN.
    destruct HcN as [[HcN _] Hlt]. unfold keys_after. rewrite (finishing_ids _ _ Hf2).
    eapply Nat.lt_le_trans; [|apply Nat.lt_succ_r, Hfuel]. unfold keys_after. rewrite <- (finishing_ids _ _ Hf1).
    apply filter_lt with (cd_candidate_id cN); [| |done|].
    + intros id Hid. by eapply compare_lt_trans.
    + by apply list_elem_of_fmap_2.
    + apply (cmp_lt_irrefl String.compare).
  - apply last_None in El as ->. by apply ends_ret.
Qed.
End rows.

(** ** What a recovered record holds *)

Section sound.
Context `{SerdeNumber, !SerdeNumberLaws, JsonDeserializer, !JsonMessages, !RecordWriter, !ValueEq, !CandidateDigest,
          !Sqlite}.
Context {Sources : Type} `{!Ingestion Sources}.
Notation Database := (Database.Database Sources).
Variable store : StoreCheckStore.

(** The record of a row is what the database saves of its candidate: its frozen
    input, exactly its attempts, and the preparation and the answer that fit them. *)
Definition resumable (db : Database) (row : RecoveryCandidateRow) (r : RecoveryRecord) : Prop :=
  let check := ea_compiled (rr_activation r) in
  ∃ saved candidate progress validated,
    select_one (has_id (rc_id row)) (db_candidates db) = Some saved ∧
    frozen_from_str (cd_frozen_input_json saved) = Ok candidate ∧
    hex (fr_fingerprint candidate) = rc_id row ∧ fr_activation candidate = ea_id (rr_activation r) ∧
    resumable_preparation (rr_activation r) row (cd_preparation_json saved) = Ok tt ∧
    (∀ rows, represents check (fr_fingerprint candidate) db rows → dp_attempts progress = rows) ∧
    validate_decision_progress (cc_decisions check) (question_requirements check) progress = Ok validated ∧
    match rr_work r with
    | WorkPending c resumed =>
        c = candidate ∧ (resumed = true ↔ dp_attempts progress ≠ []) ∧
        (is_local check = false → ∃ attempt n, vp_state validated = PNext attempt n)
    | WorkAnswered claimed evaluated =>
        cl_candidate claimed = candidate ∧ cl_id claimed = CandidateId_from candidate ∧ cl_fence claimed = rc_fence row ∧
        ∃ text durable, cd_answer_json saved = Some text ∧ decode_answer (rr_activation r) text = Ok evaluated ∧
          vp_state validated = PComplete durable ∧ assessment_eqb evaluated durable = true
    end.

Lemma ends_candidate_row id db (Q : CandidateRow → Database → Prop) :
  (∀ c, select_one (has_id id) (db_candidates db) = Some c → Q c db) → ends (candidate_row id) db Q.
Proof.
  intros HQ. unfold candidate_row. apply ends_bind, ends_query. destruct (select_one _ _); [|apply ends_fail].
  by apply ends_ret, HQ.
Qed.

Lemma ends_resumable activation row db :
  ends (recover_row_in activation row) db (λ r db', db' = db ∧ rr_activation r = activation ∧ resumable db row r).
Proof.
  unfold recover_row_in. apply ends_bind, ends_candidate_row. intros saved Hsaved.
  apply ends_bind, ends_refused. intros candidate Hc. apply ends_bind, ends_ensure.
  intros [Hid%String.eqb_eq Hact%bool_decide_eq_true]%andb_true_iff.
  apply ends_bind, ends_candidate_row. rewrite Hsaved. intros ? [= <-].
  apply ends_bind, ends_refused. intros [] Hprep. apply ends_bind.
  assert (ends (read_decision_rows (rc_id row) activation) db (λ progress db', db' = db ∧ ∀ rows,
    represents (ea_compiled activation) (fr_fingerprint candidate) db rows → dp_attempts progress = rows)) as Hread.
  { intros h. pose proof (moves_rows eq (rc_id row) activation (db, h)) as Hsame.
    destruct (read_decision_rows _ _ _) as [[progress|e] [db1 h1]] eqn:Erun; [|done]. simpl in Hsame. split; [done|].
    intros rows Hrows.
    pose proof (ends_decision_rows (ea_compiled activation) (fr_fingerprint candidate) (frozen_identity _ _ Hc)
      activation db rows (λ p _, dp_attempts p = rows) eq_refl Hrows ltac:(done) h) as Hexact.
    by rewrite Hid, Erun in Hexact. }
  eapply ends_mono; [exact Hread|]. intros progress db1 [-> Hexact].
  apply ends_bind, ends_ensure. intros _. apply ends_bind, ends_refused. intros validated Hv%map_err_ok.
  assert (∀ work, match work with
    | WorkPending c resumed =>
        c = candidate ∧ (resumed = true ↔ dp_attempts progress ≠ []) ∧
        (is_local (ea_compiled activation) = false → ∃ attempt n, vp_state validated = PNext attempt n)
    | WorkAnswered claimed evaluated =>
        cl_candidate claimed = candidate ∧ cl_id claimed = CandidateId_from candidate ∧ cl_fence claimed = rc_fence row ∧
        ∃ text durable, cd_answer_json saved = Some text ∧ decode_answer activation text = Ok evaluated ∧
          vp_state validated = PComplete durable ∧ assessment_eqb evaluated durable = true
    end → db = db ∧ activation = activation ∧ resumable db row {| rr_activation := activation; rr_work := work |}) as Hdone.
  { intros work Hwork. split_and!; [done|done|]. by exists saved, candidate, progress, validated. }
  apply ends_bind. destruct (bool_decide _).
  - apply ends_bind, ends_candidate_row. rewrite Hsaved. intros ? [= <-]. apply ends_refused. intros work Hw.
    apply ends_ret, Hdone. unfold answered_work in Hw. destruct (cd_answer_json saved) as [text|]; [|done].
    apply result_bind_ok in Hw as (evaluated & Hd & Hw). destruct (vp_state validated) as [|durable|] eqn:Est; try done.
    destruct (assessment_eqb evaluated durable) eqn:Eeq; [|done].
    apply result_bind_ok in Hw as (prior & _ & [= <-]). split_and!; [done..|]. by exists text, durable.
  - apply ends_refused. intros work Hw. apply ends_ret, Hdone. unfold pending_work in Hw.
    destruct (is_local _ || _) eqn:Eor; [|done]. injection Hw as <-. split_and!; [done| |].
    + by destruct (dp_attempts progress).
    + intros Hl. rewrite Hl in Eor. simpl in Eor. destruct (vp_state validated); try done. eauto.
Qed.

Variable others : Taking → Database → Database.

(** C15: a recovered record is what was saved.  When the recovery of a row gives a
    record, the transaction has changed nothing, and the record holds the frozen
    input of the row with its identity and activation, under a preparation that
    fits the check; its attempts are exactly the saved ones and validate; pending
    work has a next attempt or is local, and is resumed when it has attempts;
    answered work has the fence of the row and the saved answer, which is the
    assessment that the attempts give. *)
Theorem recovered_work_saved row record db db' :
  performs (recover_row store others row) (Ok (Some record)) db db' →
  db' = others (ForRow (rc_id row)) db ∧ resumable db' row record ∧
  registered_activation store {| a_scope := ss_scope store; a_definition_id := rc_check_id row;
                                 a_generation := rc_generation row |} = Some (rr_activation record) ∧
  exists_row (row_current store row db') (db_candidates db') = true.
Proof.
  intros (h & r & h' & Hrun & Hr). destruct r as [x|e]; [|done]. injection Hr as <-.
  unfold recover_row, bind, taken in Hrun. cbn [fst snd] in Hrun.
  set (db1 := others _ db) in *.
  eapply (transaction_ends _ _ (λ e db2, match e with
    | Commit (Some record) => db2 = db1 ∧ resumable db2 row record ∧
        registered_activation store {| a_scope := ss_scope store; a_definition_id := rc_check_id row;
                                       a_generation := rc_generation row |} = Some (rr_activation record) ∧
        exists_row (row_current store row db2) (db_candidates db2) = true
    | RollBack (Some _) => False
    | _ => True
    end)) in Hrun; [by destruct Hrun as [?|(_ & ? & [])]|].
  apply ends_bind, ends_query. destruct (exists_row _ _) eqn:Ecur; simpl negb; cbv iota; [|by apply ends_ret].
  apply ends_bind, ends_context. intros activation Hreg. apply ends_bind, ends_unless.
  - by apply moves_recover_row_in, _.
  - eapply ends_mono; [apply ends_resumable|]. intros record0 db2 (-> & <- & Hres). apply ends_ret. done.
  - apply ends_skip. intros [] db2. by apply ends_ret.
Qed.
End sound.

(** ** The recovery of the engine on the database *)

Section service.
Context `{SerdeNumber, UnicodeData, JsonDeserializer, !JsonMessages, !RecordWriter, !ValueEq, !CandidateDigest, !Sqlite}.
Context {Sources : Type} `{!Ingestion Sources}.
Notation Database := (Database.Database Sources).
Variable store : StoreCheckStore.

(** A call of a recovery takes the database along, after and while other threads
    finish work.  The recovery makes no other calls. *)
Definition store_service_step (X : Type) (c : service_call X) (x : X) (db db' : Database) : Prop :=
  ∃ db1, finishing db db1 ∧
  match c in service_call X return X → Prop with
  | LoadRecovery after limit => λ x, ∃ others fuel,
      (∀ t db, finishing db (others t db)) ∧
      performs (recovery_page store others fuel after limit) (result_map Some x) db1 db'
  | RecordOverflow c => λ x, performs (record_overflow store c) x db1 db'
  | @Evaluation _ X c => λ x, check_store_step store X c x db1 db'
  | _ => λ _, False
  end x.

(** The records that a trace has loaded *)
Definition loaded_by (e : event service_call) : list RecoveryRecord :=
  match e with
  | Ev c x =>
      match c in service_call X return X → list RecoveryRecord with
      | LoadRecovery _ _ => λ x, match x with Ok records => records | Err _ => [] end
      | _ => λ _, []
      end x
  end.

Definition loaded_in (tr : list (event service_call)) : list RecoveryRecord := mjoin (loaded_by <$> tr).

Definition recovery_call (X : Type) (c : service_call X) : Prop :=
  match c with
  | Evaluation c =>
      match c with
      | LoadTerminalCandidateIds _ | LocalExecutionIsCurrent _ | ValidatePrepared _ _ _ | LoadPreparation _
      | LoadDecisionProgress _ | RecordEvaluationFailure _ _ | RecordPreparationRejection _ _ | Accept _ => True
      | _ => False
      end
  | _ => True
  end.

(** The work that the contract speaks of is in the database. *)
Record stored_work (w : Work) (db : Database) : Prop := {
  sw_open : wk_open w = open_work store db;
  sw_ids : identified db;
  sw_loaded : Forall is_identity (record_id <$> wk_loaded w)
}.

Lemma service_simulates X c x db db' w :
  recovery_call X c → store_service_step X c x db db' → stored_work w db →
  ∃ w', work_step X c x w w' ∧ stored_work w' db' ∧ wk_loaded w' = (wk_loaded w ++ loaded_by (Ev c x))%list.
Proof.
  intros Hc (db1 & Hf1 & Hs) [Hopen Hids Hloaded].
  assert (identified db1) as Hids1 by (by eapply identified_finishing).
  assert (∀ db2 l, finishing db db2 → Forall is_identity (record_id <$> l) →
    stored_work {| wk_open := open_work store db2; wk_loaded := wk_loaded w ++ l |} db2 ∧
    sublist (open_work store db2) (wk_open w)) as Hnext.
  { intros db2 l Hf Hl. split; [split; [done|by eapply identified_finishing|cbn [wk_loaded]; rewrite fmap_app; by apply Forall_app]|].
    rewrite Hopen. by apply open_work_sublist. }
  assert (∀ db2, finishing db1 db2 → match c with LoadRecovery _ _ => False | _ => True end → ∃ w',
    work_step X c x w w' ∧ stored_work w' db2 ∧ wk_loaded w' = (wk_loaded w ++ loaded_by (Ev c x))%list) as Hplain.
  { intros db2 Hf2 Hn. destruct (Hnext db2 [] ltac:(by etransitivity) ltac:(done)) as [Hw Hsub].
    rewrite app_nil_r in Hw. exists {| wk_open := open_work store db2; wk_loaded := wk_loaded w |}.
    assert (loaded_by (Ev c x) = []) as -> by (by destruct c). rewrite app_nil_r. split; [|done].
    split; [done|]. by destruct c. }
  destruct c as [| | |candidate|after limit|X c]; try done.
  - apply Hplain; [|done]. eapply performs_moves; [|exact Hs]. apply overflow_finishing.
  - clear Hplain. destruct Hs as (others & fuel & Hothers & h & r & h' & Hrun & Hx).
    assert (∀ db2, finishing db1 db2 → (∃ e, x = Err e) → ∃ w', work_step _ (LoadRecovery after limit) x w w' ∧
      stored_work w' db2 ∧ wk_loaded w' = (wk_loaded w ++ loaded_by (Ev (LoadRecovery after limit) x))%list) as Hfailed.
    { intros db2 Hf2 [e ->]. destruct (Hnext db2 [] ltac:(by etransitivity) ltac:(done)) as [Hw Hsub].
      rewrite app_nil_r in Hw. eexists. split; [|split; [exact Hw|by simpl; rewrite app_nil_r]]. by split. }
    unfold recovery_page in Hrun.
    apply (reads_then _ _ (λ _ _, 1 ≤ limit)) in Hrun as [(e & -> & ->)|([] & h1 & Hlimit & Hrun)];
      [|clear h|apply (moves_ensure eq)|apply ends_ensure; intros [Hl _]%andb_true_iff; by apply N.leb_le].
    { apply Hfailed; [done|]. destruct x; [done|eauto]. }
    set (text := match after with Some id => hex id | None => "" end) in *.
    pose proof (recovery_pages_finishing store others Hothers fuel text limit (db1, h1)) as Hf2.
    pose proof (ends_pages store others Hothers limit fuel Hlimit text db1 Hids1 h1) as Hpage.
    rewrite Hrun in Hf2, Hpage. simpl in Hf2. destruct r as [[records|]|e]; [| |by apply Hfailed; [|destruct x; [|eauto]]].
    2: { by destruct x. }
    assert (x = Ok records) as -> by (destruct x; simpl in Hx; congruence). clear Hx Hfailed.
    destruct Hpage as [_ Hpage]. destruct (Hpage records eq_refl) as [P1 P2 P3 P4].
    assert (Forall is_identity (record_id <$> records)) as Hrecords.
    { apply Forall_forall. intros i [(c & _ & _ & [? _]%parsed_spec)%open_work_elem _]%P3. done. }
    destruct (Hnext db' records ltac:(by etransitivity) Hrecords) as [Hw Hsub]. eexists. split; [|split; [exact Hw|done]].
    split; [exact Hsub|]. split; [done|]. intros Hkey.
    assert (∀ i, is_identity i → after_key after i ↔ String.compare text (hex i) = Lt) as Hafter.
    { intros i Hi. unfold text, known_key in *. destruct after as [k|]; simpl.
      - apply id_lt_hex; [|done]. rewrite Forall_forall in Hloaded. by apply Hloaded.
      - destruct i as [|b i]; [by destruct Hi|]. done. }
    split_and!; [by rewrite length_fmap in *| |].
    + apply (sorted_sublist id_lt); [apply id_lt_irrefl|apply id_lt_asym|done| |].
      * eapply sublist_sorted; [apply sublist_filter|]. rewrite Hopen. by apply open_work_sorted.
      * intros i Hi. destruct (P3 i Hi) as [Hin Hlt]. apply list_elem_of_filter. rewrite Hopen.
        split; [|by eapply open_work_back]. apply Hafter; [|done]. rewrite Forall_forall in Hrecords. by apply Hrecords.
    + intros i Hi Ha. apply P4; [done|]. apply Hafter; [|done].
      by apply open_work_elem in Hi as (c & _ & _ & [? _]%parsed_spec).
  - apply Hplain; [|done]. by eapply call_finishing.
Qed.

Lemma service_simulates_trace tr : ∀ db db' w,
  Forall (λ e, match e with Ev c _ => recovery_call _ c end) tr →
  ghost_steps store_service_step db tr db' → stored_work w db →
  ∃ w', ghost_steps work_step w tr w' ∧ stored_work w' db' ∧ wk_loaded w' = (wk_loaded w ++ loaded_in tr)%list.
Proof.
  induction tr as [|[X c x] tr IH]; intros db db' w Hcalls Hs Hw.
  - simpl in Hs. subst. exists w. split; [done|]. split; [done|]. by rewrite app_nil_r.
  - apply Forall_cons in Hcalls as [Hc Hcalls]. destruct Hs as (db1 & Hs & Hrest).
    destruct (service_simulates X c x db db1 w Hc Hs Hw) as (w1 & Hw1 & Hst & Hl1).
    destruct (IH db1 db' w1 Hcalls Hrest Hst) as (w' & Hw' & Hst' & Hl'). exists w'.
    split; [by exists w1|]. split; [done|]. rewrite Hl', Hl1, <- app_assoc. done.
Qed.

(** [number_of_f64] is defined on the finite values. *)
Hypothesis finite_numbers : ∀ x, f64_finite x = true → is_Some (number_of_f64 x).

Lemma recovery_calls fuel tr p' :
  runs (recover_pending fuel) tr p' → Forall (λ e, match e with Ev c _ => recovery_call _ c end) tr.
Proof.
  intros Hrun. apply Forall_forall. intros e He. apply list_elem_of_split in He as (before & after & ->).
  destruct (hoare_calls _ _ _ _ _ _ _ _ _ _ _ _ _ (recover_pending_keeps finite_numbers fuel) Hrun eq_refl
              (logged_steps before)) as [_ Hreq].
  destruct e as [X c x]. simpl in Hreq. destruct c as [| | | | |X c]; try done. by destruct c.
Qed.

(** C14: the recovery on the database misses nothing.  However rows are rejected,
    statements and commits fail, and other threads finish work in between, the loop
    over the rows of a page ends within as many turns as there are candidates; the
    recovery ends within one turn more than there is unfinished work; and when it
    succeeds it has loaded, once each and in the order of their identities, all the
    candidates that are still unfinished in the database. *)
Theorem database_recovery db :
  identified db →
  (∀ others fuel after limit h,
     (∀ t db, finishing db (others t db)) → (length (db_candidates db) < fuel)%nat →
     (recovery_page store others fuel after limit (db, h)).1 ≠ Ok None) ∧
  ∀ fuel tr p' db',
    (length (open_work store db) < fuel)%nat → runs (recover_pending fuel) tr p' →
    ghost_steps store_service_step db tr db' →
    match p' with
    | Ret (Ok o) => all_handled o {| wk_open := open_work store db'; wk_loaded := loaded_in tr |}
    | Halt _ => False
    | _ => True
    end.
Proof.
  intros Hids. split.
  - intros others fuel after limit h Hothers Hfuel.
    assert (ends (recovery_page store others fuel after limit) db (λ x _, x ≠ None)) as He.
    { apply ends_reads; [apply (moves_ensure eq)|]. intros _. apply ends_fuel; [done|].
      eapply Nat.le_lt_trans; [|exact Hfuel]. etransitivity; [apply length_filter|]. by rewrite length_fmap. }
    specialize (He h). by destruct (recovery_page _ _ _ _ _ _) as [[x|e] [? ?]]; simpl; intros [=]; subst.
  - intros fuel tr p' db' Hfuel Hrun Hs.
    set (w := {| wk_open := open_work store db; wk_loaded := [] |}).
    destruct (service_simulates_trace tr db db' w) as (w' & Hsteps & [Hopen _ _] & Hloaded);
      [by eapply recovery_calls|done|by split|].
    pose proof (recover_pending_works finite_numbers fuel w (open_work_sorted store db Hids) eq_refl Hfuel) as Hw.
    destruct (hoare_sound _ _ _ _ _ _ _ _ _ _ Hw Hrun Hsteps) as [_ Hp].
    destruct p' as [[o|e]| | |]; try done. specialize (Hp o eq_refl).
    destruct w' as [wopen wloaded]. simpl in *. by subst.
Qed.
End service.

(** ** A concrete recovery

    The process of the sample run stopped before the acceptance of its answer; a
    second candidate of the scope has an input that cannot be read. *)

Section sample.
#[local] Existing Instance exact_numbers.
#[local] Existing Instance exact_number_laws.
#[local] Existing Instance ascii_unicode.
#[local] Existing Instance compact_writer.
#[local] Existing Instance stored_deserializer.
#[local] Existing Instance stored_messages.
#[local] Existing Instance stored_values.
#[local] Existing Instance stored_digest.
#[local] Existing Instance stored_sqlite.
#[local] Existing Instance stored_ingestion.
Notation Life := (Life (Sources:=unit)).

Definition alone (t : Taking) (db : Database.Database unit) : Database.Database unit := db.

(** The store answers a call; a call that no recovery makes is not answered. *)
Definition serve_service (X : Type) (c : service_call X) (g : Life) : option (X * Life) :=
  match c in service_call X return option (X * Life) with
  | LoadRecovery after limit =>
      match performing (recovery_page stored_store alone 10 after limit) g with
      | (Ok (Some records), g) => Some (Ok records, g)
      | (Err e, g) => Some (Err e, g)
      | (Ok None, _) => None
      end
  | RecordOverflow candidate => Some (performing (record_overflow stored_store candidate) g)
  | @Evaluation _ X c => Some (serve stored_store stored_outside X c g)
  | _ => None
  end.

Fixpoint serve_recovery {A} (p : service A) (l : SchedulerState) (g : Life) :
    option (list (event service_call) * A * Life) :=
  match p with
  | Ret a => Some ([], a, g)
  | Halt _ => None
  | Atomic f k => let '(x, l) := f l in serve_recovery (k x) l g
  | Call c k =>
      '(x, g) ← serve_service _ c g;
      '(tr, a, g) ← serve_recovery (k x) l g;
      Some (Ev c x :: tr, a, g)
  end.

Lemma serve_service_step X (c : service_call X) g x g' :
  serve_service X c g = Some (x, g') → store_service_step stored_store X c x (lf_db g) (lf_db g').
Proof.
  intros Hs. exists (lf_db g). split; [reflexivity|]. destruct c as [| | |candidate|after limit|X c]; try done.
  - injection Hs as Hs. pose proof (performing_performs (record_overflow stored_store candidate) g) as Hp.
    by rewrite Hs in Hp.
  - exists alone, 10%nat. split; [reflexivity|]. simpl in Hs.
    pose proof (performing_performs (recovery_page stored_store alone 10 after limit) g) as Hp.
    destruct (performing _ _) as [[[records|]|e] g1]; [| |]; simplify_eq; exact Hp.
  - injection Hs as Hs.
    destruct (serve_step stored_store stored_outside X c g) as [Hstep _]. by rewrite Hs in Hstep.
Qed.

Lemma serve_recovery_runs {A} (p : service A) : ∀ l g tr a g',
  serve_recovery p l g = Some (tr, a, g') →
  runs p tr (Ret a) ∧ ghost_steps (store_service_step stored_store) (lf_db g) tr (lf_db g').
Proof.
  induction p as [a0|X f k IH|X c k IH|why]; intros l g tr a g' Hs; simpl in Hs; [| | |done].
  - injection Hs as <- <- <-. split; [by left|done].
  - destruct (f l) as [x l'] eqn:E. apply IH in Hs as [Hr Hs]. split; [|done]. right. exists l. by rewrite E.
  - apply bind_Some in Hs as ([x g1] & Hx & Hs). apply bind_Some in Hs as ([[tr1 a1] g2] & Hrest & [= <- <- <-]).
    apply IH in Hrest as [Hr Hs]. split; [right; by exists x, tr1|].
    exists (lf_db g1). split; [by apply serve_service_step|done].
Qed.

Definition broken_row : CandidateRow :=
  {| cd_candidate_id := hex (repeat 8 32); cd_check_id := "a"; cd_scope_key := stored_scope; cd_generation := 1;
     cd_branch_key := "side"; cd_session_key_json := "session"; cd_trigger_position := 2;
     cd_selected_publication_head := 0; cd_dependencies_json := "[]"; cd_frozen_input_json := "broken";
     cd_answer_json := None; cd_state := SPending; cd_claim_owner := None; cd_claim_fence := 0;
     cd_claim_epoch := None; cd_prior_status := None; cd_updated_at_epoch := 0; cd_preparation_json := None;
     cd_diagnostic_json := None; cd_started_cooldown_until_epoch := None |}.

(** The database that the new process finds *)
Definition restarted : Life :=
  match stored_accept with
  | Some (_, g) =>
      (performing (recover_abandoned stored_store)
         {| lf_db := with_candidates (db_candidates (lf_db g) ++ [broken_row]) (lf_db g); lf_sent := lf_sent g |}).2
  | None => stored_start
  end.

Definition stored_recovery : option (list (event service_call) * result BatchOutcome StoreError * Life) :=
  serve_recovery (recover_pending 3) SchedulerState_default restarted.

(** The answer is published and the other candidate is rejected. *)
Example stored_recovery_run :
  (cd_state <$> db_candidates (lf_db restarted),
   (λ s, (is_ok s.1.2, cd_state <$> db_candidates (lf_db s.2), record_id <$> loaded_in s.1.1)) <$> stored_recovery) =
  ([SAnswered; SPending], Some (true, [SAccepted; SNotAssessed], [stored_id])).
Proof. vm_refl. Qed.

Lemma restarted_identified : identified (lf_db restarted).
Proof. apply (proj1 (bool_decide_eq_true _)). vm_refl. Qed.

Lemma database_recovery_witness :
  match stored_recovery with
  | Some (tr, Ok o, g) =>
      all_handled o {| wk_open := open_work stored_store (lf_db g); wk_loaded := loaded_in tr |} ∧
      record_id <$> loaded_in tr = [stored_id]
  | _ => False
  end.
Proof.
  assert ((λ s, (is_ok s.1.2, record_id <$> loaded_in s.1.1)) <$> stored_recovery = Some (true, [stored_id])) as Hs
    by vm_refl.
  destruct stored_recovery as [[[tr [o|e]] g]|] eqn:Er; [|discriminate Hs..]. cbn in Hs. injection Hs as Hids.
  apply serve_recovery_runs in Er as [Hr Hsteps]. split; [|exact Hids].
  destruct (database_recovery stored_store (@number_of_finite _ exact_number_laws) (lf_db restarted)
    restarted_identified) as [_ Hall].
  refine (Hall 3%nat tr (Ret (Ok o)) (lf_db g) _ Hr Hsteps).
  assert ((length (open_work stored_store (lf_db restarted)) <? 3)%nat = true) as Hl by vm_refl.
  by apply Nat.ltb_lt.
Defined.

(** The row of the answered candidate *)
Definition restarted_row : option RecoveryCandidateRow :=
  c ← List.hd_error (db_candidates (lf_db restarted));
  match recovery_row c with Ok row => Some row | Err _ => None end.

Lemma recovered_work_saved_witness :
  match restarted_row with
  | Some row =>
      match (performing (recover_row stored_store alone row) restarted).1 with
      | Ok (Some record) => resumable (lf_db restarted) row record ∧ record_id record = stored_id
      | _ => False
      end
  | None => False
  end.
Proof.
  assert ((λ row, match (performing (recover_row stored_store alone row) restarted).1 with
                  | Ok (Some record) => Some (record_id record) | _ => None end) <$> restarted_row =
          Some (Some stored_id)) as Hs by vm_refl.
  destruct restarted_row as [row|]; [|discriminate Hs]. cbn in Hs.
  pose proof (performing_performs (recover_row stored_store alone row) restarted) as Hp.
  destruct (performing (recover_row stored_store alone row) restarted) as [[[record|]|e] g]; [|discriminate Hs..].
  cbn in Hs, Hp. injection Hs as Hid. split; [|exact Hid].
  destruct (recovered_work_saved stored_store alone row record _ _ Hp) as (Hsame & Hres & _).
  unfold alone in Hsame. rewrite <- Hsame. exact Hres.
Defined.
End sample.
